(* ===== verification/_CoqProject ===== *)
-Q . S2P
Prelude.v
Peeker.v
Zcode.v
Types.v
EncodingProps.v
Context.v
Mapper.v
Interning.v
Decode.v
Goroutines.v
Primitive.v
Values.v
ValueProofs.v
Zngio.v
ZngTotal.v
ZngTypes.v
ZngStream.v
ZngWriter.v
ZngProps.v
Compare.v
CompareProofs.v
CompareProps.v
Journal.v
JournalProofs.v
JournalProps.v
JournalLive.v
Commits.v
CommitProofs.v
PatchProofs.v
Branch.v
BranchProofs.v
BranchSteps.v
CommitProps.v
BranchProps.v
Heap.v
Merge.v
MergeProofs.v
DataFiles.v
DataProofs.v
DataProps.v
Scan.v
ScanProofs.v
ScanProps.v
Expr.v
ExprProofs.v
ExprProps.v
Spill.v
SpillProofs.v
Ops.v
OpsProofs.v
OpsProps.v
Agg.v
AggSchema.v
AggProofs.v
AggProps.v
RecordBuilder.v
RecordBuilderProofs.v
RecordBuilderProps.v
Groupby.v
GroupbyProofs.v
GroupbyLaws.v
GroupbyProps.v
Vng.v
VngProofs.v
VngProps.v
