(* ===== verification/Prelude.v ===== *)
(** * A verification library for the Zed system

    Zed stores and queries "super-structured" data: typed values of arbitrary
    shape.  The system is a data model (package [zed] with [zcode]), formats
    ([zio], [zson], [vng]), a lake with pools, branches and commits ([lake]), a
    compiler ([compiler]) and the runtimes that evaluate queries ([runtime]).
    This development models the parts that decide whether data survives: the
    data model, the formats ZNG and VNG, the lake's journal, commits, branches
    and data objects, the scan of a pool in order, and, of the evaluation of
    queries, expressions, the operators on one stream and aggregation.

    ** The parts, how they interact, and the files that model them

    - [Prelude]: outcomes of Go code (a value, an error, a panic), state monads,
      machine integers, comparison functions, stable sorting, bytes.
    - [Peeker]: the buffered reader of the parsers ([pkg/peeker]).
    - [Zcode]: the tag-counted encoding, its iterator and builder ([zcode]);
      [EncodingProps] states its properties and those of types for callers.
    - [Types]: types, identifiers, kinds, order, type values ([type.go],
      [complex.go]).  [Context]: the table of types ([context.go]); [Interning]
      is its invariant, [Decode] the decoder of type values on any bytes and
      [Goroutines] the interleaving of locked sections and of [Reset].
      [Mapper]: types of one context in another ([mapper.go]).
    - [Primitive], [Values]: codecs of primitive values, values, navigation,
      validation, normal forms ([primitive.go], [value.go], [walk.go],
      [typevectortable.go]); proofs in [ValueProofs].
    - [Zngio]: writer and reader of ZNG streams ([zio/zngio]); [ZngTypes],
      [ZngStream], [ZngWriter] relate what is written to what is read,
      [ZngTotal] shows that reading ends, [ZngProps] states the properties.
    - [Vng]: columns, files and readers of VNG ([vng]); [VngProofs], [VngProps].
    - [Compare]: order of values, comparators and sorting ([expr/sort.go]);
      [CompareProofs], [CompareProps].
    - [Expr]: the evaluators of expressions ([expr/eval.go], [dot.go],
      [slice.go], [values.go], [coerce]); [ExprProofs], [ExprProps].
    - [Journal]: a queue in an object store and the key-value store over it
      ([lake/journal]), with a module [Steps] of the interleavings of processes;
      [JournalProofs], [JournalProps], [JournalLive].
    - [Commits]: commit objects, snapshots, patches and their store
      ([lake/commits]); [CommitProofs], [PatchProofs], [CommitProps].
    - [Branch]: branches and what changes them ([lake/branch.go],
      [lake/branches], [lake/pool.go]); [BranchSteps] interleaves clients;
      [BranchProofs], [BranchProps].
    - [DataFiles]: the file of a data object with its seek index
      ([lake/seekindex], [lake/data]); [DataProofs], [DataProps].
    - [Heap], [Merge]: the merge operator ([op/merge]) and the heap of the
      standard library; [MergeProofs].
    - [Scan]: lister, slicer and sequence scanner ([op/meta]), spans
      ([expr/extent]); [ScanProofs], [ScanProps].
    - [Spill]: sorting through files ([op/spill]); [SpillProofs].  [Ops]: head,
      tail, uniq, top, yield, apply and sort ([op]); [OpsProofs] has the
      contract of a parent and of each operator, [OpsProps] their composition.
    - [Agg]: aggregate functions, their partial results and the schema of fused
      types ([expr/agg], [expr/agg.go]); [AggSchema], [AggProofs], [AggProps].
    - [RecordBuilder]: records built from paths ([recordbuilder.go]);
      [RecordBuilderProofs], [RecordBuilderProps].
    - [Groupby]: group-by with its table, its spill files and the operator
      around them ([op/groupby]); [GroupbyProofs] follows the table and the
      files against laws of the aggregations, [GroupbyLaws] gives these laws
      from [AggProofs], [GroupbyProps] states the property.

    A context is an argument and a result of whatever may enter a type.  A
    writer encodes types against its own table and a reader maps them to a
    context ([Zngio] on [Context] and [Mapper]).  A data object is ZNG streams
    with an index of spans of keys ([DataFiles] on [Zngio]); a commit names data
    objects; the branches' tips are entries of a journal store ([Branch] on
    [Journal] and [Commits]); a scan lists the objects of a snapshot and merges
    those that overlap ([Scan] on [Merge] and [Compare]).  An operator is a
    function of its parent's pull, on its own state next to the parent's, so a
    query is the nesting of its operators ([Ops] on [Compare] and [Spill]).
    Group-by is where these meet: an operator that evaluates keys ([Expr]), keeps
    functions ([Agg]), builds records of them ([RecordBuilder]) and sorts partial
    results through files ([Spill]).

    ** How the code is modelled

    A Go function is a function to [outcome E A]: panics are values, so a
    theorem that an operation returns says that it does not panic.  Mutable
    state is passed explicitly ([stm], [M]); shared state that goroutines or
    processes change is a step relation whose steps are the accesses to it.
    Integers are [Z] with the wrap-around of their width written out; floats are
    their bits.  A Go map whose order of iteration shows is given with a
    parameter for the order.  What the code reaches outside this repository -
    compression, the conversion of floats, the storage engine - is a parameter
    with named laws, each with an instance for which the theorems are used.
    Accesses to storage are atomic: the journal's properties are those of an
    engine that puts an object if there is none and writes an object whole,
    which files do not promise and S3 refuses
    ([unconditional_put_loses_entry]).

    Loops that are not structural take fuel.  It is the length of what they
    consume (bytes of an iteration, of a stream), the depth of a type, or the
    number of entries; out of fuel is [Err Diverge], and the theorems show where
    it cannot happen ([reading_terminates], [DecodeTypeValue_total],
    [eval_sound], [vng_roundtrip]) or exhibit the input on which the source loops
    ([Under_null_union]).

    ** What the theorems show

    - Types: a context has one type per structure, however goroutines
      interleave; a type within the decoder's limits goes to any other context
      and back; decoding any bytes ends, in a value, an error or a panic.
    - Streams and files: what is written is read back, with types of the
      reader's context, in any chunks; reading any ZNG input ends.
    - Values: what [Validate] accepts, and where it accepts too much; canonical sets and maps, a total order
      of values on which sorting with its fast path is stable and correct.
    - Built records: each path gives back the value that was put there.
    - Expressions: evaluation returns a value of the shape of its type; integer
      arithmetic; an array keeps its elements.
    - Operators: a chain of operators gives, stream by stream and whatever the
      batches are, what the operators mean on lists; sorting through files is
      sorting; top keeps the largest values.
    - Aggregation: partial results stand for the values they were made of; the
      fused type holds each of the types; group-by answers one record per key
      with what its functions give on the values of the key, whether it spills
      or not.
    - Journal: concurrent commits are serializable and goroutines finish.
    - Commits and branches: tips always replay, branches only move forward, the
      result of each operation, snapshots with or without caches, merges,
      reverts, vacuuming; which steps of a client break this ([lost_update_dangles]).
    - Data objects and scans: a data object is read back whole and by ranges;
      partitions are separate; a scan returns the values of all objects in order.

    Each property says for which inputs it holds; theorems next to it exhibit
    what the code does on some of those left out, and where it does not do what
    it means to.

    ** Not modelled

    The text formats and ZSON (mostly lexing, formatting and reflection), and so
    the marshaling of the metadata of VNG; the compiler, of which the parser is
    generated; the vectorized runtime, whose arithmetic and comparisons are
    generated; casts, shapers and functions; the operators that run several
    parents (join, fork, switch, combine) or read metadata; the directory of
    pools; the service, clients and commands, which are I/O around the rest;
    storage engines, which are the parameters above. *)

From stdpp Require Export base tactics list numbers gmap strings fin_maps sorting.
From Stdlib Require Export ZArith Lia.
From Stdlib Require Import Strings.Byte.

(** ** Outcomes of Go code

    A Go function returns a value, returns an [error], or panics.  [outcome]
    keeps the three apart: a panic is never confused with an error value. *)

Inductive outcome (E A : Type) : Type :=
| Ok (a : A)
| Err (e : E)
| Panic.
Arguments Ok {E A} a.
Arguments Err {E A} e.
Arguments Panic {E A}.

Definition obind {E A B : Type} (m : outcome E A) (f : A -> outcome E B) : outcome E B :=
  match m with
  | Ok a => f a
  | Err e => Err e
  | Panic => Panic
  end.

Definition omap_err {E E' A : Type} (f : E -> E') (m : outcome E A) : outcome E' A :=
  match m with
  | Ok a => Ok a
  | Err e => Err (f e)
  | Panic => Panic
  end.

(** The error of a fuelled loop whose fuel ran out: the loop of the source is
    still running.  The theorems show where this cannot happen. *)
Inductive diverge := Diverge.

#[export] Instance outcome_ret {E} : MRet (outcome E) := fun A a => Ok a.
#[export] Instance outcome_bind {E} : MBind (outcome E) := fun A B f m => obind m f.

Lemma bind_Ok {E A B} (m : outcome E A) (f : A -> outcome E B) b :
  (m ≫= f) = Ok b <-> exists a, m = Ok a /\ f a = Ok b.
Proof.
  split.
  - destruct m as [a| |]; intros Hm; [by exists a|done|done].
  - by intros (a & -> & Hf).
Qed.

Lemma bind_assoc {E A B C} (m : outcome E A) (f : A -> outcome E B) (g : B -> outcome E C) :
  ((m ≫= f) ≫= g) = (m ≫= fun a => f a ≫= g).
Proof. by destruct m. Qed.

(** Computations on a state [S] that may fail or panic; the state survives a
    failure, as the fields of a Go receiver do. *)
Definition stm (S E A : Type) : Type := S -> outcome E A * S.
#[export] Instance stm_ret {S E} : MRet (stm S E) := fun A a s => (Ok a, s).
#[export] Instance stm_bind {S E} : MBind (stm S E) := fun A B f m s =>
  match m s with
  | (Ok a, s) => f a s
  | (Err e, s) => (Err e, s)
  | (Panic, s) => (Panic, s)
  end.
Definition throw {S E A : Type} (e : E) : stm S E A := fun s => (Err e, s).
Definition fault {S E A : Type} : stm S E A := fun s => (Panic, s).
Definition lift_out {S E A : Type} (m : outcome E A) : stm S E A := fun s => (m, s).
Definition get {S E : Type} : stm S E S := fun s => (Ok s, s).
Definition modify {S E : Type} (f : S -> S) : stm S E unit := fun s => (Ok tt, f s).

(** Chaining runs of such computations. *)
Lemma stm_bind_Ok {S E A B} (m : stm S E A) (f : A -> stm S E B) s a s' :
  m s = (Ok a, s') -> (m ≫= f) s = f a s'.
Proof. intros H. unfold mbind, stm_bind. by rewrite H. Qed.

Lemma stm_bind_Err {S E A B} (m : stm S E A) (f : A -> stm S E B) s e s' :
  m s = (Err e, s') -> (m ≫= f) s = (Err e, s').
Proof. intros H. unfold mbind, stm_bind. by rewrite H. Qed.

Lemma stm_bind_inv {S E A B} (m : stm S E A) (f : A -> stm S E B) s b s' :
  (m ≫= f) s = (Ok b, s') -> exists a s1, m s = (Ok a, s1) /\ f a s1 = (Ok b, s').
Proof. unfold mbind, stm_bind. destruct (m s) as [[a|e|] s1]; intros H; [by exists a, s1|done..]. Qed.

Lemma stm_ret_l {S E A B} (a : A) (f : A -> stm S E B) s : (mret a ≫= f) s = f a s.
Proof. done. Qed.

Lemma stm_get_l {S E B} (f : S -> stm S E B) s : (get ≫= f) s = f s s.
Proof. done. Qed.

Lemma stm_modify_l {S E B} g (f : unit -> stm S E B) s : (modify g ≫= f) s = f tt (g s).
Proof. done. Qed.

Lemma stm_lift_l {S E A B} (m : outcome E A) (f : A -> stm S E B) s a : m = Ok a -> (lift_out m ≫= f) s = f a s.
Proof. by intros ->. Qed.

(** ** Bytes and Go strings

    A byte is the Standard Library's [Byte.byte]; a Go [string] is its bytes;
    a Go byte slice that may be [nil] is an [option] of its bytes. *)

Abbreviation byte := Byte.byte.
Abbreviation gostring := (list byte).
Abbreviation bytes := (option (list byte)).

Definition bz (b : byte) : Z := Z.of_N (Byte.to_N b).
Definition zb (z : Z) : byte :=
  default Byte.x00 (Byte.of_N (Z.to_N (z mod 256)%Z)).

Lemma bz_range b : (0 <= bz b < 256)%Z.
Proof. unfold bz. pose proof (Byte.to_N_bounded b). lia. Qed.

Lemma zb_bz b : zb (bz b) = b.
Proof.
  unfold zb. rewrite Z.mod_small by apply bz_range.
  unfold bz. by rewrite N2Z.id, Byte.of_to_N.
Qed.

Lemma bz_zb z : bz (zb z) = (z mod 256)%Z.
Proof.
  unfold zb, bz. pose proof (Z.mod_pos_bound z 256 ltac:(lia)).
  destruct (Byte.of_N _) as [b|] eqn:E.
  - apply Byte.to_of_N in E. simpl. rewrite E. lia.
  - apply Byte.of_N_None_iff in E. lia.
Qed.

Lemma bz_inj a b : bz a = bz b -> a = b.
Proof. intros H. by rewrite <- (zb_bz a), <- (zb_bz b), H. Qed.

#[export] Instance byte_eq_dec : EqDecision byte := Byte.byte_eq_dec.
#[export] Instance byte_inhabited : Inhabited byte := populate Byte.x00.
#[export] Instance byte_countable : Countable byte :=
  inj_countable Byte.to_N Byte.of_N Byte.of_to_N.

(** A string literal as Go string. *)
Definition str (s : string) : gostring := String.list_byte_of_string s.

Definition zlen {A} (l : list A) : Z := Z.of_nat (length l).

Lemma zlen_nonneg {A} (l : list A) : (0 <= zlen l)%Z.
Proof. unfold zlen. lia. Qed.

Lemma zlen_app {A} (l k : list A) : zlen (l ++ k) = (zlen l + zlen k)%Z.
Proof. unfold zlen. rewrite length_app. lia. Qed.

Lemma zlen_cons {A} (x : A) l : zlen (x :: l) = (zlen l + 1)%Z.
Proof. unfold zlen. simpl. lia. Qed.

(** Go's [append(d, x...)]: appending nothing to a nil slice leaves it nil. *)
Definition go_append (d : bytes) (x : list byte) : bytes :=
  match d, x with
  | None, [] => None
  | _, _ => Some (default [] d ++ x)
  end.

Lemma go_append_cons d b x : go_append d (b :: x) = Some (default [] d ++ b :: x).
Proof. by destruct d. Qed.

Lemma go_append_default d x : default [] (go_append d x) = default [] d ++ x.
Proof. destruct d; simpl; [done|]. by destruct x. Qed.

(** ** Machine integers *)

Definition u64 (z : Z) : Z := (z mod 2 ^ 64)%Z.
Definition i64 (z : Z) : Z := ((z + 2 ^ 63) mod 2 ^ 64 - 2 ^ 63)%Z.
Definition u8 (z : Z) : Z := (z mod 2 ^ 8)%Z.

Lemma u64_range z : (0 <= u64 z < 2 ^ 64)%Z.
Proof. apply Z.mod_pos_bound. lia. Qed.

Lemma u64_id z : (0 <= z < 2 ^ 64)%Z -> u64 z = z.
Proof. apply Z.mod_small. Qed.

Lemma i64_range z : (- 2 ^ 63 <= i64 z < 2 ^ 63)%Z.
Proof. unfold i64. pose proof (Z.mod_pos_bound (z + 2 ^ 63) (2 ^ 64)). lia. Qed.

Lemma i64_id z : (- 2 ^ 63 <= z < 2 ^ 63)%Z -> i64 z = z.
Proof. intros. unfold i64. rewrite Z.mod_small; lia. Qed.

Lemma i64_neg z : (2 ^ 63 <= z < 2 ^ 64)%Z -> i64 z = (z - 2 ^ 64)%Z.
Proof.
  intros. unfold i64.
  replace (z + 2 ^ 63)%Z with (z - 2 ^ 63 + 1 * 2 ^ 64)%Z by lia.
  rewrite Z.mod_add by lia. rewrite Z.mod_small; lia.
Qed.

Lemma i64_u64 z : i64 (u64 z) = i64 z.
Proof.
  unfold i64, u64.
  by rewrite <- (Z.add_mod_idemp_l z), <- (Z.add_mod_idemp_l (z mod 2 ^ 64)), Z.mod_mod by lia.
Qed.

(** ** Comparisons

    Go comparison functions return a negative, zero or positive [int].  A
    lawful one is antisymmetric, transitive and zero only on equal values. *)

Class GoCompare {A} (cmp : A -> A -> Z) : Prop := {
  gc_antisym a b : (cmp b a = - cmp a b)%Z;
  gc_trans a b c : (cmp a b <= 0 -> cmp b c <= 0 -> cmp a c <= 0)%Z;
  gc_eq a b : cmp a b = 0%Z <-> a = b;
}.

(** [cmp.Compare] on integers. *)
Definition int_compare (a b : Z) : Z :=
  if (a <? b)%Z then -1 else if (b <? a)%Z then 1 else 0.

(** [bytes.Compare] and [strings.Compare]: lexicographic on unsigned bytes. *)
Fixpoint bytes_compare (a b : list byte) : Z :=
  match a, b with
  | [], [] => 0
  | [], _ :: _ => -1
  | _ :: _, [] => 1
  | x :: a', y :: b' =>
      if (bz x =? bz y)%Z then bytes_compare a' b' else int_compare (bz x) (bz y)
  end.

(** Case analysis on every integer test of the goal. *)
Ltac zcases :=
  repeat match goal with
  | |- context [(?a =? ?b)%Z] => destruct (Z.eqb_spec a b)
  | |- context [(?a <? ?b)%Z] => destruct (Z.ltb_spec a b)
  | |- context [(?a <=? ?b)%Z] => destruct (Z.leb_spec a b)
  | H : context [(?a =? ?b)%Z] |- _ => destruct (Z.eqb_spec a b)
  | H : context [(?a <? ?b)%Z] |- _ => destruct (Z.ltb_spec a b)
  | H : context [(?a <=? ?b)%Z] |- _ => destruct (Z.leb_spec a b)
  end.

#[export] Instance int_compare_lawful : GoCompare int_compare.
Proof. split; unfold int_compare; intros; zcases; lia. Qed.

#[export] Instance bytes_compare_lawful : GoCompare bytes_compare.
Proof.
  split.
  - intros a; induction a as [|x a IH]; intros [|y b]; simpl; try done.
    rewrite IH. unfold int_compare. zcases; lia.
  - intros a; induction a as [|x a IH]; intros [|y b] [|z c]; simpl; try lia.
    pose proof (IH b c). unfold int_compare. zcases; try lia; auto.
  - intros a; induction a as [|x a IH]; intros [|y b]; simpl; try done.
    destruct (Z.eqb_spec (bz x) (bz y)) as [E|E].
    + apply bz_inj in E as ->. rewrite IH. split; congruence.
    + split; [unfold int_compare; zcases; lia | intros [= -> ->]; done].
Qed.

Section compare_facts.
Context {A} (cmp : A -> A -> Z) `{!GoCompare cmp}.

Lemma gc_refl a : cmp a a = 0%Z.
Proof. by apply gc_eq. Qed.

Lemma gc_eq_1 a b : cmp a b = 0%Z -> a = b.
Proof. apply gc_eq. Qed.

Lemma gc_lt_trans a b c : (cmp a b < 0 -> cmp b c < 0 -> cmp a c < 0)%Z.
Proof.
  intros H1 H2. assert (cmp a c <= 0)%Z by (apply (gc_trans a b c); lia).
  destruct (Z.eq_dec (cmp a c) 0) as [E|]; [|lia].
  apply gc_eq in E as ->. rewrite gc_antisym in H2. lia.
Qed.

#[export] Instance gc_le_antisym : AntiSymm (=) (fun a b => (cmp a b <= 0)%Z).
Proof.
  intros a b H1 H2. rewrite gc_antisym in H2. apply gc_eq. lia.
Qed.

#[export] Instance gc_le_transitive : Transitive (fun a b => (cmp a b <= 0)%Z).
Proof. intros a b c. apply gc_trans. Qed.
End compare_facts.

(** ** Stable sorting

    [sort.SliceStable] with the order [lt], as its insertion sort does it: each
    element moves left past the elements it is less than.  For a strict weak
    order the stably sorted permutation is unique, so the algorithm is
    immaterial; on other orders this is the result up to the block size of the
    standard library (20 elements). *)

Section stable_sort.
Context {A : Type} (lt : A -> A -> bool).

(** Insertion in the sorted prefix, which is kept in reverse. *)
Fixpoint insert_rev (x : A) (r : list A) : list A :=
  match r with
  | [] => [x]
  | y :: r' => if lt x y then y :: insert_rev x r' else x :: y :: r'
  end.

Definition stable_sort (l : list A) : list A := rev (fold_left (fun r x => insert_rev x r) l []).

Lemma insert_rev_perm x r : insert_rev x r ≡ₚ x :: r.
Proof.
  induction r as [|y r IH]; simpl; [done|]. destruct (lt x y); [|done].
  rewrite IH. constructor.
Qed.

Lemma fold_insert_perm l r : fold_left (fun r x => insert_rev x r) l r ≡ₚ l ++ r.
Proof.
  revert r. induction l as [|x l IH]; intros r; simpl; [done|].
  rewrite IH, insert_rev_perm. by rewrite Permutation_middle.
Qed.

Lemma stable_sort_perm l : stable_sort l ≡ₚ l.
Proof.
  unfold stable_sort. rewrite <- Permutation_rev, fold_insert_perm. by rewrite app_nil_r.
Qed.

Lemma length_stable_sort l : length (stable_sort l) = length l.
Proof. by rewrite stable_sort_perm. Qed.

(** Adjacent elements in order. *)
Inductive ordered : list A -> Prop :=
| ordered_nil : ordered []
| ordered_one x : ordered [x]
| ordered_cons x y l : lt y x = false -> ordered (y :: l) -> ordered (x :: y :: l).

Lemma fold_insert_ordered l r :
  ordered l -> match l, r with x :: _, y :: _ => lt x y = false | _, _ => True end ->
  fold_left (fun r x => insert_rev x r) l r = rev l ++ r.
Proof.
  intros Ho. revert r. induction Ho as [|x|x y l Hxy Ho IH]; intros r Hr; [done|..].
  - simpl. destruct r as [|z r]; simpl; [done|]. by rewrite Hr.
  - cbn [fold_left rev] in *. rewrite IH.
    + rewrite <- !app_assoc. f_equal. f_equal. destruct r as [|z r]; simpl; [done|]. by rewrite Hr.
    + destruct r as [|z r]; simpl; [done|]. by rewrite Hr.
Qed.

Lemma stable_sort_id l : ordered l -> stable_sort l = l.
Proof.
  intros Ho. unfold stable_sort. rewrite fold_insert_ordered; [|done|by destruct l].
  by rewrite app_nil_r, rev_involutive.
Qed.

Context (Hasym : forall x y, lt x y = true -> lt y x = false).

Inductive ordered_rev : list A -> Prop :=
| ordered_rev_nil : ordered_rev []
| ordered_rev_one x : ordered_rev [x]
| ordered_rev_cons x y l : lt x y = false -> ordered_rev (y :: l) -> ordered_rev (x :: y :: l).

Lemma insert_rev_ordered x r : ordered_rev r -> ordered_rev (insert_rev x r).
Proof.
  induction 1 as [|y|y z r Hyz Ho IH]; cbn [insert_rev] in *; [constructor|..].
  - destruct (lt x y) eqn:E; repeat constructor; auto.
  - destruct (lt x y) eqn:E; [|by repeat constructor].
    destruct (lt x z); constructor; auto.
Qed.

Lemma ordered_snoc l x y : ordered (l ++ [y]) -> lt x y = false -> ordered (l ++ [y; x]).
Proof.
  induction l as [|z l IH]; simpl; intros Ho Hxy; [by repeat constructor|].
  destruct l as [|w l]; simpl in *; inversion_clear Ho; repeat constructor; auto.
Qed.

Lemma ordered_rev_rev r : ordered_rev r -> ordered (rev r).
Proof.
  induction 1 as [|x|x y r Hxy Ho IH]; simpl in *; [constructor..|].
  rewrite <- app_assoc. by apply ordered_snoc.
Qed.

Lemma stable_sort_ordered l : ordered (stable_sort l).
Proof.
  apply ordered_rev_rev. assert (H : ordered_rev []) by constructor. revert H.
  generalize (@nil A). induction l as [|x l IH]; simpl; intros r Hr; [done|].
  by apply IH, insert_rev_ordered.
Qed.

Lemma stable_sort_idemp l : stable_sort (stable_sort l) = stable_sort l.
Proof. apply stable_sort_id, stable_sort_ordered. Qed.
End stable_sort.

Definition cmp_lt {A} (cmp : A -> A -> Z) (a b : A) : bool := (cmp a b <? 0)%Z.

(** Sorting by a comparison that is lawful on the elements satisfying [P]. *)
Section sort_by.
Context {A : Type} (cmp : A -> A -> Z) (P : A -> Prop).
Context (Hanti : forall a b, (cmp b a = - cmp a b)%Z)
        (Htrans : forall a b c, P a -> P b -> P c -> (cmp a b <= 0 -> cmp b c <= 0 -> cmp a c <= 0)%Z).
Local Abbreviation le := (fun a b => (cmp a b <= 0)%Z).

Lemma cmp_lt_asym x y : cmp_lt cmp x y = true -> cmp_lt cmp y x = false.
Proof. unfold cmp_lt. rewrite (Hanti x y). zcases; intros; done || lia. Qed.

Lemma ordered_sorted l : Forall P l -> ordered (cmp_lt cmp) l -> StronglySorted le l.
Proof.
  intros HP Ho. induction Ho as [|x|x y l Hxy Ho IH]; [by repeat constructor..|].
  inversion_clear HP as [|?? Hx HPl]. specialize (IH HPl). constructor; [done|].
  assert (cmp x y <= 0)%Z by (unfold cmp_lt in Hxy; rewrite Hanti in Hxy; apply Z.ltb_ge in Hxy; lia).
  inversion_clear IH as [|?? _ Hy]. inversion_clear HPl as [|?? HPy HPl'].
  constructor; [done|]. rewrite Forall_forall in *. intros z Hz. by apply (Htrans x y z); auto.
Qed.

Lemma stable_sort_sorted l : Forall P l -> StronglySorted le (stable_sort (cmp_lt cmp) l).
Proof.
  intros. apply ordered_sorted; [by rewrite stable_sort_perm|].
  apply stable_sort_ordered, cmp_lt_asym.
Qed.

Lemma sorted_ordered l : StronglySorted le l -> ordered (cmp_lt cmp) l.
Proof.
  induction 1 as [|x l Hs IH Hx]; [constructor|]. destruct Hx as [|y l Hxy Hx]; constructor; [|done].
  unfold cmp_lt. rewrite Hanti. apply Z.ltb_ge. lia.
Qed.

Lemma stable_sort_sorted_id l : StronglySorted le l -> stable_sort (cmp_lt cmp) l = l.
Proof. intros. by apply stable_sort_id, sorted_ordered. Qed.

Context (Heq : forall a b, P a -> P b -> cmp a b = 0%Z -> a = b).

Lemma sorted_unique l k :
  Forall P l -> StronglySorted le l -> StronglySorted le k -> l ≡ₚ k -> l = k.
Proof.
  intros HP Hl. revert k. induction Hl as [|x l Hl IH Hx]; intros k Hk Hp.
  { by apply Permutation_nil_l in Hp. }
  destruct Hk as [|y k Hk Hy]; [by apply Permutation_sym, Permutation_nil_cons in Hp|].
  assert (Forall P (y :: k)) as HPk by by rewrite <- Hp.
  inversion_clear HP as [|?? HPx HPl]. inversion_clear HPk as [|?? HPy HPk'].
  assert (x = y) as ->.
  { assert (Hyx : y ∈ x :: l) by (rewrite Hp; left). assert (Hxy : x ∈ y :: k) by (rewrite <- Hp; left).
    rewrite Forall_forall in *. apply elem_of_cons in Hyx as [->|Hyl]; [done|].
    apply elem_of_cons in Hxy as [->|Hxk]; [done|].
    specialize (Hx y Hyl). specialize (Hy x Hxk). apply Heq; [done..|].
    rewrite Hanti in Hy. lia. }
  f_equal. apply IH; [done..|]. by apply Permutation_cons_inv in Hp.
Qed.

Lemma stable_sort_perm_eq l k :
  Forall P l -> l ≡ₚ k -> stable_sort (cmp_lt cmp) l = stable_sort (cmp_lt cmp) k.
Proof.
  intros HP Hp. assert (Forall P k) by by rewrite <- Hp. apply sorted_unique.
  - by rewrite stable_sort_perm.
  - by apply stable_sort_sorted.
  - by apply stable_sort_sorted.
  - by rewrite !stable_sort_perm.
Qed.
End sort_by.

(** ** Bit arithmetic *)

Section bits.
Local Open Scope Z_scope.

Lemma lor_shiftl_add x y s : 0 <= s -> 0 <= x < 2 ^ s -> 0 <= y -> Z.lor x (Z.shiftl y s) = x + y * 2 ^ s.
Proof.
intros Hs Hx Hy. rewrite Z.shiftl_mul_pow2 by done.
rewrite <- Z.add_lor_land.
replace (Z.land x (y * 2 ^ s)) with 0; [lia|].
symmetry. apply Z.bits_inj'. intros n Hn. rewrite Z.land_spec, Z.bits_0.
destruct (Z.ltb_spec n s).
- rewrite (Z.mul_pow2_bits_low y) by lia. apply andb_false_r.
- destruct (decide (x = 0)) as [->|]; [by rewrite Z.bits_0|].
  rewrite (Z.bits_above_log2 x); [done|lia|].
  apply Z.log2_lt_pow2; [lia|]. eapply Z.lt_le_trans; [apply Hx|].
  apply Z.pow_le_mono_r; lia.
Qed.

Lemma land_ones_mod x n : 0 <= n -> Z.land x (2 ^ n - 1) = x mod 2 ^ n.
Proof. intros. rewrite <- Z.land_ones by done. by rewrite Z.ones_equiv, <- Z.sub_1_r. Qed.

Lemma lor_128 x : Z.lor (x mod 256) 128 = 128 + x mod 128.
Proof.
assert (Hr : 0 <= x mod 128 < 2 ^ 7) by (apply Z.mod_pos_bound; lia).
replace (128 + x mod 128) with (x mod 128 + 1 * 2 ^ 7) by lia.
rewrite <- lor_shiftl_add by lia.
apply Z.bits_inj'. intros n Hn. rewrite !Z.lor_spec.
change (Z.shiftl 1 7) with 128.
change (x mod 256) with (x mod 2 ^ 8). change (x mod 128) with (x mod 2 ^ 7).
rewrite !Z.testbit_mod_pow2 by lia.
destruct (Z.ltb_spec n 7), (Z.ltb_spec n 8); simpl; try lia; [done| |done].
replace n with 7 by lia. simpl. by rewrite !orb_true_r.
Qed.


Lemma bz_zb_small z : 0 <= z < 256 -> bz (zb z) = z.
Proof. intros. rewrite bz_zb. by apply Z.mod_small. Qed.

End bits.
