(* ===== verification/Peeker.v ===== *)
(** * The buffered reader of the frame parsers

    [src/pkg/peeker/reader.go]: reads ahead of what is asked for, so that a
    caller can look at bytes before it takes them.  The underlying [io.Reader]
    delivers its bytes in chunks of its own choice: how many bytes
    [io.ReadAtLeast] returns beyond the minimum is the parameter [chunk].  The
    underlying reader does not fail otherwise.  The theorems show that the
    chunks cannot be observed: the reader is the stream of its bytes. *)

From S2P Require Import Prelude.
Local Open Scope Z_scope.

Inductive peek_error := ErrBufferOverflow | ErrTruncated | ErrNegative | ErrPeekEOF.

(** [cursor] is the part of the buffer that was not yet read, [rest] what the
    underlying reader has left. *)
Record Reader := mkReader {
  limit : Z;
  cursor : list byte;
  rest : list byte;
  eof : bool;
}.

Section reader.
Context (chunk : list byte -> Z -> Z).

Definition NewReader (max : Z) (r : list byte) : Reader := mkReader max [] r false.

(** How much [io.ReadAtLeast(r, buf, min)] reads: all there is when that is
    less than [min]. *)
Definition read_at_least (r : list byte) (min : Z) : nat :=
  Z.to_nat (Z.min (zlen r) (Z.max min (chunk r min))).

Definition fill (need : Z) : stm Reader peek_error unit := fun r =>
  if limit r <? need then (Err ErrBufferOverflow, r)
  else
    let min := need - zlen (cursor r) in
    let n := read_at_least (rest r) min in
    (Ok tt, mkReader (limit r) (cursor r ++ take n (rest r)) (drop n (rest r))
              (eof r || (zlen (rest r) <? min))).

Definition at_end (r : Reader) : bool := (zlen (cursor r) =? 0) && eof r.

Definition Peek (n : Z) : stm Reader peek_error (list byte) :=
  if n <? 0 then throw ErrNegative
  else
    r ← get;
    if at_end r then throw ErrPeekEOF
    else
      _ ← (if (zlen (cursor r) <? n) && negb (eof r) then
             _ ← fill n; r ← get; if at_end r then throw ErrPeekEOF else mret tt
           else mret tt);
      r ← get;
      if zlen (cursor r) <? n then throw ErrTruncated
      else mret (take (Z.to_nat n) (cursor r)).

Definition advance (n : Z) (r : Reader) : Reader :=
  mkReader (limit r) (drop (Z.to_nat n) (cursor r)) (rest r) (eof r).

Definition Read (n : Z) : stm Reader peek_error (list byte) :=
  b ← Peek n; _ ← modify (advance n); mret b.

Definition ReadByte : stm Reader peek_error byte := fun r =>
  match cursor r with
  | b :: _ => (Ok b, advance 1 r)
  | [] =>
      (buf ← Read 1;
       match buf with
       | b :: _ => mret b
       | [] => fault
       end : stm Reader peek_error byte) r
  end.

(** ** The stream behind the buffer *)

Definition stream (r : Reader) : list byte := cursor r ++ rest r.

(** The end is only noted when the underlying reader has nothing left. *)
Definition sound (r : Reader) : Prop := eof r = true -> rest r = [].

(** [r'] is [r] with [n] bytes of the stream read. *)
Definition reads_to (n : Z) (r r' : Reader) : Prop :=
  sound r' /\ limit r' = limit r /\ stream r' = drop (Z.to_nat n) (stream r).

Lemma NewReader_sound max l : sound (NewReader max l) /\ stream (NewReader max l) = l.
Proof. done. Qed.

Lemma read_at_least_le r min : 0 < min -> Z.min (zlen r) min <= Z.of_nat (read_at_least r min) <= zlen r.
Proof. intros. unfold read_at_least. pose proof (zlen_nonneg r). lia. Qed.

Lemma fill_spec need r :
  sound r -> zlen (cursor r) < need <= limit r ->
  exists r', fill need r = (Ok tt, r') /\ reads_to 0 r r' /\
    (need <= zlen (cursor r') \/ eof r' = true /\ cursor r' = stream r).
Proof.
  intros Hs [Hc Hl]. unfold fill. destruct (Z.ltb_spec (limit r) need); [lia|].
  set (n := read_at_least _ _). eexists. split; [done|].
  pose proof (read_at_least_le (rest r) (need - zlen (cursor r)) ltac:(lia)) as Hn. fold n in Hn.
  assert (Hall : zlen (rest r) < need - zlen (cursor r) -> n = length (rest r)) by (unfold zlen in *; lia).
  split.
  - split_and!; [|done|].
    + unfold sound. simpl. destruct (eof r) eqn:E; simpl; [intros _; by rewrite Hs, drop_nil|].
      intros Hr%Z.ltb_lt. rewrite Hall by done. by rewrite drop_all.
    + unfold stream. simpl. by rewrite <- app_assoc, take_drop.
  - simpl. destruct (Z.ltb_spec (zlen (rest r)) (need - zlen (cursor r))) as [Hr|Hr].
    + right. rewrite orb_true_r, Hall by done. split; [done|]. by rewrite firstn_all.
    + left. rewrite zlen_app. unfold zlen at 2. rewrite length_take. unfold zlen in *. lia.
Qed.

(** Reading bytes that the stream has, whatever the chunks. *)
Lemma Read_Ok n r :
  sound r -> 0 < n <= zlen (stream r) -> n <= limit r ->
  exists r', Read n r = (Ok (take (Z.to_nat n) (stream r)), r') /\ reads_to n r r'.
Proof.
  intros Hs Hn Hl. unfold Read, Peek.
  assert (Hfin : forall r1, reads_to 0 r r1 -> n <= zlen (cursor r1) ->
    exists r', ((if zlen (cursor r1) <? n then throw ErrTruncated
                 else mret (take (Z.to_nat n) (cursor r1)) : stm Reader peek_error (list byte)) ≫=
               (fun b => _ ← modify (advance n); mret b)) r1 = (Ok (take (Z.to_nat n) (stream r)), r') /\
      reads_to n r r').
  { intros r1 (Hs1 & Hl1 & Hst) Hc. destruct (Z.ltb_spec (zlen (cursor r1)) n); [lia|].
    rewrite drop_0 in Hst. exists (advance n r1). unfold zlen in *. rewrite <- Hst. unfold stream. split.
    - rewrite take_app_le by lia. done.
    - split_and!; [done|done|]. unfold stream in *. simpl. rewrite <- Hst, drop_app_le by lia. done. }
  destruct (Z.ltb_spec n 0); [lia|]. unfold at_end.
  assert (Hne : (zlen (cursor r) =? 0) && eof r = false).
  { destruct (Z.eqb_spec (zlen (cursor r)) 0) as [E|]; [|done]. destruct (eof r) eqn:Ee; [|done].
    unfold stream in Hn. rewrite (Hs Ee), app_nil_r in Hn. lia. }
  unfold mbind at 1, stm_bind at 1. unfold mbind at 1, stm_bind at 1. unfold get at 1. rewrite Hne.
  unfold mbind at 1, stm_bind at 1.
  destruct ((zlen (cursor r) <? n) && negb (eof r)) eqn:Hfill.
  - apply andb_true_iff in Hfill as [Hlt%Z.ltb_lt _].
    destruct (fill_spec n r Hs ltac:(lia)) as (r1 & E1 & Hr1 & Hor).
    rewrite (stm_bind_Ok _ _ _ _ _ E1). unfold mbind at 1, stm_bind at 1. unfold get at 1.
    assert (Hge : n <= zlen (cursor r1)) by (destruct Hor as [?|[_ ->]]; lia).
    destruct (Z.eqb_spec (zlen (cursor r1)) 0); [lia|]. cbn [andb]. by apply Hfin.
  - apply Hfin.
    + split_and!; [done|done|by rewrite drop_0].
    + destruct (Z.ltb_spec (zlen (cursor r)) n); [|done]. simpl in Hfill. apply negb_false_iff in Hfill.
      unfold stream in Hn. rewrite (Hs Hfill), app_nil_r in Hn. lia.
Qed.

(** At the end of the stream, and before it but short of [n] bytes. *)
Lemma Read_short n r :
  sound r -> 0 < n <= limit r -> zlen (stream r) < n ->
  exists r', Read n r = (Err (if zlen (stream r) =? 0 then ErrPeekEOF else ErrTruncated), r') /\
    reads_to 0 r r'.
Proof.
  intros Hs [Hn Hl] Hlt. unfold Read, Peek, at_end.
  destruct (Z.ltb_spec n 0); [lia|]. unfold mbind, stm_bind, get.
  assert (Hst : stream r = cursor r ++ rest r) by done.
  destruct (eof r) eqn:Ee.
  - assert (Hr : stream r = cursor r) by (rewrite Hst, (Hs Ee), app_nil_r; done).
    rewrite <- Hr. rewrite andb_true_r. exists r.
    assert (reads_to 0 r r) by (split_and!; [done|done|by rewrite drop_0]).
    destruct (Z.eqb_spec (zlen (stream r)) 0); [done|].
    rewrite andb_false_r. unfold mret, stm_ret. rewrite <- Hr.
    destruct (Z.ltb_spec (zlen (stream r)) n); [done|lia].
  - rewrite andb_false_r, andb_true_r.
    assert (Hc : zlen (cursor r) < n) by (rewrite Hst, zlen_app in Hlt; pose proof (zlen_nonneg (rest r)); lia).
    destruct (Z.ltb_spec (zlen (cursor r)) n); [|lia].
    destruct (fill_spec n r Hs ltac:(lia)) as (r1 & E1 & Hr1 & Hor). rewrite E1.
    destruct Hor as [Hge|[Ee1 Ec1]].
    { destruct Hr1 as (_ & _ & Hst1). rewrite drop_0 in Hst1.
      assert (zlen (stream r1) < n) by (by rewrite Hst1). unfold stream in *. rewrite zlen_app in *.
      pose proof (zlen_nonneg (rest r1)). lia. }
    rewrite Ee1, Ec1, andb_true_r. exists r1.
    destruct (Z.eqb_spec (zlen (stream r)) 0); [done|].
    unfold mret, stm_ret. rewrite Ec1. destruct (Z.ltb_spec (zlen (stream r)) n); [done|lia].
Qed.

Lemma ReadByte_cons b l r :
  sound r -> 1 <= limit r -> stream r = b :: l ->
  exists r', ReadByte r = (Ok b, r') /\ reads_to 1 r r'.
Proof.
  intros Hs Hl Hst. unfold ReadByte. destruct (cursor r) as [|x c] eqn:Ec.
  - destruct (Read_Ok 1 r Hs) as (r' & E & Hr); [rewrite Hst, zlen_cons; pose proof (zlen_nonneg l); lia|done|].
    exists r'. split; [|done]. unfold mbind, stm_bind. rewrite E, Hst. done.
  - unfold stream in Hst. rewrite Ec in Hst. simpl in Hst. injection Hst as -> <-.
    eexists. split; [done|]. split_and!; [done|done|]. unfold stream. simpl. by rewrite Ec.
Qed.

Lemma ReadByte_nil r :
  sound r -> 1 <= limit r -> stream r = [] ->
  exists r', ReadByte r = (Err ErrPeekEOF, r') /\ reads_to 0 r r'.
Proof.
  intros Hs Hl Hst. unfold ReadByte. destruct (cursor r) as [|x c] eqn:Ec.
  - destruct (Read_short 1 r Hs) as (r' & E & Hr); [lia|by rewrite Hst|].
    exists r'. split; [|done]. unfold mbind, stm_bind. rewrite E, Hst. done.
  - unfold stream in Hst. by rewrite Ec in Hst.
Qed.
End reader.

(** ** Any read

    Whatever is asked for, a reader stays sound and only drops bytes of its
    stream. *)
Section any_read.
Context (chunk : list byte -> Z -> Z).

Definition shrinks (k : nat) (r r' : Reader) : Prop :=
  sound r' /\ limit r' = limit r /\ (length (stream r') + k <= length (stream r))%nat.

Lemma shrinks_refl r : sound r -> shrinks 0 r r.
Proof. intros. split_and!; [done..|lia]. Qed.

Lemma fill_shrinks need r : sound r -> shrinks 0 r (fill chunk need r).2.
Proof.
  intros Hs. unfold fill. destruct (limit r <? need) eqn:El; [by apply shrinks_refl|].
  split_and!; [|done|unfold stream; simpl; rewrite !length_app, length_take, length_drop; lia].
  unfold sound. simpl. destruct (eof r) eqn:E; simpl; [intros _; by rewrite Hs, drop_nil|].
  intros Hr%Z.ltb_lt. apply drop_ge. unfold read_at_least, zlen in *. lia.
Qed.

Lemma Peek_shrinks n r :
  sound r -> shrinks 0 r (Peek chunk n r).2 /\
  forall b, (Peek chunk n r).1 = Ok b -> b = take (Z.to_nat n) (cursor (Peek chunk n r).2) /\ length b = Z.to_nat n.
Proof.
  intros Hs. unfold Peek. destruct (Z.ltb_spec n 0); [by split; [apply shrinks_refl|]|].
  unfold mbind, stm_bind, get, at_end. destruct ((zlen (cursor r) =? 0) && eof r); [by split; [apply shrinks_refl|]|].
  assert (Hend : forall r1, shrinks 0 r r1 ->
    let m := (if zlen (cursor r1) <? n then throw ErrTruncated else mret (take (Z.to_nat n) (cursor r1)) : stm Reader peek_error (list byte)) in
    shrinks 0 r (m r1).2 /\ forall b, (m r1).1 = Ok b -> b = take (Z.to_nat n) (cursor (m r1).2) /\ length b = Z.to_nat n).
  { intros r1 Hr1. cbv zeta. destruct (Z.ltb_spec (zlen (cursor r1)) n); cbn; [done|]. split; [done|]. intros b [= <-]. split; [done|].
    rewrite length_take. unfold zlen in *. lia. }
  destruct ((zlen (cursor r) <? n) && negb (eof r)).
  - pose proof (fill_shrinks n r Hs) as Hf. destruct (fill chunk n r) as [[[]|e|] r1]; cbn [snd] in Hf; [|done..].
    destruct ((zlen (cursor r1) =? 0) && eof r1); [done|]. by apply Hend.
  - apply Hend. by apply shrinks_refl.
Qed.

Lemma Read_shrinks n r :
  sound r -> shrinks (match (Read chunk n r).1 with Ok _ => Z.to_nat n | _ => 0 end) r (Read chunk n r).2.
Proof.
  intros Hs. destruct (Peek_shrinks n r Hs) as [(Hs1 & Hl1 & Hn1) Hb]. unfold Read, mbind, stm_bind.
  destruct (Peek chunk n r) as [[b|e|] r1]; cbn [fst snd modify mret stm_ret] in *; [|done..].
  destruct (Hb b eq_refl) as [-> Hlen]. rewrite length_take in Hlen.
  split_and!; [done|done|]. unfold stream, advance in *. simpl. rewrite !length_app, length_drop in *. lia.
Qed.

Lemma ReadByte_shrinks r :
  sound r -> shrinks (match (ReadByte chunk r).1 with Ok _ => 1 | _ => 0 end) r (ReadByte chunk r).2.
Proof.
  intros Hs. unfold ReadByte. destruct (cursor r) as [|b l] eqn:Ec.
  - pose proof (Read_shrinks 1 r Hs) as H. unfold mbind, stm_bind.
    destruct (Read chunk 1 r) as [[buf|e|] r1]; cbn [fst snd] in *; [|done..].
    destruct H as (? & ? & ?). destruct buf; cbn; split_and!; try done; lia.
  - cbn [fst snd]. split_and!; [done|done|]. unfold stream, advance. simpl. rewrite Ec. simpl. rewrite ?drop_0, !length_app. simpl. lia.
Qed.
End any_read.

(** C32: whatever chunks the bytes arrive in, a read within the buffer's limit
    takes exactly the next bytes of the stream; at its end it reports the end,
    and when fewer bytes are left than were asked for, that the input is
    truncated. *)
Theorem reads_any_chunks (chunk : list byte -> Z -> Z) n r :
  sound r -> 0 < n <= limit r ->
  exists r',
    Read chunk n r =
      (if n <=? zlen (stream r) then Ok (take (Z.to_nat n) (stream r))
       else Err (if zlen (stream r) =? 0 then ErrPeekEOF else ErrTruncated), r') /\
    reads_to (if n <=? zlen (stream r) then n else 0) r r'.
Proof.
  intros Hs Hn. destruct (Z.leb_spec n (zlen (stream r))).
  - by apply Read_Ok; [|lia..].
  - by apply Read_short; [|lia..].
Qed.

Lemma reads_any_chunks_witness :
  let r := NewReader 16 (replicate 5 (zb 0)) in
  sound r /\ exists r', Read (fun _ _ => 2) 3 r = (Ok (replicate 3 (zb 0)), r') /\ reads_to 3 r r'.
Proof. intros r. split; [done|]. exact (reads_any_chunks (fun _ _ => 2) 3 r ltac:(done) ltac:(vm_compute; split; congruence)). Defined.
