(* ===== verification/Zcode.v ===== *)
(** * The [zcode] encoding of Zed values

    [src/zcode]: tag-counted values ([Append], [Iter]), the container builder
    ([Builder]) and the variable-length integers ([EncodeCountedUvarint] and
    friends).  [binary.Uvarint], [binary.AppendUvarint] and
    [binary.ReadUvarint] are the Go standard library's, written out here. *)

From S2P Require Import Prelude.
Local Open Scope Z_scope.

(** ** [encoding/binary] varints *)

Definition MaxVarintLen64 : Z := 10.

(** [binary.Uvarint]: the value and the number of bytes read; 0 bytes when the
    buffer is too short, a negative count on overflow. *)
Fixpoint uvarint_loop (buf : list byte) (i x s : Z) : Z * Z :=
  match buf with
  | [] => (0, 0)
  | b :: r =>
      if i =? MaxVarintLen64 then (0, - (i + 1))
      else if bz b <? 128 then
        if (i =? MaxVarintLen64 - 1) && (1 <? bz b) then (0, - (i + 1))
        else (Z.lor x (u64 (Z.shiftl (bz b) s)), i + 1)
      else uvarint_loop r (i + 1) (Z.lor x (u64 (Z.shiftl (Z.land (bz b) 127) s))) (s + 7)
  end.
Definition uvarint (buf : list byte) : Z * Z := uvarint_loop buf 0 0 0.

(** The bytes [binary.AppendUvarint] appends; ten iterations cover 64 bits
    ([uvarint_bytes_enough]). *)
Fixpoint uvarint_bytes_fuel (fuel : nat) (x : Z) : list byte :=
  match fuel with
  | O => []
  | S fuel' =>
      if x <? 128 then [zb x]
      else zb (Z.lor (x mod 256) 128) :: uvarint_bytes_fuel fuel' (Z.shiftr x 7)
  end.
Definition uvarint_bytes (x : Z) : list byte := uvarint_bytes_fuel 10 x.
Definition append_uvarint (dst : bytes) (x : Z) : bytes := go_append dst (uvarint_bytes x).

(** [binary.ReadUvarint] on the remaining input of a byte reader. *)
Inductive read_error := EOF | ErrUnexpectedEOF | ErrOverflow.
Fixpoint read_uvarint_loop (fuel : nat) (r : list byte) (i x s : Z)
  : outcome read_error (Z * list byte) :=
  match fuel with
  | O => Err ErrOverflow
  | S fuel' =>
      match r with
      | [] => Err (if 0 <? i then ErrUnexpectedEOF else EOF)
      | b :: r' =>
          if bz b <? 128 then
            if (i =? MaxVarintLen64 - 1) && (1 <? bz b) then Err ErrOverflow
            else Ok (Z.lor x (u64 (Z.shiftl (bz b) s)), r')
          else read_uvarint_loop fuel' r' (i + 1)
                 (Z.lor x (u64 (Z.shiftl (Z.land (bz b) 127) s))) (s + 7)
      end
  end.
Definition read_uvarint (r : list byte) : outcome read_error (Z * list byte) :=
  read_uvarint_loop 10 r 0 0 0.

(** ** Tags ([bytes.go]) *)

Definition toTag (length : Z) : Z := u64 (u64 length + 1).
Definition tagNull : Z := 0.
Definition tagIsNull (t : Z) : bool := t =? tagNull.
Definition tagLength (t : Z) : outcome Empty_set Z :=
  if t =? tagNull then Panic else Ok (i64 (t - 1)).

Definition Append (dst : bytes) (val : bytes) : bytes :=
  match val with
  | None => append_uvarint dst tagNull
  | Some v => go_append (append_uvarint dst (toTag (zlen v))) v
  end.

Fixpoint SizeOfUvarint_loop (fuel : nat) (u n : Z) : Z :=
  match fuel with
  | O => n
  | S fuel' => if 128 <=? u then SizeOfUvarint_loop fuel' (Z.shiftr u 7) (n + 1) else n
  end.
Definition SizeOfUvarint (u : Z) : Z := SizeOfUvarint_loop 10 u 1.

(** [ReadTag]: -1 for a null value, otherwise the length. *)
Definition ReadTag (r : list byte) : outcome read_error (Z * list byte) :=
  '(u, r') ← read_uvarint r;
  if tagIsNull u then Ok (-1, r')
  else match tagLength u with Ok n => Ok (n, r') | _ => Panic end.

Definition DecodeTagLength (b : list byte) : outcome Empty_set Z :=
  let '(u, n) := uvarint b in
  if n <=? 0 then Panic
  else if tagIsNull u then Ok n
  else Ok (i64 (i64 (i64 u + n) - 1)).

(** ** Iteration ([iter.go])

    An iterator is the bytes that remain.  [Next] panics where the source
    panics: on a bad tag and on a value that runs past the end (the slice
    of the rest is out of range). *)

Definition Iter (b : bytes) : list byte := default [] b.
Definition Done (it : list byte) : bool := zlen it =? 0.

(** [s[lo:hi]] and [s[hi:]], out of range unless [0 <= lo <= hi <= len(s)]. *)
Definition slice_split (s : list byte) (lo hi : Z) : outcome Empty_set (list byte * list byte) :=
  if (0 <=? lo) && (lo <=? hi) && (hi <=? zlen s) then
    Ok (take (Z.to_nat (hi - lo)) (drop (Z.to_nat lo) s), drop (Z.to_nat hi) s)
  else Panic.

Definition Next (it : list byte) : outcome Empty_set (bytes * list byte) :=
  let '(u, n) := uvarint it in
  if n <=? 0 then Panic
  else if tagIsNull u then
    '(_, rest) ← slice_split it 0 n; Ok (None, rest)
  else
    len ← tagLength u;
    '(val, rest) ← slice_split it n (i64 (n + len));
    Ok (Some val, rest).

Definition NextTagAndBody (it : list byte) : outcome Empty_set (list byte * list byte) :=
  let '(u, n) := uvarint it in
  if n <=? 0 then Panic
  else if tagIsNull u then slice_split it 0 n
  else
    len ← tagLength u;
    slice_split it 0 (i64 (n + len)).

Definition Body (b : bytes) : outcome Empty_set bytes :=
  '(v, _) ← Next (Iter b); Ok v.

(** [for it := b.Iter(); !it.Done(); { f(it.Next()) }]: every value of the
    body, in order.  A [Next] that returns consumes at least a byte, so the
    length of the body is enough fuel ([iter_all_terminates]). *)
Fixpoint iter_loop {V} (next : list byte -> outcome Empty_set (V * list byte))
    (fuel : nat) (it : list byte) : outcome diverge (list V) :=
  if Done it then Ok []
  else match fuel with
       | O => Err Diverge
       | S fuel' =>
           match next it with
           | Ok (v, it') => vs ← iter_loop next fuel' it'; Ok (v :: vs)
           | _ => Panic
           end
       end.
Definition iter_all (b : bytes) : outcome diverge (list bytes) :=
  iter_loop Next (length (Iter b)) (Iter b).
Definition iter_all_tagged (b : bytes) : outcome diverge (list (list byte)) :=
  iter_loop NextTagAndBody (length (Iter b)) (Iter b).

(** ** The container builder ([builder.go]) *)

Record Builder := mkBuilder {
  b_bytes : bytes;
  containers : list Z;   (* stack of body offsets, top last *)
}.

Definition NewBuilder : Builder := mkBuilder None [].
Definition Reset (b : Builder) : Builder := mkBuilder None [].
Definition Truncate (b : Builder) : Builder :=
  mkBuilder (match b_bytes b with None => None | Some _ => Some [] end) [].

Definition BeginContainer (b : Builder) : Builder :=
  let bs := default [] (b_bytes b) ++ [Byte.x00] in
  mkBuilder (Some bs) (containers b ++ [zlen bs]).

(** [copy] of [x] over [bs] at [off]. *)
Definition overwrite (bs : list byte) (off : Z) (x : list byte) : list byte :=
  take (Z.to_nat off) bs ++ x ++ drop (Z.to_nat off + length x) bs.

Definition EndContainer (b : Builder) : outcome Empty_set Builder :=
  match last (containers b) with
  | None => Panic
  | Some bodyOff =>
      let cs := removelast (containers b) in
      let bs := default [] (b_bytes b) in
      let tag := toTag (zlen bs - bodyOff) in
      let tagSize := SizeOfUvarint tag in
      let tagOff := bodyOff - 1 in
      bs' ← (if 1 <? tagSize then
               '(pre, _) ← slice_split bs 0 (tagOff + tagSize);
               '(_, body) ← slice_split bs 0 bodyOff;
               Ok (pre ++ body)
             else Ok bs);
      if zlen (uvarint_bytes tag) =? tagSize then
        Ok (mkBuilder (Some (overwrite bs' tagOff (uvarint_bytes tag))) cs)
      else Panic
  end.

Definition TransformContainer (b : Builder) (transform : list byte -> bytes)
  : outcome Empty_set Builder :=
  match last (containers b) with
  | None => Panic
  | Some bodyOff =>
      '(pre, body) ← slice_split (default [] (b_bytes b)) 0 bodyOff;
      Ok (mkBuilder (Some (pre ++ default [] (transform body))) (containers b))
  end.

Definition BAppend (b : Builder) (val : bytes) : Builder :=
  mkBuilder (Append (b_bytes b) val) (containers b).

Definition Bytes_ (b : Builder) : outcome Empty_set bytes :=
  if 0 <? zlen (containers b) then Panic else Ok (b_bytes b).

(** ** Counted integers ([counted.go]) *)

Definition DecodeCountedUvarint (b : bytes) : Z :=
  foldr (fun x acc => Z.lor (u64 (Z.shiftl acc 8)) (bz x)) 0 (default [] b).

(** Writes into [dst] and returns it with the number of bytes written; the
    index panics past the end of [dst]. *)
Fixpoint EncodeCountedUvarint (dst : list byte) (u : Z) : outcome Empty_set (list byte * Z) :=
  if u =? 0 then Ok (dst, 0)
  else match dst with
       | [] => Panic
       | _ :: ds =>
           '(ds', n) ← EncodeCountedUvarint ds (Z.shiftr u 8);
           Ok (zb u :: ds', n + 1)
       end.

Fixpoint counted_bytes (fuel : nat) (u : Z) : list byte :=
  match fuel with
  | O => []
  | S fuel' => if u =? 0 then [] else zb u :: counted_bytes fuel' (Z.shiftr u 8)
  end.
Definition AppendCountedUvarint (dst : bytes) (u : Z) : bytes :=
  Some (default [] dst ++ counted_bytes 8 u).

Definition DecodeCountedVarint (b : bytes) : Z :=
  let u := DecodeCountedUvarint b in
  if negb (Z.land u 1 =? 0) then
    let u := Z.shiftr u 1 in
    if u =? 0 then - 2 ^ 63 else i64 (- i64 u)
  else i64 (Z.shiftr u 1).

(** The zig-zag of [EncodeCountedVarint] and [AppendCountedVarint]. *)
Definition counted_zigzag (i : Z) : Z :=
  if 0 <=? i then u64 (Z.shiftl (u64 i) 1)
  else Z.lor (u64 (Z.shiftl (u64 (i64 (- i))) 1)) 1.

Definition EncodeCountedVarint (dst : list byte) (i : Z) : outcome Empty_set (list byte * Z) :=
  EncodeCountedUvarint dst (counted_zigzag i).

Definition AppendCountedVarint (dst : bytes) (i : Z) : bytes :=
  AppendCountedUvarint dst (counted_zigzag i).

(** ** Specification

    [val_bytes v] is the encoding of one value, [body_of] of a sequence, and
    [tree_bytes] of nested containers; [build] drives a builder over such a
    nesting the way callers do. *)

Definition val_bytes (v : bytes) : list byte :=
  match v with
  | None => uvarint_bytes 0
  | Some v => uvarint_bytes (toTag (zlen v)) ++ v
  end.

(** Values short enough for the [int] arithmetic of the source not to wrap. *)
Definition small (v : bytes) : Prop := zlen (default [] v) < 2 ^ 62.

Definition body_of (vs : list bytes) : list byte := concat (map val_bytes vs).

Inductive vtree := VPrim (v : bytes) | VCont (l : list vtree).

Fixpoint build (b : Builder) (t : vtree) : outcome Empty_set Builder :=
  match t with
  | VPrim v => Ok (BAppend b v)
  | VCont l =>
      b ← (fix go (b : Builder) (l : list vtree) : outcome Empty_set Builder :=
             match l with
             | [] => Ok b
             | t :: l' => b ← build b t; go b l'
             end) (BeginContainer b) l;
      EndContainer b
  end.

Fixpoint tree_bytes (t : vtree) : list byte :=
  match t with
  | VPrim v => val_bytes v
  | VCont l => val_bytes (Some (concat (map tree_bytes l)))
  end.

#[local] Arguments uvarint_bytes : simpl never.
#[local] Arguments uvarint : simpl never.
#[local] Arguments toTag : simpl never.

(** ** Proofs: varints *)

Lemma uvarint_loop_spec fuel x i acc r :
  (0 < fuel)%nat -> 0 <= x < 2 ^ (7 * Z.of_nat fuel) -> 0 <= i -> i + Z.of_nat fuel <= 10 ->
  0 <= acc < 2 ^ (7 * i) -> x * 2 ^ (7 * i) < 2 ^ 64 ->
  uvarint_loop (uvarint_bytes_fuel fuel x ++ r) i acc (7 * i)
  = (acc + x * 2 ^ (7 * i), i + zlen (uvarint_bytes_fuel fuel x)).
Proof.
  revert x i acc. induction fuel as [|fuel IH]; intros x i acc Hpos Hx Hi Hf Hacc Hov; [lia|].
  assert (Hp : 0 < 2 ^ (7 * i)) by (apply Z.pow_pos_nonneg; lia).
  simpl uvarint_bytes_fuel. destruct (Z.ltb_spec x 128) as [Hs|Hs].
  - cbn [app uvarint_loop]. rewrite (bz_zb_small x) by lia.
    unfold MaxVarintLen64. destruct (Z.eqb_spec i 10); [lia|].
    destruct (Z.ltb_spec x 128); [|lia].
    assert (H9 : (i =? 10 - 1) && (1 <? x) = false).
    { destruct (Z.eqb_spec i (10 - 1)) as [->|]; [|done]. simpl. apply Z.ltb_ge.
      change (7 * (10 - 1)) with 63 in Hov. lia. }
    rewrite H9. rewrite u64_id.
    + rewrite lor_shiftl_add by lia. done.
    + rewrite Z.shiftl_mul_pow2 by lia. nia.
  - cbn [app uvarint_loop]. rewrite lor_128.
    pose proof (Z.mod_pos_bound x 128 ltac:(lia)) as Hm.
    rewrite (bz_zb_small (128 + x mod 128)) by lia.
    unfold MaxVarintLen64. destruct (Z.eqb_spec i 10); [lia|].
    destruct (Z.ltb_spec (128 + x mod 128) 128); [lia|].
    change 127 with (2 ^ 7 - 1). rewrite land_ones_mod by lia.
    change (2 ^ 7) with 128. rewrite <- (Z.add_mod_idemp_l 128), Z.mod_same, Z.add_0_l, Z.mod_mod by lia.
    assert (Hdm : x = 128 * (x / 128) + x mod 128) by (apply Z.div_mod; lia).
    assert (Hpow : 2 ^ (7 * (i + 1)) = 128 * 2 ^ (7 * i)).
    { replace (7 * (i + 1)) with (7 + 7 * i) by lia. rewrite Z.pow_add_r by lia. done. }
    rewrite u64_id by (rewrite Z.shiftl_mul_pow2 by lia; nia).
    rewrite lor_shiftl_add by lia.
    rewrite Z.shiftr_div_pow2 by lia. change (2 ^ 7) with 128.
    replace (7 * i + 7) with (7 * (i + 1)) by lia.
    assert (Hx' : 0 <= x / 128 < 2 ^ (7 * Z.of_nat fuel)).
    { split; [apply Z.div_pos; lia|]. apply Z.div_lt_upper_bound; [lia|].
      replace (128 * 2 ^ (7 * Z.of_nat fuel)) with (2 ^ (7 * Z.of_nat (S fuel))); [lia|].
      replace (7 * Z.of_nat (S fuel)) with (7 + 7 * Z.of_nat fuel) by lia.
      by rewrite Z.pow_add_r by lia. }
    assert (0 < fuel)%nat by (destruct fuel; [|lia]; change (2 ^ (7 * Z.of_nat 0)) with 1 in Hx'; lia).
    rewrite IH; try lia.
    { f_equal; [rewrite Hpow; nia | rewrite zlen_cons; lia]. }
    all: rewrite Hpow; nia.
Qed.

Lemma zpow_lt_64 x : 0 <= x < 2 ^ 64 -> 0 <= x < 2 ^ (7 * Z.of_nat 10).
Proof. intros [? H]. split; [done|]. eapply Z.lt_le_trans; [exact H|]. by apply Z.pow_le_mono_r. Qed.

Theorem uvarint_append x r :
  0 <= x < 2 ^ 64 -> uvarint (uvarint_bytes x ++ r) = (x, zlen (uvarint_bytes x)).
Proof.
  intros Hx. unfold uvarint, uvarint_bytes. change 0 with (7 * 0) at 3.
  apply zpow_lt_64 in Hx as Hx'. rewrite uvarint_loop_spec by lia. f_equal; lia.
Qed.

Lemma uvarint_bytes_pos x : 0 < zlen (uvarint_bytes x).
Proof. unfold uvarint_bytes. cbn [uvarint_bytes_fuel]. destruct (x <? 128); rewrite zlen_cons; [done|].
 match goal with |- 0 < zlen ?l + 1 => pose proof (zlen_nonneg l) end. lia. Qed.

Lemma SizeOfUvarint_loop_spec fuel u n :
  (0 < fuel)%nat -> 0 <= u < 2 ^ (7 * Z.of_nat fuel) ->
  SizeOfUvarint_loop fuel u n = n - 1 + zlen (uvarint_bytes_fuel fuel u).
Proof.
  revert u n. induction fuel as [|fuel IH]; intros u n Hf Hu; [lia|].
  simpl. rewrite Z.leb_antisym. destruct (Z.ltb_spec u 128) as [|Hge]; simpl; [unfold zlen; simpl; lia|].
  assert (Hu' : 0 <= Z.shiftr u 7 < 2 ^ (7 * Z.of_nat fuel)).
  { rewrite Z.shiftr_div_pow2 by lia. split; [apply Z.div_pos; lia|].
    apply Z.div_lt_upper_bound; [lia|]. rewrite <- Z.pow_add_r by lia.
    replace (7 + 7 * Z.of_nat fuel) with (7 * Z.of_nat (S fuel)) by lia. lia. }
  assert (0 < fuel)%nat.
  { destruct fuel; [|lia]. change (2 ^ (7 * Z.of_nat 0)) with 1 in Hu'.
    rewrite Z.shiftr_div_pow2 in Hu' by lia.
    pose proof (Z.div_le_lower_bound u (2 ^ 7) 1). lia. }
  rewrite IH by done. rewrite zlen_cons. lia.
Qed.

Theorem SizeOfUvarint_length u : 0 <= u < 2 ^ 64 -> SizeOfUvarint u = zlen (uvarint_bytes u).
Proof.
  intros Hu%zpow_lt_64. unfold SizeOfUvarint. rewrite SizeOfUvarint_loop_spec by lia.
  unfold uvarint_bytes. lia.
Qed.

Lemma uvarint_loop_bound buf i x s u n :
  uvarint_loop buf i x s = (u, n) -> 0 <= i -> 0 < n ->
  i < n <= i + zlen buf.
Proof.
  revert i x s. induction buf as [|b r IH]; intros i x s; cbn [uvarint_loop].
  { intros [= <- <-]; lia. }
  rewrite zlen_cons. pose proof (zlen_nonneg r).
  repeat case_match; intros Hl Hi Hn; try (injection Hl as <- <-; lia).
  apply IH in Hl; lia.
Qed.

Lemma uvarint_bound buf u n : uvarint buf = (u, n) -> 0 < n -> n <= zlen buf.
Proof. intros H Hn. apply uvarint_loop_bound in H; lia. Qed.

Lemma lor_u64_range x y : 0 <= x < 2 ^ 64 -> 0 <= Z.lor x (u64 y) < 2 ^ 64.
Proof.
  intros Hx. pose proof (u64_range y) as Hy. split; [apply Z.lor_nonneg; lia|].
  destruct (Z.eq_dec (Z.lor x (u64 y)) 0) as [->|Hnz]; [lia|].
  assert (0 <= Z.lor x (u64 y)) by (apply Z.lor_nonneg; lia).
  apply Z.log2_lt_pow2; [lia|]. rewrite Z.log2_lor by lia.
  apply Z.max_lub_lt.
  - destruct (Z.eq_dec x 0) as [->|]; [done|]. apply Z.log2_lt_pow2; lia.
  - destruct (Z.eq_dec (u64 y) 0) as [->|]; [done|]. apply Z.log2_lt_pow2; lia.
Qed.

Lemma uvarint_loop_range buf i x s u n :
  uvarint_loop buf i x s = (u, n) -> 0 <= x < 2 ^ 64 -> 0 <= u < 2 ^ 64.
Proof.
  revert i x s. induction buf as [|b r IH]; intros i x s; cbn [uvarint_loop].
  { intros [= <- <-]; lia. }
  repeat case_match; intros Hl Hx.
  1,2: injection Hl as <- <-; lia.
  1: injection Hl as <- <-; by apply lor_u64_range.
  apply IH in Hl; [done|]. by apply lor_u64_range.
Qed.

Lemma uvarint_range buf u n : uvarint buf = (u, n) -> 0 <= u < 2 ^ 64.
Proof. intros H. eapply uvarint_loop_range; [exact H|lia]. Qed.


Lemma read_uvarint_loop_ok fuel r i x s u rest :
  Z.of_nat fuel = 10 - i -> 0 <= i ->
  read_uvarint_loop fuel r i x s = Ok (u, rest) ->
  exists n, uvarint_loop r i x s = (u, n) /\ i < n /\ rest = drop (Z.to_nat (n - i)) r.
Proof.
  revert r i x s. induction fuel as [|fuel IH]; intros r i x s Hf Hi; cbn [read_uvarint_loop]; [done|].
  destruct r as [|b r]; [done|]. cbn [uvarint_loop]. unfold MaxVarintLen64.
  destruct (Z.eqb_spec i 10); [lia|].
  repeat case_match; intros Hr; try done.
  - injection Hr as <- <-. eexists. split_and!; [done|lia|].
    by replace (Z.to_nat (i + 1 - i)) with 1%nat by lia.
  - apply IH in Hr as (n' & -> & Hn & ->); [|lia|lia]. exists n'. split_and!; [done|lia|].
    by replace (Z.to_nat (n' - i)) with (S (Z.to_nat (n' - (i + 1)))) by lia.
Qed.

Lemma uvarint_loop_read fuel r i x s u n :
  Z.of_nat fuel = 10 - i -> 0 <= i -> 0 < n ->
  uvarint_loop r i x s = (u, n) ->
  read_uvarint_loop fuel r i x s = Ok (u, drop (Z.to_nat (n - i)) r).
Proof.
  revert r i x s. induction fuel as [|fuel IH]; intros r i x s Hf Hi Hn.
  { assert (i = 10) as -> by lia. destruct r; cbn; intros [= <- <-]; lia. }
  destruct r as [|b r]; cbn [uvarint_loop read_uvarint_loop]; [intros [= <- <-]; lia|].
  unfold MaxVarintLen64. destruct (Z.eqb_spec i 10); [lia|].
  repeat case_match; intros Hr.
  - injection Hr as <- <-; lia.
  - injection Hr as <- <-. by replace (Z.to_nat (i + 1 - i)) with 1%nat by lia.
  - pose proof Hr as Hb. apply uvarint_loop_bound in Hb; [|lia..].
    apply IH in Hr as ->; [|lia..].
    by replace (Z.to_nat (n - i)) with (S (Z.to_nat (n - (i + 1)))) by lia.
Qed.

(** ReadUvarint reads from a stream exactly what Uvarint reads from a buffer. *)
Theorem read_uvarint_uvarint r u rest :
  read_uvarint r = Ok (u, rest) <->
  exists n, uvarint r = (u, n) /\ 0 < n /\ rest = drop (Z.to_nat n) r.
Proof.
  unfold read_uvarint, uvarint. split.
  - intros (n & H & Hn & ->)%read_uvarint_loop_ok; [|done..]. exists n. by rewrite Z.sub_0_r.
  - intros (n & H & Hn & ->). rewrite (uvarint_loop_read 10 r 0 0 0 u n) by (done || lia).
    by rewrite Z.sub_0_r.
Qed.

Lemma toTag_small n : 0 <= n < 2 ^ 63 -> toTag n = n + 1.
Proof. intros. unfold toTag. rewrite !u64_id; rewrite ?u64_id; lia. Qed.

Lemma Append_val dst v : Append dst v = Some (default [] dst ++ val_bytes v).
Proof.
  assert (Hu : forall x, exists b l, uvarint_bytes x = b :: l).
  { intros x. pose proof (uvarint_bytes_pos x). destruct (uvarint_bytes x); [done|eauto]. }
  destruct v as [v|]; simpl; unfold append_uvarint.
  - destruct (Hu (toTag (zlen v))) as (b & l & ->). rewrite go_append_cons.
    simpl. by rewrite <- app_assoc.
  - destruct (Hu tagNull) as (b & l & E). rewrite E, go_append_cons.
    change (uvarint_bytes 0) with (uvarint_bytes tagNull). by rewrite E.
Qed.

Lemma uvarint_bytes_len x : 0 <= x < 2 ^ 64 -> zlen (uvarint_bytes x) <= 10.
Proof.
  intros _. unfold uvarint_bytes. assert (H : forall f y, zlen (uvarint_bytes_fuel f y) <= Z.of_nat f).
  { intros f; induction f as [|f IH]; intros y; cbn [uvarint_bytes_fuel]; [done|].
    destruct (y <? 128); [unfold zlen; simpl; lia|]. rewrite zlen_cons.
    pose proof (IH (Z.shiftr y 7)). lia. }
  apply (H 10%nat).
Qed.

Lemma read_uvarint_append x r : 0 <= x < 2 ^ 64 -> read_uvarint (uvarint_bytes x ++ r) = Ok (x, r).
Proof.
  intros Hx. pose proof (uvarint_bytes_pos x). apply read_uvarint_uvarint.
  exists (zlen (uvarint_bytes x)). split; [by apply uvarint_append|]. split; [lia|].
  unfold zlen. by rewrite Nat2Z.id, drop_app_length.
Qed.

Lemma slice_split_mid a b c : slice_split (a ++ b ++ c) (zlen a) (zlen a + zlen b) = Ok (b, c).
Proof.
  unfold slice_split. rewrite !zlen_app. pose proof (zlen_nonneg a). pose proof (zlen_nonneg b).
  pose proof (zlen_nonneg c).
  zcases; simpl; try lia.
  replace (Z.to_nat (zlen a + zlen b - zlen a)) with (length b) by (unfold zlen; lia).
  replace (Z.to_nat (zlen a)) with (length a) by (unfold zlen; lia).
  replace (Z.to_nat (zlen a + zlen b)) with (length (a ++ b)) by (rewrite length_app; unfold zlen; lia).
  rewrite drop_app_length, take_app_length, app_assoc, drop_app_length. done.
Qed.

Lemma slice_split_app a b : slice_split (a ++ b) 0 (zlen a) = Ok (a, b).
Proof. apply (slice_split_mid [] a b). Qed.

Theorem Next_Append v r : small v -> Next (val_bytes v ++ r) = Ok (v, r).
Proof.
  unfold Next, small. destruct v as [v|]; cbn [val_bytes]; intros Hv; simpl in Hv.
  - pose proof (zlen_nonneg v).
    rewrite (toTag_small (zlen v)) by lia. rewrite <- app_assoc, uvarint_append by lia.
    pose proof (uvarint_bytes_pos (zlen v + 1)). pose proof (uvarint_bytes_len (zlen v + 1) ltac:(lia)).
    destruct (Z.leb_spec (zlen (uvarint_bytes (zlen v + 1))) 0); [lia|].
    unfold tagIsNull, tagLength, tagNull. destruct (Z.eqb_spec (zlen v + 1) 0); [lia|]. simpl.
    replace (zlen v + 1 - 1) with (zlen v) by lia. rewrite (i64_id (zlen v)) by lia.
    rewrite i64_id by lia. by rewrite slice_split_mid.
  - rewrite uvarint_append by lia. pose proof (uvarint_bytes_pos 0).
    destruct (Z.leb_spec (zlen (uvarint_bytes 0)) 0); [lia|].
    unfold tagIsNull, tagNull. cbn [Z.eqb].
    by rewrite slice_split_app.
Qed.

Theorem NextTagAndBody_Append v r : small v -> NextTagAndBody (val_bytes v ++ r) = Ok (val_bytes v, r).
Proof.
  unfold NextTagAndBody, small. destruct v as [v|]; cbn [val_bytes]; intros Hv; simpl in Hv.
  - pose proof (zlen_nonneg v).
    rewrite (toTag_small (zlen v)) by lia. rewrite <- app_assoc, uvarint_append by lia.
    pose proof (uvarint_bytes_pos (zlen v + 1)). pose proof (uvarint_bytes_len (zlen v + 1) ltac:(lia)).
    destruct (Z.leb_spec (zlen (uvarint_bytes (zlen v + 1))) 0); [lia|].
    unfold tagIsNull, tagLength, tagNull. destruct (Z.eqb_spec (zlen v + 1) 0); [lia|]. simpl.
    replace (zlen v + 1 - 1) with (zlen v) by lia. rewrite (i64_id (zlen v)) by lia.
    rewrite i64_id by lia. rewrite <- zlen_app, app_assoc. by rewrite slice_split_app.
  - rewrite uvarint_append by lia. pose proof (uvarint_bytes_pos 0).
    destruct (Z.leb_spec (zlen (uvarint_bytes 0)) 0); [lia|].
    unfold tagIsNull, tagNull. cbn [Z.eqb].
    by rewrite slice_split_app.
Qed.

(** ** Proofs: iteration *)
Lemma Done_val v r : Done (val_bytes v ++ r) = false.
Proof.
  unfold Done. rewrite zlen_app. pose proof (zlen_nonneg r).
  assert (0 < zlen (val_bytes v)).
  { destruct v as [v|]; cbn [val_bytes]; rewrite ?zlen_app; [pose proof (zlen_nonneg v)|];
      (pose proof (uvarint_bytes_pos (toTag (zlen v)))) || (pose proof (uvarint_bytes_pos 0)); lia. }
  destruct (Z.eqb_spec (zlen (val_bytes v) + zlen r) 0); [lia|done].
Qed.

Lemma length_val v : (1 <= length (val_bytes v))%nat.
Proof.
  pose proof (Done_val v []) as H. unfold Done, zlen in H. rewrite app_nil_r in H.
  destruct (val_bytes v); simpl in *; [done|lia].
Qed.

Lemma iter_loop_body {V} next (f : bytes -> V) fuel vs :
  (forall v r, small v -> next (val_bytes v ++ r) = Ok (f v, r)) ->
  Forall small vs -> (length (body_of vs) <= fuel)%nat ->
  iter_loop next fuel (body_of vs) = Ok (map f vs).
Proof.
  intros Hn. revert fuel. induction vs as [|v vs IH]; intros fuel Hs Hf.
  { by destruct fuel. }
  inversion_clear Hs as [|?? Hv Hvs]. unfold body_of in *. cbn [map concat] in *.
  rewrite length_app in Hf. pose proof (length_val v).
  destruct fuel as [|fuel]; [lia|]. cbn [iter_loop]. rewrite Done_val, Hn by done. simpl.
  rewrite IH by (done || lia). done.
Qed.

Theorem iter_all_Append vs :
  Forall small vs -> iter_all (fold_left Append vs None) = Ok vs.
Proof.
  intros Hs. assert (H : forall d, default [] (fold_left Append vs d) = default [] d ++ body_of vs).
  { clear Hs. induction vs as [|v vs IH]; intros d; [by rewrite app_nil_r|].
    simpl fold_left. rewrite IH, Append_val. simpl default.
    unfold body_of. cbn [map concat]. by rewrite app_assoc. }
  unfold iter_all, Iter. rewrite H. simpl.
  rewrite (iter_loop_body _ id) by (done || apply Next_Append). by rewrite map_id.
Qed.

(** ** Proofs: the builder *)

Lemma overwrite_mid pre mid post x :
  length mid = length x -> overwrite (pre ++ mid ++ post) (zlen pre) x = pre ++ x ++ post.
Proof.
  intros Hl. unfold overwrite, zlen. rewrite Nat2Z.id, take_app_length.
  f_equal. f_equal. replace (length pre + length x)%nat with (length (pre ++ mid)) by (rewrite length_app; lia).
  by rewrite app_assoc, drop_app_length.
Qed.

Lemma uvarint_bytes_1 x : 1 < zlen (uvarint_bytes x) -> 128 <= x.
Proof.
  unfold uvarint_bytes. cbn [uvarint_bytes_fuel]. destruct (Z.ltb_spec x 128); [|done].
  unfold zlen. simpl. lia.
Qed.

Lemma EndContainer_body pre body cs :
  zlen body < 2 ^ 62 ->
  EndContainer (mkBuilder (Some (pre ++ Byte.x00 :: body)) (cs ++ [zlen pre + 1]))
  = Ok (mkBuilder (Some (pre ++ val_bytes (Some body))) cs).
Proof.
  intros Hb. pose proof (zlen_nonneg body). unfold EndContainer. cbn [containers b_bytes].
  rewrite last_snoc, removelast_last. cbn [default from_option id].
  replace (zlen (pre ++ Byte.x00 :: body) - (zlen pre + 1)) with (zlen body)
    by (rewrite zlen_app, zlen_cons; lia).
  rewrite toTag_small, SizeOfUvarint_length by lia.
  set (tag := uvarint_bytes (zlen body + 1)).
  assert (Ht : 0 < zlen tag <= 10) by (split; [apply uvarint_bytes_pos|apply uvarint_bytes_len; lia]).
  replace (zlen pre + 1 - 1) with (zlen pre) by lia.
  assert (E : (if 1 <? zlen tag then
      '(pre', _) ← slice_split (pre ++ Byte.x00 :: body) 0 (zlen pre + zlen tag);
      '(_, body') ← slice_split (pre ++ Byte.x00 :: body) 0 (zlen pre + 1);
      Ok (pre' ++ body')
    else Ok (pre ++ Byte.x00 :: body))
    = Ok (E := Empty_set) (pre ++ take (length tag) (Byte.x00 :: body) ++ body)).
  { destruct (Z.ltb_spec 1 (zlen tag)) as [Hl|Hl].
    - apply uvarint_bytes_1 in Hl as Hb'.
      assert (Hlt : zlen (take (length tag) (Byte.x00 :: body)) = zlen tag).
      { unfold zlen in *. rewrite length_take. simpl. lia. }
      rewrite <- (take_drop (length tag) (Byte.x00 :: body)) at 1.
      rewrite app_assoc. replace (zlen pre + zlen tag) with (zlen (pre ++ take (length tag) (Byte.x00 :: body)))
        by (rewrite zlen_app; lia).
      rewrite slice_split_app. cbn [mbind outcome_bind obind].
      replace (pre ++ Byte.x00 :: body) with ((pre ++ [Byte.x00]) ++ body) by by rewrite <- app_assoc.
      replace (zlen pre + 1) with (zlen (pre ++ [Byte.x00])) by by rewrite zlen_app.
      rewrite slice_split_app. cbn. by rewrite <- app_assoc.
    - assert (length tag = 1%nat) as -> by (unfold zlen in *; lia). done. }
  rewrite E. cbn [mbind outcome_bind obind]. rewrite Z.eqb_refl.
  rewrite overwrite_mid.
  - cbn [val_bytes]. by rewrite toTag_small by lia.
  - destruct (decide (1 < zlen tag)) as [Hl|Hl].
    + apply uvarint_bytes_1 in Hl. unfold zlen in *. rewrite length_take. simpl. lia.
    + assert (length tag = 1%nat) as -> by (unfold zlen in *; lia). done.
Qed.

Lemma vtree_ind' (P : vtree -> Prop) :
  (forall v, P (VPrim v)) -> (forall l, Forall P l -> P (VCont l)) -> forall t, P t.
Proof.
  intros Hp Hc. fix IH 1. intros [v|l]; [apply Hp|]. apply Hc.
  induction l as [|t l IHl]; constructor; [apply IH|exact IHl].
Qed.

Theorem build_tree t b :
  zlen (tree_bytes t) < 2 ^ 62 ->
  build b t = Ok (mkBuilder (Some (default [] (b_bytes b) ++ tree_bytes t)) (containers b)).
Proof.
  revert b. induction t as [v|l IH] using vtree_ind'; intros b Hs.
  { cbn [build tree_bytes]. unfold BAppend. by rewrite Append_val. }
  cbn [build tree_bytes] in *. set (body := concat (map tree_bytes l)) in *.
  assert (Hb : zlen body < 2 ^ 62).
  { cbn [val_bytes] in Hs. rewrite zlen_app in Hs.
    pose proof (zlen_nonneg (uvarint_bytes (toTag (zlen body)))). lia. }
  clear Hs.
  assert (Hl : forall b l', Forall (fun t => forall b, zlen (tree_bytes t) < 2 ^ 62 ->
       build b t = Ok (mkBuilder (Some (default [] (b_bytes b) ++ tree_bytes t)) (containers b))) l' ->
     zlen (concat (map tree_bytes l')) < 2 ^ 62 -> is_Some (b_bytes b) ->
     (fix go (b : Builder) (l : list vtree) : outcome Empty_set Builder :=
             match l with
             | [] => Ok b
             | t :: l' => b ← build b t; go b l'
             end) b l' = Ok (mkBuilder (Some (default [] (b_bytes b) ++ concat (map tree_bytes l'))) (containers b))).
  { intros b' l' Hf. revert b'. induction Hf as [|t l' Ht _ IHl]; intros b' Hz Hsome.
    - destruct b' as [[bs|] cs]; [|by destruct Hsome]. simpl. by rewrite app_nil_r.
    - cbn [map concat] in Hz. rewrite zlen_app in Hz.
      pose proof (zlen_nonneg (tree_bytes t)). pose proof (zlen_nonneg (concat (map tree_bytes l'))).
      rewrite Ht by lia. cbn [mbind outcome_bind obind]. rewrite IHl by (done || lia).
      cbn [b_bytes containers default from_option id map concat]. by rewrite app_assoc. }
  rewrite Hl by done. cbn [mbind outcome_bind obind BeginContainer b_bytes containers default from_option id].
  rewrite <- app_assoc, zlen_app. cbn [app]. by apply EndContainer_body.
Qed.

(** *** Termination *)
Lemma Next_consumes it v it' : Next it = Ok (v, it') -> (length it' < length it)%nat.
Proof.
  unfold Next. destruct (uvarint it) as [u n] eqn:Hu. destruct (Z.leb_spec n 0); [done|].
  assert (Hs : forall a b x y, slice_split it a b = Ok (x, y) -> a <= b -> n <= b -> y = drop (Z.to_nat b) it /\ b <= zlen it).
  { intros a b x y. unfold slice_split. case_match eqn:E; [|done]. intros [= <- <-]. zcases; simpl in *; try done; lia. }
  pose proof (uvarint_bound _ _ _ Hu ltac:(lia)).
  case_match.
  - rewrite bind_Ok. intros ([x y] & Hx & [= <- <-]). apply Hs in Hx as [-> ?]; [|lia..].
    rewrite length_drop. unfold zlen in *. lia.
  - rewrite bind_Ok. intros (len & Hl & Hx). apply bind_Ok in Hx as ([x y] & Hx & [= <- <-]).
    assert (n <= i64 (n + len)).
    { revert Hx. unfold slice_split. zcases; simpl; try done. }
    apply Hs in Hx as [-> ?]; [|lia..]. rewrite length_drop. unfold zlen in *. lia.
Qed.


Lemma iter_loop_terminates {V} (next : list byte -> outcome Empty_set (V * list byte)) fuel it :
  (forall it v it', next it = Ok (v, it') -> (length it' < length it)%nat) ->
  (length it <= fuel)%nat -> iter_loop next fuel it <> Err Diverge.
Proof.
  intros Hc. revert it. induction fuel as [|fuel IH]; intros it Hf; cbn [iter_loop].
  - destruct it; [done|simpl in Hf; lia].
  - case_match; [done|]. destruct (next it) as [[v it']| |] eqn:Hn; [|done..].
    apply Hc in Hn. specialize (IH it' ltac:(lia)).
    by destruct (iter_loop next fuel it').
Qed.

Theorem iter_all_terminates b : iter_all b <> Err Diverge.
Proof. apply iter_loop_terminates; [exact Next_consumes|done]. Qed.

(** NextTagAndBody, by contrast, may not advance at all. *)
Theorem NextTagAndBody_stuck :
  exists it, Done it = false /\ NextTagAndBody it = Ok ([], it) /\
    forall fuel, iter_loop NextTagAndBody fuel it = Err Diverge.
Proof.
  exists (uvarint_bytes (2 ^ 64 - 9)).
  assert (Hs : NextTagAndBody (uvarint_bytes (2 ^ 64 - 9)) = Ok ([], uvarint_bytes (2 ^ 64 - 9))) by by vm_compute.
  split_and!; [by vm_compute|done|].
  intros fuel. induction fuel as [|fuel IH]; [by vm_compute|].
  cbn [iter_loop]. rewrite Hs, IH. by vm_compute.
Qed.

(** ** Proofs: counted integers *)
Lemma counted_bytes_decode fuel u :
  (fuel <= 8)%nat -> 0 <= u < 2 ^ (8 * Z.of_nat fuel) ->
  foldr (fun x acc => Z.lor (u64 (Z.shiftl acc 8)) (bz x)) 0 (counted_bytes fuel u) = u.
Proof.
  revert u. induction fuel as [|fuel IH]; intros u Hf Hu.
  { simpl in *. change (2 ^ (8 * Z.of_nat 0)) with 1 in Hu. lia. }
  cbn [counted_bytes]. destruct (Z.eqb_spec u 0) as [->|Hnz]; [done|]. cbn [foldr].
  assert (Hp : 2 ^ (8 * Z.of_nat (S fuel)) = 256 * 2 ^ (8 * Z.of_nat fuel)).
  { replace (8 * Z.of_nat (S fuel)) with (8 + 8 * Z.of_nat fuel) by lia. by rewrite Z.pow_add_r by lia. }
  assert (Hdm : u = 256 * (u / 256) + u mod 256) by (apply Z.div_mod; lia).
  pose proof (Z.mod_pos_bound u 256 ltac:(lia)).
  assert (Hd : 0 <= u / 256 < 2 ^ (8 * Z.of_nat fuel)).
  { split; [apply Z.div_pos; lia|apply Z.div_lt_upper_bound; lia]. }
  assert (Hle : 2 ^ (8 * Z.of_nat fuel) <= 2 ^ 56) by (apply Z.pow_le_mono_r; lia).
  rewrite Z.shiftr_div_pow2 by lia. change (2 ^ 8) with 256. rewrite IH by lia.
  rewrite bz_zb, u64_id by (rewrite Z.shiftl_mul_pow2 by lia; lia).
  rewrite Z.lor_comm, lor_shiftl_add by lia. change (2 ^ 8) with 256. lia.
Qed.

Lemma DecodeCountedUvarint_bytes u :
  0 <= u < 2 ^ 64 -> DecodeCountedUvarint (Some (counted_bytes 8 u)) = u.
Proof. intros. by apply counted_bytes_decode. Qed.

Lemma EncodeCountedUvarint_bytes fuel u dst :
  length dst = fuel -> 0 <= u < 2 ^ (8 * Z.of_nat fuel) ->
  EncodeCountedUvarint dst u
  = Ok (counted_bytes fuel u ++ drop (length (counted_bytes fuel u)) dst, zlen (counted_bytes fuel u)).
Proof.
  revert fuel u. induction dst as [|d dst IH]; intros fuel u <- Hu.
  { change (2 ^ (8 * Z.of_nat (length []))) with 1 in Hu. by assert (u = 0) as -> by lia. }
  cbn [EncodeCountedUvarint counted_bytes length] in *. destruct (Z.eqb_spec u 0); [done|].
  rewrite (IH _ _ eq_refl).
  - cbn. by rewrite zlen_cons.
  - rewrite Z.shiftr_div_pow2 by lia. split; [apply Z.div_pos; lia|].
    apply Z.div_lt_upper_bound; [lia|]. rewrite <- Z.pow_add_r by lia.
    replace (8 + 8 * Z.of_nat (length dst)) with (8 * Z.of_nat (S (length dst))) by lia. lia.
Qed.

Lemma counted_zigzag_range i : - 2 ^ 63 <= i < 2 ^ 63 -> 0 <= counted_zigzag i < 2 ^ 64.
Proof.
  intros Hi. unfold counted_zigzag. case_match; [apply u64_range|].
  change 1 with (u64 1) at 2. apply lor_u64_range, u64_range.
Qed.

Lemma counted_zigzag_nonneg i : 0 <= i < 2 ^ 63 -> counted_zigzag i = 2 * i.
Proof.
  intros Hi. unfold counted_zigzag. destruct (Z.leb_spec 0 i); [|lia].
  rewrite (u64_id i), Z.shiftl_mul_pow2, u64_id; lia.
Qed.

Lemma counted_zigzag_neg i : - 2 ^ 63 < i < 0 -> counted_zigzag i = 2 * (- i) + 1.
Proof.
  intros Hi. unfold counted_zigzag. destruct (Z.leb_spec 0 i); [lia|].
  rewrite i64_id, (u64_id (- i)) by lia. rewrite (u64_id (Z.shiftl _ _)) by (rewrite Z.shiftl_mul_pow2; lia).
  rewrite Z.lor_comm, lor_shiftl_add; lia.
Qed.

Theorem DecodeCountedVarint_zigzag i dst :
  - 2 ^ 63 <= i < 2 ^ 63 -> default [] dst = [] ->
  DecodeCountedVarint (AppendCountedVarint dst i) = i.
Proof.
  intros Hi Hd. unfold AppendCountedVarint, AppendCountedUvarint, DecodeCountedVarint. rewrite Hd.
  cbn [app]. rewrite DecodeCountedUvarint_bytes by by apply counted_zigzag_range.
  change 1 with (2 ^ 1 - 1). rewrite land_ones_mod by lia. change (2 ^ 1 - 1) with 1. change (2 ^ 1) with 2.
  destruct (decide (0 <= i)) as [Hp|Hn].
  - rewrite counted_zigzag_nonneg by lia. rewrite Z.mul_comm, Z.mod_mul by lia. cbn [negb Z.eqb].
    rewrite Z.shiftr_div_pow2, Z.div_mul by lia. apply i64_id; lia.
  - destruct (decide (i = - 2 ^ 63)) as [->|Hmin]; [by vm_compute|].
    rewrite counted_zigzag_neg by lia. replace (2 * - i + 1) with (1 + (- i) * 2) by lia.
    rewrite Z.mod_add by lia. change (negb (1 mod 2 =? 0)) with true. cbv iota.
    rewrite Z.shiftr_div_pow2 by lia. change (2 ^ 1) with 2.
    rewrite Z.div_add by lia. change (1 / 2 + - i) with (- i).
    destruct (Z.eqb_spec (- i) 0); [lia|]. rewrite (i64_id (- i)), i64_id; lia.
Qed.

Theorem EncodeCountedVarint_Append dst i :
  length dst = 8%nat -> - 2 ^ 63 <= i < 2 ^ 63 ->
  exists dst' n, EncodeCountedVarint dst i = Ok (dst', n) /\
    AppendCountedVarint None i = Some (take (Z.to_nat n) dst').
Proof.
  intros Hd Hi. unfold EncodeCountedVarint, AppendCountedVarint, AppendCountedUvarint.
  eexists _, _. split; [apply (EncodeCountedUvarint_bytes 8); [done|]|].
  - by apply counted_zigzag_range.
  - unfold zlen. by rewrite Nat2Z.id, take_app_length.
Qed.

(** ** Examples *)

Example builder_test :
  (b ← EndContainer (BAppend (BeginContainer (BAppend NewBuilder (Some (str "a")))) (Some (str "bc")));
   Bytes_ b)
  = Ok (Append (Append None (Some (str "a"))) (Append None (Some (str "bc")))).
Proof. vm_compute. reflexivity. Qed.
Example minint_test : DecodeCountedVarint (AppendCountedVarint None (- 2 ^ 63)) = - 2 ^ 63.
Proof. reflexivity. Qed.

Lemma zlen_val_bytes w : zlen (default [] w) < 2 ^ 62 -> zlen (val_bytes w) <= 10 + zlen (default [] w).
Proof.
  destruct w as [w|]; simpl default; intros Hw; cbn [val_bytes]; [|vm_compute; discriminate].
  rewrite zlen_app. pose proof (zlen_nonneg w). rewrite toTag_small by lia.
  pose proof (uvarint_bytes_len (zlen w + 1) ltac:(lia)). lia.
Qed.
