(* ===== verification/Types.v ===== *)
(** * Zed types

    [src/type.go] and [src/complex.go]: the data of a type, its identifiers and
    kinds, the order [CompareTypes] and the context-independent serialization
    [appendTypeValue].

    A Go [Type] is a pointer; within one [Context] each type has one pointer,
    which the [id] stored in every complex type determines.  A type is modelled
    as the tree of what its pointer reaches, ids included, so Leibniz equality
    of two types of a context is equality of the pointers.  A [nil] type is the
    [None] of an [option]. *)

From S2P Require Import Prelude Zcode.
Local Open Scope Z_scope.

Inductive primitive :=
| Uint8 | Uint16 | Uint32 | Uint64 | Int8 | Int16 | Int32 | Int64
| Duration | Time | Float16 | Float32 | Float64 | Bool | Bytes | String
| IP | Net | Type_ | Null.

#[export] Instance primitive_eq_dec : EqDecision primitive.
Proof. solve_decision. Defined.

Unset Elimination Schemes.
Inductive ty :=
| TPrim (p : primitive)
| TRecord (id : Z) (fields : list (gostring * ty))
| TArray (id : Z) (elem : ty)
| TSet (id : Z) (elem : ty)
| TMap (id : Z) (key val : ty)
| TUnion (id : Z) (types : list ty)
| TEnum (id : Z) (symbols : list gostring)
| TError (id : Z) (inner : ty)
| TNamed (id : Z) (name : gostring) (inner : ty).
Set Elimination Schemes.

Abbreviation field := (gostring * ty)%type.

Section ty_ind.
Context (P : ty -> Prop)
  (Hprim : forall p, P (TPrim p))
  (Hrec : forall id fs, Forall (fun f => P f.2) fs -> P (TRecord id fs))
  (Harr : forall id t, P t -> P (TArray id t))
  (Hset : forall id t, P t -> P (TSet id t))
  (Hmap : forall id k v, P k -> P v -> P (TMap id k v))
  (Hunion : forall id ts, Forall P ts -> P (TUnion id ts))
  (Henum : forall id ss, P (TEnum id ss))
  (Herr : forall id t, P t -> P (TError id t))
  (Hnamed : forall id n t, P t -> P (TNamed id n t)).

Fixpoint ty_ind (t : ty) : P t :=
  match t with
  | TPrim p => Hprim p
  | TRecord id fs => Hrec id fs
      ((fix go fs := match fs return Forall (fun f => P f.2) fs with
                     | [] => Forall_nil_2 _
                     | f :: fs' => Forall_cons_2 _ _ _ (ty_ind f.2) (go fs')
                     end) fs)
  | TArray id t => Harr id t (ty_ind t)
  | TSet id t => Hset id t (ty_ind t)
  | TMap id k v => Hmap id k v (ty_ind k) (ty_ind v)
  | TUnion id ts => Hunion id ts
      ((fix go ts := match ts return Forall P ts with
                     | [] => Forall_nil_2 _
                     | t :: ts' => Forall_cons_2 _ _ _ (ty_ind t) (go ts')
                     end) ts)
  | TEnum id ss => Henum id ss
  | TError id t => Herr id t (ty_ind t)
  | TNamed id n t => Hnamed id n t (ty_ind t)
  end.
End ty_ind.

#[export] Instance ty_eq_dec : EqDecision ty.
Proof.
  refine (fix go (t1 t2 : ty) : Decision (t1 = t2) :=
    let _ : EqDecision ty := @go in
    match t1, t2 return Decision (t1 = t2) with
    | TPrim p1, TPrim p2 => cast_if (decide (p1 = p2))
    | TRecord i1 f1, TRecord i2 f2 => cast_if_and (decide (i1 = i2)) (decide (f1 = f2))
    | TArray i1 e1, TArray i2 e2 => cast_if_and (decide (i1 = i2)) (go e1 e2)
    | TSet i1 e1, TSet i2 e2 => cast_if_and (decide (i1 = i2)) (go e1 e2)
    | TMap i1 k1 v1, TMap i2 k2 v2 =>
        cast_if_and3 (decide (i1 = i2)) (go k1 k2) (go v1 v2)
    | TUnion i1 l1, TUnion i2 l2 => cast_if_and (decide (i1 = i2)) (decide (l1 = l2))
    | TEnum i1 s1, TEnum i2 s2 => cast_if_and (decide (i1 = i2)) (decide (s1 = s2))
    | TError i1 e1, TError i2 e2 => cast_if_and (decide (i1 = i2)) (go e1 e2)
    | TNamed i1 n1 e1, TNamed i2 n2 e2 =>
        cast_if_and3 (decide (i1 = i2)) (decide (n1 = n2)) (go e1 e2)
    | _, _ => right _
    end); abstract congruence.
Defined.

(** ** Kinds and identifiers *)

Inductive Kind :=
| PrimitiveKind | RecordKind | ArrayKind | SetKind | MapKind | UnionKind | EnumKind | ErrorKind.

(** The [iota] value of a kind. *)
Definition kind_code (k : Kind) : Z :=
  match k with
  | PrimitiveKind => 0 | RecordKind => 1 | ArrayKind => 2 | SetKind => 3
  | MapKind => 4 | UnionKind => 5 | EnumKind => 6 | ErrorKind => 7
  end.

Definition kind_string (k : Kind) : gostring :=
  match k with
  | PrimitiveKind => str "primitive"
  | RecordKind => str "record"
  | ArrayKind => str "array"
  | SetKind => str "set"
  | MapKind => str "map"
  | UnionKind => str "union"
  | EnumKind => str "enum"
  | ErrorKind => str "error"
  end.

Definition primitive_id (p : primitive) : Z :=
  match p with
  | Uint8 => 0 | Uint16 => 1 | Uint32 => 2 | Uint64 => 3
  | Int8 => 6 | Int16 => 7 | Int32 => 8 | Int64 => 9
  | Duration => 12 | Time => 13 | Float16 => 14 | Float32 => 15 | Float64 => 16
  | Bool => 23 | Bytes => 24 | String => 25 | IP => 26 | Net => 27
  | Type_ => 28 | Null => 29
  end.
Definition IDTypeComplex : Z := 30.

Definition TypeValueRecord : Z := 30.
Definition TypeValueArray : Z := 31.
Definition TypeValueSet : Z := 32.
Definition TypeValueMap : Z := 33.
Definition TypeValueUnion : Z := 34.
Definition TypeValueEnum : Z := 35.
Definition TypeValueError : Z := 36.
Definition TypeValueNameDef : Z := 37.
Definition TypeValueNameRef : Z := 38.

(** [Type.ID]: for a named type, the id of the type it names. *)
Fixpoint ID (t : ty) : Z :=
  match t with
  | TPrim p => primitive_id p
  | TRecord id _ | TArray id _ | TSet id _ | TMap id _ _ | TUnion id _
  | TEnum id _ | TError id _ => id
  | TNamed _ _ t => ID t
  end.

(** [Type.Kind]. *)
Fixpoint kind (t : ty) : Kind :=
  match t with
  | TPrim _ => PrimitiveKind
  | TRecord _ _ => RecordKind
  | TArray _ _ => ArrayKind
  | TSet _ _ => SetKind
  | TMap _ _ _ => MapKind
  | TUnion _ _ => UnionKind
  | TEnum _ _ => EnumKind
  | TError _ _ => ErrorKind
  | TNamed _ _ t => kind t
  end.

Definition TypeID (t : ty) : Z :=
  match t with
  | TNamed id _ _ => id
  | _ => ID t
  end.

Fixpoint TypeUnder (t : ty) : ty :=
  match t with
  | TNamed _ _ t => TypeUnder t
  | _ => t
  end.

Definition IsInteger (id : Z) : bool := id <=? 11.
Definition IsNumber (id : Z) : bool := id <=? 22.
Definition IsFloat (id : Z) : bool := (14 <=? id) && (id <=? 18).
Definition IsSigned (id : Z) : bool := (6 <=? id) && (id <=? 13).
Definition IsUnsigned (id : Z) : bool := id <=? 5.

(** ** Primitive names *)

Definition PrimitiveName (p : primitive) : gostring :=
  match p with
  | Uint8 => str "uint8" | Uint16 => str "uint16" | Uint32 => str "uint32"
  | Uint64 => str "uint64" | Int8 => str "int8" | Int16 => str "int16"
  | Int32 => str "int32" | Int64 => str "int64" | Duration => str "duration"
  | Time => str "time" | Float16 => str "float16" | Float32 => str "float32"
  | Float64 => str "float64" | Bool => str "bool" | Bytes => str "bytes"
  | String => str "string" | IP => str "ip" | Net => str "net"
  | Type_ => str "type" | Null => str "null"
  end.

Definition all_primitives : list primitive :=
  [Uint8; Uint16; Uint32; Uint64; Int8; Int16; Int32; Int64; Duration; Time;
   Float16; Float32; Float64; Bool; Bytes; String; IP; Net; Type_; Null].

(** The [switch] of [LookupPrimitive], case by case. *)
Definition LookupPrimitive (name : gostring) : option primitive :=
  if bool_decide (name = str "uint8") then Some Uint8
  else if bool_decide (name = str "uint16") then Some Uint16
  else if bool_decide (name = str "uint32") then Some Uint32
  else if bool_decide (name = str "uint64") then Some Uint64
  else if bool_decide (name = str "int8") then Some Int8
  else if bool_decide (name = str "int16") then Some Int16
  else if bool_decide (name = str "int32") then Some Int32
  else if bool_decide (name = str "int64") then Some Int64
  else if bool_decide (name = str "duration") then Some Duration
  else if bool_decide (name = str "time") then Some Time
  else if bool_decide (name = str "float16") then Some Float16
  else if bool_decide (name = str "float32") then Some Float32
  else if bool_decide (name = str "float64") then Some Float64
  else if bool_decide (name = str "bool") then Some Bool
  else if bool_decide (name = str "bytes") then Some Bytes
  else if bool_decide (name = str "string") then Some String
  else if bool_decide (name = str "ip") then Some IP
  else if bool_decide (name = str "net") then Some Net
  else if bool_decide (name = str "type") then Some Type_
  else if bool_decide (name = str "null") then Some Null
  else None.

Inductive id_error := ErrNegativeID | ErrTooLarge | ErrNotImplemented.

Definition LookupPrimitiveByID (id : Z) : outcome id_error primitive :=
  if id <? 0 then Err ErrNegativeID
  else if IDTypeComplex <=? id then Err ErrTooLarge
  else match id with
       | 23 => Ok Bool
       | 6 => Ok Int8
       | 0 => Ok Uint8
       | 7 => Ok Int16
       | 1 => Ok Uint16
       | 8 => Ok Int32
       | 2 => Ok Uint32
       | 9 => Ok Int64
       | 3 => Ok Uint64
       | 14 => Ok Float16
       | 15 => Ok Float32
       | 16 => Ok Float64
       | 24 => Ok Bytes
       | 25 => Ok String
       | 26 => Ok IP
       | 27 => Ok Net
       | 13 => Ok Time
       | 12 => Ok Duration
       | 28 => Ok Type_
       | 29 => Ok Null
       | _ => Err ErrNotImplemented
       end.

(** ** Shape of a type *)

Definition InnerType (t : ty) : option ty :=
  match TypeUnder t with
  | TSet _ t | TArray _ t => Some t
  | _ => None
  end.

Definition IsUnionType (t : ty) : bool :=
  match TypeUnder t with TUnion _ _ => true | _ => false end.

Definition IsRecordType (t : ty) : bool :=
  match TypeUnder t with TRecord _ _ => true | _ => false end.

(** The fields of [TypeRecordOf], [None] where it is a nil pointer. *)
Definition TypeRecordOf (t : ty) : option (list field) :=
  match TypeUnder t with TRecord _ fs => Some fs | _ => None end.

Fixpoint IsContainerType (t : ty) : bool :=
  match t with
  | TNamed _ _ t => IsContainerType t
  | TSet _ _ | TArray _ _ | TRecord _ _ | TUnion _ _ | TMap _ _ _ => true
  | _ => false
  end.
Definition IsPrimitiveType (t : ty) : bool := negb (IsContainerType t).

(** [createLUT] of a record: a later field of the same name wins. *)
Definition createLUT (fields : list field) : gmap gostring nat :=
  fold_left (fun m '(k, f) => <[f.1 := k]> m) (zip (seq 0 (length fields)) fields) ∅.
Definition IndexOfField (fields : list field) (name : gostring) : option nat :=
  createLUT fields !! name.
Definition TypeOfField (fields : list field) (name : gostring) : outcome Empty_set (option ty) :=
  match createLUT fields !! name with
  | None => Ok None
  | Some n => match fields !! n with Some f => Ok (Some f.2) | None => Panic end
  end.
Definition HasField (fields : list field) (name : gostring) : bool :=
  bool_decide (is_Some (createLUT fields !! name)).

(** [TypeEnum.Symbol] and [TypeEnum.Lookup]. *)
Definition Symbol (symbols : list gostring) (index : Z) : option gostring :=
  if (index <? 0) || (zlen symbols <=? index) then None else symbols !! Z.to_nat index.
Fixpoint EnumLookup_from (symbols : list gostring) (symbol : gostring) (k : Z) : Z :=
  match symbols with
  | [] => -1
  | s :: symbols => if bool_decide (s = symbol) then k else EnumLookup_from symbols symbol (k + 1)
  end.
Definition EnumLookup (symbols : list gostring) (symbol : gostring) : Z :=
  EnumLookup_from symbols symbol 0.

(** [TypeUnion.Type] and [TypeUnion.TagOf]; in the table of [createLUT] the
    last position of a type wins. *)
Definition UnionType (types : list ty) (tag : Z) : option ty :=
  if (tag <? 0) || (zlen types <=? tag) then None else types !! Z.to_nat tag.
Fixpoint union_lut_from (types : list ty) (i : Z) (t : ty) (found : Z) : Z :=
  match types with
  | [] => found
  | t' :: types => union_lut_from types (i + 1) t (if decide (t' = t) then i else found)
  end.
Definition TagOf (types : list ty) (t : ty) : Z := union_lut_from types 0 t (-1).

(** ** The order of types *)

Definition compare_seq {A B} (f : A -> B -> Z) : list A -> list B -> Z :=
  fix go la lb :=
    match la, lb with
    | a :: la, b :: lb => let c := f a b in if c =? 0 then go la lb else c
    | _, _ => 0
    end.

(** [if c := x; c != 0 { return c }; y] *)
Definition orelse (x y : Z) : Z := if x =? 0 then y else x.

(** [CompareTypes] up to the switch on the kind of the underlying types, whose
    code is [under]. *)
Definition compare_head (under : ty -> ty -> Z) (a b : ty) : Z :=
  if ID a =? ID b then
    match a, b with
    | TNamed _ na _, TNamed _ nb _ => bytes_compare na nb
    | TNamed _ _ _, _ => 1
    | _, TNamed _ _ _ => -1
    | _, _ => 0
    end
  else orelse (int_compare (kind_code (kind a)) (kind_code (kind b))) (under a b).

Fixpoint compare_under (a b : ty) {struct a} : Z :=
  match a with
  | TNamed _ _ a => compare_under a b
  | TPrim p => int_compare (primitive_id p) (ID b)
  | TRecord _ fa =>
      match TypeUnder b with
      | TRecord _ fb =>
          orelse (int_compare (zlen fa) (zlen fb))
            (orelse (compare_seq (fun x y => bytes_compare x.1 y.1) fa fb)
               (compare_seq (fun x y => compare_head compare_under x.2 y.2) fa fb))
      | _ => 0
      end
  | TArray _ ta | TSet _ ta =>
      match TypeUnder b with
      | TArray _ tb | TSet _ tb => compare_head compare_under ta tb
      | _ => 0
      end
  | TMap _ ka va =>
      match TypeUnder b with
      | TMap _ kb vb =>
          orelse (compare_head compare_under ka kb) (compare_head compare_under va vb)
      | _ => 0
      end
  | TUnion _ ua =>
      match TypeUnder b with
      | TUnion _ ub =>
          orelse (int_compare (zlen ua) (zlen ub))
            (compare_seq (fun x y => compare_head compare_under x y) ua ub)
      | _ => 0
      end
  | TEnum _ ea =>
      match TypeUnder b with
      | TEnum _ eb =>
          orelse (int_compare (zlen ea) (zlen eb)) (compare_seq bytes_compare ea eb)
      | _ => 0
      end
  | TError _ ta =>
      match TypeUnder b with
      | TError _ tb => compare_head compare_under ta tb
      | _ => 0
      end
  end.

Definition CompareTypes (a b : ty) : Z := compare_head compare_under a b.

(** [UniqueTypes]: sort, then drop the types equal to their predecessor. *)
Fixpoint dedup_types (prev : option ty) (types : list ty) : list ty :=
  match types with
  | [] => []
  | t :: types =>
      if decide (Some t = prev) then dedup_types prev types
      else t :: dedup_types (Some t) types
  end.
Definition sort_types (types : list ty) : list ty := stable_sort (cmp_lt CompareTypes) types.
Definition UniqueTypes (types : list ty) : list ty := dedup_types None (sort_types types).

(** ** Type values *)

Definition name_bytes (name : gostring) : list byte :=
  uvarint_bytes (u64 (zlen name)) ++ name.

(** The loops of [appendTypeValue] over the fields of a record and the types
    of a union. *)
Definition append_fields (enc : ty -> gmap gostring ty -> list byte * gmap gostring ty) :=
  fix go (fs : list field) (typedefs : gmap gostring ty) : list byte * gmap gostring ty :=
    match fs with
    | [] => ([], typedefs)
    | (name, t) :: fs =>
        let '(b1, typedefs) := enc t typedefs in
        let '(b2, typedefs) := go fs typedefs in
        (name_bytes name ++ b1 ++ b2, typedefs)
    end.
Definition append_types (enc : ty -> gmap gostring ty -> list byte * gmap gostring ty) :=
  fix go (ts : list ty) (typedefs : gmap gostring ty) : list byte * gmap gostring ty :=
    match ts with
    | [] => ([], typedefs)
    | t :: ts =>
        let '(b1, typedefs) := enc t typedefs in
        let '(b2, typedefs) := go ts typedefs in
        (b1 ++ b2, typedefs)
    end.

(** [appendTypeValue]: the bytes it appends and the typedefs it leaves. *)
Fixpoint appendTypeValue (t : ty) (typedefs : gmap gostring ty)
  : list byte * gmap gostring ty :=
  match t with
  | TNamed _ name inner =>
      if decide (typedefs !! name = Some inner) then
        (zb TypeValueNameRef :: name_bytes name, typedefs)
      else
        let '(b, typedefs) := appendTypeValue inner typedefs in
        (zb TypeValueNameDef :: name_bytes name ++ b, <[name := inner]> typedefs)
  | TRecord _ fields =>
      let '(b, typedefs) := append_fields appendTypeValue fields typedefs in
      (zb TypeValueRecord :: uvarint_bytes (u64 (zlen fields)) ++ b, typedefs)
  | TUnion _ types =>
      let '(b, typedefs) := append_types appendTypeValue types typedefs in
      (zb TypeValueUnion :: uvarint_bytes (u64 (zlen types)) ++ b, typedefs)
  | TSet _ t =>
      let '(b, typedefs) := appendTypeValue t typedefs in (zb TypeValueSet :: b, typedefs)
  | TArray _ t =>
      let '(b, typedefs) := appendTypeValue t typedefs in (zb TypeValueArray :: b, typedefs)
  | TEnum _ symbols =>
      (zb TypeValueEnum :: uvarint_bytes (u64 (zlen symbols)) ++ concat (map name_bytes symbols),
       typedefs)
  | TMap _ k v =>
      let '(b1, typedefs) := appendTypeValue k typedefs in
      let '(b2, typedefs) := appendTypeValue v typedefs in
      (zb TypeValueMap :: b1 ++ b2, typedefs)
  | TError _ t =>
      let '(b, typedefs) := appendTypeValue t typedefs in (zb TypeValueError :: b, typedefs)
  | TPrim p => ([zb (primitive_id p)], typedefs)
  end.

Definition EncodeTypeValue (t : ty) : list byte := (appendTypeValue t ∅).1.
Definition AppendTypeValue (b : list byte) (t : ty) : list byte := b ++ EncodeTypeValue t.

(** ** Specification

    [Interned U]: the types of [U] are those of one context, in which an id
    determines the type it was given to and a structure determines its type. *)

#[export] Instance Kind_eq_dec : EqDecision Kind.
Proof. solve_decision. Defined.

Definition components (t : ty) : list ty :=
  match t with
  | TPrim _ | TEnum _ _ => []
  | TRecord _ fs => map snd fs
  | TArray _ t | TSet _ t | TError _ t | TNamed _ _ t => [t]
  | TMap _ k v => [k; v]
  | TUnion _ ts => ts
  end.

Definition is_named (t : ty) : bool := match t with TNamed _ _ _ => true | _ => false end.

(** Forgetting the identifiers. *)
Fixpoint erase (t : ty) : ty :=
  match t with
  | TPrim p => TPrim p
  | TRecord _ fs => TRecord 0 (map (fun f => (f.1, erase f.2)) fs)
  | TArray _ t => TArray 0 (erase t)
  | TSet _ t => TSet 0 (erase t)
  | TMap _ k v => TMap 0 (erase k) (erase v)
  | TUnion _ ts => TUnion 0 (map erase ts)
  | TEnum _ ss => TEnum 0 ss
  | TError _ t => TError 0 (erase t)
  | TNamed _ n t => TNamed 0 n (erase t)
  end.

(** Names given to types that are not themselves named, all the way down. *)
Fixpoint flat (t : ty) : Prop :=
  match t with
  | TPrim _ | TEnum _ _ => True
  | TRecord _ fs => foldr (fun f P => flat f.2 /\ P) True fs
  | TArray _ t | TSet _ t | TError _ t => flat t
  | TMap _ k v => flat k /\ flat v
  | TUnion _ ts => foldr (fun t P => flat t /\ P) True ts
  | TNamed _ _ t => is_named t = false /\ flat t
  end.

Class Interned (U : ty -> Prop) : Prop := {
  interned_components t : U t -> Forall U (components t);
  interned_id a b : U a -> U b -> ID a = ID b -> TypeUnder a = TypeUnder b;
  interned_erase a b : U a -> U b -> erase a = erase b -> a = b;
}.

(** *** A reference order

    [key t] lists what [CompareTypes] looks at, in the order in which it looks
    at it, and does not mention identifiers; [lex] is the lexicographic order.
    On interned types [CompareTypes], which stops at equal identifiers, is the
    lexicographic order of the keys ([CompareTypes_key]). *)
Definition name_key (n : gostring) : list Z := map (fun b => bz b + 1) n ++ [0].

Definition key_tail (t : ty) : list Z :=
  match t with TNamed _ n _ => 1 :: name_key n | _ => [0] end.

Fixpoint key_under (t : ty) : list Z :=
  match t with
  | TNamed _ _ t => key_under t
  | TPrim p => [0; primitive_id p]
  | TRecord _ fs =>
      1 :: zlen fs :: concat (map (fun f => name_key f.1) fs)
        ++ concat (map (fun f => key_under f.2 ++ key_tail f.2) fs)
  | TArray _ t => 2 :: key_under t ++ key_tail t
  | TSet _ t => 3 :: key_under t ++ key_tail t
  | TMap _ k v => 4 :: (key_under k ++ key_tail k) ++ (key_under v ++ key_tail v)
  | TUnion _ ts => 5 :: zlen ts :: concat (map (fun t => key_under t ++ key_tail t) ts)
  | TEnum _ ss => 6 :: zlen ss :: concat (map name_key ss)
  | TError _ t => 7 :: key_under t ++ key_tail t
  end.
Definition key (t : ty) : list Z := key_under t ++ key_tail t.

Fixpoint lex (a b : list Z) : Z :=
  match a, b with
  | [], [] => 0
  | [], _ :: _ => -1
  | _ :: _, [] => 1
  | x :: a, y :: b => orelse (int_compare x y) (lex a b)
  end.

Definition short {A} (l : list A) : Prop := zlen l < 2 ^ 63.

(** Every name and list of the type has a Go [int] length. *)
Fixpoint sized (t : ty) : Prop :=
  match t with
  | TPrim _ => True
  | TEnum _ ss => short ss /\ Forall short ss
  | TRecord _ fs => short fs /\ foldr (fun f P => (short f.1 /\ sized f.2) /\ P) True fs
  | TArray _ t | TSet _ t | TError _ t => sized t
  | TMap _ k v => sized k /\ sized v
  | TUnion _ ts => short ts /\ foldr (fun t P => sized t /\ P) True ts
  | TNamed _ n t => short n /\ sized t
  end.

Definition td_rel (td1 td2 : gmap gostring ty) : Prop := erase <$> td1 = erase <$> td2.

(** The statement of injectivity for one type, from any related typedefs. *)
Definition enc_inj_at (t1 : ty) : Prop :=
  forall t2 td1 td2 b1 b2 td1' td2' r1 r2,
    sized t1 -> sized t2 -> td_rel td1 td2 ->
    appendTypeValue t1 td1 = (b1, td1') -> appendTypeValue t2 td2 = (b2, td2') ->
    b1 ++ r1 = b2 ++ r2 -> erase t1 = erase t2 /\ r1 = r2 /\ td_rel td1' td2'.

(** The code of the first byte, distinct for distinct constructors. *)
Definition head_code (t : ty) (td : gmap gostring ty) : Z :=
  match t with
  | TPrim p => primitive_id p
  | TRecord _ _ => TypeValueRecord | TArray _ _ => TypeValueArray | TSet _ _ => TypeValueSet
  | TMap _ _ _ => TypeValueMap | TUnion _ _ => TypeValueUnion | TEnum _ _ => TypeValueEnum
  | TError _ _ => TypeValueError
  | TNamed _ n inner => if decide (td !! n = Some inner) then TypeValueNameRef else TypeValueNameDef
  end.

(** ** Proofs: the order of types *)

#[export] Instance lex_lawful : GoCompare lex.
Proof.
  split.
  - intros a; induction a as [|x a IH]; intros [|y b]; simpl; try done.
    rewrite IH. unfold orelse, int_compare. zcases; lia.
  - intros a; induction a as [|x a IH]; intros [|y b] [|z c]; simpl; try lia.
    pose proof (IH b c). unfold orelse, int_compare. zcases; try lia; auto.
  - intros a; induction a as [|x a IH]; intros [|y b]; simpl; try done.
    unfold orelse. destruct (Z.eqb_spec (int_compare x y) 0) as [E|E].
    + apply gc_eq in E as ->. rewrite IH. split; congruence.
    + split; [done|]. intros [= -> ->]. by rewrite gc_refl in E by apply _.
Qed.

Lemma orelse_nz c x : c <> 0 -> orelse c x = c.
Proof. intros. unfold orelse. zcases; congruence. Qed.

Lemma orelse_assoc a b c : orelse (orelse a b) c = orelse a (orelse b c).
Proof. unfold orelse. zcases; congruence. Qed.

Lemma lex_cons x a b : lex (x :: a) (x :: b) = lex a b.
Proof. cbn [lex]. by rewrite (gc_refl int_compare). Qed.

Lemma lex_name_key a b r s :
  lex (name_key a ++ r) (name_key b ++ s) = orelse (bytes_compare a b) (lex r s).
Proof.
  unfold name_key. revert b. induction a as [|x a IH]; intros [|y b]; simpl; try done.
  - pose proof (bz_range y). unfold orelse, int_compare. zcases; try done; lia.
  - pose proof (bz_range x). unfold orelse, int_compare. zcases; try done; lia.
  - rewrite IH. unfold orelse at 1. unfold int_compare at 1 2.
    destruct (Z.eqb_spec (bz x) (bz y)); zcases; try done; try lia; unfold int_compare; zcases; try lia; done.
Qed.

Lemma lex_concat {A} (k : A -> list Z) (f : A -> A -> Z) la lb r s :
  length la = length lb ->
  (forall x y, x ∈ la -> y ∈ lb -> forall r s, lex (k x ++ r) (k y ++ s) = orelse (f x y) (lex r s)) ->
  lex (concat (map k la) ++ r) (concat (map k lb) ++ s) = orelse (compare_seq f la lb) (lex r s).
Proof.
  revert lb. induction la as [|x la IH]; intros [|y lb]; try done; simpl; intros Hl Hf.
  rewrite <- !app_assoc, Hf, IH by (set_solver || lia).
  destruct (Z.eqb_spec (f x y) 0) as [->|]; [done|]. by rewrite !orelse_nz.
Qed.

Lemma primitive_id_inj p q : primitive_id p = primitive_id q -> p = q.
Proof. by destruct p, q. Qed.

Lemma kind_code_inj a b : kind_code a = kind_code b -> a = b.
Proof. by destruct a, b. Qed.

Lemma key_under_under t : key_under (TypeUnder t) = key_under t.
Proof. by induction t using ty_ind. Qed.
Lemma kind_under t : kind (TypeUnder t) = kind t.
Proof. by induction t using ty_ind. Qed.
Lemma ID_under t : ID (TypeUnder t) = ID t.
Proof. by induction t using ty_ind. Qed.
Lemma TypeUnder_named t : is_named (TypeUnder t) = false.
Proof. by induction t using ty_ind. Qed.
Lemma TypeUnder_id t : is_named t = false -> TypeUnder t = t.
Proof. by destruct t. Qed.
Lemma TypeUnder_idemp t : TypeUnder (TypeUnder t) = TypeUnder t.
Proof. apply TypeUnder_id, TypeUnder_named. Qed.
Lemma compare_under_l a b : compare_under (TypeUnder a) b = compare_under a b.
Proof. by induction a using ty_ind. Qed.
Lemma compare_under_r a b : compare_under a (TypeUnder b) = compare_under a b.
Proof. induction a using ty_ind; simpl; rewrite ?TypeUnder_idemp, ?ID_under; done. Qed.
Lemma flat_under t : flat t -> flat (TypeUnder t).
Proof. induction t using ty_ind; simpl; try done. intros [? ?]; auto. Qed.

Lemma flat_components t : flat t -> Forall flat (components t).
Proof.
  destruct t as [p|i fs|i t|i t|i k v|i ts|i ss|i t|i n t]; simpl; intros Hf; repeat constructor; try done; try apply Hf.
  - induction fs as [|f fs IH]; simpl in *; constructor; [apply Hf|apply IH, Hf].
  - induction ts as [|t ts IH]; simpl in *; constructor; [apply Hf|apply IH, Hf].
Qed.

Lemma key_under_head t : exists l, key_under t = kind_code (kind t) :: l.
Proof. induction t using ty_ind; simpl; eauto. Qed.

(** ** Injectivity of the key *)

Lemma name_key_inj a b r s : name_key a ++ r = name_key b ++ s -> a = b /\ r = s.
Proof.
  unfold name_key. revert b. induction a as [|x a IH]; intros [|y b]; simpl; intros H.
  - by injection H as ->.
  - injection H as H _. pose proof (bz_range y). lia.
  - injection H as H _. pose proof (bz_range x). lia.
  - injection H as H Ht. apply IH in Ht as [-> ->]. split; [|done]. f_equal. apply bz_inj. lia.
Qed.

Lemma concat_inj {A B} (k : A -> list Z) (e : A -> B) la lb r s :
  length la = length lb ->
  (forall x y, x ∈ la -> y ∈ lb -> forall r s, k x ++ r = k y ++ s -> e x = e y /\ r = s) ->
  concat (map k la) ++ r = concat (map k lb) ++ s -> map e la = map e lb /\ r = s.
Proof.
  revert lb. induction la as [|x la IH]; intros [|y lb] Hl Hf; [done|done|done|]; simpl in Hl |- *.
  rewrite <- !app_assoc. intros [Hx H]%Hf; [|set_solver..].
  apply IH in H as [Hm ->]; [|lia|set_solver]. by rewrite Hx, Hm.
Qed.

Lemma zlen_inj {A B} (l : list A) (k : list B) : zlen l = zlen k -> length l = length k.
Proof. unfold zlen. lia. Qed.

Lemma map_pair_inj {A B C} (f : A -> B) (g : A -> C) la lb :
  map f la = map f lb -> map g la = map g lb -> map (fun x => (f x, g x)) la = map (fun x => (f x, g x)) lb.
Proof.
  revert lb. induction la as [|x la IH]; intros [|y lb]; simpl; try done.
  intros [= H1 H2] [= H3 H4]. rewrite H1, H3. f_equal. auto.
Qed.

Lemma key_of_under a b r s :
  flat a -> flat b ->
  (forall r s, key_under a ++ r = key_under b ++ s -> erase (TypeUnder a) = erase (TypeUnder b) /\ r = s) ->
  (key_under a ++ key_tail a) ++ r = (key_under b ++ key_tail b) ++ s -> erase a = erase b /\ r = s.
Proof.
  intros Ha Hb Hu. rewrite <- !app_assoc. intros [He H]%Hu.
  assert (Ht : forall t, flat t -> match t with TNamed _ _ u => u = TypeUnder u | _ => t = TypeUnder t end).
  { intros []; try done. intros [? ?]. symmetry. by apply TypeUnder_id. }
  apply Ht in Ha, Hb. unfold key_tail in H.
  destruct (is_named a) eqn:Na, (is_named b) eqn:Nb.
  - destruct a, b; try done. cbn [app] in H. injection H as H.
    apply name_key_inj in H as [-> ->]. split; [|done]. simpl in *. congruence.
  - by destruct a, b.
  - by destruct a, b.
  - rewrite (TypeUnder_id a), (TypeUnder_id b) in He by done. split; [done|]. destruct a, b; try done; by injection H.
Qed.

Lemma key_under_inj a b r s :
  flat a -> flat b -> key_under a ++ r = key_under b ++ s ->
  erase (TypeUnder a) = erase (TypeUnder b) /\ r = s.
Proof.
  revert b r s. induction a as [p|i fs IH|i a IH|i a IH|i k v IHk IHv|i ts IH|i ss|i a IH|i n a IH] using ty_ind;
    intros b r s Ha Hb; [..|cbn [key_under TypeUnder]; apply IH; [apply Ha|done]];
    rewrite <- (key_under_under b); apply flat_under in Hb; pose proof (TypeUnder_named b) as Hn;
    destruct (TypeUnder b) as [q|j gs|j t'|j t'|j k' v'|j us|j ss'|j t'|]; try done;
    cbn [key_under app]; intros H; try discriminate H; cbn [TypeUnder erase].
  - injection H as H ->. by apply primitive_id_inj in H as ->.
  - injection H as H H0. apply zlen_inj in H. rewrite <- !app_assoc in H0.
    apply (concat_inj _ (fun f : field => f.1)) in H0 as [Hnames H0]; [|done|intros; by apply name_key_inj].
    apply (concat_inj _ (fun f : field => erase f.2)) in H0 as [Htypes H0]; [|done|].
    { split; [|done]. f_equal. by apply map_pair_inj. }
    intros x y Hx Hy r' s'. apply flat_components in Ha, Hb. simpl in Ha, Hb.
    rewrite Forall_forall in Ha, Hb. rewrite Forall_forall in IH.
    assert (flat x.2) by (apply Ha, list_elem_of_fmap; eauto).
    assert (flat y.2) by (apply Hb, list_elem_of_fmap; eauto).
    apply key_of_under; [done..|]. intros. by apply IH.
  - injection H as H. apply key_of_under in H as [-> ->]; auto.
  - injection H as H. apply key_of_under in H as [-> ->]; auto.
  - injection H as H. destruct Ha, Hb. rewrite <- !app_assoc in H. rewrite (app_assoc (key_under k)), (app_assoc (key_under k')) in H.
    apply key_of_under in H as [-> H]; auto. rewrite !app_assoc in H.
    apply key_of_under in H as [-> H]; auto.
  - injection H as H H0. apply zlen_inj in H. apply (concat_inj _ erase) in H0 as [Htypes H0]; [by rewrite Htypes|done|].
    intros x y Hx Hy r' s'. apply flat_components in Ha, Hb. simpl in Ha, Hb.
    rewrite Forall_forall in Ha, Hb, IH.
    apply key_of_under; [by apply Ha|by apply Hb|]. intros. apply IH; auto.
  - injection H as H H0. apply zlen_inj in H. apply (concat_inj _ id) in H0 as [Hs H0]; [|done|intros; by apply name_key_inj].
    rewrite !map_id in Hs. by rewrite Hs.
  - injection H as H. apply key_of_under in H as [-> ->]; auto.
Qed.

Lemma key_inj a b r s : flat a -> flat b -> key a ++ r = key b ++ s -> erase a = erase b /\ r = s.
Proof. intros. eapply key_of_under; [done..| |done]. intros. by apply key_under_inj. Qed.

(** ** The order of interned, flat types *)

Section interned_order.
Context (U : ty -> Prop) `{!Interned U}.

Definition admissible (t : ty) : Prop := U t /\ flat t.

Lemma admissible_components t : admissible t -> Forall admissible (components t).
Proof.
  intros [Hs Hf]. apply Forall_and. split; [by apply interned_components|by apply flat_components].
Qed.

Lemma admissible_under t : admissible t -> admissible (TypeUnder t).
Proof.
  induction t using ty_ind; try done. intros Ha%admissible_components. simpl in *.
  inversion_clear Ha. auto.
Qed.

Lemma lex_refl_app u r s : lex (u ++ r) (u ++ s) = lex r s.
Proof. induction u as [|x u IH]; simpl; [done|]. by rewrite gc_refl, IH by apply _. Qed.

Lemma lex_head a b r s :
  admissible a -> admissible b ->
  (kind a = kind b -> forall r s,
     lex (key_under a ++ r) (key_under b ++ s) = orelse (compare_under a b) (lex r s)) ->
  lex (key a ++ r) (key b ++ s) = orelse (CompareTypes a b) (lex r s).
Proof.
  intros Ha Hb Hu. unfold CompareTypes, compare_head, key. rewrite <- !app_assoc.
  destruct (Z.eqb_spec (ID a) (ID b)) as [Hid|Hid].
  - apply (interned_id (U := U)) in Hid; [|apply Ha|apply Hb].
    rewrite <- (key_under_under a), <- (key_under_under b), Hid, lex_refl_app.
    destruct (is_named a) eqn:Na, (is_named b) eqn:Nb.
    + destruct a, b; try done. simpl. by rewrite lex_name_key.
    + destruct a, b; done.
    + destruct a, b; done.
    + destruct a, b; done.
  - destruct (decide (kind a = kind b)) as [Hk|Hk].
    + rewrite Hk, gc_refl by apply _. unfold orelse at 2. simpl.
      rewrite (Hu Hk). destruct (decide (compare_under a b = 0)) as [Hz|Hz].
      * exfalso. specialize (Hu Hk [] []). rewrite Hz, !app_nil_r in Hu.
        assert (key_under a = key_under b) as Hk' by (by apply (gc_eq_1 lex)). apply Hid. rewrite <- (ID_under a), <- (ID_under b).
        f_equal. apply (interned_erase (U := U)); [by apply admissible_under..|].
        eapply (key_under_inj a b [] []); [apply Ha|apply Hb|by rewrite Hk'].
      * by rewrite !orelse_nz.
    + destruct (key_under_head a) as [la ->], (key_under_head b) as [lb ->]. simpl.
      destruct (Z.eqb_spec (int_compare (kind_code (kind a)) (kind_code (kind b))) 0) as [E|E].
      * apply gc_eq_1, kind_code_inj in E; [done|apply _].
      * by rewrite orelse_assoc, !orelse_nz.
Qed.

Lemma lex_len {A B} (la : list A) (lb : list B) a b x y :
  (length la = length lb -> lex a b = orelse x y) ->
  lex (zlen la :: a) (zlen lb :: b) = orelse (orelse (int_compare (zlen la) (zlen lb)) x) y.
Proof.
  intros H. cbn [lex]. rewrite orelse_assoc.
  destruct (Z.eq_dec (int_compare (zlen la) (zlen lb)) 0) as [E|E].
  - rewrite E. apply H, zlen_inj. by apply (gc_eq_1 int_compare).
  - by rewrite !orelse_nz.
Qed.

Lemma lex_under a : forall b r s,
  admissible a -> admissible b -> kind a = kind b ->
  lex (key_under a ++ r) (key_under b ++ s) = orelse (compare_under a b) (lex r s).
Proof.
  induction a as [p|i fs IH|i a IH|i a IH|i k v IHk IHv|i ts IH|i ss|i a IH|i n a IH] using ty_ind;
    intros b r s Ha Hb Hk;
    [..|cbn [key_under compare_under]; apply IH; [|done..]; apply admissible_components in Ha; by inversion Ha];
    rewrite <- (key_under_under b), <- (compare_under_r _ b); rewrite <- (kind_under b) in Hk;
    apply admissible_under in Hb; destruct (TypeUnder b) as [q|j gs|j t'|j t'|j k' v'|j us|j ss'|j t'|] eqn:Eb;
    cbn [kind] in Hk; try discriminate Hk;
    try (pose proof (TypeUnder_named b) as Hn; rewrite Eb in Hn; discriminate Hn);
    apply admissible_components in Ha, Hb;
    cbn [key_under app compare_under TypeUnder components] in *; rewrite lex_cons;
    rewrite ?Forall_forall in *.
  - done.
  - apply lex_len. intros Hl. rewrite <- !app_assoc.
    rewrite (lex_concat _ (fun x y : field => bytes_compare x.1 y.1)) by (try done; intros; apply lex_name_key).
    rewrite orelse_assoc. f_equal.
    apply (lex_concat _ (fun x y : field => compare_head compare_under x.2 y.2)); [done|].
    intros x y Hx Hy r' s'. apply lex_head; [apply Ha, list_elem_of_fmap; eauto..|apply Hb, list_elem_of_fmap; eauto|].
    intros. apply IH; [done|apply Ha, list_elem_of_fmap; eauto..|apply Hb, list_elem_of_fmap; eauto|done].
  - apply lex_head; [apply Ha; set_solver|apply Hb; set_solver|]. intros. apply IH; [apply Ha; set_solver|apply Hb; set_solver|done].
  - apply lex_head; [apply Ha; set_solver|apply Hb; set_solver|]. intros. apply IH; [apply Ha; set_solver|apply Hb; set_solver|done].
  - change (lex ((key k ++ key v) ++ r) ((key k' ++ key v') ++ s) =
            orelse (orelse (CompareTypes k k') (CompareTypes v v')) (lex r s)).
    assert (admissible k /\ admissible v) as [Hak Hav] by (split; apply Ha; set_solver).
    assert (admissible k' /\ admissible v') as [Hbk Hbv] by (split; apply Hb; set_solver).
    rewrite <- !app_assoc, !lex_head, orelse_assoc; try done; intros; by (apply IHk || apply IHv).
  - apply lex_len. intros Hl. apply lex_concat; [done|]. intros x y Hx Hy r' s'.
    apply lex_head; [by apply Ha|by apply Hb|]. intros. apply IH; auto.
  - apply lex_len. intros Hl. apply lex_concat; [done|]. intros. apply lex_name_key.
  - apply lex_head; [apply Ha; set_solver|apply Hb; set_solver|]. intros. apply IH; [apply Ha; set_solver|apply Hb; set_solver|done].
Qed.

Lemma CompareTypes_key a b : admissible a -> admissible b -> CompareTypes a b = lex (key a) (key b).
Proof.
  intros Ha Hb. rewrite <- (app_nil_r (key a)), <- (app_nil_r (key b)), lex_head; [|done..|].
  - simpl. unfold orelse. by destruct (Z.eqb_spec (CompareTypes a b) 0) as [->|].
  - intros. by apply lex_under.
Qed.
End interned_order.

(** Antisymmetry holds of any two types. *)
Lemma compare_seq_antisym {A} (f g : A -> A -> Z) la lb :
  (forall x y, x ∈ la -> g y x = - f x y) -> compare_seq g lb la = - compare_seq f la lb.
Proof.
  revert lb. induction la as [|x la IH]; intros [|y lb] H; try done.
  cbn [compare_seq]. fold (compare_seq f). fold (compare_seq g).
  rewrite H by set_solver. rewrite IH by set_solver. cbv zeta. zcases; lia.
Qed.

Lemma orelse_neg a b : orelse (- a) (- b) = - orelse a b.
Proof. unfold orelse. zcases; lia. Qed.

Lemma compare_head_antisym a b :
  (kind a = kind b -> compare_under b a = - compare_under a b) ->
  compare_head compare_under b a = - compare_head compare_under a b.
Proof.
  intros Hu. unfold compare_head. rewrite (Z.eqb_sym (ID b)). destruct (ID a =? ID b).
  - destruct a, b; try done. apply (gc_antisym (cmp := bytes_compare)).
  - rewrite (gc_antisym (cmp := int_compare) (kind_code (kind a))).
    destruct (decide (kind a = kind b)) as [Hk|Hk]; [by rewrite Hu, orelse_neg by done|].
    rewrite !orelse_nz; [done|..]; intros Hz; apply Hk, kind_code_inj, (gc_eq_1 int_compare); lia.
Qed.

Lemma compare_under_antisym a : forall b, kind a = kind b -> compare_under b a = - compare_under a b.
Proof.
  induction a as [p|i fs IH|i a IH|i a IH|i k v IHk IHv|i ts IH|i ss|i a IH|i n a IH] using ty_ind;
    intros b Hk; [..|rewrite <- (compare_under_r b); cbn [compare_under TypeUnder];
                     rewrite compare_under_r; by apply IH];
    rewrite <- (compare_under_l b), <- (compare_under_r _ b); rewrite <- (kind_under b) in Hk;
    pose proof (TypeUnder_named b) as Hn;
    destruct (TypeUnder b) as [q|j gs|j t'|j t'|j k' v'|j us|j ss'|j t'|]; try done;
    cbn [compare_under TypeUnder ID]; rewrite ?orelse_neg.
  - apply (gc_antisym (cmp := int_compare)).
  - rewrite <- !orelse_neg. f_equal; [apply (gc_antisym (cmp := int_compare))|]. f_equal.
    + apply compare_seq_antisym. intros. apply (gc_antisym (cmp := bytes_compare)).
    + apply compare_seq_antisym. intros x y Hx. apply compare_head_antisym.
      rewrite Forall_forall in IH. by apply IH.
  - apply compare_head_antisym; auto.
  - apply compare_head_antisym; auto.
  - rewrite <- orelse_neg. f_equal; apply compare_head_antisym; auto.
  - rewrite <- orelse_neg. f_equal; [apply (gc_antisym (cmp := int_compare))|].
    apply compare_seq_antisym. intros x y Hx. apply compare_head_antisym.
    rewrite Forall_forall in IH. by apply IH.
  - rewrite <- orelse_neg. f_equal; [apply (gc_antisym (cmp := int_compare))|].
    apply compare_seq_antisym. intros. apply (gc_antisym (cmp := bytes_compare)).
  - apply compare_head_antisym; auto.
Qed.

Lemma CompareTypes_antisym a b : CompareTypes b a = - CompareTypes a b.
Proof. apply compare_head_antisym, compare_under_antisym. Qed.

Lemma sort_types_idemp l : sort_types (sort_types l) = sort_types l.
Proof. apply stable_sort_idemp, cmp_lt_asym, CompareTypes_antisym. Qed.

Lemma dedup_types_elem prev l t : t ∈ dedup_types prev l -> t ∈ l.
Proof.
  revert prev. induction l as [|u l IH]; intros prev; simpl; [done|].
  case_decide; [intros ?%IH; set_solver|]. rewrite !elem_of_cons. intros [->|?%IH]; auto.
Qed.

Lemma dedup_types_complete prev l t : t ∈ l -> Some t = prev \/ t ∈ dedup_types prev l.
Proof.
  revert prev. induction l as [|u l IH]; intros prev; simpl; [by intros Ht%not_elem_of_nil|].
  rewrite elem_of_cons. case_decide as Hd.
  - intros [->|Ht]; [by left|by apply IH].
  - intros [->|Ht]; [right; left|]. destruct (IH (Some u) Ht) as [[= ->]|]; right; [left|by right].
Qed.

Lemma dedup_types_length prev l : (length (dedup_types prev l) <= length l)%nat.
Proof. revert prev. induction l as [|u l IH]; intros prev; simpl; [done|]. specialize (IH (Some u)) as H1. specialize (IH prev). case_decide; simpl; lia. Qed.

Section interned_order_facts.
Context (U : ty -> Prop) `{!Interned U}.
Local Abbreviation adm := (admissible U).

Lemma CompareTypes_trans a b c :
  adm a -> adm b -> adm c -> CompareTypes a b <= 0 -> CompareTypes b c <= 0 -> CompareTypes a c <= 0.
Proof. intros ???. rewrite !(CompareTypes_key U) by done. apply (gc_trans (cmp := lex)). Qed.

Lemma CompareTypes_eq a b : adm a -> adm b -> CompareTypes a b = 0 <-> a = b.
Proof.
  intros Ha Hb. rewrite (CompareTypes_key U) by done. split.
  - intros H%(gc_eq_1 lex). apply (interned_erase (U := U)); [apply Ha|apply Hb|].
    eapply (key_inj a b [] []); [apply Ha|apply Hb|by rewrite H].
  - intros ->. apply (gc_refl lex).
Qed.

Lemma sort_types_sorted l :
  Forall adm l -> StronglySorted (fun a b => CompareTypes a b <= 0) (sort_types l).
Proof.
  intros. apply (stable_sort_sorted _ adm); [apply CompareTypes_antisym| |done].
  intros a b c ???. by apply CompareTypes_trans.
Qed.

Lemma sort_types_perm_eq l k : Forall adm l -> l ≡ₚ k -> sort_types l = sort_types k.
Proof.
  apply (stable_sort_perm_eq _ adm).
  - apply CompareTypes_antisym.
  - intros a b c ??? H1 H2. by apply (CompareTypes_trans a b c).
  - intros a b ???. by apply CompareTypes_eq.
Qed.

(** On a sorted list every copy of [prev] comes first. *)
Lemma dedup_types_strict prev l :
  Forall adm l -> StronglySorted (fun a b => CompareTypes a b <= 0) l ->
  match prev with Some p => adm p /\ Forall (fun t => CompareTypes p t <= 0) l | None => True end ->
  StronglySorted (fun a b => CompareTypes a b < 0) (dedup_types prev l) /\
  match prev with Some p => Forall (fun t => CompareTypes p t < 0) (dedup_types prev l) | None => True end.
Proof.
  intros Ha Hs. revert prev. induction Hs as [|u l Hs IH Hu]; intros prev Hp; simpl.
  { split; [constructor|]. by destruct prev. }
  inversion_clear Ha as [|?? Hau Hal]. case_decide as Hd.
  - destruct prev as [p|]; [|done]. injection Hd as ->. apply IH; [done|]. by split.
  - destruct (IH Hal (Some u) (conj Hau Hu)) as [IHs IHf]. split; [by constructor|].
    destruct prev as [p|]; [|done]. destruct Hp as [Hap Hpl]. inversion_clear Hpl as [|?? Hpu Hpl'].
    assert (Hlt : CompareTypes p u < 0).
    { destruct (Z.eq_dec (CompareTypes p u) 0) as [Hz|]; [|lia].
      apply CompareTypes_eq in Hz; [by subst|done..]. }
    constructor; [done|]. rewrite Forall_forall in *. intros t Ht.
    specialize (IHf t Ht). apply dedup_types_elem in Ht as Htl. specialize (Hal t Htl).
    assert (CompareTypes p t <= 0) by (by apply Hpl').
    destruct (Z.eq_dec (CompareTypes p t) 0) as [Hz|]; [|lia].
    apply CompareTypes_eq in Hz; [|done..]. subst t.
    rewrite (CompareTypes_antisym p u) in IHf. lia.
Qed.

Lemma UniqueTypes_spec l :
  Forall adm l ->
  StronglySorted (fun a b => CompareTypes a b < 0) (UniqueTypes l) /\
  forall t, t ∈ UniqueTypes l <-> t ∈ l.
Proof.
  intros Ha. unfold UniqueTypes. split.
  - apply dedup_types_strict; [by unfold sort_types; rewrite stable_sort_perm|by apply sort_types_sorted|done].
  - intros t. assert (Hp : t ∈ sort_types l <-> t ∈ l) by (unfold sort_types; by rewrite stable_sort_perm).
    rewrite <- Hp. split; [apply dedup_types_elem|].
    intros Ht. by destruct (dedup_types_complete None _ _ Ht).
Qed.
End interned_order_facts.

(** ** Proofs: type values determine types *)

Lemma foldr_Forall {A} (Q : A -> Prop) l : foldr (fun x P => Q x /\ P) True l <-> Forall Q l.
Proof. induction l as [|x l IH]; simpl; [done|]. by rewrite Forall_cons, IH. Qed.

Lemma td_rel_insert td1 td2 n t1 t2 :
  td_rel td1 td2 -> erase t1 = erase t2 -> td_rel (<[n := t1]> td1) (<[n := t2]> td2).
Proof. unfold td_rel. intros H E. by rewrite !fmap_insert, H, E. Qed.

Lemma td_rel_lookup td1 td2 n t1 t2 :
  td_rel td1 td2 -> td1 !! n = Some t1 -> td2 !! n = Some t2 -> erase t1 = erase t2.
Proof.
  intros H H1 H2. apply (f_equal (lookup n)) in H. rewrite !lookup_fmap, H1, H2 in H.
  by injection H.
Qed.

Lemma short_u64 {A} (l : list A) : short l -> u64 (zlen l) = zlen l /\ 0 <= zlen l < 2 ^ 64.
Proof. unfold short. intros. pose proof (zlen_nonneg l). rewrite u64_id; lia. Qed.

Lemma uvarint_bytes_inj x y r s :
  0 <= x < 2 ^ 64 -> 0 <= y < 2 ^ 64 -> uvarint_bytes x ++ r = uvarint_bytes y ++ s -> x = y /\ r = s.
Proof.
  intros Hx Hy H. assert (E : uvarint (uvarint_bytes x ++ r) = uvarint (uvarint_bytes y ++ s)) by by rewrite H.
  rewrite !uvarint_append in E by done. injection E as -> _. split; [done|].
  by apply app_inv_head in H.
Qed.

Lemma len_bytes_inj {A B} (l : list A) (k : list B) r s :
  short l -> short k -> uvarint_bytes (u64 (zlen l)) ++ r = uvarint_bytes (u64 (zlen k)) ++ s ->
  length l = length k /\ r = s.
Proof.
  intros [-> Hl]%short_u64 [-> Hk]%short_u64 [H ->]%uvarint_bytes_inj; [|done..].
  split; [|done]. by apply zlen_inj.
Qed.

Lemma name_bytes_inj a b r s : short a -> short b -> name_bytes a ++ r = name_bytes b ++ s -> a = b /\ r = s.
Proof.
  intros Ha Hb. unfold name_bytes. rewrite <- !app_assoc. intros [Hl H]%len_bytes_inj; [|done..].
  by apply app_inj_1 in H.
Qed.

Lemma names_inj la lb r s :
  length la = length lb -> Forall short la -> Forall short lb ->
  concat (map name_bytes la) ++ r = concat (map name_bytes lb) ++ s -> la = lb /\ r = s.
Proof.
  revert lb. induction la as [|a la IH]; intros [|b lb]; simpl; try done. intros Hl Ha Hb.
  inversion_clear Ha as [|?? Ha1 Ha2]. inversion_clear Hb as [|?? Hb1 Hb2]. rewrite <- !app_assoc.
  intros [-> H]%name_bytes_inj; [|done..]. apply IH in H as [-> ->]; [done|lia|done..].
Qed.

Lemma append_fields_inj fs :
  Forall (fun f => enc_inj_at f.2) fs ->
  forall gs td1 td2 b1 b2 td1' td2' r1 r2,
    length fs = length gs ->
    Forall (fun f => short f.1 /\ sized f.2) fs -> Forall (fun f => short f.1 /\ sized f.2) gs ->
    td_rel td1 td2 ->
    append_fields appendTypeValue fs td1 = (b1, td1') ->
    append_fields appendTypeValue gs td2 = (b2, td2') ->
    b1 ++ r1 = b2 ++ r2 ->
    map (fun f => (f.1, erase f.2)) fs = map (fun f => (f.1, erase f.2)) gs /\ r1 = r2 /\ td_rel td1' td2'.
Proof.
  induction 1 as [|[n t] fs Ht _ IH]; intros [|[m u] gs] td1 td2 b1 b2 td1' td2' r1 r2; try done.
  { intros _ _ _ Htd [= <- <-] [= <- <-] Hr. done. }
  intros Hl Hs1 Hs2 Htd. inversion_clear Hs1 as [|?? [Hn1 Ht1] Hfs]. inversion_clear Hs2 as [|?? [Hn2 Ht2] Hgs].
  cbn [append_fields].
  destruct (appendTypeValue t td1) as [c1 tdx1] eqn:E1, (appendTypeValue u td2) as [c2 tdx2] eqn:E2.
  fold (append_fields appendTypeValue).
  destruct (append_fields appendTypeValue fs tdx1) as [d1 tdy1] eqn:F1.
  destruct (append_fields appendTypeValue gs tdx2) as [d2 tdy2] eqn:F2.
  intros [= <- <-] [= <- <-]. rewrite <- !app_assoc. intros [Hnm H]%name_bytes_inj; [|done..].
  simpl in Hnm. subst m.
  eapply (Ht u) in H as (He & H & Htd'); [|done..].
  eapply (IH gs) in H as (Hm & -> & Htd''); [|simpl in Hl; lia|done..].
  simpl in He |- *. by rewrite He, Hm.
Qed.

Lemma append_types_inj ts :
  Forall enc_inj_at ts ->
  forall us td1 td2 b1 b2 td1' td2' r1 r2,
    length ts = length us -> Forall sized ts -> Forall sized us -> td_rel td1 td2 ->
    append_types appendTypeValue ts td1 = (b1, td1') ->
    append_types appendTypeValue us td2 = (b2, td2') ->
    b1 ++ r1 = b2 ++ r2 -> map erase ts = map erase us /\ r1 = r2 /\ td_rel td1' td2'.
Proof.
  induction 1 as [|t ts Ht _ IH]; intros [|u us] td1 td2 b1 b2 td1' td2' r1 r2; try done.
  { intros _ _ _ Htd [= <- <-] [= <- <-] Hr. done. }
  intros Hl Hs1 Hs2 Htd. inversion_clear Hs1 as [|?? Ht1 Hts]. inversion_clear Hs2 as [|?? Hu1 Hus]. cbn [append_types].
  destruct (appendTypeValue t td1) as [c1 tdx1] eqn:E1, (appendTypeValue u td2) as [c2 tdx2] eqn:E2.
  fold (append_types appendTypeValue).
  destruct (append_types appendTypeValue ts tdx1) as [d1 tdy1] eqn:F1.
  destruct (append_types appendTypeValue us tdx2) as [d2 tdy2] eqn:F2.
  intros [= <- <-] [= <- <-]. rewrite <- !app_assoc. intros H.
  eapply (Ht u) in H as (He & H & Htd'); [|done..].
  eapply (IH us) in H as (Hm & -> & Htd''); [|simpl in Hl; lia|done..].
  simpl in He |- *. by rewrite He, Hm.
Qed.

Lemma primitive_id_range p : 0 <= primitive_id p < 30.
Proof. by destruct p. Qed.

Lemma head_code_range t td : 0 <= head_code t td < 256.
Proof. destruct t; simpl; try done; [pose proof (primitive_id_range p); lia|by case_decide]. Qed.

Lemma append_head t td : exists l, (appendTypeValue t td).1 = zb (head_code t td) :: l.
Proof.
  destruct t; simpl; eauto.
  - destruct (append_fields _ _ _); simpl; eauto.
  - destruct (appendTypeValue _ _); simpl; eauto.
  - destruct (appendTypeValue _ _); simpl; eauto.
  - destruct (appendTypeValue t1 td), (appendTypeValue t2 _); simpl; eauto.
  - destruct (append_types _ _ _); simpl; eauto.
  - destruct (appendTypeValue _ _); simpl; eauto.
  - case_decide; simpl; [eauto|]. destruct (appendTypeValue _ _); simpl; eauto.
Qed.

Lemma zb_inj x y : 0 <= x < 256 -> 0 <= y < 256 -> zb x = zb y -> x = y.
Proof. intros Hx Hy H. by rewrite <- (bz_zb_small x), <- (bz_zb_small y), H. Qed.

Lemma enc_head_eq t1 t2 td1 td2 r1 r2 :
  (appendTypeValue t1 td1).1 ++ r1 = (appendTypeValue t2 td2).1 ++ r2 ->
  head_code t1 td1 = head_code t2 td2.
Proof.
  destruct (append_head t1 td1) as [l1 ->], (append_head t2 td2) as [l2 ->]. intros [= H _].
  by apply zb_inj in H; [|apply head_code_range..].
Qed.

Lemma bind_pair_inj {A B C} (p : A * B) (c : A -> B -> C) :
  (let '(a, b) := p in c a b) = c p.1 p.2.
Proof. by destruct p. Qed.

Lemma enc_inj t1 : enc_inj_at t1.
Proof.
  induction t1 as [p|i fs IH|i t1 IH|i t1 IH|i k v IHk IHv|i ts IH|i ss|i t1 IH|i n t1 IH] using ty_ind;
    intros t2 td1 td2 b1 b2 td1' td2' r1 r2 Hs1 Hs2 Htd E1 E2 H.
  all: match type of E1 with appendTypeValue ?t _ = _ =>
    assert (Hh : head_code t td1 = head_code t2 td2)
      by (eapply (enc_head_eq _ t2 td1 td2 r1 r2); rewrite E1, E2; exact H) end.
  all: destruct t2 as [q|j gs|j t2|j t2|j k2 v2|j us|j ss2|j t2|j m t2].
  all: cbn [head_code] in Hh.
  all: try (pose proof (primitive_id_range p)); try (pose proof (primitive_id_range q)).
  all: unfold TypeValueRecord, TypeValueArray, TypeValueSet, TypeValueMap, TypeValueUnion,
         TypeValueEnum, TypeValueError, TypeValueNameDef, TypeValueNameRef in Hh.
  all: try lia; try discriminate Hh.
  all: try (repeat case_decide; lia).
  all: cbn [appendTypeValue] in E1, E2; rewrite ?bind_pair_inj in E1, E2; cbn [sized] in Hs1, Hs2.
  - injection E1 as <- <-. injection E2 as <- <-. injection H as _ ->.
    by apply primitive_id_inj in Hh as ->.
  - destruct Hs1 as [Hl1 Hf1%foldr_Forall], Hs2 as [Hl2 Hf2%foldr_Forall].
    injection E1 as <- <-. injection E2 as <- <-. injection H as H. rewrite <- !app_assoc in H.
    apply len_bytes_inj in H as [Hlen H]; [|done..].
    eapply (append_fields_inj fs IH gs td1 td2) in H as (Hm & -> & Htd');
      [cbn [erase]; by rewrite Hm|done..|apply surjective_pairing|apply surjective_pairing].
  - injection E1 as <- <-. injection E2 as <- <-. injection H as H.
    eapply (IH t2 td1 td2) in H as (He & -> & Htd');
      [cbn [erase]; by rewrite He|done..|apply surjective_pairing|apply surjective_pairing].
  - injection E1 as <- <-. injection E2 as <- <-. injection H as H.
    eapply (IH t2 td1 td2) in H as (He & -> & Htd');
      [cbn [erase]; by rewrite He|done..|apply surjective_pairing|apply surjective_pairing].
  - destruct Hs1 as [Hk1 Hv1], Hs2 as [Hk2 Hv2].
    injection E1 as <- <-. injection E2 as <- <-. injection H as H. rewrite <- !app_assoc in H.
    eapply (IHk k2 td1 td2) in H as (He & H & Htd'); [|done..|apply surjective_pairing|apply surjective_pairing].
    eapply (IHv v2) in H as (He' & -> & Htd'');
      [cbn [erase]; by rewrite He, He'|done..|apply surjective_pairing|apply surjective_pairing].
  - destruct Hs1 as [Hl1 Hf1%foldr_Forall], Hs2 as [Hl2 Hf2%foldr_Forall].
    injection E1 as <- <-. injection E2 as <- <-. injection H as H. rewrite <- !app_assoc in H.
    apply len_bytes_inj in H as [Hlen H]; [|done..].
    eapply (append_types_inj ts IH us td1 td2) in H as (Hm & -> & Htd');
      [cbn [erase]; by rewrite Hm|done..|apply surjective_pairing|apply surjective_pairing].
  - destruct Hs1, Hs2. injection E1 as <- <-. injection E2 as <- <-. injection H as H. rewrite <- !app_assoc in H.
    apply len_bytes_inj in H as [Hlen H]; [|done..]. by apply names_inj in H as [-> ->].
  - injection E1 as <- <-. injection E2 as <- <-. injection H as H.
    eapply (IH t2 td1 td2) in H as (He & -> & Htd');
      [cbn [erase]; by rewrite He|done..|apply surjective_pairing|apply surjective_pairing].
  - destruct Hs1 as [Hn1 Ht1], Hs2 as [Hn2 Ht2].
    destruct (decide (td1 !! n = Some t1)) as [L1|L1], (decide (td2 !! m = Some t2)) as [L2|L2]; try done.
    + injection E1 as <- <-. injection E2 as <- <-. injection H as H.
      apply name_bytes_inj in H as [-> ->]; [|done..].
      cbn [erase]. by rewrite (td_rel_lookup td1 td2 m t1 t2).
    + injection E1 as <- <-. injection E2 as <- <-. injection H as H. rewrite <- !app_assoc in H.
      apply name_bytes_inj in H as [-> H]; [|done..].
      eapply (IH t2 td1 td2) in H as (He & -> & Htd'); [|done..|apply surjective_pairing|apply surjective_pairing].
      cbn [erase]. rewrite He. split_and!; [done..|by apply td_rel_insert].
Qed.

Lemma EncodeTypeValue_inj t1 t2 :
  sized t1 -> sized t2 -> EncodeTypeValue t1 = EncodeTypeValue t2 -> erase t1 = erase t2.
Proof.
  intros H1 H2 H. unfold EncodeTypeValue in H.
  eapply (enc_inj t1 t2 ∅ ∅); [done..|apply surjective_pairing|apply surjective_pairing|].
  by rewrite !app_nil_r.
Qed.


(** ** The order depends only on the structure

    Two interned families of types, of two contexts, give different ids to the
    same structure; [CompareTypes] does not see the difference. *)

Lemma erase_under t : erase (TypeUnder t) = TypeUnder (erase t).
Proof. by induction t using ty_ind. Qed.
Lemma erase_kind t : kind (erase t) = kind t.
Proof. by induction t using ty_ind. Qed.

Lemma interned_under U `{!Interned U} t : U t -> U (TypeUnder t).
Proof.
  induction t using ty_ind; try done. intros Hu%interned_components.
  simpl in *. inversion_clear Hu. auto.
Qed.

Lemma interned_ID U `{!Interned U} a b :
  U a -> U b -> ID a = ID b <-> TypeUnder (erase a) = TypeUnder (erase b).
Proof.
  intros Ha Hb. rewrite <- !erase_under. split.
  - intros Hid. f_equal. by apply (interned_id (U := U)).
  - intros He. rewrite <- (ID_under a), <- (ID_under b). f_equal.
    by apply (interned_erase (U := U)); [apply interned_under..|].
Qed.

Section transfer.
Context (U V : ty -> Prop) `{!Interned U, !Interned V}.

(** [a] of [U] and [a'] of [V] have the same structure. *)
Definition same (a a' : ty) : Prop := U a /\ V a' /\ erase a = erase a'.

Lemma compare_seq_transfer {A} (f g : A -> A -> Z) (R : A -> A -> Prop) la lb la' lb' :
  Forall2 R la la' -> Forall2 R lb lb' ->
  (forall x y x' y', x ∈ la -> R x x' -> R y y' -> f x y = g x' y') ->
  compare_seq f la lb = compare_seq g la' lb'.
Proof.
  intros Ha. revert lb lb'. induction Ha as [|x x' la la' Hx Ha IH]; intros lb lb' Hb Hf.
  { by destruct Hb. }
  destruct Hb as [|y y' lb lb' Hy Hb]; [done|]. cbn [compare_seq].
  fold (compare_seq f). fold (compare_seq g). rewrite (Hf x y x' y') by (done || set_solver).
  rewrite (IH lb lb'); [done..|]. set_solver.
Qed.

Lemma same_components a a' : same a a' -> Forall2 same (components a) (components a').
Proof.
  intros (Ha & Ha' & E). apply interned_components in Ha, Ha'; [|done..].
  assert (Hm : map erase (components a) = map erase (components a')).
  { destruct a, a'; try done; simpl in *; injection E; intros; try congruence.
    rewrite !map_map. assert (H0 := f_equal (map snd) H). rewrite !map_map in H0. exact H0. }
  clear E. revert Hm Ha Ha'. generalize (components a), (components a').
  intros l l' Hm Ha. revert l' Hm. induction Ha as [|x l Hx Ha IH]; intros [|y l'] Hm Ha'; try done; constructor.
  - inversion_clear Ha'. injection Hm as Hm _. done.
  - inversion_clear Ha'. injection Hm as _ Hm. auto.
Qed.

Lemma same_under a a' : same a a' -> same (TypeUnder a) (TypeUnder a').
Proof.
  intros (Ha & Ha' & E). split_and!; [by apply interned_under..|]. by rewrite !erase_under, E.
Qed.

Lemma same_kind a a' : same a a' -> kind a = kind a'.
Proof. intros (_ & _ & E). by rewrite <- (erase_kind a), E, erase_kind. Qed.

Lemma same_length {A} (l l' : list A) (R : A -> A -> Prop) : Forall2 R l l' -> zlen l = zlen l'.
Proof. intros H. unfold zlen. by rewrite (Forall2_length R l l'). Qed.

Lemma compare_head_transfer a b a' b' :
  same a a' -> same b b' -> (kind a = kind b -> compare_under a b = compare_under a' b') ->
  compare_head compare_under a b = compare_head compare_under a' b'.
Proof.
  intros Ha Hb Hu. unfold compare_head. rewrite <- (same_kind a a'), <- (same_kind b b') by done.
  assert (Hid : (ID a =? ID b) = (ID a' =? ID b')).
  { destruct Ha as (Ha & Ha' & Ea), Hb as (Hb & Hb' & Eb). apply eq_true_iff_eq. rewrite !Z.eqb_eq.
    by rewrite (interned_ID U a b), (interned_ID V a' b'), Ea, Eb by done. }
  rewrite Hid. destruct (ID a' =? ID b').
  - destruct Ha as (_ & _ & Ea), Hb as (_ & _ & Eb).
    destruct a, a'; try done; destruct b, b'; try done; injection Ea as -> _; injection Eb as -> _; done.
  - destruct (decide (kind a = kind b)) as [Hk|Hk]; [by rewrite Hu|].
    rewrite !orelse_nz; [done|..]; intros Hz; apply Hk, kind_code_inj, (gc_eq_1 int_compare); done.
Qed.

Lemma erase_fields_names (fs gs : list field) :
  map (fun f => (f.1, erase f.2)) fs = map (fun f => (f.1, erase f.2)) gs -> map fst fs = map fst gs.
Proof. intros H%(f_equal (map fst)). rewrite !map_map in H. exact H. Qed.

Lemma compare_seq_map {A B} (f : A -> A -> Z) (g : B -> A) la lb :
  compare_seq (fun x y => f (g x) (g y)) la lb = compare_seq f (map g la) (map g lb).
Proof.
  revert lb. induction la as [|x la IH]; intros [|y lb]; [done..|]. cbn [compare_seq map].
  fold (compare_seq f). fold (compare_seq (fun x y => f (g x) (g y))). by rewrite IH.
Qed.

Lemma compare_under_transfer a : forall b a' b',
  same a a' -> same b b' -> kind a = kind b -> compare_under a b = compare_under a' b'.
Proof.
  induction a as [p|i fs IH|i a IH|i a IH|i k v IHk IHv|i ts IH|i ss|i a IH|i n a IH] using ty_ind;
    intros b a' b' Ha Hb Hk;
    (destruct a' as [p'|i' fs'|i' a'|i' a'|i' k' v'|i' ts'|i' ss'|i' a'|i' n' a'];
     try (destruct Ha as (_ & _ & E); discriminate E));
    pose proof (same_components _ _ Ha) as Hc; cbn [components] in Hc;
    [..|cbn [compare_under]; inversion_clear Hc; by apply IH];
    rewrite <- (compare_under_r _ b), <- (compare_under_r _ b'); rewrite <- (kind_under b) in Hk;
    apply same_under in Hb; pose proof (TypeUnder_named b) as Hn; pose proof (TypeUnder_named b') as Hn';
    destruct (TypeUnder b) as [q|j gs|j c|j c|j kc vc|j us|j us|j c|j m c] eqn:Eb; try done;
    (destruct (TypeUnder b') as [q'|j' gs'|j' c'|j' c'|j' kc' vc'|j' us'|j' us'|j' c'|j' m' c'] eqn:Eb';
     try (destruct Hb as (_ & _ & E); discriminate E)); try done;
    pose proof (same_components _ _ Hb) as Hd; cbn [components] in Hd;
    cbn [compare_under TypeUnder ID]; clear Hn Hn'.
  - destruct Ha as (_ & _ & [= ->]), Hb as (_ & _ & [= ->]). done.
  - destruct Ha as (_ & _ & [= Ea%erase_fields_names]), Hb as (_ & _ & [= Eb1%erase_fields_names]).
    rewrite (compare_seq_map bytes_compare fst), Ea, Eb1, <- (compare_seq_map bytes_compare fst).
    rewrite !(compare_seq_map (compare_head compare_under) snd).
    rewrite (compare_seq_transfer _ (compare_head compare_under) same _ _ _ _ Hc Hd).
    + apply Forall2_length in Hc, Hd. rewrite !length_map in Hc, Hd. unfold zlen. by rewrite Hc, Hd.
    + intros x y x' y' Hx Hxx Hyy. apply compare_head_transfer; [done..|]. intros.
      apply list_elem_of_fmap in Hx as (f & -> & Hf). rewrite Forall_forall in IH. by apply (IH f).
  - inversion_clear Hc. inversion_clear Hd. apply compare_head_transfer; auto.
  - inversion_clear Hc. inversion_clear Hd. apply compare_head_transfer; auto.
  - inversion_clear Hc as [|? ? ? ? Hc1 Hc2]. inversion_clear Hc2.
    inversion_clear Hd as [|? ? ? ? Hd1 Hd2]. inversion_clear Hd2.
    f_equal; apply compare_head_transfer; auto.
  - rewrite (same_length _ _ _ Hc), (same_length _ _ _ Hd). f_equal.
    apply (compare_seq_transfer _ _ same); [done..|]. intros x y x' y' Hx Hxx Hyy.
    apply compare_head_transfer; [done..|]. intros. rewrite Forall_forall in IH. by apply IH.
  - destruct Ha as (_ & _ & [= ->]), Hb as (_ & _ & [= ->]). done.
  - inversion_clear Hc. inversion_clear Hd. apply compare_head_transfer; auto.
Qed.

Lemma CompareTypes_transfer a b a' b' :
  same a a' -> same b b' -> CompareTypes a b = CompareTypes a' b'.
Proof. intros. apply compare_head_transfer; [done..|]. intros. by apply compare_under_transfer. Qed.

Lemma insert_rev_transfer x x' r r' :
  same x x' -> Forall2 same r r' ->
  Forall2 same (insert_rev (cmp_lt CompareTypes) x r) (insert_rev (cmp_lt CompareTypes) x' r').
Proof.
  intros Hx. induction 1 as [|y y' r r' Hy Hr IH]; simpl; [constructor; [done|constructor]|].
  unfold cmp_lt at 1 3. rewrite <- (CompareTypes_transfer x y x' y') by done.
  destruct (_ <? 0); constructor; auto.
Qed.

Lemma sort_types_transfer l l' : Forall2 same l l' -> Forall2 same (sort_types l) (sort_types l').
Proof.
  intros H. unfold sort_types, stable_sort. rewrite !rev_alt. apply (Forall2_reverse same).
  assert (Hr : Forall2 same [] []) by constructor. revert Hr.
  generalize (@nil ty) at 1 3. generalize (@nil ty). induction H as [|x x' l l' Hx Hl IH]; intros r' r Hr; [done|].
  cbn [fold_left]. apply IH. by apply insert_rev_transfer.
Qed.

(** A sorted list stays sorted in another context. *)
Lemma sort_types_same l l' : Forall2 same l l' -> sort_types l = l -> sort_types l' = l'.
Proof.
  intros H Hs. assert (H' := sort_types_transfer l l' H). rewrite Hs in H'. revert H'.
  generalize (sort_types l'). clear Hs. induction H as [|x x' l l' Hx Hl IH]; intros k Hk.
  - by inversion_clear Hk.
  - inversion_clear Hk as [|? y ? k' Hy Hk']. f_equal; [|by apply IH].
    apply (interned_erase (U := V)); [apply Hy|apply Hx|]. destruct Hx as (_ & _ & <-), Hy as (_ & _ & <-). done.
Qed.
End transfer.
