(* ===== verification/EncodingProps.v ===== *)
(** * Encodings and types: what their users rely on

    The tag-counted encoding of [zcode], the order of types and the tables of
    complex types, stated for their callers. *)

From S2P Require Import Prelude Zcode Types.
Local Open Scope Z_scope.

(** the unsigned varint of a 64-bit integer is read back by both readers, with
    the number of bytes that [SizeOfUvarint] promises, whatever follows it. *)
Theorem uvarint_roundtrip x r :
  0 <= x < 2 ^ 64 ->
  uvarint (uvarint_bytes x ++ r) = (x, SizeOfUvarint x) /\ read_uvarint (uvarint_bytes x ++ r) = Ok (x, r) /\
  SizeOfUvarint x <= MaxVarintLen64.
Proof.
  intros Hx. pose proof (uvarint_bytes_len x Hx). rewrite SizeOfUvarint_length by done.
  split; [by apply uvarint_append|]. split; [by apply read_uvarint_append|done].
Qed.

Lemma uvarint_roundtrip_witness :
  uvarint (uvarint_bytes 300 ++ [zb 7]) = (300, 2) /\ read_uvarint (uvarint_bytes 300 ++ [zb 7]) = Ok (300, [zb 7]) /\
  2 <= MaxVarintLen64.
Proof. apply (uvarint_roundtrip 300 [zb 7]). lia. Defined.

(** The value of a tree: that of a leaf, or the body of a container. *)
Definition tree_val (t : vtree) : bytes :=
  match t with VPrim v => v | VCont l => Some (concat (map tree_bytes l)) end.

Lemma tree_bytes_val t : tree_bytes t = val_bytes (tree_val t).
Proof. by destruct t. Qed.

Lemma tree_bytes_body l : concat (map tree_bytes l) = body_of (map tree_val l).
Proof. unfold body_of. rewrite map_map. f_equal. apply map_ext, tree_bytes_val. Qed.

Lemma small_children l : zlen (concat (map tree_bytes l)) < 2 ^ 62 -> Forall small (map tree_val l).
Proof.
  induction l as [|t l IH]; [by constructor|]. simpl. rewrite zlen_app. intros Hl.
  pose proof (zlen_nonneg (tree_bytes t)). pose proof (zlen_nonneg (concat (map tree_bytes l))).
  constructor; [|apply IH; lia]. unfold small. rewrite tree_bytes_val in *. unfold val_bytes in *.
  destruct (tree_val t) as [v|]; simpl; [|done]. rewrite zlen_app in *.
  pose proof (zlen_nonneg (uvarint_bytes (toTag (zlen v)))). lia.
Qed.

(** C36: what a builder is given, nested to any depth, is what iteration
    finds: the container is one value of the builder's bytes, and its body
    iterates over the values that were put in it. *)
Theorem builder_iter_roundtrip l :
  zlen (tree_bytes (VCont l)) < 2 ^ 62 ->
  exists b body, build NewBuilder (VCont l) = Ok b /\ containers b = [] /\
    Next (default [] (b_bytes b)) = Ok (Some body, []) /\ iter_all (Some body) = Ok (map tree_val l).
Proof.
  intros Hs. set (body := concat (map tree_bytes l)).
  assert (Hb : zlen body < 2 ^ 62).
  { cbn [tree_bytes] in Hs. fold body in Hs. unfold val_bytes in Hs. rewrite zlen_app in Hs.
    pose proof (zlen_nonneg (uvarint_bytes (toTag (zlen body)))). lia. }
  eexists _, body. split; [by apply build_tree|]. split; [done|]. split.
  - cbn [b_bytes default tree_bytes NewBuilder]. fold body. rewrite <- (app_nil_r (val_bytes _)).
    by apply Next_Append.
  - unfold iter_all, Iter. cbn [default]. unfold id, body. rewrite tree_bytes_body.
    rewrite (iter_loop_body Next (fun v => v)) by (done || apply Next_Append || by apply small_children). by rewrite map_id.
Qed.

Lemma builder_iter_roundtrip_witness :
  exists b body, build NewBuilder (VCont [VPrim (Some [zb 1]); VCont [VPrim None; VPrim (Some [])]; VPrim None]) = Ok b /\
    containers b = [] /\ Next (default [] (b_bytes b)) = Ok (Some body, []) /\
    iter_all (Some body) = Ok [Some [zb 1]; Some [zb 0; zb 1]; None].
Proof.
  apply (builder_iter_roundtrip [VPrim (Some [zb 1]); VCont [VPrim None; VPrim (Some [])]; VPrim None]).
  by vm_compute.
Defined.

(** ** Types *)

(** on the types of one context [CompareTypes] is a total order whose zero is
    equality; so [UniqueTypes] gives a sorted list without duplicates of the
    types it is given, the same whatever their order. *)
Theorem CompareTypes_UniqueTypes (U : ty -> Prop) `{!Interned U} (l k : list ty) :
  Forall (admissible U) l -> l ≡ₚ k ->
  (forall a b, a ∈ l -> b ∈ l -> CompareTypes b a = - CompareTypes a b /\ (CompareTypes a b = 0 <-> a = b)) /\
  (forall a b c, a ∈ l -> b ∈ l -> c ∈ l -> CompareTypes a b <= 0 -> CompareTypes b c <= 0 -> CompareTypes a c <= 0) /\
  StronglySorted (fun a b => CompareTypes a b < 0) (UniqueTypes l) /\
  (forall t, t ∈ UniqueTypes l <-> t ∈ l) /\ UniqueTypes l = UniqueTypes k.
Proof.
  intros Hl Hk. assert (Ha : forall t, t ∈ l -> admissible U t) by by apply Forall_forall.
  split_and!.
  - intros a b Hin1 Hin2. split; [apply CompareTypes_antisym|apply (CompareTypes_eq U); auto].
  - intros a b c ???. apply (CompareTypes_trans U); auto.
  - by apply (UniqueTypes_spec U).
  - by apply (UniqueTypes_spec U).
  - unfold UniqueTypes. by rewrite (sort_types_perm_eq U l k).
Qed.

Definition demo_array : ty := TArray 30 (TPrim Int64).
Definition demo_union : ty := TUnion 31 [TPrim Int64; TArray 30 (TPrim Int64)].
Definition demo_types : list ty := [TPrim Int64; TPrim String; demo_array; demo_union].
Definition demo_universe (t : ty) : Prop := t ∈ demo_types.

Lemma demo_interned : Interned demo_universe.
Proof.
  assert (Hd : forall t, demo_universe t -> t = TPrim Int64 \/ t = TPrim String \/ t = demo_array \/ t = demo_union).
  { intros t Ht. unfold demo_universe, demo_types in Ht. rewrite !elem_of_cons in Ht.
    destruct Ht as [?|[?|[?|[?|[]%not_elem_of_nil]]]]; auto. }
  assert (Hin : forall t, bool_decide (t ∈ demo_types) = true -> demo_universe t) by (intros t Ht; by apply bool_decide_eq_true in Ht).
  split.
  - intros t [->|[->|[->| ->]]]%Hd; simpl; repeat constructor; by apply Hin; vm_compute.
  - intros a b [->|[->|[->| ->]]]%Hd [->|[->|[->| ->]]]%Hd; vm_compute; intros Heq; (reflexivity || discriminate Heq).
  - intros a b [->|[->|[->| ->]]]%Hd [->|[->|[->| ->]]]%Hd; vm_compute; intros Heq; (reflexivity || discriminate Heq).
Qed.

Lemma CompareTypes_UniqueTypes_witness :
  UniqueTypes [demo_union; TPrim String; demo_array; TPrim String] = UniqueTypes [TPrim String; demo_array; demo_union; TPrim String] /\
  UniqueTypes [demo_union; TPrim String; demo_array; TPrim String] = [TPrim String; demo_array; demo_union].
Proof.
  assert (Ha : Forall (admissible demo_universe) [demo_union; TPrim String; demo_array; TPrim String]).
  { repeat apply Forall_cons_2; [..|apply Forall_nil_2]; (split; [apply (bool_decide_unpack _); vm_compute; exact I|by vm_compute]). }
  split; [|by vm_compute].
  apply (@CompareTypes_UniqueTypes demo_universe demo_interned _ [TPrim String; demo_array; demo_union; TPrim String] Ha).
  by apply (bool_decide_unpack _); vm_compute.
Defined.

(** types with the same type value are the same type up to the identifiers
    their contexts gave them, for any types whose names and lists have [int]
    lengths, named types included. *)
Theorem type_value_injective t1 t2 :
  sized t1 -> sized t2 -> EncodeTypeValue t1 = EncodeTypeValue t2 -> erase t1 = erase t2.
Proof. apply EncodeTypeValue_inj. Qed.

Lemma type_value_injective_witness :
  erase (TRecord 40 [(str "a", TNamed 31 (str "n") (TPrim Int64)); (str "b", TNamed 31 (str "n") (TPrim Int64))]) =
  erase (TRecord 70 [(str "a", TNamed 61 (str "n") (TPrim Int64)); (str "b", TNamed 61 (str "n") (TPrim Int64))]).
Proof. apply type_value_injective; by vm_compute. Defined.

(** the names and the identifiers of the primitive types are unambiguous, and
    the lookups invert them. *)
Theorem primitive_lookup p id q :
  LookupPrimitive (PrimitiveName p) = Some p /\ LookupPrimitiveByID (primitive_id p) = Ok p /\
  (forall name, LookupPrimitive name = Some q -> name = PrimitiveName q) /\
  (LookupPrimitiveByID id = Ok q -> id = primitive_id q).
Proof.
  split; [by destruct p; vm_compute|]. split; [by destruct p|]. split.
  - intros name. unfold LookupPrimitive.
    repeat (case_bool_decide as Hn; [intros [= <-]; exact Hn|clear Hn]). done.
  - unfold LookupPrimitiveByID. intros H. destruct (Z.ltb_spec id 0); [done|].
    destruct (Z.leb_spec IDTypeComplex id); [done|]. unfold IDTypeComplex in *.
    assert (Hr : id ∈ seqZ 0 30) by (apply elem_of_seqZ; lia). revert H.
    repeat (apply elem_of_cons in Hr as [->|Hr]; [intros [= <-]; reflexivity|]). by apply not_elem_of_nil in Hr.
Qed.

Lemma primitive_lookup_witness : 28 = primitive_id Type_.
Proof. exact (proj2 (proj2 (proj2 (primitive_lookup Int8 28 Type_))) eq_refl). Defined.

Lemma EnumLookup_from_spec symbols s k :
  (EnumLookup_from symbols s k = -1 /\ s ∉ symbols) \/
  (exists n, EnumLookup_from symbols s k = k + Z.of_nat n /\ symbols !! n = Some s /\
    forall m, (m < n)%nat -> symbols !! m <> Some s).
Proof.
  revert k. induction symbols as [|x xs IH]; intros k; [left; split; [done|apply not_elem_of_nil]|]. simpl.
  case_bool_decide as Hx.
  - right. exists 0%nat. subst x. split; [lia|]. split; [done|]. lia.
  - destruct (IH (k + 1)) as [[-> Hn]|(n & -> & Hn & Hm)].
    + left. split; [done|]. by apply not_elem_of_cons.
    + right. exists (S n). split; [lia|]. split; [done|]. intros [|m] Hlt; [simpl; congruence|]. apply Hm. lia.
Qed.

Lemma union_lut_from_spec types t i found :
  (t ∉ types -> union_lut_from types i t found = found) /\
  (t ∈ types -> exists n, union_lut_from types i t found = i + Z.of_nat n /\ types !! n = Some t).
Proof.
  revert i found. induction types as [|x xs IH]; intros i found.
  { split; [done|]. by intros ?%not_elem_of_nil. }
  simpl. destruct (IH (i + 1) (if decide (x = t) then i else found)) as [H1 H2]. split.
  - intros [Hne Hn]%not_elem_of_cons. rewrite (H1 Hn). by rewrite decide_False by congruence.
  - intros Hin. destruct (decide (t ∈ xs)) as [Hi|Hi].
    + destruct (H2 Hi) as (n & -> & Hn). exists (S n). split; [lia|done].
    + apply elem_of_cons in Hin as [->|Hin]; [|done]. rewrite (H1 Hi), decide_True by done. exists 0%nat. split; [lia|done].
Qed.

(** the tag of a type of a union is a position of that type, a type the union
    does not have gets -1, and an enum's symbol is found at its first
    position; an index that is negative or too large names no type and no
    symbol. *)
Theorem union_enum_tables (types : list ty) (symbols : list gostring) t s :
  (if decide (t ∈ types) then UnionType types (TagOf types t) = Some t else TagOf types t = -1) /\
  (if decide (s ∈ symbols) then Symbol symbols (EnumLookup symbols s) = Some s else EnumLookup symbols s = -1) /\
  (forall i, UnionType types i = None <-> i < 0 \/ zlen types <= i) /\
  (forall i, Symbol symbols i = None <-> i < 0 \/ zlen symbols <= i).
Proof.
  assert (Hat : forall A (l : list A) i,
    (if (i <? 0) || (zlen l <=? i) then None else l !! Z.to_nat i) = None <-> i < 0 \/ zlen l <= i).
  { intros A l i. destruct (Z.ltb_spec i 0); simpl; [split; [by left|done]|].
    destruct (Z.leb_spec (zlen l) i); [split; [by right|done]|]. rewrite lookup_ge_None. unfold zlen in *. lia. }
  assert (Hget : forall A (l : list A) n x, l !! n = Some x ->
    (if (Z.of_nat n <? 0) || (zlen l <=? Z.of_nat n) then None else l !! Z.to_nat (Z.of_nat n)) = Some x).
  { intros A l n x Hx. pose proof (lookup_lt_Some _ _ _ Hx). rewrite (proj2 (Z.ltb_ge _ _)) by lia. unfold zlen.
    rewrite (proj2 (Z.leb_gt _ _)) by lia. simpl. by rewrite Nat2Z.id. }
  split_and!; [| |apply Hat|apply Hat].
  - unfold TagOf, UnionType. destruct (union_lut_from_spec types t 0 (-1)) as [H1 H2]. case_decide as Hin; [|auto].
    destruct (H2 Hin) as (n & -> & Hn). by apply Hget.
  - unfold EnumLookup, Symbol. destruct (EnumLookup_from_spec symbols s 0) as [[-> Hn]|(n & -> & Hn & _)].
    + by rewrite decide_False.
    + rewrite decide_True by by eapply list_elem_of_lookup_2. by apply Hget.
Qed.

(** Two distinct named types nested in each other compare as equal, so the types
    of a union are not always distinct and depend on their order. *)
Theorem nested_names_collide :
  exists a b, a <> b /\ CompareTypes a b = 0 /\ UniqueTypes [a; b; a] = [a; b; a] /\ UniqueTypes [a; a; b] = [a; b].
Proof.
  exists (TNamed 31 (str "foo") (TNamed 30 (str "bar") (TPrim Int64))), (TNamed 32 (str "foo") (TPrim Int64)).
  split; [done|]. split; [by vm_compute|]. split; by vm_compute.
Qed.
