(* ===== verification/Context.v ===== *)
(** * The type context

    [src/context.go]: the [Context] that interns types, assigns their ids, and
    translates serialized type values into its own types.  Each lookup holds
    [mu] from start to end and is one state transition; [DecodeTypeValue] takes
    the lock once per type it looks up, [LookupByValue] and [LookupTypeValue]
    release it around that, and they are sequences of such transitions, in
    between which Goroutines.v lets other goroutines run. *)

From S2P Require Import Prelude Zcode Types.
Local Open Scope Z_scope.

Record Context := mkContext {
  byID : list (option ty);
  toType : gmap (list byte) ty;
  toValue : list (ty * list byte);     (* newest binding first *)
  typedefs : gmap gostring ty;
  stringErr : option ty;
}.

Definition NewContext : Context := mkContext (replicate 30 None) ∅ [] ∅ None.

(** [Reset] leaves [stringErr] alone, as the source does. *)
Definition Reset (c : Context) : Context :=
  mkContext (take 30 (byID c)) ∅ [] ∅ (stringErr c).

Definition MaxEnumSymbols : Z := 100000.
Definition MaxRecordFields : Z := 100000.
Definition MaxUnionTypes : Z := 100000.

(** ** Context-passing computations

    The error [Diverge] is only that of the fuel of [DecodeTypeValue]; a Go
    error result is a value, because the context keeps what was entered before
    the error. *)

Definition M (A : Type) : Type := Context -> outcome diverge (A * Context).
#[export] Instance M_ret : MRet M := fun A a c => Ok (a, c).
#[export] Instance M_bind : MBind M := fun A B f m c => '(a, c) ← m c; f a c.
Definition panic {A} : M A := fun _ => Panic.
Definition diverges {A} : M A := fun _ => Err Diverge.

(** ** Looking types up *)

Inductive lookup_error := ErrIDNegative | ErrPrimitiveID (e : id_error) | ErrIDNotInContext | ErrIDNoType.

Definition nextIDWithLock (c : Context) : Z := zlen (byID c).

Definition LookupType (c : Context) (id : Z) : outcome lookup_error ty :=
  if id <? 0 then Err ErrIDNegative
  else if id <? IDTypeComplex then
    match LookupPrimitiveByID id with
    | Ok p => Ok (TPrim p)
    | Err e => Err (ErrPrimitiveID e)
    | Panic => Panic
    end
  else if zlen (byID c) <=? id then Err ErrIDNotInContext
  else match byID c !! Z.to_nat id with
       | Some (Some t) => Ok t
       | _ => Err ErrIDNoType
       end.

Definition enterWithLock (tv : list byte) (t : ty) (c : Context) : Context :=
  mkContext (byID c ++ [Some t]) (<[tv := t]> (toType c)) ((t, tv) :: toValue c)
    (typedefs c) (stringErr c).

(** The body every [LookupType...] shares: return the type stored under the
    type value [tv], whose dynamic type the caller asserts, or enter
    the one [mk] builds from the next id. *)
Definition lookup_or_enter (tv : list byte) (assert_kind : ty -> bool) (mk : Z -> ty) : M ty :=
  fun c =>
    match toType c !! tv with
    | Some t => if assert_kind t then Ok (t, c) else Panic
    | None => let t := mk (nextIDWithLock c) in Ok (t, enterWithLock tv t c)
    end.

Definition is_kind (k : Kind) (t : ty) : bool :=
  negb (is_named t) && bool_decide (kind t = k).

Inductive record_error := DuplicateFieldError (name : gostring).

(** The names are sorted and the first repeated one is returned. *)
Fixpoint first_repeat (prev : gostring) (names : list gostring) : option gostring :=
  match names with
  | [] => None
  | n :: names => if decide (n = prev) then Some n else first_repeat n names
  end.
Definition duplicateField (fields : list field) : option gostring :=
  if zlen fields <? 2 then None
  else match stable_sort (cmp_lt bytes_compare) (map fst fields) with
       | [] => None
       | prev :: names => first_repeat prev names
       end.

Definition LookupTypeRecord (fields : list field) : M (record_error + ty) :=
  fun c =>
    let tv := EncodeTypeValue (TRecord 0 fields) in
    match toType c !! tv with
    | Some t => if is_kind RecordKind t then Ok (inr t, c) else Panic
    | None =>
        match duplicateField fields with
        | Some name => Ok (inl (DuplicateFieldError name), c)
        | None =>
            let t := TRecord (nextIDWithLock c) fields in
            Ok (inr t, enterWithLock tv t c)
        end
    end.

Definition MustLookupTypeRecord (fields : list field) : M ty :=
  r ← LookupTypeRecord fields;
  match r with inl _ => panic | inr t => mret t end.

Definition LookupTypeSet (inner : ty) : M ty :=
  lookup_or_enter (EncodeTypeValue (TSet 0 inner)) (is_kind SetKind) (fun id => TSet id inner).
Definition LookupTypeMap (k v : ty) : M ty :=
  lookup_or_enter (EncodeTypeValue (TMap 0 k v)) (is_kind MapKind) (fun id => TMap id k v).
Definition LookupTypeArray (inner : ty) : M ty :=
  lookup_or_enter (EncodeTypeValue (TArray 0 inner)) (is_kind ArrayKind) (fun id => TArray id inner).

(** [LookupTypeUnion] sorts its argument in place; the sorted list is what the
    type keeps. *)
Definition LookupTypeUnion (types : list ty) : M ty :=
  let types := sort_types types in
  lookup_or_enter (EncodeTypeValue (TUnion 0 types)) (is_kind UnionKind) (fun id => TUnion id types).
Definition LookupTypeEnum (symbols : list gostring) : M ty :=
  lookup_or_enter (EncodeTypeValue (TEnum 0 symbols)) (is_kind EnumKind) (fun id => TEnum id symbols).

Definition LookupTypeDef (name : gostring) : M (option ty) :=
  fun c => Ok (typedefs c !! name, c).

(** [utf8.ValidString]. *)
Definition cont (b : byte) (lo hi : Z) : bool := (lo <=? bz b) && (bz b <=? hi).
Fixpoint utf8_valid (fuel : nat) (s : gostring) : bool :=
  match fuel, s with
  | _, [] => true
  | O, _ => false
  | S fuel, b0 :: s =>
      let x := bz b0 in
      if x <? 128 then utf8_valid fuel s
      else if cont b0 194 223 then
        match s with b1 :: s => cont b1 128 191 && utf8_valid fuel s | _ => false end
      else if cont b0 224 239 then
        match s with
        | b1 :: b2 :: s =>
            cont b1 (if x =? 224 then 160 else 128) (if x =? 237 then 159 else 191)
            && cont b2 128 191 && utf8_valid fuel s
        | _ => false
        end
      else if cont b0 240 244 then
        match s with
        | b1 :: b2 :: b3 :: s =>
            cont b1 (if x =? 240 then 144 else 128) (if x =? 244 then 143 else 191)
            && cont b2 128 191 && cont b3 128 191 && utf8_valid fuel s
        | _ => false
        end
      else false
  end.
Definition ValidString (s : gostring) : bool := utf8_valid (length s) s.

Inductive name_error := ErrInvalidUTF8 | ErrPrimitiveTypeName.

Definition bind_typedef (name : gostring) (t : ty) (c : Context) : Context :=
  mkContext (byID c) (toType c) (toValue c) (<[name := t]> (typedefs c)) (stringErr c).

Definition LookupTypeNamed (name : gostring) (inner : ty) : M (name_error + ty) :=
  fun c =>
    if negb (ValidString name) then Ok (inl ErrInvalidUTF8, c)
    else match LookupPrimitive name with
         | Some _ => Ok (inl ErrPrimitiveTypeName, c)
         | None =>
             let tv := EncodeTypeValue (TNamed 0 name inner) in
             match toType c !! tv with
             | Some t => if is_named t then Ok (inr t, bind_typedef name t c) else Panic
             | None =>
                 let t := TNamed (nextIDWithLock c) name inner in
                 Ok (inr t, enterWithLock tv t (bind_typedef name t c))
             end
         end.

Definition set_stringErr (t : ty) (c : Context) : Context :=
  mkContext (byID c) (toType c) (toValue c) (typedefs c) (Some t).

Definition LookupTypeError (inner : ty) : M ty :=
  fun c =>
    let tv := EncodeTypeValue (TError 0 inner) in
    match toType c !! tv with
    | Some t => if is_kind ErrorKind t then Ok (t, c) else Panic
    | None =>
        let t := TError (nextIDWithLock c) inner in
        let c := enterWithLock tv t c in
        Ok (t, if decide (inner = TPrim String) then set_stringErr t c else c)
    end.

Definition StringTypeError : M ty :=
  fun c => match stringErr c with
           | Some t => Ok (t, c)
           | None => LookupTypeError (TPrim String) c
           end.

(** ** Decoding type values *)

(** [DecodeLength]; [None] is the nil slice. *)
Definition DecodeLength (tv : list byte) : option (Z * list byte) :=
  let '(namelen, n) := uvarint tv in
  if n <=? 0 then None else Some (i64 namelen, drop (Z.to_nat n) tv).

(** [DecodeName] panics on a negative length: the slice is out of range. *)
Definition DecodeName (tv : list byte) : outcome diverge (option (gostring * list byte)) :=
  match DecodeLength tv with
  | None => Ok None
  | Some (namelen, tv) =>
      if zlen tv <? namelen then Ok None
      else match slice_split tv 0 namelen with
           | Ok (name, rest) => Ok (Some (name, rest))
           | _ => Panic
           end
  end.

Definition lift {A} (m : outcome diverge A) : M A := fun c => a ← m; Ok (a, c).

(** [(Type, zcode.Bytes)] results: [None] is [nil, nil]. *)
Definition decoded : Type := option (ty * list byte).

(** The loop over the fields of a record. *)
Definition decode_fields (decode : list byte -> M decoded) :=
  fix go (n : nat) (tv : list byte) (fields : list field) : M (option (list field * list byte)) :=
    match n with
    | O => mret (Some (fields, tv))
    | S n =>
        r ← lift (DecodeName tv);
        match r with
        | None => mret None
        | Some (name, tv) =>
            r ← decode tv;
            match r with
            | None => mret None
            | Some (t, tv) => go n tv (fields ++ [(name, t)])
            end
        end
    end.

(** The loop over the types of a union does not test for the nil result: the
    nil type is appended, every later call returns nil too, and
    [LookupTypeUnion] dereferences it. *)
Definition decode_types (decode : list byte -> M decoded) :=
  fix go (n : nat) (tv : list byte) (types : list ty) : M (list ty * list byte) :=
    match n with
    | O => mret (types, tv)
    | S n =>
        r ← decode tv;
        match r with
        | None => panic
        | Some (t, tv) => go n tv (types ++ [t])
        end
    end.

(** The loop over the symbols of an enum. *)
Fixpoint decode_symbols (n : nat) (tv : list byte) (symbols : list gostring)
  : outcome diverge (option (list gostring * list byte)) :=
  match n with
  | O => Ok (Some (symbols, tv))
  | S n =>
      r ← DecodeName tv;
      match r with
      | None => Ok None
      | Some (symbol, tv) => decode_symbols n tv (symbols ++ [symbol])
      end
  end.

(** Every recursive call is on a shorter slice, so the length of the slice plus
    one is enough fuel. *)
Fixpoint decode_type_value (fuel : nat) (tv : list byte) : M decoded :=
  match fuel with
  | O => diverges
  | S fuel =>
      match tv with
      | [] => mret None
      | id :: tv =>
          let id := bz id in
          if id =? TypeValueNameDef then
            r ← lift (DecodeName tv);
            match r with
            | None => mret None
            | Some (name, tv) =>
                r ← decode_type_value fuel tv;
                match r with
                | None => mret None
                | Some (t, tv) =>
                    named ← LookupTypeNamed name t;
                    match named with
                    | inl _ => mret None
                    | inr named => mret (Some (named, tv))
                    end
                end
            end
          else if id =? TypeValueNameRef then
            r ← lift (DecodeName tv);
            match r with
            | None => mret None
            | Some (name, tv) =>
                t ← LookupTypeDef name;
                match t with
                | None => mret None
                | Some t => mret (Some (t, tv))
                end
            end
          else if id =? TypeValueRecord then
            match DecodeLength tv with
            | None => mret None
            | Some (n, tv) =>
                if MaxRecordFields <? n then mret None
                else if n <? 0 then panic
                else
                  r ← decode_fields (decode_type_value fuel) (Z.to_nat n) tv [];
                  match r with
                  | None => mret None
                  | Some (fields, tv) =>
                      t ← LookupTypeRecord fields;
                      match t with
                      | inl _ => mret None
                      | inr t => mret (Some (t, tv))
                      end
                  end
            end
          else if id =? TypeValueArray then
            r ← decode_type_value fuel tv;
            match r with
            | None => mret None
            | Some (inner, tv) => t ← LookupTypeArray inner; mret (Some (t, tv))
            end
          else if id =? TypeValueSet then
            r ← decode_type_value fuel tv;
            match r with
            | None => mret None
            | Some (inner, tv) => t ← LookupTypeSet inner; mret (Some (t, tv))
            end
          else if id =? TypeValueMap then
            r ← decode_type_value fuel tv;
            match r with
            | None => mret None
            | Some (k, tv) =>
                r ← decode_type_value fuel tv;
                match r with
                | None => mret None
                | Some (v, tv) => t ← LookupTypeMap k v; mret (Some (t, tv))
                end
            end
          else if id =? TypeValueUnion then
            match DecodeLength tv with
            | None => mret None
            | Some (n, tv) =>
                if MaxUnionTypes <? n then mret None
                else if n <? 0 then panic
                else
                  '(types, tv) ← decode_types (decode_type_value fuel) (Z.to_nat n) tv [];
                  t ← LookupTypeUnion types;
                  mret (Some (t, tv))
            end
          else if id =? TypeValueEnum then
            match DecodeLength tv with
            | None => mret None
            | Some (n, tv) =>
                if MaxEnumSymbols <? n then mret None
                else
                  r ← lift (decode_symbols (Z.to_nat n) tv []);
                  match r with
                  | None => mret None
                  | Some (symbols, tv) => t ← LookupTypeEnum symbols; mret (Some (t, tv))
                  end
            end
          else if id =? TypeValueError then
            r ← decode_type_value fuel tv;
            match r with
            | None => mret None
            | Some (inner, tv) => t ← LookupTypeError inner; mret (Some (t, tv))
            end
          else
            match LookupPrimitiveByID id with
            | Ok p => mret (Some (TPrim p, tv))
            | _ => mret None
            end
      end
  end.
Definition DecodeTypeValue (tv : list byte) : M decoded :=
  decode_type_value (S (length tv)) tv.

(** ** Translation *)

Definition bind_value (tv : list byte) (t : ty) (c : Context) : Context :=
  mkContext (byID c) (<[tv := t]> (toType c)) ((t, tv) :: toValue c) (typedefs c) (stringErr c).

(** [None] is the error "bad type value encoding". *)
Definition LookupByValue (tv : list byte) : M (option ty) :=
  fun c =>
    match toType c !! tv with
    | Some t => Ok (Some t, c)
    | None =>
        '(r, c) ← DecodeTypeValue tv c;
        match r with
        | None => Ok (None, c)
        | Some (t, _) => Ok (Some t, bind_value tv t c)
        end
    end.

Definition TranslateType (ext : ty) : M (option ty) := LookupByValue (EncodeTypeValue ext).

Fixpoint find_value (t : ty) (m : list (ty * list byte)) : option (list byte) :=
  match m with
  | [] => None
  | (u, tv) :: m => if decide (u = t) then Some tv else find_value t m
  end.

(** [LookupTypeValue]: the bytes of the type value, [None] for the [Missing]
    value it returns when the type cannot be translated. *)
Fixpoint lookup_type_value (fuel : nat) (t : ty) : M (option (list byte)) :=
  match fuel with
  | O => diverges
  | S fuel => fun c =>
      match find_value t (toValue c) with
      | Some tv => Ok (Some tv, c)
      | None =>
          '(r, c) ← LookupByValue (EncodeTypeValue t) c;
          match r with
          | None => Ok (None, c)
          | Some t => lookup_type_value fuel t c
          end
      end
  end.
Definition LookupTypeValue (t : ty) : M (option (list byte)) := lookup_type_value 2 t.

(** ** Equations of the monad *)

Lemma M_ret_l {A B} (a : A) (f : A -> M B) c : (mret a ≫= f) c = f a c.
Proof. reflexivity. Qed.
Lemma M_lift_l {A B} (a : A) (f : A -> M B) c : (lift (Ok a) ≫= f) c = f a c.
Proof. reflexivity. Qed.
Lemma M_bind_Ok {A B} (m : M A) (f : A -> M B) c a c' : m c = Ok (a, c') -> (m ≫= f) c = f a c'.
Proof. intros H. unfold mbind, M_bind. by rewrite H. Qed.
