(* ===== verification/Mapper.v ===== *)
(** * Mapping the types of one context to another

    [src/mapper.go]: the [Mapper] from the type ids of one context to the types
    of its output context, and the unsynchronized cache in front of it.  The
    output context is part of the state, since entering a type may add types
    to it. *)

From S2P Require Import Prelude Zcode Types Context.
Local Open Scope Z_scope.

(** The slice [types]; [None] is the nil type. *)
Abbreviation mapper := (list (option ty)).

Definition NewMapper : mapper := [].

(** The method [Lookup]; the error of the primitive lookup is dropped with its
    nil type. *)
Definition Lookup (m : mapper) (id : Z) : option ty :=
  if id <? IDTypeComplex then
    match LookupPrimitiveByID id with Ok p => Some (TPrim p) | _ => None end
  else if id <? zlen m then mjoin (m !! Z.to_nat id)
  else None.

(** [slices.Grow(m[:0], id+1)[:id+1]] keeps the elements, and the new ones are
    nil. *)
Definition grow_to (m : mapper) (id : Z) : mapper :=
  m ++ replicate (Z.to_nat (id + 1) - length m) None.

Definition EnterType (id : Z) (t : ty) (m : mapper) : mapper :=
  if id <? IDTypeComplex then m
  else <[Z.to_nat id := Some t]> (if zlen m <=? id then grow_to m id else m).

Inductive mapper_error := ErrPrimitive (e : id_error) | ErrTranslate | ErrMapperDiverges.

(** [Enter], with the output context and the mapper as its state. *)
Definition Enter (ext : ty) : stm (Context * mapper) mapper_error ty := fun s =>
  let id := TypeID ext in
  if id <? IDTypeComplex then
    match LookupPrimitiveByID id with
    | Ok p => (Ok (TPrim p), s)
    | Err e => (Err (ErrPrimitive e), s)
    | Panic => (Panic, s)
    end
  else
    match TranslateType ext s.1 with
    | Ok (Some t, c) => (Ok t, (c, EnterType id t s.2))
    | Ok (None, c) => (Err ErrTranslate, (c, s.2))
    | Err _ => (Err ErrMapperDiverges, s)
    | Panic => (Panic, s)
    end.

(** ** The cache

    A [MapperLookupCache] over the mapper [m]; a negative id indexes the slice
    out of range. *)

Definition cache_Reset : mapper := [].

Definition cache_Lookup {E} (m : mapper) (id : Z) : stm mapper E (option ty) := fun c =>
  match (if id <? zlen c then if id <? 0 then Panic else Ok (mjoin (c !! Z.to_nat id)) else Ok None)
        : outcome E (option ty) with
  | Panic => (Panic, c)
  | Ok (Some t) => (Ok (Some t), c)
  | _ =>
      match Lookup m id with
      | None => (Ok None, c)
      | Some t => 
          if id <? 0 then (Panic, c)
          else (Ok (Some t), <[Z.to_nat id := Some t]> (if zlen c <=? id then grow_to c id else c))
      end
  end.

(** ** What lookups find *)

Lemma grow_to_lookup m id (i : nat) : mjoin (grow_to m id !! i) = mjoin (m !! i).
Proof.
  unfold grow_to. destruct (decide (i < length m)%nat) as [Hi|Hi].
  { by rewrite lookup_app_l. }
  rewrite lookup_app_r, (lookup_ge_None_2 m) by lia. simpl.
  destruct (replicate _ _ !! _) as [x|] eqn:E; [|done].
  apply lookup_replicate in E as [-> _]. done.
Qed.

Lemma grow_to_length m id : zlen m <= id -> zlen (grow_to m id) = id + 1.
Proof. unfold grow_to, zlen. rewrite length_app, length_replicate. lia. Qed.

(** The slice after a write at [id], which grows it when it is too short. *)
Definition write_at (id : Z) (t : ty) (m : mapper) : mapper :=
  <[Z.to_nat id := Some t]> (if zlen m <=? id then grow_to m id else m).

Lemma write_at_lookup id t m (i : nat) :
  0 <= id -> mjoin (write_at id t m !! i) = if decide (i = Z.to_nat id) then Some t else mjoin (m !! i).
Proof.
  intros Hid. unfold write_at. case_decide as Hd.
  - subst i. rewrite list_lookup_insert_eq; [done|].
    destruct (Z.leb_spec (zlen m) id); [pose proof (grow_to_length m id); unfold zlen in *; lia|].
    unfold zlen in *. lia.
  - rewrite list_lookup_insert_ne by done. destruct (zlen m <=? id); [apply grow_to_lookup|done].
Qed.

Lemma mapper_in_range (m : mapper) id : 0 <= id -> (if id <? zlen m then mjoin (m !! Z.to_nat id) else None) = mjoin (m !! Z.to_nat id).
Proof.
  intros. destruct (Z.ltb_spec id (zlen m)); [done|].
  rewrite lookup_ge_None_2; [done|unfold zlen in *; lia].
Qed.

Lemma Lookup_complex m id : IDTypeComplex <= id -> Lookup m id = mjoin (m !! Z.to_nat id).
Proof.
  intros. unfold Lookup, IDTypeComplex in *. destruct (Z.ltb_spec id 30); [lia|]. apply mapper_in_range. lia.
Qed.

(** What is entered is found, and nothing else changes. *)
Lemma Lookup_EnterType id t m id' :
  IDTypeComplex <= id -> Lookup (EnterType id t m) id' = if id' =? id then Some t else Lookup m id'.
Proof.
  intros Hid. unfold EnterType. destruct (Z.ltb_spec id IDTypeComplex); [lia|]. fold (write_at id t m).
  destruct (Z.ltb_spec id' IDTypeComplex) as [Hs|Hl].
  - unfold Lookup. destruct (Z.ltb_spec id' IDTypeComplex); [|lia]. destruct (Z.eqb_spec id' id); [lia|done].
  - unfold IDTypeComplex in *. rewrite !Lookup_complex, write_at_lookup by (unfold IDTypeComplex; lia).
    case_decide; destruct (Z.eqb_spec id' id); try lia; done.
Qed.

(** The cache holds only what the mapper finds. *)
Definition cache_ok (m c : mapper) : Prop :=
  forall i t, mjoin (c !! i) = Some t -> Lookup m (Z.of_nat i) = Some t.

Lemma cache_Reset_ok m : cache_ok m cache_Reset.
Proof. by intros i t. Qed.

Lemma cache_Lookup_spec {E} m c id :
  cache_ok m c -> 0 <= id ->
  exists c', cache_Lookup (E := E) m id c = (Ok (Lookup m id), c') /\ cache_ok m c'.
Proof.
  intros Hc Hid. unfold cache_Lookup. destruct (Z.ltb_spec id 0); [lia|].
  assert (Heq : (if id <? zlen c then Ok (mjoin (c !! Z.to_nat id)) else Ok None : outcome E (option ty)) = Ok (mjoin (c !! Z.to_nat id))).
  { rewrite <- mapper_in_range by done. by destruct (id <? zlen c). }
  rewrite Heq. destruct (mjoin (c !! Z.to_nat id)) as [t|] eqn:Ec.
  { exists c. apply Hc in Ec. rewrite Z2Nat.id in Ec by done. by rewrite Ec. }
  destruct (Lookup m id) as [t|] eqn:Em; [|by exists c].
  eexists. split; [done|]. intros i t' Hi. fold (write_at id t c) in Hi.
  rewrite write_at_lookup in Hi by done. case_decide; simplify_eq; [by rewrite Z2Nat.id|by apply Hc].
Qed.
