(* ===== verification/Interning.v ===== *)
(** * The context interns types

    The invariant [wf] of a [Context], that every operation keeps it, and what
    follows: a structure has one type per context, a type value written in one
    context decodes to that structure in any other. *)

From S2P Require Import Prelude Zcode Types Context.
Local Open Scope Z_scope.

(** ** Specification *)

Definition is_complex (t : ty) : bool := match t with TPrim _ => false | _ => true end.

Definition reid (i : Z) (t : ty) : ty :=
  match t with
  | TPrim p => TPrim p
  | TRecord _ fs => TRecord i fs
  | TArray _ t => TArray i t
  | TSet _ t => TSet i t
  | TMap _ k v => TMap i k v
  | TUnion _ ts => TUnion i ts
  | TEnum _ ss => TEnum i ss
  | TError _ t => TError i t
  | TNamed _ n t => TNamed i n t
  end.

(** A primitive type belongs to every context, a complex one to the context
    that holds it at its id. *)
Definition member (c : Context) (t : ty) : Prop :=
  is_complex t = true -> 0 <= TypeID t /\ byID c !! Z.to_nat (TypeID t) = Some (Some t).

(** What the lengths of Go slices and the sort of [LookupTypeUnion] give the
    type itself; its components are types of the same context. *)
Definition regular (t : ty) : Prop :=
  match t with
  | TRecord _ fs => short fs /\ Forall (fun f => short f.1) fs
  | TUnion _ ts => short ts /\ sort_types ts = ts
  | TEnum _ ss => short ss /\ Forall short ss
  | TNamed _ n _ => short n
  | _ => True
  end.

(** What the lookups refuse. *)
Definition lawful (t : ty) : Prop :=
  match t with
  | TRecord _ fs => duplicateField fs = None
  | TNamed _ n _ => ValidString n = true /\ LookupPrimitive n = None
  | _ => True
  end.

(** The types of some context: interned and regular. *)
Class Universe (U : ty -> Prop) : Prop := {
  #[global] universe_interned :: Interned U;
  universe_regular t : U t -> regular t;
}.

Record wf (c : Context) : Prop := {
  wf_prefix n : (n < 30)%nat -> byID c !! n = Some None;
  wf_ids n t : byID c !! n = Some (Some t) ->
    is_complex t = true /\ TypeID t = Z.of_nat n /\ Forall (member c) (components t) /\ regular t /\ lawful t;
  wf_full n : (30 <= n < length (byID c))%nat -> exists t, byID c !! n = Some (Some t);
  wf_erase a b : member c a -> member c b -> erase a = erase b -> a = b;
  wf_canon t : member c t -> is_complex t = true -> toType c !! EncodeTypeValue t = Some t;
  wf_key tv t : toType c !! tv = Some t ->
    member c t /\
    forall U u, Universe U -> U u -> EncodeTypeValue u = tv -> erase u = erase t;
  wf_typedefs n t : typedefs c !! n = Some t -> member c t /\ exists i inner, t = TNamed i n inner;
  wf_value tv t : find_value t (toValue c) = Some tv -> toType c !! tv = Some t;
  wf_value_full tv t : toType c !! tv = Some t -> is_Some (find_value t (toValue c));
  wf_err t : stringErr c = Some t -> member c t /\ exists i, t = TError i (TPrim String);
}.

(** The types of a context stay. *)
Definition extends (c c' : Context) : Prop := exists l, byID c' = byID c ++ l.

(** Contexts only grow, and by the canonical bytes of their new types. *)
Definition grows (c c' : Context) : Prop :=
  extends c c' /\
  forall tv t, toType c' !! tv = Some t -> toType c !! tv = Some t \/ EncodeTypeValue t = tv.

(** What the lookup of the structure of [t0] must return. *)
Definition interns (c : Context) (t0 t : ty) (c' : Context) : Prop :=
  t = reid (TypeID t) t0 /\ member c' t /\ wf c' /\ grows c c'.

(** ** The invariant *)

#[export] Instance extends_preorder : PreOrder extends.
Proof.
  split.
  - intros c. exists []. by rewrite app_nil_r.
  - intros a b c [l Hl] [k Hk]. exists (l ++ k). by rewrite Hk, Hl, app_assoc.
Qed.

#[export] Instance grows_preorder : PreOrder grows.
Proof.
  split.
  - intros c. split; [done|]. by left.
  - intros a b c [H1 H2] [H3 H4]. split; [by etrans|]. intros tv t [H| ]%H4; [by apply H2|by right].
Qed.

Lemma grows_extends c c' : grows c c' -> extends c c'.
Proof. by intros [? _]. Qed.

Lemma member_extends c c' t : extends c c' -> member c t -> member c' t.
Proof.
  intros [l Hl] Hm Hc. destruct (Hm Hc) as [Hi Ht]. split; [done|]. rewrite Hl. by apply lookup_app_l_Some.
Qed.

Lemma member_grows c c' t : grows c c' -> member c t -> member c' t.
Proof. intros [? _]. by apply member_extends. Qed.

Lemma members_grow c c' ts : grows c c' -> Forall (member c) ts -> Forall (member c') ts.
Proof. intros. eapply Forall_impl; [done|]. intros. by eapply member_grows. Qed.

Lemma member_prim c p : member c (TPrim p).
Proof. done. Qed.

Lemma Encode_reid i t : EncodeTypeValue (reid i t) = EncodeTypeValue t.
Proof. by destruct t. Qed.
Lemma erase_reid i t : erase (reid i t) = erase t.
Proof. by destruct t. Qed.
Lemma components_reid i t : components (reid i t) = components t.
Proof. by destruct t. Qed.
Lemma regular_reid i t : regular (reid i t) <-> regular t.
Proof. by destruct t. Qed.
Lemma complex_reid i t : is_complex (reid i t) = is_complex t.
Proof. by destruct t. Qed.
Lemma TypeID_reid i t : is_complex t = true -> TypeID (reid i t) = i.
Proof. by destruct t. Qed.
Lemma reid_reid i j t : reid i (reid j t) = reid i t.
Proof. by destruct t. Qed.
Lemma reid_TypeID t : reid (TypeID t) t = t.
Proof. by destruct t. Qed.

Lemma map_inj_on {A B} (f : A -> B) l l' (P : A -> Prop) :
  (forall a b, P a -> P b -> f a = f b -> a = b) -> Forall P l -> Forall P l' -> map f l = map f l' -> l = l'.
Proof.
  intros Hf Hl. revert l'. induction Hl as [|x l Hx Hl IH]; intros [|y l'] Hl' Hm; try done.
  inversion_clear Hl'. injection Hm as Hxy Hm. f_equal; auto.
Qed.

(** Equal structures over the same components differ in the id only. *)
Lemma erase_components P t u :
  (forall a b, P a -> P b -> erase a = erase b -> a = b) ->
  Forall P (components t) -> Forall P (components u) -> erase t = erase u -> t = reid (TypeID t) u.
Proof.
  intros HP Ht Hu E. destruct t as [p|i fs|i t|i t|i k v|i ts|i ss|i t|i n t],
    u as [q|j gs|j u|j u|j k' v'|j us|j ss'|j u|j m u]; try discriminate E; cbn [components] in *; simpl.
  - by injection E as ->.
  - injection E as E. f_equal.
    assert (Hs : map snd fs = map snd gs).
    { apply (map_inj_on erase _ _ P); [done..|]. apply (f_equal (map snd)) in E. rewrite !map_map in *. exact E. }
    assert (Hn : map fst fs = map fst gs) by by apply erase_fields_names.
    clear -Hs Hn. revert gs Hs Hn. induction fs as [|[n t] fs IH]; intros [|[m u] gs]; try done.
    simpl. intros [= -> Hs] [= -> Hn]. f_equal. by apply IH.
  - injection E as E. inversion_clear Ht. inversion_clear Hu. f_equal. auto.
  - injection E as E. inversion_clear Ht. inversion_clear Hu. f_equal. auto.
  - injection E as E1 E2. inversion_clear Ht as [|? ? Hk Hv]. inversion_clear Hv.
    inversion_clear Hu as [|? ? Hk' Hv]. inversion_clear Hv. f_equal; auto.
  - injection E as E. f_equal. by apply (map_inj_on erase _ _ P).
  - by injection E as ->.
  - injection E as E. inversion_clear Ht. inversion_clear Hu. f_equal. auto.
  - injection E as -> E. inversion_clear Ht. inversion_clear Hu. f_equal. auto.
Qed.

Lemma universe_sized U `{!Universe U} t : U t -> sized t.
Proof.
  induction t as [p|i fs IH|i a IH|i a IH|i k v IHk IHv|i ts IH|i ss|i a IH|i n a IH] using ty_ind; intros Hu;
    pose proof (universe_regular _ Hu) as Hr; apply (interned_components (U := U)) in Hu;
    cbn [components regular sized] in *.
  - done.
  - destruct Hr as [Hs Hn]. split; [done|]. apply foldr_Forall. rewrite Forall_map in Hu.
    rewrite Forall_forall in IH, Hn, Hu |- *. auto.
  - inversion_clear Hu. auto.
  - inversion_clear Hu. auto.
  - inversion_clear Hu as [|? ? ? H2]. inversion_clear H2. auto.
  - destruct Hr as [Hs Hn]. split; [done|]. apply foldr_Forall. rewrite Forall_forall in IH, Hu |- *. auto.
  - done.
  - inversion_clear Hu. auto.
  - inversion_clear Hu. auto.
Qed.

(** What does not depend on what the type values are bound to. *)
Record base (c : Context) : Prop := {
  base_prefix n : (n < 30)%nat -> byID c !! n = Some None;
  base_ids n t : byID c !! n = Some (Some t) ->
    is_complex t = true /\ TypeID t = Z.of_nat n /\ Forall (member c) (components t) /\ regular t /\ lawful t;
  base_erase a b : member c a -> member c b -> erase a = erase b -> a = b;
}.
Lemma wf_base c : wf c -> base c.
Proof. intros [H1 H2 _ H3]. by split. Qed.

Section base.
Context (c : Context) (Hbase : base c).

Lemma base_length : (30 <= length (byID c))%nat.
Proof.
  destruct (decide (30 <= length (byID c))%nat) as [|H]; [done|].
  assert (H' : byID c !! length (byID c) = Some None) by (apply (base_prefix c Hbase); lia).
  apply lookup_lt_Some in H'. lia.
Qed.

Lemma base_member_id t : member c t -> is_complex t = true -> 30 <= TypeID t < zlen (byID c).
Proof.
  intros Hm Hc. destruct (Hm Hc) as [Hi Ht]. unfold zlen.
  assert (Hlt := lookup_lt_Some _ _ _ Ht). split; [|lia].
  destruct (Z.ltb_spec (TypeID t) 30) as [H|H]; [|done].
  rewrite (base_prefix c Hbase) in Ht by lia. done.
Qed.

Lemma base_components t : member c t -> Forall (member c) (components t).
Proof.
  intros Hm. destruct (is_complex t) eqn:Hc; [|destruct t; (done || apply Forall_nil_2)].
  destruct (Hm Hc) as [_ Ht]. by apply (base_ids c Hbase) in Ht as (_ & _ & ? & _).
Qed.

Lemma base_regular t : member c t -> regular t.
Proof.
  intros Hm. destruct (is_complex t) eqn:Hc; [|by destruct t].
  destruct (Hm Hc) as [_ Ht]. by apply (base_ids c Hbase) in Ht as (_ & _ & _ & ? & _).
Qed.

Lemma base_lawful t : member c t -> lawful t.
Proof.
  intros Hm. destruct (is_complex t) eqn:Hc; [|by destruct t].
  destruct (Hm Hc) as [_ Ht]. by apply (base_ids c Hbase) in Ht as (_ & _ & _ & _ & ?).
Qed.

Lemma base_under t : member c t -> member c (TypeUnder t).
Proof.
  induction t using ty_ind; try done. intros Hm%base_components. simpl in *. inversion_clear Hm. auto.
Qed.

Lemma ID_TypeID t : ID t = TypeID (TypeUnder t).
Proof. rewrite <- ID_under. pose proof (TypeUnder_named t). by destruct (TypeUnder t). Qed.

Lemma base_TypeID a b :
  member c a -> member c b -> TypeID a = TypeID b -> a = b.
Proof.
  intros Ha Hb E. destruct (is_complex a) eqn:Ca, (is_complex b) eqn:Cb.
  - destruct (Ha Ca) as [_ Ha'], (Hb Cb) as [_ Hb']. rewrite E in Ha'. congruence.
  - pose proof (base_member_id a Ha Ca). destruct b; try done. simpl in E. pose proof (primitive_id_range p). lia.
  - pose proof (base_member_id b Hb Cb). destruct a; try done. simpl in E. pose proof (primitive_id_range p). lia.
  - destruct a, b; try done. simpl in E. by apply primitive_id_inj in E as ->.
Qed.

#[local] Instance base_universe : Universe (member c).
Proof.
  split; [split|apply base_regular].
  - apply base_components.
  - intros a b Ha Hb. rewrite !ID_TypeID. intros E. by apply base_TypeID; [apply base_under..|].
  - apply (base_erase c Hbase).
Qed.

(** A structure over the members of [c] that [c] does not hold yet. *)
Context (t0 : ty) (Hc0 : is_complex t0 = true) (Hcomp : Forall (member c) (components t0)) (Hreg : regular t0).

Definition held : Prop := exists b, member c b /\ erase b = erase t0.

Lemma base_held b : member c b -> erase b = erase t0 -> b = reid (TypeID b) t0.
Proof. intros. apply (erase_components (member c)); [apply (base_erase c Hbase)|by apply base_components|done..]. Qed.

Lemma base_held_dec : held \/ ~ held.
Proof.
  destruct (decide (Exists (fun o => erase <$> o = Some (erase t0)) (byID c))) as [H|H].
  - left. apply Exists_exists in H as ([b|] & Hb & E); [|done]. injection E as E.
    apply list_elem_of_lookup in Hb as [n Hn]. exists b. split; [|done].
    destruct (base_ids c Hbase n b Hn) as (_ & Hi & _). intros _. rewrite Hi. split; [lia|]. by rewrite Nat2Z.id.
  - right. intros (b & Hb & E). apply H, Exists_exists.
    destruct (Hb ltac:(by destruct b, t0)) as [_ Hn]. exists (Some b). split; [by eapply list_elem_of_lookup_2|]. simpl. by rewrite E.
Qed.

Definition fresh : ty := reid (nextIDWithLock c) t0.
Definition extended (t : ty) : Prop := member c t \/ t = fresh.

Lemma base_fresh :
  is_named t0 = true /\ member c (TypeUnder fresh) \/ is_named t0 = false /\ TypeUnder fresh = fresh /\ ID fresh = zlen (byID c).
Proof.
  unfold fresh. generalize Hc0 Hcomp. destruct t0 as [| | | | | | | |i n t]; intros Hc Ht; try done.
  1-7: right; repeat split; done.
  left. split; [done|]. inversion_clear Ht. by apply (base_under t).
Qed.

Lemma base_extended : ~ held -> Universe extended.
Proof.
  intros Hnh. pose proof base_universe as HU.
  assert (Hid : forall a, member c a -> ID a = ID fresh -> TypeUnder a = TypeUnder fresh).
  { intros a Ha E. destruct base_fresh as [[_ Hm]|(_ & _ & Hf)].
    - rewrite !ID_TypeID in E. apply base_TypeID; [by apply base_under|done..].
    - exfalso. rewrite ID_TypeID, Hf in E. apply base_under in Ha.
      destruct (is_complex (TypeUnder a)) eqn:Ca.
      + pose proof (base_member_id _ Ha Ca). lia.
      + destruct (TypeUnder a); try done. simpl in E. pose proof (primitive_id_range p).
        pose proof base_length. unfold zlen in E. lia. }
  split; [split|].
  - intros t [Ht| ->]; (eapply Forall_impl; [|by left]); [by apply base_components|].
    unfold fresh. by rewrite components_reid.
  - intros a b [Ha| ->] [Hb| ->] E; [|by apply Hid|symmetry; by apply Hid|done].
    by apply (interned_id (U := member c)).
  - intros a b [Ha| ->] [Hb| ->] E; [by apply (base_erase c Hbase)|..|done]; exfalso; apply Hnh;
      unfold fresh in E; rewrite erase_reid in E; [by exists a|by exists b].
  - intros t [Ht| ->]; [by apply base_regular|]. unfold fresh. by rewrite regular_reid.
Qed.

Local Abbreviation entered := (enterWithLock (EncodeTypeValue t0) fresh c).

Lemma enter_grows : grows c entered.
Proof.
  split; [by eexists|]. intros tv t. simpl. rewrite lookup_insert_Some. intros [[<- <-]|[_ Ht]]; [right|by left].
  apply Encode_reid.
Qed.

Lemma member_enter t : member entered t <-> extended t.
Proof.
  split.
  - intros Hm. destruct (is_complex t) eqn:Hc; [|by left; destruct t].
    destruct (Hm Hc) as [Hi Ht]. simpl in Ht. apply lookup_app_Some in Ht as [Ht|[_ Ht]]; [by left|].
    apply list_lookup_singleton_Some in Ht as [_ [= <-]]. by right.
  - intros [Ht| ->]; [by eapply member_grows, Ht; apply enter_grows|].
    intros _. unfold fresh, nextIDWithLock. rewrite TypeID_reid by done. unfold zlen. split; [lia|].
    rewrite Nat2Z.id. simpl. by rewrite lookup_app_r, Nat.sub_diag by lia.
Qed.

Lemma base_enter : ~ held -> lawful t0 -> base entered.
Proof.
  intros Hnh Hlaw. pose proof (base_extended Hnh) as HU. pose proof base_length as Hlen. split.
  - intros n Hn. simpl. rewrite lookup_app_l by lia. by apply base_prefix.
  - intros n t Ht. simpl in Ht. apply lookup_app_Some in Ht as [Ht|[Hn Ht]].
    + apply (base_ids c Hbase) in Ht as (?&?&?&?&?). split_and!; [done..| |done|done].
      eapply members_grow; [apply enter_grows|done].
    + apply list_lookup_singleton_Some in Ht as [Hn' [= <-]]. unfold fresh.
      rewrite complex_reid, TypeID_reid, components_reid, regular_reid by done.
      split_and!; [done| |by eapply members_grow, Hcomp; apply enter_grows|done|by destruct t0].
      unfold nextIDWithLock, zlen. lia.
  - intros a b. rewrite !member_enter. apply (interned_erase (U := extended)).
Qed.
End base.

Section wf.
Context (c : Context) (Hwf : wf c).

Lemma wf_length : (30 <= length (byID c))%nat.
Proof. by apply base_length, wf_base. Qed.
Lemma member_id t : member c t -> is_complex t = true -> 30 <= TypeID t < zlen (byID c).
Proof. by apply base_member_id, wf_base. Qed.
Lemma member_components t : member c t -> Forall (member c) (components t).
Proof. by apply base_components, wf_base. Qed.
Lemma member_regular t : member c t -> regular t.
Proof. by apply base_regular, wf_base. Qed.
Lemma member_lawful t : member c t -> lawful t.
Proof. by apply base_lawful, wf_base. Qed.
Lemma member_under t : member c t -> member c (TypeUnder t).
Proof. by apply base_under, wf_base. Qed.
Lemma member_TypeID a b : member c a -> member c b -> TypeID a = TypeID b -> a = b.
Proof. by apply base_TypeID, wf_base. Qed.
#[local] Instance member_universe : Universe (member c).
Proof. by apply base_universe, wf_base. Qed.

(** A structure over the members of [c] that [c] may hold. *)
Context (t0 : ty) (Hc0 : is_complex t0 = true) (Hcomp : Forall (member c) (components t0)) (Hreg : regular t0).
Local Abbreviation held := (held c t0).
Local Abbreviation fresh := (fresh c t0).
Local Abbreviation extended := (extended c t0).
Local Abbreviation entered := (enterWithLock (EncodeTypeValue t0) fresh c).

Lemma held_reid b : member c b -> erase b = erase t0 -> b = reid (TypeID b) t0.
Proof. by apply base_held; [apply wf_base|..]. Qed.
Lemma extended_universe : ~ held -> Universe extended.
Proof. by apply base_extended; [apply wf_base|..]. Qed.

Lemma held_lookup b : member c b -> erase b = erase t0 -> toType c !! EncodeTypeValue t0 = Some b.
Proof.
  intros Hb E. pose proof (held_reid b Hb E) as Hr. rewrite <- (Encode_reid (TypeID b)), <- Hr.
  apply (wf_canon c Hwf); [done|]. by rewrite Hr, complex_reid.
Qed.

Lemma unheld_lookup : ~ held -> toType c !! EncodeTypeValue t0 = None.
Proof.
  intros Hnh. destruct (toType c !! EncodeTypeValue t0) as [b|] eqn:E; [|done].
  apply (wf_key c Hwf) in E as [Hb Hk]. exfalso. apply Hnh. exists b. split; [done|].
  rewrite <- (Hk extended fresh); [apply erase_reid|by apply extended_universe|by right|apply Encode_reid].
Qed.

Lemma member_entered t : member entered t <-> extended t.
Proof. by apply member_enter. Qed.

Lemma wf_enter : ~ held -> lawful t0 -> wf entered.
Proof.
  intros Hnh Hlaw. pose proof (extended_universe Hnh) as HU. pose proof (unheld_lookup Hnh) as Hnone.
  pose proof wf_length as Hlen.
  assert (Hnew : forall t, member c t -> is_complex t = true -> t <> fresh).
  { intros t Hm Hc ->. pose proof (member_id _ Hm Hc) as Hi. unfold fresh in Hi.
    rewrite TypeID_reid in Hi by done. unfold nextIDWithLock in Hi. lia. }
  destruct (base_enter c (wf_base c Hwf) t0 Hc0 Hcomp Hreg Hnh Hlaw) as [H1 H2 H3]. split; [exact H1|exact H2| |exact H3|..].
  - intros n Hn. simpl in *. rewrite length_app in Hn. simpl in Hn.
    destruct (decide (n < length (byID c))%nat).
    + destruct (wf_full c Hwf n) as [t Ht]; [lia|]. exists t. by rewrite lookup_app_l by lia.
    + exists fresh. rewrite lookup_app_r by lia. by replace (n - length (byID c))%nat with 0%nat by lia.
  - intros t Hm%member_entered Hc. simpl. destruct Hm as [Hm| ->].
    + rewrite lookup_insert_ne; [by apply wf_canon|]. intros E. pose proof (wf_canon c Hwf t Hm Hc). congruence.
    + unfold fresh. rewrite Encode_reid. apply lookup_insert_eq.
  - intros tv t. simpl. rewrite lookup_insert_Some. intros [[<- <-]|[_ Ht]].
    + split; [apply member_entered; by right|]. intros U u Hu Huu E. apply EncodeTypeValue_inj; [by apply (universe_sized U)| |by unfold fresh; rewrite Encode_reid].
      apply (universe_sized extended). by right.
    + apply (wf_key c Hwf) in Ht as [Hm Hk]. split; [|done]. apply member_entered. by left.
  - intros n t Ht. simpl in Ht. apply (wf_typedefs c Hwf) in Ht as [Hm Ht]. split; [|done].
    apply member_entered. by left.
  - intros tv t. cbn [enterWithLock toValue toType find_value]. case_decide as Hd.
    + intros [= <-]. by rewrite <- Hd, lookup_insert_eq.
    + intros Ht%(wf_value c Hwf). rewrite lookup_insert_ne; [done|]. congruence.
  - intros tv t. cbn [enterWithLock toType toValue find_value]. rewrite lookup_insert_Some. case_decide as Hd; [done|].
    intros [[_ ?]|[_ Ht]]; [done|]. by apply (wf_value_full c Hwf tv).
  - intros t Ht. apply (wf_err c Hwf) in Ht as [Hm Ht]. split; [|done]. apply member_entered. by left.
Qed.

(** The shared body of the lookups: the existing type of this structure, or a
    fresh one. *)
Lemma lookup_body :
  (exists b, toType c !! EncodeTypeValue t0 = Some b /\ interns c t0 b c) \/
  (toType c !! EncodeTypeValue t0 = None /\ (lawful t0 -> interns c t0 fresh entered)).
Proof.
  destruct (base_held_dec c (wf_base c Hwf) t0 Hc0 Hcomp Hreg) as [(b & Hb & E)|Hnh]; [left|right].
  - exists b. split; [by apply held_lookup|]. split_and!; [by apply held_reid|done..].
  - split; [by apply unheld_lookup|]. intros Hlaw. split_and!; [|apply member_entered; by right|by apply wf_enter|apply enter_grows].
    unfold fresh. by rewrite TypeID_reid.
Qed.
End wf.

Lemma lookup_or_enter_interns c t0 assert_kind mk :
  wf c -> is_complex t0 = true -> Forall (member c) (components t0) -> regular t0 -> lawful t0 ->
  (forall i, mk i = reid i t0) -> (forall i, assert_kind (reid i t0) = true) ->
  exists t c', lookup_or_enter (EncodeTypeValue t0) assert_kind mk c = Ok (t, c') /\ interns c t0 t c'.
Proof.
  intros Hwf Hc Hcomp Hreg Hlaw Hmk Hk. unfold lookup_or_enter.
  destruct (lookup_body c Hwf t0 Hc Hcomp Hreg) as [(b & -> & Hi)|[-> Hi]].
  - exists b, c. split; [|done]. destruct Hi as [-> _]. by rewrite Hk.
  - rewrite Hmk. specialize (Hi Hlaw). eauto.
Qed.

Lemma wf_bind_typedef c name t :
  wf c -> member c t -> (exists i inner, t = TNamed i name inner) -> wf (bind_typedef name t c).
Proof.
  intros Hwf Hm Ht. destruct Hwf. split; try done.
  intros n u. simpl. rewrite lookup_insert_Some. intros [[<- <-]|[_ Hu]]; [|by apply wf_typedefs0].
  destruct Ht as (i & inner & ->). eauto.
Qed.

Lemma wf_set_stringErr c t : wf c -> member c t -> (exists i, t = TError i (TPrim String)) -> wf (set_stringErr t c).
Proof. intros Hwf Hm Ht. destruct Hwf. split; try done. intros u [= <-]. done. Qed.

Lemma NewContext_wf : wf NewContext.
Proof.
  assert (Hnone : forall n t, byID NewContext !! n <> Some (Some t)).
  { intros n t. intros Ht. by apply (lookup_replicate 30) in Ht as [? _]. }
  assert (Hm : forall t, member NewContext t -> is_complex t = false).
  { intros t Ht. destruct (is_complex t) eqn:Hc; [|done]. destruct (Ht Hc) as [_ H]. by apply Hnone in H. }
  split; try done.
  - intros n Hn. by apply lookup_replicate_2.
  - intros n t Ht. by apply Hnone in Ht.
  - intros n Hn. simpl in Hn. lia.
  - intros a b Ha%Hm Hb%Hm E. destruct a, b; done.
  - intros t Ht%Hm Hc. congruence.
Qed.

(** ** The lookups *)

Section lookups.
Context (c : Context) (Hwf : wf c).

Lemma LookupTypeSet_interns t :
  member c t -> exists u c', LookupTypeSet t c = Ok (u, c') /\ interns c (TSet 0 t) u c'.
Proof. intros. apply lookup_or_enter_interns; try done. by constructor. Qed.

Lemma LookupTypeArray_interns t :
  member c t -> exists u c', LookupTypeArray t c = Ok (u, c') /\ interns c (TArray 0 t) u c'.
Proof. intros. apply lookup_or_enter_interns; try done. by constructor. Qed.

Lemma LookupTypeMap_interns k v :
  member c k -> member c v ->
  exists u c', LookupTypeMap k v c = Ok (u, c') /\ interns c (TMap 0 k v) u c'.
Proof. intros. apply lookup_or_enter_interns; try done. constructor; [done|by constructor]. Qed.

Lemma LookupTypeEnum_interns ss :
  short ss -> Forall short ss ->
  exists u c', LookupTypeEnum ss c = Ok (u, c') /\ interns c (TEnum 0 ss) u c'.
Proof. intros. apply lookup_or_enter_interns; try done. Qed.

Lemma LookupTypeUnion_interns ts :
  short ts -> Forall (member c) ts ->
  exists u c', LookupTypeUnion ts c = Ok (u, c') /\ interns c (TUnion 0 (sort_types ts)) u c'.
Proof.
  intros Hs Hm. apply lookup_or_enter_interns; try done.
  - simpl. unfold sort_types. by rewrite stable_sort_perm.
  - split; [|apply sort_types_idemp]. unfold short, zlen, sort_types in *. by rewrite length_stable_sort.
Qed.

Lemma LookupTypeRecord_interns fs :
  short fs -> Forall (fun f => short f.1) fs -> Forall (fun f => member c f.2) fs ->
  match duplicateField fs with
  | Some n => LookupTypeRecord fs c = Ok (inl (DuplicateFieldError n), c)
  | None => exists u c', LookupTypeRecord fs c = Ok (inr u, c') /\ interns c (TRecord 0 fs) u c'
  end.
Proof.
  intros Hs Hn Hm. unfold LookupTypeRecord.
  destruct (lookup_body c Hwf (TRecord 0 fs)) as [(b & -> & Hi)|[-> Hi]]; try done.
  { simpl. by apply Forall_map. }
  - destruct Hi as (-> & Hb & Hi). assert (Hl := member_lawful c Hwf _ Hb). simpl in Hl. rewrite Hl.
    eexists _, _. by split.
  - destruct (duplicateField fs) as [n|] eqn:E; [done|]. eexists _, _. split; [done|]. by apply Hi.
Qed.

Lemma LookupTypeNamed_interns n t :
  short n -> member c t ->
  (ValidString n = false \/ LookupPrimitive n <> None -> exists e, LookupTypeNamed n t c = Ok (inl e, c)) /\
  (ValidString n = true -> LookupPrimitive n = None ->
   exists u c', LookupTypeNamed n t c = Ok (inr u, c') /\ interns c (TNamed 0 n t) u c' /\ typedefs c' = <[n := u]> (typedefs c)).
Proof.
  intros Hs Hm. unfold LookupTypeNamed. split.
  { intros [->|H]; [by eexists|]. destruct (ValidString n), (LookupPrimitive n); try done; by eexists. }
  intros Hv Hp. rewrite Hv, Hp. cbn [negb].
  destruct (lookup_body c Hwf (TNamed 0 n t)) as [(b & -> & Hi)|[-> Hi]]; try done; [by constructor|..].
  - destruct Hi as (Hb & Hm' & _). assert (is_named b = true) as -> by (by rewrite Hb).
    eexists _, _. split; [done|]. split; [|done].
    split_and!; [done|done|apply wf_bind_typedef; [done..|rewrite Hb; by eexists _, _]|split; [exists []; by rewrite app_nil_r|by left]].
  - destruct Hi as (Hb & Hm' & Hw & Hg); [done|]. eexists _, _. split; [done|]. split; [|done]. split_and!; [done|done| |done].
    apply (wf_bind_typedef _ n _ Hw Hm'). by eexists _, _.
Qed.

Lemma LookupTypeError_interns t :
  member c t -> exists u c', LookupTypeError t c = Ok (u, c') /\ interns c (TError 0 t) u c'.
Proof.
  intros Hm. unfold LookupTypeError.
  destruct (lookup_body c Hwf (TError 0 t)) as [(b & -> & Hi)|[-> Hi]]; try done; [by constructor|..].
  - exists b, c. split; [|done]. by destruct Hi as [-> _].
  - destruct Hi as (Hb & Hm' & Hw & Hg); [done|]. case_decide as Hd; eexists _, _; (split; [done|]); [|done].
    subst t. split_and!; [done|done| |done]. apply (wf_set_stringErr _ _ Hw Hm'). by eexists.
Qed.

Lemma StringTypeError_interns :
  exists u c', StringTypeError c = Ok (u, c') /\ interns c (TError 0 (TPrim String)) u c'.
Proof.
  unfold StringTypeError. destruct (stringErr c) as [t|] eqn:E; [|by apply LookupTypeError_interns].
  exists t, c. split; [done|]. apply (wf_err c Hwf) in E as [Hm [i ->]]. split_and!; try done.
Qed.
End lookups.

Lemma Reset_byID c : wf c -> byID (Reset c) = byID NewContext.
Proof.
  intros Hwf. pose proof (wf_length c Hwf) as Hl. apply list_eq. intros n. cbn [byID Reset NewContext].
  destruct (decide (n < 30)%nat) as [H|H].
  - rewrite lookup_take_lt, (wf_prefix c Hwf) by done. by rewrite lookup_replicate_2.
  - rewrite !lookup_ge_None_2; [done|rewrite length_replicate; lia|rewrite length_take; lia].
Qed.

(** [Reset] keeps the invariant when no string error is cached. *)
Lemma Reset_wf c : wf c -> stringErr c = None -> wf (Reset c).
Proof.
  intros Hwf He. assert (E : Reset c = NewContext); [|rewrite E; apply NewContext_wf].
  pose proof (Reset_byID c Hwf) as Hb. unfold Reset, NewContext in *. cbn [byID] in Hb. by rewrite He, Hb.
Qed.

(** ** Names of fields *)

Lemma first_repeat_None prev names :
  StronglySorted (fun a b => bytes_compare a b <= 0) (prev :: names) -> first_repeat prev names = None <-> NoDup (prev :: names).
Proof.
  revert prev. induction names as [|n names IH]; intros prev Hs; cbn [first_repeat]; [split; [intros _; apply NoDup_singleton|done]|].
  apply StronglySorted_inv in Hs as [Hs Hp]. case_decide as Hd.
  { subst n. split; [done|]. intros [Hn _]%NoDup_cons. destruct Hn. by left. }
  rewrite (IH n Hs), (NoDup_cons prev). split; [|by intros [_ ?]]. intros Hnd. split; [|done]. intros Hin.
  apply elem_of_cons in Hin as [->|Hin]; [done|]. apply Forall_cons in Hp as [Hp _]. apply StronglySorted_inv in Hs as [_ Hs].
  rewrite Forall_forall in Hs. specialize (Hs prev Hin). cbn in Hs. apply Hd. apply (gc_eq (cmp := bytes_compare)).
  pose proof (gc_antisym (cmp := bytes_compare) prev n). lia.
Qed.
Lemma duplicateField_None fs : duplicateField fs = None <-> NoDup (map fst fs).
Proof.
  unfold duplicateField. destruct (Z.ltb_spec (zlen fs) 2) as [Hl|Hl].
  { split; [|done]. intros _. destruct fs as [|f [|g fs]]; [constructor|apply NoDup_singleton|]. unfold zlen in Hl. cbn in Hl. lia. }
  assert (Hp : stable_sort (cmp_lt bytes_compare) (map fst fs) ≡ₚ map fst fs) by apply stable_sort_perm. transitivity (NoDup (stable_sort (cmp_lt bytes_compare) (map fst fs))); [|by rewrite Hp].
  pose proof (stable_sort_sorted bytes_compare (fun _ => True)) as Hs.
  destruct (stable_sort _ _) as [|p names] eqn:E; [split; [constructor|done]|]. apply first_repeat_None. rewrite <- E. apply Hs.
  - apply gc_antisym.
  - intros a b d _ _ _. apply gc_trans.
  - by apply Forall_true.
Qed.

Lemma first_repeat_Some prev names n :
  first_repeat prev names = Some n -> (2 <= length (filter (eq n) (prev :: names)))%nat.
Proof.
  revert prev. induction names as [|m names IH]; intros prev; cbn [first_repeat]; [done|]. case_decide as Hd.
  - intros [= <-]. subst prev. rewrite !filter_cons_True by done. simpl. lia.
  - intros H%IH. rewrite filter_cons. case_decide; simpl; lia.
Qed.
(** The name in the error is one that two fields have. *)
Lemma duplicateField_Some fs n : duplicateField fs = Some n -> (2 <= length (filter (eq n) (map fst fs)))%nat.
Proof.
  unfold duplicateField. destruct (_ <? 2); [done|].
  assert (Hp : stable_sort (cmp_lt bytes_compare) (map fst fs) ≡ₚ map fst fs) by apply stable_sort_perm.
  destruct (stable_sort _ _) as [|p names] eqn:E; [done|]. intros H%first_repeat_Some. by rewrite <- Hp.
Qed.

(** Structures of the context and their parts. *)
Section structures.
Context (c : Context) (Hc : wf c).

Lemma array_lookup t : member c t -> exists i c', LookupTypeArray t c = Ok (TArray i t, c') /\ wf c' /\ grows c c' /\ member c' (TArray i t).
Proof. intros Hm. destruct (LookupTypeArray_interns c Hc t Hm) as (u & c' & E & Hu & Hmu & Hw & Hg). rewrite Hu in *. by eexists _, c'. Qed.
Lemma set_lookup t : member c t -> exists i c', LookupTypeSet t c = Ok (TSet i t, c') /\ wf c' /\ grows c c' /\ member c' (TSet i t).
Proof. intros Hm. destruct (LookupTypeSet_interns c Hc t Hm) as (u & c' & E & Hu & Hmu & Hw & Hg). rewrite Hu in *. by eexists _, c'. Qed.
Lemma map_lookup k v : member c k -> member c v ->
  exists i c', LookupTypeMap k v c = Ok (TMap i k v, c') /\ wf c' /\ grows c c' /\ member c' (TMap i k v).
Proof. intros Hk Hv. destruct (LookupTypeMap_interns c Hc k v Hk Hv) as (u & c' & E & Hu & Hmu & Hw & Hg). rewrite Hu in *. by eexists _, c'. Qed.
Lemma union_lookup ts : short ts -> Forall (member c) ts ->
  exists i us c', LookupTypeUnion ts c = Ok (TUnion i us, c') /\ us ≡ₚ ts /\ wf c' /\ grows c c' /\ member c' (TUnion i us).
Proof.
  intros Hs Hm. destruct (LookupTypeUnion_interns c Hc ts Hs Hm) as (u & c' & E & Hu & Hmu & Hw & Hg). rewrite Hu in *.
  eexists _, _, c'. split; [exact E|]. split; [apply stable_sort_perm|done].
Qed.
Lemma record_lookup fs : short fs -> Forall (fun f => short f.1) fs -> Forall (fun f => member c f.2) fs -> NoDup (map fst fs) ->
  exists i c', MustLookupTypeRecord fs c = Ok (TRecord i fs, c') /\ wf c' /\ grows c c' /\ member c' (TRecord i fs).
Proof.
  intros Hs Hn Hm Hd%duplicateField_None. pose proof (LookupTypeRecord_interns c Hc fs Hs Hn Hm) as H. rewrite Hd in H.
  destruct H as (u & c' & E & Hu & Hmu & Hw & Hg). rewrite Hu in *. eexists _, c'. split; [|done].
  unfold MustLookupTypeRecord. by rewrite (M_bind_Ok _ _ _ _ _ E).
Qed.
Lemma record_fields t i fs : member c t -> TypeUnder t = TRecord i fs ->
  Forall (fun f => member c f.2) fs /\ Forall (fun f => short f.1) fs /\ NoDup (map fst fs).
Proof.
  intros Hm E. pose proof (member_under c Hc t Hm) as Hu. rewrite E in Hu. pose proof (member_components c Hc _ Hu) as Hcs.
  pose proof (member_regular c Hc _ Hu) as [_ Hr]. pose proof (member_lawful c Hc _ Hu) as Hl%duplicateField_None.
  cbn in Hcs, Hr, Hl. split; [by apply (Forall_map snd)|]. by split.
Qed.
Lemma member_parts t u : member c t -> TypeUnder t = u -> Forall (member c) (components u).
Proof. intros Hm <-. apply member_components; [done|]. by apply member_under. Qed.
End structures.
