(* ===== verification/Decode.v ===== *)
(** * Decoding type values

    [Context.DecodeTypeValue] on arbitrary bytes: it returns, and it keeps the
    invariant of the context; on the bytes of a type of any other context it
    builds the same structure.  [LookupByValue], [TranslateType] and
    [LookupTypeValue] follow. *)

From S2P Require Import Prelude Zcode Types Context Interning.
Local Open Scope Z_scope.

(** ** Specification *)

(** Partial correctness of a context-passing computation, with the condition
    [p] under which it may panic.  It never runs out of fuel. *)
Definition valid {A} (p : Prop) (Q : A -> Context -> Prop) (r : outcome diverge (A * Context)) : Prop :=
  match r with
  | Ok (a, c) => Q a c
  | Err _ => False
  | Panic => p
  end.

(** [P] holds of the type and of all it is made of. *)
Fixpoint hereditary (P : ty -> Prop) (t : ty) : Prop :=
  P t /\
  match t with
  | TPrim _ | TEnum _ _ => True
  | TRecord _ fs => foldr (fun f Q => hereditary P f.2 /\ Q) True fs
  | TArray _ t | TSet _ t | TError _ t | TNamed _ _ t => hereditary P t
  | TMap _ k v => hereditary P k /\ hereditary P v
  | TUnion _ ts => foldr (fun t Q => hereditary P t /\ Q) True ts
  end.

Definition within_limits (t : ty) : Prop :=
  match t with
  | TRecord _ fs => zlen fs <= MaxRecordFields
  | TUnion _ ts => zlen ts <= MaxUnionTypes
  | TEnum _ ss => zlen ss <= MaxEnumSymbols
  | _ => True
  end.

(** The types [DecodeTypeValue] accepts. *)
Definition decodable : ty -> Prop := hereditary (fun t => lawful t /\ within_limits t).

(** The encoder's bindings are those of the context, up to the ids. *)
Definition agrees (td : gmap gostring ty) (c : Context) : Prop :=
  forall n inner, td !! n = Some inner ->
    exists i inner', typedefs c !! n = Some (TNamed i n inner') /\ erase inner' = erase inner.

(** What decoding the bytes of [u] followed by [rest] must return, [td'] being
    the encoder's bindings after [u]. *)
Definition decodes_to (u : ty) (rest : list byte) (td' : gmap gostring ty) (c : Context)
  (r : decoded) (c' : Context) : Prop :=
  wf c' /\ grows c c' /\
  match r with
  | Some (t, rest') => rest' = rest /\ erase t = erase u /\ member c' t /\ agrees td' c'
  | None => ~ decodable u
  end.

(** ** Computations *)

Lemma valid_bind {A B} p (m : M A) (f : A -> M B) c Q Q' :
  valid p Q (m c) -> (forall a c', Q a c' -> valid p Q' (f a c')) -> valid p Q' ((m ≫= f) c).
Proof. unfold mbind, M_bind, mbind, outcome_bind. destruct (m c) as [[a c']| |]; simpl; auto. Qed.

Lemma valid_impl {A} (p p' : Prop) (Q Q' : A -> Context -> Prop) r :
  valid p Q r -> (p -> p') -> (forall a c, Q a c -> Q' a c) -> valid p' Q' r.
Proof. destruct r as [[a c]| |]; simpl; auto. Qed.

Lemma valid_ok {A} p (Q : A -> Context -> Prop) (m : M A) c :
  (exists a c', m c = Ok (a, c') /\ Q a c') -> valid p Q (m c).
Proof. intros (a & c' & -> & HQ). done. Qed.

Lemma hereditary_components P t : hereditary P t <-> P t /\ Forall (hereditary P) (components t).
Proof.
  destruct t as [p|i fs|i t|i t|i k v|i ts|i ss|i t|i n t]; cbn [hereditary components];
    rewrite ?Forall_map, ?Forall_cons, ?Forall_nil; try tauto.
  - by rewrite (foldr_Forall (fun f : field => hereditary P f.2)).
  - by rewrite (foldr_Forall (hereditary P)).
Qed.

(** ** Lengths and names *)

Lemma DecodeLength_append x rest :
  0 <= x < 2 ^ 64 -> DecodeLength (uvarint_bytes x ++ rest) = Some (i64 x, rest).
Proof.
  intros Hx. unfold DecodeLength. rewrite uvarint_append by done.
  pose proof (uvarint_bytes_pos x). destruct (Z.leb_spec (zlen (uvarint_bytes x)) 0); [lia|].
  unfold zlen. by rewrite Nat2Z.id, drop_app_length.
Qed.

Lemma DecodeLength_len {A} (l : list A) rest :
  short l -> DecodeLength (uvarint_bytes (u64 (zlen l)) ++ rest) = Some (zlen l, rest).
Proof.
  intros Hs. destruct (short_u64 l Hs) as [-> Hl]. rewrite DecodeLength_append by done.
  unfold short in Hs. rewrite i64_id; [done|lia].
Qed.

Lemma DecodeName_append n rest : short n -> DecodeName (name_bytes n ++ rest) = Ok (Some (n, rest)).
Proof.
  intros Hs. unfold DecodeName, name_bytes. rewrite <- app_assoc, DecodeLength_len by done.
  rewrite zlen_app. pose proof (zlen_nonneg rest).
  destruct (Z.ltb_spec (zlen n + zlen rest) (zlen n)); [lia|]. by rewrite slice_split_app.
Qed.

Lemma DecodeLength_shorter tv n rest : DecodeLength tv = Some (n, rest) -> (length rest < length tv)%nat /\ n < 2 ^ 63.
Proof.
  unfold DecodeLength. destruct (uvarint tv) as [u k] eqn:E.
  destruct (Z.leb_spec k 0); [done|]. intros [= <- <-]. split; [|apply i64_range].
  apply uvarint_bound in E; [|done]. unfold zlen in E. rewrite length_drop. lia.
Qed.

Lemma slice_split_Ok s lo hi a b :
  slice_split s lo hi = Ok (a, b) -> zlen a = hi - lo /\ (length b <= length s)%nat.
Proof.
  unfold slice_split. destruct ((0 <=? lo) && (lo <=? hi) && (hi <=? zlen s)) eqn:E; [|done].
  rewrite !andb_true_iff, !Z.leb_le in E. intros [= <- <-]. unfold zlen in *.
  rewrite length_take, !length_drop. lia.
Qed.

Lemma DecodeName_shorter tv :
  match DecodeName tv with
  | Ok (Some (n, rest)) => (length rest < length tv)%nat /\ short n
  | Ok None | Panic => True
  | Err _ => False
  end.
Proof.
  unfold DecodeName. destruct (DecodeLength tv) as [[k rest]|] eqn:E; [|done].
  apply DecodeLength_shorter in E as [Hr Hk]. destruct (zlen rest <? k); [done|].
  destruct (slice_split rest 0 k) as [[n rest']|[]|] eqn:Es; [|done].
  apply slice_split_Ok in Es as [Hn Hl]. unfold short. split; lia.
Qed.

Lemma lift_DecodeName p tv c :
  p -> valid p (fun r c' => c' = c /\ match r with Some (n, rest) => (length rest < length tv)%nat /\ short n | None => True end)
    (lift (DecodeName tv) c).
Proof.
  intros Hp. pose proof (DecodeName_shorter tv) as H. unfold lift.
  destruct (DecodeName tv) as [[[n rest]|]| |]; simpl; auto.
Qed.

(** ** Arbitrary bytes *)

(** The result of decoding [tv] in [c]. *)
Definition sound (tv : list byte) (c : Context) (r : decoded) (c' : Context) : Prop :=
  wf c' /\ grows c c' /\
  match r with Some (t, rest) => member c' t /\ (length rest < length tv)%nat | None => True end.

Section sound.
Context (decode : list byte -> M decoded) (fuel : nat).
Context (Hdecode : forall tv c, (length tv < fuel)%nat -> wf c -> valid True (sound tv c) (decode tv c)).

Lemma decode_fields_sound n : forall tv fs c,
  (length tv < fuel)%nat -> wf c -> Forall (fun f => short f.1 /\ member c f.2) fs ->
  valid True (fun r c' => wf c' /\ grows c c' /\
      match r with
      | Some (fs', rest) => Forall (fun f => short f.1 /\ member c' f.2) fs' /\ (length rest <= length tv)%nat /\
                            length fs' = (length fs + n)%nat
      | None => True
      end) (decode_fields decode n tv fs c).
Proof.
  induction n as [|n IH]; intros tv fs c Hl Hwf Hfs; cbn [decode_fields].
  { simpl. split_and!; [done|done|done|lia|lia]. }
  fold (decode_fields decode). eapply valid_bind; [by apply lift_DecodeName|].
  intros [[name tv1]|] c1 [-> Hn]; [|by simpl]. destruct Hn as [Hl1 Hn].
  eapply valid_bind; [apply Hdecode; [lia|done]|].
  intros [[t tv2]|] c2 (Hwf2 & Hg2 & Hr); [|by simpl]. destruct Hr as [Hm Hl2].
  eapply valid_impl; [apply IH; [lia|done|]|done|].
  - apply Forall_app. split; [|by apply Forall_singleton]. eapply Forall_impl; [done|].
    intros f [? ?]. split; [done|]. by eapply member_grows.
  - intros r c' (? & ? & Hr). split_and!; [done|by etrans|]. destruct r as [[fs' rest]|]; [|done].
    destruct Hr as (? & ? & Hlen). rewrite length_app in Hlen. simpl in Hlen. split_and!; [done|lia|lia].
Qed.

Lemma decode_types_sound n : forall tv ts c,
  (length tv < fuel)%nat -> wf c -> Forall (member c) ts ->
  valid True (fun r c' => wf c' /\ grows c c' /\ Forall (member c') r.1 /\ (length r.2 <= length tv)%nat /\
                       length r.1 = (length ts + n)%nat)
    (decode_types decode n tv ts c).
Proof.
  induction n as [|n IH]; intros tv ts c Hl Hwf Hts; cbn [decode_types].
  { simpl. split_and!; [done|done|done|lia|lia]. }
  fold (decode_types decode). eapply valid_bind; [by apply Hdecode|].
  intros [[t tv1]|] c1 (Hwf1 & Hg1 & Hr); [|by simpl]. destruct Hr as [Hm Hl1].
  eapply valid_impl; [apply IH; [lia|done|]|done|].
  - apply Forall_app. split; [by eapply members_grow|by apply Forall_singleton].
  - intros r c' (? & ? & ? & ? & Hlen). rewrite length_app in Hlen. simpl in Hlen.
    split_and!; [done|by etrans|done|lia|lia].
Qed.

Lemma decode_symbols_sound n : forall tv ss,
  Forall short ss ->
  match decode_symbols n tv ss with
  | Ok (Some (ss', rest)) => Forall short ss' /\ (length rest <= length tv)%nat /\ length ss' = (length ss + n)%nat
  | Err _ => False
  | _ => True
  end.
Proof.
  induction n as [|n IH]; intros tv ss Hss; simpl; [split_and!; [done|lia|lia]|].
  pose proof (DecodeName_shorter tv) as H. destruct (DecodeName tv) as [[[s rest]|]| |]; simpl; try done.
  destruct H as [Hl Hs]. assert (Hss' : Forall short (ss ++ [s])) by (apply Forall_app; split; [done|by apply Forall_singleton]).
  specialize (IH rest (ss ++ [s]) Hss').
  destruct (decode_symbols n rest (ss ++ [s])) as [[[ss' rest']|]| |]; try done.
  destruct IH as (? & ? & Hlen). rewrite length_app in Hlen. simpl in Hlen. split_and!; [done|lia|lia].
Qed.
End sound.

Lemma sound_interns tv rest t0 t c c1 c2 :
  grows c c1 -> interns c1 t0 t c2 -> (length rest < length tv)%nat -> sound tv c (Some (t, rest)) c2.
Proof. intros Hg (_ & Hm & Hw & Hg') Hl. split_and!; [done|by etrans|done|done]. Qed.

Lemma sound_none tv c c1 : wf c1 -> grows c c1 -> sound tv c None c1.
Proof. by intros; split_and!. Qed.

(** The lookup that ends a case. *)
Lemma sound_lookup (m : M ty) tv rest t0 c c1 :
  (exists t c2, m c1 = Ok (t, c2) /\ interns c1 t0 t c2) -> grows c c1 -> (length rest < length tv)%nat ->
  valid True (sound tv c) ((t ← m; mret (Some (t, rest))) c1).
Proof.
  intros (t & c2 & E & Hi) Hg Hl. unfold mbind, M_bind. rewrite E. by eapply sound_interns.
Qed.

Lemma sound_shorter tv tv' c r c' : (length tv' < length tv)%nat -> sound tv' c r c' -> sound tv c r c'.
Proof.
  intros Hl (? & ? & Hr). split_and!; [done|done|]. destruct r as [[t rest]|]; [|done]. destruct Hr. split; [done|lia].
Qed.

Lemma decode_type_value_sound fuel : forall tv c,
  (length tv < fuel)%nat -> wf c -> valid True (sound tv c) (decode_type_value fuel tv c).
Proof.
  induction fuel as [|fuel IH]; intros tv c Hl Hwf; [lia|]. cbn [decode_type_value].
  destruct tv as [|id tv]; [by apply sound_none|]. cbn [length] in Hl.
  destruct (bz id =? TypeValueNameDef).
  { eapply valid_bind; [by apply lift_DecodeName|]. intros [[name tv1]|] c1 [-> Hn]; [|by apply sound_none].
    destruct Hn as [Hl1 Hn]. eapply valid_bind; [apply IH; [lia|done]|].
    intros [[t tv2]|] c2 (Hwf2 & Hg2 & Hr); [|by apply sound_none]. destruct Hr as [Hm Hl2].
    destruct (LookupTypeNamed_interns c2 Hwf2 name t Hn Hm) as [Hbad Hgood].
    eapply (valid_bind _ _ _ _ (fun r c' => match r with
      | inl _ => c' = c2 | inr u => interns c2 (TNamed 0 name t) u c' end)).
    - destruct (ValidString name) eqn:Hv; [|by destruct Hbad as [e ->]; [left|]].
      destruct (LookupPrimitive name) eqn:Hp; [by destruct Hbad as [e ->]; [right|]|].
      by destruct Hgood as (u & c' & -> & Hi & _).
    - intros [e|u] c3 Hc3; [subst c3; by apply sound_none|]. eapply sound_interns; [done..|]. simpl. lia. }
  destruct (bz id =? TypeValueNameRef).
  { eapply valid_bind; [by apply lift_DecodeName|]. intros [[name tv1]|] c1 [-> Hn]; [|by apply sound_none].
    destruct Hn as [Hl1 Hn].
    eapply (valid_bind _ _ _ _ (fun r c' => r = typedefs c !! name /\ c' = c)); [done|].
    intros r c' [-> ->]. destruct (typedefs c !! name) as [t|] eqn:E; [|by apply sound_none].
    apply (wf_typedefs c Hwf) in E as [Hm _]. simpl. split_and!; [done|done|done|simpl; lia]. }
  destruct (bz id =? TypeValueRecord).
  { destruct (DecodeLength tv) as [[n tv1]|] eqn:E; [|by apply sound_none].
    apply DecodeLength_shorter in E as [Hl1 Hn]. destruct (Z.ltb_spec MaxRecordFields n); [by apply sound_none|].
    destruct (Z.ltb_spec n 0); [done|].
    eapply valid_bind; [apply (decode_fields_sound _ fuel); [done|lia|done|by constructor]|].
    intros [[fs tv2]|] c2 (Hwf2 & Hg2 & Hr); [|by apply sound_none]. destruct Hr as (Hfs & Hl2 & Hlen).
    rewrite Forall_and in Hfs. destruct Hfs as [Hs Hm].
    assert (Hshort : short fs) by (unfold short, zlen; simpl in Hlen; unfold MaxRecordFields in *; lia).
    pose proof (LookupTypeRecord_interns c2 Hwf2 fs Hshort Hs Hm) as Hi.
    eapply (valid_bind _ _ _ _ (fun r c' => match r with
      | inl _ => c' = c2 | inr u => interns c2 (TRecord 0 fs) u c' end)).
    - destruct (duplicateField fs); [by rewrite Hi|]. by destruct Hi as (u & c' & -> & Hi).
    - intros [e|u] c3 Hc3; [subst c3; by apply sound_none|]. eapply sound_interns; [done..|]. simpl. lia. }
  destruct (bz id =? TypeValueArray).
  { eapply valid_bind; [apply IH; [lia|done]|]. intros [[t tv1]|] c1 (Hw & Hg & Hr); [|by apply sound_none].
    destruct Hr. eapply sound_lookup; [by apply LookupTypeArray_interns|done|simpl; lia]. }
  destruct (bz id =? TypeValueSet).
  { eapply valid_bind; [apply IH; [lia|done]|]. intros [[t tv1]|] c1 (Hw & Hg & Hr); [|by apply sound_none].
    destruct Hr. eapply sound_lookup; [by apply LookupTypeSet_interns|done|simpl; lia]. }
  destruct (bz id =? TypeValueMap).
  { eapply valid_bind; [apply IH; [lia|done]|]. intros [[k tv1]|] c1 (Hw & Hg & Hr); [|by apply sound_none].
    destruct Hr. eapply valid_bind; [apply IH; [lia|done]|]. intros [[v tv2]|] c2 (Hw2 & Hg2 & Hr);
      [|apply sound_none; [done|by etrans]].
    destruct Hr. eapply sound_lookup; [apply LookupTypeMap_interns; [done|by eapply member_grows|done]|by etrans|simpl; lia]. }
  destruct (bz id =? TypeValueUnion).
  { destruct (DecodeLength tv) as [[n tv1]|] eqn:E; [|by apply sound_none].
    apply DecodeLength_shorter in E as [Hl1 Hn]. destruct (Z.ltb_spec MaxUnionTypes n); [by apply sound_none|].
    destruct (Z.ltb_spec n 0); [done|].
    eapply valid_bind; [apply (decode_types_sound _ fuel); [done|lia|done|by constructor]|].
    intros [ts tv2] c2 (Hwf2 & Hg2 & Hts & Hl2 & Hlen). simpl in Hts, Hl2, Hlen.
    eapply sound_lookup; [apply LookupTypeUnion_interns; [done| |done]|done|simpl; lia].
    unfold short, zlen, MaxUnionTypes in *. lia. }
  destruct (bz id =? TypeValueEnum).
  { destruct (DecodeLength tv) as [[n tv1]|] eqn:E; [|by apply sound_none].
    apply DecodeLength_shorter in E as [Hl1 Hn]. destruct (Z.ltb_spec MaxEnumSymbols n); [by apply sound_none|].
    eapply (valid_bind _ _ _ _ (fun r c' => c' = c /\ match r with
      | Some (ss, rest) => Forall short ss /\ (length rest <= length tv1)%nat /\ length ss = Z.to_nat n | None => True end)).
    - pose proof (decode_symbols_sound (Z.to_nat n) tv1 [] ltac:(constructor)) as H'. unfold lift.
      destruct (decode_symbols (Z.to_nat n) tv1 []) as [[[ss rest]|]| |]; by simpl.
    - intros [[ss rest]|] c1 [-> Hr]; [|by apply sound_none]. destruct Hr as (Hs & Hl2 & Hlen).
      eapply sound_lookup; [apply LookupTypeEnum_interns; [done| |done]|done|simpl; lia].
      unfold short, zlen, MaxEnumSymbols in *. lia. }
  destruct (bz id =? TypeValueError).
  { eapply valid_bind; [apply IH; [lia|done]|]. intros [[t tv1]|] c1 (Hw & Hg & Hr); [|by apply sound_none].
    destruct Hr. eapply sound_lookup; [by apply LookupTypeError_interns|done|simpl; lia]. }
  destruct (LookupPrimitiveByID (bz id)); [|by apply sound_none..]. split_and!; [done|done|done|simpl; lia].
Qed.

(** ** Type values of another context *)

Lemma agrees_bind td c n t inner i inner' :
  agrees td c -> typedefs t = <[n := TNamed i n inner']> (typedefs c) -> erase inner' = erase inner ->
  agrees (<[n := inner]> td) t.
Proof.
  intros Ha Ht E m u. rewrite Ht, lookup_insert_Some. intros [[<- <-]|[Hne Hu]].
  - rewrite lookup_insert_eq. eauto.
  - rewrite lookup_insert_ne by done. by apply Ha.
Qed.

Lemma lookup_or_enter_typedefs tv k mk c t c' :
  lookup_or_enter tv k mk c = Ok (t, c') -> typedefs c' = typedefs c.
Proof.
  unfold lookup_or_enter. destruct (toType c !! tv) as [u|]; [destruct (k u); [|done]|]; by intros [= _ <-].
Qed.

Lemma LookupTypeError_typedefs inner c t c' : LookupTypeError inner c = Ok (t, c') -> typedefs c' = typedefs c.
Proof.
  unfold LookupTypeError. destruct (toType c !! _) as [u|]; [destruct (is_kind ErrorKind u); [|done]|];
    [by intros [= _ <-]|]. case_decide; by intros [= _ <-].
Qed.

Lemma LookupTypeRecord_typedefs fs c r c' : LookupTypeRecord fs c = Ok (r, c') -> typedefs c' = typedefs c.
Proof.
  unfold LookupTypeRecord. destruct (toType c !! _) as [u|]; [destruct (is_kind RecordKind u); [|done]|];
    [by intros [= _ <-]|]. destruct (duplicateField fs); by intros [= _ <-].
Qed.

Section universe.
Context (U : ty -> Prop) `{!Universe U}.

(** The statement for one type, from any agreeing bindings. *)
Definition decodes_at (u : ty) : Prop :=
  forall td c fuel rest, U u -> wf c -> agrees td c ->
    (length (appendTypeValue u td).1 <= fuel)%nat ->
    valid (~ decodable u) (decodes_to u rest (appendTypeValue u td).2 c)
      (decode_type_value fuel ((appendTypeValue u td).1 ++ rest) c).

(** Decoded types, listed against those encoded. *)
Definition decoded_as (c : Context) (u t : ty) : Prop := U u /\ member c t /\ erase u = erase t.

Lemma decoded_as_grows c c' us ts :
  grows c c' -> Forall2 (decoded_as c) us ts -> Forall2 (decoded_as c') us ts.
Proof.
  intros Hg H. eapply Forall2_impl; [exact H|]. intros u t (? & ? & ?). split_and!; [done| |done]. by eapply member_grows.
Qed.

Lemma decoded_as_members c us ts : Forall2 (decoded_as c) us ts -> Forall (member c) ts.
Proof. induction 1 as [|u t us ts (_ & ? & _) _ IH]; by constructor. Qed.

Lemma decode_fields_to fuel fs :
  Forall (fun f => decodes_at f.2) fs ->
  forall td c rest acc,
    Forall (fun f => U f.2) fs -> Forall (fun f => short f.1) fs -> wf c -> agrees td c ->
    (length (append_fields appendTypeValue fs td).1 <= fuel)%nat ->
    valid (~ Forall (fun f => decodable f.2) fs)
      (fun r c' => wf c' /\ grows c c' /\
         match r with
         | Some (fs', rest') => rest' = rest /\ agrees (append_fields appendTypeValue fs td).2 c' /\
             exists new, fs' = acc ++ new /\ map fst new = map fst fs /\
                         Forall2 (decoded_as c') (map snd fs) (map snd new)
         | None => ~ Forall (fun f => decodable f.2) fs
         end)
      (decode_fields (decode_type_value fuel) (length fs) ((append_fields appendTypeValue fs td).1 ++ rest) acc c).
Proof.
  induction 1 as [|[n t] fs Ht _ IH]; intros td c rest acc HU Hs Hwf Ha Hl.
  { split_and!; [done|done|done|done|]. exists []. by rewrite app_nil_r. }
  inversion_clear HU as [|?? HUt HUfs]. inversion_clear Hs as [|?? Hn Hsfs]. cbn [append_fields] in *.
  fold (append_fields appendTypeValue) in *. rewrite !bind_pair_inj in *. cbn [fst snd length decode_fields] in *.
  fold (decode_fields (decode_type_value fuel)).
  rewrite !length_app in Hl. rewrite <- !app_assoc.
  eapply (valid_bind _ _ _ _ (fun r c' => r = Some (n, (appendTypeValue t td).1 ++ (append_fields appendTypeValue fs (appendTypeValue t td).2).1 ++ rest) /\ c' = c)).
  { unfold lift. by rewrite DecodeName_append. }
  intros r c0 [-> ->]. eapply valid_bind.
  { eapply valid_impl; [apply (Ht td c fuel); [done..|lia]| |intros a c1 Hac; exact Hac].
    intros Hnd Hall. apply Hnd. by inversion_clear Hall. }
  intros [[t' tv']|] c1 (Hw1 & Hg1 & Hr).
  2: { split_and!; [done|done|]. intros Hall. apply Hr. by inversion_clear Hall. }
  destruct Hr as (-> & Et & Hm & Ha1).
  eapply valid_impl; [apply (IH (appendTypeValue t td).2 c1 rest (acc ++ [(n, t')])); [done..|lia]| |].
  - intros Hnd Hall. apply Hnd. by inversion_clear Hall.
  - intros r c' (Hw' & Hg' & Hr). split_and!; [done|by etrans|]. destruct r as [[fs' rest']|].
    + destruct Hr as (-> & Ha' & new & -> & Hnames & Hnew). split_and!; [done|done|].
      exists ((n, t') :: new). rewrite <- app_assoc. split_and!; [done|simpl; by rewrite Hnames|].
      simpl. constructor; [|done]. split_and!; [done|by eapply member_grows|done].
    + intros Hall. apply Hr. by inversion_clear Hall.
Qed.

Lemma decode_types_to fuel us :
  Forall decodes_at us ->
  forall td c rest acc,
    Forall U us -> wf c -> agrees td c ->
    (length (append_types appendTypeValue us td).1 <= fuel)%nat ->
    valid (~ Forall decodable us)
      (fun r c' => wf c' /\ grows c c' /\ r.2 = rest /\ agrees (append_types appendTypeValue us td).2 c' /\
         exists new, r.1 = acc ++ new /\ Forall2 (decoded_as c') us new)
      (decode_types (decode_type_value fuel) (length us) ((append_types appendTypeValue us td).1 ++ rest) acc c).
Proof.
  induction 1 as [|t us Ht _ IH]; intros td c rest acc HU Hwf Ha Hl.
  { split_and!; [done|done|done|done|]. exists []. by rewrite app_nil_r. }
  inversion_clear HU as [|?? HUt HUus]. cbn [append_types] in *. fold (append_types appendTypeValue) in *.
  rewrite !bind_pair_inj in *. cbn [fst snd length decode_types] in *.
  fold (decode_types (decode_type_value fuel)). rewrite length_app in Hl. rewrite <- app_assoc. eapply valid_bind.
  { eapply valid_impl; [apply (Ht td c fuel); [done..|lia]| |intros a c1 Hac; exact Hac].
    intros Hnd Hall. apply Hnd. by inversion_clear Hall. }
  intros [[t' tv']|] c1 (Hw1 & Hg1 & Hr); [|simpl; intros Hall; apply Hr; by inversion_clear Hall].
  destruct Hr as (-> & Et & Hm & Ha1).
  eapply valid_impl; [apply (IH (appendTypeValue t td).2 c1 rest (acc ++ [t'])); [done..|lia]| |].
  - intros Hnd Hall. apply Hnd. by inversion_clear Hall.
  - intros r c' (Hw' & Hg' & Hr & Ha' & new & Hnew & Hf). split_and!; [done|by etrans|done|done|].
    exists (t' :: new). rewrite <- app_assoc in Hnew. split; [done|]. constructor; [|done].
    split_and!; [done|by eapply member_grows|done].
Qed.

Lemma decode_symbols_to ss : forall rest acc,
  Forall short ss -> decode_symbols (length ss) (concat (map name_bytes ss) ++ rest) acc = Ok (Some (acc ++ ss, rest)).
Proof.
  induction ss as [|s ss IH]; intros rest acc Hs; simpl; [by rewrite app_nil_r|].
  inversion_clear Hs. rewrite <- app_assoc, DecodeName_append by done. simpl. rewrite IH by done.
  by rewrite <- app_assoc.
Qed.

(** The lookup that ends a case finds the structure of [u]. *)
Lemma decodes_lookup (m : M ty) u t0 rest td' c c1 (p : Prop) :
  (exists t c2, m c1 = Ok (t, c2) /\ interns c1 t0 t c2) ->
  (forall t c2, m c1 = Ok (t, c2) -> typedefs c2 = typedefs c1) ->
  grows c c1 -> agrees td' c1 -> erase t0 = erase u ->
  valid p (decodes_to u rest td' c) ((t ← m; mret (Some (t, rest))) c1).
Proof.
  intros (t & c2 & E & Hr & Hm & Hw & Hg') Htd Hg Ha He. apply Htd in E as Htd'. unfold mbind, M_bind. rewrite E. simpl.
  split_and!; [done|by etrans|done| |done|].
  - rewrite Hr, erase_reid. done.
  - unfold agrees. by rewrite Htd'.
Qed.

Lemma not_decodable_component u v : v ∈ components u -> ~ decodable v -> ~ decodable u.
Proof.
  intros Hv Hnd [_ Hd]%hereditary_components. rewrite Forall_forall in Hd. by apply Hnd, Hd.
Qed.

Lemma decodes_none u rest td' c c1 p :
  wf c1 -> grows c c1 -> ~ decodable u -> valid p (decodes_to u rest td' c) (Ok (None, c1)).
Proof. intros. by split_and!. Qed.

Lemma decode_prim fuel p rest c :
  decode_type_value (S fuel) (zb (primitive_id p) :: rest) c = Ok (Some (TPrim p, rest), c).
Proof. by destruct p. Qed.

Lemma not_lawful_decodable u : ~ lawful u -> ~ decodable u.
Proof. intros Hn [[Hl _] _]%hereditary_components. done. Qed.
Lemma not_limits_decodable u : ~ within_limits u -> ~ decodable u.
Proof. intros Hn [[_ Hl] _]%hereditary_components. done. Qed.

Lemma decodes_prim p : decodes_at (TPrim p).
Proof.
  intros td c fuel rest Hu Hwf Ha Hl. destruct fuel as [|fuel]; [simpl in Hl; lia|].
  change ((appendTypeValue (TPrim p) td).1 ++ rest) with (zb (primitive_id p) :: rest).
  rewrite decode_prim. by split_and!.
Qed.

(** A single component after the code byte. *)
Lemma decodes_inner u t (mk : ty -> M ty) t0 td c fuel rest :
  decodes_at t -> t ∈ components u -> U u -> wf c -> agrees td c ->
  (length (appendTypeValue t td).1 <= fuel)%nat ->
  (forall c1 t', wf c1 -> member c1 t' -> exists r c2, mk t' c1 = Ok (r, c2) /\ interns c1 (t0 t') r c2) ->
  (forall c1 t' r c2, mk t' c1 = Ok (r, c2) -> typedefs c2 = typedefs c1) ->
  (forall t', erase t' = erase t -> erase (t0 t') = erase u) ->
  valid (~ decodable u) (decodes_to u rest (appendTypeValue t td).2 c)
    ((r ← decode_type_value fuel ((appendTypeValue t td).1 ++ rest);
      match r with
      | None => mret None
      | Some (inner, tv) => t ← mk inner; mret (Some (t, tv))
      end) c).
Proof.
  intros Ht Hin Hu Hwf Ha Hl Hmk Htd He.
  assert (Hut : U t) by (apply (interned_components (U := U)) in Hu; rewrite Forall_forall in Hu; auto).
  eapply valid_bind.
  { eapply valid_impl; [by apply (Ht td c fuel)|by apply not_decodable_component|intros a c1 Hac; exact Hac]. }
  intros [[t' tv']|] c1 (Hw1 & Hg1 & Hr); [|apply decodes_none; [done..|by eapply not_decodable_component]].
  destruct Hr as (-> & Et & Hm & Ha1). apply decodes_lookup with (t0 := t0 t'); auto.
  intros. by eapply Htd.
Qed.

Lemma duplicateField_names fs gs : map fst fs = map fst gs -> duplicateField fs = duplicateField gs.
Proof.
  intros H. unfold duplicateField. rewrite H. unfold zlen. apply (f_equal length) in H.
  rewrite !length_map in H. by rewrite H.
Qed.

Lemma erase_fields_as c fs new :
  map fst new = map fst fs -> Forall2 (decoded_as c) (map snd fs) (map snd new) ->
  erase (TRecord 0 new) = erase (TRecord 0 fs).
Proof.
  intros Hn Hf. cbn [erase]. f_equal. revert fs Hn Hf.
  induction new as [|[m t] new IH]; intros [|[n u] fs]; try done.
  cbn [map fst snd]. intros [= -> Hn] Hf. inversion_clear Hf as [|? ? ? ? H1 H2].
  destruct H1 as (_ & _ & ->). f_equal. by apply IH.
Qed.

(** The cases of the decoder. *)
Lemma decode_array_eq fuel tv :
  decode_type_value (S fuel) (zb TypeValueArray :: tv) =
  (r ← decode_type_value fuel tv;
   match r with
   | None => mret None
   | Some (inner, tv) => t ← LookupTypeArray inner; mret (Some (t, tv))
   end).
Proof. done. Qed.

Lemma decode_set_eq fuel tv :
  decode_type_value (S fuel) (zb TypeValueSet :: tv) =
  (r ← decode_type_value fuel tv;
   match r with
   | None => mret None
   | Some (inner, tv) => t ← LookupTypeSet inner; mret (Some (t, tv))
   end).
Proof. done. Qed.

Lemma decode_error_eq fuel tv :
  decode_type_value (S fuel) (zb TypeValueError :: tv) =
  (r ← decode_type_value fuel tv;
   match r with
   | None => mret None
   | Some (inner, tv) => t ← LookupTypeError inner; mret (Some (t, tv))
   end).
Proof. done. Qed.

Lemma decode_map_eq fuel tv :
  decode_type_value (S fuel) (zb TypeValueMap :: tv) =
  (r ← decode_type_value fuel tv;
   match r with
   | None => mret None
   | Some (k, tv) =>
       r ← decode_type_value fuel tv;
       match r with
       | None => mret None
       | Some (v, tv) => t ← LookupTypeMap k v; mret (Some (t, tv))
       end
   end).
Proof. done. Qed.

Lemma decode_record_eq {A} fuel (fs : list A) tv :
  short fs ->
  decode_type_value (S fuel) (zb TypeValueRecord :: uvarint_bytes (u64 (zlen fs)) ++ tv) =
  if MaxRecordFields <? zlen fs then mret None
  else r ← decode_fields (decode_type_value fuel) (length fs) tv [];
       match r with
       | None => mret None
       | Some (fields, tv) =>
           t ← LookupTypeRecord fields;
           match t with
           | inl _ => mret None
           | inr t => mret (Some (t, tv))
           end
       end.
Proof.
  intros Hs. set (tv' := _ ++ tv).
  change (decode_type_value (S fuel) (zb TypeValueRecord :: tv')) with
    (match DecodeLength tv' with
     | None => mret None
     | Some (n, tv) =>
         if MaxRecordFields <? n then mret None
         else if n <? 0 then panic
         else
           r ← decode_fields (decode_type_value fuel) (Z.to_nat n) tv [];
           match r with
           | None => mret None
           | Some (fields, tv) =>
               t ← LookupTypeRecord fields;
               match t with
               | inl _ => mret None
               | inr t => mret (Some (t, tv))
               end
           end
     end : M decoded).
  subst tv'. rewrite DecodeLength_len by done. pose proof (zlen_nonneg fs).
  destruct (Z.ltb_spec (zlen fs) 0); [lia|]. unfold zlen. by rewrite Nat2Z.id.
Qed.

Lemma decode_union_eq {A} fuel (ts : list A) tv :
  short ts ->
  decode_type_value (S fuel) (zb TypeValueUnion :: uvarint_bytes (u64 (zlen ts)) ++ tv) =
  if MaxUnionTypes <? zlen ts then mret None
  else '(types, tv) ← decode_types (decode_type_value fuel) (length ts) tv [];
       t ← LookupTypeUnion types;
       mret (Some (t, tv)).
Proof.
  intros Hs. set (tv' := _ ++ tv).
  change (decode_type_value (S fuel) (zb TypeValueUnion :: tv')) with
    (match DecodeLength tv' with
     | None => mret None
     | Some (n, tv) =>
         if MaxUnionTypes <? n then mret None
         else if n <? 0 then panic
         else
           '(types, tv) ← decode_types (decode_type_value fuel) (Z.to_nat n) tv [];
           t ← LookupTypeUnion types;
           mret (Some (t, tv))
     end : M decoded).
  subst tv'. rewrite DecodeLength_len by done. pose proof (zlen_nonneg ts).
  destruct (Z.ltb_spec (zlen ts) 0); [lia|]. unfold zlen. by rewrite Nat2Z.id.
Qed.

Lemma decode_enum_eq fuel ss rest :
  short ss -> Forall short ss ->
  decode_type_value (S fuel) (zb TypeValueEnum :: uvarint_bytes (u64 (zlen ss)) ++ concat (map name_bytes ss) ++ rest) =
  if MaxEnumSymbols <? zlen ss then mret None
  else t ← LookupTypeEnum ss; mret (Some (t, rest)).
Proof.
  intros Hs Hss. set (tv' := _ ++ _ ++ rest).
  change (decode_type_value (S fuel) (zb TypeValueEnum :: tv')) with
    (match DecodeLength tv' with
     | None => mret None
     | Some (n, tv) =>
         if MaxEnumSymbols <? n then mret None
         else
           r ← lift (decode_symbols (Z.to_nat n) tv []);
           match r with
           | None => mret None
           | Some (symbols, tv) => t ← LookupTypeEnum symbols; mret (Some (t, tv))
           end
     end : M decoded).
  subst tv'. rewrite DecodeLength_len by done. unfold zlen at 2. rewrite Nat2Z.id.
  unfold lift. by rewrite decode_symbols_to.
Qed.

Lemma decode_def_eq fuel n tv :
  short n ->
  decode_type_value (S fuel) (zb TypeValueNameDef :: name_bytes n ++ tv) =
  (r ← decode_type_value fuel tv;
   match r with
   | None => mret None
   | Some (t, tv) =>
       named ← LookupTypeNamed n t;
       match named with
       | inl _ => mret None
       | inr named => mret (Some (named, tv))
       end
   end).
Proof.
  intros Hs. set (tv' := _ ++ tv).
  change (decode_type_value (S fuel) (zb TypeValueNameDef :: tv')) with
    (r ← lift (DecodeName tv');
     match r with
     | None => mret None
     | Some (name, tv) =>
         r ← decode_type_value fuel tv;
         match r with
         | None => mret None
         | Some (t, tv) =>
             named ← LookupTypeNamed name t;
             match named with
             | inl _ => mret None
             | inr named => mret (Some (named, tv))
             end
         end
     end : M decoded).
  subst tv'. unfold lift. by rewrite DecodeName_append.
Qed.

Lemma decode_ref_eq fuel n tv c :
  short n ->
  decode_type_value (S fuel) (zb TypeValueNameRef :: name_bytes n ++ tv) c =
  Ok (match typedefs c !! n with None => None | Some t => Some (t, tv) end, c).
Proof.
  intros Hs. set (tv' := _ ++ tv).
  change (decode_type_value (S fuel) (zb TypeValueNameRef :: tv') c) with
    ((r ← lift (DecodeName tv');
     match r with
     | None => mret None
     | Some (name, tv) =>
         t ← LookupTypeDef name;
         match t with
         | None => mret None
         | Some t => mret (Some (t, tv))
         end
     end : M decoded) c).
  subst tv'. unfold lift, mbind, M_bind. rewrite DecodeName_append by done. simpl.
  by destruct (typedefs c !! n).
Qed.

Ltac start_case Hl fuel :=
  cbn [appendTypeValue] in *; rewrite ?bind_pair_inj in *; cbn [fst snd] in *;
  destruct fuel as [|fuel]; [simpl in Hl; lia|]; cbn [length] in Hl; rewrite ?length_app in Hl;
  rewrite <- ?app_comm_cons, <- ?app_assoc.

Lemma decodes_record i fs : Forall (fun f => decodes_at f.2) fs -> decodes_at (TRecord i fs).
Proof.
  intros IH td c fuel rest Hu Hwf Ha Hl.
  assert (Hnot : ~ Forall (fun f => decodable f.2) fs -> ~ decodable (TRecord i fs)).
  { intros Hn [_ Hd]%hereditary_components. apply Hn. cbn [components] in Hd. by rewrite Forall_map in Hd. }
  pose proof (universe_regular _ Hu) as [Hs Hn]. apply (interned_components (U := U)) in Hu.
  cbn [components] in Hu. rewrite Forall_map in Hu. start_case Hl fuel. rewrite decode_record_eq by done.
  destruct (Z.ltb_spec MaxRecordFields (zlen fs)).
  { apply decodes_none; [done..|]. apply not_limits_decodable. simpl. lia. }
  eapply valid_bind; [eapply valid_impl; [apply (decode_fields_to fuel fs IH); [done..|lia]|exact Hnot|intros a c1 H1; exact H1]|].
  intros [[fs' tv']|] c1 (Hw1 & Hg1 & Hr); [|apply decodes_none; auto].
  destruct Hr as (-> & Ha1 & new & -> & Hnames & Hnew). cbn [app].
  assert (Hlen : length new = length fs) by (apply (f_equal length) in Hnames; by rewrite !length_map in Hnames).
  assert (Hi := LookupTypeRecord_interns c1 Hw1 new). rewrite (duplicateField_names new fs Hnames) in Hi.
  assert (Hs' : short new) by (unfold short, zlen in *; by rewrite Hlen). specialize (Hi Hs').
  assert (Hn' : Forall (fun f => short f.1) new).
  { rewrite <- (Forall_map fst short) in Hn |- *. by rewrite Hnames. }
  assert (Hm' : Forall (fun f => member c1 f.2) new).
  { rewrite <- (Forall_map snd (member c1)). by eapply decoded_as_members. }
  specialize (Hi Hn' Hm'). destruct (duplicateField fs) as [n|] eqn:Ed.
  - unfold mbind, M_bind. rewrite Hi. apply decodes_none; [done..|]. apply not_lawful_decodable. simpl. by rewrite Ed.
  - destruct Hi as (u & c' & E & Hr & Hm & Hw & Hg). unfold mbind, M_bind. rewrite E. simpl.
    split_and!; [done|by etrans|done| |done|].
    + rewrite Hr, erase_reid. by apply erase_fields_as with c1.
    + apply LookupTypeRecord_typedefs in E. unfold agrees. by rewrite E.
Qed.

Lemma decodes_union i ts : Forall decodes_at ts -> decodes_at (TUnion i ts).
Proof.
  intros IH td c fuel rest Hu Hwf Ha Hl.
  assert (Hnot : ~ Forall decodable ts -> ~ decodable (TUnion i ts)).
  { intros Hn [_ Hd]%hereditary_components. by apply Hn. }
  pose proof (universe_regular _ Hu) as [Hs Hn]. apply (interned_components (U := U)) in Hu.
  cbn [components] in Hu. start_case Hl fuel. rewrite decode_union_eq by done.
  destruct (Z.ltb_spec MaxUnionTypes (zlen ts)).
  { apply decodes_none; [done..|]. apply not_limits_decodable. simpl. lia. }
  eapply valid_bind; [eapply valid_impl; [apply (decode_types_to fuel ts IH); [done..|lia]|exact Hnot|intros a c1 H1; exact H1]|].
  intros [ts' tv'] c1 (Hw1 & Hg1 & Hr & Ha1 & new & Hnew & Hf). cbn [fst snd app] in *. subst ts' tv'.
  assert (Hsort : sort_types new = new).
  { pose proof (member_universe c1 Hw1). by apply (sort_types_same U (member c1) ts new). }
  assert (Hm' : Forall (member c1) new) by by eapply decoded_as_members.
  apply decodes_lookup with (t0 := TUnion 0 new); [| |done|done|].
  - pose proof (LookupTypeUnion_interns c1 Hw1 new) as Hi. rewrite Hsort in Hi. apply Hi; [|done].
    apply Forall2_length in Hf. unfold short, zlen in *. by rewrite <- Hf.
  - intros t c2. apply lookup_or_enter_typedefs.
  - cbn [erase]. f_equal. symmetry. clear -Hf. induction Hf as [|u t us ts (_ & _ & E) Hf IH]; simpl; [done|].
    by rewrite E, IH.
Qed.

Lemma decodes_enum i ss : decodes_at (TEnum i ss).
Proof.
  intros td c fuel rest Hu Hwf Ha Hl. pose proof (universe_regular _ Hu) as [Hs Hn].
  start_case Hl fuel. rewrite decode_enum_eq by done. destruct (Z.ltb_spec MaxEnumSymbols (zlen ss)).
  { apply decodes_none; [done..|]. apply not_limits_decodable. simpl. lia. }
  apply decodes_lookup with (t0 := TEnum 0 ss); [by apply LookupTypeEnum_interns| |done..].
  intros t c2. apply lookup_or_enter_typedefs.
Qed.

Lemma decodes_map i k v : decodes_at k -> decodes_at v -> decodes_at (TMap i k v).
Proof.
  intros Hk Hv td c fuel rest Hu Hwf Ha Hl.
  pose proof (interned_components (U := U) _ Hu) as Hc. cbn [components] in Hc.
  inversion_clear Hc as [|?? HUk Hc']. inversion_clear Hc' as [|?? HUv _].
  start_case Hl fuel. rewrite decode_map_eq.
  eapply valid_bind.
  { eapply valid_impl; [apply (Hk td c fuel); [done..|lia]|apply not_decodable_component; by left|intros a c1 H1; exact H1]. }
  intros [[k' tv']|] c1 (Hw1 & Hg1 & Hr);
    [|apply decodes_none; [done..|]; by apply (not_decodable_component _ k); [left|]].
  destruct Hr as (-> & Ek & Hmk & Ha1). eapply valid_bind.
  { eapply valid_impl; [apply (Hv (appendTypeValue k td).2 c1 fuel); [done..|lia]
      |apply not_decodable_component; right; by left|intros a c2 H2; exact H2]. }
  intros [[v' tv']|] c2 (Hw2 & Hg2 & Hr);
    [|apply decodes_none; [done|by etrans|]; by apply (not_decodable_component _ v); [right; left|]].
  destruct Hr as (-> & Ev & Hmv & Ha2).
  apply decodes_lookup with (t0 := TMap 0 k' v'); [| |by etrans|done|].
  - apply LookupTypeMap_interns; [done|by eapply member_grows|done].
  - intros t c3. apply lookup_or_enter_typedefs.
  - cbn [erase]. by rewrite Ek, Ev.
Qed.

Lemma decodes_named i n t : decodes_at t -> decodes_at (TNamed i n t).
Proof.
  intros Ht td c fuel rest Hu Hwf Ha Hl. pose proof (universe_regular _ Hu) as Hs. cbn [regular] in Hs.
  pose proof (interned_components (U := U) _ Hu) as Hc. cbn [components] in Hc. inversion_clear Hc as [|?? HUt _].
  cbn [appendTypeValue] in *. case_decide as Hd.
  - cbn [fst snd] in *. destruct fuel as [|fuel]; [simpl in Hl; lia|]. rewrite <- app_comm_cons, decode_ref_eq by done.
    destruct (Ha n t Hd) as (j & t' & E & Et). rewrite E. split_and!; [done|done|done| | |done].
    + simpl. by rewrite Et.
    + by apply (wf_typedefs c Hwf) in E as [? _].
  - start_case Hl fuel. rewrite decode_def_eq by done. eapply valid_bind.
    { eapply valid_impl; [apply (Ht td c fuel); [done..|lia]|apply not_decodable_component; by left|intros a c1 H1; exact H1]. }
    intros [[t' tv']|] c1 (Hw1 & Hg1 & Hr);
      [|apply decodes_none; [done..|]; by apply (not_decodable_component _ t); [left|]].
    destruct Hr as (-> & Et & Hm & Ha1).
    destruct (LookupTypeNamed_interns c1 Hw1 n t' Hs Hm) as [Hbad Hgood].
    assert (Hnot : ~ lawful (TNamed i n t) -> ValidString n = false \/ LookupPrimitive n <> None).
    { simpl. intros Hn. destruct (ValidString n); [right|by left]. intros Hp. by apply Hn. }
    destruct (decide (ValidString n = true)) as [Hv|Hv], (decide (LookupPrimitive n = None)) as [Hp|Hp].
    2-4: destruct Hbad as [e E]; [destruct (ValidString n); tauto|];
      unfold mbind, M_bind; rewrite E; apply decodes_none; [done..|]; apply not_lawful_decodable; simpl; tauto.
    destruct (Hgood Hv Hp) as (u & c' & E & (Hr & Hm' & Hw & Hg) & Htd).
    unfold mbind, M_bind. rewrite E. split_and!; [done|by etrans|done| |done|].
    + rewrite Hr, erase_reid. simpl. by rewrite Et.
    + rewrite Hr in Htd. by apply (agrees_bind _ c1 _ _ _ (TypeID u) t').
Qed.

Lemma decodes u : decodes_at u.
Proof.
  induction u as [p|i fs IH|i a IH|i a IH|i k v IHk IHv|i ts IH|i ss|i a IH|i n a IH] using ty_ind.
  - apply decodes_prim.
  - by apply decodes_record.
  - intros td c fuel rest Hu Hwf Ha Hl. start_case Hl fuel. rewrite decode_array_eq.
    apply (decodes_inner _ _ _ (TArray 0)); [done|by left|done|done|done|lia|..].
    + intros. by apply LookupTypeArray_interns.
    + intros c1 t' r c2. apply lookup_or_enter_typedefs.
    + intros t' E. simpl. by rewrite E.
  - intros td c fuel rest Hu Hwf Ha Hl. start_case Hl fuel. rewrite decode_set_eq.
    apply (decodes_inner _ _ _ (TSet 0)); [done|by left|done|done|done|lia|..].
    + intros. by apply LookupTypeSet_interns.
    + intros c1 t' r c2. apply lookup_or_enter_typedefs.
    + intros t' E. simpl. by rewrite E.
  - by apply decodes_map.
  - by apply decodes_union.
  - apply decodes_enum.
  - intros td c fuel rest Hu Hwf Ha Hl. start_case Hl fuel. rewrite decode_error_eq.
    apply (decodes_inner _ _ _ (TError 0)); [done|by left|done|done|done|lia|..].
    + intros. by apply LookupTypeError_interns.
    + intros c1 t' r c2. apply LookupTypeError_typedefs.
    + intros t' E. simpl. by rewrite E.
  - by apply decodes_named.
Qed.
End universe.

(** ** Translation between contexts *)

Lemma DecodeTypeValue_sound tv c : wf c -> valid True (sound tv c) (DecodeTypeValue tv c).
Proof. intros. apply decode_type_value_sound; [lia|done]. Qed.

Lemma DecodeTypeValue_decodes U `{!Universe U} u rest c :
  U u -> wf c ->
  valid (~ decodable u) (decodes_to u rest (appendTypeValue u ∅).2 c) (DecodeTypeValue (EncodeTypeValue u ++ rest) c).
Proof.
  intros Hu Hwf. unfold DecodeTypeValue, EncodeTypeValue. apply (decodes U); [done|done| |].
  - intros n t Hn. by apply lookup_empty_Some in Hn.
  - rewrite length_app. lia.
Qed.

Lemma wf_bind_value c tv t :
  wf c -> member c t -> toType c !! tv = None \/ toType c !! tv = Some t ->
  (forall U u, Universe U -> U u -> EncodeTypeValue u = tv -> erase u = erase t) ->
  wf (bind_value tv t c).
Proof.
  intros Hwf Hm Hold Hkey. destruct Hwf as [H1 H2 H3 H4 H5 H6 H7 H8 H9 H10]. split; try done.
  - intros u Hu Hc. specialize (H5 u Hu Hc). simpl. destruct (decide (tv = EncodeTypeValue u)) as [->|Hne].
    + destruct Hold as [Hold|Hold]; [congruence|]. rewrite lookup_insert_eq. congruence.
    + by rewrite lookup_insert_ne.
  - intros tv' u. simpl. rewrite lookup_insert_Some. intros [[<- <-]|[_ Hu]]; [by split|by apply H6].
  - intros tv' u. cbn [bind_value toValue toType find_value]. case_decide as Hd.
    + intros [= <-]. subst u. apply lookup_insert_eq.
    + intros Hu%H8. rewrite lookup_insert_ne; [done|]. intros ->. destruct Hold; congruence.
  - intros tv' u. cbn [bind_value toType toValue find_value]. rewrite lookup_insert_Some. case_decide; [done|].
    intros [[_ ?]|[_ Hu]]; [done|]. by apply (H9 tv').
Qed.

(** [LookupByValue] of any bytes keeps the invariant; the type it returns is
    the one the bytes are bound to from then on. *)
Lemma LookupByValue_sound tv c :
  wf c ->
  valid True (fun r c' => wf c' /\ extends c c' /\
      match r with Some t => member c' t /\ toType c' !! tv = Some t | None => True end)
    (LookupByValue tv c).
Proof.
  intros Hwf. unfold LookupByValue. destruct (toType c !! tv) as [t|] eqn:E.
  { apply (wf_key c Hwf) in E as Hk. by destruct Hk. }
  pose proof (DecodeTypeValue_sound tv c Hwf) as Hs. pose proof (fun U (HU : Universe U) u Hu => DecodeTypeValue_decodes U u [] c Hu Hwf) as Hd.
  destruct (DecodeTypeValue tv c) as [[[[t rest]|] c1]| |] eqn:Ed; simpl; try done.
  2: { destruct Hs as (Hw & Hg & _). split_and!; [done|by apply grows_extends|done]. }
  destruct Hs as (Hw & Hg & Hm & _).
  assert (Hkey : forall U u, Universe U -> U u -> EncodeTypeValue u = tv -> erase u = erase t).
  { intros U u HU Hu He. specialize (Hd U HU u Hu). rewrite app_nil_r, He, Ed in Hd. by destruct Hd as (_ & _ & _ & ? & _). }
  split_and!.
  - apply wf_bind_value; [done..| |done]. destruct (toType c1 !! tv) as [t'|] eqn:E1; [right|by left].
    destruct Hg as [_ Hg]. apply Hg in E1 as He. rewrite E in He. destruct He as [He|He]; [done|]. f_equal.
    apply (wf_key c1 Hw) in E1 as [Hm' _]. apply (wf_erase c1 Hw); [done..|].
    pose proof (member_universe c1 Hw). by apply (Hkey (member c1)).
  - exact (grows_extends _ _ Hg).
  - intros Hc. exact (Hm Hc).
  - simpl. apply lookup_insert_eq.
Qed.

(** The type value of a type of any context finds its structure here. *)
Lemma LookupByValue_decodes U `{!Universe U} u c :
  U u -> wf c -> decodable u ->
  exists t c', LookupByValue (EncodeTypeValue u) c = Ok (Some t, c') /\
    wf c' /\ extends c c' /\ member c' t /\ erase t = erase u.
Proof.
  intros Hu Hwf Hd. pose proof (LookupByValue_sound (EncodeTypeValue u) c Hwf) as Hs.
  unfold LookupByValue in *. destruct (toType c !! EncodeTypeValue u) as [t|] eqn:E.
  { apply (wf_key c Hwf) in E as [Hm Hk]. exists t, c. split_and!; [done|done|done|done|]. by rewrite (Hk U u). }
  pose proof (DecodeTypeValue_decodes U u [] c Hu Hwf) as Hdec. rewrite app_nil_r in Hdec.
  destruct (DecodeTypeValue (EncodeTypeValue u) c) as [[[[t rest]|] c1]| |]; simpl in *; try done.
  - destruct Hs as (Hw & He & Hm & _). destruct Hdec as (_ & _ & _ & Het & _). by eexists _, _.
  - by destruct Hdec as (_ & _ & Hn).
Qed.

Lemma TranslateType_member c t :
  wf c -> member c t -> is_complex t = true -> TranslateType t c = Ok (Some t, c).
Proof.
  intros Hwf Hm Hc. unfold TranslateType, LookupByValue. by rewrite (wf_canon c Hwf).
Qed.

(** A type of any context has a type value here, whose type has its structure. *)
Lemma LookupTypeValue_foreign U `{!Universe U} u c :
  U u -> wf c -> decodable u -> find_value u (toValue c) = None ->
  exists tv t c', LookupTypeValue u c = Ok (Some tv, c') /\ wf c' /\ extends c c' /\
    erase t = erase u /\ LookupByValue tv c' = Ok (Some t, c').
Proof.
  intros Hu Hwf Hd Hf. destruct (LookupByValue_decodes U u c Hu Hwf Hd) as (t & c' & E & Hw & He & Hm & Het).
  pose proof (LookupByValue_sound (EncodeTypeValue u) c Hwf) as Hs. rewrite E in Hs. destruct Hs as (_ & _ & _ & Ht).
  destruct (wf_value_full c' Hw _ t Ht) as [tv Htv]. exists tv, t, c'.
  assert (LookupTypeValue u c = Ok (Some tv, c')) as ->.
  { unfold LookupTypeValue. cbn [lookup_type_value]. rewrite Hf, E. simpl. by rewrite Htv. }
  split_and!; [done..|]. unfold LookupByValue. by rewrite (wf_value c' Hw tv t).
Qed.

(** A member's type value, looked up, is the member. *)
Lemma LookupTypeValue_member c t :
  wf c -> member c t -> is_complex t = true ->
  exists tv, LookupTypeValue t c = Ok (Some tv, c) /\ LookupByValue tv c = Ok (Some t, c).
Proof.
  intros Hwf Hm Hc. destruct (wf_value_full c Hwf _ t (wf_canon c Hwf t Hm Hc)) as [tv Htv]. exists tv. split.
  - unfold LookupTypeValue. simpl. by rewrite Htv.
  - unfold LookupByValue. by rewrite (wf_value c Hwf tv t).
Qed.

(** ** Reachable contexts *)

Inductive ctx_op :=
| CRecord (fs : list field) | CSet (t : ty) | CArray (t : ty) | CMap (k v : ty) | CUnion (ts : list ty)
| CEnum (ss : list gostring) | CNamed (n : gostring) (t : ty) | CError (t : ty) | CStringError
| CDecode (tv : list byte) | CByValue (tv : list byte) | CTypeValue (t : ty).

Definition ctx_run (o : ctx_op) : M unit :=
  match o with
  | CRecord fs => LookupTypeRecord fs ≫= fun _ => mret tt
  | CSet t => LookupTypeSet t ≫= fun _ => mret tt
  | CArray t => LookupTypeArray t ≫= fun _ => mret tt
  | CMap k v => LookupTypeMap k v ≫= fun _ => mret tt
  | CUnion ts => LookupTypeUnion ts ≫= fun _ => mret tt
  | CEnum ss => LookupTypeEnum ss ≫= fun _ => mret tt
  | CNamed n t => LookupTypeNamed n t ≫= fun _ => mret tt
  | CError t => LookupTypeError t ≫= fun _ => mret tt
  | CStringError => StringTypeError ≫= fun _ => mret tt
  | CDecode tv => DecodeTypeValue tv ≫= fun _ => mret tt
  | CByValue tv => LookupByValue tv ≫= fun _ => mret tt
  | CTypeValue t => LookupTypeValue t ≫= fun _ => mret tt
  end.

(** What the comments of the source ask of a caller: the types passed are
    types of the context; and what Go gives: lengths are [int]s. *)
Definition ctx_args (c : Context) (o : ctx_op) : Prop :=
  match o with
  | CRecord fs => short fs /\ Forall (fun f => short f.1) fs /\ Forall (fun f => member c f.2) fs
  | CSet t | CArray t | CError t => member c t
  | CMap k v => member c k /\ member c v
  | CUnion ts => short ts /\ Forall (member c) ts
  | CEnum ss => short ss /\ Forall short ss
  | CNamed n t => short n /\ member c t
  | CStringError | CDecode _ | CByValue _ | CTypeValue _ => True
  end.

(** Calls that each complete before the next starts, by callers that hold types
    of the context: [LookupByValue], [DecodeTypeValue] and [LookupTypeValue]
    release the lock, and no other call runs meanwhile; the context is not
    [Reset].  Goroutines.v drops both conditions. *)
Inductive ctx_step (c : Context) : Context -> Prop :=
| ctx_step_run o c' : ctx_args c o -> ctx_run o c = Ok (tt, c') -> ctx_step c c'.

Lemma valid_unit {A} p (m : M A) c (Q : Context -> Prop) :
  valid p (fun _ c' => Q c') (m c) -> valid p (fun _ c' => Q c') ((m ≫= fun _ => mret tt) c).
Proof. intros H. eapply valid_bind; [exact H|]. by intros. Qed.

Lemma interns_extends {A} (m : M A) p c t0 :
  (exists a u c', m c = Ok (a, c') /\ interns c t0 u c') ->
  valid p (fun _ c' => wf c' /\ extends c c') (m c).
Proof. intros (a & u & c' & -> & _ & _ & Hw & Hg). split; [done|by apply grows_extends]. Qed.

Lemma LookupTypeValue_sound t c :
  wf c -> valid True (fun _ c' => wf c' /\ extends c c') (LookupTypeValue t c).
Proof.
  intros Hwf. unfold LookupTypeValue. cbn [lookup_type_value].
  destruct (find_value t (toValue c)); [done|].
  pose proof (LookupByValue_sound (EncodeTypeValue t) c Hwf) as Hs.
  destruct (LookupByValue (EncodeTypeValue t) c) as [[[u|] c']| |]; simpl; try done; destruct Hs as (Hw & He & Hu); [|done].
  destruct Hu as [_ Hu]. by destruct (wf_value_full c' Hw _ u Hu) as [tv ->].
Qed.

(** Every call keeps the invariant, returns, and drops no type. *)
Lemma ctx_run_sound o c :
  wf c -> ctx_args c o -> valid True (fun _ c' => wf c' /\ extends c c') (ctx_run o c).
Proof.
  intros Hwf Ha. destruct o as [fs|t|t|k v|ts|ss|n t|t| |tv|tv|t]; cbn [ctx_run ctx_args] in *;
    apply valid_unit with (Q := fun c' => wf c' /\ extends c c').
  - destruct Ha as (H1 & H2 & H3). pose proof (LookupTypeRecord_interns c Hwf fs H1 H2 H3) as Hi.
    destruct (duplicateField fs); [by rewrite Hi|]. destruct Hi as (u & c' & E & Hi).
    apply (interns_extends _ _ _ (TRecord 0 fs)). eauto.
  - destruct (LookupTypeSet_interns c Hwf t Ha) as (u & c' & Hi). eapply interns_extends. eauto.
  - destruct (LookupTypeArray_interns c Hwf t Ha) as (u & c' & Hi). eapply interns_extends. eauto.
  - destruct (LookupTypeMap_interns c Hwf k v (proj1 Ha) (proj2 Ha)) as (u & c' & Hi). eapply interns_extends. eauto.
  - destruct (LookupTypeUnion_interns c Hwf ts (proj1 Ha) (proj2 Ha)) as (u & c' & Hi). eapply interns_extends. eauto.
  - destruct (LookupTypeEnum_interns c Hwf ss (proj1 Ha) (proj2 Ha)) as (u & c' & Hi). eapply interns_extends. eauto.
  - destruct (LookupTypeNamed_interns c Hwf n t (proj1 Ha) (proj2 Ha)) as [Hbad Hgood].
    destruct (ValidString n) eqn:Hv; [|by destruct Hbad as [e ->]; [left|]].
    destruct (LookupPrimitive n) eqn:Hp; [by destruct Hbad as [e ->]; [right|]|].
    destruct Hgood as (u & c' & E & Hi & _); [done..|]. eapply interns_extends. eauto.
  - destruct (LookupTypeError_interns c Hwf t Ha) as (u & c' & Hi). eapply interns_extends. eauto.
  - destruct (StringTypeError_interns c Hwf) as (u & c' & Hi). eapply interns_extends. eauto.
  - eapply valid_impl; [by apply DecodeTypeValue_sound|done|]. intros _ c' (? & ? & _). split; [done|by apply grows_extends].
  - eapply valid_impl; [by apply LookupByValue_sound|done|]. by intros _ c' (? & ? & _).
  - by apply LookupTypeValue_sound.
Qed.

Lemma ctx_steps_wf c c' : rtc ctx_step c c' -> wf c -> wf c' /\ extends c c'.
Proof.
  induction 1 as [c|c c1 c' Hstep _ IH]; intros Hwf; [done|]. destruct Hstep as [o c1 Ha E].
  pose proof (ctx_run_sound o c Hwf Ha) as Hs. rewrite E in Hs. destruct Hs as [Hw He].
  destruct (IH Hw). split; [done|by etrans].
Qed.

(** ** The structure of a type in a context *)

Lemma member_decodable_translate c1 c2 t :
  wf c1 -> wf c2 -> member c1 t -> decodable t ->
  exists t' c2', TranslateType t c2 = Ok (Some t', c2') /\ wf c2' /\ extends c2 c2' /\ member c2' t' /\ erase t' = erase t.
Proof. intros H1 H2 Hm Hd. pose proof (member_universe c1 H1). by apply (LookupByValue_decodes (member c1)). Qed.

Lemma decodable_erase t u : erase t = erase u -> decodable u -> decodable t.
Proof.
  revert u. unfold decodable.
  assert (Hl : forall t u, erase t = erase u -> lawful u /\ within_limits u -> lawful t /\ within_limits t).
  { intros x u E. destruct x, u; try discriminate E; simpl; intros [H1 H2]; try done.
    - injection E as E. apply (f_equal length) in E as E'. rewrite !length_map in E'.
      split; [|unfold zlen in *; by rewrite E']. rewrite <- H1. apply duplicateField_names. by apply erase_fields_names.
    - injection E as E. apply (f_equal length) in E. rewrite !length_map in E. unfold zlen in *. by rewrite E.
    - injection E as ->. done.
    - injection E as -> _. done. }
  induction t as [p|i fs IH|i t IH|i t IH|i k v IHk IHv|i ts IH|i ss|i t IH|i n t IH] using ty_ind;
    intros u E [Hd Hc]%hereditary_components; apply hereditary_components; (split; [by eapply Hl|]);
    destruct u as [q|j gs|j u|j u|j k' v'|j us|j ss'|j u|j m u]; try discriminate E; cbn [components] in *.
  - constructor.
  - injection E as E. rewrite Forall_map in Hc |- *. clear Hd. revert gs E Hc.
    induction IH as [|[n t] fs Ht _ IH]; intros [|[m u] gs]; try done. simpl. intros [= E1 E2 E] Hc. inversion_clear Hc.
    constructor; [by eapply Ht|by eapply IH].
  - injection E as E. inversion_clear Hc. constructor; [by eapply IH|constructor].
  - injection E as E. inversion_clear Hc. constructor; [by eapply IH|constructor].
  - injection E as E1 E2. inversion_clear Hc as [|? ? H1 H2]. inversion_clear H2.
    constructor; [by eapply IHk|constructor; [by eapply IHv|constructor]].
  - injection E as E. clear Hd. revert us E Hc.
    induction IH as [|t ts Ht _ IH]; intros [|u us]; try done. simpl. intros [= E1 E] Hc. inversion_clear Hc.
    constructor; [by eapply Ht|by eapply IH].
  - constructor.
  - injection E as E. inversion_clear Hc. constructor; [by eapply IH|constructor].
  - injection E as E1 E. inversion_clear Hc. constructor; [by eapply IH|constructor].
Qed.

(** ** What the callers of a context rely on *)

(** C2: a type translated to another context and the result translated back is
    the type; the translation has the structure of the original. Each context
    was reached by calls that completed one before the next, and the type is
    one the decoder accepts: no record in it has more than MaxRecordFields
    fields, no union more than MaxUnionTypes types and no enum more than
    MaxEnumSymbols symbols (the lookups enter larger ones, which then do not
    translate). *)
Theorem translate_roundtrip c1 c2 t :
  rtc ctx_step NewContext c1 -> rtc ctx_step NewContext c2 -> member c1 t -> decodable t ->
  exists t' c2', TranslateType t c2 = Ok (Some t', c2') /\ member c2' t' /\ erase t' = erase t /\
    exists c1', TranslateType t' c1 = Ok (Some t, c1').
Proof.
  intros [H1 _]%ctx_steps_wf [H2 _]%ctx_steps_wf Hm Hd; [|apply NewContext_wf..].
  destruct (member_decodable_translate c1 c2 t H1 H2 Hm Hd) as (t' & c2' & E & Hw & _ & Hm' & He).
  exists t', c2'. split_and!; [done..|].
  destruct (member_decodable_translate c2' c1 t' Hw H1 Hm' (decodable_erase _ _ He Hd)) as (t'' & c1' & E' & Hw' & Hex & Hm'' & He').
  exists c1'. rewrite E'. repeat f_equal. apply (wf_erase c1' Hw'); [done|by eapply member_extends|congruence].
Qed.

Lemma translate_roundtrip_witness :
  exists c1 c2 t t' c2', TranslateType t c2 = Ok (Some t', c2') /\ t' <> t /\
    exists c1', TranslateType t' c1 = Ok (Some t, c1').
Proof.
  set (run := fun o c => match ctx_run o c with Ok (_, c) => c | _ => NewContext end).
  set (c1 := run (CSet (TPrim Int64)) NewContext). set (c2 := run (CArray (TPrim Int64)) NewContext).
  set (t := TSet 30 (TPrim Int64)).
  assert (H1 : rtc ctx_step NewContext c1) by (apply rtc_once; by apply (ctx_step_run _ (CSet (TPrim Int64)))).
  assert (H2 : rtc ctx_step NewContext c2) by (apply rtc_once; by apply (ctx_step_run _ (CArray (TPrim Int64)))).
  assert (Hm : member c1 t) by by intros _.
  assert (Hd : decodable t) by by repeat split.
  exists c1, c2, t. destruct (translate_roundtrip c1 c2 t H1 H2 Hm Hd) as (t' & c2' & E & _ & _ & Hb).
  exists t', c2'. split; [exact E|]. split; [|exact Hb]. intros ->. vm_compute in E. discriminate E.
Defined.

(** [DecodeTypeValue] terminates on every input, in every context reached
    by calls that completed one before the next: it returns a type and a rest,
    or returns nil, or panics, as it does on a truncated union and on a
    negative length. When it returns, all structures of the context are
    interned and no type was dropped; the type is one of the context and the
    rest strictly shorter. *)
Theorem DecodeTypeValue_total c tv :
  rtc ctx_step NewContext c ->
  match DecodeTypeValue tv c with
  | Ok (r, c') => wf c' /\ extends c c' /\
      match r with Some (t, rest) => member c' t /\ (length rest < length tv)%nat | None => True end
  | Err Diverge => False
  | Panic => True
  end.
Proof.
  intros [Hw _]%ctx_steps_wf; [|apply NewContext_wf]. pose proof (DecodeTypeValue_sound tv c Hw) as Hs.
  destruct (DecodeTypeValue tv c) as [[r c']|[]|]; try done. destruct Hs as (? & Hg & ?).
  split_and!; [done|by apply grows_extends|done].
Qed.

Lemma DecodeTypeValue_total_witness :
  exists tv, match DecodeTypeValue tv NewContext with
             | Ok (Some (t, rest), c') => wf c' /\ t = TSet 30 (TPrim Int64) /\ rest = [zb 7]
             | _ => False end.
Proof.
  exists [zb 32; zb 9; zb 7]. pose proof (DecodeTypeValue_total NewContext [zb 32; zb 9; zb 7] (rtc_refl _ _)) as H.
  split; [apply H|]. by vm_compute.
Defined.



(** C37: [LookupTypeRecord], in a context reached by calls that completed one
    before the next, given types of the context: when two fields have the same
    name it returns the error for a name that is repeated and leaves the
    context as it is; when the names are distinct it returns the record of
    exactly these fields, and asking again returns the same one. *)
Theorem LookupTypeRecord_spec c fs :
  rtc ctx_step NewContext c -> ctx_args c (CRecord fs) ->
  (~ NoDup (map fst fs) -> exists n, LookupTypeRecord fs c = Ok (inl (DuplicateFieldError n), c) /\
      (2 <= length (filter (eq n) (map fst fs)))%nat) /\
  (NoDup (map fst fs) -> exists i c', LookupTypeRecord fs c = Ok (inr (TRecord i fs), c') /\ member c' (TRecord i fs) /\
      LookupTypeRecord fs c' = Ok (inr (TRecord i fs), c')).
Proof.
  intros [Hw _]%ctx_steps_wf (Hs & Hn & Hm); [|apply NewContext_wf].
  pose proof (LookupTypeRecord_interns c Hw fs Hs Hn Hm) as Hi. rewrite <- duplicateField_None.
  destruct (duplicateField fs) as [n|] eqn:Ed; (split; intros H; try done).
  { exists n. split; [done|]. by apply duplicateField_Some. }
  destruct Hi as (u & c' & E & Hr & Hu & Hw' & Hg). cbn [reid] in Hr. rewrite Hr in E, Hu. exists (TypeID u), c'.
  split_and!; [done|exact Hu|]. unfold LookupTypeRecord.
  assert (He : EncodeTypeValue (TRecord 0 fs) = EncodeTypeValue (TRecord (TypeID u) fs)) by reflexivity.
  by rewrite He, (wf_canon c' Hw').
Qed.

Lemma LookupTypeRecord_spec_witness :
  (exists n, LookupTypeRecord [(str "a", TPrim Int64); (str "a", TPrim String)] NewContext =
    Ok (inl (DuplicateFieldError n), NewContext)) /\
  exists i c', LookupTypeRecord [(str "a", TPrim Int64)] NewContext = Ok (inr (TRecord i [(str "a", TPrim Int64)]), c') /\
    member c' (TRecord i [(str "a", TPrim Int64)]) /\
    LookupTypeRecord [(str "a", TPrim Int64)] c' = Ok (inr (TRecord i [(str "a", TPrim Int64)]), c').
Proof.
  assert (Hp : forall p : primitive, member NewContext (TPrim p)) by done.
  split.
  - destruct (LookupTypeRecord_spec NewContext [(str "a", TPrim Int64); (str "a", TPrim String)] (rtc_refl _ _)) as [H _].
    + split; [done|]. split; repeat (apply Forall_cons_2; [done|]); apply Forall_nil_2.
    + destruct H as (n & E & _); [|by exists n]. by intros [Hn _]%NoDup_cons; destruct Hn; left.
  - destruct (LookupTypeRecord_spec NewContext [(str "a", TPrim Int64)] (rtc_refl _ _)) as [_ H].
    + split; [done|]. split; repeat (apply Forall_cons_2; [done|]); apply Forall_nil_2.
    + apply H, NoDup_singleton.
Defined.

Lemma lookup_union_again c t ts ks :
  wf c -> member c t -> t = TUnion (TypeID t) (sort_types ts) -> sort_types ks = sort_types ts ->
  LookupTypeUnion ks c = Ok (t, c).
Proof.
  intros Hw Hm Ht Hks. unfold LookupTypeUnion, lookup_or_enter. rewrite Hks.
  assert (He : EncodeTypeValue (TUnion 0 (sort_types ts)) = EncodeTypeValue t) by (rewrite Ht; reflexivity).
  rewrite He, (wf_canon c Hw t Hm) by (by rewrite Ht). by rewrite Ht.
Qed.

(** the union of a list of types does not depend on the order in which they
    are given, when no name names a named type: a permutation of the list
    finds the same union. *)
Theorem LookupTypeUnion_order c ts ks :
  rtc ctx_step NewContext c -> ctx_args c (CUnion ts) -> Forall flat ts -> ts ≡ₚ ks ->
  exists t c', LookupTypeUnion ts c = Ok (t, c') /\ LookupTypeUnion ks c' = Ok (t, c').
Proof.
  intros [Hw _]%ctx_steps_wf [Hs Hm] Hf Hp; [|apply NewContext_wf].
  destruct (LookupTypeUnion_interns c Hw ts Hs Hm) as (t & c' & E & Ht & Hmt & Hw' & Hg). exists t, c'. split; [done|].
  apply (lookup_union_again c' t ts ks Hw' Hmt Ht). pose proof (member_universe c Hw).
  symmetry. apply (sort_types_perm_eq (member c)); [|done]. apply Forall_and. by split.
Qed.

Lemma LookupTypeUnion_order_witness :
  exists t c', LookupTypeUnion [TPrim String; TPrim Int64] NewContext = Ok (t, c') /\
               LookupTypeUnion [TPrim Int64; TPrim String] c' = Ok (t, c').
Proof.
  apply (LookupTypeUnion_order NewContext [TPrim String; TPrim Int64] [TPrim Int64; TPrim String] (rtc_refl _ _)).
  - split; [done|]. repeat (apply Forall_cons_2; [done|]); apply Forall_nil_2.
  - repeat (apply Forall_cons_2; [done|]); apply Forall_nil_2.
  - apply perm_swap.
Defined.

(** for a complex type of a reachable context, [LookupTypeValue] returns a
    type value that [LookupByValue] maps to that very type, and neither
    changes the context. *)
Theorem LookupTypeValue_roundtrip c t :
  rtc ctx_step NewContext c -> member c t -> is_complex t = true ->
  exists tv, LookupTypeValue t c = Ok (Some tv, c) /\ LookupByValue tv c = Ok (Some t, c).
Proof. intros [Hw _]%ctx_steps_wf Hm Hc; [|apply NewContext_wf]. by apply LookupTypeValue_member. Qed.

Lemma LookupTypeValue_roundtrip_witness :
  exists c t tv, LookupTypeValue t c = Ok (Some tv, c) /\ LookupByValue tv c = Ok (Some t, c).
Proof.
  set (c := match ctx_run (CSet (TPrim Int64)) NewContext with Ok (_, c) => c | _ => NewContext end).
  exists c, (TSet 30 (TPrim Int64)). apply (LookupTypeValue_roundtrip c (TSet 30 (TPrim Int64))).
  - apply rtc_once. by apply (ctx_step_run _ (CSet (TPrim Int64))).
  - by intros _.
  - reflexivity.
Defined.

(** ** Behaviour on hostile input and under interleaving *)

(** A truncated union type value makes [DecodeTypeValue] panic: the nil type
    of the missing component is not tested for. *)
Theorem truncated_union_panics : LookupByValue [zb TypeValueUnion; zb 1] NewContext = Panic.
Proof. by vm_compute. Qed.

(** A name length that is negative as an [int] makes [DecodeName] panic. *)
Theorem negative_name_panics :
  LookupByValue (zb TypeValueNameDef :: uvarint_bytes (2 ^ 64 - 1)) NewContext = Panic.
Proof. by vm_compute. Qed.

(** [LookupByValue] accepts bytes after the type and then binds the type to
    them: the type value of [int64] now carries the trailing byte. *)
Theorem trailing_bytes_kept :
  exists c, LookupByValue [zb 9; zb 99] NewContext = Ok (Some (TPrim Int64), c) /\
            LookupTypeValue (TPrim Int64) c = Ok (Some [zb 9; zb 99], c).
Proof.
  set (c := match LookupByValue [zb 9; zb 99] NewContext with Ok (_, c) => c | _ => NewContext end).
  exists c. split; vm_compute; reflexivity.
Qed.

(** [Reset] keeps the cached string error, whose id the context then gives to
    another type. *)
Theorem Reset_keeps_stringErr :
  exists c t u c1 c2, StringTypeError NewContext = Ok (t, c) /\
    LookupTypeSet (TPrim Int64) (Reset c) = Ok (u, c1) /\ StringTypeError c1 = Ok (t, c2) /\
    TypeID t = TypeID u /\ t <> u.
Proof.
  set (c := match StringTypeError NewContext with Ok (_, c) => c | _ => NewContext end).
  set (c1 := match LookupTypeSet (TPrim Int64) (Reset c) with Ok (_, c) => c | _ => NewContext end).
  exists c, (TError 30 (TPrim String)), (TSet 30 (TPrim Int64)), c1, c1.
  split_and!; vm_compute; (reflexivity || discriminate).
Qed.

(** The typedefs of the context are shared: when another goroutine binds a name
    between a definition and a reference of one type value, the reference finds
    the other goroutine's type.  Here [foo=int64] is defined, another call
    defines [foo=string], and the reference to [foo] finds the latter. *)
Theorem typedefs_race :
  exists t c1 u c2, LookupTypeNamed (str "foo") (TPrim Int64) NewContext = Ok (inr t, c1) /\
    LookupTypeNamed (str "foo") (TPrim String) c1 = Ok (inr u, c2) /\
    LookupTypeDef (str "foo") c2 = Ok (Some u, c2) /\ erase u <> erase t.
Proof.
  set (c1 := match LookupTypeNamed (str "foo") (TPrim Int64) NewContext with Ok (_, c) => c | _ => NewContext end).
  set (c2 := match LookupTypeNamed (str "foo") (TPrim String) c1 with Ok (_, c) => c | _ => NewContext end).
  exists (TNamed 30 (str "foo") (TPrim Int64)), c1, (TNamed 31 (str "foo") (TPrim String)), c2.
  split_and!; vm_compute; (reflexivity || discriminate).
Qed.
