(* ===== verification/Goroutines.v ===== *)
(** * Goroutines that share a context

    [src/context.go] locks [mu] around each lookup, but [LookupByValue],
    [DecodeTypeValue] and [LookupTypeValue] release and retake it: other
    goroutines run in between, rebind the names of typedefs, and the binding
    that ends [LookupByValue] may store a type under bytes that mean another
    type ([Decode.typedefs_race]).  Here a step is one locked section, of any
    goroutine, and [Reset] is a step too.  What survives every interleaving is
    that a structure has one type. *)

From S2P Require Import Prelude Zcode Types Context Interning Decode.
Local Open Scope Z_scope.

(** ** Locked sections *)

(** The operations that are one locked section; the others are sequences of
    them ([operations_are_sections]). *)
Definition one_section (o : ctx_op) : bool :=
  match o with CStringError | CDecode _ | CByValue _ | CTypeValue _ => false | _ => true end.

(** A lookup, or the binding that ends [LookupByValue]: of whatever type the
    decoder returned, to whatever bytes it was asked about. *)
Inductive locked_step (c : Context) : Context -> Prop :=
| locked_lookup o c' : one_section o = true -> ctx_args c o -> ctx_run o c = Ok (tt, c') -> locked_step c c'
| locked_bind tv t : member c t -> locked_step c (bind_value tv t c).

Inductive section_step (c : Context) : Context -> Prop :=
| section_locked c' : locked_step c c' -> section_step c c'
| section_Reset : section_step c (Reset c).

(** ** What every section keeps *)

Record kept (c : Context) : Prop := {
  kept_base : base c;
  kept_canon t : member c t -> is_complex t = true -> is_Some (toType c !! EncodeTypeValue t);
  kept_key tv t : toType c !! tv = Some t -> member c t;
  kept_typedefs n t : typedefs c !! n = Some t -> member c t;
}.

Lemma wf_kept c : wf c -> kept c.
Proof.
  intros Hw. split; [by apply wf_base|..].
  - intros t Hm Hc. exists t. by apply wf_canon.
  - intros tv t Ht. by apply (wf_key c Hw) in Ht as [? _].
  - intros n t Ht. by apply (wf_typedefs c Hw) in Ht as [? _].
Qed.

Lemma kept_Reset c : kept c -> kept (Reset c).
Proof.
  intros [Hb _ _ _]. pose proof (base_length c Hb) as Hl.
  assert (Hn : forall n t, byID (Reset c) !! n <> Some (Some t)).
  { intros n t Ht. cbn [byID Reset] in Ht. apply lookup_take_Some in Ht as [Ht Hn].
    rewrite (base_prefix c Hb) in Ht by done. done. }
  assert (Hm : forall t, member (Reset c) t -> is_complex t = false).
  { intros t Ht. destruct (is_complex t) eqn:Hc; [|done]. destruct (Ht Hc) as [_ H]. by apply Hn in H. }
  split; [split|..].
  - intros n Hn30. cbn [byID Reset]. rewrite lookup_take_lt by done. by apply (base_prefix c Hb).
  - intros n t Ht. by apply Hn in Ht.
  - intros a b Ha%Hm Hb'%Hm E. destruct a, b; done.
  - intros t Ht%Hm Hc. congruence.
  - done.
  - done.
Qed.

Section kept.
Context (c : Context) (Hk : kept c).

Lemma kept_bind tv t : member c t -> kept (bind_value tv t c).
Proof.
  intros Hm. destruct Hk as [[H1 H2 H3] H4 H5 H6]. split; [by split| | |done].
  - intros u Hu Hc. cbn [bind_value toType]. rewrite lookup_insert_is_Some. destruct (decide (tv = EncodeTypeValue u)); [by left|].
    right. by split; [|apply H4].
  - intros tv' u. cbn [bind_value toType]. intros [[_ <-]|[_ Hu]]%lookup_insert_Some; [done|by apply (H5 tv')].
Qed.

Lemma kept_bind_typedef n t : member c t -> kept (bind_typedef n t c).
Proof.
  intros Hm. destruct Hk as [[H1 H2 H3] H4 H5 H6]. split; [by split|done|done|].
  intros m u. cbn [bind_typedef typedefs]. intros [[_ <-]|[_ Hu]]%lookup_insert_Some; [done|by apply (H6 m)].
Qed.

Lemma kept_set_stringErr t : kept (set_stringErr t c).
Proof. by destruct Hk as [[H1 H2 H3] H4 H5 H6]. Qed.

(** The body of the lookups: whatever is bound to the structure's bytes, or a
    fresh type.  A structure is entered only when no type has it, because a
    type's own bytes stay bound. *)
Lemma kept_lookup t0 :
  is_complex t0 = true -> Forall (member c) (components t0) -> regular t0 -> lawful t0 ->
  match toType c !! EncodeTypeValue t0 with
  | Some b => member c b
  | None => let c' := enterWithLock (EncodeTypeValue t0) (fresh c t0) c in kept c' /\ extends c c' /\ member c' (fresh c t0)
  end.
Proof.
  intros Hc Hcomp Hreg Hlaw. destruct (toType c !! EncodeTypeValue t0) as [b|] eqn:E; [by apply (kept_key c Hk (EncodeTypeValue t0))|].
  pose proof (kept_base c Hk) as Hb.
  assert (Hnh : ~ held c t0).
  { intros (b & Hm & He). pose proof (base_held c Hb t0 Hcomp b Hm He) as Hr.
    destruct (kept_canon c Hk b Hm) as [x Hx]; [by rewrite Hr, complex_reid|].
    rewrite Hr, Encode_reid in Hx. congruence. }
  assert (Hme : forall t, member (enterWithLock (EncodeTypeValue t0) (fresh c t0) c) t <-> extended c t0 t)
    by (intros; by apply member_enter).
  assert (Hg : extends c (enterWithLock (EncodeTypeValue t0) (fresh c t0) c)) by by eexists.
  split_and!; [|done|apply Hme; by right]. split; [by apply base_enter|..].
  - intros t Ht%Hme Hct. cbn [enterWithLock toType]. apply lookup_insert_is_Some.
    destruct (decide (EncodeTypeValue t0 = EncodeTypeValue t)); [by left|]. right. split; [done|].
    destruct Ht as [Ht| ->]; [by apply (kept_canon c Hk)|]. unfold fresh in *. by rewrite Encode_reid in *.
  - intros tv t. cbn [enterWithLock toType]. intros [[_ <-]|[_ Ht]]%lookup_insert_Some; apply Hme; [by right|].
    left. by apply (kept_key c Hk tv).
  - intros n t Ht. apply Hme. left. by apply (kept_typedefs c Hk n).
Qed.
End kept.

(** ** Computations made of sections *)

(** What a computation that starts in [c] does when it returns. *)
Definition runs {A} (c : Context) (r : outcome diverge (A * Context)) (Q : A -> Context -> Prop) : Prop :=
  match r with
  | Ok (a, c') => rtc locked_step c c' /\ kept c' /\ extends c c' /\ Q a c'
  | _ => True
  end.

Lemma runs_bind {A B} (m : M A) (f : A -> M B) c Q Q' :
  runs c (m c) Q ->
  (forall a c1, kept c1 -> extends c c1 -> Q a c1 -> runs c1 (f a c1) Q') -> runs c ((m ≫= f) c) Q'.
Proof.
  unfold mbind, M_bind. destruct (m c) as [[a c1]| |]; simpl; try done. intros (Hr & Hk & He & Hq) Hf.
  specialize (Hf a c1 Hk He Hq). destruct (f a c1) as [[b c2]| |]; try done. destruct Hf as (Hr2 & Hk2 & He2 & Hq2).
  split_and!; [by etrans|done|by etrans|done].
Qed.
Lemma runs_ret {A} (a : A) c (Q : A -> Context -> Prop) : kept c -> Q a c -> runs c (Ok (a, c)) Q.
Proof. by intros; split_and!. Qed.
Lemma runs_impl {A} c (r : outcome diverge (A * Context)) Q Q' :
  runs c r Q -> (forall a c', Q a c' -> Q' a c') -> runs c r Q'.
Proof. destruct r as [[a c']| |]; try done. intros (? & ? & ? & ?) Hq. split_and!; auto. Qed.

(** One section. *)
Lemma runs_section {A} (m : M A) c o (Q : A -> Context -> Prop) :
  one_section o = true -> ctx_args c o -> ctx_run o = (m ≫= fun _ => mret tt) ->
  match m c with Ok (a, c') => kept c' /\ extends c c' /\ Q a c' | _ => True end -> runs c (m c) Q.
Proof.
  intros Ho Ha E Hm. destruct (m c) as [[a c']| |] eqn:Em; try done. destruct Hm as (Hk & He & Hq).
  split_and!; [|done..]. apply rtc_once, (locked_lookup _ o); [done..|]. rewrite E. unfold mbind, M_bind. by rewrite Em.
Qed.

Local Abbreviation returns_member := (fun t c' => member c' t).

Section lookups.
Context (c : Context) (Hk : kept c).

Lemma kept_or_enter t0 assert_kind mk :
  is_complex t0 = true -> Forall (member c) (components t0) -> regular t0 -> lawful t0 -> (forall i, mk i = reid i t0) ->
  match lookup_or_enter (EncodeTypeValue t0) assert_kind mk c with
  | Ok (t, c') => kept c' /\ extends c c' /\ member c' t
  | _ => True
  end.
Proof.
  intros H1 H2 H3 H4 Hmk. pose proof (kept_lookup c Hk t0 H1 H2 H3 H4) as H. unfold lookup_or_enter.
  destruct (toType c !! _) as [b|]; [by destruct (assert_kind b)|]. rewrite Hmk. exact H.
Qed.

Lemma LookupTypeSet_runs t : member c t -> runs c (LookupTypeSet t c) returns_member.
Proof.
  intros Hm. apply (runs_section _ _ (CSet t)); [done..|]. apply kept_or_enter; [done| |done..]. by constructor.
Qed.
Lemma LookupTypeArray_runs t : member c t -> runs c (LookupTypeArray t c) returns_member.
Proof.
  intros Hm. apply (runs_section _ _ (CArray t)); [done..|]. apply kept_or_enter; [done| |done..]. by constructor.
Qed.
Lemma LookupTypeMap_runs k v : member c k -> member c v -> runs c (LookupTypeMap k v c) returns_member.
Proof.
  intros Hm Hv. apply (runs_section _ _ (CMap k v)); [done..|]. apply kept_or_enter; [done| |done..].
  constructor; [done|by constructor].
Qed.
Lemma LookupTypeUnion_runs ts : short ts -> Forall (member c) ts -> runs c (LookupTypeUnion ts c) returns_member.
Proof.
  intros Hs Hm. apply (runs_section _ _ (CUnion ts)); [done..|]. apply kept_or_enter; [done| | |done..].
  - simpl. unfold sort_types. by rewrite stable_sort_perm.
  - split; [|apply sort_types_idemp]. unfold short, zlen, sort_types in *. by rewrite length_stable_sort.
Qed.
Lemma LookupTypeEnum_runs ss : short ss -> Forall short ss -> runs c (LookupTypeEnum ss c) returns_member.
Proof. intros. apply (runs_section _ _ (CEnum ss)); [done..|]. by apply kept_or_enter. Qed.
Lemma LookupTypeError_runs t : member c t -> runs c (LookupTypeError t c) returns_member.
Proof.
  intros Hm. apply (runs_section _ _ (CError t)); [done..|].
  pose proof (kept_lookup c Hk (TError 0 t) eq_refl ltac:(by constructor) I I) as H. unfold LookupTypeError.
  destruct (toType c !! _) as [b|]; [by destruct (is_kind _ b)|]. destruct H as (H1 & H2 & H3).
  case_decide; [|done]. split_and!; [by apply kept_set_stringErr|done..].
Qed.
Lemma LookupTypeRecord_runs fs :
  short fs -> Forall (fun f => short f.1) fs -> Forall (fun f => member c f.2) fs ->
  runs c (LookupTypeRecord fs c) (fun r c' => match r with inr t => member c' t | inl _ => True end).
Proof.
  intros Hs Hn Hm. apply (runs_section _ _ (CRecord fs)); [done..|]. unfold LookupTypeRecord.
  pose proof (kept_lookup c Hk (TRecord 0 fs) eq_refl ltac:(by apply (Forall_map snd)) (conj Hs Hn)) as H.
  destruct (duplicateField fs) as [n|] eqn:Ed.
  - destruct (toType c !! _) as [b|] eqn:E; [|done].
    destruct (is_kind _ b); [|done]. split_and!; [done..|]. by apply (kept_key c Hk) in E.
  - specialize (H Ed). destruct (toType c !! _) as [b|]; [by destruct (is_kind _ b)|done].
Qed.
Lemma LookupTypeNamed_runs n t :
  short n -> member c t ->
  runs c (LookupTypeNamed n t c) (fun r c' => match r with inr t => member c' t | inl _ => True end).
Proof.
  intros Hs Hm. apply (runs_section _ _ (CNamed n t)); [done..|]. unfold LookupTypeNamed.
  destruct (ValidString n) eqn:Hv; [|done]. destruct (LookupPrimitive n) eqn:Hp; [done|].
  pose proof (kept_lookup c Hk (TNamed 0 n t) eq_refl ltac:(by constructor) Hs (conj Hv Hp)) as H. cbn [negb].
  destruct (toType c !! _) as [b|].
  - destruct (is_named b); [|done]. split_and!; [by apply kept_bind_typedef|exists []; by rewrite app_nil_r|done].
  - destruct H as (H1 & H2 & H3). split_and!; [|done|done].
    exact (kept_bind_typedef _ H1 n (fresh c (TNamed 0 n t)) H3).
Qed.
Lemma StringTypeError_runs : runs c (StringTypeError c) (fun _ _ => True).
Proof.
  unfold StringTypeError. destruct (stringErr c); [by apply runs_ret|].
  eapply runs_impl; [by apply (LookupTypeError_runs (TPrim String))|done].
Qed.
End lookups.

Lemma runs_lift_DecodeName tv c :
  kept c ->
  runs c (lift (DecodeName tv) c) (fun r c' => match r with Some (name, rest) => short name | None => True end).
Proof.
  intros Hk. pose proof (DecodeName_shorter tv) as H. unfold lift.
  destruct (DecodeName tv) as [[[n rest]|]| |]; cbn [mbind outcome_bind obind]; try done;
    (apply runs_ret; [done|by try destruct H]).
Qed.

(** ** The operations that release the lock *)

Section decode.
Context (decode : list byte -> M decoded) (fuel : nat).
Definition decodes_member (r : decoded) (c' : Context) : Prop :=
  match r with Some (t, _) => member c' t | None => True end.
Context (Hdecode : forall tv c, kept c -> runs c (decode tv c) decodes_member).

Lemma decode_fields_runs n : forall tv fs c,
  kept c -> Forall (fun f => short f.1 /\ member c f.2) fs ->
  runs c (decode_fields decode n tv fs c) (fun r c' => match r with
    | Some (fs', _) => Forall (fun f => short f.1 /\ member c' f.2) fs' /\ length fs' = (length fs + n)%nat
    | None => True
    end).
Proof.
  induction n as [|n IH]; intros tv fs c Hk Hfs; cbn [decode_fields].
  { apply runs_ret; [done|]. split; [done|lia]. }
  fold (decode_fields decode). eapply runs_bind; [by apply runs_lift_DecodeName|].
  intros [[name tv1]|] c1 Hk1 He1 Hn; [|by apply runs_ret].
  eapply runs_bind; [by apply Hdecode|]. intros [[t tv2]|] c2 Hk2 He2 Hm; [|by apply runs_ret].
  eapply runs_impl; [apply IH; [done|]|].
  - apply Forall_app. split; [|by apply Forall_singleton]. eapply Forall_impl; [done|].
    intros f [? ?]. split; [done|]. eapply member_extends; [|done]. by etrans.
  - intros [[fs' rest]|] c'; [|done]. rewrite length_app. cbn [length]. intros [? ?]. split; [done|lia].
Qed.

Lemma decode_types_runs n : forall tv ts c,
  kept c -> Forall (member c) ts ->
  runs c (decode_types decode n tv ts c) (fun r c' => Forall (member c') r.1 /\ length r.1 = (length ts + n)%nat).
Proof.
  induction n as [|n IH]; intros tv ts c Hk Hts; cbn [decode_types].
  { apply runs_ret; [done|]. split; [done|simpl; lia]. }
  fold (decode_types decode). eapply runs_bind; [by apply Hdecode|]. intros [[t tv2]|] c2 Hk2 He2 Hm; [|done].
  eapply runs_impl; [apply IH; [done|]|].
  - apply Forall_app. split; [|by apply Forall_singleton]. eapply Forall_impl; [done|].
    intros. by eapply member_extends.
  - intros [ts' rest] c'. cbn [fst]. rewrite length_app. cbn [length]. intros [? ?]. split; [done|lia].
Qed.
End decode.

Lemma runs_then (m : M ty) (rest : list byte) c :
  runs c (m c) returns_member -> runs c ((t ← m; mret (Some (t, rest))) c) decodes_member.
Proof. intros H. eapply runs_bind; [exact H|]. intros t c1 Hk _ Hm. by apply runs_ret. Qed.

Lemma decode_type_value_runs fuel : forall tv c, kept c -> runs c (decode_type_value fuel tv c) decodes_member.
Proof.
  induction fuel as [|fuel IH]; intros tv c Hk; [done|]. cbn [decode_type_value].
  destruct tv as [|id tv]; [by apply runs_ret|].
  assert (Hinner : forall (mk : ty -> M ty), (forall t c1, kept c1 -> member c1 t -> runs c1 (mk t c1) returns_member) ->
    runs c ((r ← decode_type_value fuel tv; match r with None => mret None
      | Some (inner, tv) => t ← mk inner; mret (Some (t, tv)) end) c) decodes_member).
  { intros mk Hmk. eapply runs_bind; [by apply IH|]. intros [[t tv1]|] c1 Hk1 _ Hm; [|by apply runs_ret].
    apply runs_then. by apply Hmk. }
  destruct (bz id =? TypeValueNameDef).
  { eapply runs_bind; [by apply runs_lift_DecodeName|]. intros [[name tv1]|] c1 Hk1 _ Hn; [|by apply runs_ret].
    eapply runs_bind; [by apply IH|]. intros [[t tv2]|] c2 Hk2 _ Hm; [|by apply runs_ret].
    eapply runs_bind; [by apply LookupTypeNamed_runs|]. intros [e|u] c3 Hk3 _ Hu; by apply runs_ret. }
  destruct (bz id =? TypeValueNameRef).
  { eapply runs_bind; [by apply runs_lift_DecodeName|]. intros [[name tv1]|] c1 Hk1 _ Hn; [|by apply runs_ret].
    eapply (runs_bind _ _ _ (fun r c' => match r with Some t => member c' t | None => True end)).
    - apply runs_ret; [done|]. destruct (typedefs c1 !! name) as [t|] eqn:E; [|done]. by apply (kept_typedefs c1 Hk1 name).
    - intros [t|] c2 Hk2 _ Ht; by apply runs_ret. }
  destruct (bz id =? TypeValueRecord).
  { destruct (DecodeLength tv) as [[n tv1]|] eqn:E; [|by apply runs_ret].
    apply DecodeLength_shorter in E as [_ Hn]. destruct (Z.ltb_spec MaxRecordFields n); [by apply runs_ret|].
    destruct (Z.ltb_spec n 0); [done|].
    eapply runs_bind; [apply (decode_fields_runs _ IH); [done|by constructor]|].
    intros [[fs tv2]|] c2 Hk2 _ Hr; [|by apply runs_ret]. destruct Hr as (Hfs & Hlen).
    rewrite Forall_and in Hfs. destruct Hfs as [Hs Hm].
    assert (Hshort : short fs) by (unfold short, zlen; simpl in Hlen; unfold MaxRecordFields in *; lia).
    eapply runs_bind; [by apply LookupTypeRecord_runs|]. intros [e|u] c3 Hk3 _ Hu; by apply runs_ret. }
  destruct (bz id =? TypeValueArray); [apply Hinner; intros; by apply LookupTypeArray_runs|].
  destruct (bz id =? TypeValueSet); [apply Hinner; intros; by apply LookupTypeSet_runs|].
  destruct (bz id =? TypeValueMap).
  { eapply runs_bind; [by apply IH|]. intros [[k tv1]|] c1 Hk1 _ Hm1; [|by apply runs_ret].
    eapply runs_bind; [by apply IH|]. intros [[v tv2]|] c2 Hk2 He2 Hm2; [|by apply runs_ret].
    apply runs_then, LookupTypeMap_runs; [done| |done]. by eapply member_extends. }
  destruct (bz id =? TypeValueUnion).
  { destruct (DecodeLength tv) as [[n tv1]|] eqn:E; [|by apply runs_ret].
    apply DecodeLength_shorter in E as [_ Hn]. destruct (Z.ltb_spec MaxUnionTypes n); [by apply runs_ret|].
    destruct (Z.ltb_spec n 0); [done|].
    eapply runs_bind; [apply (decode_types_runs _ IH); [done|by constructor]|].
    intros [ts tv2] c2 Hk2 _ [Hts Hlen]. cbn [fst] in *. apply runs_then, LookupTypeUnion_runs; [done| |done].
    unfold short, zlen, MaxUnionTypes in *. simpl in Hlen. lia. }
  destruct (bz id =? TypeValueEnum).
  { destruct (DecodeLength tv) as [[n tv1]|] eqn:E; [|by apply runs_ret].
    apply DecodeLength_shorter in E as [_ Hn]. destruct (Z.ltb_spec MaxEnumSymbols n); [by apply runs_ret|].
    eapply (runs_bind _ _ _ (fun r _ => match r with
      | Some (ss, _) => Forall short ss /\ length ss = Z.to_nat n | None => True end)).
    - pose proof (decode_symbols_sound (Z.to_nat n) tv1 [] ltac:(constructor)) as H'. unfold lift.
      destruct (decode_symbols (Z.to_nat n) tv1 []) as [[[ss rest]|]| |]; try done; apply runs_ret; try done.
      by destruct H' as (? & ? & ?).
    - intros [[ss rest]|] c1 Hk1 _ Hr; [|by apply runs_ret]. destruct Hr as (Hs & Hlen).
      apply runs_then, LookupTypeEnum_runs; [done| |done]. unfold short, zlen, MaxEnumSymbols in *. lia. }
  destruct (bz id =? TypeValueError); [apply Hinner; intros; by apply LookupTypeError_runs|].
  destruct (LookupPrimitiveByID (bz id)); by apply runs_ret.
Qed.

Lemma LookupByValue_runs tv c :
  kept c -> runs c (LookupByValue tv c) (fun r c' => match r with Some t => member c' t | None => True end).
Proof.
  intros Hk. unfold LookupByValue. destruct (toType c !! tv) as [t|] eqn:E.
  { apply runs_ret; [done|]. by apply (kept_key c Hk tv). }
  pose proof (decode_type_value_runs (S (length tv)) tv c Hk) as H. unfold DecodeTypeValue.
  destruct (decode_type_value _ tv c) as [[[[t rest]|] c1]| |]; try done. destruct H as (Hr & Hk1 & He & Hm).
  cbn in Hm. split_and!; [|by apply kept_bind|done|done]. eapply rtc_r; [exact Hr|]. by apply locked_bind.
Qed.

Lemma lookup_type_value_runs fuel : forall t c, kept c -> runs c (lookup_type_value fuel t c) (fun _ _ => True).
Proof.
  induction fuel as [|fuel IH]; intros t c Hk; [done|]. cbn [lookup_type_value].
  destruct (find_value t (toValue c)); [by apply runs_ret|].
  pose proof (LookupByValue_runs (EncodeTypeValue t) c Hk) as H.
  destruct (LookupByValue _ c) as [[[u|] c1]| |]; try done. destruct H as (Hr & Hk1 & He & Hm).
  specialize (IH u c1 Hk1). cbn. destruct (lookup_type_value fuel u c1) as [[r c2]| |]; try done.
  destruct IH as (? & ? & ? & ?). split_and!; [by etrans|done|by etrans|done].
Qed.

(** ** What the goroutines of a process rely on *)

Lemma ctx_run_runs o c : kept c -> ctx_args c o -> runs c (ctx_run o c) (fun _ _ => True).
Proof.
  intros Hk Ha.
  assert (Hu : forall {A} (m : M A) Q, runs c (m c) Q -> runs c ((m ≫= fun _ => mret tt) c) (fun _ _ => True)).
  { intros A m Q H. eapply runs_bind; [exact H|]. intros. by apply runs_ret. }
  destruct o as [fs|t|t|k v|ts|ss|n t|t| |tv|tv|t]; cbn [ctx_run ctx_args] in *; eapply Hu.
  - destruct Ha as (? & ? & ?). by apply LookupTypeRecord_runs.
  - by apply LookupTypeSet_runs.
  - by apply LookupTypeArray_runs.
  - destruct Ha. by apply LookupTypeMap_runs.
  - destruct Ha. by apply LookupTypeUnion_runs.
  - destruct Ha. by apply LookupTypeEnum_runs.
  - destruct Ha. by apply LookupTypeNamed_runs.
  - by apply LookupTypeError_runs.
  - by apply StringTypeError_runs.
  - by apply decode_type_value_runs.
  - by apply LookupByValue_runs.
  - by apply lookup_type_value_runs.
Qed.

Lemma section_step_kept c c' : section_step c c' -> kept c -> kept c'.
Proof.
  intros Hst Hk. destruct Hst as [c1 [o c2 _ Ha E|tv t Hm]|]; [|by apply kept_bind|by apply kept_Reset].
  pose proof (ctx_run_runs o c Hk Ha) as H. rewrite E in H. by destruct H as (_ & ? & _).
Qed.

Lemma sections_kept c : rtc section_step NewContext c -> kept c.
Proof.
  intros Hr. assert (H0 : kept NewContext) by (by apply wf_kept, NewContext_wf). revert H0.
  induction Hr as [c|c c1 c2 Hst Hr IH]; intros Hk; [done|]. by eapply IH, section_step_kept.
Qed.

(** The operations that release the lock are sequences of the sections that
    [section_step] interleaves. *)
Theorem operations_are_sections c o c' :
  rtc section_step NewContext c -> ctx_args c o -> ctx_run o c = Ok (tt, c') -> rtc locked_step c c'.
Proof.
  intros Hk%sections_kept Ha E. pose proof (ctx_run_runs o c Hk Ha) as H. rewrite E in H. by destruct H.
Qed.


(** One goroutine decodes a record with a definition and a reference of [foo];
    between the two, another binds [foo] to strings, so the record that the
    first stores under the bytes of its type value has the other type, and the
    context is none that calls one after the other reach.  Each structure still
    has one type. *)
Definition raced_fields : list field :=
  [(str "x", TNamed 30 (str "foo") (TPrim Int64)); (str "y", TNamed 31 (str "foo") (TPrim String))].
Definition raced_bytes : list byte :=
  EncodeTypeValue (TRecord 0 [(str "x", TNamed 30 (str "foo") (TPrim Int64)); (str "y", TNamed 30 (str "foo") (TPrim Int64))]).
Definition run1 (o : ctx_op) (c : Context) : Context := match ctx_run o c with Ok (_, c') => c' | _ => c end.
Definition raced0 : Context := run1 (CNamed (str "foo") (TPrim String)) (run1 (CNamed (str "foo") (TPrim Int64)) NewContext).
Definition raced : Context := bind_value raced_bytes (TRecord 32 raced_fields) (run1 (CRecord raced_fields) raced0).

Lemma raced_steps : rtc section_step NewContext raced.
Proof.
  apply rtc_l with (run1 (CNamed (str "foo") (TPrim Int64)) NewContext).
  { apply section_locked, (locked_lookup _ (CNamed (str "foo") (TPrim Int64))); [done|by split|by vm_compute]. }
  apply rtc_l with raced0.
  { apply section_locked, (locked_lookup _ (CNamed (str "foo") (TPrim String))); [done|by split|by vm_compute]. }
  apply rtc_l with (run1 (CRecord raced_fields) raced0).
  { apply section_locked, (locked_lookup _ (CRecord raced_fields)); [done| |by vm_compute].
    split_and!; [done|by repeat constructor|]. constructor; [|constructor; [|constructor]]; intros _; by split. }
  apply rtc_once, section_locked, locked_bind. intros _. by split.
Qed.

(** The bytes of a type value mean another type from then on. *)
Theorem interleaving_rebinds :
  exists c t, rtc section_step NewContext c /\ toType c !! raced_bytes = Some t /\ EncodeTypeValue t <> raced_bytes.
Proof.
  exists raced, (TRecord 32 raced_fields). split; [apply raced_steps|]. split; [by vm_compute|]. by vm_compute.
Qed.


Lemma operations_are_sections_witness :
  rtc locked_step NewContext (run1 (CByValue [zb 32; zb 9]) NewContext).
Proof. by apply (operations_are_sections NewContext (CByValue [zb 32; zb 9])); [apply rtc_refl| |vm_compute]. Defined.
