(* ===== verification/Primitive.v ===== *)
(** * Encodings of primitive values

    [src/primitive.go]: booleans, counted integers, floats, IP addresses and
    nets.  [net/netip] and [math/bits] are the Go standard library's, written
    out as far as the source uses them.  A float64 is its IEEE bits; the
    conversions between float widths are parameters. *)

From S2P Require Import Prelude Zcode.
Local Open Scope Z_scope.

(** ** Booleans and integers *)

Definition AppendBool (zb' : bytes) (b : bool) : bytes := go_append zb' [zb (if b then 1 else 0)].
Definition EncodeBool (b : bool) : bytes := AppendBool None b.
Definition DecodeBool (zv : bytes) : outcome Empty_set bool :=
  match zv with
  | None => Ok false
  | Some [] => Panic
  | Some (b :: _) => Ok (negb (bz b =? 0))
  end.

Definition counted_buffer : list byte := replicate 8 Byte.x00.
Definition EncodeInt (i : Z) : outcome Empty_set bytes :=
  '(b, n) ← EncodeCountedVarint counted_buffer i; Ok (Some (take (Z.to_nat n) b)).
Definition AppendInt (bs : bytes) (i : Z) : bytes := AppendCountedVarint bs i.
Definition EncodeUint (i : Z) : outcome Empty_set bytes :=
  '(b, n) ← EncodeCountedUvarint counted_buffer i; Ok (Some (take (Z.to_nat n) b)).
Definition AppendUint (bs : bytes) (i : Z) : bytes := AppendCountedUvarint bs i.
Definition DecodeInt (zv : bytes) : Z := DecodeCountedVarint zv.
Definition DecodeUint (zv : bytes) : Z := DecodeCountedUvarint zv.

Definition EncodeDuration (d : Z) : outcome Empty_set bytes := EncodeInt d.
Definition AppendDuration (bs : bytes) (d : Z) : bytes := AppendInt bs d.
Definition DecodeDuration (zv : bytes) : Z := DecodeInt zv.
Definition EncodeTime (t : Z) : outcome Empty_set bytes := EncodeInt t.
Definition AppendTime (bs : bytes) (t : Z) : bytes := AppendInt bs t.
Definition DecodeTime (zv : bytes) : Z := DecodeCountedVarint zv.

Definition EncodeBytes (b : bytes) : bytes := b.
Definition DecodeBytes (zv : bytes) : bytes := zv.
Definition EncodeString (s : gostring) : bytes := Some s.
Definition DecodeString (zv : bytes) : gostring := default [] zv.

(** ** Floats *)

(** [binary.LittleEndian]: the low [n] bytes, and the reverse, which panics on
    a slice that is too short and ignores what is past [n]. *)
Fixpoint le_bytes (n : nat) (x : Z) : list byte :=
  match n with O => [] | S n => zb x :: le_bytes n (Z.shiftr x 8) end.
Fixpoint le_value (bs : list byte) : Z :=
  match bs with [] => 0 | b :: bs => bz b + 256 * le_value bs end.
Definition le_uint (n : nat) (bs : list byte) : outcome Empty_set Z :=
  if zlen bs <? Z.of_nat n then Panic else Ok (le_value (take n bs)).

Definition AppendFloat64 (zb' : bytes) (d : Z) : bytes := Some (default [] zb' ++ le_bytes 8 d).
Definition EncodeFloat64 (d : Z) : bytes := AppendFloat64 (Some []) d.
Definition DecodeFloat64 (zv : bytes) : outcome Empty_set Z :=
  match zv with None => Ok 0 | Some b => le_uint 8 b end.

Section narrow_floats.
(** The bits of a float64 converted to and from the narrower widths. *)
Context (to32 of32 to16 of16 : Z -> Z).

Definition AppendFloat32 (zb' : bytes) (f : Z) : bytes := Some (default [] zb' ++ le_bytes 4 (to32 f)).
Definition EncodeFloat32 (f : Z) : bytes := AppendFloat32 (Some []) f.
Definition DecodeFloat32 (zv : bytes) : outcome Empty_set Z :=
  match zv with None => Ok 0 | Some b => x ← le_uint 4 b; Ok (of32 x) end.

Definition AppendFloat16 (zb' : bytes) (f : Z) : bytes := Some (default [] zb' ++ le_bytes 2 (to16 f)).
Definition EncodeFloat16 (f : Z) : bytes := AppendFloat16 (Some []) f.
Definition DecodeFloat16 (zv : bytes) : outcome Empty_set Z :=
  match zv with None => Ok 0 | Some b => x ← le_uint 2 b; Ok (of16 x) end.

Definition DecodeFloat (zv : bytes) : outcome Empty_set Z :=
  match zv with
  | None => Ok 0
  | Some b =>
      if zlen b =? 2 then x ← le_uint 2 b; Ok (of16 x)
      else if zlen b =? 4 then x ← le_uint 4 b; Ok (of32 x)
      else if zlen b =? 8 then le_uint 8 b
      else Panic
  end.
End narrow_floats.

(** ** [net/netip] *)

Inductive Addr := ZeroAddr | Addr4 (b : list byte) | Addr6 (b : list byte) (zone : gostring).

Definition AsSlice (a : Addr) : list byte :=
  match a with ZeroAddr => [] | Addr4 b => b | Addr6 b _ => b end.
Definition BitLen (a : Addr) : Z :=
  match a with ZeroAddr => 0 | Addr4 _ => 32 | Addr6 _ _ => 128 end.
Definition withoutZone (a : Addr) : Addr := match a with Addr6 b _ => Addr6 b [] | _ => a end.
Definition AddrFromSlice (s : list byte) : option Addr :=
  if zlen s =? 4 then Some (Addr4 s)
  else if zlen s =? 16 then Some (Addr6 s [])
  else None.
Definition UnmarshalBinary (b : list byte) : option Addr :=
  if zlen b =? 0 then Some ZeroAddr
  else if zlen b =? 4 then Some (Addr4 b)
  else if zlen b =? 16 then Some (Addr6 b [])
  else if 16 <? zlen b then Some (Addr6 (take 16 b) (drop 16 b))
  else None.

(** [bits] is -1 in an invalid prefix. *)
Record Prefix := mkPrefix { p_addr : Addr; p_bits : Z }.
Definition zeroPrefix : Prefix := mkPrefix ZeroAddr (-1).
Definition PrefixFrom (a : Addr) (n : Z) : Prefix :=
  mkPrefix (withoutZone a)
    (match a with
     | ZeroAddr => -1
     | _ => if (0 <=? n) && (n <=? BitLen a) then n else -1
     end).

(** The first [n] bits of [b], the others zero. *)
Fixpoint mask_bytes (n : Z) (b : list byte) : list byte :=
  match b with
  | [] => []
  | x :: b =>
      (if 8 <=? n then x
       else if n <=? 0 then zb 0
       else zb (Z.land (bz x) (Z.shiftl 255 (8 - n)))) :: mask_bytes (n - 8) b
  end.
Definition mask_addr (n : Z) (a : Addr) : Addr :=
  match a with
  | ZeroAddr => ZeroAddr
  | Addr4 b => Addr4 (mask_bytes n b)
  | Addr6 b z => Addr6 (mask_bytes n b) z
  end.
Definition Masked (p : Prefix) : Prefix :=
  match p_addr p with
  | ZeroAddr => zeroPrefix
  | a => if (p_bits p <? 0) || (BitLen a <? p_bits p) then zeroPrefix
         else PrefixFrom (mask_addr (p_bits p) (withoutZone a)) (p_bits p)
  end.

(** ** IP addresses and nets *)

Definition AppendIP (zb' : bytes) (a : Addr) : bytes := go_append zb' (AsSlice a).
Definition EncodeIP (a : Addr) : bytes := AppendIP None a.
Definition DecodeIP (zv : bytes) : outcome Empty_set Addr :=
  match UnmarshalBinary (default [] zv) with Some a => Ok a | None => Panic end.

Definition ones : list byte := replicate 16 (zb 255).
Definition AppendNet (zb' : bytes) (p : Prefix) : outcome Empty_set bytes :=
  let p := Masked p in
  let length := BitLen (p_addr p) / 8 in
  match AddrFromSlice (take (Z.to_nat length) ones) with
  | None => Panic
  | Some onesAddr =>
      let mask := Masked (PrefixFrom onesAddr (p_bits p)) in
      Ok (go_append (go_append zb' (AsSlice (p_addr p))) (AsSlice (p_addr mask)))
  end.
Definition EncodeNet (p : Prefix) : outcome Empty_set bytes := AppendNet None p.

(** [bits.LeadingZeros8]. *)
Definition LeadingZeros8 (x : Z) : Z := if x =? 0 then 8 else 7 - Z.log2 x.
Fixpoint LeadingOnes (b : list byte) : Z :=
  match b with
  | [] => 0
  | x :: b =>
      LeadingZeros8 (Z.lxor (bz x) 255) + (if bz x =? 255 then LeadingOnes b else 0)
  end.
Definition DecodeNet (zv : bytes) : outcome Empty_set Prefix :=
  match zv with
  | None => Ok zeroPrefix
  | Some v =>
      let n := Z.to_nat (zlen v / 2) in
      match AddrFromSlice (take n v) with
      | None => Panic
      | Some a => Ok (PrefixFrom a (LeadingOnes (drop n v)))
      end
  end.

(** ** Specification *)

(** An address of the shape [netip] keeps. *)
Definition valid_addr (a : Addr) : Prop :=
  match a with ZeroAddr => False | Addr4 b => length b = 4%nat | Addr6 b _ => length b = 16%nat end.
Definition valid_prefix (p : Prefix) : Prop := valid_addr (p_addr p) /\ 0 <= p_bits p <= BitLen (p_addr p).

(** ** Proofs *)

Lemma EncodeInt_AppendInt i : - 2 ^ 63 <= i < 2 ^ 63 -> EncodeInt i = Ok (AppendInt None i).
Proof.
  intros Hi. unfold EncodeInt, AppendInt.
  by destruct (EncodeCountedVarint_Append counted_buffer i eq_refl Hi) as (d & n & -> & ->).
Qed.

Lemma EncodeUint_AppendUint u : 0 <= u < 2 ^ 64 -> EncodeUint u = Ok (AppendUint None u).
Proof.
  intros Hu. unfold EncodeUint. rewrite (EncodeCountedUvarint_bytes 8); [|done|done].
  unfold AppendUint, AppendCountedUvarint, zlen. cbn [mbind outcome_bind obind]. by rewrite Nat2Z.id, take_app_length.
Qed.

(** every [int64] survives [EncodeInt] and [DecodeInt], and the encoding is
    what [AppendInt] appends to nothing. *)
Theorem int_roundtrip i :
  - 2 ^ 63 <= i < 2 ^ 63 -> exists b, EncodeInt i = Ok b /\ b = AppendInt None i /\ DecodeInt b = i.
Proof.
  intros Hi. exists (AppendInt None i). split; [by apply EncodeInt_AppendInt|]. split; [done|].
  by apply DecodeCountedVarint_zigzag.
Qed.

Lemma int_roundtrip_witness :
  exists b, EncodeInt (- 2 ^ 63) = Ok b /\ b = AppendInt None (- 2 ^ 63) /\ DecodeInt b = - 2 ^ 63.
Proof. apply (int_roundtrip (- 2 ^ 63)). lia. Defined.

Lemma uint_roundtrip u : 0 <= u < 2 ^ 64 -> exists b, EncodeUint u = Ok b /\ DecodeUint b = u.
Proof.
  intros Hu. exists (AppendUint None u). split; [by apply EncodeUint_AppendUint|].
  by apply DecodeCountedUvarint_bytes.
Qed.

Lemma bool_roundtrip b : DecodeBool (EncodeBool b) = Ok b.
Proof. by destruct b. Qed.

Lemma length_le_bytes n x : length (le_bytes n x) = n.
Proof. revert x. induction n as [|n IH]; intros x; simpl; [done|]. by rewrite IH. Qed.

Lemma le_value_bytes n x : le_value (le_bytes n x) = x mod 2 ^ (8 * Z.of_nat n).
Proof.
  revert x. induction n as [|n IH]; intros x; [by rewrite Z.mod_1_r|]. cbn [le_bytes le_value].
  rewrite IH, bz_zb, Z.shiftr_div_pow2 by lia. change (2 ^ 8) with 256.
  replace (8 * Z.of_nat (S n)) with (8 + 8 * Z.of_nat n) by lia. rewrite Z.pow_add_r by lia.
  change (2 ^ 8) with 256. rewrite Z.rem_mul_r by lia. lia.
Qed.

Lemma float64_roundtrip d : 0 <= d < 2 ^ 64 -> DecodeFloat64 (EncodeFloat64 d) = Ok d.
Proof.
  intros Hd. unfold DecodeFloat64, EncodeFloat64, AppendFloat64, le_uint. cbn [default from_option id app].
  unfold zlen. rewrite length_le_bytes. simpl Z.ltb. cbv iota.
  rewrite take_ge by (rewrite length_le_bytes; lia). rewrite le_value_bytes. by rewrite Z.mod_small by lia.
Qed.

Lemma ip_roundtrip a :
  valid_addr a -> DecodeIP (EncodeIP a) = Ok (withoutZone a).
Proof.
  unfold DecodeIP, EncodeIP, AppendIP, UnmarshalBinary, zlen. intros Ha.
  rewrite go_append_default. cbn [default from_option app].
  destruct a as [|b|b z]; [done|..]; simpl in *; by rewrite Ha.
Qed.

(** *** Masks *)

Lemma length_mask_bytes n b : length (mask_bytes n b) = length b.
Proof. revert n. induction b as [|x b IH]; intros n; simpl; [done|]. by rewrite IH. Qed.

Lemma LeadingOnes_mask n k :
  0 <= n <= 8 * Z.of_nat k -> LeadingOnes (mask_bytes n (replicate k (zb 255))) = n.
Proof.
  revert n. induction k as [|k IH]; intros n Hn; [simpl; lia|]. cbn [replicate mask_bytes LeadingOnes].
  change (bz (zb 255)) with 255. destruct (Z.leb_spec 8 n).
  - change (bz (zb 255)) with 255. rewrite IH by lia. change (LeadingZeros8 (Z.lxor 255 255)) with 8.
    cbn [Z.eqb Pos.eqb]. lia.
  - assert (Hcases : n = 0 \/ n = 1 \/ n = 2 \/ n = 3 \/ n = 4 \/ n = 5 \/ n = 6 \/ n = 7) by lia.
    destruct Hcases as [->|[->|[->|[->|[->|[->|[->| ->]]]]]]]; reflexivity.
Qed.

Lemma mask_bytes_idemp n b : mask_bytes n (mask_bytes n b) = mask_bytes n b.
Proof.
  revert n. induction b as [|x b IH]; intros n; simpl; [done|]. f_equal; [|apply IH].
  destruct (Z.leb_spec 8 n), (Z.leb_spec n 0); try done.
  rewrite bz_zb. f_equal. pose proof (bz_range x).
  rewrite Z.mod_small; [by rewrite <- Z.land_assoc, Z.land_diag|].
  rewrite Z.land_comm. split; [apply Z.land_nonneg; lia|].
  destruct (Z.eq_dec (Z.land (Z.shiftl 255 (8 - n)) (bz x)) 0) as [->|Hnz]; [lia|].
  change 256 with (2 ^ 8). apply Z.log2_lt_pow2; [pose proof (proj2 (Z.land_nonneg (Z.shiftl 255 (8 - n)) (bz x)) ltac:(lia)); lia|].
  eapply Z.le_lt_trans; [apply Z.log2_land; [apply Z.shiftl_nonneg; lia|lia]|].
  eapply Z.le_lt_trans; [apply Z.le_min_r|].
  destruct (Z.eq_dec (bz x) 0) as [->|]; [done|]. apply Z.log2_lt_pow2; lia.
Qed.

Lemma AddrFromSlice_addr a : valid_addr a -> AddrFromSlice (AsSlice a) = Some (withoutZone a).
Proof. unfold AddrFromSlice, zlen. destruct a as [|b|b z]; simpl; [done|intros ->; done..]. Qed.

Lemma PrefixFrom_valid a n : valid_prefix (mkPrefix a n) -> PrefixFrom a n = mkPrefix (withoutZone a) n.
Proof.
  intros [Ha Hn]. cbn [p_addr p_bits] in *. unfold PrefixFrom. f_equal.
  destruct a; [done|..]; zcases; try lia; done.
Qed.

Lemma AsSlice_mask n a : AsSlice (mask_addr n (withoutZone a)) = mask_bytes n (AsSlice a).
Proof. by destruct a. Qed.

Lemma Masked_valid a n :
  valid_prefix (mkPrefix a n) -> Masked (mkPrefix a n) = mkPrefix (mask_addr n (withoutZone a)) n.
Proof.
  intros [Ha Hn]. unfold Masked. cbn [p_addr p_bits] in *.
  assert (Hv : valid_prefix (mkPrefix (mask_addr n (withoutZone a)) n)).
  { split; cbn [p_addr p_bits]; destruct a as [|b|b z]; [done|..]; simpl in *; rewrite ?length_mask_bytes; lia || done. }
  destruct a as [|b|b z]; [done|..]; rewrite (PrefixFrom_valid _ _ Hv); cbn [BitLen] in *; zcases; try lia; done.
Qed.

Lemma valid_addr_bits a : valid_addr a -> (0 < length (AsSlice a))%nat /\ BitLen a = 8 * zlen (AsSlice a).
Proof. unfold zlen. destruct a as [|b|b z]; [done|..]; simpl; intros ->; split; lia || done. Qed.

Lemma ones_addr a :
  valid_addr a -> exists o, AddrFromSlice (take (length (AsSlice a)) ones) = Some o /\ valid_addr o /\
    BitLen o = BitLen a /\ AsSlice o = replicate (length (AsSlice a)) (zb 255).
Proof. destruct a as [|b|b z]; [done|..]; simpl; intros ->; by eexists. Qed.

Lemma AppendNet_valid p :
  valid_prefix p ->
  EncodeNet p = Ok (Some (mask_bytes (p_bits p) (AsSlice (p_addr p)) ++
                          mask_bytes (p_bits p) (replicate (length (AsSlice (p_addr p))) (zb 255)))).
Proof.
  intros Hp. destruct p as [a n]. unfold EncodeNet, AppendNet. rewrite (Masked_valid a n Hp).
  destruct Hp as [Ha Hn]. cbn [p_addr p_bits] in *. destruct (valid_addr_bits a Ha) as [Hpos Hbits].
  assert (Hlen : Z.to_nat (BitLen (mask_addr n (withoutZone a)) / 8) = length (AsSlice a)).
  { replace (BitLen (mask_addr n (withoutZone a))) with (BitLen a) by by destruct a.
    rewrite Hbits, Z.mul_comm, Z.div_mul by lia. unfold zlen. lia. }
  rewrite Hlen. destruct (ones_addr a Ha) as (o & -> & Ho & Hob & Hos).
  rewrite PrefixFrom_valid by (split; cbn [p_addr p_bits]; [done|lia]).
  rewrite Masked_valid by (split; cbn [p_addr p_bits]; [by destruct o|destruct o; cbn [withoutZone BitLen] in *; lia]).
  cbn [p_addr]. rewrite !AsSlice_mask.
  replace (AsSlice (withoutZone o)) with (AsSlice o) by by destruct o. rewrite Hos.
  assert (Hne : mask_bytes n (AsSlice a) <> []).
  { intros E. apply (f_equal length) in E. rewrite length_mask_bytes in E. simpl in E. lia. }
  destruct (mask_bytes n (AsSlice a)); [done|]. by destruct (mask_bytes n (replicate _ _)).
Qed.

(** a valid prefix survives [EncodeNet] and [DecodeNet] up to the masking that
    [AppendNet] applies: the length of the prefix is recovered from the
    leading ones of the mask. *)
Theorem net_roundtrip p :
  valid_prefix p -> exists b, EncodeNet p = Ok b /\ DecodeNet b = Ok (Masked p).
Proof.
  intros Hp. eexists. split; [by apply AppendNet_valid|]. destruct p as [a n].
  rewrite (Masked_valid a n Hp). destruct Hp as [Ha Hn]. cbn [p_addr p_bits] in *.
  destruct (valid_addr_bits a Ha) as [Hpos Hbits]. unfold DecodeNet, zlen.
  rewrite length_app, !length_mask_bytes, length_replicate.
  replace (Z.to_nat (Z.of_nat (length (AsSlice a) + length (AsSlice a)) / 2)) with (length (AsSlice a))
    by (rewrite Nat2Z.inj_add, Z.add_diag, Z.mul_comm, Z.div_mul; lia).
  rewrite take_app_length' by (by rewrite length_mask_bytes).
  rewrite drop_app_length' by (by rewrite length_mask_bytes).
  rewrite LeadingOnes_mask by (unfold zlen in Hbits; lia). rewrite <- AsSlice_mask.
  assert (Hv : valid_addr (mask_addr n (withoutZone a))) by (destruct a; simpl in *; rewrite ?length_mask_bytes; done).
  rewrite AddrFromSlice_addr by done.
  replace (withoutZone (mask_addr n (withoutZone a))) with (mask_addr n (withoutZone a)) by by destruct a.
  rewrite PrefixFrom_valid; [by destruct a|]. split; [done|]. cbn [p_addr p_bits]. by destruct a.
Qed.

Lemma net_roundtrip_witness :
  exists b, EncodeNet (mkPrefix (Addr4 [zb 10; zb 1; zb 2; zb 3]) 12) = Ok b /\
            DecodeNet b = Ok (Masked (mkPrefix (Addr4 [zb 10; zb 1; zb 2; zb 3]) 12)).
Proof. apply (net_roundtrip (mkPrefix (Addr4 [zb 10; zb 1; zb 2; zb 3]) 12)). split; [reflexivity|simpl; lia]. Defined.

(** [DecodeBool] panics on the empty, non-nil encoding. *)
Example DecodeBool_empty : DecodeBool (Some []) = Panic.
Proof. reflexivity. Qed.
