(* ===== verification/Values.v ===== *)
(** * Zed values

    [src/value.go], [src/walk.go], the value operations of [src/complex.go] and
    [src/mapper.go]'s companions: a value is a type with either a native word
    or its ZNG bytes; it is navigated by iterating over its bytes, checked by
    [Validate] and walked by [Walk].  Set and map bodies are normalized. *)

From S2P Require Import Prelude Zcode Types Primitive.
Local Open Scope Z_scope.

(** ** Values *)

(** [base == &nativeBase] is [Native]; otherwise the bytes, [None] for nil. *)
Inductive repr := Native (x : Z) | Raw (b : bytes).
Record Value := mkValue { v_type : ty; v_repr : repr }.

Definition NewValue (t : ty) (b : bytes) : Value := mkValue t (Raw b).
Definition newNativeValue (t : ty) (x : Z) : Value := mkValue t (Native x).
Definition native (v : Value) : option Z := match v_repr v with Native x => Some x | Raw _ => None end.
Definition NullValue : Value := NewValue (TPrim Null) None.

Definition NewUint (t : ty) (u : Z) : Value := newNativeValue t (u64 u).
Definition NewInt (t : ty) (i : Z) : Value := newNativeValue t (u64 i).
Definition NewInt64 (i : Z) : Value := NewInt (TPrim Int64) i.
Definition NewUint64 (u : Z) : Value := NewUint (TPrim Uint64) u.
Definition NewDuration (d : Z) : Value := NewInt (TPrim Duration) d.
Definition NewTime (t : Z) : Value := NewInt (TPrim Time) t.
Definition NewFloat64 (f : Z) : Value := newNativeValue (TPrim Float64) f.
Definition NewBool (b : bool) : Value := newNativeValue (TPrim Bool) (if b then 1 else 0).
Definition NewBytes (b : bytes) : Value := NewValue (TPrim Bytes) b.
Definition NewString (s : gostring) : Value := NewValue (TPrim String) (Some s).
Definition NewIP (a : Addr) : Value := NewValue (TPrim IP) (EncodeIP a).
Definition NewNet (p : Prefix) : outcome Empty_set Value := b ← EncodeNet p; Ok (NewValue (TPrim Net) b).

(** The source gives type values the type [net]. *)
Definition NewTypeValue (t : ty) : Value := NewValue (TPrim Net) (Some (EncodeTypeValue t)).

Definition IsNull (v : Value) : bool := match v_repr v with Raw None => true | _ => false end.
Definition Missing_ : gostring := str "missing".
Definition Quiet_ : gostring := str "quiet".

Section narrow_floats.
Context (to32 of32 to16 of16 : Z -> Z).

(** [Value.Bytes]: the ZNG representation. *)
Definition Value_Bytes (v : Value) : outcome Empty_set bytes :=
  match v_repr v with
  | Raw b => Ok b
  | Native x =>
      let id := ID (v_type v) in
      if (0 <=? id) && (id <=? 3) then EncodeUint x
      else if ((6 <=? id) && (id <=? 9)) || (id =? 12) || (id =? 13) then EncodeInt (i64 x)
      else if id =? 14 then Ok (EncodeFloat16 to16 x)
      else if id =? 15 then Ok (EncodeFloat32 to32 x)
      else if id =? 16 then Ok (EncodeFloat64 x)
      else if id =? 23 then Ok (EncodeBool (negb (x =? 0)))
      else Panic
  end.

(** [Value.Uint], [Int], [Float], [Bool]: panic on another type. *)
Definition Uint (v : Value) : outcome Empty_set Z :=
  if 3 <? ID (v_type v) then Panic
  else match v_repr v with Native x => Ok x | Raw b => Ok (DecodeUint b) end.
Definition Int (v : Value) : outcome Empty_set Z :=
  if negb (IsSigned (ID (v_type v))) then Panic
  else match v_repr v with Native x => Ok (i64 x) | Raw b => Ok (DecodeInt b) end.
Definition Float (v : Value) : outcome Empty_set Z :=
  if negb (IsFloat (ID (v_type v))) then Panic
  else match v_repr v with Native x => Ok x | Raw b => DecodeFloat of32 of16 b end.
Definition Bool_ (v : Value) : outcome Empty_set bool :=
  if negb (ID (v_type v) =? 23) then Panic
  else match v_repr v with Native x => Ok (negb (x =? 0)) | Raw b => DecodeBool b end.

Definition Encode (v : Value) (dst : bytes) : outcome Empty_set bytes := b ← Value_Bytes v; Ok (Append dst b).

(** [Equal]: types are compared as pointers. *)
Definition Equal (v p : Value) : outcome Empty_set bool :=
  if decide (v_type v = v_type p) then
    match v_repr v, v_repr p with
    | Native x, Native y => Ok (x =? y)
    | _, _ => a ← Value_Bytes v; b ← Value_Bytes p; Ok (bool_decide (default [] a = default [] b))
    end
  else Ok false.

(** ** Navigation *)

Inductive value_error := ErrNotArray | ErrIndex | ErrNotContainer | ErrValueDiverges.

Definition lift_panic {E A} (m : outcome Empty_set A) : outcome E A :=
  match m with Ok a => Ok a | _ => Panic end.

(** The iterations below run over [iter_all]; a panic of [Next] past the point
    where the source stops is avoided by reading only as far as it reads. *)
Fixpoint read_nth (fuel : nat) (i : Z) (it : list byte) : outcome value_error (option bytes) :=
  if Done it then Ok None
  else match fuel with
       | O => Err ErrValueDiverges
       | S fuel =>
           '(b, it) ← lift_panic (Next it);
           if i =? 0 then Ok (Some b) else read_nth fuel (i - 1) it
       end.

Definition ArrayIndex (v : Value) (idx : Z) : outcome value_error Value :=
  match v_type v with
  | TArray _ elem =>
      if idx <? 0 then Err ErrIndex
      else
        b ← lift_panic (Value_Bytes v);
        r ← read_nth (length (Iter b)) idx (Iter b);
        match r with Some b => Ok (NewValue elem b) | None => Err ErrIndex end
  | _ => Err ErrNotArray
  end.

Definition lift_diverge {A} (m : outcome diverge A) : outcome value_error A :=
  match m with Ok a => Ok a | Err _ => Err ErrValueDiverges | Panic => Panic end.

Definition Elements (v : Value) : outcome value_error (list Value) :=
  match InnerType (v_type v) with
  | None => Err ErrNotContainer
  | Some inner =>
      b ← lift_panic (Value_Bytes v);
      vs ← lift_diverge (iter_all b);
      Ok (map (NewValue inner) vs)
  end.

(** [NextTwo] is an iteration over the entries of a map. *)
Definition NextTwo (it : list byte) : outcome Empty_set ((bytes * bytes) * list byte) :=
  '(k, it) ← Next it; '(v, it) ← Next it; Ok ((k, v), it).

Definition ContainerLength (v : Value) : outcome value_error Z :=
  match v_type v with
  | TSet _ _ | TArray _ _ =>
      if IsNull v then Ok 0
      else b ← lift_panic (Value_Bytes v); vs ← lift_diverge (iter_all b); Ok (zlen vs)
  | TMap _ _ _ =>
      if IsNull v then Ok 0
      else b ← lift_panic (Value_Bytes v);
           kvs ← lift_diverge (iter_loop NextTwo (length (Iter b)) (Iter b)); Ok (zlen kvs)
  | _ => Err ErrNotContainer
  end.

(** [nth] returns nil when the record is too short. *)
Definition nth (v : Value) (n : Z) : outcome value_error bytes :=
  b ← lift_panic (Value_Bytes v);
  r ← read_nth (length (Iter b)) n (Iter b);
  match r with Some b => Ok b | None => Ok None end.

(** A [*Value] that may be nil. *)
Definition DerefByColumn (v : option Value) (col : nat) : outcome value_error (option Value) :=
  match v with
  | None => Ok None
  | Some v =>
      b ← nth v (Z.of_nat col);
      match b with
      | None => Ok None
      | Some b =>
          match TypeRecordOf (v_type v) with
          | None => Panic
          | Some fs => match fs !! col with Some f => Ok (Some (NewValue f.2 (Some b))) | None => Panic end
          end
      end
  end.

Definition IndexOfField_ (v : Value) (name : gostring) : option nat :=
  match TypeRecordOf (v_type v) with Some fs => IndexOfField fs name | None => None end.

Definition Deref (v : option Value) (name : gostring) : outcome value_error (option Value) :=
  match v with
  | None => Ok None
  | Some v' => match IndexOfField_ v' name with None => Ok None | Some i => DerefByColumn v i end
  end.

Fixpoint DerefPath (v : option Value) (path : list gostring) : outcome value_error (option Value) :=
  match path with
  | [] => Ok v
  | name :: path => v ← Deref v name; DerefPath v path
  end.

Definition IsMissing (v : option Value) : outcome Empty_set bool :=
  match v with
  | None => Ok true
  | Some v =>
      match v_type v with
      | TError _ t => b ← Value_Bytes v; Ok (bool_decide (t = TPrim String /\ default [] b = Missing_))
      | _ => Ok false
      end
  end.
Definition IsQuiet (v : Value) : outcome Empty_set bool :=
  match v_type v with
  | TError _ t => b ← Value_Bytes v; Ok (bool_decide (t = TPrim String /\ default [] b = Quiet_))
  | _ => Ok false
  end.
Definition IsError (v : Value) : bool := match TypeUnder (v_type v) with TError _ _ => true | _ => false end.

Definition AsString (v : option Value) : outcome Empty_set gostring :=
  match v with
  | Some v => if decide (TypeUnder (v_type v) = TPrim String) then b ← Value_Bytes v; Ok (DecodeString b) else Ok []
  | None => Ok []
  end.
Definition AsBool (v : option Value) : outcome Empty_set bool :=
  match v with
  | Some v => if decide (TypeUnder (v_type v) = TPrim Bool) then Bool_ v else Ok false
  | None => Ok false
  end.
Definition AsInt (v : option Value) : outcome Empty_set Z :=
  match v with
  | Some v =>
      match TypeUnder (v_type v) with
      | TPrim (Uint8 | Uint16 | Uint32 | Uint64) => u ← Uint v; Ok (i64 u)
      | TPrim (Int8 | Int16 | Int32 | Int64) => Int v
      | _ => Ok 0
      end
  | None => Ok 0
  end.
Definition AsTime (v : option Value) : outcome Empty_set Z :=
  match v with
  | Some v => if decide (TypeUnder (v_type v) = TPrim Time) then b ← Value_Bytes v; Ok (DecodeTime b) else Ok 0
  | None => Ok 0
  end.
Definition MissingAsNull (v : option Value) : outcome Empty_set (option Value) :=
  m ← IsMissing v; Ok (if (m : bool) then Some NullValue else v).

(** ** Unions *)

(** [TypeUnion.Untag]; of a nil body it returns the union itself. *)
Definition Untag (id : Z) (types : list ty) (b : bytes) : outcome Empty_set (ty * bytes) :=
  match b with
  | None => Ok (TUnion id types, None)
  | Some _ =>
      '(tag, it) ← Next (Iter b);
      match UnionType types (i64 (DecodeInt tag)) with
      | None => Panic
      | Some inner => '(v, _) ← Next it; Ok (inner, v)
      end
  end.

Definition BuildUnion (b : Builder) (tag : Z) (val : bytes) : outcome Empty_set Builder :=
  match val with
  | None => Ok (BAppend b None)
  | Some _ =>
      t ← EncodeInt tag;
      EndContainer (BAppend (BAppend (BeginContainer b) t) val)
  end.

(** The loop of [under]. *)
Fixpoint under_loop (fuel : nat) (t : ty) (b : bytes) : outcome diverge Value :=
  match fuel with
  | O => Err Diverge
  | S fuel =>
      match TypeUnder t with
      | TUnion id types =>
          match Untag id types b with
          | Ok (t, b) => under_loop fuel t b
          | _ => Panic
          end
      | t => Ok (NewValue t b)
      end
  end.
Fixpoint depth (t : ty) : nat :=
  match t with
  | TPrim _ | TEnum _ _ => 1
  | TRecord _ fs => S (foldr (fun f n => Nat.max (depth f.2) n) O fs)
  | TArray _ t | TSet _ t | TError _ t | TNamed _ _ t => S (depth t)
  | TMap _ k v => S (Nat.max (depth k) (depth v))
  | TUnion _ ts => S (foldr (fun t n => Nat.max (depth t) n) O ts)
  end.
Definition Under (v : Value) : outcome diverge Value :=
  match v_type v with
  | TUnion _ _ | TNamed _ _ _ =>
      b ← match Value_Bytes v with Ok b => Ok b | _ => Panic end;
      under_loop (S (depth (v_type v))) (v_type v) b
  | _ => Ok v
  end.

(** ** Walking *)

Inductive walk_error {E : Type} :=
| ErrMissingField | ErrUnionTag | ErrUnionEmpty | ErrUnionItems | ErrVisit (e : E) | ErrWalkDiverges.

Section walk.
Context {E S' : Type}.
Local Abbreviation R := (outcome (@walk_error E)).

(** A visitor updates its own state and may ask to skip the container. *)
Context (visit : ty -> bytes -> S' -> R (bool * S')).

Fixpoint walk_each (f : bytes -> S' -> R S') (fuel : nat) (it : list byte) (s : S') : R S' :=
  if Done it then Ok s
  else match fuel with
       | O => Err ErrWalkDiverges
       | S fuel => '(b, it) ← lift_panic (Next it); s ← f b s; walk_each f fuel it s
       end.

Fixpoint walk_pairs (f g : bytes -> S' -> R S') (fuel : nat) (it : list byte) (s : S') : R S' :=
  if Done it then Ok s
  else match fuel with
       | O => Err ErrWalkDiverges
       | S fuel =>
           '(b, it) ← lift_panic (Next it); s ← f b s;
           '(b, it) ← lift_panic (Next it); s ← g b s; walk_pairs f g fuel it s
       end.

(** With [under], the names of [t] are resolved without a visit, as
    [walkSet] and [walkMap] do with [TypeUnder]. *)
Fixpoint walk (under : bool) (t : ty) (body : bytes) (s : S') : R S' :=
  match t, under with
  | TNamed _ _ u, true => walk true u body s
  | _, _ =>
      '(skip, s) ← visit t body s;
      if skip : bool then Ok s
      else match t with
      | TPrim _ | TEnum _ _ => Ok s
      | TNamed _ _ u => walk false u body s
      | TError _ u => walk false u body s
      | TRecord _ fs =>
          match body with
          | None => Ok s
          | Some _ =>
              (fix go (fs : list field) (it : list byte) (s : S') : R S' :=
                 match fs with
                 | [] => Ok s
                 | f :: fs =>
                     if Done it then Err ErrMissingField
                     else '(b, it) ← lift_panic (Next it); s ← walk false f.2 b s; go fs it s
                 end) fs (Iter body) s
          end
      | TArray _ u =>
          match body with None => Ok s | Some _ => walk_each (walk false u) (length (Iter body)) (Iter body) s end
      | TSet _ u =>
          match body with None => Ok s | Some _ => walk_each (walk true u) (length (Iter body)) (Iter body) s end
      | TMap _ k v =>
          match body with
          | None => Ok s
          | Some _ => walk_pairs (walk true k) (walk true v) (length (Iter body)) (Iter body) s
          end
      | TUnion _ ts =>
          match body with
          | None => Ok s
          | Some b =>
              if zlen b =? 0 then Err ErrUnionEmpty
              else
                '(tag, it) ← lift_panic (Next (Iter body));
                (fix go (ts : list ty) (n : Z) : R S' :=
                   match ts with
                   | [] => Err ErrUnionTag
                   | u :: ts =>
                       if n =? 0 then
                         '(b, it) ← lift_panic (Next it);
                         if negb (Done it) then Err ErrUnionItems else walk false u b s
                       else go ts (n - 1)
                   end) ts (i64 (DecodeInt tag))
          end
      end
  end.
Definition Walk (t : ty) (body : bytes) (s : S') : R S' := walk false t body s.
End walk.

(** ** Validation *)

Inductive check_error := ErrSetDuplicate | ErrSetOrder | ErrEnumRange | ErrCheckDiverges.

Fixpoint check_set_loop (fuel : nat) (prev : bytes) (it : list byte) : outcome check_error unit :=
  if Done it then Ok tt
  else match fuel with
       | O => Err ErrCheckDiverges
       | S fuel =>
           '(tagAndBody, it) ← lift_panic (NextTagAndBody it);
           let c := match prev with None => -1 | Some prev => bytes_compare prev tagAndBody end in
           if c =? 0 then Err ErrSetDuplicate
           else if c =? 1 then Err ErrSetOrder
           else check_set_loop fuel (Some tagAndBody) it
       end.
Definition checkSet (body : bytes) : outcome check_error unit :=
  match body with None => Ok tt | Some _ => check_set_loop (2 * length (Iter body) + 2) None (Iter body) end.

Definition checkEnum (symbols : list gostring) (body : bytes) : outcome check_error unit :=
  match body with
  | None => Ok tt
  | Some _ => if zlen symbols <=? i64 (DecodeUint body) then Err ErrEnumRange else Ok tt
  end.

Definition validate_visit (t : ty) (body : bytes) (s : unit) : outcome (@walk_error check_error) (bool * unit) :=
  match t with
  | TSet _ _ => _ ← omap_err ErrVisit (checkSet body); Ok (true, s)
  | TEnum _ ss => _ ← omap_err ErrVisit (checkEnum ss body); Ok (true, s)
  | _ => Ok (false, s)
  end.

(** [Validate] recovers from panics: every failure is an error. *)
Definition Validate (v : Value) : bool :=
  match (b ← lift_panic (Value_Bytes v); Walk validate_visit (v_type v) b tt) with
  | Ok _ => true
  | _ => false
  end.
End narrow_floats.

(** ** Normalization of set and map bodies *)

(** [bytes.Compare(a, b) == -1]. *)
Definition bytes_lt (a b : list byte) : bool := bytes_compare a b =? -1.

(** Elements equal to their predecessor are skipped. *)
Fixpoint skip_dups (prev : list byte) (l : list (list byte)) : list byte :=
  match l with
  | [] => []
  | e :: l => (if decide (e = prev) then [] else e) ++ skip_dups e l
  end.

(** [sort.Slice] by a lawful order on the elements themselves: its instability
    does not show. *)
Definition NormalizeSet (zv : bytes) : outcome diverge bytes :=
  elements ← iter_all_tagged zv;
  if zlen elements <? 2 then Ok zv
  else match stable_sort bytes_lt elements with
       | [] => Ok zv
       | e :: l => Ok (Some (e ++ skip_dups e l))
       end.

Definition NextTwoTagged (it : list byte) : outcome Empty_set ((list byte * list byte) * list byte) :=
  '(k, it) ← NextTagAndBody it; '(v, it) ← NextTagAndBody it; Ok ((k, v), it).

Fixpoint skip_dup_keys (prev : list byte) (l : list (list byte * list byte)) : list byte :=
  match l with
  | [] => []
  | e :: l => (if decide (e.1 = prev) then [] else e.1 ++ e.2) ++ skip_dup_keys e.1 l
  end.

(** [sort.Slice] is not stable, and entries with equal keys may differ in their
    values: [sort] is the sort, a parameter. *)
Definition NormalizeMap (sort : list (list byte * list byte) -> list (list byte * list byte)) (zv : bytes)
  : outcome diverge bytes :=
  elements ← iter_loop NextTwoTagged (length (Iter zv)) (Iter zv);
  if zlen elements <? 2 then Ok zv
  else match sort elements with
       | [] => Ok zv
       | e :: l => Ok (Some (e.1 ++ e.2 ++ skip_dup_keys e.1 l))
       end.

(** ** Type vectors ([typevectortable.go]) *)

Definition TypeVectorTable : Type := list (list ty).
Fixpoint find_vector (t : TypeVectorTable) (types : list ty) (k : nat) : option nat :=
  match t with
  | [] => None
  | v :: t => if decide (v = types) then Some k else find_vector t types (S k)
  end.
Definition TVLookup (t : TypeVectorTable) (types : list ty) : nat * TypeVectorTable :=
  match find_vector t types 0 with
  | Some k => (k, t)
  | None => (length t, t ++ [types])
  end.
Definition TVLookupByValues (t : TypeVectorTable) (vals : list Value) : nat * TypeVectorTable :=
  TVLookup t (map v_type vals).
