(* ===== verification/ValueProofs.v ===== *)
(** * Values: what the operations guarantee

    [Validate] accepts exactly the values that conform to their type; the
    native and the byte representation of a value agree; normalized set and map
    bodies are canonical; unions are built and taken apart consistently. *)

From S2P Require Import Prelude Zcode Types Primitive Values.
Local Open Scope Z_scope.

(** ** Specification *)

(** The values that iterating over [it] with [next] yields. *)
Inductive values {V} (next : list byte -> outcome Empty_set (V * list byte)) : list byte -> list V -> Prop :=
| values_done : values next [] []
| values_next it v it' vs : it <> [] -> next it = Ok (v, it') -> values next it' vs -> values next it (v :: vs).

(** What the ZNG format asks of the bytes of a type: the elements of a set
    strictly increase and conform, an enum selects a symbol, a union holds one
    value of one of its types, a record has all its fields and nothing else.
    The bodies of primitive types are left out.  [Validate] overlooks three
    things, which [exact := false] allows: the elements of a set beyond their
    order, an enum selector that is negative as an [int], bytes after the last
    field of a record. *)
Fixpoint conforms (exact : bool) (t : ty) (b : bytes) : Prop :=
  match t with
  | TPrim _ => True
  | TEnum _ ss => b = None \/ DecodeUint b < zlen ss \/ exact = false /\ 2 ^ 63 <= DecodeUint b
  | TError _ u | TNamed _ _ u => conforms exact u b
  | TSet _ u => b = None \/
      (exists es, values NextTagAndBody (Iter b) es /\ StronglySorted (fun x y => bytes_compare x y < 0) es) /\
      (exact = false \/ exists vs, values Next (Iter b) vs /\ Forall (conforms exact u) vs)
  | TArray _ u => b = None \/ exists vs, values Next (Iter b) vs /\ Forall (conforms exact u) vs
  | TMap _ k v => b = None \/ exists kvs, values NextTwo (Iter b) kvs /\
                  Forall (fun kv => conforms exact k kv.1 /\ conforms exact v kv.2) kvs
  | TRecord _ fs =>
      b = None \/
      (fix go (fs : list field) (it : list byte) : Prop :=
         match fs with
         | [] => exact = false \/ it = []
         | f :: fs => exists v it', Next it = Ok (v, it') /\ conforms exact f.2 v /\ go fs it'
         end) fs (Iter b)
  | TUnion _ ts =>
      b = None \/
      exists tag v, values Next (Iter b) [tag; v] /\
      (fix go (ts : list ty) (n : Z) : Prop :=
         match ts with
         | [] => False
         | u :: ts => if n =? 0 then conforms exact u v else go ts (n - 1)
         end) ts (i64 (DecodeInt tag))
  end.

(** ** Iteration *)

Definition consumes {V} (next : list byte -> outcome Empty_set (V * list byte)) : Prop :=
  forall it v it', next it = Ok (v, it') -> (length it' < length it)%nat.

Lemma Done_nil it : Done it = true <-> it = [].
Proof. unfold Done, zlen. rewrite Z.eqb_eq. destruct it; simpl; split; done || lia. Qed.

Lemma Next_nil : Next [] = Panic.
Proof. reflexivity. Qed.

Lemma iter_loop_values {V} (next : list byte -> outcome Empty_set (V * list byte)) fuel it vs :
  iter_loop next fuel it = Ok vs -> values next it vs.
Proof.
  revert it vs. induction fuel as [|fuel IH]; intros it vs; cbn [iter_loop];
    (destruct (Done it) eqn:Hd; [apply Done_nil in Hd as ->; intros [= <-]; constructor|]); [done|].
  destruct (next it) as [[v it']| |] eqn:E; [|done..]. rewrite bind_Ok. intros (vs' & Hl & [= <-]).
  econstructor; [|done|by apply IH]. intros ->. done.
Qed.

Lemma values_iter_loop {V} (next : list byte -> outcome Empty_set (V * list byte)) fuel it vs :
  consumes next -> (length it <= fuel)%nat -> values next it vs -> iter_loop next fuel it = Ok vs.
Proof.
  intros Hc Hf Hv. revert fuel Hf. induction Hv as [|it v it' vs Hne E Hv IH]; intros fuel Hf; [by destruct fuel|].
  pose proof (Hc _ _ _ E). destruct fuel as [|fuel]; [lia|]. cbn [iter_loop].
  destruct (Done it) eqn:Hd; [by apply Done_nil in Hd|]. rewrite E, IH by lia. done.
Qed.

Lemma iter_loop_iff {V} (next : list byte -> outcome Empty_set (V * list byte)) fuel it vs :
  consumes next -> (length it <= fuel)%nat -> iter_loop next fuel it = Ok vs <-> values next it vs.
Proof. intros. split; [apply iter_loop_values|by apply values_iter_loop]. Qed.

Lemma values_inv {V} (next : list byte -> outcome Empty_set (V * list byte)) it vs :
  values next it vs -> it <> [] -> exists v it' vs', vs = v :: vs' /\ next it = Ok (v, it') /\ values next it' vs'.
Proof. intros Hv Hne. inversion Hv; subst; [done|]. eauto 10. Qed.

Lemma values_cons_inv {V} (next : list byte -> outcome Empty_set (V * list byte)) it v vs :
  values next it (v :: vs) -> exists it', it <> [] /\ next it = Ok (v, it') /\ values next it' vs.
Proof. intros Hv. inversion Hv; subst. eauto. Qed.

Lemma values_det {V} (next : list byte -> outcome Empty_set (V * list byte)) it vs ws :
  values next it vs -> values next it ws -> vs = ws.
Proof.
  intros Hv. revert ws. induction Hv as [|it v it' vs Hne E Hv IH]; intros ws Hw.
  - by inversion_clear Hw.
  - apply values_inv in Hw as (w & it2 & ws' & -> & E' & Hw); [|done]. rewrite E in E'. injection E' as <- <-. f_equal. auto.
Qed.

Lemma NextTwo_consumes : consumes NextTwo.
Proof.
  intros it [k v] it' H. unfold NextTwo in H. apply bind_Ok in H as ([k' it1] & H1 & H).
  apply bind_Ok in H as ([v' it2] & H2 & [= <- <- <-]). apply Next_consumes in H1, H2. lia.
Qed.

Lemma slice_split_0 s hi a b : slice_split s 0 hi = Ok (a, b) -> s = a ++ b.
Proof.
  unfold slice_split. destruct ((0 <=? 0) && (0 <=? hi) && (hi <=? zlen s)) eqn:E; [|done].
  intros [= <- <-]. rewrite Z.sub_0_r. by rewrite take_drop.
Qed.

Lemma NextTagAndBody_split it e it' : NextTagAndBody it = Ok (e, it') -> it = e ++ it'.
Proof.
  unfold NextTagAndBody. destruct (uvarint it) as [u n]. destruct (n <=? 0); [done|].
  destruct (tagIsNull u); [apply slice_split_0|]. rewrite bind_Ok. intros (len & _ & H). by apply slice_split_0 in H.
Qed.

Lemma lift_panic_Ok {E A} (m : outcome Empty_set A) (a : A) : lift_panic (E := E) m = Ok a <-> m = Ok a.
Proof. destruct m; simpl; split; intros; simplify_eq; done. Qed.

(** ** Validation *)

Section validate.
Local Abbreviation R := (outcome (@walk_error check_error)).

Lemma walk_each_ok (f : bytes -> unit -> R unit) (P : bytes -> Prop) fuel it :
  (forall b, f b tt = Ok tt <-> P b) -> (length it <= fuel)%nat ->
  walk_each f fuel it tt = Ok tt <-> exists vs, values Next it vs /\ Forall P vs.
Proof.
  intros Hf. revert it. induction fuel as [|fuel IH]; intros it Hl; cbn [walk_each].
  - destruct it; [|simpl in Hl; lia]. split; [|done]. intros _. exists []. split; constructor.
  - destruct (Done it) eqn:Hd.
    { apply Done_nil in Hd as ->. split; [|done]. intros _. exists []. split; constructor. }
    assert (Hne : it <> []) by (intros ->; done). split.
    + rewrite bind_Ok. intros ([b it'] & Hn & H). apply lift_panic_Ok in Hn.
      apply bind_Ok in H as ([] & Hb & H). apply Hf in Hb. pose proof (Next_consumes _ _ _ Hn).
      apply IH in H as (vs & Hv & HP); [|lia]. exists (b :: vs). split; [by econstructor|by constructor].
    + intros (vs & Hv & HP). apply values_inv in Hv as (b & it' & vs' & -> & Hn & Hv'); [|done]. inversion_clear HP.
      pose proof (Next_consumes _ _ _ Hn). rewrite Hn. cbn [lift_panic mbind outcome_bind obind].
      rewrite (proj2 (Hf b)) by done. cbn [mbind outcome_bind obind]. apply IH; [lia|eauto].
Qed.

Lemma walk_pairs_ok (f g : bytes -> unit -> R unit) (P Q : bytes -> Prop) fuel it :
  (forall b, f b tt = Ok tt <-> P b) -> (forall b, g b tt = Ok tt <-> Q b) -> (length it <= fuel)%nat ->
  walk_pairs f g fuel it tt = Ok tt <-> exists kvs, values NextTwo it kvs /\ Forall (fun kv => P kv.1 /\ Q kv.2) kvs.
Proof.
  intros Hf Hg. revert it. induction fuel as [|fuel IH]; intros it Hl; cbn [walk_pairs].
  - destruct it; [|simpl in Hl; lia]. split; [|done]. intros _. exists []. split; constructor.
  - destruct (Done it) eqn:Hd.
    { apply Done_nil in Hd as ->. split; [|done]. intros _. exists []. split; constructor. }
    assert (Hne : it <> []) by (intros ->; done). split.
    + rewrite bind_Ok. intros ([k it1] & Hk & H). apply lift_panic_Ok in Hk.
      apply bind_Ok in H as ([] & Hfk & H). apply Hf in Hfk.
      apply bind_Ok in H as ([v it2] & Hv & H). apply lift_panic_Ok in Hv.
      apply bind_Ok in H as ([] & Hgv & H). apply Hg in Hgv.
      pose proof (Next_consumes _ _ _ Hk). pose proof (Next_consumes _ _ _ Hv).
      apply IH in H as (kvs & Hvs & HP); [|lia]. exists ((k, v) :: kvs). split; [|by constructor].
      econstructor; [done| |done]. unfold NextTwo. rewrite Hk. simpl. by rewrite Hv.
    + intros (kvs & Hkv & HP). apply values_inv in Hkv as (kv & it' & kvs' & -> & Hn & Hkv'); [|done].
      inversion_clear HP as [|? ? [Hp Hq] HP']. pose proof (NextTwo_consumes _ _ _ Hn).
      unfold NextTwo in Hn. apply bind_Ok in Hn as ([k it1] & Hk & Hn). apply bind_Ok in Hn as ([v it2] & Hv & Hn).
      injection Hn as <- <-. cbn [fst snd] in *. rewrite Hk. cbn [lift_panic mbind outcome_bind obind].
      rewrite (proj2 (Hf k)) by done. cbn [mbind outcome_bind obind]. rewrite Hv. cbn [lift_panic mbind outcome_bind obind].
      rewrite (proj2 (Hg v)) by done. cbn [mbind outcome_bind obind]. apply IH; [lia|eauto].
Qed.

Lemma bytes_compare_cases x y : bytes_compare x y = -1 \/ bytes_compare x y = 0 \/ bytes_compare x y = 1.
Proof.
  revert y. induction x as [|a x IH]; intros [|b y]; simpl; auto.
  destruct (bz a =? bz b); [apply IH|]. unfold int_compare. zcases; auto.
Qed.

Definition above (prev : bytes) (e : list byte) : Prop :=
  match prev with None => True | Some p => bytes_compare p e < 0 end.

(** The loop never stays in place: an element that consumes nothing is empty,
    and the next one equals it. *)
Lemma check_set_loop_spec fuel prev it :
  (length it < fuel)%nat -> (prev = None -> (length it + 1 < fuel)%nat) ->
  match check_set_loop fuel prev it with
  | Ok _ => exists es, values NextTagAndBody it es /\ Forall (above prev) es /\
                       StronglySorted (fun x y => bytes_compare x y < 0) es
  | Err ErrCheckDiverges => False
  | _ => forall es, values NextTagAndBody it es -> Forall (above prev) es ->
                    ~ StronglySorted (fun x y => bytes_compare x y < 0) es
  end.
Proof.
  revert prev it. induction fuel as [|fuel IH]; intros prev it Hl Hl'; [lia|]. cbn [check_set_loop].
  destruct (Done it) eqn:Hd; [apply Done_nil in Hd as ->; exists []; repeat split; constructor|].
  assert (Hne : it <> []) by (intros ->; done).
  destruct (NextTagAndBody it) as [[e it']|[]|] eqn:E; cbn [lift_panic mbind outcome_bind obind].
  2: { intros es Hv. apply values_inv in Hv as (? & ? & ? & _ & E' & _); [|done]. by rewrite E in E'. }
  assert (Hcons : forall es, values NextTagAndBody it es -> exists es', es = e :: es' /\ values NextTagAndBody it' es').
  { intros es Hv. apply values_inv in Hv as (e2 & it2 & es' & -> & E' & Hv'); [|done].
    rewrite E in E'. injection E' as <- <-. eauto. }
  pose proof (NextTagAndBody_split _ _ _ E) as Hs.
  set (c := match prev with None => -1 | Some prev => bytes_compare prev e end).
  assert (Hc : c = -1 \/ c = 0 \/ c = 1) by (subst c; destruct prev; [apply bytes_compare_cases|by left]).
  destruct (Z.eqb_spec c 0) as [E0|E0]; [|destruct (Z.eqb_spec c 1) as [E1|E1]].
  1, 2: intros es Hv Ha; apply Hcons in Hv as (es' & -> & _); inversion_clear Ha as [|? ? Ha1 _];
        destruct prev; simpl in *; lia.
  assert (Hc1 : c = -1) by lia.
  assert (Habove : above prev e) by (subst c; destruct prev; simpl; [lia|done]).
  assert (Hlen : (length it = length e + length it')%nat) by (by rewrite <- length_app, <- Hs).
  assert (Hfuel : (length it' < fuel)%nat).
  { destruct prev as [p|]; [|specialize (Hl' eq_refl); lia].
    assert (e <> []) by (intros ->; destruct p; subst c; simpl in Hc1; lia). destruct e; [done|simpl in Hlen; lia]. }
  specialize (IH (Some e) it' Hfuel ltac:(done)).
  destruct (check_set_loop fuel (Some e) it') as [u|err|].
  - destruct IH as (es & Hv & Ha & Hsort). exists (e :: es). split_and!; [by econstructor| |by constructor].
    constructor; [done|]. eapply Forall_impl; [exact Ha|]. intros x Hx. destruct prev as [p|]; [|done].
    simpl in *. by apply (gc_lt_trans bytes_compare p e x).
  - assert (Hno : forall es, values NextTagAndBody it' es -> Forall (above (Some e)) es ->
        ~ StronglySorted (fun x y => bytes_compare x y < 0) es -> ~ StronglySorted (fun x y => bytes_compare x y < 0) (e :: es))
      by (intros es _ _ Hn Hss; inversion_clear Hss; auto).
    destruct err; try done; intros es Hv Ha Hss; apply Hcons in Hv as (es' & -> & Hv'); inversion_clear Hss as [|? ? Hss' Hf];
      by apply (IH es').
  - intros es Hv Ha Hss. apply Hcons in Hv as (es' & -> & Hv'). inversion_clear Hss. by apply (IH es').
Qed.

Lemma checkSet_ok b :
  checkSet b = Ok tt <-> b = None \/ exists es, values NextTagAndBody (Iter b) es /\
                                     StronglySorted (fun x y => bytes_compare x y < 0) es.
Proof.
  destruct b as [b|]; [|split; [by left|done]]. unfold checkSet.
  pose proof (check_set_loop_spec (2 * length (Iter (Some b)) + 2) None (Iter (Some b)) ltac:(lia) ltac:(lia)) as H.
  destruct (check_set_loop _ None (Iter (Some b))) as [[]|err|].
  - split; [|done]. intros _. right. destruct H as (es & ? & _ & ?). eauto.
  - split; [done|]. intros [?|(es & Hv & Hs)]; [done|]. exfalso.
    destruct err; try done; by apply (H es Hv); [apply Forall_true|].
  - split; [done|]. intros [?|(es & Hv & Hs)]; [done|]. exfalso. by apply (H es Hv); [apply Forall_true|].
Qed.

Lemma DecodeUint_range b : 0 <= DecodeUint b < 2 ^ 64.
Proof.
  unfold DecodeUint, DecodeCountedUvarint. destruct (default [] b) as [|x l]; [done|]. cbn [foldr].
  rewrite Z.lor_comm. apply lor_u64_range. pose proof (bz_range x). lia.
Qed.

Lemma checkEnum_ok ss b :
  checkEnum ss b = Ok tt <-> b = None \/ DecodeUint b < zlen ss \/ false = false /\ 2 ^ 63 <= DecodeUint b.
Proof.
  unfold checkEnum. destruct b as [b|]; [|split; [by left|done]]. pose proof (DecodeUint_range (Some b)) as Hr.
  pose proof (zlen_nonneg ss).
  assert (Hi : i64 (DecodeUint (Some b)) < zlen ss <-> DecodeUint (Some b) < zlen ss \/ 2 ^ 63 <= DecodeUint (Some b)).
  { destruct (Z.lt_ge_cases (DecodeUint (Some b)) (2 ^ 63)); [rewrite i64_id by lia|rewrite i64_neg by lia]; lia. }
  destruct (Z.leb_spec (zlen ss) (i64 (DecodeUint (Some b)))) as [Hl|Hl]; (split; [try done|]); [|tauto|done].
  intros [?|[Hx|[_ Hx]]]; [done|..]; (assert (i64 (DecodeUint (Some b)) < zlen ss) by tauto; lia).
Qed.

Lemma walk_conforms t : forall under b, walk validate_visit under t b tt = Ok tt <-> conforms false t b.
Proof.
  induction t as [p|i fs IH|i t IH|i t IH|i k v IHk IHv|i ts IH|i ss|i t IH|i n t IH] using ty_ind; intros under b.
  - by destruct under.
  - assert (Hf : forall it,
      (fix go (fs : list field) (it : list byte) (s : unit) : R unit :=
         match fs with
         | [] => Ok s
         | f :: fs =>
             if Done it then Err ErrMissingField
             else '(b, it) ← lift_panic (Next it); s ← walk validate_visit false f.2 b s; go fs it s
         end) fs it tt = Ok tt <->
      (fix go (fs : list field) (it : list byte) : Prop :=
         match fs with
         | [] => false = false \/ it = []
         | f :: fs => exists v it', Next it = Ok (v, it') /\ conforms false f.2 v /\ go fs it'
         end) fs it).
    { induction IH as [|f fs Hf _ IHfs]; intros it; [split; [by left|done]|].
      destruct (Done it) eqn:Hd.
      { apply Done_nil in Hd as ->. split; [done|]. intros (v & it' & H & _). by rewrite Next_nil in H. }
      rewrite bind_Ok. split.
      - intros ([v it'] & Hn & H). apply lift_panic_Ok in Hn. apply bind_Ok in H as ([] & Hw & H).
        apply Hf in Hw. apply IHfs in H. eauto.
      - intros (v & it' & Hn & Hw & H). exists (v, it'). split; [by apply lift_panic_Ok|].
        apply bind_Ok. exists tt. split; [by apply Hf|by apply IHfs]. }
    destruct b as [b|]; [|destruct under; (split; [by left|done])].
    specialize (Hf (Iter (Some b))). cbn [conforms].
    destruct under; (split; [intros H; right; by apply Hf|intros [?|H]; [done|by apply Hf]]).
  - destruct b as [b|]; [|destruct under; (split; [by left|done])].
    assert (H := walk_each_ok (walk validate_visit false t) (conforms false t) (length (Iter (Some b))) (Iter (Some b)) (IH false) ltac:(lia)).
    cbn [conforms]. destruct under; (split; [intros Hw; right; by apply H|intros [?|Hw]; [done|by apply H]]).
  - pose proof (checkSet_ok b) as Hc. cbn [conforms].
    transitivity (checkSet b = Ok tt); [destruct under; cbn [walk validate_visit]; destruct (checkSet b) as [[]|e|]; simpl; by split|].
    rewrite Hc. split; [intros [?|?]; [by left|right; split; [done|by left]]|intros [?|[? _]]; auto].
  - destruct b as [b|]; [|destruct under; (split; [by left|done])].
    assert (H := walk_pairs_ok (walk validate_visit true k) (walk validate_visit true v) (conforms false k) (conforms false v)
                   (length (Iter (Some b))) (Iter (Some b)) (IHk true) (IHv true) ltac:(lia)).
    cbn [conforms]. destruct under; (split; [intros Hw; right; by apply H|intros [?|Hw]; [done|by apply H]]).
  - destruct b as [b|]; [|destruct under; (split; [by left|done])].
    assert (Hgo : forall ts' n, Forall (fun t => forall under b, walk validate_visit under t b tt = Ok tt <-> conforms false t b) ts' ->
      forall it, (fix go (ts : list ty) (n : Z) : R unit :=
                     match ts with
                     | [] => Err ErrUnionTag
                     | u :: ts =>
                         if n =? 0 then
                           '(b, it) ← lift_panic (Next it);
                           if negb (Done it) then Err ErrUnionItems else walk validate_visit false u b tt
                         else go ts (n - 1)
                     end) ts' n = Ok tt <->
        exists v, Next it = Ok (v, []) /\
          (fix go (ts : list ty) (n : Z) : Prop :=
             match ts with
             | [] => False
             | u :: ts => if n =? 0 then conforms false u v else go ts (n - 1)
             end) ts' n).
    { intros ts' n Hf. revert n. induction Hf as [|u ts' Hu Hf IHf]; intros n it.
      { split; [done|]. by intros (? & _ & []). }
      destruct (n =? 0); [|apply IHf]. rewrite bind_Ok. split.
      - intros ([v it'] & Hn & H). apply lift_panic_Ok in Hn. destruct (Done it') eqn:Hd; [|done].
        apply Done_nil in Hd as ->. apply Hu in H. eauto.
      - intros (v & Hn & H). exists (v, []). split; [by apply lift_panic_Ok|]. by apply Hu. }
    assert (Hbody : walk validate_visit false (TUnion i ts) (Some b) tt = Ok tt <-> conforms false (TUnion i ts) (Some b)).
    { cbn [walk validate_visit mbind outcome_bind obind conforms]. destruct (Z.eqb_spec (zlen b) 0) as [Hz|Hz].
      { split; [done|]. intros [?|(tag & v & Hv & _)]; [done|]. exfalso. apply values_cons_inv in Hv as (? & Hne & _). apply Hne.
        destruct b; [done|]. unfold zlen in Hz. simpl in Hz. lia. }
      rewrite bind_Ok. split.
      - intros ([tag it] & Hn & H). apply lift_panic_Ok in Hn. apply (Hgo ts _ IH) in H as (v & Hn2 & H).
        right. exists tag, v. split; [|exact H]. apply (values_next _ _ _ it); [intros Hi; by rewrite Hi in Hn|exact Hn|].
        apply (values_next _ _ _ []); [intros Hi; by rewrite Hi in Hn2|exact Hn2|constructor].
      - intros [?|(tag & v & Hv & H)]; [done|]. apply values_cons_inv in Hv as (it & _ & Hn & Hv).
        apply values_cons_inv in Hv as (it2 & _ & Hn2 & Hv). inversion Hv; subst.
        exists (tag, it). split; [by apply lift_panic_Ok|]. apply (Hgo ts _ IH). eauto. }
    destruct under; exact Hbody.
  - pose proof (checkEnum_ok ss b) as Hc. cbn [conforms]. rewrite <- Hc.
    destruct under; cbn [walk validate_visit]; destruct (checkEnum ss b) as [[]|e|]; simpl; split; done.
  - destruct under; exact (IH false b).
  - destruct under; [exact (IH true b)|exact (IH false b)].
Qed.

(** The fuel of a walk never runs out. *)
Definition walk_ends (r : R unit) : Prop :=
  match r with Err ErrWalkDiverges | Err (ErrVisit ErrCheckDiverges) => False | _ => True end.

Lemma walk_ends_bind (m : R unit) (f : unit -> R unit) :
  walk_ends m -> (forall u, walk_ends (f u)) -> walk_ends (m ≫= f).
Proof. intros Hm Hf. destruct m as [u|e|]; [apply Hf|exact Hm|done]. Qed.
Lemma walk_ends_next {A} (m : outcome Empty_set A) (f : A -> R unit) :
  (forall a, m = Ok a -> walk_ends (f a)) -> walk_ends (lift_panic m ≫= f).
Proof. intros Hf. destruct m as [a|[]|]; [by apply Hf|done]. Qed.

Lemma walk_each_ends (f : bytes -> unit -> R unit) fuel it s :
  (forall b s, walk_ends (f b s)) -> (length it <= fuel)%nat -> walk_ends (walk_each f fuel it s).
Proof.
  intros Hf. revert it s. induction fuel as [|fuel IH]; intros it s Hl; cbn [walk_each].
  - by destruct it; [|simpl in Hl; lia].
  - destruct (Done it); [done|]. apply walk_ends_next. intros [b it'] Hn. apply Next_consumes in Hn.
    apply walk_ends_bind; [apply Hf|]. intros u. apply IH. lia.
Qed.
Lemma walk_pairs_ends (f g : bytes -> unit -> R unit) fuel it s :
  (forall b s, walk_ends (f b s)) -> (forall b s, walk_ends (g b s)) -> (length it <= fuel)%nat ->
  walk_ends (walk_pairs f g fuel it s).
Proof.
  intros Hf Hg. revert it s. induction fuel as [|fuel IH]; intros it s Hl; cbn [walk_pairs].
  - by destruct it; [|simpl in Hl; lia].
  - destruct (Done it); [done|]. apply walk_ends_next. intros [k it1] Hk%Next_consumes.
    apply walk_ends_bind; [apply Hf|]. intros u. apply walk_ends_next. intros [v it2] Hv%Next_consumes.
    apply walk_ends_bind; [apply Hg|]. intros u'. apply IH. lia.
Qed.
Lemma visit_ends t b s (f : bool * unit -> R unit) :
  (forall r, walk_ends (f r)) -> walk_ends (validate_visit t b s ≫= f).
Proof.
  intros Hf. destruct t; try apply Hf; cbn [validate_visit].
  - destruct b as [b|]; [|apply Hf]. unfold checkSet.
    pose proof (check_set_loop_spec (2 * length (Iter (Some b)) + 2) None (Iter (Some b)) ltac:(lia) ltac:(lia)) as H.
    destruct (check_set_loop _ None (Iter (Some b))) as [[]|e|]; [apply Hf|by destruct e|done].
  - unfold checkEnum. destruct b as [b|]; [|apply Hf]. destruct (_ <=? _); [done|apply Hf].
Qed.

Lemma walk_ends_all t : forall under b s, walk_ends (walk validate_visit under t b s).
Proof.
  induction t as [p|i fs IH|i t IH|i t IH|i k v IHk IHv|i ts IH|i ss|i t IH|i n t IH] using ty_ind; intros under b s.
  - by destruct under.
  - assert (Hb : walk_ends (walk validate_visit false (TRecord i fs) b s)); [|by destruct under].
    cbn [walk]. apply visit_ends. intros [skip s0]. destruct skip; [done|]. destruct b as [b|]; [|done].
    generalize (Iter (Some b)). revert s0. induction IH as [|f fs Hf _ IHfs]; intros s0 it; [done|].
    destruct (Done it); [done|]. apply walk_ends_next. intros [v it'] _. apply walk_ends_bind; [apply Hf|]. intros u. apply IHfs.
  - assert (Hb : walk_ends (walk validate_visit false (TArray i t) b s)); [|by destruct under].
    cbn [walk]. apply visit_ends. intros [[] s0]; [done|]. destruct b as [b|]; [|done]. by apply walk_each_ends.
  - assert (Hb : walk_ends (walk validate_visit false (TSet i t) b s)); [|by destruct under].
    cbn [walk]. apply visit_ends. intros [[] s0]; [done|]. destruct b as [b|]; [|done]. by apply walk_each_ends.
  - assert (Hb : walk_ends (walk validate_visit false (TMap i k v) b s)); [|by destruct under].
    cbn [walk]. apply visit_ends. intros [[] s0]; [done|]. destruct b as [b|]; [|done]. by apply walk_pairs_ends.
  - assert (Hb : walk_ends (walk validate_visit false (TUnion i ts) b s)); [|by destruct under].
    cbn [walk]. apply visit_ends. intros [[] s0]; [done|]. destruct b as [b|]; [|done]. destruct (zlen b =? 0); [done|].
    apply walk_ends_next. intros [tag it] _. generalize (i64 (DecodeInt tag)).
    induction IH as [|u ts Hu _ IHts]; intros n; [done|]. destruct (n =? 0); [|apply IHts].
    apply walk_ends_next. intros [v it'] _. destruct (negb _); [done|apply Hu].
  - assert (Hb : walk_ends (walk validate_visit false (TEnum i ss) b s)); [|by destruct under].
    cbn [walk]. apply visit_ends. by intros [[] s0].
  - assert (Hb : walk_ends (walk validate_visit false (TError i t) b s)); [|by destruct under].
    cbn [walk]. apply visit_ends. intros [[] s0]; [done|apply IH].
  - destruct under; [apply IH|]. cbn [walk]. apply visit_ends. intros [[] s0]; [done|apply IH].
Qed.
End validate.

(** ** Normalization *)

Lemma bytes_lt_cmp a b : bytes_lt a b = cmp_lt bytes_compare a b.
Proof. unfold bytes_lt, cmp_lt. pose proof (bytes_compare_cases a b). zcases; done || lia. Qed.

Lemma insert_rev_ext {A} (f g : A -> A -> bool) x r :
  (forall a b, f a b = g a b) -> insert_rev f x r = insert_rev g x r.
Proof. intros H. induction r as [|y r IH]; simpl; [done|]. by rewrite H, IH. Qed.

Lemma stable_sort_ext {A} (f g : A -> A -> bool) l : (forall a b, f a b = g a b) -> stable_sort f l = stable_sort g l.
Proof.
  intros H. unfold stable_sort. f_equal. generalize (@nil A). induction l as [|x l IH]; intros r; simpl; [done|].
  by rewrite (insert_rev_ext f g), IH.
Qed.

Section drop_dups.
Context {A : Type} (key : A -> list byte).
Local Abbreviation key_le := (fun a b => bytes_compare (key a) (key b) <= 0).
Local Abbreviation key_lt := (fun a b => bytes_compare (key a) (key b) < 0).

(** The list both normalizations keep, with the skipped elements left out. *)
Fixpoint drop_dups (prev : list byte) (l : list A) : list A :=
  match l with
  | [] => []
  | e :: l => (if decide (key e = prev) then [] else [e]) ++ drop_dups (key e) l
  end.

Lemma drop_dups_elem prev l e : e ∈ drop_dups prev l -> e ∈ l.
Proof.
  revert prev. induction l as [|x l IH]; intros prev; simpl; [done|].
  rewrite elem_of_app. intros [H|H%IH]; [|by right]. case_decide; [by apply not_elem_of_nil in H|].
  apply list_elem_of_singleton in H as ->. by left.
Qed.

Lemma drop_dups_keys prev l e :
  e ∈ l -> key e = prev \/ exists e', e' ∈ drop_dups prev l /\ key e' = key e.
Proof.
  revert prev. induction l as [|x l IH]; intros prev; [by intros ?%not_elem_of_nil|].
  cbn [drop_dups]. intros [->|He]%elem_of_cons.
  - case_decide; [by left|]. right. exists x. split; [by left|done].
  - destruct (IH (key x) He) as [E|(e' & He' & E)].
    + case_decide; [left; congruence|]. right. exists x. split; [by left|done].
    + right. exists e'. split; [|done]. apply elem_of_app. by right.
Qed.

Lemma drop_dups_sorted prev l :
  StronglySorted key_le l -> Forall (fun e => bytes_compare prev (key e) <= 0) l ->
  StronglySorted key_lt (drop_dups prev l) /\ Forall (fun e => bytes_compare prev (key e) < 0) (drop_dups prev l).
Proof.
  intros Hs. revert prev. induction Hs as [|x l Hs IH Hx]; intros prev Hp; [by repeat constructor|].
  cbn [drop_dups]. inversion_clear Hp as [|? ? Hpx _]. destruct (IH (key x) Hx) as [IHs IHf].
  case_decide as Hd; cbn [app]; [rewrite Hd in IHf, IHs |- *; by split|].
  assert (Hlt : bytes_compare prev (key x) < 0).
  { destruct (Z.eq_dec (bytes_compare prev (key x)) 0) as [E|]; [|lia]. apply (gc_eq_1 bytes_compare) in E. congruence. }
  split; constructor; [done..|]. eapply Forall_impl; [exact IHf|]. intros e He. by apply (gc_lt_trans bytes_compare _ (key x)).
Qed.
End drop_dups.

Lemma skip_dups_concat prev l : skip_dups prev l = concat (drop_dups id prev l).
Proof.
  revert prev. induction l as [|e l IH]; intros prev; simpl; [done|].
  rewrite IH. unfold id at 2. case_decide; [done|]. simpl. done.
Qed.

Lemma skip_dup_keys_concat prev l :
  skip_dup_keys prev l = concat (map (fun e => e.1 ++ e.2) (drop_dups fst prev l)).
Proof.
  revert prev. induction l as [|e l IH]; intros prev; simpl; [done|]. rewrite IH. case_decide; [done|]. simpl. done.
Qed.

Local Abbreviation lt_bytes := (fun x y => bytes_compare x y < 0).

Lemma sorted_lt_NoDup l : StronglySorted lt_bytes l -> NoDup l.
Proof.
  induction 1 as [|x l Hs IH Hx]; constructor; [|done]. intros Hin. rewrite Forall_forall in Hx.
  specialize (Hx x Hin). rewrite (gc_refl bytes_compare) in Hx. lia.
Qed.

Lemma sorted_lt_unique l k :
  StronglySorted lt_bytes l -> StronglySorted lt_bytes k -> (forall x, x ∈ l <-> x ∈ k) -> l = k.
Proof.
  intros Hl Hk He. assert (Hp : l ≡ₚ k) by (apply NoDup_Permutation; [by apply sorted_lt_NoDup..|done]).
  assert (Hle : forall m, StronglySorted lt_bytes m -> StronglySorted (fun x y => bytes_compare x y <= 0) m).
  { intros m. induction 1 as [|x m Hm IH Hx]; constructor; [done|]. eapply Forall_impl; [exact Hx|]. simpl. lia. }
  apply Hle in Hl, Hk. by apply (StronglySorted_unique (fun x y => bytes_compare x y <= 0)).
Qed.

(** The elements [NormalizeSet] keeps of [es]. *)
Definition normal_elements (es : list (list byte)) : list (list byte) :=
  match stable_sort bytes_lt es with [] => [] | e :: l => e :: drop_dups id e l end.

Lemma normal_elements_spec es :
  StronglySorted lt_bytes (normal_elements es) /\ forall e, e ∈ normal_elements es <-> e ∈ es.
Proof.
  unfold normal_elements. assert (Hp := stable_sort_perm bytes_lt es).
  assert (Hs : StronglySorted (fun x y => bytes_compare x y <= 0) (stable_sort bytes_lt es)).
  { rewrite (stable_sort_ext _ (cmp_lt bytes_compare)) by apply bytes_lt_cmp.
    apply (stable_sort_sorted bytes_compare (fun _ => True));
      [apply (gc_antisym (cmp := bytes_compare))|intros ??????; apply (gc_trans (cmp := bytes_compare))|by apply Forall_true]. }
  destruct (stable_sort bytes_lt es) as [|e l].
  { split; [constructor|]. intros x. by rewrite <- Hp. }
  inversion_clear Hs as [|? ? Hl He]. destruct (drop_dups_sorted id e l Hl He) as [H1 H2]. split; [by constructor|].
  intros x. rewrite <- Hp, !elem_of_cons. split.
  - intros [->|Hx]; [by left|right]. by eapply drop_dups_elem.
  - intros [->|Hx]; [by left|]. destruct (drop_dups_keys id e l x Hx) as [E|(y & Hy & E)]; [by left|right].
    by rewrite <- (E : y = x).
Qed.

Lemma short_normal es : zlen es < 2 -> concat (normal_elements es) = concat es.
Proof.
  unfold zlen. destruct es as [|e [|f es]]; simpl; [done|done|lia].
Qed.

(** What [NormalizeSet] returns on the body of [vs]. *)
Lemma NormalizeSet_body vs :
  Forall small vs -> NormalizeSet (Some (body_of vs)) = Ok (Some (concat (normal_elements (map val_bytes vs)))).
Proof.
  intros Hs. unfold NormalizeSet, iter_all_tagged, Iter. cbn [default from_option id].
  rewrite (iter_loop_body _ val_bytes); [|intros; by apply NextTagAndBody_Append|done|done].
  cbn [mbind outcome_bind obind]. zcases.
  - by rewrite short_normal.
  - unfold normal_elements. pose proof (stable_sort_perm bytes_lt (map val_bytes vs)) as Hp.
    destruct (stable_sort bytes_lt (map val_bytes vs)) as [|e l].
    + apply Permutation_nil_l in Hp. rewrite <- Hp in *. unfold zlen in *. simpl in *. lia.
    + by rewrite skip_dups_concat.
Qed.

Lemma val_bytes_inj v w : small v -> small w -> val_bytes v = val_bytes w -> v = w.
Proof.
  intros Hv Hw E. pose proof (Next_Append v [] Hv) as H1. pose proof (Next_Append w [] Hw) as H2.
  rewrite E in H1. rewrite H1 in H2. by injection H2.
Qed.

Lemma concat_val_values es vs :
  Forall small vs -> (forall e, e ∈ es -> e ∈ map val_bytes vs) -> values NextTagAndBody (concat es) es.
Proof.
  intros Hs. induction es as [|e es IH]; intros He; [constructor|]. cbn [concat].
  destruct (list_elem_of_fmap_1 val_bytes vs e) as (v & -> & Hv); [apply He; by left|].
  rewrite Forall_forall in Hs. specialize (Hs v Hv).
  apply (values_next _ _ _ (concat es)); [|by apply NextTagAndBody_Append|apply IH; set_solver].
  pose proof (length_val v). intros E. apply (f_equal length) in E. rewrite length_app in E. simpl in E. lia.
Qed.

(** ** Unions *)

Lemma length_counted_bytes n u : (length (counted_bytes n u) <= n)%nat.
Proof.
  revert u. induction n as [|n IH]; intros u; simpl; [lia|].
  destruct (u =? 0); simpl; [lia|]. specialize (IH (Z.shiftr u 8)). lia.
Qed.

Lemma AppendInt_length i : zlen (default [] (AppendInt None i)) <= 8.
Proof. pose proof (length_counted_bytes 8 (counted_zigzag i)) as H.
  change (Z.of_nat (length (counted_bytes 8 (counted_zigzag i))) <= 8). lia.
Qed.

Section narrow_floats.
Context (to32 of32 to16 of16 : Z -> Z).

Lemma conforms_weaken t : forall b, conforms true t b -> conforms false t b.
Proof.
  induction t as [p|i fs IH|i t IH|i t IH|i k v IHk IHv|i ts IH|i ss|i t IH|i n t IH] using ty_ind; intros b; cbn [conforms]; auto.
  - intros [->|H]; [by left|right]. revert H. generalize (Iter b).
    induction IH as [|f fs Hf _ IHfs]; intros it; [by left|]. intros (v & it' & Hn & Hc & H). exists v, it'.
    split_and!; [done|by apply Hf|by apply IHfs].
  - intros [->|(vs & Hv & Hc)]; [by left|right]. exists vs. split; [done|]. by eapply Forall_impl.
  - intros [->|[H _]]; [by left|right]. split; [done|by left].
  - intros [->|(vs & Hv & Hc)]; [by left|right]. exists vs. split; [done|]. eapply Forall_impl; [done|]. intros kv []. auto.
  - intros [->|(tag & v & Hv & H)]; [by left|right]. exists tag, v. split; [done|]. revert H. generalize (i64 (DecodeInt tag)).
    induction IH as [|u ts Hu _ IHts]; intros n; [done|]. destruct (n =? 0); [apply Hu|apply IHts].
  - intros [->|[H|[? _]]]; [by left|by right; left|done].
Qed.

Lemma Validate_overlooks v :
  Validate to32 to16 v = true <-> exists b, Value_Bytes to32 to16 v = Ok b /\ conforms false (v_type v) b.
Proof.
  unfold Validate. destruct (Value_Bytes to32 to16 v) as [b|[]|]; cbn [lift_panic mbind outcome_bind obind].
  - pose proof (walk_conforms (v_type v) false b) as H. unfold Walk. split.
    + intros Hw. exists b. split; [done|]. apply H. by destruct (walk _ _ _ _ _) as [[]| |].
    + intros (b' & [= <-] & Hc). apply H in Hc. by rewrite Hc.
  - split; [done|]. by intros (? & ? & _).
Qed.


(** a native value and the value of its bytes answer alike: encoding it loses
    nothing, for integers, durations, times, float64 and bool. *)
Theorem native_bytes_agree t x b :
  0 <= x < 2 ^ 64 -> ID t <> 14 -> ID t <> 15 -> Value_Bytes to32 to16 (newNativeValue t x) = Ok b ->
  Uint (NewValue t b) = Uint (newNativeValue t x) /\
  Int (NewValue t b) = Int (newNativeValue t x) /\
  Float of32 of16 (NewValue t b) = Float of32 of16 (newNativeValue t x) /\
  Bool_ (NewValue t b) = Bool_ (newNativeValue t x).
Proof.
  intros Hx H14 H15. unfold Value_Bytes, Uint, Int, Float, Bool_, IsSigned, IsFloat. cbn [v_repr newNativeValue NewValue v_type].
  generalize dependent (ID t). intros id H14 H15 H.
  assert (Hid : (id = 0 \/ id = 1 \/ id = 2 \/ id = 3) \/
                (id = 6 \/ id = 7 \/ id = 8 \/ id = 9 \/ id = 12 \/ id = 13) \/ id = 16 \/ id = 23).
  { repeat match type of H with (if ?c then _ else _) = _ => destruct c eqn:? end; try discriminate H; lia. }
  destruct Hid as [Hid|[Hid|[->| ->]]].
  - assert (E : EncodeUint x = Ok b) by (repeat destruct Hid as [->|Hid]; try subst id; exact H). clear H.
    rewrite EncodeUint_AppendUint in E by done. injection E as <-.
    assert (Hu : DecodeUint (AppendUint None x) = x) by by apply DecodeCountedUvarint_bytes. rewrite Hu.
    by repeat destruct Hid as [->|Hid]; try subst id.
  - assert (E : EncodeInt (i64 x) = Ok b) by (repeat destruct Hid as [->|Hid]; try subst id; exact H). clear H.
    rewrite EncodeInt_AppendInt in E by apply i64_range. injection E as <-.
    assert (Hi : DecodeInt (AppendInt None (i64 x)) = i64 x) by (apply DecodeCountedVarint_zigzag; [apply i64_range|done]).
    rewrite Hi. by repeat destruct Hid as [->|Hid]; try subst id.
  - injection H as <-. split; [done|]. split; [done|]. split; [|done]. exact (float64_roundtrip x Hx).
  - injection H as <-. repeat split. by destruct (x =? 0).
Qed.
End narrow_floats.


Lemma native_bytes_agree_witness :
  exists b, Value_Bytes id id (newNativeValue (TPrim Int64) (2 ^ 64 - 1)) = Ok b /\
            Int (NewValue (TPrim Int64) b) = Ok (-1).
Proof.
  exists (AppendInt None (-1)). split; [reflexivity|].
  pose proof (native_bytes_agree id id id id (TPrim Int64) (2 ^ 64 - 1) (AppendInt None (-1))
    ltac:(lia) ltac:(done) ltac:(done) eq_refl) as (_ & H & _). exact H.
Defined.

(** C35: [NormalizeSet] gives set bodies a canonical form: two bodies of small
    values normalize to the same bytes exactly when they have the same
    elements. *)
Theorem NormalizeSet_canonical vs ws :
  Forall small vs -> Forall small ws ->
  NormalizeSet (Some (body_of vs)) = NormalizeSet (Some (body_of ws)) <-> (forall v, v ∈ vs <-> v ∈ ws).
Proof.
  intros Hvs Hws. rewrite !NormalizeSet_body by done.
  destruct (normal_elements_spec (map val_bytes vs)) as [Sv Ev], (normal_elements_spec (map val_bytes ws)) as [Sw Ew].
  pose proof (concat_val_values _ vs Hvs (fun e => proj1 (Ev e))) as Cv.
  pose proof (concat_val_values _ ws Hws (fun e => proj1 (Ew e))) as Cw.
  rewrite Forall_forall in Hvs, Hws. split.
  - intros [= E].
    assert (Hn : normal_elements (map val_bytes vs) = normal_elements (map val_bytes ws)).
    { rewrite E in Cv. by apply (values_det NextTagAndBody _ _ _ Cv). }
    intros v. split; intros Hv.
    + assert (H : val_bytes v ∈ map val_bytes ws) by (apply Ew; rewrite <- Hn; apply Ev; by apply list_elem_of_fmap_2).
      apply list_elem_of_fmap in H as (w & E' & Hw). apply val_bytes_inj in E' as ->; auto.
    + assert (H : val_bytes v ∈ map val_bytes vs) by (apply Ev; rewrite Hn; apply Ew; by apply list_elem_of_fmap_2).
      apply list_elem_of_fmap in H as (w & E' & Hw). apply val_bytes_inj in E' as ->; auto.
  - intros H. do 3 f_equal. apply sorted_lt_unique; [done..|]. intros e. rewrite Ev, Ew, !list_elem_of_fmap.
    split; intros (v & -> & Hv); exists v; split; (done || by apply H).
Qed.

Lemma NormalizeSet_canonical_witness :
  NormalizeSet (Some (body_of [Some [zb 2]; Some [zb 1]; Some [zb 2]])) = NormalizeSet (Some (body_of [Some [zb 1]; Some [zb 2]])).
Proof.
  apply (NormalizeSet_canonical [Some [zb 2]; Some [zb 1]; Some [zb 2]] [Some [zb 1]; Some [zb 2]]).
  - repeat (apply Forall_cons_2; [done|]); apply Forall_nil_2.
  - repeat (apply Forall_cons_2; [done|]); apply Forall_nil_2.
  - intros v. rewrite !elem_of_cons. tauto.
Defined.

(** a normalized set body passes validation, has the elements of the original,
    and normalizing it again changes nothing. *)
Theorem NormalizeSet_valid i t vs :
  Forall small vs -> exists b, NormalizeSet (Some (body_of vs)) = Ok b /\ conforms false (TSet i t) b /\ NormalizeSet b = Ok b.
Proof.
  intros Hvs. rewrite NormalizeSet_body by done.
  destruct (normal_elements_spec (map val_bytes vs)) as [Sv Ev]. eexists. split; [reflexivity|].
  assert (Hmap : exists ws, Forall small ws /\ normal_elements (map val_bytes vs) = map val_bytes ws).
  { assert (He : forall e, e ∈ normal_elements (map val_bytes vs) -> e ∈ map val_bytes vs) by (intros e; apply Ev).
    clear Ev Sv. revert He. generalize (normal_elements (map val_bytes vs)). intros es. induction es as [|e es IH]; intros He.
    - by exists [].
    - destruct IH as (ws & Hws & ->); [intros x Hx; apply He; by right|].
      destruct (list_elem_of_fmap_1 val_bytes vs e) as (v & -> & Hv); [apply He; by left|].
      exists (v :: ws). split; [|done]. constructor; [|done]. rewrite Forall_forall in Hvs. by apply Hvs. }
  destruct Hmap as (ws & Hws & E). rewrite E in *. split.
  - right. split; [|by left]. exists (map val_bytes ws). split; [|done]. apply (concat_val_values _ ws Hws). done.
  - change (concat (map val_bytes ws)) with (body_of ws). rewrite NormalizeSet_body by done.
    destruct (normal_elements_spec (map val_bytes ws)) as [Sw Ew].
    by rewrite (sorted_lt_unique (normal_elements (map val_bytes ws)) (map val_bytes ws) Sw Sv Ew).
Qed.

Lemma NormalizeSet_valid_witness :
  exists b, NormalizeSet (Some (body_of [Some [zb 2]; None; Some [zb 2]])) = Ok b /\
            conforms false (TSet 30 (TPrim Int64)) b /\ NormalizeSet b = Ok b.
Proof.
  apply (NormalizeSet_valid 30 (TPrim Int64) [Some [zb 2]; None; Some [zb 2]]).
  repeat (apply Forall_cons_2; [done|]); apply Forall_nil_2.
Defined.

(** *** Maps *)

Definition entry (kv : bytes * bytes) : list byte * list byte := (val_bytes kv.1, val_bytes kv.2).
Definition entries_body (kvs : list (bytes * bytes)) : list byte := concat (map (fun kv => val_bytes kv.1 ++ val_bytes kv.2) kvs).

(** What [sort.Slice] by the keys promises. *)
Definition sorts_keys (sort : list (list byte * list byte) -> list (list byte * list byte)) : Prop :=
  forall l, sort l ≡ₚ l /\ StronglySorted (fun a b => bytes_compare a.1 b.1 <= 0) (sort l).

Lemma entries_iter fuel kvs :
  Forall (fun kv => small kv.1 /\ small kv.2) kvs -> (length (entries_body kvs) <= fuel)%nat ->
  iter_loop NextTwoTagged fuel (entries_body kvs) = Ok (map entry kvs).
Proof.
  revert fuel. induction kvs as [|[k v] kvs IH]; intros fuel Hs Hf; [by destruct fuel|].
  inversion_clear Hs as [|? ? [Hk Hv] Hkvs]. unfold entries_body in *. cbn [map concat fst snd] in *.
  rewrite !length_app in Hf. pose proof (length_val k). pose proof (length_val v).
  destruct fuel as [|fuel]; [lia|]. cbn [iter_loop]. rewrite <- !app_assoc, Done_val.
  unfold NextTwoTagged. rewrite NextTagAndBody_Append by done. cbn [mbind outcome_bind obind].
  rewrite NextTagAndBody_Append by done. cbn [mbind outcome_bind obind]. rewrite IH; [done|done|lia].
Qed.

(** [NormalizeMap] returns a body whose keys strictly increase, that has every
    key of the original, and whose entries are entries of the original,
    whatever order the unstable sort leaves equal keys in. *)
Theorem NormalizeMap_spec sort kvs :
  sorts_keys sort -> Forall (fun kv => small kv.1 /\ small kv.2) kvs ->
  exists es, NormalizeMap sort (Some (entries_body kvs)) = Ok (Some (concat (map (fun e => e.1 ++ e.2) es))) /\
    StronglySorted (fun a b => bytes_compare a.1 b.1 < 0) es /\
    (forall e, e ∈ es -> e ∈ map entry kvs) /\
    (forall kv, kv ∈ kvs -> exists e, e ∈ es /\ e.1 = val_bytes kv.1).
Proof.
  intros Hsort Hs. unfold NormalizeMap, Iter. cbn [default from_option id]. rewrite entries_iter by done.
  cbn [mbind outcome_bind obind]. destruct (Hsort (map entry kvs)) as [Hp Hss].
  destruct (Z.ltb_spec (zlen (map entry kvs)) 2) as [Hlt|Hge].
  - exists (map entry kvs). unfold entries_body. rewrite map_map. split_and!; [done| |done|].
    + unfold zlen in Hlt. destruct (map entry kvs) as [|e [|f l]]; [constructor|by repeat constructor|simpl in Hlt; lia].
    + intros kv Hkv. exists (entry kv). split; [by apply list_elem_of_fmap_2|done].
  - destruct (sort (map entry kvs)) as [|e l].
    { apply Permutation_nil_l in Hp. rewrite <- Hp in Hge. unfold zlen in Hge. simpl in Hge. lia. }
    inversion_clear Hss as [|? ? Hl He]. destruct (drop_dups_sorted fst e.1 l Hl He) as [H1 H2].
    exists (e :: drop_dups fst e.1 l). rewrite skip_dup_keys_concat. cbn [map concat]. rewrite <- app_assoc.
    split_and!; [done|by constructor|..].
    + intros x. rewrite <- Hp, !elem_of_cons. intros [->|Hx]; [by left|right]. by eapply drop_dups_elem.
    + intros kv Hkv. assert (Hin : entry kv ∈ e :: l) by (rewrite Hp; by apply list_elem_of_fmap_2).
      apply elem_of_cons in Hin as [E|Hin].
      * exists e. split; [by left|]. by rewrite <- E.
      * destruct (drop_dups_keys fst e.1 l _ Hin) as [E|(y & Hy & E)]; [exists e; split; [by left|by rewrite <- E]|].
        exists y. split; [by right|done].
Qed.

(** The stable sort is such a sort. *)
Lemma stable_sorts_keys : sorts_keys (stable_sort (cmp_lt (fun a b => bytes_compare a.1 b.1))).
Proof.
  intros l. split; [apply stable_sort_perm|].
  apply (stable_sort_sorted (fun a b : list byte * list byte => bytes_compare a.1 b.1) (fun _ => True)).
  - intros a b. apply (gc_antisym (cmp := bytes_compare)).
  - intros a b c _ _ _. apply (gc_trans (cmp := bytes_compare)).
  - by apply Forall_true.
Qed.

Lemma NormalizeMap_spec_witness :
  let kvs := [(Some [zb 2], None); (Some [zb 1], Some [zb 7])] in
  exists es, NormalizeMap (stable_sort (cmp_lt (fun a b => bytes_compare a.1 b.1))) (Some (entries_body kvs))
             = Ok (Some (concat (map (fun e => e.1 ++ e.2) es))) /\
    StronglySorted (fun a b => bytes_compare a.1 b.1 < 0) es /\
    (forall e, e ∈ es -> e ∈ map entry kvs) /\ (forall kv, kv ∈ kvs -> exists e, e ∈ es /\ e.1 = val_bytes kv.1).
Proof.
  apply (NormalizeMap_spec _ [(Some [zb 2], None); (Some [zb 1], Some [zb 7])] stable_sorts_keys).
  repeat (apply Forall_cons_2; [done|]); apply Forall_nil_2.
Defined.

(** *** Building and taking apart unions *)

(** a union built for a type and a non-null value yields that type and value
    when untagged, and a null one stays null: [BuildUnion] and [Untag] are
    inverse wherever the tag names a type of the union. *)
Theorem union_roundtrip i ts b tag u v :
  UnionType ts tag = Some u -> - 2 ^ 63 <= tag < 2 ^ 63 -> zlen v < 2 ^ 61 ->
  exists b' body, BuildUnion b tag (Some v) = Ok b' /\
    default [] (b_bytes b') = default [] (b_bytes b) ++ val_bytes (Some body) /\ containers b' = containers b /\
    Untag i ts (Some body) = Ok (u, Some v) /\ zlen body <= zlen v + 28.
Proof.
  intros Hu Htag Hv. set (t := AppendInt None tag). pose proof (AppendInt_length tag) as Ht. fold t in Ht.
  set (body := val_bytes t ++ val_bytes (Some v)).
  assert (Hbody : zlen body <= zlen v + 28).
  { subst body. rewrite zlen_app. pose proof (zlen_val_bytes t ltac:(lia)).
    pose proof (zlen_val_bytes (Some v) ltac:(simpl default; lia)) as H2. simpl default in H2. lia. }
  assert (Hbuild := build_tree (VCont [VPrim t; VPrim (Some v)]) b).
  cbn [tree_bytes map concat] in Hbuild. rewrite app_nil_r in Hbuild. fold body in Hbuild.
  assert (Hs : zlen (val_bytes (Some body)) < 2 ^ 62).
  { pose proof (zlen_val_bytes (Some body) ltac:(simpl default; lia)) as H. simpl default in H. lia. }
  specialize (Hbuild Hs). eexists _, body. split_and!.
  - unfold BuildUnion. rewrite EncodeInt_AppendInt by done. exact Hbuild.
  - done.
  - done.
  - unfold Untag, Iter. simpl default. subst body. rewrite Next_Append by (unfold small; lia). cbn [mbind outcome_bind obind].
    assert (Hd : DecodeInt t = tag) by by apply DecodeCountedVarint_zigzag. rewrite Hd, i64_id, Hu by done.
    rewrite <- (app_nil_r (val_bytes (Some v))), Next_Append; [done|]. unfold small. simpl default. lia.
  - done.
Qed.

Lemma union_roundtrip_witness :
  exists b' body, BuildUnion NewBuilder 1 (Some [zb 7]) = Ok b' /\
    default [] (b_bytes b') = default [] (b_bytes NewBuilder) ++ val_bytes (Some body) /\ containers b' = containers NewBuilder /\
    Untag 30 [TPrim Int64; TPrim String] (Some body) = Ok (TPrim String, Some [zb 7]) /\ zlen body <= 29.
Proof.
  apply (union_roundtrip 30 [TPrim Int64; TPrim String] NewBuilder 1 (TPrim String) [zb 7]); [reflexivity|lia|].
  change (1 < 2 ^ 61). lia.
Defined.

(** *** Resolving named types and unions *)

Inductive untag_step : ty * bytes -> ty * bytes -> Prop :=
| untag_step_union t b i ts t' b' :
    TypeUnder t = TUnion i ts -> Untag i ts (Some b) = Ok (t', b') -> untag_step (t, Some b) (t', b').

Lemma depth_under t : (depth (TypeUnder t) <= depth t)%nat.
Proof. induction t using ty_ind; simpl; lia. Qed.

Lemma depth_union i ts u : u ∈ ts -> (depth u < depth (TUnion i ts))%nat.
Proof.
  intros Hu. simpl. induction ts as [|t ts IH]; [by apply not_elem_of_nil in Hu|].
  apply elem_of_cons in Hu as [->|Hu]; simpl; [lia|]. specialize (IH Hu). lia.
Qed.

Lemma UnionType_elem ts tag u : UnionType ts tag = Some u -> u ∈ ts.
Proof. unfold UnionType. destruct (_ || _); [done|]. apply list_elem_of_lookup_2. Qed.

Lemma Untag_elem i ts b t' b' : Untag i ts (Some b) = Ok (t', b') -> t' ∈ ts.
Proof.
  unfold Untag. rewrite bind_Ok. intros ([tag it] & _ & H). destruct (UnionType ts _) as [u|] eqn:Hu; [|done].
  apply bind_Ok in H as ([v it'] & _ & [= <- _]). by eapply UnionType_elem.
Qed.

Lemma under_loop_diverges fuel : forall t b,
  (depth t < fuel)%nat -> under_loop fuel t b = Err Diverge ->
  exists u i ts, rtc untag_step (t, b) (u, None) /\ TypeUnder u = TUnion i ts.
Proof.
  induction fuel as [|fuel IH]; intros t b Hd; [lia|]. cbn [under_loop].
  destruct (TypeUnder t) as [| | | | |i ts| | |] eqn:Et; try done.
  destruct b as [b|]; [|intros _; exists t, i, ts; split; [apply rtc_refl|done]].
  destruct (Untag i ts (Some b)) as [[t' b']| |] eqn:Eu; try done. intros H.
  pose proof (depth_union i ts t' (Untag_elem _ _ _ _ _ Eu)). pose proof (depth_under t) as Hu. rewrite Et in Hu.
  apply IH in H as (u & j & us & Hr & E); [|lia]. exists u, j, us. split; [|done].
  eapply rtc_l; [|exact Hr]. by econstructor.
Qed.

Lemma under_loop_result fuel : forall t b v, under_loop fuel t b = Ok v -> is_named (v_type v) = false /\ IsUnionType (v_type v) = false.
Proof.
  induction fuel as [|fuel IH]; intros t b v; [done|]. cbn [under_loop]. pose proof (TypeUnder_named t) as Hn.
  destruct (TypeUnder t) as [| | | | |i ts| | |] eqn:Et; try done; try by intros [= <-].
  destruct (Untag i ts b) as [[t' b']| |]; try done. apply IH.
Qed.

(** what [Under] returns has neither a named type nor a union type, as its
    comment promises; it fails to return only where resolving the value leads
    to a null value of a union type. *)
Theorem Under_spec to32 to16 v :
  match Under to32 to16 v with
  | Ok v' => is_named (v_type v') = false /\ IsUnionType (v_type v') = false
  | Err Diverge => exists b u i ts, Value_Bytes to32 to16 v = Ok b /\
                     rtc untag_step (v_type v, b) (u, None) /\ TypeUnder u = TUnion i ts
  | Panic => True
  end.
Proof.
  unfold Under.
  assert (Hloop : match (b ← (match Value_Bytes to32 to16 v with Ok b => Ok b | _ => Panic end : outcome diverge bytes);
                         under_loop (S (depth (v_type v))) (v_type v) b) with
    | Ok v' => is_named (v_type v') = false /\ IsUnionType (v_type v') = false
    | Err Diverge => exists b u i ts, Value_Bytes to32 to16 v = Ok b /\
                     rtc untag_step (v_type v, b) (u, None) /\ TypeUnder u = TUnion i ts
    | Panic => True
    end).
  { destruct (Value_Bytes to32 to16 v) as [b| |]; cbn [mbind outcome_bind obind]; try done.
    destruct (under_loop _ _ b) as [v'|[]|] eqn:E; [by eapply under_loop_result| |done].
    apply under_loop_diverges in E as (u & i & ts & Hr & Hu); [|lia]. eauto 10. }
  destruct (v_type v) eqn:Et; try exact Hloop; by rewrite Et.
Qed.

(** A null value of a union type makes [under] loop forever: [Untag] of nil
    bytes returns the union again. *)
Theorem Under_null_union i ts fuel : under_loop fuel (TUnion i ts) None = Err Diverge.
Proof. induction fuel as [|fuel IH]; [done|]. cbn [under_loop TypeUnder]. simpl. exact IH. Qed.

(** *** Navigating containers *)

Lemma read_nth_body fuel vs n :
  Forall small vs -> (length (body_of vs) <= fuel)%nat -> 0 <= n ->
  read_nth fuel n (body_of vs) = Ok (vs !! Z.to_nat n).
Proof.
  revert fuel n. induction vs as [|v vs IH]; intros fuel n Hs Hf Hn; [by destruct fuel|].
  inversion_clear Hs as [|? ? Hv Hvs]. unfold body_of in *. cbn [map concat] in *. rewrite length_app in Hf.
  pose proof (length_val v). destruct fuel as [|fuel]; [lia|]. cbn [read_nth]. rewrite Done_val, Next_Append by done.
  cbn [lift_panic mbind outcome_bind obind]. destruct (Z.eqb_spec n 0) as [->|Hne]; [done|].
  rewrite IH by (done || lia). by replace (Z.to_nat n) with (S (Z.to_nat (n - 1))) by lia.
Qed.

Lemma iter_all_body vs : Forall small vs -> iter_all (Some (body_of vs)) = Ok vs.
Proof.
  intros Hs. unfold iter_all, Iter. cbn [default from_option id].
  rewrite (iter_loop_body _ id); [by rewrite map_id|intros; by apply Next_Append|done|done].
Qed.

Lemma TypeUnder_inner t : InnerType t = match TypeUnder t with TArray _ u | TSet _ u => Some u | _ => None end.
Proof. unfold InnerType. by destruct (TypeUnder t). Qed.

(** the elements of an array value are the values it was built from, as many
    as [ContainerLength] says, and [ArrayIndex] returns the one at the index
    or the out-of-range error. *)
Theorem array_navigation to32 to16 i u vs k :
  Forall small vs ->
  let v := NewValue (TArray i u) (Some (body_of vs)) in
  Elements to32 to16 v = Ok (map (NewValue u) vs) /\
  ContainerLength to32 to16 v = Ok (zlen vs) /\
  ArrayIndex to32 to16 v k =
    (if k <? 0 then Err ErrIndex
     else match vs !! Z.to_nat k with Some b => Ok (NewValue u b) | None => Err ErrIndex end).
Proof.
  intros Hs. cbv zeta. split_and!.
  - unfold Elements. simpl. by rewrite iter_all_body.
  - unfold ContainerLength. simpl. by rewrite iter_all_body.
  - unfold ArrayIndex. simpl. destruct (Z.ltb_spec k 0); [done|]. rewrite read_nth_body by done. by simpl.
Qed.

Lemma array_navigation_witness :
  let v := NewValue (TArray 30 (TPrim Bytes)) (Some (body_of [Some [zb 5]; None])) in
  Elements id id v = Ok [NewValue (TPrim Bytes) (Some [zb 5]); NewValue (TPrim Bytes) None] /\
  ContainerLength id id v = Ok 2 /\ ArrayIndex id id v 7 = Err ErrIndex.
Proof.
  apply (array_navigation id id 30 (TPrim Bytes) [Some [zb 5]; None] 7).
  repeat (apply Forall_cons_2; [done|]); apply Forall_nil_2.
Defined.

(** *** Fields *)

Lemma createLUT_spec_aux (fs : list field) k m name :
  fold_left (fun m '(k, f) => <[f.1 := k]> m) (zip (seq k (length fs)) fs) m !! name =
  match last (filter (fun kf => kf.2.1 = name) (zip (seq k (length fs)) fs)) with
  | Some (j, _) => Some j
  | None => (m : gmap gostring nat) !! name
  end.
Proof.
  revert k m. induction fs as [|f fs IH]; intros k m; [done|]. cbn [length seq zip zip_with fold_left].
  rewrite IH, filter_cons. case_decide as Hd; cbn [snd] in Hd.
  - rewrite last_cons. destruct (last _) as [[j g]|]; [done|]. subst name. apply lookup_insert_eq.
  - destruct (last _) as [[j g]|]; [done|]. by apply lookup_insert_ne.
Qed.

(** Where the names are distinct, the table gives the one position of a name. *)
Lemma IndexOfField_spec (fs : list field) name j :
  NoDup (map fst fs) -> IndexOfField fs name = Some j <-> exists t, fs !! j = Some (name, t).
Proof.
  intros Hnd. unfold IndexOfField, createLUT. rewrite createLUT_spec_aux.
  assert (H : forall k, (forall j t, fs !! j = Some (name, t) ->
              last (filter (fun kf => kf.2.1 = name) (zip (seq k (length fs)) fs)) = Some ((k + j)%nat, (name, t))) /\
            ((forall j t, fs !! j <> Some (name, t)) -> filter (fun kf => kf.2.1 = name) (zip (seq k (length fs)) fs) = [])).
  { induction fs as [|[n t] fs IH]; intros k; [by split|]. inversion_clear Hnd as [|? ? Hn Hnd'].
    destruct (IH Hnd' (S k)) as [IH1 IH2]. cbn [length seq zip zip_with]. rewrite filter_cons. cbn [snd fst].
    case_decide as Hd.
    - subst n. assert (Hno : forall j t, fs !! j <> Some (name, t)).
      { intros j' u Hj. apply Hn. apply list_elem_of_lookup_2 in Hj. by apply (list_elem_of_fmap_2 fst) in Hj. }
      fold (zip (seq (S k) (length fs)) fs). rewrite (IH2 Hno). split.
      + intros [|j'] u Hj; [|by apply Hno in Hj]. injection Hj as ->. simpl. by rewrite Nat.add_0_r.
      + intros H. by destruct (H 0%nat t).
    - fold (zip (seq (S k) (length fs)) fs). split.
      + intros [|j'] u Hj; [by injection Hj as -> _|]. rewrite (IH1 j' u Hj). f_equal. f_equal. lia.
      + intros H. apply IH2. intros j' u. apply (H (S j')). }
  specialize (H 0%nat) as [H1 H2]. split.
  - destruct (last (filter _ _)) as [[k f]|] eqn:E; [|by rewrite lookup_empty]. intros [= <-].
    destruct (list_find (fun f : field => f.1 = name) fs) as [[j [n t]]|] eqn:Ef.
    + apply list_find_Some in Ef as (Hj & Hname & _). simpl in Hname. subst n. specialize (H1 _ _ Hj).
      injection H1 as -> _. eauto.
    + apply list_find_None in Ef. rewrite H2 in E; [done|]. intros j' t Hj. rewrite Forall_forall in Ef.
      by apply (Ef (name, t) (list_elem_of_lookup_2 _ _ _ Hj)).
  - intros [t Hj]. by rewrite (H1 _ _ Hj).
Qed.

(** [Deref] of a record with distinct field names returns the field's value
    with the field's type; it returns nil for a name the record lacks, for a
    field past the end of the bytes and for a field whose value is null. *)
Theorem Deref_record to32 to16 t fs vs name :
  TypeRecordOf t = Some fs -> NoDup (map fst fs) -> Forall small vs ->
  Deref to32 to16 (Some (NewValue t (Some (body_of vs)))) name =
  Ok (match list_find (fun f : field => f.1 = name) fs with
      | Some (j, f) => match vs !! j with Some (Some b) => Some (NewValue f.2 (Some b)) | _ => None end
      | None => None
      end).
Proof.
  intros Ht Hnd Hs. unfold Deref, IndexOfField_. cbn [v_type NewValue]. rewrite Ht.
  destruct (list_find (fun f : field => f.1 = name) fs) as [[j [n u]]|] eqn:Ef.
  - apply list_find_Some in Ef as (Hj & Hname & _). simpl in Hname. subst n.
    rewrite (proj2 (IndexOfField_spec fs name j Hnd)) by eauto. unfold DerefByColumn, nth. cbn [Value_Bytes v_repr NewValue lift_panic mbind outcome_bind obind].
    unfold Iter. cbn [default from_option id]. rewrite read_nth_body by (done || lia). cbn [mbind outcome_bind obind].
    rewrite Nat2Z.id. destruct (vs !! j) as [[b|]|]; cbn [mbind outcome_bind obind]; [|done..].
    cbn [v_type NewValue]. by rewrite Ht, Hj.
  - assert (IndexOfField fs name = None) as ->; [|done].
    destruct (IndexOfField fs name) as [j|] eqn:E; [|done]. apply IndexOfField_spec in E as [u Hj]; [|done].
    apply list_find_None in Ef. rewrite Forall_forall in Ef. by destruct (Ef (name, u) (list_elem_of_lookup_2 _ _ _ Hj)).
Qed.

Lemma Deref_record_witness :
  let fs := [(str "a", TPrim Bytes); (str "b", TPrim Bytes)] in
  Deref id id (Some (NewValue (TNamed 31 (str "r") (TRecord 30 fs)) (Some (body_of [None; Some [zb 5]])))) (str "b")
  = Ok (Some (NewValue (TPrim Bytes) (Some [zb 5]))).
Proof.
  apply (Deref_record id id (TNamed 31 (str "r") (TRecord 30 [(str "a", TPrim Bytes); (str "b", TPrim Bytes)]))
           [(str "a", TPrim Bytes); (str "b", TPrim Bytes)] [None; Some [zb 5]] (str "b")).
  - reflexivity.
  - apply (bool_decide_unpack _). vm_compute. exact I.
  - repeat (apply Forall_cons_2; [done|]); apply Forall_nil_2.
Defined.

(** The source's [NewTypeValue] makes values of type [net]. *)
Example NewTypeValue_is_net t : v_type (NewTypeValue t) = TPrim Net.
Proof. reflexivity. Qed.

(** An enum selector past [2^63] passes [checkEnum]: it is negative as an [int]. *)
Theorem checkEnum_negative :
  checkEnum [str "a"] (AppendUint None (2 ^ 63)) = Ok tt /\ Symbol [str "a"] (i64 (2 ^ 63)) = None.
Proof. split; vm_compute; reflexivity. Qed.
