(* ===== verification/Zngio.v ===== *)
(** * ZNG streams

    [src/zio/zngio]: the typedef encoder and decoder ([types.go]), the writer
    ([writer.go]), the frame parser ([parser.go], [frame.go], [buffer.go]) and
    the scanner and reader ([sync.go], [scanner.go], [reader.go]).  The scanner
    is the synchronous one; the threaded one hands the same frames to the same
    [scanBatch] and delivers the results in the order of the frames.

    A [buffer] is the bytes it has left.  LZ4 is a library: its block functions
    are a class with their documented round trip. *)

From S2P Require Import Prelude Peeker Zcode Types Context Mapper Values.
Local Open Scope Z_scope.

Definition TypeDefRecord : Z := 0.
Definition TypeDefArray : Z := 1.
Definition TypeDefSet : Z := 2.
Definition TypeDefMap : Z := 3.
Definition TypeDefUnion : Z := 4.
Definition TypeDefEnum : Z := 5.
Definition TypeDefError : Z := 6.
Definition TypeDefName : Z := 7.

Definition TypesFrame : Z := 0.
Definition ValuesFrame : Z := 1.
Definition ControlFrame : Z := 2.
Definition EOS : Z := 255.
Definition CompressionFormatLZ4 : Z := 0.
Definition DefaultFrameThresh : Z := 512 * 1024.

(** What can go wrong; the last two are fuel that ran out, which
    the theorems exclude. *)
Inductive zng_error :=
| ErrRecord (e : record_error)
| ErrName (e : name_error)
| ErrLookup (e : lookup_error)
| ErrMapper (e : mapper_error)
| ErrRead (e : read_error)
| ErrPeek (e : peek_error)
| ErrBadFormat
| ErrTypedefCode (code : Z)
| ErrZeroTypes
| ErrVersionBit
| ErrFrameType (typ : Z)
| ErrFrameLength (size : Z)
| ErrCompressionFormat (fmt : Z)
| ErrDecompress
| ErrTypeID (id : Z)
| ErrInvalid
| ErrWrite
| ErrLookupDiverges
| ErrLoopDiverges.

(** ** Encoding types *)

Record Encoder := mkEncoder {
  zctx : Context;
  encoded : list (ty * ty);
  e_bytes : list byte;
}.

Definition NewEncoder : Encoder := mkEncoder NewContext [] [].
Definition Encoder_Reset (e : Encoder) : Encoder := mkEncoder (Reset (zctx e)) [] [].
Definition Encoder_Flush (e : Encoder) : Encoder := mkEncoder (zctx e) (encoded e) [].

(** The map from external types to internal ones, with the newest first. *)
Fixpoint find_encoded (ext : ty) (m : list (ty * ty)) : option ty :=
  match m with
  | [] => None
  | (k, t) :: m => if decide (k = ext) then Some t else find_encoded ext m
  end.
Definition Encoder_Lookup (e : Encoder) (ext : ty) : option ty := find_encoded ext (encoded e).

Abbreviation EM := (stm Encoder zng_error).

Definition on_zctx {A} (m : M A) : EM A := fun e =>
  match m (zctx e) with
  | Ok (a, c) => (Ok a, mkEncoder c (encoded e) (e_bytes e))
  | Err _ => (Err ErrLookupDiverges, e)
  | Panic => (Panic, e)
  end.
Definition emit (bs : list byte) : EM unit :=
  modify (fun e => mkEncoder (zctx e) (encoded e) (e_bytes e ++ bs)).
Definition remember (ext t : ty) : EM unit :=
  modify (fun e => mkEncoder (zctx e) ((ext, t) :: encoded e) (e_bytes e)).

Definition ok_or {S A B} (err : A -> zng_error) (r : A + B) : stm S zng_error B :=
  match r with inl e => throw (err e) | inr b => mret b end.

Definition typedef_code (code : Z) : list byte := [zb code].
Definition id_bytes (t : ty) : list byte := uvarint_bytes (u64 (TypeID t)).

(** [Encode] around [encode]: a type is encoded once. *)
Definition memo (encode : ty -> EM ty) (ext : ty) : EM ty :=
  e ← get;
  match Encoder_Lookup e ext with
  | Some t => mret t
  | None => t ← encode ext; _ ← remember ext t; mret t
  end.

Definition encode_fields (Encode : ty -> EM ty) : list field -> EM (list field) :=
  fix go fs :=
    match fs with
    | [] => mret []
    | (name, t) :: fs => child ← Encode t; fields ← go fs; mret ((name, child) :: fields)
    end.
Definition encode_types (Encode : ty -> EM ty) : list ty -> EM (list ty) :=
  fix go ts :=
    match ts with
    | [] => mret []
    | t :: ts => t ← Encode t; types ← go ts; mret (t :: types)
    end.

Definition encodeTypeRecord (fields : list field) : EM ty :=
  typ ← on_zctx (LookupTypeRecord fields) ≫= ok_or ErrRecord;
  _ ← emit (typedef_code TypeDefRecord ++ uvarint_bytes (u64 (zlen fields)) ++
            concat (map (fun f => name_bytes f.1 ++ id_bytes f.2) fields));
  mret typ.

(** [LookupTypeUnion] has sorted the slice when its ids are written. *)
Definition encodeTypeUnion (types : list ty) : EM ty :=
  typ ← on_zctx (LookupTypeUnion types);
  let types := sort_types types in
  _ ← emit (typedef_code TypeDefUnion ++ uvarint_bytes (u64 (zlen types)) ++ concat (map id_bytes types));
  mret typ.

Definition encodeTypeSet (inner : ty) : EM ty :=
  typ ← on_zctx (LookupTypeSet inner);
  _ ← emit (typedef_code TypeDefSet ++ id_bytes inner);
  mret typ.

Definition encodeTypeArray (inner : ty) : EM ty :=
  typ ← on_zctx (LookupTypeArray inner);
  _ ← emit (typedef_code TypeDefArray ++ id_bytes inner);
  mret typ.

Definition encodeTypeEnum (symbols : list gostring) : EM ty :=
  typ ← on_zctx (LookupTypeEnum symbols);
  _ ← emit (typedef_code TypeDefEnum ++ uvarint_bytes (u64 (zlen symbols)) ++ concat (map name_bytes symbols));
  mret typ.

Definition encodeTypeMap (keyType valType : ty) : EM ty :=
  typ ← on_zctx (LookupTypeMap keyType valType);
  _ ← emit (typedef_code TypeDefMap ++ id_bytes keyType ++ id_bytes valType);
  mret typ.

Definition encodeTypeName (name : gostring) (inner : ty) : EM ty :=
  typ ← on_zctx (LookupTypeNamed name inner) ≫= ok_or ErrName;
  _ ← emit (typedef_code TypeDefName ++ name_bytes name ++ id_bytes inner);
  mret typ.

Definition encodeTypeError (inner : ty) : EM ty :=
  typ ← on_zctx (LookupTypeError inner);
  _ ← emit (typedef_code TypeDefError ++ id_bytes inner);
  mret typ.

(** The components of a type are encoded before its own typedef. *)
Fixpoint encode (ext : ty) : EM ty :=
  match ext with
  | TRecord _ fields => encode_fields (memo encode) fields ≫= encodeTypeRecord
  | TSet _ t => memo encode t ≫= encodeTypeSet
  | TArray _ t => memo encode t ≫= encodeTypeArray
  | TUnion _ types => encode_types (memo encode) types ≫= encodeTypeUnion
  | TMap _ k v => keyType ← memo encode k; valType ← memo encode v; encodeTypeMap keyType valType
  | TEnum _ symbols => encodeTypeEnum symbols
  | TNamed _ name t => memo encode t ≫= encodeTypeName name
  | TError _ t => memo encode t ≫= encodeTypeError
  | TPrim _ => mret ext
  end.
Definition Encode (ext : ty) : EM ty := memo encode ext.

(** ** Decoding types *)

(** The shared output context, the local context of the stream and the mapper
    from the local to the shared one. *)
Record Decoder := mkDecoder { shared : Context; local : Context; local_mapper : mapper }.

Definition Decoder_reset (d : Decoder) : Decoder := mkDecoder (shared d) NewContext NewMapper.
Definition NewDecoder (shared : Context) : Decoder := mkDecoder shared NewContext NewMapper.

(** A decoder and the buffer it reads.  A buffer is dropped after an error, so
    what the error leaves in it is not kept. *)
Abbreviation DM := (stm (Decoder * list byte) zng_error).

Definition buf_ReadByte : DM byte := fun s =>
  match s.2 with
  | [] => (Err (ErrRead EOF), s)
  | b :: buf => (Ok b, (s.1, buf))
  end.

(** [buffer.read]: the slice of a negative length is out of range. *)
Definition buf_read (n : Z) (buf : list byte) : outcome zng_error (list byte * list byte) :=
  if zlen buf <? n then Err (ErrRead (if zlen buf =? 0 then EOF else ErrUnexpectedEOF))
  else if n <? 0 then Panic
  else Ok (take (Z.to_nat n) buf, drop (Z.to_nat n) buf).

Definition buf_op {A} (op : list byte -> outcome zng_error (A * list byte)) : DM A := fun s =>
  match op s.2 with
  | Ok (a, buf) => (Ok a, (s.1, buf))
  | Err e => (Err e, s)
  | Panic => (Panic, s)
  end.

Definition buf_uvarint (buf : list byte) : outcome zng_error (Z * list byte) :=
  match read_uvarint buf with
  | Ok (u, buf) => Ok (i64 u, buf)
  | Err e => Err (ErrRead e)
  | Panic => Panic
  end.

(** Errors of the buffer become [errBadFormat] in the typedef readers. *)
Definition bad_format {A} (m : outcome zng_error A) : outcome zng_error A := omap_err (fun _ => ErrBadFormat) m.

Definition readUvarintAsInt : DM Z := buf_op (fun buf => bad_format (buf_uvarint buf)).
Definition readCountedString : DM gostring :=
  n ← readUvarintAsInt; buf_op (fun buf => bad_format (buf_read n buf)).

Definition on_local {A} (m : M A) : DM A := fun s =>
  match m (local s.1) with
  | Ok (a, c) => (Ok a, (mkDecoder (shared s.1) c (local_mapper s.1), s.2))
  | Err _ => (Err ErrLookupDiverges, s)
  | Panic => (Panic, s)
  end.

Definition local_LookupType (id : Z) : DM ty := fun s =>
  (omap_err ErrLookup (LookupType (local s.1) id), s).

(** [d.local.mapper.Enter(typ)] *)
Definition enter (typ : ty) : DM unit := fun s =>
  let '(r, (sh, m)) := Mapper.Enter typ (shared s.1, local_mapper s.1) in
  (_ ← omap_err ErrMapper r; Ok tt, (mkDecoder sh (local s.1) m, s.2)).

(** [for k := 0; k < n; k++ { ... }] over a reader that consumes or fails. *)
Fixpoint read_n {A} (read : DM A) (fuel : nat) (n : Z) : DM (list A) :=
  if n <=? 0 then mret []
  else match fuel with
       | O => throw ErrLoopDiverges
       | S fuel => x ← read; xs ← read_n read fuel (n - 1); mret (x :: xs)
       end.
(** Each round takes a byte or fails, so the bytes of the buffer are enough. *)
Definition read_list {A} (read : DM A) (n : Z) : DM (list A) := fun s => read_n read (S (length s.2)) n s.

Definition readField : DM field :=
  name ← readCountedString;
  id ← readUvarintAsInt;
  typ ← local_LookupType id;
  mret (name, typ).

Definition readTypeRecord : DM unit :=
  nfields ← readUvarintAsInt;
  fields ← read_list readField nfields;
  typ ← on_local (LookupTypeRecord fields) ≫= ok_or ErrRecord;
  enter typ.

Definition readInner : DM ty := id ← readUvarintAsInt; local_LookupType id.

Definition readTypeArray : DM unit := inner ← readInner; typ ← on_local (LookupTypeArray inner); enter typ.
Definition readTypeSet : DM unit := inner ← readInner; typ ← on_local (LookupTypeSet inner); enter typ.
Definition readTypeMap : DM unit :=
  keyType ← readInner; valType ← readInner; typ ← on_local (LookupTypeMap keyType valType); enter typ.
Definition readTypeUnion : DM unit :=
  ntyp ← readUvarintAsInt;
  if ntyp =? 0 then throw ErrZeroTypes
  else
    types ← read_list readInner ntyp;
    typ ← on_local (LookupTypeUnion types);
    enter typ.
Definition readTypeEnum : DM unit :=
  nsym ← readUvarintAsInt;
  symbols ← read_list readCountedString nsym;
  typ ← on_local (LookupTypeEnum symbols);
  enter typ.
Definition readTypeName : DM unit :=
  name ← readCountedString;
  inner ← readInner;
  typ ← on_local (LookupTypeNamed name inner) ≫= ok_or ErrName;
  enter typ.
Definition readTypeError : DM unit := inner ← readInner; typ ← on_local (LookupTypeError inner); enter typ.

Definition readTypedef (code : Z) : DM unit :=
  if code =? TypeDefRecord then readTypeRecord
  else if code =? TypeDefSet then readTypeSet
  else if code =? TypeDefArray then readTypeArray
  else if code =? TypeDefMap then readTypeMap
  else if code =? TypeDefUnion then readTypeUnion
  else if code =? TypeDefEnum then readTypeEnum
  else if code =? TypeDefName then readTypeName
  else if code =? TypeDefError then readTypeError
  else throw (ErrTypedefCode code).

(** [Decoder.decode]: every round takes the byte of the code. *)
Fixpoint decode_loop (fuel : nat) : DM unit := fun s =>
  match s.2, fuel with
  | [], _ => (Ok tt, s)
  | _, O => (Err ErrLoopDiverges, s)
  | _, S fuel => (code ← buf_ReadByte; _ ← readTypedef (bz code); decode_loop fuel) s
  end.
Definition decode (buf : list byte) : stm Decoder zng_error unit := fun d =>
  let '(r, (d, _)) := decode_loop (length buf) (d, buf) in (r, d).

(** ** Compression

    [lz4.CompressBlock] into a buffer of the size of its input, [None] when
    the result does not fit, and [lz4.UncompressBlock] into a buffer of the
    given size. *)
Class LZ4 := {
  compressBlock : list byte -> option (list byte);
  uncompressBlock : list byte -> Z -> option (list byte);
}.

(** What LZ4 documents of the two. *)
Class LZ4Laws `{!LZ4} : Prop := {
  lz4_roundtrip b z : compressBlock b = Some z -> uncompressBlock z (zlen b) = Some b;
  lz4_fits b z : compressBlock b = Some z -> zlen z <= zlen b;
}.

Section zng.
Context `{!LZ4}.

(** [compressor.compress]; the flag tells whether there is a compressor. *)
Definition compress (c : bool) (b : list byte) : option (list byte) :=
  if negb c || (zlen b =? 0) then None
  else match compressBlock b with
       | Some z => if 0 <? zlen z then Some z else None
       | None => None
       end.

(** ** Writing *)

(** The underlying [io.WriteCloser]: what it received and how many more bytes
    it takes before it fails ([None]: it never does). *)
Record sink := mkSink { data : list byte; room : option Z; closed : bool }.

Record WriterOpts := mkOpts { Compress : bool; FrameThresh : Z }.
Definition DefaultOpts : WriterOpts := mkOpts true DefaultFrameThresh.

Record Writer := mkWriter {
  writer : sink;
  position : Z;
  flushed : Z;
  opts : WriterOpts;
  types : Encoder;
  values : list byte;
}.

Definition NewWriterWithOpts (w : sink) (o : WriterOpts) : Writer := mkWriter w 0 0 o NewEncoder [].
Definition NewWriter (w : sink) : Writer := NewWriterWithOpts w DefaultOpts.

Abbreviation WM := (stm Writer zng_error).

Definition set_writer (s : sink) (pos : Z) (w : Writer) : Writer :=
  mkWriter s pos (flushed w) (opts w) (types w) (values w).
Definition set_types (e : Encoder) (w : Writer) : Writer :=
  mkWriter (writer w) (position w) (flushed w) (opts w) e (values w).
Definition set_values (v : list byte) (w : Writer) : Writer :=
  mkWriter (writer w) (position w) (flushed w) (opts w) (types w) v.
Definition set_flushed (p : Z) (w : Writer) : Writer :=
  mkWriter (writer w) (position w) p (opts w) (types w) (values w).

Definition write (p : list byte) : WM unit := fun w =>
  let s := writer w in
  match room s with
  | Some k =>
      if k <? zlen p then
        (Err ErrWrite, set_writer (mkSink (data s ++ take (Z.to_nat k) p) (Some 0) (closed s)) (position w) w)
      else (Ok tt, set_writer (mkSink (data s ++ p) (Some (k - zlen p)) (closed s)) (position w + zlen p) w)
  | None => (Ok tt, set_writer (mkSink (data s ++ p) None (closed s)) (position w + zlen p) w)
  end.

Definition frame_header (blockType size : Z) : list byte :=
  zb (Z.lor (Z.shiftl blockType 4) (Z.land size 15)) :: uvarint_bytes (u64 (Z.shiftr size 4)).
Definition writeHeader (blockType size : Z) : WM unit := write (frame_header blockType size).

Definition comp_header (blockType size zlen : Z) : list byte :=
  let zlen := zlen + (1 + SizeOfUvarint (u64 size)) in
  zb (Z.lor (Z.lor (Z.shiftl blockType 4) (Z.land zlen 15)) 64) :: uvarint_bytes (u64 (Z.shiftr zlen 4))
    ++ zb CompressionFormatLZ4 :: uvarint_bytes (u64 size).
Definition writeCompHeader (blockType size zlen : Z) : WM unit := write (comp_header blockType size zlen).

Definition writeBlock (blockType : Z) (b : list byte) : WM unit :=
  if zlen b =? 0 then mret tt
  else
    w ← get;
    match compress (Compress (opts w)) b with
    | Some z => _ ← writeCompHeader blockType (zlen b) (zlen z); write z
    | None => _ ← writeHeader blockType (zlen b); write b
    end.

(** [if err := m; err != nil { return nil }; k] *)
Definition or_return_nil (m k : WM unit) : WM unit := fun w =>
  match m w with
  | (Ok _, w) => k w
  | (Err _, w) => (Ok tt, w)
  | (Panic, w) => (Panic, w)
  end.

(** [flush] returns nil even when a block could not be written, as the source
    does. *)
Definition flush : WM unit :=
  w ← get;
  or_return_nil (writeBlock TypesFrame (e_bytes (types w)))
    (or_return_nil (writeBlock ValuesFrame (values w))
       (modify (fun w => set_values [] (set_types (Encoder_Flush (types w)) w)))).

Definition EndStream : WM unit :=
  _ ← flush;
  w ← get;
  _ ← (if flushed w =? position w then mret tt
       else _ ← write [zb EOS]; modify (fun w => set_flushed (position w) w));
  modify (fun w => set_types (Encoder_Reset (types w)) w).

Definition close_sink : WM unit := modify (fun w =>
  set_writer (mkSink (data (writer w)) (room (writer w)) true) (position w) w).

(** [Close] closes the writer also when the end of the stream fails. *)
Definition Close : WM unit := fun w =>
  match EndStream w with
  | (Panic, w) => (Panic, w)
  | (r, w) => let '(_, w) := close_sink w in (r, w)
  end.

Definition on_types {A} (m : EM A) : WM A := fun w =>
  let '(r, e) := m (types w) in (r, set_types e w).

Section narrow_floats.
Context (to32 of32 to16 of16 : Z -> Z).

Definition Write (val : Value) : WM unit :=
  w ← get;
  typ ← match Encoder_Lookup (types w) (v_type val) with
        | Some typ => mret typ
        | None => on_types (Encode (v_type val))
        end;
  bytes ← lift_out (lift_panic (Value_Bytes to32 to16 val));
  _ ← modify (fun w => set_values
        (default [] (Append (Some (values w ++ uvarint_bytes (u64 (TypeID typ)))) bytes)) w);
  w ← get;
  let thresh := FrameThresh (opts w) in
  if (thresh <=? zlen (values w)) || (thresh <=? zlen (e_bytes (types w))) then flush else mret tt.
End narrow_floats.

Definition WriteControl (b : list byte) (format : byte) : WM unit :=
  _ ← flush; writeBlock ControlFrame (format :: b).

(** ** Parsing frames *)

Section reader.
Context (chunk : list byte -> Z -> Z).

Record parser := mkParser { peeker : Reader; p_types : Decoder; maxSize : Z }.
Abbreviation PM := (stm parser zng_error).

(** The end of the input is [io.EOF]. *)
Definition peek_err (e : peek_error) : zng_error :=
  match e with ErrPeekEOF => ErrRead EOF | e => ErrPeek e end.
Definition on_peeker {A} (m : stm Reader peek_error A) : PM A := fun p =>
  let '(r, pk) := m (peeker p) in (omap_err peek_err r, mkParser pk (p_types p) (maxSize p)).
Definition on_decoder {A} (m : stm Decoder zng_error A) : PM A := fun p =>
  let '(r, d) := m (p_types p) in (r, mkParser (peeker p) d (maxSize p)).
Definition peek_byte : PM byte := on_peeker (ReadByte chunk).

(** [binary.ReadUvarint] on the peeker: the end of the input inside a varint is
    unexpected. *)
Fixpoint peek_uvarint_loop (fuel : nat) (i x s : Z) : PM Z :=
  match fuel with
  | O => throw (ErrRead ErrOverflow)
  | S fuel => fun p =>
      match peek_byte p with
      | (Err (ErrRead EOF), p) => (Err (ErrRead (if 0 <? i then ErrUnexpectedEOF else EOF)), p)
      | (Err e, p) => (Err e, p)
      | (Panic, p) => (Panic, p)
      | (Ok b, p) =>
          if bz b <? 128 then
            if (i =? MaxVarintLen64 - 1) && (1 <? bz b) then (Err (ErrRead ErrOverflow), p)
            else (Ok (Z.lor x (u64 (Z.shiftl (bz b) s))), p)
          else peek_uvarint_loop fuel (i + 1) (Z.lor x (u64 (Z.shiftl (Z.land (bz b) 127) s))) (s + 7) p
      end
  end.
Definition peek_uvarint : PM Z := u ← peek_uvarint_loop 10 0 0 0; mret (i64 u).

(** A frame; a compressed one carries the size of its decompressed bytes. *)
Inductive frame :=
| Uncompressed (ubuf : list byte)
| Compressed (fmt : Z) (zbuf : list byte) (size : Z).

Definition decompress (f : frame) : outcome zng_error (list byte) :=
  match f with
  | Uncompressed ubuf => Ok ubuf
  | Compressed fmt zbuf size =>
      if negb (fmt =? CompressionFormatLZ4) then Err (ErrCompressionFormat fmt)
      else match uncompressBlock zbuf size with
           | None => Err ErrDecompress
           | Some b => if zlen b =? size then Ok b else Err ErrDecompress
           end
  end.

(** [(v << 4) | (int(code) & 0xf)] *)
Definition decodeLength (code : Z) : PM Z :=
  v ← peek_uvarint; mret (Z.lor (i64 (Z.shiftl v 4)) (Z.land code 15)).

Definition readFrame (code : Z) : PM (list byte) :=
  size ← decodeLength code;
  p ← get;
  if maxSize p <? size then throw (ErrFrameLength size)
  else on_peeker (Read chunk size).

(** [newBuffer] slices a buffer to its length, out of range when negative.  An
    end of the input where the payload should be leaves it empty. *)
Definition readCompressedFrame (code : Z) : PM frame :=
  n ← decodeLength code;
  format ← peek_byte;
  size ← peek_uvarint;
  p ← get;
  if maxSize p <? size then throw (ErrFrameLength size)
  else
    let n := n - (1 + SizeOfUvarint (u64 size)) in
    b ← (fun p => match on_peeker (Read chunk n) p with
                  | (Err (ErrRead EOF), p) => (Ok [], p)
                  | (Err (ErrPeek ErrBufferOverflow), p) => (Err (ErrPeek ErrBufferOverflow), p)
                  | (Err _, p) => (Err ErrBadFormat, p)
                  | r => r
                  end) : PM (list byte);
    if size <? 0 then fault else mret (Compressed (bz format) b size).

Definition is_compressed (code : Z) : bool := negb (Z.land code 64 =? 0).

Definition decodeTypes (code : Z) : PM unit :=
  if is_compressed code then
    f ← readCompressedFrame code;
    b ← lift_out (decompress f);
    on_decoder (decode b)
  else b ← readFrame code; on_decoder (decode b).

Definition decodeValues (code : Z) : PM frame :=
  if is_compressed code then readCompressedFrame code
  else b ← readFrame code; mret (Uncompressed b).

(** A control message: its format and its bytes. *)
Definition decodeControl (code : Z) : PM (byte * list byte) :=
  bytes ← (if is_compressed code then f ← readCompressedFrame code; lift_out (decompress f)
           else readFrame code);
  match bytes with
  | [] => throw ErrBadFormat
  | format :: bytes => mret (format, bytes)
  end.

(** What [parser.read] delivers: a values frame, or a control message (which
    the source returns as an error value). *)
Inductive message := Values (f : frame) | Control (format : byte) (bytes : list byte).

(** [parser.read]: every round takes the byte of the code. *)
Fixpoint read_loop (fuel : nat) : PM message :=
  match fuel with
  | O => throw ErrLoopDiverges
  | S fuel =>
      code ← peek_byte;
      let code := bz code in
      if code =? EOS then
        _ ← on_decoder (modify Decoder_reset); read_loop fuel
      else if negb (Z.land code 128 =? 0) then throw ErrVersionBit
      else
        let typ := Z.land (Z.shiftr code 4) 3 in
        if typ =? TypesFrame then _ ← decodeTypes code; read_loop fuel
        else if typ =? ValuesFrame then f ← decodeValues code; mret (Values f)
        else if typ =? ControlFrame then c ← decodeControl code; mret (Control c.1 c.2)
        else throw (ErrFrameType typ)
  end.
Definition read : PM message := fun p => read_loop (S (length (stream (peeker p)))) p.

(** ** Scanning values *)

Section scanner.
Context (to32 of32 to16 of16 : Z -> Z).

(** The filters of a scanner, if it has one; [validate] is the reader's
    option. *)
Record scan_filter := mkFilter {
  bufferFilter : option (Context -> list byte -> bool);
  wants : option (Value -> bool);
  validate : bool;
}.

Record Progress := mkProgress { BytesRead : Z; BytesMatched : Z; RecordsRead : Z; RecordsMatched : Z }.
Definition Progress_Add (p q : Progress) : Progress :=
  mkProgress (BytesRead p + BytesRead q) (BytesMatched p + BytesMatched q)
    (RecordsRead p + RecordsRead q) (RecordsMatched p + RecordsMatched q).

(** [decodeVal] on the buffer and the lookup cache. *)
Definition decodeVal (fl : scan_filter) (m : mapper) : stm (list byte * mapper) zng_error Value := fun s =>
  match buf_uvarint s.1 with
  | Err e => (Err e, s)
  | Panic => (Panic, s)
  | Ok (id, buf) =>
      match ReadTag buf with
      | Err _ => (Err ErrBadFormat, s)
      | Panic => (Panic, s)
      | Ok (n, buf) =>
          match (if n =? 0 then Ok (Some [], buf)
                 else if 0 <? n then
                   match buf_read n buf with
                   | Ok (b, buf) => Ok (Some b, buf)
                   | Err (ErrRead EOF) => Ok (None, buf)
                   | Err _ => Err ErrBadFormat
                   | Panic => Panic
                   end
                 else Ok (None, buf)) : outcome zng_error (bytes * list byte) with
          | Err e => (Err e, s)
          | Panic => (Panic, s)
          | Ok (b, buf) =>
              match cache_Lookup (E := zng_error) m id s.2 with
              | (Ok (Some typ), c) =>
                  let v := NewValue typ b in
                  if validate fl && negb (Validate to32 to16 v) then (Err ErrInvalid, (buf, c))
                  else (Ok v, (buf, c))
              | (Ok None, c) => (Err (ErrTypeID id), (buf, c))
              | (Err e, c) => (Err e, (buf, c))
              | (Panic, c) => (Panic, (buf, c))
              end
          end
      end
  end.

(** [len(val.Bytes())] of a value that was read. *)
Definition raw_len (v : Value) : Z := match v_repr v with Raw (Some b) => zlen b | _ => 0 end.

Definition wantValue (fl : scan_filter) (v : Value) (p : Progress) : bool * Progress :=
  let p := Progress_Add p (mkProgress (raw_len v) 0 1 0) in
  if match wants fl with Some f => f v | None => true end
  then (true, Progress_Add p (mkProgress 0 (raw_len v) 0 1))
  else (false, p).

(** The loop of [scanBatch]; every value takes bytes of the buffer. *)
Fixpoint scan_loop (fuel : nat) (fl : scan_filter) (m : mapper) (buf : list byte) (c : mapper) (p : Progress)
    : outcome zng_error (list Value * Progress) :=
  match buf with
  | [] => Ok ([], p)
  | _ =>
      match fuel with
      | O => Err ErrLoopDiverges
      | S fuel =>
          match decodeVal fl m (buf, c) with
          | (Ok v, (buf, c)) =>
              let '(want, p) := wantValue fl v p in
              '(vs, p) ← scan_loop fuel fl m buf c p;
              Ok (if want : bool then v :: vs else vs, p)
          | (Err e, _) => Err e
          | (Panic, _) => Panic
          end
      end
  end.

(** [scanBatch]: the values of a frame, none for a nil batch, and the
    progress. *)
Definition scanBatch (fl : scan_filter) (d : Decoder) (buf : list byte) (p : Progress)
    : outcome zng_error (list Value * Progress) :=
  if match bufferFilter fl with Some bf => negb (bf (local d) buf) | None => false end
  then Ok ([], Progress_Add p (mkProgress (zlen buf) 0 0 0))
  else
    '(vs, q) ← scan_loop (length buf) fl (local_mapper d) buf cache_Reset (mkProgress 0 0 0 0);
    Ok (vs, Progress_Add p q).

Record scanner := mkScanner { s_parser : parser; s_progress : Progress; s_filter : scan_filter; s_eof : bool }.
Abbreviation SM := (stm scanner zng_error).

Definition on_parser {A} (m : PM A) : SM A := fun s =>
  let '(r, p) := m (s_parser s) in (r, mkScanner p (s_progress s) (s_filter s) (s_eof s)).
Definition scan (buf : list byte) : SM (list Value) := fun s =>
  match scanBatch (s_filter s) (p_types (s_parser s)) buf (s_progress s) with
  | Ok (vs, p) => (Ok vs, mkScanner (s_parser s) p (s_filter s) (s_eof s))
  | Err e => (Err e, s)
  | Panic => (Panic, s)
  end.

(** What [Pull] returns; [End] is the nil batch without an error. *)
Inductive pulled := Batch (vs : list Value) | Ctl (format : byte) (bytes : list byte) | End.

(** [scannerSync.Pull(false)]: frames without values are skipped, and every
    frame takes bytes of the input. *)
Fixpoint pull_loop (fuel : nat) : SM pulled :=
  match fuel with
  | O => throw ErrLoopDiverges
  | S fuel => fun s =>
      match on_parser read s with
      | (Err (ErrRead EOF), s) => (Ok End, s)
      | (Err e, s) => (Err e, s)
      | (Panic, s) => (Panic, s)
      | (Ok (Control format bytes), s) => (Ok (Ctl format bytes), s)
      | (Ok (Values f), s) =>
          (b ← lift_out (decompress f);
           vs ← scan b;
           match vs with [] => pull_loop fuel | _ => mret (Batch vs) end : SM pulled) s
      end
  end.
Definition Pull : SM pulled := fun s =>
  if s_eof s then (Ok End, s) else pull_loop (S (length (stream (peeker (s_parser s))))) s.
Definition Pull_done : SM pulled := fun s =>
  (Ok End, mkScanner (s_parser s) (s_progress s) (s_filter s) true).

Definition newScannerSync (shared : Context) (max : Z) (fl : scan_filter) (input : list byte) : scanner :=
  mkScanner (mkParser (NewReader max input) (NewDecoder shared) max) (mkProgress 0 0 0 0) fl false.

(** ** Reading values

    A [Reader] that is read value by value wraps the scanner in a
    [zbuf.PullerReader], which keeps the rest of the last batch. *)
Record zreader := mkZreader { r_scanner : scanner; r_vals : list Value }.
Abbreviation RM := (stm zreader zng_error).

Inductive payload := PValue (v : Value) | PControl (format : byte) (bytes : list byte) | PEnd.

Definition ReadPayload : RM payload := fun r =>
  match r_vals r with
  | v :: vs => (Ok (PValue v), mkZreader (r_scanner r) vs)
  | [] =>
      match Pull (r_scanner r) with
      | (Ok (Batch (v :: vs)), s) => (Ok (PValue v), mkZreader s vs)
      | (Ok (Batch []), s) => (Ok PEnd, mkZreader s [])   (* [Pull] returns no empty batch *)
      | (Ok (Ctl format bytes), s) => (Ok (PControl format bytes), mkZreader s [])
      | (Ok End, s) => (Ok PEnd, mkZreader s [])
      | (Err e, s) => (Err e, mkZreader s [])
      | (Panic, s) => (Panic, mkZreader s [])
      end
  end.

(** Everything a client that reads to the end gets, how it ends, and the
    reader then. *)
Fixpoint drain (fuel : nat) (r : zreader) : list payload * outcome zng_error unit * zreader :=
  match fuel with
  | O => ([], Err ErrLoopDiverges, r)
  | S fuel =>
      match ReadPayload r with
      | (Ok PEnd, r) => ([], Ok tt, r)
      | (Ok p, r) => let '(ps, e, r) := drain fuel r in (p :: ps, e, r)
      | (Err e, r) => ([], Err e, r)
      | (Panic, r) => ([], Panic, r)
      end
  end.
End scanner.
End reader.
End zng.
