(* ===== verification/ZngTotal.v ===== *)
(** * Reading terminates

    On any input, well formed or not, the loops of the decoder, the parser and
    the scanner end: their fuel, which is bounded by the bytes they have left,
    never runs out. *)

From S2P Require Import Prelude Peeker Zcode Types Context Mapper Interning Decode Values ValueProofs Zngio.
Local Open Scope Z_scope.

(** ** Running out of fuel

    The errors that stand for fuel that ran out: no loop of the code ends with
    one. *)
Definition out_of_fuel (e : zng_error) : bool :=
  match e with ErrLoopDiverges | ErrLookupDiverges | ErrMapper ErrMapperDiverges => true | _ => false end.
Definition ends {A} (m : outcome zng_error A) : Prop := match m with Err e => out_of_fuel e = false | _ => True end.

(** *** The decoder of type values, on any context *)

Definition fueled {A} (P : A -> Prop) (r : outcome diverge (A * Context)) : Prop :=
  match r with Ok (a, _) => P a | Err _ => False | Panic => True end.

Lemma fueled_bind {A B} (m : M A) (f : A -> M B) c (P : A -> Prop) (Q : B -> Prop) :
  fueled P (m c) -> (forall a c1, P a -> fueled Q (f a c1)) -> fueled Q ((m ≫= f) c).
Proof. unfold mbind, M_bind. intros Hm Hf. destruct (m c) as [[a c1]| |]; simpl in *; [by apply Hf|done..]. Qed.
Lemma fueled_impl {A} (P Q : A -> Prop) r : fueled P r -> (forall a, P a -> Q a) -> fueled Q r.
Proof. intros H HPQ. destruct r as [[a c]| |]; simpl in *; auto. Qed.

Lemma lookup_or_enter_fueled tv k mk c : fueled (fun _ => True) (lookup_or_enter tv k mk c).
Proof. unfold lookup_or_enter. destruct (toType c !! tv) as [t|]; [by destruct (k t)|done]. Qed.
Lemma LookupTypeError_fueled t c : fueled (fun _ => True) (LookupTypeError t c).
Proof. unfold LookupTypeError. destruct (toType c !! _) as [u|]; [by destruct (is_kind _ u)|done]. Qed.
Lemma LookupTypeRecord_fueled fs c : fueled (fun _ => True) (LookupTypeRecord fs c).
Proof.
  unfold LookupTypeRecord. destruct (toType c !! _) as [u|]; [by destruct (is_kind _ u)|]. by destruct (duplicateField fs).
Qed.
Lemma LookupTypeNamed_fueled n t c : fueled (fun _ => True) (LookupTypeNamed n t c).
Proof.
  unfold LookupTypeNamed. destruct (negb _); [done|]. destruct (LookupPrimitive n); [done|].
  destruct (toType c !! _) as [u|]; [by destruct (is_named u)|done].
Qed.

(** Less is left than there was. *)
Definition shorter {A} (tv : list byte) (r : option (A * list byte)) : Prop :=
  match r with Some (_, rest) => (length rest < length tv)%nat | None => True end.

Lemma DecodeName_fueled tv c : fueled (shorter tv) (lift (DecodeName tv) c).
Proof.
  pose proof (DecodeName_shorter tv) as H. unfold lift. destruct (DecodeName tv) as [[[n rest]|]| |]; try done.
  by destruct H.
Qed.

Section decode.
Context (decode : list byte -> M decoded) (fuel : nat).
Context (Hdecode : forall tv c, (length tv < fuel)%nat -> fueled (shorter tv) (decode tv c)).

Lemma decode_fields_fueled n : forall tv fs c,
  (length tv < fuel)%nat ->
  fueled (fun r => match r with Some (_, rest) => (length rest <= length tv)%nat | None => True end)
    (decode_fields decode n tv fs c).
Proof.
  induction n as [|n IH]; intros tv fs c Hl; cbn [decode_fields]; [by simpl|]. fold (decode_fields decode).
  eapply fueled_bind; [apply DecodeName_fueled|]. intros [[name tv1]|] c1 H1; [|done]. cbn in H1.
  eapply fueled_bind; [apply Hdecode; lia|]. intros [[t tv2]|] c2 H2; [|done]. cbn in H2.
  eapply fueled_impl; [apply IH; lia|]. intros [[fs' rest]|]; [|done]. lia.
Qed.
Lemma decode_types_fueled n : forall tv ts c,
  (length tv < fuel)%nat -> fueled (fun r => (length r.2 <= length tv)%nat) (decode_types decode n tv ts c).
Proof.
  induction n as [|n IH]; intros tv ts c Hl; cbn [decode_types]; [by simpl|]. fold (decode_types decode).
  eapply fueled_bind; [by apply Hdecode|]. intros [[t tv2]|] c2 H2; [|done]. cbn in H2.
  eapply fueled_impl; [apply IH; lia|]. intros [ts' rest]. cbn [snd]. lia.
Qed.
End decode.
Lemma decode_symbols_fueled n : forall tv ss c,
  fueled (fun r => match r with Some (_, rest) => (length rest <= length tv)%nat | None => True end)
    (lift (decode_symbols n tv ss) c).
Proof.
  induction n as [|n IH]; intros tv ss c; [by simpl|]. unfold lift in *. cbn [decode_symbols].
  pose proof (DecodeName_shorter tv) as H. destruct (DecodeName tv) as [[[s rest]|]| |]; try done.
  cbn [mbind outcome_bind obind]. specialize (IH rest (ss ++ [s]) c). destruct H as [Hl _].
  destruct (decode_symbols n rest (ss ++ [s])) as [[[ss' rest']|]| |]; try done. cbn in *. lia.
Qed.

Lemma fueled_then (m : M ty) (tv rest : list byte) c :
  fueled (fun _ => True) (m c) -> (length rest < length tv)%nat ->
  fueled (shorter tv) ((t ← m; mret (Some (t, rest))) c).
Proof. intros Hm Hl. by eapply fueled_bind. Qed.

Lemma decode_type_value_fueled fuel : forall tv c,
  (length tv < fuel)%nat -> fueled (shorter tv) (decode_type_value fuel tv c).
Proof.
  induction fuel as [|fuel IH]; intros tv c Hl; [lia|]. cbn [decode_type_value].
  destruct tv as [|id tv]; [done|]. cbn [length] in Hl.
  assert (Hinner : forall mk : ty -> M ty, (forall t c1, fueled (fun _ => True) (mk t c1)) ->
    fueled (shorter (id :: tv)) ((r ← decode_type_value fuel tv; match r with None => mret None
      | Some (inner, tv) => t ← mk inner; mret (Some (t, tv)) end) c)).
  { intros mk Hmk. eapply fueled_bind; [apply IH; lia|]. intros [[t tv1]|] c1 H1; [|done].
    apply fueled_then; [done|]. cbn in *. lia. }
  destruct (bz id =? TypeValueNameDef).
  { eapply fueled_bind; [apply DecodeName_fueled|]. intros [[name tv1]|] c1 H1; [|done]. cbn in H1.
    eapply fueled_bind; [apply IH; lia|]. intros [[t tv2]|] c2 H2; [|done]. cbn in H2.
    eapply fueled_bind; [apply LookupTypeNamed_fueled|]. intros [e|u] c3 _; [done|]. cbn. lia. }
  destruct (bz id =? TypeValueNameRef).
  { eapply fueled_bind; [apply DecodeName_fueled|]. intros [[name tv1]|] c1 H1; [|done]. cbn in H1.
    eapply (fueled_bind _ _ _ (fun _ => True)); [done|]. intros [t|] c2 _; [|done]. cbn. lia. }
  destruct (bz id =? TypeValueRecord).
  { destruct (DecodeLength tv) as [[n tv1]|] eqn:E; [|done]. apply DecodeLength_shorter in E as [Hl1 _].
    destruct (MaxRecordFields <? n); [done|]. destruct (n <? 0); [done|].
    eapply fueled_bind; [apply (decode_fields_fueled _ fuel); [done|lia]|]. intros [[fs tv2]|] c2 H2; [|done].
    eapply fueled_bind; [apply LookupTypeRecord_fueled|]. intros [e|u] c3 _; [done|]. cbn. lia. }
  destruct (bz id =? TypeValueArray); [apply Hinner; intros; apply lookup_or_enter_fueled|].
  destruct (bz id =? TypeValueSet); [apply Hinner; intros; apply lookup_or_enter_fueled|].
  destruct (bz id =? TypeValueMap).
  { eapply fueled_bind; [apply IH; lia|]. intros [[k tv1]|] c1 H1; [|done]. cbn in H1.
    eapply fueled_bind; [apply IH; lia|]. intros [[v tv2]|] c2 H2; [|done]. cbn in H2.
    apply fueled_then; [apply lookup_or_enter_fueled|]. simpl. lia. }
  destruct (bz id =? TypeValueUnion).
  { destruct (DecodeLength tv) as [[n tv1]|] eqn:E; [|done]. apply DecodeLength_shorter in E as [Hl1 _].
    destruct (MaxUnionTypes <? n); [done|]. destruct (n <? 0); [done|].
    eapply fueled_bind; [apply (decode_types_fueled _ fuel); [done|lia]|]. intros [ts tv2] c2 H2. cbn [snd] in H2.
    apply fueled_then; [apply lookup_or_enter_fueled|]. simpl. lia. }
  destruct (bz id =? TypeValueEnum).
  { destruct (DecodeLength tv) as [[n tv1]|] eqn:E; [|done]. apply DecodeLength_shorter in E as [Hl1 _].
    destruct (MaxEnumSymbols <? n); [done|].
    eapply fueled_bind; [apply decode_symbols_fueled|]. intros [[ss rest]|] c1 H1; [|done].
    apply fueled_then; [apply lookup_or_enter_fueled|]. simpl. lia. }
  destruct (bz id =? TypeValueError); [apply Hinner; intros; apply LookupTypeError_fueled|].
  destruct (LookupPrimitiveByID (bz id)); try done. cbn. lia.
Qed.

Lemma TranslateType_fueled t c : fueled (fun _ => True) (TranslateType t c).
Proof.
  unfold TranslateType, LookupByValue. destruct (toType c !! _); [done|]. unfold DecodeTypeValue.
  pose proof (decode_type_value_fueled (S (length (EncodeTypeValue t))) (EncodeTypeValue t) c ltac:(lia)) as H.
  by destruct (decode_type_value _ _ c) as [[[[u rest]|] c1]| |].
Qed.

(** ** Computations that consume their input *)

Section eats.
Context {S : Type} (I : S -> Prop) (left_ : S -> nat).

(** On a state with less than [b] bytes left, [m] does not run out of fuel and,
    when it succeeds with [a], takes at least [k a] bytes. *)
Definition eats {A} (b : nat) (k : A -> nat) (m : stm S zng_error A) : Prop :=
  forall s, I s -> (left_ s < b)%nat ->
    I (m s).2 /\ ends (m s).1 /\
    (left_ (m s).2 + match (m s).1 with Ok a => k a | _ => 0 end <= left_ s)%nat.

Lemma eats_ret {A} b (a : A) : eats b (fun _ => 0%nat) (mret a).
Proof. intros s Hs Hb. split_and!; [done..|simpl; lia]. Qed.
Lemma eats_throw {A} b k e : out_of_fuel e = false -> eats b k (throw e : stm S zng_error A).
Proof. intros He s Hs Hb. split_and!; [done|exact He|simpl; lia]. Qed.
Lemma eats_fault {A} b k : eats b k (fault : stm S zng_error A).
Proof. intros s Hs Hb. split_and!; [done..|simpl; lia]. Qed.
Lemma eats_get b : eats b (fun _ => 0%nat) (get : stm S zng_error S).
Proof. intros s Hs Hb. split_and!; [done..|simpl; lia]. Qed.
Lemma eats_out {A} b (m : outcome zng_error A) : ends m -> eats b (fun _ => 0%nat) (lift_out m).
Proof. intros Hm s Hs Hb. split_and!; [done..|simpl; destruct m; simpl; lia]. Qed.

Lemma eats_weaken {A} b b' k k' (m : stm S zng_error A) :
  eats b k m -> (b' <= b)%nat -> (forall a, k' a <= k a)%nat -> eats b' k' m.
Proof.
  intros Hm Hb Hk s Hs Hl. destruct (Hm s Hs ltac:(lia)) as (H1 & H2 & H3). split_and!; [done..|].
  destruct (m s).1 as [a| |]; [specialize (Hk a)|..]; lia.
Qed.

Lemma eats_bind {A B} b j k (m : stm S zng_error A) (f : A -> stm S zng_error B) :
  eats b (fun _ => j) m -> (forall a, eats (b - j) k (f a)) -> eats b (fun a => j + k a)%nat (m ≫= f).
Proof.
  intros Hm Hf s Hs Hb. unfold mbind, stm_bind. destruct (Hm s Hs Hb) as (H1 & H2 & H3).
  destruct (m s) as [[a|e|] s1]; cbn [fst snd] in *; [|split_and!; [done|exact H2|lia]|split_and!; [done..|lia]].
  destruct (Hf a s1 H1 ltac:(lia)) as (H4 & H5 & H6). split_and!; [done..|].
  destruct (f a s1).1; lia.
Qed.

(** Without counting. *)
Lemma eats_bind0 {A B} b (m : stm S zng_error A) (f : A -> stm S zng_error B) :
  eats b (fun _ => 0%nat) m -> (forall a, eats b (fun _ => 0%nat) (f a)) -> eats b (fun _ => 0%nat) (m ≫= f).
Proof. intros Hm Hf. apply (eats_bind b 0); [done|]. intros a. by rewrite Nat.sub_0_r. Qed.

(** The first part takes a byte. *)
Lemma eats_bind1 {A B} b (m : stm S zng_error A) (f : A -> stm S zng_error B) :
  eats b (fun _ => 1%nat) m -> (forall a, eats b (fun _ => 0%nat) (f a)) -> eats b (fun _ => 1%nat) (m ≫= f).
Proof.
  intros Hm Hf. apply (eats_weaken b b (fun _ => 1 + 0)%nat); [|done..].
  apply (eats_bind b 1 (fun _ => 0%nat)); [done|]. intros a. by apply (eats_weaken b _ (fun _ => 0%nat)); [|lia|].
Qed.

Lemma eats_drop {A} b k (m : stm S zng_error A) : eats b k m -> eats b (fun _ => 0%nat) m.
Proof. intros H. apply (eats_weaken b b k); [done..|intros; lia]. Qed.
End eats.

Create HintDb eats.
#[local] Hint Resolve eats_ret eats_fault eats_get : eats.
#[local] Hint Extern 1 (eats _ _ _ _ (throw _)) => by apply eats_throw : eats.

(** ** Typedefs *)

Definition buf_left (s : Decoder * list byte) : nat := length s.2.
Definition anything {A} (_ : A) : Prop := True.
Local Abbreviation takes := (eats anything buf_left).

Lemma read_uvarint_shorter r u rest : read_uvarint r = Ok (u, rest) -> (length rest < length r)%nat.
Proof.
  intros H. assert (Hne : r <> []) by by intros ->.
  apply read_uvarint_uvarint in H as (n & _ & Hn & ->). rewrite length_drop.
  destruct r; [done|]. simpl. lia.
Qed.

Lemma buf_uvarint_shorter buf u rest : buf_uvarint buf = Ok (u, rest) -> (length rest < length buf)%nat.
Proof.
  unfold buf_uvarint. destruct (read_uvarint buf) as [[u' r]| |] eqn:E; [|done..]. intros [= _ <-].
  by eapply read_uvarint_shorter.
Qed.

Lemma buf_read_shorter n buf b rest : buf_read n buf = Ok (b, rest) -> (length rest <= length buf)%nat.
Proof.
  unfold buf_read. destruct (zlen buf <? n); [done|]. destruct (n <? 0); [done|]. intros [= _ <-]. rewrite length_drop. lia.
Qed.

Lemma takes_op {A} b k (op : list byte -> outcome zng_error (A * list byte)) :
  (forall buf, ends (op buf)) -> (forall buf a rest, op buf = Ok (a, rest) -> length rest + k <= length buf)%nat ->
  takes b (fun _ => k) (buf_op op).
Proof.
  intros Hb Ho s _ Hl. unfold buf_op. specialize (Hb s.2). specialize (Ho s.2).
  destruct (op s.2) as [[a rest]|e|]; cbn [fst snd]; split_and!; try done; unfold buf_left; cbn [snd]; [|lia..].
  by apply Ho with a.
Qed.

Lemma bad_format_ok {A} (m : outcome zng_error A) : ends (bad_format m).
Proof. by destruct m. Qed.

Lemma bad_format_Ok {A} (m : outcome zng_error A) a : bad_format m = Ok a -> m = Ok a.
Proof. destruct m; [by intros [= ->]|done..]. Qed.

Lemma takes_uvarint b : takes b (fun _ => 1%nat) readUvarintAsInt.
Proof.
  apply takes_op; [intros; apply bad_format_ok|]. intros buf a rest H%bad_format_Ok%buf_uvarint_shorter. lia.
Qed.
Lemma takes_uvarint0 b : takes b (fun _ => 0%nat) readUvarintAsInt.
Proof. eapply eats_drop, takes_uvarint. Qed.

Lemma takes_string b : takes b (fun _ => 1%nat) readCountedString.
Proof.
  apply eats_bind1; [apply takes_uvarint|]. intros n. apply takes_op; [intros; apply bad_format_ok|].
  intros buf a rest H%bad_format_Ok%buf_read_shorter. lia.
Qed.
Lemma takes_string0 b : takes b (fun _ => 0%nat) readCountedString.
Proof. eapply eats_drop, takes_string. Qed.

Lemma takes_lookup b id : takes b (fun _ => 0%nat) (local_LookupType id).
Proof.
  intros s _ Hl. unfold local_LookupType. cbn [fst snd].
  split_and!; [done|by destruct (LookupType _ id)|destruct (omap_err _ _); simpl; lia].
Qed.

Lemma takes_local {A} b (m : M A) :
  (forall c, fueled (fun _ => True) (m c)) -> takes b (fun _ => 0%nat) (on_local m).
Proof.
  intros Hm s _ Hl. unfold on_local. specialize (Hm (local s.1)).
  destruct (m (local s.1)) as [[a c]| |]; cbn [fst snd]; (split_and!; [done..|unfold buf_left; simpl; lia]).
Qed.

Lemma takes_ok_or {A B} b (err : A -> zng_error) (r : A + B) :
  (forall a, out_of_fuel (err a) = false) -> takes b (fun _ => 0%nat) (ok_or err r).
Proof. intros He. destruct r as [a|x]; simpl; [by apply eats_throw|apply eats_ret]. Qed.

Lemma Enter_fueled t s : (Mapper.Enter t s).1 <> Err ErrMapperDiverges.
Proof.
  unfold Mapper.Enter. destruct (_ <? _); [by destruct (LookupPrimitiveByID _)|].
  pose proof (TranslateType_fueled t s.1) as H. by destruct (TranslateType t s.1) as [[[u|] c]| |].
Qed.

Lemma takes_enter b t : takes b (fun _ => 0%nat) (enter t).
Proof.
  intros s _ Hl. unfold enter. pose proof (Enter_fueled t (shared s.1, local_mapper s.1)) as He.
  destruct (Mapper.Enter t _) as [r [sh m]]. cbn [fst snd] in *.
  split_and!; [done|destruct r as [u|e|]; try done; by destruct e|]. unfold buf_left. simpl. destruct r; simpl; lia.
Qed.

#[local] Hint Resolve takes_uvarint takes_uvarint0 takes_string takes_string0 takes_lookup takes_enter : eats.
#[local] Hint Extern 1 (eats _ _ _ _ (on_local _)) =>
  (apply takes_local; intros ?;
   first [apply lookup_or_enter_fueled|apply LookupTypeError_fueled|apply LookupTypeRecord_fueled|apply LookupTypeNamed_fueled]) : eats.
#[local] Hint Extern 1 (eats _ _ _ _ (ok_or _ _)) => by apply takes_ok_or : eats.
#[local] Hint Extern 2 (eats _ _ _ (fun _ => 0%nat) (mbind _ _)) => (apply eats_bind0; [|intros ?]) : eats.
#[local] Hint Extern 2 (eats _ _ _ (fun _ => 1%nat) (mbind _ _)) => (apply eats_bind1; [|intros ?]) : eats.

(** A counted list whose elements take bytes, whatever the count. *)
Lemma takes_n {A} (rd : DM A) fuel n :
  (forall b, takes b (fun _ => 1%nat) rd) -> takes fuel (fun _ => 0%nat) (read_n rd fuel n).
Proof.
  intros Hr. revert n. induction fuel as [|fuel IH]; intros n; cbn [read_n].
  - intros s _ Hs. lia.
  - destruct (n <=? 0); [apply eats_ret|].
    apply (eats_weaken _ _ (S fuel) _ (fun _ => 1 + 0)%nat); [|done|intros; lia].
    apply (eats_bind _ _ _ 1 (fun _ => 0%nat)); [apply Hr|]. intros x. replace (S fuel - 1)%nat with fuel by lia.
    apply eats_bind0; [apply IH|]. intros; apply eats_ret.
Qed.

Lemma takes_list {A} b (rd : DM A) n :
  (forall b, takes b (fun _ => 1%nat) rd) -> takes b (fun _ => 0%nat) (read_list rd n).
Proof. intros Hr s _ Hs. apply (takes_n rd (S (length s.2)) n Hr s I). unfold buf_left. lia. Qed.

Lemma takes_inner b : takes b (fun _ => 1%nat) readInner.
Proof. unfold readInner. auto with eats. Qed.
Lemma takes_inner0 b : takes b (fun _ => 0%nat) readInner.
Proof. eapply eats_drop, takes_inner. Qed.
Lemma takes_field b : takes b (fun _ => 1%nat) readField.
Proof. unfold readField. auto 10 with eats. Qed.

#[local] Hint Resolve takes_inner0 : eats.
#[local] Hint Extern 1 (eats _ _ _ _ (read_list _ _)) => (apply takes_list; eauto using takes_field, takes_inner, takes_string) : eats.

Lemma takes_typedef b code : takes b (fun _ => 0%nat) (readTypedef code).
Proof.
  unfold readTypedef, readTypeRecord, readTypeArray, readTypeSet, readTypeMap, readTypeUnion, readTypeEnum, readTypeName, readTypeError.
  repeat match goal with |- eats _ _ _ _ (if ?c then _ else _) => destruct c end; auto 15 with eats.
  apply eats_bind0; [auto with eats|]. intros n. destruct (n =? 0); auto 15 with eats.
Qed.

Lemma takes_byte b : takes b (fun _ => 1%nat) buf_ReadByte.
Proof.
  intros [d [|x buf]] _ Hs; unfold buf_ReadByte, buf_left in *; cbn [fst snd length] in *; (split_and!; [done..|lia]).
Qed.

Lemma takes_loop fuel : takes (S fuel) (fun _ => 0%nat) (decode_loop fuel).
Proof.
  induction fuel as [|fuel IH]; intros [d buf] Hi Hs.
  - unfold buf_left in Hs. destruct buf; [|simpl in Hs; lia]. split_and!; [done..|simpl; lia].
  - destruct buf as [|x buf]; [split_and!; [done..|simpl; lia]|].
    change (decode_loop (S fuel) (d, x :: buf)) with ((code ← buf_ReadByte; _ ← readTypedef (bz code); decode_loop fuel) (d, x :: buf)).
    assert (H : takes (S (S fuel)) (fun _ => 1 + 0)%nat (code ← buf_ReadByte; _ ← readTypedef (bz code); decode_loop fuel)).
    { apply (eats_bind _ _ _ 1 (fun _ => 0%nat)); [apply takes_byte|]. intros code. replace (S (S fuel) - 1)%nat with (S fuel) by lia.
      apply eats_bind0; [apply takes_typedef|]. intros _. exact IH. }
    eapply (eats_weaken _ _ _ _ _ (fun _ => 0%nat)) in H; [|reflexivity|intros; lia]. by apply H.
Qed.

Lemma decode_ends buf d : ends ((decode buf d).1).
Proof.
  destruct (takes_loop (length buf) (d, buf) I) as (_ & H & _); [unfold buf_left; cbn [snd]; lia|].
  unfold decode. by destruct (decode_loop (length buf) (d, buf)) as [r [d' b]].
Qed.

(** ** Frames *)

Section reading.
Context `{LZ : !LZ4} (chunk : list byte -> Z -> Z) (to32 of32 to16 of16 : Z -> Z).

Definition sound_parser (p : parser) : Prop := Peeker.sound (peeker p).
Definition stream_left (p : parser) : nat := length (stream (peeker p)).
Local Abbreviation parses := (eats sound_parser stream_left).

Lemma parses_peeker {A} b k (m : stm Reader peek_error A) :
  (forall r, Peeker.sound r -> shrinks (match (m r).1 with Ok a => k a | _ => 0%nat end) r (m r).2) -> parses b k (on_peeker m).
Proof.
  intros Hm p Hs Hb. unfold on_peeker. specialize (Hm (peeker p) Hs). destruct (m (peeker p)) as [r pk]. cbn [fst snd] in *.
  destruct Hm as (H1 & H2 & H3). unfold sound_parser, stream_left. cbn [peeker].
  split_and!; [done|destruct r as [a|e|]; try done; by destruct e|]. by destruct r.
Qed.

Lemma parses_byte b : parses b (fun _ => 1%nat) (peek_byte chunk).
Proof. apply parses_peeker. intros r Hr. by apply ReadByte_shrinks. Qed.
Lemma parses_byte0 b : parses b (fun _ => 0%nat) (peek_byte chunk).
Proof. eapply eats_drop, parses_byte. Qed.

Lemma parses_read b n : parses b (fun _ => 0%nat) (on_peeker (Read chunk n)).
Proof.
  apply (eats_weaken _ _ b b (fun _ => Z.to_nat n)); [|done|intros; lia]. apply parses_peeker. intros r Hr. by apply Read_shrinks.
Qed.

Lemma parses_uvarint_loop fuel b i x s : parses b (fun _ => 0%nat) (peek_uvarint_loop chunk fuel i x s).
Proof.
  revert i x s. induction fuel as [|fuel IH]; intros i x s; cbn [peek_uvarint_loop]; [by apply eats_throw|].
  intros p Hp Hb. destruct (parses_byte0 b p Hp Hb) as (H1 & H2 & H3).
  destruct (peek_byte chunk p) as [[c|e|] p1]; cbn [fst snd] in *.
  - destruct (bz c <? 128).
    + destruct ((i =? MaxVarintLen64 - 1) && (1 <? bz c)); (split_and!; [done..|cbn [fst snd]; lia]).
    + destruct (IH (i + 1) (Z.lor x (u64 (Z.shiftl (Z.land (bz c) 127) s))) (s + 7) p1 H1 ltac:(lia)) as (? & ? & ?).
      split_and!; [done..|lia].
  - assert (He : out_of_fuel e = false) by exact H2.
    destruct e as [| | | |r| | | | | | | | | | | | | |]; try destruct r; cbn [fst snd];
      (split_and!; [done|first [exact He|by destruct (0 <? i)]|lia]).
  - split_and!; [done..|cbn [fst snd]; lia].
Qed.

Lemma parses_uvarint b : parses b (fun _ => 0%nat) (peek_uvarint chunk).
Proof. unfold peek_uvarint. apply eats_bind0; [apply parses_uvarint_loop|]. intros; apply eats_ret. Qed.

Lemma decompress_ends f : ends (decompress f).
Proof.
  destruct f as [u|fmt z size]; simpl; [done|]. destruct (negb _); [done|].
  destruct (uncompressBlock z size); [|done]. by destruct (_ =? _).
Qed.

Lemma parses_decode b buf : parses b (fun _ => 0%nat) (on_decoder (decode buf)).
Proof.
  intros p Hp Hb. unfold on_decoder. pose proof (decode_ends buf (p_types p)). destruct (decode buf (p_types p)) as [r d].
  split_and!; [done..|]. unfold stream_left. cbn [fst snd peeker]. by destruct r; lia.
Qed.

#[local] Hint Resolve parses_byte0 parses_read parses_uvarint parses_decode : eats.
#[local] Hint Extern 1 (eats _ _ _ _ (lift_out (decompress _))) => apply eats_out, decompress_ends : eats.

Lemma parses_length b code : parses b (fun _ => 0%nat) (decodeLength chunk code).
Proof. unfold decodeLength. auto 10 with eats. Qed.
#[local] Hint Resolve parses_length : eats.

Lemma parses_frame b code : parses b (fun _ => 0%nat) (readFrame chunk code).
Proof.
  unfold readFrame. apply eats_bind0; [auto with eats|]. intros size. apply eats_bind0; [auto with eats|]. intros p.
  destruct (maxSize p <? size); auto with eats.
Qed.

Lemma parses_compressed b code : parses b (fun _ => 0%nat) (readCompressedFrame chunk code).
Proof.
  unfold readCompressedFrame. repeat (apply eats_bind0; [auto with eats|intros ?]).
  destruct (maxSize _ <? _); [auto with eats|]. apply eats_bind0; [|intros ?; destruct (_ <? _); auto with eats].
  intros p Hp Hb. match goal with |- context [Read chunk ?n] => destruct (parses_read b n p Hp Hb) as (H1 & H2 & H3) end.
  destruct (on_peeker _ p) as [[bs|e|] p1]; cbn [fst snd] in *; [by split_and!| |by split_and!].
  destruct e as [| | | |r|r| | | | | | | | | | | | |]; try destruct r; by split_and!.
Qed.
#[local] Hint Resolve parses_frame parses_compressed : eats.

Lemma parses_types b code : parses b (fun _ => 0%nat) (decodeTypes chunk code).
Proof. unfold decodeTypes. destruct (is_compressed code); auto 10 with eats. Qed.
Lemma parses_values b code : parses b (fun _ => 0%nat) (decodeValues chunk code).
Proof. unfold decodeValues. destruct (is_compressed code); auto 10 with eats. Qed.
Lemma parses_control b code : parses b (fun _ => 0%nat) (decodeControl chunk code).
Proof.
  unfold decodeControl. destruct (is_compressed code); (apply eats_bind0; [auto 10 with eats|]; intros [|x l]; auto with eats).
Qed.

Lemma parses_loop fuel : parses fuel (fun _ => 1%nat) (read_loop chunk fuel).
Proof.
  induction fuel as [|fuel IH]; [intros s _ Hs; lia|]. cbn [read_loop].
  assert (Hw : forall m : stm parser zng_error message, parses fuel (fun _ => 0%nat) m -> parses (S fuel - 1) (fun _ => 0%nat) m).
  { intros m Hm. by replace (S fuel - 1)%nat with fuel by lia. }
  apply (eats_weaken _ _ (S fuel) _ (fun _ => 1 + 0)%nat); [|done|done].
  apply (eats_bind _ _ _ 1 (fun _ => 0%nat)); [apply parses_byte|]. intros code. cbv zeta. apply Hw.
  destruct (_ =? EOS).
  { apply eats_bind0; [|intros _; by eapply eats_drop, IH]. intros p Hp Hb. split_and!; [done..|unfold stream_left; cbn; lia]. }
  destruct (negb _); [by apply eats_throw|].
  destruct (_ =? TypesFrame). { apply eats_bind0; [apply parses_types|intros _; by eapply eats_drop, IH]. }
  destruct (_ =? ValuesFrame). { apply eats_bind0; [apply parses_values|intros; apply eats_ret]. }
  destruct (_ =? ControlFrame); [|by apply eats_throw]. apply eats_bind0; [apply parses_control|intros; apply eats_ret].
Qed.

(** ** Values *)

Lemma cache_Lookup_no_error m id c (e : zng_error) : (cache_Lookup m id c).1 <> Err e.
Proof.
  unfold cache_Lookup. destruct (id <? zlen c), (id <? 0); try destruct (mjoin _); try done; by destruct (Lookup m id).
Qed.

Lemma decodeVal_ends fl m buf c :
  match decodeVal to32 to16 fl m (buf, c) with
  | (Ok _, (rest, _)) => (length rest < length buf)%nat
  | (Err e, _) => out_of_fuel e = false
  | (Panic, _) => True
  end.
Proof.
  unfold decodeVal. cbn [fst snd].
  destruct (buf_uvarint buf) as [[id b1]|e|] eqn:E1; [| |done].
  2: { unfold buf_uvarint in E1. destruct (read_uvarint buf) as [[? ?]| |]; try done. by injection E1 as <-. }
  apply buf_uvarint_shorter in E1.
  destruct (ReadTag b1) as [[n b2]| |] eqn:E2; [|done..].
  assert (H2 : (length b2 < length b1)%nat).
  { unfold ReadTag in E2. destruct (read_uvarint b1) as [[u r]| |] eqn:Eu; cbn in E2; try done.
    apply read_uvarint_shorter in Eu. destruct (tagIsNull u); [by injection E2 as _ <-|].
    destruct (tagLength u); [by injection E2 as _ <-|done..]. }
  assert (Hc : forall b b3 c, (length b3 <= length b2)%nat ->
    match (match cache_Lookup m id c with
           | (Ok (Some typ), c) => let v := NewValue typ b in
               if validate fl && negb (Validate to32 to16 v) then (Err ErrInvalid, (b3, c)) else (Ok v, (b3, c))
           | (Ok None, c) => (Err (ErrTypeID id), (b3, c))
           | (Err e, c) => (Err e, (b3, c))
           | (Panic, c) => (Panic, (b3, c))
           end : outcome zng_error Value * (list byte * mapper)) with
    | (Ok _, (rest, _)) => (length rest < length buf)%nat
    | (Err e, _) => out_of_fuel e = false
    | (Panic, _) => True
    end).
  { intros b b3 c0 H3. pose proof (cache_Lookup_no_error m id c0) as Hn.
    destruct (cache_Lookup m id c0) as [[[t|]|e|] c1]; [|done| |done].
    - cbv zeta. destruct (validate fl && _); [done|lia].
    - by destruct (Hn e). }
  destruct (n =? 0); [by apply Hc|]. destruct (0 <? n); [|by apply Hc].
  destruct (buf_read n b2) as [[b b3]|e|] eqn:E3; [|destruct e as [| | | |r| | | | | | | | | | | | | |]; try done; destruct r; try done; by apply Hc|done].
  apply buf_read_shorter in E3. by apply Hc.
Qed.

Lemma scan_loop_ends fuel fl m : forall buf c pr,
  (length buf <= fuel)%nat -> ends (scan_loop to32 to16 fuel fl m buf c pr).
Proof.
  induction fuel as [|fuel IH]; intros buf c pr Hf; (destruct buf as [|x l]; [done|]); [simpl in Hf; lia|].
  cbn [scan_loop]. pose proof (decodeVal_ends fl m (x :: l) c) as H.
  destruct (decodeVal _ _ _ _ _) as [[v|e|] [rest c']]; [|exact H|done].
  destruct (wantValue fl v pr) as [w pr']. specialize (IH rest c' pr' ltac:(simpl in *; lia)).
  destruct (scan_loop _ _ _ _ _ _ _ _) as [[vs p]|e|]; cbn; [done|exact IH|done].
Qed.

Lemma scanBatch_ends fl d buf pr : ends (scanBatch to32 to16 fl d buf pr).
Proof.
  unfold scanBatch. destruct (match bufferFilter fl with Some _ => _ | None => _ end); [done|].
  pose proof (scan_loop_ends (length buf) fl (local_mapper d) buf cache_Reset (mkProgress 0 0 0 0) ltac:(lia)) as H.
  destruct (scan_loop _ _ _ _ _ _ _ _) as [[vs p]|e|]; cbn; [done|exact H|done].
Qed.

(** ** Batches *)

Definition sound_scanner (s : scanner) : Prop := sound_parser (s_parser s).
Definition scanner_left (s : scanner) : nat := stream_left (s_parser s).
Definition taken (p : pulled) : nat := match p with End => 0 | _ => 1 end.
Local Abbreviation pulls := (eats sound_scanner scanner_left).

Lemma pulls_read b : pulls b (fun _ => 1%nat) (on_parser (read chunk)).
Proof.
  intros s Hs Hb. unfold on_parser, read.
  destruct (parses_loop (S (stream_left (s_parser s))) (s_parser s) Hs ltac:(lia)) as (H1 & H2 & H3).
  fold (stream_left (s_parser s)). by destruct (read_loop chunk _ (s_parser s)) as [r p].
Qed.

Lemma pulls_scan b buf : pulls b (fun _ => 0%nat) (scan to32 to16 buf).
Proof.
  intros s Hs Hb. unfold scan. pose proof (scanBatch_ends (s_filter s) (p_types (s_parser s)) buf (s_progress s)).
  destruct (scanBatch _ _ _ _ _ _) as [[vs p]|e|]; (split_and!; [done|done || by intros [= ->]|cbn; unfold scanner_left; cbn; lia]).
Qed.

Lemma pulls_loop fuel : pulls fuel taken (pull_loop chunk to32 to16 fuel).
Proof.
  induction fuel as [|fuel IH]; [intros s _ Hs; lia|]. intros s Hs Hb. cbn [pull_loop].
  destruct (pulls_read (S fuel) s Hs Hb) as (H1 & H2 & H3).
  destruct (on_parser (read chunk) s) as [[m|e|] s1]; cbn [fst snd] in *.
  - destruct m as [f|format bytes]; [|by split_and!].
    assert (Hk : pulls fuel (fun _ => 0%nat) (b ← lift_out (decompress f); vs ← scan to32 to16 b;
                    match vs with [] => pull_loop chunk to32 to16 fuel | _ => mret (Batch vs) end)).
    { apply eats_bind0; [apply eats_out, decompress_ends|]. intros b. apply eats_bind0; [apply pulls_scan|].
      intros [|v vs]; [by eapply eats_drop|apply eats_ret]. }
    destruct (Hk s1 H1 ltac:(lia)) as (H4 & H5 & H6). split_and!; [done..|].
    revert H6. match goal with |- context [fst ?m] => destruct m as [[p|e|] s2] end; cbn [fst snd]; [|lia..].
    destruct p; cbn [taken]; lia.
  - destruct e as [| | | |r| | | | | | | | | | | | | |]; try destruct r; by split_and!.
  - by split_and!.
Qed.

Lemma Pull_ends s :
  sound_scanner s ->
  sound_scanner (Pull chunk to32 to16 s).2 /\ ends ((Pull chunk to32 to16 s).1) /\
  (scanner_left (Pull chunk to32 to16 s).2 + match (Pull chunk to32 to16 s).1 with Ok p => taken p | _ => 0 end <= scanner_left s)%nat.
Proof.
  intros Hs. unfold Pull. destruct (s_eof s); [split_and!; [done..|cbn; lia]|].
  apply pulls_loop; [done|]. unfold scanner_left, stream_left. lia.
Qed.
End reading.
