(* ===== verification/ZngTypes.v ===== *)
(** * The typedefs of a ZNG stream

    The encoder's typedefs rebuild its types in the decoder's local context,
    with the same ids, and the decoder's mapper takes each of them to a type of
    the shared context with the same structure. *)

From S2P Require Import Prelude Peeker Zcode Types Context Mapper Interning Decode Values Zngio.
Local Open Scope Z_scope.

(** ** Specification *)

(** Types that ZNG can carry. *)
Definition nonempty_union (t : ty) : Prop := match t with TUnion _ ts => ts <> [] | _ => True end.
Definition transmissible : ty -> Prop := hereditary (fun t => lawful t /\ within_limits t /\ nonempty_union t).

(** A bound on the bytes of the typedefs of a type. *)
Fixpoint weight (t : ty) : Z :=
  match t with
  | TPrim _ => 0
  | TRecord _ fs => 11 + foldr (fun f n => weight f.2 + (20 + zlen f.1) + n) 0 fs
  | TArray _ t | TSet _ t | TError _ t => weight t + 11
  | TMap _ k v => weight k + weight v + 21
  | TUnion _ ts => 11 + foldr (fun t n => weight t + 10 + n) 0 ts
  | TEnum _ ss => 11 + foldr (fun s n => 10 + zlen s + n) 0 ss
  | TNamed _ n t => weight t + (21 + zlen n)
  end.

(** Contexts that differ in the cached string error only, which the typedef
    encoder does not use and [Reset] keeps. *)
Definition similar (c c' : Context) : Prop :=
  byID c = byID c' /\ toType c = toType c' /\ toValue c = toValue c' /\ typedefs c = typedefs c'.

(** Every complex type of the local context is mapped. *)
Definition mapped (d : Decoder) : Prop :=
  forall t, member (local d) t -> is_complex t = true ->
    exists s, Lookup (local_mapper d) (TypeID t) = Some s /\ member (shared d) s /\ erase s = erase t.

Record good (d : Decoder) : Prop := {
  good_shared : wf (shared d);
  good_local : wf (local d);
  good_mapped : mapped d;
}.

(** The encoder is in the state of the local context. *)
Definition linked (e : Encoder) (l : Context) : Prop :=
  similar (zctx e) l /\
  forall ext t, find_encoded ext (encoded e) = Some t -> member l t /\ erase t = erase ext.

Definition later (d d' : Decoder) : Prop :=
  extends (shared d) (shared d') /\ extends (local d) (local d').

(** Decoding [bs] takes [d] to [d'], whatever follows. *)
Definition decodes (bs : list byte) (d d' : Decoder) : Prop :=
  forall rest fuel, (length (bs ++ rest) <= fuel)%nat ->
    exists fuel', (length rest <= fuel')%nat /\ decode_loop fuel (d, bs ++ rest) = decode_loop fuel' (d', rest).

(** The encoder emits at most [w] bytes, which take the decoder along. *)
Definition carries (w : Z) (e : Encoder) (d : Decoder) (e' : Encoder) (d' : Decoder) : Prop :=
  good d' /\ linked e' (local d') /\ later d d' /\
  exists bs, e_bytes e' = e_bytes e ++ bs /\ decodes bs d d' /\ zlen bs <= w /\
    zlen (byID (local d')) <= zlen (byID (local d)) + zlen bs.

(** What a lookup for the structure [t0] does, also to a similar context. *)
Definition looks_up {A} (inj : ty -> A) (m : M A) (t0 : ty) (l : Context) : Prop :=
  exists u l', m l = Ok (inj u, l') /\ interns l t0 u l' /\
    (byID l' = byID l \/ byID l' = byID l ++ [Some u]) /\
    forall c, similar c l -> exists c', m c = Ok (inj u, c') /\ similar c' l'.

(** ** Sequences of typedefs *)

#[export] Instance later_preorder : PreOrder later.
Proof.
  split; [intros d; by split|]. intros a b c [H1 H2] [H3 H4]. split; by etrans.
Qed.

Lemma decodes_nil d : decodes [] d d.
Proof. intros rest fuel Hf. by exists fuel. Qed.

Lemma decodes_app a b d1 d2 d3 : decodes a d1 d2 -> decodes b d2 d3 -> decodes (a ++ b) d1 d3.
Proof.
  intros H1 H2 rest fuel Hf. rewrite <- app_assoc in *.
  destruct (H1 (b ++ rest) fuel Hf) as (f1 & Hf1 & ->).
  destruct (H2 rest f1 Hf1) as (f2 & Hf2 & ->). eauto.
Qed.

Lemma decode_decodes bs d d' : decodes bs d d' -> decode bs d = (Ok tt, d').
Proof.
  intros H. unfold decode. destruct (H [] (length bs)) as (f & _ & E); [by rewrite app_nil_r|].
  rewrite app_nil_r in E. rewrite E. by destruct f.
Qed.

Lemma carries_refl e d w : good d -> linked e (local d) -> 0 <= w -> carries w e d e d.
Proof.
  intros. split_and!; [done..|]. exists []. rewrite app_nil_r. split_and!; [done|apply decodes_nil|done|unfold zlen; simpl; lia].
Qed.

Lemma carries_trans w1 w2 e1 d1 e2 d2 e3 d3 :
  carries w1 e1 d1 e2 d2 -> carries w2 e2 d2 e3 d3 -> carries (w1 + w2) e1 d1 e3 d3.
Proof.
  intros (_ & _ & Hl1 & b1 & E1 & D1 & W1 & N1) (Hg & Hk & Hl2 & b2 & E2 & D2 & W2 & N2).
  split_and!; [done|done|by etrans|]. exists (b1 ++ b2). rewrite E2, E1, app_assoc, zlen_app.
  split_and!; [done|by eapply decodes_app|lia|lia].
Qed.

Lemma carries_weaken w w' e d e' d' : carries w e d e' d' -> w <= w' -> carries w' e d e' d'.
Proof. intros (? & ? & ? & b & ? & ? & ? & ?) ?. split_and!; [done..|]. exists b. split_and!; [done..|lia|lia]. Qed.

(** ** Lookups in similar contexts *)

Lemma similar_refl c : similar c c.
Proof. done. Qed.

Lemma similar_enter c l tv t : similar c l -> similar (enterWithLock tv t c) (enterWithLock tv t l).
Proof. intros (H1 & H2 & H3 & H4). by split_and!; simpl; rewrite ?H1, ?H2, ?H3, ?H4. Qed.

Lemma lookup_or_enter_looks_up tv k mk t0 l :
  (exists u l', lookup_or_enter tv k mk l = Ok (u, l') /\ interns l t0 u l') ->
  looks_up (fun u => u) (lookup_or_enter tv k mk) t0 l.
Proof.
  intros (u & l' & E & Hi). exists u, l'. split_and!; [done|done|..]; revert E; unfold lookup_or_enter.
  - destruct (toType l !! tv) as [t|]; [destruct (k t); [|done]; intros [= -> ->]; by left|].
    intros [= <- <-]. by right.
  - intros E c Hs. pose proof Hs as (H1 & H2 & H3 & H4). rewrite H2. revert E.
    destruct (toType l !! tv) as [t|]; [destruct (k t); [|done]; intros [= -> ->]; by exists c|].
    unfold nextIDWithLock. rewrite H1. intros [= <- <-]. eexists. split; [done|]. by apply similar_enter.
Qed.

Section lookups.
Context (l : Context) (Hwf : wf l).

Lemma set_looks_up t : member l t -> looks_up (fun u => u) (LookupTypeSet t) (TSet 0 t) l.
Proof. intros. by apply lookup_or_enter_looks_up, LookupTypeSet_interns. Qed.

Lemma array_looks_up t : member l t -> looks_up (fun u => u) (LookupTypeArray t) (TArray 0 t) l.
Proof. intros. by apply lookup_or_enter_looks_up, LookupTypeArray_interns. Qed.

Lemma map_looks_up k v : member l k -> member l v -> looks_up (fun u => u) (LookupTypeMap k v) (TMap 0 k v) l.
Proof. intros. by apply lookup_or_enter_looks_up, LookupTypeMap_interns. Qed.

Lemma enum_looks_up ss : short ss -> Forall short ss -> looks_up (fun u => u) (LookupTypeEnum ss) (TEnum 0 ss) l.
Proof. intros. by apply lookup_or_enter_looks_up, LookupTypeEnum_interns. Qed.

Lemma union_looks_up ts :
  short ts -> Forall (member l) ts -> looks_up (fun u => u) (LookupTypeUnion ts) (TUnion 0 (sort_types ts)) l.
Proof. intros. by apply lookup_or_enter_looks_up, LookupTypeUnion_interns. Qed.

Lemma record_looks_up fs :
  short fs -> Forall (fun f => short f.1) fs -> Forall (fun f => member l f.2) fs -> duplicateField fs = None ->
  looks_up inr (LookupTypeRecord fs) (TRecord 0 fs) l.
Proof.
  intros Hs Hn Hm Hd. pose proof (LookupTypeRecord_interns l Hwf fs Hs Hn Hm) as H. rewrite Hd in H.
  destruct H as (u & l' & E & Hi). exists u, l'. split_and!; [done|done|..]; revert E; unfold LookupTypeRecord; rewrite Hd.
  - destruct (toType l !! _) as [t|]; [destruct (is_kind RecordKind t); [|done]; intros [= -> ->]; by left|].
    intros [= <- <-]. by right.
  - intros E c Hsim. pose proof Hsim as (H1 & H2 & _). rewrite H2. revert E.
    destruct (toType l !! _) as [t|]; [destruct (is_kind RecordKind t); [|done]; intros [= -> ->]; by exists c|].
    unfold nextIDWithLock. rewrite H1. intros [= <- <-]. eexists. split; [done|]. by apply similar_enter.
Qed.

Lemma similar_bind c l0 n t : similar c l0 -> similar (bind_typedef n t c) (bind_typedef n t l0).
Proof. intros (H1 & H2 & H3 & H4). split_and!; simpl; try done. by rewrite H4. Qed.

Lemma named_looks_up n t :
  short n -> member l t -> ValidString n = true -> LookupPrimitive n = None ->
  looks_up inr (LookupTypeNamed n t) (TNamed 0 n t) l.
Proof.
  intros Hs Hm Hv Hp. destruct (LookupTypeNamed_interns l Hwf n t Hs Hm) as [_ H].
  destruct (H Hv Hp) as (u & l' & E & Hi & _). exists u, l'.
  split_and!; [done|done|..]; revert E; unfold LookupTypeNamed; rewrite Hv, Hp; cbn [negb].
  - destruct (toType l !! _) as [v|]; [destruct (is_named v); [|done]; intros [= -> <-]; by left|].
    intros [= <- <-]. by right.
  - intros E c Hsim. pose proof Hsim as (H1 & H2 & _). rewrite H2. revert E.
    destruct (toType l !! _) as [v|].
    + destruct (is_named v); [|done]. intros [= -> <-]. eexists. split; [done|]. by apply similar_bind.
    + unfold nextIDWithLock. rewrite H1. intros [= <- <-]. eexists. split; [done|]. by apply similar_enter, similar_bind.
Qed.

Lemma error_looks_up t : member l t -> looks_up (fun u => u) (LookupTypeError t) (TError 0 t) l.
Proof.
  intros Hm. destruct (LookupTypeError_interns l Hwf t Hm) as (u & l' & E & Hi). exists u, l'.
  assert (Hse : forall c l0 u, similar c l0 -> similar (if decide (t = TPrim String) then set_stringErr u c else c)
                                (if decide (t = TPrim String) then set_stringErr u l0 else l0)).
  { intros c l0 v. by case_decide. }
  split_and!; [done|done|..]; revert E; unfold LookupTypeError.
  - destruct (toType l !! _) as [v|]; [destruct (is_kind ErrorKind v); [|done]; intros [= -> ->]; by left|].
    intros [= <- <-]. right. by case_decide.
  - intros E c Hsim. pose proof Hsim as (H1 & H2 & _). rewrite H2. revert E.
    destruct (toType l !! _) as [v|]; [destruct (is_kind ErrorKind v); [|done]; intros [= -> ->]; by exists c|].
    unfold nextIDWithLock. rewrite H1. intros [= <- <-]. eexists. split; [done|]. by apply Hse, similar_enter.
Qed.
End lookups.

(** ** Reading what was emitted *)

Lemma LookupType_member c t : wf c -> member c t -> LookupType c (TypeID t) = Ok t.
Proof.
  intros Hw Hm. unfold LookupType. destruct (is_complex t) eqn:Hc; [|destruct t as [p| | | | | | | |]; try done; by destruct p].
  pose proof (member_id c Hw t Hm Hc) as Hi. destruct (Hm Hc) as [_ Hl]. unfold IDTypeComplex. zcases; try lia. by rewrite Hl.
Qed.

Lemma TypeID_range c t : wf c -> member c t -> 0 <= TypeID t < zlen (byID c).
Proof.
  intros Hw Hm. pose proof (wf_length c Hw). destruct (is_complex t) eqn:Hc.
  - pose proof (member_id c Hw t Hm Hc). lia.
  - destruct t as [p| | | | | | | |]; try done. simpl. pose proof (primitive_id_range p). unfold zlen. lia.
Qed.

Lemma buf_uvarint_append x rest : 0 <= x < 2 ^ 63 -> buf_uvarint (uvarint_bytes (u64 x) ++ rest) = Ok (x, rest).
Proof.
  intros Hx. unfold buf_uvarint. rewrite u64_id by lia. rewrite read_uvarint_append by lia. by rewrite i64_id by lia.
Qed.

Lemma readUvarint_append x d rest :
  0 <= x < 2 ^ 63 -> readUvarintAsInt (d, uvarint_bytes (u64 x) ++ rest) = (Ok x, (d, rest)).
Proof. intros Hx. unfold readUvarintAsInt, buf_op. cbn [fst snd]. by rewrite buf_uvarint_append. Qed.

Lemma buf_read_append b rest : buf_read (zlen b) (b ++ rest) = Ok (b, rest).
Proof.
  unfold buf_read. rewrite zlen_app. pose proof (zlen_nonneg rest). pose proof (zlen_nonneg b).
  destruct (Z.ltb_spec (zlen b + zlen rest) (zlen b)); [lia|]. destruct (Z.ltb_spec (zlen b) 0); [lia|].
  unfold zlen. by rewrite Nat2Z.id, take_app_length, drop_app_length.
Qed.

Lemma readCountedString_append n d rest :
  short n -> readCountedString (d, name_bytes n ++ rest) = (Ok n, (d, rest)).
Proof.
  intros Hn. unfold readCountedString, name_bytes. rewrite <- app_assoc.
  rewrite (stm_bind_Ok _ _ _ _ _ (readUvarint_append (zlen n) d (n ++ rest) ltac:(unfold short in Hn; pose proof (zlen_nonneg n); lia))).
  unfold buf_op. cbn [fst snd]. by rewrite buf_read_append.
Qed.

Definition room_for_ids (d : Decoder) : Prop := zlen (byID (local d)) < 2 ^ 63.

Lemma readInner_append d t rest :
  wf (local d) -> room_for_ids d -> member (local d) t -> readInner (d, id_bytes t ++ rest) = (Ok t, (d, rest)).
Proof.
  intros Hw Hr Hm. pose proof (TypeID_range _ t Hw Hm). unfold readInner, id_bytes, room_for_ids in *.
  rewrite (stm_bind_Ok _ _ _ _ _ (readUvarint_append (TypeID t) d rest ltac:(lia))).
  unfold local_LookupType. cbn [fst]. by rewrite LookupType_member.
Qed.

Lemma readField_append d f rest :
  wf (local d) -> room_for_ids d -> short f.1 -> member (local d) f.2 ->
  readField (d, (name_bytes f.1 ++ id_bytes f.2) ++ rest) = (Ok f, (d, rest)).
Proof.
  intros Hw Hr Hn Hm. unfold readField. rewrite <- app_assoc.
  rewrite (stm_bind_Ok _ _ _ _ _ (readCountedString_append f.1 d _ Hn)).
  pose proof (readInner_append d f.2 rest Hw Hr Hm) as H. unfold readInner in H.
  apply stm_bind_inv in H as (id & s & E1 & E2). rewrite (stm_bind_Ok _ _ _ _ _ E1).
  rewrite (stm_bind_Ok _ _ _ _ _ E2). by destruct f.
Qed.

(** A counted list: every element is read back from its bytes. *)
Lemma read_n_append {A} (read : DM A) (ser : A -> list byte) d l rest fuel :
  (forall x rest, x ∈ l -> read (d, ser x ++ rest) = (Ok x, (d, rest))) -> (length l <= fuel)%nat ->
  read_n read fuel (zlen l) (d, concat (map ser l) ++ rest) = (Ok l, (d, rest)).
Proof.
  revert fuel. induction l as [|x l IH]; intros fuel Hser Hf; [by destruct fuel|].
  destruct fuel as [|fuel]; [simpl in Hf; lia|]. cbn [map concat read_n]. rewrite zlen_cons. pose proof (zlen_nonneg l).
  destruct (Z.leb_spec (zlen l + 1) 0); [lia|]. rewrite <- app_assoc.
  rewrite (stm_bind_Ok _ _ _ _ _ (Hser x _ ltac:(left))). replace (zlen l + 1 - 1) with (zlen l) by lia.
  rewrite (stm_bind_Ok _ _ _ _ _ (IH fuel ltac:(intros; apply Hser; by right) ltac:(simpl in Hf; lia))). done.
Qed.

Lemma read_list_append {A} (read : DM A) (ser : A -> list byte) d l rest :
  (forall x rest, x ∈ l -> read (d, ser x ++ rest) = (Ok x, (d, rest))) -> (forall x, x ∈ l -> ser x <> []) ->
  read_list read (zlen l) (d, concat (map ser l) ++ rest) = (Ok l, (d, rest)).
Proof.
  intros Hser Hne. unfold read_list. apply read_n_append; [done|]. cbn [snd]. rewrite length_app.
  enough (length l <= length (concat (map ser l)))%nat by lia. clear Hser.
  induction l as [|x l IH]; [done|]. cbn [map concat]. rewrite length_app.
  assert (ser x <> []) by (apply Hne; left). destruct (ser x); [done|]. simpl.
  enough (length l <= length (concat (map ser l)))%nat by lia. apply IH. intros. apply Hne. by right.
Qed.

(** ** One typedef *)

Lemma interns_erase c t0 t c' : interns c t0 t c' -> erase t = erase t0.
Proof. intros [-> _]. apply erase_reid. Qed.

Lemma interns_complex c t0 t c' : interns c t0 t c' -> is_complex t0 = true -> is_complex t = true.
Proof. intros [-> _] Hc. by rewrite complex_reid. Qed.

Lemma member_new l l' u t :
  (byID l' = byID l \/ byID l' = byID l ++ [Some u]) -> member l' t -> is_complex t = true -> member l t \/ t = u.
Proof.
  intros [E|E] Hm Hc; destruct (Hm Hc) as [Hi Hl]; rewrite E in Hl; [by left|].
  apply lookup_app_Some in Hl as [Hl|[_ Hl]]; [by left|]. apply list_lookup_singleton_Some in Hl as [_ [= ->]]. by right.
Qed.

Lemma enter_spec sh l m u l' t0 :
  good (mkDecoder sh l m) -> interns l t0 u l' -> (byID l' = byID l \/ byID l' = byID l ++ [Some u]) ->
  is_complex t0 = true -> decodable u ->
  exists sh' m', (forall buf, enter u (mkDecoder sh l' m, buf) = (Ok tt, (mkDecoder sh' l' m', buf))) /\
    good (mkDecoder sh' l' m') /\ later (mkDecoder sh l m) (mkDecoder sh' l' m').
Proof.
  intros [Hsh Hl Hmap] Hi Hadd Hc0 Hd. pose proof (interns_complex _ _ _ _ Hi Hc0) as Hc. destruct Hi as (_ & Hm & Hw & Hg & _).
  pose proof (member_id l' Hw u Hm Hc) as Hid.
  destruct (member_decodable_translate l' sh u Hw Hsh Hm Hd) as (s & sh' & Et & Hw' & Hx & Hs & Es).
  exists sh', (EnterType (TypeID u) s m). split_and!; [|split; [done..|]|by split].
  - intros buf. unfold enter, Mapper.Enter. cbn [fst snd shared Zngio.local local_mapper]. unfold IDTypeComplex.
    destruct (Z.ltb_spec (TypeID u) 30); [lia|]. by rewrite Et.
  - intros t Ht Hct. cbn [Zngio.local Zngio.shared local_mapper] in *.
    rewrite Lookup_EnterType by (unfold IDTypeComplex; lia).
    destruct (Z.eqb_spec (TypeID t) (TypeID u)) as [E|E].
    { apply (member_TypeID l' Hw t u Ht Hm) in E as ->. by exists s. }
    destruct (member_new l l' u t Hadd Ht Hct) as [Ht'| ->]; [|done].
    destruct (Hmap t Ht' Hct) as (s0 & E1 & Hm0 & E2). exists s0. split_and!; [done| |done]. by eapply member_extends.
Qed.

(** The encoder's side of a typedef is a lookup and the bytes, the decoder's the
    same lookup and the entry in the mapper. *)
Lemma typedef_step {A} (inj : ty -> A) (m : M A) (kD : A -> DM ty) (enc : EM ty) t0 ext code body w e d :
  good d -> linked e (local d) -> looks_up inj m t0 (local d) ->
  is_complex t0 = true -> erase t0 = erase ext -> decodable ext ->
  0 <= code < 256 -> zlen body + 1 <= w ->
  (forall u e1, on_zctx m e = (Ok (inj u), e1) -> enc e = (_ ← emit (typedef_code code ++ body); mret u) e1) ->
  (forall u s, kD (inj u) s = (Ok u, s)) ->
  (forall rest, readTypedef code (d, body ++ rest) = ((on_local m ≫= kD) ≫= enter) (d, rest)) ->
  exists u e' d', enc e = (Ok u, e') /\ carries w e d e' d' /\ member (local d') u /\ erase u = erase ext.
Proof.
  intros Hg [Hsim Hek] (u & l' & Em & Hi & Hadd & Hresp) Hc0 Ee Hd Hcode Hw Henc HkD Hread.
  destruct (Hresp _ Hsim) as (c' & Ec & Hsim').
  pose proof (interns_erase _ _ _ _ Hi) as Eu. rewrite Ee in Eu. pose proof Hi as (_ & Hmu & Hwl & Hgr & _).
  destruct d as [sh l mp]. cbn [local shared local_mapper] in *.
  destruct (enter_spec sh l mp u l' t0) as (sh' & m' & Een & Hg' & Hlt); [done..|by eapply decodable_erase|].
  exists u, (mkEncoder c' (encoded e) (e_bytes e ++ typedef_code code ++ body)), (mkDecoder sh' l' m').
  split_and!; [|split_and!; [done| |done|]|done|done].
  - rewrite (Henc u (mkEncoder c' (encoded e) (e_bytes e))); [done|]. unfold on_zctx. by rewrite Ec.
  - split; [done|]. intros x t Ht. destruct (Hek x t Ht) as [Hm Et]. split; [|done]. by eapply member_extends.
  - exists (typedef_code code ++ body). unfold typedef_code. split_and!; [done| |cbn [app]; rewrite zlen_cons; lia|].
    + intros rest fuel Hf. destruct fuel as [|fuel]; [simpl in Hf; lia|].
      exists fuel. split; [rewrite length_app in Hf; simpl in Hf; lia|].
      cbn [app decode_loop snd].
      rewrite (stm_bind_Ok buf_ReadByte _ _ (zb code) (mkDecoder sh l mp, body ++ rest)) by done.
      rewrite bz_zb_small by lia.
      rewrite (stm_bind_Ok (readTypedef code) _ _ tt (mkDecoder sh' l' m', rest)); [done|].
      rewrite Hread. rewrite (stm_bind_Ok _ _ _ u (mkDecoder sh l' mp, rest)); [by apply Een|].
      rewrite (stm_bind_Ok (on_local m) _ _ (inj u) (mkDecoder sh l' mp, rest)); [apply HkD|].
      unfold on_local. cbn [fst snd local shared local_mapper]. by rewrite Em.
    + cbn [app local]. rewrite zlen_cons. pose proof (zlen_nonneg body).
      destruct Hadd as [->| ->]; [lia|]. rewrite zlen_app. unfold zlen at 2. simpl. lia.
Qed.

(** ** All typedefs of a type *)

Fixpoint total (ts : list ty) : Z :=
  match ts with [] => 0 | t :: ts => weight t + total ts end.
Fixpoint name_weight (ns : list gostring) : Z :=
  match ns with [] => 0 | n :: ns => 10 + zlen n + name_weight ns end.

Lemma weight_nonneg t : 0 <= weight t.
Proof.
  induction t as [p|i fs IH|i t IH|i t IH|i k v IHk IHv|i ts IH|i ss|i t IH|i n t IH] using ty_ind; simpl; try lia.
  - assert (0 <= foldr (fun (f : field) n => weight f.2 + (20 + zlen f.1) + n) 0 fs); [|lia].
    induction IH as [|f fs Hf _ IHfs]; simpl; [lia|]. pose proof (zlen_nonneg f.1). lia.
  - assert (0 <= foldr (fun t n => weight t + 10 + n) 0 ts); [|lia].
    induction IH as [|t ts Ht _ IHts]; simpl; lia.
  - assert (0 <= foldr (fun (s : gostring) n => 10 + zlen s + n) 0 ss); [|lia].
    induction ss as [|s ss IHs]; simpl; [lia|]. pose proof (zlen_nonneg s). lia.
  - pose proof (zlen_nonneg n). lia.
Qed.

Lemma total_nonneg ts : 0 <= total ts.
Proof. induction ts as [|t ts IH]; simpl; [lia|]. pose proof (weight_nonneg t). lia. Qed.

Lemma weight_record i fs :
  weight (TRecord i fs) = total (map snd fs) + (11 + (name_weight (map fst fs) + 10 * zlen fs)).
Proof.
  cbn [weight]. induction fs as [|[n t] fs IH]; [done|]. cbn [foldr map total name_weight fst snd]. rewrite zlen_cons. lia.
Qed.

Lemma weight_union i ts : weight (TUnion i ts) = total ts + (11 + 10 * zlen ts).
Proof. cbn [weight]. induction ts as [|t ts IH]; [done|]. cbn [foldr total]. rewrite zlen_cons. lia. Qed.

Lemma weight_enum i ss : weight (TEnum i ss) = 11 + name_weight ss.
Proof. cbn [weight]. induction ss as [|s ss IH]; [done|]. cbn [foldr name_weight]. lia. Qed.

Lemma uvarint_len x : zlen (uvarint_bytes (u64 x)) <= 10.
Proof. apply uvarint_bytes_len, u64_range. Qed.

Lemma name_bytes_len n : zlen (name_bytes n) <= 10 + zlen n.
Proof. unfold name_bytes. rewrite zlen_app. pose proof (uvarint_len (zlen n)). lia. Qed.

Lemma id_bytes_len t : zlen (id_bytes t) <= 10.
Proof. apply uvarint_len. Qed.

Lemma names_len ss : zlen (concat (map name_bytes ss)) <= name_weight ss.
Proof. induction ss as [|s ss IH]; [done|]. cbn [map concat name_weight]. rewrite zlen_app. pose proof (name_bytes_len s). lia. Qed.

Lemma ids_len ts : zlen (concat (map id_bytes ts)) <= 10 * zlen ts.
Proof. induction ts as [|t ts IH]; [done|]. cbn [map concat]. rewrite zlen_app, zlen_cons. pose proof (id_bytes_len t). lia. Qed.

Lemma fields_len (fs : list field) :
  zlen (concat (map (fun f => name_bytes f.1 ++ id_bytes f.2) fs)) <= name_weight (map fst fs) + 10 * zlen fs.
Proof.
  induction fs as [|[n t] fs IH]; [done|]. cbn [map concat name_weight fst snd]. rewrite !zlen_app, zlen_cons.
  pose proof (name_bytes_len n). pose proof (id_bytes_len t). lia.
Qed.

Section universe.
Context (U : ty -> Prop) `{!Universe U}.

(** What encoding a type must do, with or without the map of encoded types. *)
Definition sends (enc : EM ty) (ext : ty) : Prop :=
  forall e d, good d -> linked e (local d) -> zlen (byID (local d)) + weight ext < 2 ^ 63 ->
    exists u e' d', enc e = (Ok u, e') /\ carries (weight ext) e d e' d' /\ member (local d') u /\ erase u = erase ext.

Lemma memo_sends ext : sends (encode ext) ext -> sends (memo encode ext) ext.
Proof.
  intros H e d Hg Hl Hb. unfold memo. rewrite (stm_bind_Ok get _ e e e) by done. unfold Encoder_Lookup.
  destruct (find_encoded ext (encoded e)) as [t|] eqn:Ef.
  - exists t, e, d. destruct Hl as [Hsim Hk]. destruct (Hk _ _ Ef) as [Hm Et].
    split_and!; [done| |done|done]. apply carries_refl; [done|done|apply weight_nonneg].
  - destruct (H e d Hg Hl Hb) as (u & e1 & d1 & E & (Hg1 & [Hsim Hk] & Hlt & bs & Hbs) & Hm & Eu).
    rewrite (stm_bind_Ok _ _ _ _ _ E). eexists u, _, d1. split; [done|]. split; [|done].
    split_and!; [done| |done|by exists bs]. split; [done|]. intros x t. cbn [encoded find_encoded]. case_decide as Hd; [intros [= <-]; by subst|apply Hk].
Qed.

Lemma encode_fields_sends (fs : list field) :
  Forall (fun f => U f.2 /\ sends (memo encode f.2) f.2) fs ->
  forall e d, good d -> linked e (local d) -> zlen (byID (local d)) + total (map snd fs) < 2 ^ 63 ->
  exists fields e' d', encode_fields (memo encode) fs e = (Ok fields, e') /\ carries (total (map snd fs)) e d e' d' /\
    map fst fields = map fst fs /\ Forall2 (decoded_as U (local d')) (map snd fs) (map snd fields).
Proof.
  induction 1 as [|[n t] fs [HU Ht] _ IH]; intros e d Hg Hl Hb.
  { exists [], e, d. split_and!; [done|by apply carries_refl|done|constructor]. }
  cbn [map total fst snd] in *. pose proof (total_nonneg (map snd fs)).
  destruct (Ht e d Hg Hl ltac:(lia)) as (u & e1 & d1 & E1 & H1 & Hm & Eu).
  pose proof H1 as (Hg1 & Hl1 & Hlt1 & b1 & _ & _ & Hw1 & Hn1).
  destruct (IH e1 d1 Hg1 Hl1 ltac:(lia)) as (fields & e2 & d2 & E2 & H2 & Hnm & Hf2).
  exists ((n, u) :: fields), e2, d2. cbn [encode_fields]. fold (encode_fields (memo encode)).
  rewrite (stm_bind_Ok _ _ _ _ _ E1), (stm_bind_Ok _ _ _ _ _ E2). split_and!; [done|by eapply carries_trans|simpl; by rewrite Hnm|].
  constructor; [|done]. split_and!; [done| |done]. eapply member_extends; [|exact Hm]. apply H2.
Qed.

Lemma encode_types_sends ts :
  Forall (fun t => U t /\ sends (memo encode t) t) ts ->
  forall e d, good d -> linked e (local d) -> zlen (byID (local d)) + total ts < 2 ^ 63 ->
  exists types e' d', encode_types (memo encode) ts e = (Ok types, e') /\ carries (total ts) e d e' d' /\
    Forall2 (decoded_as U (local d')) ts types.
Proof.
  induction 1 as [|t ts [HU Ht] _ IH]; intros e d Hg Hl Hb.
  { exists [], e, d. split_and!; [done|by apply carries_refl|constructor]. }
  cbn [total] in *. pose proof (total_nonneg ts).
  destruct (Ht e d Hg Hl ltac:(lia)) as (u & e1 & d1 & E1 & H1 & Hm & Eu).
  pose proof H1 as (Hg1 & Hl1 & Hlt1 & b1 & _ & _ & Hw1 & Hn1).
  destruct (IH e1 d1 Hg1 Hl1 ltac:(lia)) as (types & e2 & d2 & E2 & H2 & Hf2).
  exists (u :: types), e2, d2. cbn [encode_types]. fold (encode_types (memo encode)).
  rewrite (stm_bind_Ok _ _ _ _ _ E1), (stm_bind_Ok _ _ _ _ _ E2). split_and!; [done|by eapply carries_trans|].
  constructor; [|done]. split_and!; [done| |done]. eapply member_extends; [|exact Hm]. apply H2.
Qed.

Lemma bind_ret_bind {S E A B} (m : stm S E A) (k : A -> stm S E B) s :
  ((m ≫= fun a => mret a) ≫= k) s = (m ≫= k) s.
Proof. unfold mbind, stm_bind, mret, stm_ret. by destruct (m s) as [[]]. Qed.

(** The typedef of a type with one component, after the component. *)
Lemma inner_sends ext t enc w :
  sends (memo encode t) t -> weight ext = weight t + w -> 0 <= w ->
  (forall u e d, good d -> linked e (local d) -> room_for_ids d -> member (local d) u -> erase u = erase t ->
     exists v e' d', enc u e = (Ok v, e') /\ carries w e d e' d' /\ member (local d') v /\ erase v = erase ext) ->
  sends (memo encode t ≫= enc) ext.
Proof.
  intros Ht Hw Hw0 Henc e d Hg Hl Hb. rewrite Hw in *.
  destruct (Ht e d Hg Hl ltac:(lia)) as (u & e1 & d1 & E1 & H1 & Hm & Eu).
  pose proof H1 as (Hg1 & Hl1 & _ & b1 & _ & _ & Hw1 & Hn1).
  destruct (Henc u e1 d1 Hg1 Hl1) as (v & e2 & d2 & E2 & H2 & Hmv & Ev); [unfold room_for_ids; lia|done..|].
  exists v, e2, d2. rewrite (stm_bind_Ok _ _ _ _ _ E1). split_and!; [done|by eapply carries_trans|done|done].
Qed.

(** A typedef of one component. *)
Lemma inner_typedef (lookup : ty -> M ty) (t0 : ty -> ty) code ext u e d :
  good d -> linked e (local d) -> room_for_ids d -> member (local d) u ->
  looks_up (fun v => v) (lookup u) (t0 u) (local d) -> is_complex (t0 u) = true -> erase (t0 u) = erase ext -> decodable ext ->
  0 <= code < 256 ->
  (forall s, readTypedef code s = (inner ← readInner; typ ← on_local (lookup inner); enter typ) s) ->
  exists v e' d', (typ ← on_zctx (lookup u); _ ← emit (typedef_code code ++ id_bytes u); mret typ) e = (Ok v, e') /\
    carries 11 e d e' d' /\ member (local d') v /\ erase v = erase ext.
Proof.
  intros Hg Hl Hr Hm Hlk Hc He Hd Hcode Hread.
  apply (typedef_step (fun v => v) (lookup u) (fun v => mret v) _ (t0 u) ext code (id_bytes u)); try done.
  - pose proof (id_bytes_len u). lia.
  - intros v e1 E1. by rewrite (stm_bind_Ok _ _ _ _ _ E1).
  - intros rest. rewrite Hread, (stm_bind_Ok _ _ _ _ _ (readInner_append d u rest (good_local d Hg) Hr Hm)).
    by rewrite bind_ret_bind.
Qed.

Lemma named_typedef n t u ext e d :
  good d -> linked e (local d) -> room_for_ids d -> member (local d) u -> erase u = erase t ->
  short n -> ValidString n = true -> LookupPrimitive n = None -> erase (TNamed 0 n t) = erase ext -> decodable ext ->
  exists v e' d', encodeTypeName n u e = (Ok v, e') /\ carries (21 + zlen n) e d e' d' /\
    member (local d') v /\ erase v = erase ext.
Proof.
  intros Hg Hl Hr Hm Eu Hs Hv Hp He Hd. pose proof (good_local d Hg) as Hw.
  apply (typedef_step inr (LookupTypeNamed n u) (ok_or ErrName) _ (TNamed 0 n u) ext TypeDefName (name_bytes n ++ id_bytes u)); try done.
  - by apply named_looks_up.
  - rewrite <- He. cbn [erase]. by rewrite Eu.
  - rewrite zlen_app. pose proof (name_bytes_len n). pose proof (id_bytes_len u). lia.
  - intros v e1 E1. unfold encodeTypeName. rewrite (stm_bind_Ok _ _ _ v e1); [done|]. by rewrite (stm_bind_Ok _ _ _ _ _ E1).
  - intros rest. rewrite <- app_assoc. change (readTypedef TypeDefName) with readTypeName. unfold readTypeName.
    rewrite (stm_bind_Ok _ _ _ _ _ (readCountedString_append n d _ Hs)).
    by rewrite (stm_bind_Ok _ _ _ _ _ (readInner_append d u rest Hw Hr Hm)).
Qed.

Lemma map_typedef k v ext e d :
  good d -> linked e (local d) -> room_for_ids d -> member (local d) k -> member (local d) v ->
  erase (TMap 0 k v) = erase ext -> decodable ext ->
  exists u e' d', encodeTypeMap k v e = (Ok u, e') /\ carries 21 e d e' d' /\ member (local d') u /\ erase u = erase ext.
Proof.
  intros Hg Hl Hr Hk Hv He Hd. pose proof (good_local d Hg) as Hw.
  apply (typedef_step (fun v => v) (LookupTypeMap k v) (fun v => mret v) _ (TMap 0 k v) ext TypeDefMap (id_bytes k ++ id_bytes v)); try done.
  - by apply map_looks_up.
  - rewrite zlen_app. pose proof (id_bytes_len k). pose proof (id_bytes_len v). lia.
  - intros u e1 E1. unfold encodeTypeMap. by rewrite (stm_bind_Ok _ _ _ _ _ E1).
  - intros rest. rewrite <- app_assoc. change (readTypedef TypeDefMap) with readTypeMap. unfold readTypeMap.
    rewrite (stm_bind_Ok _ _ _ _ _ (readInner_append d k _ Hw Hr Hk)).
    by rewrite (stm_bind_Ok _ _ _ _ _ (readInner_append d v rest Hw Hr Hv)), bind_ret_bind.
Qed.

Lemma enum_typedef i ss e d :
  good d -> linked e (local d) -> short ss -> Forall short ss -> decodable (TEnum i ss) ->
  exists u e' d', encodeTypeEnum ss e = (Ok u, e') /\ carries (11 + name_weight ss) e d e' d' /\
    member (local d') u /\ erase u = erase (TEnum i ss).
Proof.
  intros Hg Hl Hs Hss Hd. pose proof (good_local d Hg) as Hw. pose proof (zlen_nonneg ss).
  apply (typedef_step (fun v => v) (LookupTypeEnum ss) (fun v => mret v) _ (TEnum 0 ss) _ TypeDefEnum
           (uvarint_bytes (u64 (zlen ss)) ++ concat (map name_bytes ss))); try done.
  - by apply enum_looks_up.
  - rewrite zlen_app. pose proof (uvarint_len (zlen ss)). pose proof (names_len ss). lia.
  - intros u e1 E1. unfold encodeTypeEnum. by rewrite (stm_bind_Ok _ _ _ _ _ E1).
  - intros rest. rewrite <- app_assoc. change (readTypedef TypeDefEnum) with readTypeEnum. unfold readTypeEnum.
    rewrite (stm_bind_Ok _ _ _ _ _ (readUvarint_append (zlen ss) d _ ltac:(unfold short in Hs; lia))).
    rewrite (stm_bind_Ok _ _ _ ss (d, rest)); [by rewrite bind_ret_bind|]. apply read_list_append.
    + intros s r Hin. apply readCountedString_append. rewrite Forall_forall in Hss. by apply Hss.
    + intros s _ E. pose proof (uvarint_bytes_pos (u64 (zlen s))). unfold name_bytes in E. by destruct (uvarint_bytes _).
Qed.

Lemma id_bytes_nonempty t : id_bytes t <> [].
Proof. intros E. pose proof (uvarint_bytes_pos (u64 (TypeID t))). unfold id_bytes in E. by rewrite E in H. Qed.

Lemma record_typedef i fs fields e d :
  good d -> linked e (local d) -> room_for_ids d -> short fs -> Forall (fun f => short f.1) fs ->
  map fst fields = map fst fs -> Forall2 (decoded_as U (local d)) (map snd fs) (map snd fields) ->
  decodable (TRecord i fs) ->
  exists u e' d', encodeTypeRecord fields e = (Ok u, e') /\ carries (11 + (name_weight (map fst fs) + 10 * zlen fs)) e d e' d' /\
    member (local d') u /\ erase u = erase (TRecord i fs).
Proof.
  intros Hg Hl Hr Hs Hsn Hnm Hf Hd. pose proof (good_local d Hg) as Hw.
  assert (Hlen : zlen fields = zlen fs).
  { unfold zlen. f_equal. by rewrite <- (length_map fst fields), Hnm, length_map. }
  assert (Hm : Forall (fun f => member (local d) f.2) fields) by (apply decoded_as_members in Hf; by rewrite Forall_map in Hf).
  assert (Hn : Forall (fun f => short f.1) fields).
  { apply (Forall_map fst short). rewrite Hnm. by apply Forall_map. }
  assert (Hdup : duplicateField fields = None).
  { rewrite (duplicateField_names fields fs Hnm). apply hereditary_components in Hd as [[Hlaw _] _]. done. }
  pose proof (zlen_nonneg fields).
  apply (typedef_step inr (LookupTypeRecord fields) (ok_or ErrRecord) _ (TRecord 0 fields) _ TypeDefRecord
           (uvarint_bytes (u64 (zlen fields)) ++ concat (map (fun f => name_bytes f.1 ++ id_bytes f.2) fields))); try done.
  - apply record_looks_up; try done. by unfold short; rewrite Hlen.
  - by apply (erase_fields_as U (local d)).
  - rewrite zlen_app. pose proof (uvarint_len (zlen fields)). pose proof (fields_len fields). rewrite Hnm in *. lia.
  - intros u e1 E1. unfold encodeTypeRecord. rewrite (stm_bind_Ok _ _ _ u e1); [done|]. by rewrite (stm_bind_Ok _ _ _ _ _ E1).
  - intros rest. rewrite <- app_assoc. change (readTypedef TypeDefRecord) with readTypeRecord. unfold readTypeRecord.
    rewrite (stm_bind_Ok _ _ _ _ _ (readUvarint_append (zlen fields) d _ ltac:(unfold short in Hs; lia))).
    rewrite (stm_bind_Ok _ _ _ fields (d, rest)); [done|]. apply read_list_append.
    + intros f r Hin. rewrite Forall_forall in Hm, Hn. apply readField_append; auto.
    + intros f _ E. apply app_eq_nil in E as [_ E]. by apply id_bytes_nonempty in E.
Qed.

Lemma union_typedef i ts types e d :
  good d -> linked e (local d) -> room_for_ids d -> short ts -> ts <> [] -> sort_types ts = ts ->
  Forall2 (decoded_as U (local d)) ts types -> decodable (TUnion i ts) ->
  exists u e' d', encodeTypeUnion types e = (Ok u, e') /\ carries (11 + 10 * zlen ts) e d e' d' /\
    member (local d') u /\ erase u = erase (TUnion i ts).
Proof.
  intros Hg Hl Hr Hs Hne Hsort Hf Hd. pose proof (good_local d Hg) as Hw. pose proof (member_universe (local d) Hw).
  assert (Hlen : zlen types = zlen ts) by (unfold zlen; f_equal; symmetry; by eapply Forall2_length).
  pose proof (decoded_as_members _ _ _ _ Hf) as Hm.
  assert (Hst : sort_types types = types) by by apply (sort_types_same U (member (local d)) ts).
  pose proof (zlen_nonneg types).
  apply (typedef_step (fun v => v) (LookupTypeUnion types) (fun v => mret v) _ (TUnion 0 types) _ TypeDefUnion
           (uvarint_bytes (u64 (zlen types)) ++ concat (map id_bytes types))); try done.
  - rewrite <- Hst at 2. apply union_looks_up; try done. by unfold short; rewrite Hlen.
  - cbn [erase]. f_equal. clear -Hf. induction Hf as [|t u ts us (_ & _ & E) _ IH]; [done|]. simpl. by rewrite E, IH.
  - rewrite zlen_app. pose proof (uvarint_len (zlen types)). pose proof (ids_len types). lia.
  - intros u e1 E1. unfold encodeTypeUnion. rewrite (stm_bind_Ok _ _ _ _ _ E1). by rewrite Hst.
  - intros rest. rewrite <- app_assoc. change (readTypedef TypeDefUnion) with readTypeUnion. unfold readTypeUnion.
    rewrite (stm_bind_Ok _ _ _ _ _ (readUvarint_append (zlen types) d _ ltac:(unfold short in Hs; lia))).
    destruct (Z.eqb_spec (zlen types) 0) as [E|_].
    { destruct ts; [done|]. rewrite Hlen in E. rewrite zlen_cons in E. pose proof (zlen_nonneg ts). lia. }
    rewrite (stm_bind_Ok _ _ _ types (d, rest)); [by rewrite bind_ret_bind|]. apply read_list_append.
    + intros t r Hin. rewrite Forall_forall in Hm. apply readInner_append; auto.
    + intros t _. apply id_bytes_nonempty.
Qed.

Lemma transmissible_components t :
  transmissible t -> (lawful t /\ within_limits t /\ nonempty_union t) /\ Forall transmissible (components t).
Proof. apply hereditary_components. Qed.

Lemma transmissible_decodable t : transmissible t -> decodable t.
Proof.
  induction t as [p|i fs IH|i t IH|i t IH|i k v IHk IHv|i ts IH|i ss|i t IH|i n t IH] using ty_ind;
    intros [(H1 & H2 & _) Hc]%transmissible_components; apply hereditary_components; (split; [done|]);
    cbn [components] in *; rewrite ?Forall_map, ?Forall_cons, ?Forall_nil in *; try tauto.
  - rewrite Forall_forall in *. intros f Hf. by apply IH, Hc.
  - rewrite Forall_forall in *. intros f Hf. by apply IH, Hc.
Qed.

(** Every kind of type with several components. *)
Lemma name_weight_nonneg ns : 0 <= name_weight ns.
Proof. induction ns as [|n ns IH]; simpl; [lia|]. pose proof (zlen_nonneg n). lia. Qed.

Lemma record_sends i fs :
  Forall (fun f => U f.2 /\ sends (memo encode f.2) f.2) fs -> short fs -> Forall (fun f => short f.1) fs ->
  decodable (TRecord i fs) -> sends (encode (TRecord i fs)) (TRecord i fs).
Proof.
  intros Hall Hs Hsn Hd e d Hg Hl Hb. rewrite weight_record in *.
  pose proof (total_nonneg (map snd fs)). pose proof (name_weight_nonneg (map fst fs)). pose proof (zlen_nonneg fs).
  destruct (encode_fields_sends fs Hall e d Hg Hl ltac:(lia)) as (fields & e1 & d1 & E1 & K1 & Hnm & Hf).
  pose proof K1 as (Hg1 & Hl1 & _ & b1 & _ & _ & Hw1 & Hn1).
  destruct (record_typedef i fs fields e1 d1 Hg1 Hl1) as (u & e2 & d2 & E2 & K2 & Hm & Eu); try done; [unfold room_for_ids; lia|].
  exists u, e2, d2. cbn [encode]. rewrite (stm_bind_Ok _ _ _ _ _ E1). split_and!; [done|by eapply carries_trans|done|done].
Qed.

Lemma union_sends i ts :
  Forall (fun t => U t /\ sends (memo encode t) t) ts -> short ts -> ts <> [] -> sort_types ts = ts ->
  decodable (TUnion i ts) -> sends (encode (TUnion i ts)) (TUnion i ts).
Proof.
  intros Hall Hs Hne Hsort Hd e d Hg Hl Hb. rewrite weight_union in *.
  pose proof (total_nonneg ts). pose proof (zlen_nonneg ts).
  destruct (encode_types_sends ts Hall e d Hg Hl ltac:(lia)) as (types & e1 & d1 & E1 & K1 & Hf).
  pose proof K1 as (Hg1 & Hl1 & _ & b1 & _ & _ & Hw1 & Hn1).
  destruct (union_typedef i ts types e1 d1 Hg1 Hl1) as (u & e2 & d2 & E2 & K2 & Hm & Eu); try done; [unfold room_for_ids; lia|].
  exists u, e2, d2. cbn [encode]. rewrite (stm_bind_Ok _ _ _ _ _ E1). split_and!; [done|by eapply carries_trans|done|done].
Qed.

Lemma map_sends i k v :
  sends (memo encode k) k -> sends (memo encode v) v -> decodable (TMap i k v) -> sends (encode (TMap i k v)) (TMap i k v).
Proof.
  intros Hk Hv Hd e d Hg Hl Hb. cbn [weight] in *. pose proof (weight_nonneg k). pose proof (weight_nonneg v).
  destruct (Hk e d Hg Hl ltac:(lia)) as (k' & e1 & d1 & E1 & K1 & Hmk & Ek).
  pose proof K1 as (Hg1 & Hl1 & _ & b1 & _ & _ & Hw1 & Hn1).
  destruct (Hv e1 d1 Hg1 Hl1 ltac:(lia)) as (v' & e2 & d2 & E2 & K2 & Hmv & Ev).
  pose proof K2 as (Hg2 & Hl2 & [_ Hx2] & b2 & _ & _ & Hw2 & Hn2).
  destruct (map_typedef k' v' (TMap i k v) e2 d2 Hg2 Hl2) as (u & e3 & d3 & E3 & K3 & Hm & Eu);
    [unfold room_for_ids; lia|by eapply member_extends|done|simpl; by rewrite Ek, Ev|done|].
  exists u, e3, d3. cbn [encode]. rewrite (stm_bind_Ok _ _ _ _ _ E1), (stm_bind_Ok _ _ _ _ _ E2).
  split_and!; [done|by eapply carries_trans; [eapply carries_trans|]|done|done].
Qed.

(** Encoding a type sends all it is made of. *)
Lemma encode_sends ext : U ext -> transmissible ext -> sends (encode ext) ext.
Proof.
  induction ext as [p|i fs IH|i t IH|i t IH|i k v IHk IHv|i ts IH|i ss|i t IH|i n t IH] using ty_ind;
    intros HU Ht; pose proof (transmissible_decodable _ Ht) as Hd; pose proof (universe_regular _ HU) as Hreg;
    pose proof (interned_components (U := U) _ HU) as HUc; apply transmissible_components in Ht as [(Hlaw & _ & Hne) Htc];
    cbn [components] in *; rewrite ?Forall_map, ?Forall_cons in HUc, Htc.
  - intros e d Hg Hl _. exists (TPrim p), e, d. split_and!; [done| |done|done]. by apply carries_refl.
  - destruct Hreg. apply record_sends; [|done..]. rewrite Forall_forall in *. intros f Hf. split; [by apply HUc|].
    apply memo_sends. apply IH; auto.
  - destruct HUc as [HUt _], Htc as [Htt _]. apply (inner_sends _ t _ 11); [by apply memo_sends, IH|done|done|].
    intros u e d Hg Hl Hr Hm Eu. apply (inner_typedef LookupTypeArray (TArray 0) TypeDefArray); try done.
    + apply array_looks_up; [apply Hg|done].
    + simpl. by rewrite Eu.
  - destruct HUc as [HUt _], Htc as [Htt _]. apply (inner_sends _ t _ 11); [by apply memo_sends, IH|done|done|].
    intros u e d Hg Hl Hr Hm Eu. apply (inner_typedef LookupTypeSet (TSet 0) TypeDefSet); try done.
    + apply set_looks_up; [apply Hg|done].
    + simpl. by rewrite Eu.
  - destruct HUc as (HUk & HUv & _), Htc as (Htk & Htv & _). by apply map_sends; [apply memo_sends; auto..|].
  - destruct Hreg. apply union_sends; [|done..]. rewrite Forall_forall in *. intros t Hin. split; [by apply HUc|].
    apply memo_sends. apply IH; auto.
  - destruct Hreg as [Hs Hss]. intros e d Hg Hl Hb. rewrite weight_enum in *. by apply enum_typedef.
  - destruct HUc as [HUt _], Htc as [Htt _]. apply (inner_sends _ t _ 11); [by apply memo_sends, IH|done|done|].
    intros u e d Hg Hl Hr Hm Eu. apply (inner_typedef LookupTypeError (TError 0) TypeDefError); try done.
    + apply error_looks_up; [apply Hg|done].
    + simpl. by rewrite Eu.
  - destruct HUc as [HUt _], Htc as [Htt _]. pose proof (zlen_nonneg n).
    apply (inner_sends _ t _ (21 + zlen n)); [by apply memo_sends, IH|done|lia|].
    intros u e d Hg Hl Hr Hm Eu. destruct Hlaw as [Hv Hp]. by apply (named_typedef n t).
Qed.

Lemma Encode_sends ext : U ext -> transmissible ext -> sends (Encode ext) ext.
Proof. intros. by apply memo_sends, encode_sends. Qed.
End universe.
