(* ===== verification/ZngStream.v ===== *)
(** * Frames and streams of values

    What the parser, the scanner and the reader make of the bytes a writer
    produced, whatever the chunks they arrive in. *)

From S2P Require Import Prelude Peeker Zcode Types Context Mapper Interning Decode Values Zngio ZngTypes.
Local Open Scope Z_scope.

Section stream.
Context `{LZ : !LZ4, LZL : !LZ4Laws} (chunk : list byte -> Z -> Z) (to32 of32 to16 of16 : Z -> Z).
Context (mx : Z) (Hmx : 16 <= mx < 2 ^ 62).

(** ** Specification *)

(** The parser has [bs] left to read and the decoder [d]. *)
Definition at_ (p : parser) (bs : list byte) (d : Decoder) : Prop :=
  Peeker.sound (peeker p) /\ limit (peeker p) = mx /\ maxSize p = mx /\ stream (peeker p) = bs /\ p_types p = d.

(** The bytes of one frame, compressed when that makes it smaller. *)
Definition block_bytes (c : bool) (blockType : Z) (b : list byte) : list byte :=
  if zlen b =? 0 then []
  else match compress c b with
       | Some z => comp_header blockType (zlen b) (zlen z) ++ z
       | None => frame_header blockType (zlen b) ++ b
       end.

(** What a client that reads to the end gets of [bs]: the frames in order. *)
Inductive yields (fl : scan_filter) : list byte -> Decoder -> list payload -> Decoder -> Prop :=
| yields_end d : yields fl [] d [] d
| yields_types c b rest d d1 ps d2 :
    0 < zlen b <= mx -> decode b d = (Ok tt, d1) -> yields fl rest d1 ps d2 ->
    yields fl (block_bytes c TypesFrame b ++ rest) d ps d2
| yields_values c b rest d vs ps d2 :
    0 < zlen b <= mx -> (forall pr, exists pr', scanBatch to32 to16 fl d b pr = Ok (vs, pr')) ->
    yields fl rest d ps d2 ->
    yields fl (block_bytes c ValuesFrame b ++ rest) d (map PValue vs ++ ps) d2
| yields_control c format bs rest d ps d2 :
    zlen (format :: bs) <= mx -> yields fl rest d ps d2 ->
    yields fl (block_bytes c ControlFrame (format :: bs) ++ rest) d (PControl format bs :: ps) d2
| yields_eos rest d ps d2 :
    yields fl rest (Decoder_reset d) ps d2 -> yields fl (zb EOS :: rest) d ps d2.

(** ** Reading bytes *)

Lemma peek_byte_cons p b bs d :
  at_ p (b :: bs) d -> exists p', peek_byte chunk p = (Ok b, p') /\ at_ p' bs d.
Proof.
  intros (Hs & Hl & Hm & Hst & Hd). unfold peek_byte, on_peeker.
  destruct (ReadByte_cons chunk b bs (peeker p) Hs) as (r' & -> & Hs' & Hl' & Hst'); [lia|done|].
  eexists. split; [done|]. split_and!; cbn [peeker p_types maxSize]; try done; [congruence|]. by rewrite Hst', Hst.
Qed.

Lemma peek_byte_nil p d : at_ p [] d -> exists p', peek_byte chunk p = (Err (ErrRead EOF), p') /\ at_ p' [] d.
Proof.
  intros (Hs & Hl & Hm & Hst & Hd). unfold peek_byte, on_peeker.
  destruct (ReadByte_nil chunk (peeker p) Hs) as (r' & -> & Hs' & Hl' & Hst'); [lia|done|].
  eexists. split; [done|]. split_and!; cbn [peeker p_types maxSize]; try done; [congruence|]. by rewrite Hst', Hst.
Qed.

Lemma peek_uvarint_loop_Ok fuel bs d i x s u rest :
  read_uvarint_loop fuel bs i x s = Ok (u, rest) ->
  forall p, at_ p bs d -> exists p', peek_uvarint_loop chunk fuel i x s p = (Ok u, p') /\ at_ p' rest d.
Proof.
  revert bs i x s. induction fuel as [|fuel IH]; intros bs i x s H p Hp; [done|].
  cbn [read_uvarint_loop peek_uvarint_loop] in *. destruct bs as [|b bs]; [done|].
  destruct (peek_byte_cons p b bs d Hp) as (p1 & -> & Hp1).
  destruct (bz b <? 128); [|by apply (IH _ _ _ _ H)].
  destruct ((i =? MaxVarintLen64 - 1) && (1 <? bz b)); [done|]. injection H as -> ->. by exists p1.
Qed.

Lemma peek_uvarint_append p x bs d :
  0 <= x < 2 ^ 63 -> at_ p (uvarint_bytes (u64 x) ++ bs) d ->
  exists p', peek_uvarint chunk p = (Ok x, p') /\ at_ p' bs d.
Proof.
  intros Hx Hp. pose proof (read_uvarint_append (u64 x) bs (u64_range x)) as H. unfold read_uvarint in H.
  destruct (peek_uvarint_loop_Ok _ _ d _ _ _ _ _ H p Hp) as (p' & E & Hp').
  exists p'. split; [|done]. unfold peek_uvarint. rewrite (stm_bind_Ok _ _ _ _ _ E), u64_id by lia. by rewrite i64_id by lia.
Qed.

Lemma read_append p b bs d :
  0 < zlen b <= mx -> at_ p (b ++ bs) d ->
  exists p', on_peeker (Read chunk (zlen b)) p = (Ok b, p') /\ at_ p' bs d.
Proof.
  intros Hb (Hs & Hl & Hm & Hst & Hd). unfold on_peeker.
  destruct (Read_Ok chunk (zlen b) (peeker p) Hs) as (r' & -> & Hs' & Hl' & Hst').
  { rewrite Hst, zlen_app. pose proof (zlen_nonneg bs). lia. }
  { lia. }
  rewrite Hst in *. unfold zlen in *. rewrite Nat2Z.id in *. rewrite take_app_length, drop_app_length in *.
  eexists. split; [done|]. split_and!; cbn [peeker p_types maxSize]; try done. congruence.
Qed.

(** ** Headers *)

Lemma land15 x : Z.land x 15 = x mod 16.
Proof. change 15 with (2 ^ 4 - 1). by rewrite land_ones_mod by lia. Qed.

Lemma size_split size : 0 <= size < 2 ^ 63 ->
  Z.lor (i64 (Z.shiftl (Z.shiftr size 4) 4)) (size mod 16) = size.
Proof.
  intros Hs. rewrite Z.shiftr_div_pow2 by lia. change (2 ^ 4) with 16.
  assert (0 <= size / 16 < 2 ^ 59) by (split; [apply Z.div_pos; lia|apply Z.div_lt_upper_bound; lia]).
  rewrite i64_id.
  - rewrite Z.lor_comm, lor_shiftl_add by (try apply Z.mod_pos_bound; lia). change (2 ^ 4) with 16.
    pose proof (Z.div_mod size 16). lia.
  - rewrite Z.shiftl_mul_pow2 by lia. lia.
Qed.

(** The code byte of a frame of type [t], compressed or not, whose size ends in
    [r]. *)
Definition code_of (z : bool) (t r : Z) : Z := r + t * 16 + (if z then 64 else 0).

Lemma code_byte t size : 0 <= t <= 2 -> 0 <= size ->
  Z.lor (Z.shiftl t 4) (Z.land size 15) = code_of false t (size mod 16).
Proof.
  intros Ht Hs. rewrite land15. pose proof (Z.mod_pos_bound size 16 ltac:(lia)). unfold code_of.
  rewrite Z.lor_comm, lor_shiftl_add by lia. lia.
Qed.

Lemma comp_code_byte t n : 0 <= t <= 2 -> 0 <= n ->
  Z.lor (Z.lor (Z.shiftl t 4) (Z.land n 15)) 64 = code_of true t (n mod 16).
Proof.
  intros Ht Hn. rewrite (code_byte t n Ht Hn). pose proof (Z.mod_pos_bound n 16 ltac:(lia)). unfold code_of.
  pose proof (lor_shiftl_add (n mod 16 + t * 16 + 0) 1 6 ltac:(lia) ltac:(lia) ltac:(lia)) as E.
  change (Z.shiftl 1 6) with 64 in E. rewrite E. lia.
Qed.

(** What the parser reads off a code byte. *)
Lemma code_fields z t r : 0 <= t <= 2 -> 0 <= r < 16 ->
  let code := code_of z t r in
  0 <= code < 256 /\ (code =? EOS) = false /\ Z.land code 128 = 0 /\ Z.land (Z.shiftr code 4) 3 = t /\
  Z.land code 15 = r /\ is_compressed code = z.
Proof.
  intros Ht Hr code. split; [subst code; unfold code_of; destruct z; lia|]. subst code. unfold code_of.
  assert (H : Forall (fun t => Forall (fun r => let code := r + t * 16 + (if z then 64 else 0) in
     (code =? EOS) = false /\ Z.land code 128 = 0 /\
     Z.land (Z.shiftr code 4) 3 = t /\ Z.land code 15 = r /\ is_compressed code = z)
     (seqZ 0 16)) (seqZ 0 3)).
  { destruct z; vm_compute; repeat constructor. }
  rewrite Forall_forall in H. specialize (H t). rewrite elem_of_seqZ in H. specialize (H ltac:(lia)).
  rewrite Forall_forall in H. apply H. rewrite elem_of_seqZ. lia.
Qed.

Lemma decodeLength_append z t size p bs d :
  0 <= t <= 2 -> 0 <= size < 2 ^ 63 -> at_ p (uvarint_bytes (u64 (Z.shiftr size 4)) ++ bs) d ->
  exists p', decodeLength chunk (code_of z t (size mod 16)) p = (Ok size, p') /\ at_ p' bs d.
Proof.
  intros Ht Hs Hp. pose proof (Z.mod_pos_bound size 16 ltac:(lia)).
  assert (Hq : 0 <= Z.shiftr size 4 < 2 ^ 63).
  { rewrite Z.shiftr_div_pow2 by lia. change (2 ^ 4) with 16.
    split; [apply Z.div_pos; lia|apply Z.div_lt_upper_bound; lia]. }
  destruct (peek_uvarint_append p _ bs d Hq Hp) as (p' & E & Hp').
  exists p'. split; [|done]. unfold decodeLength. rewrite (stm_bind_Ok _ _ _ _ _ E).
  destruct (code_fields z t (size mod 16)) as (_ & _ & _ & _ & -> & _); [lia..|]. by rewrite size_split.
Qed.

Lemma readFrame_append t b p bs d :
  0 <= t <= 2 -> 0 < zlen b <= mx -> at_ p (uvarint_bytes (u64 (Z.shiftr (zlen b) 4)) ++ b ++ bs) d ->
  exists p', readFrame chunk (code_of false t (zlen b mod 16)) p = (Ok b, p') /\ at_ p' bs d.
Proof.
  intros Ht Hb Hp. destruct (decodeLength_append false t (zlen b) p (b ++ bs) d) as (p1 & E1 & Hp1); [lia..|done|].
  unfold readFrame. rewrite (stm_bind_Ok _ _ _ _ _ E1), (stm_bind_Ok get _ p1 p1 p1) by done.
  pose proof Hp1 as (_ & _ & -> & _). destruct (Z.ltb_spec mx (zlen b)); [lia|].
  by apply read_append.
Qed.

Lemma readCompressedFrame_append t z size p bs d :
  0 <= t <= 2 -> 0 < zlen z <= mx -> 0 <= size <= mx ->
  let n := zlen z + (1 + SizeOfUvarint (u64 size)) in
  at_ p (uvarint_bytes (u64 (Z.shiftr n 4)) ++ zb CompressionFormatLZ4 :: uvarint_bytes (u64 size) ++ z ++ bs) d ->
  exists p', readCompressedFrame chunk (code_of true t (n mod 16)) p = (Ok (Compressed CompressionFormatLZ4 z size), p') /\
    at_ p' bs d.
Proof.
  intros Ht Hz Hs n Hp.
  assert (Hn : 0 <= n < 2 ^ 63).
  { unfold n. rewrite SizeOfUvarint_length by apply u64_range. pose proof (uvarint_bytes_pos (u64 size)).
    pose proof (uvarint_len size). lia. }
  destruct (decodeLength_append true t n p _ d Ht Hn Hp) as (p1 & E1 & Hp1).
  destruct (peek_byte_cons p1 _ _ d Hp1) as (p2 & E2 & Hp2).
  destruct (peek_uvarint_append p2 size (z ++ bs) d) as (p3 & E3 & Hp3); [lia|done|].
  destruct (read_append p3 z bs d Hz Hp3) as (p4 & E4 & Hp4).
  exists p4. split; [|done]. unfold readCompressedFrame.
  rewrite (stm_bind_Ok _ _ _ _ _ E1), (stm_bind_Ok _ _ _ _ _ E2), (stm_bind_Ok _ _ _ _ _ E3), (stm_bind_Ok get _ p3 p3 p3) by done.
  pose proof Hp3 as (_ & _ & -> & _). destruct (Z.ltb_spec mx size); [lia|].
  replace (n - (1 + SizeOfUvarint (u64 size))) with (zlen z) by (unfold n; lia).
  rewrite (stm_bind_Ok _ _ p3 z p4); [|by rewrite E4]. destruct (Z.ltb_spec size 0); [lia|]. done.
Qed.

(** Reading a block, whether it was compressed or not. *)
Lemma block_read c t b p rest d :
  0 <= t <= 2 -> 0 < zlen b <= mx -> at_ p (block_bytes c t b ++ rest) d ->
  exists z r p1 p2, 0 <= r < 16 /\ peek_byte chunk p = (Ok (zb (code_of z t r)), p1) /\ at_ p2 rest d /\
    if z then exists f, readCompressedFrame chunk (code_of z t r) p1 = (Ok f, p2) /\ decompress f = Ok b
    else readFrame chunk (code_of z t r) p1 = (Ok b, p2).
Proof.
  intros Ht Hb Hp. unfold block_bytes in Hp. destruct (Z.eqb_spec (zlen b) 0) as [|_]; [lia|].
  destruct (compress c b) as [z|] eqn:Ez.
  - assert (Hc : compressBlock b = Some z /\ 0 < zlen z).
    { unfold compress in Ez. destruct (negb c || (zlen b =? 0)); [done|]. destruct (compressBlock b) as [z'|]; [|done].
      destruct (Z.ltb_spec 0 (zlen z')); simplify_eq. done. }
    destruct Hc as [Hc Hz]. pose proof (lz4_fits b z Hc). set (n := zlen z + (1 + SizeOfUvarint (u64 (zlen b)))).
    assert (Hn : 0 <= n) by (unfold n; rewrite SizeOfUvarint_length by apply u64_range; pose proof (uvarint_bytes_pos (u64 (zlen b))); lia).
    unfold comp_header in Hp. fold n in Hp. rewrite comp_code_byte in Hp by lia. rewrite <- app_assoc in Hp. cbn [app] in Hp.
    destruct (peek_byte_cons p _ _ d Hp) as (p1 & E1 & Hp1). rewrite <- !app_assoc in Hp1. cbn [app] in Hp1. rewrite <- ?app_assoc in Hp1.
    destruct (readCompressedFrame_append t z (zlen b) p1 rest d) as (p2 & E2 & Hp2); [lia..|exact Hp1|].
    exists true, (n mod 16), p1, p2. split_and!; [apply Z.mod_pos_bound; lia|apply Z.mod_pos_bound; lia|done|done|].
    eexists. split; [exact E2|]. unfold decompress. cbn [negb Z.eqb CompressionFormatLZ4].
    rewrite (lz4_roundtrip b z Hc), Z.eqb_refl. done.
  - unfold frame_header in Hp. rewrite code_byte in Hp by lia. rewrite <- app_assoc in Hp. cbn [app] in Hp.
    destruct (peek_byte_cons p _ _ d Hp) as (p1 & E1 & Hp1). rewrite <- ?app_assoc in Hp1.
    destruct (readFrame_append t b p1 rest d Ht Hb Hp1) as (p2 & E2 & Hp2).
    exists false, (zlen b mod 16), p1, p2. split_and!; [apply Z.mod_pos_bound; lia|apply Z.mod_pos_bound; lia|done|done|done].
Qed.

(** ** Frames *)

Lemma block_bytes_length c t b : 0 < zlen b -> (1 <= length (block_bytes c t b))%nat.
Proof.
  intros Hb. unfold block_bytes. destruct (Z.eqb_spec (zlen b) 0); [lia|].
  destruct (compress c b); simpl; lia.
Qed.

(** One round of the parser on the code of a frame. *)
Lemma read_loop_code z t r fuel p p1 :
  0 <= t <= 2 -> 0 <= r < 16 -> peek_byte chunk p = (Ok (zb (code_of z t r)), p1) ->
  read_loop chunk (S fuel) p =
    (if t =? TypesFrame then _ ← decodeTypes chunk (code_of z t r); read_loop chunk fuel
     else if t =? ValuesFrame then f ← decodeValues chunk (code_of z t r); mret (Values f)
     else c ← decodeControl chunk (code_of z t r); mret (Control c.1 c.2)) p1.
Proof.
  intros Ht Hr E. destruct (code_fields z t r Ht Hr) as (Hc & H1 & H2 & H3 & _ & _).
  cbn [read_loop]. rewrite (stm_bind_Ok _ _ _ _ _ E), bz_zb_small by lia. cbv zeta. rewrite H1, H2, H3. cbn [Z.eqb negb].
  destruct (t =? TypesFrame) eqn:E0; [done|]. destruct (t =? ValuesFrame) eqn:E1; [done|].
  destruct (Z.eqb_spec t ControlFrame) as [|Hne]; [done|].
  apply Z.eqb_neq in E0, E1. unfold TypesFrame, ValuesFrame, ControlFrame in *. lia.
Qed.

(** Each decoder of a payload gets the bytes of the block. *)
Lemma types_block c b fuel p rest d d1 :
  0 < zlen b <= mx -> decode b d = (Ok tt, d1) -> at_ p (block_bytes c TypesFrame b ++ rest) d ->
  exists p2, read_loop chunk (S fuel) p = read_loop chunk fuel p2 /\ at_ p2 rest d1.
Proof.
  intros Hb Hd Hp. destruct (block_read c TypesFrame b p rest d) as (z & r & p1 & p2 & Hr & E1 & Hp2 & H); [done..|].
  assert (Hty : on_decoder (decode b) p2 = (Ok tt, mkParser (peeker p2) d1 (maxSize p2))).
  { destruct Hp2 as (_ & _ & _ & _ & Hd2). unfold on_decoder. by rewrite Hd2, Hd. }
  exists (mkParser (peeker p2) d1 (maxSize p2)). split.
  - rewrite (read_loop_code z TypesFrame r fuel p p1) by (done || unfold TypesFrame; lia). cbn [Z.eqb TypesFrame].
    unfold decodeTypes.
    destruct (code_fields z TypesFrame r) as (_ & _ & _ & _ & _ & ->); [unfold TypesFrame; lia|done|].
    unfold mbind, stm_bind. destruct z.
    + destruct H as (f & E & Ef). rewrite E. unfold lift_out. by rewrite Ef, Hty.
    + by rewrite H, Hty.
  - destruct Hp2 as (H1 & H2 & H3 & H4 & _). by split_and!.
Qed.

Lemma values_block c b fuel p rest d :
  0 < zlen b <= mx -> at_ p (block_bytes c ValuesFrame b ++ rest) d ->
  exists p2 f, read_loop chunk (S fuel) p = (Ok (Values f), p2) /\ at_ p2 rest d /\ decompress f = Ok b.
Proof.
  intros Hb Hp. destruct (block_read c ValuesFrame b p rest d) as (z & r & p1 & p2 & Hr & E1 & Hp2 & H); [done..|].
  exists p2. rewrite (read_loop_code z ValuesFrame r fuel p p1) by (done || unfold ValuesFrame; lia). cbn [Z.eqb Pos.eqb TypesFrame ValuesFrame].
  unfold decodeValues. destruct (code_fields z ValuesFrame r) as (_ & _ & _ & _ & _ & ->); [unfold ValuesFrame; lia|done|].
  destruct z.
  - destruct H as (f & E & Ef). exists f. by rewrite (stm_bind_Ok _ _ _ _ _ E).
  - exists (Uncompressed b). unfold mbind, stm_bind. by rewrite H.
Qed.

Lemma control_block c format bs fuel p rest d :
  zlen (format :: bs) <= mx -> at_ p (block_bytes c ControlFrame (format :: bs) ++ rest) d ->
  exists p2, read_loop chunk (S fuel) p = (Ok (Control format bs), p2) /\ at_ p2 rest d.
Proof.
  intros Hb Hp. pose proof (zlen_nonneg bs). pose proof (zlen_cons format bs).
  destruct (block_read c ControlFrame (format :: bs) p rest d) as (z & r & p1 & p2 & Hr & E1 & Hp2 & H'); [done|lia|done|].
  exists p2. rewrite (read_loop_code z ControlFrame r fuel p p1) by (done || unfold ControlFrame; lia).
  cbn [Z.eqb Pos.eqb TypesFrame ValuesFrame ControlFrame]. split; [|done].
  unfold decodeControl. destruct (code_fields z ControlFrame r) as (_ & _ & _ & _ & _ & ->); [unfold ControlFrame; lia|done|].
  unfold mbind, stm_bind. destruct z.
  - destruct H' as (f & E & Ef). rewrite E. unfold lift_out. by rewrite Ef.
  - by rewrite H'.
Qed.

Lemma eos_byte fuel p rest d :
  at_ p (zb EOS :: rest) d ->
  exists p2, read_loop chunk (S fuel) p = read_loop chunk fuel p2 /\ at_ p2 rest (Decoder_reset d).
Proof.
  intros Hp. destruct (peek_byte_cons p _ _ d Hp) as (p1 & E1 & Hp1).
  exists (mkParser (peeker p1) (Decoder_reset (p_types p1)) (maxSize p1)). split.
  - cbn [read_loop]. by rewrite (stm_bind_Ok _ _ _ _ _ E1).
  - destruct Hp1 as (H1 & H2 & H3 & H4 & <-). by split_and!.
Qed.
(** ** Reading to the end *)

Lemma EOF_at_end fuel p d :
  at_ p [] d -> exists p', read_loop chunk (S fuel) p = (Err (ErrRead EOF), p') /\ at_ p' [] d.
Proof.
  intros Hp. destruct (peek_byte_nil p d Hp) as (p' & E & Hp'). exists p'. split; [|done].
  cbn [read_loop]. by rewrite (stm_bind_Err _ _ _ _ _ E).
Qed.

(** What the next message of the parser is, when the rest of the bytes yields
    [ps]. *)
Inductive next_message (fl : scan_filter) (ps : list payload) (d2 : Decoder) (n : nat) :
    outcome zng_error message * parser -> Prop :=
| next_end p : ps = [] -> at_ p [] d2 -> next_message fl ps d2 n (Err (ErrRead EOF), p)
| next_values p f b rest d vs ps' :
    ps = map PValue vs ++ ps' -> at_ p rest d -> (length rest < n)%nat -> decompress f = Ok b ->
    (forall pr, exists pr', scanBatch to32 to16 fl d b pr = Ok (vs, pr')) -> yields fl rest d ps' d2 ->
    next_message fl ps d2 n (Ok (Values f), p)
| next_control p format bs rest d ps' :
    ps = PControl format bs :: ps' -> at_ p rest d -> (length rest < n)%nat -> yields fl rest d ps' d2 ->
    next_message fl ps d2 n (Ok (Control format bs), p).

Lemma next_message_mono fl ps d2 n n' r : next_message fl ps d2 n r -> (n <= n')%nat -> next_message fl ps d2 n' r.
Proof.
  destruct 1; intros Hn; [by apply next_end|eapply next_values; eauto; lia|eapply next_control; eauto; lia].
Qed.

Lemma read_loop_yields fl bs d ps d2 fuel p :
  yields fl bs d ps d2 -> at_ p bs d -> (length bs < fuel)%nat -> next_message fl ps d2 (length bs) (read_loop chunk fuel p).
Proof.
  intros H. revert fuel p.
  induction H as [d|c b rest d d1 ps d2 Hb Hd H IH|c b rest d vs ps d2 Hb Hs H IH|c format bs rest d ps d2 Hb H IH|rest d ps d2 H IH];
    intros fuel p Hp Hf; (destruct fuel as [|fuel]; [lia|]).
  - destruct (EOF_at_end fuel p d Hp) as (p' & -> & Hp'). by apply next_end.
  - destruct (types_block c b fuel p rest d d1 Hb Hd Hp) as (p2 & -> & Hp2).
    rewrite length_app in *. pose proof (block_bytes_length c TypesFrame b ltac:(lia)).
    eapply next_message_mono; [by apply IH; [|lia]|lia].
  - destruct (values_block c b fuel p rest d Hb Hp) as (p2 & f & -> & Hp2 & Ef).
    rewrite length_app. pose proof (block_bytes_length c ValuesFrame b ltac:(lia)).
    by eapply next_values; [done|exact Hp2|lia|done..].
  - destruct (control_block c format bs fuel p rest d Hb Hp) as (p2 & -> & Hp2).
    rewrite length_app. pose proof (zlen_nonneg bs). pose proof (zlen_cons format bs).
    pose proof (block_bytes_length c ControlFrame (format :: bs) ltac:(lia)).
    by eapply next_control; [done|exact Hp2|lia|].
  - destruct (eos_byte fuel p rest d Hp) as (p2 & -> & Hp2). simpl in *.
    eapply next_message_mono; [by apply IH; [|lia]|lia].
Qed.

(** A scanner with [bs] left to read. *)
Definition scanner_at (s : scanner) (fl : scan_filter) (bs : list byte) (d : Decoder) : Prop :=
  at_ (s_parser s) bs d /\ s_filter s = fl /\ s_eof s = false.

Inductive next_pull (fl : scan_filter) (ps : list payload) (d2 : Decoder) (n : nat) :
    outcome zng_error pulled * scanner -> Prop :=
| pull_end s : ps = [] -> scanner_at s fl [] d2 -> next_pull fl ps d2 n (Ok End, s)
| pull_batch s v vs rest d ps' :
    ps = map PValue (v :: vs) ++ ps' -> scanner_at s fl rest d -> yields fl rest d ps' d2 ->
    next_pull fl ps d2 n (Ok (Batch (v :: vs)), s)
| pull_control s format bs rest d ps' :
    ps = PControl format bs :: ps' -> scanner_at s fl rest d -> yields fl rest d ps' d2 ->
    next_pull fl ps d2 n (Ok (Ctl format bs), s).

Lemma pull_loop_yields fl d2 fuel : forall bs d ps s,
  yields fl bs d ps d2 -> scanner_at s fl bs d -> (length bs < fuel)%nat ->
  next_pull fl ps d2 (length bs) (pull_loop chunk to32 to16 fuel s).
Proof.
  induction fuel as [|fuel IH]; intros bs d ps s Hy (Hp & Hfl & He) Hf; [lia|].
  cbn [pull_loop]. unfold on_parser, read at 1.
  pose proof Hp as (_ & _ & _ & Hst & _). rewrite Hst.
  pose proof (read_loop_yields fl bs d ps d2 (S (length bs)) (s_parser s) Hy Hp ltac:(lia)) as Hn.
  destruct Hn as [p Hps Hp'|p f b rest d' vs ps' Hps Hp' Hlt Ef Hs Hy'|p format b rest d' ps' Hps Hp' Hlt Hy'].
  - by apply pull_end.
  - rewrite (stm_bind_Ok _ _ _ b (mkScanner p (s_progress s) (s_filter s) (s_eof s))); [|unfold lift_out; by rewrite Ef].
    destruct (Hs (s_progress s)) as (pr & Es). pose proof Hp' as (_ & _ & _ & _ & Hd').
    rewrite (stm_bind_Ok _ _ _ vs (mkScanner p pr (s_filter s) (s_eof s))).
    2: { unfold scan. cbn [s_filter s_parser s_progress s_eof]. rewrite Hd', Hfl. by rewrite Es. }
    destruct vs as [|v vs].
    + rewrite Hps. assert (Hn : next_pull fl ps' d2 (length rest) (pull_loop chunk to32 to16 fuel (mkScanner p pr (s_filter s) (s_eof s)))).
      { by apply (IH rest d'); [|split_and!|lia]. }
      destruct Hn; [by apply pull_end|by eapply pull_batch|by eapply pull_control].
    + eapply pull_batch; [exact Hps| |exact Hy']. by split_and!.
  - eapply pull_control; [exact Hps| |exact Hy']. by split_and!.
Qed.

(** Reading to the end gets the values the last batch still has and what the
    rest of the bytes yields. *)
Lemma drain_yields fl d2 fuel : forall bs d ps r,
  yields fl bs d ps d2 -> scanner_at (r_scanner r) fl bs d -> (length (r_vals r) + length ps < fuel)%nat ->
  exists r', drain chunk to32 to16 fuel r = (map PValue (r_vals r) ++ ps, Ok tt, r') /\
    scanner_at (r_scanner r') fl [] d2.
Proof.
  induction fuel as [|fuel IH]; intros bs d ps r Hy Hs Hf; [lia|].
  cbn [drain]. unfold ReadPayload. destruct (r_vals r) as [|v vs] eqn:Ev.
  - unfold Pull. pose proof Hs as (Hp & _ & ->). pose proof Hp as (_ & _ & _ & Hst & _). rewrite Hst.
    destruct (pull_loop_yields fl d2 (S (length bs)) bs d ps (r_scanner r) Hy Hs ltac:(lia))
      as [s -> Hs'|s v vs rest d' ps' -> Hs' Hy'|s format b rest d' ps' -> Hs' Hy'].
    + by eexists.
    + destruct (IH rest d' ps' (mkZreader s vs) Hy' Hs') as (r' & -> & Hr').
      { cbn [r_vals length map app] in *. rewrite length_app, length_map in Hf. lia. }
      by exists r'.
    + destruct (IH rest d' ps' (mkZreader s []) Hy' Hs') as (r' & -> & Hr').
      { cbn [r_vals length] in *. lia. }
      by exists r'.
  - destruct (IH bs d ps (mkZreader (r_scanner r) vs) Hy Hs) as (r' & -> & Hr').
    { cbn [r_vals length] in *. lia. }
    by exists r'.
Qed.
End stream.
