(* ===== verification/ZngWriter.v ===== *)
(** * What a writer sends

    The writer's bytes so far, with the typedefs and values it still buffers,
    against what a reader makes of them. *)

From S2P Require Import Prelude Peeker Zcode Types Context Mapper Interning Decode Values Zngio ZngTypes ZngStream.
Local Open Scope Z_scope.

Section writer.
Context `{LZ : !LZ4, LZL : !LZ4Laws} (chunk : list byte -> Z -> Z) (to32 of32 to16 of16 : Z -> Z).
Context (mx : Z) (Hmx : 16 <= mx < 2 ^ 62).

Local Abbreviation yields := (yields to32 to16 mx).

(** ** Specification *)

(** What a client does with a writer. *)
Inductive item := IValue (v : Value) | IControl (b : list byte) (format : byte) | IEndStream.

Definition write_item (it : item) : stm Writer zng_error unit :=
  match it with
  | IValue v => Write to32 to16 v
  | IControl b format => WriteControl b format
  | IEndStream => EndStream
  end.
Fixpoint write_items (its : list item) : stm Writer zng_error unit :=
  match its with
  | [] => mret tt
  | it :: its => _ ← write_item it; write_items its
  end.

(** What the reader's client sees of it. *)
Definition visible (it : item) : bool := match it with IEndStream => false | _ => true end.

(** A payload carries the item: a value has the same bytes and a type of the
    reader's context with the same structure. *)
Definition delivered (sh : Context) (it : item) (p : payload) : Prop :=
  match it, p with
  | IValue v, PValue v' =>
      member sh (v_type v') /\ erase (v_type v') = erase (v_type v) /\
      exists b, Value_Bytes to32 to16 v = Ok b /\ v_repr v' = Raw b
  | IControl b format, PControl format' b' => format' = format /\ b' = b
  | _, _ => False
  end.

(** A scanner without a buffer filter and without validation. *)
Definition plain (fl : scan_filter) : Prop := bufferFilter fl = None /\ validate fl = false.
Definition wanted (fl : scan_filter) (v : Value) : bool := match wants fl with Some f => f v | None => true end.
Definition keep (fl : scan_filter) (p : payload) : bool := match p with PValue v => wanted fl v | _ => true end.

(** ** Scanning the values of a frame *)

(** A buffered value: the value, its type in the local context and its
    bytes. *)
Definition entry : Type := Value * (ty * bytes).
Definition entry_bytes (e : entry) : list byte := id_bytes e.2.1 ++ val_bytes e.2.2.
Definition buffered (d : Decoder) (e : entry) : Prop :=
  member (local d) e.2.1 /\ erase e.2.1 = erase (v_type e.1) /\ Value_Bytes to32 to16 e.1 = Ok e.2.2 /\ small e.2.2.

Lemma Lookup_mapped d t :
  good d -> member (local d) t ->
  exists s, Lookup (local_mapper d) (TypeID t) = Some s /\ member (shared d) s /\ erase s = erase t.
Proof.
  intros Hg Hm. destruct (is_complex t) eqn:Hc; [by apply (good_mapped d Hg)|].
  destruct t as [p| | | | | | | |]; try done. exists (TPrim p). split_and!; [by destruct p|done|done].
Qed.

Lemma toTag_pos n : 0 <= n < 2 ^ 62 -> tagIsNull (toTag n) = false /\ tagLength (toTag n) = Ok n /\ 0 <= toTag n < 2 ^ 64.
Proof.
  intros Hn. rewrite toTag_small by lia. unfold tagIsNull, tagLength, tagNull.
  destruct (Z.eqb_spec (n + 1) 0); [lia|]. rewrite i64_id by lia. split_and!; [done|f_equal; lia|lia|lia].
Qed.

Lemma decodeVal_entry fl d e rest c :
  plain fl -> good d -> room_for_ids d -> buffered d e -> cache_ok (local_mapper d) c ->
  exists s c', decodeVal to32 to16 fl (local_mapper d) (entry_bytes e ++ rest, c) = (Ok (NewValue s e.2.2), (rest, c')) /\
    cache_ok (local_mapper d) c' /\ member (shared d) s /\ erase s = erase (v_type e.1).
Proof.
  destruct e as [v [t b]]. intros [_ Hv] Hg Hr (Hm & He & _ & Hb) Hc. cbn [fst snd] in *. unfold room_for_ids in Hr.
  pose proof (TypeID_range _ t (good_local d Hg) Hm) as Hid.
  destruct (Lookup_mapped d t Hg Hm) as (s & Hs & Hms & Es).
  destruct (cache_Lookup_spec (E := zng_error) (local_mapper d) c (TypeID t) Hc ltac:(lia)) as (c' & Ec & Hc').
  exists s, c'. split; [|by rewrite Es]. unfold decodeVal, entry_bytes. cbn [fst snd].
  unfold id_bytes. rewrite <- app_assoc, buf_uvarint_append by lia. rewrite Ec, Hs, Hv. cbn [andb].
  unfold ReadTag. destruct b as [b|]; cbn [val_bytes].
  - change (zlen b < 2 ^ 62) in Hb. pose proof (zlen_nonneg b).
    destruct (toTag_pos (zlen b) ltac:(lia)) as (E1 & E2 & E3).
    rewrite <- app_assoc, read_uvarint_append by lia. cbn [mbind outcome_bind obind]. rewrite E1, E2.
    destruct (Z.eqb_spec (zlen b) 0) as [E|E].
    + destruct b; [done|]. rewrite zlen_cons in E. pose proof (zlen_nonneg b0). lia.
    + destruct (Z.ltb_spec 0 (zlen b)); [|lia]. by rewrite buf_read_append.
  - rewrite read_uvarint_append by lia. done.
Qed.

Lemma entry_bytes_nonempty e : (1 <= length (entry_bytes e))%nat.
Proof.
  unfold entry_bytes. rewrite length_app. pose proof (id_bytes_nonempty e.2.1). destruct (id_bytes e.2.1); [done|simpl; lia].
Qed.

Lemma scan_loop_entries fl d pend fuel c :
  plain fl -> good d -> room_for_ids d -> Forall (buffered d) pend -> cache_ok (local_mapper d) c ->
  (length (concat (map entry_bytes pend)) <= fuel)%nat ->
  exists vs, Forall2 (delivered (shared d)) (map (fun e => IValue e.1) pend) (map PValue vs) /\
    forall pr, exists pr', scan_loop to32 to16 fuel fl (local_mapper d) (concat (map entry_bytes pend)) c pr =
                 Ok (List.filter (wanted fl) vs, pr').
Proof.
  intros Hpl Hg Hr Hp. revert fuel c. induction Hp as [|e pend He Hp IH]; intros fuel c Hc Hf.
  { exists []. split; [constructor|]. intros pr. exists pr. by destruct fuel. }
  cbn [map concat] in *. rewrite length_app in Hf. pose proof (entry_bytes_nonempty e).
  destruct fuel as [|fuel]; [lia|].
  destruct (decodeVal_entry fl d e (concat (map entry_bytes pend)) c Hpl Hg Hr He Hc) as (s & c' & E & Hc' & Hs & Es).
  destruct (IH fuel c' Hc' ltac:(lia)) as (vs & Hvs & Hscan).
  exists (NewValue s e.2.2 :: vs). split.
  - cbn [map]. constructor; [|done]. split_and!; [done|done|]. destruct He as (_ & _ & ? & _). by exists e.2.2.
  - intros pr. cbn [scan_loop]. destruct (entry_bytes e ++ _) as [|x l] eqn:El; [apply (f_equal length) in El; rewrite length_app in El; simpl in El; lia|].
    rewrite E. unfold wantValue. fold (wanted fl (NewValue s e.2.2)). cbn [List.filter].
    destruct (wanted fl (NewValue s e.2.2)).
    + match goal with |- context [scan_loop _ _ _ _ _ _ _ ?pr0] => destruct (Hscan pr0) as (pr' & ->) end. by eexists.
    + match goal with |- context [scan_loop _ _ _ _ _ _ _ ?pr0] => destruct (Hscan pr0) as (pr' & ->) end. by eexists.
Qed.

Lemma scanBatch_entries fl d pend :
  plain fl -> good d -> room_for_ids d -> Forall (buffered d) pend ->
  exists vs, Forall2 (delivered (shared d)) (map (fun e => IValue e.1) pend) (map PValue vs) /\
    forall pr, exists pr', scanBatch to32 to16 fl d (concat (map entry_bytes pend)) pr = Ok (List.filter (wanted fl) vs, pr').
Proof.
  intros Hpl Hg Hr Hp.
  destruct (scan_loop_entries fl d pend (length (concat (map entry_bytes pend))) cache_Reset) as (vs & Hvs & Hs); [done..|].
  exists vs. split; [done|]. intros pr. unfold scanBatch. destruct Hpl as [-> _].
  destruct (Hs (mkProgress 0 0 0 0)) as (pr' & ->). by eexists.
Qed.

(** ** Frames one after the other *)

Lemma yields_app fl a b d d1 d2 ps1 ps2 :
  yields fl a d ps1 d1 -> yields fl b d1 ps2 d2 -> yields fl (a ++ b) d (ps1 ++ ps2) d2.
Proof.
  intros H H2. induction H; rewrite <- ?app_assoc.
  - done.
  - eapply yields_types; eauto.
  - apply yields_values; eauto.
  - apply yields_control; eauto.
  - apply yields_eos. eauto.
Qed.

Lemma block_bytes_empty c t b : zlen b = 0 -> block_bytes c t b = [].
Proof. intros E. unfold block_bytes. by rewrite E. Qed.

Lemma zlen_zero {A} (l : list A) : zlen l = 0 -> l = [].
Proof. destruct l as [|x l]; [done|]. rewrite zlen_cons. pose proof (zlen_nonneg l). lia. Qed.

Lemma decodes_empty d d1 : decodes [] d d1 -> d1 = d.
Proof. intros H%decode_decodes. by injection H as <-. Qed.

Lemma yields_types_block fl c b d d1 :
  zlen b <= mx -> decodes b d d1 -> yields fl (block_bytes c TypesFrame b) d [] d1.
Proof.
  intros Hb Hd. destruct (Z.eq_dec (zlen b) 0) as [E|E].
  - rewrite block_bytes_empty by done. apply zlen_zero in E as ->. apply decodes_empty in Hd as ->. constructor.
  - rewrite <- (app_nil_r (block_bytes _ _ _)). apply decode_decodes in Hd. pose proof (zlen_nonneg b).
    eapply yields_types; [lia|done|constructor].
Qed.

Lemma keep_values fl vs : map PValue (List.filter (wanted fl) vs) = List.filter (keep fl) (map PValue vs).
Proof. induction vs as [|v vs IH]; [done|]. cbn [map List.filter keep]. destruct (wanted fl v); cbn [map]; by rewrite IH. Qed.

Lemma yields_values_block fl c d pend :
  plain fl -> good d -> room_for_ids d -> Forall (buffered d) pend -> zlen (concat (map entry_bytes pend)) <= mx ->
  exists ps, Forall2 (delivered (shared d)) (map (fun e => IValue e.1) pend) ps /\
    yields fl (block_bytes c ValuesFrame (concat (map entry_bytes pend))) d (List.filter (keep fl) ps) d.
Proof.
  intros Hpl Hg Hr Hp Hb. destruct (scanBatch_entries fl d pend Hpl Hg Hr Hp) as (vs & Hvs & Hs).
  exists (map PValue vs). split; [done|]. destruct (Z.eq_dec (zlen (concat (map entry_bytes pend))) 0) as [E|E].
  - rewrite block_bytes_empty by done. destruct pend as [|e pend].
    + inversion Hvs as [Hv|]. constructor.
    + apply zlen_zero, (f_equal length) in E. cbn [map concat] in E. rewrite length_app in E.
      pose proof (entry_bytes_nonempty e). simpl in E. lia.
  - rewrite <- (app_nil_r (block_bytes _ _ _)), <- (app_nil_r (List.filter _ _)), <- keep_values.
    apply yields_values; [pose proof (zlen_nonneg (concat (map entry_bytes pend))); lia|done|constructor].
Qed.

Lemma yields_control_block fl c format bs d :
  zlen bs + 1 <= mx -> yields fl (block_bytes c ControlFrame (format :: bs)) d [PControl format bs] d.
Proof.
  intros Hb. rewrite <- (app_nil_r (block_bytes _ _ _)). apply yields_control; [rewrite zlen_cons; lia|constructor].
Qed.

(** ** Writing to a sink that takes everything *)

Definition sent (bs : list byte) (w : Writer) : Writer :=
  set_writer (mkSink (data (writer w) ++ bs) None (closed (writer w))) (position w + zlen bs) w.

Lemma write_room bs w : room (writer w) = None -> write bs w = (Ok tt, sent bs w).
Proof. intros E. unfold write. by rewrite E. Qed.

Lemma sent_nil w : room (writer w) = None -> sent [] w = w.
Proof.
  destruct w as [[dt r c] pos fl o ty vs]. unfold sent, set_writer. cbn. intros ->. rewrite app_nil_r. f_equal. change (zlen []) with 0. lia.
Qed.

Lemma sent_sent a b w : sent b (sent a w) = sent (a ++ b) w.
Proof. unfold sent, set_writer. cbn. rewrite <- app_assoc, zlen_app. f_equal. lia. Qed.

Lemma writeBlock_room t b w :
  room (writer w) = None -> writeBlock t b w = (Ok tt, sent (block_bytes (Compress (opts w)) t b) w).
Proof.
  intros E. unfold writeBlock, block_bytes. destruct (zlen b =? 0); [by rewrite sent_nil|].
  rewrite (stm_bind_Ok get _ w w w) by done. unfold writeCompHeader, writeHeader.
  destruct (compress _ b) as [z|]; rewrite (stm_bind_Ok _ _ _ _ _ (write_room _ w E)), write_room by done;
    by rewrite sent_sent.
Qed.

Definition flush_bytes (w : Writer) : list byte :=
  block_bytes (Compress (opts w)) TypesFrame (e_bytes (types w)) ++ block_bytes (Compress (opts w)) ValuesFrame (values w).

Lemma flush_room w :
  room (writer w) = None ->
  flush w = (Ok tt, set_values [] (set_types (Encoder_Flush (types w)) (sent (flush_bytes w) w))).
Proof.
  intros E. unfold flush. rewrite (stm_bind_Ok get _ w w w) by done. unfold or_return_nil.
  rewrite writeBlock_room by done. rewrite writeBlock_room by done. unfold modify. by rewrite sent_sent.
Qed.

(** ** The invariant of a writer

    [d0] is the reader's decoder before the first byte, [d] the one after the
    bytes that were written and [d1] the one after the typedefs the writer
    still buffers; [pend] are the values it buffers and [its] all the visible
    items so far. *)
Record tracks (base : list byte) (fl : scan_filter) (d0 : Decoder) (its : list item) (w : Writer) (d d1 : Decoder) (pend : list entry) : Prop := {
  t_room : room (writer w) = None;
  t_done : exists sb done all, data (writer w) = base ++ sb /\ its = done ++ map (fun e => IValue e.1) pend /\ Forall2 (delivered (shared d)) done all /\
             yields fl sb d0 (List.filter (keep fl) all) d;
  t_position : position w = zlen (data (writer w));
  t_good : good d1;
  t_later : later d d1;
  t_from : extends (shared d0) (shared d1);
  t_types : decodes (e_bytes (types w)) d d1;
  t_linked : linked (types w) (local d1);
  t_values : values w = concat (map entry_bytes pend);
  t_pend : Forall (buffered d1) pend;
  t_flushed : flushed w <= position w;
  t_fresh : flushed w = position w -> d = Decoder_reset d;
}.

(** What is buffered fits in a frame of the reader. *)
Definition fits (w : Writer) : Prop := zlen (e_bytes (types w)) <= mx /\ zlen (values w) <= mx.

Lemma delivered_later d d' it p : later d d' -> delivered (shared d) it p -> delivered (shared d') it p.
Proof.
  intros [Hx _]. destruct it as [v|b f|], p as [v'|f' b'|]; simpl; try done.
  intros (Hm & ? & ?). split_and!; [|done..]. by eapply member_extends.
Qed.

Lemma all_delivered_later d d' its ps :
  later d d' -> Forall2 (delivered (shared d)) its ps -> Forall2 (delivered (shared d')) its ps.
Proof. intros Hl H. eapply Forall2_impl; [exact H|]. intros. by eapply delivered_later. Qed.

Lemma flush_empty w : zlen (flush_bytes w) = 0 -> e_bytes (types w) = [].
Proof.
  intros E%zlen_zero. apply app_eq_nil in E as [E _]. apply zlen_zero.
  destruct (Z.eq_dec (zlen (e_bytes (types w))) 0) as [|Hne]; [done|].
  pose proof (zlen_nonneg (e_bytes (types w))).
  pose proof (block_bytes_length (Compress (opts w)) TypesFrame (e_bytes (types w)) ltac:(lia)). rewrite E in H0. simpl in H0. lia.
Qed.
Lemma flush_tracks base fl d0 its w d d1 pend :
  plain fl -> tracks base fl d0 its w d d1 pend -> fits w -> room_for_ids d1 ->
  exists w', flush w = (Ok tt, w') /\ tracks base fl d0 its w' d1 d1 [] /\
    e_bytes (types w') = [] /\ values w' = [] /\ opts w' = opts w.
Proof.
  intros Hpl [Hr (sb & done & all & Hsb & -> & Hall & Hy) Hpo Hg Hl Hfrom Ht Hk Hv Hp Hf Hfr] [Hb1 Hb2] Hroom. rewrite Hv in Hb2.
  eexists. split; [by apply flush_room|]. split; [|done].
  set (c := Compress (opts w)).
  pose proof (yields_types_block fl c _ d d1 Hb1 Ht) as H1.
  destruct (yields_values_block fl c d1 pend Hpl Hg Hroom Hp Hb2) as (ps & Hps & H2).
  pose proof (zlen_nonneg (flush_bytes w)).
  split; cbn [sent set_values set_types set_writer Zngio.writer Zngio.types Zngio.values flushed position Encoder_Flush e_bytes room data];
    try done; [|rewrite zlen_app; lia|apply decodes_nil|lia|].
  - exists (sb ++ flush_bytes w), (done ++ map (fun e => IValue e.1) pend), (all ++ ps). rewrite app_nil_r, Hsb, app_assoc. split_and!; [done|done| |].
    + apply Forall2_app; [by eapply all_delivered_later|done].
    + rewrite List.filter_app. eapply yields_app; [exact Hy|]. unfold flush_bytes. rewrite Hv.
      change (List.filter (keep fl) ps) with ([] ++ List.filter (keep fl) ps). by eapply yields_app.
  - intros E. assert (E' : zlen (flush_bytes w) = 0) by lia. apply flush_empty in E'. rewrite E' in Ht.
    apply decodes_empty in Ht as ->. apply Hfr. lia.
Qed.

Lemma good_reset d : good d -> good (Decoder_reset d).
Proof.
  intros [Hs _ _]. split; [done|apply NewContext_wf|]. intros t Hm Hc. cbn [local Decoder_reset] in *.
  pose proof (member_id _ NewContext_wf t Hm Hc). change (zlen (byID NewContext)) with 30 in *. lia.
Qed.

Lemma linked_reset e l : linked e l -> wf l -> linked (Encoder_Reset e) NewContext.
Proof.
  intros [(H1 & H2 & H3 & H4) _] Hw. split; [|by intros ext t].
  split_and!; cbn [Encoder_Reset zctx Reset byID toType toValue typedefs NewContext]; try done.
  rewrite H1. exact (Reset_byID l Hw).
Qed.

Lemma EndStream_tracks base fl d0 its w d d1 pend :
  plain fl -> tracks base fl d0 its w d d1 pend -> fits w -> room_for_ids d1 ->
  exists w', EndStream w = (Ok tt, w') /\ tracks base fl d0 its w' (Decoder_reset d1) (Decoder_reset d1) [] /\
    e_bytes (types w') = [] /\ values w' = [] /\ opts w' = opts w /\ flushed w' = position w'.
Proof.
  intros Hpl Ht Hfit Hroom. destruct (flush_tracks base fl d0 its w d d1 pend Hpl Ht Hfit Hroom) as (w1 & E1 & Ht1 & He & Hv & Ho).
  destruct Ht1 as [Hr (sb & done & all & Hsb & -> & Hall & Hy) Hpo Hg _ Hfrom _ Hk _ _ Hf Hfr].
  unfold EndStream. rewrite (stm_bind_Ok _ _ _ _ _ E1), (stm_bind_Ok get _ w1 w1 w1) by done.
  destruct (Z.eqb_spec (flushed w1) (position w1)) as [E|E].
  - eexists. split; [by rewrite (stm_bind_Ok _ _ w1 tt w1)|]. split; [|done].
    split; cbn [set_types Zngio.types Zngio.writer Zngio.values position flushed]; try done.
    + rewrite <- Hfr by done. eauto 10.
    + by apply good_reset.
    + apply decodes_nil.
    + apply linked_reset with (local d1); [done|apply Hg].
  - eexists. split.
    { rewrite (stm_bind_Ok _ _ w1 tt (set_flushed (position (sent [zb EOS] w1)) (sent [zb EOS] w1))).
      2: { by rewrite (stm_bind_Ok _ _ _ _ _ (write_room [zb EOS] w1 Hr)). }
      done. }
    split; [|done].
    split; cbn [sent set_flushed set_writer set_types Zngio.types Zngio.writer Zngio.values position flushed room data]; try done.
    + exists (sb ++ [zb EOS]), done, all. rewrite Hsb, app_assoc. split_and!; [done|done|done|]. rewrite <- (app_nil_r (List.filter _ _)).
      eapply yields_app; [exact Hy|]. apply yields_eos. constructor.
    + rewrite zlen_app. lia.
    + by apply good_reset.
    + apply decodes_nil.
    + apply linked_reset with (local d1); [done|apply Hg].
Qed.
(** ** One item *)

Section universe.
Context (U : ty -> Prop) `{UU : !Universe U}.

(** What the limits of the reader and the format allow of an item, for a writer
    with options [o]. *)
Definition slack (o : WriterOpts) : Z := Z.max 0 (FrameThresh o).
Definition sendable (o : WriterOpts) (it : item) : Prop :=
  match it with
  | IValue v =>
      U (v_type v) /\ transmissible (v_type v) /\ slack o + weight (v_type v) <= mx /\
      exists b, Value_Bytes to32 to16 v = Ok b /\ slack o + 20 + zlen (default [] b) <= mx
  | IControl b _ => zlen b + 1 <= mx
  | IEndStream => True
  end.
Definition item_weight (it : item) : Z := match it with IValue v => weight (v_type v) | _ => 0 end.

(** Between two calls less than a frame is buffered. *)
Definition calm (w : Writer) : Prop := zlen (e_bytes (types w)) <= slack (opts w) /\ zlen (values w) <= slack (opts w).

Definition ids (d : Decoder) : Z := zlen (byID (local d)).

Lemma later_ids d d' : later d d' -> ids d <= ids d'.
Proof. intros [_ [l E]]. unfold ids. rewrite E, zlen_app. pose proof (zlen_nonneg l). lia. Qed.

Lemma buffered_later d d' e : later d d' -> buffered d e -> buffered d' e.
Proof. intros [_ Hx] (Hm & ?). split; [|done]. by eapply member_extends. Qed.

Lemma Write_type ext w u e' :
  Encode ext (types w) = (Ok u, e') ->
  match Encoder_Lookup (types w) ext with Some typ => mret typ | None => on_types (Encode ext) end w =
    (Ok u, set_types e' w).
Proof.
  unfold Encode, memo, on_types. destruct (Encoder_Lookup (types w) ext) as [t|] eqn:El.
  - rewrite (stm_bind_Ok get _ _ (types w) (types w)) by done. rewrite El. intros [= <- <-]. by destruct w.
  - by intros ->.
Qed.

(** The state after the value went into the buffers, before they are flushed. *)
Lemma buffer_value base fl d0 its w d d1 pend v b :
  tracks base fl d0 its w d d1 pend -> U (v_type v) -> transmissible (v_type v) ->
  Value_Bytes to32 to16 v = Ok b -> small b -> ids d1 + weight (v_type v) < 2 ^ 63 ->
  exists u e' d2, Encode (v_type v) (types w) = (Ok u, e') /\
    let w' := set_values (values w ++ entry_bytes (v, (u, b))) (set_types e' w) in
    tracks base fl d0 (its ++ [IValue v]) w' d d2 (pend ++ [(v, (u, b))]) /\ ids d2 <= ids d1 + weight (v_type v) /\
    zlen (e_bytes e') <= zlen (e_bytes (types w)) + weight (v_type v).
Proof.
  intros [Hr (sb & done & all & Hsb & -> & Hall & Hy) Hpo Hg Hl Hfrom Ht Hk Hv Hp Hf Hfr] HU Htr Hb Hsm Hids.
  destruct (Encode_sends U (v_type v) HU Htr (types w) d1 Hg Hk Hids) as (u & e' & d2 & E & (Hg2 & Hk2 & Hl2 & bs & Eb & Hd & Hw & Hn) & Hm & Eu).
  exists u, e', d2. split; [done|]. split; [|split; [unfold ids; lia|rewrite Eb, zlen_app; lia]].
  split; cbn [set_values set_types Zngio.writer Zngio.types Zngio.values position flushed]; try done.
  - exists sb, done, all. rewrite map_app, app_assoc. done.
  - by etrans.
  - etrans; [exact Hfrom|apply Hl2].
  - rewrite Eb. by eapply decodes_app.
  - by rewrite Hv, map_app, concat_app; cbn [map concat]; rewrite app_nil_r.
  - apply Forall_app. split; [|apply Forall_singleton; by split_and!].
    eapply Forall_impl; [exact Hp|]. intros. by eapply buffered_later.
Qed.

Lemma entry_bytes_len v u b : small b -> zlen (entry_bytes (v, (u, b))) <= 20 + zlen (default [] b).
Proof.
  intros Hb. unfold entry_bytes. rewrite zlen_app. pose proof (id_bytes_len u). pose proof (zlen_val_bytes b Hb). cbn [fst snd]. lia.
Qed.

(** What an item does to a writer. *)
Definition item_step base fl d0 its w d1 it : Prop :=
  exists w' d' d2 pend', write_item it w = (Ok tt, w') /\
    tracks base fl d0 (its ++ List.filter visible [it]) w' d' d2 pend' /\ calm w' /\ opts w' = opts w /\
    ids d2 <= ids d1 + item_weight it.

Lemma calm_empty w : e_bytes (types w) = [] -> values w = [] -> calm w.
Proof. unfold calm, slack. intros -> ->. change (zlen []) with 0. lia. Qed.

Lemma calm_fits w : calm w -> slack (opts w) <= mx -> fits w.
Proof. unfold calm, fits. lia. Qed.

Lemma Write_step base fl d0 its w d d1 pend v :
  plain fl -> tracks base fl d0 its w d d1 pend -> calm w -> sendable (opts w) (IValue v) ->
  ids d1 + weight (v_type v) < 2 ^ 63 -> item_step base fl d0 its w d1 (IValue v).
Proof.
  intros Hpl Ht [Hc1 Hc2] (HU & Htr & Hw & b & Eb & Hb) Hids.
  assert (Hsm : small b) by (unfold small; unfold slack in Hb; lia).
  destruct (buffer_value base fl d0 its w d d1 pend v b Ht HU Htr Eb Hsm Hids) as (u & e' & d2 & E & Ht2 & Hi2 & He').
  set (w1 := set_values (values w ++ entry_bytes (v, (u, b))) (set_types e' w)) in *.
  assert (Hrun : Write to32 to16 v w =
    (if (FrameThresh (opts w1) <=? zlen (values w1)) || (FrameThresh (opts w1) <=? zlen (e_bytes (types w1)))
     then flush else mret tt) w1).
  { unfold Write. rewrite (stm_bind_Ok get _ w w w) by done. rewrite (stm_bind_Ok _ _ _ _ _ (Write_type _ w u e' E)).
    rewrite (stm_bind_Ok _ _ _ b (set_types e' w)); [|unfold lift_out; by rewrite Eb].
    rewrite (stm_bind_Ok _ _ _ tt w1); [done|]. unfold modify. rewrite Append_val. cbn [default].
    unfold w1, entry_bytes, id_bytes. cbn [fst snd Zngio.values set_types]. by rewrite app_assoc. }
  assert (Hv1 : zlen (values w1) = zlen (values w) + zlen (entry_bytes (v, (u, b)))) by apply zlen_app.
  pose proof (entry_bytes_len v u b Hsm) as Hlen. change (opts w1) with (opts w) in *. change (types w1) with e' in *.
  unfold item_step. cbn [write_item]. rewrite Hrun. cbn [List.filter visible item_weight].
  destruct (Z.leb_spec (FrameThresh (opts w)) (zlen (values w1))) as [H1|H1];
    [|destruct (Z.leb_spec (FrameThresh (opts w)) (zlen (e_bytes e'))) as [H2|H2]]; cbn [orb].
  1, 2: destruct (flush_tracks base fl d0 _ w1 d d2 _ Hpl Ht2) as (w' & Ef & Ht' & Hee & Hve & Ho);
    [change (types w1) with e' in *; unfold fits; change (types w1) with e'; lia|unfold room_for_ids, ids in *; lia|];
    exists w', d2, d2, []; (split_and!; [done|done|by apply calm_empty|done|lia]).
  exists w1, d, d2, (pend ++ [(v, (u, b))]). split_and!; [done|done| |done|lia].
  unfold calm, slack. change (opts w1) with (opts w). change (types w1) with e'. lia.
Qed.

Lemma WriteControl_step base fl d0 its w d d1 pend b format :
  plain fl -> tracks base fl d0 its w d d1 pend -> calm w -> slack (opts w) <= mx -> sendable (opts w) (IControl b format) ->
  room_for_ids d1 -> item_step base fl d0 its w d1 (IControl b format).
Proof.
  intros Hpl Ht Hc Hs Hb Hr.
  destruct (flush_tracks base fl d0 its w d d1 pend Hpl Ht (calm_fits w Hc Hs) Hr) as (w1 & E & Ht1 & He & Hv & Ho).
  destruct Ht1 as [Hro (sb & done & all & Hsb & -> & Hall & Hy) Hpo Hg Hl Hfrom Hty Hk _ _ Hf Hfr].
  assert (Hpos : 0 < zlen (block_bytes (Compress (opts w1)) ControlFrame (format :: b))).
  { pose proof (zlen_cons format b). pose proof (zlen_nonneg b).
    pose proof (block_bytes_length (Compress (opts w1)) ControlFrame (format :: b) ltac:(lia)). unfold zlen in *. lia. }
  eexists _, d1, d1, []. split.
  { cbn [write_item]. unfold WriteControl. rewrite (stm_bind_Ok _ _ _ _ _ E). by apply writeBlock_room. }
  split_and!; [|by apply calm_empty|done|cbn [item_weight]; lia].
  split; cbn [sent set_writer Zngio.writer Zngio.types Zngio.values position flushed room data]; try done; [|rewrite zlen_app; lia|lia|lia].
  exists (sb ++ block_bytes (Compress (opts w1)) ControlFrame (format :: b)), ((done ++ map (fun e : entry => IValue e.1) []) ++ [IControl b format]), (all ++ [PControl format b]).
  cbn [List.filter visible map]. rewrite !app_nil_r, Hsb, app_assoc. split_and!; [done|done| |].
  - apply Forall2_app; [done|]. by repeat constructor.
  - rewrite List.filter_app. eapply yields_app; [exact Hy|]. by apply yields_control_block.
Qed.

Lemma EndStream_step base fl d0 its w d d1 pend :
  plain fl -> tracks base fl d0 its w d d1 pend -> calm w -> slack (opts w) <= mx -> room_for_ids d1 ->
  item_step base fl d0 its w d1 IEndStream.
Proof.
  intros Hpl Ht Hc Hs Hr.
  destruct (EndStream_tracks base fl d0 its w d d1 pend Hpl Ht (calm_fits w Hc Hs) Hr) as (w1 & E & Ht1 & He & Hv & Ho & _).
  exists w1, (Decoder_reset d1), (Decoder_reset d1), []. cbn [List.filter visible item_weight]. rewrite app_nil_r.
  split_and!; [done|done|by apply calm_empty|done|].
  pose proof (wf_length _ (good_local d1 (t_good _ _ _ _ _ _ _ _ Ht))). unfold ids, zlen. change (length (byID (local (Decoder_reset d1)))) with 30%nat. lia.
Qed.

Lemma write_item_step base fl d0 its w d d1 pend it :
  plain fl -> tracks base fl d0 its w d d1 pend -> calm w -> slack (opts w) <= mx -> sendable (opts w) it ->
  ids d1 + item_weight it < 2 ^ 63 -> item_step base fl d0 its w d1 it.
Proof.
  intros Hpl Ht Hc Hs Hit Hi. destruct it as [v|b f|]; cbn [item_weight] in Hi.
  - by eapply Write_step.
  - eapply WriteControl_step; try done. unfold room_for_ids, ids in *. lia.
  - eapply EndStream_step; try done. unfold room_for_ids, ids in *. lia.
Qed.

(** ** All items *)

Definition total_weight (its : list item) : Z := foldr (fun it n => item_weight it + n) 0 its.

Lemma item_weight_nonneg it : 0 <= item_weight it.
Proof. destruct it as [v| |]; simpl; [apply weight_nonneg|lia..]. Qed.
Lemma total_weight_nonneg its : 0 <= total_weight its.
Proof. induction its as [|it its IH]; simpl; [lia|]. pose proof (item_weight_nonneg it). lia. Qed.

Lemma write_items_tracks base fl d0 its : forall sofar w d d1 pend,
  plain fl -> tracks base fl d0 sofar w d d1 pend -> calm w -> slack (opts w) <= mx -> Forall (sendable (opts w)) its ->
  ids d1 + total_weight its < 2 ^ 63 ->
  exists w' d' d2 pend', write_items its w = (Ok tt, w') /\
    tracks base fl d0 (sofar ++ List.filter visible its) w' d' d2 pend' /\ calm w' /\ opts w' = opts w /\ room_for_ids d2.
Proof.
  induction its as [|it its IH]; intros sofar w d d1 pend Hpl Ht Hc Hs Hits Hi.
  - change (total_weight []) with 0 in Hi. exists w, d, d1, pend. cbn [List.filter]. rewrite app_nil_r. unfold room_for_ids, ids in *. split_and!; try done. lia.
  - change (total_weight (it :: its)) with (item_weight it + total_weight its) in Hi.
    inversion_clear Hits as [|? ? Hit Hits']. pose proof (total_weight_nonneg its). pose proof (item_weight_nonneg it).
    destruct (write_item_step base fl d0 sofar w d d1 pend it Hpl Ht Hc Hs Hit ltac:(lia)) as (w1 & d' & d2 & pend' & E & Ht1 & Hc1 & Ho1 & Hi1).
    destruct (IH _ w1 d' d2 pend' Hpl Ht1 Hc1) as (w2 & d3 & d4 & pend2 & E2 & Ht2 & Hc2 & Ho2 & Hr2); [by rewrite Ho1|by rewrite Ho1|lia|].
    exists w2, d3, d4, pend2. cbn [write_items]. rewrite (stm_bind_Ok _ _ _ _ _ E). split_and!; [done| |done|congruence|done].
    change (it :: its) with ([it] ++ its). by rewrite List.filter_app, app_assoc.
Qed.

(** A decoder at the beginning of a stream. *)
Definition fresh (d : Decoder) : Prop := good d /\ d = Decoder_reset d.

Lemma NewDecoder_fresh sh : wf sh -> fresh (NewDecoder sh).
Proof.
  intros Hw. split; [|done]. apply (good_reset (mkDecoder sh NewContext [])). split; [done|apply NewContext_wf|].
  intros t Hm Hc. pose proof (member_id _ NewContext_wf t Hm Hc). change (zlen (byID NewContext)) with 30 in *. cbn [local] in *. lia.
Qed.

(** A writer at the beginning of a stream. *)
Record begins (w : Writer) : Prop := {
  b_room : room (writer w) = None;
  b_position : position w = zlen (data (writer w));
  b_flushed : flushed w = position w;
  b_bytes : e_bytes (types w) = [];
  b_values : values w = [];
  b_linked : linked (types w) NewContext;
}.

Lemma NewWriter_begins o : begins (NewWriterWithOpts (mkSink [] None false) o).
Proof. by split. Qed.

Lemma begins_tracks fl d0 w : begins w -> fresh d0 -> tracks (data (writer w)) fl d0 [] w d0 d0 [].
Proof.
  intros [Hr Hp Hf Hb Hv Hl] [Hg Hd0]. split; try done.
  - exists [], [], []. rewrite app_nil_r. split_and!; [done|done|constructor|constructor].
  - rewrite Hb. apply decodes_nil.
  - by rewrite Hd0.
  - lia.
Qed.

(** [bs] is the bytes of whole streams of the items [its]: any reader that is at
    the beginning of a stream gets them, and is at the beginning of one
    again. *)
Definition streams (bs : list byte) (its : list item) : Prop :=
  forall fl d0, plain fl -> fresh d0 ->
    exists all d, Forall2 (delivered (shared d)) its all /\ yields fl bs d0 (List.filter (keep fl) all) d /\
      fresh d /\ extends (shared d0) (shared d).

(** A stream from its beginning to [EndStream], which it closes. *)
Lemma write_stream its w :
  begins w -> slack (opts w) <= mx -> Forall (sendable (opts w)) its -> 30 + total_weight its < 2 ^ 63 ->
  exists w1 w2 bs, write_items its w = (Ok tt, w1) /\ EndStream w1 = (Ok tt, w2) /\ begins w2 /\ opts w2 = opts w /\
    data (writer w2) = data (writer w) ++ bs /\ streams bs (List.filter visible its).
Proof.
  intros Hb Hs Hits Hw.
  assert (Hrun : forall fl d0, plain fl -> fresh d0 -> exists w1 w2 bs all d,
    write_items its w = (Ok tt, w1) /\ EndStream w1 = (Ok tt, w2) /\ begins w2 /\ opts w2 = opts w /\
    data (writer w2) = data (writer w) ++ bs /\ Forall2 (delivered (shared d)) (List.filter visible its) all /\
    yields fl bs d0 (List.filter (keep fl) all) d /\ fresh d /\ extends (shared d0) (shared d)).
  { intros fl d0 Hpl Hd0. pose proof (begins_tracks fl d0 w Hb Hd0) as Ht.
    assert (Hi : ids d0 = 30) by (destruct Hd0 as [_ ->]; done).
    destruct (write_items_tracks _ fl d0 its [] w d0 d0 [] Hpl Ht) as (w1 & d & d1 & pend & E1 & Ht1 & Hc1 & Ho1 & Hr1);
      [apply calm_empty; apply Hb|done|done|lia|].
    destruct (EndStream_tracks _ fl d0 _ w1 d d1 pend Hpl Ht1) as (w2 & E2 & Ht2 & He & Hv & Ho2 & Hfl);
      [apply calm_fits; [done|by rewrite Ho1]|done|].
    destruct Ht2 as [Hro (sb & done & all & Hsb & Hdone & Hall & Hy) Hpo Hg _ Hfrom _ Hk _ _ _ _].
    cbn [map] in Hdone. rewrite app_nil_r in Hdone. cbn [app] in Hdone. subst done.
    exists w1, w2, sb, all, (Decoder_reset d1). split_and!; try done. congruence. }
  destruct (Hrun (mkFilter None None false) (NewDecoder NewContext)) as (w1 & w2 & bs & _ & _ & E1 & E2 & Hb2 & Ho & Hd & _);
    [done|apply NewDecoder_fresh, NewContext_wf|].
  exists w1, w2, bs. split_and!; try done. intros fl d0 Hpl Hd0.
  destruct (Hrun fl d0 Hpl Hd0) as (w1' & w2' & bs' & all & d & E1' & E2' & _ & _ & Hd' & Hrest).
  rewrite E1 in E1'. injection E1' as <-. rewrite E2 in E2'. injection E2' as <-.
  rewrite Hd in Hd'. apply app_inv_head in Hd' as <-. by exists all, d.
Qed.
End universe.
End writer.
