(* ===== verification/ZngProps.v ===== *)
(** * The properties of ZNG streams

    A reader gets back what a writer was given, malformed input and what the
    parser does with it, and the behaviour of the writer when its sink
    fails. *)

From S2P Require Import Prelude Peeker Zcode Types Context Mapper Interning Decode Values ValueProofs Zngio ZngTypes ZngTotal ZngStream ZngWriter.
Local Open Scope Z_scope.

(** ** An instance of the compressor

    Blocks of one repeated byte are compressed to that byte. *)
Definition runs_compress (b : list byte) : option (list byte) :=
  match b with
  | x :: l => if forallb (fun y => bool_decide (y = x)) l then Some [x] else None
  | [] => None
  end.
Definition runs_uncompress (z : list byte) (n : Z) : option (list byte) :=
  match z with [x] => Some (replicate (Z.to_nat n) x) | _ => None end.
Definition runs : LZ4 := {| compressBlock := runs_compress; uncompressBlock := runs_uncompress |}.

Lemma forallb_replicate (x : byte) l : forallb (fun y => bool_decide (y = x)) l = true -> l = replicate (length l) x.
Proof.
  induction l as [|y l IH]; [done|]. cbn [forallb length replicate]. intros [->%bool_decide_eq_true H]%andb_true_iff.
  by rewrite <- IH.
Qed.

Lemma runs_laws : @LZ4Laws runs.
Proof.
  split; intros b z; cbn; unfold runs_compress; (destruct b as [|x l]; [done|]);
    destruct (forallb _ l) eqn:E; try done; intros [= <-].
  - cbn. apply forallb_replicate in E. unfold zlen. rewrite Nat2Z.id. cbn [length replicate]. by rewrite <- E.
  - rewrite !zlen_cons. change (zlen []) with 0. pose proof (zlen_nonneg l). lia.
Qed.

(** A client that writes the items and closes the writer. *)
Definition write_all `{LZ : !LZ4} (to32 to16 : Z -> Z) (its : list item) : stm Writer zng_error unit :=
  _ ← write_items to32 to16 its; Close.

(** A client that reads [bytes], in chunks of any size, to the end. *)
Definition read_all `{LZ : !LZ4} (chunk : list byte -> Z -> Z) (to32 to16 : Z -> Z) (sh : Context) (mx : Z) (fl : scan_filter)
    (fuel : nat) (bytes : list byte) : list payload * outcome zng_error unit * zreader :=
  drain chunk to32 to16 fuel (mkZreader (newScannerSync sh mx fl bytes) []).

(** The context the types of the values a reader delivered are of. *)
Definition reader_context (r : zreader) : Context := shared (p_types (s_parser (r_scanner r))).

Section roundtrip.
Context `{LZ : !LZ4, LZL : !LZ4Laws} (chunk : list byte -> Z -> Z) (to32 to16 : Z -> Z).

(** C3: a client writes values, control messages and ends of streams to a
    writer whose sink takes all bytes, and closes it; a reader then gets the
    same values and control messages in the same order: the values with the
    same bytes and with types of its own context of the same structure, those
    that its filter wants. This holds with and without compression, for every
    reading context and however the bytes arrive in chunks, provided: the
    writer's frame threshold is at most the reader's maximal frame size, and
    each value and its typedefs fit in a frame of that size; the values' types
    are of one context and within the decoder's limits; the reader is the
    single-threaded scanner, which does not validate, and whose filter looks
    at values, not at buffers. *)
Theorem zng_roundtrip (c sh : Context) (o : WriterOpts) (mx : Z) (fl : scan_filter) (its : list item) (fuel : nat) :
  wf c -> wf sh -> 16 <= mx < 2 ^ 62 -> Z.max 0 (FrameThresh o) <= mx -> plain fl ->
  Forall (sendable to32 to16 mx (member c) o) its -> 30 + total_weight its < 2 ^ 63 ->
  (length (List.filter visible its) < fuel)%nat ->
  exists w' all r',
    write_all to32 to16 its (NewWriterWithOpts (mkSink [] None false) o) = (Ok tt, w') /\ closed (writer w') = true /\
    Forall2 (delivered to32 to16 (reader_context r')) (List.filter visible its) all /\
    read_all chunk to32 to16 sh mx fl fuel (data (writer w')) = (List.filter (keep fl) all, Ok tt, r').
Proof.
  intros Hc Hsh Hmx Hs Hpl Hits Hw Hf. pose proof (member_universe c Hc).
  set (w := NewWriterWithOpts (mkSink [] None false) o).
  destruct (write_stream to32 to16 mx Hmx (member c) its w (NewWriter_begins o) Hs Hits Hw)
    as (w1 & w2 & bs & E1 & E2 & _ & _ & Hd & Hbs).
  destruct (Hbs fl (NewDecoder sh) Hpl (NewDecoder_fresh sh Hsh)) as (all & d & Hall & Hy & _ & _).
  change (data (writer w)) with (@nil byte) in Hd. cbn [app] in Hd. rewrite <- Hd in Hy.
  exists (snd (close_sink w2)), all.
  destruct (drain_yields chunk to32 to16 mx Hmx fl _ fuel _ _ _ (mkZreader (newScannerSync sh mx fl (data (writer w2))) []) Hy) as (r' & Er & Hr').
  - by split_and!.
  - cbn [r_vals length]. pose proof (List.filter_length_le (keep fl) all). apply Forall2_length in Hall. lia.
  - exists r'. split_and!; [|done| |exact Er].
    + unfold write_all. rewrite (stm_bind_Ok _ _ _ _ _ E1). unfold Close. by rewrite E2.
    + destruct Hr' as ((_ & _ & _ & _ & Hd') & _ & _). unfold reader_context. by rewrite Hd'.
Qed.
End roundtrip.

Lemma zng_roundtrip_witness :
  let to w := w in
  let c := default NewContext (match LookupTypeArray (TPrim Int64) NewContext with Ok (_, c) => Some c | _ => None end) in
  let its := [IValue (NewValue (TArray 30 (TPrim Int64)) (Some [zb 2; zb 8; zb 2; zb 8])); IControl [zb 7] (zb 1);
              IEndStream; IValue (NewInt64 5); IValue (NewValue (TArray 30 (TPrim Int64)) None)] in
  exists w' all r',
    write_all (LZ := runs) to to its (NewWriterWithOpts (mkSink [] None false) (mkOpts true 4)) = (Ok tt, w') /\
    closed (writer w') = true /\ Forall2 (delivered to to (reader_context r')) (List.filter visible its) all /\
    read_all (LZ := runs) (fun _ n => n + 1) to to NewContext 1000 (mkFilter None None false) 9 (data (writer w')) =
      (List.filter (keep (mkFilter None None false)) all, Ok tt, r').
Proof.
  intros to c its. set (LZ := runs). pose proof runs_laws as LZL.
  assert (Hm : member c (TArray 30 (TPrim Int64))) by by intros _.
  assert (Hw : wf c).
  { destruct (LookupTypeArray_interns NewContext NewContext_wf (TPrim Int64) (member_prim _ _)) as (u & c' & E & _ & _ & Hw & _).
    unfold c. by rewrite E. }
  apply (zng_roundtrip (fun _ n => n + 1) to to c NewContext (mkOpts true 4) 1000 (mkFilter None None false) its 9).
  - done.
  - apply NewContext_wf.
  - done.
  - done.
  - done.
  - assert (Hp : transmissible (TPrim Int64)) by (apply hereditary_components; by repeat constructor).
    assert (Ht : transmissible (TArray 30 (TPrim Int64))) by (apply hereditary_components; by repeat constructor).
    assert (Hv : forall v b, member c (v_type v) -> transmissible (v_type v) -> weight (v_type v) <= 900 ->
                   Value_Bytes to to v = Ok b -> zlen (default [] b) <= 900 ->
                   sendable to to 1000 (member c) (mkOpts true 4) (IValue v)).
    { intros v b H1 H2 H3 H4 H5. unfold sendable, slack. cbn [FrameThresh]. split_and!; [done|done|lia|]. exists b. split; [done|lia]. }
    apply Forall_cons. split; [by eapply Hv; [..|reflexivity|]|].
    apply Forall_cons. split; [done|]. apply Forall_cons. split; [done|].
    apply Forall_cons. split; [by eapply Hv; [..|reflexivity|]|].
    apply Forall_cons. split; [by eapply Hv; [..|reflexivity|]|]. constructor.
  - done.
  - simpl. lia.
Defined.

(** ** Any input *)

Section any_input.
Context `{LZ : !LZ4} (chunk : list byte -> Z -> Z) (to32 to16 : Z -> Z).

(** The scanner of a client that pulled [n] times. *)
Definition after_pulls (n : nat) (s : scanner) : scanner := Nat.iter n (fun s => (Pull chunk to32 to16 s).2) s.
Definition ends_reading (r : outcome zng_error pulled) : Prop :=
  match r with Ok (Batch _) | Ok (Ctl _ _) => False | _ => True end.

Lemma after_pulls_sound n s : sound_scanner s -> sound_scanner (after_pulls n s).
Proof.
  intros Hs. induction n as [|n IH]; [done|]. unfold after_pulls in *. cbn [Nat.iter].
  by destruct (Pull_ends chunk to32 to16 _ IH).
Qed.

Lemma pulls_consume n s :
  sound_scanner s -> (exists k, (k < n)%nat /\ ends_reading (Pull chunk to32 to16 (after_pulls k s)).1) \/
                     (scanner_left (after_pulls n s) + n <= scanner_left s)%nat.
Proof.
  intros Hs. induction n as [|n [(k & Hk & He)|IH]]; [right; simpl; lia|left; exists k; split; [lia|done]|].
  destruct (Pull_ends chunk to32 to16 _ (after_pulls_sound n s Hs)) as (_ & _ & Hl).
  change (after_pulls (S n) s) with (Pull chunk to32 to16 (after_pulls n s)).2.
  destruct (Pull chunk to32 to16 (after_pulls n s)) as [r s'] eqn:E. cbn [fst snd] in *.
  destruct r as [[vs|f b|]|e|]; cbn [taken] in Hl;
    [right; lia|right; lia|left; exists n; rewrite E; split; [lia|done]..].
Qed.

(** C31: reading terminates on any input, well formed or not, with the
    single-threaded scanner: no loop of the parser, the decoder or the scanner
    runs forever, nor one of the contexts that translate the types or of the
    validation of a value; and a client that keeps pulling sees the end, an
    error of the code or a panic after at most as many batches as the input
    has bytes. *)
Theorem reading_terminates (sh : Context) (mx : Z) (fl : scan_filter) (input : list byte) :
  let s := newScannerSync sh mx fl input in
  (forall n, ends (Pull chunk to32 to16 (after_pulls n s)).1) /\
  (forall t b, walk_ends (Walk validate_visit t b tt)) /\
  exists n, (n <= length input)%nat /\ ends_reading (Pull chunk to32 to16 (after_pulls n s)).1.
Proof.
  intros s. assert (Hs : sound_scanner s) by done. split_and!.
  - intros n. by destruct (Pull_ends chunk to32 to16 _ (after_pulls_sound n s Hs)) as (_ & ? & _).
  - intros t b. apply walk_ends_all.
  - destruct (pulls_consume (S (length input)) s Hs) as [(n & Hn & He)|H].
    + exists n. split; [lia|done].
    + change (scanner_left s) with (length input) in H. lia.
Qed.
End any_input.

(** ** Flaws *)

(** [uvarint] of 2^64-1, which is -1 as an [int]. *)
Definition minus_one : list byte := replicate 9 (zb 255) ++ [zb 1].
Definition one_by_one (_ : list byte) (n : Z) : Z := n.
Definition read_here (bytes : list byte) : list payload * outcome zng_error unit :=
  (read_all (LZ := runs) one_by_one (fun w => w) (fun w => w) NewContext 1000 (mkFilter None None true) 9 bytes).1.

(** three malformed frames make the reader panic rather than return an error:
    a typedef whose name has a negative length, a value whose type id is
    negative and a compressed frame whose size is negative. *)
Theorem malformed_frames_panic :
  read_here (zb 11 :: zb 0 :: zb TypeDefName :: minus_one) = ([], Panic) /\
  read_here (zb 27 :: zb 0 :: minus_one ++ [zb 0]) = ([], Panic) /\
  read_here (zb 92 :: zb 0 :: zb CompressionFormatLZ4 :: minus_one ++ [zb 0]) = ([], Panic).
Proof. split_and!; by vm_compute. Qed.

(** a stream that is cut after the code of a frame is read to a regular end,
    and a value whose bytes are missing from its frame is read as null even by
    a validating reader. *)
Theorem truncated_input_accepted :
  read_here [zb 21] = ([], Ok tt) /\
  read_here [zb 18; zb 0; zb (TypeID (TPrim Int64)); zb 5] = ([PValue (NewValue (TPrim Int64) None)], Ok tt).
Proof. split_and!; by vm_compute. Qed.

(** when its sink fails the writer reports no error: every write and the close
    succeed, and nothing reached the sink. *)
Theorem write_errors_lost :
  exists w, write_all (LZ := runs) (fun w => w) (fun w => w) [IValue (NewInt64 5); IValue (NewInt64 6)]
              (NewWriterWithOpts (mkSink [] (Some 0) false) DefaultOpts) = (Ok tt, w) /\ data (writer w) = [].
Proof. eexists. split; [vm_compute; reflexivity|done]. Qed.
