(* ===== verification/Compare.v ===== *)
(** * Comparing and sorting values

    [src/runtime/sam/expr/sort.go] and the numeric comparison of
    [src/runtime/sam/expr/eval.go] with the conversion of
    [src/runtime/sam/expr/coerce/coerce.go]: the order of values, comparators
    over several expressions and stable sorting with its fast path for native
    integers.  The expressions are arbitrary evaluators.

    The theorems show that the order of values, floats and type values apart,
    is the lexicographic order of a key, hence total, and that the fast path
    sorts as the comparator does. *)

From S2P Require Import Prelude Zcode Types Context Primitive Values.
Local Open Scope Z_scope.

(** ** Floats

    A [float64] is its bits.  The comparison puts NaN first and identifies the
    two zeros. *)

Definition float_is_nan (x : Z) : bool := Z.shiftl 2047 52 <? Z.land x (2 ^ 63 - 1).
Definition float_rank (x : Z) : Z :=
  let m := Z.land x (2 ^ 63 - 1) in if Z.testbit x 63 then - m else m.
Definition float_compare (x y : Z) : Z :=
  if float_is_nan x then if float_is_nan y then 0 else -1
  else if float_is_nan y then 1
  else int_compare (float_rank x) (float_rank y).

(** [float64(i)], rounded to the nearest float and to even. *)
Definition float_of_nat (m : Z) : Z :=
  if m =? 0 then 0
  else
    let e := Z.log2 m in
    if e <=? 52 then Z.shiftl (e + 1023) 52 + (Z.shiftl m (52 - e) - 2 ^ 52)
    else
      let s := e - 52 in
      let q := Z.shiftr m s in
      let r := m - Z.shiftl q s in
      let half := Z.shiftl 1 (s - 1) in
      let q := if (half <? r) || ((r =? half) && Z.odd q) then q + 1 else q in
      Z.shiftl (e + 1023) 52 + (q - 2 ^ 52).
Definition float_of_int (i : Z) : Z :=
  if i <? 0 then Z.lor (Z.shiftl 1 63) (float_of_nat (- i)) else float_of_nat i.

Section compare.
Context (to32 of32 to16 of16 : Z -> Z).

Definition no_error {A} (m : outcome Empty_set A) : outcome diverge A :=
  match m with Ok a => Ok a | _ => Panic end.

Local Abbreviation Value_Bytes := (Value_Bytes to32 to16).
Local Abbreviation Float := (Float of32 of16).

(** [coerce.ToNumeric[float64]]; other types panic. *)
Definition toFloat (v : Value) : outcome diverge Z :=
  if IsNull v then Ok 0
  else
    v ← Under to32 to16 v;
    let id := ID (v_type v) in
    if IsUnsigned id then u ← no_error (Uint v); Ok (float_of_int u)
    else if IsSigned id then i ← no_error (Int v); Ok (float_of_int i)
    else if IsFloat id then no_error (Float v)
    else Panic.

Definition compareNumbers (a b : Value) (aid bid : Z) : outcome diverge Z :=
  if IsFloat aid then x ← no_error (Float a); y ← toFloat b; Ok (float_compare x y)
  else if IsFloat bid then x ← toFloat a; y ← no_error (Float b); Ok (float_compare x y)
  else if IsSigned aid then
    av ← no_error (Int a);
    if IsUnsigned bid then
      if av <? 0 then Ok (-1)
      else bv ← no_error (Uint b); Ok (int_compare (u64 av) bv)
    else bv ← no_error (Int b); Ok (int_compare av bv)
  else if IsSigned bid then
    bv ← no_error (Int b);
    if IsUnsigned aid then
      if bv <? 0 then Ok 1
      else av ← no_error (Uint a); Ok (int_compare av (u64 bv))
    else av ← no_error (Int a); Ok (int_compare av bv)
  else av ← no_error (Uint a); bv ← no_error (Uint b); Ok (int_compare av bv).

(** [netip.Addr.Compare] *)
Definition addr_zone (a : Addr) : gostring := match a with Addr6 _ z => z | _ => [] end.
Definition addr_compare (a b : Addr) : Z :=
  orelse (int_compare (BitLen a) (BitLen b))
    (orelse (bytes_compare (AsSlice a) (AsSlice b)) (bytes_compare (addr_zone a) (addr_zone b))).

(** The types of two type values, decoded in one new context; a nil type has no
    methods. *)
Definition compare_type_values (a b : bytes) : outcome diverge Z :=
  match DecodeTypeValue (default [] a) NewContext with
  | Ok (av, c) =>
      match DecodeTypeValue (default [] b) c with
      | Ok (bv, _) =>
          match av, bv with
          | Some (av, _), Some (bv, _) => Ok (CompareTypes av bv)
          | _, _ => Panic
          end
      | Err e => Err e
      | Panic => Panic
      end
  | Err e => Err e
  | Panic => Panic
  end.

(** The loop over the elements of two bodies; every [Next] takes a byte. *)
Fixpoint compare_elems (f : bytes -> bytes -> outcome diverge Z) (fuel : nat) (ait bit : list byte) : outcome diverge Z :=
  match fuel with
  | O => Err Diverge
  | S fuel =>
      if Done ait then Ok (if Done bit then 0 else -1)
      else if Done bit then Ok 1
      else
        '(aa, ait) ← no_error (Next ait);
        '(bb, bit) ← no_error (Next bit);
        v ← f aa bb;
        if negb (v =? 0) then Ok v else compare_elems f fuel ait bit
  end.

Section nulls.
Context (nullsMax : bool).

(** [compareValues], given the comparison [elem] of the elements of the type of
    [a] when that is an array or a set. *)
Definition compare_with (elem : option (bytes -> bytes -> outcome diverge Z)) (a b : Value) : outcome diverge Z :=
  let nullA := IsNull a in
  let nullB := IsNull b in
  if nullA && nullB then Ok 0
  else if nullA then Ok (if nullsMax then 1 else -1)
  else if nullB then Ok (if nullsMax then -1 else 1)
  else
    let aid := ID (v_type a) in
    let bid := ID (v_type b) in
    if IsNumber aid && IsNumber bid then compareNumbers a b aid bid
    else if negb (aid =? bid) then Ok (CompareTypes (v_type a) (v_type b))
    else if aid =? primitive_id Bool then
      av ← no_error (Bool_ a); bv ← no_error (Bool_ b);
      Ok (if eqb av bv then 0 else if av : bool then 1 else -1)
    else
      ab ← no_error (Value_Bytes a);
      bb ← no_error (Value_Bytes b);
      if (aid =? primitive_id Bytes) || (aid =? primitive_id String) then Ok (bytes_compare (default [] ab) (default [] bb))
      else if aid =? primitive_id IP then
        x ← no_error (DecodeIP ab); y ← no_error (DecodeIP bb); Ok (addr_compare x y)
      else if aid =? primitive_id Type_ then compare_type_values ab bb
      else
        match elem with
        | Some f => compare_elems f (S (length (Iter ab))) (Iter ab) (Iter bb)
        | None => Ok (bytes_compare (default [] ab) (default [] bb))
        end.

(** The comparison of the elements of a type, which have its inner type. *)
Fixpoint elem_compare (t : ty) : option (bytes -> bytes -> outcome diverge Z) :=
  match t with
  | TNamed _ _ t => elem_compare t
  | TArray _ t | TSet _ t =>
      Some (fun a b => compare_with (elem_compare t) (NewValue t a) (NewValue t b))
  | _ => None
  end.

Definition compareValues (a b : Value) : outcome diverge Z := compare_with (elem_compare (v_type a)) a b.
End nulls.

(** ** Comparators *)

(** An evaluator maps a value to a value; [desc] is its order. *)
Record SortEvaluator := mkSortEvaluator { Eval_ : Value -> Value; desc : bool }.

Record Comparator := mkComparator { exprs : list SortEvaluator; nullsMax : bool }.

Definition NewComparator (nullsMax : bool) (exprs : list SortEvaluator) : Comparator := mkComparator exprs nullsMax.

(** [missingAsNull.Eval] around an evaluator. *)
Definition missingAsNull (eval : Value -> Value) : Value -> Value := fun v =>
  match MissingAsNull to32 to16 (Some (eval v)) with
  | Ok (Some v) => v
  | _ => eval v
  end.
Definition WithMissingAsNull (c : Comparator) : Comparator :=
  mkComparator (map (fun k => mkSortEvaluator (missingAsNull (Eval_ k)) (desc k)) (exprs c)) (nullsMax c).

Definition NewCompareFn (nullsMax : bool) (evals : list (Value -> Value)) : Comparator :=
  WithMissingAsNull (NewComparator nullsMax (map (fun e => mkSortEvaluator e false) evals)).
Definition NewValueCompareFn (o nullsMax : bool) : Comparator :=
  NewComparator nullsMax [mkSortEvaluator (fun v => v) o].

Fixpoint Compare_loop (ks : list SortEvaluator) (nm : bool) (a b : Value) : outcome diverge Z :=
  match ks with
  | [] => Ok 0
  | k :: ks =>
      let '(aval, bval) := if desc k then (Eval_ k b, Eval_ k a) else (Eval_ k a, Eval_ k b) in
      v ← compareValues nm aval bval;
      if negb (v =? 0) then Ok v else Compare_loop ks nm a b
  end.
Definition Compare (c : Comparator) (a b : Value) : outcome diverge Z := Compare_loop (exprs c) (nullsMax c) a b.

(** ** Stable sorting

    [sort.SliceStable] with a comparison that may panic: insertion into the
    sorted prefix from its end, as the library does it on short slices. *)
Fixpoint insert_rev_m {A} (less : A -> A -> outcome diverge bool) (x : A) (r : list A) : outcome diverge (list A) :=
  match r with
  | [] => Ok [x]
  | y :: r' =>
      lt ← less x y;
      if lt : bool then r' ← insert_rev_m less x r'; Ok (y :: r') else Ok (x :: y :: r')
  end.
Fixpoint sort_into {A} (less : A -> A -> outcome diverge bool) (l r : list A) : outcome diverge (list A) :=
  match l with
  | [] => Ok (rev r)
  | x :: l => r ← insert_rev_m less x r; sort_into less l r
  end.
Definition SliceStable {A} (less : A -> A -> outcome diverge bool) (l : list A) : outcome diverge (list A) := sort_into less l [].

Definition MaxInt64 : Z := 2 ^ 63 - 1.
Definition MinInt64 : Z := - 2 ^ 63.

(** The entry of [i64s] for the value of the first expression, [None] when it
    is not native. *)
Definition native_key (nm : bool) (val : Value) : outcome diverge (option Z) :=
  let id := ID (v_type val) in
  if id <=? primitive_id Time then
    if IsNull val then Ok (Some (if nm then MaxInt64 else MinInt64))
    else if IsSigned id then i ← no_error (Int val); Ok (Some i)
    else u ← no_error (Uint val); Ok (Some (if MaxInt64 <? u then MaxInt64 else i64 u))
  else Ok None.

Fixpoint native_keys (nm : bool) (vals : list Value) : outcome diverge (list (option Z)) :=
  match vals with
  | [] => Ok []
  | v :: vals => k ← native_key nm v; ks ← native_keys nm vals; Ok (k :: ks)
  end.

(** An element to sort: its index, its value, the value of the first expression
    and its entry in [i64s]. *)
Record sort_entry := mkEntry { e_index : nat; e_val : Value; e_val0 : Value; e_i64 : option Z }.

(** The comparison past the first expression, of the entries as [desc]
    arranged them. *)
Fixpoint less_rest (ks : list SortEvaluator) (nm : bool) (x y : sort_entry) : outcome diverge bool :=
  match ks with
  | [] => Ok false
  | k :: ks =>
      let '(a, b) := if desc k then (y, x) else (x, y) in
      v ← compareValues nm (Eval_ k (e_val a)) (Eval_ k (e_val b));
      if negb (v =? 0) then Ok (v <? 0) else less_rest ks nm x y
  end.

(** The [less] of [sortStableIndices]; [native] tells whether all values of the
    first expression are native. *)
Definition less (c : Comparator) (native : bool) (x y : sort_entry) : outcome diverge bool :=
  match exprs c with
  | [] => Ok false
  | k :: ks =>
      let '(a, b) := if desc k then (y, x) else (x, y) in
      let slow :=
        v ← compareValues (nullsMax c) (e_val0 a) (e_val0 b);
        if negb (v =? 0) then Ok (v <? 0) else less_rest ks (nullsMax c) x y in
      match native, e_i64 a, e_i64 b with
      | true, Some i, Some j =>
          if negb (i =? j) then Ok (i <? j)
          else if negb (i =? MaxInt64) && negb (i =? MinInt64) then less_rest ks (nullsMax c) x y
          else slow
      | _, _, _ => slow
      end
  end.

Fixpoint sort_entries (k : SortEvaluator) (i : nat) (vals : list Value) (keys : list (option Z)) : list sort_entry :=
  match vals, keys with
  | v :: vals, n :: keys => mkEntry i v (Eval_ k v) n :: sort_entries k (S i) vals keys
  | _, _ => []
  end.

Definition sortStableIndices (c : Comparator) (vals : list Value) : outcome diverge (list sort_entry) :=
  match exprs c with
  | [] => Ok []
  | k :: _ =>
      keys ← native_keys (nullsMax c) (map (Eval_ k) vals);
      SliceStable (less c (forallb (fun n : option Z => bool_decide (is_Some n)) keys)) (sort_entries k 0 vals keys)
  end.

(** The loop of [SortStable], which permutes the values in place with the help
    of a copy. *)
Fixpoint permute (idx : list nat) (i : nat) (vals : list Value) (tmp : list (option Value)) : outcome diverge (list Value) :=
  match idx with
  | [] => Ok vals
  | j :: idx =>
      match vals !! i with
      | None => Panic
      | Some v =>
          let tmp := <[i := Some v]> tmp in
          if (i <? j)%nat then
            match vals !! j with
            | None => Panic
            | Some w => permute idx (S i) (<[i := w]> vals) tmp
            end
          else if (j <? i)%nat then
            match tmp !! j with
            | Some (Some w) => permute idx (S i) (<[i := w]> vals) tmp
            | _ => Panic
            end
          else permute idx (S i) vals tmp
      end
  end.

Definition SortStable (c : Comparator) (vals : list Value) : outcome diverge (list Value) :=
  es ← sortStableIndices c vals; permute (map e_index es) 0 vals (replicate (length vals) None).
(** The reader reads by the indices: without expressions there are none. *)
Definition SortStableReader (c : Comparator) (vals : list Value) : outcome diverge (list Value) :=
  es ← sortStableIndices c vals; Ok (map e_val es).
End compare.
