(* ===== verification/CompareProofs.v ===== *)
(** * The order of values is a total order of keys *)

From S2P Require Import Prelude Zcode Types Context Interning Primitive Values Compare.
Local Open Scope Z_scope.

(** ** Lexicographic keys *)

(** Comparing [ka] and [kb] at the head of longer keys is [c], unless it is
    zero and the rest decides. *)
Definition keyed (c : Z) (ka kb : list Z) : Prop := forall r s, lex (ka ++ r) (kb ++ s) = orelse c (lex r s).

Lemma keyed_lex c ka kb : keyed c ka kb -> c = lex ka kb.
Proof. intros H. specialize (H [] []). rewrite !app_nil_r in H. rewrite H. simpl. unfold orelse. by destruct (Z.eqb_spec c 0). Qed.

Lemma keyed_single x y : keyed (int_compare x y) [x] [y].
Proof. by intros r s. Qed.

Lemma keyed_app c c' ka kb ka' kb' : keyed c ka kb -> keyed c' ka' kb' -> keyed (orelse c c') (ka ++ ka') (kb ++ kb').
Proof. intros H H' r s. by rewrite <- !app_assoc, H, H', orelse_assoc. Qed.

Lemma keyed_same k : keyed 0 k k.
Proof. intros r s. apply lex_refl_app. Qed.

Lemma keyed_prefix p c ka kb : keyed c ka kb -> keyed c (p ++ ka) (p ++ kb).
Proof. intros H. apply (keyed_app 0 c); [apply keyed_same|done]. Qed.

Lemma keyed_lt x y ka kb : x < y -> keyed (-1) (x :: ka) (y :: kb).
Proof. intros H r s. cbn [app lex]. unfold int_compare. destruct (Z.ltb_spec x y); [done|lia]. Qed.

Lemma keyed_gt x y ka kb : y < x -> keyed 1 (x :: ka) (y :: kb).
Proof. intros H r s. cbn [app lex]. unfold int_compare. destruct (Z.ltb_spec x y); [lia|]. destruct (Z.ltb_spec y x); [done|lia]. Qed.

Lemma keyed_name a b : keyed (bytes_compare a b) (name_key a) (name_key b).
Proof. intros r s. apply lex_name_key. Qed.

Lemma int_compare_values x y : int_compare x y = -1 \/ int_compare x y = 0 \/ int_compare x y = 1.
Proof. unfold int_compare. zcases; auto. Qed.

Section under.
Context (U : ty -> Prop) `{!Interned U}.

Lemma keyed_under a b ka kb :
  admissible U a -> admissible U b -> ID a <> ID b -> keyed (CompareTypes a b) (key_under a ++ ka) (key_under b ++ kb).
Proof.
  intros Ha Hb Hid r s. rewrite <- !app_assoc. unfold CompareTypes, compare_head.
  destruct (Z.eqb_spec (ID a) (ID b)); [done|]. clear n.
  destruct (decide (kind a = kind b)) as [Hk|Hk].
  - rewrite Hk, gc_refl by apply _. unfold orelse at 2. simpl. rewrite (lex_under U) by done.
    assert (Hz : compare_under a b <> 0).
    { intros Hz. pose proof (lex_under U a b [] [] Ha Hb Hk) as Hu. rewrite Hz, !app_nil_r in Hu.
      assert (Hk' : key_under a = key_under b) by (by apply (gc_eq_1 lex)). apply Hid. rewrite <- (ID_under a), <- (ID_under b).
      f_equal. apply (interned_erase (U := U)); [by apply (admissible_under U)..|].
      eapply (key_under_inj a b [] []); [apply Ha|apply Hb|by rewrite Hk']. }
    by rewrite !orelse_nz.
  - destruct (key_under_head a) as [la ->], (key_under_head b) as [lb ->]. cbn [app lex].
    assert (E : int_compare (kind_code (kind a)) (kind_code (kind b)) <> 0).
    { intros E%(gc_eq_1 int_compare). by apply kind_code_inj in E. }
    by rewrite orelse_assoc, !orelse_nz.
Qed.

Lemma same_ID_under a b : admissible U a -> admissible U b -> ID a = ID b -> TypeUnder a = TypeUnder b.
Proof. intros [Ha _] [Hb _]. by apply (interned_id (U := U)). Qed.
End under.

(** ** The key of a value

    Values of the integer types have their number as key, after the nulls or
    before them, and before all other values; the others are ordered by their
    underlying types and then by their contents.  Floats and type values have no
    key. *)

Section value_keys.
Context (to32 of32 to16 of16 : Z -> Z) (nm : bool).

Definition got {E A} (m : outcome E A) : option A := match m with Ok a => Some a | _ => None end.

Definition is_int (id : Z) : bool := IsSigned id || ((0 <=? id) && (id <=? 3)).
Definition int_value (v : Value) : option Z :=
  if IsSigned (ID (v_type v)) then got (Int v)
  else u ← got (Uint v); if (0 <=? u) && (u <? 2 ^ 64) then Some u else None.

Definition addr_key (a : Addr) : list Z := BitLen a :: name_key (AsSlice a) ++ name_key (addr_zone a).

Definition elems_key (f : bytes -> option (list Z)) (es : list bytes) : option (list Z) :=
  ks ← mapM f es; Some (concat (map (fun k => 1 :: k) ks) ++ [0]).

Definition key_with (elem : option (bytes -> option (list Z))) (v : Value) : option (list Z) :=
  if IsNull v then Some [if nm then 2 else 0]
  else
    let id := ID (v_type v) in
    if is_int id then z ← int_value v; Some [1; -1; z]
    else if IsNumber id then None
    else
      body ← (if id =? primitive_id Bool then b ← got (Bool_ v); Some [Z.b2z b]
              else
                b ← got (Value_Bytes to32 to16 v);
                if (id =? primitive_id Bytes) || (id =? primitive_id String) then Some (name_key (default [] b))
                else if id =? primitive_id IP then a ← got (DecodeIP b); Some (addr_key a)
                else if id =? primitive_id Type_ then None
                else match elem with
                     | Some f => es ← got (iter_all b); elems_key f es
                     | None => Some (name_key (default [] b))
                     end);
      Some (1 :: key_under (v_type v) ++ body).

Fixpoint elem_key (t : ty) : option (bytes -> option (list Z)) :=
  match t with
  | TNamed _ _ t => elem_key t
  | TArray _ t | TSet _ t => Some (fun b => key_with (elem_key t) (NewValue t b))
  | _ => None
  end.
Definition value_key (v : Value) : option (list Z) := key_with (elem_key (v_type v)) v.

Lemma elem_key_under t : elem_key (TypeUnder t) = elem_key t.
Proof. by induction t using ty_ind. Qed.
Lemma elem_compare_under t :
  elem_compare to32 of32 to16 of16 nm (TypeUnder t) = elem_compare to32 of32 to16 of16 nm t.
Proof. by induction t using ty_ind. Qed.

(** A comparison agrees with a key. *)
Definition agrees {A} (f : A -> A -> outcome diverge Z) (g : A -> option (list Z)) : Prop :=
  forall x y kx ky, g x = Some kx -> g y = Some ky -> exists c, f x y = Ok c /\ keyed c kx ky.

Lemma got_Ok {E A} (m : outcome E A) a : got m = Some a -> m = Ok a.
Proof. destruct m; [by intros [= ->]|done..]. Qed.

Lemma no_error_Ok {A} (m : outcome Empty_set A) a : got m = Some a -> no_error m = Ok a.
Proof. by intros ->%got_Ok. Qed.

Lemma iter_loop_cons fuel it e es :
  iter_loop Next fuel it = Ok (e :: es) -> exists fuel' it', Done it = false /\ Next it = Ok (e, it') /\ iter_loop Next fuel' it' = Ok es.
Proof.
  destruct fuel as [|fuel]; cbn [iter_loop]; destruct (Done it); try done.
  destruct (Next it) as [[v it']|[]|]; try done. destruct (iter_loop Next fuel it') as [vs| |] eqn:E; try done.
  intros [= <- <-]. by exists fuel, it'.
Qed.

Lemma iter_loop_nil fuel it : iter_loop Next fuel it = Ok [] -> Done it = true.
Proof.
  destruct fuel as [|fuel]; cbn [iter_loop]; destruct (Done it); try done.
  destruct (Next it) as [[v it']|[]|]; try done. by destruct (iter_loop Next fuel it').
Qed.

Lemma compare_elems_keyed f g : agrees f g ->
  forall ea fuel ait fa eb bit fb ka kb,
  iter_loop Next fa ait = Ok ea -> iter_loop Next fb bit = Ok eb -> (length ait < fuel)%nat ->
  elems_key g ea = Some ka -> elems_key g eb = Some kb ->
  exists c, compare_elems f fuel ait bit = Ok c /\ keyed c ka kb.
Proof.
  intros Hfg. unfold elems_key. induction ea as [|x ea IH]; intros fuel ait fa eb bit fb ka kb Ha Hb Hf Hka Hkb;
    (destruct fuel as [|fuel]; [lia|]); cbn [compare_elems].
  - pose proof (iter_loop_nil _ _ Ha) as ->. cbn in Hka. injection Hka as <-. destruct eb as [|y eb].
    + rewrite (iter_loop_nil _ _ Hb). cbn in Hkb. injection Hkb as <-. exists 0. split; [done|apply keyed_same].
    + apply iter_loop_cons in Hb as (fb' & bit' & -> & _ & _). exists (-1). split; [done|].
      apply bind_Some in Hkb as (ks & Hks & [= <-]). apply mapM_Some in Hks. inversion Hks; subst. cbn [map concat app].
      by apply keyed_lt.
  - apply iter_loop_cons in Ha as (fa' & ait' & -> & Hna & Ha').
    apply bind_Some in Hka as (kas & Hkas & [= <-]). apply mapM_Some in Hkas. inversion Hkas as [|? kx ? kas' Hx Hkas']; subst.
    destruct eb as [|y eb].
    + rewrite (iter_loop_nil _ _ Hb). cbn in Hkb. injection Hkb as <-. exists 1. split; [done|]. cbn [map concat app]. by apply keyed_gt.
    + apply iter_loop_cons in Hb as (fb' & bit' & -> & Hnb & Hb').
      apply bind_Some in Hkb as (kbs & Hkbs & [= <-]). apply mapM_Some in Hkbs. inversion Hkbs as [|? ky ? kbs' Hy Hkbs']; subst.
      rewrite Hna, Hnb. cbn [no_error mbind outcome_bind obind].
      destruct (Hfg x y kx ky Hx Hy) as (c & -> & Hc). cbn [obind].
      pose proof (Next_consumes _ _ _ Hna).
      destruct (IH fuel ait' fa' eb bit' fb' (concat (map (fun k => 1 :: k) kas') ++ [0]) (concat (map (fun k => 1 :: k) kbs') ++ [0]) Ha' Hb')
        as (c' & E' & Hc'); [lia|by apply mapM_Some in Hkas' as ->|by apply mapM_Some in Hkbs' as ->|].
      exists (orelse c c'). split.
      * cbn [mbind outcome_bind obind]. unfold orelse. by destruct (Z.eqb_spec c 0).
      * cbn [map concat]. change (1 :: kx) with ([1] ++ kx). change (1 :: ky) with ([1] ++ ky). rewrite <- !app_assoc.
        apply keyed_prefix. by apply keyed_app.
Qed.

Lemma addr_compare_keyed a b : keyed (addr_compare a b) (addr_key a) (addr_key b).
Proof.
  unfold addr_compare, addr_key. change (BitLen a :: ?k) with ([BitLen a] ++ k). change (BitLen b :: ?k) with ([BitLen b] ++ k).
  apply keyed_app; [apply keyed_single|]. apply keyed_app; apply keyed_name.
Qed.

Lemma i64_key_range (v : Value) z : IsSigned (ID (v_type v)) = true -> int_value v = Some z -> - 2 ^ 63 <= z < 2 ^ 63.
Proof.
  unfold int_value, Int. intros ->. cbn [negb]. destruct (v_repr v) as [x|b]; cbn [got]; intros [= <-]; [apply i64_range|].
  unfold DecodeInt, DecodeCountedVarint. destruct (negb _); [|apply i64_range]. destruct (_ =? 0); [lia|apply i64_range].
Qed.

Lemma int_ids id : is_int id = true -> IsNumber id = true /\ IsFloat id = false /\ (IsSigned id = false -> IsUnsigned id = true).
Proof. unfold is_int, IsSigned, IsNumber, IsFloat, IsUnsigned. intros H. zcases; simpl in *; try done; lia. Qed.

Lemma compareNumbers_keyed a b x y :
  is_int (ID (v_type a)) = true -> is_int (ID (v_type b)) = true -> int_value a = Some x -> int_value b = Some y ->
  compareNumbers to32 of32 to16 of16 a b (ID (v_type a)) (ID (v_type b)) = Ok (int_compare x y).
Proof.
  intros Ha Hb Hx Hy. pose proof (i64_key_range a x) as Rx. pose proof (i64_key_range b y) as Ry.
  destruct (int_ids _ Ha) as (_ & Hfa & Hua), (int_ids _ Hb) as (_ & Hfb & Hub).
  unfold compareNumbers, int_value in *. rewrite Hfa, Hfb.
  assert (Hu : forall v z, (u ← got (Uint v); if (0 <=? u) && (u <? 2 ^ 64) then Some u else None) = Some z -> Uint v = Ok z /\ 0 <= z < 2 ^ 64).
  { intros v z (u & Hu & Hz)%bind_Some. apply got_Ok in Hu. destruct (Z.leb_spec 0 u), (Z.ltb_spec u (2 ^ 64)); try done. injection Hz as <-. done. }
  destruct (IsSigned (ID (v_type a))) eqn:Sa, (IsSigned (ID (v_type b))) eqn:Sb.
  - apply got_Ok in Hx, Hy. rewrite Hx, Hy. cbn [no_error mbind outcome_bind obind].
    replace (IsUnsigned (ID (v_type b))) with false; [done|]. unfold IsSigned, IsUnsigned in *. zcases; simpl in *; done || lia.
  - apply got_Ok in Hx. apply Hu in Hy as [Hy Hr]. rewrite Hx, Hy, Hub by done. cbn [no_error mbind outcome_bind obind].
    specialize (Rx eq_refl ltac:(by rewrite Hx)). destruct (Z.ltb_spec x 0); [|by rewrite u64_id by lia]; f_equal; unfold int_compare; zcases; lia.
  - apply got_Ok in Hy. apply Hu in Hx as [Hx Hr]. rewrite Hx, Hy, Hua by done. cbn [no_error mbind outcome_bind obind].
    specialize (Ry eq_refl ltac:(by rewrite Hy)). destruct (Z.ltb_spec y 0); [|by rewrite u64_id by lia]; f_equal; unfold int_compare; zcases; lia.
  - apply Hu in Hx as [Hx _], Hy as [Hy _]. by rewrite Hx, Hy.
Qed.

Section order.
Context (c : Context) (Hwf : wf c).
Local Abbreviation adm := (admissible (member c)).
#[local] Instance context_universe : Universe (member c) := member_universe c Hwf.

Definition related (ec : option (bytes -> bytes -> outcome diverge Z)) (ek : option (bytes -> option (list Z))) : Prop :=
  match ec, ek with Some f, Some g => agrees f g | None, None => True | _, _ => False end.

(** The contents of two values of one underlying type that is no number. *)
Lemma contents_keyed ec ek a b ka kb :
  related ec ek -> ID (v_type a) = ID (v_type b) ->
  let id := ID (v_type a) in
  let body v :=
    if id =? primitive_id Bool then b ← got (Bool_ v); Some [Z.b2z b]
    else
      b ← got (Value_Bytes to32 to16 v);
      if (id =? primitive_id Bytes) || (id =? primitive_id String) then Some (name_key (default [] b))
      else if id =? primitive_id IP then a ← got (DecodeIP b); Some (addr_key a)
      else if id =? primitive_id Type_ then None
      else match ek with
           | Some f => es ← got (iter_all b); elems_key f es
           | None => Some (name_key (default [] b))
           end in
  body a = Some ka -> body b = Some kb ->
  exists c,
    (if id =? primitive_id Bool then
       av ← no_error (Bool_ a); bv ← no_error (Bool_ b);
       Ok (if eqb av bv then 0 else if av : bool then 1 else -1)
     else
       ab ← no_error (Value_Bytes to32 to16 a);
       bb ← no_error (Value_Bytes to32 to16 b);
       if (id =? primitive_id Bytes) || (id =? primitive_id String) then Ok (bytes_compare (default [] ab) (default [] bb))
       else if id =? primitive_id IP then
         x ← no_error (DecodeIP ab); y ← no_error (DecodeIP bb); Ok (addr_compare x y)
       else if id =? primitive_id Type_ then compare_type_values ab bb
       else
         match ec with
         | Some f => compare_elems f (S (length (Iter ab))) (Iter ab) (Iter bb)
         | None => Ok (bytes_compare (default [] ab) (default [] bb))
         end) = Ok c /\ keyed c ka kb.
Proof.
  intros Hrel Hid id body. unfold body. destruct (id =? primitive_id Bool).
  { intros (x & Hx%no_error_Ok & [= <-])%bind_Some (y & Hy%no_error_Ok & [= <-])%bind_Some. rewrite Hx, Hy.
    eexists. split; [reflexivity|]. destruct x, y; cbn; apply keyed_same || (by apply keyed_lt) || by apply keyed_gt. }
  intros (x & Hx%no_error_Ok & Ha)%bind_Some (y & Hy%no_error_Ok & Hb)%bind_Some. rewrite Hx, Hy.
  cbn [mbind outcome_bind obind]. revert Ha Hb.
  destruct ((id =? primitive_id Bytes) || (id =? primitive_id String)).
  { intros [= <-] [= <-]. eexists. split; [done|apply keyed_name]. }
  destruct (id =? primitive_id IP).
  { intros (u & Hu%no_error_Ok & [= <-])%bind_Some (v & Hv%no_error_Ok & [= <-])%bind_Some. rewrite Hu, Hv.
    eexists. split; [done|apply addr_compare_keyed]. }
  destruct (id =? primitive_id Type_); [done|].
  destruct ec as [f|], ek as [g|]; cbn [related] in Hrel; try done.
  - intros (ea & Ha%got_Ok & Hka)%bind_Some (eb & Hb%got_Ok & Hkb)%bind_Some.
    eapply compare_elems_keyed; [exact Hrel|exact Ha|exact Hb|lia|done..].
  - intros [= <-] [= <-]. eexists. split; [done|apply keyed_name].
Qed.

Lemma keyed_nulls a b : keyed 0 [a] [a] /\ (a < b -> forall k, keyed (-1) [a] (b :: k)) /\ (b < a -> forall k, keyed 1 [a] (b :: k)).
Proof. split_and!; [apply keyed_same|intros; by apply keyed_lt|intros; by apply keyed_gt]. Qed.

Lemma key_with_head ek v k : key_with ek v = Some k -> IsNull v = false -> exists k', k = 1 :: k'.
Proof.
  unfold key_with. intros H Hn. rewrite Hn in H. destruct (is_int _).
  - apply bind_Some in H as (z & _ & [= <-]). eauto.
  - destruct (IsNumber _); [done|]. apply bind_Some in H as (body & _ & [= <-]). eauto.
Qed.

Lemma key_under_nonneg t : exists x l, key_under t = x :: l /\ 0 <= x.
Proof. destruct (key_under_head t) as [l ->]. eexists _, l. split; [done|]. destruct (kind t); simpl; lia. Qed.

Lemma number_under_key t :
  adm t -> IsNumber (ID t) = true -> exists p, key_under t = [0; primitive_id p] /\ ID t = primitive_id p.
Proof.
  intros Ha Hn. rewrite <- ID_under in *. rewrite <- key_under_under.
  pose proof (TypeUnder_named t) as Hnn. apply (admissible_under (member c)) in Ha as [Hm _].
  destruct (is_complex (TypeUnder t)) eqn:Hc.
  - pose proof (member_id c Hwf _ Hm Hc). unfold IsNumber in Hn. destruct (TypeUnder t); try done; simpl in *; zcases; try done; lia.
  - destruct (TypeUnder t) as [p| | | | | | | |]; try done. by exists p.
Qed.

(** Numbers come before all other values. *)
Lemma number_other_keyed a b ka kb :
  adm a -> adm b -> IsNumber (ID a) = true -> IsNumber (ID b) = false ->
  CompareTypes a b = -1 /\ keyed (-1) (1 :: -1 :: ka) (1 :: key_under b ++ kb).
Proof.
  intros Ha Hb Hna Hnb. split.
  - assert (Hid : ID a <> ID b) by congruence.
    rewrite (keyed_lex _ _ _ (keyed_under (member c) a b [] [] Ha Hb Hid)), !app_nil_r.
    destruct (number_under_key a Ha Hna) as (p & -> & Ep). rewrite <- (ID_under b), <- (key_under_under b) in *.
    apply (admissible_under (member c)) in Hb as [Hm _]. pose proof (TypeUnder_named b).
    destruct (TypeUnder b) as [q| | | | | | | |]; try done. cbn [key_under lex ID] in *.
    rewrite Ep in Hna. unfold IsNumber in *. unfold int_compare, orelse. zcases; try done; lia.
  - destruct (key_under_nonneg b) as (x & l & -> & Hx). apply (keyed_prefix [1]). cbn [app]. apply keyed_lt. lia.
Qed.

Lemma keyed_opp x ka kb : keyed x ka kb -> keyed (- x) kb ka.
Proof.
  intros H r s. specialize (H s r). rewrite (gc_antisym (cmp := lex)), H, (gc_antisym (cmp := lex) s r).
  unfold orelse. zcases; lia.
Qed.

Lemma compare_with_keyed ec ek ekb a b ka kb :
  related ec ek -> adm (v_type a) -> adm (v_type b) -> (ID (v_type a) = ID (v_type b) -> ekb = ek) ->
  key_with ek a = Some ka -> key_with ekb b = Some kb ->
  exists x, compare_with to32 of32 to16 of16 nm ec a b = Ok x /\ keyed x ka kb.
Proof.
  intros Hrel Ha Hb Hek Hka Hkb. unfold compare_with.
  destruct (IsNull a) eqn:Na, (IsNull b) eqn:Nb; cbn [andb].
  - unfold key_with in Hka, Hkb. rewrite Na in Hka. rewrite Nb in Hkb. simplify_eq. eexists. split; [done|apply keyed_same].
  - destruct (key_with_head _ _ _ Hkb Nb) as [k ->]. unfold key_with in Hka. rewrite Na in Hka. simplify_eq.
    eexists. split; [done|]. destruct nm; [by apply keyed_gt|by apply keyed_lt].
  - destruct (key_with_head _ _ _ Hka Na) as [k ->]. unfold key_with in Hkb. rewrite Nb in Hkb. simplify_eq.
    eexists. split; [done|]. destruct nm; [by apply keyed_lt|by apply keyed_gt].
  - unfold key_with in Hka, Hkb. rewrite Na in Hka. rewrite Nb in Hkb. cbv zeta in *.
    destruct (is_int (ID (v_type a))) eqn:Ia, (is_int (ID (v_type b))) eqn:Ib.
    + destruct (int_ids _ Ia) as (-> & _), (int_ids _ Ib) as (-> & _). cbn [andb].
      apply bind_Some in Hka as (x & Hx & [= <-]), Hkb as (y & Hy & [= <-]).
      rewrite (compareNumbers_keyed a b x y) by done. eexists. split; [done|]. apply (keyed_prefix [1; -1]), keyed_single.
    + destruct (int_ids _ Ia) as (Hna & _). rewrite Hna. destruct (IsNumber (ID (v_type b))) eqn:Hnb; [done|]. cbn [andb].
      apply bind_Some in Hka as (x & Hx & [= <-]), Hkb as (y & Hy & [= <-]).
      destruct (Z.eqb_spec (ID (v_type a)) (ID (v_type b))) as [E|E]; [congruence|]. cbn [negb].
      destruct (number_other_keyed _ _ [x] y Ha Hb Hna Hnb) as [E1 E2]. eexists. split; [done|]. by rewrite E1.
    + destruct (int_ids _ Ib) as (Hnb & _). destruct (IsNumber (ID (v_type a))) eqn:Hna; [done|]. cbn [andb].
      apply bind_Some in Hka as (x & Hx & [= <-]), Hkb as (y & Hy & [= <-]).
      destruct (Z.eqb_spec (ID (v_type a)) (ID (v_type b))) as [E|E]; [congruence|]. cbn [negb].
      destruct (number_other_keyed _ _ [y] x Hb Ha Hnb Hna) as [E1 E2]. eexists. split; [done|].
      rewrite CompareTypes_antisym, E1. by apply keyed_opp.
    + destruct (IsNumber (ID (v_type a))) eqn:Hna; [done|]. destruct (IsNumber (ID (v_type b))) eqn:Hnb; [done|]. cbn [andb].
      apply bind_Some in Hka as (x & Hx & [= <-]), Hkb as (y & Hy & [= <-]).
      destruct (Z.eqb_spec (ID (v_type a)) (ID (v_type b))) as [E|E]; cbn [negb].
      * specialize (Hek E). subst ekb. rewrite <- E in Hy.
        destruct (contents_keyed ec ek a b x y Hrel E Hx Hy) as (z & -> & Hz). exists z. split; [done|].
        apply (keyed_prefix [1]). rewrite <- (key_under_under (v_type a)), <- (key_under_under (v_type b)).
        rewrite (same_ID_under (member c) _ _ Ha Hb E). by apply keyed_prefix.
      * eexists. split; [done|]. apply (keyed_prefix [1]). by apply (keyed_under (member c)).
Qed.

Lemma elem_related t : adm t -> related (elem_compare to32 of32 to16 of16 nm t) (elem_key t).
Proof.
  induction t using ty_ind; intros Ha; try done; apply (admissible_components (member c)) in Ha;
    cbn [components] in Ha; rewrite Forall_singleton in Ha; cbn [elem_compare elem_key related].
  - intros x y kx ky Hx Hy. by eapply (compare_with_keyed _ (elem_key t) (elem_key t)); [auto|..].
  - intros x y kx ky Hx Hy. by eapply (compare_with_keyed _ (elem_key t) (elem_key t)); [auto|..].
  - auto.
Qed.

(** The comparison of values is the lexicographic comparison of their keys. *)
Lemma compareValues_key a b ka kb :
  adm (v_type a) -> adm (v_type b) -> value_key a = Some ka -> value_key b = Some kb ->
  compareValues to32 of32 to16 of16 nm a b = Ok (lex ka kb).
Proof.
  intros Ha Hb Hka Hkb. unfold compareValues.
  destruct (compare_with_keyed _ _ (elem_key (v_type b)) a b ka kb (elem_related _ Ha) Ha Hb) as (x & E & Hx); [|done..|].
  - intros E. rewrite <- (elem_key_under (v_type a)), <- (elem_key_under (v_type b)). by rewrite (same_ID_under (member c) _ _ Ha Hb E).
  - by rewrite E, (keyed_lex _ _ _ Hx).
Qed.

(** ** Comparators *)

Definition sortable (v : Value) : Prop := adm (v_type v) /\ is_Some (value_key v).
Definition vkey (v : Value) : list Z := default [] (value_key v).

Lemma compareValues_sortable a b :
  sortable a -> sortable b -> compareValues to32 of32 to16 of16 nm a b = Ok (lex (vkey a) (vkey b)).
Proof.
  unfold vkey. intros [Ha [ka Ka]] [Hb [kb Kb]]. rewrite Ka, Kb. cbn [default from_option id]. by apply compareValues_key.
Qed.

(** Values on which all expressions are sortable. *)
Definition sortable_by (ks : list SortEvaluator) (v : Value) : Prop := Forall (fun k => sortable (Eval_ k v)) ks.

Fixpoint compare_keys (ks : list SortEvaluator) (v w : Value) : Z :=
  match ks with
  | [] => 0
  | k :: ks =>
      orelse (if desc k then lex (vkey (Eval_ k w)) (vkey (Eval_ k v)) else lex (vkey (Eval_ k v)) (vkey (Eval_ k w)))
        (compare_keys ks v w)
  end.

Lemma compare_keys_antisym ks v w : compare_keys ks w v = - compare_keys ks v w.
Proof.
  induction ks as [|k ks IH]; [done|]. cbn [compare_keys]. rewrite IH.
  rewrite (gc_antisym (cmp := lex) (vkey (Eval_ k v)) (vkey (Eval_ k w))).
  destruct (desc k); unfold orelse; zcases; lia.
Qed.

Lemma compare_keys_trans ks u v w :
  compare_keys ks u v <= 0 -> compare_keys ks v w <= 0 -> compare_keys ks u w <= 0.
Proof.
  induction ks as [|k ks IH]; [done|]. cbn [compare_keys].
  generalize (vkey (Eval_ k u)) (vkey (Eval_ k v)) (vkey (Eval_ k w)). intros x y z.
  assert (H : forall f : list Z -> list Z -> Z, GoCompare f ->
    orelse (f x y) (compare_keys ks u v) <= 0 -> orelse (f y z) (compare_keys ks v w) <= 0 ->
    orelse (f x z) (compare_keys ks u w) <= 0).
  { intros f Hf H1 H2. unfold orelse in *.
    destruct (Z.eqb_spec (f x y) 0) as [E|E].
    - apply gc_eq in E as ->. destruct (Z.eqb_spec (f y z) 0); [by apply IH|done].
    - destruct (Z.eqb_spec (f y z) 0) as [E2|E2].
      + apply (gc_eq (cmp := f)) in E2. subst z. destruct (Z.eqb_spec (f x y) 0) as [E3|_]; [by destruct E|exact H1].
      + pose proof (gc_trans (cmp := f) x y z H1 H2) as Ht. destruct (Z.eqb_spec (f x z) 0) as [E3|E3]; [|done].
        exfalso. apply (gc_eq (cmp := f)) in E3. subst z. rewrite (gc_antisym (cmp := f) x y) in H2. lia. }
  destruct (desc k).
  - apply (H (fun a b => lex b a)). split.
    + intros. apply (gc_antisym (cmp := lex)).
    + intros a b d ??. by apply (gc_trans (cmp := lex) d b a).
    + intros. rewrite (gc_eq (cmp := lex)). split; congruence.
  - apply (H lex). apply _.
Qed.

Lemma Compare_loop_key ks v w :
  sortable_by ks v -> sortable_by ks w -> Compare_loop to32 of32 to16 of16 ks nm v w = Ok (compare_keys ks v w).
Proof.
  induction ks as [|k ks IH]; [done|]. intros [Hv Hvs]%Forall_cons [Hw Hws]%Forall_cons. cbn [Compare_loop compare_keys].
  unfold orelse. destruct (desc k); rewrite compareValues_sortable by done; cbn [mbind outcome_bind obind];
    (match goal with |- context [(?x =? 0)%Z] => destruct (Z.eqb_spec x 0) end; cbn [negb]; [by apply IH|done]).
Qed.

(** ** The fast path *)

Lemma vkey_native v i :
  sortable v -> native_key nm v = Ok (Some i) ->
  MinInt64 <= i <= MaxInt64 /\
  (vkey v = [if nm then 2 else 0] /\ i = (if nm then MaxInt64 else MinInt64) \/
   exists z, vkey v = [1; -1; z] /\ i = Z.min z MaxInt64 /\ MinInt64 <= z).
Proof.
  intros [Ha [k Hk]]. unfold vkey. rewrite Hk. cbn [default from_option id]. unfold native_key.
  destruct (Z.leb_spec (ID (v_type v)) (primitive_id Time)) as [Hid|Hid]; [|done]. cbn [primitive_id] in Hid.
  unfold value_key, key_with in Hk. destruct (IsNull v).
  { intros [= <-]. injection Hk as <-. split; [unfold MaxInt64, MinInt64; destruct nm; lia|by left]. }
  destruct (is_int (ID (v_type v))) eqn:Hi.
  2: { assert (IsNumber (ID (v_type v)) = true) as Hn by (unfold IsNumber; zcases; done || lia). by rewrite Hn in Hk. }
  apply bind_Some in Hk as (z & Hz & [= <-]). pose proof (i64_key_range v z) as Hr. unfold int_value in Hz, Hr.
  unfold MaxInt64, MinInt64. destruct (IsSigned (ID (v_type v))).
  - specialize (Hr eq_refl Hz). apply got_Ok in Hz. rewrite Hz. cbn. intros [= <-]. split; [lia|]. right. exists z. split_and!; [done|lia|lia].
  - apply bind_Some in Hz as (u & Hu & Hz). apply got_Ok in Hu. rewrite Hu. destruct (Z.leb_spec 0 u), (Z.ltb_spec u (2 ^ 64)); try done.
    injection Hz as <-. cbn [no_error mbind outcome_bind obind]. intros [= <-].
    destruct (Z.ltb_spec (2 ^ 63 - 1) u).
    + split; [lia|]. right. exists u. split_and!; [done|lia|lia].
    + rewrite i64_id by lia. split; [lia|]. right. exists u. split_and!; [done|lia|lia].
Qed.

(** Distinct entries decide the comparison, equal ones that are not extreme are
    equal values. *)
Lemma native_compare a b i j :
  sortable a -> sortable b -> native_key nm a = Ok (Some i) -> native_key nm b = Ok (Some j) ->
  let x := lex (vkey a) (vkey b) in
  (i <> j -> x <> 0 /\ (x <? 0) = (i <? j)) /\ (i = j -> i <> MaxInt64 -> i <> MinInt64 -> x = 0).
Proof.
  intros Ha Hb Hi Hj x0. destruct (vkey_native a i Ha Hi) as [Ri Ci], (vkey_native b j Hb Hj) as [Rj Cj].
  subst x0. unfold MaxInt64, MinInt64 in *.
  destruct Ci as [[-> ->]|(x & -> & -> & Hx)], Cj as [[-> ->]|(y & -> & -> & Hy)];
    destruct nm; cbn [lex]; unfold orelse, int_compare; zcases; try done; split; intros; try done; try lia.
Qed.

(** ** Sorting *)

Lemma less_rest_key ks x y :
  sortable_by ks (e_val x) -> sortable_by ks (e_val y) ->
  less_rest to32 of32 to16 of16 ks nm x y = Ok (compare_keys ks (e_val x) (e_val y) <? 0).
Proof.
  induction ks as [|k ks IH]; [done|]. intros [Hx Hxs]%Forall_cons [Hy Hys]%Forall_cons. cbn [less_rest compare_keys].
  unfold orelse. destruct (desc k); rewrite compareValues_sortable by done; cbn [mbind outcome_bind obind];
    (match goal with |- context [(?x =? 0)%Z] => destruct (Z.eqb_spec x 0) end; cbn [negb]; [by apply IH|done]).
Qed.

(** An entry made by [sort_entries]. *)
Definition made (k : SortEvaluator) (x : sort_entry) : Prop :=
  e_val0 x = Eval_ k (e_val x) /\ native_key nm (e_val0 x) = Ok (e_i64 x).

(** The comparison of entries is the comparator's, with or without the fast
    path. *)
Lemma less_key k ks native x y :
  sortable_by (k :: ks) (e_val x) -> sortable_by (k :: ks) (e_val y) -> made k x -> made k y ->
  less to32 of32 to16 of16 (mkComparator (k :: ks) nm) native x y = Ok (compare_keys (k :: ks) (e_val x) (e_val y) <? 0).
Proof.
  intros [Hx Hxs]%Forall_cons [Hy Hys]%Forall_cons [Ex Nx] [Ey Ny]. unfold less. cbn [exprs nullsMax compare_keys].
  assert (H : forall a b,
    (a = x /\ b = y \/ a = y /\ b = x) ->
    (let slow := v ← compareValues to32 of32 to16 of16 nm (e_val0 a) (e_val0 b);
        if negb (v =? 0) then Ok (v <? 0) else less_rest to32 of32 to16 of16 ks nm x y in
     match native, e_i64 a, e_i64 b with
     | true, Some i, Some j =>
         if negb (i =? j) then Ok (i <? j)
         else if negb (i =? MaxInt64) && negb (i =? MinInt64) then less_rest to32 of32 to16 of16 ks nm x y
         else slow
     | _, _, _ => slow
     end) = Ok (orelse (lex (vkey (e_val0 a)) (vkey (e_val0 b))) (compare_keys ks (e_val x) (e_val y)) <? 0)).
  { intros a b Hab.
    assert (Hs : sortable (e_val0 a) /\ sortable (e_val0 b)) by (rewrite Ex, Ey in *; destruct Hab as [[-> ->]|[-> ->]]; rewrite ?Ex, ?Ey; done).
    assert (Hn : native_key nm (e_val0 a) = Ok (e_i64 a) /\ native_key nm (e_val0 b) = Ok (e_i64 b)) by (by destruct Hab as [[-> ->]|[-> ->]]).
    destruct Hs as [Sa Sb], Hn as [Na Nb]. cbv zeta. rewrite (less_rest_key ks x y), (compareValues_sortable _ _ Sa Sb) by done.
    cbn [mbind outcome_bind obind].
    assert (Hslow : (if negb (lex (vkey (e_val0 a)) (vkey (e_val0 b)) =? 0) then Ok (lex (vkey (e_val0 a)) (vkey (e_val0 b)) <? 0)
                     else Ok (compare_keys ks (e_val x) (e_val y) <? 0) : outcome diverge bool) =
                    Ok (orelse (lex (vkey (e_val0 a)) (vkey (e_val0 b))) (compare_keys ks (e_val x) (e_val y)) <? 0)).
    { unfold orelse. by destruct (_ =? 0). }
    destruct native; [|exact Hslow]. destruct (e_i64 a) as [i|] eqn:Ea; [|exact Hslow]. destruct (e_i64 b) as [j|] eqn:Eb; [|exact Hslow].
    destruct (native_compare _ _ i j Sa Sb Na Nb) as [H1 H2].
    destruct (Z.eqb_spec i j) as [E|E]; cbn [negb].
    - destruct (Z.eqb_spec i MaxInt64); [exact Hslow|]. destruct (Z.eqb_spec i MinInt64); [exact Hslow|]. cbn [negb andb].
      by rewrite H2 by done.
    - destruct (H1 E) as [Hz <-]. by rewrite orelse_nz. }
  rewrite <- Ex, <- Ey. destruct (desc k); [apply (H y x)|apply (H x y)]; auto.
Qed.

Lemma SliceStable_sort {A} (f : A -> A -> outcome diverge bool) (lt : A -> A -> bool) (P : A -> Prop) l :
  (forall x y, P x -> P y -> f x y = Ok (lt x y)) -> Forall P l -> SliceStable f l = Ok (stable_sort lt l).
Proof.
  intros Hf Hl. unfold SliceStable, stable_sort.
  assert (Hins : forall x r, P x -> Forall P r -> insert_rev_m f x r = Ok (insert_rev lt x r) /\ Forall P (insert_rev lt x r)).
  { intros x r Hx. induction 1 as [|y r Hy Hr [IH1 IH2]]; cbn [insert_rev_m insert_rev]; [split; [done|by constructor]|].
    rewrite Hf by done. cbn [mbind outcome_bind obind]. destruct (lt x y); [|split; [done|by repeat constructor]].
    rewrite IH1. split; [done|by constructor]. }
  assert (Hgo : forall r, Forall P r -> sort_into f l r = Ok (rev (fold_left (fun r x => insert_rev lt x r) l r))).
  { induction Hl as [|x l Hx Hl IH]; intros r Hr; [done|]. cbn [sort_into fold_left].
    destruct (Hins x r Hx Hr) as [-> Hr']. by apply IH. }
  by apply Hgo.
Qed.

Lemma stable_sort_map {A B} (f : A -> B) (lt : B -> B -> bool) l :
  map f (stable_sort (fun x y => lt (f x) (f y)) l) = stable_sort lt (map f l).
Proof.
  unfold stable_sort. rewrite map_rev. f_equal.
  assert (Hi : forall x r, map f (insert_rev (fun x y => lt (f x) (f y)) x r) = insert_rev lt (f x) (map f r)).
  { intros x r. induction r as [|y r IH]; [done|]. cbn [insert_rev map]. destruct (lt (f x) (f y)); [|done]. cbn [map]. by rewrite IH. }
  assert (Hgo : forall r, map f (fold_left (fun r x => insert_rev (fun x y => lt (f x) (f y)) x r) l r) =
                          fold_left (fun r x => insert_rev lt x r) (map f l) (map f r)); [|apply (Hgo [])].
  induction l as [|x l IH]; intros r; [done|]. cbn [fold_left map]. by rewrite IH, Hi.
Qed.

(** ** The permutation in place *)

Lemma permute_spec (orig : list Value) : forall idx i vals tmp out,
  mapM (fun j => orig !! j) idx = Some out -> length orig = (i + length idx)%nat -> length vals = length orig -> length tmp = length orig ->
  drop i vals = drop i orig -> (forall j, (j < i)%nat -> tmp !! j = Some (orig !! j)) ->
  permute idx i vals tmp = Ok (take i vals ++ out).
Proof.
  induction idx as [|j idx IH]; intros i vals tmp out Hout Hlen Hv Ht Hd Htmp; cbn [permute length] in *.
  { injection Hout as <-. rewrite app_nil_r, firstn_all2 by lia. done. }
  apply mapM_Some in Hout. inversion Hout as [|? w ? out' Hw Hout']; subst. apply mapM_Some in Hout'.
  assert (Hat : forall n, (i <= n)%nat -> vals !! n = orig !! n).
  { intros n Hn. replace n with (i + (n - i))%nat by lia. by rewrite <- !lookup_drop, Hd. }
  destruct (lookup_lt_is_Some_2 vals i ltac:(lia)) as [v Ev]. rewrite Ev.
  assert (Ho : orig !! i = Some v) by (rewrite <- Hat; [done|lia]).
  assert (Hnext : forall vals', length vals' = length vals -> take (S i) vals' = take i vals ++ [w] -> drop (S i) vals' = drop (S i) vals ->
     permute idx (S i) vals' (<[i := Some v]> tmp) = Ok (take i vals ++ w :: out')).
  { intros vals' Hl Htk Hdr. rewrite (IH (S i) vals' (<[i := Some v]> tmp) out'); try done; try lia.
    - by rewrite Htk, <- app_assoc.
    - by rewrite length_insert.
    - rewrite Hdr. replace (S i) with (i + 1)%nat by lia. rewrite <- !drop_drop. by rewrite Hd.
    - intros n Hn. destruct (decide (n = i)) as [->|Hne]; [rewrite list_lookup_insert_eq by lia; by rewrite Ho|].
      rewrite list_lookup_insert_ne by done. apply Htmp. lia. }
  assert (Hset : forall w', w' = w -> length (<[i := w']> vals) = length vals /\
     take (S i) (<[i := w']> vals) = take i vals ++ [w] /\ drop (S i) (<[i := w']> vals) = drop (S i) vals).
  { intros w' ->. split_and!; [apply length_insert| |].
    - rewrite (take_S_r _ _ w) by (apply list_lookup_insert_eq; lia). by rewrite take_insert_ge by lia.
    - by rewrite drop_insert_lt by lia. }
  destruct (Nat.ltb_spec i j) as [Hij|Hij].
  - rewrite (Hat j) by lia. rewrite Hw. destruct (Hset w eq_refl) as (H1 & H2 & H3). by apply Hnext.
  - destruct (Nat.ltb_spec j i) as [Hji|Hji].
    + rewrite list_lookup_insert_ne by lia. rewrite Htmp by done. rewrite Hw.
      destruct (Hset w eq_refl) as (H1 & H2 & H3). by apply Hnext.
    + assert (j = i) as -> by lia. rewrite Ho in Hw. injection Hw as <-. apply Hnext; [done| |done].
      by apply take_S_r.
Qed.

Lemma stable_sort_stable {A} (cmp : A -> A -> Z) l v :
  (forall a b, cmp b a = - cmp a b) -> (forall a b d, cmp a b <= 0 -> cmp b d <= 0 -> cmp a d <= 0) ->
  List.filter (fun w => cmp v w =? 0) (stable_sort (cmp_lt cmp) l) = List.filter (fun w => cmp v w =? 0) l.
Proof.
  intros Hanti Htrans. set (p := fun w => cmp v w =? 0).
  assert (Hp : forall x y, cmp_lt cmp x y = true -> p x = true -> p y = false).
  { unfold cmp_lt, p. intros x y Hlt%Z.ltb_lt Hx%Z.eqb_eq. apply Z.eqb_neq. intros Hy.
    pose proof (Htrans y v x). rewrite (Hanti v y), (Hanti x y) in *. lia. }
  assert (Hi : forall x r, List.filter p (rev (insert_rev (cmp_lt cmp) x r)) = List.filter p (rev r) ++ List.filter p [x]).
  { intros x r. induction r as [|y r IH]; [done|]. cbn [insert_rev]. destruct (cmp_lt cmp x y) eqn:E; cbn [rev]; [|by rewrite !List.filter_app].
    rewrite !List.filter_app, IH, <- !app_assoc. f_equal. cbn [List.filter].
    destruct (p x) eqn:Ex; [by rewrite (Hp x y)|by rewrite app_nil_r]. }
  unfold stable_sort.
  assert (Hgo : forall r, List.filter p (rev (fold_left (fun r x => insert_rev (cmp_lt cmp) x r) l r)) = List.filter p (rev r) ++ List.filter p l);
    [|by rewrite Hgo].
  induction l as [|x l IH]; intros r; cbn [fold_left]; [by rewrite app_nil_r|]. rewrite IH, Hi, <- app_assoc. f_equal.
  by rewrite <- List.filter_app.
Qed.

Lemma native_key_total v : sortable v -> exists n, native_key nm v = Ok n.
Proof.
  intros [Ha [k Hk]]. unfold native_key. destruct (Z.leb_spec (ID (v_type v)) (primitive_id Time)) as [Hid|Hid]; [|eauto]. cbn [primitive_id] in Hid.
  unfold value_key, key_with in Hk. destruct (IsNull v); [eauto|].
  destruct (is_int (ID (v_type v))) eqn:Hi.
  2: { assert (IsNumber (ID (v_type v)) = true) as Hn by (unfold IsNumber; zcases; done || lia). by rewrite Hn in Hk. }
  apply bind_Some in Hk as (z & Hz & _). unfold int_value in Hz. destruct (IsSigned (ID (v_type v))).
  - apply got_Ok in Hz as ->. cbn. eauto.
  - apply bind_Some in Hz as (u & ->%got_Ok & _). cbn. eauto.
Qed.

Lemma sort_entries_made k : forall vals i keys,
  native_keys nm (map (Eval_ k) vals) = Ok keys ->
  let es := sort_entries k i vals keys in
  map e_val es = vals /\ Forall (made k) es /\ forall orig, drop i orig = vals -> Forall (fun e => orig !! e_index e = Some (e_val e)) es.
Proof.
  induction vals as [|v vals IH]; intros i keys Hk; cbn [native_keys map sort_entries] in *; [split_and!; [done|constructor|constructor]|].
  destruct (native_key nm (Eval_ k v)) as [n|[]|] eqn:En; try done.
  destruct (native_keys nm (map (Eval_ k) vals)) as [ks|[]|] eqn:Eks; try done. injection Hk as <-.
  cbn [sort_entries map e_val]. destruct (IH (S i) ks eq_refl) as (H1 & H2 & H3).
  split_and!; [by rewrite H1|by constructor|]. intros orig Ho. constructor.
  - cbn [e_index e_val]. replace i with (i + 0)%nat by lia. by rewrite <- lookup_drop, Ho.
  - apply H3. replace (S i) with (i + 1)%nat by lia. by rewrite <- drop_drop, Ho.
Qed.

Lemma native_keys_total k vals :
  Forall (fun v => sortable (Eval_ k v)) vals -> exists keys, native_keys nm (map (Eval_ k) vals) = Ok keys.
Proof.
  induction 1 as [|v vals Hv _ [keys IH]]; [by exists []|]. cbn [map native_keys].
  destruct (native_key_total _ Hv) as [n ->]. rewrite IH. cbn. eauto.
Qed.

(** The entries come out in the order of the stable sort by the keys. *)
Lemma sortStableIndices_eq cmp vals :
  exprs cmp <> [] -> nullsMax cmp = nm -> Forall (sortable_by (exprs cmp)) vals ->
  exists es, sortStableIndices to32 of32 to16 of16 cmp vals = Ok es /\
    map e_val es = stable_sort (cmp_lt (compare_keys (exprs cmp))) vals /\
    Forall (fun e => vals !! e_index e = Some (e_val e)) es.
Proof.
  destruct cmp as [ks nm']. cbn [exprs nullsMax]. intros Hne -> Hv. unfold sortStableIndices. cbn [exprs nullsMax].
  destruct ks as [|k ks]; [done|]. destruct (native_keys_total k vals) as [keys Ekeys].
  { eapply Forall_impl; [exact Hv|]. by intros v [? _]%Forall_cons. }
  rewrite Ekeys. cbn [mbind outcome_bind obind].
  destruct (sort_entries_made k vals 0 keys Ekeys) as (H1 & H2 & H3). specialize (H3 vals eq_refl).
  set (es := sort_entries k 0 vals keys) in *.
  set (P := fun e => sortable_by (k :: ks) (e_val e) /\ made k e).
  rewrite (SliceStable_sort _ (fun x y => cmp_lt (compare_keys (k :: ks)) (e_val x) (e_val y)) P).
  - eexists. split; [done|]. split; [|by rewrite stable_sort_perm].
    by rewrite (stable_sort_map e_val (cmp_lt (compare_keys (k :: ks)))), H1.
  - intros x y [Hx Mx] [Hy My]. by apply less_key.
  - apply Forall_and. split; [|done]. rewrite <- (Forall_map e_val (sortable_by (k :: ks))). by rewrite H1.
Qed.

(** Sorting with the comparator is the stable sort by its keys. *)
Lemma SortStable_eq cmp vals :
  nullsMax cmp = nm -> Forall (sortable_by (exprs cmp)) vals ->
  SortStable to32 of32 to16 of16 cmp vals = Ok (stable_sort (cmp_lt (compare_keys (exprs cmp))) vals).
Proof.
  intros Hnm Hv. unfold SortStable. destruct (decide (exprs cmp = [])) as [Hne|Hne].
  { unfold sortStableIndices. rewrite Hne. cbn. rewrite stable_sort_id; [done|]. clear Hv. induction vals as [|v [|w vals] IH]; by constructor. }
  destruct (sortStableIndices_eq cmp vals Hne Hnm Hv) as (es & -> & E & H3). cbn [mbind outcome_bind obind].
  rewrite (permute_spec vals _ 0 vals _ (map e_val es)); try done.
  + cbn [take app]. by rewrite E.
  + apply mapM_Some. clear -H3. induction H3; constructor; auto.
  + rewrite length_map. rewrite <- (length_map e_val), E. by rewrite length_stable_sort.
  + by rewrite length_replicate.
  + intros j Hj. lia.
Qed.
Lemma SortStableReader_eq cmp vals :
  exprs cmp <> [] -> nullsMax cmp = nm -> Forall (sortable_by (exprs cmp)) vals ->
  SortStableReader to32 of32 to16 of16 cmp vals = Ok (stable_sort (cmp_lt (compare_keys (exprs cmp))) vals).
Proof.
  intros Hne Hnm Hv. unfold SortStableReader. destruct (sortStableIndices_eq cmp vals Hne Hnm Hv) as (es & -> & E & _).
  cbn [mbind outcome_bind obind]. by rewrite E.
Qed.
End order.
End value_keys.
