(* ===== verification/CompareProps.v ===== *)
(** * The properties of comparing and sorting values *)

From S2P Require Import Prelude Zcode Types Context Interning Primitive Values Compare CompareProofs.
Local Open Scope Z_scope.

Section props.
Context (to32 of32 to16 of16 : Z -> Z).
Local Abbreviation cmp := (compareValues to32 of32 to16 of16).

(** C28: the comparison of values is a total preorder on the values without
    floats and type values, of all types of a context and nested in any arrays
    and sets: it returns, is antisymmetric and transitive, and orders integers
    of every width and signedness by their numbers, with the nulls at the end
    that [nullsMax] says. *)
Theorem values_totally_ordered (c : Context) (nm : bool) (u v w : Value) :
  wf c -> sortable to32 to16 nm c u -> sortable to32 to16 nm c v -> sortable to32 to16 nm c w ->
  exists x y z,
    cmp nm u v = Ok x /\ cmp nm v u = Ok (- x) /\ cmp nm v w = Ok y /\ cmp nm u w = Ok z /\
    (x <= 0 -> y <= 0 -> z <= 0) /\
    (IsNull u = false -> IsNull v = true -> x = if nm then -1 else 1) /\
    (forall i j, IsNull u = false -> IsNull v = false -> is_int (ID (v_type u)) = true -> is_int (ID (v_type v)) = true ->
       int_value u = Some i -> int_value v = Some j -> x = int_compare i j).
Proof.
  intros Hc Hu Hv Hw. exists (lex (vkey to32 to16 nm u) (vkey to32 to16 nm v)), (lex (vkey to32 to16 nm v) (vkey to32 to16 nm w)),
    (lex (vkey to32 to16 nm u) (vkey to32 to16 nm w)).
  rewrite <- (gc_antisym (cmp := lex)).
  pose proof (compareValues_sortable to32 of32 to16 of16 nm c Hc) as Hcmp.
  split_and!; [by apply Hcmp..|apply (gc_trans (cmp := lex))| |].
  - intros Nu Nv. pose proof (Hcmp u v Hu Hv) as E. unfold compareValues, compare_with in E. rewrite Nu, Nv in E. by injection E as <-.
  - intros i j Nu Nv Iu Iv Ei Ej. unfold vkey, value_key, key_with. rewrite Nu, Nv, Iu, Iv, Ei, Ej.
    cbn [mbind option_bind default from_option id lex]. unfold orelse, int_compare. zcases; try done; lia.
Qed.

(** C27: on values for which the comparator's expressions give no floats and
    no type values, [SortStable] returns the values in the comparator's order,
    with equal values in their original order: its fast path for native
    integers cannot be observed and the permutation in place moves every value
    to its position. (With floats next to integers the order is not
    transitive, and a bad type value makes the comparison panic.) *)
Theorem SortStable_spec (c : Context) (k : Comparator) (vals : list Value) :
  wf c -> Forall (sortable_by to32 to16 (nullsMax k) c (exprs k)) vals ->
  exists sorted, SortStable to32 of32 to16 of16 k vals = Ok sorted /\ sorted ≡ₚ vals /\
    StronglySorted (fun v w => exists x, Compare to32 of32 to16 of16 k v w = Ok x /\ x <= 0) sorted /\
    forall v, v ∈ vals ->
      let equal w := match Compare to32 of32 to16 of16 k v w with Ok x => x =? 0 | _ => false end in
      List.filter equal sorted = List.filter equal vals.
Proof.
  intros Hc Hv. set (ck := compare_keys to32 to16 (nullsMax k) (exprs k)).
  assert (Hcmp : forall v w, v ∈ vals -> w ∈ vals -> Compare to32 of32 to16 of16 k v w = Ok (ck v w)).
  { rewrite Forall_forall in Hv. intros v w Hin Hin'. apply (Compare_loop_key _ _ _ _ _ c Hc); auto. }
  pose proof (stable_sort_perm (cmp_lt ck) vals) as Hp.
  exists (stable_sort (cmp_lt ck) vals). split_and!; [by apply (SortStable_eq _ _ _ _ _ c Hc)|done| |].
  - assert (Hs : StronglySorted (fun a b => ck a b <= 0) (stable_sort (cmp_lt ck) vals)).
    { apply (stable_sort_sorted ck (fun _ => True)); [apply compare_keys_antisym|intros a b d _ _ _; apply compare_keys_trans|by apply Forall_true]. }
    assert (Hin : Forall (fun v => v ∈ vals) (stable_sort (cmp_lt ck) vals)) by (apply Forall_forall; intros v; by rewrite Hp).
    clear Hp. induction Hs as [|v l Hs IH Hl]; [constructor|]. apply Forall_cons in Hin as [Hin Hins]. constructor; [by apply IH|].
    rewrite Forall_forall in *. intros w Hw. exists (ck v w). split; [apply Hcmp; auto|by apply Hl].
  - intros v Hin equal. rewrite (List.filter_ext_in equal (fun w => ck v w =? 0)), (List.filter_ext_in equal (fun w => ck v w =? 0) vals).
    + apply stable_sort_stable; [apply compare_keys_antisym|apply compare_keys_trans].
    + intros w Hw. unfold equal. rewrite Hcmp; [done..|]. by apply list_elem_of_In.
    + intros w Hw. unfold equal. rewrite Hcmp; [done..|]. rewrite <- Hp. by apply list_elem_of_In.
Qed.
End props.

(** Values of a few types in a context with an array type. *)
Definition demo_ctx : Context :=
  default NewContext (match LookupTypeArray (TPrim Int64) NewContext with Ok (_, c) => Some c | _ => None end).
Definition demo_values : list Value :=
  [NewInt64 5; NewUint (TPrim Uint8) 5; NewString (str "b"); NewInt64 (-3); NewValue (TArray 30 (TPrim Int64)) (Some [zb 2; zb 8]); NullValue].

Lemma demo_ctx_wf : wf demo_ctx.
Proof.
  destruct (LookupTypeArray_interns NewContext NewContext_wf (TPrim Int64) (member_prim _ _)) as (u & c' & E & _ & _ & Hw & _).
  unfold demo_ctx. by rewrite E.
Qed.

Definition same (x : Z) : Z := x.

Lemma demo_sortable v nm : v ∈ demo_values -> sortable same same nm demo_ctx v.
Proof.
  intros Hv. assert (H : Forall (sortable same same nm demo_ctx) demo_values); [|by rewrite Forall_forall in H; apply H].
  unfold demo_values. repeat apply Forall_cons_2; [..|apply Forall_nil_2]; (split; [split; [|by split]|eexists; reflexivity]);
    intros Hcx; try discriminate Hcx; by split.
Qed.

Lemma values_totally_ordered_witness :
  exists x y z,
    compareValues same same same same true (NewInt64 5) (NewString (str "b")) = Ok x /\
    compareValues same same same same true (NewString (str "b")) (NewInt64 5) = Ok (- x) /\
    compareValues same same same same true (NewString (str "b")) NullValue = Ok y /\
    compareValues same same same same true (NewInt64 5) NullValue = Ok z /\ (x <= 0 -> y <= 0 -> z <= 0).
Proof.
  destruct (values_totally_ordered same same same same demo_ctx true (NewInt64 5) (NewString (str "b")) NullValue demo_ctx_wf)
    as (x & y & z & H1 & H2 & H3 & H4 & H5 & _); [apply demo_sortable; set_solver..|].
  by exists x, y, z.
Defined.

Lemma SortStable_spec_witness :
  let k := NewValueCompareFn false true in
  exists sorted, SortStable same same same same k demo_values = Ok sorted /\ sorted ≡ₚ demo_values /\
    StronglySorted (fun v w => exists x, Compare same same same same k v w = Ok x /\ x <= 0) sorted.
Proof.
  intros k. destruct (SortStable_spec same same same same demo_ctx k demo_values demo_ctx_wf) as (sorted & H1 & H2 & H3 & _).
  - apply Forall_forall. intros v Hv. apply Forall_singleton. by apply demo_sortable.
  - by exists sorted.
Defined.

Example SortStable_demo :
  SortStable same same same same (NewValueCompareFn false true) demo_values =
    Ok [NewInt64 (-3); NewInt64 5; NewUint (TPrim Uint8) 5; NewString (str "b");
        NewValue (TArray 30 (TPrim Int64)) (Some [zb 2; zb 8]); NullValue].
Proof. vm_compute. reflexivity. Qed.

(** ** Floats *)

Example float_of_int_exact :
  map float_of_int [0; 1; -2; 3; 2 ^ 53; 2 ^ 53 + 1; 2 ^ 53 + 3; 2 ^ 64 - 1] =
  [0; 4607182418800017408; 13835058055282163712; 4613937818241073152; 4845873199050653696; 4845873199050653696;
   4845873199050653698; 4895412794951729152].
Proof. vm_compute. reflexivity. Qed.

(** with floats the comparison is not transitive: an integer that has no float
    is equal to a float that is equal to a smaller integer. *)
Theorem mixed_numbers_intransitive :
  let big := NewInt64 (2 ^ 53 + 1) in
  let float := NewFloat64 (float_of_int (2 ^ 53)) in
  let small := NewInt64 (2 ^ 53) in
  compareValues same same same same true big float = Ok 0 /\ compareValues same same same same true float small = Ok 0 /\
  compareValues same same same same true big small = Ok 1.
Proof. split_and!; by vm_compute. Qed.

(** comparing type values panics when one of them does not decode. *)
Theorem bad_type_value_panics :
  compareValues same same same same true (NewValue (TPrim Type_) (Some [])) (NewValue (TPrim Type_) (Some (EncodeTypeValue (TPrim Int64)))) = Panic.
Proof. by vm_compute. Qed.
