(* ===== verification/Journal.v ===== *)
(** * The journal and its key-value store

    [src/lake/journal]: a [Queue] is a directory of numbered entries with HEAD
    and TAIL files; a [Store] is a table of keyed entries whose changes are
    committed to a queue, optimistically: a commit reads HEAD, replays the
    journal, checks its precondition on the table and writes the next entry
    only if it does not exist yet.  Branches and pools are kept in such stores.

    The storage engine is the state [Queue]; one call of the engine is one
    atomic action: a reader sees the whole of an object that was written or
    nothing of it.  That is what the journal asks of an engine, and not what
    every engine gives: pkg/storage/file.go opens a file before it writes to it,
    and S3 has no [PutIfNotExists] ([atomic] is false there, and a put is then
    unconditional).  [Module Steps] interleaves the actions of any number of
    goroutines and processes. *)

From S2P Require Import Prelude.
Local Open Scope Z_scope.

(** ** The entries of a store *)

Section entries.
Context {E : Type} (Key : E -> gostring).

Inductive jop := Add (e : E) | Update (e : E) | Delete (k : gostring).

Abbreviation table := (gmap gostring E).

(** The body of the replay loop of [load]; [None] is the error for an update
    to a non-existent key. *)
Definition apply_op (t : table) (o : jop) : option table :=
  match o with
  | Add e => Some (<[Key e := e]> t)
  | Update e => match t !! Key e with Some _ => Some (<[Key e := e]> t) | None => None end
  | Delete k => Some (delete k t)
  end.
Fixpoint apply_ops (t : table) (os : list jop) : option table :=
  match os with
  | [] => Some t
  | o :: os => t ← apply_op t o; apply_ops t os
  end.

(** A commit: its precondition on the table and its entries. *)
Inductive request :=
| Insert (e : E)
| Move (oldKey : gostring) (newEntry : E)
| DeleteKey (key : gostring) (c : option (E -> bool))
| UpdateEntry (e : E) (c : option (E -> bool)).

Inductive commit_error := ErrKeyExists | ErrNoSuchKey | ErrConstraint.

Definition with_constraint (t : table) (key : gostring) (c : option (E -> bool)) : option commit_error :=
  match t !! key with
  | None => Some ErrNoSuchKey
  | Some old => match c with
                | Some c => if c old then None else Some ErrConstraint
                | None => None
                end
  end.

(** [fn] of [commit]; [None] is the nil error. *)
Definition check (r : request) (t : table) : option commit_error :=
  match r with
  | Insert e => match t !! Key e with Some _ => Some ErrKeyExists | None => None end
  | Move oldKey newEntry =>
      match t !! oldKey with
      | None => Some ErrNoSuchKey
      | Some _ => match t !! Key newEntry with Some _ => Some ErrKeyExists | None => None end
      end
  | DeleteKey key c => with_constraint t key c
  | UpdateEntry e c => with_constraint t (Key e) c
  end.
Definition ops_of (r : request) : list jop :=
  match r with
  | Insert e => [Add e]
  | Move oldKey newEntry => [Delete oldKey; Add newEntry]
  | DeleteKey key _ => [Delete key]
  | UpdateEntry e _ => [Update e]
  end.
End entries.
Arguments jop : clear implicits.
Arguments request : clear implicits.

(** The ZNG serialization of a list of entries: the journal stores what it
    writes and the store reads it back. *)
Class Codec (A : Type) := {
  enc : A -> list byte;
  dec : list byte -> option A;
  dec_enc a : dec (enc a) = Some a;
}.

(** ** The queue ([queue.go], [reader.go]) *)

Definition maxRetries : nat := 10.

Section journal.
Context {E : Type} (Key : E -> gostring) `{!Codec (list (jop E))}.
Local Abbreviation table := (gmap gostring E).

(** The objects of a journal's directory.  [atomic]: the engine supports
    [PutIfNotExists]. *)
Record Queue := mkQueue {
  HEAD : Z;
  TAIL : Z;
  objects : gmap Z (list byte);
  snap : option (Z * table);
  atomic : bool;
}.

Inductive jerror :=
| ErrExist | ErrNotExist | ErrUpdateMissing | ErrUnmarshal
| ErrCommit (e : commit_error) | ErrRetriesExceeded | ErrReadDiverges.

Definition Create (atomic : bool) : Queue := mkQueue 0 1 ∅ None atomic.

Definition ReadHead (q : Queue) : Z := HEAD q.
Definition writeHead (id : Z) (q : Queue) : Queue := mkQueue id (TAIL q) (objects q) (snap q) (atomic q).
Definition ReadTail (q : Queue) : Z := TAIL q.
Definition writeTail (id : Z) (q : Queue) : Queue := mkQueue (HEAD q) id (objects q) (snap q) (atomic q).
Definition MoveTail (id : Z) (q : Queue) : Queue := writeTail id q.
Definition Boundaries (q : Queue) : Z * Z := (ReadHead q, ReadTail q).

Definition Load (id : Z) (q : Queue) : outcome jerror (list byte) :=
  match objects q !! id with Some b => Ok b | None => Err ErrNotExist end.

(** The engine's part of [CommitAt]: [PutIfNotExists], or where the engine
    does not support it an unconditional [Put]. *)
Definition put_entry (at_ : Z) (b : list byte) (q : Queue) : outcome jerror Queue :=
  let id := u64 (at_ + 1) in
  if atomic q then
    match objects q !! id with
    | Some _ => Err ErrExist
    | None => Ok (mkQueue (HEAD q) (TAIL q) (<[id := b]> (objects q)) (snap q) (atomic q))
    end
  else Ok (mkQueue (HEAD q) (TAIL q) (<[id := b]> (objects q)) (snap q) (atomic q)).

Definition CommitAt (at_ : Z) (b : list byte) (q : Queue) : outcome jerror Queue :=
  q ← put_entry at_ b q; Ok (writeHead (u64 (at_ + 1)) q).
Definition Commit (b : list byte) (q : Queue) : outcome jerror (Z * Queue) :=
  let head := ReadHead q in
  q ← CommitAt head b q; Ok (u64 (head + 1), q).

(** [NewReader] starts at [tail - 1]; [fill] moves the cursor until it reaches
    [stop].  The store reads the ZNG values of the files in sequence: each
    file's entries are applied to the table in turn.  [cursor] is unsigned, so
    for a tail of 0 it starts at the largest id and nothing is read. *)
Fixpoint replay (fuel : nat) (cursor stop : Z) (q : Queue) (t : table) : outcome jerror table :=
  if stop <=? cursor then Ok t
  else match fuel with
       | O => Err ErrReadDiverges
       | S fuel =>
           let cursor := cursor + 1 in
           b ← Load cursor q;
           match dec b with
           | None => Err ErrUnmarshal
           | Some os =>
               match apply_ops Key t os with
               | None => Err ErrUpdateMissing
               | Some t => replay fuel cursor stop q t
               end
           end
       end.

(** [Queue.Open] and the loop of [load] over what it reads; the nil head is
    read again. *)
Definition open_replay (head tail : Z) (q : Queue) (t : table) : outcome jerror table :=
  let head := if head =? 0 then ReadHead q else head in
  if head =? 0 then Ok t
  else
    let tail := if tail =? 0 then ReadTail q else tail in
    let cursor := u64 (tail - 1) in
    replay (Z.to_nat (head - cursor)) cursor head q t.

(** ** The store ([store.go]) *)

(** What the mutex of a [Store] protects; [loadTime] is not modelled: whether
    the table is [stale] is an argument of [Lookup]. *)
Record Store := mkStore { s_table : table; s_at : Z }.
Definition newStore : Store := mkStore ∅ 0.

(** [getSnapshot]: an absent snapshot is [Nil] and the empty table. *)
Definition getSnapshot (q : Queue) : Z * table :=
  match snap q with Some s => s | None => (0, ∅) end.
Definition putSnapshot (at_ : Z) (t : table) (q : Queue) : Queue :=
  mkQueue (HEAD q) (TAIL q) (objects q) (Some (at_, t)) (atomic q).

(** [head-at > 10] on unsigned ids. *)
Definition wants_snapshot (head at_ : Z) : bool := 10 <? u64 (head - at_).

(** [load] after the snapshot was read. *)
Definition load_finish (head at_ : Z) (t : table) (q : Queue) : outcome jerror Store :=
  t ← open_replay head at_ q t; Ok (mkStore t head).

Definition load (q : Queue) (s : Store) : outcome jerror (Queue * Store) :=
  let head := ReadHead q in
  if head =? s_at s then Ok (q, s)
  else
    let '(at_, t) := getSnapshot q in
    s ← load_finish head at_ t q;
    Ok (if wants_snapshot head at_ then putSnapshot head (s_table s) q else q, s).

Definition Keys (q : Queue) (s : Store) : outcome jerror (list gostring * (Queue * Store)) :=
  '(q, s) ← load q s; Ok (map fst (map_to_list (s_table s)), (q, s)).
Definition All (q : Queue) (s : Store) : outcome jerror (list E * (Queue * Store)) :=
  '(q, s) ← load q s; Ok (map snd (map_to_list (s_table s)), (q, s)).

Definition Lookup (stale : bool) (key : gostring) (q : Queue) (s : Store) : outcome jerror (E * (Queue * Store)) :=
  '(q, s) ← (if stale then load q s else Ok (q, s));
  match s_table s !! key with
  | Some e => Ok (e, (q, s))
  | None =>
      if stale then Err (ErrCommit ErrNoSuchKey)
      else
        '(q, s) ← load q s;
        match s_table s !! key with
        | Some e => Ok (e, (q, s))
        | None => Err (ErrCommit ErrNoSuchKey)
        end
  end.

(** The retry loop of [commit]. *)
Fixpoint commit_loop (attempts : nat) (r : request E) (q : Queue) (s : Store) : outcome jerror (Queue * Store) :=
  match attempts with
  | O => Err ErrRetriesExceeded
  | S attempts =>
      '(q, s) ← load q s;
      match check Key r (s_table s) with
      | Some e => Err (ErrCommit e)
      | None =>
          match CommitAt (s_at s) (enc (ops_of r)) q with
          | Ok q => Ok (q, mkStore (s_table s) 0)
          | Err ErrExist => commit_loop attempts r q s
          | Err e => Err e
          | Panic => Panic
          end
      end
  end.
Definition commit (r : request E) (q : Queue) (s : Store) : outcome jerror (Queue * Store) :=
  commit_loop maxRetries r q s.
End journal.
Arguments Queue : clear implicits.
Arguments Store : clear implicits.

(** ** Interleaving

    A goroutine that commits (or only loads) is a [thread] of a process; the
    processes share the journal's directory, the threads of a process its
    [Store].  [act] performs one storage call or one critical section of the
    mutex; [load] and [commit] are the sequences of these that [run_thread]
    performs, cut where another goroutine can intervene. *)

Module Steps.
Section steps.
Context {E : Type} (Key : E -> gostring) `{!Codec (list (jop E))}.
Local Abbreviation table := (gmap gostring E).

Inductive pc :=
| PStart                          (* load: about to read HEAD *)
| PRead (h : Z)                   (* about to compare with s.at *)
| PStale (h : Z)                  (* about to read the snapshot *)
| PSnap (h a : Z) (t : table)     (* about to replay and set the table *)
| PPut (h : Z) (t : table)        (* about to write a snapshot *)
| PLoaded                         (* load returned nil *)
| PChecked (at_ : Z)              (* fn returned nil on the table at at_ *)
| PWritten (at_ : Z)              (* entry written, HEAD is not *)
| PHead                           (* about to reset s.at *)
| PDone
| PFailed (e : jerror).

Record thread := mkThread { t_proc : nat; t_req : option (request E); t_tries : nat; t_pc : pc }.
Record world := mkWorld { w_q : Queue E; w_stores : gmap nat (Store E); w_threads : gmap nat thread }.

Definition init (q : Queue E) : world := mkWorld q ∅ ∅.

(** One step of a thread: the queue, the store and the thread it leaves.  Each
    read or write of an object ([ReadHead], [getSnapshot], [putSnapshot],
    [put_entry], [writeHead]) is one step, so atomic; the replay of [load] is
    one step too, because no entry it reads is written twice under a
    [PutIfNotExists] ([JournalProps.journal_head]). *)
Definition run_thread (q : Queue E) (s : Store E) (t : thread) : option (Queue E * Store E * thread) :=
let goto p := mkThread (t_proc t) (t_req t) (t_tries t) p in
match t_pc t with
| PStart => Some (q, s, goto (PRead (ReadHead q)))
| PRead h => Some (q, s, goto (if h =? s_at s then PLoaded else PStale h))
| PStale h => let '(a, tbl) := getSnapshot q in Some (q, s, goto (PSnap h a tbl))
| PSnap h a tbl =>
    match load_finish Key h a tbl q with
    | Ok s' => Some (q, s', goto (if wants_snapshot h a then PPut h (s_table s') else PLoaded))
    | Err e => Some (q, s, goto (PFailed e))
    | Panic => None
    end
| PPut h tbl => Some (putSnapshot h tbl q, s, goto PLoaded)
| PLoaded =>
    match t_req t with
    | None => Some (q, s, goto PDone)
    | Some r =>
        match check Key r (s_table s) with
        | Some e => Some (q, s, goto (PFailed (ErrCommit e)))
        | None => Some (q, s, goto (PChecked (s_at s)))
        end
    end
| PChecked a =>
    match t_req t with
    | None => None
    | Some r =>
        match put_entry a (enc (ops_of r)) q with
        | Ok q' => Some (q', s, goto (PWritten a))
        | Err ErrExist =>
            match t_tries t with
            | S (S n) => Some (q, s, mkThread (t_proc t) (t_req t) (S n) PStart)
            | _ => Some (q, s, goto (PFailed ErrRetriesExceeded))
            end
        | Err e => Some (q, s, goto (PFailed e))
        | Panic => None
        end
    end
| PWritten a => Some (writeHead (u64 (a + 1)) q, s, goto PHead)
| PHead => Some (q, mkStore (s_table s) 0, goto PDone)
| PDone | PFailed _ => None
end.

Inductive action :=
| AOpen (p : nat)                                   (* a process opens the store *)
| ASpawn (tid p : nat) (r : option (request E))
| ARun (tid : nat)
| ACrash (tid : nat).                               (* the goroutine is gone *)

Definition act (a : action) (w : world) : option world :=
match a with
| AOpen p => Some (mkWorld (w_q w) (<[p := newStore]> (w_stores w)) (w_threads w))
| ASpawn tid p r =>
    match w_threads w !! tid with
    | Some _ => None
    | None => Some (mkWorld (w_q w) (w_stores w) (<[tid := mkThread p r maxRetries PStart]> (w_threads w)))
    end
| ARun tid =>
    t ← w_threads w !! tid;
    s ← w_stores w !! t_proc t;
    '(q, s, t') ← run_thread (w_q w) s t;
    Some (mkWorld q (<[t_proc t := s]> (w_stores w)) (<[tid := t']> (w_threads w)))
| ACrash tid => Some (mkWorld (w_q w) (w_stores w) (delete tid (w_threads w)))
end.

Definition step (w w' : world) : Prop := exists a, act a w = Some w'.

Fixpoint run (acts : list action) (w : world) : option world :=
match acts with
| [] => Some w
| a :: acts => w ← act a w; run acts w
end.
End steps.
End Steps.
