(* ===== verification/JournalProofs.v ===== *)
(** * The journal: commits are serializable

    Whatever the interleaving of goroutines, processes, crashes and snapshot
    writes, the entries of a journal are requests each of which was checked on
    the table that replaying its predecessors gives.  HEAD is the last entry or
    the one before it. *)

From S2P Require Import Prelude Journal.
Local Open Scope Z_scope.

Section proofs.
Context {E : Type} (Key : E -> gostring) `{!Codec (list (jop E))}.
Local Abbreviation table := (gmap gostring E).
Local Abbreviation ops := (list (jop E)).

(** ** Specification

    A log is the list of the requests committed so far.  [lw] is the last
    write of a list of operations to a key. *)

Definition write_of (o : jop E) : gostring * option E :=
  match o with
  | Add e | Update e => (Key e, Some e)
  | Delete k => (k, None)
  end.

Fixpoint lw (os : ops) (k : gostring) : option (option E) :=
  match os with
  | [] => None
  | o :: os =>
      match lw os k with
      | Some v => Some v
      | None => if decide ((write_of o).1 = k) then Some (write_of o).2 else None
      end
  end.

(** The operations of the entries [i+1..j] of a log. *)
Definition rng (log : list (request E)) (i j : nat) : ops := concat (map ops_of (drop i (take j log))).

(** The table after the first [j] entries. *)
Definition upto (log : list (request E)) (j : nat) : option table := apply_ops Key ∅ (rng log 0 j).

(** Every request was checked on the table of its predecessors. *)
Definition serializable (log : list (request E)) : Prop :=
  forall i r, log !! i = Some r -> exists t, upto log i = Some t /\ check Key r t = None.

(** The objects of the journal are the entries of the log. *)
Definition holds (log : list (request E)) (q : Queue E) : Prop :=
  forall id b, objects q !! id = Some b <->
    1 <= id /\ exists r, log !! Z.to_nat (id - 1) = Some r /\ b = enc (ops_of r).

(** ** Writes *)

Lemma lw_app a b k : lw (a ++ b) k = match lw b k with Some v => Some v | None => lw a k end.
Proof.
  induction a as [|o a IH]; simpl; [by destruct (lw b k)|]. rewrite IH. by destruct (lw b k).
Qed.

Lemma apply_ops_lookup os : forall t t' k,
  apply_ops Key t os = Some t' -> t' !! k = match lw os k with Some v => v | None => t !! k end.
Proof.
  induction os as [|o os IH]; intros t t' k; simpl; [by intros [= <-]|].
  intros H. apply bind_Some in H as (t1 & H1 & H). rewrite (IH t1 t' k H).
  destruct (lw os k); [done|]. destruct o as [e|e|d]; simpl in *.
  - injection H1 as <-. case_decide; [subst; by rewrite lookup_insert_eq|by rewrite lookup_insert_ne].
  - destruct (t !! Key e); [|done]. injection H1 as <-.
    case_decide; [subst; by rewrite lookup_insert_eq|by rewrite lookup_insert_ne].
  - injection H1 as <-. case_decide; [subst; by rewrite lookup_delete_eq|by rewrite lookup_delete_ne].
Qed.

Lemma apply_ops_app a b t : apply_ops Key t (a ++ b) = (t ← apply_ops Key t a; apply_ops Key t b).
Proof.
  revert t. induction a as [|o a IH]; intros t; [done|]. simpl. destruct (apply_op Key t o); [|done]. apply IH.
Qed.

Lemma rng_app log i j k : (i <= j <= k)%nat -> rng log i k = rng log i j ++ rng log j k.
Proof.
  intros H. unfold rng. rewrite <- concat_app, <- map_app. f_equal. f_equal.
  assert (Hd : take j log = take j (take k log)) by (rewrite take_take; f_equal; lia).
  rewrite Hd. set (l := take k log). clearbody l. rewrite <- (take_drop j l) at 1.
  destruct (decide (i <= length (take j l))%nat) as [Hi|Hi].
  - by rewrite drop_app_le by done.
  - rewrite drop_app_ge by lia. rewrite length_take in Hi |- *.
    rewrite (drop_ge (take j l)) by (rewrite length_take; lia).
    rewrite !drop_ge; [done|lia|rewrite length_drop; lia].
Qed.

Lemma rng_empty log i j : (j <= i)%nat -> rng log i j = [].
Proof. intros. unfold rng. rewrite drop_ge; [done|]. rewrite length_take. lia. Qed.

Lemma rng_snoc log i j r : (i <= j)%nat -> log !! j = Some r -> rng log i (S j) = rng log i j ++ ops_of r.
Proof.
  intros Hi Hr. rewrite (rng_app log i j (S j)) by lia. f_equal. unfold rng.
  rewrite (take_S_r _ _ r) by done. rewrite drop_app_length' by (rewrite length_take; apply lookup_lt_Some in Hr; lia).
  simpl. by rewrite app_nil_r.
Qed.

Lemma rng_log_app log r i j : (j <= length log)%nat -> rng (log ++ [r]) i j = rng log i j.
Proof. intros. unfold rng. by rewrite take_app_le. Qed.

Lemma upto_log_app log r j : (j <= length log)%nat -> upto (log ++ [r]) j = upto log j.
Proof. intros. unfold upto. by rewrite rng_log_app. Qed.

(** What a checked request does to the table. *)
Lemma check_applies r t : check Key r t = None -> exists t', apply_ops Key t (ops_of r) = Some t'.
Proof.
  destruct r as [e|o e|k c|e c]; simpl.
  - intros _. eauto.
  - intros _. eauto.
  - intros _. eauto.
  - unfold with_constraint. destruct (t !! Key e) eqn:Ek; [|done]. intros _. simpl. eauto.
Qed.

(** Applying a request's entry again changes nothing. *)
Lemma check_reapply r t t' :
  check Key r t = None -> apply_ops Key t (ops_of r) = Some t' -> apply_ops Key t' (ops_of r) = Some t'.
Proof.
  destruct r as [e|o e|k c|e c]; simpl.
  - intros _ [= <-]. by rewrite insert_insert_eq.
  - destruct (t !! o) eqn:Eo; [|done]. destruct (t !! Key e) eqn:Ee; [done|]. intros _ [= <-].
    assert (o <> Key e) by (intros ->; congruence). f_equal.
    rewrite delete_insert_ne by done. by rewrite delete_delete_eq, insert_insert_eq.
  - intros _ [= <-]. f_equal. by rewrite delete_delete_eq.
  - intros _. destruct (t !! Key e) eqn:Ek; simpl; [|done]. intros [= <-].
    rewrite lookup_insert_eq. simpl. by rewrite insert_insert_eq.
Qed.

Lemma serializable_upto log j : serializable log -> (j <= length log)%nat -> exists t, upto log j = Some t.
Proof.
  intros Hs. induction j as [|j IH]; intros Hj.
  - exists ∅. unfold upto. by rewrite rng_empty.
  - destruct (lookup_lt_is_Some_2 log j) as [r Hr]; [lia|]. destruct (Hs j r Hr) as (t & Ht & Hc).
    destruct (check_applies r t Hc) as [t' Ht']. exists t'. unfold upto in *.
    rewrite (rng_snoc _ _ _ r) by (done || lia). rewrite apply_ops_app, Ht. exact Ht'.
Qed.

Lemma serializable_snoc log r t :
  serializable log -> upto log (length log) = Some t -> check Key r t = None -> serializable (log ++ [r]).
Proof.
  intros Hs Ht Hc i r' Hr. destruct (decide (i < length log)%nat) as [Hi|Hi].
  - rewrite lookup_app_l in Hr by done. destruct (Hs i r' Hr) as (t' & Ht' & Hc').
    exists t'. split; [|done]. by rewrite upto_log_app by lia.
  - assert (i = length log) as -> by (apply lookup_lt_Some in Hr; rewrite length_app in Hr; simpl in Hr; lia).
    rewrite lookup_app_r, Nat.sub_diag in Hr by lia. injection Hr as <-. exists t. split; [|done]. by rewrite upto_log_app.
Qed.

(** The value of a key in [upto]. *)
Definition val_at (log : list (request E)) (j : nat) (k : gostring) : option E :=
  default None (lw (rng log 0 j) k).

Lemma upto_lookup log j t k : upto log j = Some t -> t !! k = val_at log j k.
Proof. intros H. unfold val_at. rewrite (apply_ops_lookup _ _ _ k H). by destruct (lw _ k) as [[v|]|]. Qed.

Lemma val_at_app log i j k :
  (i <= j)%nat -> val_at log j k = match lw (rng log i j) k with Some v => v | None => val_at log i k end.
Proof.
  intros H. unfold val_at. rewrite (rng_app log 0 i j) by lia. rewrite lw_app. by destruct (lw (rng log i j) k).
Qed.

(** ** Snapshots

    [covers log l t m]: the table [t], labelled [l], agrees with the log at [m]
    on every key that the entries from [l] to [m] leave alone.  A snapshot
    written under a stale label still has this much. *)
Definition from (l : nat) : nat := (Nat.max l 1 - 1)%nat.
Definition covers (log : list (request E)) (l : nat) (t : table) (m : nat) : Prop :=
  (l <= m <= length log)%nat /\ forall k, lw (rng log (from l) m) k = None -> t !! k = val_at log m k.

Lemma covers_log_app log r l t m : covers log l t m -> covers (log ++ [r]) l t m.
Proof.
  intros [Hl Hc]. split; [rewrite length_app; lia|]. intros k. unfold val_at. rewrite !rng_log_app by lia. apply Hc.
Qed.

(** Replaying the entries from the label to [h'] over such a table. *)
Lemma covers_replay log a t m h h' t' :
  covers log a t m -> (h <= h' <= length log)%nat -> (1 <= h')%nat ->
  apply_ops Key t (rng log (from a) h') = Some t' ->
  covers log h t' (Nat.max m h') /\ (h = h' -> (m <= h)%nat -> forall k, t' !! k = val_at log h k).
Proof.
  intros [Ham Hc] Hh Hh1 Ht'. assert (Hlk := fun k => apply_ops_lookup _ _ _ k Ht'). split.
  - split; [lia|]. intros k Hk. rewrite Hlk. unfold from in *.
    assert (Hsub : lw (rng log (Nat.max h 1 - 1) h') k = None).
    { rewrite (rng_app log _ h') in Hk by lia. rewrite lw_app in Hk. by destruct (lw (rng log h' _) k). }
    assert (HM : val_at log (Nat.max m h') k = val_at log (Nat.max h 1 - 1) k).
    { rewrite (val_at_app log (Nat.max h 1 - 1)) by lia. by rewrite Hk. }
    rewrite HM. destruct (decide (Nat.max a 1 - 1 <= Nat.max h 1 - 1)%nat) as [Hle|Hgt].
    + rewrite (rng_app log _ (Nat.max h 1 - 1) h') by lia. rewrite lw_app, Hsub.
      rewrite (val_at_app log (Nat.max a 1 - 1) (Nat.max h 1 - 1)) by lia.
      destruct (lw (rng log (Nat.max a 1 - 1) (Nat.max h 1 - 1)) k) as [v|] eqn:E1; [done|].
      assert (Hnone : lw (rng log (Nat.max a 1 - 1) (Nat.max m h')) k = None).
      { rewrite (rng_app log _ (Nat.max h 1 - 1)) by lia. rewrite lw_app, Hk. done. }
      rewrite (rng_app log _ m) in Hnone by lia. rewrite lw_app in Hnone.
      destruct (lw (rng log m _) k) eqn:E2; [done|]. rewrite (Hc k Hnone).
      rewrite (val_at_app log (Nat.max a 1 - 1) m) by lia. by rewrite Hnone.
    + assert (Hn1 : lw (rng log (Nat.max a 1 - 1) h') k = None).
      { destruct (decide (Nat.max a 1 - 1 <= h')%nat) as [Hle|Hgt2]; [|by rewrite rng_empty by lia].
        rewrite (rng_app log _ (Nat.max a 1 - 1)) in Hsub by lia. rewrite lw_app in Hsub.
        by destruct (lw (rng log (Nat.max a 1 - 1) h') k). }
      rewrite Hn1.
      assert (Hnone : lw (rng log (Nat.max a 1 - 1) m) k = None).
      { rewrite (rng_app log _ (Nat.max a 1 - 1)) in Hk by lia. rewrite lw_app in Hk.
        destruct (lw (rng log (Nat.max a 1 - 1) (Nat.max m h')) k) eqn:E1; [done|].
        rewrite (rng_app log _ m) in E1 by lia. rewrite lw_app in E1. by destruct (lw (rng log m _) k). }
      rewrite (Hc k Hnone). rewrite <- HM.
      rewrite (val_at_app log m (Nat.max m h')) by lia.
      destruct (lw (rng log m (Nat.max m h')) k) eqn:E2; [|done]. exfalso.
      rewrite (rng_app log _ m) in Hk by lia. rewrite lw_app, E2 in Hk. done.
  - intros -> Hm k. rewrite Hlk. unfold from in *. rewrite (val_at_app log (Nat.max a 1 - 1)) by lia.
    destruct (lw (rng log (Nat.max a 1 - 1) h') k) as [v|] eqn:E1; [done|].
    rewrite (rng_app log _ m) in E1 by lia. rewrite lw_app in E1. destruct (lw (rng log m h') k) eqn:E2; [done|].
    rewrite (Hc k E1). rewrite (val_at_app log (Nat.max a 1 - 1) m) by lia. by rewrite E1.
Qed.

(** ** Reading the journal *)

Lemma holds_Load log q id r :
  holds log q -> 1 <= id -> log !! Z.to_nat (id - 1) = Some r -> Load id q = Ok (enc (ops_of r)).
Proof.
  intros Hh Hid Hr. unfold Load.
  assert (objects q !! id = Some (enc (ops_of r))) as -> by (apply Hh; eauto). done.
Qed.

Lemma replay_rng log q fuel : forall cursor stop t,
  holds log q -> 0 <= cursor -> stop <= Z.of_nat (length log) -> stop - cursor <= Z.of_nat fuel ->
  replay Key fuel cursor stop q t =
  match apply_ops Key t (rng log (Z.to_nat cursor) (Z.to_nat stop)) with
  | Some t' => Ok t'
  | None => Err ErrUpdateMissing
  end.
Proof.
  induction fuel as [|fuel IH]; intros cursor stop t Hh Hc Hs Hf; cbn [replay].
  { destruct (Z.leb_spec stop cursor); [|lia]. by rewrite rng_empty by lia. }
  destruct (Z.leb_spec stop cursor); [by rewrite rng_empty by lia|].
  destruct (lookup_lt_is_Some_2 log (Z.to_nat cursor)) as [r Hr]; [lia|].
  rewrite (holds_Load log q (cursor + 1) r) by (try done; try lia; by replace (cursor + 1 - 1) with cursor by lia).
  cbn [mbind outcome_bind obind]. rewrite dec_enc.
  rewrite (rng_app log (Z.to_nat cursor) (S (Z.to_nat cursor))) by lia.
  rewrite (rng_snoc log _ _ r) by (done || lia). rewrite (rng_empty log (Z.to_nat cursor) (Z.to_nat cursor)) by lia.
  cbn [app]. rewrite apply_ops_app. destruct (apply_ops Key t (ops_of r)) as [t1|]; [|done].
  cbn [mbind option_bind]. rewrite IH by (done || lia). by replace (Z.to_nat (cursor + 1)) with (S (Z.to_nat cursor)) by lia.
Qed.

(** [Open] and replay, from a snapshot label [a] up to [h]. *)
Lemma open_replay_rng log q a h t :
  holds log q -> TAIL q = 1 -> 0 <= a -> 0 <= h -> HEAD q <= Z.of_nat (length log) -> h <= HEAD q -> a < 2 ^ 64 ->
  let h' := if h =? 0 then HEAD q else h in
  open_replay Key h a q t =
  match apply_ops Key t (rng log (from (Z.to_nat a)) (Z.to_nat h')) with
  | Some t' => Ok t'
  | None => Err ErrUpdateMissing
  end.
Proof.
  intros Hh Ht Ha H0 Hl Hle Ha64 h'. unfold open_replay, ReadHead, ReadTail. fold h'.
  destruct (Z.eqb_spec h' 0) as [E0|E0]; [rewrite E0; by rewrite rng_empty by (simpl; lia)|].
  assert (Hh' : 0 < h' <= Z.of_nat (length log)) by (subst h'; zcases; lia).
  rewrite Ht. set (tail := if a =? 0 then 1 else a).
  assert (Htail : u64 (tail - 1) = Z.of_nat (from (Z.to_nat a))).
  { unfold from. subst tail. destruct (Z.eqb_spec a 0); rewrite u64_id by lia; lia. }
  rewrite Htail. rewrite (replay_rng log) by (done || lia). by rewrite Nat2Z.id.
Qed.

(** ** The invariant *)

Import Steps.

Definition store_ok (log : list (request E)) (s : Store E) : Prop :=
  0 <= s_at s <= Z.of_nat (length log) /\
  ((forall k, s_table s !! k = val_at log (Z.to_nat (s_at s)) k) \/ s_at s < Z.of_nat (length log)).

Definition pc_ok (log : list (request E)) (q : Queue E) (t : thread) : Prop :=
  match t_pc t with
  | PStart | PLoaded | PHead | PDone | PFailed _ => True
  | PRead h | PStale h => 0 <= h <= HEAD q
  | PSnap h a tbl => 0 <= h <= HEAD q /\ 0 <= a <= HEAD q /\ exists m, covers log (Z.to_nat a) tbl m
  | PPut h tbl => 0 <= h <= HEAD q /\ exists m, covers log (Z.to_nat h) tbl m
  | PChecked a =>
      0 <= a <= HEAD q /\
      exists r, t_req t = Some r /\
        ((exists tbl, upto log (Z.to_nat a) = Some tbl /\ check Key r tbl = None) \/ a < Z.of_nat (length log))
  | PWritten a => a = HEAD q /\ Z.of_nat (length log) = HEAD q + 1
  end.

Definition writing (t : thread (E := E)) : bool := match t_pc t with PWritten _ => true | _ => false end.

Record inv (log : list (request E)) (w : world) : Prop := {
  inv_holds : holds log (w_q w);
  inv_atomic : atomic (w_q w) = true;
  inv_tail : TAIL (w_q w) = 1;
  inv_serial : serializable log;
  inv_head : 0 <= HEAD (w_q w) <= Z.of_nat (length log) /\ Z.of_nat (length log) <= HEAD (w_q w) + 1;
  inv_snap l t : snap (w_q w) = Some (l, t) -> 0 <= l <= HEAD (w_q w) /\ exists m, covers log (Z.to_nat l) t m;
  inv_stores p s : w_stores w !! p = Some s -> store_ok log s /\ s_at s <= HEAD (w_q w);
  inv_threads i t : w_threads w !! i = Some t -> pc_ok log (w_q w) t;
  inv_writing i j t u : w_threads w !! i = Some t -> w_threads w !! j = Some u ->
    writing t = true -> writing u = true -> i = j;
}.

Lemma covers_empty log : covers log 0 ∅ 0.
Proof. split; [lia|]. intros k _. unfold val_at. by rewrite rng_empty by lia. Qed.

Lemma getSnapshot_ok log q :
  0 <= HEAD q -> (forall l t, snap q = Some (l, t) -> 0 <= l <= HEAD q /\ exists m, covers log (Z.to_nat l) t m) ->
  0 <= (getSnapshot q).1 <= HEAD q /\ exists m, covers log (Z.to_nat (getSnapshot q).1) (getSnapshot q).2 m.
Proof.
  intros Hh Hs. unfold getSnapshot. destruct (snap q) as [[l t]|]; [by apply Hs|]. split; [simpl; lia|].
  exists 0%nat. apply covers_empty.
Qed.

(** What a load puts in the store. *)
Lemma load_finish_ok log q h a t s :
  holds log q -> TAIL q = 1 -> 0 <= HEAD q <= Z.of_nat (length log) -> Z.of_nat (length log) < 2 ^ 64 ->
  0 <= h <= HEAD q -> 0 <= a <= HEAD q -> (exists m, covers log (Z.to_nat a) t m) ->
  load_finish Key h a t q = Ok s ->
  s_at s = h /\ store_ok log s /\ exists m, covers log (Z.to_nat h) (s_table s) m.
Proof.
  intros Hh Ht Hl H64 Hh0 Ha [m Hc]. unfold load_finish.
  pose proof (open_replay_rng log q a h t Hh Ht ltac:(lia) ltac:(lia) ltac:(lia) ltac:(lia) ltac:(lia)) as Hr.
  cbv zeta in Hr. set (h' := if h =? 0 then HEAD q else h) in *. rewrite Hr.
  destruct (apply_ops Key t _) as [t'|] eqn:Eap; cbn [mbind outcome_bind obind]; [|done]. intros [= <-]. simpl.
  split; [done|]. destruct (decide (1 <= h')) as [H1|H1].
  - destruct (covers_replay log (Z.to_nat a) t m (Z.to_nat h) (Z.to_nat h') t' Hc) as [Hc' Hv];
      [subst h'; zcases; lia|lia|done|]. split; [|eauto]. split; [simpl; lia|]. simpl.
    destruct Hc as [[_ Hm] _]. destruct (decide (h = h')) as [Eh|Hne]; [|right; subst h'; zcases; lia].
    destruct (decide (m <= Z.to_nat h)%nat) as [Hmh|Hmh]; [left|right; lia]. apply Hv; [by f_equal|done].
  - assert (h = 0 /\ HEAD q = 0) as [-> H0] by (subst h'; zcases; lia).
    assert (a = 0) as -> by lia.
    assert (h' = 0) as Eh' by (subst h'; simpl; lia).
    rewrite Eh', rng_empty in Eap by (simpl; lia). injection Eap as <-.
    split; [|exists m; exact Hc]. split; [simpl; lia|]. simpl. destruct Hc as [[_ Hm] Hc].
    destruct (decide (m = 0)%nat) as [->|]; [left|right; lia]. intros k. apply Hc. by rewrite rng_empty by lia.
Qed.

(** *** The invariant is kept *)

Lemma store_ok_app log r s : store_ok log s -> store_ok (log ++ [r]) s.
Proof.
  unfold store_ok. rewrite length_app. simpl. intros [Hs [Ht|Ht]]; (split; [lia|]); [left|right; lia].
  intros k. rewrite Ht. unfold val_at. by rewrite rng_log_app by lia.
Qed.

(** A thread that is not between writing its entry and HEAD keeps its
    condition when the log or HEAD grow. *)
Lemma pc_ok_app log r q q' t :
  pc_ok log q t -> writing t = false -> HEAD q <= HEAD q' -> HEAD q <= Z.of_nat (length log) -> pc_ok (log ++ [r]) q' t.
Proof.
  unfold pc_ok, writing. destruct (t_pc t) as [|h|h|h a tbl|h tbl| |a|a| | |e]; try done; try lia.
  - intros (H1 & H2 & m & Hc) _ Hh _. split; [lia|]. split; [lia|]. exists m. by apply covers_log_app.
  - intros (H1 & m & Hc) _ Hh _. split; [lia|]. exists m. by apply covers_log_app.
  - intros (H1 & r' & Hr & Hcase) _ Hh Hl. rewrite length_app. simpl. split; [lia|]. exists r'. split; [done|].
    destruct Hcase as [(tbl & Hu & Hc)|Hlt]; [|right; lia]. left. exists tbl. split; [|done]. by rewrite upto_log_app by lia.
Qed.

Lemma pc_ok_head log q q' t :
  pc_ok log q t -> writing t = false -> HEAD q <= HEAD q' -> pc_ok log q' t.
Proof.
  unfold pc_ok, writing. destruct (t_pc t) as [|h|h|h a tbl|h tbl| |a|a| | |e]; try done; try lia.
  - intros (H1 & H2 & Hm) _ Hh. split; [lia|]. split; [lia|done].
  - intros (H1 & Hm) _ Hh. split; [lia|done].
  - intros (H1 & Hm) _ Hh. split; [lia|done].
Qed.

Lemma pc_ok_same log q q' t : HEAD q = HEAD q' -> pc_ok log q t -> pc_ok log q' t.
Proof. unfold pc_ok. intros ->. done. Qed.

(** The effect of one step of a thread on what it shares. *)
Inductive effect (log : list (request E)) (q : Queue E) (s : Store E) (t : thread) : list (request E) -> Queue E -> Store E -> Prop :=
| eff_none : effect log q s t log q s
| eff_store s' : store_ok log s' -> s_at s' <= HEAD q -> effect log q s t log q s'
| eff_snap h tbl : 0 <= h <= HEAD q -> (exists m, covers log (Z.to_nat h) tbl m) ->
    effect log q s t log (putSnapshot h tbl q) s
| eff_put r : t_req t = Some r -> HEAD q = Z.of_nat (length log) -> (exists tbl, upto log (length log) = Some tbl /\ check Key r tbl = None) ->
    effect log q s t (log ++ [r]) (mkQueue (HEAD q) (TAIL q) (<[HEAD q + 1 := enc (ops_of r)]> (objects q)) (snap q) (atomic q)) s
| eff_head : writing t = true -> Z.of_nat (length log) = HEAD q + 1 -> effect log q s t log (writeHead (HEAD q + 1) q) s.

Lemma objects_fresh log q id :
  holds log q -> 0 <= id -> objects q !! (id + 1) = None -> Z.of_nat (length log) <= id.
Proof.
  intros Hh Hid Hn. destruct (Z.ltb_spec id (Z.of_nat (length log))); [|lia].
  destruct (lookup_lt_is_Some_2 log (Z.to_nat id)) as [r Hr]; [lia|].
  assert (objects q !! (id + 1) = Some (enc (ops_of r))) as Eo; [|congruence].
  apply Hh. split; [lia|]. exists r. by replace (id + 1 - 1) with id by lia.
Qed.

Lemma put_entry_fresh log q a b q' :
  holds log q -> atomic q = true -> 0 <= a -> a + 1 < 2 ^ 64 -> put_entry a b q = Ok q' ->
  Z.of_nat (length log) <= a /\ q' = mkQueue (HEAD q) (TAIL q) (<[a + 1 := b]> (objects q)) (snap q) (atomic q).
Proof.
  intros Hh Hat Ha H64. unfold put_entry. rewrite Hat, u64_id by lia.
  destruct (objects q !! (a + 1)) eqn:Eo; [done|]. intros [= <-]. split; [by eapply objects_fresh|done].
Qed.

Ltac conj4 := split; [|split; [|split]].

(** What a step of a thread does, and the condition it leaves the thread in. *)
Lemma run_thread_effect log w i t s q' s' t' :
  inv log w -> Z.of_nat (length log) + 1 < 2 ^ 64 ->
  w_threads w !! i = Some t -> w_stores w !! t_proc t = Some s ->
  run_thread Key (w_q w) s t = Some (q', s', t') ->
  exists log', effect log (w_q w) s t log' q' s' /\ pc_ok log' q' t' /\ t_proc t' = t_proc t /\
    (writing t' = true -> HEAD (w_q w) = Z.of_nat (length log)).
Proof.
  intros Hi H64 Ht Hs. pose proof (inv_threads _ _ Hi i t Ht) as Hpc. destruct (inv_stores _ _ Hi _ s Hs) as [Hst Hsat].
  pose proof (inv_head _ _ Hi) as Hh. unfold run_thread, pc_ok in *.
  destruct (t_pc t) as [|h|h|h a tbl|h tbl| |a|a| | |e] eqn:Et.
  - intros [= <- <- <-]. exists log. conj4; [constructor|simpl; unfold ReadHead; lia|done|done].
  - intros [= <- <- <-]. exists log. destruct (h =? s_at s); (conj4; [constructor|simpl; done|done|done]).
  - destruct (getSnapshot_ok log (w_q w) ltac:(lia) (inv_snap _ _ Hi)) as [Hl Hm].
    destruct (getSnapshot (w_q w)) as [a tbl]. intros [= <- <- <-]. exists log. conj4; [constructor|done|done|done].
  - destruct Hpc as (Hh0 & Ha & Hm). destruct (load_finish Key h a tbl (w_q w)) as [s1|e|] eqn:El; [| |done].
    + intros [= <- <- <-]. exists log.
      destruct (load_finish_ok log (w_q w) h a tbl s1 (inv_holds _ _ Hi) (inv_tail _ _ Hi)) as (Hs1 & Hso & Hm1); [lia|lia|done|done|done|done|].
      conj4; [constructor; [done|lia]| |done|by destruct (wants_snapshot h a)].
      destruct (wants_snapshot h a); [|done]. split; [done|]. exact Hm1.
    + intros [= <- <- <-]. exists log. conj4; [constructor|done|done|done].
  - destruct Hpc as [Hh0 Hm]. intros [= <- <- <-]. exists log. conj4; [by constructor|done|done|done].
  - destruct (t_req t) as [r|] eqn:Er; [|intros [= <- <- <-]; exists log; conj4; [constructor|done|done|done]].
    destruct (check Key r (s_table s)) as [e|] eqn:Ec; intros [= <- <- <-]; exists log; (conj4; [constructor| |done|done]); [done|].
    destruct Hst as [Hsat' Hcase]. split; [simpl; lia|]. exists r. split; [done|]. destruct Hcase as [Htab|Hlt]; [left|by right].
    destruct (serializable_upto log (Z.to_nat (s_at s)) (inv_serial _ _ Hi)) as [tb Htb]; [lia|]. exists tb. split; [done|].
    assert (s_table s = tb) as <-; [|done]. apply map_eq. intros k. rewrite Htab. by rewrite (upto_lookup log _ _ k Htb).
  - destruct Hpc as (Ha & r & Hr & Hcase). rewrite Hr. destruct (put_entry a (enc (ops_of r)) (w_q w)) as [q1|e|] eqn:Ep; [| |done].
    + destruct (put_entry_fresh log (w_q w) a (enc (ops_of r)) q1 (inv_holds _ _ Hi) (inv_atomic _ _ Hi) ltac:(lia) ltac:(lia) Ep) as [Hle ->].
      assert (a = HEAD (w_q w)) as -> by lia. assert (Hhd : HEAD (w_q w) = Z.of_nat (length log)) by lia.
      intros [= <- <- <-]. exists (log ++ [r]). conj4; [|simpl|done|done].
      * apply eff_put; [done|done|]. destruct Hcase as [Hc|]; [|lia]. rewrite Hhd, Nat2Z.id in Hc. done.
      * rewrite length_app. simpl. lia.
    + assert (Hne : t_pc t' = PStart \/ (exists e', t_pc t' = PFailed e')-> writing t' = false) by (unfold writing; intros [->|[? ->]]; done).
      destruct e; try (destruct (t_tries t) as [|[|n]]); intros [= <- <- <-]; exists log; conj4; (constructor || done).
  - destruct Hpc as [-> Hl]. rewrite u64_id by lia. intros [= <- <- <-]. exists log.
    conj4; [apply eff_head; [by unfold writing; rewrite Et|done]|done|done|done].
  - intros [= <- <- <-]. exists log. conj4; [apply eff_store|done|done|done]; [|simpl; lia].
    split; simpl; [lia|]. destruct (decide (0 < Z.of_nat (length log))) as [|Hz]; [by right|left].
    assert (length log = 0)%nat as Hl0 by lia. destruct Hst as [Hat [Htab|Hlt]]; [|lia].
    intros k. rewrite Htab. f_equal. lia.
  - done.
  - done.
Qed.

Lemma holds_snoc log q r :
  holds log q -> holds (log ++ [r]) (mkQueue (HEAD q) (TAIL q) (<[Z.of_nat (length log) + 1 := enc (ops_of r)]> (objects q)) (snap q) (atomic q)).
Proof.
  intros Hh id b. cbn [objects]. destruct (decide (id = Z.of_nat (length log) + 1)) as [->|Hne].
  - rewrite lookup_insert_eq. replace (Z.to_nat (Z.of_nat (length log) + 1 - 1)) with (length log) by lia.
    rewrite lookup_app_r, Nat.sub_diag by lia. split; [intros [= <-]; split; [lia|eauto]|].
    intros [_ (r' & [= <-] & ->)]. done.
  - rewrite lookup_insert_ne by done. rewrite (Hh id b). split; intros [Hid (r' & Hr & ->)]; (split; [done|]); exists r'; (split; [|done]).
    + by apply lookup_app_l_Some.
    + apply lookup_app_Some in Hr as [Hr|[Hge Hr]]; [done|]. apply list_lookup_singleton_Some in Hr as [Hz _]. lia.
Qed.

Lemma writing_ahead log q t : pc_ok log q t -> writing t = true -> Z.of_nat (length log) = HEAD q + 1.
Proof. unfold pc_ok, writing. destruct (t_pc t); try done. by intros [_ ?]. Qed.

Lemma effect_inv log w i t s log' q' s' t' :
  inv log w -> w_threads w !! i = Some t -> w_stores w !! t_proc t = Some s ->
  effect log (w_q w) s t log' q' s' -> pc_ok log' q' t' ->
  (writing t' = true -> HEAD (w_q w) = Z.of_nat (length log)) ->
  inv log' (mkWorld q' (<[t_proc t := s']> (w_stores w)) (<[i := t']> (w_threads w))).
Proof.
  intros Hi Ht Hs He Hpc Hw. destruct Hi as [H1 H2 H3 H4 H5 H6 H7 H8 H9].
  assert (Hothers : forall j u, j <> i -> w_threads w !! j = Some u -> pc_ok log' q' u).
  { intros j u Hne Hu. pose proof (H8 j u Hu) as Hok. destruct He as [|s1|h tbl Hh Hm|r Hr Hl Hc|Hwr Hl]; try done.
    - apply pc_ok_app with (w_q w); [done| |simpl; lia|lia].
      destruct (writing u) eqn:Ew; [|done]. pose proof (writing_ahead _ _ _ Hok Ew). lia.
    - apply pc_ok_head with (w_q w); [done| |simpl; lia]. destruct (writing u) eqn:Ew; [|done].
      exfalso. apply Hne. by apply (H9 j i u t). }
  assert (Hwriting : forall j u, j <> i -> w_threads w !! j = Some u -> writing u = true -> writing t' = true -> False).
  { intros j u Hne Hu Hwu Hwt. pose proof (writing_ahead _ _ _ (H8 j u Hu) Hwu). specialize (Hw Hwt). lia. }
  split; cbn [w_q w_stores w_threads].
  - destruct He as [|s1|h tbl Hh Hm|r Hr Hl Hc|Hwr Hl]; try done. rewrite Hl. by apply holds_snoc.
  - by destruct He.
  - by destruct He.
  - destruct He as [| | |r Hr Hl (tbl & Hu & Hc)|]; try done. by apply (serializable_snoc log r tbl).
  - destruct He; cbn [HEAD putSnapshot writeHead]; rewrite ?length_app; simpl; lia.
  - destruct He as [| |h tbl Hh Hm|r Hr Hl Hc|Hwr Hl]; cbn [snap HEAD putSnapshot writeHead]; try done.
    + intros l tb [= <- <-]. done.
    + intros l tb Hsn. destruct (H6 l tb Hsn) as [Hl' [m Hm]]. split; [done|]. exists m. by apply covers_log_app.
    + intros l tb Hsn. destruct (H6 l tb Hsn) as [Hl' Hm]. split; [lia|done].
  - intros p s1. rewrite lookup_insert_Some. intros [[<- <-]|[_ Hp]].
    + destruct (H7 _ s Hs). destruct He; cbn [HEAD putSnapshot writeHead]; try (by split).
      * split; [by apply store_ok_app|done].
      * split; [done|lia].
    + destruct (H7 p s1 Hp). destruct He; cbn [HEAD putSnapshot writeHead]; try (by split).
      * split; [by apply store_ok_app|done].
      * split; [done|lia].
  - intros j u. rewrite lookup_insert_Some. intros [[<- <-]|[Hne Hu]]; [done|]. by apply (Hothers j u).
  - intros j k u v. rewrite !lookup_insert_Some.
    intros [[<- <-]|[Hj Hu]] [[<- <-]|[Hk Hv]] Hwu Hwv; [done|exfalso; by eapply Hwriting|exfalso; by eapply Hwriting|by eapply H9].
Qed.

Lemma act_inv log w a w' :
  inv log w -> Z.of_nat (length log) + 1 < 2 ^ 64 -> act Key a w = Some w' ->
  exists log', inv log' w' /\ (log' = log \/ exists r, log' = log ++ [r]).
Proof.
  intros Hi H64. destruct a as [p|tid p r|tid|tid]; cbn [act].
  - intros [= <-]. exists log. split; [|by left]. destruct Hi as [H1 H2 H3 H4 H5 H6 H7 H8 H9]. split; try done.
    cbn [w_stores w_q]. intros p' s. rewrite lookup_insert_Some. intros [[_ <-]|[_ Hs]]; [|by eapply H7].
    split; [|simpl; lia]. split; [simpl; lia|]. left. intros k. simpl. unfold val_at. by rewrite rng_empty by lia.
  - destruct (w_threads w !! tid) eqn:Et; [done|]. intros [= <-]. exists log. split; [|by left].
    destruct Hi as [H1 H2 H3 H4 H5 H6 H7 H8 H9]. split; try done; cbn [w_threads].
    + intros j u. rewrite lookup_insert_Some. intros [[_ <-]|[_ Hu]]; [done|by eapply H8].
    + intros j k u v. rewrite !lookup_insert_Some.
      intros [[<- <-]|[Hj Hu]] [[<- <-]|[Hk Hv]] Hwu Hwv; try done. by eapply H9.
  - intros H. apply bind_Some in H as (t & Ht & H). apply bind_Some in H as (s & Hs & H).
    apply bind_Some in H as ([[q' s'] t'] & Hr & [= <-]).
    destruct (run_thread_effect log w tid t s q' s' t' Hi H64 Ht Hs Hr) as (log' & He & Hpc & Hproc & Hw).
    exists log'. split; [by eapply effect_inv|]. destruct He; eauto.
  - intros [= <-]. exists log. split; [|by left]. destruct Hi as [H1 H2 H3 H4 H5 H6 H7 H8 H9]. split; try done; cbn [w_threads].
    + intros j u. rewrite lookup_delete_Some. intros [_ Hu]. by eapply H8.
    + intros j k u v. rewrite !lookup_delete_Some. intros [_ Hu] [_ Hv]. by eapply H9.
Qed.

Lemma inv_created : inv [] (init (Create true)).
Proof.
  split; try done.
  intros id b. simpl. rewrite lookup_empty. split; [done|]. intros [_ (r & Hr & _)]. by rewrite lookup_nil in Hr.
Qed.

(** Runs in which the ids stay within their 64 bits. *)
Lemma run_inv acts : forall log w w',
  inv log w -> Z.of_nat (length log) + Z.of_nat (length acts) < 2 ^ 64 -> run Key acts w = Some w' ->
  exists log', inv log' w' /\ (length log' <= length log + length acts)%nat /\ log `prefix_of` log'.
Proof.
  induction acts as [|a acts IH]; intros log w w' Hi H64; cbn [run].
  { intros [= <-]. exists log. split_and!; [done|lia|done]. }
  intros H. apply bind_Some in H as (w1 & Ha & H). cbn [length] in *.
  destruct (act_inv log w a w1 Hi ltac:(lia) Ha) as (log1 & Hi1 & Hlog1).
  assert (Hlen : (length log1 <= length log + 1)%nat /\ log `prefix_of` log1).
  { destruct Hlog1 as [->|[r ->]]; [split; [lia|done]|]. rewrite length_app. split; [simpl; lia|by apply prefix_app_r]. }
  destruct (IH log1 w1 w' Hi1 ltac:(lia) H) as (log' & Hi' & Hl' & Hp'). exists log'. split_and!; [done|lia|].
  etrans; [apply Hlen|done].
Qed.
End proofs.
