(* ===== verification/JournalProps.v ===== *)
(** * The journal: what its users rely on, and what fails

    Serializability of concurrent commits, the result of a commit when nothing
    interferes, and three ways the journal fails: a crash between the write of
    an entry and that of HEAD, a snapshot written under a stale label, and a
    storage engine without [PutIfNotExists]. *)

From S2P Require Import Prelude Journal JournalProofs.
Import Steps.
Local Open Scope Z_scope.

(** ** A concrete codec *)

Fixpoint pos_bytes (p : positive) : list byte :=
  match p with xH => [] | xO p => zb 0 :: pos_bytes p | xI p => zb 1 :: pos_bytes p end.
Fixpoint bytes_pos (b : list byte) : positive :=
  match b with [] => xH | x :: b => if bz x =? 0 then xO (bytes_pos b) else xI (bytes_pos b) end.

Lemma bytes_pos_bytes p : bytes_pos (pos_bytes p) = p.
Proof. induction p as [p IH|p IH|]; simpl; by rewrite ?IH. Qed.

#[export] Instance jop_eq_dec `{EqDecision E} : EqDecision (jop E).
Proof. solve_decision. Defined.
#[export] Instance jop_countable `{Countable E} : Countable (jop E).
Proof.
  apply (inj_countable'
    (fun o => match o with Add e => inl (inl e) | Update e => inl (inr e) | Delete k => inr k end)
    (fun s => match s with inl (inl e) => Add e | inl (inr e) => Update e | inr k => Delete k end)).
  by intros [].
Defined.

#[export, refine] Instance countable_codec `{Countable A} : Codec A := {
  enc a := pos_bytes (encode a);
  dec b := decode (bytes_pos b);
}.
Proof. intros a. by rewrite bytes_pos_bytes, decode_encode. Defined.

(** A store of pairs, the first component being the key. *)
Definition pair_key (e : gostring * gostring) : gostring := e.1.
Definition kv (k v : string) : gostring * gostring := (str k, str v).

Section props.
Context {E : Type} (Key : E -> gostring) `{!Codec (list (jop E))}.
Local Abbreviation table := (gmap gostring E).

(** C4: serializability, on a storage engine that supports PutIfNotExists and
    whose writes are atomic (on one without PutIfNotExists, such as S3,
    entries get lost: unconditional_put_loses_entry). Whatever goroutines of
    whatever processes load and commit, in any interleaving of their storage
    calls, with crashes and snapshot writes between any two of these calls:
    the objects of the journal are exactly the entries of a sequence of
    requests, each of which was checked on the table that replaying its
    predecessors gives, and replaying all of them succeeds. Fewer than 2^64
    actions. *)
Theorem journal_serializable acts w :
  run Key acts (init (Create true)) = Some w -> Z.of_nat (length acts) < 2 ^ 64 ->
  exists log, holds log (w_q w) /\ serializable Key log /\ exists t, upto Key log (length log) = Some t.
Proof.
  intros Hr H64. destruct (run_inv Key acts [] _ w (inv_created Key) ltac:(simpl; lia) Hr) as (log & Hi & _).
  exists log. split; [apply Hi|]. split; [apply Hi|]. apply serializable_upto; [apply Hi|lia].
Qed.

(** HEAD is the last entry of the journal or, while the goroutine that
    wrote it has yet to write HEAD, the one before; entries are never
    rewritten. *)
Theorem journal_head acts1 acts2 w1 w2 :
  run Key acts1 (init (Create true)) = Some w1 -> run Key acts2 w1 = Some w2 ->
  Z.of_nat (length acts1) + Z.of_nat (length acts2) < 2 ^ 63 ->
  exists n, (forall id, is_Some (objects (w_q w2) !! id) <-> 1 <= id <= n) /\
    (HEAD (w_q w2) = n \/ HEAD (w_q w2) + 1 = n) /\
    forall id b, objects (w_q w1) !! id = Some b -> objects (w_q w2) !! id = Some b.
Proof.
  intros Hr1 Hr2 H64.
  destruct (run_inv Key acts1 [] _ w1 (inv_created Key) ltac:(simpl; lia) Hr1) as (log1 & Hi1 & Hl1 & _).
  destruct (run_inv Key acts2 log1 w1 w2 Hi1 ltac:(simpl in Hl1; lia) Hr2) as (log2 & Hi2 & _ & Hp).
  exists (Z.of_nat (length log2)). split_and!.
  - intros id. split.
    + intros [b Hb]. apply (inv_holds _ _ _ Hi2) in Hb as (Hid & r & Hr & _). apply lookup_lt_Some in Hr. lia.
    + intros Hid. destruct (lookup_lt_is_Some_2 log2 (Z.to_nat (id - 1))) as [r Hr]; [lia|].
      exists (enc (ops_of r)). apply (inv_holds _ _ _ Hi2). split; [lia|eauto].
  - pose proof (inv_head _ _ _ Hi2). lia.
  - intros id b Hb. apply (inv_holds _ _ _ Hi1) in Hb as (Hid & r & Hr & ->).
    apply (inv_holds _ _ _ Hi2). split; [done|]. exists r. split; [|done]. by eapply prefix_lookup_Some.
Qed.

(** ** Without interference *)

Record settled (log : list (request E)) (q : Queue E) : Prop := {
  st_holds : holds log q;
  st_atomic : atomic q = true;
  st_tail : TAIL q = 1;
  st_serial : serializable Key log;
  st_head : HEAD q = Z.of_nat (length log);
  st_snap l t : snap q = Some (l, t) -> 0 <= l <= Z.of_nat (length log) /\ upto Key log (Z.to_nat l) = Some t;
}.

(** A store is a prefix of the log that was loaded, or was told to reload. *)
Definition synced (log : list (request E)) (s : Store E) : Prop :=
  0 <= s_at s <= Z.of_nat (length log) /\
  (upto Key log (Z.to_nat (s_at s)) = Some (s_table s) \/ (s_at s = 0 /\ (0 < length log)%nat)).

Lemma replay_exact log a t :
  serializable Key log -> (a <= length log)%nat -> upto Key log a = Some t ->
  apply_ops Key t (rng log (from a) (length log)) = upto Key log (length log).
Proof.
  intros Hs Ha Ht. destruct a as [|a].
  - unfold upto in *. rewrite rng_empty in Ht by lia. injection Ht as <-. done.
  - destruct (lookup_lt_is_Some_2 log a) as [r Hr]; [lia|]. replace (from (S a)) with a by (unfold from; lia).
    rewrite (rng_app log a (S a)) by lia. rewrite (rng_snoc log a a r), rng_empty by (done || lia). cbn [app].
    destruct (Hs a r Hr) as (t0 & Ht0 & Hc).
    assert (Ht' : apply_ops Key t0 (ops_of r) = Some t).
    { unfold upto in *. rewrite (rng_snoc log 0 a r) in Ht by (done || lia). by rewrite apply_ops_app, Ht0 in Ht. }
    rewrite apply_ops_app, (check_reapply Key r t0 t Hc Ht'). cbn [mbind option_bind].
    unfold upto in *. rewrite (rng_app log 0 (S a) (length log)) by lia. by rewrite apply_ops_app, Ht.
Qed.

(** [load] brings the store to the head of the log. *)
Lemma load_settled log q s :
  settled log q -> synced log s -> Z.of_nat (length log) < 2 ^ 64 ->
  exists q' t, load Key q s = Ok (q', mkStore t (Z.of_nat (length log))) /\
    settled log q' /\ upto Key log (length log) = Some t.
Proof.
  intros Hq Hs H64. destruct (serializable_upto Key log (length log) (st_serial _ _ Hq)) as [t Ht]; [lia|].
  unfold load, ReadHead. rewrite (st_head _ _ Hq). destruct (Z.eqb_spec (Z.of_nat (length log)) (s_at s)) as [E0|E0].
  - exists q, t. destruct s as [ts a]. destruct Hs as [_ [Hs|[Hs Hl]]]; simpl in *; [|lia]. subst a.
    rewrite Nat2Z.id, Ht in Hs. by injection Hs as ->.
  - set (sn := getSnapshot q).
    assert (Hsn : 0 <= sn.1 <= Z.of_nat (length log) /\ upto Key log (Z.to_nat sn.1) = Some sn.2).
    { subst sn. unfold getSnapshot. destruct (snap q) as [[l tl]|] eqn:Es; [by apply (st_snap _ _ Hq)|].
      simpl. split; [lia|]. unfold upto. by rewrite rng_empty by lia. }
    destruct sn as [a ta] eqn:Esn. cbn [fst snd] in Hsn. destruct Hsn as [Ha Hta]. unfold load_finish.
    rewrite (open_replay_rng Key log q a (Z.of_nat (length log)) ta (st_holds _ _ Hq) (st_tail _ _ Hq))
      by (rewrite ?(st_head _ _ Hq); lia).
    assert (Hh' : (if Z.of_nat (length log) =? 0 then HEAD q else Z.of_nat (length log)) = Z.of_nat (length log)).
    { rewrite (st_head _ _ Hq). by destruct (_ =? 0). }
    rewrite Hh', Nat2Z.id, (replay_exact log (Z.to_nat a) ta (st_serial _ _ Hq)), Ht by (done || lia).
    cbn [mbind outcome_bind obind]. eexists _, t. split; [reflexivity|]. split; [|done].
    destruct (wants_snapshot _ _); [|done]. destruct Hq as [H1 H2 H3 H4 H5 H6]. split; try done.
    intros l tl. simpl. intros [= <- <-]. split; [lia|]. by rewrite Nat2Z.id.
Qed.

Lemma commit_settled log r q s t :
  settled log q -> synced log s -> Z.of_nat (length log) + 1 < 2 ^ 64 -> upto Key log (length log) = Some t ->
  match check Key r t with
  | Some e => commit Key r q s = Err (ErrCommit e)
  | None => exists q' s', commit Key r q s = Ok (q', s') /\ settled (log ++ [r]) q' /\ synced (log ++ [r]) s'
  end.
Proof.
  intros Hq Hs H64 Ht. destruct (load_settled log q s Hq Hs ltac:(lia)) as (q1 & t1 & Hl & Hq1 & Ht1).
  assert (t1 = t) as -> by congruence. unfold commit, maxRetries. cbn [commit_loop]. rewrite Hl.
  cbn [mbind outcome_bind obind s_table s_at]. destruct (check Key r t) as [e|] eqn:Ec; [done|].
  destruct Hq1 as [H1 H2 H3 H4 H5 H6]. unfold CommitAt, put_entry. rewrite H2, u64_id by lia.
  destruct (objects q1 !! (Z.of_nat (length log) + 1)) as [b|] eqn:Eo.
  { apply H1 in Eo as (_ & r' & Hr' & _). apply lookup_lt_Some in Hr'. lia. }
  cbn [mbind outcome_bind obind]. eexists _, _. split; [reflexivity|]. split.
  - split; cbn [writeHead HEAD TAIL objects snap atomic]; try done.
    + pose proof (holds_snoc log q1 r H1) as Hh. intros id b. exact (Hh id b).
    + by apply (serializable_snoc Key log r t).
    + rewrite length_app. simpl. lia.
    + intros l tl Hsn. destruct (H6 l tl Hsn) as [Hl0 Hu]. rewrite length_app. split; [simpl; lia|].
      by rewrite upto_log_app by lia.
  - split; simpl; [rewrite length_app; simpl; lia|]. right. rewrite length_app. simpl. lia.
Qed.

(** when nothing interferes, a commit checks its precondition on the table of
    the whole journal; if that fails it returns its error and the journal is
    unchanged, otherwise its entry is the next of the journal, HEAD points at
    it, and the store is ready for the next commit. *)
Theorem commit_spec log r q s t :
  settled log q -> synced log s -> Z.of_nat (length log) + 1 < 2 ^ 64 -> upto Key log (length log) = Some t ->
  match check Key r t with
  | Some e => commit Key r q s = Err (ErrCommit e)
  | None => exists q' s', commit Key r q s = Ok (q', s') /\ settled (log ++ [r]) q' /\ synced (log ++ [r]) s'
  end.
Proof. intros. by apply commit_settled. Qed.

(** ** A crash between the entry and HEAD *)

Lemma load_at_head q s q' s' : load Key q s = Ok (q', s') ->
  s_at s' = HEAD q /\ HEAD q' = HEAD q /\ objects q' = objects q /\ atomic q' = atomic q.
Proof.
  unfold load, ReadHead. destruct (Z.eqb_spec (HEAD q) (s_at s)) as [E0|_]; [by intros [= <- <-]|].
  destruct (getSnapshot q) as [a t]. intros H. apply bind_Ok in H as (s1 & Hs1 & H). injection H as <- <-.
  unfold load_finish in Hs1. apply bind_Ok in Hs1 as (t1 & _ & [= <-]). by destruct (wants_snapshot _ _).
Qed.

(** Once the object after HEAD exists and nobody is left to write HEAD, no
    commit of any process succeeds: each attempt finds the entry taken. *)
Lemma commit_loop_blocked attempts r : forall q s,
  atomic q = true -> is_Some (objects q !! u64 (HEAD q + 1)) ->
  forall q' s', commit_loop Key attempts r q s <> Ok (q', s').
Proof.
  induction attempts as [|n IH]; intros q s Hat Ho q' s'; cbn [commit_loop]; [done|].
  destruct (load Key q s) as [[q1 s1]| |] eqn:El; cbn [mbind outcome_bind obind]; [|done..].
  apply load_at_head in El as (Es & Eh & Eo & Ea). destruct (check Key r (s_table s1)); [done|].
  unfold CommitAt, put_entry. rewrite Ea, Hat, Es, Eo. destruct Ho as [b Hb]. rewrite Hb.
  cbn [mbind outcome_bind obind]. apply IH; [by rewrite Ea|]. rewrite Eh, Eo. by eexists.
Qed.

Lemma commit_blocked r q s :
  atomic q = true -> is_Some (objects q !! u64 (HEAD q + 1)) -> forall q' s', commit Key r q s <> Ok (q', s').
Proof. apply commit_loop_blocked. Qed.
End props.

Local Abbreviation ent := (gostring * gostring)%type.

Lemma journal_serializable_witness :
  exists w log, run pair_key [AOpen 0; ASpawn 1 0 (Some (Insert (kv "a" "1"))); ARun 1; ARun 1; ARun 1; ARun 1; ARun 1]
                  (init (Create (E := ent) true)) = Some w /\
    holds log (w_q w) /\ serializable pair_key log /\ log <> [].
Proof.
  destruct (run pair_key [AOpen 0; ASpawn 1 0 (Some (Insert (kv "a" "1"))); ARun 1; ARun 1; ARun 1; ARun 1; ARun 1]
              (init (Create (E := ent) true))) as [w|] eqn:Er; [|vm_compute in Er; discriminate Er].
  destruct (journal_serializable pair_key _ w Er ltac:(simpl; lia)) as (log & Hh & Hs & _).
  exists w, log. split; [reflexivity|]. split; [exact Hh|]. split; [exact Hs|]. intros ->.
  assert (Ho : is_Some (objects (w_q w) !! 1)) by (vm_compute in Er; injection Er as <-; vm_compute; by eexists).
  destruct Ho as [b Hb]. apply Hh in Hb as (_ & r & Hr & _). discriminate Hr.
Defined.

Lemma journal_head_witness :
  exists (w1 w2 : world (E := ent)) n, (forall id, is_Some (objects (w_q w2) !! id) <-> 1 <= id <= n) /\
    (HEAD (w_q w2) = n \/ HEAD (w_q w2) + 1 = n) /\
    forall id b, objects (w_q w1) !! id = Some b -> objects (w_q w2) !! id = Some b.
Proof.
  destruct (run pair_key [AOpen 0; ASpawn 1 0 (Some (Insert (kv "a" "1")))] (init (Create (E := ent) true))) as [w1|] eqn:E1;
    [|vm_compute in E1; discriminate E1].
  destruct (run pair_key [ARun 1; ARun 1; ARun 1; ARun 1] w1) as [w2|] eqn:E2;
    [|exfalso; vm_compute in E1; injection E1 as <-; vm_compute in E2; discriminate E2].
  exists w1, w2. apply (journal_head pair_key _ _ w1 w2 E1 E2). simpl. lia.
Defined.

Lemma settled_Create {E} (Key : E -> gostring) `{!Codec (list (jop E))} : settled Key [] (Create (E := E) true).
Proof.
  split; try done. intros id b. simpl. rewrite lookup_empty. split; [done|]. intros [_ (r & Hr & _)]. discriminate Hr.
Qed.

Lemma commit_spec_witness :
  exists q' s', commit pair_key (Insert (kv "a" "1")) (Create true) newStore = Ok (q', s') /\
    settled pair_key [Insert (kv "a" "1")] q' /\ synced pair_key [Insert (kv "a" "1")] s'.
Proof.
  assert (Hs : synced pair_key [] newStore) by (split; [simpl; lia|by left]).
  pose proof (commit_spec pair_key [] (Insert (kv "a" "1")) (Create true) newStore ∅ (settled_Create pair_key) Hs
                ltac:(simpl; lia) eq_refl) as H.
  assert (Hc : check pair_key (Insert (kv "a" "1")) ∅ = None) by reflexivity.
  rewrite Hc in H. exact H.
Defined.

(** a goroutine that crashes between writing its entry and writing HEAD wedges
    the journal: no later commit of any process succeeds, although the journal
    holds the entry. *)
Theorem crash_wedges_journal :
  exists acts w, run pair_key acts (init (Create (E := ent) true)) = Some w /\ w_threads w = ∅ /\
    objects (w_q w) !! 1 = Some (enc (ops_of (Insert (kv "a" "1")))) /\
    forall r s q' s', commit pair_key r (w_q w) s <> Ok (q', s').
Proof.
  exists [AOpen 0; ASpawn 1 0 (Some (Insert (kv "a" "1"))); ARun 1; ARun 1; ARun 1; ARun 1; ACrash 1].
  destruct (run _ _ _) as [w|] eqn:Er; [|vm_compute in Er; discriminate Er].
  exists w. vm_compute in Er. injection Er as <-. split_and!; [done|done|done|].
  intros r s. apply (commit_blocked pair_key r _ s); [done|]. vm_compute. by eexists.
Qed.

(** A schedule of a process that commits, and one that only loads. *)
Definition runs (tid n : nat) : list (action (E := ent)) := replicate n (ARun tid).
Definition commits (tid n : nat) (r : request ent) : list (action (E := ent)) := ASpawn tid 0 (Some r) :: runs tid n.
Definition fillers : list (action (E := ent)) :=
  concat (map (fun n => commits (10 + n) 8 (Insert (replicate n (zb 65), []))) (seq 1 8)).
Definition stale_snapshot_schedule : list (action (E := ent)) :=
  [AOpen 0; AOpen 1] ++
  commits 1 6 (Insert (kv "k" "1")) ++ commits 2 8 (UpdateEntry (kv "k" "2") None) ++
  ASpawn 100 1 None :: runs 100 2 ++             (* read HEAD = 2 *)
  commits 3 8 (DeleteKey (str "k") None) ++ fillers ++
  commits 20 9 (Insert (kv "z" "1")) ++           (* writes the snapshot at 11 *)
  runs 100 4.                                     (* reads it and labels it 2 *)

Definition finished (t : thread (E := ent)) : bool :=
  match t_pc t with PDone | PLoaded => true | _ => false end.

(** a load that reads HEAD before, and the snapshot after, other processes
    committed and wrote a snapshot writes that snapshot back under its stale
    HEAD (the unsigned [head-at > 10] wraps). From then on every store that
    loads fails: the entries it replays update a key the snapshot no longer
    has. No call of the run fails. *)
Theorem stale_snapshot_breaks_load :
  exists w, run pair_key stale_snapshot_schedule (init (Create true)) = Some w /\
    forallb (fun it => finished it.2) (map_to_list (w_threads w)) = true /\
    load pair_key (w_q w) newStore = Err ErrUpdateMissing.
Proof.
  assert (Hb : match run pair_key stale_snapshot_schedule (init (Create true)) with
    | Some w => forallb (fun it => finished it.2) (map_to_list (w_threads w)) &&
                match load pair_key (w_q w) newStore with Err ErrUpdateMissing => true | _ => false end
    | None => false
    end = true) by (vm_compute; reflexivity).
  destruct (run _ _ _) as [w|]; [|discriminate Hb]. apply andb_true_iff in Hb as [H1 H2].
  exists w. split; [done|]. split; [done|]. by destruct (load _ _ _) as [|[]|].
Qed.

(** Where the engine lacks [PutIfNotExists], two commits of the same position
    both succeed and the first one's entry is lost. *)
Theorem unconditional_put_loses_entry :
  exists w t, run pair_key ([AOpen 0; AOpen 1; ASpawn 1 0 (Some (Insert (kv "a" "1"))); ASpawn 2 1 (Some (Insert (kv "b" "2")))] ++
                    runs 1 3 ++ runs 2 3 ++ runs 1 3 ++ runs 2 3) (init (Create false)) = Some w /\
    forallb (fun it => finished it.2) (map_to_list (w_threads w)) = true /\
    option_map (fun r => s_table r.2) (match load pair_key (w_q w) newStore with Ok r => Some r | _ => None end) = Some t /\
    t !! str "a" = None /\ t !! str "b" = Some (kv "b" "2").
Proof.
  set (acts := _ ++ _).
  assert (Hb : match run pair_key acts (init (Create false)) with
    | Some w => forallb (fun it => finished it.2) (map_to_list (w_threads w)) &&
                match load pair_key (w_q w) newStore with
                | Ok r => bool_decide (s_table r.2 !! str "a" = None /\ s_table r.2 !! str "b" = Some (kv "b" "2"))
                | _ => false
                end
    | None => false
    end = true) by (vm_compute; reflexivity).
  destruct (run _ _ _) as [w|]; [|discriminate Hb]. apply andb_true_iff in Hb as [H1 H2].
  destruct (load _ _ _) as [r| |] eqn:El; [|discriminate H2..]. apply bool_decide_eq_true in H2 as [Ha Hb].
  exists w, (s_table r.2). rewrite El. done.
Qed.
