(* ===== verification/JournalLive.v ===== *)
(** * Goroutines on a journal finish

    A fair scheduler brings every goroutine that commits to an end, however the
    others interfere: it is never blocked, and the retries bound its steps. *)

From S2P Require Import Prelude Journal JournalProofs JournalProps.
Local Open Scope Z_scope.

Section live.
Context {E : Type} (Key : E -> gostring) `{!Codec (list (jop E))}.
Import Steps.
Local Abbreviation act := (act Key).
Local Abbreviation run := (run Key).
Local Abbreviation run_thread := (run_thread Key).
Implicit Types (t : thread (E := E)) (w : world (E := E)).

(** The goroutine returned, with success or an error of the code: running out of
    the fuel of a replay is not one. *)
Definition finished t : Prop :=
  match t_pc t with PDone => True | PFailed e => e <> ErrReadDiverges | _ => False end.

#[export] Instance finished_dec t : Decision (finished t).
Proof. unfold finished. destruct (t_pc t) as [| | | | | | | | | |e]; try apply _. destruct e; (left; done) || (right; tauto). Defined.

(** Steps that are left in the current attempt, and in all. *)
Definition pc_rank (p : pc (E := E)) : nat :=
  match p with
  | PStart => 9 | PRead _ => 8 | PStale _ => 7 | PSnap _ _ _ => 6 | PPut _ _ => 5 | PLoaded => 4 | PChecked _ => 3
  | PWritten _ => 2 | PHead => 1 | PDone | PFailed _ => 0
  end.
Definition rank t : nat := 7 * t_tries t + pc_rank (t_pc t).

(** A goroutine that has checked its request has one, and its replays end. *)
Definition asked t : Prop :=
  match t_pc t, t_req t with PChecked _, None | PFailed ErrReadDiverges, _ => False | _, _ => True end.

Lemma replay_no_panic q fuel : forall cursor stop (tbl : gmap gostring E), replay Key fuel cursor stop q tbl <> Panic.
Proof.
  induction fuel as [|fuel IH]; intros cursor stop tbl; cbn [replay]; destruct (stop <=? cursor); try done.
  unfold Load. destruct (objects q !! (cursor + 1)) as [b|]; cbn [mbind outcome_bind obind]; [|done].
  destruct (dec b) as [os|]; [|done]. destruct (apply_ops Key tbl os); [apply IH|done].
Qed.
(** The position of a replay reaches its end. *)
Lemma replay_ends q fuel : forall cursor stop (tbl : gmap gostring E),
  (Z.to_nat (stop - cursor) <= fuel)%nat -> replay Key fuel cursor stop q tbl <> Err ErrReadDiverges.
Proof.
  induction fuel as [|fuel IH]; intros cursor stop tbl Hf; cbn [replay]; destruct (Z.leb_spec stop cursor); try done; [lia|].
  unfold Load. destruct (objects q !! (cursor + 1)) as [b|]; cbn [mbind outcome_bind obind]; [|done].
  destruct (dec b) as [os|]; [|done]. destruct (apply_ops Key tbl os); [|done]. apply IH. lia.
Qed.
Lemma load_finish_ends (h a : Z) (tbl : gmap gostring E) q : load_finish Key h a tbl q <> Err ErrReadDiverges.
Proof.
  unfold load_finish. destruct (open_replay Key h a q tbl) as [t'|e|] eqn:E1; [done| |done].
  intros [= ->]. unfold open_replay in E1. destruct ((if h =? 0 then _ else _) =? 0); [done|]. by apply replay_ends in E1.
Qed.
Lemma load_finish_no_panic (h a : Z) (tbl : gmap gostring E) q : load_finish Key h a tbl q <> Panic.
Proof.
  unfold load_finish. destruct (open_replay Key h a q tbl) as [t'| |] eqn:E1; [done|done|].
  unfold open_replay in E1. destruct ((if h =? 0 then _ else _) =? 0); [done|]. by apply replay_no_panic in E1.
Qed.

Lemma run_thread_ranks q s t :
  asked t -> ~ finished t -> (0 < t_tries t)%nat ->
  exists q' s' t', run_thread q s t = Some (q', s', t') /\ t_proc t' = t_proc t /\ asked t' /\ (rank t' < rank t)%nat /\
    (0 < t_tries t')%nat.
Proof.
  unfold asked, finished, rank. destruct t as [p r n c]. cbn [t_pc t_req t_tries t_proc]. intros Ha Hf Hn.
  destruct c; try done; cbn [Steps.run_thread t_pc t_req t_tries t_proc pc_rank] in *.
  - eexists _, _, _. split; [done|]. cbn. by split_and!; try lia.
  - eexists _, _, _. split; [done|]. destruct (h =? s_at s); cbn; split_and!; try done; lia.
  - destruct (getSnapshot q) as [a tbl]. eexists _, _, _. split; [done|]. cbn. split_and!; try done; lia.
  - destruct (load_finish Key h a t q) as [s'|e|] eqn:E1; [| |by apply load_finish_no_panic in E1].
    + eexists _, _, _. split; [done|]. destruct (wants_snapshot h a); cbn; split_and!; try done; lia.
    + eexists _, _, _. split; [done|]. cbn. split_and!; try done; [|lia].
      destruct e; try done. by apply load_finish_ends in E1.
  - eexists _, _, _. split; [done|]. cbn. split_and!; try done; lia.
  - destruct r as [r|]; [destruct (check Key r (s_table s))|]; (eexists _, _, _; split; [done|]; cbn; split_and!; try done; lia).
  - destruct r as [r|]; [|done]. unfold put_entry.
    destruct (atomic q); [destruct (objects q !! u64 (at_ + 1)); [destruct n as [|[|n]]|]|];
      (eexists _, _, _; split; [done|]; cbn [t_pc t_req t_tries t_proc pc_rank]; split_and!; try done; lia).
  - eexists _, _, _. split; [done|]. cbn. split_and!; try done; lia.
  - eexists _, _, _. split; [done|]. cbn. split_and!; try done; lia.
  - exfalso. apply Hf. by intros ->.
Qed.

(** How often a goroutine ran in a schedule. *)
Definition is_turn (tid : nat) (a : action (E := E)) : bool := match a with ARun i => (i =? tid)%nat | _ => false end.
Definition turns (tid : nat) (acts : list action) : nat := length (List.filter (is_turn tid) acts).

Lemma act_thread a w w' tid t :
  act a w = Some w' -> a <> ACrash tid -> w_threads w !! tid = Some t -> asked t -> (0 < t_tries t)%nat ->
  exists t', w_threads w' !! tid = Some t' /\ t_proc t' = t_proc t /\ asked t' /\ (0 < t_tries t')%nat /\
    (turns tid [a] + rank t' <= rank t)%nat.
Proof.
  intros Ha Hc Ht Hask Htries. destruct a as [p|i p r|i|i]; cbn [Steps.act] in Ha.
  - injection Ha as <-. exists t. by split_and!.
  - destruct (w_threads w !! i) eqn:Ei; [done|]. injection Ha as <-. exists t. cbn [w_threads].
    rewrite lookup_insert_ne by congruence. by split_and!.
  - destruct (w_threads w !! i) as [ti|] eqn:Ei; [|done]. cbn in Ha. destruct (w_stores w !! t_proc ti) as [s|] eqn:Es; [|done].
    cbn in Ha. destruct (run_thread (w_q w) s ti) as [[[q' s'] ti']|] eqn:Er; [|done]. injection Ha as <-. cbn [w_threads].
    unfold turns. cbn [List.filter is_turn]. destruct (Nat.eqb_spec i tid) as [->|Hne].
    + rewrite lookup_insert_eq. assert (ti = t) as -> by congruence. destruct (decide (finished t)) as [Hf|Hf].
      { unfold finished, Steps.run_thread in *. by destruct (t_pc t). }
      destruct (run_thread_ranks (w_q w) s t Hask Hf Htries) as (? & ? & t' & Er' & H1 & H2 & H3 & H4).
      rewrite Er in Er'. injection Er' as -> -> ->. exists t'. by split_and!.
    + rewrite lookup_insert_ne by done. exists t. by split_and!.
  - injection Ha as <-. exists t. cbn [w_threads]. rewrite lookup_delete_ne by congruence. by split_and!.
Qed.
Lemma act_stores a w w' p : act a w = Some w' -> is_Some (w_stores w !! p) -> is_Some (w_stores w' !! p).
Proof.
  intros Ha Hp. destruct a as [p'|i p' r|i|i]; cbn [Steps.act] in Ha.
  - injection Ha as <-. cbn. by apply lookup_insert_is_Some'; right.
  - destruct (w_threads w !! i); [done|]. by injection Ha as <-.
  - destruct (w_threads w !! i) as [ti|]; [|done]. cbn in Ha. destruct (w_stores w !! t_proc ti) as [s|]; [|done].
    cbn in Ha. destruct (run_thread (w_q w) s ti) as [[[q' s'] ti']|]; [|done]. injection Ha as <-. cbn.
    by apply lookup_insert_is_Some'; right.
  - by injection Ha as <-.
Qed.

Lemma run_thread_turns acts tid : forall w w' t p,
  run acts w = Some w' -> Forall (fun a => a <> ACrash tid) acts -> is_Some (w_stores w !! p) ->
  w_threads w !! tid = Some t -> t_proc t = p -> asked t -> (0 < t_tries t)%nat ->
  exists t', w_threads w' !! tid = Some t' /\ t_proc t' = p /\ asked t' /\ (0 < t_tries t')%nat /\
    is_Some (w_stores w' !! p) /\ (turns tid acts + rank t' <= rank t)%nat.
Proof.
  induction acts as [|a acts IH]; intros w w' t p Hr Hc Hp Ht Hproc Ha Hn.
  - injection Hr as <-. exists t. by split_and!.
  - cbn [Steps.run] in Hr. destruct (act a w) as [w1|] eqn:Ea; [|done]. cbn in Hr. apply Forall_cons in Hc as [Hca Hc].
    destruct (act_thread a w w1 tid t Ea Hca Ht Ha Hn) as (t1 & Ht1 & Hp1 & Ha1 & Hn1 & Hrank1).
    destruct (IH w1 w' t1 p Hr Hc (act_stores _ _ _ _ Ea Hp) Ht1 ltac:(congruence) Ha1 Hn1) as (t2 & Ht2 & Hp2 & Ha2 & Hn2 & Hs2 & Hrank2).
    exists t2. split_and!; try done. change (a :: acts) with ([a] ++ acts).
    assert (turns tid ([a] ++ acts) = turns tid [a] + turns tid acts)%nat as -> by (unfold turns; by rewrite List.filter_app, length_app).
    lia.
Qed.

(** C5: a goroutine that loads or commits is never blocked by the others and
    runs at most 72 times (a replay of the journal, whose reads are bounded by
    the entries it covers, counts once), so that every schedule that is fair
    to it brings it to an end, with success or one of the errors of the code:
    in whatever state it finds the journal, and whatever other goroutines of
    whatever processes do in between, crashes included. *)
Theorem goroutines_finish (w w1 w2 : world) tid p r acts :
  is_Some (w_stores w !! p) -> act (ASpawn tid p r) w = Some w1 ->
  Forall (fun a => a <> ACrash tid) acts -> run acts w1 = Some w2 ->
  exists t, w_threads w2 !! tid = Some t /\
    (turns tid acts <= 72)%nat /\
    (finished t \/ exists w', act (ARun tid) w2 = Some w') /\
    (turns tid acts = 72%nat -> finished t).
Proof.
  intros Hp Hs Hc Hr. cbn [Steps.act] in Hs. destruct (w_threads w !! tid) eqn:Et; [done|]. injection Hs as <-.
  destruct (run_thread_turns acts tid _ w2 (mkThread p r maxRetries PStart) p Hr Hc) as (t & Ht & Hproc & Ha & Hn & Hst & Hrank);
    [done|apply lookup_insert_eq|done|by destruct r|cbn; unfold maxRetries; lia|].
  exists t. unfold rank in Hrank. cbn [t_tries t_pc pc_rank] in Hrank. change maxRetries with 10%nat in Hrank.
  split_and!; [done|lia| |].
  - destruct (decide (finished t)) as [Hf|Hf]; [by left|right]. cbn [Steps.act]. rewrite Ht. cbn. rewrite Hproc.
    destruct Hst as [s Es]. rewrite Es. cbn.
    destruct (run_thread_ranks (w_q w2) s t Ha Hf Hn) as (? & ? & ? & -> & _). cbn. eauto.
  - intros Hturns. assert (Hpc : pc_rank (t_pc t) = 0%nat) by lia. unfold finished, asked in *.
    destruct (t_pc t) as [| | | | | | | | | |e]; try done. by intros ->.
Qed.
End live.

Import Steps.
Lemma goroutines_finish_witness :
  let w := default (init (Create (E := gostring * gostring) true)) (run pair_key [AOpen 0] (init (Create true))) in
  let acts := ASpawn 2 0 (Some (Insert (kv "b" "2"))) :: concat (repeat [ARun 2; ARun 1] 5) in
  exists w1 w2 t, act pair_key (ASpawn 1 0 (Some (Insert (kv "a" "1")))) w = Some w1 /\ run pair_key acts w1 = Some w2 /\
    w_threads w2 !! 1%nat = Some t /\ (turns 1 acts <= 72)%nat /\ (finished t \/ exists w', act pair_key (ARun 1) w2 = Some w').
Proof.
  intros w acts. destruct (act pair_key (ASpawn 1 0 (Some (Insert (kv "a" "1")))) w) as [w1|] eqn:E1; [|vm_compute in E1; discriminate E1].
  destruct (run pair_key acts w1) as [w2|] eqn:E2; [|exfalso; vm_compute in E1; injection E1 as <-; vm_compute in E2; discriminate E2].
  destruct (goroutines_finish pair_key w w1 w2 1 0 (Some (Insert (kv "a" "1"))) acts) as (t & H1 & H2 & H3 & _); [..|by exists w1, w2, t].
  - vm_compute. by eexists.
  - exact E1.
  - repeat apply Forall_cons_2; try discriminate. apply Forall_nil_2.
  - exact E2.
Defined.
