(* ===== verification/Commits.v ===== *)
(** * The commit objects of a lake ([lake/commits])

    Actions and commit objects ([actions.go], [object.go]), snapshots and the
    [View] and [Writeable] interfaces ([snapshot.go]), patches over any view
    ([patch.go]), and the store of commit objects with its three caches
    ([store.go]).

    A [ksuid.KSUID] is the integer of its 20 bytes; [Nil] is zero.  What
    [ksuid.New] and [nano.Now] return are arguments.  [Val] stands for the
    [zed.Value]s that the package carries without looking at them. *)

From S2P Require Import Prelude.
Local Open Scope Z_scope.

Abbreviation ksuid := Z.
Definition Nil : ksuid := 0.

(** The order in which [range] visits a Go map: any order, each key once. *)
Class GoRange := {
  range {A} : gmap Z A -> list (Z * A);
  range_perm {A} (m : gmap Z A) : range m ≡ₚ map_to_list m;
}.

(** A ZNG stream of entries ([zngbytes]): what is written is read back, also
    when several streams are laid end to end. *)
Class Stream (A : Type) := {
  enc : list A -> list byte;
  dec : list byte -> option (list A);
  dec_enc (ls : list (list A)) : dec (concat (map enc ls)) = Some (concat ls);
}.

(** [lru.ARCCache]: a cache holds at most what was added to it; getting an entry
    may reorder the cache, adding one may evict others. *)
Class ARC (C : Type -> Type) := {
  arc_new {A} : C A;
  arc_get {A} : ksuid -> C A -> option A * C A;
  arc_add {A} : ksuid -> A -> C A -> C A;
  contents {A} : C A -> gmap ksuid A;
  contents_new {A} : contents (arc_new (A := A)) = ∅;
  arc_get_hit {A} k (c : C A) : (arc_get k c).1 = contents c !! k;
  arc_get_contents {A} k (c : C A) : contents (arc_get k c).2 = contents c;
  contents_add {A} k v (c : C A) : contents (arc_add k v c) ⊆ <[k := v]> (contents c);
}.

(** ** Errors *)

Inductive error :=
| ErrWriteConflict (id : ksuid) | ErrExists | ErrNotFound
| ErrEmptyTransaction | ErrBadCommitObject | ErrNotExist | ErrDecode
| ErrNilPath | ErrPathless | ErrNotCommitAction
| ErrCorrupt (id : ksuid) | ErrRevertEmpty
| ErrParentDeletes (id : ksuid) | ErrDeleteConflict (id : ksuid) | ErrEmptyDiff
| ErrDiverges
(* of branch.go *)
| ErrCommitNotFound (id : ksuid) | ErrNoObject (id : ksuid) | ErrVectorExists (id : ksuid)
| ErrNoVector (id : ksuid) | ErrNoAncestor | ErrNoRollup.

(** ** Views ([snapshot.go]) and objects ([data/object.go]) *)

Section data.
Context {Val : Type}.

Record dobject := mkObj { ID : ksuid; Min : Val; Max : Val; Count : Z; Size : Z }.

(** [Select] is given the test of a scan range against an object's span. *)
Class View (W : Type) := {
  Lookup : W -> ksuid -> outcome error dobject;
  HasVector : W -> ksuid -> bool;
  Select : W -> (dobject -> bool) -> list dobject;
  SelectAll : W -> list dobject;
}.

Class Writeable (W : Type) := {
  writeable_view : View W;
  AddDataObject : W -> dobject -> outcome error W;
  DeleteObject : W -> ksuid -> outcome error W;
  AddVector : W -> ksuid -> outcome error W;
  DeleteVector : W -> ksuid -> outcome error W;
}.

#[export] Existing Instance writeable_view | 100.

Definition Exists {W} `{!View W} (w : W) (id : ksuid) : bool :=
  match Lookup w id with Ok _ => true | _ => false end.

(** ** Actions and commit objects *)

Inductive Action :=
| Add (commit : ksuid) (object : dobject)
| Delete (commit id : ksuid)
| AddVec (commit id : ksuid)
| DeleteVec (commit id : ksuid)
| Commit (id parent : ksuid) (retries : Z) (author : gostring) (date : Z)
    (message : gostring) (meta : Val).

Definition CommitID (a : Action) : ksuid :=
  match a with
  | Add c _ | Delete c _ | AddVec c _ | DeleteVec c _ => c
  | Commit id _ _ _ _ _ _ => id
  end.

Record Object := mkCommit { commit_of : ksuid; Parent : ksuid; Actions : list Action }.

Definition append (o : Object) (a : Action) : Object :=
  mkCommit (commit_of o) (Parent o) (Actions o ++ [a]).
Definition appendAdd (o : Object) (d : dobject) : Object := append o (Add (commit_of o) d).
Definition appendDelete (o : Object) (id : ksuid) : Object := append o (Delete (commit_of o) id).
Definition appendAddVector (o : Object) (id : ksuid) : Object := append o (AddVec (commit_of o) id).
Definition appendDeleteVector (o : Object) (id : ksuid) : Object := append o (DeleteVec (commit_of o) id).

(** What [NewObject] is called with, and what it reads: the fresh commit ID and
    the date. *)
Record msg := mkMsg { new_id : ksuid; now : Z; author : gostring; message : gostring; meta : Val;
                      retries : Z }.

Definition NewObject (parent : ksuid) (m : msg) : Object :=
  append (mkCommit (new_id m) parent [])
    (Commit (new_id m) parent (u8 (retries m)) (author m) (now m) (message m) (meta m)).
Definition NewAddsObject (parent : ksuid) (m : msg) (objects : list dobject) : Object :=
  fold_left appendAdd objects (NewObject parent m).
Definition NewDeletesObject (parent : ksuid) (m : msg) (ids : list ksuid) : Object :=
  fold_left appendDelete ids (NewObject parent m).
Definition NewAddVectorsObject (parent : ksuid) (m : msg) (ids : list ksuid) : Object :=
  fold_left appendAddVector ids (NewObject parent m).
Definition NewDeleteVectorsObject (parent : ksuid) (m : msg) (ids : list ksuid) : Object :=
  fold_left appendDeleteVector ids (NewObject parent m).

(** ** Playing actions *)

Definition PlayAction {W} `{!Writeable W} (w : W) (a : Action) : outcome error W :=
  match a with
  | Add _ o => AddDataObject w o
  | Delete _ id => DeleteObject w id
  | AddVec _ id => AddVector w id
  | DeleteVec _ id => DeleteVector w id
  | Commit _ _ _ _ _ _ _ => Ok w
  end.

Fixpoint play {W} `{!Writeable W} (w : W) (acts : list Action) : outcome error W :=
  match acts with
  | [] => Ok w
  | a :: acts => w ← PlayAction w a; play w acts
  end.
Definition Play {W} `{!Writeable W} (w : W) (o : Object) : outcome error W := play w (Actions o).

(** ** Snapshots ([snapshot.go]) *)

Record snapshot := mkSnap { objects : gmap ksuid dobject; vectors : gmap ksuid unit }.

Definition NewSnapshot : snapshot := mkSnap ∅ ∅.

Definition snap_Lookup (s : snapshot) (id : ksuid) : outcome error dobject :=
  match objects s !! id with Some o => Ok o | None => Err ErrNotFound end.
Definition snap_HasVector (s : snapshot) (id : ksuid) : bool :=
  match vectors s !! id with Some _ => true | None => false end.

Definition snap_AddDataObject (s : snapshot) (o : dobject) : outcome error snapshot :=
  match objects s !! ID o with
  | Some _ => Err (ErrWriteConflict (ID o))
  | None => Ok (mkSnap (<[ID o := o]> (objects s)) (vectors s))
  end.
Definition snap_DeleteObject (s : snapshot) (id : ksuid) : outcome error snapshot :=
  match objects s !! id with
  | None => Err (ErrWriteConflict id)
  | Some _ => Ok (mkSnap (delete id (objects s)) (vectors s))
  end.
Definition snap_AddVector (s : snapshot) (id : ksuid) : outcome error snapshot :=
  match vectors s !! id with
  | Some _ => Err (ErrWriteConflict id)
  | None => Ok (mkSnap (objects s) (<[id := tt]> (vectors s)))
  end.
Definition snap_DeleteVector (s : snapshot) (id : ksuid) : outcome error snapshot :=
  match vectors s !! id with
  | None => Err (ErrWriteConflict id)
  | Some _ => Ok (mkSnap (objects s) (delete id (vectors s)))
  end.
End data.
Arguments dobject : clear implicits.
Arguments Action : clear implicits.
Arguments Object : clear implicits.
Arguments msg : clear implicits.
Arguments snapshot : clear implicits.
Arguments View : clear implicits.
Arguments Writeable : clear implicits.

Section store.
Context {Val : Type} `{!GoRange}.
Local Abbreviation dobject := (dobject Val).
Local Abbreviation Action := (Action Val).
Local Abbreviation Object := (Object Val).
Local Abbreviation msg := (msg Val).
Local Abbreviation snapshot := (snapshot Val).

Definition snap_SelectAll (s : snapshot) : list dobject := (range (objects s)).*2.
Definition snap_Select (s : snapshot) (scan : dobject -> bool) : list dobject :=
  List.filter scan (range (objects s)).*2.

#[export] Instance snapshot_view : View Val snapshot := {
  Lookup := snap_Lookup; HasVector := snap_HasVector;
  Select := snap_Select; SelectAll := snap_SelectAll;
}.
#[export] Instance snapshot_writeable : Writeable Val snapshot := {
  AddDataObject := snap_AddDataObject; DeleteObject := snap_DeleteObject;
  AddVector := snap_AddVector; DeleteVector := snap_DeleteVector;
}.

(** [Copy] inserts every entry into a new snapshot. *)
Definition Copy (s : snapshot) : snapshot :=
  mkSnap (list_to_map (range (objects s))) (list_to_map (range (vectors s))).

Definition snapshot_actions (s : snapshot) : list Action :=
  map (fun o => Add Nil o) (range (objects s)).*2 ++ map (fun id => AddVec Nil id) (range (vectors s)).*1.
Definition serialize `{!Stream Action} (s : snapshot) : list byte := enc (snapshot_actions s).
Definition decodeSnapshot `{!Stream Action} (b : list byte) : outcome error snapshot :=
  match dec b with
  | None => Err ErrDecode
  | Some acts => play NewSnapshot acts
  end.

(** [Vectors] ignores the error of [AddDataObject]. *)
Definition Vectors {W} `{!View Val W} (view : W) : snapshot :=
  fold_left (fun snap o =>
    if HasVector view (ID o)
    then match AddDataObject snap o with Ok snap => snap | _ => snap end
    else snap) (SelectAll view) NewSnapshot.

(** ** Patches ([patch.go]) *)

Record Patch (W : Type) := mkPatch {
  base : W;
  diff : snapshot;
  deletedObjects : list ksuid;
  deletedVectors : list ksuid;
}.
Arguments mkPatch {W}.
Arguments base {W}.
Arguments diff {W}.
Arguments deletedObjects {W}.
Arguments deletedVectors {W}.

Section patch.
Context {W : Type} `{!View Val W}.

Definition NewPatch (w : W) : Patch W := mkPatch w NewSnapshot [] [].

Definition patch_Lookup (p : Patch W) (id : ksuid) : outcome error dobject :=
  match Lookup (diff p) id with Ok o => Ok o | _ => Lookup (base p) id end.
Definition patch_HasVector (p : Patch W) (id : ksuid) : bool :=
  HasVector (diff p) id || HasVector (base p) id.
Definition patch_Select (p : Patch W) (scan : dobject -> bool) : list dobject :=
  Select (base p) scan ++ Select (diff p) scan.
Definition patch_SelectAll (p : Patch W) : list dobject :=
  SelectAll (base p) ++ SelectAll (diff p).
Definition DataObjects (p : Patch W) : list ksuid := map ID (SelectAll (diff p)).

#[export] Instance patch_view : View Val (Patch W) := {
  Lookup := patch_Lookup; HasVector := patch_HasVector;
  Select := patch_Select; SelectAll := patch_SelectAll;
}.

Definition with_diff (p : Patch W) (d : snapshot) : Patch W :=
  mkPatch (base p) d (deletedObjects p) (deletedVectors p).

Definition patch_AddDataObject (p : Patch W) (o : dobject) : outcome error (Patch W) :=
  if Exists (base p) (ID o) then Err ErrExists
  else d ← AddDataObject (diff p) o; Ok (with_diff p d).
Definition patch_DeleteObject (p : Patch W) (id : ksuid) : outcome error (Patch W) :=
  if Exists (diff p) id then d ← DeleteObject (diff p) id; Ok (with_diff p d)
  else if negb (Exists (base p) id) then Err ErrNotFound
  else Ok (mkPatch (base p) (diff p) (deletedObjects p ++ [id]) (deletedVectors p)).
Definition patch_AddVector (p : Patch W) (id : ksuid) : outcome error (Patch W) :=
  if HasVector p id then Err ErrExists
  else d ← AddVector (diff p) id; Ok (with_diff p d).
Definition patch_DeleteVector (p : Patch W) (id : ksuid) : outcome error (Patch W) :=
  if HasVector (diff p) id then d ← DeleteVector (diff p) id; Ok (with_diff p d)
  else if negb (HasVector (base p) id) then Err ErrNotFound
  else Ok (mkPatch (base p) (diff p) (deletedObjects p) (deletedVectors p ++ [id])).

#[export] Instance patch_writeable : Writeable Val (Patch W) := {
  AddDataObject := patch_AddDataObject; DeleteObject := patch_DeleteObject;
  AddVector := patch_AddVector; DeleteVector := patch_DeleteVector;
}.

Definition NewCommitObject (p : Patch W) (parent : ksuid) (m : msg) : Object :=
  let o := NewObject parent m in
  let o := fold_left appendDelete (deletedObjects p) o in
  let o := fold_left appendAdd (range (objects (diff p))).*2 o in
  let o := fold_left appendDeleteVector (deletedVectors p) o in
  fold_left appendAddVector (range (vectors (diff p))).*1 o.

(** The deletes of a revert: the objects the patch adds that the tip has. *)
Fixpoint revert_adds (tip : snapshot) (added : list dobject) (o : Object) : Object :=
  match added with
  | [] => o
  | d :: added => revert_adds tip added (if Exists tip (ID d) then appendDelete o (ID d) else o)
  end.
(** The adds of a revert: the objects the patch deletes that the tip lacks. *)
Fixpoint revert_deletes (p : Patch W) (tip : snapshot) (ids : list ksuid) (o : Object) : outcome error Object :=
  match ids with
  | [] => Ok o
  | id :: ids =>
      d ← Lookup (base p) id;
      revert_deletes p tip ids (if Exists tip (ID d) then o else appendAdd o d)
  end.
Definition Revert (p : Patch W) (tip : snapshot) (parent : ksuid) (m : msg) : outcome error Object :=
  let o := revert_adds tip (SelectAll (diff p)) (NewObject parent m) in
  o ← revert_deletes p tip (deletedObjects p) o;
  if (length (Actions o) =? 1)%nat then Err ErrRevertEmpty else Ok o.
End patch.

Section diff.
Context {W : Type} `{!View Val W}.

Fixpoint diff_adds (parent child : Patch W) (os : list dobject) (p : Patch (Patch W)) (dirty : bool) :
    outcome error (Patch (Patch W) * bool) :=
  match os with
  | [] => Ok (p, dirty)
  | o :: os =>
      if Exists parent (ID o) then diff_adds parent child os p dirty
      else if decide (ID o ∈ deletedObjects child) then Err (ErrParentDeletes (ID o))
      else p ← AddDataObject p o; diff_adds parent child os p true
  end.
Fixpoint diff_deletes (parent : Patch W) (ids : list ksuid) (p : Patch (Patch W)) (dirty : bool) :
    outcome error (Patch (Patch W) * bool) :=
  match ids with
  | [] => Ok (p, dirty)
  | id :: ids =>
      if Exists parent id then p ← DeleteObject p id; diff_deletes parent ids p true
      else Err (ErrDeleteConflict id)
  end.
Definition Diff (parent child : Patch W) : outcome error (Patch (Patch W)) :=
  pd ← diff_adds parent child (SelectAll child) (NewPatch parent) false;
  pd ← diff_deletes parent (deletedObjects child) pd.1 pd.2;
  if negb pd.2 then Err ErrEmptyDiff else Ok pd.1.
End diff.

(** ** Serialized commit objects ([object.go]) *)

Context `{!Stream Action}.

Definition Serialize (o : Object) : outcome error (list byte) :=
  match enc (Actions o) with
  | [] => Err ErrEmptyTransaction
  | b => Ok b
  end.
Definition DecodeObject (b : list byte) : outcome error Object :=
  match dec b with
  | None => Err ErrDecode
  | Some [] => Ok (mkCommit Nil Nil [])
  | Some ((Commit id parent _ _ _ _ _ :: _) as acts) => Ok (mkCommit id parent acts)
  | Some _ => Err ErrBadCommitObject
  end.

(** ** The store ([store.go]) *)

Context {C : Type -> Type} `{!ARC C}.

(** [files] are the commit objects under the store's path and [snaps] the
    snapshots kept beside them. *)
Record Store := mkStore {
  files : gmap ksuid (list byte);
  snaps : gmap ksuid (list byte);
  cache : C Object;
  paths : C (list ksuid);
  snapshots : C snapshot;
}.

Definition OpenStore (files snaps : gmap ksuid (list byte)) : Store :=
  mkStore files snaps arc_new arc_new arc_new.

(** Every operation may change the caches, also when it fails. *)
Definition SM (A : Type) : Type := Store -> outcome error A * Store.
#[export] Instance SM_ret : MRet SM := fun A a s => (Ok a, s).
#[export] Instance SM_bind : MBind SM := fun A B f m s =>
  match m s with
  | (Ok a, s) => f a s
  | (Err e, s) => (Err e, s)
  | (Panic, s) => (Panic, s)
  end.
Definition lift {A} (m : outcome error A) : SM A := fun s => (m, s).

Definition with_cache (c : C Object) (s : Store) : Store :=
  mkStore (files s) (snaps s) c (paths s) (snapshots s).
Definition with_paths (c : C (list ksuid)) (s : Store) : Store :=
  mkStore (files s) (snaps s) (cache s) c (snapshots s).
Definition with_snapshots (c : C snapshot) (s : Store) : Store :=
  mkStore (files s) (snaps s) (cache s) (paths s) c.

Definition cache_get (k : ksuid) : SM (option Object) :=
  fun s => let '(v, c) := arc_get k (cache s) in (Ok v, with_cache c s).
Definition paths_get (k : ksuid) : SM (option (list ksuid)) :=
  fun s => let '(v, c) := arc_get k (paths s) in (Ok v, with_paths c s).
Definition snapshots_get (k : ksuid) : SM (option snapshot) :=
  fun s => let '(v, c) := arc_get k (snapshots s) in (Ok v, with_snapshots c s).
Definition cache_add (k : ksuid) (v : Object) : SM unit :=
  fun s => (Ok tt, with_cache (arc_add k v (cache s)) s).
Definition paths_add (k : ksuid) (v : list ksuid) : SM unit :=
  fun s => (Ok tt, with_paths (arc_add k v (paths s)) s).
Definition snapshots_add (k : ksuid) (v : snapshot) : SM unit :=
  fun s => (Ok tt, with_snapshots (arc_add k v (snapshots s)) s).

Definition engine_get (k : ksuid) : SM (list byte) :=
  fun s => (match files s !! k with Some b => Ok b | None => Err ErrNotExist end, s).

Definition Get (commit : ksuid) : SM Object :=
  hit ← cache_get commit;
  match hit with
  | Some o => mret o
  | None =>
      b ← engine_get commit;
      o ← lift (DecodeObject b);
      _ ← cache_add commit o;
      mret o
  end.

Definition engine_put (k : ksuid) (b : list byte) : SM unit :=
  fun s => (Ok tt, mkStore (<[k := b]> (files s)) (snaps s) (cache s) (paths s) (snapshots s)).

Definition Put (o : Object) : SM unit :=
  b ← lift (Serialize o); engine_put (commit_of o) b.

Definition Remove (o : Object) : SM unit :=
  fun s => match files s !! commit_of o with
           | None => (Err ErrNotExist, s)
           | Some _ =>
               (Ok tt, mkStore (delete (commit_of o) (files s)) (snaps s) (cache s) (paths s) (snapshots s))
           end.

Definition getSnapshot (commit : ksuid) : SM snapshot :=
  fun s => (match snaps s !! commit with Some b => decodeSnapshot b | None => Err ErrNotExist end, s).
Definition putSnapshot (commit : ksuid) (snap : snapshot) : SM unit :=
  fun s => (Ok tt, mkStore (files s) (<[commit := serialize snap]> (snaps s)) (cache s) (paths s) (snapshots s)).

(** The stored snapshot of a commit, which is then cached; an error reading it
    is logged and the snapshot is taken not to exist. *)
Definition try_snapshot (commit : ksuid) : SM (option snapshot) := fun s =>
  match getSnapshot commit s with
  | (Ok snap, s) => (_ ← snapshots_add commit snap; mret (Some snap)) s
  | (_, s) => (Ok None, s)
  end.

(** The number of commits a walk to the root can visit. *)
Definition walk_fuel (s : Store) : nat := S (size (files s) + size (contents (cache s))).

(** The walk of [Snapshot] to the closest ancestor that has a snapshot: its
    snapshot, and the commit objects below it, the closest to it first. *)
Fixpoint collect (fuel : nat) (at_ : ksuid) (os : list Object) : SM (option snapshot * list Object) :=
  if at_ =? Nil then mret (None, os)
  else match fuel with
       | O => lift (Err ErrDiverges)
       | S fuel =>
           hit ← snapshots_get at_;
           match hit with
           | Some snap => mret (Some snap, os)
           | None =>
               found ← try_snapshot at_;
               match found with
               | Some snap => mret (Some snap, os)
               | None => o ← Get at_; collect fuel (Parent o) (o :: os)
               end
           end
       end.

Definition collect_from (leaf : ksuid) : SM (option snapshot * list Object) :=
  fun s => collect (walk_fuel s) leaf [] s.

Fixpoint play_all {W} `{!Writeable Val W} (w : W) (os : list Object) : outcome error W :=
  match os with
  | [] => Ok w
  | o :: os => w ← Play w o; play_all w os
  end.

Definition Snapshot (leaf : ksuid) : SM snapshot :=
  hit ← snapshots_get leaf;
  match hit with
  | Some snap => mret snap
  | None =>
      found ← try_snapshot leaf;
      match found with
      | Some snap => mret snap
      | None =>
          bos ← collect_from leaf;
          let snap := match bos.1 with Some b => Copy b | None => NewSnapshot end in
          snap ← lift (play_all snap bos.2);
          _ ← putSnapshot leaf snap;
          _ ← snapshots_add leaf snap;
          mret snap
      end
  end.

(** The ids of a cached path up to and including [to]. *)
Fixpoint take_to (to : ksuid) (path : list ksuid) : list ksuid :=
  match path with
  | [] => []
  | id :: path => if id =? to then [id] else id :: take_to to path
  end.

Fixpoint path_range (fuel : nat) (at_ to : ksuid) : SM (list ksuid) :=
  if at_ =? Nil then mret []
  else match fuel with
       | O => lift (Err ErrDiverges)
       | S fuel =>
           hit ← paths_get at_;
           match hit with
           | Some path => mret (take_to to path)
           | None =>
               o ← Get at_;
               if at_ =? to then mret [at_]
               else rest ← path_range fuel (Parent o) to; mret (at_ :: rest)
           end
       end.
Definition PathRange (from to : ksuid) : SM (list ksuid) := fun s => path_range (walk_fuel s) from to s.

Definition Path (leaf : ksuid) : SM (list ksuid) :=
  if leaf =? Nil then lift (Err ErrNilPath)
  else
    hit ← paths_get leaf;
    match hit with
    | Some path => mret path
    | None =>
        path ← PathRange leaf Nil;
        _ ← paths_add leaf path;
        mret path
    end.

(** [GetBytes] reads storage, not the cache; the parent is that of the first
    action of the file. *)
Definition GetBytes (commit : ksuid) : SM (list byte * ksuid) :=
  b ← engine_get commit;
  match dec b with
  | None => lift (Err ErrDecode)
  | Some (Commit _ parent _ _ _ _ _ :: _) => lift (Ok (b, parent))
  | Some _ => lift (Err ErrNotCommitAction)
  end.

Fixpoint read_all (fuel : nat) (commit stop : ksuid) (out : list byte) : SM (list byte) :=
  if (commit =? Nil) || (commit =? stop) then mret out
  else match fuel with
       | O => lift (Err ErrDiverges)
       | S fuel => bp ← GetBytes commit; read_all fuel bp.2 stop (bp.1 ++ out)
       end.
Definition ReadAll (commit stop : ksuid) : SM (list byte) :=
  fun s => read_all (walk_fuel s) commit stop [] s.

(** [PatchOfCommit] and [PatchOfPath] *)
Definition PatchOfCommit (commit : ksuid) : SM (Patch snapshot) :=
  path ← Path commit;
  base ← match path with
         | [] => lift (Err ErrPathless)
         | [_] => mret NewSnapshot
         | _ :: parent :: _ => Snapshot parent
         end;
  o ← Get commit;
  lift (Play (NewPatch base) o).

Fixpoint play_path (p : Patch snapshot) (path : list ksuid) : SM (Patch snapshot) :=
  match path with
  | [] => mret p
  | id :: path => o ← Get id; p ← lift (Play p o); play_path p path
  end.
Definition PatchOfPath (base : snapshot) (baseID commit : ksuid) : SM (Patch snapshot) :=
  path ← PathRange commit baseID;
  if (length path <? 2)%nat then mret (NewPatch base)
  else play_path (NewPatch base) (rev (removelast path)).

(** [Vacuumable] sends the objects; a commit that cannot be read ends the walk
    without an error. *)
Definition vacuumed (snap : snapshot) (a : Action) : list dobject :=
  match a with
  | Add _ o => if Exists snap (ID o) then [] else [o]
  | _ => []
  end.
Fixpoint vacuum (fuel : nat) (snap : snapshot) (leaf at_ : ksuid) (out : list dobject) : SM (list dobject) :=
  if at_ =? Nil then mret out
  else match fuel with
       | O => lift (Err ErrDiverges)
       | S fuel => fun s =>
           match Get at_ s with
           | (Ok o, s) =>
               let out := if commit_of o =? leaf then out
                          else out ++ concat (map (vacuumed snap) (Actions o)) in
               vacuum fuel snap leaf (Parent o) out s
           | (_, s) => (Ok out, s)
           end
       end.
Definition vacuum_from (snap : snapshot) (leaf : ksuid) : SM (list dobject) :=
  fun s => vacuum (walk_fuel s) snap leaf leaf [] s.
Definition Vacuumable (leaf : ksuid) : SM (list dobject) :=
  snap ← Snapshot leaf; vacuum_from snap leaf.
End store.
Arguments Patch : clear implicits.
Arguments Store : clear implicits.
