(* ===== verification/CommitProofs.v ===== *)
(** * Snapshots and the commit store

    A stored snapshot decodes to the snapshot that was serialized; and whatever
    the caches and the stored snapshots hold, as long as they are coherent with
    the commit objects, every operation of the store returns what the commit
    objects alone say, and keeps the caches coherent. *)

From S2P Require Import Prelude Commits.
Local Open Scope Z_scope.

Section snapshots.
Context {Val : Type} `{!GoRange}.
Local Abbreviation snapshot := (snapshot Val).
Local Abbreviation Action := (Action Val).

(** Every object is filed under its own ID. *)
Definition wf_snap (s : snapshot) : Prop := map_Forall (fun id o => ID o = id) (objects s).

Lemma wf_NewSnapshot : wf_snap NewSnapshot.
Proof. by intros id o Ho. Qed.

Lemma PlayAction_wf (s s' : snapshot) a : wf_snap s -> PlayAction s a = Ok s' -> wf_snap s'.
Proof.
  intros Hs. destruct a; simpl; unfold snap_AddDataObject, snap_DeleteObject, snap_AddVector, snap_DeleteVector;
    repeat case_match; intros; simplify_eq; try done; intros id' o'; simpl.
  - rewrite lookup_insert_Some. intros [[<- <-]|[_ Ho]]; [done|by apply Hs].
  - rewrite lookup_delete_Some. intros [_ Ho]. by apply Hs.
Qed.

Lemma play_app {W} `{!Writeable Val W} (w : W) l k :
  play w (l ++ k) = (w ← play w l; play w k).
Proof.
  revert w. induction l as [|a l IH]; intros w; [done|]. simpl.
  destruct (PlayAction w a) as [w'| |]; [apply IH|done|done].
Qed.

Lemma play_wf (s s' : snapshot) l : wf_snap s -> play s l = Ok s' -> wf_snap s'.
Proof.
  revert s. induction l as [|a l IH]; intros s Hs Hp; simpl in Hp; [by simplify_eq|].
  apply bind_Ok in Hp as (w & Ha & Hp). eapply IH; [|done]. by eapply PlayAction_wf.
Qed.

Lemma range_NoDup {A} (m : gmap Z A) : NoDup (range m).*1.
Proof. rewrite (range_perm m). apply NoDup_fst_map_to_list. Qed.

Lemma list_to_map_range {A} (m : gmap Z A) : list_to_map (range m) = m.
Proof.
  transitivity (list_to_map (M := gmap Z A) (map_to_list m)); [|apply list_to_map_to_list].
  apply list_to_map_proper; [apply range_NoDup|apply range_perm].
Qed.

Lemma elem_of_range {A} (m : gmap Z A) k v : (k, v) ∈ range m <-> m !! k = Some v.
Proof. rewrite (range_perm m). apply elem_of_map_to_list. Qed.

Lemma elem_of_range_keys {A} (m : gmap Z A) k : k ∈ (range m).*1 <-> is_Some (m !! k).
Proof.
  rewrite list_elem_of_fmap. split.
  - intros ([k' v] & -> & Hr). apply elem_of_range in Hr. eauto.
  - intros [v Hv]. exists (k, v). by rewrite elem_of_range.
Qed.

(** [Copy] loses nothing. *)
Lemma Copy_eq (s : snapshot) : Copy s = s.
Proof. destruct s. unfold Copy. simpl. by rewrite !list_to_map_range. Qed.

(** Adds of distinct new objects build the map of these objects. *)
Lemma play_adds (f : dobject Val -> Action) (s : snapshot) l :
  (forall o, exists c, f o = Add c o) ->
  NoDup l.*1 -> Forall (fun p => ID p.2 = p.1 /\ objects s !! p.1 = None) l ->
  play s (map f l.*2) = Ok (mkSnap (list_to_map l ∪ objects s) (vectors s)).
Proof.
  intros Hf. revert s. induction l as [|[id o] l IH]; intros s Hnd Hl.
  { destruct s. simpl. by rewrite (left_id_L ∅ (∪)). }
  inversion_clear Hnd as [|? ? Hid Hnd']. apply Forall_cons in Hl as [[Hoid Hnone] Hl]. simpl in *.
  destruct (Hf o) as [c ->]. simpl. unfold snap_AddDataObject. rewrite Hoid, Hnone. simpl.
  rewrite IH; [|done|].
  - simpl. do 2 f_equal. rewrite <- insert_union_l. rewrite <- insert_union_r; [done|].
    by apply not_elem_of_list_to_map_1.
  - apply Forall_forall. intros [id' o'] Hin. eapply Forall_forall in Hl as [? ?]; [|done]. split; [done|].
    simpl in *. rewrite lookup_insert_ne; [done|]. intros ->. apply Hid. apply list_elem_of_fmap. by exists (id', o').
Qed.

Lemma play_vecs (f : ksuid -> Action) (s : snapshot) (l : list (Z * unit)) :
  (forall id, exists c, f id = AddVec c id) ->
  NoDup l.*1 -> Forall (fun p => vectors s !! p.1 = None) l ->
  play s (map f l.*1) = Ok (mkSnap (objects s) (list_to_map l ∪ vectors s)).
Proof.
  intros Hf. revert s. induction l as [|[id []] l IH]; intros s Hnd Hl.
  { destruct s. simpl. by rewrite (left_id_L ∅ (∪)). }
  inversion_clear Hnd as [|? ? Hid Hnd']. apply Forall_cons in Hl as [Hnone Hl]. simpl in *.
  destruct (Hf id) as [c ->]. simpl. unfold snap_AddVector. rewrite Hnone. simpl.
  rewrite IH; [|done|].
  - simpl. do 2 f_equal. rewrite <- insert_union_l. rewrite <- insert_union_r; [done|].
    by apply not_elem_of_list_to_map_1.
  - apply Forall_forall. intros [id' []] Hin. eapply Forall_forall in Hl; [|done].
    simpl in *. rewrite lookup_insert_ne; [done|]. intros ->. apply Hid. apply list_elem_of_fmap. by exists (id', tt).
Qed.

Lemma range_keyed (s : snapshot) :
  wf_snap s -> Forall (fun p => ID p.2 = p.1) (range (objects s)).
Proof. intros Hs. apply Forall_forall. intros [id o] Hin. apply elem_of_range in Hin. by apply Hs. Qed.

Lemma decodeSnapshot_serialize `{!Stream Action} (s : snapshot) :
  wf_snap s -> decodeSnapshot (serialize s) = Ok s.
Proof.
  intros Hs. unfold decodeSnapshot, serialize.
  pose proof (dec_enc [snapshot_actions s]) as Hd. simpl in Hd. rewrite !app_nil_r in Hd. rewrite Hd.
  unfold snapshot_actions. rewrite play_app, (play_adds (fun o => Add Nil o)); [simpl|eauto|apply range_NoDup|].
  - rewrite (play_vecs (fun id => AddVec Nil id)); [|eauto|apply range_NoDup|by apply Forall_true].
    simpl. rewrite !list_to_map_range, !(right_id_L ∅ (∪)). by destruct s.
  - eapply Forall_impl; [by apply range_keyed|]. intros [id o] Ho. done.
Qed.
End snapshots.

(** ** The commit objects of a store *)

Section store.
Context {Val : Type} `{!GoRange} `{!Stream (Action Val)} {C : Type -> Type} `{!ARC C}.
Local Abbreviation snapshot := (snapshot Val).
Local Abbreviation Object := (Object Val).
Local Abbreviation Store := (Store Val C).
Local Abbreviation filemap := (gmap ksuid (list byte)).

Definition decoded (fs : filemap) (id : ksuid) (o : Object) : Prop :=
  exists b, fs !! id = Some b /\ DecodeObject b = Ok o.

(** The commit objects from a commit to the root of its branch, with the ids
    they are filed under. *)
Inductive chain (fs : filemap) : ksuid -> list (ksuid * Object) -> Prop :=
| chain_root : chain fs Nil []
| chain_commit id o l : id <> Nil -> decoded fs id o -> chain fs (Parent o) l -> chain fs id ((id, o) :: l).

(** The snapshot at a commit: all the actions from the root, played. *)
Definition replay (l : list (ksuid * Object)) : outcome error snapshot :=
  play_all NewSnapshot (rev l.*2).

(** The caches and the stored snapshots say what the commit objects say. *)
Record coherent (s : Store) : Prop := mkCoherent {
  coh_cache id o : contents (cache s) !! id = Some o -> decoded (files s) id o;
  coh_paths id p : contents (paths s) !! id = Some p -> exists l, id <> Nil /\ chain (files s) id l /\ p = l.*1;
  coh_snapshots id sn : contents (snapshots s) !! id = Some sn ->
    exists l, chain (files s) id l /\ replay l = Ok sn;
  coh_snaps id b sn : snaps s !! id = Some b -> decodeSnapshot b = Ok sn ->
    exists l, chain (files s) id l /\ replay l = Ok sn;
}.

Lemma coherent_open fs : coherent (OpenStore fs ∅).
Proof.
  split; simpl; intros *; rewrite ?contents_new, ?lookup_empty; done.
Qed.

(** *** Facts on chains *)

Lemma decoded_inj fs id (o o' : Object) : decoded fs id o -> decoded fs id o' -> o = o'.
Proof. intros (b & Hb & Ho) (b' & Hb' & Ho'). congruence. Qed.

Lemma chain_inj fs id l l' : chain fs id l -> chain fs id l' -> l = l'.
Proof.
  intros Hc. revert l'. induction Hc as [|id o l Hid Ho Hc IH]; intros l' Hc'; inversion Hc' as [|? o' l'' ? Ho']; subst; try done.
  assert (o' = o) as -> by by eapply decoded_inj. f_equal. by apply IH.
Qed.

Lemma chain_in fs id l i o : chain fs id l -> (i, o) ∈ l -> i <> Nil /\ decoded fs i o.
Proof.
  induction 1 as [|id o' l Hid Ho Hc IH]; [by intros ?%not_elem_of_nil|].
  rewrite elem_of_cons. intros [[= -> ->]|Hin]; [done|by apply IH].
Qed.

Lemma chain_suffix fs id l l1 i o l2 : chain fs id l -> l = l1 ++ (i, o) :: l2 -> chain fs i ((i, o) :: l2).
Proof.
  intros Hc. revert l1. induction Hc as [|id o' l Hid Ho Hc IH]; intros l1 Heq; [by destruct l1|].
  destruct l1 as [|x l1]; simplify_eq/=; [by apply chain_commit|by eapply IH].
Qed.

(** The chain of a commit has no cycle. *)
Lemma chain_NoDup fs id l : chain fs id l -> NoDup l.*1.
Proof.
  induction 1 as [|id o l Hid Ho Hc IH]; [constructor|]. simpl. constructor; [|done].
  intros ([i' o'] & Hi & Hin)%list_elem_of_fmap. simpl in Hi. subst i'.
  apply list_elem_of_split in Hin as (l1 & l2 & ->).
  pose proof (chain_suffix _ _ _ _ _ _ _ Hc eq_refl) as Hc2.
  assert (Hc1 : chain fs id ((id, o) :: l1 ++ (id, o') :: l2)) by by apply chain_commit.
  pose proof (chain_inj _ _ _ _ Hc1 Hc2) as Heq. apply (f_equal length) in Heq.
  simpl in Heq. rewrite length_app in Heq. simpl in Heq. lia.
Qed.

Lemma chain_length fs id l : chain fs id l -> (length l <= size fs)%nat.
Proof.
  intros Hc. rewrite <- (size_dom fs), <- (length_fmap fst), <- (size_list_to_set (C := gset ksuid)).
  - apply subseteq_size. intros i. rewrite elem_of_list_to_set, list_elem_of_fmap.
    intros ([i' o] & -> & Hin). apply (chain_in _ _ _ _ _ Hc) in Hin as (_ & b & Hb & _).
    apply elem_of_dom. eauto.
  - by eapply chain_NoDup.
Qed.

Lemma play_all_app {W} `{!Writeable Val W} (w : W) l k :
  play_all w (l ++ k) = (w ← play_all w l; play_all w k).
Proof.
  revert w. induction l as [|o l IH]; intros w; [done|]. simpl. destruct (Play w o); [apply IH|done|done].
Qed.

Lemma play_all_wf (sn sn' : snapshot) os : wf_snap sn -> play_all sn os = Ok sn' -> wf_snap sn'.
Proof.
  revert sn. induction os as [|o os IH]; intros sn Hs Hp; simpl in Hp; [by simplify_eq|].
  apply bind_Ok in Hp as (w & Ho & Hp). eapply IH; [|done]. by eapply play_wf.
Qed.

Lemma replay_wf l sn : replay l = Ok sn -> wf_snap sn.
Proof. apply play_all_wf, wf_NewSnapshot. Qed.

Lemma replay_cons i o l : replay ((i, o) :: l) = (sn ← replay l; Play sn o).
Proof.
  unfold replay. simpl. rewrite play_all_app. simpl. change (list_fmap _ _ snd l) with l.*2.
  destruct (play_all _ (rev l.*2)) as [sn| |]; [|done..]. simpl. by destruct (Play sn o).
Qed.

Lemma replay_app l k : replay (l ++ k) = (sn ← replay k; play_all sn (rev l.*2)).
Proof. unfold replay. by rewrite fmap_app, rev_app_distr, play_all_app. Qed.

(** *** Reads: the result is determined by the files *)

Definition reads {A} (m : SM A) (s : Store) (r : outcome error A) : Prop :=
  exists s', m s = (r, s') /\ coherent s' /\ files s' = files s.

Lemma reads_ret {A} (a : A) s : coherent s -> reads (mret a) s (Ok a).
Proof. intros Hs. by exists s. Qed.

Lemma reads_lift {A} (r : outcome error A) s : coherent s -> reads (lift r) s r.
Proof. intros Hs. by exists s. Qed.

Lemma reads_bind {A B} (m : SM A) (f : A -> SM B) s a r :
  reads m s (Ok a) -> (forall s', coherent s' -> files s' = files s -> reads (f a) s' r) ->
  reads (m ≫= f) s r.
Proof.
  intros (s' & Hm & Hs' & Hf) Hk. destruct (Hk s' Hs' Hf) as (s'' & Hm' & Hs'' & Hf').
  exists s''. split; [|split; [done|congruence]]. unfold mbind, SM_bind. by rewrite Hm.
Qed.

Lemma reads_bind_fail {A B} (m : SM A) (f : A -> SM B) s e :
  reads m s (Err e) -> reads (m ≫= f) s (Err e).
Proof. intros (s' & Hm & Hs'). exists s'. unfold mbind, SM_bind. by rewrite Hm. Qed.

Lemma reads_cache_get id s : coherent s -> reads (cache_get id) s (Ok (contents (cache s) !! id)).
Proof.
  intros Hs. unfold cache_get, reads. destruct (arc_get id (cache s)) as [v c] eqn:Hg.
  pose proof (arc_get_hit id (cache s)) as Hh. pose proof (arc_get_contents id (cache s)) as Hc.
  rewrite Hg in Hh, Hc. simpl in *. subst v. exists (with_cache c s). split; [done|]. split; [|done].
  destruct Hs as [H1 H2 H3 H4]. split; simpl; rewrite ?Hc; done.
Qed.
Lemma reads_paths_get id s : coherent s -> reads (paths_get id) s (Ok (contents (paths s) !! id)).
Proof.
  intros Hs. unfold paths_get, reads. destruct (arc_get id (paths s)) as [v c] eqn:Hg.
  pose proof (arc_get_hit id (paths s)) as Hh. pose proof (arc_get_contents id (paths s)) as Hc.
  rewrite Hg in Hh, Hc. simpl in *. subst v. exists (with_paths c s). split; [done|]. split; [|done].
  destruct Hs as [H1 H2 H3 H4]. split; simpl; rewrite ?Hc; done.
Qed.
Lemma reads_snapshots_get id s : coherent s -> reads (snapshots_get id) s (Ok (contents (snapshots s) !! id)).
Proof.
  intros Hs. unfold snapshots_get, reads. destruct (arc_get id (snapshots s)) as [v c] eqn:Hg.
  pose proof (arc_get_hit id (snapshots s)) as Hh. pose proof (arc_get_contents id (snapshots s)) as Hc.
  rewrite Hg in Hh, Hc. simpl in *. subst v. exists (with_snapshots c s). split; [done|]. split; [|done].
  destruct Hs as [H1 H2 H3 H4]. split; simpl; rewrite ?Hc; done.
Qed.

Lemma contents_add_inv {A} k (v : A) c k' v' :
  contents (arc_add k v c) !! k' = Some v' -> (k' = k /\ v' = v) \/ contents c !! k' = Some v'.
Proof.
  intros Hk. apply (lookup_weaken _ (<[k := v]> (contents c))) in Hk; [|apply contents_add].
  apply lookup_insert_Some in Hk as [[-> ->]|[_ Hk]]; eauto.
Qed.

Lemma reads_cache_add id o s : coherent s -> decoded (files s) id o -> reads (cache_add id o) s (Ok tt).
Proof.
  intros Hs Ho. eexists. split; [done|]. split; [|done]. destruct Hs. split; simpl; try done.
  intros i o' [[-> ->]|Hi]%contents_add_inv; eauto.
Qed.
Lemma reads_paths_add id l s : coherent s -> id <> Nil -> chain (files s) id l -> reads (paths_add id l.*1) s (Ok tt).
Proof.
  intros Hs Hid Hl. eexists. split; [done|]. split; [|done]. destruct Hs. split; simpl; try done.
  intros i p [[-> ->]|Hi]%contents_add_inv; eauto.
Qed.
Lemma reads_snapshots_add id l sn s :
  coherent s -> chain (files s) id l -> replay l = Ok sn -> reads (snapshots_add id sn) s (Ok tt).
Proof.
  intros Hs Hl Hr. eexists. split; [done|]. split; [|done]. destruct Hs. split; simpl; try done.
  intros i p [[-> ->]|Hi]%contents_add_inv; eauto.
Qed.
Lemma reads_putSnapshot id l sn s :
  coherent s -> chain (files s) id l -> replay l = Ok sn -> reads (putSnapshot id sn) s (Ok tt).
Proof.
  intros Hs Hl Hr. eexists. split; [done|]. split; [|done]. destruct Hs. split; simpl; try done.
  intros i b sn' [[<- <-]|[_ Hi]]%lookup_insert_Some; [|by eauto].
  rewrite decodeSnapshot_serialize by by eapply replay_wf. intros [= <-]. eauto.
Qed.

(** *** Get *)

Lemma reads_Get id o s : coherent s -> decoded (files s) id o -> reads (Get id) s (Ok o).
Proof.
  intros Hs Ho. unfold Get. eapply reads_bind; [by apply reads_cache_get|]. intros s1 Hs1 Hf1.
  destruct (contents (cache s) !! id) as [o'|] eqn:Hhit.
  - apply (coh_cache _ Hs) in Hhit. assert (o' = o) as -> by by eapply decoded_inj. by apply reads_ret.
  - destruct Ho as (b & Hb & Ho).
    eapply (reads_bind _ _ _ b); [exists s1; split; [|done]; unfold engine_get; by rewrite Hf1, Hb|].
    intros s2 Hs2 Hf2. rewrite Ho. eapply reads_bind; [by apply reads_lift|]. intros s3 Hs3 Hf3.
    eapply reads_bind; [apply reads_cache_add; [done|]|].
    { exists b. split; [congruence|done]. }
    intros. by apply reads_ret.
Qed.

Lemma try_snapshot_spec id s :
  coherent s -> exists r s', try_snapshot id s = (Ok r, s') /\ coherent s' /\ files s' = files s /\
    forall sn, r = Some sn -> exists l, chain (files s) id l /\ replay l = Ok sn.
Proof.
  intros Hs. unfold try_snapshot, getSnapshot.
  destruct (snaps s !! id) as [b|] eqn:Hb; [|by exists None, s].
  destruct (decodeSnapshot b) as [sn|e|] eqn:Hd; [|by exists None, s|by exists None, s].
  destruct (coh_snaps _ Hs _ _ _ Hb Hd) as (l & Hl & Hr).
  destruct (reads_snapshots_add id l sn s Hs Hl Hr) as (s' & Ha & Hs' & Hf').
  exists (Some sn), s'. unfold mbind, SM_bind. rewrite Ha. split_and!; [done..|]. intros ? [= <-]. eauto.
Qed.

(** *** Snapshot *)

(** The walk stops at an ancestor whose snapshot is known, or at the root; what
    it returns is the part of the chain below it. *)
Lemma collect_spec fs id l :
  chain fs id l -> forall fuel os s, coherent s -> files s = fs -> (length l < fuel)%nat ->
  exists b l1 l2 s', collect fuel id os s = (Ok (b, rev l1.*2 ++ os), s') /\ coherent s' /\ files s' = fs /\
    l = l1 ++ l2 /\ match b with Some sn => replay l2 = Ok sn | None => l2 = [] end.
Proof.
  induction 1 as [|id o l Hid Ho Hc IH]; intros fuel os s Hs Hfs Hfuel.
  { exists None, [], [], s. by destruct fuel. }
  destruct fuel as [|fuel]; [simpl in Hfuel; lia|]. simpl in Hfuel.
  assert (Hcons : chain fs id ((id, o) :: l)) by by apply chain_commit.
  assert (Hstop : forall s1 sn, coherent s1 -> files s1 = fs ->
    (exists l', chain fs id l' /\ replay l' = Ok sn) ->
    exists b l1 l2 s', (mret (Some sn, os) : SM _) s1 = (Ok (b, rev l1.*2 ++ os), s') /\ coherent s' /\ files s' = fs /\
    (id, o) :: l = l1 ++ l2 /\ match b with Some sn => replay l2 = Ok sn | None => l2 = [] end).
  { intros s1 sn Hs1 Hf1 (l' & Hl' & Hr). exists (Some sn), [], ((id, o) :: l), s1. split_and!; try done.
    by rewrite (chain_inj _ _ _ _ Hcons Hl'). }
  cbn [collect]. rewrite (proj2 (Z.eqb_neq id Nil) Hid).
  destruct (reads_snapshots_get id s Hs) as (s1 & E1 & Hs1 & Hf1).
  unfold mbind at 1, SM_bind at 1. rewrite E1.
  destruct (contents (snapshots s) !! id) as [sn|] eqn:Hhit.
  { apply Hstop; [done|congruence|]. destruct (coh_snapshots _ Hs _ _ Hhit) as (l' & ? & ?). exists l'. by rewrite <- Hfs. }
  destruct (try_snapshot_spec id s1 Hs1) as (r & s2 & E2 & Hs2 & Hf2 & Hr).
  unfold mbind at 1, SM_bind at 1. rewrite E2. destruct r as [sn|].
  { apply Hstop; [done|congruence|]. destruct (Hr sn eq_refl) as (l' & ? & ?). exists l'. by rewrite <- Hfs, <- Hf1. }
  destruct (reads_Get id o s2 Hs2) as (s3 & E3 & Hs3 & Hf3); [by rewrite Hf2, Hf1, Hfs|].
  unfold mbind at 1, SM_bind at 1. rewrite E3.
  destruct (IH fuel (o :: os) s3 Hs3 ltac:(congruence) ltac:(lia)) as (b & l1 & l2 & s4 & E4 & Hs4 & Hf4 & -> & Hb).
  exists b, ((id, o) :: l1), l2, s4. split_and!; try done.
  rewrite E4. simpl. by rewrite <- app_assoc.
Qed.

Lemma collect_from_spec s id l :
  coherent s -> chain (files s) id l ->
  exists b l1 l2 s', collect_from id s = (Ok (b, rev l1.*2), s') /\ coherent s' /\ files s' = files s /\
    l = l1 ++ l2 /\ match b with Some sn => replay l2 = Ok sn | None => l2 = [] end.
Proof.
  intros Hs Hc. pose proof (chain_length _ _ _ Hc) as Hlen.
  destruct (collect_spec _ _ _ Hc (walk_fuel s) [] s Hs eq_refl ltac:(unfold walk_fuel; lia)) as (b & l1 & l2 & s' & E & H').
  exists b, l1, l2, s'. by rewrite app_nil_r in E.
Qed.

Lemma reads_Snapshot id l s :
  coherent s -> chain (files s) id l -> reads (Snapshot id) s (replay l).
Proof.
  intros Hs Hc. unfold Snapshot.
  eapply reads_bind; [by apply reads_snapshots_get|]. intros s1 Hs1 Hf1.
  destruct (contents (snapshots s) !! id) as [sn|] eqn:Hhit.
  { destruct (coh_snapshots _ Hs _ _ Hhit) as (l' & Hc' & Hr).
    rewrite (chain_inj _ _ _ _ Hc Hc'), Hr. by apply reads_ret. }
  destruct (try_snapshot_spec id s1 Hs1) as (r & s2 & E2 & Hs2 & Hf2 & Hr).
  eapply (reads_bind _ _ _ r); [exists s2; done|]. intros s3 Hs3 Hf3. destruct r as [sn|].
  { destruct (Hr sn eq_refl) as (l' & Hc' & Hr'). rewrite Hf1 in Hc'.
    rewrite (chain_inj _ _ _ _ Hc Hc'), Hr'. by apply reads_ret. }
  rewrite <- Hf1, <- Hf3 in Hc.
  destruct (collect_from_spec s3 id l Hs3 Hc) as (b & l1 & l2 & s4 & E4 & Hs4 & Hf4 & -> & Hb).
  eapply reads_bind; [by exists s4|]. intros s5 Hs5 Hf5. simpl.
  assert (Heq : play_all match b with Some b0 => Copy b0 | None => NewSnapshot end (rev l1.*2) = replay (l1 ++ l2)).
  { rewrite replay_app. destruct b as [sn|]; [by rewrite Hb, Copy_eq|by subst l2]. }
  rewrite Heq. rewrite <- Hf5 in Hc. destruct (replay (l1 ++ l2)) as [sn|e|] eqn:Hrep.
  - eapply reads_bind; [by apply reads_lift|]. intros s6 Hs6 Hf6. rewrite <- Hf6 in Hc.
    eapply reads_bind; [by eapply reads_putSnapshot|]. intros s7 Hs7 Hf7. rewrite <- Hf7 in Hc.
    eapply reads_bind; [by eapply reads_snapshots_add|]. intros. by apply reads_ret.
  - apply reads_bind_fail. by apply reads_lift.
  - exists s5. done.
Qed.

(** *** Paths and patches *)

Lemma rev_fmap {A B} (f : A -> B) (l : list A) : rev (f <$> l) = f <$> rev l.
Proof. symmetry. apply List.map_rev. Qed.

Lemma reads_bind_r {A B} (m : SM A) (f : A -> SM B) (g : A -> outcome error B) s r :
  reads m s r -> (forall a s', r = Ok a -> coherent s' -> files s' = files s -> reads (f a) s' (g a)) ->
  reads (m ≫= f) s (r ≫= g).
Proof.
  intros (s' & Hm & Hs' & Hf) Hk. unfold reads, mbind, SM_bind. rewrite Hm.
  destruct r as [a|e|]; [|by exists s'..].
  destruct (Hk a s' eq_refl Hs' Hf) as (s'' & Hm' & Hs'' & Hf'). exists s''. by rewrite Hf', Hf.
Qed.

Lemma path_range_spec fs id l to :
  chain fs id l -> forall fuel s, coherent s -> files s = fs -> (length l < fuel)%nat ->
  reads (path_range fuel id to) s (Ok (take_to to l.*1)).
Proof.
  induction 1 as [|id o l Hid Ho Hc IH]; intros fuel s Hs Hfs Hfuel.
  { destruct fuel; by apply reads_ret. }
  destruct fuel as [|fuel]; [simpl in Hfuel; lia|]. simpl in Hfuel. simpl path_range.
  rewrite (proj2 (Z.eqb_neq id Nil) Hid).
  eapply reads_bind; [by apply reads_paths_get|]. intros s1 Hs1 Hf1.
  destruct (contents (paths s) !! id) as [p|] eqn:Hhit.
  { destruct (coh_paths _ Hs _ _ Hhit) as (l' & _ & Hc' & ->). rewrite Hfs in Hc'.
    rewrite (chain_inj _ _ _ _ Hc' (chain_commit _ _ _ _ Hid Ho Hc)). by apply reads_ret. }
  eapply reads_bind; [apply reads_Get; [done|by rewrite Hf1, Hfs]|]. intros s2 Hs2 Hf2. simpl.
  destruct (Z.eqb_spec id to); [by apply reads_ret|].
  eapply reads_bind; [apply IH; [done|congruence|lia]|]. intros. by apply reads_ret.
Qed.

Lemma reads_PathRange id to l s :
  coherent s -> chain (files s) id l -> reads (PathRange id to) s (Ok (take_to to l.*1)).
Proof.
  intros Hs Hc. pose proof (chain_length _ _ _ Hc). unfold PathRange.
  apply (path_range_spec _ _ _ _ Hc (walk_fuel s) s); [done..|unfold walk_fuel; lia].
Qed.

Lemma take_to_missing to p : to ∉ p -> take_to to p = p.
Proof.
  induction p as [|id p IH]; [done|]. rewrite not_elem_of_cons. intros [Hne Hp]. simpl.
  rewrite (proj2 (Z.eqb_neq id to)) by done. by rewrite IH.
Qed.
Lemma take_to_app to p q : to ∉ p -> take_to to (p ++ to :: q) = p ++ [to].
Proof.
  induction p as [|id p IH]; simpl; [by rewrite Z.eqb_refl|]. rewrite not_elem_of_cons. intros [Hne Hp].
  rewrite (proj2 (Z.eqb_neq id to)) by done. by rewrite IH.
Qed.

Lemma chain_not_Nil fs id l : chain fs id l -> Nil ∉ l.*1.
Proof.
  intros Hc ([i o] & Hi & Hin)%list_elem_of_fmap. by apply (chain_in _ _ _ _ _ Hc) in Hin as [? _].
Qed.

Lemma reads_Path id l s :
  coherent s -> id <> Nil -> chain (files s) id l -> reads (Path id) s (Ok l.*1).
Proof.
  intros Hs Hid Hc. unfold Path. rewrite (proj2 (Z.eqb_neq id Nil) Hid).
  eapply reads_bind; [by apply reads_paths_get|]. intros s1 Hs1 Hf1.
  destruct (contents (paths s) !! id) as [p|] eqn:Hhit.
  { destruct (coh_paths _ Hs _ _ Hhit) as (l' & _ & Hc' & ->).
    rewrite (chain_inj _ _ _ _ Hc' Hc). by apply reads_ret. }
  rewrite <- Hf1 in Hc. eapply reads_bind; [by apply reads_PathRange|]. intros s2 Hs2 Hf2.
  rewrite (take_to_missing _ _ (chain_not_Nil _ _ _ Hc)). rewrite <- Hf2 in Hc.
  eapply reads_bind; [by apply reads_paths_add|]. intros. by apply reads_ret.
Qed.

Lemma reads_PatchOfCommit id o l s :
  coherent s -> chain (files s) id ((id, o) :: l) ->
  reads (PatchOfCommit id) s (base ← replay l; Play (NewPatch base) o).
Proof.
  intros Hs Hc. inversion Hc as [|? ? ? Hid Ho Hc']; subst. unfold PatchOfCommit.
  eapply reads_bind; [by apply reads_Path|]. intros s1 Hs1 Hf1.
  rewrite <- Hf1 in Ho, Hc'. apply reads_bind_r.
  - destruct l as [|[i o'] l]; [by apply reads_ret|].
    inversion Hc'; subst. by apply reads_Snapshot.
  - intros base s2 Hb Hs2 Hf2. rewrite <- Hf2 in Ho.
    eapply reads_bind; [by apply reads_Get|]. intros. by apply reads_lift.
Qed.

Lemma reads_play_path p l s :
  coherent s -> Forall (fun io => decoded (files s) io.1 io.2) l ->
  reads (play_path p l.*1) s (play_all p l.*2).
Proof.
  revert p s. induction l as [|[i o] l IH]; intros p s Hs Hl; [by apply reads_ret|].
  apply Forall_cons in Hl as [Ho Hl]. simpl in *.
  eapply reads_bind; [by apply reads_Get|]. intros s1 Hs1 Hf1.
  apply reads_bind_r; [by apply reads_lift|]. intros p' s2 _ Hs2 Hf2. apply IH; [done|].
  by rewrite Hf2, Hf1.
Qed.

(** The patch from an ancestor: the commits below it, played on its snapshot. *)
Lemma reads_PatchOfPath base id baseID l1 ob l2 s :
  coherent s -> chain (files s) id (l1 ++ (baseID, ob) :: l2) ->
  reads (PatchOfPath base baseID id) s (play_all (NewPatch base) (rev l1.*2)).
Proof.
  intros Hs Hc. unfold PatchOfPath. eapply reads_bind; [by apply reads_PathRange|]. intros s1 Hs1 Hf1.
  pose proof (chain_NoDup _ _ _ Hc) as Hnd. rewrite fmap_app in Hnd |- *. simpl in *.
  apply NoDup_app in Hnd as (_ & Hnd & _).
  rewrite take_to_app by (intros Hin; apply (Hnd _ Hin); by left).
  rewrite length_app. destruct (decide (l1 = [])) as [->|Hl1]; [by apply reads_ret|].
  rewrite (proj2 (Nat.ltb_ge _ _)) by (destruct l1; [done|simpl; lia]).
  rewrite removelast_last, !rev_fmap. apply reads_play_path; [done|].
  apply Forall_rev, Forall_forall. intros [i o] Hin. rewrite Hf1.
  apply (chain_in _ _ _ _ _ Hc). apply elem_of_app. by left.
Qed.

(** *** Vacuumable *)

(** What the walk of [Vacuumable] sends, commit by commit. *)
Definition vacuum_list (sn : snapshot) (leaf : ksuid) (l : list (ksuid * Object)) : list (dobject Val) :=
  concat (map (fun io => if commit_of io.2 =? leaf then []
                         else concat (map (vacuumed sn) (Actions io.2))) l).

Lemma vacuum_spec fs id l sn leaf :
  chain fs id l -> forall fuel s out, coherent s -> files s = fs -> (length l < fuel)%nat ->
  reads (vacuum fuel sn leaf id out) s (Ok (out ++ vacuum_list sn leaf l)).
Proof.
  induction 1 as [|id o l Hid Ho Hc IH]; intros fuel s out Hs Hfs Hfuel.
  { unfold vacuum_list. simpl. rewrite app_nil_r. destruct fuel; by apply reads_ret. }
  destruct fuel as [|fuel]; [simpl in Hfuel; lia|]. simpl in Hfuel. unfold reads. simpl vacuum.
  rewrite (proj2 (Z.eqb_neq id Nil) Hid).
  destruct (reads_Get id o s Hs) as (s1 & E1 & Hs1 & Hf1); [by rewrite Hfs|]. rewrite E1.
  destruct (IH fuel s1 (if commit_of o =? leaf then out else out ++ concat (map (vacuumed sn) (Actions o)))
    Hs1 ltac:(congruence) ltac:(lia)) as (s2 & E2 & Hs2 & Hf2).
  exists s2. rewrite E2. split; [|split; [done|congruence]]. do 2 f_equal. unfold vacuum_list. simpl.
  destruct (commit_of o =? leaf); [done|]. by rewrite <- app_assoc.
Qed.

Lemma reads_Vacuumable id l s :
  coherent s -> chain (files s) id l ->
  reads (Vacuumable id) s (sn ← replay l; Ok (vacuum_list sn id l)).
Proof.
  intros Hs Hc. apply reads_bind_r; [by apply reads_Snapshot|]. intros sn s1 _ Hs1 Hf1.
  rewrite <- Hf1 in Hc. pose proof (chain_length _ _ _ Hc).
  apply (vacuum_spec _ _ _ _ _ Hc (walk_fuel s1) s1 []); [done..|unfold walk_fuel; lia].
Qed.

(** *** Files written by [Put] *)

(** A commit object as [NewObject] starts it: its first action records its id
    and its parent. *)
Definition wf_object (o : Object) : Prop :=
  exists r a d m meta acts, Actions o = Commit (commit_of o) (Parent o) r a d m meta :: acts.

Definition well_stored (fs : filemap) : Prop :=
  map_Forall (fun id b => exists o, wf_object o /\ commit_of o = id /\ b = enc (Actions o)) fs.

Lemma DecodeObject_Serialize (o : Object) : wf_object o -> DecodeObject (enc (Actions o)) = Ok o.
Proof.
  intros (r & a & d & m & meta & acts & Ha). unfold DecodeObject.
  pose proof (dec_enc [Actions o]) as Hd. simpl in Hd. rewrite !app_nil_r in Hd. rewrite Hd, Ha. destruct o. simpl in *. by rewrite Ha.
Qed.

Lemma well_stored_decoded fs id o :
  well_stored fs -> decoded fs id o <-> fs !! id = Some (enc (Actions o)) /\ wf_object o /\ commit_of o = id.
Proof.
  intros Hfs. split.
  - intros (b & Hb & Ho). destruct (Hfs _ _ Hb) as (o' & Hwf & Hid & ->).
    rewrite (DecodeObject_Serialize _ Hwf) in Ho. by injection Ho as <-.
  - intros (Hb & Hwf & Hid). exists (enc (Actions o)). split; [done|by apply DecodeObject_Serialize].
Qed.

Lemma decoded_insert fs id o x b : fs !! x = None -> decoded fs id o -> decoded (<[x := b]> fs) id o.
Proof.
  intros Hx (b' & Hb & Ho). exists b'. split; [|done]. rewrite lookup_insert_ne; [done|]. intros ->. congruence.
Qed.
Lemma chain_insert fs id l x b : fs !! x = None -> chain fs id l -> chain (<[x := b]> fs) id l.
Proof.
  intros Hx. induction 1; [constructor|]. constructor; [done| |done]. by apply decoded_insert.
Qed.

Lemma Serialize_Ok (o : Object) : wf_object o -> Serialize o = Ok (enc (Actions o)).
Proof.
  intros (r & a & d & m & meta & acts & Ha). unfold Serialize. destruct (enc (Actions o)) eqn:He; [|done].
  pose proof (dec_enc [Actions o]) as Hd. pose proof (dec_enc (A := Action Val) []) as Hn. simpl in Hd, Hn.
  rewrite !app_nil_r, He in Hd. rewrite Hn, Ha in Hd. done.
Qed.

Lemma Put_spec (o : Object) (s : Store) :
  coherent s -> wf_object o -> files s !! commit_of o = None ->
  exists s', Put o s = (Ok tt, s') /\ coherent s' /\ files s' = <[commit_of o := enc (Actions o)]> (files s).
Proof.
  intros [H1 H2 H3 H4] Hwf Hfresh. unfold Put, mbind, SM_bind, lift, engine_put. rewrite (Serialize_Ok _ Hwf).
  eexists. split; [done|]. split; [|done]. split; simpl.
  - intros id o' Ho. apply decoded_insert; auto.
  - intros id p Hp. destruct (H2 _ _ Hp) as (l & Hid & Hl & ->). exists l. split_and!; [done|by apply chain_insert|done].
  - intros id sn Hsn. destruct (H3 _ _ Hsn) as (l & Hl & Hr). exists l. split; [by apply chain_insert|done].
  - intros id b sn Hb Hsn. destruct (H4 _ _ _ Hb Hsn) as (l & Hl & Hr). exists l. split; [by apply chain_insert|done].
Qed.

(** *** ReadAll *)

Lemma reads_GetBytes id o s :
  coherent s -> well_stored (files s) -> decoded (files s) id o ->
  reads (GetBytes id) s (Ok (enc (Actions o), Parent o)).
Proof.
  intros Hs Hws Ho. apply well_stored_decoded in Ho as (Hb & Hwf & Hid); [|done].
  unfold GetBytes. eapply (reads_bind _ _ _ (enc (Actions o)));
    [exists s; split; [unfold engine_get; by rewrite Hb|done]|].
  intros s1 Hs1 Hf1. pose proof (dec_enc [Actions o]) as Hd. simpl in Hd. rewrite !app_nil_r in Hd.
  rewrite Hd. destruct Hwf as (r & a & d & m & meta & acts & Ha). rewrite Ha, <- Ha.
  by apply (reads_lift (Ok (enc (Actions o), Parent o))).
Qed.

Lemma read_all_walk fs id l stop :
  well_stored fs -> chain fs id l -> forall l1 l2, l = l1 ++ l2 -> stop ∉ l1.*1 ->
  (l2 = [] \/ exists o l', l2 = (stop, o) :: l') ->
  forall fuel s out, coherent s -> files s = fs -> (length l < fuel)%nat ->
  reads (read_all fuel id stop out) s (Ok (concat (map enc (map Actions (rev l1.*2))) ++ out)).
Proof.
  intros Hws. induction 1 as [|id o l Hid Ho Hc IH]; intros l1 l2 Heq Hns Hl2 fuel s out Hs Hfs Hfuel.
  { destruct l1; [|done]. destruct fuel; by apply reads_ret. }
  destruct fuel as [|fuel]; [simpl in Hfuel; lia|]. simpl in Hfuel. simpl read_all.
  rewrite (proj2 (Z.eqb_neq id Nil) Hid). simpl.
  destruct l1 as [|[i o'] l1]; simplify_eq/=.
  { destruct Hl2 as [?|(o' & l' & ?)]; simplify_eq. rewrite Z.eqb_refl. by apply reads_ret. }
  apply not_elem_of_cons in Hns as [Hne Hns]. rewrite (proj2 (Z.eqb_neq i stop)) by done.
  eapply reads_bind; [by eapply reads_GetBytes|]. intros s1 Hs1 Hf1. simpl.
  replace (concat (map enc (map Actions (rev (list_fmap (ksuid * Object)%type Object snd l1) ++ [o']))) ++ out)
    with (concat (map enc (map Actions (rev l1.*2))) ++ enc (Actions o') ++ out)
    by (rewrite !map_app, concat_app; simpl; by rewrite app_nil_r, <- app_assoc).
  eapply IH; [done|done|done|done|congruence|lia].
Qed.

(** What [ReadAll] returns decodes to the actions of the commits below [stop],
    from the oldest. *)
Lemma reads_ReadAll id l1 l2 stop s :
  coherent s -> well_stored (files s) -> chain (files s) id (l1 ++ l2) -> stop ∉ l1.*1 ->
  (l2 = [] \/ exists o l', l2 = (stop, o) :: l') ->
  exists b, reads (ReadAll id stop) s (Ok b) /\ dec b = Some (concat (map Actions (rev l1.*2))).
Proof.
  intros Hs Hws Hc Hns Hl2. pose proof (chain_length _ _ _ Hc).
  exists (concat (map enc (map Actions (rev l1.*2)))). split; [|apply dec_enc].
  rewrite <- (app_nil_r (concat (map enc _))). unfold ReadAll.
  apply (read_all_walk _ _ _ stop Hws Hc l1 l2 eq_refl Hns Hl2 (walk_fuel s) s []); [done..|unfold walk_fuel; lia].
Qed.
End store.
