(* ===== verification/PatchProofs.v ===== *)
(** * Patches: what a commit object made from one does to a snapshot

    [applied] is the snapshot a patch describes: the objects and vectors it adds
    and those of its base that it does not delete.  The commit object of a patch
    takes a snapshot to the one the patch describes, a revert takes it back, and
    the difference of two patches over a common base merges them. *)

From S2P Require Import Prelude Commits CommitProofs.
Local Open Scope Z_scope.

(** What a view shows, as maps. *)
Class ViewModel {Val} (W : Type) `{!View Val W} := {
  obs : W -> gmap ksuid (dobject Val);
  vecs : W -> gmap ksuid unit;
  Lookup_obs w id : Lookup w id = match obs w !! id with Some o => Ok o | None => Err ErrNotFound end;
  HasVector_vecs w id : HasVector w id = match vecs w !! id with Some _ => true | None => false end;
}.

Section patches.
Context {Val : Type} `{!GoRange}.
Local Abbreviation snapshot := (snapshot Val).
Local Abbreviation Action := (Action Val).
Local Abbreviation Object := (Object Val).
Local Abbreviation dobject := (dobject Val).

#[export, refine] Instance snapshot_model : ViewModel snapshot := { obs := objects; vecs := vectors }.
Proof. all: done. Defined.

#[export, refine] Instance patch_model `{!View Val W, !ViewModel W} : ViewModel (Patch Val W) := {
  obs p := objects (diff _ p) ∪ obs (base _ p);
  vecs p := vectors (diff _ p) ∪ vecs (base _ p);
}.
Proof.
  - intros p id. simpl. unfold patch_Lookup. simpl. unfold snap_Lookup. rewrite Lookup_obs, lookup_union.
    destruct (objects (diff _ p) !! id), (obs (base _ p) !! id); done.
  - intros p id. simpl. unfold patch_HasVector. simpl. unfold snap_HasVector.
    rewrite HasVector_vecs, lookup_union. destruct (vectors (diff _ p) !! id), (vecs (base _ p) !! id); done.
Defined.

Lemma Exists_obs `{!View Val W, !ViewModel W} (w : W) id :
  Exists w id = match obs w !! id with Some _ => true | None => false end.
Proof. unfold Exists. rewrite Lookup_obs. by destruct (obs w !! id). Qed.

(** ** Deleting a list of keys *)

Definition without {A} (ids : list ksuid) (m : gmap ksuid A) : gmap ksuid A := foldr delete m ids.

Lemma lookup_without {A} ids (m : gmap ksuid A) id :
  without ids m !! id = if decide (id ∈ ids) then None else m !! id.
Proof.
  induction ids as [|i ids IH]; [done|]. simpl. unfold without in *.
  destruct (decide (i = id)) as [->|Hne].
  - rewrite lookup_delete_eq, decide_True by by left. done.
  - rewrite lookup_delete_ne by done. rewrite IH. apply decide_ext. rewrite elem_of_cons. naive_solver.
Qed.

Lemma without_app {A} ids id (m : gmap ksuid A) : without (ids ++ [id]) m = delete id (without ids m).
Proof.
  apply map_eq. intros i. rewrite lookup_without. destruct (decide (id = i)) as [->|Hne].
  - rewrite lookup_delete_eq, decide_True; [done|]. apply elem_of_app. right. by left.
  - rewrite lookup_delete_ne, lookup_without by done. apply decide_ext.
    rewrite elem_of_app, list_elem_of_singleton. naive_solver.
Qed.

Lemma NoDup_snoc {A} (l : list A) x : NoDup l -> x ∉ l -> NoDup (l ++ [x]).
Proof.
  intros Hl Hx. apply NoDup_app. split; [done|]. split; [|apply NoDup_singleton].
  intros y Hy ->%list_elem_of_singleton. done.
Qed.

(** ** Well-formed patches *)

Section wf.
Context {W : Type} `{!View Val W, !ViewModel W}.
Local Abbreviation Patch := (Patch Val W).

(** A patch adds only what its base lacks and deletes only what its base
    has. *)
Record wf_patch (p : Patch) : Prop := mkWf {
  wf_diff : wf_snap (diff _ p);
  wf_adds id : is_Some (objects (diff _ p) !! id) -> obs (base _ p) !! id = None;
  wf_dels id : id ∈ deletedObjects _ p -> is_Some (obs (base _ p) !! id);
  wf_addvs id : is_Some (vectors (diff _ p) !! id) -> vecs (base _ p) !! id = None;
  wf_delvs id : id ∈ deletedVectors _ p -> is_Some (vecs (base _ p) !! id);
}.

Definition clean (p : Patch) : Prop := NoDup (deletedObjects _ p) /\ NoDup (deletedVectors _ p).

(** What a patch makes of a snapshot. *)
Definition patched (p : Patch) (t : snapshot) : snapshot :=
  mkSnap (objects (diff _ p) ∪ without (deletedObjects _ p) (objects t))
         (vectors (diff _ p) ∪ without (deletedVectors _ p) (vectors t)).

(** The snapshot a patch describes: itself applied to what its base shows. *)
Definition applied (p : Patch) : snapshot := patched p (mkSnap (obs (base _ p)) (vecs (base _ p))).

Lemma wf_NewPatch w : wf_patch (NewPatch w).
Proof.
  split; simpl; [apply wf_NewSnapshot|..]; intros id Hid;
    solve [by apply not_elem_of_nil in Hid|by rewrite lookup_empty in Hid; destruct Hid].
Qed.

Lemma PlayAction_base (p p' : Patch) a : PlayAction p a = Ok p' -> base _ p' = base _ p.
Proof.
  destruct a; simpl; unfold patch_AddDataObject, patch_DeleteObject, patch_AddVector, patch_DeleteVector;
    repeat case_match; intros Hp; simplify_eq; try done; apply bind_Ok in Hp as (d & _ & [= <-]); done.
Qed.

Lemma play_base (p p' : Patch) l : play p l = Ok p' -> base _ p' = base _ p.
Proof.
  revert p. induction l as [|a l IH]; intros p Hp; simpl in Hp; [by simplify_eq|].
  apply bind_Ok in Hp as (q & Ha & Hp). rewrite (IH _ Hp). by eapply PlayAction_base.
Qed.

(** *** Operations of a patch, with their conditions *)

Lemma patch_add_Ok (p p' : Patch) o :
  AddDataObject p o = Ok p' <->
  obs (base _ p) !! ID o = None /\ objects (diff _ p) !! ID o = None /\
  p' = with_diff p (mkSnap (<[ID o := o]> (objects (diff _ p))) (vectors (diff _ p))).
Proof.
  simpl. unfold patch_AddDataObject. rewrite Exists_obs. destruct (obs (base _ p) !! ID o) eqn:Hb.
  { split; [done|naive_solver]. }
  simpl. unfold snap_AddDataObject. destruct (objects (diff _ p) !! ID o); simpl; naive_solver.
Qed.

Lemma patch_delete_Ok (p p' : Patch) id :
  DeleteObject p id = Ok p' <->
  (is_Some (objects (diff _ p) !! id) /\
    p' = with_diff p (mkSnap (delete id (objects (diff _ p))) (vectors (diff _ p)))) \/
  (objects (diff _ p) !! id = None /\ is_Some (obs (base _ p) !! id) /\
    p' = mkPatch _ (base _ p) (diff _ p) (deletedObjects _ p ++ [id]) (deletedVectors _ p)).
Proof.
  simpl. unfold patch_DeleteObject. rewrite !Exists_obs. simpl. unfold snap_DeleteObject.
  destruct (objects (diff _ p) !! id) eqn:Hd; simpl.
  { split; [intros [= <-]; left; eauto|]. intros [[_ ->]|[? _]]; done. }
  destruct (obs (base _ p) !! id) eqn:Hb; simpl.
  - split; [intros [= <-]; right; eauto|]. intros [[[] ?]|(_ & _ & ->)]; done.
  - split; [done|]. intros [[[] ?]|(_ & [] & _)]; done.
Qed.

Lemma patch_addv_Ok (p p' : Patch) id :
  AddVector p id = Ok p' <->
  vecs (base _ p) !! id = None /\ vectors (diff _ p) !! id = None /\
  p' = with_diff p (mkSnap (objects (diff _ p)) (<[id := tt]> (vectors (diff _ p)))).
Proof.
  simpl. unfold patch_AddVector. simpl. unfold patch_HasVector. rewrite (HasVector_vecs (base _ p)). simpl.
  unfold snap_HasVector, snap_AddVector.
  destruct (vectors (diff _ p) !! id) eqn:Hd; simpl; [naive_solver|].
  destruct (vecs (base _ p) !! id) eqn:Hb; simpl; naive_solver.
Qed.

Lemma patch_deletev_Ok (p p' : Patch) id :
  DeleteVector p id = Ok p' <->
  (is_Some (vectors (diff _ p) !! id) /\
    p' = with_diff p (mkSnap (objects (diff _ p)) (delete id (vectors (diff _ p))))) \/
  (vectors (diff _ p) !! id = None /\ is_Some (vecs (base _ p) !! id) /\
    p' = mkPatch _ (base _ p) (diff _ p) (deletedObjects _ p) (deletedVectors _ p ++ [id])).
Proof.
  simpl. unfold patch_DeleteVector. rewrite (HasVector_vecs (base _ p)). simpl. unfold snap_HasVector, snap_DeleteVector.
  destruct (vectors (diff _ p) !! id) eqn:Hd; simpl.
  { split; [intros [= <-]; left; eauto|]. intros [[_ ->]|[? _]]; done. }
  destruct (vecs (base _ p) !! id) eqn:Hb; simpl.
  - split; [intros [= <-]; right; eauto|]. intros [[[] ?]|(_ & _ & ->)]; done.
  - split; [done|]. intros [[[] ?]|(_ & [] & _)]; done.
Qed.

Lemma PlayAction_wf_patch (p p' : Patch) a : wf_patch p -> PlayAction p a = Ok p' -> wf_patch p'.
Proof.
  intros [H1 H2 H3 H4 H5]. destruct a as [c o|c id|c id|c id|]; cbn [PlayAction].
  - intros (Hb & Hd & ->)%patch_add_Ok. split; unfold wf_snap; simpl; try done.
    + intros i o' [[<- <-]|[_ Hi]]%lookup_insert_Some; [done|by apply H1].
    + intros i [o' [[<- _]|[_ Hi]]%lookup_insert_Some]; [done|eauto].
  - intros [[Hd ->]|(Hd & Hb & ->)]%patch_delete_Ok; split; unfold wf_snap; simpl; try done.
    + intros i o' [_ Hi]%lookup_delete_Some. by apply H1.
    + intros i [o' [_ Hi]%lookup_delete_Some]. eauto.
    + intros i [Hi|<-%list_elem_of_singleton]%elem_of_app; eauto.
  - intros (Hb & Hd & ->)%patch_addv_Ok. split; simpl; try done.
    intros i [o' [[<- _]|[_ Hi]]%lookup_insert_Some]; [done|eauto].
  - intros [[Hd ->]|(Hd & Hb & ->)]%patch_deletev_Ok; split; simpl; try done.
    + intros i [o' [_ Hi]%lookup_delete_Some]. eauto.
    + intros i [Hi|<-%list_elem_of_singleton]%elem_of_app; eauto.
  - by intros [= <-].
Qed.

Lemma insert_union_without {A} (d b : gmap ksuid A) ids id v :
  <[id := v]> (d ∪ without ids b) = <[id := v]> d ∪ without ids b.
Proof. apply insert_union_l. Qed.

Lemma delete_union_diff {A} (d b : gmap ksuid A) ids id :
  b !! id = None -> delete id (d ∪ without ids b) = delete id d ∪ without ids b.
Proof.
  intros Hb. apply map_eq. intros i. rewrite lookup_union. destruct (decide (id = i)) as [->|Hne].
  - rewrite !lookup_delete_eq, lookup_without. by case_decide; rewrite ?Hb.
  - by rewrite !lookup_delete_ne, lookup_union by done.
Qed.

Lemma delete_union_base {A} (d b : gmap ksuid A) ids id :
  d !! id = None -> delete id (d ∪ without ids b) = d ∪ without (ids ++ [id]) b.
Proof. intros Hd. rewrite without_app, delete_union, (delete_id d) by done. done. Qed.

Lemma lookup_deleted {A} (d b : gmap ksuid A) ids id :
  id ∈ ids -> d !! id = None -> (d ∪ without ids b) !! id = None.
Proof. intros Hid Hd. by rewrite lookup_union, Hd, lookup_without, decide_True. Qed.

(** An action that both a patch and the snapshot it describes accept keeps
    them in step. *)
Lemma PlayAction_sim (p p' : Patch) s s' a :
  wf_patch p -> clean p -> s = applied p -> PlayAction p a = Ok p' -> PlayAction s a = Ok s' ->
  clean p' /\ s' = applied p'.
Proof.
  intros [H1 H2 H3 H4 H5] [Hc1 Hc2] ->. destruct a as [c o|c id|c id|c id|]; cbn [PlayAction].
  - intros (Hb & Hd & ->)%patch_add_Ok. simpl. unfold snap_AddDataObject. case_match; [done|].
    intros [= <-]. split; [done|]. unfold applied, patched. simpl. by rewrite insert_union_without.
  - intros Hp. simpl. unfold snap_DeleteObject. case_match eqn:Hs; [|done]. intros [= <-].
    apply patch_delete_Ok in Hp as [[Hd ->]|(Hd & Hb & ->)]; unfold applied, patched; simpl.
    + split; [done|]. rewrite delete_union_diff; [done|eauto].
    + rewrite delete_union_base by done. split; [|done]. split; [|done]. apply NoDup_snoc; [done|].
      intros Hin. simpl in Hs. by rewrite lookup_deleted in Hs.
  - intros (Hb & Hd & ->)%patch_addv_Ok. simpl. unfold snap_AddVector. case_match; [done|].
    intros [= <-]. split; [done|]. unfold applied, patched. simpl. by rewrite insert_union_without.
  - intros Hp. simpl. unfold snap_DeleteVector. case_match eqn:Hs; [|done]. intros [= <-].
    apply patch_deletev_Ok in Hp as [[Hd ->]|(Hd & Hb & ->)]; unfold applied, patched; simpl.
    + split; [done|]. rewrite delete_union_diff; [done|eauto].
    + rewrite delete_union_base by done. split; [|done]. split; [done|]. apply NoDup_snoc; [done|].
      intros Hin. simpl in Hs. by rewrite lookup_deleted in Hs.
  - by intros [= <-] [= <-].
Qed.

Lemma play_sim l (p p' : Patch) s s' :
  wf_patch p -> clean p -> s = applied p -> play p l = Ok p' -> play s l = Ok s' ->
  wf_patch p' /\ clean p' /\ s' = applied p'.
Proof.
  revert p s. induction l as [|a l IH]; intros p s Hwf Hc Heq Hp Hs; simpl in *; [by simplify_eq|].
  apply bind_Ok in Hp as (q & Ha & Hp), Hs as (t & Hb & Hs).
  destruct (PlayAction_sim _ _ _ _ _ Hwf Hc Heq Ha Hb) as [Hc' Heq'].
  eapply IH; [|done|done|done|done]. by eapply PlayAction_wf_patch.
Qed.

Lemma play_all_sim os (p p' : Patch) s s' :
  wf_patch p -> clean p -> s = applied p -> play_all p os = Ok p' -> play_all s os = Ok s' ->
  wf_patch p' /\ clean p' /\ s' = applied p'.
Proof.
  revert p s. induction os as [|o os IH]; intros p s Hwf Hc Heq Hp Hs; simpl in *; [by simplify_eq|].
  apply bind_Ok in Hp as (q & Ha & Hp), Hs as (t & Hb & Hs).
  destruct (play_sim _ _ _ _ _ Hwf Hc Heq Ha Hb) as (Hwf' & Hc' & Heq'). by eapply IH.
Qed.
End wf.

(** ** The actions of the constructors *)

Lemma fold_append {A} (g : Object -> A -> Object) (f : ksuid -> A -> Action) (l : list A) o :
  (forall o x, g o x = append o (f (commit_of o) x)) ->
  fold_left g l o = mkCommit (commit_of o) (Parent o) (Actions o ++ map (f (commit_of o)) l).
Proof.
  intros Hg. revert o. induction l as [|x l IH]; intros o; simpl; [rewrite app_nil_r; by destruct o|].
  rewrite Hg, IH. unfold append. simpl. by rewrite <- app_assoc.
Qed.

Definition commit_action (parent : ksuid) (m : msg Val) : Action :=
  Commit (new_id m) parent (u8 (retries m)) (author m) (now m) (message m) (meta m).

Lemma NewObject_eq parent (m : msg Val) :
  NewObject parent m = mkCommit (new_id m) parent [commit_action parent m].
Proof. done. Qed.

Lemma NewAddsObject_eq parent (m : msg Val) os :
  NewAddsObject parent m os = mkCommit (new_id m) parent (commit_action parent m :: map (Add (new_id m)) os).
Proof. unfold NewAddsObject. by rewrite (fold_append _ (fun c o => Add c o)). Qed.
Lemma NewDeletesObject_eq parent (m : msg Val) ids :
  NewDeletesObject parent m ids =
  mkCommit (new_id m) parent (commit_action parent m :: map (Delete (new_id m)) ids).
Proof. unfold NewDeletesObject. by rewrite (fold_append _ (fun c id => Delete c id)). Qed.
Lemma NewAddVectorsObject_eq parent (m : msg Val) ids :
  NewAddVectorsObject parent m ids =
  mkCommit (new_id m) parent (commit_action parent m :: map (AddVec (new_id m)) ids).
Proof. unfold NewAddVectorsObject. by rewrite (fold_append _ (fun c id => AddVec c id)). Qed.
Lemma NewDeleteVectorsObject_eq parent (m : msg Val) ids :
  NewDeleteVectorsObject parent m ids =
  mkCommit (new_id m) parent (commit_action parent m :: map (DeleteVec (new_id m)) ids).
Proof. unfold NewDeleteVectorsObject. by rewrite (fold_append _ (fun c id => DeleteVec c id)). Qed.

Lemma play_dels c (t : snapshot) ids :
  NoDup ids -> Forall (fun id => is_Some (objects t !! id)) ids ->
  play t (map (Delete c) ids) = Ok (mkSnap (without ids (objects t)) (vectors t)).
Proof.
  induction ids as [|id ids IH] using rev_ind; intros Hnd Hall; [by destruct t|].
  apply NoDup_app in Hnd as (Hnd & Hd & _). apply Forall_app in Hall as [Hall Hid].
  apply Forall_cons in Hid as [[o Ho] _].
  rewrite map_app, play_app, IH by done. simpl. unfold snap_DeleteObject. simpl.
  rewrite lookup_without, decide_False, Ho; [|intros Hin; eapply Hd; [done|by left]].
  simpl. by rewrite without_app.
Qed.
Lemma play_delvs c (t : snapshot) ids :
  NoDup ids -> Forall (fun id => is_Some (vectors t !! id)) ids ->
  play t (map (DeleteVec c) ids) = Ok (mkSnap (objects t) (without ids (vectors t))).
Proof.
  induction ids as [|id ids IH] using rev_ind; intros Hnd Hall; [by destruct t|].
  apply NoDup_app in Hnd as (Hnd & Hd & _). apply Forall_app in Hall as [Hall Hid].
  apply Forall_cons in Hid as [[o Ho] _].
  rewrite map_app, play_app, IH by done. simpl. unfold snap_DeleteVector. simpl.
  rewrite lookup_without, decide_False, Ho; [|intros Hin; eapply Hd; [done|by left]].
  simpl. by rewrite without_app.
Qed.
(** Vectors added one by one, from a list of ids. *)
Lemma play_addvs c (t : snapshot) ids :
  NoDup ids -> Forall (fun id => vectors t !! id = None) ids ->
  play t (map (AddVec c) ids) = Ok (mkSnap (objects t) (list_to_map (map (fun id => (id, tt)) ids) ∪ vectors t)).
Proof.
  intros Hnd Hall.
  assert (Hids : (map (fun id : ksuid => (id, tt)) ids).*1 = ids).
  { clear. induction ids as [|id ids IH]; [done|]. simpl. by f_equal. }
  rewrite <- (play_vecs (fun id => AddVec c id)); [by rewrite Hids|eauto|by rewrite Hids|].
  apply Forall_map. done.
Qed.

Lemma NewCommitObject_eq {W} (p : Patch Val W) parent (m : msg Val) :
  exists acts, NewCommitObject p parent m = mkCommit (new_id m) parent (commit_action parent m :: acts).
Proof.
  unfold NewCommitObject.
  rewrite (fold_append appendDelete (fun c id => Delete c id)), (fold_append appendAdd (fun c o => Add c o)),
    (fold_append appendDeleteVector (fun c id => DeleteVec c id)),
    (fold_append appendAddVector (fun c id => AddVec c id)) by done.
  by eexists.
Qed.

(** Where the ids of a patch make sense, its commit object plays and makes the
    patch of the snapshot. *)
Lemma NewCommitObject_plays `{!View Val W, !ViewModel W} (p : Patch Val W) (t : snapshot) parent (m : msg Val) :
  wf_snap (diff _ p) -> clean p ->
  Forall (fun id => is_Some (objects t !! id)) (deletedObjects _ p) ->
  Forall (fun id => is_Some (vectors t !! id)) (deletedVectors _ p) ->
  (forall id, is_Some (objects (diff _ p) !! id) -> objects t !! id = None) ->
  (forall id, is_Some (vectors (diff _ p) !! id) -> vectors t !! id = None) ->
  play t (Actions (NewCommitObject p parent m)) = Ok (patched p t).
Proof.
  intros Hwf [Hc1 Hc2] Hd Hdv Ha Hav. unfold NewCommitObject.
  rewrite (fold_append appendDelete (fun c id => Delete c id)), (fold_append appendAdd (fun c o => Add c o)),
    (fold_append appendDeleteVector (fun c id => DeleteVec c id)),
    (fold_append appendAddVector (fun c id => AddVec c id)) by done.
  simpl. rewrite !play_app, play_dels by done. simpl.
  rewrite (play_adds (fun o => Add (new_id m) o)); [|eauto|apply range_NoDup|].
  - simpl. rewrite play_delvs by done. simpl.
    rewrite (play_vecs (fun id => AddVec (new_id m) id)); [|eauto|apply range_NoDup|].
    + unfold patched. simpl. by rewrite !list_to_map_range.
    + apply Forall_forall. intros [id []] Hin. apply elem_of_range in Hin. simpl.
      rewrite lookup_without. case_decide; [done|]. apply Hav. eauto.
  - apply Forall_forall. intros [id o] Hin. apply elem_of_range in Hin. simpl. split; [by apply Hwf|].
    rewrite lookup_without. case_decide; [done|]. apply Ha. eauto.
Qed.

(** ** Reverts *)

Lemma revert_adds_eq (tip : snapshot) ds (o : Object) :
  revert_adds tip ds o = mkCommit (commit_of o) (Parent o)
    (Actions o ++ map (Delete (commit_of o)) (filter (fun id => is_Some (objects tip !! id)) (map ID ds))).
Proof.
  revert o. induction ds as [|d ds IH]; intros o; [simpl; rewrite app_nil_r; by destruct o|].
  cbn [revert_adds]. rewrite IH. rewrite Exists_obs. simpl. rewrite filter_cons.
  destruct (objects tip !! ID d) eqn:Hd.
  - rewrite decide_True by eauto. simpl. unfold appendDelete, append. simpl. by rewrite <- app_assoc.
  - rewrite decide_False by by intros []. done.
Qed.

Lemma revert_deletes_eq `{!View Val W, !ViewModel W} (p : Patch Val W) (tip : snapshot) ids (o : Object) :
  map_Forall (fun id d => ID d = id) (obs (base _ p)) ->
  Forall (fun id => is_Some (obs (base _ p) !! id)) ids ->
  revert_deletes p tip ids o = Ok (mkCommit (commit_of o) (Parent o)
    (Actions o ++ map (Add (commit_of o))
       (omap (fun id => obs (base _ p) !! id) (filter (fun id => objects tip !! id = None) ids)))).
Proof.
  intros Hwf. revert o. induction ids as [|id ids IH]; intros o Hall; [simpl; rewrite app_nil_r; by destruct o|].
  apply Forall_cons in Hall as [[d Hd] Hall]. cbn [revert_deletes].
  rewrite Lookup_obs, Hd. simpl. rewrite IH by done. f_equal. rewrite Exists_obs, (Hwf _ _ Hd). simpl. rewrite filter_cons.
  destruct (objects tip !! id) eqn:Ht.
  - rewrite decide_False by done. done.
  - rewrite decide_True by done. simpl. rewrite Hd. simpl. unfold appendAdd, append. simpl. by rewrite <- app_assoc.
Qed.

Lemma map_ID_range (s : snapshot) : wf_snap s -> map ID (SelectAll s) = (range (objects s)).*1.
Proof.
  intros Hs. simpl. unfold snap_SelectAll. pose proof (range_keyed s Hs) as Hk.
  induction Hk as [|[id o] l Ho _ IH]; [done|]. simpl in *. f_equal; [exact Ho|exact IH].
Qed.

(** The entries of a map at given keys. *)
Definition entries {A} (m : gmap ksuid A) (ids : list ksuid) : list (ksuid * A) :=
  omap (fun id => (fun v => (id, v)) <$> m !! id) ids.

Lemma entries_snd {A} (m : gmap ksuid A) ids : (entries m ids).*2 = omap (fun id => m !! id) ids.
Proof. induction ids as [|id ids IH]; [done|]. unfold entries in *. simpl.
  destruct (m !! id); simpl; [f_equal|]; exact IH. Qed.
Lemma elem_of_entries {A} (m : gmap ksuid A) ids id v : (id, v) ∈ entries m ids <-> id ∈ ids /\ m !! id = Some v.
Proof.
  unfold entries. rewrite list_elem_of_omap. split.
  - intros (i & Hi & Hv). destruct (m !! i) eqn:Hm; simplify_eq/=. done.
  - intros [Hid Hv]. exists id. by rewrite Hv.
Qed.
Lemma entries_NoDup {A} (m : gmap ksuid A) ids : NoDup ids -> NoDup (entries m ids).*1.
Proof.
  induction 1 as [|id ids Hid Hnd IH]; [constructor|]. unfold entries in *. simpl.
  destruct (m !! id) as [v|]; simpl; [|done]. constructor; [|done].
  intros ([i v'] & Hi & Hin)%list_elem_of_fmap. simpl in Hi. subst i. by apply elem_of_entries in Hin as [? _].
Qed.
Lemma lookup_entries {A} (m : gmap ksuid A) ids id :
  NoDup ids -> (list_to_map (entries m ids) : gmap ksuid A) !! id = if decide (id ∈ ids) then m !! id else None.
Proof.
  intros Hnd. apply option_eq. intros v. rewrite <- elem_of_list_to_map by by apply entries_NoDup.
  rewrite elem_of_entries. case_decide; naive_solver.
Qed.

(** What a revert leaves of a tip. *)
Definition reverted `{!View Val W, !ViewModel W} (p : Patch Val W) (tip : snapshot) (id : ksuid) : option dobject :=
  if decide (is_Some (objects (diff _ p) !! id)) then None
  else if decide (id ∈ deletedObjects _ p)
       then match objects tip !! id with Some o => Some o | None => obs (base _ p) !! id end
       else objects tip !! id.

Lemma Revert_plays `{!View Val W, !ViewModel W} (p : Patch Val W) (tip : snapshot) parent (m : msg Val) :
  wf_patch p -> clean p -> map_Forall (fun id d => ID d = id) (obs (base _ p)) ->
  match Revert p tip parent m with
  | Ok o => wf_object o /\ commit_of o = new_id m /\ Parent o = parent /\
      exists s, play tip (Actions o) = Ok s /\ vectors s = vectors tip /\
        forall id, objects s !! id = reverted p tip id
  | Err e => e = ErrRevertEmpty /\ forall id, objects tip !! id = reverted p tip id
  | Panic => False
  end.
Proof.
  intros Hwf [Hc _] Hbase. unfold Revert. rewrite revert_adds_eq, map_ID_range by apply Hwf.
  rewrite revert_deletes_eq; [|done|apply Forall_forall; apply Hwf].
  set (dels := filter _ (range (objects (diff W p))).*1).
  set (adds := filter (fun id => objects tip !! id = None) (deletedObjects W p)).
  assert (Hdels : forall id, id ∈ dels <-> is_Some (objects tip !! id) /\ is_Some (objects (diff _ p) !! id)).
  { intros id. unfold dels. by rewrite list_elem_of_filter, elem_of_range_keys. }
  assert (Hadds : forall id, id ∈ adds <-> objects tip !! id = None /\ id ∈ deletedObjects _ p).
  { intros id. unfold adds. by rewrite list_elem_of_filter. }
  assert (Hfinal : forall id, (list_to_map (entries (obs (base _ p)) adds) ∪ without dels (objects tip)) !! id =
    reverted p tip id).
  { intros id. unfold reverted. rewrite lookup_union, lookup_entries, lookup_without
      by (apply NoDup_filter; apply Hc).
    destruct (decide (id ∈ adds)) as [Ha|Ha]; destruct (decide (id ∈ dels)) as [Hd|Hd];
      rewrite Hadds in Ha; rewrite Hdels in Hd.
    - destruct Ha as [Ha _], Hd as [[? Hd] _]. congruence.
    - destruct Ha as [Ht Ha]. rewrite Ht. destruct (wf_dels _ Hwf _ Ha) as [d Hb]. rewrite Hb.
      rewrite decide_False; [by rewrite decide_True|]. intros Hx%(wf_adds _ Hwf). congruence.
    - destruct Hd as [Ht Hx]. by rewrite decide_True.
    - destruct (decide (is_Some (objects (diff W p) !! id))) as [Hx|Hx].
      + destruct (objects tip !! id) eqn:Ht; [|done]. exfalso. apply Hd. eauto.
      + destruct (decide (id ∈ deletedObjects W p)) as [Hi|Hi]; [|by destruct (objects tip !! id)].
        destruct (objects tip !! id) eqn:Ht; [done|]. exfalso. apply Ha. eauto. }
  rewrite NewObject_eq. cbn [mbind outcome_bind obind commit_of Parent Actions app].
  match goal with |- context [Nat.eqb ?a 1] => destruct (Nat.eqb_spec a 1) as [Hlen|Hlen] end.
  - split; [done|]. intros id. rewrite <- Hfinal. rewrite <- entries_snd in Hlen.
    simpl in Hlen. rewrite length_app, !length_map in Hlen.
    destruct dels; simpl in Hlen; [|lia]. destruct (entries _ adds) eqn:He; simpl in Hlen; [|lia].
    simpl. by rewrite (left_id_L ∅ (∪)).
  - split; [by eexists _, _, _, _, _, _|]. split; [done|]. split; [done|]. eexists. split; [|split].
    + simpl. rewrite play_app, play_dels; [simpl|by apply NoDup_filter, range_NoDup|].
      * rewrite <- entries_snd, (play_adds (fun o => Add (new_id m) o)); [done|eauto|by apply entries_NoDup, NoDup_filter|].
        apply Forall_forall. intros [id o] Hin. apply elem_of_entries in Hin as [Hin Ho]. simpl.
        split; [by apply Hbase|]. rewrite lookup_without. case_decide; [done|]. by apply Hadds in Hin as [? _].
      * apply Forall_forall. intros id Hid. by apply Hdels in Hid as [? _].
    + done.
    + simpl. exact Hfinal.
Qed.

(** ** Differences and merges *)

Section merge.
Context (parent child : Patch Val snapshot).

Lemma diff_adds_app os1 os2 p d :
  diff_adds parent child (os1 ++ os2) p d =
  (pd ← diff_adds parent child os1 p d; diff_adds parent child os2 pd.1 pd.2).
Proof.
  revert p d. induction os1 as [|o os1 IH]; intros p d; [done|]. cbn [app diff_adds].
  destruct (Exists parent (ID o)); [apply IH|]. case_decide; [done|].
  destruct (AddDataObject p o); [apply IH|done|done].
Qed.

(** The objects the parent has are passed over. *)
Lemma diff_adds_present os p d :
  Forall (fun o => is_Some (obs parent !! ID o)) os -> diff_adds parent child os p d = Ok (p, d).
Proof.
  induction 1 as [|o os [x Ho] _ IH]; [done|]. cbn [diff_adds]. by rewrite Exists_obs, Ho.
Qed.

Lemma diff_adds_new l p d :
  NoDup l.*1 -> Forall (fun io => ID io.2 = io.1 /\ io.1 ∉ deletedObjects _ child /\
    objects (diff _ p) !! io.1 = None) l -> base _ p = parent ->
  exists p' d', diff_adds parent child l.*2 p d = Ok (p', d') /\ base _ p' = parent /\
    vectors (diff _ p') = vectors (diff _ p) /\ deletedObjects _ p' = deletedObjects _ p /\
    deletedVectors _ p' = deletedVectors _ p /\
    (forall id, objects (diff _ p') !! id = match objects (diff _ p) !! id with
       | Some o => Some o
       | None => match obs parent !! id with
                 | Some _ => None
                 | None => (list_to_map l : gmap ksuid dobject) !! id end end) /\
    (d' = false <-> d = false /\ forall id o, (id, o) ∈ l -> is_Some (obs parent !! id)).
Proof.
  revert p d. induction l as [|[id o] l IH]; intros p d Hnd Hl Hbase.
  { exists p, d. split_and!; try done.
    - intros i. rewrite list_to_map_nil, lookup_empty. by destruct (objects (diff _ p) !! i), (obs parent !! i).
    - split; [|by intros []]. intros ->. split; [done|]. by intros ? ? ?%not_elem_of_nil. }
  inversion_clear Hnd as [|? ? Hid Hnd']. apply Forall_cons in Hl as [(Hoid & Hdel & Hnone) Hl].
  cbn [fmap list_fmap fst snd diff_adds]. simpl in Hoid, Hdel, Hnone, Hid. rewrite Hoid, Exists_obs.
  destruct (obs parent !! id) as [x|] eqn:Hpar.
  - destruct (IH p d Hnd' Hl Hbase) as (p' & d' & -> & H1 & H2 & H3 & H4 & H5 & H6).
    exists p', d'. split_and!; try done.
    + intros i. rewrite H5, list_to_map_cons. destruct (decide (id = i)) as [->|Hne].
      * by rewrite Hnone, Hpar.
      * by rewrite lookup_insert_ne by done.
    + rewrite H6. split; intros [? H7]; (split; [done|]); intros i o'.
      * rewrite elem_of_cons. intros [[= -> ->]|Hi]; eauto.
      * intros Hi. eapply H7. by right.
  - rewrite decide_False by done.
    assert (Hadd : AddDataObject p o = Ok (with_diff p (mkSnap (<[ID o:=o]> (objects (diff _ p))) (vectors (diff _ p))))).
    { apply patch_add_Ok. by rewrite Hbase, Hoid. }
    rewrite Hadd. cbn [mbind outcome_bind obind].
    destruct (IH (with_diff p (mkSnap (<[ID o:=o]> (objects (diff _ p))) (vectors (diff _ p)))) true)
      as (p' & d' & -> & H1 & H2 & H3 & H4 & H5 & H6); [done| |done|].
    { apply Forall_forall. intros [i o'] Hin. eapply Forall_forall in Hl as (Ho1 & Ho2 & Ho3); [|exact Hin].
      split_and!; [done..|]. simpl in *. rewrite Hoid, lookup_insert_ne; [done|]. intros ->. apply Hid. apply list_elem_of_fmap. by exists (i, o'). }
    exists p', d'. split_and!; try done.
    + intros i. rewrite H5, list_to_map_cons. cbn [with_diff diff objects]. rewrite Hoid. destruct (decide (id = i)) as [->|Hne].
      * by rewrite !lookup_insert_eq, Hnone, Hpar.
      * by rewrite !lookup_insert_ne by done.
    + rewrite H6. split; [by intros []|]. intros [_ H7]. exfalso.
      destruct (H7 id o ltac:(by left)) as [? ?]. simpl in *. congruence.
Qed.

Lemma diff_deletes_spec ids (p : Patch Val (Patch Val snapshot)) d :
  base _ p = parent -> Forall (fun id => is_Some (obs parent !! id) /\ objects (diff _ p) !! id = None) ids ->
  exists d', diff_deletes parent ids p d =
    Ok (mkPatch _ (base _ p) (diff _ p) (deletedObjects _ p ++ ids) (deletedVectors _ p), d') /\
    (d' = false <-> d = false /\ ids = []).
Proof.
  revert p d. induction ids as [|id ids IH]; intros p d Hb Hall.
  { exists d. rewrite app_nil_r. destruct p. naive_solver. }
  apply Forall_cons in Hall as [[[x Hx] Hn] Hall]. cbn [diff_deletes]. rewrite Exists_obs, Hx.
  set (p1 := mkPatch _ (base _ p) (diff _ p) (deletedObjects _ p ++ [id]) (deletedVectors _ p)).
  assert (Hdel : DeleteObject p id = Ok p1).
  { apply patch_delete_Ok. right. split; [done|]. split; [exists x; by rewrite Hb|done]. }
  rewrite Hdel. cbn [mbind outcome_bind obind].
  destruct (IH p1 true) as (d' & -> & Hd'); [done..|]. exists d'. simpl. rewrite <- app_assoc. split; [done|].
  rewrite Hd'. naive_solver.
Qed.

(** [Diff] never reports a conflict: an object of the base that a branch
    deletes is still visible in its patch. *)
Lemma Diff_spec :
  wf_patch parent -> wf_patch child -> base _ child = base _ parent -> wf_snap (base _ parent) ->
  match Diff parent child with
  | Ok p => base _ p = parent /\ wf_snap (diff _ p) /\ vectors (diff _ p) = ∅ /\
      deletedObjects _ p = deletedObjects _ child /\ deletedVectors _ p = [] /\
      forall id, objects (diff _ p) !! id =
        match obs parent !! id with Some _ => None | None => objects (diff _ child) !! id end
  | Err e => e = ErrEmptyDiff /\ deletedObjects _ child = [] /\
      forall id, is_Some (objects (diff _ child) !! id) -> is_Some (obs parent !! id)
  | Panic => False
  end.
Proof.
  intros Hp Hc Hbase Hwf. unfold Diff.
  change (SelectAll child) with ((range (objects (base _ child))).*2 ++ (range (objects (diff _ child))).*2).
  rewrite diff_adds_app, diff_adds_present.
  2:{ apply Forall_forall. intros o ([id o'] & -> & Hin)%list_elem_of_fmap. apply elem_of_range in Hin.
      rewrite Hbase in Hin. simpl. rewrite (Hwf _ _ Hin), lookup_union, Hin.
      destruct (objects (diff _ parent) !! id); by eexists. }
  cbn [mbind outcome_bind obind fst snd].
  destruct (diff_adds_new (range (objects (diff _ child))) (NewPatch parent) false) as
    (p1 & d1 & -> & Hb1 & Hv1 & Hdo1 & Hdv1 & Ho1 & Hd1); [apply range_NoDup| |done|].
  { apply Forall_forall. intros [id o] Hin. apply elem_of_range in Hin. simpl. split_and!.
    - by apply (wf_diff _ Hc).
    - intros Hdel%(wf_dels _ Hc). rewrite (wf_adds _ Hc) in Hdel by eauto. by destruct Hdel.
    - done. }
  cbn [mbind outcome_bind obind fst snd].
  assert (Hobj : forall id, objects (diff _ p1) !! id =
    match obs parent !! id with Some _ => None | None => objects (diff _ child) !! id end).
  { intros id. rewrite Ho1. cbn [NewPatch diff NewSnapshot objects]. by rewrite lookup_empty, list_to_map_range. }
  destruct (diff_deletes_spec (deletedObjects _ child) p1 d1) as (d2 & -> & Hd2); [done| |].
  { apply Forall_forall. intros id [o Hid]%(wf_dels _ Hc).
    assert (Hs : is_Some (obs parent !! id)).
    { simpl in *. rewrite lookup_union, <- Hbase, Hid. destruct (objects (diff _ parent) !! id); by eexists. }
    split; [done|]. rewrite Hobj. by destruct Hs as [? ->]. }
  cbn [mbind outcome_bind obind fst snd]. destruct d2; simpl.
  - rewrite Hdo1, Hdv1. split_and!; try done. intros id o. rewrite Hobj.
    destruct (obs parent !! id); [done|]. apply (wf_diff _ Hc).
  - destruct (proj1 Hd2 eq_refl) as [Hdf Hnil]. split_and!; [done..|]. intros id [o Ho].
    apply (proj1 Hd1 Hdf) with o. by apply elem_of_range.
Qed.
End merge.

(** The three-way merge of an object: a base object stays unless a branch
    deletes it; a new object is there when a branch has it. *)
Definition merge3 (b p c : option dobject) : option dobject :=
  match b with
  | Some _ => match c with Some _ => p | None => None end
  | None => match p with Some o => Some o | None => c end
  end.

Lemma merge_plays (b : snapshot) (pp pc : Patch Val snapshot) p parent (m : msg Val) :
  wf_patch pp -> wf_patch pc -> clean pc -> base _ pp = b -> base _ pc = b -> wf_snap b ->
  (forall id, id ∈ deletedObjects _ pc -> id ∉ deletedObjects _ pp) ->
  Diff pp pc = Ok p ->
  exists s, play (applied pp) (Actions (NewCommitObject p parent m)) = Ok s /\
    vectors s = vectors (applied pp) /\
    forall id, objects s !! id = merge3 (objects b !! id) (objects (applied pp) !! id) (objects (applied pc) !! id).
Proof.
  intros Hp Hc [Hcc _] Hbp Hbc Hwf Hdel Hdiff.
  pose proof (Diff_spec pp pc Hp Hc ltac:(congruence) ltac:(by rewrite Hbp)) as Hspec. rewrite Hdiff in Hspec.
  destruct Hspec as (Hbase & Hwd & Hv & Hdo & Hdv & Hobj).
  assert (Hin : forall id, is_Some (objects (applied pp) !! id) -> is_Some (obs pp !! id)).
  { intros id. simpl. rewrite !lookup_union, lookup_without. case_decide; [|done].
    destruct (objects (diff _ pp) !! id), (objects (base _ pp) !! id); intros []; by eexists. }
  exists (patched p (applied pp)). split; [|split].
  - apply NewCommitObject_plays; [done|split; rewrite ?Hdo, ?Hdv; [done|constructor]|..].
    + rewrite Hdo. apply Forall_forall. intros id Hid. simpl. rewrite lookup_union, lookup_without, decide_False by auto.
      destruct (wf_dels _ Hc _ Hid) as [o Ho]. simpl in Ho. rewrite Hbc, <- Hbp in Ho. rewrite Ho.
      destruct (objects (diff _ pp) !! id); by eexists.
    + by rewrite Hdv.
    + intros id. rewrite Hobj. destruct (obs pp !! id) eqn:Hpp; [by intros []|]. intros _.
      destruct (objects (applied pp) !! id) eqn:Ha; [|done]. destruct (Hin id); [by eexists|congruence].
    + rewrite Hv. intros id. rewrite lookup_empty. by intros [].
  - unfold patched. simpl. rewrite Hv, Hdv. simpl. by rewrite (left_id_L ∅ (∪)).
  - intros id. unfold patched at 1. cbn [objects]. rewrite lookup_union, Hobj, lookup_without, Hdo.
    pose proof (wf_adds _ Hc id) as Hca. pose proof (wf_adds _ Hp id) as Hpa.
    simpl in Hca, Hpa. rewrite Hbc in Hca. rewrite Hbp in Hpa.
    unfold merge3. simpl. rewrite !lookup_union, !lookup_without, Hbp, Hbc.
    pose proof (wf_dels _ Hc id) as Hcd. simpl in Hcd. rewrite Hbc in Hcd.
    destruct (objects b !! id) as [ob|] eqn:Hb.
    + destruct (objects (diff _ pc) !! id) eqn:Ho; [by discriminate Hca|].
      destruct (objects (diff _ pp) !! id) eqn:Ho'; [by discriminate Hpa|]. simpl.
      by destruct (decide (id ∈ deletedObjects _ pc)), (decide (id ∈ deletedObjects _ pp)).
    + rewrite (decide_False (P := id ∈ deletedObjects _ pc)) by (intros [? ?]%Hcd; done).
      destruct (objects (diff _ pp) !! id); simpl; [by destruct (decide _)|].
      by destruct (decide (id ∈ deletedObjects _ pp)), (decide (id ∈ deletedObjects _ pc)), (objects (diff _ pc) !! id).
Qed.
End patches.
