(* ===== verification/Branch.v ===== *)
(** * Branches ([lake/branch.go], [lake/branches], parts of [lake/pool.go])

    A pool keeps the tips of its branches in a journal store and its commit
    objects in a commit store.  A commit builds a commit object against the
    presumed tip, writes it, and moves the tip with an update that is conditional
    on the tip not having moved; otherwise it removes the object and retries.

    The commit messages that are generated when none is given are not modelled:
    the message is the one of [msg]. *)

From S2P Require Import Prelude.
From S2P Require Import Journal.
From S2P Require Import Commits.
Local Open Scope Z_scope.

(** ** Branch configurations ([branches/config.go]) *)

Record Config := mkConfig { Ts : Z; Name : gostring; tip : ksuid }.

Definition NewConfig (now : Z) (name : gostring) (commit : ksuid) : Config := mkConfig now name commit.
Definition with_tip (c : Config) (commit : ksuid) : Config := mkConfig (Ts c) (Name c) commit.

Definition maxCommitRetries : nat := 10.

Inductive branch_error :=
| EJournal (e : jerror)
| ECommits (e : error)
| ErrBranchExists | ErrBranchNotFound | ErrBranchChanged | ErrCommitFailed.

Section branch.
Context {Val : Type} `{!GoRange} `{!Stream (Action Val)} {C : Type -> Type} `{!ARC C}.
Context `{!Codec (list (jop Config))}.
Local Abbreviation Object := (Object Val).
Local Abbreviation dobject := (dobject Val).
Local Abbreviation msg := (msg Val).
Local Abbreviation SM := (SM (Val := Val) (C := C)).

(** ** Commit constructors: the closures given to [Branch.commit] *)

Definition Load_ (objects : list dobject) (parent : Config) (m : msg) : SM Object :=
  mret (NewAddsObject (tip parent) m objects).

Fixpoint lookup_each (snap : snapshot Val) (ids : list ksuid) : outcome error (list dobject) :=
  match ids with
  | [] => Ok []
  | id :: ids => o ← Commits.Lookup snap id; os ← lookup_each snap ids; Ok (o :: os)
  end.
Definition Delete_ (ids : list ksuid) (parent : Config) (m : msg) : SM Object :=
  snap ← Snapshot (tip parent);
  _ ← lift (lookup_each snap ids);
  mret (NewDeletesObject (tip parent) m ids).

Definition Revert_ (commit : ksuid) (parent : Config) (m : msg) : SM Object := fun s =>
  match PatchOfCommit commit s with
  | (Ok patch, s) => (tip_ ← Snapshot (tip parent); lift (Revert patch tip_ (tip parent) m)) s
  | (_, s) => (Err (ErrCommitNotFound commit), s)
  end.

Fixpoint each {W A} (f : W -> A -> outcome error W) (w : W) (l : list A) : outcome error W :=
  match l with
  | [] => Ok w
  | x :: l => w ← f w x; each f w l
  end.
Definition CommitCompact_ (src rollup : list dobject) (rollupVecs : list ksuid) (parent : Config) (m : msg) :
    SM Object :=
  base ← Snapshot (tip parent);
  p ← lift (each AddDataObject (NewPatch base) rollup);
  p ← lift (each AddVector p rollupVecs);
  p ← lift (each (fun p o => DeleteObject p (ID o)) p src);
  mret (NewCommitObject p (tip parent) m).

Definition commonAncestor (a b : list ksuid) : ksuid :=
  match List.find (fun id => bool_decide (id ∈ a)) b with Some id => id | None => Nil end.

Definition buildMergeObject (child : ksuid) (parent : Config) (m : msg) : SM Object :=
  childPath ← Path child;
  parentPath ← Path (tip parent);
  let baseID := commonAncestor parentPath childPath in
  if baseID =? Nil then lift (Err ErrNoAncestor)
  else
    base ← Snapshot baseID;
    childPatch ← PatchOfPath base baseID child;
    parentPatch ← PatchOfPath base baseID (tip parent);
    diff ← lift (Diff parentPatch childPatch);
    mret (NewCommitObject diff (tip parent) m).

Fixpoint check_vectors (want : bool) (snap : snapshot Val) (ids : list ksuid) : outcome error unit :=
  match ids with
  | [] => Ok tt
  | id :: ids =>
      if negb (Exists snap id) then Err (ErrNoObject id)
      else if Bool.eqb (HasVector snap id) want then check_vectors want snap ids
      else Err (if want then ErrNoVector id else ErrVectorExists id)
  end.
Definition AddVectors_ (ids : list ksuid) (parent : Config) (m : msg) : SM Object :=
  snap ← Snapshot (tip parent);
  _ ← lift (check_vectors false snap ids);
  mret (NewAddVectorsObject (tip parent) m ids).
Definition DeleteVectors_ (ids : list ksuid) (parent : Config) (m : msg) : SM Object :=
  snap ← Snapshot (tip parent);
  _ ← lift (check_vectors true snap ids);
  mret (NewDeleteVectorsObject (tip parent) m ids).

(** ** Pools *)

(** [dataFiles] are the data objects under the pool's data path. *)
Record Pool := mkPool {
  queue : Queue Config;
  branches : Journal.Store Config;
  commits : Commits.Store Val C;
  dataFiles : gmap ksuid unit;
}.

Definition PM (A : Type) : Type := Pool -> outcome branch_error A * Pool.
#[export] Instance PM_ret : MRet PM := fun A a p => (Ok a, p).
#[export] Instance PM_bind : MBind PM := fun A B f m p =>
  match m p with
  | (Ok a, p) => f a p
  | (Err e, p) => (Err e, p)
  | (Panic, p) => (Panic, p)
  end.
Definition fail {A} (e : branch_error) : PM A := fun p => (Err e, p).

Definition with_branches (q : Queue Config) (s : Journal.Store Config) (p : Pool) : Pool :=
  mkPool q s (commits p) (dataFiles p).
Definition with_commits (s : Commits.Store Val C) (p : Pool) : Pool :=
  mkPool (queue p) (branches p) s (dataFiles p).
Definition with_data (d : gmap ksuid unit) (p : Pool) : Pool :=
  mkPool (queue p) (branches p) (commits p) d.

Definition on_commits {A} (m : SM A) : PM A := fun p =>
  let '(r, s) := m (commits p) in (omap_err ECommits r, with_commits s p).

(** ** The store of branches ([branches/store.go]) *)

Definition branches_All : PM (list Config) := fun p =>
  match Journal.All Name (queue p) (branches p) with
  | Ok (l, (q, s)) => (Ok l, with_branches q s p)
  | Err e => (Err (EJournal e), p)
  | Panic => (Panic, p)
  end.

(** [LookupByName] ignores the error of [All]. *)
Definition LookupByName (name : gostring) : PM Config := fun p =>
  match branches_All p with
  | (Ok l, p) =>
      match List.find (fun c => bool_decide (Name c = name)) l with
      | Some c => (Ok c, p)
      | None => (Err ErrBranchNotFound, p)
      end
  | (Err _, p) => (Err ErrBranchNotFound, p)
  | (Panic, p) => (Panic, p)
  end.

(** A commit that fails leaves the store as it last loaded it. *)
Definition journal_commit (r : request Config) : PM unit := fun p =>
  match Journal.commit Name r (queue p) (branches p) with
  | Ok (q, s) => (Ok tt, with_branches q s p)
  | Err e =>
      (Err (EJournal e),
        match Journal.load Name (queue p) (branches p) with
        | Ok (q, s) => with_branches q s p
        | _ => p
        end)
  | Panic => (Panic, p)
  end.
Definition branches_Add (c : Config) : PM unit := journal_commit (Insert c).
Definition branches_Update (c : Config) (k : Config -> bool) : PM unit := journal_commit (UpdateEntry c (Some k)).
Definition branches_Remove (c : Config) : PM unit := fun p =>
  match journal_commit (DeleteKey (Name c) (Some (fun e => tip e =? tip c))) p with
  | (Err (EJournal (ErrCommit ErrNoSuchKey)), p) => (Err ErrBranchNotFound, p)
  | (Err (EJournal (ErrCommit ErrConstraint)), p) => (Err ErrBranchChanged, p)
  | r => r
  end.

(** ** The commit loop ([Branch.commit]) *)

Definition unchanged (parent : Config) (e : Config) : bool := tip e =? tip parent.

Fixpoint commit_loop (attempts : nat) (retries : Z) (name : gostring)
    (create : Config -> Z -> SM Object) : PM ksuid :=
  match attempts with
  | O => fail ErrCommitFailed
  | S attempts =>
      config ← LookupByName name;
      object ← on_commits (create config retries);
      _ ← on_commits (Put object);
      (fun p =>
        match branches_Update (with_tip config (commit_of object)) (unchanged config) p with
        | (Ok _, p) => (Ok (commit_of object), p)
        | (Panic, p) => (Panic, p)
        | (Err e, p) =>
            let '(removed, p) := on_commits (Remove object) p in
            match e, removed with
            | EJournal (ErrCommit ErrConstraint), Ok _ => commit_loop attempts (retries + 1) name create p
            | EJournal (ErrCommit ErrConstraint), Err rmerr => (Err rmerr, p)
            | _, _ => (Err e, p)
            end
        end) : PM ksuid
  end.
Definition commit (name : gostring) (create : Config -> Z -> SM Object) : PM ksuid :=
  commit_loop maxCommitRetries 0 name create.

(** ** The operations of a branch *)

(** What each attempt passes to [NewObject]: [m retries]. *)
Definition Load (name : gostring) (objects : list dobject) (m : Z -> msg) : PM ksuid :=
  if (length objects =? 0)%nat then fail (ECommits ErrEmptyTransaction)
  else commit name (fun parent retries => Load_ objects parent (m retries)).
Definition Delete (name : gostring) (ids : list ksuid) (m : Z -> msg) : PM ksuid :=
  commit name (fun parent retries => Delete_ ids parent (m retries)).
Definition Revert (name : gostring) (id : ksuid) (m : Z -> msg) : PM ksuid :=
  commit name (fun parent retries => Revert_ id parent (m retries)).
Definition CommitCompact (name : gostring) (src rollup : list dobject) (vecs : list ksuid) (m : Z -> msg) : PM ksuid :=
  if (length rollup <? 1)%nat then fail (ECommits ErrNoRollup)
  else commit name (fun parent retries => CommitCompact_ src rollup vecs parent (m retries)).
(** A [Branch] holds the configuration it was opened with: [child] is the tip
    of the child branch at that time.  (The test that the two branches are not
    the same pointer is not modelled: [Root.MergeBranch] opens both.) *)
Definition mergeInto (child : Config) (parent : gostring) (m : Z -> msg) : PM ksuid :=
  commit parent (fun head retries => buildMergeObject (tip child) head (m retries)).
Definition AddVectors (name : gostring) (ids : list ksuid) (m : Z -> msg) : PM ksuid :=
  commit name (fun parent retries => AddVectors_ ids parent (m retries)).
Definition DeleteVectors (name : gostring) (ids : list ksuid) (m : Z -> msg) : PM ksuid :=
  commit name (fun parent retries => DeleteVectors_ ids parent (m retries)).

Fixpoint LookupTags (tags : list ksuid) : PM (list ksuid) :=
  match tags with
  | [] => mret []
  | tag :: tags => fun p =>
      if decide (is_Some (dataFiles p !! tag))
      then (ids ← LookupTags tags; mret (tag :: ids)) p
      else match on_commits (PatchOfCommit tag) p with
           | (Ok patch, p) => (ids ← LookupTags tags; mret (DataObjects patch ++ ids)) p
           | (_, p) => LookupTags tags p
           end
  end.

(** ** Pools ([pool.go]) *)

Definition CreateBranch (now : Z) (name : gostring) (parent : ksuid) : PM Config := fun p =>
  match LookupByName name p with
  | (Ok _, p) => (Err ErrBranchExists, p)
  | (Panic, p) => (Panic, p)
  | (Err _, p) => (_ ← branches_Add (NewConfig now name parent); mret (NewConfig now name parent)) p
  end.
Definition removeBranch (name : gostring) : PM unit :=
  config ← LookupByName name; branches_Remove config.

(** The files of a vacuumed object that exist are deleted; a dry run reports
    every object sent whose file exists. *)
Fixpoint delete_files (os : list dobject) (d : gmap ksuid unit) : list ksuid * gmap ksuid unit :=
  match os with
  | [] => ([], d)
  | o :: os =>
      let '(ids, d') := delete_files os (delete (ID o) d) in
      (if decide (is_Some (d !! ID o)) then ID o :: ids else ids, d')
  end.
Definition Vacuum (commit : ksuid) (dryrun : bool) : PM (list ksuid) := fun p =>
  match on_commits (Vacuumable commit) p with
  | (Ok os, p) =>
      if dryrun then (Ok (filter (fun id => is_Some (dataFiles p !! id)) (map ID os)), p)
      else let '(ids, d) := delete_files os (dataFiles p) in (Ok ids, with_data d p)
  | (Err e, p) => (Err e, p)
  | (Panic, p) => (Panic, p)
  end.
End branch.
