(* ===== verification/BranchProofs.v ===== *)
(** * Branches: every commit object plays on the tip it was built for

    For each constructor of [branch.go]: the commit object it returns names the
    presumed tip as its parent and plays on the tip's snapshot, with the snapshot
    it leaves. *)

From S2P Require Import Prelude.
From S2P Require Import Journal.
From S2P Require Import Commits.
From S2P Require Import CommitProofs PatchProofs Branch.
Local Open Scope Z_scope.

Section constructors.
Context {Val : Type} `{!GoRange} `{!Stream (Action Val)} {C : Type -> Type} `{!ARC C}.
Local Abbreviation Object := (Object Val).
Local Abbreviation dobject := (dobject Val).
Local Abbreviation snapshot := (snapshot Val).
Local Abbreviation Store := (Commits.Store Val C).

(** The commit object [o] continues the branch at [parent] and takes its
    snapshot [sn] to [sn']. *)
Record continues (parent : ksuid) (id : ksuid) (sn : snapshot) (o : Object) (sn' : snapshot) : Prop := {
  cont_wf : wf_object o;
  cont_id : commit_of o = id;
  cont_parent : Parent o = parent;
  cont_play : Play sn o = Ok sn';
}.

Lemma wf_new_object parent (m : msg Val) acts : wf_object (mkCommit (new_id m) parent (commit_action parent m :: acts)).
Proof. by eexists _, _, _, _, _, _. Qed.

Lemma continues_new parent (m : msg Val) acts sn sn' :
  play sn acts = Ok sn' ->
  continues parent (new_id m) sn (mkCommit (new_id m) parent (commit_action parent m :: acts)) sn'.
Proof. intros Hp. split; [apply wf_new_object|done|done|done]. Qed.

Lemma continues_patch {W} (p : Patch Val W) parent (m : msg Val) sn sn' :
  play sn (Actions (NewCommitObject p parent m)) = Ok sn' ->
  continues parent (new_id m) sn (NewCommitObject p parent m) sn'.
Proof.
  destruct (NewCommitObject_eq p parent m) as [acts Heq]. intros Hp. rewrite Heq in *. by apply continues_new.
Qed.

(** ** Load, delete, vectors *)

Lemma Load_spec (os : list dobject) parent (m : msg Val) s sn :
  coherent s -> NoDup (map ID os) -> Forall (fun o => objects sn !! ID o = None) os ->
  exists o, reads (C := C) (Load_ os parent m) s (Ok o) /\
    continues (tip parent) (new_id m) sn o
      (mkSnap (list_to_map (map (fun o => (ID o, o)) os) ∪ objects sn) (vectors sn)).
Proof.
  intros Hs Hnd Hall. eexists. split; [by apply reads_ret|]. rewrite NewAddsObject_eq.
  apply continues_new. set (l := map (fun o : dobject => (ID o, o)) os).
  assert (Hfst : l.*1 = map ID os) by (unfold l; clear; induction os as [|o os IH]; [done|simpl; by f_equal]).
  assert (Hsnd : l.*2 = os) by (unfold l; clear; induction os as [|o os IH]; [done|simpl; by f_equal]).
  rewrite <- Hsnd at 1. apply (play_adds (Add (new_id m))); [eauto|by rewrite Hfst|].
  unfold l. apply Forall_map. eapply Forall_impl; [exact Hall|]. done.
Qed.

Lemma lookup_each_Ok (sn : snapshot) ids :
  (exists os, lookup_each sn ids = Ok os) <-> Forall (fun id => is_Some (objects sn !! id)) ids.
Proof.
  induction ids as [|id ids IH]; [split; [by constructor|by exists []]|]. rewrite Forall_cons, <- IH. simpl.
  unfold snap_Lookup. destruct (objects sn !! id) as [o|]; simpl.
  - destruct (lookup_each sn ids) as [os| |]; simpl; [naive_solver|..]; (split; [by intros []|intros [_ []]; done]).
  - split; [by intros []|]. by intros [[] _].
Qed.

Lemma Delete_spec ids parent (m : msg Val) s l sn :
  coherent s -> chain (files s) (tip parent) l -> replay l = Ok sn -> NoDup ids ->
  exists r, reads (C := C) (Delete_ ids parent m) s r /\
    match r with
    | Ok o => continues (tip parent) (new_id m) sn o (mkSnap (without ids (objects sn)) (vectors sn))
    | Err e => e = ErrNotFound /\ exists id, id ∈ ids /\ objects sn !! id = None
    | Panic => False
    end.
Proof.
  intros Hs Hc Hr Hnd.
  exists (_ ← lookup_each sn ids; Ok (NewDeletesObject (tip parent) m ids)). split.
  - unfold Delete_. eapply reads_bind; [rewrite <- Hr; by apply reads_Snapshot|]. intros s1 Hs1 _.
    apply reads_bind_r; [by apply reads_lift|]. intros. by apply reads_ret.
  - destruct (lookup_each sn ids) as [os|e|] eqn:He; simpl.
    + rewrite NewDeletesObject_eq. apply continues_new, play_dels; [done|]. apply lookup_each_Ok. eauto.
    + clear -He. induction ids as [|id ids IH]; [done|]. simpl in He. unfold snap_Lookup in He.
      destruct (objects sn !! id) as [o|] eqn:Ho; simpl in He.
      * destruct (lookup_each sn ids) as [| |]; simplify_eq/=. destruct (IH eq_refl) as (-> & id' & ? & ?).
        split; [done|]. exists id'. split; [by right|done].
      * simplify_eq. split; [done|]. exists id. split; [by left|done].
    + clear -He. induction ids as [|id ids IH]; [done|]. simpl in He. unfold snap_Lookup in He.
      destruct (objects sn !! id); simpl in He; [|done]. by destruct (lookup_each sn ids).
Qed.

Lemma check_vectors_Ok want (sn : snapshot) ids :
  check_vectors want sn ids = Ok tt <->
  Forall (fun id => is_Some (objects sn !! id) /\ HasVector sn id = want) ids.
Proof.
  induction ids as [|id ids IH]; [split; done|]. rewrite Forall_cons, <- IH. cbn [check_vectors].
  rewrite Exists_obs. cbn [obs snapshot_model].
  destruct (objects sn !! id) as [o|]; simpl; [|split; [done|]; by intros [[[] _] _]].
  destruct (Bool.eqb_spec (snap_HasVector sn id) want) as [Heq|Hne]; [|split; [done|by intros [[_ ?] _]]].
  split; [intros Hck|by intros [_ ?]]. split; [split; [by eexists|done]|done].
Qed.

Lemma AddVectors_spec ids parent (m : msg Val) s l sn :
  coherent s -> chain (files s) (tip parent) l -> replay l = Ok sn -> NoDup ids ->
  exists r, reads (C := C) (AddVectors_ ids parent m) s r /\
    forall o, r = Ok o -> continues (tip parent) (new_id m) sn o
      (mkSnap (objects sn) (list_to_map (map (fun id => (id, tt)) ids) ∪ vectors sn)).
Proof.
  intros Hs Hc Hr Hnd.
  exists (_ ← check_vectors false sn ids; Ok (NewAddVectorsObject (tip parent) m ids)). split.
  - unfold AddVectors_. eapply reads_bind; [rewrite <- Hr; by apply reads_Snapshot|]. intros s1 Hs1 _.
    apply reads_bind_r; [by apply reads_lift|]. intros. by apply reads_ret.
  - intros o ([] & Hck & [= <-])%bind_Ok. apply check_vectors_Ok in Hck.
    rewrite NewAddVectorsObject_eq. apply continues_new, play_addvs; [done|].
    eapply Forall_impl; [exact Hck|]. intros id [_ Hv]. rewrite HasVector_vecs in Hv. simpl in Hv.
    by destruct (vectors sn !! id).
Qed.

Lemma DeleteVectors_spec ids parent (m : msg Val) s l sn :
  coherent s -> chain (files s) (tip parent) l -> replay l = Ok sn -> NoDup ids ->
  exists r, reads (C := C) (DeleteVectors_ ids parent m) s r /\
    forall o, r = Ok o -> continues (tip parent) (new_id m) sn o
      (mkSnap (objects sn) (without ids (vectors sn))).
Proof.
  intros Hs Hc Hr Hnd.
  exists (_ ← check_vectors true sn ids; Ok (NewDeleteVectorsObject (tip parent) m ids)). split.
  - unfold DeleteVectors_. eapply reads_bind; [rewrite <- Hr; by apply reads_Snapshot|]. intros s1 Hs1 _.
    apply reads_bind_r; [by apply reads_lift|]. intros. by apply reads_ret.
  - intros o ([] & Hck & [= <-])%bind_Ok. apply check_vectors_Ok in Hck.
    rewrite NewDeleteVectorsObject_eq. apply continues_new, play_delvs; [done|].
    eapply Forall_impl; [exact Hck|]. intros id [_ Hv]. rewrite HasVector_vecs in Hv. simpl in Hv.
    destruct (vectors sn !! id); [by eexists|done].
Qed.

(** ** Compaction *)

Lemma patch_add_applied (p p' : Patch Val snapshot) o :
  wf_patch p -> clean p -> AddDataObject p o = Ok p' ->
  wf_patch p' /\ clean p' /\ base _ p' = base _ p /\ deletedObjects _ p' = deletedObjects _ p /\
  objects (applied p') = <[ID o := o]> (objects (applied p)) /\ vectors (applied p') = vectors (applied p).
Proof.
  intros Hwf Hc Ha. split; [by apply (PlayAction_wf_patch p p' (Add 0 o))|].
  apply patch_add_Ok in Ha as (_ & _ & ->). split_and!; try done.
  unfold applied, patched. simpl. by rewrite insert_union_without.
Qed.
Lemma patch_addv_applied (p p' : Patch Val snapshot) id :
  wf_patch p -> clean p -> AddVector p id = Ok p' ->
  wf_patch p' /\ clean p' /\ base _ p' = base _ p /\ deletedObjects _ p' = deletedObjects _ p /\
  objects (applied p') = objects (applied p) /\ vectors (applied p') = <[id := tt]> (vectors (applied p)).
Proof.
  intros Hwf Hc Ha. split; [by apply (PlayAction_wf_patch p p' (AddVec 0 id))|].
  apply patch_addv_Ok in Ha as (_ & _ & ->). split_and!; try done.
  unfold applied, patched. simpl. by rewrite insert_union_without.
Qed.
Lemma patch_delete_applied (p p' : Patch Val snapshot) id :
  wf_patch p -> clean p -> id ∉ deletedObjects _ p -> DeleteObject p id = Ok p' ->
  wf_patch p' /\ clean p' /\ base _ p' = base _ p /\
  (forall i, i ∈ deletedObjects _ p' -> i = id \/ i ∈ deletedObjects _ p) /\
  objects (applied p') = delete id (objects (applied p)) /\ vectors (applied p') = vectors (applied p).
Proof.
  intros Hwf [Hc1 Hc2] Hid Ha. split; [by apply (PlayAction_wf_patch p p' (Commits.Delete 0 id))|].
  apply patch_delete_Ok in Ha as [[Hd ->]|(Hd & Hb & ->)]; unfold applied, patched; simpl.
  - split_and!; try done; [by right|]. rewrite delete_union_diff; [done|]. by apply (wf_adds _ Hwf).
  - split_and!; try done; [split; [by apply NoDup_snoc|done]| |].
    + intros i [Hi| ->%list_elem_of_singleton]%elem_of_app; auto.
    + by rewrite delete_union_base.
Qed.

Lemma each_add (p p' : Patch Val snapshot) os :
  wf_patch p -> clean p -> each AddDataObject p os = Ok p' ->
  wf_patch p' /\ clean p' /\ base _ p' = base _ p /\ deletedObjects _ p' = deletedObjects _ p /\
  objects (applied p') = fold_left (fun m o => <[ID o := o]> m) os (objects (applied p)) /\
  vectors (applied p') = vectors (applied p).
Proof.
  revert p. induction os as [|o os IH]; intros p Hwf Hc Ha; [by injection Ha as <-|].
  apply bind_Ok in Ha as (p1 & Ho & Ha). apply patch_add_applied in Ho as (Hwf1 & Hc1 & Hb & Hd & Ho & Hv); [|done..].
  destruct (IH _ Hwf1 Hc1 Ha) as (? & ? & Hb' & Hd' & Ho' & Hv'). cbn [fold_left]. rewrite <- Ho. split_and!; congruence.
Qed.
Lemma each_addv (p p' : Patch Val snapshot) ids :
  wf_patch p -> clean p -> each AddVector p ids = Ok p' ->
  wf_patch p' /\ clean p' /\ base _ p' = base _ p /\ deletedObjects _ p' = deletedObjects _ p /\
  objects (applied p') = objects (applied p) /\
  vectors (applied p') = fold_left (fun m id => <[id := tt]> m) ids (vectors (applied p)).
Proof.
  revert p. induction ids as [|o os IH]; intros p Hwf Hc Ha; [by injection Ha as <-|].
  apply bind_Ok in Ha as (p1 & Ho & Ha). apply patch_addv_applied in Ho as (Hwf1 & Hc1 & Hb & Hd & Ho & Hv); [|done..].
  destruct (IH _ Hwf1 Hc1 Ha) as (? & ? & Hb' & Hd' & Ho' & Hv'). cbn [fold_left]. rewrite <- Hv. split_and!; congruence.
Qed.
Lemma each_delete (p p' : Patch Val snapshot) (os : list dobject) :
  wf_patch p -> clean p -> NoDup (map ID os) -> (forall o, o ∈ os -> ID o ∉ deletedObjects _ p) ->
  each (fun p o => DeleteObject p (ID o)) p os = Ok p' ->
  wf_patch p' /\ clean p' /\ base _ p' = base _ p /\
  objects (applied p') = fold_left (fun m o => delete (ID o) m) os (objects (applied p)) /\
  vectors (applied p') = vectors (applied p).
Proof.
  revert p. induction os as [|o os IH]; intros p Hwf Hc Hnd Hdel Ha; [by injection Ha as <-|].
  apply bind_Ok in Ha as (p1 & Ho & Ha). inversion_clear Hnd as [|? ? Hni Hnd'].
  apply patch_delete_applied in Ho as (Hwf1 & Hc1 & Hb & Hd & Ho & Hv); [|done|done|apply Hdel; by left].
  destruct (IH _ Hwf1 Hc1 Hnd') as (? & ? & Hb' & Ho' & Hv'); [|done|].
  - intros o' Ho' [Heq|Hi]%Hd; [|by apply (Hdel o'); [right|]].
    apply Hni. apply list_elem_of_fmap. by exists o'.
  - cbn [fold_left]. rewrite <- Ho. split_and!; congruence.
Qed.

Lemma CommitCompact_spec src rollup vecs parent (m : msg Val) s l sn :
  coherent s -> chain (files s) (tip parent) l -> replay l = Ok sn -> NoDup (map ID src) ->
  exists r, reads (C := C) (CommitCompact_ src rollup vecs parent m) s r /\
    forall o, r = Ok o -> continues (tip parent) (new_id m) sn o
      (mkSnap (fold_left (fun m o => delete (ID o) m) src
                (fold_left (fun m o => <[ID o := o]> m) rollup (objects sn)))
              (fold_left (fun m id => <[id := tt]> m) vecs (vectors sn))).
Proof.
  intros Hs Hc Hr Hnd.
  exists (p ← each AddDataObject (NewPatch sn) rollup; p ← each AddVector p vecs;
          p ← each (fun p o => DeleteObject p (ID o)) p src; Ok (NewCommitObject p (tip parent) m)). split.
  - unfold CommitCompact_. eapply reads_bind; [rewrite <- Hr; by apply reads_Snapshot|]. intros s1 Hs1 _.
    apply reads_bind_r; [by apply reads_lift|]. intros p1 s2 _ Hs2 _.
    apply reads_bind_r; [by apply reads_lift|]. intros p2 s3 _ Hs3 _.
    apply reads_bind_r; [by apply reads_lift|]. intros. by apply reads_ret.
  - intros o (p1 & H1 & (p2 & H2 & (p3 & H3 & [= <-])%bind_Ok)%bind_Ok)%bind_Ok.
    assert (Hap : applied (NewPatch sn) = sn).
    { unfold applied, patched. simpl. rewrite !(left_id_L ∅ (∪)). by destruct sn. }
    apply each_add in H1 as (Hw1 & Hc1 & Hb1 & Hd1 & Ho1 & Hv1); [|apply wf_NewPatch|split; constructor].
    apply each_addv in H2 as (Hw2 & Hc2 & Hb2 & Hd2 & Ho2 & Hv2); [|done..].
    apply each_delete in H3 as (Hw3 & Hc3 & Hb3 & Ho3 & Hv3); [|done..|].
    2:{ intros o _. rewrite Hd2, Hd1. apply not_elem_of_nil. }
    assert (Hbase : base _ p3 = sn) by (rewrite Hb3, Hb2, Hb1; done).
    assert (Hfin : applied p3 = patched p3 sn) by (unfold applied; simpl; rewrite Hbase; by destruct sn).
    apply continues_patch. rewrite NewCommitObject_plays; [|apply Hw3|done|apply Forall_forall..| |].
    + rewrite <- Hfin, <- Hap, <- Hv1, <- Hv2, <- Hv3, <- Ho1, <- Ho2, <- Ho3. by destruct (applied p3).
    + intros id Hid. pose proof (wf_dels _ Hw3 _ Hid) as Hx. simpl in Hx. by rewrite Hbase in Hx.
    + intros id Hid. pose proof (wf_delvs _ Hw3 _ Hid) as Hx. simpl in Hx. by rewrite Hbase in Hx.
    + intros id Hid. pose proof (wf_adds _ Hw3 _ Hid) as Hx. simpl in Hx. by rewrite Hbase in Hx.
    + intros id Hid. pose proof (wf_addvs _ Hw3 _ Hid) as Hx. simpl in Hx. by rewrite Hbase in Hx.
Qed.

(** ** Reverts *)

(** An object after a revert, from the object before and after the reverted
    commit and at the tip. *)
Definition revert3 (before after tip_ : option dobject) : option dobject :=
  match before, after with
  | None, Some _ => None
  | Some o, None => match tip_ with Some o' => Some o' | None => Some o end
  | _, _ => tip_
  end.

Lemma lookup_applied (p : Patch Val snapshot) id :
  objects (applied p) !! id = match objects (diff _ p) !! id with
    | Some o => Some o
    | None => if decide (id ∈ deletedObjects _ p) then None else objects (base _ p) !! id
    end.
Proof.
  unfold applied, patched. cbn [objects]. rewrite lookup_union, lookup_without. simpl.
  destruct (objects (diff _ p) !! id), (decide (id ∈ deletedObjects _ p)); simpl; try done;
    by destruct (objects (base _ p) !! id).
Qed.

Lemma reverted_revert3 (p : Patch Val snapshot) tip_ id :
  wf_patch p -> reverted p tip_ id = revert3 (objects (base _ p) !! id) (objects (applied p) !! id) (objects tip_ !! id).
Proof.
  intros Hwf. pose proof (wf_adds _ Hwf id) as Ha. pose proof (wf_dels _ Hwf id) as Hd. simpl in Ha, Hd.
  unfold reverted. rewrite lookup_applied. destruct (objects (diff _ p) !! id) as [o|] eqn:Ho.
  - rewrite decide_True by by eexists. by rewrite Ha by by eexists.
  - rewrite decide_False by by intros []. simpl. case_decide as Hdel.
    + destruct (Hd Hdel) as [ob ->]. by destruct (objects tip_ !! id).
    + by destruct (objects (base _ p) !! id).
Qed.

(** Before and after a commit that is in the chain. *)
Lemma commit_patch (lc : list (ksuid * Object)) c oc b after p :
  replay lc = Ok b -> replay ((c, oc) :: lc) = Ok after -> Play (NewPatch b) oc = Ok p ->
  wf_patch p /\ clean p /\ base _ p = b /\ after = applied p.
Proof.
  intros Hb Ha Hp. rewrite replay_cons, Hb in Ha. simpl in Ha.
  destruct (play_sim (Actions oc) (NewPatch b) p b after) as (Hwf & Hc & Heq);
    [apply wf_NewPatch|split; constructor| |done|done|].
  { unfold applied, patched. simpl. rewrite !(left_id_L ∅ (∪)). by destruct b. }
  split_and!; try done. by apply play_base in Hp.
Qed.

Lemma Revert_spec c oc lc parent (m : msg Val) s l sn b after :
  coherent s -> chain (files s) (tip parent) l -> replay l = Ok sn ->
  chain (files s) c ((c, oc) :: lc) -> replay lc = Ok b -> replay ((c, oc) :: lc) = Ok after ->
  exists r, reads (C := C) (Revert_ c parent m) s r /\
    match r with
    | Ok o => exists sn', continues (tip parent) (new_id m) sn o sn' /\ vectors sn' = vectors sn /\
        forall id, objects sn' !! id = revert3 (objects b !! id) (objects after !! id) (objects sn !! id)
    | Err e => e = ErrCommitNotFound c \/ (e = ErrRevertEmpty /\
        forall id, objects sn !! id = revert3 (objects b !! id) (objects after !! id) (objects sn !! id))
    | Panic => False
    end.
Proof.
  intros Hs Hl Hr Hc Hb Ha. destruct (reads_PatchOfCommit _ _ _ _ Hs Hc) as (s1 & E1 & Hs1 & Hf1).
  rewrite Hb in E1. simpl in E1. rewrite <- Hf1 in Hl.
  destruct (Play (NewPatch b) oc) as [p|e|] eqn:Hp.
  2,3: exists (Err (ErrCommitNotFound c)); split; [exists s1; unfold Revert_; by rewrite E1|by left].
  destruct (commit_patch _ _ _ _ _ _ Hb Ha Hp) as (Hwf & Hcl & Hbase & ->).
  exists (Commits.Revert p sn (tip parent) m). split.
  - assert (Hk : reads (tip_ ← Snapshot (tip parent); lift (Commits.Revert p tip_ (tip parent) m)) s1
      (Commits.Revert p sn (tip parent) m)).
    { eapply reads_bind; [rewrite <- Hr; by apply reads_Snapshot|]. intros. by apply reads_lift. }
    destruct Hk as (s2 & E2 & Hs2 & Hf2). exists s2. unfold Revert_. rewrite E1. split; [exact E2|].
    split; [done|congruence].
  - pose proof (Revert_plays p sn (tip parent) m Hwf Hcl) as Hspec.
    assert (Hkey : map_Forall (fun id d => ID d = id) (obs (base _ p))).
    { rewrite Hbase. simpl. by apply (replay_wf _ _ Hb). }
    specialize (Hspec Hkey). destruct (Commits.Revert p sn (tip parent) m) as [o|e|]; [|right|done].
    + destruct Hspec as (Hw & Hid & Hpar & sn' & Hplay & Hv & Ho). exists sn'. split; [done|]. split; [done|].
      intros id. by rewrite Ho, reverted_revert3, Hbase.
    + destruct Hspec as [-> Ho]. split; [done|]. intros id. rewrite <- Hbase, <- reverted_revert3; done.
Qed.

(** ** Merges *)

Lemma find_first {A} (f : A -> bool) l x :
  List.find f l = Some x -> f x = true /\ exists l1 l2, l = l1 ++ x :: l2 /\ Forall (fun y => f y = false) l1.
Proof.
  induction l as [|y l IH]; [done|]. simpl. destruct (f y) eqn:Hy.
  - intros [= ->]. split; [done|]. exists [], l. done.
  - intros Hf. destruct (IH Hf) as (Hx & l1 & l2 & -> & Hl1). split; [done|]. exists (y :: l1), l2.
    split; [done|by constructor].
Qed.

Lemma commonAncestor_spec fs a b (la lb : list (ksuid * Object)) :
  chain fs a la -> chain fs b lb -> commonAncestor la.*1 lb.*1 <> Nil ->
  exists l1 o l2 k1, la = l1 ++ (commonAncestor la.*1 lb.*1, o) :: l2 /\
    lb = k1 ++ (commonAncestor la.*1 lb.*1, o) :: l2 /\
    chain fs (commonAncestor la.*1 lb.*1) ((commonAncestor la.*1 lb.*1, o) :: l2) /\
    (forall i, i ∈ k1.*1 -> i ∉ la.*1).
Proof.
  intros Ha Hb. unfold commonAncestor. destruct (List.find _ lb.*1) as [id|] eqn:Hf; [|done]. intros _.
  apply find_first in Hf as (Hid & p1 & p2 & Hlb & Hp1). apply bool_decide_eq_true in Hid.
  apply list_elem_of_fmap in Hid as ([i o] & Hi & Hin). simpl in Hi. subst i.
  apply list_elem_of_split in Hin as (l1 & l2 & ->).
  apply fmap_app_inv in Hlb as (k1 & k2 & -> & Hk2 & ->). symmetry in Hk2.
  destruct k2 as [|[i o'] k2]; [done|]. simpl in Hk2. injection Hk2 as -> <-.
  pose proof (chain_suffix _ _ _ _ _ _ _ Ha eq_refl) as Hc1.
  pose proof (chain_suffix _ _ _ _ _ _ _ Hb eq_refl) as Hc2.
  pose proof (chain_inj _ _ _ _ Hc1 Hc2) as Heq. injection Heq as <- <-.
  exists l1, o, l2, k1. split_and!; try done. intros i Hi%(proj1 (Forall_forall _ _) Hp1).
  by apply bool_decide_eq_false in Hi.
Qed.

Lemma replay_suffix (l1 l2 : list (ksuid * Object)) sn :
  replay (l1 ++ l2) = Ok sn -> exists b, replay l2 = Ok b /\ play_all b (rev l1.*2) = Ok sn.
Proof. rewrite replay_app. by intros (b & Hb & Hp)%bind_Ok; exists b. Qed.

(** The patch from an ancestor to a descendant describes the descendant. *)
Lemma path_patch (b sn : snapshot) os p :
  play_all b os = Ok sn -> play_all (NewPatch b) os = Ok p ->
  wf_patch p /\ clean p /\ base _ p = b /\ sn = applied p.
Proof.
  intros Hs Hp. destruct (play_all_sim os (NewPatch b) p b sn) as (Hwf & Hc & Heq);
    [apply wf_NewPatch|split; constructor| |done|done|].
  { unfold applied, patched. simpl. rewrite !(left_id_L ∅ (∪)). by destruct b. }
  split_and!; try done. clear -Hp. assert (Hg : forall q, play_all q os = Ok p -> base _ p = base _ q); [|by apply Hg in Hp].
  clear. induction os as [|o os IH]; intros q Hq; simpl in Hq; [by simplify_eq|].
  apply bind_Ok in Hq as (q1 & H1 & Hq). rewrite (IH _ Hq). by eapply play_base.
Qed.

(** Two branches conflict when both deleted an object of their common
    ancestor. *)
Definition no_double_delete (b p c : snapshot) : Prop :=
  forall id, is_Some (objects b !! id) -> objects p !! id = None -> is_Some (objects c !! id).

Lemma Merge_spec child parent (m : msg Val) s lc lp sc sp :
  coherent s -> child <> Nil -> tip parent <> Nil ->
  chain (files s) child lc -> replay lc = Ok sc -> chain (files s) (tip parent) lp -> replay lp = Ok sp ->
  exists r, reads (C := C) (buildMergeObject child parent m) s r /\
    (commonAncestor lp.*1 lc.*1 = Nil -> r = Err ErrNoAncestor) /\
    forall o, r = Ok o ->
      exists l1 oa l2 k1 b, lp = l1 ++ (commonAncestor lp.*1 lc.*1, oa) :: l2 /\
        lc = k1 ++ (commonAncestor lp.*1 lc.*1, oa) :: l2 /\
        replay ((commonAncestor lp.*1 lc.*1, oa) :: l2) = Ok b /\
        (no_double_delete b sp sc -> exists sn', continues (tip parent) (new_id m) sp o sn' /\
          vectors sn' = vectors sp /\
          forall id, objects sn' !! id = merge3 (objects b !! id) (objects sp !! id) (objects sc !! id)).
Proof.
  intros Hs Hcn Hpn Hlc Hrc Hlp Hrp. set (a := commonAncestor lp.*1 lc.*1).
  destruct (reads_Path _ _ _ Hs Hcn Hlc) as (s1 & E1 & Hs1 & Hf1).
  rewrite <- Hf1 in Hlp. destruct (reads_Path _ _ _ Hs1 Hpn Hlp) as (s2 & E2 & Hs2 & Hf2). rewrite Hf1 in Hlp.
  assert (Hgo : forall r, (if a =? Nil then r = Err ErrNoAncestor else True) ->
    reads (if a =? Nil then lift (Err ErrNoAncestor)
      else base ← Snapshot a; childPatch ← PatchOfPath base a child;
           parentPatch ← PatchOfPath base a (tip parent);
           diff ← lift (Diff parentPatch childPatch);
           mret (NewCommitObject diff (tip parent) m)) s2 r -> reads (buildMergeObject child parent m) s r).
  { intros r _ (s3 & E3 & Hs3 & Hf3). exists s3. split; [|split; [done|congruence]].
    unfold buildMergeObject, mbind, SM_bind. rewrite E1, E2. exact E3. }
  destruct (Z.eqb_spec a Nil) as [Hnil|Hne].
  { exists (Err ErrNoAncestor). split; [|done]. apply Hgo; [done|by apply reads_lift]. }
  destruct (commonAncestor_spec _ _ _ _ _ Hlp Hlc Hne) as (l1 & oa & l2 & k1 & Hpe & Hce & Hca & _).
  fold a in Hpe, Hce, Hca. rewrite Hpe in Hrp. rewrite Hce in Hrc.
  destruct (replay_suffix _ _ _ Hrp) as (b & Hb & Hpb). destruct (replay_suffix _ _ _ Hrc) as (b' & Hb' & Hcb).
  rewrite Hb in Hb'. injection Hb' as <-.
  exists (pc ← play_all (NewPatch b) (rev k1.*2); pp ← play_all (NewPatch b) (rev l1.*2);
          d ← Diff pp pc; Ok (NewCommitObject d (tip parent) m)).
  split; [|split; [done|]].
  - apply Hgo; [done|]. rewrite <- Hf1, <- Hf2 in Hca, Hlp, Hlc.
    eapply reads_bind; [rewrite <- Hb; by apply reads_Snapshot|]. intros s3 Hs3 Hf3.
    rewrite <- Hf3, Hpe in Hlp. rewrite <- Hf3, Hce in Hlc.
    apply reads_bind_r; [by eapply reads_PatchOfPath|]. intros pc s4 _ Hs4 Hf4. rewrite <- Hf4 in Hlp.
    apply reads_bind_r; [by eapply reads_PatchOfPath|]. intros pp s5 _ Hs5 _.
    apply reads_bind_r; [by apply reads_lift|]. intros. by apply reads_ret.
  - intros o (pc & Hpc & (pp & Hpp & (d & Hd & [= <-])%bind_Ok)%bind_Ok)%bind_Ok.
    exists l1, oa, l2, k1, b. split_and!; try done. intros Hnd.
    destruct (path_patch _ _ _ _ Hcb Hpc) as (Hwc & Hcc & Hbc & ->).
    destruct (path_patch _ _ _ _ Hpb Hpp) as (Hwp & Hcp & Hbp & ->).
    destruct (merge_plays b pp pc d (tip parent) m) as (sn' & Hplay & Hv & Ho); try done.
    { by apply (replay_wf _ _ Hb). }
    { intros id Hic Hip. pose proof (wf_dels _ Hwc _ Hic) as Hsome. pose proof (wf_dels _ Hwp _ Hip) as Hsome2.
      simpl in Hsome, Hsome2. rewrite Hbc in Hsome.
      destruct (Hnd id Hsome) as [x Hx].
      - rewrite lookup_applied. destruct (objects (diff _ pp) !! id) eqn:Hdp; [|by rewrite decide_True].
        pose proof (wf_adds _ Hwp id ltac:(by eexists)) as Hn. simpl in Hn. rewrite Hn in Hsome2. by destruct Hsome2.
      - rewrite lookup_applied in Hx. destruct (objects (diff _ pc) !! id) eqn:Hdc; [|by rewrite decide_True in Hx].
        pose proof (wf_adds _ Hwc id ltac:(by eexists)) as Hn. simpl in Hn. rewrite Hbc in Hn.
        rewrite Hn in Hsome. by destruct Hsome. }
    exists sn'. split; [|done]. by apply continues_patch.
Qed.
End constructors.
