(* ===== verification/BranchSteps.v ===== *)
(** * Concurrent commits to the branches of a pool

    Clients of any number of processes run [Branch.commit] at the same time.  A
    step is one access to shared state: reading the branch table, writing a
    commit object after building it, the conditional update of the branch
    table, or the removal of the object after an update that failed.  The steps
    put no condition on what the clients ask for: a load may repeat an id, a
    merge may meet a double delete, a branch may start at an id that is no
    commit, and an update may fail after its entry was written ([step_lost],
    the error paths of [journal.Queue.CommitAt]).  Each such choice is in the
    label of the step, and the theorems say what they ask of the labels
    ([admitted]).  That the updates of the table are atomic is what the journal
    guarantees (its commits are serializable, each checked on the table of its
    predecessors); that what a constructor reads depends on the commit objects
    only is what the commit store guarantees ([reads]); that a new commit id is
    not in use is what ksuid.New promises. *)

From S2P Require Import Prelude.
From S2P Require Import Journal.
From S2P Require Import Commits.
From S2P Require Import CommitProofs PatchProofs Branch BranchProofs.
Local Open Scope Z_scope.

Section steps.
Context {Val : Type} `{!GoRange} `{!Stream (Action Val)} {C : Type -> Type} `{!ARC C}.
Local Abbreviation Object := (Object Val).
Local Abbreviation dobject := (dobject Val).
Local Abbreviation snapshot := (snapshot Val).
Local Abbreviation filemap := (gmap ksuid (list byte)).
Local Abbreviation SM := (SM (Val := Val) (C := C)).

(** The operations that commit, each with the arguments of its method, and the
    closure it gives to [commit]. *)
Inductive operation :=
| OpLoad (os : list dobject)
| OpDelete (ids : list ksuid)
| OpCompact (src rollup : list dobject) (vecs : list ksuid)
| OpAddVectors (ids : list ksuid)
| OpDeleteVectors (ids : list ksuid)
| OpRevert (c : ksuid)
| OpMerge (child : ksuid).
Definition constructor (op : operation) (m : Z -> msg Val) (parent : Config) (retries : Z) : SM Object :=
  match op with
  | OpLoad os => Load_ os parent (m retries)
  | OpDelete ids => Delete_ ids parent (m retries)
  | OpCompact src rollup vecs => CommitCompact_ src rollup vecs parent (m retries)
  | OpAddVectors ids => AddVectors_ ids parent (m retries)
  | OpDeleteVectors ids => DeleteVectors_ ids parent (m retries)
  | OpRevert c => Revert_ c parent (m retries)
  | OpMerge child => buildMergeObject child parent (m retries)
  end.

(** A client of a branch: what it asks for, and where it is in the loop. *)
Inductive pc :=
| Start (retries : Z)
| Looked (config : Config) (retries : Z)
| Wrote (config : Config) (o : Object) (retries : Z)
| Done (id : ksuid)
| Failed.
Record client := mkClient {
  cl_name : gostring;
  cl_op : operation;
  cl_msg : Z -> msg Val;
  cl_pc : pc;
}.
Definition at_pc (c : client) (p : pc) : client := mkClient (cl_name c) (cl_op c) (cl_msg c) p.

Record world := mkWorld {
  w_files : filemap;
  w_table : gmap gostring Config;
  w_clients : gmap nat client;
}.

Definition put (o : Object) (fs : filemap) : filemap := <[commit_of o := enc (Actions o)]> fs.

(** What a step chose: the operation whose object was built and what it was
    built against, the commit a branch was created at, the branch that was
    removed or whose update was lost. *)
Inductive label :=
| Silent
| Built (op : operation) (fs : filemap) (config : Config)
| Branched (fs : filemap) (t : gmap gostring Config) (parent : ksuid)
| Removed (name : gostring)
| Lost (name : gostring).

Inductive step : label -> world -> world -> Prop :=
| step_start fs t cs i name op m :
    forall (Hcs : cs !! i = None),
    step Silent (mkWorld fs t cs) (mkWorld fs t (<[i := mkClient name op m (Start 0)]> cs))
| step_lookup fs t cs i c retries config :
    forall (Hcs : cs !! i = Some c) (Hpc : cl_pc c = Start retries) (Ht : t !! cl_name c = Some config),
    step Silent (mkWorld fs t cs) (mkWorld fs t (<[i := at_pc c (Looked config retries)]> cs))
(* [create] runs on the store of some process and [Put] writes the object
   under a fresh id *)
| step_create fs t cs i c config retries s s' o :
    forall (Hcs : cs !! i = Some c) (Hpc : cl_pc c = Looked config retries)
      (Hs : coherent s) (Hfs : files s = fs)
      (Hcreate : constructor (cl_op c) (cl_msg c) config retries s = (Ok o, s'))
      (Hnil : commit_of o <> Nil) (Hfresh : fs !! commit_of o = None),
    step (Built (cl_op c) fs config) (mkWorld fs t cs)
      (mkWorld (put o fs) t (<[i := at_pc c (Wrote config o retries)]> cs))
| step_update fs t cs i c config o retries cur :
    forall (Hcs : cs !! i = Some c) (Hpc : cl_pc c = Wrote config o retries)
      (Ht : t !! cl_name c = Some cur) (Hcheck : unchanged config cur = true),
    step Silent (mkWorld fs t cs)
      (mkWorld fs (<[cl_name c := with_tip config (commit_of o)]> t) (<[i := at_pc c (Done (commit_of o))]> cs))
| step_conflict fs t cs i c config o retries cur :
    forall (Hcs : cs !! i = Some c) (Hpc : cl_pc c = Wrote config o retries)
      (Ht : t !! cl_name c = Some cur) (Hcheck : unchanged config cur = false),
    step Silent (mkWorld fs t cs)
      (mkWorld (delete (commit_of o) fs) t
        (<[i := at_pc c (if retries + 1 <? Z.of_nat maxCommitRetries then Start (retries + 1) else Failed)]> cs))
(* any other error of [Update] (the branch is gone, storage fails) before its
   entry is written: the object is removed and the commit fails *)
| step_error fs t cs i c config o retries :
    forall (Hcs : cs !! i = Some c) (Hpc : cl_pc c = Wrote config o retries),
    step Silent (mkWorld fs t cs) (mkWorld (delete (commit_of o) fs) t (<[i := at_pc c Failed]> cs))
(* an error of [Update] after its entry was written: the branch has moved and
   the object is removed all the same *)
| step_lost fs t cs i c config o retries cur :
    forall (Hcs : cs !! i = Some c) (Hpc : cl_pc c = Wrote config o retries)
      (Ht : t !! cl_name c = Some cur) (Hcheck : unchanged config cur = true),
    step (Lost (cl_name c)) (mkWorld fs t cs)
      (mkWorld (delete (commit_of o) fs) (<[cl_name c := with_tip config (commit_of o)]> t)
        (<[i := at_pc c Failed]> cs))
(* an error of [create], of the lookup, of [Put] or of [Remove], or a crash, at
   any point *)
| step_fail fs t cs i c :
    forall (Hcs : cs !! i = Some c),
    step Silent (mkWorld fs t cs) (mkWorld fs t (<[i := at_pc c Failed]> cs))
(* [CreateBranch], which does not look the parent up *)
| step_branch fs t cs config :
    forall (Hnew : t !! Name config = None),
    step (Branched fs t (tip config)) (mkWorld fs t cs) (mkWorld fs (<[Name config := config]> t) cs)
| step_remove fs t cs name :
    step (Removed name) (mkWorld fs t cs) (mkWorld fs (delete name t) cs).

Inductive run : list label -> world -> world -> Prop :=
| run_nil w : run [] w w
| run_step a tr w w' w'' : step a w w' -> run tr w' w'' -> run (a :: tr) w w''.

Definition init : world := mkWorld ∅ ∅ ∅.

(** ** What the theorems ask of the labels *)

(** What an operation may assume of the snapshot of the tip. *)
Definition at_tip (P : snapshot -> Prop) (fs : filemap) (config : Config) : Prop :=
  forall l sn, chain fs (tip config) l -> replay l = Ok sn -> P sn.

(** What a revert assumes: the commit is one of the pool's. *)
Definition revertible (c : ksuid) (fs : filemap) (config : Config) : Prop :=
  exists oc l after, chain (Val := Val) fs c ((c, oc) :: l) /\ replay ((c, oc) :: l) = Ok after.

(** What a merge assumes: the child is a commit of the pool, and no object of
    the common ancestor was deleted on both sides. *)
Definition mergeable (child : ksuid) (fs : filemap) (config : Config) : Prop :=
  child <> Nil /\ tip config <> Nil /\ exists lc sc, chain (Val := Val) fs child lc /\ replay lc = Ok sc /\
  forall lp sp l1 oa l2 b, chain (Val := Val) fs (tip config) lp -> replay lp = Ok sp ->
    lp = l1 ++ (commonAncestor lp.*1 lc.*1, oa) :: l2 ->
    replay ((commonAncestor lp.*1 lc.*1, oa) :: l2) = Ok b -> no_double_delete b sp sc.

(** A load brings distinct new ids; a delete, a compaction and a change of
    vectors name each id once; a revert names a commit of the pool; a merge
    meets no double delete. *)
Definition admits (op : operation) : filemap -> Config -> Prop :=
  match op with
  | OpLoad os => fun fs config =>
      NoDup (map ID os) /\ at_tip (fun sn => Forall (fun o => objects sn !! ID o = None) os) fs config
  | OpDelete ids | OpAddVectors ids | OpDeleteVectors ids => fun _ _ => NoDup ids
  | OpCompact src _ _ => fun _ _ => NoDup (map ID src)
  | OpRevert c => revertible c
  | OpMerge child => mergeable child
  end.

(** Operations within their conditions, branches created at no commit or at one
    of the history of a branch, and no update that fails after its entry was
    written. *)
Definition admitted (a : label) : Prop :=
  match a with
  | Silent | Removed _ => True
  | Built op fs config => admits op fs config
  | Branched fs t parent => parent = Nil \/ exists name0 config0 (l0 : list (ksuid * Object)),
      t !! name0 = Some config0 /\ chain fs (tip config0) l0 /\ parent ∈ l0.*1
  | Lost _ => False
  end.

(** [create] returns commit objects that continue the tip it is given. *)
Definition safe (pre : filemap -> Config -> Prop) (create : Config -> Z -> SM Object) : Prop :=
  forall s config retries l sn o s',
    coherent s -> well_stored (files s) -> chain (files s) (tip config) l -> replay l = Ok sn ->
    pre (files s) config -> create config retries s = (Ok o, s') ->
    exists sn', continues (tip config) (commit_of o) sn o sn'.

Lemma safe_mono (pre pre' : filemap -> Config -> Prop) create :
  (forall fs config, pre' fs config -> pre fs config) -> safe pre create -> safe pre' create.
Proof. intros Hp Hs s config retries l sn o s' ? ? ? ? ?. eapply Hs; eauto. Qed.

Lemma reads_inj {A} (m : SM A) s r r' s' : reads m s r -> m s = (r', s') -> r = r'.
Proof. intros (s'' & E & _) E'. congruence. Qed.

Lemma continues_id parent id sn (o : Object) sn' :
  continues parent id sn o sn' -> continues parent (commit_of o) sn o sn'.
Proof. intros Hc. by rewrite (cont_id _ _ _ _ _ Hc). Qed.

Lemma constructor_safe op (m : Z -> msg Val) : safe (admits op) (constructor op m).
Proof.
  intros s cfg r l sn o s' Hs Hw Hl Hr Hpre E. destruct op as [os|ids|src rollup vecs|ids|ids|c|child]; simpl in *.
  - destruct Hpre as [Hos Hpre].
    destruct (Load_spec os cfg (m r) s sn Hs Hos (Hpre _ _ Hl Hr)) as (o' & Hread & Hc).
    pose proof (reads_inj _ _ _ _ _ Hread E) as [= ->]. eexists. by eapply continues_id.
  - destruct (Delete_spec ids cfg (m r) s l sn Hs Hl Hr Hpre) as (r' & Hread & Hc).
    pose proof (reads_inj _ _ _ _ _ Hread E) as ->. eexists. by eapply continues_id.
  - destruct (CommitCompact_spec src rollup vecs cfg (m r) s l sn Hs Hl Hr Hpre) as (r' & Hread & Hc).
    pose proof (reads_inj _ _ _ _ _ Hread E) as ->. eexists. by eapply continues_id, Hc.
  - destruct (AddVectors_spec ids cfg (m r) s l sn Hs Hl Hr Hpre) as (r' & Hread & Hc).
    pose proof (reads_inj _ _ _ _ _ Hread E) as ->. eexists. by eapply continues_id, Hc.
  - destruct (DeleteVectors_spec ids cfg (m r) s l sn Hs Hl Hr Hpre) as (r' & Hread & Hc).
    pose proof (reads_inj _ _ _ _ _ Hread E) as ->. eexists. by eapply continues_id, Hc.
  - destruct Hpre as (oc & lc & after & Hlc & Ha). pose proof Ha as Hb. rewrite replay_cons in Hb.
    apply bind_Ok in Hb as (b & Hb & _).
    destruct (Revert_spec c oc lc cfg (m r) s l sn b after Hs Hl Hr Hlc Hb Ha) as (r' & Hread & Hc).
    pose proof (reads_inj _ _ _ _ _ Hread E) as ->. destruct Hc as (sn' & Hc & _). eexists. by eapply continues_id.
  - destruct Hpre as (Hcn & Hpn & lc & sc & Hlc & Hrc & Hnd).
    destruct (Merge_spec child cfg (m r) s lc l sc sn Hs Hcn Hpn Hlc Hrc Hl Hr) as (r' & Hread & _ & Hc).
    pose proof (reads_inj _ _ _ _ _ Hread E) as ->.
    destruct (Hc o eq_refl) as (l1 & oa & l2 & k1 & b & Hl1 & _ & Hb & Hfin).
    destruct (Hfin (Hnd _ _ _ _ _ _ Hl Hr Hl1 Hb)) as (sn' & Hcont & _). eexists. by eapply continues_id.
Qed.

(** ** The invariant *)

Definition sound (fs : filemap) (id : ksuid) : Prop := exists l sn, chain fs id l /\ replay l = Ok sn.

(** The commits a client refers to. *)
Definition client_ok (fs : filemap) (c : client) : Prop :=
  match cl_pc c with
  | Looked config _ => Name config = cl_name c /\ sound fs (tip config)
  | Wrote config o _ => Name config = cl_name c /\ sound fs (tip config) /\ wf_object o /\
      commit_of o <> Nil /\ fs !! commit_of o = Some (enc (Actions o)) /\ Parent o = tip config /\
      sound fs (commit_of o)
  | _ => True
  end.

Definition refers (c : client) : option ksuid :=
  match cl_pc c with
  | Looked config _ | Wrote config _ _ => Some (tip config)
  | _ => None
  end.
Definition pending (c : client) : option ksuid :=
  match cl_pc c with Wrote _ o _ => Some (commit_of o) | _ => None end.

(** Nothing but the client that wrote it knows the commit [id]. *)
Record private (fs : filemap) (t : gmap gostring Config) (cs : gmap nat client) (i : nat) (id : ksuid) : Prop := {
  priv_parent id' o : decoded fs id' o -> Parent o <> id;
  priv_tip name config : t !! name = Some config -> tip config <> id;
  priv_refers j c : cs !! j = Some c -> refers c <> Some id;
  priv_pending j c : cs !! j = Some c -> j <> i -> pending c <> Some id;
}.

Record inv (w : world) : Prop := mkInv {
  inv_stored : well_stored (w_files w);
  inv_closed id o : decoded (w_files w) id o -> Parent o <> Nil -> is_Some (w_files w !! Parent o);
  inv_table name config : w_table w !! name = Some config -> Name config = name /\ sound (w_files w) (tip config);
  inv_clients i c : w_clients w !! i = Some c -> client_ok (w_files w) c;
  inv_private i c id : w_clients w !! i = Some c -> pending c = Some id ->
    private (w_files w) (w_table w) (w_clients w) i id;
}.

Lemma inv_init : inv init.
Proof.
  split; simpl.
  - by intros ? ?.
  - intros id o (b & Hb & _). by rewrite lookup_empty in Hb.
  - intros *. by rewrite lookup_empty.
  - intros *. by rewrite lookup_empty.
  - intros *. by rewrite lookup_empty.
Qed.

(** ** Chains while files come and go *)

Lemma chain_delete fs id l x :
  (forall id' o, decoded fs id' o -> Parent o <> x) -> id <> x ->
  chain fs id l -> chain (delete x fs) id l (Val := Val).
Proof.
  intros Hx Hid Hc. revert Hid. induction Hc as [|id o l Hn Ho Hc IH]; intros Hid; [constructor|].
  constructor; [done| |apply IH; by eapply Hx].
  destruct Ho as (b & Hb & Ho). exists b. split; [|done]. by rewrite lookup_delete_ne.
Qed.
Lemma sound_insert fs id x b : fs !! x = None -> sound fs id -> sound (<[x := b]> fs) id.
Proof. intros Hx (l & sn & Hc & Hr). exists l, sn. split; [by apply chain_insert|done]. Qed.
Lemma sound_delete fs id x :
  (forall id' o, decoded fs id' o -> Parent o <> x) -> id <> x -> sound fs id -> sound (delete x fs) id.
Proof. intros Hx Hid (l & sn & Hc & Hr). exists l, sn. split; [by apply chain_delete|done]. Qed.

Lemma sound_in fs id : sound fs id -> id <> Nil -> is_Some (fs !! id).
Proof. intros (l & sn & Hc & _) Hid. inversion Hc as [|? ? ? _ (b & Hb & _)]; subst; [done|]. by exists b. Qed.

Lemma sound_in_chain fs id l i : sound fs id -> chain fs id l -> i ∈ l.*1 -> sound fs i.
Proof.
  intros (l' & sn & Hc' & Hr) Hc Hi. pose proof (chain_inj _ _ _ _ Hc Hc') as <-.
  apply list_elem_of_fmap in Hi as ([i' o] & -> & Hin). apply list_elem_of_split in Hin as (l1 & l2 & ->).
  exists ((i', o) :: l2). apply replay_suffix in Hr as (b & Hb & _). exists b. split; [|done].
  by eapply chain_suffix.
Qed.

Lemma chain_avoids fs id l x :
  (forall id' o, decoded fs id' o -> Parent o <> x) -> id <> x -> chain fs id l -> x ∉ l.*1.
Proof.
  intros Hx Hid Hc. revert Hid. induction Hc as [|id o l Hn Ho Hc IH]; intros Hid; [apply not_elem_of_nil|].
  apply not_elem_of_cons. split; [done|]. apply IH. by eapply Hx.
Qed.

Lemma decoded_put fs (o : Object) id o' :
  well_stored fs -> wf_object o -> decoded (put o fs) id o' ->
  (id = commit_of o /\ o' = o) \/ (id <> commit_of o /\ decoded fs id o').
Proof.
  intros Hws Hwf (b & Hb & Ho). unfold put in Hb. apply lookup_insert_Some in Hb as [[<- <-]|[Hne Hb]].
  - left. rewrite DecodeObject_Serialize in Ho by done. by injection Ho as <-.
  - right. split; [done|]. by exists b.
Qed.
Lemma decoded_delete fs x id (o : Object) : decoded (delete x fs) id o -> decoded fs id o.
Proof. intros (b & [_ Hb]%lookup_delete_Some & Ho). by exists b. Qed.

(** ** Preservation *)

(** A client that moves without writing. *)
Lemma inv_client fs t cs i c :
  inv (mkWorld fs t cs) -> client_ok fs c -> pending c = None ->
  (forall x, refers c = Some x -> forall j cj id, cs !! j = Some cj -> pending cj = Some id -> x <> id) ->
  inv (mkWorld fs t (<[i := c]> cs)).
Proof.
  intros [H1 H2 H3 H4 H5] Hc Hp Hr. split; simpl in *; try done.
  - intros j cj [[<- <-]|[_ Hj]]%lookup_insert_Some; eauto.
  - intros j cj id [[<- <-]|[Hne Hj]]%lookup_insert_Some Hpend; [congruence|].
    destruct (H5 _ _ _ Hj Hpend) as [P1 P2 P3 P4]. split; try done.
    + intros k ck [[<- <-]|[_ Hk]]%lookup_insert_Some; [|by eauto]. intros Hx. by eapply Hr.
    + intros k ck [[<- <-]|[_ Hk]]%lookup_insert_Some Hkj; [congruence|by eauto].
Qed.

Lemma inv_put fs t cs i c config retries o :
  inv (mkWorld fs t cs) -> cs !! i = Some c -> cl_pc c = Looked config retries ->
  commit_of o <> Nil -> fs !! commit_of o = None ->
  (exists l sn sn', chain fs (tip config) l /\ replay l = Ok sn /\ continues (tip config) (commit_of o) sn o sn') ->
  inv (mkWorld (put o fs) t (<[i := at_pc c (Wrote config o retries)]> cs)).
Proof.
  intros [H1 H2 H3 H4 H5] Hi Hpc Hnil Hfresh (l & sn & sn' & Hl & Hr & [Hwf _ Hpar Hplay]).
  simpl in *. pose proof (H4 _ _ Hi) as Hok. unfold client_ok in Hok. rewrite Hpc in Hok. destruct Hok as [Hname Hsound].
  assert (Hnew : decoded (put o fs) (commit_of o) o).
  { exists (enc (Actions o)). unfold put. rewrite lookup_insert_eq. split; [done|by apply DecodeObject_Serialize]. }
  assert (Hput : forall x, sound fs x -> sound (put o fs) x) by (intros; by apply sound_insert).
  assert (Hnot : forall x, sound fs x -> x <> commit_of o).
  { intros x Hx ->. apply sound_in in Hx as [b Hb]; [|done]. congruence. }
  split; simpl.
  - apply map_Forall_insert_2; [|done]. by exists o.
  - intros id o' [[-> ->]|[Hne Ho']]%decoded_put Hpn; [|..|done|done].
    + rewrite Hpar in *. destruct (sound_in _ _ Hsound Hpn) as [b Hb]. exists b. unfold put.
      rewrite lookup_insert_ne; [done|]. intros Heq. congruence.
    + destruct (H2 _ _ Ho' Hpn) as [b Hb]. exists b. unfold put. rewrite lookup_insert_ne; [done|]. intros Heq. congruence.
  - intros name cfg Hcfg. destruct (H3 _ _ Hcfg) as [? ?]. auto.
  - intros j cj [[<- <-]|[Hne Hj]]%lookup_insert_Some.
    + unfold client_ok. simpl. split_and!; try done; [by apply Hput|by unfold put; rewrite lookup_insert_eq|].
      exists ((commit_of o, o) :: l), sn'. split; [|by rewrite replay_cons, Hr].
      constructor; [done|done|]. rewrite Hpar. by apply chain_insert.
    + pose proof (H4 _ _ Hj) as Hokj. unfold client_ok in *. destruct (cl_pc cj); try done.
      * destruct Hokj. auto.
      * destruct Hokj as (? & ? & ? & ? & Hfile & ? & ?). split_and!; auto.
        unfold put. rewrite lookup_insert_ne; [done|]. intros Heq. congruence.
  - intros j cj id [[<- <-]|[Hne Hj]]%lookup_insert_Some Hpend.
    + simpl in Hpend. injection Hpend as <-. split.
      * intros id' o' [[-> ->]|[Hne Ho']]%decoded_put; [|..|done|done].
        { rewrite Hpar. by apply Hnot. }
        { intros Heq. destruct (H2 _ _ Ho') as [b Hb]; [by rewrite Heq|]. congruence. }
      * intros name cfg Hcfg. apply Hnot. by apply H3 in Hcfg as [_ ?].
      * intros k ck [[<- <-]|[Hk Hck]]%lookup_insert_Some [= Heq]; [by apply (Hnot _ Hsound)|].
        pose proof (H4 _ _ Hck) as Hokk. unfold client_ok in Hokk. unfold refers in Heq. destruct (cl_pc ck); simplify_eq.
        { destruct Hokk as [_ Hs]. by apply (Hnot _ Hs). }
        { destruct Hokk as (_ & Hs & _). by apply (Hnot _ Hs). }
      * intros k ck [[<- <-]|[Hk Hck]]%lookup_insert_Some Hki; [done|]. intros Heq.
        pose proof (H4 _ _ Hck) as Hokk. unfold client_ok in Hokk. unfold pending in Heq. destruct (cl_pc ck); simplify_eq.
        destruct Hokk as (_ & _ & _ & _ & Hfile & _). congruence.
    + destruct (H5 _ _ _ Hj Hpend) as [P1 P2 P3 P4]. split.
      * intros id' o' [[-> ->]|[_ Ho']]%decoded_put; [|by eapply P1|done|done]. rewrite Hpar.
        intros Heq. apply (P3 _ _ Hi). unfold refers. by rewrite Hpc, Heq.
      * done.
      * intros k ck [[<- <-]|[Hk Hck]]%lookup_insert_Some; [|by eapply P3]. simpl.
        intros Heq. apply (P3 _ _ Hi). unfold refers. by rewrite Hpc.
      * intros k ck [[<- <-]|[Hk Hck]]%lookup_insert_Some Hkj; [|by eapply P4]. simpl. intros [= Heq].
        pose proof (H4 _ _ Hj) as Hokj. unfold client_ok in Hokj. unfold pending in Hpend. destruct (cl_pc cj); simplify_eq.
        destruct Hokj as (_ & _ & _ & _ & Hfile & _). congruence.
Qed.

Lemma inv_delete fs t cs i c config o retries p :
  inv (mkWorld fs t cs) -> cs !! i = Some c -> cl_pc c = Wrote config o retries ->
  (p = Failed \/ exists r, p = Start r) ->
  inv (mkWorld (delete (commit_of o) fs) t (<[i := at_pc c p]> cs)).
Proof.
  intros [H1 H2 H3 H4 H5] Hi Hpc Hp. simpl in *.
  assert (Hpend : pending c = Some (commit_of o)) by (unfold pending; by rewrite Hpc).
  destruct (H5 _ _ _ Hi Hpend) as [P1 P2 P3 P4].
  assert (Hpnew : pending (at_pc c p) = None /\ refers (at_pc c p) = None) by (destruct Hp as [->|[r ->]]; done).
  assert (Hsd : forall x, x <> commit_of o -> sound fs x -> sound (delete (commit_of o) fs) x)
    by (intros; by apply sound_delete).
  split; simpl.
  - by apply map_Forall_delete.
  - intros id o' Ho'%decoded_delete Hpn. destruct (H2 _ _ Ho' Hpn) as [b Hb]. exists b.
    rewrite lookup_delete_ne; [done|]. intros Heq. by eapply P1.
  - intros name cfg Hcfg. destruct (H3 _ _ Hcfg) as [? ?]. split; [done|]. apply Hsd; [by eapply P2|done].
  - intros j cj [[<- <-]|[Hne Hj]]%lookup_insert_Some.
    + by destruct Hp as [->|[r ->]].
    + pose proof (P3 _ _ Hj) as Hrj. pose proof (P4 _ _ Hj ltac:(done)) as Hpj.
      pose proof (H4 _ _ Hj) as Hokj. unfold client_ok in *. unfold refers, pending in *. destruct (cl_pc cj); try done.
      * destruct Hokj as [? ?]. split; [done|]. apply Hsd; [congruence|done].
      * destruct Hokj as (? & ? & ? & ? & ? & ? & ?). split_and!; try done.
        { apply Hsd; [congruence|done]. }
        { rewrite lookup_delete_ne by congruence. done. }
        { apply Hsd; [congruence|done]. }
  - intros j cj id [[<- <-]|[Hne Hj]]%lookup_insert_Some Hpj; [destruct Hpnew; congruence|].
    destruct (H5 _ _ _ Hj Hpj) as [Q1 Q2 Q3 Q4]. split.
    + intros id' o' Ho'%decoded_delete. by eapply Q1.
    + done.
    + intros k ck [[<- <-]|[Hk Hck]]%lookup_insert_Some; [destruct Hpnew; congruence|by eauto].
    + intros k ck [[<- <-]|[Hk Hck]]%lookup_insert_Some Hkj; [destruct Hpnew; congruence|by eauto].
Qed.

Lemma inv_update fs t cs i c config o retries :
  inv (mkWorld fs t cs) -> cs !! i = Some c -> cl_pc c = Wrote config o retries ->
  inv (mkWorld fs (<[cl_name c := with_tip config (commit_of o)]> t) (<[i := at_pc c (Done (commit_of o))]> cs)).
Proof.
  intros [H1 H2 H3 H4 H5] Hi Hpc. simpl in *.
  pose proof (H4 _ _ Hi) as Hok. unfold client_ok in Hok. rewrite Hpc in Hok.
  destruct Hok as (Hname & Hs & Hwf & Hnn & Hfile & Hpar & Hso).
  split; simpl; try done.
  - intros name cfg [[<- <-]|[_ Hn]]%lookup_insert_Some; [by split|by eauto].
  - intros j cj [[<- <-]|[Hne Hj]]%lookup_insert_Some; [done|by eauto].
  - intros j cj id [[<- <-]|[Hne Hj]]%lookup_insert_Some Hpj; [done|].
    destruct (H5 _ _ _ Hj Hpj) as [Q1 Q2 Q3 Q4]. split; try done.
    + intros name cfg [[<- <-]|[_ Hn]]%lookup_insert_Some; [|by eauto]. simpl. intros Heq.
      apply (Q4 _ _ Hi ltac:(done)). unfold pending. by rewrite Hpc, Heq.
    + intros k ck [[<- <-]|[Hk Hck]]%lookup_insert_Some; [done|by eauto].
    + intros k ck [[<- <-]|[Hk Hck]]%lookup_insert_Some Hkj; [done|by eauto].
Qed.

Lemma inv_table_change fs t t' cs :
  inv (mkWorld fs t cs) ->
  (forall name cfg, t' !! name = Some cfg -> Name cfg = name /\ sound fs (tip cfg)) ->
  (forall name cfg i c id, t' !! name = Some cfg -> cs !! i = Some c -> pending c = Some id -> tip cfg <> id) ->
  inv (mkWorld fs t' cs).
Proof.
  intros [H1 H2 H3 H4 H5] Ht Hp. split; simpl in *; try done.
  intros i c id Hi Hpi. destruct (H5 _ _ _ Hi Hpi) as [Q1 Q2 Q3 Q4]. split; try done. intros name cfg Hn. by eapply Hp.
Qed.

Lemma inv_step a w w' : step a w w' -> admitted a -> inv w -> inv w'.
Proof.
  intros Hst Ha Hi. pose proof Hi as [H1 H2 H3 H4 H5].
  destruct Hst; simpl in *.
  - by apply inv_client.
  - apply inv_client; [done| |done|].
    + by apply H3.
    + simpl. intros x [= <-] j cj id Hj Hpj. destruct (H5 _ _ _ Hj Hpj) as [_ Q _ _]. by eapply Q.
  - eapply inv_put; [done..|]. pose proof (H4 _ _ Hcs) as Hok. unfold client_ok in Hok. rewrite Hpc in Hok.
    destruct Hok as [_ (l & sn & Hl & Hr)].
    exists l, sn. subst fs. destruct (constructor_safe _ _ _ _ _ _ _ _ _ Hs H1 Hl Hr Ha Hcreate) as [sn' Hc]. by exists sn'.
  - by eapply inv_update.
  - eapply inv_delete; [done..|]. destruct (_ <? _); [right; by eexists|by left].
  - eapply inv_delete; [done..|]. by left.
  - done.
  - by apply inv_client.
  - apply inv_table_change with t; [done|..].
    + intros name cfg [[<- <-]|[_ Hn]]%lookup_insert_Some; [|by eauto]. split; [done|].
      destruct Ha as [->|(name0 & config0 & l0 & Ht0 & Hc0 & Hin)]; [exists [], NewSnapshot; by split; [constructor|]|].
      eapply sound_in_chain; [by eapply H3|done|done].
    + intros name cfg i c id [[<- <-]|[_ Hn]]%lookup_insert_Some Hci Hpi.
      * destruct (H5 _ _ _ Hci Hpi) as [Q1 Q2 Q3 Q4]. pose proof (H4 _ _ Hci) as Hok. unfold client_ok in Hok.
        destruct Ha as [->|(name0 & config0 & l0 & Ht0 & Hc0 & Hin)].
        { unfold pending in Hpi. destruct (cl_pc c); simplify_eq. destruct Hok as (_ & _ & _ & ? & _). done. }
        { intros <-. revert Hin. eapply chain_avoids; [exact Q1|by eapply Q2|done]. }
      * destruct (H5 _ _ _ Hci Hpi) as [_ Q _ _]. by eapply Q.
  - apply inv_table_change with t; [done|..].
    + intros name' cfg [_ Hn]%lookup_delete_Some. by eauto.
    + intros name' cfg i c id [_ Hn]%lookup_delete_Some Hci Hpi.
      destruct (H5 _ _ _ Hci Hpi) as [_ Q _ _]. by eapply Q.
Qed.

Lemma inv_run tr w w' : run tr w w' -> Forall admitted tr -> inv w -> inv w'.
Proof. induction 1; [done|]. intros [Ha Htr]%Forall_cons Hi. by eapply IHrun, inv_step. Qed.

(** ** History *)

(** Unless it is removed, a branch only moves forward. *)
Lemma step_history a w w' name config l :
  step a w w' -> admitted a -> inv w -> a <> Removed name -> w_table w !! name = Some config -> chain (w_files w) (tip config) l ->
  exists config' k, w_table w' !! name = Some config' /\ chain (w_files w') (tip config') (k ++ l) /\
    (k = [] \/ exists o, k = [(tip config', o)]).
Proof.
  intros Hst Had Hi Ha Hn Hl. pose proof Hi as [H1 H2 H3 H4 H5].
  destruct Hst; simpl in *.
  1,2,8: exists config, []; eauto.
  - exists config, []. split; [done|]. split; [|by left]. by apply chain_insert.
  - destruct (decide (cl_name c = name)) as [<-|Hne]; [|exists config, []; rewrite lookup_insert_ne by done; by eauto].
    rewrite Ht in Hn. injection Hn as ->. apply Z.eqb_eq in Hcheck.
    pose proof (H4 _ _ Hcs) as Hok. unfold client_ok in Hok. rewrite Hpc in Hok. destruct Hok as (_ & _ & Hwf & Hnn & Hfile & Hpar & _).
    exists (with_tip config0 (commit_of o)), [(commit_of o, o)]. rewrite lookup_insert_eq. split; [done|].
    split; [|right; by eexists]. simpl. constructor; [done| |by rewrite Hpar, <- Hcheck].
    exists (enc (Actions o)). split; [done|by apply DecodeObject_Serialize].
  - exists config, []. split; [done|]. split; [|by left].
    destruct (H5 i c (commit_of o) Hcs) as [P1 P2 _ _]; [unfold pending; by rewrite Hpc|].
    apply chain_delete; [exact P1|by eapply P2|done].
  - exists config, []. split; [done|]. split; [|by left].
    destruct (H5 i c (commit_of o) Hcs) as [P1 P2 _ _]; [unfold pending; by rewrite Hpc|].
    apply chain_delete; [exact P1|by eapply P2|done].
  - done.
  - exists config, []. destruct (decide (Name config0 = name)) as [<-|Hne]; [congruence|].
    rewrite lookup_insert_ne by done. eauto.
  - exists config, []. rewrite lookup_delete_ne by congruence. eauto.
Qed.

Lemma run_history tr w w' name config l :
  run tr w w' -> Forall admitted tr -> inv w -> Removed name ∉ tr ->
  w_table w !! name = Some config -> chain (w_files w) (tip config) l ->
  exists config' k, w_table w' !! name = Some config' /\ chain (w_files w') (tip config') (k ++ l).
Proof.
  intros Hrun. revert config l. induction Hrun as [w|a tr w w1 w' Hst Hrun IH]; intros config l Had Hi Ha Hn Hl.
  { by exists config, []. }
  apply Forall_cons in Had as [Had Hadt]. apply not_elem_of_cons in Ha as [Ha Htr].
  destruct (step_history _ _ _ _ _ _ Hst Had Hi ltac:(done) Hn Hl) as (c1 & k1 & Hn1 & Hc1 & _).
  destruct (IH c1 (k1 ++ l) Hadt ltac:(by eapply inv_step) Htr Hn1 Hc1) as (c2 & k2 & Hn2 & Hc2).
  exists c2, (k2 ++ k1). by rewrite <- app_assoc.
Qed.
End steps.
