(* ===== verification/CommitProps.v ===== *)
(** * The commit store: what its users rely on

    Snapshots, the bytes of a range of commits, vacuuming, patches.  The
    parameters of the commit store (map order, serialization, caches) have
    concrete instances here, at which the theorems are applied. *)

From S2P Require Import Prelude Commits CommitProofs PatchProofs.
Local Open Scope Z_scope.

(** ** Concrete parameters *)

#[export, refine] Instance sorted_range : GoRange := { range A m := map_to_list m }.
Proof. done. Defined.

#[export, refine] Instance map_cache : ARC (gmap Z) := {
  arc_new A := ∅;
  arc_get A k c := (c !! k, c);
  arc_add A k v c := <[k := v]> c;
  contents A c := c;
}.
Proof. all: done. Defined.

(** A stream of countable entries: the bits of each entry, then a mark. *)
Fixpoint bits (p : positive) : list byte :=
  match p with xH => [] | xO p => zb 0 :: bits p | xI p => zb 1 :: bits p end.
Fixpoint unbits (b : list byte) : positive :=
  match b with [] => xH | x :: b => if bz x =? 0 then xO (unbits b) else xI (unbits b) end.
Definition mark : byte := zb 2.
Fixpoint entries_of (b acc : list byte) : option (list positive) :=
  match b with
  | [] => match acc with [] => Some [] | _ => None end
  | x :: b => if bz x =? 2 then ps ← entries_of b []; Some (unbits (rev acc) :: ps) else entries_of b (x :: acc)
  end.

Lemma unbits_bits p : unbits (bits p) = p.
Proof. induction p as [p IH|p IH|]; simpl; by rewrite ?IH. Qed.

Lemma entries_of_bits p acc b :
  entries_of (bits p ++ mark :: b) acc = (ps ← entries_of b []; Some (unbits (rev acc ++ bits p) :: ps)).
Proof.
  revert acc. induction p as [p IH|p IH|]; intros acc; simpl.
  - rewrite IH. simpl. by rewrite <- app_assoc.
  - rewrite IH. simpl. by rewrite <- app_assoc.
  - by rewrite app_nil_r.
Qed.

Definition encode_entry `{Countable A} (a : A) : list byte := bits (encode a) ++ [mark].

Fixpoint decode_all `{Countable A} (ps : list positive) : option (list A) :=
  match ps with [] => Some [] | p :: ps => a ← decode p; l ← decode_all ps; Some (a :: l) end.

Lemma decode_entries `{Countable A} (l : list A) :
  entries_of (concat (map encode_entry l)) [] = Some (map encode l).
Proof.
  induction l as [|a l IH]; [done|]. simpl. unfold encode_entry at 1. rewrite <- app_assoc. simpl.
  rewrite entries_of_bits, IH. simpl. by rewrite unbits_bits.
Qed.
Lemma decode_all_encode `{Countable A} (l : list A) : decode_all (map encode l) = Some l.
Proof. induction l as [|a l IH]; [done|]. simpl. by rewrite decode_encode, IH. Qed.

#[export, refine] Instance countable_stream `{Countable A} : Stream A := {
  enc l := concat (map encode_entry l);
  dec b := ps ← entries_of b []; decode_all ps;
}.
Proof.
  intros ls. replace (concat (map (fun l => concat (map encode_entry l)) ls)) with (concat (map encode_entry (concat ls))).
  - by rewrite decode_entries; simpl; rewrite decode_all_encode.
  - induction ls as [|l ls IH]; [done|]. simpl. by rewrite map_app, concat_app, IH.
Defined.

#[export] Instance dobject_eq_dec `{EqDecision V} : EqDecision (dobject V).
Proof. solve_decision. Defined.
#[export] Instance dobject_countable `{Countable V} : Countable (dobject V).
Proof.
  apply (inj_countable' (fun o => (ID o, Min o, Max o, Count o, Size o))
    (fun '(i, a, b, c, s) => mkObj i a b c s)). by intros [].
Defined.
#[export] Instance Action_eq_dec `{EqDecision V} : EqDecision (Action V).
Proof. solve_decision. Defined.
#[export] Instance Action_countable `{Countable V} : Countable (Action V).
Proof.
  apply (inj_countable' (A := ((Z * dobject V) + (Z * Z) + (Z * Z) + (Z * Z) + (Z * Z * Z * gostring * Z * gostring * V))%type)
    (fun a => match a with
     | Add c o => inl (inl (inl (inl (c, o))))
     | Delete c i => inl (inl (inl (inr (c, i))))
     | AddVec c i => inl (inl (inr (c, i)))
     | DeleteVec c i => inl (inr (c, i))
     | Commit i p r a d m v => inr (i, p, r, a, d, m, v)
     end)
    (fun s => match s with
     | inl (inl (inl (inl (c, o)))) => Add c o
     | inl (inl (inl (inr (c, i)))) => Delete c i
     | inl (inl (inr (c, i))) => AddVec c i
     | inl (inr (c, i)) => DeleteVec c i
     | inr (i, p, r, a, d, m, v) => Commit i p r a d m v
     end)). by intros [].
Defined.

(** ** Properties *)

Section props.
Context {Val : Type} `{!GoRange} `{!Stream (Action Val)} {C : Type -> Type} `{!ARC C}.
Local Abbreviation snapshot := (snapshot Val).
Local Abbreviation Object := (Object Val).
Local Abbreviation Store := (Store Val C).

(** C11: the snapshot of a commit is the replay of the actions of its
    ancestors from the root, whatever commit objects and snapshots are cached
    or stored: the caches and the stored snapshots only ever save work. The
    walk ends, and a conflict among the actions is the error returned. *)
Theorem snapshot_replay (s : Store) leaf l :
  coherent s -> chain (files s) leaf l ->
  exists s', Snapshot leaf s = (play_all NewSnapshot (rev l.*2), s') /\ coherent s' /\ files s' = files s.
Proof. intros Hs Hc. exact (reads_Snapshot leaf l s Hs Hc). Qed.

(** [Path] lists a commit and its ancestors; [PathRange] stops at the ancestor
    it is given. *)
Theorem path_spec (s : Store) leaf l l1 i o l2 :
  coherent s -> chain (files s) leaf l -> l = l1 ++ (i, o) :: l2 ->
  (exists s', Path leaf s = (Ok l.*1, s') /\ coherent s' /\ files s' = files s) /\
  (exists s', PathRange leaf i s = (Ok (l1.*1 ++ [i]), s') /\ coherent s' /\ files s' = files s).
Proof.
  intros Hs Hc ->. split.
  - apply reads_Path; [done| |done]. intros ->. inversion Hc; subst; [by destruct l1|done].
  - pose proof (reads_PathRange leaf i _ s Hs Hc) as Hp. rewrite fmap_app in Hp. simpl in Hp.
    pose proof (chain_NoDup _ _ _ Hc) as Hnd. rewrite fmap_app in Hnd. simpl in Hnd.
    apply NoDup_app in Hnd as (_ & Hd & _).
    rewrite take_to_app in Hp; [exact Hp|]. intros Hin. apply (Hd _ Hin). by left.
Qed.

(** a commit object that was put is read back, from storage or from the cache,
    and putting it disturbs neither the other commits nor the caches. *)
Theorem put_get (s : Store) (o : Object) leaf l :
  coherent s -> wf_object o -> files s !! commit_of o = None -> chain (files s) leaf l ->
  exists s1 s2, Put o s = (Ok tt, s1) /\ Get (commit_of o) s1 = (Ok o, s2) /\ coherent s2 /\
    chain (files s2) leaf l /\ DecodeObject (enc (Actions o)) = Ok o.
Proof.
  intros Hs Hwf Hfresh Hc. destruct (Put_spec o s Hs Hwf Hfresh) as (s1 & E1 & Hs1 & Hf1).
  destruct (reads_Get (commit_of o) o s1 Hs1) as (s2 & E2 & Hs2 & Hf2).
  { exists (enc (Actions o)). rewrite Hf1, lookup_insert_eq. split; [done|by apply DecodeObject_Serialize]. }
  exists s1, s2. split_and!; [done..| |by apply DecodeObject_Serialize]. rewrite Hf2, Hf1. by apply chain_insert.
Qed.

(** C40: a stored snapshot decodes to the snapshot that was serialized, in
    whatever order the objects were written. *)
Theorem snapshot_roundtrip acts (s : snapshot) :
  play NewSnapshot acts = Ok s -> decodeSnapshot (serialize s) = Ok s.
Proof. intros Hp. apply decodeSnapshot_serialize. by eapply play_wf; [apply wf_NewSnapshot|]. Qed.

(** [ReadAll] returns the serialized actions of the commits below [stop], the
    oldest first. *)
Theorem read_all_spec (s : Store) leaf l1 l2 stop :
  coherent s -> well_stored (files s) -> chain (files s) leaf (l1 ++ l2) -> stop ∉ l1.*1 ->
  (l2 = [] \/ exists o l', l2 = (stop, o) :: l') ->
  exists b s', ReadAll leaf stop s = (Ok b, s') /\ coherent s' /\
    dec b = Some (concat (map Actions (rev l1.*2))).
Proof.
  intros Hs Hw Hc Hns Hl2. destruct (reads_ReadAll leaf l1 l2 stop s Hs Hw Hc Hns Hl2) as (b & (s' & E & Hs' & _) & Hb).
  by exists b, s'.
Qed.

Lemma play_objects acts (s s' : snapshot) id o :
  wf_snap s -> play s acts = Ok s' -> objects s' !! id = Some o ->
  objects s !! id = Some o \/ exists c, Add c o ∈ acts.
Proof.
  revert s. induction acts as [|a acts IH]; intros s Hwf Hp Ho; [injection Hp as <-; by left|].
  simpl in Hp. apply bind_Ok in Hp as (s1 & Ha & Hp).
  destruct (IH s1 ltac:(by eapply PlayAction_wf) Hp Ho) as [H1|[c Hc]]; [|right; exists c; by right].
  destruct a; simpl in Ha; unfold snap_AddDataObject, snap_DeleteObject, snap_AddVector, snap_DeleteVector in Ha;
    repeat case_match; simplify_eq; simpl in H1; try by left.
  - apply lookup_insert_Some in H1 as [[_ <-]|[_ H1]]; [right; eexists; by left|by left].
  - apply lookup_delete_Some in H1 as [_ H1]. by left.
Qed.

Lemma replay_objects l (sn : snapshot) id o :
  replay l = Ok sn -> objects sn !! id = Some o -> exists i oc c, (i, oc) ∈ l /\ Add c o ∈ Actions oc.
Proof.
  revert sn. induction l as [|[i oc] l IH]; intros sn Hr Ho; [injection Hr as <-; done|].
  rewrite replay_cons in Hr. apply bind_Ok in Hr as (sn1 & H1 & Hp).
  destruct (play_objects _ _ _ _ _ (replay_wf _ _ H1) Hp Ho) as [Ho1|[c Hc]].
  - destruct (IH _ H1 Ho1) as (i' & oc' & c & Hin & Hc). exists i', oc', c. split; [by right|done].
  - exists i, oc, c. split; [by left|done].
Qed.

(** C39: [Vacuumable] sends no object of the leaf's snapshot, and every object
    of an ancestor's snapshot that the leaf's does not have. *)
Theorem vacuumable_spec (s : Store) leaf l sn :
  coherent s -> well_stored (files s) -> chain (files s) leaf l -> replay l = Ok sn ->
  exists out s', Vacuumable leaf s = (Ok out, s') /\ files s' = files s /\
    (forall o, o ∈ out -> objects sn !! ID o = None) /\
    (forall l1 l2 anc id o, l = l1 ++ l2 -> replay l2 = Ok anc -> objects anc !! id = Some o ->
      objects sn !! id = None -> o ∈ out).
Proof.
  intros Hs Hw Hc Hr. destruct (reads_Vacuumable leaf l s Hs Hc) as (s' & E & _ & Hf). rewrite Hr in E. simpl in E.
  exists (vacuum_list sn leaf l), s'. split_and!; [done..| |].
  - intros o. unfold vacuum_list. rewrite list_elem_of_In, in_concat. intros (os & Hos & Ho).
    apply in_map_iff in Hos as ([i oc] & <- & _). simpl in Ho. destruct (_ =? _); [done|].
    apply in_concat in Ho as (os & Hos & Ho). apply in_map_iff in Hos as (a & <- & _).
    destruct a; try done. simpl in Ho. rewrite Exists_obs in Ho. simpl in Ho.
    destruct (objects sn !! ID object) eqn:Hl; [done|]. by destruct Ho as [<-|[]].
  - intros l1 l2 anc id o -> Hanc Ho Hn.
    destruct (replay_objects _ _ _ _ Hanc Ho) as (i & oc & c & Hin & Hadd).
    pose proof (replay_wf _ _ Hanc _ _ Ho) as Hid. simpl in Hid. subst id.
    destruct (chain_in _ _ _ i oc Hc) as [_ Hdec]; [apply elem_of_app; by right|].
    apply well_stored_decoded in Hdec as (_ & _ & Hcid); [|done].
    assert (Hleaf : i <> leaf).
    { intros ->. destruct l1 as [|[i1 o1] l1]; [simpl in Hr; congruence|].
      inversion Hc; subst. pose proof (chain_NoDup _ _ _ Hc) as Hnd. simpl in Hnd.
      inversion_clear Hnd as [|? ? Hni _]. apply Hni. rewrite fmap_app. apply elem_of_app. right.
      apply list_elem_of_fmap. eexists. by split; [|exact Hin]. }
    unfold vacuum_list. rewrite list_elem_of_In, in_concat.
    exists (concat (map (vacuumed sn) (Actions oc))). split.
    + apply in_map_iff. exists (i, oc). simpl. rewrite Hcid, (proj2 (Z.eqb_neq i leaf) Hleaf). split; [done|].
      apply list_elem_of_In, elem_of_app. by right.
    + apply in_concat. exists [o]. split; [|by left]. apply in_map_iff. exists (Add c o).
      split; [|by apply list_elem_of_In]. simpl. by rewrite Exists_obs; simpl; rewrite Hn.
Qed.

(** a patch that accepted a sequence of actions which also plays on its base
    gives, as one commit object, the same snapshot as the sequence. *)
Theorem patch_squash (b s : snapshot) acts p parent (m : msg Val) :
  play b acts = Ok s -> play (NewPatch b) acts = Ok p ->
  Play b (NewCommitObject p parent m) = Ok s.
Proof.
  intros Hs Hp. assert (Hb : applied (NewPatch b) = b).
  { unfold applied, patched. simpl. rewrite !(left_id_L ∅ (∪)). by destruct b. }
  destruct (play_sim acts (NewPatch b) p b s) as (Hwf & Hc & ->);
    [apply wf_NewPatch|split; constructor|done|done|done|].
  pose proof (play_base _ _ _ Hp) as Hbase. simpl in Hbase.
  assert (Hfin : applied p = patched p b) by (unfold applied; simpl; rewrite Hbase; by destruct b).
  unfold Play. rewrite Hfin. pose proof Hwf as [W1 W2 W3 W4 W5]. simpl in *. rewrite Hbase in *.
  apply NewCommitObject_plays; [done|done|by apply Forall_forall..|done|done].
Qed.

(** [Diff] of two patches over a common base never reports a conflict: its
    tests for one look at the parent's patch, in which an object the parent
    deleted from the base is still visible. *)
Theorem diff_no_conflict (b : snapshot) pacts cacts pp pc :
  wf_snap b -> play (NewPatch b) pacts = Ok pp -> play (NewPatch b) cacts = Ok pc ->
  match Diff pp pc with
  | Ok p => deletedObjects _ p = deletedObjects _ pc
  | Err e => e = ErrEmptyDiff
  | Panic => False
  end.
Proof.
  intros Hb Hp Hc.
  assert (Hw : forall acts q p, wf_patch q -> play q acts = Ok p -> wf_patch p (W := snapshot)).
  { clear. intros acts. induction acts as [|a acts IH]; intros q p Hq Hp; simpl in Hp; [by simplify_eq|].
    apply bind_Ok in Hp as (q1 & Ha & Hp). eapply IH; [|done]. by eapply PlayAction_wf_patch. }
  pose proof (play_base _ _ _ Hp) as Hbp. pose proof (play_base _ _ _ Hc) as Hbc. simpl in Hbp, Hbc.
  pose proof (Diff_spec pp pc ltac:(eapply Hw, Hp; apply wf_NewPatch) ltac:(eapply Hw, Hc; apply wf_NewPatch)
    ltac:(congruence) ltac:(by rewrite Hbp)) as Hd.
  destruct (Diff pp pc); [by destruct Hd as (_ & _ & _ & ? & _)|by destruct Hd as [? _]|done].
Qed.
End props.

(** ** At concrete inputs

    Three commits: the first adds two objects, the second deletes one of them,
    the third adds another. *)

Definition demo_msg (id : ksuid) : msg Z := mkMsg id 0 (str "me") (str "m") 0 0.
Definition demo_object (id : ksuid) : dobject Z := mkObj id 1 2 3 4.
Definition demo1 : Object Z := NewAddsObject Nil (demo_msg 11) [demo_object 101; demo_object 102].
Definition demo2 : Object Z := NewDeletesObject 11 (demo_msg 12) [101].
Definition demo3 : Object Z := NewAddsObject 12 (demo_msg 13) [demo_object 103].
Definition demo_file (o : Object Z) : gmap ksuid (list byte) -> gmap ksuid (list byte) :=
  insert (commit_of o) (enc (Actions o)).
Definition demo_files : gmap ksuid (list byte) := demo_file demo3 (demo_file demo2 (demo_file demo1 ∅)).
Definition demo_store : Store Z (gmap Z) := OpenStore demo_files ∅.
Definition demo_chain : list (ksuid * Object Z) := [(13, demo3); (12, demo2); (11, demo1)].

Lemma demo_wf : wf_object demo1 /\ wf_object demo2 /\ wf_object demo3.
Proof. split; [|split]; by eexists _, _, _, _, _, _. Qed.

Lemma demo_decoded : decoded demo_files 11 demo1 /\ decoded demo_files 12 demo2 /\ decoded demo_files 13 demo3.
Proof.
  destruct demo_wf as (H1 & H2 & H3). unfold demo_files, demo_file.
  change (commit_of demo1) with 11. change (commit_of demo2) with 12. change (commit_of demo3) with 13.
  split; [|split].
  - exists (enc (Actions demo1)). rewrite !lookup_insert_ne, lookup_insert_eq by done.
    split; [done|by apply DecodeObject_Serialize].
  - exists (enc (Actions demo2)). rewrite !lookup_insert_ne, lookup_insert_eq by done.
    split; [done|by apply DecodeObject_Serialize].
  - exists (enc (Actions demo3)). rewrite lookup_insert_eq. split; [done|by apply DecodeObject_Serialize].
Qed.

Lemma demo_chain_ok : chain demo_files 13 demo_chain.
Proof.
  destruct demo_decoded as (H1 & H2 & H3). apply chain_commit; [done|done|].
  change (Parent demo3) with 12. apply chain_commit; [done|done|].
  change (Parent demo2) with 11. apply chain_commit; [done|done|]. apply chain_root.
Qed.

Lemma demo_stored : well_stored (Val := Z) demo_files.
Proof.
  destruct demo_wf as (H1 & H2 & H3). unfold demo_files, demo_file.
  apply map_Forall_insert_2; [by exists demo3|]. apply map_Forall_insert_2; [by exists demo2|].
  apply map_Forall_insert_2; [by exists demo1|]. apply map_Forall_empty.
Qed.

Lemma demo_coherent : coherent demo_store.
Proof. apply coherent_open. Qed.

Definition demo_snapshot : snapshot Z :=
  mkSnap (<[103 := demo_object 103]> (<[102 := demo_object 102]> ∅)) ∅.

Lemma demo_replay : replay demo_chain = Ok demo_snapshot.
Proof. by vm_compute. Qed.

Lemma snapshot_replay_witness :
  exists s', Snapshot 13 demo_store = (Ok demo_snapshot, s') /\ coherent s' /\ files s' = demo_files.
Proof. rewrite <- demo_replay. exact (snapshot_replay demo_store 13 demo_chain demo_coherent demo_chain_ok). Defined.

Lemma path_spec_witness :
  (exists s', Path 13 demo_store = (Ok [13; 12; 11], s') /\ coherent s' /\ files s' = demo_files) /\
  (exists s', PathRange 13 12 demo_store = (Ok [13; 12], s') /\ coherent s' /\ files s' = demo_files).
Proof.
  exact (path_spec demo_store 13 demo_chain [(13, demo3)] 12 demo2 [(11, demo1)] demo_coherent demo_chain_ok eq_refl).
Defined.

Lemma put_get_witness :
  exists s1 s2, Put (NewDeletesObject 13 (demo_msg 14) [103]) demo_store = (Ok tt, s1) /\
    Get 14 s1 = (Ok (NewDeletesObject 13 (demo_msg 14) [103]), s2) /\ coherent s2 /\ chain (files s2) 13 demo_chain /\
    DecodeObject (enc (Actions (NewDeletesObject 13 (demo_msg 14) [103]))) = Ok (NewDeletesObject 13 (demo_msg 14) [103]).
Proof.
  apply (put_get demo_store (NewDeletesObject 13 (demo_msg 14) [103]) 13 demo_chain demo_coherent);
    [by eexists _, _, _, _, _, _| |apply demo_chain_ok].
  change (commit_of (NewDeletesObject 13 (demo_msg 14) [103])) with 14. unfold demo_store, demo_files, demo_file. simpl files.
  change (commit_of demo1) with 11. change (commit_of demo2) with 12. change (commit_of demo3) with 13.
  by rewrite !lookup_insert_ne, lookup_empty by done.
Defined.

Lemma snapshot_roundtrip_witness : decodeSnapshot (serialize demo_snapshot) = Ok demo_snapshot.
Proof.
  apply (snapshot_roundtrip (concat (map Actions [demo1; demo2; demo3])) demo_snapshot). by vm_compute.
Defined.

Lemma read_all_spec_witness :
  exists b s', ReadAll 13 11 demo_store = (Ok b, s') /\ coherent s' /\
    dec b = Some (concat (map Actions [demo2; demo3])).
Proof.
  apply (read_all_spec demo_store 13 [(13, demo3); (12, demo2)] [(11, demo1)] 11 demo_coherent demo_stored demo_chain_ok).
  - by vm_compute; intros Hin; repeat (apply elem_of_cons in Hin as [Hin|Hin]; [done|]); apply not_elem_of_nil in Hin.
  - right. by exists demo1, [].
Defined.

Lemma vacuumable_spec_witness :
  exists out s', Vacuumable 13 demo_store = (Ok out, s') /\ files s' = demo_files /\
    (forall o, o ∈ out -> objects demo_snapshot !! ID o = None) /\ demo_object 101 ∈ out.
Proof.
  destruct (vacuumable_spec demo_store 13 demo_chain demo_snapshot demo_coherent demo_stored demo_chain_ok demo_replay)
    as (out & s' & E & Hf & Hsound & Hcomplete).
  exists out, s'. split; [exact E|]. split; [exact Hf|]. split; [exact Hsound|].
  apply (Hcomplete [(13, demo3); (12, demo2)] [(11, demo1)]
    (mkSnap (<[101 := demo_object 101]> (<[102 := demo_object 102]> ∅)) ∅) 101); by vm_compute.
Defined.

Lemma patch_squash_witness :
  exists p, Play demo_snapshot (NewCommitObject (W := snapshot Z) p 13 (demo_msg 14)) =
    Ok (mkSnap (<[104 := demo_object 104]> (<[102 := demo_object 102]> ∅)) {[102 := tt]}).
Proof.
  set (acts := [Delete 0 103; Add 0 (demo_object 104); Add 0 (demo_object 105); AddVec 0 102; Delete 0 105]).
  set (p := match play (NewPatch demo_snapshot) acts with Ok p => p | _ => NewPatch demo_snapshot end).
  exists p. apply (patch_squash demo_snapshot _ acts p); by vm_compute.
Defined.

Lemma diff_no_conflict_witness :
  exists pp pc : Patch Z (snapshot Z), match Diff pp pc with
    | Ok p => deletedObjects _ p = deletedObjects _ pc
    | Err e => e = ErrEmptyDiff
    | Panic => False
    end /\ deletedObjects _ pp = [103] /\ deletedObjects _ pc = [103].
Proof.
  set (pp := match play (NewPatch demo_snapshot) [Delete 21 103] with Ok p => p | _ => NewPatch demo_snapshot end).
  exists pp, pp. split; [|by vm_compute].
  apply (diff_no_conflict demo_snapshot [Delete 21 103] [Delete 21 103]); [|by vm_compute..].
  apply (replay_wf demo_chain). apply demo_replay.
Defined.

(** ** What goes wrong *)

(** the difference of two branches that both deleted an object is a patch
    whose commit object cannot be played on the parent. *)
Theorem double_delete_wedges (m : msg Z) :
  exists (b sp : snapshot Z) pp pc p,
    play b [Delete 21 101] = Ok sp /\
    play (NewPatch b) [Delete 21 101] = Ok pp /\ play (NewPatch b) [Delete 22 101] = Ok pc /\
    Diff pp pc = Ok p /\ Play sp (NewCommitObject p 21 m) = Err (ErrWriteConflict 101).
Proof.
  set (b := mkSnap (<[101 := demo_object 101]> ∅) ∅ : snapshot Z).
  set (sp := mkSnap ∅ ∅ : snapshot Z).
  set (pp := @mkPatch Z _ b NewSnapshot [101] []).
  exists b, sp, pp, pp, (@mkPatch Z _ pp NewSnapshot [101] []).
  split; [by vm_compute|]. split; [done|]. split; [done|]. split; [by vm_compute|]. by vm_compute.
Qed.

(** a patch lets an object of its base be deleted twice; the commit object
    then deletes it twice and cannot be played on the base. *)
Theorem patch_double_delete (m : msg Z) :
  exists (b : snapshot Z) p1 p2,
    DeleteObject (NewPatch b) 101 = Ok p1 /\ Exists p1 101 = true /\ DeleteObject p1 101 = Ok p2 /\
    Play b (NewCommitObject p2 21 m) = Err (ErrWriteConflict 101).
Proof.
  set (b := mkSnap (<[101 := demo_object 101]> ∅) ∅ : snapshot Z).
  exists b, (@mkPatch Z _ b NewSnapshot [101] []), (@mkPatch Z _ b NewSnapshot [101; 101] []).
  split; [done|]. split; [done|]. split; [done|]. by vm_compute.
Qed.
