(* ===== verification/BranchProps.v ===== *)
(** * Branches: what a pool's users rely on, and what fails

    The tips of the branches always replay and a branch only moves forward; what
    each operation leaves of the tip's snapshot; a commit when nothing
    interferes; and the histories on which merges and deletes go wrong. *)

From S2P Require Import Prelude.
From S2P Require Import Journal.
From S2P Require Import JournalProofs.
From S2P Require Import JournalProps.
From S2P Require Import Commits.
From S2P Require Import CommitProofs PatchProofs CommitProps Branch BranchProofs BranchSteps.
Local Open Scope Z_scope.

Section props.
Context {Val : Type} `{!GoRange} `{!Stream (Action Val)} {C : Type -> Type} `{!ARC C}.
Local Abbreviation Object := (Object Val).
Local Abbreviation dobject := (dobject Val).
Local Abbreviation snapshot := (snapshot Val).
Local Abbreviation filemap := (gmap ksuid (list byte)).
Local Abbreviation SM := (SM (Val := Val) (C := C)).

(** ** The operations keep the branch playable *)

(** C8: the commit object of every operation names the tip it was built for as
    its parent and plays on the tip's snapshot, provided: the loaded objects
    have new ids, the ids to delete are distinct, the ids of vectors are
    distinct, the reverted commit exists, a merge meets no double delete. *)
Theorem operations_safe (os src : list dobject) rollup vecs ids c child (m : Z -> msg Val) :
  NoDup (map ID os) -> NoDup ids -> NoDup (map ID src) ->
  safe (C := C) (at_tip (fun sn => Forall (fun o => objects sn !! ID o = None) os))
    (fun parent retries => Load_ os parent (m retries)) /\
  safe (C := C) (fun _ _ => True) (fun parent retries => Delete_ ids parent (m retries)) /\
  safe (C := C) (fun _ _ => True) (fun parent retries => CommitCompact_ src rollup vecs parent (m retries)) /\
  safe (C := C) (fun _ _ => True) (fun parent retries => AddVectors_ ids parent (m retries)) /\
  safe (C := C) (fun _ _ => True) (fun parent retries => DeleteVectors_ ids parent (m retries)) /\
  safe (C := C) (revertible c) (fun parent retries => Revert_ c parent (m retries)) /\
  safe (C := C) (mergeable child) (fun parent retries => buildMergeObject child parent (m retries)).
Proof.
  intros Hos Hids Hsrc. split_and!.
  - by eapply safe_mono, (constructor_safe (OpLoad os) m).
  - by eapply safe_mono, (constructor_safe (OpDelete ids) m).
  - by eapply safe_mono, (constructor_safe (OpCompact src rollup vecs) m).
  - by eapply safe_mono, (constructor_safe (OpAddVectors ids) m).
  - by eapply safe_mono, (constructor_safe (OpDeleteVectors ids) m).
  - apply (constructor_safe (OpRevert c) m).
  - apply (constructor_safe (OpMerge child) m).
Qed.

(** C6: the tip of every branch is a commit whose ancestors are all stored and
    whose actions play from the root without a conflict, in every state that
    concurrent clients reach by loads, deletes, compactions, changes of
    vectors, reverts, merges, creations and removals of branches, with
    conflicts, retries, errors and crashes, provided: when an operation's
    object is built, a load brings distinct ids that the tip does not have, a
    delete, a compaction or a change of vectors names each id once, a reverted
    commit is one of the pool's, and a merge's child is too and meets no
    object of the common ancestor that both sides deleted; a branch is created
    at no commit or at one of a branch's history; and no update of the branch
    table reports an error after its entry was written (lost_update_dangles
    shows a tip that dangles otherwise). Updates of the table are atomic. *)
Theorem branch_tips_replay tr (w : world (Val := Val)) name config :
  run (C := C) tr init w -> Forall admitted tr -> w_table w !! name = Some config ->
  exists l sn, chain (w_files w) (tip config) l /\ replay (Val := Val) l = Ok sn.
Proof.
  intros Hrun Hadm Ht. destruct (inv_table _ (inv_run _ _ _ Hrun Hadm inv_init) _ _ Ht) as [_ (l & sn & Hl & Hr)].
  by exists l, sn.
Qed.

(** C7: no commit is lost: among concurrent clients as in C6 and under the
    conditions stated there on the operations, on where branches are created
    and on errors of the branch table's updates, unless the branch is removed
    its history at any time is a suffix of its history at any later time. *)
Theorem branch_history tr1 tr2 (w1 w2 : world (Val := Val)) name config l :
  run (C := C) tr1 init w1 -> run (C := C) tr2 w1 w2 -> Forall admitted tr1 -> Forall admitted tr2 -> Removed name ∉ tr2 ->
  w_table w1 !! name = Some config -> chain (Val := Val) (w_files w1) (tip config) l ->
  exists config' k, w_table w2 !! name = Some config' /\ chain (w_files w2) (tip config') (k ++ l).
Proof.
  intros H1 H2 Ha1 Ha2 Ha Ht Hl. eapply run_history; [done|done|by eapply inv_run, inv_init|done|done|done].
Qed.

(** ** What the operations do to the tip *)

(** a delete removes exactly the objects it names, or fails because the tip
    does not have one of them. *)
Theorem delete_result ids parent (m : msg Val) (s : Commits.Store Val C) l sn :
  coherent s -> chain (files s) (tip parent) l -> replay l = Ok sn -> NoDup ids ->
  exists r s', Delete_ ids parent m s = (r, s') /\
    match r with
    | Ok o => exists sn', Play sn o = Ok sn' /\ vectors sn' = vectors sn /\
        forall id, objects sn' !! id = if decide (id ∈ ids) then None else objects sn !! id
    | Err e => e = ErrNotFound /\ exists id, id ∈ ids /\ objects sn !! id = None
    | Panic => False
    end.
Proof.
  intros Hs Hl Hr Hnd. destruct (Delete_spec ids parent m s l sn Hs Hl Hr Hnd) as (r & (s' & E & _) & Hspec).
  exists r, s'. split; [done|]. destruct r as [o|e|]; [|done..]. destruct Hspec as [_ _ _ Hp].
  eexists. split; [exact Hp|]. split; [done|]. intros id. apply lookup_without.
Qed.

(** a compaction replaces its sources by the rollup objects, in one commit; an
    object that is in neither is untouched. *)
Theorem compact_result src rollup vecs parent (m : msg Val) (s : Commits.Store Val C) l sn o s' :
  coherent s -> chain (files s) (tip parent) l -> replay l = Ok sn -> NoDup (map ID src) ->
  CommitCompact_ src rollup vecs parent m s = (Ok o, s') ->
  exists sn', Play sn o = Ok sn' /\
    (forall d, d ∈ src -> objects sn' !! ID d = None) /\
    (forall d, d ∈ rollup -> ID d ∉ map ID src -> NoDup (map ID rollup) -> objects sn' !! ID d = Some d) /\
    (forall id, id ∉ map ID src -> id ∉ map ID rollup -> objects sn' !! id = objects sn !! id).
Proof.
  intros Hs Hl Hr Hnd E.
  destruct (CommitCompact_spec src rollup vecs parent m s l sn Hs Hl Hr Hnd) as (r & Hread & Hspec).
  pose proof (reads_inj _ _ _ _ _ Hread E) as ->. destruct (Hspec o eq_refl) as [_ _ _ Hp].
  eexists. split; [exact Hp|]. cbn [objects].
  set (added := fold_left (fun m o => <[ID o:=o]> m) rollup (objects sn)).
  assert (Hdel : forall (m : gmap ksuid dobject) id, fold_left (fun m (o : dobject) => delete (ID o) m) src m !! id =
    if decide (id ∈ map ID src) then None else m !! id).
  { clear. induction src as [|d ds IH]; intros m id; [done|]. simpl. rewrite IH.
    destruct (decide (id ∈ map ID ds)) as [Hi|Hi].
    - by rewrite decide_True by by right.
    - destruct (decide (ID d = id)) as [<-|Hne].
      + rewrite lookup_delete_eq, decide_True; [done|by left].
      + rewrite lookup_delete_ne, decide_False; [done| |done]. by apply not_elem_of_cons. }
  assert (Hadd : forall ds (m : gmap ksuid dobject) id, id ∉ map ID ds ->
    fold_left (fun m (o : dobject) => <[ID o := o]> m) ds m !! id = m !! id).
  { clear. induction ds as [|d ds IH]; intros m id Hid; [done|]. apply not_elem_of_cons in Hid as [Hne Hid]. simpl.
    rewrite IH by done. by rewrite lookup_insert_ne. }
  split_and!.
  - intros d Hd. rewrite Hdel, decide_True; [done|]. apply list_elem_of_fmap. by exists d.
  - intros d Hd Hns Hndr. rewrite Hdel, decide_False by done. subst added. revert Hd Hndr. generalize (objects sn).
    clear -Hadd. induction rollup as [|x xs IH]; intros m0 Hd Hndr; [by apply not_elem_of_nil in Hd|].
    inversion_clear Hndr as [|? ? Hni Hndx]. apply elem_of_cons in Hd as [->|Hd]; [|by apply IH].
    simpl. rewrite Hadd by done. by rewrite lookup_insert_eq.
  - intros id Hi1 Hi2. rewrite Hdel, decide_False by done. by apply Hadd.
Qed.

(** C10: reverting a commit undoes, at the tip, what the commit did to each
    object: one it added goes, one it deleted comes back if it is missing, and
    the others are untouched; vectors are not reverted. *)
Theorem revert_result c oc lc parent (m : msg Val) (s : Commits.Store Val C) l sn b after o s' :
  coherent s -> chain (files s) (tip parent) l -> replay l = Ok sn ->
  chain (files s) c ((c, oc) :: lc) -> replay lc = Ok b -> replay ((c, oc) :: lc) = Ok after ->
  Revert_ c parent m s = (Ok o, s') ->
  exists sn', Play sn o = Ok sn' /\ vectors sn' = vectors sn /\
    (forall id, objects sn' !! id = match objects b !! id, objects after !! id with
      | None, Some _ => None
      | Some d, None => match objects sn !! id with Some d' => Some d' | None => Some d end
      | _, _ => objects sn !! id
      end) /\
    (tip parent = c -> objects sn' = objects b).
Proof.
  intros Hs Hl Hr Hc Hb Ha E.
  destruct (Revert_spec c oc lc parent m s l sn b after Hs Hl Hr Hc Hb Ha) as (r & Hread & Hspec).
  pose proof (reads_inj _ _ _ _ _ Hread E) as ->. destruct Hspec as (sn' & [_ _ _ Hp] & Hv & Ho).
  exists sn'. split_and!; [done|done|exact Ho|]. intros Htip. rewrite Htip in Hl.
  pose proof (chain_inj _ _ _ _ Hl Hc) as ->. rewrite Ha in Hr. injection Hr as <-.
  apply map_eq. intros id. rewrite Ho. unfold revert3.
  destruct (reads_PatchOfCommit _ _ _ _ Hs Hc) as (s1 & E1 & _). rewrite Hb in E1. simpl in E1.
  destruct (Play (NewPatch b) oc) as [p|e|] eqn:Hpl;
    [|unfold Revert_ in E; by rewrite E1 in E..].
  destruct (commit_patch _ _ _ _ _ _ Hb Ha Hpl) as (Hwf & _ & Hbase & ->).
  pose proof (wf_adds _ Hwf id) as Hwa. simpl in Hwa. rewrite Hbase in Hwa.
  rewrite lookup_applied, Hbase. destruct (objects (diff _ p) !! id); [by rewrite (Hwa ltac:(by eexists))|].
  destruct (objects b !! id), (decide (id ∈ deletedObjects _ p)); done.
Qed.

(** C9: a merge whose branches did not both delete an object of the common
    ancestor gives the three-way merge of the objects: an object of the
    ancestor stays unless a branch deleted it, and the objects either branch
    added are there. The vectors are those of the parent. *)
Theorem merge_result child parent (m : msg Val) (s : Commits.Store Val C) lc lp sc sp l1 a oa l2 b o s' :
  coherent s -> child <> Nil -> tip parent <> Nil ->
  chain (files s) child lc -> replay lc = Ok sc -> chain (files s) (tip parent) lp -> replay lp = Ok sp ->
  a = commonAncestor lp.*1 lc.*1 -> lp = l1 ++ (a, oa) :: l2 -> replay ((a, oa) :: l2) = Ok b ->
  no_double_delete b sp sc ->
  buildMergeObject child parent m s = (Ok o, s') ->
  (exists k1, lc = k1 ++ (a, oa) :: l2) /\
  exists sn', Play sp o = Ok sn' /\ Parent o = tip parent /\ vectors sn' = vectors sp /\
    forall id, objects sn' !! id = match objects b !! id with
      | Some _ => match objects sc !! id with Some _ => objects sp !! id | None => None end
      | None => match objects sp !! id with Some d => Some d | None => objects sc !! id end
      end.
Proof.
  intros Hs Hcn Hpn Hlc Hrc Hlp Hrp Ha Hl1 Hb Hnd E.
  destruct (Merge_spec child parent m s lc lp sc sp Hs Hcn Hpn Hlc Hrc Hlp Hrp) as (r & Hread & _ & Hspec).
  pose proof (reads_inj _ _ _ _ _ Hread E) as ->.
  destruct (Hspec o eq_refl) as (l1' & oa' & l2' & k1 & b' & Hl1' & Hk1 & Hb' & Hfin). rewrite <- Ha in *.
  pose proof (chain_inj _ _ _ _ (chain_suffix _ _ _ _ _ _ _ Hlp Hl1) (chain_suffix _ _ _ _ _ _ _ Hlp Hl1')) as Heq.
  injection Heq as <- <-. assert (b' = b) as -> by congruence. split; [by exists k1|].
  destruct (Hfin Hnd) as (sn' & [_ _ Hpar Hp] & Hv & Ho). exists sn'. split_and!; done.
Qed.

(** [Delete] does not notice that an id is given twice: the commit object it
    writes cannot be played, so no later snapshot of the branch can be
    computed. *)
Theorem delete_duplicate_wedges id d parent (m : msg Val) (s : Commits.Store Val C) l sn :
  coherent s -> chain (files s) (tip parent) l -> replay l = Ok sn -> objects sn !! id = Some d ->
  exists o s', Delete_ [id; id] parent m s = (Ok o, s') /\ Play sn o = Err (ErrWriteConflict id) /\
    replay ((commit_of o, o) :: l) = Err (ErrWriteConflict id).
Proof.
  intros Hs Hl Hr Hd.
  assert (Hread : reads (Delete_ [id; id] parent m) s (Ok (NewDeletesObject (tip parent) m [id; id]))).
  { unfold Delete_. eapply reads_bind; [rewrite <- Hr; by apply reads_Snapshot|]. intros s1 Hs1 _.
    eapply (reads_bind _ _ _ [d; d]); [|intros; by apply reads_ret].
    replace (lookup_each sn [id; id]) with (Ok [d; d] : outcome error (list dobject)); [by apply reads_lift|].
    simpl. unfold snap_Lookup. by rewrite Hd. }
  destruct Hread as (s' & E & _). exists (NewDeletesObject (tip parent) m [id; id]), s'.
  assert (Hp : Play sn (NewDeletesObject (tip parent) m [id; id]) = Err (ErrWriteConflict id)).
  { rewrite NewDeletesObject_eq. unfold Play. simpl. unfold snap_DeleteObject. rewrite Hd. simpl. by rewrite lookup_delete_eq. }
  split; [done|]. split; [done|]. by rewrite replay_cons, Hr.
Qed.

(** ** A commit when nothing interferes *)

Context `{!Codec (list (jop Config))}.
Local Abbreviation Pool := (Pool (Val := Val) (C := C)).

(** The table of a journal files each configuration under its name. *)
Definition keyed (t : gmap gostring Config) : Prop := map_Forall (fun k c => Name c = k) t.

Lemma apply_ops_keyed os t t' : keyed t -> apply_ops Name t os = Some t' -> keyed t'.
Proof.
  revert t. induction os as [|a os IH]; intros t Ht Ho; simpl in Ho; [by simplify_eq|].
  destruct (apply_op Name t a) as [t1|] eqn:Ha; [|done]. simpl in Ho. apply (IH t1); [|done].
  destruct a; simpl in Ha; repeat case_match; simplify_eq; intros key cfg.
  - intros [[<- <-]|[_ Hk]]%lookup_insert_Some; [done|by apply Ht].
  - intros [[<- <-]|[_ Hk]]%lookup_insert_Some; [done|by apply Ht].
  - intros [_ Hk]%lookup_delete_Some. by apply Ht.
Qed.

Lemma upto_keyed log n t : upto Name log n = Some t -> keyed t.
Proof. apply apply_ops_keyed. by intros ? ?. Qed.

Lemma find_name (t : gmap gostring Config) name c :
  keyed t -> t !! name = Some c ->
  List.find (fun c => bool_decide (Name c = name)) (map snd (map_to_list t)) = Some c.
Proof.
  intros Ht Hc. destruct (List.find _ _) as [c'|] eqn:Hf.
  - apply find_some in Hf as [Hin Hn]. apply bool_decide_eq_true in Hn.
    apply in_map_iff in Hin as ([k c''] & <- & Hin). apply list_elem_of_In, elem_of_map_to_list in Hin.
    simpl in *. pose proof (Ht _ _ Hin) as Hk. simpl in Hk. congruence.
  - exfalso. apply find_none with (x := c) in Hf.
    + apply bool_decide_eq_false in Hf. apply Hf. by apply (Ht _ _ Hc).
    + apply in_map_iff. exists (name, c). split; [done|]. by apply list_elem_of_In, elem_of_map_to_list.
Qed.

Lemma LookupByName_settled log (p : Pool) t name c :
  settled Name log (queue p) -> synced Name log (branches p) -> Z.of_nat (length log) < 2 ^ 64 ->
  upto Name log (length log) = Some t -> t !! name = Some c ->
  exists p', LookupByName name p = (Ok c, p') /\ settled Name log (queue p') /\ synced Name log (branches p') /\
    commits p' = commits p /\ dataFiles p' = dataFiles p.
Proof.
  intros Hq Hs H64 Ht Hc.
  destruct (load_settled Name log (queue p) (branches p) Hq Hs H64) as (q' & t' & Hl & Hq' & Ht').
  assert (t' = t) as -> by congruence.
  unfold LookupByName, branches_All, Journal.All. rewrite Hl. cbn [mbind outcome_bind obind s_table].
  rewrite (find_name t name c (upto_keyed _ _ _ Ht) Hc).
  eexists. split; [done|]. split; [done|]. split; [|done]. split; simpl; [lia|]. left. by rewrite Nat2Z.id.
Qed.

(** C38: a commit that nothing interferes with builds its object against the
    tip of the branch and leaves the branch at that object: the table changes
    at this branch only, the object is stored, and the pool is ready for the
    next commit. *)
Theorem commit_result log (p : Pool) t name config (create : Config -> Z -> SM Object) o :
  settled Name log (queue p) -> synced Name log (branches p) -> Z.of_nat (length log) + 1 < 2 ^ 64 ->
  upto Name log (length log) = Some t -> t !! name = Some config ->
  coherent (commits p) -> reads (create config 0) (commits p) (Ok o) -> wf_object o ->
  files (commits p) !! commit_of o = None ->
  exists p' log', commit name create p = (Ok (commit_of o), p') /\
    settled Name log' (queue p') /\ synced Name log' (branches p') /\
    upto Name log' (length log') = Some (<[name := with_tip config (commit_of o)]> t) /\
    coherent (commits p') /\ files (commits p') = <[commit_of o := enc (Actions o)]> (files (commits p)).
Proof.
  intros Hq Hs H64 Ht Hc Hcoh (s1 & E1 & Hs1 & Hf1) Hwf Hfresh.
  destruct (LookupByName_settled log p t name config Hq Hs ltac:(lia) Ht Hc) as (p1 & E & Hq1 & Hj1 & Hc1 & Hd1).
  destruct (Put_spec o s1 Hs1 Hwf ltac:(by rewrite Hf1)) as (s2 & E2 & Hs2 & Hf2).
  assert (Hname : Name config = name) by by apply (upto_keyed _ _ _ Ht).
  set (r := UpdateEntry (with_tip config (commit_of o)) (Some (unchanged config))).
  pose proof (commit_settled Name log r (queue p1) (branches p1) t Hq1 Hj1 H64 Ht) as Hcommit.
  assert (Hck : check Name r t = None).
  { simpl. unfold with_constraint. simpl. rewrite Hname, Hc. unfold unchanged. by rewrite Z.eqb_refl. }
  rewrite Hck in Hcommit. destruct Hcommit as (q2 & j2 & E3 & Hq2 & Hj2).
  exists (with_branches q2 j2 (with_commits s2 p1)), (log ++ [r]). split_and!; try done.
  - unfold commit, maxCommitRetries. cbn [commit_loop]. unfold mbind at 1, PM_bind at 1. rewrite E.
    unfold mbind at 1, PM_bind at 1, on_commits at 1. rewrite Hc1, E1. cbn [omap_err].
    unfold mbind at 1, PM_bind at 1, on_commits at 1. cbn [commits with_commits]. rewrite E2. cbn [omap_err].
    unfold branches_Update, journal_commit. cbn [queue branches with_commits]. fold r. by rewrite E3.
  - rewrite length_app, Nat.add_1_r. unfold upto.
    rewrite (rng_snoc (log ++ [r]) 0 (length log) r), rng_log_app, apply_ops_app by
      (done || lia || by rewrite lookup_app_r, Nat.sub_diag by lia).
    unfold upto in Ht. rewrite Ht. simpl. by rewrite Hname, Hc.
  - simpl. congruence.
Qed.

(** a commit to a branch that does not exist fails and writes no commit
    object. *)
Theorem commit_no_branch log (p : Pool) t name (create : Config -> Z -> SM Object) :
  settled Name log (queue p) -> synced Name log (branches p) -> Z.of_nat (length log) < 2 ^ 64 ->
  upto Name log (length log) = Some t -> t !! name = None ->
  exists p', commit name create p = (Err ErrBranchNotFound, p') /\ commits p' = commits p.
Proof.
  intros Hq Hs H64 Ht Hc.
  destruct (load_settled Name log (queue p) (branches p) Hq Hs H64) as (q' & t' & Hl & Hq' & Ht').
  assert (t' = t) as -> by congruence.
  unfold commit, maxCommitRetries. cbn [commit_loop]. unfold mbind at 1, PM_bind at 1.
  unfold LookupByName, branches_All, Journal.All. rewrite Hl. cbn [mbind outcome_bind obind s_table].
  destruct (List.find _ _) as [c|] eqn:Hf; [|by eexists].
  apply find_some in Hf as [Hin Hn]. apply bool_decide_eq_true in Hn.
  apply in_map_iff in Hin as ([k c'] & <- & Hin). apply list_elem_of_In, elem_of_map_to_list in Hin.
  simpl in *. pose proof (upto_keyed _ _ _ Ht _ _ Hin) as Hk. simpl in Hk. congruence.
Qed.
End props.

(** ** At concrete inputs *)

Definition main : gostring := str "main".
Definition demo_config (id : ksuid) : Config := mkConfig 0 main id.
Definition demo_commits : Commits.Store Z (gmap Z) := demo_store.

Lemma operations_safe_witness :
  safe (C := gmap Z) (fun _ _ => True) (fun parent retries => Delete_ (Val := Z) [101; 102] parent (demo_msg (20 + retries))).
Proof.
  refine (proj1 (proj2 (operations_safe (C := gmap Z) [demo_object 101] [demo_object 102] [] [] [101; 102] 11 12
    (fun retries => demo_msg (20 + retries)) _ _ _))); by apply (bool_decide_unpack _); vm_compute.
Defined.

(** A client loads an object into the new branch [main]. *)
Definition demo_loaded : Object Z := NewAddsObject Nil (demo_msg 11) [demo_object 101].
Definition demo_op : operation (Val := Z) := OpLoad [demo_object 101].
Definition demo_client : client (Val := Z) :=
  mkClient main demo_op (fun retries => demo_msg (11 + retries)) (Start 0).
Definition demo_world1 : world (Val := Z) := mkWorld ∅ (<[main := demo_config Nil]> ∅) ∅.
(** The states of [main]'s client, and the world when its object is written. *)
Definition demo_clients (p : pc) : gmap nat client :=
  <[0%nat := at_pc demo_client p]> (<[0%nat := at_pc demo_client (Wrote (demo_config Nil) demo_loaded 0)]>
    (<[0%nat := at_pc demo_client (Looked (demo_config Nil) 0)]> (<[0%nat := demo_client]> ∅))).
Definition demo_world2 : world (Val := Z) :=
  mkWorld (put demo_loaded ∅) (<[main := demo_config 11]> (<[main := demo_config Nil]> ∅)) (demo_clients (Done 11)).
Definition demo_trace1 : list (label (Val := Z)) := [Branched ∅ ∅ Nil].
Definition demo_trace2 (last : label) : list (label (Val := Z)) :=
  [Silent; Silent; Built demo_op ∅ (demo_config Nil); last].

Lemma demo_run1 : run (C := gmap Z) demo_trace1 init demo_world1.
Proof. eapply run_step; [|apply run_nil]. by apply (step_branch ∅ ∅ ∅ (demo_config Nil)). Qed.

Lemma demo_run last w :
  step (C := gmap Z) last (mkWorld (put demo_loaded ∅) (w_table demo_world1)
    (<[0%nat := at_pc demo_client (Wrote (demo_config Nil) demo_loaded 0)]>
      (<[0%nat := at_pc demo_client (Looked (demo_config Nil) 0)]> (<[0%nat := demo_client]> ∅)))) w ->
  run (C := gmap Z) (demo_trace2 last) demo_world1 w.
Proof.
  intros Hlast. eapply run_step; [by apply (step_start _ _ _ 0%nat main demo_op)|].
  eapply run_step; [by eapply (step_lookup _ _ _ 0%nat demo_client 0 (demo_config Nil))|].
  eapply run_step; [|eapply run_step; [exact Hlast|apply run_nil]].
  by eapply (step_create _ _ _ 0%nat (at_pc demo_client (Looked (demo_config Nil) 0)) (demo_config Nil) 0
    (OpenStore ∅ ∅) _ demo_loaded); [done|done|apply coherent_open|..].
Qed.

Lemma demo_run2 : run (C := gmap Z) (demo_trace2 Silent) demo_world1 demo_world2.
Proof.
  apply demo_run. by apply (step_update _ _ _ 0%nat (at_pc demo_client (Wrote (demo_config Nil) demo_loaded 0))
    (demo_config Nil) demo_loaded 0 (demo_config Nil)).
Qed.

Lemma demo_admitted : Forall admitted (demo_trace2 Silent).
Proof.
  unfold demo_trace2. rewrite !Forall_cons. split_and!; [done|done| |done|by constructor]. split.
  - by apply (bool_decide_unpack _); vm_compute.
  - intros l sn Hl Hr. inversion Hl; subst; [|done]. injection Hr as <-. by apply Forall_singleton.
Qed.

(** An update that fails after its entry was written leaves a branch that points
    to a commit object that was removed: here at the load that [demo_run2]
    commits. *)
Theorem lost_update_dangles :
  exists w, run (C := gmap Z) (demo_trace1 ++ demo_trace2 (Lost main)) init w /\
    w_table w !! main = Some (demo_config 11) /\ w_files w !! 11 = None.
Proof.
  eexists. split.
  - apply (run_step (C := gmap Z) _ _ _ demo_world1); [by apply (step_branch ∅ ∅ ∅ (demo_config Nil))|].
    apply demo_run. by apply (step_lost _ _ _ 0%nat (at_pc demo_client (Wrote (demo_config Nil) demo_loaded 0))
      (demo_config Nil) demo_loaded 0 (demo_config Nil)).
  - simpl. split; [apply lookup_insert_eq|apply lookup_delete_eq].
Qed.

Lemma run_app {Val} `{!GoRange, !Stream (Action Val), !ARC C} tr1 tr2 (w1 w2 w3 : world (Val := Val)) :
  run (C := C) tr1 w1 w2 -> run (C := C) tr2 w2 w3 -> run (C := C) (tr1 ++ tr2) w1 w3.
Proof. induction 1; [done|]. intros Hr. econstructor; [done|auto]. Qed.

Lemma branch_tips_replay_witness :
  exists l sn, chain (Val := Z) (put demo_loaded ∅) 11 l /\ replay l = Ok sn.
Proof.
  apply (branch_tips_replay (C := gmap Z) (demo_trace1 ++ demo_trace2 Silent) demo_world2 main (demo_config 11)); [| |done].
  - eapply run_app; [apply demo_run1|apply demo_run2].
  - constructor; [by left|apply demo_admitted].
Defined.

Lemma branch_history_witness :
  exists config' k, w_table demo_world2 !! main = Some config' /\
    chain (Val := Z) (w_files demo_world2) (tip config') (k ++ []).
Proof.
  apply (branch_history (C := gmap Z) demo_trace1 (demo_trace2 Silent) demo_world1 demo_world2 main (demo_config Nil) []);
    [apply demo_run1|apply demo_run2| |apply demo_admitted| |done|apply chain_root].
  - constructor; [by left|constructor].
  - unfold demo_trace2. rewrite !not_elem_of_cons. split_and!; try done. apply not_elem_of_nil.
Defined.

Lemma delete_result_witness :
  exists r s', Delete_ [102] (demo_config 13) (demo_msg 14) demo_commits = (r, s') /\
    match r with
    | Ok o => exists sn', Play demo_snapshot o = Ok sn' /\ vectors sn' = ∅ /\
        forall id, objects sn' !! id = if decide (id ∈ [102]) then None else objects demo_snapshot !! id
    | Err e => e = ErrNotFound /\ exists id, id ∈ [102] /\ objects demo_snapshot !! id = None
    | Panic => False
    end.
Proof.
  apply (delete_result [102] (demo_config 13) (demo_msg 14) demo_commits demo_chain demo_snapshot demo_coherent
    demo_chain_ok demo_replay). by apply (bool_decide_unpack _); vm_compute.
Defined.

(** The commit object an operation returns, and the store it leaves. *)
Definition made (r : outcome error (Object Z) * Commits.Store Z (gmap Z)) : Object Z :=
  match r.1 with Ok o => o | _ => demo1 end.

Lemma compact_result_witness :
  let r := CommitCompact_ [demo_object 102] [demo_object 104] [104] (demo_config 13) (demo_msg 14) demo_commits in
  exists sn', Play demo_snapshot (made r) = Ok sn' /\
      (forall d, d ∈ [demo_object 102] -> objects sn' !! ID d = None) /\
      (forall d, d ∈ [demo_object 104] -> ID d ∉ map ID [demo_object 102] -> NoDup (map ID [demo_object 104]) ->
        objects sn' !! ID d = Some d) /\
      (forall id, id ∉ map ID [demo_object 102] -> id ∉ map ID [demo_object 104] ->
        objects sn' !! id = objects demo_snapshot !! id).
Proof.
  intros r. apply (compact_result [demo_object 102] [demo_object 104] [104] (demo_config 13) (demo_msg 14) demo_commits
    demo_chain demo_snapshot (made r) r.2 demo_coherent demo_chain_ok demo_replay);
    [by apply (bool_decide_unpack _); vm_compute|by vm_compute].
Defined.

(** Reverting the delete of 101, which is the second commit. *)
Lemma revert_result_witness :
  let r := Revert_ 12 (demo_config 13) (demo_msg 14) demo_commits in
  exists (b after : snapshot Z) sn', Play demo_snapshot (made r) = Ok sn' /\ vectors sn' = ∅ /\
    (forall id, objects sn' !! id = match objects b !! id, objects after !! id with
        | None, Some _ => None
        | Some d, None => match objects demo_snapshot !! id with Some d' => Some d' | None => Some d end
        | _, _ => objects demo_snapshot !! id
        end) /\ objects b !! 101 = Some (demo_object 101) /\ objects after !! 101 = None.
Proof.
  intros r.
  set (b := mkSnap (<[101 := demo_object 101]> (<[102 := demo_object 102]> ∅)) ∅ : snapshot Z).
  set (after := mkSnap (<[102 := demo_object 102]> ∅) ∅ : snapshot Z). exists b, after.
  destruct (revert_result 12 demo2 [(11, demo1)] (demo_config 13) (demo_msg 14) demo_commits demo_chain demo_snapshot
    b after (made r) r.2 demo_coherent demo_chain_ok demo_replay) as (sn' & H1 & H2 & H3 & _).
  - by apply (chain_suffix _ 13 demo_chain [(13, demo3)] 12 demo2 [(11, demo1)] demo_chain_ok).
  - by vm_compute.
  - by vm_compute.
  - by vm_compute.
  - exists sn'. exact (conj H1 (conj H2 (conj H3 (conj eq_refl eq_refl)))).
Defined.

(** Merging the commit 13 into a branch whose tip is 12. *)
Definition demo_parent : snapshot Z := mkSnap (<[102 := demo_object 102]> ∅) ∅.

Lemma merge_result_witness :
  let r := buildMergeObject 13 (demo_config 12) (demo_msg 14) demo_commits in
  (exists k1, demo_chain = k1 ++ [(12, demo2); (11, demo1)]) /\
  exists sn', Play demo_parent (made r) = Ok sn' /\ Parent (made r) = 12 /\ vectors sn' = ∅ /\
    forall id, objects sn' !! id = match objects demo_parent !! id with
        | Some _ => match objects demo_snapshot !! id with Some _ => objects demo_parent !! id | None => None end
        | None => match objects demo_parent !! id with Some d => Some d | None => objects demo_snapshot !! id end
        end.
Proof.
  intros r.
  apply (merge_result 13 (demo_config 12) (demo_msg 14) demo_commits demo_chain [(12, demo2); (11, demo1)] demo_snapshot
    demo_parent [] 12 demo2 [(11, demo1)] demo_parent (made r) r.2 demo_coherent).
  - done.
  - done.
  - apply demo_chain_ok.
  - apply demo_replay.
  - apply (chain_suffix _ 13 demo_chain [(13, demo3)] 12 demo2 [(11, demo1)] demo_chain_ok eq_refl).
  - by vm_compute.
  - by vm_compute.
  - done.
  - by vm_compute.
  - intros id [o Ho] Hn. congruence.
  - by vm_compute.
Defined.

Lemma delete_duplicate_wedges_witness :
  exists o s', Delete_ [102; 102] (demo_config 13) (demo_msg 14) demo_commits = (Ok o, s') /\
    Play demo_snapshot o = Err (ErrWriteConflict 102) /\
    replay ((commit_of o, o) :: demo_chain) = Err (ErrWriteConflict 102).
Proof.
  by apply (delete_duplicate_wedges 102 (demo_object 102) (demo_config 13) (demo_msg 14) demo_commits demo_chain
    demo_snapshot demo_coherent demo_chain_ok demo_replay).
Defined.

#[export] Instance Config_eq_dec : EqDecision Config.
Proof. solve_decision. Defined.
#[export] Instance Config_countable : Countable Config.
Proof. apply (inj_countable' (fun c => (Ts c, Name c, tip c)) (fun '(t, n, c) => mkConfig t n c)). by intros []. Defined.

(** A pool whose branches journal has the branch [main], at commit 13. *)
Lemma demo_pool : exists p : Pool (Val := Z) (C := gmap Z),
  settled Name [Insert (demo_config 13)] (queue p) /\ synced Name [Insert (demo_config 13)] (branches p) /\
  commits p = demo_commits.
Proof.
  assert (Hs : synced Name [] (newStore : Journal.Store Config)) by (split; [done|by left]).
  pose proof (commit_settled Name [] (Insert (demo_config 13)) (Create true) newStore ∅ (settled_Create Name) Hs
    ltac:(done) eq_refl) as Hc.
  destruct Hc as (q & s & _ & Hq & Hj). by exists (mkPool q s demo_commits ∅).
Qed.

Definition demo_next : Object Z := NewAddsObject 13 (demo_msg 14) [demo_object 104].

Lemma demo_next_fresh : demo_files !! 14 = None.
Proof.
  unfold demo_files, demo_file.
  change (commit_of demo1) with 11. change (commit_of demo2) with 12. change (commit_of demo3) with 13.
  by rewrite !lookup_insert_ne, lookup_empty by done.
Qed.

Lemma commit_result_witness :
  exists (p p' : Pool (Val := Z) (C := gmap Z)) log',
    commit main (fun parent _ => Load_ [demo_object 104] parent (demo_msg 14)) p = (Ok 14, p') /\
    upto Name log' (length log') = Some (<[main := demo_config 14]> (<[main := demo_config 13]> ∅)) /\
    files (commits p') = <[14 := enc (Actions demo_next)]> demo_files.
Proof.
  destruct demo_pool as (p & Hq & Hj & Hc).
  destruct (commit_result [Insert (demo_config 13)] p (<[main := demo_config 13]> ∅) main (demo_config 13)
    (fun parent _ => Load_ [demo_object 104] parent (demo_msg 14)) demo_next) as (p' & log' & E & _ & _ & Ht & _ & Hf).
  - exact Hq.
  - exact Hj.
  - done.
  - done.
  - apply lookup_insert_eq.
  - rewrite Hc. apply demo_coherent.
  - rewrite Hc. apply (reads_ret demo_next). apply demo_coherent.
  - by eexists _, _, _, _, _, _.
  - rewrite Hc. apply demo_next_fresh.
  - exists p, p', log'. split; [exact E|]. split; [exact Ht|]. rewrite Hc in Hf. exact Hf.
Defined.

Lemma commit_no_branch_witness :
  exists p p' : Pool (Val := Z) (C := gmap Z),
    commit (str "other") (fun parent _ => Load_ [demo_object 104] parent (demo_msg 14)) p = (Err ErrBranchNotFound, p') /\
    commits p' = commits p.
Proof.
  destruct demo_pool as (p & Hq & Hj & _).
  destruct (commit_no_branch [Insert (demo_config 13)] p (<[main := demo_config 13]> ∅) (str "other")
    (fun parent _ => Load_ [demo_object 104] parent (demo_msg 14)) Hq Hj ltac:(done) eq_refl eq_refl) as (p' & H1 & H2).
  exists p, p'. split; [exact H1|exact H2].
Defined.
