(* ===== verification/Heap.v ===== *)
(** * Binary heaps

    The package [container/heap] of the standard library over a slice, as
    [src/runtime/sam/op/merge/merge.go] uses it.  The comparison of elements may
    fail or panic, so the operations run in the monad of outcomes. *)

From S2P Require Import Prelude.

Section heap.
Context {A E : Type} (lt : A -> A -> outcome E bool).
Implicit Types h : list A.

Definition index h (i : nat) : outcome E A := match h !! i with Some x => Ok x | None => Panic end.
Definition Less h (i j : nat) : outcome E bool := x ← index h i; y ← index h j; lt x y.
Definition Swap h (i j : nat) : outcome E (list A) := x ← index h i; y ← index h j; Ok (<[i := y]> (<[j := x]> h)).

(** The loop of [up]; the index at least halves, so it is its own bound. *)
Fixpoint up_loop (fuel : nat) h (j : nat) : outcome E (list A) :=
  match fuel with
  | O => Ok h
  | S fuel =>
      let i := Nat.div2 (j - 1) in
      if decide (i = j) then Ok h
      else
        lt ← Less h j i;
        if negb lt then Ok h else h ← Swap h i j; up_loop fuel h i
  end.
Definition up h (j : nat) : outcome E (list A) := up_loop (S j) h j.

(** The loop of [down]; the index grows below [n]. *)
Fixpoint down_loop (fuel : nat) h (i n : nat) : outcome E (list A * nat) :=
  match fuel with
  | O => Ok (h, i)
  | S fuel =>
      let j1 := (2 * i + 1)%nat in
      if (n <=? j1)%nat then Ok (h, i)
      else
        right ← (if (j1 + 1 <? n)%nat then Less h (j1 + 1) j1 else Ok false);
        let j := if right : bool then (j1 + 1)%nat else j1 in
        lt ← Less h j i;
        if negb lt then Ok (h, i) else h ← Swap h i j; down_loop fuel h j n
  end.
Definition down h (i0 n : nat) : outcome E (list A * bool) :=
  '(h, i) ← down_loop (S n) h i0 n; Ok (h, (i0 <? i)%nat).

(** The loop of [Init], [i] counting what is left to do. *)
Fixpoint Init_loop h (i : nat) : outcome E (list A) :=
  match i with
  | O => Ok h
  | S i => '(h, _) ← down h i (length h); Init_loop h i
  end.
Definition Init h : outcome E (list A) := Init_loop h (Nat.div2 (length h)).

Definition Push h (x : A) : outcome E (list A) := up (h ++ [x]) (length h).

Definition Pop h : outcome E (A * list A) :=
  let n := (length h - 1)%nat in
  h ← Swap h 0 n;
  '(h, _) ← down h 0 n;
  x ← index h n;
  Ok (x, take n h).

Definition Fix h (i : nat) : outcome E (list A) :=
  '(h', moved) ← down h i (length h);
  if moved : bool then Ok h' else up h' i.
End heap.

(** ** The contract

    What a comparison promises on the elements that satisfy [P]: it returns,
    and its answer follows a transitive relation. *)
Class LessSpec {A E} (lt : A -> A -> outcome E bool) (P : A -> Prop) (le : A -> A -> Prop) : Prop := {
  less_total x y : P x -> P y -> lt x y = Ok true /\ le x y \/ lt x y = Ok false /\ le y x;
  le_trans x y z : P x -> P y -> P z -> le x y -> le y z -> le x z }.

Section specs.
Context {A E : Type} {lt : A -> A -> outcome E bool} {P : A -> Prop} {le : A -> A -> Prop} `{HL : !LessSpec lt P le}.
Implicit Types h : list A.

Definition par (k : nat) : nat := Nat.div2 (k - 1).

(** Of the edge from [k] to its parent. *)
Definition edge h (k : nat) : Prop := forall x y, h !! k = Some x -> h !! par k = Some y -> le y x.
Definition is_heap h : Prop := forall k, (0 < k < length h)%nat -> edge h k.

Lemma par_lt k : (0 < k)%nat -> (par k < k)%nat.
Proof. unfold par. intros. pose proof (Nat.div2_div (k - 1)). pose proof (Nat.Div0.div_le_upper_bound (k - 1) 2 (k - 1)). lia. Qed.

Lemma par_child i k : (0 < k)%nat -> par k = i <-> (k = 2 * i + 1 \/ k = 2 * i + 2)%nat.
Proof. unfold par. intros. rewrite Nat.div2_div. pose proof (Nat.div_mod_eq (k - 1) 2). pose proof (Nat.mod_upper_bound (k - 1) 2). lia. Qed.

Lemma le_refl x : P x -> le x x.
Proof. intros Hx. by destruct (less_total x x Hx Hx) as [[_ ?]|[_ ?]]. Qed.

Lemma Less_spec h i j x y :
  P x -> P y -> h !! i = Some x -> h !! j = Some y ->
  Less lt h i j = Ok true /\ le x y \/ Less lt h i j = Ok false /\ le y x.
Proof.
  intros Px Py Hi Hj. unfold Less, index. rewrite Hi, Hj. cbn [mbind outcome_bind obind]. by apply less_total.
Qed.

Lemma Swap_spec h i j x y :
  h !! i = Some x -> h !! j = Some y -> i <> j ->
  exists h', Swap (E := E) h i j = Ok h' /\ h' ≡ₚ h /\ length h' = length h /\
    h' !! i = Some y /\ h' !! j = Some x /\ forall k, k <> i -> k <> j -> h' !! k = h !! k.
Proof.
  intros Hi Hj Hne. unfold Swap, index. rewrite Hi, Hj. cbn [mbind outcome_bind obind]. eexists. split; [done|].
  pose proof (lookup_lt_Some _ _ _ Hi). pose proof (lookup_lt_Some _ _ _ Hj). split_and!.
  - by apply Permutation_insert_swap.
  - by rewrite !length_insert.
  - rewrite list_lookup_insert_eq; [done|]. by rewrite length_insert.
  - rewrite list_lookup_insert_ne by done. by rewrite list_lookup_insert_eq.
  - intros k ??. by rewrite !list_lookup_insert_ne.
Qed.
(** [up] from [j] repairs the edge above [j]. *)
Lemma up_spec : forall fuel h j,
  Forall P h -> (j < length h)%nat -> (j < fuel)%nat ->
  (forall k, (0 < k < length h)%nat -> k <> j -> edge h k) ->
  (forall k x z, (0 < j)%nat -> (0 < k)%nat -> par k = j -> h !! k = Some x -> h !! par j = Some z -> le z x) ->
  exists h', up_loop lt fuel h j = Ok h' /\ h' ≡ₚ h /\ is_heap h'.
Proof.
  induction fuel as [|fuel IH]; [lia|]. intros h j HP Hj Hf He Hc. cbn [up_loop]. fold (par j).
  destruct (decide (par j = j)) as [E0|Hpj].
  { exists h. split_and!; [done..|]. intros k Hk. destruct (decide (k = j)) as [->|]; [|auto].
    pose proof (par_lt j). lia. }
  assert (Hj0 : (0 < j)%nat) by (destruct j; [done|lia]). pose proof (par_lt j Hj0) as Hlt.
  destruct (lookup_lt_is_Some_2 h j Hj) as [x Hx]. destruct (lookup_lt_is_Some_2 h (par j) ltac:(lia)) as [y Hy].
  pose proof (Forall_lookup_1 _ _ _ _ HP Hx) as Px. pose proof (Forall_lookup_1 _ _ _ _ HP Hy) as Py.
  destruct (Less_spec h j (par j) x y Px Py Hx Hy) as [[-> Hle]|[-> Hle]]; cbn [mbind outcome_bind obind negb].
  2: { exists h. split_and!; [done..|]. intros k Hk. destruct (decide (k = j)) as [->|]; [|auto]. intros ????. by simplify_eq. }
  destruct (Swap_spec h (par j) j y x Hy Hx Hpj) as (h1 & -> & Hp & Hl & H1 & H2 & H3).
  cbn [mbind outcome_bind obind].
  destruct (IH h1 (par j)) as (h' & Hup & Hp' & Hh'); [by rewrite Hp|lia|lia| | |].
  - intros k Hk Hkp a b Ha Hb. destruct (decide (k = j)) as [->|Hkj].
    { by simplify_eq. }
    rewrite H3 in Ha by done. destruct (decide (par k = par j)) as [Ep|Hne1].
    { rewrite Ep in Hb. simplify_eq. apply (le_trans x y a); auto; [by eapply Forall_lookup_1|].
      apply (He k); [lia|done|done|by rewrite Ep]. }
    destruct (decide (par k = j)) as [Ep|Hne2].
    { rewrite Ep in Hb. simplify_eq. apply (Hc k); auto; lia. }
    rewrite H3 in Hb by done. apply (He k); auto; lia.
  - intros k a b Hp0 Hk0 Ek Ha Hb. pose proof (par_lt (par j) Hp0). rewrite (H3 (par (par j))) in Hb by lia.
    assert (Hyb : le b y) by (apply (He (par j)); [lia|done..]).
    pose proof (Forall_lookup_1 _ _ _ _ HP Hb) as Pb.
    destruct (decide (k = j)) as [->|Hkj]; [by simplify_eq|].
    rewrite H3 in Ha by (done || (intros ->; pose proof (par_lt (par j)); lia)).
    apply (le_trans b y a); auto; [by eapply Forall_lookup_1|].
    apply (He k); auto; [|by rewrite Ek]. split; [done|]. by eapply lookup_lt_Some.
  - exists h'. split_and!; [done|by rewrite Hp'|done].
Qed.
(** The child [down] compares with. *)
Lemma larger_child h i n x :
  (forall k x, (k < n)%nat -> h !! k = Some x -> P x) -> (n <= length h)%nat -> (2 * i + 1 < n)%nat -> h !! i = Some x ->
  exists j y, (0 < j < n)%nat /\ par j = i /\ h !! j = Some y /\
    (right ← (if (2 * i + 1 + 1 <? n)%nat then Less lt h (2 * i + 1 + 1) (2 * i + 1) else Ok false);
     Ok (if right : bool then (2 * i + 1 + 1)%nat else (2 * i + 1)%nat)) = Ok j /\
    forall k z, (0 < k < n)%nat -> par k = i -> h !! k = Some z -> le y z.
Proof.
  intros HP Hn Hi Hx. destruct (lookup_lt_is_Some_2 h (2 * i + 1) ltac:(lia)) as [y1 Hy1].
  pose proof (HP _ _ Hi Hy1) as P1.
  destruct (Nat.ltb_spec (2 * i + 1 + 1) n) as [H2|H2].
  - destruct (lookup_lt_is_Some_2 h (2 * i + 1 + 1) ltac:(lia)) as [y2 Hy2].
    pose proof (HP _ _ H2 Hy2) as P2.
    destruct (Less_spec h _ _ y2 y1 P2 P1 Hy2 Hy1) as [[-> Hle]|[-> Hle]]; cbn [mbind outcome_bind obind].
    + exists (2 * i + 1 + 1)%nat, y2. split_and!; [lia|lia|apply par_child; lia|done|done|].
      intros k z Hk Ek Hz. apply par_child in Ek as [-> | ->]; [| |lia].
      { by simplify_eq. }
      replace (2 * i + 2)%nat with (2 * i + 1 + 1)%nat in Hz by lia. simplify_eq. by apply le_refl.
    + exists (2 * i + 1)%nat, y1. split_and!; [lia|lia|apply par_child; lia|done|done|].
      intros k z Hk Ek Hz. apply par_child in Ek as [-> | ->]; [| |lia].
      { simplify_eq. by apply le_refl. }
      replace (2 * i + 2)%nat with (2 * i + 1 + 1)%nat in Hz by lia. by simplify_eq.
  - cbn [mbind outcome_bind obind]. exists (2 * i + 1)%nat, y1. split_and!; [lia|lia|apply par_child; lia|done|done|].
    intros k z Hk Ek Hz. apply par_child in Ek as [-> | ->]; [|lia|lia]. simplify_eq. by apply le_refl.
Qed.

(** The edges of the first [n] elements below those from [s] on. *)
Definition heap_from h (s n : nat) : Prop := forall k, (0 < k < n)%nat -> (s <= par k)%nat -> edge h k.

(** [down] from [i] repairs the edges below [i]. *)
Lemma down_loop_spec (s n : nat) : forall fuel h i,
  (forall k x, (k < n)%nat -> h !! k = Some x -> P x) -> (n <= length h)%nat -> (s <= i)%nat -> (i < length h)%nat -> (n < i + fuel)%nat ->
  (forall k, (0 < k < n)%nat -> (s <= par k)%nat -> par k <> i -> edge h k) ->
  (forall k x z, i <> s -> (0 < k < n)%nat -> par k = i -> h !! k = Some x -> h !! par i = Some z -> le z x) ->
  exists h' i', down_loop lt fuel h i n = Ok (h', i') /\ h' ≡ₚ h /\ (forall k, (n <= k)%nat -> k <> i -> h' !! k = h !! k) /\
    heap_from h' s n /\ (i <= i')%nat /\ (i' = i -> h' = h).
Proof.
  induction fuel as [|fuel IH]; intros h i HP Hn Hsi Hil Hf He Hc; cbn [down_loop].
  { exists h, i. split_and!; try done. intros k Hk Hs. apply He; try done. pose proof (par_lt k). lia. }
  destruct (Nat.leb_spec n (2 * i + 1)) as [Hend|Hin].
  { exists h, i. split_and!; try done. intros k Hk Hs. apply He; try done.
    intros E1. apply par_child in E1; lia. }
  destruct (lookup_lt_is_Some_2 h i Hil) as [x Hx].
  destruct (larger_child h i n x HP Hn Hin Hx) as (j & y & Hj & Ej & Hy & Hright & Hmin).
  destruct (if (2 * i + 1 + 1 <? n)%nat then _ else _) as [r|e|]; [|done|done].
  cbn [mbind outcome_bind obind] in *.
  assert (Er : (if r then (2 * i + 1 + 1)%nat else (2 * i + 1)%nat) = j) by congruence. rewrite Er. clear Hright Er.
  pose proof (HP i x ltac:(lia) Hx) as Px. pose proof (HP j y ltac:(lia) Hy) as Py.
  destruct (Less_spec h j i y x Py Px Hy Hx) as [[-> Hle]|[-> Hle]]; cbn [mbind outcome_bind obind negb].
  2: { exists h, i. split_and!; try done. intros k Hk Hs. destruct (decide (par k = i)) as [Ek|]; [|auto].
    intros a b Ha Hb. rewrite Ek in Hb. simplify_eq. apply (le_trans x y a); auto; [by apply (HP k); [lia|]|]. by apply (Hmin k). }
  pose proof (par_lt j ltac:(lia)) as Hlt. rewrite Ej in Hlt.
  destruct (Swap_spec h i j x y Hx Hy ltac:(lia)) as (h1 & -> & Hp & Hl & H1 & H2 & H3). cbn [mbind outcome_bind obind].
  destruct (IH h1 j) as (h' & i' & Hd & Hp' & Hk' & Hh' & Hi' & _); [|lia..| | |].
  { intros k a Hk Ha. destruct (decide (k = i)) as [->|Hni]; [by simplify_eq|]. destruct (decide (k = j)) as [->|Hnj]; [by simplify_eq|].
    rewrite H3 in Ha by done. by apply (HP k). }
  - intros k Hk Hs Hkj a b Ha Hb. destruct (decide (k = j)) as [->|Hne].
    { rewrite Ej in Hb. by simplify_eq. }
    destruct (decide (k = i)) as [->|Hni].
    { rewrite H1 in Ha. injection Ha as <-. pose proof (par_lt i ltac:(lia)). rewrite H3 in Hb by lia.
      apply (Hc j); auto; lia. }
    rewrite H3 in Ha by done. destruct (decide (par k = i)) as [Ek|Hnk].
    { rewrite Ek in Hb. simplify_eq. by apply (Hmin k). }
    rewrite H3 in Hb by done. apply (He k); auto.
  - intros k a b _ Hk Ek Ha Hb. rewrite Ej, H1 in Hb. injection Hb as <-. pose proof (par_lt k ltac:(lia)).
    rewrite H3 in Ha by lia. apply (He k); [lia..|done|by rewrite Ek].
  - exists h', i'. split_and!; [done|by rewrite Hp'| |done|lia|lia].
    intros k Hk Hki. rewrite Hk' by lia. apply H3; lia.
Qed.

Lemma down_spec h i n :
  (forall k x, (k < n)%nat -> h !! k = Some x -> P x) -> (n <= length h)%nat -> (i < length h)%nat ->
  (forall k, (0 < k < n)%nat -> (i < par k)%nat -> edge h k) ->
  exists h' moved, down lt h i n = Ok (h', moved) /\ h' ≡ₚ h /\ (forall k, (n <= k)%nat -> k <> i -> h' !! k = h !! k) /\
    heap_from h' i n /\ (moved = false -> h' = h).
Proof.
  intros HP Hn Hi He. unfold down. destruct (down_loop_spec i n (S n) h i) as (h' & i' & -> & ? & ? & ? & ? & Hsame); try done; try lia.
  { intros k Hk Hs Hki. apply He; [done|lia]. }
  exists h', (i <? i')%nat. split_and!; try done. intros Hm%Nat.ltb_ge. apply Hsame. lia.
Qed.

(** ** The operations *)

Lemma heap_from_0 h : heap_from h 0 (length h) <-> is_heap h.
Proof. unfold heap_from, is_heap. split; intros H k Hk; auto with lia. Qed.

Lemma Init_spec h : Forall P h -> exists h', Init lt h = Ok h' /\ h' ≡ₚ h /\ is_heap h'.
Proof.
  unfold Init. intros HP.
  assert (Hgo : forall i h1, h1 ≡ₚ h -> (i <= length h)%nat -> heap_from h1 i (length h1) ->
    exists h', Init_loop lt h1 i = Ok h' /\ h' ≡ₚ h /\ is_heap h').
  { induction i as [|i IH]; intros h1 Hp Hi Hh; cbn [Init_loop].
    { exists h1. split_and!; [done..|]. by apply heap_from_0. }
    pose proof (Permutation_length Hp) as Hl.
    destruct (down_spec h1 i (length h1)) as (h2 & m & -> & Hp2 & _ & Hh2 & _); [|lia|lia| |].
    { intros k x _ Hx. rewrite <- Hp in HP. by eapply Forall_lookup_1. }
    { intros k Hk Hs. apply Hh; [done|lia]. }
    cbn [mbind outcome_bind obind]. apply IH; [by rewrite Hp2|lia|]. by rewrite (Permutation_length Hp2). }
  pose proof (Nat.div2_div (length h)). pose proof (Nat.div_mod_eq (length h) 2). pose proof (Nat.mod_upper_bound (length h) 2).
  apply Hgo; [done|lia|]. intros k Hk Hs. destruct (decide (par k = Nat.div2 (length h))) as [E1|]; [apply par_child in E1; lia|].
  exfalso. unfold par in *. rewrite !Nat.div2_div in *. pose proof (Nat.Div0.div_le_mono (k - 1) (length h) 2). lia.
Qed.

Lemma Push_spec h x : Forall P h -> P x -> is_heap h -> exists h', Push lt h x = Ok h' /\ h' ≡ₚ x :: h /\ is_heap h'.
Proof.
  intros HP Px Hh. unfold Push, up. destruct (up_spec (S (length h)) (h ++ [x]) (length h)) as (h' & -> & Hp & Hh').
  - apply Forall_app. split; [done|by apply Forall_singleton].
  - rewrite length_app. cbn. lia.
  - lia.
  - rewrite length_app. cbn [length]. intros k Hk Hne a b Ha Hb. pose proof (par_lt k ltac:(lia)).
    rewrite lookup_app_l in Ha, Hb by lia. apply (Hh k); auto; lia.
  - intros k a b _ Hk Ek Ha _. pose proof (par_lt k Hk). apply lookup_lt_Some in Ha. rewrite length_app in Ha. cbn in Ha. lia.
  - exists h'. split_and!; [done| |done]. rewrite Hp. by rewrite Permutation_app_comm.
Qed.

(** The first element is least. *)
Lemma heap_min h x y : Forall P h -> is_heap h -> h !! 0%nat = Some x -> y ∈ h -> le x y.
Proof.
  intros HP Hh Hx Hy. apply list_elem_of_lookup in Hy as [k Hk]. revert y Hk.
  induction k as [k IH] using lt_wf_ind. intros y Hk. destruct (decide (k = 0)%nat) as [->|Hne].
  { simplify_eq. apply le_refl. by eapply Forall_lookup_1. }
  pose proof (par_lt k ltac:(lia)) as Hlt. pose proof (lookup_lt_Some _ _ _ Hk).
  destruct (lookup_lt_is_Some_2 h (par k) ltac:(lia)) as [z Hz].
  apply (le_trans x z y); [by eapply Forall_lookup_1..|by apply (IH (par k))|by apply (Hh k); [lia|..]].
Qed.

Lemma heap_take h n : is_heap h -> is_heap (take n h).
Proof.
  intros Hh k Hk x y Hx Hy. rewrite length_take in Hk. pose proof (par_lt k ltac:(lia)).
  rewrite lookup_take_lt in Hx, Hy by lia. apply (Hh k); auto; lia.
Qed.

(** The first element is not compared. *)
Lemma Pop_spec x h :
  Forall P h -> (forall k, (0 < k <= length h)%nat -> (0 < par k)%nat -> edge (x :: h) k) -> exists h', Pop lt (x :: h) = Ok (x, h') /\ h' ≡ₚ h /\ is_heap h'.
Proof.
  intros HP Hh. unfold Pop. cbn [length]. replace (S (length h) - 1)%nat with (length h) by lia. set (n := length h).
  assert (Hswap : exists h1, Swap (E := E) (x :: h) 0 n = Ok h1 /\ h1 ≡ₚ x :: h /\ length h1 = S n /\ h1 !! n = Some x /\
    forall k, (0 < k < n)%nat -> h1 !! k = (x :: h) !! k).
  { destruct (lookup_lt_is_Some_2 (x :: h) n) as [y Hy]; [cbn; lia|].
    destruct (decide (0%nat = n)) as [E0|Hne].
    - destruct h; [|done]. cbn in n. subst n. exists [x]. by split_and!.
    - destruct (Swap_spec (x :: h) 0 n x y eq_refl Hy Hne) as (h1 & H1 & Hp & Hl & _ & Hn & Hk).
      exists h1. split_and!; try done. intros k ?. apply Hk; lia. }
  destruct Hswap as (h1 & -> & Hp1 & Hl1 & Hn1 & Hk1). cbn [mbind outcome_bind obind].
  destruct (down_spec h1 0 n) as (h2 & m & -> & Hp2 & Hn2 & Hh2 & Hm); [|lia|lia| |].
  { intros k a Hk Ha. destruct (decide (k = 0)%nat) as [->|Hne]; [|rewrite Hk1 in Ha by lia; destruct k; [done|by eapply Forall_lookup_1]].
    assert (Hp3 : h ≡ₚ take n h1).
    { apply (Permutation_cons_inv (a := x)). rewrite <- Hp1, Permutation_cons_append, <- (take_S_r _ _ _ Hn1), firstn_all2 by lia. done. }
    rewrite Hp3 in HP. apply (Forall_lookup_1 _ _ 0%nat _ HP). by rewrite lookup_take_lt by lia. }
  { intros k Hk Hs a b Ha Hb. pose proof (par_lt k ltac:(lia)). rewrite Hk1 in Ha, Hb by lia. apply (Hh k); auto. lia. }
  assert (Hx2 : h2 !! n = Some x).
  { destruct (decide (n = 0)%nat) as [E0|Hne]; [|by rewrite Hn2 by lia].
    destruct h; [|done]. apply Permutation_singleton_r in Hp1. rewrite Hp1 in Hp2. apply Permutation_singleton_r in Hp2. subst h2. by rewrite E0. }
  cbn [mbind outcome_bind obind]. unfold index. rewrite Hx2. cbn [mbind outcome_bind obind].
  pose proof (Permutation_length Hp2) as Hl2.
  exists (take n h2). split_and!; [done| |].
  - apply (Permutation_cons_inv (a := x)). rewrite <- Hp1, <- Hp2, Permutation_cons_append.
    rewrite <- (take_S_r _ _ _ Hx2), firstn_all2 by lia. done.
  - intros k Hk a b Ha Hb. rewrite length_take in Hk. pose proof (par_lt k ltac:(lia)).
    rewrite lookup_take_lt in Ha, Hb by lia. apply (Hh2 k); auto; lia.
Qed.

(** [Fix] of the first element. *)
Lemma Fix_spec h : Forall P h -> h <> [] -> (forall k, (0 < k < length h)%nat -> (0 < par k)%nat -> edge h k) ->
  exists h', Fix lt h 0 = Ok h' /\ h' ≡ₚ h /\ is_heap h'.
Proof.
  intros HP Hne He. unfold Fix. destruct (down_spec h 0 (length h)) as (h' & m & -> & Hp & _ & Hh & _).
  { intros k x _ Hx. by eapply Forall_lookup_1. }
  { done. }
  { destruct h; [done|cbn; lia]. }
  { done. }
  cbn [mbind outcome_bind obind]. rewrite <- (Permutation_length Hp) in Hh. apply heap_from_0 in Hh. exists h'.
  destruct m; [done|]. by split_and!.
Qed.
End specs.
