(* ===== verification/Merge.v ===== *)
(** * The merge operator

    [src/runtime/sam/op/merge/merge.go] with the batches of
    [src/zbuf/batch.go]: an operator that merges the batches of several upstream
    pullers in the order of a comparison, through a heap of the pullers that have
    values at hand.

    The goroutine of a puller hands one result after the other to the operator
    and is told to abandon the current stream, so a puller is the sequence of
    the results its upstream gives.  Reference counts and the reuse of memory
    are left out. *)

From S2P Require Import Prelude Zcode Types Primitive Values Heap.
Local Open Scope Z_scope.

Section merge.
Context {E : Type} (to32 to16 : Z -> Z) (cmp : Value -> Value -> outcome E Z).

(** What the upstream answers to a pull: a batch, the end of the stream or an
    error.  Past the last result every pull ends the stream. *)
Inductive result :=
| Batch (vals : list Value)
| EOS
| Failed (e : E).

Record puller := mkPuller { results : list result; batch : option (list Value); vals : list Value; blocked : bool }.
Definition newPuller (rs : list result) : puller := mkPuller rs None [] false.

Definition replenish (p : puller) : outcome E bool * puller :=
  match results p with
  | Failed e :: rs => (Err e, mkPuller rs (batch p) (vals p) (blocked p))
  | Batch vs :: rs => (Ok true, mkPuller rs (Some vs) vs (blocked p))
  | EOS :: rs => (Ok false, mkPuller rs None (vals p) true)
  | [] => (Ok false, mkPuller [] None (vals p) true)
  end.

(** What an upstream that is told to abandon its stream goes on with. *)
Fixpoint skip_stream (rs : list result) : list result :=
  match rs with
  | [] => []
  | EOS :: rs => rs
  | _ :: rs => skip_stream rs
  end.
(** The goroutine's answer to [doneCh]: the result that it holds is dropped,
    whatever it is, and the upstream is told to abandon its stream, which is the
    next one when that result was the end of the current one. *)
Definition finish (rs : list result) : list result := skip_stream (tl rs).

(** [hol] holds pointers into [parents]; [once] tells whether [run] was called. *)
Record Op := mkOp { parents : list puller; hol : list nat; once : bool }.
Definition New (ps : list (list result)) : Op := mkOp (map newPuller ps) [] false.

Definition head_val (ps : list puller) (i : nat) : outcome E Value :=
  match ps !! i with
  | Some p => match vals p with v :: _ => Ok v | [] => Panic end
  | None => Panic
  end.

(** [Op.Less] on two pointers. *)
Definition Op_Less (ps : list puller) (i j : nat) : outcome E bool :=
  v ← head_val ps i; w ← head_val ps j; c ← cmp v w; Ok (c <? 0).

Definition set_parent (i : nat) (p : puller) (o : Op) : Op := mkOp (<[i := p]> (parents o)) (hol o) (once o).
Definition set_hol (h : list nat) (o : Op) : Op := mkOp (parents o) h (once o).

Definition parent_at (i : nat) : stm Op E puller := fun o =>
  match parents o !! i with Some p => (Ok p, o) | None => (Panic, o) end.

(** A function of [container/heap] on the operator. *)
Definition on_heap {A} (f : (nat -> nat -> outcome E bool) -> list nat -> outcome E (A * list nat)) : stm Op E A := fun o =>
  match f (Op_Less (parents o)) (hol o) with
  | Ok (a, h) => (Ok a, set_hol h o)
  | Err e => (Err e, o)
  | Panic => (Panic, o)
  end.
Definition unit_of (m : outcome E (list nat)) : outcome E (unit * list nat) := h ← m; Ok (tt, h).
Definition heap_Push (i : nat) : stm Op E unit := on_heap (fun lt h => unit_of (Heap.Push lt h i)).
Definition heap_Pop : stm Op E nat := on_heap Heap.Pop.
Definition heap_Fix (i : nat) : stm Op E unit := on_heap (fun lt h => unit_of (Heap.Fix lt h i)).
Definition heap_Init : stm Op E unit := on_heap (fun lt h => unit_of (Heap.Init lt h)).

Definition replenish_at (i : nat) : stm Op E bool :=
  p ← parent_at i;
  let '(ok, p) := replenish p in
  modify (set_parent i p);; lift_out ok.

Fixpoint start_loop (idx : list nat) : stm Op E unit :=
  match idx with
  | [] => mret tt
  | i :: idx =>
      p ← parent_at i;
      modify (set_parent i (mkPuller (results p) (batch p) (vals p) false));;
      ok ← replenish_at i;
      (if ok : bool then heap_Push i else mret tt);;
      start_loop idx
  end.
Definition start : stm Op E unit :=
  modify (set_hol []);;
  o ← get;
  start_loop (seq 0 (length (parents o)));;
  heap_Init.

Definition Read : stm Op E (option Value) :=
  o ← get;
  match hol o with
  | [] => mret None
  | u :: _ =>
      p ← parent_at u;
      match vals p with
      | [] => fault
      | val :: vs =>
          modify (set_parent u (mkPuller (results p) (batch p) vs (blocked p)));;
          match vs with
          | [] =>
              ok ← replenish_at u;
              if ok : bool then heap_Fix 0;; mret (Some val) else heap_Pop;; mret (Some val)
          | _ :: _ => heap_Fix 0;; mret (Some val)
          end
      end
  end.

(** ** Batches of values read one by one *)

Definition PullerBatchBytes : Z := 512 * 1024.
Definition PullerBatchValues : nat := 100.

(** [appendVal]: the bytes in use and whether the batch is full, [n] being the
    values that fit. *)
Definition appendVal (val : Value) (used : Z) (n : nat) : outcome E (Z * bool) :=
  b ← omap_err (fun e : Empty_set => match e with end) (Value_Bytes to32 to16 val);
  let '(used, full) :=
    match b with
    | None => (used, false)
    | Some b => if zlen b <=? PullerBatchBytes - used then (used + zlen b, PullerBatchBytes - used =? zlen b) else (used, true)
    end in
  Ok (used, full || (n =? 1)%nat).

(** The loop of [puller.Pull] on a new puller: it ends when the values that fit
    are there. *)
Fixpoint read_batch (n : nat) (used : Z) : stm Op E (list Value) :=
  match n with
  | O => mret []
  | S n' =>
      val ← Read;
      match val with
      | None => mret []
      | Some val =>
          '(used, full) ← lift_out (appendVal val used n);
          if full : bool then mret [val] else vs ← read_batch n' used; mret (val :: vs)
      end
  end.
Definition reader_Pull : stm Op E (option (list Value)) :=
  vs ← read_batch PullerBatchValues 0; mret (match vs with [] => None | _ => Some vs end).

(** ** Pulling *)

Fixpoint done_loop (idx : list nat) : stm Op E unit :=
  match idx with
  | [] => mret tt
  | m :: idx =>
      p ← parent_at m;
      modify (fun o => set_hol (removelast (hol o)) (set_parent m (mkPuller (finish (results p)) None (vals p) (blocked p)) o));;
      done_loop idx
  end.
(** The pullers are taken from the end of the slice. *)
Definition propagateDone : stm Op E unit := o ← get; done_loop (rev (hol o));; start.

(** [min] and the next head decide whether the rest of the batch of [min] comes
    first. *)
Definition whole_batch (m : puller) (o : Op) : outcome E bool :=
  match hol o with
  | [] => Ok true
  | i :: _ =>
      match last (vals m) with
      | None => Panic
      | Some v => w ← head_val (parents o) i; c ← cmp v w; Ok (c <=? 0)
      end
  end.

Definition Pull (done : bool) : stm Op E (option (list Value)) :=
  o ← get;
  (if once o then mret tt else modify (fun o => mkOp (parents o) (hol o) true);; start);;
  if done then propagateDone;; mret None
  else
    o ← get;
    if decide (hol o = []) then start;; mret None
    else
      m ← heap_Pop;
      min ← parent_at m;
      o ← get;
      whole ← lift_out (whole_batch min o);
      if whole : bool then
        let b := default [] (batch min) in
        let b := if (length (vals min) <? length b)%nat then vals min else b in
        ok ← replenish_at m;
        (if ok : bool then heap_Push m else mret tt);;
        mret (Some b)
      else heap_Push m;; reader_Pull.

(** Pulling until the end of the stream, within [fuel] pulls. *)
Fixpoint pull_all (fuel : nat) : stm Op E (option (list (list Value))) :=
  match fuel with
  | O => mret None
  | S fuel =>
      b ← Pull false;
      match b with
      | None => mret (Some [])
      | Some b => bs ← pull_all fuel; mret (fmap (M := option) (cons b) bs)
      end
  end.
End merge.
Arguments result : clear implicits.
Arguments puller : clear implicits.
Arguments Op : clear implicits.
