(* ===== verification/MergeProofs.v ===== *)
(** * The merge operator: the heap of pullers *)

From S2P Require Import Prelude Zcode Types Primitive Values Heap Merge.
Local Open Scope Z_scope.

(** What the comparison and the values promise: on good values the comparison
    returns what the total preorder [c] says, and a value has its bytes. *)
Class MergeOrder {E} (to32 to16 : Z -> Z) (cmp : Value -> Value -> outcome E Z) (c : Value -> Value -> Z) (good : Value -> Prop) : Prop := {
  mo_cmp v w : good v -> good w -> cmp v w = Ok (c v w);
  mo_antisym v w : c w v = - c v w;
  mo_trans u v w : c u v <= 0 -> c v w <= 0 -> c u w <= 0;
  mo_bytes v : good v -> exists b, Value_Bytes to32 to16 v = Ok b }.

Section proofs.
Context {E : Type} {to32 to16 : Z -> Z} {cmp : Value -> Value -> outcome E Z} {c : Value -> Value -> Z} {good : Value -> Prop}
  `{MO : !MergeOrder to32 to16 cmp c good}.
Local Abbreviation puller := (puller E).
Local Abbreviation result := (result E).
Implicit Types (ps : list puller) (p : puller) (h : list nat) (s : list Value) (t : list result) (ss : list (list Value)) (ts : list (list result)).

Definition le_c (v w : Value) : Prop := c v w <= 0.
Definition ascending (s : list Value) : Prop := StronglySorted le_c s /\ Forall good s.

Lemma c_antisym v w : c w v = - c v w.
Proof. apply (mo_antisym (MergeOrder := MO)). Qed.

Lemma c_trans u v w : c u v <= 0 -> c v w <= 0 -> c u w <= 0.
Proof. apply (mo_trans (MergeOrder := MO)). Qed.

Lemma le_c_total v w : le_c v w \/ le_c w v.
Proof. unfold le_c. rewrite (c_antisym v w). lia. Qed.

Lemma ascending_app b s : ascending (b ++ s) -> ascending b /\ ascending s.
Proof.
  intros [Hs Hg]. apply Forall_app in Hg as [? ?]. apply StronglySorted_app in Hs as (_ & ? & ?). done.
Qed.

(** ** Pullers in the heap *)

Definition head_good ps (i : nat) : Prop := exists v, head_val (E := E) ps i = Ok v /\ good v.
Definition head_le ps (i j : nat) : Prop := forall v w, head_val (E := E) ps i = Ok v -> head_val (E := E) ps j = Ok w -> le_c v w.

#[export] Instance Op_Less_spec ps : LessSpec (Op_Less cmp ps) (head_good ps) (head_le ps).
Proof.
  split.
  - intros i j (v & Hv & Gv) (w & Hw & Gw). unfold Op_Less. rewrite Hv, Hw. cbn [mbind outcome_bind obind].
    rewrite (mo_cmp (MergeOrder := MO) v w) by done. cbn [mbind outcome_bind obind]. unfold head_le, le_c.
    destruct (Z.ltb_spec (c v w) 0); [left|right]; (split; [done|]).
    + intros v' w' Hv' Hw'. replace v' with v by congruence. replace w' with w by congruence. lia.
    + intros w' v' Hw' Hv'. replace v' with v by congruence. replace w' with w by congruence. rewrite (c_antisym v w). lia.
  - intros i j k (v & Hv & Gv) (w & Hw & Gw) (x & Hx & Gx) H1 H2 v' x' Hv' Hx'.
    apply (c_trans _ w); [by apply H1|by apply H2].
Qed.

Lemma head_val_insert ps u p i : i <> u -> head_val (E := E) (<[u := p]> ps) i = head_val ps i.
Proof. intros ?. unfold head_val. by rewrite list_lookup_insert_ne. Qed.

Lemma edge_insert ps u p h k :
  (forall i, h !! k = Some i -> i <> u) -> (forall i, h !! par k = Some i -> i <> u) ->
  edge (le := head_le ps) h k -> edge (le := head_le (<[u := p]> ps)) h k.
Proof.
  intros H1 H2 He x y Hx Hy v w. rewrite !head_val_insert by eauto. by apply He.
Qed.

Lemma is_heap_insert ps u p h : u ∉ h -> is_heap (le := head_le ps) h -> is_heap (le := head_le (<[u := p]> ps)) h.
Proof.
  intros Hu Hh k Hk. apply edge_insert; [intros i Hi ->; apply Hu; by eapply list_elem_of_lookup_2..|by apply Hh].
Qed.

Lemma edges_insert_first ps u p h k :
  NoDup (u :: h) -> is_heap (le := head_le ps) (u :: h) -> (0 < k <= length h)%nat -> (0 < par k)%nat ->
  edge (le := head_le (<[u := p]> ps)) (u :: h) k.
Proof.
  intros Hnd Hh Hk Hp. apply edge_insert; [intros i Hi ->..|by apply Hh; cbn; lia].
  - pose proof (proj1 (NoDup_alt _) Hnd k 0%nat u Hi eq_refl). lia.
  - pose proof (proj1 (NoDup_alt _) Hnd (par k) 0%nat u Hi eq_refl). lia.
Qed.

(** ** What the pullers hold *)

(** The results [rs] end one stream and go on with [t]. *)
Inductive ended : list result -> list result -> Prop :=
| ended_eos t : ended (EOS :: t) t
| ended_source : ended [] [].

(** The results [rs] are the values [s] in batches, an end, and then [t]. *)
Definition stream (rs : list result) s t : Prop :=
  exists bss r, Forall (fun b => b <> []) bss /\ rs = map Batch bss ++ r /\ ended r t /\ s = concat bss.

(** A puller with values at hand, and one whose stream ended. *)
Definition feeding p s t : Prop :=
  exists pre s', vals p <> [] /\ batch p = Some (pre ++ vals p) /\ stream (results p) s' t /\ s = vals p ++ s'.
Definition finished p s t : Prop := s = [] /\ results p = t.

Definition holds (i : nat) h p s t : Prop := if decide (i ∈ h) then feeding p s t else finished p s t.

Record fed ps h ss ts : Prop := {
  fed_NoDup : NoDup h;
  fed_length : length ss = length ps;
  fed_length_ts : length ts = length ps;
  fed_in i : i ∈ h -> (i < length ps)%nat;
  fed_holds i p s t : ps !! i = Some p -> ss !! i = Some s -> ts !! i = Some t -> holds i h p s t;
  fed_ascending : Forall ascending ss }.

Lemma fed_perm ps h h' ss ts : h' ≡ₚ h -> fed ps h ss ts -> fed ps h' ss ts.
Proof.
  intros Hp [H1 H2 H3 H4 H5 H6]. split; try done.
  - by rewrite Hp.
  - intros i Hi. apply H4. by rewrite <- Hp.
  - intros i p s t ???. unfold holds. specialize (H5 i p s t). unfold holds in H5.
    destruct (decide (i ∈ h')) as [Hi|Hi]; rewrite Hp in Hi; destruct (decide (i ∈ h)); auto; done.
Qed.

Lemma fed_at ps h ss ts i : fed ps h ss ts -> i ∈ h ->
  exists p s t, ps !! i = Some p /\ ss !! i = Some s /\ ts !! i = Some t /\ feeding p s t /\ ascending s.
Proof.
  intros [H1 H2 H3 H4 H5 H6] Hi. pose proof (H4 i Hi).
  destruct (lookup_lt_is_Some_2 ps i) as [p Hp]; [lia|]. destruct (lookup_lt_is_Some_2 ss i) as [s Hs]; [lia|].
  destruct (lookup_lt_is_Some_2 ts i) as [t Ht]; [lia|]. exists p, s, t. split_and!; try done.
  - specialize (H5 i p s t Hp Hs Ht). unfold holds in H5. by rewrite decide_True in H5.
  - by eapply Forall_lookup_1.
Qed.

(** Replacing a puller. *)
Lemma fed_set ps h h' ss ts i p s t :
  fed ps h ss ts -> NoDup h' -> (i < length ps)%nat -> holds i h' p s t -> ascending s ->
  (forall j, j <> i -> j ∈ h' <-> j ∈ h) -> fed (<[i := p]> ps) h' (<[i := s]> ss) (<[i := t]> ts).
Proof.
  intros [H1 H2 H3 H4 H5 H6] Hnd Hi Hh Ha Hj. split; rewrite ?length_insert; try done.
  - intros j Hj'. destruct (decide (j = i)) as [->|Hne]; [done|]. apply H4. by apply Hj.
  - intros j q s' t' Hq Hs' Ht'. destruct (decide (j = i)) as [->|Hne].
    + rewrite list_lookup_insert_eq in Hq by lia. rewrite list_lookup_insert_eq in Hs' by lia.
      rewrite list_lookup_insert_eq in Ht' by lia. by simplify_eq.
    + rewrite list_lookup_insert_ne in Hq by done. rewrite list_lookup_insert_ne in Hs' by done.
      rewrite list_lookup_insert_ne in Ht' by done. specialize (H5 j q s' t' Hq Hs' Ht'). unfold holds in *.
      specialize (Hj j Hne). destruct (decide (j ∈ h')), (decide (j ∈ h)); tauto.
  - by apply Forall_insert.
Qed.

Lemma fed_insert ps h h' ss ts i p s t :
  fed ps h ss ts -> NoDup h' -> (i < length ps)%nat -> ts !! i = Some t -> holds i h' p s t -> ascending s ->
  (forall j, j <> i -> j ∈ h' <-> j ∈ h) -> fed (<[i := p]> ps) h' (<[i := s]> ss) ts.
Proof.
  intros Hf Hnd Hi Ht Hh Ha Hj. rewrite <- (list_insert_id ts i t Ht). by eapply fed_set.
Qed.

Lemma fed_empty ps ss ts : fed ps [] ss ts -> concat ss = [].
Proof.
  intros [H1 H2 H3 H4 H5 H6].
  assert (Hall : Forall (fun s => s = []) ss).
  { apply Forall_lookup. intros i s Hs. apply lookup_lt_Some in Hs as Hlt.
    destruct (lookup_lt_is_Some_2 ps i) as [p Hp]; [lia|]. destruct (lookup_lt_is_Some_2 ts i) as [t Ht]; [lia|].
    specialize (H5 i p s t Hp Hs Ht). unfold holds in H5. rewrite decide_False in H5 by apply not_elem_of_nil. apply H5. }
  clear -Hall. induction Hall as [|? ss -> _ IH]; [done|exact IH].
Qed.

Lemma feeding_head ps i p s t : ps !! i = Some p -> feeding p s t -> ascending s ->
  exists v s', head_val (E := E) ps i = Ok v /\ s = v :: s' /\ good v.
Proof.
  intros Hp (pre & s' & Hne & _ & _ & ->) [_ Hg]. unfold head_val. rewrite Hp.
  destruct (vals p) as [|v vs]; [done|]. inversion Hg; subst. by exists v, (vs ++ s').
Qed.

Lemma fed_good ps h ss ts : fed ps h ss ts -> Forall (head_good ps) h.
Proof.
  intros Hf. apply Forall_forall. intros i Hi. destruct (fed_at _ _ _ _ i Hf Hi) as (p & s & t & Hp & Hs & Ht & Hfe & Ha).
  destruct (feeding_head ps i p s t Hp Hfe Ha) as (v & s' & Hv & _ & Gv). by exists v.
Qed.

(** The first value of the first puller is least. *)
Lemma least ps h ss ts u v y :
  fed ps (u :: h) ss ts -> is_heap (le := head_le ps) (u :: h) -> head_val (E := E) ps u = Ok v -> y ∈ concat ss -> le_c v y.
Proof.
  intros Hf Hh Hv Hy. apply list_elem_of_In, in_concat in Hy as (s & Hs & Hy). apply list_elem_of_In in Hs, Hy.
  apply list_elem_of_lookup in Hs as [i Hs].
  assert (Hi : i ∈ u :: h).
  { pose proof Hf as [H1 H2 H3 H4 H5 H6]. apply lookup_lt_Some in Hs as Hlt.
    destruct (lookup_lt_is_Some_2 ps i) as [p Hp]; [lia|]. destruct (lookup_lt_is_Some_2 ts i) as [t Ht]; [lia|].
    specialize (H5 i p s t Hp Hs Ht). unfold holds in H5. destruct (decide (i ∈ u :: h)); [done|].
    destruct H5 as [-> _]. by apply elem_of_nil in Hy. }
  destruct (fed_at _ _ _ _ i Hf Hi) as (p & s0 & t & Hp & Hs0 & Ht & Hfe & Ha). simplify_eq.
  destruct (feeding_head ps i p s t Hp Hfe Ha) as (w & s' & Hw & -> & Gw).
  assert (Hle : le_c v w).
  { assert (head_le ps u i) as Hle; [|by apply Hle].
    apply (heap_min (lt := Op_Less cmp ps) (P := head_good ps) (u :: h)); [by eapply fed_good|done..]. }
  apply elem_of_cons in Hy as [->|Hy]; [done|].
  apply (c_trans _ w); [done|]. destruct Ha as [Ha _]. inversion Ha as [|?? _ Hall]; subst. rewrite Forall_forall in Hall. by apply Hall.
Qed.

Lemma concat_insert_perm {A} (l : list (list A)) i (b s : list A) :
  l !! i = Some (b ++ s) -> concat l ≡ₚ b ++ concat (<[i := s]> l).
Proof.
  revert i. induction l as [|x l IH]; intros [|i] H; try done; cbn in *.
  - injection H as ->. by rewrite app_assoc.
  - rewrite (IH i H). rewrite !app_assoc. by rewrite (Permutation_app_comm x b).
Qed.

(** ** Taking results *)

Lemma replenish_spec p s t :
  stream (results p) s t ->
  exists p', (replenish p = (Ok true, p') /\ vals p' <> [] /\ feeding p' s t \/
              replenish p = (Ok false, p') /\ finished p' s t).
Proof.
  intros (bss & r & Hne & Hr & He & ->). unfold replenish. destruct bss as [|b bss]; cbn in Hr; rewrite Hr.
  - destruct He; eexists; by right.
  - inversion Hne; subst. eexists. left. split_and!; [done|done|].
    exists [], (concat bss). split_and!; try done. by exists bss, r.
Qed.
(** The state between two calls. *)
Record ready (o : Op E) ss ts : Prop := {
  ready_fed : fed (parents o) (hol o) ss ts;
  ready_heap : is_heap (le := head_le (parents o)) (hol o);
  ready_once : once o = true }.

Lemma parent_at_spec i (o : Op E) p : parents o !! i = Some p -> parent_at i o = (Ok p, o).
Proof. unfold parent_at. by intros ->. Qed.

Lemma on_heap_spec {A} (f : (nat -> nat -> outcome E bool) -> list nat -> outcome E (A * list nat)) (o : Op E) a h :
  f (Op_Less cmp (parents o)) (hol o) = Ok (a, h) -> on_heap cmp f o = (Ok a, set_hol h o).
Proof. unfold on_heap. by intros ->. Qed.

Lemma heap_Push_spec (o : Op E) i :
  Forall (head_good (parents o)) (i :: hol o) -> is_heap (le := head_le (parents o)) (hol o) ->
  exists h, heap_Push cmp i o = (Ok tt, set_hol h o) /\ h ≡ₚ i :: hol o /\ is_heap (le := head_le (parents o)) h.
Proof.
  intros [Hi Hg]%Forall_cons Hh.
  destruct (Push_spec (lt := Op_Less cmp (parents o)) (hol o) i Hg Hi Hh) as (h & E1 & Hp & Hh').
  exists h. split_and!; try done. apply on_heap_spec. unfold unit_of. by rewrite E1.
Qed.

Lemma heap_Pop_spec (o : Op E) u h :
  hol o = u :: h -> Forall (head_good (parents o)) h ->
  (forall k, (0 < k <= length h)%nat -> (0 < par k)%nat -> edge (le := head_le (parents o)) (u :: h) k) ->
  exists h', heap_Pop cmp o = (Ok u, set_hol h' o) /\ h' ≡ₚ h /\ is_heap (le := head_le (parents o)) h'.
Proof.
  intros Ho Hg Hh. destruct (Pop_spec (lt := Op_Less cmp (parents o)) u h Hg Hh) as (h' & E1 & Hp & Hh').
  exists h'. split_and!; try done. apply on_heap_spec. by rewrite Ho.
Qed.

Lemma heap_Fix_spec (o : Op E) u h :
  hol o = u :: h -> Forall (head_good (parents o)) (u :: h) ->
  (forall k, (0 < k <= length h)%nat -> (0 < par k)%nat -> edge (le := head_le (parents o)) (u :: h) k) ->
  exists h', heap_Fix cmp 0 o = (Ok tt, set_hol h' o) /\ h' ≡ₚ u :: h /\ is_heap (le := head_le (parents o)) h'.
Proof.
  intros Ho Hg Hh. destruct (Fix_spec (lt := Op_Less cmp (parents o)) (u :: h) Hg) as (h' & E1 & Hp & Hh'); [done| |].
  { intros k Hk. apply Hh. cbn in Hk. lia. }
  exists h'. split_and!; try done. apply on_heap_spec. unfold unit_of. by rewrite Ho, E1.
Qed.

Lemma heap_Init_spec (o : Op E) :
  Forall (head_good (parents o)) (hol o) ->
  exists h, heap_Init cmp o = (Ok tt, set_hol h o) /\ h ≡ₚ hol o /\ is_heap (le := head_le (parents o)) h.
Proof.
  intros Hg. destruct (Init_spec (lt := Op_Less cmp (parents o)) (hol o) Hg) as (h & E1 & Hp & Hh).
  exists h. split_and!; try done. apply on_heap_spec. unfold unit_of. by rewrite E1.
Qed.

Lemma replenish_at_spec (o : Op E) i p s t :
  parents o !! i = Some p -> stream (results p) s t ->
  exists p', (replenish_at i o = (Ok true, set_parent i p' o) /\ vals p' <> [] /\ feeding p' s t \/
              replenish_at i o = (Ok false, set_parent i p' o) /\ finished p' s t).
Proof.
  intros Hp Hs. unfold replenish_at. rewrite (stm_bind_Ok _ _ _ _ _ (parent_at_spec _ _ _ Hp)).
  destruct (replenish_spec p s t Hs) as (p' & [(-> & H)|(-> & H)]); exists p'; [left|right]; done.
Qed.
Lemma set_parent_twice i p q (o : Op E) : set_parent i p (set_parent i q o) = set_parent i p o.
Proof. unfold set_parent. cbn. by rewrite list_insert_insert_eq. Qed.

Lemma holds_in i h p s t : i ∈ h -> feeding p s t -> holds i h p s t.
Proof. intros. unfold holds. by rewrite decide_True. Qed.

Lemma holds_out i h p s t : i ∉ h -> finished p s t -> holds i h p s t.
Proof. intros. unfold holds. by rewrite decide_False. Qed.

(** Reading the first value [v] of the first puller leaves it in the heap with
    the puller [p] in its place. *)
Lemma ready_fix (o : Op E) u h ss ts p s t :
  fed (parents o) (u :: h) ss ts -> is_heap (le := head_le (parents o)) (u :: h) -> hol o = u :: h -> once o = true ->
  ts !! u = Some t -> feeding p s t -> ascending s ->
  exists o', heap_Fix cmp 0 (set_parent u p o) = (Ok tt, o') /\ ready o' (<[u := s]> ss) ts.
Proof.
  intros Hf Hh Ho Honce Ht Hfe Ha. pose proof (fed_NoDup _ _ _ _ Hf) as Hnd.
  assert (Hf' : fed (<[u := p]> (parents o)) (u :: h) (<[u := s]> ss) ts).
  { eapply fed_insert; [exact Hf|done| |exact Ht| |done|done].
    - apply (fed_in _ _ _ _ Hf). by left.
    - apply holds_in; [by left|done]. }
  destruct (heap_Fix_spec (set_parent u p o) u h Ho) as (h' & E1 & Hp & Hh').
  - cbn. by eapply fed_good.
  - intros k Hk Hk'. by apply edges_insert_first.
  - eexists. split; [exact E1|]. split; [|done|done]. cbn. by eapply fed_perm.
Qed.

Lemma ready_pop (o : Op E) u h ss ts p t :
  fed (parents o) (u :: h) ss ts -> is_heap (le := head_le (parents o)) (u :: h) -> hol o = u :: h -> once o = true ->
  ts !! u = Some t -> finished p [] t ->
  exists o', heap_Pop cmp (set_parent u p o) = (Ok u, o') /\ ready o' (<[u := []]> ss) ts.
Proof.
  intros Hf Hh Ho Honce Ht Hfe. pose proof (fed_NoDup _ _ _ _ Hf) as Hnd. apply NoDup_cons in Hnd as [Hu Hnd].
  assert (Hf' : fed (<[u := p]> (parents o)) h (<[u := []]> ss) ts).
  { eapply fed_insert; [exact Hf|done| |exact Ht| | |].
    - apply (fed_in _ _ _ _ Hf). by left.
    - by apply holds_out.
    - split; constructor.
    - intros j Hj. rewrite elem_of_cons. naive_solver. }
  destruct (heap_Pop_spec (set_parent u p o) u h Ho) as (h' & E1 & Hp & Hh').
  - cbn. by eapply fed_good.
  - intros k Hk Hk'. apply edges_insert_first; [by apply NoDup_cons|done..].
  - eexists. split; [exact E1|]. split; [|done|done]. cbn. by eapply fed_perm.
Qed.

Lemma Read_spec (o : Op E) ss ts :
  ready o ss ts -> hol o <> [] ->
  exists v o' ss', Read cmp o = (Ok (Some v), o') /\ ready o' ss' ts /\ good v /\
    concat ss ≡ₚ v :: concat ss' /\ Forall (le_c v) (concat ss').
Proof.
  intros [Hf Hh Honce] Hne. destruct (hol o) as [|u h] eqn:Ho; [done|].
  destruct (fed_at _ _ _ _ u Hf ltac:(by left)) as (p & s & t & Hp & Hs & Ht & Hfe & Ha).
  destruct (feeding_head _ _ _ _ _ Hp Hfe Ha) as (v & s1 & Hv & -> & Gv).
  assert (Hperm : concat ss ≡ₚ v :: concat (<[u := s1]> ss)) by apply (concat_insert_perm ss u [v] s1 Hs).
  cut (exists o', Read cmp o = (Ok (Some v), o') /\ ready o' (<[u := s1]> ss) ts).
  { intros (o' & H1 & H2). exists v, o', (<[u := s1]> ss). split_and!; try done.
    apply Forall_forall. intros y Hy. eapply least; [done..|]. rewrite Hperm. by right. }
  clear Hperm. destruct (ascending_app [v] s1 Ha) as [_ Ha1].
  destruct Hfe as (pre & s' & Hvals & Hb & Hst & Es). unfold Read.
  rewrite stm_get_l. rewrite Ho.
  rewrite (stm_bind_Ok _ _ _ _ _ (parent_at_spec _ _ _ Hp)).
  destruct (vals p) as [|v' vs] eqn:Ev; [done|]. injection Es as <- ->.
  set (p1 := mkPuller (results p) (batch p) vs (blocked p)).
  rewrite stm_modify_l.
  destruct vs as [|w vs].
  - assert (Hp1 : parents (set_parent u p1 o) !! u = Some p1) by (cbn; apply list_lookup_insert_eq; by eapply lookup_lt_Some).
    destruct (replenish_at_spec _ u p1 s' t Hp1 Hst) as (p2 & [(E1 & _ & Hfe)|(E1 & Hfi)]);
      rewrite (stm_bind_Ok _ _ _ _ _ E1), set_parent_twice.
    + destruct (ready_fix o u h ss ts p2 s' t) as (o' & E2 & Hr); try done.
      exists o'. by rewrite (stm_bind_Ok _ _ _ _ _ E2).
    + destruct Hfi as [-> Hr2]. destruct (ready_pop o u h ss ts p2 t) as (o' & E2 & Hr); try done.
      exists o'. by rewrite (stm_bind_Ok _ _ _ _ _ E2).
  - destruct (ready_fix o u h ss ts p1 ((w :: vs) ++ s') t) as (o' & E2 & Hr); try done.
    { exists (pre ++ [v]), s'. split_and!; try done. cbn. by rewrite Hb, <- app_assoc. }
    exists o'. by rewrite (stm_bind_Ok _ _ _ _ _ E2).
Qed.

(** Reading a batch value by value. *)
Lemma appendVal_spec v used n : good v -> exists used' full, appendVal (E := E) to32 to16 v used n = Ok (used', full) /\ (n = 1%nat -> full = true).
Proof.
  intros Hv. unfold appendVal. destruct (mo_bytes (MergeOrder := MO) v Hv) as [b ->]. cbn [omap_err mbind outcome_bind obind].
  destruct b as [b|]; [destruct (_ <=? _)|]; eexists _, _; (split; [done|]); intros ->; by rewrite orb_true_r.
Qed.

(** The pulled values [b] come before everything that is left. *)
Definition front (b : list Value) ss ss' : Prop :=
  concat ss ≡ₚ b ++ concat ss' /\ StronglySorted le_c b /\ Forall (fun v => Forall (le_c v) (concat ss')) b.

Lemma front_nil ss : front [] ss ss.
Proof. split_and!; [done|constructor|constructor]. Qed.

Lemma front_cons v b ss ss1 ss2 :
  concat ss ≡ₚ v :: concat ss1 -> Forall (le_c v) (concat ss1) -> front b ss1 ss2 -> front (v :: b) ss ss2.
Proof.
  intros Hp Hv (H1 & H2 & H3). rewrite H1 in Hp, Hv. apply Forall_app in Hv as [Hb Hr].
  split_and!; [done|by constructor|by constructor].
Qed.

Lemma read_batch_spec : forall n used (o : Op E) ss ts,
  ready o ss ts -> n <> 0%nat ->
  exists b o' ss', read_batch to32 to16 cmp n used o = (Ok b, o') /\ ready o' ss' ts /\ front b ss ss' /\ (hol o <> [] -> b <> []).
Proof.
  induction n as [|n IH]; intros used o ss ts Hr Hn; [done|]. cbn [read_batch].
  destruct (decide (hol o = [])) as [Ho|Ho].
  { exists [], o, ss. split_and!; [|done|apply front_nil|done].
    unfold Read. rewrite (stm_bind_Ok (_ ≫= _) _ o None o); [done|].
    rewrite stm_get_l. by rewrite Ho. }
  destruct (Read_spec o ss ts Hr Ho) as (v & o1 & ss1 & E1 & Hr1 & Gv & Hp & Hle).
  destruct (appendVal_spec v used (S n) Gv) as (used' & full & E2 & Hfull).
  rewrite (stm_bind_Ok _ _ _ _ _ E1).
  rewrite (stm_lift_l _ _ _ _ E2).
  destruct full.
  { exists [v], o1, ss1. split_and!; try done. apply (front_cons _ _ _ ss1); [done..|apply front_nil]. }
  destruct (IH used' o1 ss1 ts Hr1) as (b & o2 & ss2 & E3 & Hr2 & Hfr & _).
  { intros ->. by specialize (Hfull eq_refl). }
  exists (v :: b), o2, ss2. split_and!; try done; [|by eapply front_cons]. by rewrite (stm_bind_Ok _ _ _ _ _ E3).
Qed.
(** ** Whole batches *)

(** Taking the next result of a puller outside of the heap [h]. *)
Lemma refill (o : Op E) m p h hb ss ts s t :
  fed (parents o) hb ss ts -> (forall j, j <> m -> j ∈ h <-> j ∈ hb) -> m ∉ h -> NoDup h ->
  hol o ≡ₚ h -> is_heap (le := head_le (parents o)) (hol o) -> once o = true ->
  parents o !! m = Some p -> stream (results p) s t -> ascending s ->
  exists o' ok, replenish_at m o = (Ok ok, o') /\
    exists o'', (if ok : bool then heap_Push cmp m else mret tt) o' = (Ok tt, o'') /\ ready o'' (<[m := s]> ss) (<[m := t]> ts) /\
      (forall j, j <> m -> parents o'' !! j = parents o !! j) /\ length (parents o'') = length (parents o) /\ (forall j, j ∈ hol o'' -> j = m \/ j ∈ h).
Proof.
  intros Hf Hhb Hmh Hnd Hh Hheap Honce Hp Hs Ha.
  assert (Hm : (m < length (parents o))%nat) by (by eapply lookup_lt_Some).
  destruct (replenish_at_spec o m p s t Hp Hs) as (p' & [(E1 & _ & Hfe)|(E1 & Hfi)]).
  - exists (set_parent m p' o), true. split; [done|].
    assert (Hf' : fed (<[m := p']> (parents o)) (m :: hol o) (<[m := s]> ss) (<[m := t]> ts)).
    { apply (fed_perm _ (m :: h)); [by rewrite Hh|]. eapply fed_set; [exact Hf| |done| |done|].
      - by apply NoDup_cons.
      - apply holds_in; [by left|done].
      - intros j Hj. rewrite elem_of_cons, Hhb by done. naive_solver. }
    destruct (heap_Push_spec (set_parent m p' o) m) as (h' & E2 & Hp2 & Hh2).
    + cbn. by eapply fed_good.
    + cbn. apply is_heap_insert; [by rewrite Hh|done].
    + eexists. split; [exact E2|]. split; [split; [|done|done]|].
      * cbn in *. by eapply fed_perm.
      * cbn in *. split_and!; [intros; by rewrite list_lookup_insert_ne|by rewrite length_insert|].
        intros j Hj. rewrite Hp2, Hh in Hj. by apply elem_of_cons in Hj.
  - exists (set_parent m p' o), false. split; [done|]. exists (set_parent m p' o). split; [done|]. split; [split|].
    + cbn. eapply fed_perm; [exact Hh|]. eapply fed_set; [exact Hf|done|done|by apply holds_out|done|done].
    + cbn. apply is_heap_insert; [by rewrite Hh|done].
    + done.
    + cbn. split_and!; [intros; by rewrite list_lookup_insert_ne|by rewrite length_insert|]. intros j. rewrite Hh. by right.
Qed.

(** The test of the whole batch is right: nothing that is left comes before the
    last value of [min]. *)
Lemma whole_batch_spec (o : Op E) m p h ss ts s t :
  fed (parents o) (m :: h) ss ts -> hol o ≡ₚ h -> is_heap (le := head_le (parents o)) (hol o) ->
  parents o !! m = Some p -> ss !! m = Some (vals p ++ s) -> ts !! m = Some t -> vals p <> [] ->
  exists whole, whole_batch cmp p o = Ok whole /\ (whole = true -> front (vals p) ss (<[m := s]> ss)).
Proof.
  intros Hf Hh Hheap Hp Hs Ht Hne. destruct (last (vals p)) as [l|] eqn:El; [|by apply last_None in El].
  pose proof (fed_ascending _ _ _ _ Hf) as Hasc. assert (Ha := Forall_lookup_1 _ _ _ _ Hasc Hs). clear Hasc.
  apply last_Some in El as [a Ea]. rewrite Ea in *.
  pose proof (ascending_app _ _ Ha) as [[Hsort Hgood] _].
  assert (Gl : good l) by (apply Forall_app in Hgood as [_ Hg]; exact (Forall_inv Hg)).
  pose proof (fed_NoDup _ _ _ _ Hf) as Hnd. apply NoDup_cons in Hnd as [Hmh Hnd].
  set (fin := mkPuller t None [] true). set (rest := <[m := []]> ss).
  assert (Hf' : fed (<[m := fin]> (parents o)) (hol o) rest ts).
  { eapply fed_perm; [exact Hh|]. eapply fed_insert; [exact Hf|exact Hnd|by eapply lookup_lt_Some|exact Ht| | |].
    - by apply holds_out.
    - split; constructor.
    - intros j Hj. rewrite elem_of_cons. naive_solver. }
  assert (Hrest : concat (<[m := s]> ss) ≡ₚ s ++ concat rest).
  { unfold rest. rewrite (concat_insert_perm (<[m := s]> ss) m s []).
    - by rewrite list_insert_insert_eq.
    - rewrite app_nil_r. apply list_lookup_insert_eq. by eapply lookup_lt_Some. }
  assert (Hfront : Forall (le_c l) (concat rest) -> front (a ++ [l]) ss (<[m := s]> ss)).
  { intros Hl. split_and!; [by apply concat_insert_perm|done|]. apply Forall_forall. intros x Hx. rewrite Hrest.
    destruct Ha as [Ha _]. apply StronglySorted_app in Ha as (H1 & _ & _). apply Forall_app. split.
    - apply Forall_forall. intros y Hy. by apply H1.
    - eapply Forall_impl; [exact Hl|]. intros y Hy. apply StronglySorted_app in Hsort as (H2 & _ & _).
      apply elem_of_app in Hx as [Hx|Hx%list_elem_of_singleton]; [|by subst]. apply (c_trans _ l); [|done]. apply H2; [done|by left]. }
  unfold whole_batch. rewrite Ea, last_snoc. destruct (hol o) as [|i h'] eqn:Ho.
  { exists true. split; [reflexivity|]. intros _. apply Hfront. by rewrite (fed_empty _ _ _ Hf'). }
  assert (Hi : i <> m) by (intros ->; apply Hmh; rewrite <- Hh; by left).
  assert (Hfi : head_good (parents o) i).
  { apply (Forall_inv (l := h')). rewrite Hh. exact (Forall_inv_tail (fed_good _ _ _ _ Hf)). }
  destruct Hfi as (w & Hw & Gw). rewrite Hw. cbn [mbind outcome_bind obind]. rewrite (mo_cmp (MergeOrder := MO) l w Gl Gw).
  cbn [mbind outcome_bind obind]. eexists. split; [reflexivity|]. intros Hle%Z.leb_le. apply Hfront.
  apply Forall_forall. intros y Hy. apply (c_trans _ w); [done|].
  eapply (least _ h' rest ts i w y Hf'); [by apply is_heap_insert; [rewrite Hh|]| |done]. by rewrite head_val_insert.
Qed.
(** ** Starting *)

(** The results at hand are the streams [ss] followed by [ts]. *)
Record streams (rss : list (list result)) ss ts : Prop := {
  streams_length : length ss = length rss;
  streams_length_ts : length ts = length rss;
  streams_at i rs s t : rss !! i = Some rs -> ss !! i = Some s -> ts !! i = Some t -> stream rs s t;
  streams_ascending : Forall ascending ss }.

Lemma start_loop_spec rss ss ts : streams rss ss ts -> forall n k (o : Op E) ss0 ts0,
  (k + n = length rss)%nat -> length (parents o) = length rss ->
  fed (parents o) (hol o) ss0 ts0 -> is_heap (le := head_le (parents o)) (hol o) -> once o = true ->
  Forall (fun i => (i < k)%nat) (hol o) ->
  (forall i, (i < k)%nat -> ss0 !! i = ss !! i /\ ts0 !! i = ts !! i) ->
  (forall i, (k <= i)%nat -> results <$> parents o !! i = rss !! i) ->
  exists o', start_loop cmp (seq k n) o = (Ok tt, o') /\ ready o' ss ts.
Proof.
  intros [Hl Hlt Hat Hasc]. induction n as [|n IH]; intros k o ss0 ts0 Hk Hlo Hf Hh Honce Hhol Hlow Hhigh; cbn [seq start_loop].
  { exists o. split; [done|]. destruct Hf as [H1 H2 H3 H4 H5 H6].
    replace ss0 with ss in *.
    2: { apply list_eq. intros i. destruct (decide (i < k)%nat); [symmetry; by apply Hlow|]. rewrite !lookup_ge_None_2 by lia. done. }
    replace ts0 with ts in *; [by split|].
    apply list_eq. intros i. destruct (decide (i < k)%nat); [symmetry; by apply Hlow|]. by rewrite !lookup_ge_None_2 by lia. }
  destruct (lookup_lt_is_Some_2 (parents o) k ltac:(lia)) as [p Hp].
  destruct (lookup_lt_is_Some_2 ss k ltac:(lia)) as [s Hs]. destruct (lookup_lt_is_Some_2 ts k ltac:(lia)) as [t Ht].
  assert (Hst : stream (results p) s t).
  { apply (Hat k); [|done..]. by rewrite <- Hhigh, Hp by lia. }
  assert (Ha : ascending s) by (eapply Forall_lookup_1; [exact Hasc|exact Hs]).
  rewrite (stm_bind_Ok _ _ _ _ _ (parent_at_spec _ _ _ Hp)).
  set (p1 := mkPuller (results p) (batch p) (vals p) false). set (o1 := set_parent k p1 o).
  rewrite stm_modify_l.
  assert (Hp1 : parents o1 !! k = Some p1) by (cbn; apply list_lookup_insert_eq; lia).
  assert (Hkh : k ∉ hol o) by (intros Hin; rewrite Forall_forall in Hhol; specialize (Hhol k Hin); lia).
  assert (Hf1 : fed (parents o1) (hol o) (<[k := []]> ss0) (<[k := results p1]> ts0)).
  { eapply fed_set; [exact Hf|by eapply fed_NoDup|lia|by apply holds_out|split; constructor|done]. }
  destruct (refill o1 k p1 (hol o) (hol o) _ _ s t Hf1) as (o2 & ok & E2 & o3 & E3 & [Hf3 Hh3 Honce3] & Hother & Hlen & Hin); try done.
  { by eapply fed_NoDup. }
  { cbn. by apply is_heap_insert. }
  rewrite (stm_bind_Ok _ _ _ _ _ E2), (stm_bind_Ok _ _ _ _ _ E3). rewrite !list_insert_insert_eq in Hf3.
  cbn [parents o1 set_parent] in Hother, Hlen. rewrite length_insert in Hlen.
  pose proof (fed_length _ _ _ _ Hf) as L1. pose proof (fed_length_ts _ _ _ _ Hf) as L2.
  eapply (IH (S k) o3); [lia|lia|exact Hf3|done|done| | |].
  - apply Forall_forall. intros j Hj. apply Hin in Hj as [->|Hj]; [lia|]. rewrite Forall_forall in Hhol. specialize (Hhol j Hj). lia.
  - intros i Hi. destruct (decide (i = k)) as [->|Hne].
    + rewrite list_lookup_insert_eq by lia. rewrite list_lookup_insert_eq by lia. done.
    + rewrite list_lookup_insert_ne by done. rewrite list_lookup_insert_ne by done. apply Hlow. lia.
  - intros i Hi. rewrite Hother by lia. rewrite list_lookup_insert_ne by lia. apply Hhigh. lia.
Qed.

Lemma start_spec (o : Op E) ss ts :
  streams (map results (parents o)) ss ts -> once o = true ->
  exists o', start cmp o = (Ok tt, o') /\ ready o' ss ts.
Proof.
  intros Hs Honce. pose proof Hs as [Hl Hlt Hat Hasc]. rewrite length_map in *. unfold start.
  set (o1 := set_hol [] o). rewrite stm_modify_l.
  rewrite stm_get_l.
  destruct (start_loop_spec _ _ _ Hs (length (parents o)) 0 o1 (replicate (length (parents o)) []) (map results (parents o))) as (o2 & E2 & [Hf Hh Ho2]);
    rewrite ?length_map; try done.
  - split; cbn; rewrite ?length_replicate, ?length_map; try done.
    + constructor.
    + intros i Hi. by apply elem_of_nil in Hi.
    + intros i p s t Hp Hs' Ht. apply lookup_replicate in Hs' as [-> _]. apply holds_out; [apply not_elem_of_nil|].
      rewrite list_lookup_fmap in Ht. rewrite Hp in Ht. by injection Ht as <-.
    + apply Forall_replicate. split; constructor.
  - intros k Hk. cbn in Hk. lia.
  - intros i _. by rewrite list_lookup_fmap.
  - rewrite (stm_bind_Ok _ _ _ _ _ E2). destruct (heap_Init_spec o2) as (h & E3 & Hp & Hh'); [by eapply fed_good|].
    exists (set_hol h o2). split; [exact E3|]. split; [|done|done]. cbn. by eapply fed_perm.
Qed.

(** ** Pulling *)

Lemma Pull_spec (o : Op E) ss ts :
  ready o ss ts -> hol o <> [] ->
  exists b o' ss', Pull to32 to16 cmp false o = (Ok (Some b), o') /\ ready o' ss' ts /\ front b ss ss' /\ b <> [].
Proof.
  intros [Hf Hh Honce] Hne. unfold Pull. rewrite stm_get_l. rewrite Honce.
  rewrite stm_ret_l.
  rewrite stm_get_l. rewrite decide_False by done.
  destruct (hol o) as [|m h] eqn:Ho; [done|].
  pose proof (Forall_inv_tail (fed_good _ _ _ _ Hf)) as Hg.
  destruct (heap_Pop_spec o m h Ho Hg) as (h1 & E1 & Hp1 & Hh1).
  { intros k Hk _. apply Hh. cbn. lia. }
  rewrite (stm_bind_Ok _ _ _ _ _ E1). set (o1 := set_hol h1 o) in *.
  destruct (fed_at _ _ _ _ m Hf ltac:(by left)) as (p & s & t & Hp & Hs & Ht & Hfe & Ha).
  rewrite (stm_bind_Ok _ _ _ _ _ (parent_at_spec m o1 p Hp)).
  rewrite stm_get_l.
  destruct Hfe as (pre & s' & Hvals & Hb & Hst & ->).
  destruct (whole_batch_spec o1 m p h ss ts s' t) as (whole & E2 & Hw); try done.
  rewrite (stm_lift_l _ _ _ _ E2).
  pose proof (fed_NoDup _ _ _ _ Hf) as Hnd. apply NoDup_cons in Hnd as [Hmh Hnd].
  destruct whole.
  - specialize (Hw eq_refl).
    destruct (refill o1 m p h (m :: h) ss ts s' t) as (o2 & ok & E3 & o3 & E4 & Hr & _); try done.
    { intros j Hj. rewrite elem_of_cons. naive_solver. }
    { apply (ascending_app (vals p)); done. }
    exists (vals p), o3, (<[m := s']> ss). rewrite (list_insert_id ts m t Ht) in Hr. split_and!; try done.
    cbv zeta. rewrite (stm_bind_Ok _ _ _ _ _ E3), (stm_bind_Ok _ _ _ _ _ E4). rewrite Hb. cbn [default from_option id].
    destruct (Nat.ltb_spec (length (vals p)) (length (pre ++ vals p))) as [|Hlen]; [done|].
    rewrite length_app in Hlen. assert (pre = []) as -> by (destruct pre; [done|cbn in Hlen; lia]). done.
  - destruct (heap_Push_spec o1 m) as (h2 & E3 & Hp2 & Hh2).
    { cbn. rewrite Hp1. by eapply fed_good. }
    { done. }
    rewrite (stm_bind_Ok _ _ _ _ _ E3).
    assert (Hr : ready (set_hol h2 o1) ss ts).
    { split; [|done|done]. cbn. eapply fed_perm; [|exact Hf]. rewrite Hp2. cbn. by rewrite Hp1. }
    destruct (read_batch_spec PullerBatchValues 0 _ ss ts Hr) as (b & o2 & ss' & E4 & Hr2 & Hfr & Hne2); [done|].
    exists b, o2, ss'. assert (Hbne : b <> []).
    { apply Hne2. cbn. intros ->. by apply Permutation_nil_l in Hp2. }
    split_and!; try done. unfold reader_Pull. rewrite (stm_bind_Ok _ _ _ _ _ E4). by destruct b.
Qed.

(** An operator that merges [ss] next and then continues with [ts]: it was not
    started yet or is between two batches. *)
Definition opened (o : Op E) ss ts : Prop :=
  once o = false /\ streams (map results (parents o)) ss ts \/ ready o ss ts.

(** The first pull starts the operator. *)
Lemma opened_ready (o : Op E) ss ts done : opened o ss ts ->
  exists o', ready o' ss ts /\ Pull to32 to16 cmp done o = Pull to32 to16 cmp done o'.
Proof.
  intros [[Honce Hs]|Hr]; [|by exists o]. destruct (start_spec (mkOp (parents o) (hol o) true) ss ts Hs eq_refl) as (o' & E1 & Hr).
  exists o'. split; [done|]. unfold Pull.
  rewrite stm_get_l, Honce.
  rewrite (stm_bind_Ok (_ ;; start cmp) _ o tt o').
  - by rewrite stm_get_l, (ready_once _ _ _ Hr).
  - by rewrite stm_modify_l.
Qed.

(** At the end of a stream the pullers have the results that follow. *)
Lemma ready_end (o : Op E) ss ts : ready o ss ts -> hol o = [] -> concat ss = [] /\ map results (parents o) = ts.
Proof.
  intros [Hf _ _] Ho. rewrite Ho in Hf. split; [by eapply fed_empty|]. destruct Hf as [H1 H2 H3 H4 H5 H6].
  apply list_eq. intros i. rewrite list_lookup_fmap. destruct (parents o !! i) as [p|] eqn:Hp; cbn.
  - apply lookup_lt_Some in Hp as Hlt. destruct (lookup_lt_is_Some_2 ss i) as [s Hs]; [lia|]. destruct (lookup_lt_is_Some_2 ts i) as [t Ht]; [lia|].
    specialize (H5 i p s t Hp Hs Ht). unfold holds in H5. rewrite decide_False in H5 by apply not_elem_of_nil. rewrite Ht. by destruct H5 as [_ ->].
  - apply lookup_ge_None in Hp. symmetry. apply lookup_ge_None. lia.
Qed.

Lemma Pull_end (o : Op E) ss ts ss' ts' : ready o ss ts -> hol o = [] -> streams ts ss' ts' ->
  exists o', Pull to32 to16 cmp false o = (Ok None, o') /\ ready o' ss' ts'.
Proof.
  intros Hr Ho Hs. destruct (ready_end _ _ _ Hr Ho) as [_ Hp]. rewrite <- Hp in Hs.
  destruct (start_spec o ss' ts' Hs (ready_once _ _ _ Hr)) as (o' & E1 & Hr'). exists o'. split; [|done]. unfold Pull.
  rewrite stm_get_l. rewrite (ready_once _ _ _ Hr).
  rewrite stm_ret_l.
  rewrite stm_get_l. rewrite decide_True by done.
  by rewrite (stm_bind_Ok _ _ _ _ _ E1).
Qed.

(** Pulling until the end: as many pulls as there are values and one more. *)
Lemma pull_all_spec ts ss' ts' : streams ts ss' ts' -> forall fuel (o : Op E) ss,
  opened o ss ts -> (length (concat ss) < fuel)%nat ->
  exists bs o', pull_all to32 to16 cmp fuel o = (Ok (Some bs), o') /\ ready o' ss' ts' /\ Forall (fun b => b <> []) bs /\
    concat bs ≡ₚ concat ss /\ StronglySorted le_c (concat bs).
Proof.
  intros Hs. induction fuel as [|fuel IH]; intros o ss Ho Hfuel; [lia|]. cbn [pull_all].
  destruct (opened_ready o ss ts false Ho) as (o1 & Hr & Epull).
  destruct (decide (hol o1 = [])) as [E0|Hne].
  - destruct (Pull_end o1 ss ts ss' ts' Hr E0 Hs) as (o2 & E1 & Hr2). rewrite <- Epull in E1.
    exists [], o2. rewrite (stm_bind_Ok _ _ _ _ _ E1). destruct (ready_end _ _ _ Hr E0) as [-> _].
    split_and!; [done|done|constructor|done|constructor].
  - destruct (Pull_spec o1 ss ts Hr Hne) as (b & o2 & ss2 & E1 & Hr2 & (Hp & Hsorted & Hle) & Hb). rewrite <- Epull in E1.
    destruct (IH o2 ss2) as (bs & o3 & E2 & Hr3 & Hbs & Hp3 & Hsort3); [by right| |].
    { apply Permutation_length in Hp. rewrite length_app in Hp. destruct b; [done|]. cbn in Hp. lia. }
    exists (b :: bs), o3. rewrite (stm_bind_Ok _ _ _ _ _ E1), (stm_bind_Ok _ _ _ _ _ E2). cbn [concat].
    split_and!; [done|done|by constructor|by rewrite Hp3|].
    apply StronglySorted_app. split_and!; [|done|done]. intros x y Hx Hy. rewrite Forall_forall in Hle.
    specialize (Hle x Hx). rewrite <- Hp3 in Hle. rewrite Forall_forall in Hle. by apply Hle.
Qed.
(** ** Done *)

(** Whether the goroutine of a puller holds the end of its stream. *)
Definition pending_end (ps : list puller) (i : nat) : bool :=
  match ps !! i with Some p => match results p with EOS :: _ => true | _ => false end | None => false end.
(** What the upstreams go on with after a done: one whose goroutine holds the
    end of its stream loses the next one. *)
Definition after (ps : list puller) (h : list nat) (ts : list (list result)) : list (list result) :=
  imap (fun i t => if bool_decide (i ∈ h) && pending_end ps i then skip_stream t else t) ts.

Lemma skip_stream_spec rs s t : stream rs s t -> skip_stream rs = t.
Proof.
  intros (bss & r & _ & -> & He & _). induction bss as [|b bss IH]; [|done]. cbn. by destruct He.
Qed.
Lemma finish_stream rs s t : stream rs s t -> finish rs = if (match rs with EOS :: _ => true | _ => false end) then skip_stream t else t.
Proof.
  intros (bss & r & Hne & -> & He & _). unfold finish. destruct bss as [|b bss]; cbn [map app tl].
  - by destruct He.
  - apply (skip_stream_spec _ (concat bss)). exists bss, r. by apply Forall_cons in Hne as [_ Hne].
Qed.

Lemma after_nil ps ts : after ps [] ts = ts.
Proof.
  apply list_eq. intros i. unfold after. rewrite list_lookup_imap. destruct (ts !! i) as [t|]; [|done]. cbn.
  rewrite bool_decide_false by apply not_elem_of_nil. done.
Qed.
Lemma after_cons ps m h ts p t q : m ∉ h -> ps !! m = Some p -> ts !! m = Some t -> finish (results p) = (if pending_end ps m then skip_stream t else t) ->
  after (<[m := q]> ps) h (<[m := finish (results p)]> ts) = after ps (m :: h) ts.
Proof.
  intros Hm Hp Ht Ef. apply list_eq. intros i. unfold after. rewrite !list_lookup_imap. destruct (decide (i = m)) as [->|Hne].
  - rewrite list_lookup_insert_eq by by eapply lookup_lt_Some. rewrite Ht. cbn. rewrite (bool_decide_false (m ∈ h)) by done.
    rewrite (bool_decide_true (m ∈ m :: h)) by by left. cbn. by rewrite Ef.
  - rewrite list_lookup_insert_ne by done. destruct (ts !! i) as [u|]; [|done]. cbn. unfold pending_end. rewrite list_lookup_insert_ne by done.
    rewrite (bool_decide_ext (i ∈ h) (i ∈ m :: h)); [done|]. rewrite elem_of_cons. tauto.
Qed.
Lemma done_loop_spec : forall idx (o : Op E) ss ts,
  fed (parents o) idx ss ts -> once o = true ->
  exists o', done_loop (E := E) idx o = (Ok tt, o') /\ map results (parents o') = after (parents o) idx ts /\ once o' = true.
Proof.
  induction idx as [|m idx IH]; intros o ss ts Hf Honce; cbn [done_loop].
  { exists o. rewrite after_nil. split_and!; [done| |done]. destruct (ready_end (mkOp (parents o) [] true) ss ts) as [_ Hr]; [|done|done].
    split; [done| |done]. intros k Hk. cbn in Hk. lia. }
  destruct (fed_at _ _ _ _ m Hf ltac:(by left)) as (p & s & t & Hp & Hs & Ht & (pre & s' & _ & _ & Hst & _) & Ha).
  rewrite (stm_bind_Ok _ _ _ _ _ (parent_at_spec _ _ _ Hp)), stm_modify_l.
  pose proof (fed_NoDup _ _ _ _ Hf) as Hnd. apply NoDup_cons in Hnd as [Hm Hnd]. set (q := mkPuller (finish (results p)) None (vals p) (blocked p)).
  destruct (IH (set_hol (removelast (hol o)) (set_parent m q o)) (<[m := []]> ss) (<[m := finish (results p)]> ts)) as (o' & E1 & E2 & E3); [|done|].
  - cbn [parents set_hol set_parent]. eapply fed_set; [exact Hf|done|by eapply lookup_lt_Some| |split; constructor|].
    + apply holds_out; [done|]. by split.
    + intros j Hj. rewrite elem_of_cons. naive_solver.
  - exists o'. split; [exact E1|]. split; [|exact E3]. rewrite E2. cbn [parents set_hol set_parent].
    apply (after_cons _ _ _ _ p t q); [done..|]. rewrite (finish_stream _ _ _ Hst). unfold pending_end. by rewrite Hp.
Qed.
Lemma after_perm ps h h' ts : h ≡ₚ h' -> after ps h ts = after ps h' ts.
Proof.
  intros Hp. apply list_eq. intros i. unfold after. rewrite !list_lookup_imap. destruct (ts !! i) as [t|]; [|done]. cbn.
  rewrite (bool_decide_ext (i ∈ h) (i ∈ h')); [done|]. by rewrite Hp.
Qed.

Lemma Pull_done (o : Op E) ss ts ss' ts' : opened o ss ts -> once o = true -> streams (after (parents o) (hol o) ts) ss' ts' ->
  exists o', Pull to32 to16 cmp true o = (Ok None, o') /\ ready o' ss' ts'.
Proof.
  intros [[H _]|[Hf Hh Honce]] Ho Hs; [congruence|]. unfold Pull.
  rewrite stm_get_l, Honce, stm_ret_l. unfold propagateDone.
  assert (Hf' : fed (parents o) (rev (hol o)) ss ts).
  { eapply fed_perm; [|exact Hf]. apply Permutation_sym, Permutation_rev. }
  destruct (done_loop_spec (rev (hol o)) o ss ts Hf' Honce) as (o2 & E2 & Hres & Honce2).
  rewrite (after_perm _ (hol o) (rev (hol o))), <- Hres in Hs by apply Permutation_rev.
  destruct (start_spec o2 ss' ts' Hs Honce2) as (o3 & E3 & Hr). exists o3. split; [|done].
  rewrite (stm_bind_Ok _ _ o tt o3); [done|]. rewrite stm_get_l. by rewrite (stm_bind_Ok _ _ _ _ _ E2).
Qed.
End proofs.
