(* ===== verification/DataFiles.v ===== *)
(** * Data objects in storage

    [src/lake/seekindex] and [src/lake/data/{writer,reader,seekindex}.go]: the
    file of a data object, a sequence of ZNG streams, and its seek index, which
    tells for every stream the span of its keys and where it is.  A reader that
    prunes entries of the index reads the remaining streams only.

    The seek index file holds its entries as ZNG values that [zson] marshals;
    here it is the list of the entries. *)

From S2P Require Import Prelude Zcode Commits Types Primitive Values Zngio.
Local Open Scope Z_scope.

(** ** Seek index entries and ranges *)

Record Entry := mkIndexEntry { e_Min : Value; e_Max : Value; ValOff : Z; ValCnt : Z; Offset : Z; Length_ : Z }.
Record Range := mkRange { r_Offset : Z; r_Length : Z }.

Definition Entry_Range (e : Entry) : Range := mkRange (i64 (Offset e)) (i64 (Length_ e)).
Definition Range_IsZero (r : Range) : bool := r_Length r =? 0.

(** [Ranges.Append] *)
Definition Ranges_Append (r : list Range) (e : Entry) : list Range :=
  match last r with
  | None => [Entry_Range e]
  | Some l =>
      if i64 (r_Offset l + r_Length l) <? i64 (Offset e) then r ++ [Entry_Range e]
      else removelast r ++ [mkRange (r_Offset l) (i64 (r_Length l + i64 (Length_ e)))]
  end.

(** [vector.Bool]: bits in words of 64. *)
Record BitVector := mkBits { v_len : Z; Bits : list Z }.
Definition bit_Value (b : BitVector) (slot : Z) : outcome Empty_set bool :=
  match Bits b !! Z.to_nat (Z.shiftr slot 6) with
  | Some w => Ok (negb (Z.land w (Z.shiftl 1 (Z.land slot 63)) =? 0))
  | None => Panic
  end.

(** The inner loop of [Index.Filter] over [n] offsets from [off]. *)
Fixpoint any_set (b : BitVector) (n : nat) (off : Z) : outcome Empty_set bool :=
  match n with
  | O => Ok false
  | S n => v ← bit_Value b off; if v : bool then Ok true else any_set b n (off + 1)
  end.
Definition selected (b : BitVector) (e : Entry) : outcome Empty_set bool :=
  any_set b (Z.to_nat (Z.min (v_len b) (u64 (ValOff e + ValCnt e)) - ValOff e)) (ValOff e).
Fixpoint Filter_loop (b : BitVector) (index : list Entry) (r : list Range) : outcome Empty_set (list Range) :=
  match index with
  | [] => Ok r
  | e :: index => s ← selected b e; Filter_loop b index (if s : bool then Ranges_Append r e else r)
  end.
Definition Index_Filter (index : list Entry) (b : BitVector) : outcome Empty_set (list Range) := Filter_loop b index [].

(** ** Writing the seek index *)

Record SeekWriter := mkSeekWriter { entries : list Entry; sw_offset : Z; sw_valoff : Z }.
Definition NewSeekWriter : SeekWriter := mkSeekWriter [] 0 0.
Definition SeekWriter_Write (min max : Value) (valoff offset : Z) (w : SeekWriter) : SeekWriter :=
  mkSeekWriter (entries w ++ [mkIndexEntry min max (sw_valoff w) (u64 (valoff - sw_valoff w)) (sw_offset w) (u64 (offset - sw_offset w))])
    offset valoff.

(** ** Writing a data object *)

Section files.
Context `{LZ : !LZ4} (to32 to16 : Z -> Z).

Definition DefaultSeekStride : Z := 64 * 1024.

Record DataWriter := mkDataWriter {
  object : dobject Value;
  count : Z;
  zng : Zngio.Writer;
  key_path : list gostring;
  key_desc : bool;
  seekIndex : SeekWriter;
  seekIndexStride : Z;
  seekIndexTrigger : Z;
  first : bool;
  seekMin : option Value;
}.

(** The sink takes all bytes; a new object has null bounds. *)
Definition NewDataWriter (id : ksuid) (path : list gostring) (desc : bool) (stride : Z) : DataWriter :=
  mkDataWriter (mkObj id NullValue NullValue 0 0) 0 (NewWriter (mkSink [] None false)) path desc NewSeekWriter
    (if stride =? 0 then DefaultSeekStride else stride) 0 true None.

Abbreviation DM := (stm DataWriter zng_error).

Definition set_object (o : dobject Value) (w : DataWriter) : DataWriter :=
  mkDataWriter o (count w) (zng w) (key_path w) (key_desc w) (seekIndex w) (seekIndexStride w) (seekIndexTrigger w) (first w) (seekMin w).
Definition set_count (n : Z) (w : DataWriter) : DataWriter :=
  mkDataWriter (object w) n (zng w) (key_path w) (key_desc w) (seekIndex w) (seekIndexStride w) (seekIndexTrigger w) (first w) (seekMin w).
Definition set_zng (z : Zngio.Writer) (w : DataWriter) : DataWriter :=
  mkDataWriter (object w) (count w) z (key_path w) (key_desc w) (seekIndex w) (seekIndexStride w) (seekIndexTrigger w) (first w) (seekMin w).
Definition set_index (s : SeekWriter) (w : DataWriter) : DataWriter :=
  mkDataWriter (object w) (count w) (zng w) (key_path w) (key_desc w) s (seekIndexStride w) (seekIndexTrigger w) (first w) (seekMin w).
Definition set_trigger (n : Z) (w : DataWriter) : DataWriter :=
  mkDataWriter (object w) (count w) (zng w) (key_path w) (key_desc w) (seekIndex w) (seekIndexStride w) n (first w) (seekMin w).
Definition set_first (b : bool) (w : DataWriter) : DataWriter :=
  mkDataWriter (object w) (count w) (zng w) (key_path w) (key_desc w) (seekIndex w) (seekIndexStride w) (seekIndexTrigger w) b (seekMin w).
Definition set_seekMin (v : option Value) (w : DataWriter) : DataWriter :=
  mkDataWriter (object w) (count w) (zng w) (key_path w) (key_desc w) (seekIndex w) (seekIndexStride w) (seekIndexTrigger w) (first w) v.
Definition set_min (v : Value) (o : dobject Value) : dobject Value := mkObj (Commits.ID o) v (Max o) (Count o) (Size o).
Definition set_max (v : Value) (o : dobject Value) : dobject Value := mkObj (Commits.ID o) (Min o) v (Count o) (Size o).

Definition on_zng {A} (m : stm Zngio.Writer zng_error A) : DM A := fun w =>
  let '(r, z) := m (zng w) in (r, set_zng z w).

Definition key_bytes (key : Value) : outcome zng_error bytes := lift_panic (Value_Bytes to32 to16 key).

(** [flushSeekIndex] *)
Definition flushSeekIndex : DM unit :=
  w ← get;
  match seekMin w with
  | None => mret tt
  | Some seek_min =>
      let '(min, max) := if key_desc w then (Max (object w), seek_min) else (seek_min, Max (object w)) in
      modify (fun w => set_index (SeekWriter_Write min max (count w) (u64 (position (zng w))) (seekIndex w))
                         (set_seekMin None (set_trigger 0 w)))
  end.

Definition writeIndex (key : Value) : DM unit :=
  b ← lift_out (key_bytes key);
  modify (fun w => set_trigger (i64 (seekIndexTrigger w + zlen (default [] b))) w);;
  modify (fun w => if first w then set_object (set_min key (object w)) (set_first false w) else w);;
  modify (fun w => match seekMin w with None => set_seekMin (Some key) w | Some _ => w end);;
  w ← get;
  if seekIndexTrigger w <? seekIndexStride w then mret tt
  else on_zng EndStream;; flushSeekIndex.

Definition WriteWithKey (key val : Value) : DM unit :=
  modify (fun w => set_count (u64 (count w + 1)) w);;
  on_zng (Zngio.Write to32 to16 val);;
  modify (fun w => set_object (set_max key (object w)) w);;
  writeIndex key.

(** The key of a value: a missing key is null. *)
Definition sort_key (path : list gostring) (val : Value) : outcome value_error Value :=
  k ← DerefPath to32 to16 (Some val) path;
  k ← lift_panic (MissingAsNull to32 to16 k);
  match k with Some k => Ok k | None => Panic end.
Definition DataWriter_Write (val : Value) : DM unit :=
  w ← get;
  match sort_key (key_path w) val with
  | Ok key => WriteWithKey key val
  | _ => fault
  end.

Definition BytesWritten (w : DataWriter) : Z := zlen (data (writer (zng w))).

Definition DataWriter_Close : DM unit :=
  on_zng Zngio.Close;;
  flushSeekIndex;;
  modify (fun w =>
    let o := object w in
    set_object (mkObj (Commits.ID o) (if key_desc w then Max o else Min o) (if key_desc w then Min o else Max o)
                  (count w) (position (zng w))) w).

(** ** Reading a data object *)

(** A section of the file; past its end there is nothing. *)
Definition section (file : list byte) (r : Range) : list byte :=
  take (Z.to_nat (r_Length r)) (drop (Z.to_nat (r_Offset r)) file).

(** [NewReader]: without ranges the whole file. *)
Definition read_ranges (file : list byte) (ranges : list Range) : list byte :=
  match ranges with
  | [] => file
  | _ => concat (map (section file) ranges)
  end.
Definition ReadBytes (o : dobject Value) (ranges : list Range) : Z :=
  match ranges with
  | [] => Size o
  | _ => foldr (fun r n => r_Length r + n) 0 ranges
  end.

(** [result.Type() == zed.TypeBool && result.Bool()] *)
Definition is_true (result : Value) : bool :=
  match v_type result with
  | TPrim Bool => match Bool_ result with Ok b => b | _ => false end
  | _ => false
  end.

(** [LookupSeekRange], the pruner given as its value on the marshaled entry. *)
Fixpoint Lookup_loop (pruner : Entry -> Value) (index : list Entry) (r : list Range) : list Range :=
  match index with
  | [] => r
  | e :: index => Lookup_loop pruner index (if is_true (pruner e) then r else Ranges_Append r e)
  end.
Definition LookupSeekRange (pruner : option (Entry -> Value)) (index : list Entry) : list Range :=
  match pruner with
  | None => []
  | Some p => Lookup_loop p index []
  end.

(** [RangeFromBitVector] *)
Definition RangeFromBitVector (index : list Entry) (b : BitVector) : outcome Empty_set (list Range) := Index_Filter index b.
End files.
