(* ===== verification/DataProofs.v ===== *)
(** * The streams of a data object and its seek index *)

From S2P Require Import Prelude Zcode Commits Types Context Interning Primitive Values Zngio ZngTypes ZngStream ZngWriter DataFiles.
Local Open Scope Z_scope.

Section proofs.
Context `{LZ : !LZ4, LZL : !LZ4Laws} (to32 to16 : Z -> Z) (mx : Z) (Hmx : 16 <= mx < 2 ^ 62).
Context (U : ty -> Prop) `{UU : !Universe U}.

Local Abbreviation streams := (streams to32 to16 mx).
Local Abbreviation sendable := (sendable to32 to16 mx U).
Local Abbreviation write_items := (write_items to32 to16).

(** ** Streams end to end *)

Lemma streams_nil : streams [] [].
Proof.
  intros fl d0 _ Hd. exists [], d0. split_and!; [constructor|constructor|done|done].
Qed.

Lemma delivered_extends sh sh' it p : extends sh sh' -> delivered to32 to16 sh it p -> delivered to32 to16 sh' it p.
Proof.
  intros Hx. destruct it as [v|b f|], p as [v'|f' b'|]; simpl; try done.
  intros (Hm & ? & ?). split_and!; [|done..]. by eapply member_extends.
Qed.

Lemma streams_app a b its its' : streams a its -> streams b its' -> streams (a ++ b) (its ++ its').
Proof.
  intros Ha Hb fl d0 Hpl Hd. destruct (Ha fl d0 Hpl Hd) as (all1 & d1 & H1 & Y1 & F1 & X1).
  destruct (Hb fl d1 Hpl F1) as (all2 & d2 & H2 & Y2 & F2 & X2).
  exists (all1 ++ all2), d2. split_and!; [|by rewrite List.filter_app; eapply yields_app|done|by etrans].
  apply Forall2_app; [|done]. eapply Forall2_impl; [exact H1|]. intros. by eapply delivered_extends.
Qed.

Lemma streams_concat bss itss : Forall2 streams bss itss -> streams (concat bss) (concat itss).
Proof. induction 1; [apply streams_nil|]. by apply streams_app. Qed.

Lemma write_items_app its its' z z2 :
  write_items (its ++ its') z = (Ok tt, z2) -> exists z1, write_items its z = (Ok tt, z1) /\ write_items its' z1 = (Ok tt, z2).
Proof.
  revert z. induction its as [|it its IH]; intros z; cbn [app ZngWriter.write_items]; [by eexists|].
  intros ([] & z1 & E1 & E2)%stm_bind_inv. destruct (IH z1 E2) as (z3 & E3 & E4).
  exists z3. by rewrite (stm_bind_Ok _ _ _ _ _ E1).
Qed.

(** ** The index of chunks *)

(** A chunk is the keys and values of a stream. *)
Local Abbreviation chunk := (list (Value * Value)).
Definition items (c : chunk) : list item := map (fun kv => IValue kv.2) c.
Definition first_key (c : chunk) : Value := default NullValue (fst <$> head c).
Definition last_key (c : chunk) : Value := default NullValue (fst <$> last c).
Definition low_key (desc : bool) (c : chunk) : Value := if desc then last_key c else first_key c.
Definition high_key (desc : bool) (c : chunk) : Value := if desc then first_key c else last_key c.

(** The entry of a chunk of [b] bytes after [n] values and [off] bytes. *)
Definition entry_of (desc : bool) (n off : Z) (c : chunk) (b : list byte) : Entry :=
  mkIndexEntry (low_key desc c) (high_key desc c) (u64 n) (u64 (zlen c)) (u64 off) (u64 (zlen b)).

Fixpoint index_from (desc : bool) (n off : Z) (cs : list chunk) (bss : list (list byte)) : list Entry :=
  match cs, bss with
  | c :: cs, b :: bss => entry_of desc n off c b :: index_from desc (n + zlen c) (off + zlen b) cs bss
  | _, _ => []
  end.

Lemma index_from_snoc desc cs bss c b : forall n off, length cs = length bss ->
  index_from desc n off (cs ++ [c]) (bss ++ [b]) =
  index_from desc n off cs bss ++ [entry_of desc (n + zlen (concat cs)) (off + zlen (concat bss)) c b].
Proof.
  revert bss. induction cs as [|c1 cs IH]; intros [|b1 bss] n off Hl; try done; cbn [index_from app concat].
  - by rewrite !Z.add_0_r.
  - rewrite IH by (by injection Hl). rewrite !zlen_app. by rewrite !Z.add_assoc.
Qed.

Lemma u64_sub a b : u64 (u64 (a + b) - u64 a) = u64 b.
Proof.
  unfold u64. rewrite <- Zminus_mod_idemp_l, Z.mod_mod, Zminus_mod_idemp_l by lia.
  rewrite Zminus_mod_idemp_r. f_equal. lia.
Qed.

(** ** The writer *)

(** The object's bounds while it is written: the first and the last key. *)
Definition bounds (o : dobject Value) (all : chunk) : Prop :=
  all <> [] -> Min o = first_key all /\ Max o = last_key all.

(** A writer after the closed chunks [cs] with their bytes [bss] and with the
    chunk [pend] being written since [z0]. *)
Record writing (cs : list chunk) (bss : list (list byte)) (pend : chunk) (z0 : Zngio.Writer) (w : DataWriter) : Prop := {
  w_begins : begins z0;
  w_opts : opts z0 = DefaultOpts;
  w_data : data (writer z0) = concat bss;
  w_streams : Forall2 streams bss (map items cs);
  w_pend : write_items (items pend) z0 = (Ok tt, zng w);
  w_count : count w = u64 (zlen (concat cs ++ pend));
  w_seekMin : seekMin w = fst <$> head pend;
  w_first : first w = bool_decide (concat cs ++ pend = []);
  w_bounds : bounds (object w) (concat cs ++ pend);
  w_index : seekIndex w = mkSeekWriter (index_from (key_desc w) 0 0 cs bss) (u64 (zlen (concat bss))) (u64 (zlen (concat cs)));
  w_chunks : Forall (fun c => c <> []) cs;
}.

(** The bounds on the values that are written. *)
Record writable (kvs : chunk) : Prop := {
  wr_items : Forall (sendable DefaultOpts) (items kvs);
  wr_weight : 30 + total_weight (items kvs) < 2 ^ 63;
  wr_mx : slack DefaultOpts <= mx;
  wr_keys : Forall (fun kv => exists b, Value_Bytes to32 to16 kv.1 = Ok b) kvs }.

Lemma total_weight_app its its' : total_weight (its ++ its') = total_weight its + total_weight its'.
Proof.
  assert (Hc : forall it l, total_weight (it :: l) = item_weight it + total_weight l) by done.
  induction its as [|it its IH]; [done|]. cbn [app]. rewrite !Hc. lia.
Qed.

Lemma writable_app l l' : writable (l ++ l') -> writable l /\ writable l'.
Proof.
  intros [H1 H2 H3 H4]. unfold items in *. rewrite map_app in *. rewrite total_weight_app in H2.
  apply Forall_app in H1 as [? ?], H4 as [? ?].
  pose proof (total_weight_nonneg (map (fun kv => IValue kv.2) l)). pose proof (total_weight_nonneg (map (fun kv => IValue kv.2) l')).
  split; split; unfold items; try done; lia.
Qed.

Lemma visible_items c : List.filter visible (items c) = items c.
Proof. induction c as [|kv c IH]; [done|]. cbn. by f_equal. Qed.
Definition flushed_index (c : chunk) (w : DataWriter) : DataWriter :=
  set_index (SeekWriter_Write (low_key (key_desc w) c) (high_key (key_desc w) c) (count w) (u64 (position (zng w))) (seekIndex w))
    (set_seekMin None (set_trigger 0 w)).

Lemma flushSeekIndex_chunk c w :
  seekMin w = fst <$> head c -> c <> [] -> Max (object w) = last_key c -> flushSeekIndex w = (Ok tt, flushed_index c w).
Proof.
  intros Hmin Hc Hmax. unfold flushSeekIndex. rewrite stm_get_l, Hmin. destruct c as [|[k v] c]; [done|]. cbn [head fmap option_fmap option_map fst].
  unfold flushed_index, low_key, high_key. rewrite Hmax. by destruct (key_desc w).
Qed.

Lemma last_key_app l c : c <> [] -> last_key (l ++ c) = last_key c.
Proof. unfold last_key. rewrite last_app. by destruct (last c) eqn:E; [|apply last_None in E]. Qed.

(** Closing the chunk [c]: its bytes and its entry of the index. *)
Lemma close_chunk cs bss c z0 w : writing cs bss c z0 w -> c <> [] -> writable c ->
  exists z1 b, EndStream (zng w) = (Ok tt, z1) /\ begins z1 /\ forall z2, position z2 = position z1 -> data (writer z2) = data (writer z1) ->
    flushSeekIndex (set_zng z2 w) = (Ok tt, flushed_index c (set_zng z2 w)) /\
    (z2 = z1 -> writing (cs ++ [c]) (bss ++ [b]) [] z1 (flushed_index c (set_zng z2 w))) /\
    data (writer z2) = concat (bss ++ [b]) /\ Forall2 streams (bss ++ [b]) (map items (cs ++ [c])) /\
    seekIndex (flushed_index c (set_zng z2 w)) =
      mkSeekWriter (index_from (key_desc w) 0 0 (cs ++ [c]) (bss ++ [b])) (u64 (zlen (concat (bss ++ [b])))) (u64 (zlen (concat (cs ++ [c])))).
Proof.
  intros [B O D S P C SM F BO IX CH] Hc [Hi Hwt Hm _]. rewrite <- O in Hi, Hm.
  destruct (write_stream to32 to16 mx Hmx U (items c) z0 B Hm Hi Hwt) as (w1 & z1 & b & E1 & E2 & B1 & O1 & D1 & S1).
  rewrite P in E1. injection E1 as <-. rewrite visible_items in S1.
  exists z1, b. split_and!; [done|done|]. intros z2 Hz2 Hd2.
  assert (Hl : length cs = length bss) by (apply Forall2_length in S; by rewrite length_map in S).
  assert (Hpos : data (writer z1) = concat (bss ++ [b])) by (rewrite D1, D, concat_app; cbn; by rewrite app_nil_r).
  assert (Hstreams : Forall2 streams (bss ++ [b]) (map items (cs ++ [c]))).
  { rewrite map_app. apply Forall2_app; [done|]. by constructor. }
  assert (Hall : concat cs ++ c = concat (cs ++ [c])) by (rewrite concat_app; cbn; by rewrite app_nil_r).
  assert (Hindex : seekIndex (flushed_index c (set_zng z2 w)) =
      mkSeekWriter (index_from (key_desc w) 0 0 (cs ++ [c]) (bss ++ [b])) (u64 (zlen (concat (bss ++ [b])))) (u64 (zlen (concat (cs ++ [c]))))).
  { cbn [flushed_index seekIndex set_index key_desc set_zng count zng]. rewrite IX, C, Hz2, (b_position _ B1), Hpos, Hall.
    unfold SeekWriter_Write. cbn [entries sw_offset sw_valoff]. f_equal. rewrite index_from_snoc by done. f_equal. unfold entry_of.
    rewrite !concat_app, !zlen_app, !u64_sub. cbn [concat]. by rewrite !app_nil_r. }
  assert (Hmax : Max (object w) = last_key c).
  { destruct (BO ltac:(intros [_ ?]%app_eq_nil; done)) as [_ ->]. by apply last_key_app. }
  split_and!; try done.
  - by apply flushSeekIndex_chunk.
  - intros ->. split; try done; rewrite ?app_nil_r, <- ?Hall; try done.
    + by rewrite O1.
    + apply Forall_app. split; [done|]. by constructor.
  - by rewrite Hd2.
Qed.
Definition same_config (w w' : DataWriter) : Prop :=
  key_path w' = key_path w /\ key_desc w' = key_desc w /\ Commits.ID (object w') = Commits.ID (object w).

Lemma first_key_snoc c kv : first_key (c ++ [kv]) = match c with [] => kv.1 | _ => first_key c end.
Proof. by destruct c. Qed.

(** The fields after a value was written and its key entered. *)
Definition entered (k : Value) (n : Z) (z1 : Zngio.Writer) (w : DataWriter) : DataWriter :=
  let o := set_max k (object w) in
  mkDataWriter (if first w then set_min k o else o) (u64 (count w + 1)) z1 (key_path w) (key_desc w) (seekIndex w) (seekIndexStride w)
    n false (Some (default k (seekMin w))).

Lemma entered_writing cs bss c z0 w k v n z1 :
  writing cs bss c z0 w -> write_items (items (c ++ [(k, v)])) z0 = (Ok tt, z1) -> writing cs bss (c ++ [(k, v)]) z0 (entered k n z1 w).
Proof.
  intros [B O D S P C SM F BO IX CH] E1. split; try done; cbn [entered count seekMin first object].
  - rewrite C, app_assoc, (zlen_app _ [_]). unfold u64. by rewrite Zplus_mod_idemp_l.
  - rewrite SM. by destruct c as [|[]].
  - symmetry. apply bool_decide_eq_false. by destruct (concat cs), c.
  - intros _. rewrite app_assoc, first_key_snoc, last_key_app by done. rewrite F.
    split; [|by destruct (bool_decide _)]. case_bool_decide as E; [by rewrite E|].
    destruct (BO E) as [HMin _]. cbn. rewrite HMin. by destruct (concat cs ++ c).
Qed.

Lemma WriteWithKey_spec cs bss c z0 w k v : writing cs bss c z0 w -> writable (c ++ [(k, v)]) ->
  exists w', WriteWithKey to32 to16 k v w = (Ok tt, w') /\ same_config w w' /\
    (writing cs bss (c ++ [(k, v)]) z0 w' \/ exists z1 b, writing (cs ++ [c ++ [(k, v)]]) (bss ++ [b]) [] z1 w').
Proof.
  intros Hw Hwr. pose proof Hwr as [Hi Hwt Hm Hk]. pose proof Hw as [B O D S P C SM F BO IX CH]. rewrite <- O in Hi, Hm.
  destruct (write_stream to32 to16 mx Hmx U (items (c ++ [(k, v)])) z0 B Hm Hi Hwt) as (w1 & _ & _ & E1 & _ & _ & _ & _ & _).
  pose proof E1 as E. unfold items in E. rewrite map_app in E. apply write_items_app in E as (z1 & E0 & E2).
  fold (items c) in E0. rewrite P in E0. injection E0 as <-. cbn [map ZngWriter.write_items write_item snd] in E2.
  apply stm_bind_inv in E2 as ([] & z1 & E2 & E3). injection E3 as ->.
  apply Forall_app in Hk as [_ Hk]. apply Forall_inv in Hk as [kb Hkb]. cbn [fst] in Hkb.
  assert (Hrun : exists n, WriteWithKey to32 to16 k v w =
    (if n <? seekIndexStride w then mret tt else on_zng EndStream;; flushSeekIndex) (entered k n w1 w)).
  { unfold WriteWithKey. rewrite stm_modify_l.
    rewrite (stm_bind_Ok _ _ _ tt (set_zng w1 (set_count (u64 (count w + 1)) w))).
    2: { unfold on_zng. cbn [zng set_count]. by rewrite E2. }
    rewrite stm_modify_l. unfold writeIndex, key_bytes.
    rewrite (stm_lift_l _ _ _ kb) by (unfold lift_panic; by rewrite Hkb). rewrite !stm_modify_l, stm_get_l.
    eexists (i64 (seekIndexTrigger w + zlen (default [] kb))). destruct w as [? ? ? ? ? ? ? ? [] []]; done. }
  destruct Hrun as [n ->]. pose proof (entered_writing cs bss c z0 w k v n w1 Hw E1) as Hw2. set (w2 := entered k n w1 w) in *.
  assert (Hsame : same_config w w2) by (split_and!; [done..|]; cbn; by destruct (first w)).
  destruct (n <? seekIndexStride w).
  - exists w2. split_and!; [done..|]. by left.
  - destruct (close_chunk cs bss _ z0 w2 Hw2 ltac:(by destruct c) Hwr) as (z3 & b & E3 & _ & Hclose).
    destruct (Hclose z3 eq_refl eq_refl) as (E4 & Hw4 & _).
    exists (flushed_index (c ++ [(k, v)]) (set_zng z3 w2)). split_and!; [|done|right; exists z3, b; by apply Hw4].
    rewrite (stm_bind_Ok _ _ _ tt (set_zng z3 w2)); [done|]. unfold on_zng. by rewrite E3.
Qed.

(** Writing values and closing the object. *)
Fixpoint write_keyed (kvs : chunk) : stm DataWriter zng_error unit :=
  match kvs with
  | [] => mret tt
  | kv :: kvs => WriteWithKey to32 to16 kv.1 kv.2;; write_keyed kvs
  end.

Lemma write_keyed_spec kvs : forall cs bss c z0 w, writing cs bss c z0 w -> writable (concat cs ++ c ++ kvs) ->
  exists w' cs' bss' c' z0', write_keyed kvs w = (Ok tt, w') /\ same_config w w' /\ writing cs' bss' c' z0' w' /\
    concat cs' ++ c' = concat cs ++ c ++ kvs.
Proof.
  induction kvs as [|[k v] kvs IH]; intros cs bss c z0 w Hw Hwr; cbn [write_keyed fst snd].
  { exists w, cs, bss, c, z0. split_and!; try done. by rewrite app_nil_r. }
  destruct (WriteWithKey_spec cs bss c z0 w k v Hw) as (w1 & E1 & (P1 & P2 & P3) & Hw1).
  { apply writable_app in Hwr as [_ Hwr]. rewrite cons_middle, app_assoc in Hwr. by apply writable_app in Hwr as [Hwr _]. }
  assert (Hnext : exists cs1 bss1 c1 z1, writing cs1 bss1 c1 z1 w1 /\ concat cs1 ++ c1 ++ kvs = concat cs ++ c ++ (k, v) :: kvs).
  { destruct Hw1 as [Hw1|(z1 & b & Hw1)]; eexists _, _, _, _; (split; [exact Hw1|]); rewrite ?concat_app; cbn [concat app];
      rewrite ?app_nil_r, <- ?app_assoc; done. }
  destruct Hnext as (cs1 & bss1 & c1 & z1 & Hw2 & Hall). rewrite <- Hall in Hwr.
  destruct (IH cs1 bss1 c1 z1 w1 Hw2 Hwr) as (w' & cs' & bss' & c' & z' & E2 & (Q1 & Q2 & Q3) & Hw' & Hall').
  exists w', cs', bss', c', z'. split_and!; [|split_and!; congruence|done|by rewrite Hall'].
  by rewrite (stm_bind_Ok _ _ _ _ _ E1).
Qed.

(** ** The finished object *)

(** The object of the keys and values [all]: its file, the streams of the chunks
    and bytes [tail] that hold nothing, its index and what is known of it. *)
Record finished_object (desc : bool) (id : ksuid) (all : chunk) (cs : list chunk) (bss : list (list byte)) (tail : list byte)
    (w : DataWriter) : Prop := {
  f_all : concat cs = all;
  f_chunks : Forall (fun c => c <> []) cs;
  f_file : data (writer (zng w)) = concat bss ++ tail;
  f_closed : closed (writer (zng w)) = true;
  f_streams : Forall2 streams bss (map items cs);
  f_tail : streams tail [];
  f_index : entries (seekIndex w) = index_from desc 0 0 cs bss;
  f_object : object w = mkObj id (low_key desc all) (high_key desc all) (u64 (zlen all)) (zlen (concat bss ++ tail)) }.

Lemma close_bounds w all : bounds (object w) all -> (all = [] -> Min (object w) = NullValue /\ Max (object w) = NullValue) ->
  (if key_desc w then Max (object w) else Min (object w)) = low_key (key_desc w) all /\
  (if key_desc w then Min (object w) else Max (object w)) = high_key (key_desc w) all.
Proof.
  intros Hb He. unfold low_key, high_key. destruct (decide (all = [])) as [->|Hne].
  - destruct (He eq_refl) as [-> ->]. by destruct (key_desc w).
  - destruct (Hb Hne) as [-> ->]. by destruct (key_desc w).
Qed.

Lemma Close_spec cs bss c z0 w : writing cs bss c z0 w -> writable c ->
  (concat cs ++ c = [] -> Min (object w) = NullValue /\ Max (object w) = NullValue) ->
  exists w' bss' cs' tail, DataWriter_Close w = (Ok tt, w') /\
    finished_object (key_desc w) (Commits.ID (object w)) (concat cs ++ c) cs' bss' tail w'.
Proof.
  intros Hw Hwr Hempty. pose proof (close_bounds w _ (w_bounds _ _ _ _ _ Hw) Hempty) as [Hlow Hhigh].
  unfold DataWriter_Close. destruct (decide (c = [])) as [->|Hne].
  - pose proof Hw as [B O D S P C SM F BO IX CH]. destruct Hwr as [_ _ Hm _]. rewrite <- O in Hm.
    destruct (write_stream to32 to16 mx Hmx U [] z0 B Hm) as (w1 & z1 & b & E1 & E2 & B1 & O1 & D1 & S1); [constructor|done|].
    injection E1 as <-. injection P as P. rewrite app_nil_r in *.
    set (z2 := (close_sink z1).2).
    rewrite (stm_bind_Ok _ _ _ tt (set_zng z2 w)) by (unfold on_zng, Zngio.Close; by rewrite <- P, E2).
    rewrite (stm_bind_Ok _ _ _ tt (set_zng z2 w)).
    2: { unfold flushSeekIndex. rewrite stm_get_l. cbn [seekMin set_zng]. by rewrite SM. }
    eexists _, bss, cs, b. split; [reflexivity|]. cbn [key_desc set_zng count zng object].
    split; try done; cbn [zng set_object set_zng seekIndex object].
    + cbn. by rewrite D1, D.
    + by rewrite IX.
    + rewrite Hlow, Hhigh, C. cbn. by rewrite (b_position _ B1), D1, D.
  - destruct (close_chunk cs bss c z0 w Hw Hne Hwr) as (z1 & b & E2 & B1 & Hclose).
    set (z2 := (close_sink z1).2). destruct (Hclose z2 eq_refl eq_refl) as (E3 & _ & D1 & S1 & IX).
    rewrite (stm_bind_Ok _ _ _ tt (set_zng z2 w)) by (unfold on_zng, Zngio.Close; by rewrite E2).
    rewrite (stm_bind_Ok _ _ _ _ _ E3).
    eexists _, (bss ++ [b]), (cs ++ [c]), []. split; [reflexivity|].
    split; try done; cbn [zng set_object flushed_index set_index set_seekMin set_trigger set_zng seekIndex object key_desc count].
    + rewrite concat_app. cbn. by rewrite app_nil_r.
    + apply Forall_app. split; [apply Hw|]. by constructor.
    + rewrite D1. by rewrite app_nil_r.
    + apply streams_nil.
    + exact (f_equal entries IX).
    + rewrite app_nil_r, Hlow, Hhigh, (w_count _ _ _ _ _ Hw), <- D1.
      change (position z2) with (position z1). by rewrite (b_position _ B1).
Qed.

Lemma NewDataWriter_writing id path desc stride :
  writing [] [] [] (NewWriter (mkSink [] None false)) (NewDataWriter id path desc stride).
Proof. split; try done; constructor. Qed.

(** Writing an object from its creation to [Close]. *)
Lemma write_object_spec id path desc stride kvs : writable kvs ->
  exists w' cs bss tail,
    (write_keyed kvs;; DataWriter_Close) (NewDataWriter id path desc stride) = (Ok tt, w') /\
    finished_object desc id kvs cs bss tail w'.
Proof.
  intros Hwr. pose proof (NewDataWriter_writing id path desc stride) as Hw0.
  destruct (write_keyed_spec kvs _ _ _ _ _ Hw0 Hwr) as (w1 & cs & bss & c & z & E1 & (_ & Hd & Hid) & Hw1 & Hall).
  cbn [concat app] in Hall. destruct (Close_spec cs bss c z w1 Hw1) as (w2 & bss' & cs' & tail & E2 & Hf).
  - rewrite <- Hall in Hwr. by apply writable_app in Hwr as [_ Hwr].
  - rewrite Hall. intros ->. by injection E1 as <-.
  - exists w2, cs', bss', tail. rewrite (stm_bind_Ok _ _ _ _ _ E1). split; [done|].
    rewrite Hd, Hid, Hall in Hf. exact Hf.
Qed.
(** ** Reading ranges *)

(** The ranges [r] are the bytes [kept] of the first [off] bytes of a file. *)
Record covers (file : list byte) (off : Z) (kept : list byte) (r : list Range) : Prop := {
  cv_kept : concat (map (section file) r) = kept;
  cv_last l : last r = Some l -> 0 <= r_Offset l /\ 0 <= r_Length l /\ r_Offset l + r_Length l <= off }.

Lemma section_extend file o n m : 0 <= o -> 0 <= n -> 0 <= m ->
  section file (mkRange o (n + m)) = section file (mkRange o n) ++ section file (mkRange (o + n) m).
Proof.
  intros Ho Hn Hm. unfold section. cbn [r_Offset r_Length]. rewrite !Z2Nat.inj_add by lia.
  rewrite <- drop_drop, take_take_drop. done.
Qed.

Lemma section_middle a b c : section (a ++ b ++ c) (mkRange (zlen a) (zlen b)) = b.
Proof. unfold section, zlen. cbn [r_Offset r_Length]. rewrite !Nat2Z.id, drop_app_length. by rewrite take_app_length. Qed.

Lemma Ranges_Append_covers a b rest kept r e :
  zlen (a ++ b) < 2 ^ 63 -> Offset e = u64 (zlen a) -> Length_ e = u64 (zlen b) ->
  covers (a ++ b ++ rest) (zlen a) kept r -> covers (a ++ b ++ rest) (zlen (a ++ b)) (kept ++ b) (Ranges_Append r e).
Proof.
  intros Hlen Ho Hl [Hk Hlast]. rewrite zlen_app in *. pose proof (zlen_nonneg a). pose proof (zlen_nonneg b).
  assert (Er : Entry_Range e = mkRange (zlen a) (zlen b)).
  { unfold Entry_Range. rewrite Ho, Hl, !i64_u64, !i64_id by lia. done. }
  assert (Eo : i64 (Offset e) = zlen a) by (rewrite Ho, i64_u64, i64_id by lia; done).
  assert (El : i64 (Length_ e) = zlen b) by (rewrite Hl, i64_u64, i64_id by lia; done).
  unfold Ranges_Append. rewrite Er, Eo, El. destruct (last r) as [l|] eqn:Elast.
  - destruct (Hlast l eq_refl) as (H1 & H2 & H3). rewrite i64_id by lia. destruct (Z.ltb_spec (r_Offset l + r_Length l) (zlen a)).
    + split; [by rewrite map_app, concat_app, Hk; cbn; rewrite section_middle, app_nil_r|].
      intros l'. rewrite last_snoc. intros [= <-]. cbn. lia.
    + apply last_Some in Elast as [r' ->]. rewrite removelast_last. split.
      * rewrite map_app, concat_app in *. cbn in *. rewrite app_nil_r in *. rewrite i64_id by lia. rewrite section_extend by lia.
        replace (r_Offset l + r_Length l) with (zlen a) by lia. rewrite section_middle, app_assoc. f_equal. rewrite <- Hk. by destruct l.
      * intros l'. rewrite last_snoc. intros [= <-]. cbn. rewrite i64_id by lia. lia.
  - apply last_None in Elast as ->. cbn in Hk. subst kept. split; [cbn; by rewrite section_middle, app_nil_r|].
    intros l'. cbn. intros [= <-]. cbn. lia.
Qed.

Lemma covers_weaken file off off' kept r : off <= off' -> covers file off kept r -> covers file off' kept r.
Proof. intros Ho [H1 H2]. split; [done|]. intros l Hl. destruct (H2 l Hl). lia. Qed.

(** The chunks whose entries a test keeps, with their bytes. *)
Fixpoint kept_chunks {B} (keeps : Entry -> bool) (es : list Entry) (xs : list B) : list B :=
  match es, xs with
  | e :: es, x :: xs => if keeps e then x :: kept_chunks keeps es xs else kept_chunks keeps es xs
  | _, _ => []
  end.

Fixpoint append_kept (keeps : Entry -> bool) (es : list Entry) (r : list Range) : list Range :=
  match es with
  | [] => r
  | e :: es => append_kept keeps es (if keeps e then Ranges_Append r e else r)
  end.

Lemma Lookup_loop_kept p es r : Lookup_loop p es r = append_kept (fun e => negb (is_true (p e))) es r.
Proof. revert r. induction es as [|e es IH]; intros r; [done|]. cbn. rewrite IH. by destruct (is_true (p e)). Qed.

Lemma append_kept_covers keeps desc rest : forall cs bss n a kept r,
  length cs = length bss -> zlen (a ++ concat bss) < 2 ^ 63 ->
  covers (a ++ concat bss ++ rest) (zlen a) kept r ->
  let es := index_from desc n (zlen a) cs bss in
  covers (a ++ concat bss ++ rest) (zlen (a ++ concat bss)) (kept ++ concat (kept_chunks keeps es bss)) (append_kept keeps es r).
Proof.
  induction cs as [|c cs IH]; intros [|b bss] n a kept r Hl Hlen Hc es; try done; subst es.
  { cbn in *. by rewrite !app_nil_r. }
  cbn [index_from kept_chunks append_kept concat] in *. rewrite <- !app_assoc in *. rewrite (app_assoc a b) in *.
  rewrite zlen_app in Hlen. pose proof (zlen_nonneg (concat bss)). rewrite <- zlen_app. 
  assert (Hc' : covers ((a ++ b) ++ concat bss ++ rest) (zlen (a ++ b))
     (kept ++ if keeps (entry_of desc n (zlen a) c b) then b else [])
     (if keeps (entry_of desc n (zlen a) c b) then Ranges_Append r (entry_of desc n (zlen a) c b) else r)).
  { destruct (keeps _).
    - rewrite <- app_assoc in *. apply Ranges_Append_covers; try done. lia.
    - rewrite app_nil_r. eapply covers_weaken; [|exact Hc]. rewrite zlen_app. pose proof (zlen_nonneg b). lia. }
  pose proof (IH bss (n + zlen c) (a ++ b) _ _ ltac:(by injection Hl) ltac:(by rewrite zlen_app) Hc') as IH'. cbv zeta in IH'.
  rewrite (app_assoc a b (concat bss)). revert IH'. destruct (keeps _); [|by rewrite app_nil_r].
  cbn [concat]. by rewrite <- (app_assoc kept b).
Qed.

(** The bytes read are those of the kept chunks, or the whole file when none
    is kept. *)
Lemma read_kept keeps desc cs bss tail : length cs = length bss -> zlen (concat bss) < 2 ^ 63 ->
  let es := index_from desc 0 0 cs bss in
  read_ranges (concat bss ++ tail) (append_kept keeps es []) =
  match append_kept keeps es [] with [] => concat bss ++ tail | _ => concat (kept_chunks keeps es bss) end.
Proof.
  intros Hl Hlen es. destruct (append_kept_covers keeps desc tail cs bss 0 [] [] [] Hl Hlen) as [Hk _]; [by split|].
  cbn [app] in Hk. change (zlen (@nil byte)) with 0 in Hk. fold es in Hk. unfold read_ranges. by destruct (append_kept keeps es []).
Qed.

Lemma append_kept_nil keeps es : append_kept keeps es [] = [] <-> Forall (fun e => keeps e = false) es.
Proof.
  clear Hmx mx. assert (Hne : forall es r, r <> [] -> append_kept keeps es r <> []).
  { clear es. induction es as [|e es IH]; intros r Hr; [done|]. cbn. apply IH. destruct (keeps e); [|done].
    unfold Ranges_Append. destruct (last r); [|done]. destruct (_ <? _); [by destruct r|by destruct (removelast r)]. }
  induction es as [|e es IH]; [by split|]. cbn. rewrite Forall_cons. destruct (keeps e) eqn:Ee.
  - split; [|by intros [? _]]. intros H. exfalso. revert H. by apply Hne.
  - rewrite IH. naive_solver.
Qed.

Lemma kept_streams keeps desc : forall cs bss n off, Forall2 streams bss (map items cs) ->
  let es := index_from desc n off cs bss in
  streams (concat (kept_chunks keeps es bss)) (concat (map items (kept_chunks keeps es cs))).
Proof.
  intros cs bss n off H es. apply streams_concat. subst es. revert n off.
  remember (map items cs) as its0 eqn:E. revert cs E.
  induction H as [|b it bss its Hb H IH]; intros [|c cs] E n off; try done.
  injection E as -> ->. cbn [index_from kept_chunks]. specialize (IH cs eq_refl (n + zlen c) (off + zlen b)).
  destruct (keeps _); [by constructor|done].
Qed.
End proofs.

(** ** Bit vectors *)

Section bits.
Local Abbreviation chunk := (list (Value * Value)).

(** A slot of a vector. *)
Definition bit (b : BitVector) (i : Z) : bool := (i <? v_len b) && Z.testbit (default 0 (Bits b !! Z.to_nat (i / 64))) (i mod 64).
(** The vector has the words its length needs. *)
Definition bits_ok (b : BitVector) : Prop := v_len b <= 64 * zlen (Bits b).

Lemma land_bit w i : 0 <= i -> negb (Z.land w (Z.shiftl 1 i) =? 0) = Z.testbit w i.
Proof.
  intros Hi. rewrite Z.shiftl_1_l. destruct (Z.testbit w i) eqn:E.
  - apply negb_true_iff, Z.eqb_neq. intros H0. apply (f_equal (fun x => Z.testbit x i)) in H0.
    rewrite Z.land_spec, E, Z.pow2_bits_true, Z.bits_0 in H0 by done. done.
  - apply negb_false_iff, Z.eqb_eq. apply Z.bits_inj. intros j. rewrite Z.land_spec, Z.bits_0, Z.pow2_bits_eqb by done.
    destruct (Z.eqb_spec i j) as [<-|]; [by rewrite E|by rewrite andb_false_r].
Qed.

Lemma bit_Value_spec b i : bits_ok b -> 0 <= i < v_len b -> bit_Value b i = Ok (bit b i).
Proof.
  intros Hb Hi. unfold bit_Value, bit. rewrite Z.shiftr_div_pow2 by lia. change (2 ^ 6) with 64.
  change 63 with (Z.ones 6). rewrite Z.land_ones by lia. change (2 ^ 6) with 64.
  rewrite (proj2 (Z.ltb_lt i (v_len b))) by lia. cbn [andb]. pose proof (Z.div_pos i 64). pose proof (Z.mod_pos_bound i 64).
  assert (i / 64 < zlen (Bits b)) by (apply Z.div_lt_upper_bound; unfold bits_ok in Hb; lia).
  destruct (lookup_lt_is_Some_2 (Bits b) (Z.to_nat (i / 64))) as [w Hw]; [unfold zlen in *; lia|]. rewrite Hw.
  cbn [default from_option id]. by rewrite land_bit by lia.
Qed.

(** A slot of the entry's values is set. *)
Definition has_set (b : BitVector) (e : Entry) : bool :=
  existsb (fun i => bit b (ValOff e + Z.of_nat i)) (seq 0 (Z.to_nat (Z.min (v_len b) (u64 (ValOff e + ValCnt e)) - ValOff e))).

Lemma any_set_spec b : bits_ok b -> forall n off, 0 <= off -> off + Z.of_nat n <= v_len b ->
  any_set b n off = Ok (existsb (fun i => bit b (off + Z.of_nat i)) (seq 0 n)).
Proof.
  intros Hb. induction n as [|n IH]; intros off Ho Hn; [done|]. cbn [any_set seq existsb]. rewrite Z.add_0_r.
  rewrite bit_Value_spec by (done || lia). cbn [mbind outcome_bind obind]. destruct (bit b off); [done|]. cbn [orb].
  rewrite IH by lia. f_equal. rewrite <- seq_shift.
  clear. induction (seq 0 n) as [|i l IHl]; [done|]. cbn. rewrite IHl. f_equal. f_equal. lia.
Qed.

Lemma selected_spec b e : bits_ok b -> 0 <= ValOff e -> selected b e = Ok (has_set b e).
Proof.
  intros Hb He. unfold selected, has_set. destruct (Z.leb_spec (Z.min (v_len b) (u64 (ValOff e + ValCnt e))) (ValOff e)).
  - replace (Z.to_nat _) with 0%nat by lia. done.
  - apply any_set_spec; [done|lia|lia].
Qed.

Lemma Filter_loop_kept b es : bits_ok b -> Forall (fun e => 0 <= ValOff e) es -> forall r,
  Filter_loop b es r = Ok (append_kept (has_set b) es r).
Proof.
  intros Hb. induction 1 as [|e es He _ IH]; intros r; [done|]. cbn [Filter_loop append_kept].
  rewrite selected_spec by done. cbn [mbind outcome_bind obind]. apply IH.
Qed.

(** The values whose slots are set, the first at slot [off]. *)
Fixpoint chosen (b : BitVector) (off : Z) (l : chunk) : chunk :=
  match l with
  | [] => []
  | kv :: l => if bit b off then kv :: chosen b (off + 1) l else chosen b (off + 1) l
  end.

Lemma chosen_app b l l' off : chosen b off (l ++ l') = chosen b off l ++ chosen b (off + zlen l) l'.
Proof.
  revert off. induction l as [|kv l IH]; intros off; cbn [app chosen]; [by rewrite Z.add_0_r|].
  rewrite IH, zlen_cons. replace (off + 1 + zlen l) with (off + (zlen l + 1)) by lia. by destruct (bit b off).
Qed.

Lemma chosen_sublist b l : forall off, sublist (chosen b off l) l.
Proof. induction l as [|kv l IH]; intros off; [constructor|]. cbn. destruct (bit b off); by constructor. Qed.

Lemma chosen_nil b l : forall off, chosen b off l = [] <-> forall i, (i < length l)%nat -> bit b (off + Z.of_nat i) = false.
Proof.
  induction l as [|kv l IH]; intros off; [split; [intros _ i Hi; cbn in Hi; lia|done]|]. cbn [chosen]. split.
  - destruct (bit b off) eqn:E; [done|]. intros H [|i] Hi; [by rewrite Z.add_0_r|].
    rewrite <- (proj1 (IH (off + 1)) H i) by (cbn in Hi; lia). f_equal. lia.
  - intros H. pose proof (H 0%nat ltac:(cbn; lia)) as H0. rewrite Z.add_0_r in H0. rewrite H0. apply IH.
    intros i Hi. rewrite <- (H (S i)) by (cbn; lia). f_equal. lia.
Qed.

(** The pieces of the values in which a slot is set, the first piece at slot
    [n]. *)
Fixpoint with_bits (b : BitVector) (n : Z) (cs : list chunk) : list chunk :=
  match cs with
  | [] => []
  | c :: cs => match chosen b n c with
               | [] => with_bits b (n + zlen c) cs
               | _ => c :: with_bits b (n + zlen c) cs
               end
  end.

Lemma with_bits_nil b cs : forall n, with_bits b n cs = [] <-> chosen b n (concat cs) = [].
Proof.
  induction cs as [|c cs IH]; intros n; [done|]. cbn [with_bits concat]. rewrite chosen_app.
  destruct (chosen b n c); [apply IH|done].
Qed.

(** The test of an entry is whether its values have a set slot. *)
Lemma has_set_chosen b e (c : chunk) :
  0 <= ValOff e -> u64 (ValOff e + ValCnt e) = ValOff e + zlen c ->
  has_set b e = match chosen b (ValOff e) c with [] => false | _ => true end.
Proof.
  intros H0 Hu. unfold has_set. rewrite Hu. pose proof (chosen_nil b c (ValOff e)) as Hn.
  destruct (chosen b (ValOff e) c) as [|kv l].
  - apply not_true_iff_false. intros (i & Hi & Hb)%existsb_exists. apply in_seq in Hi.
    rewrite (proj1 Hn eq_refl i) in Hb by (unfold zlen in *; lia). done.
  - destruct (existsb _ _) eqn:E; [done|]. enough (kv :: l = []) by done. apply Hn. intros i Hi.
    destruct (bit b (ValOff e + Z.of_nat i)) eqn:Ei; [|done]. apply not_true_iff_false in E. exfalso. apply E.
    apply existsb_exists. exists i. split; [|done]. apply in_seq.
    unfold bit in Ei. apply andb_true_iff in Ei as [Ei%Z.ltb_lt _]. unfold zlen in *. lia.
Qed.

Lemma kept_with_bits b desc : forall cs bss n off, length cs = length bss -> 0 <= n -> n + zlen (concat cs) < 2 ^ 63 ->
  kept_chunks (has_set b) (index_from desc n off cs bss) cs = with_bits b n cs.
Proof.
  induction cs as [|c cs IH]; intros [|bs bss] n off Hl Hn Hlen; try done. cbn [concat index_from kept_chunks with_bits] in *.
  rewrite zlen_app in Hlen. pose proof (zlen_nonneg c). pose proof (zlen_nonneg (concat cs)).
  rewrite (IH bss (n + zlen c) (off + zlen bs)) by (injection Hl; lia || lia).
  rewrite (has_set_chosen b _ c); cbn [entry_of ValOff ValCnt]; rewrite !u64_id by (rewrite ?u64_id; lia); [|lia|lia].
  by destruct (chosen b n c).
Qed.
Lemma kept_chunks_nil {B} keeps : forall es (cs : list B), length es = length cs ->
  kept_chunks keeps es cs = [] <-> Forall (fun e => keeps e = false) es.
Proof.
  induction es as [|e es IH]; intros [|c cs] Hl; try done. injection Hl as Hl. cbn [kept_chunks]. rewrite Forall_cons.
  destruct (keeps e); [split; [done|by intros [? _]]|]. rewrite (IH cs Hl). tauto.
Qed.

Lemma index_ValOff desc : forall cs bss n off, Forall (fun e => 0 <= ValOff e) (index_from desc n off cs bss).
Proof.
  induction cs as [|c cs IH]; intros [|b bss] n off; try constructor; [|apply IH]. cbn. apply u64_range.
Qed.
End bits.
