(* ===== verification/DataProps.v ===== *)
(** * The properties of data objects

    What is written to a data object is read back, whole or through the seek
    index, and the entries of the index and the object tell the spans of the
    keys. *)

From S2P Require Import Prelude Zcode Commits Types Context Interning Decode Primitive Values Zngio ZngTypes ZngStream ZngWriter ZngProps DataFiles DataProofs.
Local Open Scope Z_scope.

(** An entry tells the first and the last key of its values and how many they
    are. *)
Definition describes (desc : bool) (e : Entry) (c : list (Value * Value)) : Prop :=
  c <> [] /\ e_Min e = low_key desc c /\ e_Max e = high_key desc c /\ ValCnt e = u64 (zlen c).

(** The values that ranges made of the entries that a test keeps lead to: those
    of the kept entries, and all of them when there are none. *)
Definition values_of_ranges (keeps : Entry -> bool) (es : list Entry) (cs : list (list (Value * Value))) : list (Value * Value) :=
  if forallb (fun e => negb (keeps e)) es then concat cs else concat (kept_chunks keeps es cs).

Section object.
Context `{LZ : !LZ4, LZL : !LZ4Laws} (chunk : list byte -> Z -> Z) (to32 to16 : Z -> Z).

Lemma index_describes desc : forall cs bss n off, length cs = length bss -> Forall (fun c => c <> []) cs ->
  Forall2 (describes desc) (index_from desc n off cs bss) cs.
Proof.
  induction cs as [|c cs IH]; intros [|b bss] n off Hl Hc; try done. apply Forall_cons in Hc as [Hc Hcs].
  cbn [index_from]. constructor; [done|]. apply IH; [by injection Hl|done].
Qed.

(** Reading a written object through the ranges of the entries a test keeps. *)
Lemma read_object mx c sh desc id kvs cs bss tail w keeps fl fuel :
  wf c -> wf sh -> 16 <= mx < 2 ^ 62 -> plain fl -> (length kvs < fuel)%nat ->
  finished_object to32 to16 mx desc id kvs cs bss tail w -> zlen (data (writer (zng w))) < 2 ^ 63 ->
  exists all r',
    Forall2 (delivered to32 to16 (reader_context r')) (items (values_of_ranges keeps (entries (seekIndex w)) cs)) all /\
    read_all chunk to32 to16 sh mx fl fuel (read_ranges (data (writer (zng w))) (append_kept keeps (entries (seekIndex w)) [])) =
      (List.filter (keep fl) all, Ok tt, r').
Proof.
  intros Hc Hsh Hmx Hpl Hfuel [Ha Hne Hf _ Hs Ht Hi _] Hlen. rewrite Hf in *. rewrite Hi.
  set (es := index_from desc 0 0 cs bss).
  assert (Hl : length cs = length bss) by (apply Forall2_length in Hs; by rewrite length_map in Hs).
  assert (Hst : streams to32 to16 mx (read_ranges (concat bss ++ tail) (append_kept keeps es [])) (items (values_of_ranges keeps es cs))).
  { unfold es. rewrite read_kept; [|done|rewrite zlen_app in Hlen; pose proof (zlen_nonneg tail); lia]. fold es. unfold values_of_ranges.
    assert (Hmap : forall l : list (list (Value * Value)), items (concat l) = concat (map items l)).
    { intros l. unfold items. by rewrite concat_map. }
    destruct (forallb _ es) eqn:Efa.
    - rewrite (proj2 (append_kept_nil keeps es)).
      2: { apply Forall_forall. intros e He. rewrite forallb_forall in Efa. specialize (Efa e). apply list_elem_of_In in He.
        by apply negb_true_iff, Efa. }
      rewrite Hmap. rewrite <- (app_nil_r (concat (map items cs))). apply streams_app; [|done]. by apply streams_concat.
    - destruct (append_kept keeps es []) eqn:Eap.
      { apply append_kept_nil in Eap. exfalso. apply not_true_iff_false in Efa. apply Efa. apply forallb_forall. intros e He.
        apply negb_true_iff. rewrite Forall_forall in Eap. apply Eap. by apply list_elem_of_In. }
      rewrite Hmap. by apply kept_streams. }
  destruct (Hst fl (NewDecoder sh) Hpl (NewDecoder_fresh sh Hsh)) as (all & d & Hall & Hy & _ & _).
  set (bs := read_ranges _ _) in *.
  destruct (drain_yields chunk to32 to16 mx Hmx fl _ fuel _ _ _ (mkZreader (newScannerSync sh mx fl bs) []) Hy) as (r' & Er & Hr').
  - by split_and!.
  - cbn [r_vals length]. pose proof (List.filter_length_le (keep fl) all). apply Forall2_length in Hall. unfold items in Hall. rewrite length_map in Hall.
    assert (length (values_of_ranges keeps es cs) <= length (concat cs))%nat.
    { unfold values_of_ranges. destruct (forallb _ es); [done|]. clear. generalize es. induction cs as [|c cs IH]; intros [|e l]; cbn; try lia.
      destruct (keeps e); cbn; rewrite ?length_app; specialize (IH l); lia. }
    rewrite Ha in *. lia.
  - exists all, r'. destruct Hr' as ((_ & _ & _ & _ & Hd') & _ & _). unfold reader_context. rewrite Hd'. done.
Qed.

(** C13: a data object gives back what was written to it. However the seek
    stride divides the values, closing the object succeeds; its count, size
    and bounds are those of the values; the seek index describes consecutive
    pieces of them; and reading the object gives a reader, in any chunks,
    exactly these values, in order, with their bytes and types, those that its
    filter wants: all of them without a pruner or when the pruner leaves no
    entry (no ranges mean the whole object), and otherwise those of the pieces
    whose entries the pruner leaves. The filter looks at values, not at
    buffers, and the reader does not validate; each value fits in a frame of
    the reader's maximal size. *)
Theorem object_roundtrip (mx : Z) (c sh : Context) (id : ksuid) (path : list gostring) (desc : bool) (stride : Z)
    (kvs : list (Value * Value)) (pruner : option (Entry -> Value)) (fl : scan_filter) (fuel : nat) :
  wf c -> wf sh -> 16 <= mx < 2 ^ 62 -> plain fl -> writable to32 to16 mx (member c) kvs -> (length kvs < fuel)%nat ->
  exists w' cs,
    (write_keyed to32 to16 kvs;; DataWriter_Close) (NewDataWriter id path desc stride) = (Ok tt, w') /\
    concat cs = kvs /\ Forall2 (describes desc) (entries (seekIndex w')) cs /\
    object w' = mkObj id (low_key desc kvs) (high_key desc kvs) (u64 (zlen kvs)) (zlen (data (writer (zng w')))) /\
    (zlen (data (writer (zng w'))) < 2 ^ 63 ->
     let keeps e := match pruner with Some p => negb (is_true (p e)) | None => false end in
     exists all r',
       Forall2 (delivered to32 to16 (reader_context r')) (items (values_of_ranges keeps (entries (seekIndex w')) cs)) all /\
       read_all chunk to32 to16 sh mx fl fuel
         (read_ranges (data (writer (zng w'))) (LookupSeekRange pruner (entries (seekIndex w')))) =
         (List.filter (keep fl) all, Ok tt, r')).
Proof.
  intros Hc Hsh Hmx Hpl Hw Hfuel. pose proof (member_universe c Hc).
  destruct (write_object_spec to32 to16 mx Hmx (member c) id path desc stride kvs Hw) as (w' & cs & bss & tail & E1 & Hf).
  exists w', cs. pose proof Hf as [Ha Hne Hfile _ Hs _ Hi Ho].
  assert (Hl : length cs = length bss) by (apply Forall2_length in Hs; by rewrite length_map in Hs).
  split_and!; [done|done|rewrite Hi; by apply index_describes|by rewrite Hfile|].
  intros Hlen keeps. destruct (read_object mx c sh desc id kvs cs bss tail w' keeps fl fuel) as (all & r' & H1 & H2); try done.
  exists all, r'. split; [done|]. rewrite <- H2. unfold LookupSeekRange, keeps. destruct pruner as [p|]; [by rewrite Lookup_loop_kept|].
  by rewrite (proj2 (append_kept_nil (fun _ => false) _)) by (by apply Forall_forall).
Qed.
End object.

(** ** Spans *)

Section spans.
Context `{LZ : !LZ4, LZL : !LZ4Laws} (to32 to16 : Z -> Z).
Context (cmp : Value -> Value -> Z).
Hypothesis cmp_refl : forall v, cmp v v <= 0.

(** In the order of the pool. *)
Definition in_order (desc : bool) (v w : Value) : Prop := if desc then cmp w v <= 0 else cmp v w <= 0.
Definition within (lo hi : Value) (kv : Value * Value) : Prop := cmp lo kv.1 <= 0 /\ cmp kv.1 hi <= 0.

Lemma first_key_least desc c kv : StronglySorted (in_order desc) (map fst c) -> kv ∈ c -> in_order desc (first_key c) kv.1.
Proof.
  destruct c as [|kv0 c]; [by intros _ ?%elem_of_nil|]. intros Hs Hkv. cbn [map] in Hs. inversion Hs as [|?? _ Hall]; subst.
  apply elem_of_cons in Hkv as [->|Hkv]; [by destruct desc; cbn|]. rewrite Forall_forall in Hall. apply Hall.
  apply list_elem_of_fmap. by exists kv.
Qed.

Lemma last_key_greatest desc c kv : StronglySorted (in_order desc) (map fst c) -> kv ∈ c -> in_order desc kv.1 (last_key c).
Proof.
  intros Hs Hkv. destruct (last c) as [l|] eqn:El; [|apply last_None in El as ->; by apply elem_of_nil in Hkv].
  unfold last_key. rewrite El. cbn. apply last_Some in El as [c' ->]. rewrite map_app in Hs. cbn [map] in Hs.
  apply StronglySorted_app in Hs as (H & _ & _). apply elem_of_app in Hkv as [Hkv|Hkv].
  - apply H; [|by left]. apply list_elem_of_fmap. by exists kv.
  - apply list_elem_of_singleton in Hkv as ->. destruct desc; cbn; apply cmp_refl.
Qed.

Lemma keys_within desc c : StronglySorted (in_order desc) (map fst c) -> Forall (within (low_key desc c) (high_key desc c)) c.
Proof.
  intros Hs. apply Forall_forall. intros kv Hkv. unfold within, low_key, high_key.
  pose proof (first_key_least desc c kv Hs Hkv). pose proof (last_key_greatest desc c kv Hs Hkv). by destruct desc.
Qed.

(** C19: when the values are written in the order of the pool, ascending or
    descending, every entry of the seek index spans the keys of its values and
    the object's bounds span all of them: a pruner that looks at the bounds
    only prunes values that are outside of what it wants. *)
Theorem object_spans (mx : Z) (c : Context) (id : ksuid) (path : list gostring) (desc : bool) (stride : Z) (kvs : list (Value * Value)) :
  wf c -> 16 <= mx < 2 ^ 62 -> writable to32 to16 mx (member c) kvs -> StronglySorted (in_order desc) (map fst kvs) ->
  exists w' cs,
    (write_keyed to32 to16 kvs;; DataWriter_Close) (NewDataWriter id path desc stride) = (Ok tt, w') /\ concat cs = kvs /\
    Forall2 (fun e ch => Forall (within (e_Min e) (e_Max e)) ch) (entries (seekIndex w')) cs /\
    Forall (within (Min (object w')) (Max (object w'))) kvs.
Proof.
  intros Hc Hmx Hw Hsort. pose proof (member_universe c Hc).
  destruct (write_object_spec to32 to16 mx Hmx (member c) id path desc stride kvs Hw) as (w' & cs & bss & tail & E1 & [Ha Hne _ _ Hs _ Hi Ho]).
  exists w', cs. split_and!; [done|done| |].
  - assert (Hl : length cs = length bss) by (apply Forall2_length in Hs; by rewrite length_map in Hs).
    pose proof (index_describes desc cs bss 0 0 Hl Hne) as Hd. rewrite <- Hi in Hd. rewrite <- Ha in Hsort. clear -Hd Hsort cmp_refl.
    induction Hd as [|e ch es cs (_ & H1 & H2 & _) Hd IH]; [constructor|]. cbn [concat] in Hsort. rewrite map_app in Hsort.
    apply StronglySorted_app in Hsort as (_ & Hs1 & Hs2). constructor; [|by apply IH]. rewrite H1, H2. by apply keys_within.
  - rewrite Ho. cbn [Min Max]. by apply keys_within.
Qed.
End spans.

(** ** Searching by slots *)

Section search.
Context `{LZ : !LZ4, LZL : !LZ4Laws} (chunk : list byte -> Z -> Z) (to32 to16 : Z -> Z).

(** C18: reading a written object through the ranges of a bit vector over its
    values, as a search of its vectors gives it. The seek index divides the
    values into streams; there are no ranges exactly when no bit is set, and
    when there are, the reader gets all values of the streams that hold a
    value whose bit is set and no value of the others, in order: those its
    filter wants. (With no ranges at all the reader would read the whole
    object.) The filter looks at values, not at buffers, and the reader does
    not validate; each value fits in a frame of the reader's maximal size. *)
Theorem search_ranges (mx : Z) (c sh : Context) (id : ksuid) (path : list gostring) (desc : bool) (stride : Z)
    (kvs : list (Value * Value)) (b : BitVector) (fl : scan_filter) (fuel : nat) :
  wf c -> wf sh -> 16 <= mx < 2 ^ 62 -> plain fl -> writable to32 to16 mx (member c) kvs -> (length kvs < fuel)%nat ->
  bits_ok b -> zlen kvs < 2 ^ 63 ->
  exists w' cs,
    (write_keyed to32 to16 kvs;; DataWriter_Close) (NewDataWriter id path desc stride) = (Ok tt, w') /\
    concat cs = kvs /\ Forall2 (describes desc) (entries (seekIndex w')) cs /\
    (zlen (data (writer (zng w'))) < 2 ^ 63 ->
     exists ranges, RangeFromBitVector (entries (seekIndex w')) b = Ok ranges /\
       (ranges = [] <-> chosen b 0 kvs = []) /\
       (ranges <> [] ->
        exists all r', Forall2 (delivered to32 to16 (reader_context r')) (items (concat (with_bits b 0 cs))) all /\
          read_all chunk to32 to16 sh mx fl fuel (read_ranges (data (writer (zng w'))) ranges) = (List.filter (keep fl) all, Ok tt, r'))).
Proof.
  intros Hc Hsh Hmx Hpl Hw Hfuel Hb Hn. pose proof (member_universe c Hc).
  destruct (write_object_spec to32 to16 mx Hmx (member c) id path desc stride kvs Hw) as (w' & cs & bss & tail & E1 & Hf).
  pose proof Hf as [Ha Hne _ _ Hs _ Hi _].
  assert (Hl : length cs = length bss) by (apply Forall2_length in Hs; by rewrite length_map in Hs).
  pose proof (index_describes desc cs bss 0 0 Hl Hne) as Hdesc. rewrite <- Hi in Hdesc.
  exists w', cs. split_and!; [done|done|done|]. intros Hlen.
  assert (Hkept : kept_chunks (has_set b) (entries (seekIndex w')) cs = with_bits b 0 cs).
  { rewrite Hi. apply kept_with_bits; [done..|]. by rewrite Ha. }
  assert (Hnil : append_kept (has_set b) (entries (seekIndex w')) [] = [] <-> chosen b 0 kvs = []).
  { rewrite append_kept_nil, <- Ha, <- with_bits_nil, <- Hkept. symmetry. apply kept_chunks_nil. by eapply Forall2_length. }
  exists (append_kept (has_set b) (entries (seekIndex w')) []). split_and!; [|done|].
  - apply Filter_loop_kept; [done|]. rewrite Hi. apply index_ValOff.
  - intros Hne'. destruct (read_object chunk to32 to16 mx c sh desc id kvs cs bss tail w' (has_set b) fl fuel) as (all & r' & H1 & H2); try done.
    exists all, r'. split; [|done]. rewrite <- Hkept. revert H1. unfold values_of_ranges.
    destruct (forallb _ _) eqn:Efa; [|done]. exfalso. apply Hne', append_kept_nil, Forall_forall. intros e He.
    rewrite forallb_forall in Efa. apply negb_true_iff, Efa. by apply list_elem_of_In.
Qed.
End search.

(** ** Concrete objects *)

Definition demo_kvs : list (Value * Value) := map (fun n => (NewInt64 n, NewInt64 n)) [1; 2; 3; 70; 80].
Definition same (x : Z) : Z := x.
Definition any_filter : scan_filter := mkFilter None None false.
(** Prunes the entries whose keys are below 3. *)
Definition demo_pruner (e : Entry) : Value := NewBool (match Int (e_Max e) with Ok m => m <? 3 | _ => false end).

Lemma demo_writable : writable same same (2 ^ 20) (member NewContext) demo_kvs.
Proof.
  assert (Ht : transmissible (TPrim Int64)) by (apply hereditary_components; by repeat constructor).
  assert (Hi : forall n b, Value_Bytes same same (NewInt64 n) = Ok b -> zlen (default [] b) <= 20 ->
                 sendable same same (2 ^ 20) (member NewContext) DefaultOpts (IValue (NewInt64 n))).
  { intros n b H1 H2. split; [done|]. split; [done|]. split; [done|]. exists b. split; [done|].
    change (slack DefaultOpts) with 524288. lia. }
  split; [|done|done|].
  - unfold demo_kvs, items. cbn [map snd].
    repeat (apply Forall_cons_2; [eapply Hi; [vm_compute; reflexivity|done]|]). apply Forall_nil_2.
  - unfold demo_kvs. cbn [map]. repeat (apply Forall_cons_2; [eexists; vm_compute; reflexivity|]). apply Forall_nil_2.
Qed.

Lemma object_roundtrip_witness :
  exists w' cs,
    (write_keyed (LZ := runs) same same demo_kvs;; DataWriter_Close (LZ := runs)) (NewDataWriter 7 [] false 2) = (Ok tt, w') /\
    concat cs = demo_kvs /\ Forall2 (describes false) (entries (seekIndex w')) cs /\
    object w' = mkObj 7 (NewInt64 1) (NewInt64 80) 5 (zlen (data (writer (zng w')))) /\
    (zlen (data (writer (zng w'))) < 2 ^ 63 ->
     exists all r',
       Forall2 (delivered same same (reader_context r'))
         (items (values_of_ranges (fun e => negb (is_true (demo_pruner e))) (entries (seekIndex w')) cs)) all /\
       read_all (LZ := runs) (fun _ n => n) same same NewContext (2 ^ 20) any_filter 6
         (read_ranges (data (writer (zng w'))) (LookupSeekRange (Some demo_pruner) (entries (seekIndex w')))) =
         (List.filter (keep any_filter) all, Ok tt, r')).
Proof.
  set (LZ := runs). pose proof runs_laws as LZL.
  apply (object_roundtrip (fun _ n => n) same same (2 ^ 20) NewContext NewContext 7 [] false 2 demo_kvs (Some demo_pruner) any_filter 6);
    [apply NewContext_wf|apply NewContext_wf|done|done|apply demo_writable|unfold demo_kvs; simpl; lia].
Defined.

(** A total preorder of keys by their integers. *)
Definition demo_cmp (v w : Value) : Z :=
  match Int v, Int w with Ok i, Ok j => int_compare i j | _, _ => 0 end.

Lemma object_spans_witness :
  exists w' cs,
    (write_keyed (LZ := runs) same same demo_kvs;; DataWriter_Close (LZ := runs)) (NewDataWriter 7 [] false 2) = (Ok tt, w') /\ concat cs = demo_kvs /\
    Forall2 (fun e ch => Forall (within demo_cmp (e_Min e) (e_Max e)) ch) (entries (seekIndex w')) cs /\
    Forall (within demo_cmp (Min (object w')) (Max (object w'))) demo_kvs.
Proof.
  set (LZ := runs). pose proof runs_laws as LZL.
  refine (object_spans same same demo_cmp _ (2 ^ 20) NewContext 7 [] false 2 demo_kvs NewContext_wf _ demo_writable _); [|done|].
  - intros v. unfold demo_cmp, int_compare. destruct (Int v); [|done..]. by rewrite Z.ltb_irrefl.
  - unfold demo_kvs. cbn [map fst].
    repeat (apply SSorted_cons; [|repeat (apply Forall_cons_2; [vm_compute; discriminate|]); apply Forall_nil_2]). apply SSorted_nil.
Defined.

Lemma search_ranges_witness :
  exists w' cs,
    (write_keyed (LZ := runs) same same demo_kvs;; DataWriter_Close (LZ := runs)) (NewDataWriter 7 [] false 2) = (Ok tt, w') /\
    concat cs = demo_kvs /\ Forall2 (describes false) (entries (seekIndex w')) cs /\
    (zlen (data (writer (zng w'))) < 2 ^ 63 ->
     exists ranges, RangeFromBitVector (entries (seekIndex w')) (mkBits 5 [18]) = Ok ranges /\
       (ranges = [] <-> chosen (mkBits 5 [18]) 0 demo_kvs = []) /\
       (ranges <> [] ->
        exists all r', Forall2 (delivered same same (reader_context r')) (items (concat (with_bits (mkBits 5 [18]) 0 cs))) all /\
          read_all (LZ := runs) (fun _ n => n) same same NewContext (2 ^ 20) any_filter 6 (read_ranges (data (writer (zng w'))) ranges) =
            (List.filter (keep any_filter) all, Ok tt, r'))).
Proof.
  set (LZ := runs). pose proof runs_laws as LZL.
  apply (search_ranges (fun _ n => n) same same (2 ^ 20) NewContext NewContext 7 [] false 2 demo_kvs (mkBits 5 [18]) any_filter 6);
    [apply NewContext_wf|apply NewContext_wf|done|done|apply demo_writable|unfold demo_kvs; simpl; lia|done|done].
Defined.

(** an object whose entries are all pruned is read whole: no ranges mean the
    whole object to the reader. *)
Theorem pruned_object_read_whole (p : Entry -> Value) (es : list Entry) (file : list byte) :
  Forall (fun e => is_true (p e) = true) es -> read_ranges file (LookupSeekRange (Some p) es) = file.
Proof.
  intros H. unfold LookupSeekRange. rewrite Lookup_loop_kept. rewrite (proj2 (append_kept_nil _ _)); [done|].
  eapply Forall_impl; [exact H|]. intros e He. by rewrite He.
Qed.
