(* ===== verification/Scan.v ===== *)
(** * Scanning a pool in order

    The path of a scan through [src/runtime/sam/op/meta]: the lister orders the
    data objects of a view ([lister.go], [pruner.go]), the slicer groups the
    overlapping ones into partitions ([slicer.go]) and the sequence scanner
    scans one partition after the other, merging the objects of each
    ([sequence.go]); with the spans of [src/runtime/sam/expr/extent/span.go].

    Objects and partitions pass from operator to operator as ZNG values that
    [zson] marshals; here they are passed as they are.  The mutex of an operator
    makes its [Pull]s one step each. *)

From S2P Require Import Prelude Zcode Commits Types Context Primitive Values Compare Heap Merge.
Local Open Scope Z_scope.

(** ** Spans *)

Section extent.
Context {E : Type} (cmp : Value -> Value -> outcome E Z).

(** [extent.Generic]: a closed interval. *)
Record Generic := mkGeneric { g_first : Value; g_last : Value }.

Definition NewGeneric (lower upper : Value) : outcome E Generic :=
  c ← cmp lower upper; Ok (if 0 <? c then mkGeneric upper lower else mkGeneric lower upper).

Definition In_ (g : Generic) (val : Value) : outcome E bool :=
  c ← cmp val (g_first g);
  if 0 <=? c then c ← cmp val (g_last g); Ok (c <=? 0) else Ok false.
Definition After (g : Generic) (val : Value) : outcome E bool := c ← cmp val (g_last g); Ok (0 <? c).
Definition Before (g : Generic) (val : Value) : outcome E bool := c ← cmp val (g_first g); Ok (c <? 0).

Definition Generic_Overlaps (g : Generic) (first last : Value) : outcome E bool :=
  c ← cmp first (g_first g);
  if 0 <=? c then c ← cmp first (g_last g); Ok (c <=? 0)
  else c ← cmp last (g_first g); Ok (0 <=? c).

(** [Crop] and [Extend] change the receiver. *)
Definition Crop (g s : Generic) : outcome E (bool * Generic) :=
  c ← cmp (g_first s) (g_first g);
  let g := if 0 <? c then mkGeneric (g_first s) (g_last g) else g in
  c ← cmp (g_last s) (g_last g);
  let g := if c <? 0 then mkGeneric (g_first g) (g_last s) else g in
  c ← cmp (g_first g) (g_last g);
  Ok (c <=? 0, g).
Definition Extend (g : Generic) (val : Value) : outcome E Generic :=
  c ← cmp val (g_first g);
  if c <? 0 then Ok (mkGeneric val (g_last g))
  else c ← cmp val (g_last g); Ok (if 0 <? c then mkGeneric (g_first g) val else g).
End extent.

(** [extent.Overlaps]: [b] has its own comparison. *)
Definition Overlaps {E} (cmp_b : Value -> Value -> outcome E Z) (a b : Generic) : outcome E bool :=
  before ← Before cmp_b b (g_last a);
  if before : bool then Ok false else after ← After cmp_b b (g_first a); Ok (negb after).

Section scan.
Context (to32 of32 to16 of16 : Z -> Z).
Local Abbreviation dobject := (dobject Value).

(** The comparison of [expr.NewValueCompareFn]. *)
Definition value_cmp (o nullsMax : bool) (a b : Value) : outcome diverge Z :=
  Compare to32 of32 to16 of16 (NewValueCompareFn o nullsMax) a b.

(** [NewGenericFromOrder] and [Object.Span] *)
Definition NewGenericFromOrder (first last : Value) (o : bool) : outcome diverge Generic :=
  NewGeneric (value_cmp o (negb o)) first last.
Definition Object_Span (d : dobject) (o : bool) : outcome diverge Generic := NewGenericFromOrder (Min d) (Max d) o.

(** ** Lister *)

(** The [lessFunc] of [sortObjects]. *)
Definition object_less (o : bool) (a b : dobject) : outcome diverge bool :=
  let '(aFrom, aTo, bFrom, bTo) := if o then (Max a, Min a, Max b, Min b) else (Min a, Max a, Min b, Max b) in
  c ← value_cmp o true aFrom bFrom;
  if c <? 0 then Ok true
  else
    af ← no_error (Value_Bytes to32 to16 aFrom); bf ← no_error (Value_Bytes to32 to16 bFrom);
    if negb (bool_decide (default [] af = default [] bf)) then Ok false
    else
      at_ ← no_error (Value_Bytes to32 to16 aTo); bt ← no_error (Value_Bytes to32 to16 bTo);
      if bool_decide (default [] at_ = default [] bt) then Ok false
      else c ← value_cmp o true aTo bTo; Ok (c <? 0).
Definition sortObjects (o : bool) (objects : list dobject) : outcome diverge (list dobject) := SliceStable (object_less o) objects.

Definition initObjectScan {W} `{!View Value W} (snap : W) (o : bool) : outcome diverge (list dobject) :=
  sortObjects o (Select snap (fun _ => true)).

(** [pruner.prune]: the predicate is given as its value on the marshaled
    object. *)
Definition prune (p : option (dobject -> Value)) (d : dobject) : bool :=
  match p with
  | None => false
  | Some pred =>
      match v_type (pred d) with
      | TPrim Bool => match Bool_ (pred d) with Ok b => b | _ => false end
      | _ => false
      end
  end.

Section lister.
Context {W : Type} `{!View Value W}.

(** [objects] is nil before the first pull. *)
Record Lister := mkLister { snap : W; l_order : bool; l_pruner : option (dobject -> Value); objects : option (list dobject) }.
Definition NewSortedListerFromSnap (snap : W) (order : bool) (pruner : option (dobject -> Value)) : Lister :=
  mkLister snap order pruner None.

(** The loop over the objects that are left. *)
Fixpoint Lister_loop (p : option (dobject -> Value)) (os : list dobject) : option dobject * list dobject :=
  match os with
  | [] => (None, [])
  | o :: os => if prune p o then Lister_loop p os else (Some o, os)
  end.
Definition Lister_Pull : stm Lister diverge (option dobject) :=
  l ← get;
  os ← match objects l with Some os => mret os | None => lift_out (initObjectScan (snap l) (l_order l)) end;
  let '(r, os) := Lister_loop (l_pruner l) os in
  modify (fun l => mkLister (snap l) (l_order l) (l_pruner l) (Some os));;
  mret r.
End lister.

(** ** Slicer *)

Record Partition := mkPartition { p_Min : Value; p_Max : Value; p_Objects : list dobject }.
Definition Partition_IsZero (p : Partition) : bool := bool_decide (p_Objects p = []).

(** [parent] is what the parent still gives. *)
Record Slicer := mkSlicer { parent : list dobject; stashed : list dobject; s_min : option Value; s_max : option Value }.
Definition NewSlicer (parent : list dobject) : Slicer := mkSlicer parent [] None None.
Definition slicer_cmp : Value -> Value -> outcome diverge Z := value_cmp false true.

Fixpoint hull (min max : Value) (os : list dobject) : outcome diverge (Value * Value) :=
  match os with
  | [] => Ok (min, max)
  | o :: os =>
      c ← slicer_cmp (Min o) min;
      let min := if c <? 0 then Min o else min in
      c ← slicer_cmp (Max o) max;
      let max := if 0 <? c then Max o else max in
      hull min max os
  end.
Definition nextPartition : stm Slicer diverge (option Partition) :=
  s ← get;
  match stashed s with
  | [] => mret None
  | o :: os =>
      '(min, max) ← lift_out (hull (Min o) (Max o) os);
      modify (fun s => mkSlicer (parent s) [] (s_min s) (s_max s));;
      mret (Some (mkPartition min max (o :: os)))
  end.

(** A test of [stash] with a bound that may be nil. *)
Definition bound_test (b : option Value) (test : Value -> outcome diverge bool) : outcome diverge bool :=
  match b with None => Panic | Some v => test v end.
Definition nil_or (b : option Value) (test : Value -> outcome diverge bool) : outcome diverge bool :=
  match b with None => Ok true | Some v => test v end.

(** The end of [stash]: the object is collected and the bounds grow. *)
Definition collect (o : dobject) : stm Slicer diverge unit :=
  modify (fun s => mkSlicer (parent s) (stashed s ++ [o]) (s_min s) (s_max s));;
  s ← get;
  lower ← lift_out (nil_or (s_min s) (fun m => c ← slicer_cmp m (Min o); Ok (0 <? c)));
  modify (fun s => if lower : bool then mkSlicer (parent s) (stashed s) (Some (Min o)) (s_max s) else s);;
  s ← get;
  higher ← lift_out (nil_or (s_max s) (fun m => c ← slicer_cmp m (Max o); Ok (c <? 0)));
  modify (fun s => if higher : bool then mkSlicer (parent s) (stashed s) (s_min s) (Some (Max o)) else s).

(** Its test: the object overlaps nothing collected so far. *)
Definition is_apart (o : dobject) (s : Slicer) : outcome diverge bool :=
  match stashed s with
  | [] => Ok false
  | _ =>
      below ← bound_test (s_min s) (fun m => c ← slicer_cmp (Max o) m; Ok (c <? 0));
      if below : bool then Ok true else bound_test (s_max s) (fun m => c ← slicer_cmp (Min o) m; Ok (0 <? c))
  end.

Definition stash (o : dobject) : stm Slicer diverge (option Partition) :=
  s ← get;
  apart ← lift_out (is_apart o s);
  if apart : bool then
    b ← nextPartition;
    modify (fun s => mkSlicer (parent s) (stashed s) None None);;
    collect o;; mret b
  else collect o;; mret None.

(** The loop of [Pull] over what the parent gives. *)
Fixpoint Slicer_loop (os : list dobject) : stm Slicer diverge (option Partition) :=
  match os with
  | [] => nextPartition
  | o :: os =>
      modify (fun s => mkSlicer os (stashed s) (s_min s) (s_max s));;
      b ← stash o;
      match b with Some p => mret (Some p) | None => Slicer_loop os end
  end.
Definition Slicer_Pull : stm Slicer diverge (option Partition) := s ← get; Slicer_loop (parent s).
End scan.

(** ** The order of records

    [src/zbuf/merger.go]: the comparators of records by sort keys, ties broken by
    the bytes of the whole value.  [dotted] is the evaluator of a field path. *)
Section record_order.
Context (to32 to16 : Z -> Z) (dotted : list gostring -> Value -> Value).

Record SortKey := mkSortKey { k_Order : bool; k_Key : list gostring }.

Definition valueAsBytes (v : Value) : Value :=
  NewBytes (match Value_Bytes to32 to16 v with Ok b => b | _ => None end).
Definition key_evals (sortKeys : list SortKey) : list SortEvaluator :=
  map (fun k => mkSortEvaluator (dotted (k_Key k)) (k_Order k)) sortKeys.
(** [zbuf.NewComparator]; without sort keys it panics. *)
Definition NewMergeComparator (sortKeys : list SortKey) : option Comparator :=
  match sortKeys with
  | [] => None
  | k :: _ =>
      Some (WithMissingAsNull to32 to16
        (NewComparator (negb (k_Order k)) (key_evals sortKeys ++ [mkSortEvaluator valueAsBytes false])))
  end.
Definition NewComparatorNullsMax (sortKeys : list SortKey) : Comparator :=
  let o := match sortKeys with [] => false | k :: _ => k_Order k end in
  WithMissingAsNull to32 to16 (NewComparator true (key_evals sortKeys ++ [mkSortEvaluator valueAsBytes o])).
End record_order.

(** ** Sequence scanner *)

Section sequence.
Context {E : Type} (to32 to16 : Z -> Z) (cmp : Value -> Value -> outcome E Z).
Local Abbreviation dobject := (dobject Value).
(** Opening the scanner of an object, with the ranges of its seek index, and
    what it gives. *)
Context (newObjectScanner : dobject -> outcome E (list (result E))).

Inductive obj_scanner := Single (results : list (result E)) | Merging (o : Op E).

(** [newObjectsScanner] *)
Definition newObjectsScanner (os : list dobject) : outcome E obj_scanner :=
  pullers ← mapM newObjectScanner os;
  match pullers with
  | [p] => Ok (Single p)
  | _ => Ok (Merging (New pullers))
  end.

(** [statScanner.Pull]: past the end it gives the end again. *)
Definition single_Pull (done : bool) : stm (list (result E)) E (option (list Value)) := fun rs =>
  if done then (Ok None, [])
  else
    match rs with
    | Batch vs :: rs => (Ok (Some vs), rs)
    | EOS :: _ | [] => (Ok None, [])
    | Failed e :: _ => (Err e, [Failed e])
    end.
Definition scanner_Pull (done : bool) : stm obj_scanner E (option (list Value)) := fun s =>
  match s with
  | Single rs => let '(r, rs) := single_Pull done rs in (r, Single rs)
  | Merging o => let '(r, o) := Merge.Pull to32 to16 cmp done o in (r, Merging o)
  end.

Record SequenceScanner := mkSequence {
  partitions : list (list dobject);
  scanner : option obj_scanner;
  seq_done : bool;
  seq_err : option E;
}.
Definition NewSequenceScanner (ps : list (list dobject)) : SequenceScanner := mkSequence ps None false None.

Definition close (err : option E) (s : SequenceScanner) : SequenceScanner := mkSequence (partitions s) (scanner s) true err.
Definition set_scanner (sc : option obj_scanner) (s : SequenceScanner) : SequenceScanner :=
  mkSequence (partitions s) sc (seq_done s) (seq_err s).

(** A step that may fail closes the scanner with the error. *)
Definition or_close {A} (m : stm SequenceScanner E A) : stm SequenceScanner E A := fun s =>
  match m s with (Err e, s) => (Err e, close (Some e) s) | r => r end.

Definition pull_scanner (done : bool) : stm SequenceScanner E (option (list Value)) := fun s =>
  match scanner s with
  | None => (Panic, s)
  | Some sc => let '(r, sc) := scanner_Pull done sc in (r, set_scanner (Some sc) s)
  end.

(** The loop of [Pull] from where it has no scanner. *)
Fixpoint Sequence_loop (ps : list (list dobject)) : stm SequenceScanner E (option (list Value)) :=
  match ps with
  | [] => modify (close None);; mret None
  | p :: ps =>
      modify (fun s => mkSequence ps (scanner s) (seq_done s) (seq_err s));;
      sc ← or_close (lift_out (newObjectsScanner p));
      modify (set_scanner (Some sc));;
      b ← or_close (pull_scanner false);
      match b with
      | Some b => mret (Some b)
      | None => modify (set_scanner None);; Sequence_loop ps
      end
  end.

Definition Sequence_Pull (done : bool) : stm SequenceScanner E (option (list Value)) :=
  s ← get;
  let result := match seq_err s with Some e => throw e | None => mret None end in
  if seq_done s then result
  else if done then
    match scanner s with
    | None => result
    | Some _ =>
        (fun s =>
           match pull_scanner true s with
           | (Panic, s) => (Panic, s)
           | (Ok _, s) => (Ok None, set_scanner None (close None s))
           | (Err e, s) => (Err e, set_scanner None (close (Some e) s))
           end)
    end
  else
    match scanner s with
    | None => Sequence_loop (partitions s)
    | Some _ =>
        b ← or_close (pull_scanner false);
        match b with
        | Some b => mret (Some b)
        | None => modify (set_scanner None);; s ← get; Sequence_loop (partitions s)
        end
    end.
End sequence.
Arguments obj_scanner : clear implicits.
Arguments SequenceScanner : clear implicits.
