(* ===== verification/ScanProofs.v ===== *)
(** * Ordering and slicing objects *)

From S2P Require Import Prelude Zcode Commits Types Context Interning Primitive Values Compare CompareProofs Scan.
Local Open Scope Z_scope.

(** What a comparison promises on good values: it returns what the total
    preorder [c] says. *)
Class KeyOrder {E} (cmp : Value -> Value -> outcome E Z) (c : Value -> Value -> Z) (good : Value -> Prop) : Prop := {
  ko_cmp v w : good v -> good w -> cmp v w = Ok (c v w);
  ko_antisym v w : c w v = - c v w;
  ko_trans u v w : c u v <= 0 -> c v w <= 0 -> c u w <= 0 }.

(** ** Spans *)

Section extent.
Context {E : Type} {cmp : Value -> Value -> outcome E Z} {c : Value -> Value -> Z} {good : Value -> Prop} `{KO : !KeyOrder cmp c good}.

Lemma key_antisym v w : c w v = - c v w.
Proof. apply (ko_antisym (KeyOrder := KO)). Qed.
Lemma key_trans u v w : c u v <= 0 -> c v w <= 0 -> c u w <= 0.
Proof. apply (ko_trans (KeyOrder := KO)). Qed.
Lemma key_cmp v w : good v -> good w -> cmp v w = Ok (c v w).
Proof. apply (ko_cmp (KeyOrder := KO)). Qed.
Lemma key_refl v : c v v <= 0.
Proof. pose proof (key_antisym v v). lia. Qed.
Lemma key_lt_le u v w : c u v < 0 -> c v w <= 0 -> c u w < 0.
Proof.
  intros H1 H2. destruct (Z.ltb_spec (c u w) 0); [done|]. pose proof (key_trans v w u H2) as H3.
  rewrite (key_antisym u w), (key_antisym u v) in H3. lia.
Qed.
Lemma key_le_lt u v w : c u v <= 0 -> c v w < 0 -> c u w < 0.
Proof.
  intros H1 H2. destruct (Z.ltb_spec (c u w) 0); [done|]. pose proof (key_trans w u v) as H3.
  rewrite (key_antisym u w), (key_antisym v w) in H3. lia.
Qed.

(** The values of a span. *)
Definition spans (g : Generic) (v : Value) : Prop := c (g_first g) v <= 0 /\ c v (g_last g) <= 0.
Definition good_span (g : Generic) : Prop := good (g_first g) /\ good (g_last g).

Lemma In_spec g v : good_span g -> good v -> exists b, In_ cmp g v = Ok b /\ (b = true <-> spans g v).
Proof.
  intros [Hf Hl] Hv. unfold In_, spans. rewrite !key_cmp by done. cbn [mbind outcome_bind obind].
  rewrite (key_antisym v (g_first g)). destruct (Z.leb_spec 0 (c v (g_first g))); eexists; (split; [done|]).
  - rewrite Z.leb_le. lia.
  - split; [done|]. lia.
Qed.

Lemma NewGeneric_spec l u : good l -> good u ->
  exists g, NewGeneric cmp l u = Ok g /\ good_span g /\ c (g_first g) (g_last g) <= 0 /\
    forall v, spans g v <-> (c l v <= 0 /\ c v u <= 0) \/ (c u v <= 0 /\ c v l <= 0).
Proof.
  intros Hl Hu. unfold NewGeneric. rewrite key_cmp by done. cbn [mbind outcome_bind obind].
  destruct (Z.ltb_spec 0 (c l u)) as [Hlt|Hge]; eexists; (split; [done|]); unfold spans; cbn [g_first g_last].
  - split_and!; [by split|rewrite (key_antisym l u); lia|]. intros v. split; [by right|].
    intros [[H1 H2]|?]; [|done]. pose proof (key_trans l v u H1 H2). lia.
  - split_and!; [by split|done|]. intros v. split; [by left|]. intros [?|[H1 H2]]; [done|].
    pose proof (key_trans u v l H1 H2) as H3. rewrite (key_antisym l u) in H3. assert (c l u = 0) by lia.
    split; [apply (key_trans l u v); [lia|done]|apply (key_trans v l u); [done|lia]].
Qed.

Lemma Overlaps_spec g f l : good_span g -> good f -> good l -> c (g_first g) (g_last g) <= 0 -> c f l <= 0 ->
  exists b, Generic_Overlaps cmp g f l = Ok b /\ (b = true <-> exists v, good v /\ spans g v /\ spans (mkGeneric f l) v).
Proof.
  intros [Hgf Hgl] Hf Hl Hg Hfl. unfold Generic_Overlaps, spans. rewrite !key_cmp by done. cbn [mbind outcome_bind obind g_first g_last].
  pose proof (key_antisym f (g_first g)) as Ha. pose proof (key_antisym l (g_first g)) as Hb.
  destruct (Z.leb_spec 0 (c f (g_first g))); eexists; (split; [done|]); rewrite Z.leb_le; split.
  - intros ?. exists f. pose proof (key_refl f). split_and!; try done; lia.
  - intros (v & _ & [_ H1] & [H2 _]). by apply (key_trans f v).
  - intros ?. exists (g_first g). pose proof (key_refl (g_first g)). split_and!; try done; lia.
  - intros (v & _ & [H1 _] & [_ H2]). pose proof (key_trans (g_first g) v l H1 H2). lia.
Qed.

Lemma Crop_spec g s : good_span g -> good_span s ->
  exists b g', Crop cmp g s = Ok (b, g') /\ good_span g' /\ (forall v, spans g' v <-> spans g v /\ spans s v) /\
    (b = true <-> exists v, good v /\ spans g v /\ spans s v).
Proof.
  intros [Hgf Hgl] [Hsf Hsl]. unfold Crop. rewrite !key_cmp by done. cbn [mbind outcome_bind obind].
  set (g1 := if 0 <? c (g_first s) (g_first g) then mkGeneric (g_first s) (g_last g) else g).
  assert (H1 : good_span g1 /\ g_last g1 = g_last g /\ forall v, c (g_first g1) v <= 0 <-> c (g_first g) v <= 0 /\ c (g_first s) v <= 0).
  { subst g1. destruct (Z.ltb_spec 0 (c (g_first s) (g_first g))); (split; [done|]); (split; [done|]); intros v; cbn [g_first]; (split; [|tauto]); intros Hv.
    - split; [|done]. apply (key_trans _ (g_first s)); [|done]. rewrite key_antisym. lia.
    - split; [done|]. by apply (key_trans _ (g_first g)). }
  destruct H1 as ([Hf1 Hl1] & El & H1). rewrite key_cmp by done. cbn [mbind outcome_bind obind].
  set (g2 := if c (g_last s) (g_last g1) <? 0 then mkGeneric (g_first g1) (g_last s) else g1).
  assert (H2 : good_span g2 /\ g_first g2 = g_first g1 /\ forall v, c v (g_last g2) <= 0 <-> c v (g_last g) <= 0 /\ c v (g_last s) <= 0).
  { rewrite <- El. subst g2. destruct (Z.ltb_spec (c (g_last s) (g_last g1)) 0); (split; [done|]); (split; [done|]); intros v; cbn [g_last];
      (split; [|tauto]); intros Hv.
    - split; [|done]. apply (key_trans _ (g_last s)); [done|lia].
    - split; [done|]. apply (key_trans _ (g_last g1)); [done|]. rewrite key_antisym. lia. }
  destruct H2 as ([Hf2 Hl2] & Ef & H2). rewrite key_cmp by done. cbn [mbind outcome_bind obind].
  assert (Hin : forall v, spans g2 v <-> spans g v /\ spans s v).
  { intros v. unfold spans. rewrite Ef, H1, H2. tauto. }
  eexists _, g2. split; [done|]. split_and!; [done|done|]. rewrite Z.leb_le. split.
  - intros Hle. exists (g_first g2). split; [done|]. apply Hin. split; [apply key_refl|done].
  - intros (v & _ & Hv). apply Hin in Hv as [Ha Hb]. by apply (key_trans _ v).
Qed.

Lemma Extend_spec g v : good_span g -> good v -> c (g_first g) (g_last g) <= 0 ->
  exists g', Extend cmp g v = Ok g' /\ good_span g' /\ spans g' v /\ (forall w, spans g w -> spans g' w) /\
    forall h, spans h (g_first g) -> spans h (g_last g) -> spans h v -> forall w, spans g' w -> spans h w.
Proof.
  intros [Hgf Hgl] Hv Hg. unfold Extend, spans. rewrite !key_cmp by done. cbn [mbind outcome_bind obind].
  pose proof (key_refl v) as Hr. pose proof (key_antisym v (g_first g)) as Ha. pose proof (key_antisym v (g_last g)) as Hb.
  destruct (Z.ltb_spec (c v (g_first g)) 0) as [H1|H1]; [|destruct (Z.ltb_spec 0 (c v (g_last g))) as [H2|H2]];
    eexists; (split; [done|]); (split; [done|]); cbn [g_first g_last].
  - split_and!; [done|by apply (key_trans _ (g_first g)); [lia|]| |].
    + intros w [H3 H4]. split; [|done]. apply (key_trans _ (g_first g)); [lia|done].
    + intros h [H3 H4] [H5 H6] [H7 H8] w [H9 H10]. split; [by apply (key_trans _ v)|by apply (key_trans _ (g_last g))].
  - split_and!; [lia|done| |].
    + intros w [H3 H4]. split; [done|]. apply (key_trans _ (g_last g)); [done|lia].
    + intros h [H3 H4] [H5 H6] [H7 H8] w [H9 H10]. split; [by apply (key_trans _ (g_first g))|by apply (key_trans _ v)].
  - split_and!; [lia|lia|done|].
    intros h [H3 H4] [H5 H6] [H7 H8] w [H9 H10]. split; [by apply (key_trans _ (g_first g))|by apply (key_trans _ (g_last g))].
Qed.
End extent.

(** ** Slicing *)

Section slicing.
Context (to32 of32 to16 of16 : Z -> Z) {c : Value -> Value -> Z} {good : Value -> Prop}
  `{KO : !KeyOrder (slicer_cmp to32 of32 to16 of16) c good}.
Local Abbreviation dobject := (dobject Value).
Local Abbreviation slicer_cmp := (slicer_cmp to32 of32 to16 of16).
Implicit Types (o : dobject) (os st : list dobject).

(** The bounds of an object are comparable and in order. *)
Definition valid o : Prop := good (Min o) /\ good (Max o) /\ c (Min o) (Max o) <= 0.

Definition least_of (m : Value) os : Value := fold_left (fun m o => if c (Min o) m <? 0 then Min o else m) os m.
Definition greatest_of (m : Value) os : Value := fold_left (fun m o => if 0 <? c (Max o) m then Max o else m) os m.

Definition is_hull (mn mx : Value) os : Prop :=
  Forall (fun o => c mn (Min o) <= 0 /\ c (Max o) mx <= 0) os /\ (exists o, o ∈ os /\ mn = Min o) /\ (exists o, o ∈ os /\ mx = Max o).

Lemma least_of_spec os : forall m, (least_of m os = m \/ exists o, o ∈ os /\ least_of m os = Min o) /\ c (least_of m os) m <= 0 /\
  Forall (fun o => c (least_of m os) (Min o) <= 0) os.
Proof.
  induction os as [|o os IH]; intros m; cbn [least_of fold_left]; [pose proof (key_refl m); split_and!; [by left|done|constructor]|].
  fold (least_of (if c (Min o) m <? 0 then Min o else m) os). set (m' := if c (Min o) m <? 0 then Min o else m) in *.
  destruct (IH m') as (H1 & H2 & H3). assert (Hm : c m' m <= 0 /\ c m' (Min o) <= 0 /\ (m' = m \/ m' = Min o)).
  { subst m'. pose proof (key_refl m). pose proof (key_refl (Min o)). pose proof (key_antisym m (Min o)).
    destruct (Z.ltb_spec (c (Min o) m) 0); split_and!; try lia; auto. }
  destruct Hm as (M1 & M2 & M3). split_and!.
  - destruct H1 as [->|(o' & Ho & ->)]; [|right; exists o'; split; [by right|done]].
    destruct M3 as [->| ->]; [by left|right; exists o; split; [by left|done]].
  - by apply (key_trans _ m').
  - constructor; [by apply (key_trans _ m')|done].
Qed.

Lemma greatest_of_spec os : forall m, (greatest_of m os = m \/ exists o, o ∈ os /\ greatest_of m os = Max o) /\ c m (greatest_of m os) <= 0 /\
  Forall (fun o => c (Max o) (greatest_of m os) <= 0) os.
Proof.
  induction os as [|o os IH]; intros m; cbn [greatest_of fold_left]; [pose proof (key_refl m); split_and!; [by left|done|constructor]|].
  fold (greatest_of (if 0 <? c (Max o) m then Max o else m) os). set (m' := if 0 <? c (Max o) m then Max o else m) in *.
  destruct (IH m') as (H1 & H2 & H3). assert (Hm : c m m' <= 0 /\ c (Max o) m' <= 0 /\ (m' = m \/ m' = Max o)).
  { subst m'. pose proof (key_refl m). pose proof (key_refl (Max o)). pose proof (key_antisym m (Max o)).
    destruct (Z.ltb_spec 0 (c (Max o) m)); split_and!; try lia; auto. }
  destruct Hm as (M1 & M2 & M3). split_and!.
  - destruct H1 as [->|(o' & Ho & ->)]; [|right; exists o'; split; [by right|done]].
    destruct M3 as [->| ->]; [by left|right; exists o; split; [by left|done]].
  - by apply (key_trans _ m').
  - constructor; [by apply (key_trans _ m')|done].
Qed.

(** The hull of a group of objects. *)
Definition group_min os : Value := match os with o :: os => least_of (Min o) os | [] => NullValue end.
Definition group_max os : Value := match os with o :: os => greatest_of (Max o) os | [] => NullValue end.

Lemma group_hull os : os <> [] -> is_hull (group_min os) (group_max os) os.
Proof.
  destruct os as [|o os]; [done|]. intros _. cbn. destruct (least_of_spec os (Min o)) as (A1 & A2 & A3).
  destruct (greatest_of_spec os (Max o)) as (B1 & B2 & B3). split_and!.
  - constructor; [done|]. apply Forall_and. by split.
  - destruct A1 as [->|(o' & Ho & ->)]; [exists o|exists o']; (split; [|done]); [by left|by right].
  - destruct B1 as [->|(o' & Ho & ->)]; [exists o|exists o']; (split; [|done]); [by left|by right].
Qed.

Lemma group_good os : os <> [] -> Forall valid os -> good (group_min os) /\ good (group_max os).
Proof.
  intros Hne Hv. destruct (group_hull os Hne) as (_ & (o & Ho & ->) & (o' & Ho' & ->)). rewrite Forall_forall in Hv.
  split; [apply (Hv o Ho)|apply (Hv o' Ho')].
Qed.

Lemma hull_spec os : forall mn mx, good mn -> good mx -> Forall valid os -> hull to32 of32 to16 of16 mn mx os = Ok (least_of mn os, greatest_of mx os).
Proof.
  induction os as [|o os IH]; intros mn mx Hmn Hmx Hv; [done|]. apply Forall_cons in Hv as [(H1 & H2 & _) Hv]. cbn [hull].
  rewrite (key_cmp (Min o) mn), (key_cmp (Max o) mx) by done. cbn [mbind outcome_bind obind]. cbn [least_of greatest_of fold_left].
  apply IH; [by destruct (_ <? _)|by destruct (_ <? _)|done].
Qed.

(** A partition made of a group. *)
Definition partition_of os : Partition := mkPartition (group_min os) (group_max os) os.

(** An object that does not overlap the group. *)
Definition apart st o : bool := (c (Max o) (group_min st) <? 0) || (0 <? c (Min o) (group_max st)).

(** The groups the slicer makes of the objects [os] after [st]. *)
Fixpoint groups st os : list (list dobject) :=
  match os with
  | [] => match st with [] => [] | _ => [st] end
  | o :: os =>
      match st with
      | [] => groups [o] os
      | _ => if apart st o then st :: groups [o] os else groups (st ++ [o]) os
      end
  end.

(** The slicer between two objects. *)
Definition slicing st (s : Slicer) : Prop :=
  stashed s = st /\ match st with [] => s_min s = None /\ s_max s = None | _ => s_min s = Some (group_min st) /\ s_max s = Some (group_max st) end.

Lemma nextPartition_spec s : Forall valid (stashed s) ->
  nextPartition to32 of32 to16 of16 s =
  match stashed s with [] => (Ok None, s) | _ => (Ok (Some (partition_of (stashed s))), mkSlicer (parent s) [] (s_min s) (s_max s)) end.
Proof.
  intros Hv. unfold nextPartition. rewrite stm_get_l. destruct (stashed s) as [|o st] eqn:Es; [done|].
  apply Forall_cons in Hv as [(H1 & H2 & _) Hv].
  rewrite (stm_lift_l _ _ _ _ (hull_spec st (Min o) (Max o) H1 H2 Hv)). done.
Qed.

Lemma group_snoc st o : st <> [] ->
  group_min (st ++ [o]) = (if c (Min o) (group_min st) <? 0 then Min o else group_min st) /\
  group_max (st ++ [o]) = (if 0 <? c (Max o) (group_max st) then Max o else group_max st).
Proof.
  destruct st as [|o1 st]; [done|]. intros _. cbn [app group_min group_max]. unfold least_of, greatest_of. by rewrite !fold_left_app.
Qed.

Lemma collected ps st o mn mx :
  Forall valid (st ++ [o]) -> slicing st (mkSlicer ps st mn mx) ->
  exists s', collect to32 of32 to16 of16 o (mkSlicer ps st mn mx) = (Ok tt, s') /\ slicing (st ++ [o]) s' /\ parent s' = ps.
Proof.
  intros Hv [_ Hst]. cbn [s_min s_max] in Hst. apply Forall_app in Hv as [Hv Ho]. apply Forall_inv in Ho as (H1 & H2 & _).
  unfold collect. rewrite stm_modify_l, stm_get_l. cbn [parent stashed s_min s_max]. destruct st as [|o1 st].
  { destruct Hst as [-> ->]. eexists. done. }
  destruct Hst as [-> ->]. set (st' := o1 :: st) in *. assert (Hne : st' <> []) by done.
  destruct (group_good st' Hne Hv) as [G1 G2]. destruct (group_snoc st' o Hne) as [Emin Emax]. cbn [nil_or].
  rewrite (stm_lift_l _ _ _ (0 <? c (group_min st') (Min o))) by (by rewrite key_cmp). rewrite stm_modify_l, stm_get_l.
  assert (Hl : (0 <? c (group_min st') (Min o)) = (c (Min o) (group_min st') <? 0)).
  { rewrite (key_antisym (Min o) (group_min st')). zcases; done || lia. }
  assert (Hh : (c (group_max st') (Max o) <? 0) = (0 <? c (Max o) (group_max st'))).
  { rewrite (key_antisym (group_max st') (Max o)). zcases; done || lia. }
  rewrite Hl. destruct (c (Min o) (group_min st') <? 0); cbn [parent stashed s_min s_max nil_or];
    (rewrite (stm_lift_l _ _ _ (c (group_max st') (Max o) <? 0)) by (by rewrite key_cmp)); rewrite Hh;
    destruct (0 <? c (Max o) (group_max st')); eexists; (split; [reflexivity|]); (split; [|done]); (split; [done|]);
    cbn [app]; rewrite <- Emin, <- Emax; done.
Qed.

Lemma is_apart_spec st o s : Forall valid (st ++ [o]) -> slicing st s ->
  is_apart to32 of32 to16 of16 o s = Ok (match st with [] => false | _ => apart st o end).
Proof.
  intros Hv [Es Hst]. apply Forall_app in Hv as [Hv Ho]. apply Forall_inv in Ho as (H1 & H2 & _). unfold is_apart. rewrite Es.
  destruct st as [|o1 st]; [done|]. destruct Hst as [-> ->]. destruct (group_good (o1 :: st) ltac:(done) Hv) as [G1 G2].
  unfold bound_test, apart. rewrite !key_cmp by done. cbn [mbind outcome_bind obind]. by destruct (_ <? 0).
Qed.

Lemma stash_spec st o s : Forall valid (st ++ [o]) -> slicing st s ->
  exists s', parent s' = parent s /\
    match st with
    | [] => stash to32 of32 to16 of16 o s = (Ok None, s') /\ slicing [o] s'
    | _ => if apart st o then stash to32 of32 to16 of16 o s = (Ok (Some (partition_of st)), s') /\ slicing [o] s'
           else stash to32 of32 to16 of16 o s = (Ok None, s') /\ slicing (st ++ [o]) s'
    end.
Proof.
  intros Hv Hs. unfold stash. rewrite stm_get_l, (stm_lift_l _ _ _ _ (is_apart_spec st o s Hv Hs)).
  destruct s as [ps st' mn mx]. pose proof Hs as [Es Hst]. cbn [stashed parent] in *. subst st'.
  assert (Hkeep : exists s', parent s' = ps /\ (collect to32 of32 to16 of16 o;; mret (@None Partition)) (mkSlicer ps st mn mx) = (Ok None, s') /\ slicing (st ++ [o]) s').
  { destruct (collected ps st o mn mx Hv Hs) as (s' & E & Hs' & Hp). exists s'. split_and!; [done| |done].
    by rewrite (stm_bind_Ok _ _ _ _ _ E). }
  destruct st as [|o1 st]; [exact Hkeep|]. destruct (apart (o1 :: st) o); [|exact Hkeep].
  apply Forall_app in Hv as [Hv Ho].
  rewrite (stm_bind_Ok _ _ _ (Some (partition_of (o1 :: st))) (mkSlicer ps [] mn mx)) by (by rewrite nextPartition_spec).
  rewrite stm_modify_l. cbn [parent stashed]. destruct (collected ps [] o None None Ho) as (s' & E & Hs' & Hp); [done|].
  exists s'. split_and!; [done| |done]. by rewrite (stm_bind_Ok _ _ _ _ _ E).
Qed.

(** Pulling all partitions: enough pulls for the objects and one more. *)
Fixpoint slice_all (fuel : nat) : stm Slicer diverge (option (list Partition)) :=
  match fuel with
  | O => mret None
  | S fuel =>
      p ← Slicer_Pull to32 of32 to16 of16;
      match p with
      | None => mret (Some [])
      | Some p => ps ← slice_all fuel; mret (fmap (M := option) (cons p) ps)
      end
  end.

(** A slicer that still makes the groups [gs]: between two objects, or at the
    end. *)
Definition slices (gs : list (list dobject)) (s : Slicer) : Prop :=
  (gs = [] /\ stashed s = [] /\ parent s = []) \/
  exists st, slicing st s /\ Forall valid (st ++ parent s) /\ groups st (parent s) = gs.

(** One pull takes one group. *)
Lemma Slicer_loop_spec os : forall st s, slicing st s -> parent s = os -> Forall valid (st ++ os) ->
  exists s', match groups st os with
    | [] => Slicer_loop to32 of32 to16 of16 os s = (Ok None, s')
    | g :: gs => Slicer_loop to32 of32 to16 of16 os s = (Ok (Some (partition_of g)), s') /\ slices gs s'
    end.
Proof.
  induction os as [|o os IH]; intros st s Hs Hp Hv; cbn [groups Slicer_loop].
  { rewrite app_nil_r in Hv. pose proof Hs as [Es _]. rewrite nextPartition_spec by (by rewrite Es). rewrite Es.
    destruct st as [|o1 st]; [by eexists|]. eexists. split; [done|]. by left. }
  rewrite stm_modify_l. set (s0 := mkSlicer os (stashed s) (s_min s) (s_max s)).
  assert (Hs0 : slicing st s0) by done.
  destruct (stash_spec st o s0) as (s' & Hp' & H); [by rewrite cons_middle, app_assoc in Hv; apply Forall_app in Hv as [? _]|done|].
  rewrite cons_middle, app_assoc in Hv.
  destruct st as [|o1 st].
  { destruct H as [E Hs']. rewrite (stm_bind_Ok _ _ _ _ _ E). by apply (IH [o] s'). }
  destruct (apart (o1 :: st) o); destruct H as [E Hs']; rewrite (stm_bind_Ok _ _ _ _ _ E).
  - eexists. split; [done|]. right. exists [o]. rewrite Hp'. split_and!; [done| |done].
    rewrite <- app_assoc in Hv. by apply Forall_app in Hv as [_ ?].
  - by apply (IH ((o1 :: st) ++ [o]) s').
Qed.

Lemma Slicer_Pull_spec gs s : slices gs s ->
  exists s', match gs with
    | [] => Slicer_Pull to32 of32 to16 of16 s = (Ok None, s')
    | g :: gs => Slicer_Pull to32 of32 to16 of16 s = (Ok (Some (partition_of g)), s') /\ slices gs s'
    end.
Proof.
  unfold Slicer_Pull. rewrite stm_get_l. intros [(-> & Es & Ep)|(st & Hs & Hv & <-)].
  - exists s. rewrite Ep. cbn [Slicer_loop]. rewrite nextPartition_spec by (by rewrite Es). by rewrite Es.
  - by apply (Slicer_loop_spec (parent s) st).
Qed.

Lemma slice_all_spec gs : forall fuel s, slices gs s -> (length gs < fuel)%nat ->
  exists s', slice_all fuel s = (Ok (Some (map partition_of gs)), s').
Proof.
  induction gs as [|g gs IH]; intros [|fuel] s Hs Hf; cbn [length slice_all] in *; try lia;
    destruct (Slicer_Pull_spec _ s Hs) as (s1 & H).
  - exists s1. by rewrite (stm_bind_Ok _ _ _ _ _ H).
  - destruct H as [E Hs1]. destruct (IH fuel s1 Hs1) as (s2 & E2); [lia|]. exists s2.
    by rewrite (stm_bind_Ok _ _ _ _ _ E), (stm_bind_Ok _ _ _ _ _ E2).
Qed.

(** ** What the groups are *)

Lemma groups_concat os : forall st, concat (groups st os) = st ++ os.
Proof.
  induction os as [|o os IH]; intros st; cbn [groups]; [destruct st; cbn; by rewrite ?app_nil_r|].
  destruct st as [|o1 st]; [by rewrite IH|]. destruct (apart _ o); cbn [concat]; rewrite IH; [done|]. by rewrite <- app_assoc.
Qed.

Lemma groups_nonempty os : forall st, Forall (fun g => g <> []) (groups st os).
Proof.
  induction os as [|o os IH]; intros st; cbn [groups]; [destruct st; by repeat constructor|].
  destruct st as [|o1 st]; [done|]. destruct (apart _ o); [by constructor|done].
Qed.

Lemma groups_length os : forall st, (length (groups st os) <= length st + length os)%nat.
Proof.
  intros st. pose proof (groups_concat os st) as H. pose proof (groups_nonempty os st) as Hn.
  rewrite <- length_app, <- H. clear H. induction Hn as [|g gs Hg _ IH]; [done|]. cbn. rewrite length_app. destruct g; [done|cbn; lia].
Qed.

(** In the order [desc] every object of the first group is before every object
    of the second. *)
Definition before (desc : bool) (a b : dobject) : Prop := if desc then c (Max b) (Min a) < 0 else c (Max a) (Min b) < 0.
Definition all_before (desc : bool) st st' : Prop := Forall (fun a => Forall (before desc a) st') st.

(** The objects are ordered by where they begin. *)
Definition starts (desc : bool) (a b : dobject) : Prop := if desc then c (Max b) (Max a) <= 0 else c (Min a) (Min b) <= 0.

(** An object apart from a group, and all that follow it, are past the group. *)
Lemma apart_before desc st o os : st <> [] -> Forall valid (st ++ o :: os) -> StronglySorted (starts desc) (st ++ o :: os) ->
  apart st o = true -> all_before desc st (o :: os).
Proof.
  intros Hne Hv Hsort Hap. apply Forall_app in Hv as [Hv Hv']. apply StronglySorted_app in Hsort as (Hcross & _ & Hs').
  assert (Hlater : Forall (fun b => starts desc o b) (o :: os)).
  { constructor; [destruct desc; cbn; apply key_refl|]. by inversion Hs'. }
  destruct (group_hull st Hne) as (Hh & (a1 & Ha1 & E1) & (a2 & Ha2 & E2)).
  unfold apart in Hap. apply Forall_forall. intros a Ha. apply Forall_forall. intros b Hb.
  rewrite Forall_forall in Hh, Hlater, Hv, Hv'. destruct (Hh a Ha) as [Ha3 Ha4]. specialize (Hlater b Hb).
  destruct (Hv' o ltac:(by left)) as (_ & _ & Ho). destruct (Hv' b Hb) as (_ & _ & Hb').
  apply orb_true_iff in Hap as [Hap%Z.ltb_lt|Hap%Z.ltb_lt]; destruct desc; unfold before, starts in *.
  - apply (key_le_lt _ (Max o)); [done|]. by apply (key_lt_le _ (group_min st)).
  - exfalso. pose proof (Hcross a1 o Ha1 ltac:(by left)) as Hc. unfold starts in Hc. rewrite <- E1 in Hc.
    pose proof (key_trans _ _ _ Hc Ho). rewrite (key_antisym (group_min st) (Max o)) in Hap. lia.
  - exfalso. pose proof (Hcross a2 o Ha2 ltac:(by left)) as Hc. unfold starts in Hc. rewrite <- E2 in Hc.
    pose proof (key_trans _ _ _ Ho Hc). lia.
  - apply (key_lt_le _ (Min o)); [|done]. apply (key_le_lt _ (group_max st)); [done|]. rewrite key_antisym. lia.
Qed.

Lemma groups_separated desc os : forall st, Forall valid (st ++ os) -> StronglySorted (starts desc) (st ++ os) ->
  StronglySorted (all_before desc) (groups st os).
Proof.
  induction os as [|o os IH]; intros st Hv Hs; cbn [groups].
  { destruct st; repeat constructor. }
  destruct st as [|o1 st]; [by apply IH|]. destruct (apart (o1 :: st) o) eqn:Hap.
  - assert (Hb : all_before desc (o1 :: st) (o :: os)) by (by apply apart_before).
    constructor.
    + apply Forall_app in Hv as [_ Hv]. apply StronglySorted_app in Hs as (_ & _ & Hs). by apply IH.
    + pose proof (groups_concat os [o]) as Hc. apply Forall_forall. intros g Hg. unfold all_before in *.
      eapply Forall_impl; [exact Hb|]. intros a Ha. cbn [app] in Hc. rewrite <- Hc in Ha. rewrite Forall_forall in *.
      intros b Hb'. apply Ha. apply list_elem_of_In, in_concat. exists g. split; by apply list_elem_of_In.
  - rewrite cons_middle, app_assoc in Hv, Hs. by apply IH.
Qed.
End slicing.

(** ** Listing *)

Section listing.
Context (to32 of32 to16 of16 : Z -> Z) (ctx : Context) (Hctx : wf ctx).
Local Abbreviation dobject := (dobject Value).

(** Keys of the context without floats and type values; nulls are largest. *)
Definition key_good (v : Value) : Prop := sortable to32 to16 true ctx v.
Definition key_c (v w : Value) : Z := lex (vkey to32 to16 true v) (vkey to32 to16 true w).

#[export] Instance key_order : KeyOrder (slicer_cmp to32 of32 to16 of16) key_c key_good.
Proof.
  split.
  - intros v w Hv Hw. unfold slicer_cmp, value_cmp, Compare, NewValueCompareFn, NewComparator. cbn [exprs nullsMax].
    rewrite (Compare_loop_key _ _ _ _ true ctx Hctx) by (by apply Forall_singleton). cbn [compare_keys desc Eval_].
    unfold orelse. fold (key_c v w). destruct (Z.eqb_spec (key_c v w) 0); congruence.
  - intros v w. apply (gc_antisym (cmp := lex)).
  - intros u v w. apply (gc_trans (cmp := lex)).
Qed.

(** The comparison in the order of the pool. *)
Definition pool_c (desc : bool) (v w : Value) : Z := if desc then key_c w v else key_c v w.

Lemma value_cmp_pool desc v w : key_good v -> key_good w -> value_cmp to32 of32 to16 of16 desc true v w = Ok (pool_c desc v w).
Proof.
  intros Hv Hw. unfold value_cmp, Compare, NewValueCompareFn, NewComparator. cbn [exprs nullsMax].
  rewrite (Compare_loop_key _ _ _ _ true ctx Hctx) by (by apply Forall_singleton). cbn [compare_keys Compare.desc Eval_].
  unfold orelse, pool_c. fold (key_c v w) (key_c w v).
  destruct desc; [destruct (Z.eqb_spec (key_c w v) 0)|destruct (Z.eqb_spec (key_c v w) 0)]; congruence.
Qed.

Lemma pool_antisym desc v w : pool_c desc w v = - pool_c desc v w.
Proof. unfold pool_c. destruct desc; apply (gc_antisym (cmp := lex)). Qed.

Lemma pool_trans desc u v w : pool_c desc u v <= 0 -> pool_c desc v w <= 0 -> pool_c desc u w <= 0.
Proof.
  clear Hctx. unfold pool_c, key_c. destruct desc; intros H1 H2; [by apply (gc_trans (cmp := lex) _ (vkey to32 to16 true v))|].
  by apply (gc_trans (cmp := lex) _ (vkey to32 to16 true v)).
Qed.

Definition from (desc : bool) (d : dobject) : Value := if desc then Max d else Min d.
Definition upto (desc : bool) (d : dobject) : Value := if desc then Min d else Max d.
Definition object_cmp (desc : bool) (a b : dobject) : Z :=
  orelse (pool_c desc (from desc a) (from desc b)) (pool_c desc (upto desc a) (upto desc b)).

Lemma object_cmp_antisym desc a b : object_cmp desc b a = - object_cmp desc a b.
Proof.
  unfold object_cmp, orelse. rewrite (pool_antisym desc (from desc a)), (pool_antisym desc (upto desc a)). zcases; lia.
Qed.

Lemma object_cmp_trans desc x y z : object_cmp desc x y <= 0 -> object_cmp desc y z <= 0 -> object_cmp desc x z <= 0.
Proof.
  unfold object_cmp, orelse. intros H1 H2.
  pose proof (pool_trans desc (from desc x) (from desc y) (from desc z)) as T1.
  pose proof (pool_trans desc (from desc z) (from desc x) (from desc y)) as T2.
  pose proof (pool_trans desc (from desc y) (from desc z) (from desc x)) as T3.
  pose proof (pool_trans desc (upto desc x) (upto desc y) (upto desc z)) as T4.
  rewrite (pool_antisym desc (from desc x) (from desc z)) in *. rewrite (pool_antisym desc (from desc y) (from desc z)) in *.
  rewrite (pool_antisym desc (from desc x) (from desc y)) in *. revert H1 H2. zcases; intros; lia.
Qed.

(** Keys that compare as equal have the same bytes and only they. *)
Definition faithful (keys : Value -> Prop) : Prop :=
  forall v w, keys v -> keys w -> exists a b, Value_Bytes to32 to16 v = Ok a /\ Value_Bytes to32 to16 w = Ok b /\
    (key_c v w = 0 <-> default [] a = default [] b).
Definition has_keys (keys : Value -> Prop) (d : dobject) : Prop :=
  keys (Min d) /\ keys (Max d) /\ valid (c := key_c) (good := key_good) d.

Lemma bytes_equal keys desc v w : faithful keys -> keys v -> keys w -> exists a b,
  Value_Bytes to32 to16 v = Ok a /\ Value_Bytes to32 to16 w = Ok b /\
  bool_decide (default [] a = default [] b) = (pool_c desc v w =? 0).
Proof.
  intros Hf Hv Hw. destruct (Hf v w Hv Hw) as (a & b & -> & -> & Hiff). exists a, b. split_and!; [done..|].
  assert (Hp : pool_c desc v w = 0 <-> key_c v w = 0).
  { unfold pool_c. destruct desc; [|done]. rewrite (key_antisym v w). lia. }
  case_bool_decide as E; symmetry; [by apply Z.eqb_eq, Hp, Hiff|]. apply Z.eqb_neq. by rewrite Hp, Hiff.
Qed.

Lemma object_less_spec keys desc a b : faithful keys -> has_keys keys a -> has_keys keys b ->
  object_less to32 of32 to16 of16 desc a b = Ok (cmp_lt (object_cmp desc) a b).
Proof.
  intros Hf (Ka1 & Ka2 & Ga1 & Ga2 & _) (Kb1 & Kb2 & Gb1 & Gb2 & _). unfold object_less.
  replace (if desc then (Max a, Min a, Max b, Min b) else (Min a, Max a, Min b, Max b))
    with (from desc a, upto desc a, from desc b, upto desc b) by (by destruct desc).
  assert (H : keys (from desc a) /\ keys (upto desc a) /\ keys (from desc b) /\ keys (upto desc b) /\
    key_good (from desc a) /\ key_good (upto desc a) /\ key_good (from desc b) /\ key_good (upto desc b)) by (by destruct desc).
  destruct H as (K1 & K2 & K3 & K4 & G1 & G2 & G3 & G4). rewrite !value_cmp_pool by done. cbn [mbind outcome_bind obind].
  unfold cmp_lt, object_cmp, orelse. set (c1 := pool_c desc (from desc a) (from desc b)). set (c2 := pool_c desc (upto desc a) (upto desc b)).
  destruct (bytes_equal keys desc _ _ Hf K1 K3) as (x & y & -> & -> & E1). destruct (bytes_equal keys desc _ _ Hf K2 K4) as (x' & y' & -> & -> & E2).
  cbn [no_error mbind outcome_bind obind]. rewrite E1, E2. fold c1 c2.
  destruct (Z.ltb_spec c1 0); destruct (Z.eqb_spec c1 0); try lia; cbn [negb]; try done.
  - f_equal. symmetry. by apply Z.ltb_lt.
  - destruct (Z.eqb_spec c2 0) as [->|]; done.
  - f_equal. symmetry. by apply Z.ltb_ge.
Qed.

Lemma sortObjects_spec keys desc os : faithful keys -> Forall (has_keys keys) os ->
  sortObjects to32 of32 to16 of16 desc os = Ok (stable_sort (cmp_lt (object_cmp desc)) os).
Proof. intros Hf Hos. apply (SliceStable_sort _ _ (has_keys keys)); [|done]. intros. by eapply object_less_spec. Qed.

Lemma sorted_starts desc os : StronglySorted (fun a b => object_cmp desc a b <= 0) os -> StronglySorted (starts (c := key_c) desc) os.
Proof.
  induction 1 as [|a os Hs IH Ha]; [constructor|]. constructor; [done|]. eapply Forall_impl; [exact Ha|]. intros b Hb.
  unfold starts. revert Hb. unfold object_cmp, orelse, from, pool_c. destruct desc; zcases; intros; lia.
Qed.

Lemma sorted_filter {A} (R : A -> A -> Prop) (f : A -> bool) l : StronglySorted R l -> StronglySorted R (List.filter f l).
Proof.
  induction 1 as [|a l Hs IH Ha]; [constructor|]. cbn. destruct (f a); [|done]. constructor; [done|].
  rewrite Forall_forall in *. intros x Hx. apply Ha. apply list_elem_of_In in Hx. apply filter_In in Hx as [Hx _]. by apply list_elem_of_In.
Qed.

(** ** Pulling the lister *)

Section lister.
Context {W : Type} `{!View Value W}.

Fixpoint list_all (fuel : nat) : stm (Lister (W := W)) diverge (option (list dobject)) :=
  match fuel with
  | O => mret None
  | S fuel =>
      o ← Lister_Pull to32 of32 to16 of16;
      match o with
      | None => mret (Some [])
      | Some o => os ← list_all fuel; mret (fmap (M := option) (cons o) os)
      end
  end.

Definition kept (p : option (dobject -> Value)) (os : list dobject) : list dobject := List.filter (fun o => negb (prune p o)) os.

Lemma Lister_loop_spec p os :
  match kept p os with
  | [] => Lister_loop p os = (None, [])
  | o :: rest => exists os', Lister_loop p os = (Some o, os') /\ kept p os' = rest
  end.
Proof.
  induction os as [|o os IH]; [done|]. cbn [kept List.filter Lister_loop]. destruct (prune p o); cbn [negb]; [exact IH|]. by exists os.
Qed.

Lemma list_all_from p desc s fuel : forall os, (length (kept p os) < fuel)%nat ->
  exists l', list_all fuel (mkLister s desc p (Some os)) = (Ok (Some (kept p os)), l').
Proof.
  induction fuel as [|fuel IH]; intros os Hf; [lia|]. cbn [list_all]. unfold Lister_Pull.
  pose proof (Lister_loop_spec p os) as Hl. destruct (kept p os) as [|o rest].
  - eexists. rewrite (stm_bind_Ok _ _ _ None (mkLister s desc p (Some []))); [done|]. rewrite stm_get_l. cbn [objects l_pruner].
    rewrite stm_ret_l, Hl. done.
  - destruct Hl as (os' & El & Ek). destruct (IH os') as (l' & E2); [rewrite Ek; cbn in Hf; lia|]. rewrite Ek in E2. exists l'.
    rewrite (stm_bind_Ok _ _ _ (Some o) (mkLister s desc p (Some os'))); [by rewrite (stm_bind_Ok _ _ _ _ _ E2)|].
    rewrite stm_get_l. cbn [objects l_pruner]. rewrite stm_ret_l, El. done.
Qed.

Lemma list_all_spec keys snap desc p fuel os : faithful keys -> Select snap (fun _ => true) = os -> Forall (has_keys keys) os ->
  (length os < fuel)%nat ->
  exists l', list_all fuel (NewSortedListerFromSnap snap desc p) =
    (Ok (Some (kept p (stable_sort (cmp_lt (object_cmp desc)) os))), l').
Proof.
  intros Hf Hs Hos Hfuel. set (sorted := stable_sort _ os).
  assert (Hlen : (length (kept p sorted) < fuel)%nat).
  { unfold kept. pose proof (List.filter_length_le (fun o => negb (prune p o)) sorted).
    assert (length sorted = length os) by apply length_stable_sort. lia. }
  destruct (list_all_from p desc snap fuel sorted Hlen) as (l' & E). exists l'. rewrite <- E.
  assert (Ep : Lister_Pull to32 of32 to16 of16 (NewSortedListerFromSnap snap desc p) =
               Lister_Pull to32 of32 to16 of16 (mkLister snap desc p (Some sorted))).
  { unfold Lister_Pull. rewrite !stm_get_l. cbn [objects NewSortedListerFromSnap Scan.snap l_order l_pruner].
    rewrite stm_ret_l. rewrite (stm_lift_l _ _ _ sorted); [by destruct (Lister_loop p sorted)|]. unfold initObjectScan. rewrite Hs. by apply (sortObjects_spec keys). }
  destruct fuel as [|fuel]; [lia|]. cbn [list_all]. unfold mbind, stm_bind. by rewrite Ep.
Qed.
End lister.
End listing.
