(* ===== verification/ScanProps.v ===== *)
(** * The properties of scanning a pool

    The heap merge returns the merge of its upstreams, the lister and the slicer
    divide the objects into separate partitions, and the sequence scanner
    returns all values in order. *)

From S2P Require Import Prelude Zcode Commits Types Context CommitProps Interning Primitive Values Compare CompareProofs Heap Merge MergeProofs Scan ScanProofs.
Local Open Scope Z_scope.

(** ** Merging *)

Section merge.
Context {E : Type} {to32 to16 : Z -> Z} {cmp : Value -> Value -> outcome E Z} {c : Value -> Value -> Z} {good : Value -> Prop}
  `{MO : !MergeOrder to32 to16 cmp c good}.

(** C16: the merge operator merges. When every upstream's values come in the
    order of a comparator that is a total preorder on them, pulling to the end
    of the stream takes at most one pull more than there are values and
    returns all values of all upstreams, each once, in the comparator's order
    and in batches that are not empty; the operator is then ready for the
    streams that follow. A done pull of a started operator in the middle of a
    stream ends the stream and leaves it ready for the streams that follow
    too, but an upstream that had given its last batch, and whose goroutine
    holds the end of its stream, loses the stream after it, which is the one
    that the goroutine abandons. *)
Theorem merge_merges (o : Op E) (ss : list (list Value)) (ts : list (list (result E))) (fuel : nat) :
  opened (c := c) (good := good) o ss ts ->
  (forall ss' ts', streams (c := c) (good := good) ts ss' ts' -> (length (concat ss) < fuel)%nat ->
   exists bs o', pull_all to32 to16 cmp fuel o = (Ok (Some bs), o') /\ opened (c := c) (good := good) o' ss' ts' /\
     Forall (fun b => b <> []) bs /\ concat bs ≡ₚ concat ss /\ StronglySorted (fun v w => c v w <= 0) (concat bs)) /\
  (forall ss' ts', once o = true -> streams (c := c) (good := good) (after (parents o) (hol o) ts) ss' ts' ->
   exists o', Pull to32 to16 cmp true o = (Ok None, o') /\ opened (c := c) (good := good) o' ss' ts').
Proof.
  intros Ho. split.
  - intros ss' ts' Hs Hf. destruct (pull_all_spec ts ss' ts' Hs fuel o ss Ho Hf) as (bs & o' & E1 & Hr & H). exists bs, o'. split; [done|]. split; [by right|done].
  - intros ss' ts' H1 Hs. destruct (Pull_done o ss ts ss' ts' Ho H1 Hs) as (o' & E1 & Hr). exists o'. split; [done|by right].
Qed.

(** ** Scanning partitions one after the other *)

(** Sources: what each object's scanner gives. *)
Definition gives (open_ : dobject Value -> outcome E (list (result E))) (d : dobject Value) (s : list Value) : Prop :=
  exists rs, open_ d = Ok rs /\ stream rs s [] /\ ascending (c := c) (good := good) s.

(** A scanner of an object or of a group that still gives the streams [ss]. *)
Definition scanning (sc : obj_scanner E) (ss : list (list Value)) : Prop :=
  match sc with
  | Single rs => exists s, ss = [s] /\ stream rs s [] /\ ascending (c := c) (good := good) s
  | Merging o => opened (c := c) (good := good) o ss (map (fun _ => []) ss)
  end.

Lemma streams_ended n : streams (E := E) (c := c) (good := good) (replicate n []) (replicate n []) (replicate n []).
Proof.
  split; rewrite ?length_replicate; try done.
  - intros i rs s t H1 H2 H3. apply lookup_replicate in H1 as [-> _], H2 as [-> _], H3 as [-> _].
    exists [], []. by split_and!; [constructor|done|constructor|].
  - apply Forall_replicate. split; constructor.
Qed.

Lemma ready_length (o : Op E) ss ts : ready (c := c) (good := good) o ss ts -> length ts = length ss.
Proof. intros [[_ H1 H2 _ _ _] _ _]. congruence. Qed.

Lemma scanner_Pull_spec sc ss : scanning sc ss ->
  exists sc', (concat ss = [] /\ scanner_Pull to32 to16 cmp false sc = (Ok None, sc')) \/
    exists b ss', scanner_Pull to32 to16 cmp false sc = (Ok (Some b), sc') /\ scanning sc' ss' /\ front (c := c) b ss ss' /\ b <> [].
Proof.
  destruct sc as [rs|o]; cbn [scanning scanner_Pull].
  - intros (s & -> & (bss & r & Hne & -> & He & ->) & Ha). destruct bss as [|b bss]; cbn [map app].
    + exists (Single []). left. split; [done|]. by inversion He.
    + apply Forall_cons in Hne as [Hb Hne]. exists (Single (map Batch bss ++ r)). right. exists b, [concat bss].
      cbn [concat] in Ha. destruct (ascending_app _ _ Ha) as [[Hsb _] Hrest]. split_and!; [done| | |done].
      * exists (concat bss). split_and!; [done| |done]. by exists bss, r.
      * split_and!; [cbn; by rewrite !app_nil_r|done|]. cbn. rewrite app_nil_r. apply Forall_forall. intros v Hv.
        destruct Ha as [Hs _]. apply StronglySorted_app in Hs as (Hx & _ & _). apply Forall_forall. intros w Hw. by apply Hx.
  - intros Ho. 
    assert (Hts : map (fun _ : list Value => @nil (result E)) ss = replicate (length ss) []).
    { clear. induction ss as [|s ss IH]; [done|]. cbn. by f_equal. }
    rewrite Hts in Ho. destruct (opened_ready o ss _ false Ho) as (o1 & Hr & ->).
    destruct (decide (hol o1 = [])) as [E0|Hne].
    + destruct (Pull_end o1 ss _ _ _ Hr E0 (streams_ended (length ss))) as (o2 & -> & _). exists (Merging o2). left.
      split; [|done]. by apply (ready_end _ _ _ Hr).
    + destruct (Pull_spec o1 ss _ Hr Hne) as (b & o2 & ss2 & -> & Hr2 & Hfr & Hb). exists (Merging o2). right. exists b, ss2.
      split_and!; try done. right. replace (map (fun _ : list Value => @nil (result E)) ss2) with (replicate (length ss) (@nil (result E))); [done|].
      pose proof (ready_length _ _ _ Hr2) as Hl. rewrite length_replicate in Hl. rewrite Hl. clear. induction ss2 as [|s ss IH]; [done|]. cbn. by f_equal.
Qed.

Lemma newObjectsScanner_spec open_ ds ss : Forall2 (gives open_) ds ss ->
  exists sc, newObjectsScanner open_ ds = Ok sc /\ scanning sc ss.
Proof.
  intros H. unfold newObjectsScanner.
  assert (Hm : exists rss, mapM open_ ds = Ok rss /\ length rss = length ss /\
    forall i rs s, rss !! i = Some rs -> ss !! i = Some s -> stream rs s [] /\ ascending (c := c) (good := good) s).
  { induction H as [|d s ds ss (rs & E1 & Hs & Ha) H (rss & E2 & Hl & Hi)].
    - exists []. split_and!; [done|done|]. intros i rs s Hn. by rewrite lookup_nil in Hn.
    - exists (rs :: rss). cbn. rewrite E1. cbn. rewrite E2. split_and!; [done|by f_equal|].
      intros [|i] rs' s' H1 H2; cbn in *; [by simplify_eq|by eapply Hi]. }
  destruct Hm as (rss & -> & Hl & Hi). cbn [mbind outcome_bind obind].
  assert (Hmerge : scanning (Merging (New rss)) ss).
  { left. split; [done|]. unfold New. cbn [parents]. rewrite map_map. cbn [results newPuller]. rewrite map_id.
    split; rewrite ?length_map; try done.
    - intros i rs s t H1 H2 H3. rewrite list_lookup_fmap, H2 in H3. injection H3 as <-. by apply (Hi i).
    - apply Forall_lookup. intros i s Hs. destruct (lookup_lt_is_Some_2 rss i) as [rs Hrs].
      { rewrite Hl. by eapply lookup_lt_Some. } by apply (Hi i rs). }
  destruct rss as [|rs [|rs2 rss]]; [by eexists| |by eexists]. destruct ss as [|s [|s2 ss]]; try done. eexists. split; [done|].
  exists s. split; [done|]. by apply (Hi 0%nat).
Qed.

(** What is left to scan: the streams of the current group and those of the
    partitions. *)
Definition seq_at open_ (s : SequenceScanner E) (ss : list (list Value)) (sss : list (list (list Value))) : Prop :=
  seq_done s = false /\ Forall2 (Forall2 (gives open_)) (partitions s) sss /\
  match scanner s with Some sc => scanning sc ss | None => ss = [] end.

(** Every value of an earlier stream is before those of the later ones. *)
Definition values_before (ss ss' : list (list Value)) : Prop := Forall (fun v => Forall (le_c (c := c) v) (concat ss')) (concat ss).

(** The values that are left. *)
Definition rest (ss : list (list Value)) (sss : list (list (list Value))) : list Value := concat ss ++ concat (map (fun ss => concat ss) sss).

Definition took (b : list Value) (ss : list (list Value)) sss (ss' : list (list Value)) sss' : Prop :=
  rest ss sss ≡ₚ b ++ rest ss' sss' /\ StronglySorted (le_c (c := c)) b /\ Forall (fun v => Forall (le_c (c := c) v) (rest ss' sss')) b /\
  StronglySorted values_before (ss' :: sss').

Lemma before_rest v ss sss : v ∈ concat ss -> Forall (values_before ss) sss -> Forall (le_c (c := c) v) (concat (map (fun ss => concat ss) sss)).
Proof.
  intros Hv H. induction H as [|ss' sss Hs H IH]; [constructor|]. cbn. apply Forall_app. split; [|done].
  unfold values_before in Hs. rewrite Forall_forall in Hs. by apply Hs.
Qed.

Lemma front_took b ss ss' sss : front (c := c) b ss ss' -> StronglySorted values_before (ss :: sss) -> took b ss sss ss' sss.
Proof.
  intros (Hp & Hsb & Hle) Hs. inversion Hs as [|?? Hss Hb]; subst. unfold took, rest. split_and!.
  - by rewrite Hp, app_assoc.
  - done.
  - apply Forall_forall. intros v Hv. apply Forall_app. split; [rewrite Forall_forall in Hle; by apply Hle|].
    eapply before_rest; [|exact Hb]. rewrite Hp. apply elem_of_app. by left.
  - constructor; [done|]. eapply Forall_impl; [exact Hb|]. intros ss1 H1. unfold values_before in *.
    rewrite Hp in H1. by apply Forall_app in H1 as [_ H1].
Qed.

Lemma or_close_Ok {A} (m : stm (SequenceScanner E) E A) s a s' : m s = (Ok a, s') -> or_close m s = (Ok a, s').
Proof. unfold or_close. by intros ->. Qed.

Lemma pull_scanner_Ok (s : SequenceScanner E) sc r sc' :
  scanner s = Some sc -> scanner_Pull to32 to16 cmp false sc = (Ok r, sc') ->
  pull_scanner to32 to16 cmp false s = (Ok r, set_scanner (Some sc') s).
Proof. unfold pull_scanner. by intros -> ->. Qed.

Lemma Sequence_loop_spec open_ : forall ps sss s,
  Forall2 (Forall2 (gives open_)) ps sss -> StronglySorted values_before sss -> seq_done s = false ->
  exists s', (rest [] sss = [] /\ Sequence_loop to32 to16 cmp open_ ps s = (Ok None, s')) \/
    exists b ss' sss', Sequence_loop to32 to16 cmp open_ ps s = (Ok (Some b), s') /\ seq_at open_ s' ss' sss' /\
      took b [] sss ss' sss' /\ b <> [].
Proof.
  intros ps. induction ps as [|p ps IH]; intros sss s Hg Hs Hd; inversion Hg as [|? ss ? sss1 Hp Hps]; subst; cbn [Sequence_loop].
  { eexists. by left. }
  rewrite stm_modify_l. destruct (newObjectsScanner_spec open_ p ss Hp) as (sc & E1 & Hsc).
  rewrite (stm_bind_Ok _ _ _ sc _ (or_close_Ok _ _ _ _ (f_equal (fun x => (x, _)) E1))). rewrite stm_modify_l.
  set (s1 := set_scanner (Some sc) (mkSequence ps (scanner s) (seq_done s) (seq_err s))).
  inversion Hs as [|?? Hs1 Hb]; subst.
  destruct (scanner_Pull_spec sc ss Hsc) as (sc' & [(He & E2)|(b & ss' & E2 & Hsc' & Hfr & Hne)]).
  - rewrite (stm_bind_Ok _ _ _ _ _ (or_close_Ok _ _ _ _ (pull_scanner_Ok s1 sc _ _ eq_refl E2))). rewrite stm_modify_l.
    set (s2 := set_scanner None (set_scanner (Some sc') s1)). destruct (IH sss1 s2 Hps Hs1 Hd) as (s3 & [(H1 & H2)|(b & ss' & sss' & H1 & H2 & H3 & H4)]).
    + exists s3. left. split; [|done]. unfold rest in *. cbn. by rewrite He.
    + exists s3. right. exists b, ss', sss'. split_and!; try done. unfold took, rest in *. cbn. by rewrite He.
  - exists (set_scanner (Some sc') s1). right. exists b, ss', sss1.
    rewrite (stm_bind_Ok _ _ _ _ _ (or_close_Ok _ _ _ _ (pull_scanner_Ok s1 sc _ _ eq_refl E2))).
    split_and!; [done|by split_and!| |done]. exact (front_took b ss ss' sss1 Hfr Hs).
Qed.

Lemma Sequence_Pull_spec open_ s ss sss :
  seq_at open_ s ss sss -> StronglySorted values_before (ss :: sss) ->
  exists s', (rest ss sss = [] /\ Sequence_Pull to32 to16 cmp open_ false s = (Ok None, s')) \/
    exists b ss' sss', Sequence_Pull to32 to16 cmp open_ false s = (Ok (Some b), s') /\ seq_at open_ s' ss' sss' /\
      took b ss sss ss' sss' /\ b <> [].
Proof.
  intros (Hd & Hg & Hsc) Hs. inversion Hs as [|?? Hs1 Hb]; subst. unfold Sequence_Pull. rewrite stm_get_l, Hd.
  destruct (scanner s) as [sc|] eqn:Es; [|subst ss; by apply Sequence_loop_spec].
  destruct (scanner_Pull_spec sc ss Hsc) as (sc' & [(He & E2)|(b & ss' & E2 & Hsc' & Hfr & Hne)]);
    rewrite (stm_bind_Ok _ _ _ _ _ (or_close_Ok _ _ _ _ (pull_scanner_Ok s sc _ _ Es E2))).
  - rewrite stm_modify_l, stm_get_l. cbn [partitions set_scanner]. set (s2 := set_scanner None _).
    destruct (Sequence_loop_spec open_ (partitions s) sss s2 Hg Hs1 Hd) as (s3 & [(H1 & H2)|(b & ss' & sss' & H1 & H2 & H3 & H4)]).
    + exists s3. left. split; [|done]. unfold rest in *. by rewrite He.
    + exists s3. right. exists b, ss', sss'. split_and!; try done. unfold took, rest in *. by rewrite He.
  - eexists. right. exists b, ss', sss. split; [reflexivity|]. split_and!; [by split_and!|by apply front_took|done].
Qed.

Fixpoint drain_sequence open_ (fuel : nat) : stm (SequenceScanner E) E (option (list (list Value))) :=
  match fuel with
  | O => mret None
  | S fuel =>
      b ← Sequence_Pull to32 to16 cmp open_ false;
      match b with
      | None => mret (Some [])
      | Some b => bs ← drain_sequence open_ fuel; mret (fmap (M := option) (cons b) bs)
      end
  end.

Lemma drain_sequence_spec open_ : forall fuel s ss sss,
  seq_at open_ s ss sss -> StronglySorted values_before (ss :: sss) -> (length (rest ss sss) < fuel)%nat ->
  exists bs s', drain_sequence open_ fuel s = (Ok (Some bs), s') /\ Forall (fun b => b <> []) bs /\
    concat bs ≡ₚ rest ss sss /\ StronglySorted (le_c (c := c)) (concat bs).
Proof.
  induction fuel as [|fuel IH]; intros s ss sss Hat Hs Hf; [lia|]. cbn [drain_sequence].
  destruct (Sequence_Pull_spec open_ s ss sss Hat Hs) as (s1 & [(He & E1)|(b & ss' & sss' & E1 & Hat' & (Hp & Hsb & Hle & Hs') & Hne)]);
    rewrite (stm_bind_Ok _ _ _ _ _ E1).
  - exists [], s1. rewrite He. split_and!; [done|constructor|done|constructor].
  - destruct (IH s1 ss' sss' Hat' Hs') as (bs & s2 & E2 & Hbs & Hp2 & Hsort).
    { apply Permutation_length in Hp. rewrite length_app in Hp. destruct b; [done|]. cbn in Hp. lia. }
    exists (b :: bs), s2. rewrite (stm_bind_Ok _ _ _ _ _ E2). cbn [concat].
    split_and!; [done|by constructor|by rewrite Hp2|]. apply StronglySorted_app. split_and!; [|done|done].
    intros v w Hv Hw. rewrite Forall_forall in Hle. specialize (Hle v Hv). rewrite <- Hp2 in Hle. rewrite Forall_forall in Hle. by apply Hle.
Qed.
End merge.

(** ** Spans *)

(** spans are the closed intervals they stand for. Under a total preorder of
    keys, a span made of two bounds in any order has the values between them,
    the tests of membership and of overlap return exactly that, cropping a
    span leaves the values of both and tells whether there are any, and
    extending it gives the least span with the new value. *)
Theorem extents {E} {cmp : Value -> Value -> outcome E Z} {c good} `{KO : !KeyOrder cmp c good} (l u : Value) (s : Generic) (v : Value) :
  good l -> good u -> good v -> good_span (good := good) s -> c (g_first s) (g_last s) <= 0 ->
  exists g, NewGeneric cmp l u = Ok g /\
    (forall w, spans (c := c) g w <-> (c l w <= 0 /\ c w u <= 0) \/ (c u w <= 0 /\ c w l <= 0)) /\
    (exists b, In_ cmp g v = Ok b /\ (b = true <-> spans (c := c) g v)) /\
    (exists b, Generic_Overlaps cmp g (g_first s) (g_last s) = Ok b /\
       (b = true <-> exists w, good w /\ spans (c := c) g w /\ spans (c := c) s w)) /\
    (exists b g', Crop cmp g s = Ok (b, g') /\ (forall w, spans (c := c) g' w <-> spans (c := c) g w /\ spans (c := c) s w) /\
       (b = true <-> exists w, good w /\ spans (c := c) g w /\ spans (c := c) s w)) /\
    (exists g', Extend cmp g v = Ok g' /\ spans (c := c) g' v /\ (forall w, spans (c := c) g w -> spans (c := c) g' w) /\
       forall h, spans (c := c) h (g_first g) -> spans (c := c) h (g_last g) -> spans (c := c) h v ->
         forall w, spans (c := c) g' w -> spans (c := c) h w).
Proof.
  intros Hl Hu Hv Hs Hso. destruct (NewGeneric_spec (KO := KO) l u Hl Hu) as (g & E1 & Hg & Hgo & Hin). exists g.
  split_and!; [done|done|by apply (In_spec (KO := KO))| | |].
  - destruct s as [f t]. destruct Hs as [Hf Ht]. by apply (Overlaps_spec (KO := KO)).
  - destruct (Crop_spec (KO := KO) g s Hg Hs) as (b & g' & E2 & _ & H). by exists b, g'.
  - destruct (Extend_spec (KO := KO) g v Hg Hv Hgo) as (g' & E2 & _ & H). by exists g'.
Qed.

(** ** Partitions *)

Section pool.
Context (to32 of32 to16 of16 : Z -> Z) (ctx : Context) (Hctx : wf ctx).
Context {W : Type} `{!View Value W}.
Local Abbreviation dobject := (dobject Value).
Local Abbreviation key_c := (key_c to32 to16).
Local Abbreviation has_keys := (has_keys to32 to16 ctx).
Local Abbreviation list_all := (list_all to32 of32 to16 of16).
Local Abbreviation slice_all := (slice_all to32 of32 to16 of16).
Local Abbreviation before := (before (c := key_c)).

(** The bounds of a partition are the least and greatest bounds of its
    objects. *)
Definition tight (p : Partition) : Prop := is_hull (c := key_c) (p_Min p) (p_Max p) (p_Objects p).
Definition partition_before (desc : bool) (p q : Partition) : Prop := all_before (c := key_c) desc (p_Objects p) (p_Objects q).

Lemma list_and_slice keys (snap : W) (desc : bool) (p : option (dobject -> Value)) (os : list dobject) (fuel : nat) :
  faithful to32 to16 keys -> Select snap (fun _ => true) = os -> Forall (has_keys keys) os -> (length os < fuel)%nat ->
  exists l' listed s' gs,
    list_all fuel (NewSortedListerFromSnap snap desc p) = (Ok (Some listed), l') /\
    listed ≡ₚ List.filter (fun o => negb (prune p o)) os /\
    slice_all fuel (NewSlicer listed) = (Ok (Some (map (partition_of (c := key_c)) gs)), s') /\
    concat gs = listed /\ Forall (fun g => g <> []) gs /\ StronglySorted (all_before (c := key_c) desc) gs.
Proof.
  intros Hf Hs Hos Hfuel.
  destruct (list_all_spec to32 of32 to16 of16 ctx Hctx keys snap desc p fuel os Hf Hs Hos Hfuel) as (l' & El).
  set (sorted := stable_sort (cmp_lt (object_cmp to32 to16 desc)) os) in *. set (listed := kept p sorted) in *.
  assert (Hperm : listed ≡ₚ List.filter (fun o => negb (prune p o)) os).
  { unfold listed, kept. assert (Hp : sorted ≡ₚ os) by apply stable_sort_perm.
    clear -Hp. induction Hp as [|x l l' _ IH|x y l|l l' l'' _ IH1 _ IH2]; cbn; [done|by destruct (negb _); rewrite ?IH| |by rewrite IH1].
    destruct (negb (prune p x)), (negb (prune p y)); try done. constructor. }
  assert (Hlen : (length listed <= length os)%nat).
  { rewrite Hperm. apply List.filter_length_le. }
  assert (Hvalid : Forall (valid (c := key_c) (good := key_good to32 to16 ctx)) listed).
  { rewrite Hperm. apply Forall_forall. intros d Hd. apply list_elem_of_In, filter_In in Hd as [Hd _].
    rewrite Forall_forall in Hos. apply Hos. by apply list_elem_of_In. }
  pose proof (key_order to32 of32 to16 of16 ctx Hctx) as KO.
  set (gs := groups (c := key_c) [] listed).
  destruct (slice_all_spec to32 of32 to16 of16 (c := key_c) (KO := KO) gs fuel (NewSlicer listed)) as (s' & Es).
  { right. exists []. by split_and!. }
  { pose proof (groups_length (c := key_c) listed []) as Hl. fold gs in Hl. cbn [length] in Hl. lia. }
  exists l', listed, s', gs. split_and!; [done|done|done| | |].
  - apply groups_concat.
  - apply groups_nonempty.
  - apply (groups_separated to32 of32 to16 of16 (KO := KO)); [done|]. apply (sorted_starts to32 to16).
    apply sorted_filter. apply (stable_sort_sorted _ (fun _ => True)); [apply object_cmp_antisym| |by apply Forall_true].
    intros a b d _ _ _. apply object_cmp_trans.
Qed.

(** ** The whole scan *)

Context (dotted : list gostring -> Value -> Value).

(** The key by which the comparator of a pool compares a value first. *)
Definition pool_key (path : list gostring) (v : Value) : Value := missingAsNull to32 to16 (dotted path) v.
(** The values of an object have keys within its bounds. *)
Definition holds_keys (path : list gostring) (d : dobject) (vs : list Value) : Prop :=
  Forall (fun v => key_good to32 to16 ctx (pool_key path v) /\ key_c (Min d) (pool_key path v) <= 0 /\ key_c (pool_key path v) (Max d) <= 0) vs.

Definition record_cmp (k : Comparator) : Value -> Value -> outcome diverge Z := Compare to32 of32 to16 of16 k.
Definition record_c (k : Comparator) : Value -> Value -> Z := compare_keys to32 to16 true (exprs k).
Definition record_good (k : Comparator) (v : Value) : Prop :=
  sortable_by to32 to16 true ctx (exprs k) v /\ exists b, Value_Bytes to32 to16 v = Ok b.

#[export] Instance record_order k : nullsMax k = true -> MergeOrder to32 to16 (record_cmp k) (record_c k) (record_good k).
Proof.
  intros Hn. split.
  - intros v w [Hv _] [Hw _]. unfold record_cmp, Compare. rewrite Hn. by apply (Compare_loop_key _ _ _ _ true ctx Hctx).
  - intros v w. apply compare_keys_antisym.
  - intros u v w. apply compare_keys_trans.
  - by intros v [_ ?].
Qed.

Lemma keys_before sk rest desc path a b v w :
  sk = mkSortKey desc path :: rest -> before desc a b ->
  key_c (Min a) (pool_key path v) <= 0 -> key_c (pool_key path v) (Max a) <= 0 ->
  key_c (Min b) (pool_key path w) <= 0 -> key_c (pool_key path w) (Max b) <= 0 ->
  record_c (NewComparatorNullsMax to32 to16 dotted sk) v w <= 0.
Proof.
  intros -> Hb H1 H2 H3 H4. pose proof (key_order to32 of32 to16 of16 ctx Hctx) as KO.
  unfold record_c, NewComparatorNullsMax, WithMissingAsNull. cbn [exprs nullsMax NewComparator key_evals map app k_Key k_Order Compare.desc Eval_].
  cbn [compare_keys Eval_ Compare.desc]. fold (pool_key path v) (pool_key path w).
  assert (Hlt : (if desc then key_c (pool_key path w) (pool_key path v) else key_c (pool_key path v) (pool_key path w)) < 0).
  { unfold before in Hb. destruct desc.
    - apply (key_le_lt (KO := KO) _ (Max b)); [done|]. by apply (key_lt_le (KO := KO) _ (Min a)).
    - apply (key_le_lt (KO := KO) _ (Max a)); [done|]. by apply (key_lt_le (KO := KO) _ (Min b)). }
  unfold orelse, key_c in *. destruct desc; zcases; lia.
Qed.

(** C12: scanning a pool in order. The lister, the slicer and the sequence
    scanner with its merges, each pulled to its end, return every value of
    every object of the view that the pruner leaves exactly once, in batches
    that are not empty, and in the order of the pool's comparator: by the
    first sort key, ascending or descending, with missing keys as nulls, then
    by the other keys and the bytes of the values; however the key spans of
    the objects overlap. The keys have no floats and no type values; the
    bounds of the objects are faithful to their bytes, as in C17; each object
    opens, and its values are in order and within its bounds. *)
Theorem pool_scan (keys : Value -> Prop) (snap : W) (desc : bool) (path : list gostring) (rest : list SortKey)
    (p : option (dobject -> Value)) (os : list dobject) (content : dobject -> list Value)
    (open_ : dobject -> outcome diverge (list (result diverge))) (fuel fuel' : nat) :
  let k := NewComparatorNullsMax to32 to16 dotted (mkSortKey desc path :: rest) in
  faithful to32 to16 keys -> Select snap (fun _ => true) = os -> Forall (has_keys keys) os ->
  Forall (fun d => gives (c := record_c k) (good := record_good k) open_ d (content d) /\ holds_keys path d (content d)) os ->
  (length os < fuel)%nat -> (length (concat (map content os)) < fuel')%nat ->
  exists l' listed s' ps q' bs,
    list_all fuel (NewSortedListerFromSnap snap desc p) = (Ok (Some listed), l') /\
    listed ≡ₚ List.filter (fun o => negb (prune p o)) os /\
    slice_all fuel (NewSlicer listed) = (Ok (Some ps), s') /\
    drain_sequence (to32 := to32) (to16 := to16) (cmp := record_cmp k) open_ fuel' (NewSequenceScanner (map p_Objects ps)) = (Ok (Some bs), q') /\
    Forall (fun b => b <> []) bs /\ concat bs ≡ₚ concat (map content listed) /\
    StronglySorted (fun v w => exists x, Compare to32 of32 to16 of16 k v w = Ok x /\ x <= 0) (concat bs).
Proof.
  intros k Hf Hs Hos Hopen Hfuel Hfuel'.
  destruct (list_and_slice keys snap desc p os fuel Hf Hs Hos Hfuel) as (l' & listed & s' & gs & E1 & Hp & E2 & Hc & Hne & Hsort).
  pose proof (record_order k eq_refl) as MO.
  assert (Hin : Forall (fun d => d ∈ os) listed).
  { rewrite Hp. apply Forall_forall. intros d Hd. apply list_elem_of_In, filter_In in Hd as [Hd _]. by apply list_elem_of_In. }
  assert (Hgood : forall g, g ∈ gs -> Forall (fun d => d ∈ os) g).
  { intros g Hg. apply Forall_forall. intros d Hd. rewrite Forall_forall in Hin. apply Hin. rewrite <- Hc.
    apply list_elem_of_In, in_concat. exists g. split; by apply list_elem_of_In. }
  rewrite Forall_forall in Hopen.
  set (sss := map (fun g => map content g) gs).
  assert (Hgives : Forall2 (Forall2 (gives (c := record_c k) (good := record_good k) open_)) gs sss).
  { unfold sss. apply Forall2_fmap_r. apply Forall_Forall2_diag. apply Forall_forall. intros g Hg. apply Forall2_fmap_r, Forall_Forall2_diag.
    eapply Forall_impl; [by apply Hgood|]. intros d Hd. by apply Hopen. }
  assert (Hvals : StronglySorted (values_before (c := record_c k)) sss).
  { unfold sss. assert (Hall : Forall (fun g => Forall (fun d => d ∈ os) g) gs) by by apply Forall_forall. clear -Hsort Hall Hopen Hctx of32 of16.
    induction Hsort as [|g gs' Hs IH Hg]; [constructor|]. apply Forall_cons in Hall as [G1 Hall]. cbn. constructor; [by apply IH|].
    apply Forall_map, Forall_forall. intros g' Hg'. rewrite Forall_forall in Hg, Hall. specialize (Hg g' Hg').
    pose proof (Hall g' Hg') as G2. rewrite Forall_forall in G1, G2.
    apply Forall_forall. intros v Hv. apply Forall_forall. intros w Hw.
    apply list_elem_of_In, in_concat in Hv as (sv & Hsv & Hv), Hw as (sw & Hsw & Hw).
    apply in_map_iff in Hsv as (a & <- & Ha), Hsw as (b & <- & Hb). apply list_elem_of_In in Hv, Hw, Ha, Hb.
    destruct (Hopen a (G1 a Ha)) as [_ Ka], (Hopen b (G2 b Hb)) as [_ Kb]. unfold holds_keys in Ka, Kb. rewrite Forall_forall in Ka, Kb.
    destruct (Ka v Hv) as (_ & A1 & A2), (Kb w Hw) as (_ & B1 & B2). unfold all_before in Hg. rewrite Forall_forall in Hg.
    specialize (Hg a Ha). rewrite Forall_forall in Hg. by apply (keys_before _ rest desc path a b v w eq_refl (Hg b Hb)). }
  assert (Hrest : concat (map (fun ss => concat ss) sss) = concat (map content listed)).
  { unfold sss. rewrite <- Hc, map_map. clear. induction gs as [|g gs IH]; [done|]. cbn. rewrite IH, map_app, concat_app. done. }
  destruct (drain_sequence_spec (c := record_c k) (good := record_good k) open_ fuel' (NewSequenceScanner gs) [] sss) as (bs & q' & E3 & Hbs & Hpb & Hsb).
  - by split_and!.
  - constructor; [done|]. apply Forall_forall. intros ss _. constructor.
  - unfold ScanProps.rest. cbn [concat app]. rewrite Hrest.
    assert (Hl : (length (concat (map content listed)) <= length (concat (map content os)))%nat); [|lia].
    rewrite Hp. clear. induction os as [|o os IH]; [done|]. cbn. destruct (negb _); cbn; rewrite ?length_app; lia.
  - unfold ScanProps.rest in Hpb. cbn [concat app] in Hpb. rewrite Hrest in Hpb.
    exists l', listed, s', (map (partition_of (c := key_c)) gs), q', bs.
    replace (map p_Objects (map (partition_of (c := key_c)) gs)) with gs by (rewrite map_map; cbn; by rewrite map_id).
    split_and!; try done.
    assert (Hg : Forall (record_good k) (concat bs)).
    { rewrite Hpb. apply Forall_forall. intros v Hv. apply list_elem_of_In, in_concat in Hv as (s & Hs' & Hv).
      apply in_map_iff in Hs' as (d & <- & Hd). apply list_elem_of_In in Hd, Hv. rewrite Forall_forall in Hin.
      destruct (Hopen d (Hin d Hd)) as [(_ & _ & _ & _ & Hg) _]. rewrite Forall_forall in Hg. by apply Hg. }
    clear -Hsb Hg MO. induction Hsb as [|v l Hs IH Hl]; [constructor|]. apply Forall_cons in Hg as [Gv Hg]. constructor; [by apply IH|].
    rewrite Forall_forall in *. intros w Hw. exists (record_c k v w). split; [|by apply Hl].
    apply (mo_cmp (MergeOrder := MO)); [done|by apply Hg].
Qed.
End pool.

(** ** A concrete pool *)

Definition same (x : Z) : Z := x.
Definition this (_ : list gostring) (v : Value) : Value := v.
Definition ints (ns : list Z) : list Value := map NewInt64 ns.
(** Two objects that overlap, one past them, and what they hold. *)
Definition demo_objects : list (dobject Value) :=
  [mkObj 1 (NewInt64 8) (NewInt64 9) 2 0; mkObj 2 (NewInt64 1) (NewInt64 5) 3 0; mkObj 3 (NewInt64 3) (NewInt64 4) 2 0].
Definition demo_content (d : dobject Value) : list Value :=
  ints (if Commits.ID d =? 1 then [8; 9] else if Commits.ID d =? 2 then [1; 3; 5] else [3; 4]).
Definition demo_open (d : dobject Value) : outcome diverge (list (result diverge)) := Ok [Batch (demo_content d)].
Definition demo_snap : snapshot Value := mkSnap (list_to_map (map (fun d => (Commits.ID d, d)) demo_objects)) ∅.
Definition demo_keys (v : Value) : Prop := v ∈ ints [1; 3; 4; 5; 8; 9].
Definition demo_order : Comparator := NewComparatorNullsMax same same this [mkSortKey false []].

Lemma Forall_mem {A} (P : A -> Prop) (l : list A) : Forall P l -> forall x, x ∈ l -> P x.
Proof. by rewrite Forall_forall. Qed.

Lemma demo_faithful : faithful same same demo_keys.
Proof.
  assert (H : Forall (fun v => Forall (fun w => exists a b, Value_Bytes same same v = Ok a /\ Value_Bytes same same w = Ok b /\
    (key_c same same v w = 0 <-> default [] a = default [] b)) (ints [1; 3; 4; 5; 8; 9])) (ints [1; 3; 4; 5; 8; 9])).
  { unfold ints; cbn [map]. repeat (apply Forall_cons_2; [repeat (apply Forall_cons_2; [eexists _, _; split; [reflexivity|split; [reflexivity|]]; vm_compute; split; (reflexivity || discriminate)|]); apply Forall_nil_2|]); apply Forall_nil_2. }
  intros v w Hv Hw. eapply Forall_mem in H; [|exact Hv]. by eapply Forall_mem in H; [|exact Hw].
Qed.

Lemma int64_good n : key_good same same NewContext (NewInt64 n).
Proof. split; [split; [|by split]|eexists; reflexivity]. intros Hcx. discriminate Hcx. Qed.

Lemma demo_selected :
  Select demo_snap (fun _ => true) =
    [mkObj 3 (NewInt64 3) (NewInt64 4) 2 0; mkObj 2 (NewInt64 1) (NewInt64 5) 3 0; mkObj 1 (NewInt64 8) (NewInt64 9) 2 0].
Proof. by vm_compute. Qed.

Lemma demo_has_keys : Forall (has_keys same same NewContext demo_keys) (Select demo_snap (fun _ => true)).
Proof.
  rewrite demo_selected. unfold demo_keys.
  repeat (apply Forall_cons_2; [split; [unfold ints; cbn [map Min Max]; set_solver|
    split; [unfold ints; cbn [map Min Max]; set_solver|split; [apply int64_good|split; [apply int64_good|vm_compute; discriminate]]]]|]).
  apply Forall_nil_2.
Qed.

Lemma int64_bytes n : Value_Bytes same same (NewInt64 n) = Ok (AppendInt None (i64 n)).
Proof. rewrite <- (i64_u64 n). apply EncodeInt_AppendInt. apply i64_range. Qed.

Lemma ints_good ns : Forall (record_good same same NewContext demo_order) (ints ns).
Proof.
  apply Forall_fmap, Forall_true. intros n. cbn [compose]. split; [|eexists; apply int64_bytes].
  apply Forall_cons_2; [apply (int64_good n)|]. apply Forall_singleton.
  replace (Eval_ _ _) with (NewBytes (AppendInt None (i64 n))).
  - split; [split; [|by split]|]; [intros Hcx; discriminate Hcx|]. by destruct (AppendInt None (i64 n)); eexists.
  - cbn [Eval_ k_Order]. unfold missingAsNull, valueAsBytes. rewrite int64_bytes. by destruct (AppendInt None (i64 n)).
Qed.

Lemma demo_gives d : d ∈ demo_objects ->
  gives (c := record_c same same demo_order) (good := record_good same same NewContext demo_order) demo_open d (demo_content d) /\
  holds_keys same same NewContext this [] d (demo_content d).
Proof.
  intros Hd. split.
  - exists [Batch (demo_content d)]. split; [done|]. split.
    + exists [demo_content d], []. split_and!; [|done|constructor|unfold demo_content; by repeat case_match].
      apply Forall_singleton. unfold demo_content. by repeat case_match.
    + split; [|apply ints_good]. unfold demo_content.
      destruct (_ =? 1); [|destruct (_ =? 2)]; unfold ints; cbn [map];
        repeat (apply SSorted_cons; [|repeat (apply Forall_cons_2; [vm_compute; discriminate|]); apply Forall_nil_2]); apply SSorted_nil.
  - revert d Hd. apply Forall_forall. unfold demo_objects.
    repeat (apply Forall_cons_2;
      [unfold holds_keys; cbn; repeat (apply Forall_cons_2; [split; [apply int64_good|split; vm_compute; discriminate]|]); apply Forall_nil_2|]).
    apply Forall_nil_2.
Qed.

Lemma merge_merges_witness :
  let ss := [ints [1; 3; 5]; ints [3; 4]] in
  exists bs o',
    pull_all same same (record_cmp same same same same demo_order) 6 (New [[Batch (ints [1; 3; 5])]; [Batch (ints [3; 4])]]) = (Ok (Some bs), o') /\
    concat bs ≡ₚ concat ss /\ StronglySorted (fun v w => record_c same same demo_order v w <= 0) (concat bs).
Proof.
  intros ss. pose proof (record_order same same same same NewContext NewContext_wf demo_order eq_refl) as MO.
  destruct (merge_merges (MO := MO) (New [[Batch (ints [1; 3; 5])]; [Batch (ints [3; 4])]]) ss (replicate 2 []) 6) as [H _].
  - left. split; [done|]. split; [done|done| |].
    + intros [|[|i]] rs s t H1 H2 H3; try done; injection H1 as <-; injection H2 as <-; injection H3 as <-.
      * exists [ints [1; 3; 5]], []. by split_and!; [apply Forall_singleton|done|constructor|].
      * exists [ints [3; 4]], []. by split_and!; [apply Forall_singleton|done|constructor|].
    + pose proof (demo_gives (mkObj 2 (NewInt64 1) (NewInt64 5) 3 0) ltac:(unfold demo_objects; set_solver)) as [(rs & _ & _ & H1) _].
      pose proof (demo_gives (mkObj 3 (NewInt64 3) (NewInt64 4) 2 0) ltac:(unfold demo_objects; set_solver)) as [(rs' & _ & _ & H2) _].
      by apply Forall_cons_2; [|apply Forall_singleton].
  - destruct (H _ _ (streams_ended 2)) as (bs & o' & E1 & _ & _ & Hp & Hs); [simpl; lia|]. by exists bs, o'.
Defined.

(** A done pull drops the stream after the current one of an upstream whose last
    batch is at hand: of the streams 1, 2 and 3 of one upstream, the one of 2 is
    lost. *)
Theorem done_drops_next_stream :
  let o := New [[Batch (ints [1]); EOS; Batch (ints [2]); EOS; Batch (ints [3]); EOS]] in
  let cmp := record_cmp same same same same demo_order in
  (Pull same same cmp true o).1 = Ok None /\ (pull_all same same cmp 3 (Pull same same cmp true o).2).1 = Ok (Some [ints [3]]).
Proof. by vm_compute. Qed.


Lemma pool_scan_witness :
  exists l' listed s' ps q' bs,
    list_all same same same same 4 (NewSortedListerFromSnap demo_snap false None) = (Ok (Some listed), l') /\
    slice_all same same same same 4 (NewSlicer listed) = (Ok (Some ps), s') /\
    drain_sequence (to32 := same) (to16 := same) (cmp := record_cmp same same same same demo_order) demo_open 8
      (NewSequenceScanner (map p_Objects ps)) = (Ok (Some bs), q') /\
    concat bs ≡ₚ concat (map demo_content listed) /\
    StronglySorted (fun v w => exists x, Compare same same same same demo_order v w = Ok x /\ x <= 0) (concat bs).
Proof.
  destruct (pool_scan same same same same NewContext NewContext_wf this demo_keys demo_snap false [] [] None _ demo_content demo_open 4 8
    demo_faithful eq_refl demo_has_keys) as (l' & listed & s' & ps & q' & bs & E1 & _ & E2 & E3 & _ & H).
  - rewrite demo_selected. repeat (apply Forall_cons_2; [apply demo_gives; unfold demo_objects; set_solver|]). apply Forall_nil_2.
  - rewrite demo_selected. simpl. lia.
  - rewrite demo_selected. simpl. lia.
  - by exists l', listed, s', ps, q', bs.
Defined.

Lemma extents_witness :
  exists g, NewGeneric (slicer_cmp same same same same) (NewInt64 9) (NewInt64 4) = Ok g /\
    (exists b, In_ (slicer_cmp same same same same) g (NewInt64 5) = Ok b /\ (b = true <-> spans (c := key_c same same) g (NewInt64 5))).
Proof.
  pose proof (key_order same same same same NewContext NewContext_wf) as KO.
  destruct (extents (KO := KO) (NewInt64 9) (NewInt64 4) (mkGeneric (NewInt64 1) (NewInt64 5)) (NewInt64 5)) as (g & E1 & _ & H & _);
    [apply int64_good..|split; apply int64_good|vm_compute; discriminate|]. by exists g.
Defined.

(** the order in which the lister puts the objects is not an order when their
    keys have different types: it takes bounds with the same bytes for equal
    ones, and then each of two objects may be less than the other. *)
Theorem object_less_symmetric :
  let a := mkObj 1 (NewUint (TPrim Uint64) 10) (NewUint (TPrim Uint64) 11) 1 0 in
  let b := mkObj 2 (NewInt64 5) (NewInt64 20) 1 0 in
  object_less same same same same false a b = Ok true /\ object_less same same same same false b a = Ok true.
Proof. split; by vm_compute. Qed.
