(* ===== verification/Expr.v ===== *)
(** * Evaluating expressions

    The evaluators of [src/runtime/sam/expr]: [eval.go], [dot.go], [slice.go],
    [values.go], [literal.go] and [var.go], with the promotions and equality of
    [coerce] and the error values of [src/context.go].  Evaluating may enter
    types into the context, so an evaluation is a computation on it.

    A tree of evaluators is an inductive type, one constructor per evaluator.
    The functions of a [Call] and regular expressions are given by what they
    return.  Texts that the source formats with [zson] or [fmt] are parameters. *)

From Stdlib Require Import SpecFloat.
From S2P Require Import Prelude Zcode Types Context Primitive Values Compare.
Local Open Scope Z_scope.

(** ** Float arithmetic

    The operations on the bits of a [float64]; which NaN an operation gives is
    the machine's choice. *)

Definition to_spec (x : Z) : spec_float :=
  let s := Z.testbit x 63 in
  let e := Z.land (Z.shiftr x 52) 2047 in
  let m := Z.land x (2 ^ 52 - 1) in
  if e =? 2047 then if m =? 0 then S754_infinity s else S754_nan
  else if e =? 0 then match m with Zpos p => S754_finite s p (-1074) | _ => S754_zero s end
  else match m + 2 ^ 52 with Zpos p => S754_finite s p (e - 1075) | _ => S754_zero s end.
Definition of_spec (nan : Z) (f : spec_float) : Z :=
  let sign (s : bool) := if s then 2 ^ 63 else 0 in
  match f with
  | S754_zero s => sign s
  | S754_infinity s => sign s + Z.shiftl 2047 52
  | S754_nan => nan
  | S754_finite s m e =>
      sign s + (if Z.pos m <? 2 ^ 52 then Z.pos m else Z.shiftl (e + 1075) 52 + (Z.pos m - 2 ^ 52))
  end.
Definition float_op (op : spec_float -> spec_float -> spec_float) (nan : Z -> Z -> Z) (x y : Z) : Z :=
  of_spec (nan x y) (op (to_spec x) (to_spec y)).
Definition float_neg (x : Z) : Z := Z.lxor x (2 ^ 63).
(** [==]: a NaN is not equal to itself. *)
Definition float_eq (x y : Z) : bool :=
  negb (float_is_nan x) && negb (float_is_nan y) && (float_rank x =? float_rank y).

(** ** Runes *)

(** The width of the first rune, one for an invalid byte ([utf8.DecodeRune]). *)
Definition rune_width (s : list byte) : nat :=
  match s with
  | b0 :: b1 :: b2 :: b3 :: _ =>
      if utf8_valid 1 [b0] then 1 else if utf8_valid 2 [b0; b1] then 2
      else if utf8_valid 3 [b0; b1; b2] then 3 else if utf8_valid 4 [b0; b1; b2; b3] then 4 else 1
  | [b0; b1; b2] =>
      if utf8_valid 1 [b0] then 1 else if utf8_valid 2 [b0; b1] then 2 else if utf8_valid 3 [b0; b1; b2] then 3 else 1
  | [b0; b1] => if utf8_valid 1 [b0] then 1 else if utf8_valid 2 [b0; b1] then 2 else 1
  | [_] => 1
  | [] => 0
  end.
Fixpoint rune_count (fuel : nat) (s : list byte) : nat :=
  match fuel, s with
  | S fuel, _ :: _ => S (rune_count fuel (drop (rune_width s) s))
  | _, _ => O
  end.
Definition RuneCount (s : list byte) : nat := rune_count (length s) s.

(** [utf8PrefixLen] *)
Fixpoint utf8PrefixLen_loop (fuel : nat) (b : list byte) (runeCount : Z) : nat :=
  match fuel, b with
  | S fuel, _ :: _ =>
      if runeCount <=? 0 then O
      else (rune_width b + utf8PrefixLen_loop fuel (drop (rune_width b) b) (runeCount - 1))%nat
  | _, _ => O
  end.
Definition utf8PrefixLen (b : list byte) (runeCount : Z) : nat := utf8PrefixLen_loop (length b) b runeCount.

(** [strconv.ParseInt] in base 10. *)
Fixpoint parse_digits (s : list byte) (n : Z) : option Z :=
  match s with
  | [] => Some n
  | b :: s => if (48 <=? bz b) && (bz b <=? 57) then parse_digits s (n * 10 + (bz b - 48)) else None
  end.
Definition ParseInt64 (s : list byte) : option Z :=
  let '(neg, ds) := match s with b :: ds => if bz b =? 45 then (true, ds) else if bz b =? 43 then (false, ds) else (false, s) | [] => (false, s) end in
  match ds with
  | [] => None
  | _ =>
      n ← parse_digits ds 0;
      let n := if neg : bool then - n else n in
      if (- 2 ^ 63 <=? n) && (n <? 2 ^ 63) then Some n else None
  end.

Section expr.
Context (to32 of32 to16 of16 : Z -> Z) (nan : Z -> Z -> Z).
(** [int64(f)] and [uint64(f)], which depend on the machine out of range. *)
Context (float_to_int float_to_uint : Z -> Z).

Local Abbreviation Under := (Under to32 to16).
Local Abbreviation Float := (Float of32 of16).
Definition val_bytes_ (v : Value) : outcome diverge bytes := no_error (Value_Bytes to32 to16 v).

(** ** Coercion: [coerce/coerce.go] and [coerce/promote.go] *)

(** [coerce.Equal] *)
Definition coerce_Equal (a b : Value) : outcome diverge bool :=
  if IsNull a then Ok (IsNull b)
  else if IsNull b then Ok false
  else
    let aid := ID (v_type a) in
    let bid := ID (v_type b) in
    if negb (IsNumber aid) || negb (IsNumber bid) then
      if aid =? bid then x ← val_bytes_ a; y ← val_bytes_ b; Ok (bool_decide (default [] x = default [] y)) else Ok false
    else if IsFloat aid then x ← no_error (Float a); y ← toFloat to32 of32 to16 of16 b; Ok (float_eq x y)
    else if IsFloat bid then y ← no_error (Float b); x ← toFloat to32 of32 to16 of16 a; Ok (float_eq y x)
    else if IsSigned aid then
      av ← no_error (Int a);
      if IsUnsigned bid then bv ← no_error (Uint b); Ok ((u64 av =? bv) && (0 <=? av))
      else bv ← no_error (Int b); Ok (av =? bv)
    else if IsSigned bid then
      bv ← no_error (Int b);
      if IsUnsigned aid then av ← no_error (Uint a); Ok ((u64 bv =? av) && (0 <=? bv))
      else av ← no_error (Int a); Ok (bv =? av)
    else av ← no_error (Uint a); bv ← no_error (Uint b); Ok (av =? bv).

(** [ToNumeric[int64]] and [ToNumeric[uint64]] *)
Definition toInt (v : Value) : outcome diverge Z :=
  if IsNull v then Ok 0
  else
    v ← Under v;
    let id := ID (v_type v) in
    if IsUnsigned id then u ← no_error (Uint v); Ok (i64 u)
    else if IsSigned id then no_error (Int v)
    else if IsFloat id then f ← no_error (Float v); Ok (float_to_int f)
    else Panic.
Definition toUint (v : Value) : outcome diverge Z :=
  if IsNull v then Ok 0
  else
    v ← Under v;
    let id := ID (v_type v) in
    if IsUnsigned id then no_error (Uint v)
    else if IsSigned id then i ← no_error (Int v); Ok (u64 i)
    else if IsFloat id then f ← no_error (Float v); Ok (float_to_uint f)
    else Panic.

(** [coerce.ToInt] *)
Definition ToInt (v : Value) : outcome diverge (option Z) :=
  v ← Under v;
  let id := ID (v_type v) in
  if IsUnsigned id then u ← no_error (Uint v); Ok (Some (i64 u))
  else if IsSigned id then i ← no_error (Int v); Ok (Some i)
  else if IsFloat id then f ← no_error (Float v); Ok (Some (float_to_int f))
  else if id =? primitive_id String then b ← val_bytes_ v; Ok (ParseInt64 (default [] b))
  else Ok None.

Inductive promote_error := ErrIncompatibleTypes | ErrOverflow.
Definition promoteFloat : list Z :=
  [14; 14; 15; 16; 17; 18; 14; 14; 15; 16; 17; 18; 16; 16; 14; 15; 16; 17; 18; 15; 16; 17; 18].
Definition promoteInt : list Z :=
  [6; 7; 8; 9; 10; 11; 6; 7; 8; 9; 10; 11; 9; 9; 14; 15; 16; 17; 18; 19; 20; 21; 22].
Definition table (t : list Z) (id : Z) : outcome diverge Z := match t !! Z.to_nat id with Some x => Ok x | None => Panic end.

(** [coerce.Promote]: the id of the type of the result. *)
Definition Promote (a b : Value) : outcome diverge (promote_error + Z) :=
  a ← Under a; b ← Under b;
  let aid := ID (v_type a) in
  let bid := ID (v_type b) in
  let null := primitive_id Null in
  let larger aid bid := Ok (inr (if bid <? aid then aid else bid)) in
  if aid =? bid then Ok (inr aid)
  else if aid =? null then Ok (inr bid)
  else if bid =? null then Ok (inr aid)
  else if negb (IsNumber aid) || negb (IsNumber bid) then Ok (inl ErrIncompatibleTypes)
  else if IsFloat aid then
    if negb (IsFloat bid) then bid ← table promoteFloat bid; larger aid bid else larger aid bid
  else if IsFloat bid then aid ← table promoteFloat aid; larger aid bid
  else if IsSigned aid then
    if IsUnsigned bid then
      u ← no_error (Uint b);
      if 2 ^ 63 - 1 <? u then Ok (inl ErrOverflow) else bid ← table promoteInt bid; larger aid bid
    else larger aid bid
  else if IsSigned bid then
    if IsUnsigned aid then
      u ← no_error (Uint a);
      if 2 ^ 63 - 1 <? u then Ok (inl ErrOverflow) else aid ← table promoteInt aid; larger aid bid
    else larger aid bid
  else larger aid bid.

(** ** Error values: [context.go] *)

(** The texts of [zson.FormatType] and of the errors of type lookups and of
    walking. *)
Context (FormatType : ty -> gostring) (lookup_text : lookup_error -> gostring).
Context (walk_text : @walk_error unit -> gostring).

Definition NewError (msg : gostring) : M Value := t ← StringTypeError; mret (NewValue t (Some msg)).
Definition Missing : M Value := NewError Missing_.
Definition Quiet : M Value := NewError Quiet_.
Definition WrapError (msg : gostring) (val : Value) : M Value :=
  r ← MustLookupTypeRecord [(str "message", TPrim String); (str "on", v_type val)];
  e ← LookupTypeError r;
  b ← lift (val_bytes_ val);
  b ← lift (no_error (Bytes_ (BAppend (BAppend NewBuilder (EncodeString msg)) b)));
  mret (NewValue e b).

Definition promote_text (e : promote_error) : gostring :=
  match e with
  | ErrIncompatibleTypes => str "incompatible types"
  | ErrOverflow => str "integer overflow: uint64 value too large for int64"
  end.

(** ** Containers *)

(** [getNthFromContainer]: nil when there is none. *)
Fixpoint nth_loop (fuel : nat) (i idx : Z) (it : list byte) : outcome diverge bytes :=
  if Done it then Ok None
  else match fuel with
       | O => Err Diverge
       | S fuel =>
           '(zv, it) ← no_error (Next it);
           if i =? idx then Ok zv else nth_loop fuel (i + 1) idx it
       end.
Definition getNthFromContainer (container : bytes) (idx : Z) : outcome diverge bytes :=
  let it := Iter container in
  if idx <? 0 then
    length ← (vs ← iter_all container; Ok (zlen vs));
    let idx := length + idx in
    if (idx <? 0) || (length <=? idx) then Ok None else nth_loop (List.length it) 0 idx it
  else nth_loop (List.length it) 0 idx it.

Fixpoint lookupKey_loop (fuel : nat) (target : bytes) (it : list byte) : outcome diverge (option bytes) :=
  if Done it then Ok None
  else match fuel with
       | O => Err Diverge
       | S fuel =>
           '(key, it) ← no_error (Next it);
           '(val, it) ← no_error (Next it);
           if decide (default [] key = default [] target) then Ok (Some val) else lookupKey_loop fuel target it
       end.
Definition lookupKey (mapBytes target : bytes) : outcome diverge (option bytes) :=
  lookupKey_loop (length (Iter mapBytes)) target (Iter mapBytes).

Definition deunion (t : ty) (b : bytes) : outcome diverge Value :=
  match t with
  | TUnion id types => '(t, b) ← no_error (Untag id types b); Ok (NewValue t b)
  | _ => Ok (NewValue t b)
  end.

Definition indexVector (inner : ty) (vector : bytes) (index : Value) : M Value :=
  let id := ID (v_type index) in
  if negb (IsInteger id) then WrapError (str "index is not an integer") index
  else if IsNull index then Missing
  else
    idx ← lift (if IsSigned id then no_error (Int index) else u ← no_error (Uint index); Ok (i64 u));
    zv ← lift (getNthFromContainer vector idx);
    match zv with None => Missing | Some _ => lift (deunion inner zv) end.

Definition value_outcome {A} (m : outcome value_error A) : outcome diverge A :=
  match m with Ok a => Ok a | Err ErrValueDiverges => Err Diverge | _ => Panic end.

Definition indexRecord (id : Z) (fields : list field) (record : bytes) (index : Value) : M Value :=
  if negb (ID (v_type index) =? primitive_id String) then WrapError (str "record index is not a string") index
  else
    field ← lift (b ← val_bytes_ index; Ok (DecodeString b));
    val ← lift (value_outcome (Deref to32 to16 (Some (NewValue (TRecord id fields) record)) field));
    match val with None => Missing | Some val => mret val end.

Definition indexMap (keyType valType : ty) (mapBytes : bytes) (key : Value) : M Value :=
  missing ← lift (no_error (IsMissing to32 to16 (Some key)));
  if missing : bool then Missing
  else
    key_bytes ← lift (val_bytes_ key);
    if decide (v_type key = keyType) then
      v ← lift (lookupKey mapBytes key_bytes);
      match v with Some valBytes => lift (deunion valType valBytes) | None => Missing end
    else
      match TypeUnder keyType with
      | TUnion _ types =>
          let tag := TagOf types (v_type key) in
          if 0 <=? tag then
            b ← lift (no_error (b ← BuildUnion NewBuilder tag key_bytes; Bytes_ b));
            body ← lift (match Body b with Ok b => Ok b | _ => Panic end);
            v ← lift (lookupKey mapBytes body);
            match v with Some valBytes => lift (deunion valType valBytes) | None => Missing end
          else Missing
      | _ => Missing
      end.

(** [DotExpr.Eval] on the value of its record expression *)
Definition evalTypeOfType (field : gostring) (b : bytes) : M Value :=
  r ← DecodeTypeValue (default [] b);
  match r with
  | Some (t, _) =>
      match TypeUnder t with
      | TRecord _ fields =>
          u ← lift (no_error (TypeOfField fields field));
          match u with
          | Some u =>
              tv ← LookupTypeValue u;
              match tv with Some tv => mret (NewValue (TPrim Type_) (Some tv)) | None => Missing end
          | None => Missing
          end
      | _ => Missing
      end
  | None => Missing
  end.
Definition dot (field : gostring) (val : Value) : M Value :=
  val ← lift (Under val);
  match v_type val with
  | TRecord _ fields =>
      match IndexOfField fields field with
      | None => Missing
      | Some i =>
          zv ← lift (b ← val_bytes_ val; getNthFromContainer b (Z.of_nat i));
          match fields !! i with Some f => mret (NewValue f.2 zv) | None => panic end
      end
  | TMap _ keyType valType => b ← lift (val_bytes_ val); indexMap keyType valType b (NewString field)
  | TPrim Type_ => b ← lift (val_bytes_ val); evalTypeOfType field b
  | _ => Missing
  end.

(** ** Operators on values *)

Inductive arith := Add | Subtract | Multiply | Divide | Modulo.
Inductive relation := OpLT | OpLE | OpGT | OpGE.
Definition convert (r : relation) (v : Z) : bool :=
  match r with OpLT => v <? 0 | OpLE => v <=? 0 | OpGT => 0 <? v | OpGE => 0 <=? v end.

(** [enumToIndex] *)
Definition enumToIndex (v : Value) : outcome diverge Value :=
  match v_type v with TEnum _ _ => b ← val_bytes_ v; Ok (NewValue (TPrim Uint64) b) | _ => Ok v end.

Definition False_ : Value := NewBool false.
Definition True_ : Value := NewBool true.
Definition result (r : relation) (c : Z) : Value := NewBool (convert r c).

(** [Compare.Eval] on its operands *)
Definition compare_relative (r : relation) (lhs rhs : Value) : outcome diverge Value :=
  lhs ← Under lhs; rhs ← Under rhs;
  if IsNull lhs then Ok (if IsNull rhs then result r 0 else False_)
  else if IsNull rhs then Ok False_
  else
    let lid := ID (v_type lhs) in
    let rid := ID (v_type rhs) in
    if IsNumber lid && IsNumber rid then c ← compareNumbers to32 of32 to16 of16 lhs rhs lid rid; Ok (result r c)
    else if negb (lid =? rid) then Ok False_
    else if lid =? primitive_id Bool then
      l ← no_error (Bool_ lhs);
      if l : bool then rb ← no_error (Bool_ rhs); Ok (if rb : bool then result r 0 else False_) else Ok False_
    else if lid =? primitive_id Bytes then
      x ← val_bytes_ lhs; y ← val_bytes_ rhs; Ok (result r (bytes_compare (default [] x) (default [] y)))
    else if lid =? primitive_id String then
      x ← val_bytes_ lhs; y ← val_bytes_ lhs; Ok (result r (bytes_compare (DecodeString x) (DecodeString y)))
    else
      x ← val_bytes_ lhs; y ← val_bytes_ rhs;
      Ok (if decide (default [] x = default [] y) then result r 0 else False_).

Definition op_text (op : arith) : gostring :=
  str match op with Add => "+" | Subtract => "-" | Multiply => "*" | Divide => "/" | Modulo => "%" end.
Definition incompatible (op : arith) (t : ty) : M Value :=
  NewError (str "type " ++ FormatType t ++ str " incompatible with '" ++ op_text op ++ str "' operator").
Definition DivideByZero : M Value := NewError (str "divide by zero").

Definition uint_op (op : arith) (x y : Z) : Z :=
  match op with Add => u64 (x + y) | Subtract => u64 (x - y) | Multiply => u64 (x * y) | Divide => x / y | Modulo => x mod y end.
(** Go's division truncates. *)
Definition int_op (op : arith) (x y : Z) : Z :=
  match op with
  | Add => i64 (x + y) | Subtract => i64 (x - y) | Multiply => i64 (x * y)
  | Divide => i64 (Z.quot x y) | Modulo => Z.rem x y
  end.
Definition spec_op (op : arith) : spec_float -> spec_float -> spec_float :=
  match op with
  | Add => SFadd 53 1024 | Subtract => SFsub 53 1024 | Multiply => SFmul 53 1024 | _ => SFdiv 53 1024
  end.
Definition divides (op : arith) : bool := match op with Divide | Modulo => true | _ => false end.

(** The operators on operands that were promoted to the type [t]. *)
Definition arith_op (op : arith) (lhs rhs : Value) (t : ty) : M Value :=
  let id := ID t in
  if IsUnsigned id then
    y ← lift (toUint rhs);
    if divides op && (y =? 0) then DivideByZero
    else x ← lift (match op with Modulo => no_error (Uint lhs) | _ => toUint lhs end); mret (NewUint t (uint_op op x y))
  else if IsSigned id then
    let t := match op with Subtract => if id =? primitive_id Time then TPrim Duration else t | _ => t end in
    y ← lift (toInt rhs);
    if divides op && (y =? 0) then DivideByZero
    else x ← lift (toInt lhs); mret (NewInt t (int_op op x y))
  else if IsFloat id then
    match op with
    | Modulo => incompatible op t
    | _ =>
        y ← lift (toFloat to32 of32 to16 of16 rhs);
        if divides op && float_eq y 0 then DivideByZero
        else x ← lift (toFloat to32 of32 to16 of16 lhs); mret (newNativeValue t (float_op (spec_op op) nan x y))
    end
  else
    match op with
    | Add =>
        if id =? primitive_id String then
          x ← lift (val_bytes_ lhs); y ← lift (val_bytes_ rhs);
          mret (NewValue t (EncodeString (DecodeString x ++ DecodeString y)))
        else incompatible op t
    | _ => incompatible op t
    end.

(** [numeric.evalAndPromote] on its operands, and the operator *)
Definition arithmetic (op : arith) (lhs rhs : Value) : M Value :=
  lhs ← lift (enumToIndex lhs); rhs ← lift (enumToIndex rhs);
  p ← lift (Promote lhs rhs);
  match p with
  | inl e => NewError (promote_text e)
  | inr id => fun c =>
      match LookupType c id with
      | Ok t => arith_op op lhs rhs t c
      | Err e => NewError (lookup_text e) c
      | Panic => Panic
      end
  end.

(** Conversion to a signed integer of [bits] bits. *)
Definition narrow (bits x : Z) : Z := (x + 2 ^ (bits - 1)) mod 2 ^ bits - 2 ^ (bits - 1).
(** The [UnaryMinus] cases of the integers of [bits] bits. *)
Definition negate_int (bits : Z) (t : ty) (val : Value) : M Value :=
  v ← lift (no_error (Int val));
  if v =? - 2 ^ (bits - 1) then WrapError (str "unary '-' underflow") val else mret (NewInt t (narrow bits (- v))).
Definition negate_uint (bits : Z) (t : ty) (val : Value) : M Value :=
  v ← lift (no_error (Uint val));
  if 2 ^ (bits - 1) - 1 <? v then WrapError (str "unary '-' overflow") val else mret (NewInt t (narrow bits (- v))).
Definition unary_minus (val : Value) : M Value :=
  let t := v_type val in
  let id := ID t in
  if IsNull val && IsNumber id then mret val
  else if (id =? 14) || (id =? 15) || (id =? 16) then
    f ← lift (no_error (Float val)); mret (newNativeValue t (float_neg f))
  else if id =? primitive_id Int8 then negate_int 8 (TPrim Int8) val
  else if id =? primitive_id Int16 then negate_int 16 (TPrim Int16) val
  else if id =? primitive_id Int32 then negate_int 32 (TPrim Int32) val
  else if id =? primitive_id Int64 then negate_int 64 (TPrim Int64) val
  else if id =? primitive_id Uint8 then negate_uint 8 (TPrim Int8) val
  else if id =? primitive_id Uint16 then negate_uint 16 (TPrim Int16) val
  else if id =? primitive_id Uint32 then negate_uint 32 (TPrim Int32) val
  else if id =? primitive_id Uint64 then negate_uint 64 (TPrim Int64) val
  else WrapError (str "type incompatible with unary '-' operator") val.

(** [In.Eval] on its operands: the walk stops at the first match. *)
Inductive in_stop := Match | Stuck (e : diverge).
Definition in_visit (elem : Value) (t : ty) (body : bytes) (s : unit) : outcome (@walk_error in_stop) (bool * unit) :=
  match coerce_Equal elem (NewValue t body) with
  | Ok true => Err (ErrVisit Match)
  | Ok false => Ok (false, tt)
  | Err e => Err (ErrVisit (Stuck e))
  | Panic => Panic
  end.
Definition contains (elem container : Value) : M Value :=
  b ← lift (val_bytes_ container);
  match Walk (in_visit elem) (v_type container) b tt with
  | Ok _ => mret False_
  | Err (ErrVisit Match) => mret True_
  | Err (ErrVisit (Stuck e)) => lift (Err e)
  | Err ErrMissingField => NewError (walk_text ErrMissingField)
  | Err ErrUnionTag => NewError (walk_text ErrUnionTag)
  | Err ErrUnionEmpty => NewError (walk_text ErrUnionEmpty)
  | Err ErrUnionItems => NewError (walk_text ErrUnionItems)
  | Err ErrWalkDiverges => lift (Err Diverge)
  | Panic => panic
  end.

(** [Slice.Eval] on its operands; an absent bound is [None]. *)
Definition sliceIndex (slot : option Value) (length : Z) : outcome diverge (option (option Z)) :=
  match slot with
  | None => Ok None
  | Some val =>
      v ← ToInt val;
      match v with
      | None => Ok (Some None)
      | Some v =>
          let index := if v <? 0 then i64 (v + length) else v in
          Ok (Some (Some (if index <? 0 then 0 else if length <? index then length else index)))
      end
  end.
Fixpoint slice_loop (fuel : nat) (k from to : Z) (bs : bytes) (it : list byte) : outcome diverge (bytes * list byte) :=
  if (k <? to) && negb (Done it) then
    match fuel with
    | O => Err Diverge
    | S fuel =>
        let bs := if k =? from then Some it else bs in
        '(_, it) ← no_error (Next it); slice_loop fuel (k + 1) from to bs it
    end
  else Ok (bs, it).
(** A Go slice expression [b[lo:hi]]. *)
Definition go_slice (b : bytes) (lo hi : Z) : outcome diverge bytes :=
  let l := default [] b in
  if (0 <=? lo) && (lo <=? hi) && (hi <=? zlen l) then Ok (Some (take (Z.to_nat (hi - lo)) (drop (Z.to_nat lo) l))) else Panic.
Definition ErrSliceIndex : gostring := str "slice index is not a number".

Inductive sliceable := SliceBytes | SliceString | SliceList.
Definition slice_kind (t : ty) : option sliceable :=
  match TypeUnder t with
  | TPrim Bytes => Some SliceBytes | TPrim String => Some SliceString
  | TArray _ _ | TSet _ _ => Some SliceList | _ => None
  end.
Definition slice_length (k : sliceable) (elem : Value) : outcome diverge Z :=
  match k with
  | SliceBytes => b ← val_bytes_ elem; Ok (zlen (default [] b))
  | SliceString => b ← val_bytes_ elem; Ok (Z.of_nat (RuneCount (default [] b)))
  | SliceList => value_outcome (ContainerLength to32 to16 elem)
  end.
Definition slice_bytes (k : sliceable) (b : bytes) (from to : Z) : outcome diverge bytes :=
  match k with
  | SliceBytes => go_slice b from to
  | SliceString =>
      b ← go_slice b (Z.of_nat (utf8PrefixLen (default [] b) from)) (zlen (default [] b));
      go_slice b 0 (Z.of_nat (utf8PrefixLen (default [] b) (to - from)))
  | SliceList =>
      '(bs, it) ← slice_loop (length (Iter b)) 0 from to b (Iter b);
      go_slice bs 0 (zlen (default [] bs) - zlen it)
  end.

(** ** Collections: [collectionBuilder] *)

Definition iter_values (inner : ty) (b : bytes) : outcome diverge (list (ty * bytes)) :=
  vs ← iter_all b; Ok (map (fun v => (inner, v)) vs).

(** [unionOf]; the slice of the types keeps its length. *)
Definition unionOf (types : list ty) : M ty :=
  match List.filter (fun t => negb (bool_decide (t = TPrim Null))) (UniqueTypes types) with
  | [] => mret (TPrim Null)
  | [t] => mret t
  | unique => LookupTypeUnion unique
  end.
Definition appendNext (t : ty) (uniq : nat) (b : Builder) (v : ty * bytes) : outcome diverge Builder :=
  match t with
  | TUnion _ types => if (1 <? uniq)%nat then no_error (BuildUnion b (TagOf types v.1) v.2) else Ok (BAppend b v.2)
  | _ => Ok (BAppend b v.2)
  end.
Fixpoint append_all (t : ty) (uniq : nat) (vs : list (ty * bytes)) (b : Builder) : outcome diverge Builder :=
  match vs with
  | [] => Ok b
  | v :: vs => b ← appendNext t uniq b v; append_all t uniq vs b
  end.
(** The type of the elements and the bytes of the collection. *)
Definition collect_values (vs : list (ty * bytes)) : M (ty * bytes) :=
  t ← unionOf (map fst vs);
  b ← lift (b ← append_all t (length vs) vs NewBuilder; no_error (Bytes_ b));
  mret (t, b).
Definition array_value (vs : list (ty * bytes)) : M Value :=
  match vs with
  | [] => t ← LookupTypeArray (TPrim Null); mret (NewValue t (Some []))
  | _ => '(inner, b) ← collect_values vs; t ← LookupTypeArray inner; mret (NewValue t b)
  end.
Definition set_value (vs : list (ty * bytes)) : M Value :=
  match vs with
  | [] => t ← LookupTypeSet (TPrim Null); mret (NewValue t (Some []))
  | _ => '(inner, b) ← collect_values vs; t ← LookupTypeSet inner; b ← lift (NormalizeSet b); mret (NewValue t b)
  end.

(** [recordExpr.Eval] on its values *)
Definition record_value (names : list gostring) (vals : list Value) : M Value :=
  bs ← lift (mapM val_bytes_ vals);
  t ← MustLookupTypeRecord (zip names (map v_type vals));
  b ← lift (no_error (Bytes_ (foldl BAppend NewBuilder bs)));
  mret (NewValue t (Some (default [] b))).

(** [recordSpreadExpr.Eval]: the fields in the order of their first
    assignment. *)
Fixpoint put_field (name : gostring) (v : Value) (object : list (gostring * Value)) : list (gostring * Value) :=
  match object with
  | [] => [(name, v)]
  | (n, w) :: object => if decide (n = name) then (n, v) :: object else (n, w) :: put_field name v object
  end.
Fixpoint spread_fields (fields : list field) (it : list byte) (object : list (gostring * Value)) :
    outcome diverge (list (gostring * Value)) :=
  match fields with
  | [] => Ok object
  | f :: fields => '(b, it) ← no_error (Next it); spread_fields fields it (put_field f.1 (NewValue f.2 b) object)
  end.
Definition spread_record (rec : Value) (object : list (gostring * Value)) : outcome diverge (list (gostring * Value)) :=
  missing ← no_error (IsMissing to32 to16 (Some rec));
  if missing : bool then Ok object
  else
    match TypeRecordOf (v_type rec) with
    | None => Ok object
    | Some fields => b ← val_bytes_ rec; spread_fields fields (Iter b) object
    end.
Definition object_value (object : list (gostring * Value)) : M Value :=
  match object with
  | [] => t ← MustLookupTypeRecord []; mret (NewValue t (Some []))
  | _ =>
      bs ← lift (mapM (fun f => val_bytes_ f.2) object);
      t ← MustLookupTypeRecord (map (fun f => (f.1, v_type f.2)) object);
      b ← lift (no_error (Bytes_ (foldl BAppend NewBuilder bs)));
      mret (NewValue t b)
  end.

(** [MapExpr.Eval] on its entries; [sort.Slice] is not stable. *)
Context (sort_entries : list (list byte * list byte) -> list (list byte * list byte)).
Fixpoint append_entries (kt vt : ty) (uniq : nat) (ks vs : list (ty * bytes)) (b : Builder) :
    outcome diverge Builder :=
  match ks, vs with
  | k :: ks, v :: vs => b ← appendNext kt uniq b k; b ← appendNext vt uniq b v; append_entries kt vt uniq ks vs b
  | _, _ => Ok b
  end.
Definition typed (v : Value) : outcome diverge (ty * bytes) := b ← val_bytes_ v; Ok (v_type v, b).
Definition map_value (kvs : list (Value * Value)) : M Value :=
  match kvs with
  | [] => t ← LookupTypeMap (TPrim Null) (TPrim Null); mret (NewValue t (Some []))
  | _ =>
      ks ← lift (mapM (fun kv => typed kv.1) kvs); vs ← lift (mapM (fun kv => typed kv.2) kvs);
      kt ← unionOf (map fst ks); vt ← unionOf (map fst vs);
      b ← lift (b ← append_entries kt vt (length kvs) ks vs NewBuilder; no_error (Bytes_ b));
      t ← LookupTypeMap kt vt;
      b ← lift (NormalizeMap sort_entries b);
      mret (NewValue t b)
  end.

(** ** Evaluators *)

Inductive Evaluator :=
| This
| Literal (val : Value)
| Var (slot : nat)
| DotExpr (record : Evaluator) (field : gostring)
| Not (expr : Evaluator)
| And (lhs rhs : Evaluator)
| Or (lhs rhs : Evaluator)
| In (elem container : Evaluator)
| Equal (equality : bool) (lhs rhs : Evaluator)
| RegexpMatch (re : list byte -> bool) (expr : Evaluator)
| Compare (op : relation) (lhs rhs : Evaluator)
| Arithmetic (op : arith) (lhs rhs : Evaluator)
| UnaryMinus (expr : Evaluator)
| Index (container index : Evaluator)
| Conditional (predicate thenExpr elseExpr : Evaluator)
| Call (fn : list Value -> M Value) (exprs : list Evaluator)
| Slice (elem : Evaluator) (from to : option Evaluator)
| RecordExpr (names : list gostring) (exprs : list Evaluator)
(** An element without a name is spread. *)
| RecordSpread (elems : list (option gostring * Evaluator))
(** Whether the element is spread. *)
| ArrayExpr (elems : list (bool * Evaluator))
| SetExpr (elems : list (bool * Evaluator))
| MapExpr (entries : list (Evaluator * Evaluator)).

(** [EvalBool] *)
Definition EvalBool (m : M Value) : M (Value * bool) :=
  val ← m;
  if decide (TypeUnder (v_type val) = TPrim Bool) then mret (val, true)
  else if IsError val then mret (val, false)
  else w ← WrapError (str "not type bool") val; mret (w, false).
Definition bool_of (v : Value) : M bool := lift (no_error (Bool_ v)).

(** [numeric.eval] and the [IsError] tests of [In] and [Compare]: an error
    operand is the result. *)
Definition operands (lhs rhs : M Value) (f : Value -> Value -> M Value) : M Value :=
  l ← lhs;
  if IsError l then mret l
  else r ← rhs; if IsError r then mret r else f l r.

(** *** The [Eval] methods, given the evaluations of the subexpressions *)

Definition bool_value (b : bool) : Value := if b then True_ else False_.

Definition Not_Eval (expr : M Value) : M Value :=
  '(val, ok) ← EvalBool expr;
  if ok : bool then b ← bool_of val; mret (bool_value (negb b)) else mret val.
Definition And_Eval (lhs rhs : M Value) : M Value :=
  '(l, ok) ← EvalBool lhs;
  if negb ok then mret l
  else
    b ← bool_of l;
    if negb b then mret False_
    else
      '(r, ok) ← EvalBool rhs;
      if negb ok then mret r else b ← bool_of r; mret (bool_value b).
Definition Or_Eval (lhs rhs : M Value) : M Value :=
  '(l, ok) ← EvalBool lhs;
  b ← (if ok : bool then bool_of l else mret false);
  if b : bool then mret True_
  else
    missing ← lift (no_error (IsMissing to32 to16 (Some l)));
    if IsError l && negb missing then mret l
    else
      '(r, ok) ← EvalBool rhs;
      if ok : bool then b ← bool_of r; mret (bool_value b) else mret r.
Definition In_Eval (elem container : M Value) : M Value := operands elem container contains.
Definition equal (equality : bool) (l r : Value) : outcome diverge Value :=
  l ← enumToIndex l; r ← enumToIndex r;
  b ← coerce_Equal l r;
  Ok (bool_value (Bool.eqb b equality)).
Definition Equal_Eval (equality : bool) (lhs rhs : M Value) : M Value :=
  operands lhs rhs (fun l r => lift (equal equality l r)).
Definition RegexpMatch_Eval (re : list byte -> bool) (expr : M Value) : M Value :=
  val ← expr;
  if ID (v_type val) =? primitive_id String then b ← lift (val_bytes_ val); mret (bool_value (re (default [] b)))
  else mret False_.
Definition Compare_Eval (op : relation) (lhs rhs : M Value) : M Value :=
  operands lhs rhs (fun l r => lift (compare_relative op l r)).
Definition Arithmetic_Eval (op : arith) (lhs rhs : M Value) : M Value := operands lhs rhs (arithmetic op).
Definition UnaryMinus_Eval (expr : M Value) : M Value := val ← expr; unary_minus val.
Definition DotExpr_Eval (record : M Value) (field : gostring) : M Value := val ← record; dot field val.
Definition index_value (container index : Value) : M Value :=
  match TypeUnder (v_type container) with
  | TArray _ inner | TSet _ inner => b ← lift (val_bytes_ container); indexVector inner b index
  | TRecord id fields => b ← lift (val_bytes_ container); indexRecord id fields b index
  | TMap _ keyType valType => b ← lift (val_bytes_ container); indexMap keyType valType b index
  | _ => Missing
  end.
Definition Index_Eval (container index : M Value) : M Value :=
  container ← container; index ← index; index_value container index.
Definition Conditional_Eval (predicate thenExpr elseExpr : M Value) : M Value :=
  val ← predicate;
  if negb (ID (v_type val) =? primitive_id Bool) then WrapError (str "?-operator: bool predicate required") val
  else b ← bool_of val; if b : bool then thenExpr else elseExpr.
Definition Slice_Eval (elem : M Value) (from to : M (option Value)) : M Value :=
  elem ← elem;
  if IsError elem then mret elem
  else
    match slice_kind (v_type elem) with
    | None => WrapError (str "sliced value is not array, set, bytes, or string") elem
    | Some k =>
        length ← lift (slice_length k elem);
        if IsNull elem then mret elem
        else
          from ← from;
          from ← lift (sliceIndex from length);
          match from with
          | Some None => NewError ErrSliceIndex
          | _ =>
              let from := match from with Some (Some n) => n | _ => 0 end in
              to ← to;
              to ← lift (sliceIndex to length);
              match to with
              | Some None => NewError ErrSliceIndex
              | _ =>
                  let to := match to with Some (Some n) => n | _ => length end in
                  b ← lift (b ← val_bytes_ elem; slice_bytes k b from to);
                  mret (NewValue (v_type elem) b)
              end
          end
    end.

(** The elements of [ArrayExpr.Eval] and [SetExpr.Eval] *)
Definition element (spread : bool) (val : Value) : outcome diverge (list (ty * bytes)) :=
  if spread then
    match InnerType (v_type val) with
    | None => Ok []
    | Some inner => b ← val_bytes_ val; iter_values inner b
    end
  else v ← typed val; Ok [v].

Section evaluation.
Context (vars : list Value) (this : Value).

Definition eval_opt (ev : Evaluator -> M Value) (e : option Evaluator) : M (option Value) :=
  match e with None => mret None | Some e => v ← ev e; mret (Some v) end.
Definition eval_list (ev : Evaluator -> M Value) : list Evaluator -> M (list Value) :=
  fix go es := match es with [] => mret [] | e :: es => v ← ev e; vs ← go es; mret (v :: vs) end.
Definition eval_elems (ev : Evaluator -> M Value) : list (bool * Evaluator) -> M (list (ty * bytes)) :=
  fix go es :=
    match es with
    | [] => mret []
    | (spread, e) :: es => v ← ev e; vs ← lift (element spread v); ws ← go es; mret (vs ++ ws)
    end.
Definition eval_object (ev : Evaluator -> M Value) :
    list (option gostring * Evaluator) -> list (gostring * Value) -> M (list (gostring * Value)) :=
  fix go es object :=
    match es with
    | [] => mret object
    | (name, e) :: es =>
        v ← ev e;
        object ← match name with
                 | Some name => mret (put_field name v object)
                 | None => lift (spread_record v object)
                 end;
        go es object
    end.
Definition eval_entries (ev : Evaluator -> M Value) : list (Evaluator * Evaluator) -> M (list (Value * Value)) :=
  fix go es :=
    match es with
    | [] => mret []
    | (k, v) :: es => k ← ev k; v ← ev v; kvs ← go es; mret ((k, v) :: kvs)
    end.

Fixpoint eval (e : Evaluator) : M Value :=
  match e with
  | This => mret this
  | Literal val => mret val
  | Var slot => match vars !! slot with Some v => mret v | None => panic end
  | DotExpr record field => DotExpr_Eval (eval record) field
  | Not expr => Not_Eval (eval expr)
  | And lhs rhs => And_Eval (eval lhs) (eval rhs)
  | Or lhs rhs => Or_Eval (eval lhs) (eval rhs)
  | In elem container => In_Eval (eval elem) (eval container)
  | Equal equality lhs rhs => Equal_Eval equality (eval lhs) (eval rhs)
  | RegexpMatch re expr => RegexpMatch_Eval re (eval expr)
  | Compare op lhs rhs => Compare_Eval op (eval lhs) (eval rhs)
  | Arithmetic op lhs rhs => Arithmetic_Eval op (eval lhs) (eval rhs)
  | UnaryMinus expr => UnaryMinus_Eval (eval expr)
  | Index container index => Index_Eval (eval container) (eval index)
  | Conditional predicate thenExpr elseExpr => Conditional_Eval (eval predicate) (eval thenExpr) (eval elseExpr)
  | Call fn exprs => args ← eval_list eval exprs; fn args
  | Slice elem from to => Slice_Eval (eval elem) (eval_opt eval from) (eval_opt eval to)
  | RecordExpr names exprs => vals ← eval_list eval exprs; record_value names vals
  | RecordSpread elems => object ← eval_object eval elems []; object_value object
  | ArrayExpr elems => vs ← eval_elems eval elems; array_value vs
  | SetExpr elems => vs ← eval_elems eval elems; set_value vs
  | MapExpr entries => kvs ← eval_entries eval entries; map_value kvs
  end.

(** [NewDottedExpr] *)
Definition NewDottedExpr (path : list gostring) : Evaluator := fold_left DotExpr path This.
End evaluation.
End expr.
Arguments Evaluator : clear implicits.
