(* ===== verification/ExprProofs.v ===== *)
(** * Evaluation is sound

    On well-formed values every evaluator returns, and what it returns is
    well-formed in the context it leaves.  A postcondition logic for
    computations on a context carries the proof from evaluator to evaluator. *)

From S2P Require Import Prelude Zcode Types EncodingProps Context Interning Primitive Values ValueProofs Compare Expr.
Local Open Scope Z_scope.

(** ** Computations that return *)

Definition returns {A} (Q : A -> Context -> Prop) (m : M A) (c : Context) : Prop :=
  exists a c', m c = Ok (a, c') /\ wf c' /\ grows c c' /\ Q a c'.

Section returns.
Context {A B : Type}.

Lemma returns_ret (Q : A -> Context -> Prop) a c : wf c -> Q a c -> returns Q (mret a) c.
Proof. intros Hc HQ. by exists a, c. Qed.

Lemma returns_bind (P : A -> Context -> Prop) (Q : B -> Context -> Prop) (m : M A) (f : A -> M B) c :
  returns P m c -> (forall a c', wf c' -> grows c c' -> P a c' -> returns Q (f a) c') -> returns Q (m ≫= f) c.
Proof.
  intros (a & c1 & E & Hw & Hg & HP) Hf. destruct (Hf a c1 Hw Hg HP) as (b & c2 & E2 & Hw2 & Hg2 & HQ).
  exists b, c2. split_and!; [|done|by transitivity c1|done]. unfold mbind, M_bind. by rewrite E.
Qed.

Lemma returns_lift (Q : A -> Context -> Prop) (m : outcome diverge A) a c : wf c -> m = Ok a -> Q a c -> returns Q (lift m) c.
Proof. intros Hc -> HQ. by exists a, c. Qed.

Lemma returns_lift_bind (Q : B -> Context -> Prop) (m : outcome diverge A) a (f : A -> M B) c :
  m = Ok a -> returns Q (f a) c -> returns Q (lift m ≫= f) c.
Proof. intros -> H. exact H. Qed.
End returns.

(** ** Well-formed values *)

(** The integers of a type. *)
Definition signed (p : primitive) : bool := IsSigned (primitive_id p).
Definition width (p : primitive) : Z :=
  match p with Uint8 | Int8 => 8 | Uint16 | Int16 => 16 | Uint32 | Int32 => 32 | _ => 64 end.
Definition fits (p : primitive) (n : Z) : Prop :=
  if signed p then - 2 ^ (width p - 1) <= n < 2 ^ (width p - 1) else 0 <= n < 2 ^ width p.
Definition integer_of (p : primitive) (b : bytes) : Z := if signed p then DecodeInt b else DecodeUint b.

Section sound.
(** Whether integers lie in the range of their type, or of 64 bits only. *)
Context (exact : bool).
Context (to32 of32 to16 of16 : Z -> Z) (nan : Z -> Z -> Z) (float_to_int float_to_uint : Z -> Z).
Context (FormatType : ty -> gostring) (lookup_text : lookup_error -> gostring) (walk_text : @walk_error unit -> gostring).
Context (sort_entries : list (list byte * list byte) -> list (list byte * list byte)).

(** Types whose null values can be taken apart: a part of a union type would be
    a null union, on which the source does not return. *)
Fixpoint nullable (t : ty) : Prop :=
  match t with
  | TPrim _ | TEnum _ _ | TError _ _ => True
  | TNamed _ _ u | TArray _ u | TSet _ u => nullable u
  | TMap _ k v => IsUnionType (TypeUnder k) = false /\ nullable k /\ nullable v
  | TRecord _ fs => (fix go fs := match fs with [] => True | f :: fs => nullable f.2 /\ go fs end) fs
  | TUnion _ _ => False
  end.

(** Bytes of a type that evaluators can take apart.  Left out: type values, null
    unions, nulls in unions, on which arithmetic panics, and maps with union
    keys. *)
Definition well_prim (p : primitive) (b : bytes) : Prop :=
  match p with
  | Bool => b <> Some []
  | Float16 | Float32 | Float64 => exists f, DecodeFloat of32 of16 b = Ok f
  | Type_ | Null => b = None
  | Uint8 | Uint16 | Uint32 | Uint64 | Int8 | Int16 | Int32 | Int64 | Duration | Time =>
      exact = true -> fits p (integer_of p b)
  | _ => True
  end.
Fixpoint well (t : ty) (b : bytes) : Prop :=
  match t with
  | TPrim p => well_prim p b
  | TEnum _ _ | TError _ _ => True
  | TNamed _ _ u => well u b
  | TArray _ u | TSet _ u =>
      match b with None => nullable u | Some _ => exists vs, values Next (Iter b) vs /\ Forall (well u) vs end
  | TMap _ k v =>
      IsUnionType (TypeUnder k) = false /\
      match b with
      | None => nullable k /\ nullable v
      | Some _ => exists kvs, values NextTwo (Iter b) kvs /\ Forall (fun kv => well k kv.1 /\ well v kv.2) kvs
      end
  | TRecord _ fs =>
      match b with
      | None => nullable t
      | Some _ =>
          (fix go (fs : list field) (it : list byte) : Prop :=
             match fs with
             | [] => True
             | f :: fs => exists v it', Next it = Ok (v, it') /\ well f.2 v /\ go fs it'
             end) fs (Iter b)
      end
  | TUnion _ ts =>
      b <> None /\
      exists tag v, values Next (Iter b) [tag; v] /\
      (fix go (ts : list ty) (n : Z) : Prop :=
         match ts with
         | [] => False
         | u :: ts => if n =? 0 then TypeUnder u <> TPrim Null /\ well u v else go ts (n - 1)
         end) ts (i64 (DecodeInt tag))
  end.

Definition native_prim (p : primitive) : bool :=
  IsNumber (primitive_id p) || bool_decide (p = Bool).
Definition well_native (p : primitive) (x : Z) : Prop :=
  match p with
  | Float16 | Float32 | Float64 => True
  | Bool => x = 0 \/ x = 1
  | _ => 0 <= x < 2 ^ 64 /\ (exact = true -> fits p (if signed p then i64 x else x))
  end.
Definition well_value (v : Value) : Prop :=
  match v_repr v with
  | Raw b => well (v_type v) b
  | Native x => exists p, TypeUnder (v_type v) = TPrim p /\ native_prim p = true /\ well_native p x
  end.
Definition good (v : Value) (c : Context) : Prop := member c (v_type v) /\ well_value v.

Lemma good_grows v c c' : grows c c' -> good v c -> good v c'.
Proof. intros Hg [Hm Hw]. split; [by eapply member_grows|done]. Qed.

Lemma well_under t b : well (TypeUnder t) b <-> well t b.
Proof. by induction t. Qed.

Lemma well_null t : nullable t -> well t None.
Proof.
  induction t using ty_ind; cbn; try done.
  - intros _. destruct p; try done; by eexists.
Qed.

(** *** Representations *)

Local Abbreviation bytes_of := (val_bytes_ to32 to16).

Lemma ID_TPrim t p : TypeUnder t = TPrim p -> ID t = primitive_id p.
Proof. intros H. by rewrite ID_TypeID, H. Qed.

Lemma native_bytes t p x :
  TypeUnder t = TPrim p -> native_prim p = true -> well_native p x ->
  exists l, Value_Bytes to32 to16 (newNativeValue t x) = Ok (Some l) /\ well_prim p (Some l).
Proof.
  intros Ht Hp Hx. unfold Value_Bytes. cbn [v_repr newNativeValue v_type]. rewrite (ID_TPrim t p Ht).
  assert (exists u, AppendUint None x = Some u) as [u Eu] by by eexists.
  assert (exists i, AppendInt None (i64 x) = Some i) as [i Ei] by by eexists.
  assert (Du : forall q, signed q = false -> 0 <= x < 2 ^ 64 -> integer_of q (Some u) = x).
  { unfold integer_of. intros q -> Hr. rewrite <- Eu. by apply DecodeCountedUvarint_bytes. }
  assert (Di : forall q, signed q = true -> integer_of q (Some i) = i64 x).
  { unfold integer_of. intros q ->. rewrite <- Ei. apply DecodeCountedVarint_zigzag; [apply i64_range|done]. }
  destruct p; try discriminate Hp; cbn -[EncodeUint EncodeInt le_bytes DecodeFloat fits integer_of] in Hx |- *;
    try (destruct Hx; rewrite EncodeUint_AppendUint, Eu by done; exists u; rewrite Du by done; by split);
    try (destruct Hx; rewrite EncodeInt_AppendInt, Ei by apply i64_range; exists i; rewrite Di by done; by split);
    (eexists; split; [reflexivity|]); [eexists; reflexivity..|done].
Qed.

Lemma well_prim_under t p b : TypeUnder t = TPrim p -> well t b <-> well_prim p b.
Proof. intros H. by rewrite <- well_under, H. Qed.

(** A value has bytes, which are well-formed for its type. *)
Lemma good_bytes v c :
  good v c -> exists b, bytes_of v = Ok b /\ well (v_type v) b /\ (b = None -> v_repr v = Raw None) /\
    (forall p, TypeUnder (v_type v) = TPrim p -> well_prim p b).
Proof.
  intros [_ Hw]. unfold well_value in Hw. unfold val_bytes_. destruct v as [t [x|b]]; cbn [v_type v_repr] in *.
  - destruct Hw as (p & Ht & Hp & Hx). destruct (native_bytes t p x Ht Hp Hx) as (l & E & Hl).
    exists (Some l). unfold newNativeValue in E. rewrite E. split_and!; [done|by apply (well_prim_under t p)|done|].
    intros q Hq. congruence.
  - exists b. split_and!; [done|done|by intros ->|]. intros p Hp. by apply (well_prim_under t p).
Qed.

Lemma ID_prim c t : wf c -> member c t -> ID t < 30 -> exists p, TypeUnder t = TPrim p /\ ID t = primitive_id p.
Proof.
  intros Hc Hm Hid. apply (member_under c Hc) in Hm. rewrite ID_TypeID in *.
  destruct (is_complex (TypeUnder t)) eqn:E.
  - pose proof (member_id c Hc _ Hm E). lia.
  - destruct (TypeUnder t) eqn:Et; try discriminate E. by eexists.
Qed.

(** *** Reading numbers and booleans *)

Section numbers.
Context (v : Value) (c : Context) (p : primitive) (Hv : good v c) (Hp : TypeUnder (v_type v) = TPrim p).

Lemma good_Uint : IsUnsigned (primitive_id p) = true -> exists n, Uint v = Ok n.
Proof.
  intros Hu. unfold Uint. rewrite (ID_TPrim _ _ Hp). replace (3 <? primitive_id p) with false by (by destruct p).
  destruct (v_repr v); by eexists.
Qed.
Lemma good_Int : IsSigned (primitive_id p) = true -> exists n, Int v = Ok n.
Proof. intros Hs. unfold Int. rewrite (ID_TPrim _ _ Hp), Hs. destruct (v_repr v); by eexists. Qed.
Lemma good_Float : IsFloat (primitive_id p) = true -> exists x, Float of32 of16 v = Ok x.
Proof.
  intros Hs. unfold Float. rewrite (ID_TPrim _ _ Hp), Hs. cbn [negb].
  destruct Hv as [_ Hw]. unfold well_value in Hw. destruct (v_repr v) as [x|b]; [by eexists|].
  apply (well_prim_under _ p) in Hw; [|done]. by destruct p.
Qed.
Lemma good_Bool : p = Bool -> exists b, Bool_ v = Ok b.
Proof.
  intros ->. unfold Bool_. rewrite (ID_TPrim _ _ Hp). cbn [primitive_id negb Z.eqb Pos.eqb].
  destruct Hv as [_ Hw]. unfold well_value in Hw. destruct (v_repr v) as [x|b]; [by eexists|].
  apply (well_prim_under _ Bool) in Hw; [|done]. cbn in Hw. destruct b as [[|x b]|]; [done|eexists; reflexivity..].
Qed.
End numbers.

(** *** Resolving unions *)

Lemma well_union_member i ts b : well (TUnion i ts) b ->
  exists tag v it u, b <> None /\ Next (Iter b) = Ok (tag, it) /\ Next it = Ok (v, []) /\
    UnionType ts (i64 (DecodeInt tag)) = Some u /\ u ∈ ts /\ TypeUnder u <> TPrim Null /\ well u v.
Proof.
  intros (Hb & tag & v & Hv & Hgo). apply values_cons_inv in Hv as (it & _ & E1 & Hv).
  apply values_cons_inv in Hv as (it2 & _ & E2 & Hv). inversion Hv; subst it2.
  assert (exists u, UnionType ts (i64 (DecodeInt tag)) = Some u /\ u ∈ ts /\ TypeUnder u <> TPrim Null /\ well u v) as (u & Hu); [|by exists tag, v, it, u].
  revert Hgo. generalize (i64 (DecodeInt tag)). clear. induction ts as [|u ts IH]; intros n; [done|]. cbn.
  destruct (Z.eqb_spec n 0) as [->|Hn].
  - intros Hw. exists u. split; [|by split; [left|]]. done.
  - intros (w & Hw & Hin & Hrest)%IH. exists w. split; [|split; [by right|done]].
    unfold UnionType in *. destruct (Z.ltb_spec (n - 1) 0); [done|]. destruct (Z.leb_spec (zlen ts) (n - 1)); [done|].
    destruct (Z.ltb_spec n 0); [lia|]. rewrite zlen_cons. destruct (Z.leb_spec (zlen ts + 1) n); [lia|].
    cbn [orb] in *. by replace (Z.to_nat n) with (S (Z.to_nat (n - 1))) by lia.
Qed.

Lemma member_union c i ts u : wf c -> member c (TUnion i ts) -> u ∈ ts -> member c u.
Proof. intros Hc Hm Hu. apply member_components in Hm; [|done]. rewrite Forall_forall in Hm. by apply Hm. Qed.

Lemma under_loop_good c fuel : forall t b,
  wf c -> member c t -> well t b -> (depth t < fuel)%nat ->
  exists t' b', under_loop fuel t b = Ok (NewValue t' b') /\ member c t' /\ well t' b' /\ TypeUnder t' = t' /\
    IsUnionType t' = false /\ (t' = TPrim Null -> TypeUnder t = TPrim Null) /\
    (IsUnionType (TypeUnder t) = false -> t' = TypeUnder t).
Proof.
  induction fuel as [|fuel IH]; intros t b Hc Hm Hw Hd; [lia|].
  apply well_under in Hw. apply member_under in Hm; [|done]. pose proof (depth_under t) as Hdu.
  cbn [under_loop]. destruct (TypeUnder t) as [p|i fs|i u|i u|i k v|i ts|i ss|i u|i n u] eqn:Et;
    try by (eexists _, b; split; [reflexivity|]; split_and!; try done; by rewrite <- Et, TypeUnder_idemp).
  - destruct (well_union_member i ts b Hw) as (tag & v & it & u & Hb & E1 & E2 & Eu & Hin & Hnn & Hwu).
    destruct b as [b|]; [|done]. cbn [Untag]. rewrite E1. cbn [mbind outcome_bind obind]. rewrite Eu, E2.
    cbn [mbind outcome_bind obind]. pose proof (depth_union i ts u Hin).
    destruct (IH u v Hc (member_union c i ts u Hc Hm Hin) Hwu ltac:(lia)) as (t' & b' & -> & H1 & H2 & H3 & H4 & H5 & H6).
    exists t', b'. split_and!; try done. intros Hn. by apply H5 in Hn.
  - pose proof (TypeUnder_named t) as Hi. by rewrite Et in Hi.
Qed.

(** [Under] of a value gives a value of a type that is neither named nor a
    union; it is of the type null only for a null value. *)
Lemma Under_good v c : wf c -> good v c ->
  exists v', Under to32 to16 v = Ok v' /\ good v' c /\ TypeUnder (v_type v') = v_type v' /\
    IsUnionType (v_type v') = false /\ (v_type v' = TPrim Null -> IsNull v = true) /\
    (IsUnionType (TypeUnder (v_type v)) = false -> v_type v' = TypeUnder (v_type v)).
Proof.
  intros Hc Hv. destruct (good_bytes v c Hv) as (b & Eb & Hw & Hnil & Hprim).
  assert (Hn : TypeUnder (v_type v) = TPrim Null -> IsNull v = true).
  { intros Hp. unfold IsNull. by rewrite (Hnil (Hprim Null Hp)). }
  assert (Hself : TypeUnder (v_type v) = v_type v -> IsUnionType (v_type v) = false -> Under to32 to16 v = Ok v ->
    exists v', Under to32 to16 v = Ok v' /\ good v' c /\ TypeUnder (v_type v') = v_type v' /\
      IsUnionType (v_type v') = false /\ (v_type v' = TPrim Null -> IsNull v = true) /\
      (IsUnionType (TypeUnder (v_type v)) = false -> v_type v' = TypeUnder (v_type v))).
  { intros H1 H2 H3. exists v. split_and!; try done. rewrite <- H1. exact Hn. }
  assert (Hloop : exists v', (b ← (match Value_Bytes to32 to16 v with Ok b => Ok b | _ => Panic end : outcome diverge bytes);
      under_loop (S (depth (v_type v))) (v_type v) b) = Ok v' /\ good v' c /\ TypeUnder (v_type v') = v_type v' /\
    IsUnionType (v_type v') = false /\ (v_type v' = TPrim Null -> IsNull v = true) /\
    (IsUnionType (TypeUnder (v_type v)) = false -> v_type v' = TypeUnder (v_type v))).
  { unfold val_bytes_, no_error in Eb. destruct (Value_Bytes to32 to16 v); [|done..]. injection Eb as ->.
    cbn [mbind outcome_bind obind].
    destruct (under_loop_good c (S (depth (v_type v))) (v_type v) b Hc (proj1 Hv) Hw ltac:(lia)) as (t' & b' & -> & H1 & H2 & H3 & H4 & H5 & H6).
    exists (NewValue t' b'). split_and!; try done. intros Ht. apply Hn, H5, Ht. }
  unfold Under in *. destruct (v_type v) eqn:Et; try exact Hloop; by apply Hself.
Qed.

(** *** Numbers *)

Lemma number_cases p : IsNumber (primitive_id p) = true ->
  let id := primitive_id p in
  (IsUnsigned id, IsSigned id, IsFloat id) = (true, false, false) \/
  (IsUnsigned id, IsSigned id, IsFloat id) = (false, true, false) \/
  (IsUnsigned id, IsSigned id, IsFloat id) = (false, false, true).
Proof. destruct p; cbn; intros; try discriminate; auto. Qed.

Lemma number_prim v c : wf c -> good v c -> IsNumber (ID (v_type v)) = true ->
  exists p, TypeUnder (v_type v) = TPrim p /\ ID (v_type v) = primitive_id p /\ IsNumber (primitive_id p) = true.
Proof.
  intros Hc Hv Hn. destruct (ID_prim c (v_type v) Hc (proj1 Hv)) as (p & Hp & E); [unfold IsNumber in Hn; lia|].
  exists p. by rewrite <- E.
Qed.

Definition resolves (v : Value) (c : Context) : Prop :=
  IsNull v = true \/ exists v', Under to32 to16 v = Ok v' /\ good v' c /\ IsNumber (ID (v_type v')) = true.
Lemma number_resolves v c : wf c -> good v c -> IsNumber (ID (v_type v)) = true -> resolves v c.
Proof.
  intros Hc Hv Hn. right. destruct (number_prim v c Hc Hv Hn) as (p & Hp & E & _).
  destruct (Under_good v c Hc Hv) as (v' & -> & Hv' & _ & _ & _ & Ht). exists v'. split_and!; [done..|].
  rewrite Ht, Hp by by rewrite Hp. by rewrite E in Hn.
Qed.

Lemma number_reads v c : wf c -> good v c -> IsNumber (ID (v_type v)) = true ->
  let id := ID (v_type v) in
  (IsUnsigned id = true /\ IsSigned id = false /\ IsFloat id = false /\ exists n, Uint v = Ok n) \/
  (IsUnsigned id = false /\ IsSigned id = true /\ IsFloat id = false /\ exists n, Int v = Ok n) \/
  (IsUnsigned id = false /\ IsSigned id = false /\ IsFloat id = true /\ exists x, Float of32 of16 v = Ok x).
Proof.
  intros Hc Hv Hn. cbv zeta. destruct (number_prim v c Hc Hv Hn) as (p & Hp & -> & Hnp).
  destruct (number_cases p Hnp) as [E|[E|E]]; injection E as E1 E2 E3; rewrite E1, E2, E3;
    [left|right; left|right; right]; split_and!; try done.
  - by apply (good_Uint v p).
  - by apply (good_Int v p).
  - by apply (good_Float v c p).
Qed.

(** Splits on what kind of number [v] is, and reads it. *)
Ltac number v c Hn :=
  let U := fresh "U" in let S := fresh "S" in let F := fresh "F" in let E := fresh "E" in
  destruct (number_reads v c ltac:(assumption) ltac:(assumption) Hn) as [(U & S & F & ? & E)|[(U & S & F & ? & E)|(U & S & F & ? & E)]];
  rewrite ?U, ?S, ?F, ?E; cbn [no_error mbind outcome_bind obind andb orb negb].

(** Converting a value to any number. *)
Lemma toInt_good v c : wf c -> resolves v c -> exists n, toInt to32 of32 to16 of16 float_to_int v = Ok n.
Proof.
  intros Hc [H|(v' & H & Hv & Hn)]; unfold toInt; [rewrite H; by eexists|]. destruct (IsNull v); [by eexists|].
  rewrite H. cbn [mbind outcome_bind obind]. number v' c Hn; by eexists.
Qed.
Lemma toUint_good v c : wf c -> resolves v c -> exists n, toUint to32 of32 to16 of16 float_to_uint v = Ok n.
Proof.
  intros Hc [H|(v' & H & Hv & Hn)]; unfold toUint; [rewrite H; by eexists|]. destruct (IsNull v); [by eexists|].
  rewrite H. cbn [mbind outcome_bind obind]. number v' c Hn; by eexists.
Qed.
Lemma toFloat_good v c : wf c -> resolves v c -> exists x, toFloat to32 of32 to16 of16 v = Ok x.
Proof.
  intros Hc [H|(v' & H & Hv & Hn)]; unfold toFloat; [rewrite H; by eexists|]. destruct (IsNull v); [by eexists|].
  rewrite H. cbn [mbind outcome_bind obind]. number v' c Hn; by eexists.
Qed.

(** Comparing and equating values. *)
Lemma compareNumbers_good a b c :
  wf c -> good a c -> good b c -> IsNumber (ID (v_type a)) = true -> IsNumber (ID (v_type b)) = true ->
  exists n, compareNumbers to32 of32 to16 of16 a b (ID (v_type a)) (ID (v_type b)) = Ok n.
Proof.
  intros Hc Ha Hb Na Nb. destruct (toFloat_good a c Hc (number_resolves a c Hc Ha Na)) as [fa Fa].
  destruct (toFloat_good b c Hc (number_resolves b c Hc Hb Nb)) as [fb Fb]. unfold compareNumbers.
  rewrite Fa, Fb. number a c Na; number b c Nb; repeat case_match; by eexists.
Qed.
Lemma coerce_Equal_good a b c :
  wf c -> good a c -> good b c -> exists r, coerce_Equal to32 of32 to16 of16 a b = Ok r.
Proof.
  intros Hc Ha Hb. unfold coerce_Equal. destruct (IsNull a); [by eexists|]. destruct (IsNull b); [by eexists|].
  destruct (good_bytes a c Ha) as (ba & -> & _). destruct (good_bytes b c Hb) as (bb & -> & _).
  destruct (IsNumber (ID (v_type a))) eqn:Na, (IsNumber (ID (v_type b))) eqn:Nb; cbn [negb orb];
    try by (destruct (_ =? _); by eexists).
  destruct (toFloat_good a c Hc (number_resolves a c Hc Ha Na)) as [fa Fa].
  destruct (toFloat_good b c Hc (number_resolves b c Hc Hb Nb)) as [fb Fb]. rewrite Fa, Fb.
  number a c Na; number b c Nb; by eexists.
Qed.

(** *** Promotion *)

Lemma LookupType_ID c t : wf c -> member c t -> is_named t = false -> LookupType c (ID t) = Ok t.
Proof.
  intros Hc Hm Hn. rewrite ID_TypeID, TypeUnder_id by done. unfold LookupType.
  destruct (is_complex t) eqn:Ec.
  - pose proof (member_id c Hc t Hm Ec) as Hr. destruct (Hm Ec) as [_ Hl].
    rewrite !(proj2 (Z.ltb_ge _ _)), (proj2 (Z.leb_gt _ _)) by (unfold IDTypeComplex; lia). by rewrite Hl.
  - destruct t; try discriminate Ec. by destruct p.
Qed.

Lemma table_good f p :
  f = promoteFloat \/ f = promoteInt -> IsNumber (primitive_id p) = true ->
  exists q, table f (primitive_id p) = Ok (primitive_id q) /\ IsNumber (primitive_id q) = true.
Proof.
  intros [->| ->] Hn.
  - destruct p; try discriminate Hn; cbn;
      first [by exists Float16|by exists Float32|by exists Float64].
  - destruct p; try discriminate Hn; cbn;
      first [by exists Int8|by exists Int16|by exists Int32|by exists Int64|by exists Float16|by exists Float32|by exists Float64].
Qed.

Lemma Promote_good a b c : wf c -> good a c -> good b c ->
  exists r, Promote to32 to16 a b = Ok r /\
    forall id, r = inr id ->
      (exists t, member c t /\ is_named t = false /\ ID t = id) /\
      (IsNumber id = true -> resolves a c /\ resolves b c).
Proof.
  intros Hc Ha Hb. destruct (Under_good a c Hc Ha) as (a' & Ea & Ha' & Ta & _ & Na & _).
  destruct (Under_good b c Hc Hb) as (b' & Eb & Hb' & Tb & _ & Nb & _). unfold Promote. rewrite Ea, Eb.
  cbn [mbind outcome_bind obind].
  assert (Hra : IsNumber (ID (v_type a')) = true -> resolves a c) by (right; by exists a').
  assert (Hrb : IsNumber (ID (v_type b')) = true -> resolves b c) by (right; by exists b').
  assert (Hnull : forall v', good v' c -> TypeUnder (v_type v') = v_type v' -> ID (v_type v') = primitive_id Null -> v_type v' = TPrim Null).
  { intros v' Hv' Tv' E. destruct (ID_prim c _ Hc (proj1 Hv')) as (p & Hp & Hid); [rewrite E; done|].
    rewrite <- Tv', Hp. f_equal. rewrite E in Hid. by destruct p. }
  assert (Hta : exists t, member c t /\ is_named t = false /\ ID t = ID (v_type a')).
  { exists (v_type a'). split_and!; [apply Ha'|rewrite <- Ta; apply TypeUnder_named|done]. }
  assert (Htb : exists t, member c t /\ is_named t = false /\ ID t = ID (v_type b')).
  { exists (v_type b'). split_and!; [apply Hb'|rewrite <- Tb; apply TypeUnder_named|done]. }
  destruct (Z.eqb_spec (ID (v_type a')) (ID (v_type b'))) as [E|_].
  { eexists. split; [done|]. intros id [= <-]. rewrite E in *. auto. }
  destruct (Z.eqb_spec (ID (v_type a')) (primitive_id Null)) as [E|_].
  { eexists. split; [done|]. intros id [= <-]. split; [done|]. split; [|auto]. left. by apply Na, Hnull. }
  destruct (Z.eqb_spec (ID (v_type b')) (primitive_id Null)) as [E|_].
  { eexists. split; [done|]. intros id [= <-]. split; [done|]. split; [auto|]. left. by apply Nb, Hnull. }
  destruct (IsNumber (ID (v_type a'))) eqn:Nua; [|by eexists]. destruct (IsNumber (ID (v_type b'))) eqn:Nub; [|by eexists].
  specialize (Hra eq_refl). specialize (Hrb eq_refl). cbn [negb orb].
  destruct (number_prim a' c Hc Ha' Nua) as (p & _ & Ep & Hp). destruct (number_prim b' c Hc Hb' Nub) as (q & _ & Eq & Hq).
  assert (Hl : forall p q, IsNumber (primitive_id p) = true -> IsNumber (primitive_id q) = true -> exists r,
    Ok (inr (if primitive_id q <? primitive_id p then primitive_id p else primitive_id q)) = Ok (E := diverge) (A := promote_error + Z) r /\
    forall id, r = inr id -> (exists t, member c t /\ is_named t = false /\ ID t = id) /\ (IsNumber id = true -> resolves a c /\ resolves b c)).
  { intros p' q' Hp' Hq'. eexists. split; [done|]. intros id [= <-]. split; [|done].
    destruct (_ <? _); [exists (TPrim p')|exists (TPrim q')]; done. }
  destruct (table_good promoteFloat p (or_introl eq_refl) Hp) as (pf & Epf & Hpf).
  destruct (table_good promoteInt p (or_intror eq_refl) Hp) as (pi & Epi & Hpi).
  destruct (table_good promoteFloat q (or_introl eq_refl) Hq) as (qf & Eqf & Hqf).
  destruct (table_good promoteInt q (or_intror eq_refl) Hq) as (qi & Eqi & Hqi).
  number a' c Nua; number b' c Nub; rewrite ?Ep, ?Eq, ?Epf, ?Epi, ?Eqf, ?Eqi; cbn [mbind outcome_bind obind];
    try (destruct (2 ^ 63 - 1 <? _); [by eexists|]); by apply Hl.
Qed.

(** ** Operations that return well-formed values *)

Lemma good_raw t b c : member c t -> well t b -> good (NewValue t b) c.
Proof. by split. Qed.
Lemma good_int t p x c :
  member c t -> TypeUnder t = TPrim p -> IsNumber (primitive_id p) = true ->
  (exact = true -> fits p (if signed p then i64 (u64 x) else u64 x)) -> good (NewInt t x) c.
Proof. intros Hm Hp Hn He. split; [done|]. exists p. pose proof (u64_range x). by destruct p. Qed.
Lemma good_float t p x c : member c t -> TypeUnder t = TPrim p -> IsFloat (primitive_id p) = true -> good (newNativeValue t x) c.
Proof. intros Hm Hp Hf. split; [done|]. exists p. split_and!; [done|by destruct p|by destruct p]. Qed.
Lemma good_NewBool b c : good (NewBool b) c.
Proof. split; [apply member_prim|]. exists Bool. split_and!; [done..|]. destruct b; [by right|by left]. Qed.
Lemma good_bool b c : good (bool_value b) c.
Proof. destruct b; apply good_NewBool. Qed.
Lemma good_result r x c : good (result r x) c.
Proof. apply good_NewBool. Qed.

Lemma NewError_good msg c : wf c -> returns good (NewError msg) c.
Proof.
  intros Hc. destruct (StringTypeError_interns c Hc) as (t & c' & E & Et & Hm & Hw & Hg).
  unfold NewError. eexists _, c'. rewrite (M_bind_Ok _ _ _ _ _ E). split_and!; [done..|]. split; [done|].
  unfold well_value. cbn [v_repr NewValue v_type]. by rewrite Et.
Qed.

Lemma WrapError_good msg v c : wf c -> good v c -> returns good (WrapError to32 to16 msg v) c.
Proof.
  intros Hc Hv. destruct (good_bytes v c Hv) as (b & Eb & _). unfold WrapError.
  pose proof (LookupTypeRecord_interns c Hc [(str "message", TPrim String); (str "on", v_type v)]) as Hi.
  assert (duplicateField [(str "message", TPrim String); (str "on", v_type v)] = None) as Hd by reflexivity. rewrite Hd in Hi.
  destruct Hi as (r & c1 & E1 & _ & Hm1 & Hw1 & Hg1); [done|by repeat apply Forall_cons_2| |].
  { apply Forall_cons_2; [apply member_prim|]. apply Forall_cons_2; [apply Hv|by apply Forall_nil_2]. }
  destruct (LookupTypeError_interns c1 Hw1 r Hm1) as (e & c2 & E2 & Ee & Hm2 & Hw2 & Hg2).
  eexists _, c2. split_and!; [|done|by trans c1|].
  - erewrite M_bind_Ok; [|unfold MustLookupTypeRecord; by rewrite (M_bind_Ok _ _ _ _ _ E1)].
    rewrite (M_bind_Ok _ _ _ _ _ E2), Eb, M_lift_l. reflexivity.
  - split; [done|]. unfold well_value. cbn [v_repr NewValue v_type]. by rewrite Ee.
Qed.

Lemma ID_is_prim c t p : wf c -> member c t -> ID t = primitive_id p -> TypeUnder t = TPrim p.
Proof.
  intros Hc Hm E. destruct (ID_prim c t Hc Hm) as (q & Hq & E2); [rewrite E; by destruct p|].
  rewrite Hq. f_equal. rewrite E in E2. by destruct p, q.
Qed.

Lemma arith_op_good op l r t c :
  wf c -> good l c -> good r c -> member c t -> (IsNumber (ID t) = true -> resolves l c /\ resolves r c) -> op <> Modulo -> exact = false ->
  returns good (arith_op to32 of32 to16 of16 nan float_to_int float_to_uint FormatType op l r t) c.
Proof.
  intros Hc Hl Hr Ht Hn Hop Hx. unfold arith_op.
  destruct (IsNumber (ID t)) eqn:En.
  - destruct (Hn eq_refl) as [Rl Rr]. clear Hn.
    destruct (toInt_good l c Hc Rl) as [li ->]. destruct (toInt_good r c Hc Rr) as [ri ->].
    destruct (toUint_good l c Hc Rl) as [lu ->]. destruct (toUint_good r c Hc Rr) as [ru ->].
    destruct (toFloat_good l c Hc Rl) as [lf ->]. destruct (toFloat_good r c Hc Rr) as [rf ->].
    destruct (ID_prim c t Hc Ht) as (p & Hp & Ep); [unfold IsNumber in En; lia|]. rewrite Ep in *.
    destruct (number_cases p En) as [E|[E|E]]; injection E as E1 E2 E3; rewrite ?E1, ?E2, ?E3;
      destruct op; try done; cbn [divides andb];
      repeat (eapply returns_lift_bind; [done|]); try (case_match; [by apply NewError_good|]);
      repeat (eapply returns_lift_bind; [done|]); apply returns_ret; try done;
      try (by apply (good_int _ p); rewrite ?Hx); try (by apply (good_float _ p)).
    case_match; [|by apply (good_int _ p); rewrite ?Hx]. apply (good_int _ Duration); rewrite ?Hx; by try apply member_prim.
  - replace (IsUnsigned (ID t)) with false by (unfold IsUnsigned, IsNumber in *; lia).
    replace (IsSigned (ID t)) with false by (unfold IsSigned, IsNumber in *; lia).
    replace (IsFloat (ID t)) with false by (unfold IsFloat, IsNumber in *; lia).
    destruct op; try by apply NewError_good. destruct (Z.eqb_spec (ID t) (primitive_id String)) as [E|]; [|by apply NewError_good].
    destruct (good_bytes l c Hl) as (lb & -> & _). destruct (good_bytes r c Hr) as (rb & -> & _).
    repeat (eapply returns_lift_bind; [done|]). apply returns_ret; [done|]. apply good_raw; [done|].
    apply (well_prim_under t String); [|done]. by apply (ID_is_prim c).
Qed.

Lemma enumToIndex_good v c : wf c -> good v c -> exists v', enumToIndex to32 to16 v = Ok v' /\ good v' c.
Proof.
  intros Hc Hv. unfold enumToIndex. destruct (good_bytes v c Hv) as (b & -> & _).
  destruct (v_type v); try by eexists. eexists. split; [done|]. apply good_raw; [apply member_prim|]. intros _. apply DecodeUint_range.
Qed.

Lemma arithmetic_good op l r c :
  wf c -> good l c -> good r c -> op <> Modulo -> exact = false ->
  returns good (arithmetic to32 of32 to16 of16 nan float_to_int float_to_uint FormatType lookup_text op l r) c.
Proof.
  intros Hc Hl Hr Hop Hx. unfold arithmetic.
  destruct (enumToIndex_good l c Hc Hl) as (l' & -> & Hl'). destruct (enumToIndex_good r c Hc Hr) as (r' & -> & Hr').
  destruct (Promote_good l' r' c Hc Hl' Hr') as (p & Ep & Hp).
  do 2 (eapply returns_lift_bind; [done|]). eapply returns_lift_bind; [exact Ep|]. destruct p as [e|id]; [by apply NewError_good|].
  destruct (Hp id eq_refl) as ((t & Hm & Hn & <-) & Hres). unfold returns. rewrite (LookupType_ID c t Hc Hm Hn).
  by apply arith_op_good.
Qed.

Lemma compare_relative_good rel l r c :
  wf c -> good l c -> good r c -> exists v, compare_relative to32 of32 to16 of16 rel l r = Ok v /\ good v c.
Proof.
  intros Hc Hl Hr. unfold compare_relative.
  destruct (Under_good l c Hc Hl) as (l' & -> & Hl' & _). destruct (Under_good r c Hc Hr) as (r' & -> & Hr' & _).
  cbn [mbind outcome_bind obind].
  assert (Hok : forall v, (exists b, v = bool_value b) \/ (exists x, v = result rel x) ->
    exists w, Ok (E := diverge) v = Ok w /\ good w c).
  { intros v [[b ->]|[x ->]]; (eexists; split; [done|]); [apply good_bool|apply good_result]. }
  assert (Hfalse : exists w, Ok (E := diverge) False_ = Ok w /\ good w c) by (apply Hok; left; by exists false).
  destruct (IsNull l'); [destruct (IsNull r'); [apply Hok; right; by eexists|done]|]. destruct (IsNull r'); [done|].
  destruct (good_bytes l' c Hl') as (lb & -> & _). destruct (good_bytes r' c Hr') as (rb & -> & _).
  destruct (IsNumber (ID (v_type l'))) eqn:Nl, (IsNumber (ID (v_type r'))) eqn:Nr; cbn [andb].
  1: destruct (compareNumbers_good l' r' c Hc Hl' Hr' Nl Nr) as [n ->]; apply Hok; right; by eexists.
  all: destruct (Z.eqb_spec (ID (v_type l')) (ID (v_type r'))) as [E|]; [|done]; cbn [negb];
    destruct (Z.eqb_spec (ID (v_type l')) (primitive_id Bool)) as [E2|];
    [destruct (good_Bool l' c Bool Hl') as [x ->]; [by apply (ID_is_prim c); [|apply Hl'|]|done|];
     destruct (good_Bool r' c Bool Hr') as [y ->]; [by apply (ID_is_prim c); [|apply Hr'|congruence]|done|];
     destruct x, y; try done; apply Hok; right; by eexists|];
    cbn [mbind outcome_bind obind]; repeat case_match; try done; apply Hok; right; by eexists.
Qed.

Lemma good_narrow bits q x c : width q = bits -> IsSigned (primitive_id q) = true -> good (NewInt (TPrim q) (narrow bits x)) c.
Proof.
  intros <- Hq. apply (good_int _ q); [apply member_prim|done|by destruct q|]. intros _. unfold fits, signed. rewrite Hq.
  unfold narrow. rewrite i64_u64, i64_id; destruct q; try done; cbn [width];
    match goal with |- context [?a mod ?m] => pose proof (Z.mod_pos_bound a m ltac:(lia)) end; lia.
Qed.

Lemma unary_minus_good v c : wf c -> good v c -> returns good (unary_minus to32 of32 to16 of16 v) c.
Proof.
  intros Hc Hv. unfold unary_minus.
  assert (Hint : forall bits p q, ID (v_type v) = primitive_id p -> IsSigned (primitive_id p) = true ->
    width q = bits -> IsSigned (primitive_id q) = true -> returns good (negate_int to32 to16 bits (TPrim q) v) c).
  { intros bits p q E Hs Hw Hq. unfold negate_int. destruct (good_Int v p) as [n ->]; [by apply (ID_is_prim c); [|apply Hv|]|done|].
    eapply returns_lift_bind; [done|]. case_match; [by apply WrapError_good|]. apply returns_ret; [done|].
    by apply good_narrow. }
  assert (Huint : forall bits p q, ID (v_type v) = primitive_id p -> IsUnsigned (primitive_id p) = true ->
    width q = bits -> IsSigned (primitive_id q) = true -> returns good (negate_uint to32 to16 bits (TPrim q) v) c).
  { intros bits p q E Hs Hw Hq. unfold negate_uint. destruct (good_Uint v p) as [n ->]; [by apply (ID_is_prim c); [|apply Hv|]|done|].
    eapply returns_lift_bind; [done|]. case_match; [by apply WrapError_good|]. apply returns_ret; [done|].
    by apply good_narrow. }
  destruct (IsNull v && IsNumber (ID (v_type v))); [by apply returns_ret|].
  destruct ((ID (v_type v) =? 14) || (ID (v_type v) =? 15) || (ID (v_type v) =? 16)) eqn:Ef.
  { assert (exists p, TypeUnder (v_type v) = TPrim p /\ IsFloat (primitive_id p) = true) as (p & Hp & Hf).
    { destruct (ID_prim c _ Hc (proj1 Hv)) as (p & Hp & E); [lia|]. exists p. split; [done|]. rewrite <- E. unfold IsFloat. lia. }
    destruct (good_Float v c p Hv Hp Hf) as [x ->]. eapply returns_lift_bind; [done|]. apply returns_ret; [done|].
    apply (good_float _ p); [apply Hv|done|done]. }
  repeat match goal with
  | |- context [ID (v_type v) =? primitive_id ?p] =>
      destruct (Z.eqb_spec (ID (v_type v)) (primitive_id p)); [by (apply (Hint _ p) || apply (Huint _ p))|]
  end.
  by apply WrapError_good.
Qed.

(** *** Reading containers *)

Lemma read_nth_values vs : forall it fuel k,
  values Next it vs -> (length it <= fuel)%nat -> 0 <= k -> read_nth fuel k it = Ok (vs !! Z.to_nat k).
Proof.
  induction vs as [|v vs IH]; intros it fuel k Hv Hf Hk.
  - inversion Hv. by destruct fuel.
  - apply values_cons_inv in Hv as (it' & Hne & E & Hv). pose proof (Next_consumes _ _ _ E) as Hlt.
    destruct fuel as [|fuel]; [lia|]. cbn [read_nth]. destruct (Done it) eqn:Ed; [by apply Done_nil in Ed|].
    rewrite E. cbn [lift_panic mbind outcome_bind obind]. destruct (Z.eqb_spec k 0) as [->|Hk0]; [done|].
    rewrite IH by (done || lia). by replace (Z.to_nat k) with (S (Z.to_nat (k - 1))) by lia.
Qed.

Lemma nth_loop_read_nth fuel : forall it i k r,
  read_nth fuel k it = Ok r -> 0 <= k -> nth_loop fuel i (i + k) it = Ok (default None r).
Proof.
  induction fuel as [|fuel IH]; intros it i k r; cbn [read_nth nth_loop]; destruct (Done it); try by intros [= <-].
  destruct (Next it) as [[v it']| |]; try done. cbn [lift_panic no_error mbind outcome_bind obind].
  destruct (Z.eqb_spec k 0) as [->|Hk].
  - intros [= <-] _. by rewrite Z.add_0_r, Z.eqb_refl.
  - intros H Hk0. destruct (Z.eqb_spec i (i + k)); [lia|]. replace (i + k) with (i + 1 + (k - 1)) by lia. apply IH; [done|lia].
Qed.

Definition well_fields := fix go (fs : list field) (it : list byte) : Prop :=
  match fs with
  | [] => True
  | f :: fs => exists v it', Next it = Ok (v, it') /\ well f.2 v /\ go fs it'
  end.
Lemma read_nth_fields fs : forall it fuel k f,
  well_fields fs it -> (length it <= fuel)%nat -> fs !! k = Some f ->
  exists v, read_nth fuel (Z.of_nat k) it = Ok (Some v) /\ well f.2 v.
Proof.
  induction fs as [|g fs IH]; intros it fuel k f Hw Hf Hk; [done|]. destruct Hw as (v & it' & E & Hv & Hw).
  pose proof (Next_consumes _ _ _ E) as Hlt. destruct fuel as [|fuel]; [lia|]. cbn [read_nth].
  destruct (Done it) eqn:Ed; [apply Done_nil in Ed; by subst it|]. rewrite E. cbn [lift_panic mbind outcome_bind obind].
  destruct k as [|k]; [injection Hk as <-; by eexists|].
  destruct (IH it' fuel k f Hw ltac:(lia) Hk) as (w & E2 & Hw2). exists w. split; [|done].
  destruct (Z.eqb_spec (Z.of_nat (S k)) 0); [lia|]. by replace (Z.of_nat (S k) - 1) with (Z.of_nat k) by lia.
Qed.

Lemma nullable_fields fs f : nullable (TRecord 0 fs) -> f ∈ fs -> nullable f.2.
Proof.
  cbn. induction fs as [|g fs IH]; intros Hn Hf; [by apply not_elem_of_nil in Hf|].
  apply elem_of_cons in Hf as [->|Hf]; [apply Hn|]. apply IH; [apply Hn|done].
Qed.

(** The value of a field of a record. *)
Lemma record_field id fs b k f :
  well (TRecord id fs) b -> fs !! k = Some f ->
  exists r, read_nth (length (Iter b)) (Z.of_nat k) (Iter b) = Ok r /\ well f.2 (default None r) /\
    getNthFromContainer b (Z.of_nat k) = Ok (default None r).
Proof.
  intros Hw Hk.
  assert (exists r, read_nth (length (Iter b)) (Z.of_nat k) (Iter b) = Ok r /\ well f.2 (default None r)) as (r & E & Hr).
  { destruct b as [b|].
    - destruct (read_nth_fields fs (Iter (Some b)) (length (Iter (Some b))) k f Hw ltac:(done) Hk) as (v & E & Hv).
      by exists (Some v).
    - exists None. split; [done|]. simpl default. apply well_null, (nullable_fields fs); [exact Hw|].
      by apply list_elem_of_lookup_2 in Hk. }
  exists r. split_and!; [done..|]. unfold getNthFromContainer. destruct (Z.ltb_spec (Z.of_nat k) 0); [lia|].
  apply (nth_loop_read_nth _ _ 0 _ _ E). lia.
Qed.

(** The element at an index of an array or a set, if there is one. *)
Definition well_elems (u : ty) (b : bytes) : Prop :=
  match b with None => nullable u | Some _ => exists vs, values Next (Iter b) vs /\ Forall (well u) vs end.
Lemma element_good u b idx :
  well_elems u b -> exists e, getNthFromContainer b idx = Ok e /\ (e = None \/ well u e).
Proof.
  intros Hw.
  assert (exists vs, values Next (Iter b) vs /\ Forall (well u) vs) as (vs & Hv & Hvs).
  { destruct b as [b|]; [done|]. exists []. split; constructor. }
  assert (Hnth : forall k, 0 <= k -> exists e, nth_loop (length (Iter b)) 0 k (Iter b) = Ok e /\ (e = None \/ well u e)).
  { intros k Hk. pose proof (read_nth_values vs _ _ k Hv ltac:(done) Hk) as E.
    pose proof (nth_loop_read_nth _ _ 0 k _ E Hk) as E2. rewrite Z.add_0_l in E2. eexists. split; [exact E2|].
    destruct (vs !! Z.to_nat k) as [e|] eqn:El; [right|by left]. rewrite Forall_forall in Hvs.
    apply Hvs. by apply list_elem_of_lookup_2 in El. }
  unfold getNthFromContainer. destruct (Z.ltb_spec idx 0); [|by apply Hnth].
  unfold iter_all. rewrite (values_iter_loop _ _ _ _ Next_consumes ltac:(done) Hv). cbn [mbind outcome_bind obind].
  destruct (Z.ltb_spec (zlen vs + idx) 0); cbn [orb]; [eexists; split; [done|by left]|].
  destruct (_ <=? _); [eexists; split; [done|by left]|]. by apply Hnth.
Qed.

(** The value of a key of a map, if there is one. *)
Definition well_entries (k v : ty) (b : bytes) : Prop :=
  match b with
  | None => nullable k /\ nullable v
  | Some _ => exists kvs, values NextTwo (Iter b) kvs /\ Forall (fun kv => well k kv.1 /\ well v kv.2) kvs
  end.
Lemma lookupKey_loop_good kvs : forall it fuel k v key,
  values NextTwo it kvs -> (length it <= fuel)%nat -> Forall (fun kv => well k kv.1 /\ well v kv.2) kvs ->
  exists r, lookupKey_loop fuel key it = Ok r /\ match r with Some b => well v b | None => True end.
Proof.
  induction kvs as [|[x y] kvs IH]; intros it fuel k v key Hv Hf Hw.
  - inversion Hv. subst. exists None. by destruct fuel.
  - apply values_cons_inv in Hv as (it' & Hne & E & Hv). pose proof (NextTwo_consumes _ _ _ E) as Hlt.
    inversion_clear Hw as [|?? [_ Hy] Hw']. destruct fuel as [|fuel]; [lia|]. cbn [lookupKey_loop].
    destruct (Done it) eqn:Ed; [by apply Done_nil in Ed|]. unfold NextTwo in E.
    apply bind_Ok in E as ([x' it1] & E1 & E). apply bind_Ok in E as ([y' it2] & E2 & [= <- <- <-]).
    rewrite E1. cbn [no_error mbind outcome_bind obind]. rewrite E2. cbn [no_error mbind outcome_bind obind].
    case_decide; [by eexists|]. by eapply IH; [|lia|].
Qed.
Lemma lookupKey_good k v b key : well_entries k v b ->
  exists r, lookupKey b key = Ok r /\ match r with Some b => well v b | None => True end.
Proof.
  intros Hw. destruct b as [b|]; [|by exists None]. destruct Hw as (kvs & Hv & Hw). by eapply lookupKey_loop_good.
Qed.

Lemma deunion_good c t b : wf c -> member c t -> well t b ->
  exists v, deunion t b = Ok v /\ good v c.
Proof.
  intros Hc Hm Hw. unfold deunion. destruct t; try by (eexists; split; [done|]; by apply good_raw).
  destruct (well_union_member _ _ _ Hw) as (tag & v & it & u & Hb & E1 & E2 & Eu & Hin & _ & Hwu).
  destruct b as [b|]; [|done]. unfold Untag. rewrite E1. cbn [mbind outcome_bind obind]. rewrite Eu, E2.
  cbn [no_error mbind outcome_bind obind]. eexists. split; [done|]. apply good_raw; [|done]. by eapply member_union.
Qed.

Lemma element_or_missing u c e :
  wf c -> member c u -> e = None \/ well u e ->
  returns good (match e with None => Missing | Some _ => lift (deunion u e) end) c.
Proof.
  intros Hc Hm He. destruct e as [e|]; [|by apply NewError_good]. destruct He as [|He]; [done|].
  destruct (deunion_good c u (Some e) Hc Hm He) as (v & -> & Hv). by apply (returns_ret good).
Qed.

Lemma indexVector_good u b idx c :
  wf c -> member c u -> well_elems u b -> good idx c -> returns good (indexVector to32 to16 u b idx) c.
Proof.
  intros Hc Hm Hw Hi. unfold indexVector. destruct (IsInteger (ID (v_type idx))) eqn:E; [|by apply WrapError_good].
  cbn [negb]. destruct (IsNull idx); [by apply NewError_good|].
  assert (Hn : IsNumber (ID (v_type idx)) = true) by (unfold IsNumber, IsInteger in *; lia).
  assert (exists n, (if IsSigned (ID (v_type idx)) then no_error (Int idx) else u ← no_error (Uint idx); Ok (i64 u)) = Ok n) as [n Hidx].
  { number idx c Hn; try by eexists. unfold IsInteger, IsFloat in *. lia. }
  eapply returns_lift_bind; [exact Hidx|]. destruct (element_good u b n Hw) as (e & Ee & He).
  eapply returns_lift_bind; [exact Ee|]. by apply element_or_missing.
Qed.

Lemma member_fields c i fs k f : wf c -> member c (TRecord i fs) -> fs !! k = Some f -> member c f.2.
Proof.
  intros Hc Hm Hk. apply member_components in Hm; [|done]. cbn in Hm. rewrite Forall_map, Forall_lookup in Hm. by apply (Hm k).
Qed.

Lemma IndexOfField_lookup fs name i : IndexOfField fs name = Some i -> exists t, fs !! i = Some (name, t).
Proof.
  unfold IndexOfField, createLUT. rewrite createLUT_spec_aux. destruct (last _) as [[j f]|] eqn:E; [|by rewrite lookup_empty].
  intros [= <-]. apply last_Some_elem_of, list_elem_of_filter in E as [Hn Hin]. cbn in Hn.
  apply list_elem_of_lookup in Hin as [k Hk]. apply lookup_zip_Some in Hk as [Hs Hf]. apply lookup_seq in Hs as [-> _].
  destruct f as [n t]. cbn in Hn. subst n. by exists t.
Qed.

Lemma indexRecord_good id fs b idx c :
  wf c -> member c (TRecord id fs) -> well (TRecord id fs) b -> good idx c ->
  returns good (indexRecord to32 to16 id fs b idx) c.
Proof.
  intros Hc Hm Hw Hi. unfold indexRecord.
  destruct (ID (v_type idx) =? primitive_id String); [|by apply WrapError_good]. cbn [negb].
  destruct (good_bytes idx c Hi) as (bi & -> & _). eapply returns_lift_bind; [done|]. unfold Deref, IndexOfField_.
  cbn [v_type NewValue TypeRecordOf TypeUnder].
  destruct (IndexOfField fs (DecodeString bi)) as [k|] eqn:Ek; [|by eapply returns_lift_bind; [done|]; apply NewError_good].
  apply IndexOfField_lookup in Ek as [t Hk].
  destruct (record_field id fs b k _ Hw Hk) as (r & Er & Hr & _).
  unfold DerefByColumn, nth. change (Value_Bytes _ _ _) with (Ok (E := Empty_set) b). cbn [lift_panic mbind outcome_bind obind].
  rewrite Er. cbn [mbind outcome_bind obind v_type NewValue TypeRecordOf TypeUnder].
  destruct r as [[e|]|]; cbn [mbind outcome_bind obind]; rewrite ?Hk; (eapply returns_lift_bind; [done|]); try by apply NewError_good.
  apply returns_ret; [done|]. apply good_raw; [|exact Hr]. by eapply (member_fields c id fs k).
Qed.

Lemma IsMissing_good v c : good v c -> exists m, IsMissing to32 to16 (Some v) = Ok m.
Proof.
  intros Hv. destruct (good_bytes v c Hv) as (b & E & _). unfold val_bytes_, no_error in E. unfold IsMissing.
  destruct (Value_Bytes to32 to16 v); [|done..]. destruct (v_type v); by eexists.
Qed.

Lemma indexMap_good k v b key c :
  wf c -> member c v -> IsUnionType (TypeUnder k) = false -> well_entries k v b -> good key c ->
  returns good (indexMap to32 to16 k v b key) c.
Proof.
  intros Hc Hm Hk Hw Hkey. unfold indexMap. destruct (IsMissing_good key c Hkey) as [m ->].
  eapply returns_lift_bind; [done|]. destruct m; [by apply NewError_good|].
  destruct (good_bytes key c Hkey) as (kb & -> & _). eapply returns_lift_bind; [done|]. case_decide.
  - destruct (lookupKey_good k v b kb Hw) as (r & Er & Hr). eapply returns_lift_bind; [exact Er|].
    destruct r as [r|]; [|by apply NewError_good]. destruct (deunion_good c v r Hc Hm Hr) as (w & -> & Hv).
    by apply (returns_ret good).
  - destruct (TypeUnder k); try discriminate Hk; by apply NewError_good.
Qed.

Lemma member_inner c t u : wf c -> member c t -> is_complex t = true -> u ∈ components t -> member c u.
Proof. intros Hc Hm Hx Hu. apply member_components in Hm; [|done]. rewrite Forall_forall in Hm. by apply Hm. Qed.

Lemma dot_good field v c : wf c -> good v c -> returns good (dot to32 to16 field v) c.
Proof.
  intros Hc Hv. unfold dot. destruct (Under_good v c Hc Hv) as (v' & -> & Hv' & _).
  eapply returns_lift_bind; [done|]. destruct (good_bytes v' c Hv') as (b & -> & Hw & _ & Hprim).
  destruct Hv' as [Hm _]. destruct (v_type v') as [p|id fs|i u|i u|i k w|i ts|i ss|i u|i n u] eqn:Et; try by apply NewError_good.
  - destruct p; try by apply NewError_good. pose proof (Hprim Type_ eq_refl) as Hn. cbn in Hn. subst b.
    eapply returns_lift_bind; [done|]. unfold evalTypeOfType. eapply (returns_bind (fun r _ => r = None)).
    { by exists None, c. }
    intros r c' Hc' _ ->. by apply NewError_good.
  - destruct (IndexOfField fs field) as [k|] eqn:Ek; [|by apply NewError_good].
    apply IndexOfField_lookup in Ek as [t Hk]. destruct (record_field id fs b k _ Hw Hk) as (r & _ & Hr & E).
    cbn [mbind outcome_bind obind]. eapply returns_lift_bind; [exact E|]. rewrite Hk.
    apply returns_ret; [done|]. apply good_raw; [by eapply (member_fields c id fs k)|done].
  - eapply returns_lift_bind; [done|]. destruct Hw as [Hk Hw]. apply indexMap_good; [done| |done|exact Hw|].
    + apply (member_inner c (TMap i k w)); [done..|]. cbn. right. left.
    + apply good_raw; [apply member_prim|done].
Qed.

Lemma index_value_good v idx c : wf c -> good v c -> good idx c -> returns good (index_value to32 to16 v idx) c.
Proof.
  intros Hc Hv Hi. unfold index_value. destruct (good_bytes v c Hv) as (b & -> & Hw & _ & _).
  destruct Hv as [Hm _]. apply well_under in Hw. apply (member_under c Hc) in Hm.
  destruct (TypeUnder (v_type v)) as [p|id fs|i u|i u|i k w|i ts|i ss|i u|i n u] eqn:Et; try by apply NewError_good.
  - eapply returns_lift_bind; [done|]. by apply indexRecord_good.
  - eapply returns_lift_bind; [done|]. apply indexVector_good; try done. apply (member_inner c (TArray i u)); [done..|]. left.
  - eapply returns_lift_bind; [done|]. apply indexVector_good; try done. apply (member_inner c (TSet i u)); [done..|]. left.
  - eapply returns_lift_bind; [done|]. destruct Hw as [Hk Hw]. apply indexMap_good; try done.
    apply (member_inner c (TMap i k w)); [done..|]. cbn. right. left.
Qed.

(** ** Sound evaluators *)

Section evaluators.
Context (c0 : Context).

(** In every later context the computation returns a well-formed value. *)
Definition sound (m : M Value) : Prop := forall c, wf c -> grows c0 c -> returns good m c.

Lemma sound_bind m f : sound m -> (forall v c, wf c -> grows c0 c -> good v c -> returns good (f v) c) -> sound (m ≫= f).
Proof. intros Hm Hf c Hc Hg. eapply returns_bind; [by apply Hm|]. intros v c' Hc' Hg' Hv. apply Hf; [done|by trans c|done]. Qed.

Lemma operands_sound l r f :
  sound l -> sound r -> (forall v w c, wf c -> good v c -> good w c -> returns good (f v w) c) -> sound (operands l r f).
Proof.
  intros Hl Hr Hf. unfold operands. apply sound_bind; [done|]. intros v c Hc Hg Hv.
  destruct (IsError v); [by apply returns_ret|]. eapply returns_bind; [by apply Hr|]. intros w c' Hc' Hg' Hw.
  destruct (IsError w); [by apply returns_ret|]. apply Hf; [done|by eapply good_grows|done].
Qed.

Definition boolean (x : Value * bool) (c : Context) : Prop :=
  good x.1 c /\ (x.2 = true -> TypeUnder (v_type x.1) = TPrim Bool).
Lemma EvalBool_good m c : sound m -> wf c -> grows c0 c -> returns boolean (EvalBool to32 to16 m) c.
Proof.
  intros Hm Hc Hg. unfold EvalBool. eapply returns_bind; [by apply Hm|]. intros v c' Hc' Hg' Hv. case_decide.
  - by apply returns_ret.
  - destruct (IsError v); [by apply returns_ret|]. eapply returns_bind; [by apply WrapError_good|].
    intros w c2 Hc2 Hg2 Hw. by apply returns_ret.
Qed.
Lemma bool_of_good {A} (Q : A -> Context -> Prop) v c (f : bool -> M A) :
  good v c -> TypeUnder (v_type v) = TPrim Bool -> (forall b, returns Q (f b) c) -> returns Q (bool_of v ≫= f) c.
Proof.
  intros Hv Ht Hf. unfold bool_of. destruct (good_Bool v c Bool Hv Ht eq_refl) as [b ->].
  eapply returns_lift_bind; [done|]. apply Hf.
Qed.

Lemma Not_sound m : sound m -> sound (Not_Eval to32 to16 m).
Proof.
  intros Hm c Hc Hg. unfold Not_Eval. eapply returns_bind; [by apply EvalBool_good|].
  intros [v ok] c' Hc' Hg' [Hv Ht]. cbn in *. destruct ok; [|by apply returns_ret].
  apply bool_of_good; [done|by apply Ht|]. intros b. apply returns_ret; [done|apply good_bool].
Qed.

Lemma And_sound l r : sound l -> sound r -> sound (And_Eval to32 to16 l r).
Proof.
  intros Hl Hr c Hc Hg. unfold And_Eval. eapply returns_bind; [by apply EvalBool_good|].
  intros [v ok] c' Hc' Hg' [Hv Ht]. cbn in *. destruct ok; [|by apply returns_ret]. cbn [negb].
  apply bool_of_good; [done|by apply Ht|]. intros b. destruct b; cbn [negb]; [|apply returns_ret; [done|apply (good_bool false)]].
  eapply returns_bind; [apply EvalBool_good; [done|done|by trans c]|].
  intros [w ok] c2 Hc2 Hg2 [Hw Ht2]. cbn in *. destruct ok; [|by apply returns_ret]. cbn [negb].
  apply bool_of_good; [done|by apply Ht2|]. intros b. apply returns_ret; [done|apply good_bool].
Qed.

Lemma Or_sound l r : sound l -> sound r -> sound (Or_Eval to32 to16 l r).
Proof.
  intros Hl Hr c Hc Hg. unfold Or_Eval. eapply returns_bind; [by apply EvalBool_good|].
  intros [v ok] c' Hc' Hg' [Hv Ht]. cbn in *.
  assert (Hrest : returns good (missing ← lift (no_error (IsMissing to32 to16 (Some v)));
    if IsError v && negb missing then mret v
    else '(r, ok) ← EvalBool to32 to16 r; if ok : bool then b ← bool_of r; mret (bool_value b) else mret r) c').
  { destruct (IsMissing_good v c' Hv) as [m ->]. eapply returns_lift_bind; [done|].
    destruct (IsError v && negb m); [by apply returns_ret|].
    eapply returns_bind; [apply EvalBool_good; [done|done|by trans c]|].
    intros [w ok2] c2 Hc2 Hg2 [Hw Ht2]. cbn in *. destruct ok2; [|by apply returns_ret].
    apply bool_of_good; [done|by apply Ht2|]. intros b. apply returns_ret; [done|apply good_bool]. }
  destruct ok; [|exact Hrest]. apply bool_of_good; [done|by apply Ht|]. intros b.
  destruct b; [apply returns_ret; [done|apply (good_bool true)]|exact Hrest].
Qed.

Lemma lift_good (m : outcome diverge Value) c : wf c -> (exists v, m = Ok v /\ good v c) -> returns good (lift m) c.
Proof. intros Hc (v & -> & Hv). by apply (returns_ret good). Qed.

Lemma equal_good b l r c : wf c -> good l c -> good r c -> exists v, equal to32 of32 to16 of16 b l r = Ok v /\ good v c.
Proof.
  intros Hc Hl Hr. unfold equal. destruct (enumToIndex_good l c Hc Hl) as (l' & -> & Hl').
  destruct (enumToIndex_good r c Hc Hr) as (r' & -> & Hr'). cbn [mbind outcome_bind obind].
  destruct (coerce_Equal_good l' r' c Hc Hl' Hr') as [x ->]. eexists. split; [done|apply good_bool].
Qed.

Lemma RegexpMatch_sound re m : sound m -> sound (RegexpMatch_Eval to32 to16 re m).
Proof.
  intros Hm. apply sound_bind; [done|]. intros v c Hc Hg Hv. destruct (good_bytes v c Hv) as (b & -> & _).
  destruct (ID (v_type v) =? primitive_id String); [eapply returns_lift_bind; [done|]|];
    (apply returns_ret; [done|apply good_bool || apply (good_bool false)]).
Qed.

Lemma Conditional_sound p t e : sound p -> sound t -> sound e -> sound (Conditional_Eval to32 to16 p t e).
Proof.
  intros Hp Ht He. apply sound_bind; [done|]. intros v c Hc Hg Hv.
  destruct (Z.eqb_spec (ID (v_type v)) (primitive_id Bool)) as [E|]; [|by apply WrapError_good]. cbn [negb].
  apply bool_of_good; [done|by apply (ID_is_prim c); [|apply Hv|]|]. intros []; [by apply Ht|by apply He].
Qed.

(** The expressions covered: all operators but [In], [Slice], the remainder and
    those that build records and collections.  Functions are to be sound. *)
Definition sound_function (fn : list Value -> M Value) : Prop :=
  forall c args, wf c -> grows c0 c -> Forall (fun v => good v c) args -> returns good (fn args) c.
Fixpoint covered (slots : nat) (e : Evaluator) : Prop :=
  match e with
  | This => True
  | Literal v => good v c0
  | Var slot => (slot < slots)%nat
  | DotExpr e _ | Not e | RegexpMatch _ e | UnaryMinus e => covered slots e
  | And l r | Or l r | Equal _ l r | Compare _ l r | Index l r => covered slots l /\ covered slots r
  | Arithmetic op l r => exact = false /\ op <> Modulo /\ covered slots l /\ covered slots r
  | Conditional p t e => covered slots p /\ covered slots t /\ covered slots e
  | Call fn es => sound_function fn /\ (fix go es := match es with [] => True | e :: es => covered slots e /\ go es end) es
  | _ => False
  end.

Section eval.
Context (vars : list Value) (this : Value).
Context (Hvars : Forall (fun v => good v c0) vars) (Hthis : good this c0).
Local Abbreviation evaluate := (eval to32 of32 to16 of16 nan float_to_int float_to_uint FormatType lookup_text walk_text sort_entries vars this).

Lemma sound_value v : good v c0 -> sound (mret v).
Proof. intros Hv c Hc Hg. apply returns_ret; [done|by eapply good_grows]. Qed.

Lemma eval_list_good es c :
  Forall (fun e => sound (evaluate e)) es -> wf c -> grows c0 c ->
  returns (fun vs c' => Forall (fun v => good v c') vs) (eval_list evaluate es) c.
Proof.
  intros Hes. revert c. induction Hes as [|e es He Hes IH]; intros c Hc Hg; [by apply returns_ret|]. cbn [eval_list].
  eapply returns_bind; [by apply He|]. intros v c1 Hc1 Hg1 Hv. eapply returns_bind; [apply IH; [done|by trans c]|].
  intros vs c2 Hc2 Hg2 Hvs. apply returns_ret; [done|]. constructor; [by eapply good_grows|done].
Qed.

Lemma covered_sound : forall e, covered (length vars) e -> sound (evaluate e).
Proof.
  fix IH 1. intros e. destruct e; cbn [covered]; try done; intros He; cbn [Expr.eval].
  - by apply sound_value.
  - by apply sound_value.
  - destruct (lookup_lt_is_Some_2 vars slot He) as [v Hv]. rewrite Hv. apply sound_value.
    rewrite Forall_lookup in Hvars. by apply (Hvars slot).
  - apply sound_bind; [by apply IH|]. intros. by apply dot_good.
  - by apply Not_sound, IH.
  - destruct He. by apply And_sound; apply IH.
  - destruct He. by apply Or_sound; apply IH.
  - destruct He. apply operands_sound; [by apply IH..|]. intros. by apply lift_good, equal_good.
  - by apply RegexpMatch_sound, IH.
  - destruct He. apply operands_sound; [by apply IH..|]. intros. by apply lift_good, compare_relative_good.
  - destruct He as (? & ? & ? & ?). apply operands_sound; [by apply IH..|]. intros. by apply arithmetic_good.
  - apply sound_bind; [by apply IH|]. intros. by apply unary_minus_good.
  - destruct He as [Hl Hr]. apply sound_bind; [by apply IH|]. intros v c Hc Hg Hv.
    eapply returns_bind; [by apply (IH _ Hr)|]. intros w c' Hc' Hg' Hw. apply index_value_good; [done|by eapply good_grows|done].
  - destruct He as (? & ? & ?). by apply Conditional_sound; apply IH.
  - destruct He as [Hfn Hes]. intros c Hc Hg. eapply returns_bind; [apply eval_list_good; [|done|done]|].
    + induction exprs as [|e es IHes]; constructor; [apply IH, Hes|apply IHes, Hes].
    + intros vs c' Hc' Hg' Hvs. apply Hfn; [done|by trans c|done].
Qed.
End eval.
End evaluators.
End sound.

(** ** Collections *)

(** An element of a collection: a value of a type of the context, which is nil
    when it is of the type null. *)
Definition appendable (c : Context) (v : ty * bytes) : Prop :=
  member c v.1 /\ (v.1 = TPrim Null -> v.2 = None) /\ zlen (default [] v.2) < 2 ^ 61.
(** One whose type is neither null nor a union. *)
Definition plain (c : Context) (v : ty * bytes) : Prop :=
  member c v.1 /\ v.1 <> TPrim Null /\ IsUnionType v.1 = false /\ zlen (default [] v.2) < 2 ^ 61.
Lemma plain_appendable c v : plain c v -> appendable c v.
Proof. by intros (? & ? & ? & ?). Qed.

(** The type [t] takes the elements of the types [ts], of which there are
    [uniq] before they are made unique. *)
Definition takes (t : ty) (uniq : nat) (ts : list ty) : Prop :=
  (forall u, u ∈ ts -> u = TPrim Null \/ u = t /\ forall i us, u <> TUnion i us) \/
  (1 < uniq)%nat /\ exists i us, t = TUnion i us /\ forall u, u ∈ ts -> u = TPrim Null \/ u ∈ us.

Lemma elem_of_UniqueTypes ts t : t ∈ UniqueTypes ts <-> t ∈ ts.
Proof.
  unfold UniqueTypes. assert (Hp : t ∈ sort_types ts <-> t ∈ ts) by (unfold sort_types; by rewrite stable_sort_perm).
  rewrite <- Hp. split; [apply dedup_types_elem|]. intros Ht. by destruct (dedup_types_complete None _ _ Ht).
Qed.

Definition short_union (t : ty) : Prop := match t with TUnion _ us => short us | _ => True end.
Lemma union_tag_range us tag u : UnionType us tag = Some u -> 0 <= tag < zlen us.
Proof. unfold UnionType. destruct (Z.ltb_spec tag 0); [done|]. destruct (Z.leb_spec (zlen us) tag); [done|lia]. Qed.

(** What an element is encoded as, and what it reads as. *)
Definition encodes (t : ty) (v : ty * bytes) (e : bytes) : Prop :=
  zlen (default [] e) <= zlen (default [] v.2) + 28 /\ match e with None => v.2 = None | Some _ => is_Some v.2 /\ deunion t e = Ok (NewValue v.1 v.2) end.

Lemma appendNext_spec c t uniq (ts : list ty) b v :
  appendable c v -> takes t uniq ts -> v.1 ∈ ts -> short_union t ->
  exists b' e, appendNext t uniq b v = Ok b' /\ default [] (b_bytes b') = default [] (b_bytes b) ++ val_bytes e /\
    containers b' = containers b /\ encodes t v e.
Proof.
  intros (Hm & Hn & Hl) Ht Hv Hs. unfold appendNext, encodes. destruct v as [u [v|]]; cbn [fst snd] in *.
  2:{ exists (BAppend b None), None. cbn [BuildUnion no_error]. unfold BAppend. cbn [b_bytes].
      rewrite Append_val. split_and!; try done. destruct t; try done. by case_match. }
  destruct Ht as [Ht|(Huniq & i & us & -> & Hus)].
  - apply Ht in Hv as [Hv|[-> Hu]]; [by specialize (Hn Hv)|]. exists (BAppend b (Some v)), (Some v).
    unfold BAppend. cbn [b_bytes]. rewrite Append_val. split_and!; try done; [|lia|]; (destruct t; try done; by destruct (Hu id types)).
  - apply Hus in Hv as [Hv|Hv]; [by specialize (Hn Hv)|]. apply Nat.ltb_lt in Huniq. rewrite Huniq.
    destruct (union_enum_tables us ([] : list gostring) u ([] : gostring)) as [Htag _]. case_decide; [|done].
    assert (Hr : - 2 ^ 63 <= TagOf us u < 2 ^ 63).
    { apply union_tag_range in Htag. unfold short_union, short in Hs. lia. }
    destruct (union_roundtrip i us b (TagOf us u) u v Htag Hr Hl) as (b' & body & E & Hb & Hc & Hunt & Hsm).
    rewrite E. exists b', (Some body). split_and!; try done. unfold deunion. by rewrite Hunt.
Qed.

Lemma append_all_spec c t uniq (ts : list ty) vs : forall b,
  Forall (appendable c) vs -> short_union t -> takes t uniq ts -> (forall v, v ∈ vs -> v.1 ∈ ts) -> containers b = [] ->
  exists b' es, append_all t uniq vs b = Ok b' /\ default [] (b_bytes b') = default [] (b_bytes b) ++ body_of es /\
    (vs <> [] -> b_bytes b' <> None) /\ containers b' = [] /\ Forall2 (encodes t) vs es.
Proof.
  induction vs as [|v vs IH]; intros b Hp Hs Ht Hts Hc.
  { exists b, []. split_and!; try done. by rewrite app_nil_r. }
  inversion_clear Hp as [|?? Hv Hvs]. cbn [append_all].
  destruct (appendNext_spec c t uniq ts b v Hv Ht) as (b1 & e & -> & Hb1 & Hc1 & He); [apply Hts; left|done|].
  cbn [mbind outcome_bind obind].
  destruct (IH b1 Hvs Hs Ht) as (b2 & es & -> & Hb2 & _ & Hc2 & Hes); [intros w Hw; apply Hts; by right|by rewrite Hc1|].
  exists b2, (e :: es). split_and!; try done.
  - rewrite Hb2, Hb1. unfold body_of. cbn [map concat]. by rewrite app_assoc.
  - intros _ E. rewrite E, Hb1 in Hb2. cbn in Hb2. pose proof (length_val e) as Hl.
    apply (f_equal length) in Hb2. rewrite !length_app in Hb2. cbn in Hb2. lia.
  - by constructor.
Qed.

Lemma encodes_small c t v e : appendable c v -> encodes t v e -> small e.
Proof. intros (_ & _ & Hl) [He _]. unfold small. lia. Qed.

(** The element at an index that counts from the end when it is negative. *)
Definition pick {A} (l : list A) (i : Z) : option A :=
  if i <? 0 then if zlen l + i <? 0 then None else l !! Z.to_nat (zlen l + i) else l !! Z.to_nat i.

Lemma pick_nil {A} i : pick ([] : list A) i = None.
Proof. unfold pick. by repeat case_match. Qed.
Lemma pick_Forall2 {A B} (R : A -> B -> Prop) l k i : Forall2 R l k -> option_Forall2 R (pick l i) (pick k i).
Proof.
  intros HR. unfold pick, zlen. rewrite (Forall2_length _ _ _ HR). rewrite Forall2_lookup in HR.
  repeat case_match; try constructor; apply HR.
Qed.

Lemma nth_loop_body fuel es i idx :
  Forall small es -> (length (body_of es) <= fuel)%nat -> i <= idx ->
  nth_loop fuel i idx (body_of es) = Ok (default None (es !! Z.to_nat (idx - i))).
Proof.
  revert fuel i. induction es as [|e es IH]; intros fuel i Hs Hf Hi; [by destruct fuel|].
  inversion_clear Hs as [|? ? He Hes]. unfold body_of in *. cbn [map concat] in *. rewrite length_app in Hf.
  pose proof (length_val e). destruct fuel as [|fuel]; [lia|]. cbn [nth_loop]. rewrite Done_val, Next_Append by done.
  cbn [no_error mbind outcome_bind obind]. destruct (Z.eqb_spec i idx) as [->|Hne].
  { by rewrite Z.sub_diag. }
  rewrite IH by (done || lia). by replace (Z.to_nat (idx - i)) with (S (Z.to_nat (idx - (i + 1)))) by lia.
Qed.

Lemma getNth_body es i :
  Forall small es -> getNthFromContainer (Some (body_of es)) i = Ok (default None (pick es i)).
Proof.
  intros Hs. unfold getNthFromContainer, pick. cbn [Iter]. rewrite (iter_all_body es Hs).
  cbn [mbind outcome_bind obind]. pose proof (zlen_nonneg es). unfold Iter. cbn [default from_option id].
  destruct (Z.ltb_spec i 0).
  - destruct (Z.ltb_spec (zlen es + i) 0); [done|]. destruct (Z.leb_spec (zlen es) (zlen es + i)); [lia|]. cbn [orb].
    rewrite nth_loop_body by (done || lia). by rewrite Z.sub_0_r.
  - rewrite nth_loop_body by (done || lia). by rewrite Z.sub_0_r.
Qed.
