(* ===== verification/ExprProps.v ===== *)
(** * What expressions compute

    Integer arithmetic, the reading of collections and records an expression
    builds, dotted paths, and the cases in which the evaluators of the source
    do not do what their operators mean. *)

From S2P Require Import Prelude Zcode Types EncodingProps Context Interning Primitive Values ValueProofs Compare Expr ExprProofs.
Local Open Scope Z_scope.

(** ** Integers

    The integers of 8 to 64 bits, durations and times. *)

Definition int_type (p : primitive) : bool :=
  match p with
  | Uint8 | Uint16 | Uint32 | Uint64 | Int8 | Int16 | Int32 | Int64 | Duration | Time => true
  | _ => false
  end.
Definition int_value (p : primitive) (n : Z) : Value :=
  if signed p then NewInt (TPrim p) n else NewUint (TPrim p) n.

(** The signed type of the width of an unsigned one, and the type of an
    operation: the larger one, in the order of the identifiers. *)
Definition to_signed (p : primitive) : primitive :=
  match p with Uint8 => Int8 | Uint16 => Int16 | Uint32 => Int32 | Uint64 => Int64 | _ => p end.
Definition larger (p q : primitive) : primitive := if primitive_id p <? primitive_id q then q else p.
Definition common (p q : primitive) : primitive :=
  if Bool.eqb (signed p) (signed q) then larger p q else larger (to_signed p) (to_signed q).
Definition result_type (op : arith) (p q : primitive) : primitive :=
  match op, common p q with Subtract, Time => Duration | _, r => r end.
Definition exact (op : arith) (m n : Z) : Z :=
  match op with
  | Add => m + n | Subtract => m - n | Multiply => m * n | Divide => Z.quot m n | Modulo => Z.rem m n
  end.
(** An unsigned operand that a signed 64-bit integer does not hold. *)
Definition too_large (p q : primitive) (m n : Z) : bool :=
  negb (Bool.eqb (signed p) (signed q)) && (2 ^ 63 - 1 <? (if signed p then n else m)).

Lemma fits_64 p n : int_type p = true -> fits p n -> if signed p then - 2 ^ 63 <= n < 2 ^ 63 else 0 <= n < 2 ^ 64.
Proof. destruct p; try done; unfold fits; cbn; lia. Qed.

Section props.
Context (to32 of32 to16 of16 : Z -> Z) (nan : Z -> Z -> Z) (float_to_int float_to_uint : Z -> Z).
Context (FormatType : ty -> gostring) (lookup_text : lookup_error -> gostring) (walk_text : @walk_error unit -> gostring).
Context (sort_entries : list (list byte * list byte) -> list (list byte * list byte)).

Local Abbreviation evaluate := (eval to32 of32 to16 of16 nan float_to_int float_to_uint FormatType lookup_text walk_text sort_entries).

Lemma int_value_type p n : v_type (int_value p n) = TPrim p.
Proof. unfold int_value. by destruct (signed p). Qed.
Lemma int_value_repr p n : v_repr (int_value p n) = Native (u64 n).
Proof. unfold int_value. by destruct (signed p). Qed.
Lemma Int_int_value p n : int_type p = true -> signed p = true -> fits p n -> Values.Int (int_value p n) = Ok n.
Proof.
  intros Hp Hs Hn. pose proof (fits_64 p n Hp Hn) as H. rewrite Hs in H. unfold Values.Int.
  rewrite int_value_type, int_value_repr. unfold signed in Hs. cbn [ID]. rewrite Hs. cbn [negb].
  by rewrite i64_u64, i64_id by lia.
Qed.
Lemma Uint_int_value p n : int_type p = true -> signed p = false -> fits p n -> Values.Uint (int_value p n) = Ok n.
Proof.
  intros Hp Hs Hn. pose proof (fits_64 p n Hp Hn) as H. rewrite Hs in H. unfold Values.Uint.
  rewrite int_value_type, int_value_repr. rewrite u64_id by lia. by destruct p.
Qed.

Lemma IsNull_int_value p n : IsNull (int_value p n) = false.
Proof. unfold IsNull. by rewrite int_value_repr. Qed.
Lemma Under_int_value p n : Under to32 to16 (int_value p n) = Ok (int_value p n).
Proof. unfold Under. by rewrite int_value_type. Qed.
Lemma enum_int_value p n : enumToIndex to32 to16 (int_value p n) = Ok (int_value p n).
Proof. unfold enumToIndex. by rewrite int_value_type. Qed.

Lemma toInt_int_value p n :
  int_type p = true -> fits p n -> n < 2 ^ 63 -> toInt to32 of32 to16 of16 float_to_int (int_value p n) = Ok n.
Proof.
  intros Hp Hn Hl. pose proof (fits_64 p n Hp Hn) as H. unfold toInt. rewrite IsNull_int_value, Under_int_value.
  cbn [mbind outcome_bind obind]. rewrite int_value_type. destruct (signed p) eqn:Hs.
  - replace (IsUnsigned (ID (TPrim p))) with false by (by destruct p). unfold signed in Hs. cbn [ID]. rewrite Hs.
    by rewrite (Int_int_value p n).
  - replace (IsUnsigned (ID (TPrim p))) with true by (by destruct p).
    rewrite (Uint_int_value p n) by done. cbn [no_error mbind outcome_bind obind]. by rewrite i64_id by lia.
Qed.
Lemma toUint_int_value p n :
  int_type p = true -> signed p = false -> fits p n ->
  toUint to32 of32 to16 of16 float_to_uint (int_value p n) = Ok n.
Proof.
  intros Hp Hs Hn. unfold toUint. rewrite IsNull_int_value, Under_int_value.
  cbn [mbind outcome_bind obind]. rewrite int_value_type.
  replace (IsUnsigned (ID (TPrim p))) with true by (by destruct p). by rewrite (Uint_int_value p n).
Qed.

Lemma Promote_int_value p q m n :
  int_type p = true -> int_type q = true -> fits p m -> fits q n ->
  Promote to32 to16 (int_value p m) (int_value q n) =
  Ok (if too_large p q m n then inl ErrOverflow else inr (primitive_id (common p q))).
Proof.
  intros Hp Hq Hm Hn. unfold Promote. rewrite !Under_int_value. cbn [mbind outcome_bind obind].
  pose proof (Uint_int_value p m Hp) as Up. pose proof (Uint_int_value q n Hq) as Uq.
  rewrite !int_value_type. unfold too_large.
  destruct p; try discriminate Hp; destruct q; try discriminate Hq;
    cbn -[Values.Uint Z.ltb Z.sub Z.pow int_value]; try reflexivity;
    rewrite ?Up, ?Uq by done; cbn -[Z.ltb Z.sub Z.pow int_value]; by destruct (2 ^ 63 - 1 <? _).
Qed.

Lemma common_int p q : int_type p = true -> int_type q = true -> int_type (common p q) = true.
Proof. by destruct p, q. Qed.
Lemma common_signed p q :
  int_type p = true -> int_type q = true -> signed (common p q) = signed p || signed q.
Proof. by destruct p, q. Qed.
Lemma signed_result op p q :
  int_type p = true -> int_type q = true -> signed (result_type op p q) = signed p || signed q.
Proof. intros. destruct op; [by apply common_signed| |by apply common_signed..]. by destruct p, q. Qed.
Lemma match_const {A} op (a : A) : match op with Modulo => a | _ => a end = a.
Proof. by destruct op. Qed.
Lemma LookupType_int c r : int_type r = true -> LookupType c (primitive_id r) = Ok (TPrim r).
Proof. by destruct r. Qed.
Lemma u64_i64 z : u64 (i64 z) = u64 z.
Proof.
  unfold u64, i64. rewrite Zminus_mod_idemp_l. f_equal. lia.
Qed.

Lemma unsigned_op op m n : 0 <= m -> 0 <= n -> divides op && (n =? 0) = false -> u64 (uint_op op m n) = u64 (exact op m n).
Proof.
  intros Hm Hn Hd. destruct op; cbn in *; try by rewrite ?(Z.mod_mod) by lia.
  - unfold u64. by rewrite Z.mod_mod.
  - unfold u64. by rewrite Z.mod_mod.
  - unfold u64. by rewrite Z.mod_mod.
  - apply Z.eqb_neq in Hd. by rewrite Z.quot_div_nonneg by lia.
  - apply Z.eqb_neq in Hd. by rewrite Z.rem_mod_nonneg by lia.
Qed.
Lemma signed_op op m n : u64 (int_op op m n) = u64 (exact op m n).
Proof. destruct op; cbn; by rewrite ?u64_i64. Qed.

(** C25: Integer arithmetic. Operands are promoted to their larger type,
    signed if one of them is, and the result is that of the exact operation
    modulo 2^64, truncating towards zero in divisions; the difference of times
    is a duration. Dividing by zero and an unsigned operand that a signed
    64-bit integer cannot hold give error values. *)
Theorem integer_arithmetic op p q m n vars this c :
  int_type p = true -> int_type q = true -> fits p m -> fits q n ->
  evaluate vars this (Arithmetic op (Literal (int_value p m)) (Literal (int_value q n))) c =
    if too_large p q m n then NewError (promote_text ErrOverflow) c
    else if divides op && (n =? 0) then DivideByZero c
    else Ok (int_value (result_type op p q) (exact op m n), c).
Proof.
  intros Hp Hq Hm Hn. pose proof (fits_64 p m Hp Hm) as Bm. pose proof (fits_64 q n Hq Hn) as Bn.
  assert (forall p n, IsError (int_value p n) = false) as Herr by (intros ??; unfold IsError; by rewrite int_value_type).
  cbn [Expr.eval]. unfold Arithmetic_Eval, operands. rewrite M_ret_l, Herr, M_ret_l, Herr.
  unfold arithmetic. rewrite !enum_int_value, !M_lift_l, Promote_int_value, M_lift_l by done.
  destruct (too_large p q m n) eqn:Hl; [done|]. rewrite LookupType_int by by apply common_int.
  unfold arith_op. cbn [ID]. pose proof (common_signed p q Hp Hq) as Hs.
  destruct (signed (common p q)) eqn:Hc; symmetry in Hs.
  - assert (IsUnsigned (primitive_id (common p q)) = false) as -> by (by destruct (common p q)).
    unfold signed in Hc. rewrite Hc.
    assert (m < 2 ^ 63 /\ n < 2 ^ 63) as [Lm Ln].
    { unfold too_large in Hl. destruct (signed p), (signed q); cbn in Hs, Hl; try lia; try done. }
    rewrite !toInt_int_value, !M_lift_l by done. destruct (divides op && (n =? 0)); [done|].
    rewrite M_lift_l. unfold int_value. rewrite signed_result, Hs by done.
    unfold NewInt. rewrite signed_op. unfold result_type.
    by destruct op; try done; destruct (common p q).
  - assert (IsUnsigned (primitive_id (common p q)) = true) as -> by (pose proof (common_int p q Hp Hq); by destruct (common p q)).
    apply orb_false_iff in Hs as [Sp Sq]. rewrite Sp in Bm. rewrite Sq in Bn.
    rewrite !toUint_int_value, !Uint_int_value, !M_lift_l by done. destruct (divides op && (n =? 0)) eqn:Hd; [done|].
    cbn [no_error]. rewrite match_const, M_lift_l. unfold int_value. rewrite signed_result, Sp, Sq by done. cbn [orb].
    unfold NewUint. rewrite unsigned_op by (done || lia). unfold result_type.
    destruct op; try done. unfold common. rewrite Sp, Sq. by destruct p, q.
Qed.

(** ** Collections *)

(** Elements of one union type, but for those of the type null: the source
    takes such a union for the one it makes of several types. *)
Definition one_union (ts : list ty) : Prop :=
  exists i us, TUnion i us ∈ ts /\ forall t, t ∈ ts -> t = TPrim Null \/ t = TUnion i us.

(** The type of the elements: the only one, or a union with all of them. *)
Lemma unionOf_spec c ts :
  wf c -> ~ one_union ts -> short ts -> Forall (member c) ts ->
  exists t c', unionOf ts c = Ok (t, c') /\ wf c' /\ grows c c' /\ member c' t /\ takes t (length ts) ts.
Proof.
  intros Hc Hone Hs Hts. unfold unionOf. rewrite Forall_forall in Hts. pose proof (elem_of_UniqueTypes ts) as He.
  assert (Hl : (length (List.filter (fun t => negb (bool_decide (t = TPrim Null))) (UniqueTypes ts)) <= length ts)%nat).
  { etrans; [apply List.filter_length_le|]. unfold UniqueTypes. etrans; [apply dedup_types_length|].
    unfold sort_types. by rewrite length_stable_sort. }
  assert (Hf : forall t, t ∈ List.filter (fun t => negb (bool_decide (t = TPrim Null))) (UniqueTypes ts) <-> t ∈ ts /\ t <> TPrim Null).
  { intros t. rewrite list_elem_of_In, filter_In, <- list_elem_of_In, He.
    by destruct (bool_decide_reflect (t = TPrim Null)) as [->|]; split; intros []. }
  destruct (List.filter _ _) as [|t [|t2 us]].
  - exists (TPrim Null), c. split_and!; try done. left. intros u Hu. left. destruct (decide (u = TPrim Null)) as [|Hn]; [done|].
    destruct (not_elem_of_nil u). by apply Hf.
  - exists t, c. destruct (proj1 (Hf t)) as [Ht Hn]; [left|]. split_and!; try done; [by apply Hts|]. left. intros u Hu.
    assert (Hu' : u = TPrim Null \/ u = t).
    { destruct (decide (u = TPrim Null)) as [|Hnu]; [by left|]. right. by apply list_elem_of_singleton, Hf. }
    destruct Hu' as [| ->]; [by left|]. right. split; [done|]. intros i us ->. destruct Hone. exists i, us. split; [done|].
    intros w Hw. destruct (decide (w = TPrim Null)) as [|Hnw]; [by left|]. right. by apply list_elem_of_singleton, Hf.
  - destruct (LookupTypeUnion_interns c Hc (t :: t2 :: us)) as (u & c' & E & Eu' & Hm & Hw & Hg).
    { unfold short, zlen in *. cbn [length] in *. lia. }
    { apply Forall_forall. intros u [Hu _]%Hf. by apply Hts. }
    exists u, c'. split_and!; [done..|]. right. split; [cbn [length] in Hl; lia|].
    eexists _, _. split; [exact Eu'|]. intros w Hw'. destruct (decide (w = TPrim Null)) as [|Hnw]; [by left|]. right.
    unfold sort_types. rewrite stable_sort_perm. by apply Hf.
Qed.

(** An array that holds the values [es] of the type [t]. *)
Lemma index_array i t es n c :
  Forall small es -> - 2 ^ 63 <= n < 2 ^ 63 ->
  index_value to32 to16 (NewValue (TArray i t) (Some (body_of es))) (NewInt64 n) c =
    match default None (pick es n) with None => Missing c | Some e => lift (deunion t (Some e)) c end.
Proof.
  intros Hs Hn. unfold index_value. cbn [v_type NewValue TypeUnder].
  change (val_bytes_ _ _ _) with (Ok (E := diverge) (Some (body_of es))). rewrite M_lift_l.
  pose proof (Int_int_value Int64 n eq_refl eq_refl Hn) as E. change (int_value Int64 n) with (NewInt64 n) in E.
  unfold indexVector. change (IsInteger _) with true. change (IsSigned _) with true. change (IsNull _) with false.
  cbn [negb]. rewrite E. cbn [no_error]. rewrite M_lift_l, getNth_body, M_lift_l by done.
  by destruct (default None (pick es n)).
Qed.

(** C26: An array expression keeps its elements: when they evaluate, in turn
    and with spread ones taken apart, to the values [vs], indexing the array
    it builds, from the start or with a negative index from the end, gives the
    element at this place with its type, whatever mixture of types the array
    holds, elements of union types and of the type null included, and an index
    outside it gives missing, as does that of a null element. Each element is
    of a type of the context the evaluation leaves, with fewer than 2^61 bytes
    (none when its type is null); arrays all of whose other elements have one
    union type are left out, since the source takes this union for one that it
    made of the types of the elements ([spread_union_panics]). *)
Theorem array_reads_back es (vs : list (ty * bytes)) vars this c c0 :
  eval_elems to32 to16 (evaluate vars this) es c = Ok (vs, c0) ->
  wf c0 -> short vs -> Forall (appendable c0) vs -> ~ one_union (map fst vs) ->
  exists a c1, evaluate vars this (ArrayExpr es) c = Ok (a, c1) /\ wf c1 /\ grows c0 c1 /\
    forall n, - 2 ^ 63 <= n < 2 ^ 63 ->
      index_value to32 to16 a (NewInt64 n) c1 =
        match pick vs n with Some (t, Some b) => Ok (NewValue t (Some b), c1) | _ => Missing c1 end.
Proof.
  intros He Hc Hs Hp Hone. cbn [Expr.eval]. rewrite (M_bind_Ok _ _ _ _ _ He).
  destruct (decide (vs = [])) as [->|Hne].
  { destruct (LookupTypeArray_interns c0 Hc (TPrim Null) (member_prim c0 Null)) as (t & c1 & E & Et & Hm & Hw & Hg).
    exists (NewValue t (Some [])), c1. split; [exact (M_bind_Ok _ _ _ _ _ E)|]. split_and!; try done. intros n Hn.
    rewrite Et. cbn [reid]. change (@nil byte) with (body_of []). rewrite index_array, !pick_nil by done. done. }
  destruct (unionOf_spec c0 (map fst vs)) as (t & c1 & E & Hw & Hg & Hm & Ht); [done|done|..].
  { unfold short, zlen in *. by rewrite length_map. }
  { apply Forall_map, (Forall_impl _ _ _ Hp). by intros v (?&?&_). }
  assert (Hsu : short_union t).
  { destruct t; try done. apply (member_regular c1 Hw) in Hm. cbn in Hm. apply Hm. }
  rewrite length_map in Ht.
  destruct (append_all_spec c0 t (length vs) (map fst vs) vs NewBuilder Hp Hsu Ht) as (b & bs & Eb & Hb & Hbn & Hcs & Hes); [|done|].
  { intros v Hv. apply list_elem_of_fmap. by exists v. }
  destruct (LookupTypeArray_interns c1 Hw t Hm) as (u & c2 & Eu & Etu & Hmu & Hw2 & Hg2).
  assert (Hrun : array_value vs c0 = Ok (NewValue u (b_bytes b), c2)).
  { unfold array_value. destruct vs as [|v vs]; [done|]. unfold collect_values.
    rewrite (M_bind_Ok _ _ c0 (t, b_bytes b) c1); [by rewrite (M_bind_Ok _ _ _ _ _ Eu)|].
    rewrite (M_bind_Ok _ _ _ _ _ E), Eb. cbn [mbind outcome_bind obind]. unfold Bytes_. by rewrite Hcs. }
  eexists _, c2. split; [exact Hrun|]. split_and!; [done|by trans c1|]. intros n Hn.
  destruct (b_bytes b) as [body|]; [|by destruct Hbn]. cbn in Hb. subst body. rewrite Etu. cbn [reid].
  rewrite index_array; [|apply Forall_forall; intros e Hin|done].
  - destruct (pick_Forall2 _ _ _ n Hes) as [[w x] e [_ Hx]|]; [|done]. cbn [default from_option id].
    cbn [fst snd] in Hx. destruct e as [e|]; [|by rewrite Hx]. destruct Hx as [[y ->] ->]. done.
  - apply list_elem_of_lookup in Hin as [k Hk]. destruct (Forall2_lookup_r _ _ _ _ _ Hes Hk) as (w & Hw' & Hsm).
    rewrite Forall_lookup in Hp. by apply (encodes_small c0 t w); [eapply Hp|].
Qed.

(** ** Soundness *)

(** C24: An expression of the covered operators evaluates in every well-formed
    context: no evaluator panics, no loop runs on, and the result is a value
    whose type belongs to the context it leaves and whose bytes have the shape
    of that type. The operators covered are [this], literals, variables,
    fields, [not], [and], [or], equality, ordering, regular expressions, [+],
    [-], [*], [/], unary minus, indexing, the conditional and calls of
    functions that are sound themselves; the remainder, [in], slices and the
    expressions that build records and collections are left out. The value
    evaluated and the variables are to have the shape of their types too, and
    to hold no null union, no union whose value has the type null, no type
    value but null and no map with keys of a union type: on a null union the
    source does not return ([null_union_diverges]). Integers, in the values
    and in the result, lie in the range of their type when [exact] is set,
    which excludes the binary arithmetic operators; these keep a result at 64
    bits, so that on narrower types it may lie outside ([narrow_overflow]),
    and without [exact] integers are words of 64 bits. An error is a value. *)
Theorem eval_sound exact c vars this e :
  wf c -> Forall (fun v => good exact of32 of16 v c) vars -> good exact of32 of16 this c ->
  covered exact of32 of16 c (length vars) e ->
  exists v c', evaluate vars this e c = Ok (v, c') /\ wf c' /\ grows c c' /\ good exact of32 of16 v c'.
Proof. intros Hc Hvars Hthis He. by apply (covered_sound _ _ _ _ _ _ _ _ _ _ _ _ c vars this Hvars Hthis e He). Qed.

(** ** Where the operators differ from their meaning *)

(** Strings are ordered by comparing the left one with itself. *)
Theorem strings_compare_left op (a b : list byte) :
  compare_relative to32 of32 to16 of16 op (NewString a) (NewString b) = Ok (result op 0).
Proof.
  transitivity (Ok (E := diverge) (result op (bytes_compare a a))); [reflexivity|]. by rewrite (gc_refl bytes_compare).
Qed.

(** [false <= false] is false. *)
Theorem false_not_le_false : compare_relative to32 of32 to16 of16 OpLE False_ False_ = Ok False_.
Proof. reflexivity. Qed.

(** An index of [2^63] or more counts from the end. *)
Theorem large_index_wraps inner b c :
  indexVector to32 to16 inner b (NewUint64 (2 ^ 64 - 1)) c = indexVector to32 to16 inner b (NewInt64 (-1)) c.
Proof. reflexivity. Qed.

(** The remainder of null and an unsigned integer panics. *)
Theorem null_remainder_panics n this vars c :
  0 < n < 2 ^ 64 -> evaluate vars this (Arithmetic Modulo (Literal NullValue) (Literal (NewUint64 n))) c = Panic.
Proof.
  intros Hn. transitivity ((lift (toUint to32 of32 to16 of16 float_to_uint (int_value Uint64 n)) ≫= fun y =>
    if y =? 0 then DivideByZero else lift Panic ≫= fun x => mret (NewUint (TPrim Uint64) (x mod y))) c); [reflexivity|].
  rewrite toUint_int_value, M_lift_l by (done || by unfold fits; cbn; lia). destruct (Z.eqb_spec n 0); [lia|]. reflexivity.
Qed.

(** A slice of bytes whose bounds are reversed panics. *)
Theorem reversed_slice_panics b from to : to < from -> slice_bytes SliceBytes b from to = Panic.
Proof.
  intros H. unfold slice_bytes, go_slice. destruct (Z.leb_spec from to); [lia|]. by rewrite andb_false_r.
Qed.
End props.

(** *** On concrete values *)

Definition demo_text {A} (_ : A) : gostring := [].
Definition demo_eval (e : Evaluator) : outcome diverge (Value * Context) :=
  eval id id id id (fun _ _ => 0) id id demo_text demo_text demo_text id [] NullValue e NewContext.
Definition value_of (m : outcome diverge (Value * Context)) : outcome diverge Value := r ← m; Ok r.1.
Definition demo_int (n : Z) : Evaluator := Literal (NewInt64 n).
Definition demo_array : Evaluator := ArrayExpr [(false, demo_int 1); (false, demo_int 2); (false, demo_int 3)].
Definition demo_mixed : Evaluator := ArrayExpr [(false, demo_int 1); (false, Literal (NewString (str "x")))].

(** [127 + 1] as [int8] is a value that an [int8] does not hold. *)
Theorem narrow_overflow :
  value_of (demo_eval (Arithmetic Add (Literal (int_value Int8 127)) (Literal (int_value Int8 1)))) = Ok (int_value Int8 128) /\
  ~ fits Int8 128.
Proof. split; [reflexivity|]. unfold fits. cbn. lia. Qed.

(** [[1,2,3][3:]] is the whole array, [[1,2,3][2:1]] is [[1]]. *)
Theorem array_slices_wrong :
  value_of (demo_eval (Slice demo_array (Some (demo_int 3)) None)) = value_of (demo_eval demo_array) /\
  value_of (demo_eval (Slice demo_array (Some (demo_int 2)) (Some (demo_int 1)))) =
    value_of (demo_eval (ArrayExpr [(false, demo_int 1)])).
Proof. by vm_compute. Qed.

(** [[...[1,"x"]]] is an array on whose elements the source panics. *)
Theorem spread_union_panics :
  demo_eval (Index (ArrayExpr [(true, demo_mixed)]) (demo_int 0)) = Panic.
Proof. by vm_compute. Qed.

(** Spreading a null record panics. *)
Theorem spread_null_panics :
  demo_eval (RecordSpread [(None, Literal (NewValue (TRecord 30 [(str "a", TPrim Int64)]) None))]) = Panic.
Proof. by vm_compute. Qed.

(** A field of a null record with a union type is a value on which arithmetic
    does not return. *)
Theorem null_union_diverges :
  demo_eval (Arithmetic Add (DotExpr (Literal (NewValue (TRecord 31 [(str "a", TUnion 30 [TPrim Int64; TPrim String])]) None)) (str "a"))
    (demo_int 1)) = Err Diverge.
Proof. by vm_compute. Qed.

Lemma integer_arithmetic_witness :
  demo_eval (Arithmetic Subtract (Literal (int_value Uint8 3)) (Literal (int_value Int16 5))) =
    Ok (int_value Int16 (-2), NewContext).
Proof.
  apply (integer_arithmetic id id id id (fun _ _ => 0) id id demo_text demo_text demo_text id
    Subtract Uint8 Int16 3 5 [] NullValue NewContext); try reflexivity; unfold fits; cbn; lia.
Defined.

(** [[b, ...a, null]] where [a] holds a string and null. *)
Definition demo_elements : list (bool * Evaluator) :=
  [(false, Literal (NewValue (TPrim Bytes) (Some [zb 7])));
   (true, Literal (NewValue (TArray 30 (TPrim String)) (Some [zb 2; zb 8; zb 0])));
   (false, Literal NullValue)].
Definition demo_values : list (ty * bytes) :=
  [(TPrim Bytes, Some [zb 7]); (TPrim String, Some [zb 8]); (TPrim String, None); (TPrim Null, None)].
Lemma array_reads_back_witness :
  exists a c1, demo_eval (ArrayExpr demo_elements) = Ok (a, c1) /\ wf c1 /\ grows NewContext c1 /\
    forall n, - 2 ^ 63 <= n < 2 ^ 63 ->
      index_value id id a (NewInt64 n) c1 =
        match pick demo_values n with Some (t, Some b) => Ok (NewValue t (Some b), c1) | _ => Missing c1 end.
Proof.
  apply (array_reads_back id id id id (fun _ _ => 0) id id demo_text demo_text demo_text id
    demo_elements demo_values [] NullValue NewContext NewContext).
  - reflexivity.
  - exact NewContext_wf.
  - unfold short, zlen. cbn. lia.
  - repeat (apply Forall_cons_2; [split_and!; try done; unfold zlen; cbn; lia|]); apply Forall_nil_2.
  - intros (i & us & Hin & _). unfold demo_values in Hin. cbn in Hin. rewrite !elem_of_cons in Hin.
    destruct Hin as [Hin|[Hin|[Hin|[Hin|Hin]]]]; try discriminate Hin. by apply elem_of_nil in Hin.
Defined.

Definition demo_fields : list field := [(str "a", TPrim Int64); (str "b", TPrim Bool)].
Definition demo_context : Context :=
  match LookupTypeRecord demo_fields NewContext with Ok (_, c) => c | _ => NewContext end.
Lemma demo_context_wf : wf demo_context /\ member demo_context (TRecord 30 demo_fields).
Proof.
  assert (Hi := LookupTypeRecord_interns NewContext NewContext_wf demo_fields).
  assert (duplicateField demo_fields = None) as Hd by reflexivity. rewrite Hd in Hi.
  destruct Hi as (u & c & E & _ & _ & Hw & _); [done|by repeat apply Forall_cons_2|by repeat apply Forall_cons_2|].
  split; [unfold demo_context; by rewrite E|]. intros _. split; [done|by vm_compute].
Qed.

Lemma demo_record_good exact : good exact id id (NewValue (TRecord 30 demo_fields) (Some [zb 2; zb 4; zb 0])) demo_context.
Proof.
  destruct demo_context_wf as [_ Hm]. split; [exact Hm|]. exists (Some [zb 4]), [zb 0]. split; [reflexivity|].
  split; [intros _; unfold fits; vm_compute; by split|]. exists None, []. by split; [reflexivity|].
Qed.
Lemma demo_int_good exact p n c : int_type p = true -> fits p n -> - 2 ^ 63 <= n < 2 ^ 64 -> good exact id id (int_value p n) c.
Proof.
  intros Hp Hf Hn. unfold int_value. destruct (signed p) eqn:Hs; apply (good_int _ _ _ _ p);
    try apply member_prim; try done; try (by destruct p); intros _; unfold fits in *; rewrite Hs in *.
  - rewrite i64_u64, i64_id; [done|]. destruct p; cbn in *; try done; lia.
  - rewrite u64_id; [done|]. destruct p; cbn in *; try done; lia.
Qed.

(** [this.a + 1 < $v or not this.b] on a record whose [b] is null, and
    [-this.a < $v or not this.b] with integers in their range. *)
Lemma eval_sound_witness :
  (exists v c', eval id id id id (fun _ _ => 0) id id demo_text demo_text demo_text id
      [int_value Uint64 9] (NewValue (TRecord 30 demo_fields) (Some [zb 2; zb 4; zb 0]))
      (Or (Compare OpLT (Arithmetic Add (DotExpr This (str "a")) (Literal (int_value Int64 1))) (Var 0)) (Not (DotExpr This (str "b"))))
      demo_context = Ok (v, c') /\ wf c' /\ grows demo_context c' /\ good false id id v c') /\
  (exists v c', eval id id id id (fun _ _ => 0) id id demo_text demo_text demo_text id
      [int_value Uint64 9] (NewValue (TRecord 30 demo_fields) (Some [zb 2; zb 4; zb 0]))
      (Or (Compare OpLT (UnaryMinus (DotExpr This (str "a"))) (Var 0)) (Not (DotExpr This (str "b"))))
      demo_context = Ok (v, c') /\ wf c' /\ grows demo_context c' /\ good true id id v c').
Proof.
  destruct demo_context_wf as [Hw _].
  assert (forall exact, Forall (fun v => good exact id id v demo_context) [int_value Uint64 9]) as Hv.
  { intros exact. apply Forall_cons_2; [|by apply Forall_nil_2]. apply demo_int_good; [done|by split|lia]. }
  split.
  - apply (eval_sound id id id id (fun _ _ => 0) id id demo_text demo_text demo_text id false);
      [exact Hw|exact (Hv false)|exact (demo_record_good false)|].
    split; [|done]. split; [|exact (le_n 1)]. split; [done|]. split; [done|]. split; [done|]. by apply demo_int_good.
  - apply (eval_sound id id id id (fun _ _ => 0) id id demo_text demo_text demo_text id true);
      [exact Hw|exact (Hv true)|exact (demo_record_good true)|].
    split; [|done]. split; [done|exact (le_n 1)].
Defined.
