(* ===== verification/Spill.v ===== *)
(** * Sorting more values than fit in memory

    [src/runtime/sam/op/spill]: a [MergeSort] sorts the values it is given by
    chunks, writes each to a file and merges the files through a heap.  A file
    is the values that are read back from it: those that were written to it,
    as their bytes (the round trip is that of ZNG streams).  The types of what is read
    belong to a context of the [MergeSort]; they are identified here with the
    types written.  That the temporary directory can be used is assumed. *)

From S2P Require Import Prelude Zcode Types Context Primitive Values Compare Heap Merge.
Local Open Scope Z_scope.

Section spill.
Context (to32 of32 to16 of16 : Z -> Z).
Local Abbreviation Compare := (Compare to32 of32 to16 of16).

(** What a value is after writing and reading it: its bytes. *)
Definition reread (v : Value) : outcome diverge Value := b ← no_error (Value_Bytes to32 to16 v); Ok (NewValue (v_type v) b).

(** A run file with the value it reads next. *)
Record peeker := mkPeeker { nextRecord : option Value; file : list Value; ordinal : nat }.

Definition newPeeker (ordinal : nat) (vals : list Value) : peeker :=
  match vals with [] => mkPeeker None [] ordinal | v :: vals => mkPeeker (Some v) vals ordinal end.
(** The value, whether the file ended, and the reader past the value. *)
Definition peeker_read (p : peeker) : option Value * bool * peeker :=
  match file p with
  | [] => (nextRecord p, true, mkPeeker None [] (ordinal p))
  | v :: vs => (nextRecord p, false, mkPeeker (Some v) vs (ordinal p))
  end.

Record MergeSort := mkMergeSort { comparator : Comparator; nspill : nat; runs : list peeker }.
Definition NewMergeSort (comparator : Comparator) : MergeSort := mkMergeSort comparator 0 [].

(** [Less] on the runs; the dereference of a missing record panics. *)
Definition run_less (c : Comparator) (p q : peeker) : outcome diverge bool :=
  match nextRecord p, nextRecord q with
  | Some v, Some w => x ← Compare c v w; Ok (if negb (x =? 0) then x <? 0 else (ordinal p <? ordinal q)%nat)
  | _, _ => Panic
  end.

Definition Spill (vals : list Value) (r : MergeSort) : outcome diverge MergeSort :=
  zr ← SortStableReader to32 of32 to16 of16 (comparator r) vals;
  zr ← mapM reread zr;
  h ← Heap.Push (run_less (comparator r)) (runs r) (newPeeker (nspill r) zr);
  Ok (mkMergeSort (comparator r) (S (nspill r)) h).

Definition Peek (r : MergeSort) : option Value := match runs r with [] => None | p :: _ => nextRecord p end.

(** [Read]; a run with nothing left is taken off and the loop goes on when it
    had no record. *)
Fixpoint Read_loop (fuel : nat) (r : MergeSort) : outcome diverge (option Value * MergeSort) :=
  match runs r with
  | [] => Ok (None, r)
  | p :: ps =>
      match fuel with
      | O => Err Diverge
      | S fuel =>
          let '(rec, eof, p) := peeker_read p in
          h ← (if eof then '(_, h) ← Heap.Pop (run_less (comparator r)) (p :: ps); Ok h
               else Heap.Fix (run_less (comparator r)) (p :: ps) 0);
          let r := mkMergeSort (comparator r) (nspill r) h in
          match rec with Some v => Ok (Some v, r) | None => Read_loop fuel r end
      end
  end.
Definition Read (r : MergeSort) : outcome diverge (option Value * MergeSort) := Read_loop (S (length (runs r))) r.

(** [zbuf.NewPuller] on it. *)
Fixpoint spill_batch (n : nat) (used : Z) (r : MergeSort) : outcome diverge (list Value * MergeSort) :=
  match n with
  | O => Ok ([], r)
  | S n' =>
      '(val, r) ← Read r;
      match val with
      | None => Ok ([], r)
      | Some val =>
          '(used, full) ← Merge.appendVal to32 to16 val used n;
          val ← reread val;
          if full : bool then Ok ([val], r) else '(vs, r) ← spill_batch n' used r; Ok (val :: vs, r)
      end
  end.

(** Reading until the end, within [fuel] reads. *)
Fixpoint read_all (fuel : nat) (r : MergeSort) : outcome diverge (list Value) :=
  match fuel with
  | O => Err Diverge
  | S fuel => '(v, r) ← Read r; match v with None => Ok [] | Some v => vs ← read_all fuel r; Ok (v :: vs) end
  end.
End spill.
