(* ===== verification/SpillProofs.v ===== *)
(** * Sorting by files is sorting

    Values that a [MergeSort] was given in chunks are read back as the stable
    sort of all of them. *)

From S2P Require Import Prelude Zcode Types Context Interning Primitive Values Compare CompareProofs Heap Merge Spill.
Local Open Scope Z_scope.

(** What a comparator promises on good values: it returns what the total
    preorder [c] says, and sorting by it is the stable sort. *)
Class SortOrder (to32 of32 to16 of16 : Z -> Z) (k : Comparator) (c : Value -> Value -> Z) (good : Value -> Prop) : Prop := {
  so_cmp v w : good v -> good w -> Compare to32 of32 to16 of16 k v w = Ok (c v w);
  so_sort vals : Forall good vals -> SortStable to32 of32 to16 of16 k vals = Ok (stable_sort (cmp_lt c) vals);
  so_reader vals : Forall good vals -> SortStableReader to32 of32 to16 of16 k vals = Ok (stable_sort (cmp_lt c) vals);
  so_raw v : good v -> reread to32 to16 v = Ok v;
  so_antisym v w : c w v = - c v w;
  so_trans u v w : c u v <= 0 -> c v w <= 0 -> c u w <= 0 }.

(** The keys of a comparator, on values as they are read from a file. *)
Definition raw (v : Value) : Prop := exists b, v_repr v = Raw b.
Lemma sort_order (to32 of32 to16 of16 : Z -> Z) (c : Context) (k : Comparator) :
  wf c -> exprs k <> [] ->
  SortOrder to32 of32 to16 of16 k (compare_keys to32 to16 (nullsMax k) (exprs k))
    (fun v => sortable_by to32 to16 (nullsMax k) c (exprs k) v /\ raw v).
Proof.
  intros Hc Hne. split.
  - intros v w [Hv _] [Hw _]. by apply (Compare_loop_key _ _ _ _ _ c Hc).
  - intros vals [Hv _]%Forall_and. by apply (SortStable_eq _ _ _ _ _ c Hc).
  - intros vals [Hv _]%Forall_and. by apply (SortStableReader_eq _ _ _ _ _ c Hc).
  - intros [t r] [_ [b Hb]]. cbn in Hb. by subst r.
  - intros v w. apply compare_keys_antisym.
  - intros u v w. apply compare_keys_trans.
Qed.

Section stable.
Context {A : Type} (c : A -> A -> Z).
Context (Hanti : forall v w, c w v = - c v w) (Htrans : forall u v w, c u v <= 0 -> c v w <= 0 -> c u w <= 0).
Local Abbreviation le := (fun v w => c v w <= 0).
Local Abbreviation sort := (stable_sort (cmp_lt c)).

(** A sorted list that keeps the order of equal elements is the stable sort. *)
Lemma stable_unique l : forall k,
  StronglySorted le l -> StronglySorted le k -> l ≡ₚ k ->
  (forall v, List.filter (fun w => c v w =? 0) l = List.filter (fun w => c v w =? 0) k) -> l = k.
Proof.
  induction l as [|x l IH]; intros k Hl Hk Hp Hf; [by apply Permutation_nil_l in Hp|].
  destruct k as [|y k]; [by apply Permutation_sym, Permutation_nil_cons in Hp|].
  apply StronglySorted_inv in Hl as [Hl Hx]. apply StronglySorted_inv in Hk as [Hk Hy].
  assert (Hxx : forall z, c z z = 0) by (intros z; pose proof (Hanti z z); lia).
  assert (x = y) as ->.
  { assert (Hxy : c x y <= 0).
    { assert (Hin : y ∈ x :: l) by (rewrite Hp; left). apply elem_of_cons in Hin as [->|Hin]; [by rewrite Hxx|].
      rewrite Forall_forall in Hx. by apply Hx. }
    assert (Hyx : c y x <= 0).
    { assert (Hin : x ∈ y :: k) by (rewrite <- Hp; left). apply elem_of_cons in Hin as [->|Hin]; [by rewrite Hxx|].
      rewrite Forall_forall in Hy. by apply Hy. }
    assert (E : c x y = 0) by (rewrite (Hanti x y) in Hyx; lia).
    specialize (Hf x). cbn in Hf. rewrite Hxx, E in Hf. by injection Hf. }
  f_equal. apply IH; [done..|by apply Permutation_cons_inv in Hp|].
  intros v. specialize (Hf v). cbn in Hf. destruct (c v y =? 0); [by injection Hf|done].
Qed.

Lemma sort_sorted l : StronglySorted le (sort l).
Proof. apply (stable_sort_sorted c (fun _ => True)); [done|by intros; eapply Htrans|by apply Forall_true]. Qed.

(** The first of the least elements comes first. *)
Lemma sort_take a v b :
  Forall (fun w => 0 < c w v) a -> Forall (fun w => c v w <= 0) b -> sort (a ++ v :: b) = v :: sort (a ++ b).
Proof.
  intros Ha Hb. apply stable_unique.
  - apply sort_sorted.
  - constructor; [apply sort_sorted|]. rewrite stable_sort_perm. apply Forall_app. split; [|done].
    eapply Forall_impl; [exact Ha|]. intros w Hw. cbn in *. pose proof (Hanti w v). lia.
  - rewrite stable_sort_perm. by rewrite <- Permutation_middle, stable_sort_perm.
  - intros w. cbn [List.filter]. rewrite !stable_sort_stable by done. rewrite !List.filter_app. cbn [List.filter].
    destruct (Z.eqb_spec (c w v) 0) as [E|]; [|done].
    assert (List.filter (fun x => c w x =? 0) a = []) as ->; [|done].
    induction Ha as [|x a Hx Ha IH]; [done|]. cbn [List.filter]. destruct (Z.eqb_spec (c w x) 0) as [E2|]; [|done].
    pose proof (Htrans x w v). rewrite (Hanti w x) in *. lia.
Qed.

(** Sorting parts first does not show. *)
Lemma sort_parts ls : sort (concat (map sort ls)) = sort (concat ls).
Proof.
  apply stable_unique; try apply sort_sorted.
  - rewrite !stable_sort_perm. induction ls as [|l ls IH]; [done|]. cbn. by rewrite IH, stable_sort_perm.
  - intros v. rewrite !stable_sort_stable by done. induction ls as [|l ls IH]; [done|]. cbn.
    by rewrite !List.filter_app, IH, stable_sort_stable.
Qed.
End stable.

Section proofs.
Context {to32 of32 to16 of16 : Z -> Z} {k : Comparator} {c : Value -> Value -> Z} {good : Value -> Prop}
  `{SO : !SortOrder to32 of32 to16 of16 k c good}.
Local Abbreviation run_less := (run_less to32 of32 to16 of16 k).
Local Abbreviation sort := (stable_sort (cmp_lt c)).
Implicit Types (p q : peeker) (h : list peeker) (ss : list (list Value)).

Lemma order_antisym v w : c w v = - c v w.
Proof. apply (so_antisym (SortOrder := SO)). Qed.
Lemma order_trans u v w : c u v <= 0 -> c v w <= 0 -> c u w <= 0.
Proof. apply (so_trans (SortOrder := SO)). Qed.

Definition ascending (s : list Value) : Prop := StronglySorted (fun v w => c v w <= 0) s /\ Forall good s.
Definition run_good p : Prop := exists v, nextRecord p = Some v /\ good v.
Definition before (i j : nat) (v w : Value) : Prop := c v w < 0 \/ c v w = 0 /\ (i <= j)%nat.
Definition run_le p q : Prop := forall v w, nextRecord p = Some v -> nextRecord q = Some w -> before (ordinal p) (ordinal q) v w.

#[export] Instance run_less_spec : LessSpec run_less run_good run_le.
Proof.
  split.
  - intros p q (v & Hv & Gv) (w & Hw & Gw). unfold Spill.run_less. rewrite Hv, Hw.
    rewrite (so_cmp (SortOrder := SO) v w) by done. cbn [mbind outcome_bind obind]. unfold run_le, before.
    rewrite Hv, Hw. pose proof (order_antisym v w) as Ha.
    destruct (Z.eqb_spec (c v w) 0) as [E|E]; cbn [negb].
    + destruct (Nat.ltb_spec (ordinal p) (ordinal q)); [left|right]; (split; [done|]); intros ?? [= <-] [= <-]; lia.
    + destruct (Z.ltb_spec (c v w) 0); [left|right]; (split; [done|]); intros ?? [= <-] [= <-]; lia.
  - intros p q r (v & Hv & _) (w & Hw & _) (x & Hx & _) H1 H2 v' x' Hv' Hx'. rewrite Hv in Hv'. injection Hv' as <-.
    rewrite Hx in Hx'. injection Hx' as <-. specialize (H1 v w Hv Hw). specialize (H2 w x Hw Hx). unfold before in *.
    pose proof (order_trans v w x). pose proof (order_trans x v w). rewrite (order_antisym v x) in *. pose proof (order_trans w x v).
    rewrite (order_antisym v x), (order_antisym w x), (order_antisym v w) in *. lia.
Qed.

(** The runs of the chunks that have something left. *)
Fixpoint live (n : nat) ss : list peeker :=
  match ss with
  | [] => []
  | s :: ss => match s with [] => [] | v :: vs => [mkPeeker (Some v) vs n] end ++ live (S n) ss
  end.
Record holds (r : MergeSort) ss : Prop := {
  holds_cmp : comparator r = k;
  holds_nspill : nspill r = length ss;
  holds_heap : is_heap (le := run_le) (runs r);
  holds_runs : runs r ≡ₚ live 0 ss;
  holds_chunks : Forall ascending ss }.

Lemma live_app n ss s : live n (ss ++ [s]) = live n ss ++ live (n + length ss) [s].
Proof.
  revert n. induction ss as [|t ss IH]; intros n; cbn [app live length]; [by rewrite Nat.add_0_r|].
  rewrite IH, <- app_assoc. by replace (n + S (length ss))%nat with (S n + length ss)%nat by lia.
Qed.
Lemma live_elem ss : forall n p, p ∈ live n ss -> exists i v vs, ss !! i = Some (v :: vs) /\ p = mkPeeker (Some v) vs (n + i).
Proof.
  induction ss as [|s ss IH]; intros n p Hp; cbn [live] in Hp; [by apply not_elem_of_nil in Hp|].
  apply elem_of_app in Hp as [Hp|Hp].
  - destruct s as [|v vs]; [by apply not_elem_of_nil in Hp|]. apply list_elem_of_singleton in Hp as ->.
    exists 0%nat, v, vs. by rewrite Nat.add_0_r.
  - destruct (IH _ _ Hp) as (i & v & vs & Hi & ->). exists (S i), v, vs. split; [done|]. f_equal. lia.
Qed.
Lemma live_lookup ss i v vs n : ss !! i = Some (v :: vs) ->
  exists l r, live n ss = l ++ mkPeeker (Some v) vs (n + i) :: r /\
    forall s', live n (<[i := s']> ss) = l ++ live (n + i) [s'] ++ r.
Proof.
  revert n i. induction ss as [|s ss IH]; intros n [|i] Hi; try done.
  - injection Hi as ->. exists [], (live (S n) ss). rewrite Nat.add_0_r. split; [done|]. intros s'. cbn [list_insert live app].
    by rewrite app_nil_r.
  - destruct (IH (S n) i Hi) as (l & r & E & Es). cbn [live]. exists (match s with [] => [] | v :: vs => [mkPeeker (Some v) vs n] end ++ l), r.
    rewrite E, <- app_assoc. replace (n + S i)%nat with (S n + i)%nat by lia. split; [done|].
    intros s'. change (<[S i:=s']> (s :: ss)) with (s :: <[i:=s']> ss). cbn [live]. by rewrite Es, <- app_assoc.
Qed.

Lemma holds_good r ss : holds r ss -> Forall run_good (runs r).
Proof.
  intros [_ _ _ Hr Hc]. rewrite Hr. apply Forall_forall. intros p Hp. apply live_elem in Hp as (i & v & vs & Hi & ->).
  exists v. split; [done|]. rewrite Forall_lookup in Hc. destruct (Hc i _ Hi) as [_ Hg]. by apply Forall_cons in Hg as [? _].
Qed.

Lemma ascending_sort vals : Forall good vals -> ascending (sort vals).
Proof. intros Hg. split; [apply sort_sorted; [exact order_antisym|exact order_trans]|by rewrite stable_sort_perm]. Qed.

Lemma reread_all vals : Forall good vals -> mapM (reread to32 to16) vals = Ok vals.
Proof.
  induction 1 as [|v vals Hv _ IH]; [done|]. cbn [mapM]. rewrite (so_raw (SortOrder := SO) v Hv). cbn [mbind outcome_bind obind].
  by rewrite IH.
Qed.

(** Good values have bytes, so that they go into a batch. *)
Lemma so_bytes v : good v -> exists b, Value_Bytes to32 to16 v = Ok b.
Proof.
  intros Hv. pose proof (so_raw (SortOrder := SO) v Hv) as H. unfold reread, no_error in H.
  destruct (Value_Bytes to32 to16 v) as [b| |]; [by exists b|done|done].
Qed.
Lemma appendVal_good v used n : good v -> exists r, Merge.appendVal (E := diverge) to32 to16 v used n = Ok r.
Proof.
  intros Hv. destruct (so_bytes v Hv) as [b Hb]. unfold Merge.appendVal. rewrite Hb. cbn [omap_err mbind outcome_bind obind].
  destruct b as [b|]; [destruct (zlen b <=? _)|]; eauto.
Qed.

Lemma NewMergeSort_holds : holds (NewMergeSort k) [].
Proof. by split. Qed.

Lemma Spill_spec r ss vals :
  holds r ss -> vals <> [] -> Forall good vals ->
  exists r', Spill to32 of32 to16 of16 vals r = Ok r' /\ holds r' (ss ++ [sort vals]).
Proof.
  intros Hh Hne Hg. pose proof (holds_good r ss Hh) as Hgood. destruct Hh as [Hc Hn Hheap Hr Hch].
  unfold Spill. rewrite Hc, (so_reader (SortOrder := SO) vals Hg). cbn [mbind outcome_bind obind].
  pose proof (ascending_sort vals Hg) as Hs. rewrite (reread_all (sort vals)) by apply Hs. cbn [mbind outcome_bind obind].
  destruct (sort vals) as [|v vs] eqn:Es; [by apply (f_equal length) in Es; rewrite length_stable_sort in Es; destruct vals|].
  destruct (Push_spec (lt := run_less) (runs r) (newPeeker (nspill r) (v :: vs)) Hgood) as (h & E & Hp & Hh'); [|done|].
  { exists v. split; [done|]. destruct Hs as [_ Hs]. by apply Forall_cons in Hs as [? _]. }
  rewrite E. cbn [mbind outcome_bind obind]. eexists. split; [done|]. split; cbn [comparator nspill runs].
  - done.
  - rewrite length_app. cbn. lia.
  - done.
  - rewrite Hp, live_app, Hr. cbn [live app length Nat.add]. rewrite Hn. cbn [newPeeker]. by rewrite Permutation_cons_append.
  - apply Forall_app. split; [done|]. by apply Forall_singleton.
Qed.

(** What is read next is the first of the least values. *)
Lemma Read_next r ss :
  holds r ss ->
  (runs r = [] /\ Read to32 of32 to16 of16 r = Ok (None, r) /\ concat ss = []) \/
  (exists r' v ss', Read to32 of32 to16 of16 r = Ok (Some v, r') /\ holds r' ss' /\ Peek r = Some v /\
     sort (concat ss) = v :: sort (concat ss') /\ length (concat ss) = S (length (concat ss')) /\ good v).
Proof.
  intros Hh. pose proof (holds_good r ss Hh) as Hgood. destruct Hh as [Hc Hn Hheap Hr Hch].
  unfold Read. destruct (runs r) as [|p h] eqn:Eh.
  { left. split_and!; [done|cbn [Read_loop length]; by rewrite Eh|]. apply Permutation_nil_l in Hr. clear -Hr. revert Hr. generalize 0%nat.
    induction ss as [|s ss IH]; intros n Hr; [done|]. cbn in *. symmetry in Hr. apply app_nil in Hr as [H1 H2]. destruct s; [|done].
    by apply (IH (S n)). }
  right. cbn [Read_loop length]. rewrite Eh.
  assert (Hp : p ∈ live 0 ss) by (rewrite <- Hr; left). apply live_elem in Hp as (i & v & vs & Hi & Ep). cbn in Ep.
  destruct (live_lookup ss i v vs 0 Hi) as (l & l' & El & Els). cbn [Nat.add] in El, Els. rewrite <- Ep in El.
  assert (Hh : h ≡ₚ l ++ l') by (apply (Permutation_cons_inv (a := p)); by rewrite Hr, El, Permutation_middle).
  assert (Hs : ascending (v :: vs)) by (rewrite Forall_lookup in Hch; by eapply Hch).
  destruct Hs as [Hs Hgs]. apply StronglySorted_inv in Hs as [Hs Hv]. apply Forall_cons in Hgs as [Gv Gs].
  apply Forall_cons in Hgood as [Gp Gh].
  assert (Hmin : forall j w ws, ss !! j = Some (w :: ws) -> before i j v w).
  { intros j w ws Hj. destruct (live_lookup ss j w ws 0 Hj) as (lj & rj & Elj & _).
    assert (Hin : mkPeeker (Some w) ws j ∈ p :: h) by (rewrite Hr, Elj; set_solver).
    assert (Hle : run_le p (mkPeeker (Some w) ws j)).
    { apply (heap_min (lt := run_less) (p :: h)); [by constructor|done|done|done]. }
    subst p. by apply (Hle v w). }
  assert (Hsort : sort (concat ss) = v :: sort (concat (<[i := vs]> ss)) /\ length (concat ss) = S (length (concat (<[i := vs]> ss)))).
  { pose proof (take_drop_middle ss i _ Hi) as Em. pose proof (lookup_lt_Some _ _ _ Hi).
    rewrite <- Em at 1 3. rewrite insert_take_drop by done. rewrite !concat_app. cbn [concat app].
    split; [|rewrite !length_app; cbn; rewrite ?length_app; lia].
    apply sort_take; [exact order_antisym|exact order_trans| |].
    - apply Forall_concat, Forall_forall. intros s Hin. apply list_elem_of_lookup in Hin as [j Hj].
      apply lookup_take_Some in Hj as [Hj Hlt]. rewrite Forall_lookup in Hch. destruct (Hch j s Hj) as [Hss _].
      destruct s as [|w ws]; [constructor|]. specialize (Hmin j w ws Hj). unfold before in Hmin.
      assert (Hvw : c v w < 0) by lia. apply StronglySorted_inv in Hss as [_ Hws].
      constructor; [rewrite (order_antisym v w); lia|]. eapply Forall_impl; [exact Hws|]. intros x Hx. cbn in Hx.
      pose proof (order_trans w x v) as Ht. rewrite (order_antisym v w) in Ht. lia.
    - apply Forall_app. split; [done|]. apply Forall_concat, Forall_forall. intros s Hin. apply list_elem_of_lookup in Hin as [j Hj].
      rewrite lookup_drop in Hj. rewrite Forall_lookup in Hch. destruct (Hch _ s Hj) as [Hss _].
      destruct s as [|w ws]; [constructor|]. specialize (Hmin _ w ws Hj). unfold before in Hmin.
      assert (Hvw : c v w <= 0) by lia. apply StronglySorted_inv in Hss as [_ Hws]. constructor; [done|].
      eapply Forall_impl; [exact Hws|]. intros x Hx. cbn in Hx. by apply (order_trans v w x). }
  assert (Hchunks : Forall ascending (<[i := vs]> ss)) by (apply Forall_insert; [done|by split]).
  assert (Hpeek : Peek r = Some v) by (unfold Peek; by rewrite Eh, Ep).
  assert (Hedge : forall p' j, (0 < j < S (length h))%nat -> (0 < par j)%nat -> edge (le := run_le) (p' :: h) j).
  { intros p' j Hj Hpj x y Hx Hy. destruct j as [|j]; [lia|]. destruct (par (S j)) as [|q] eqn:Eq; [lia|].
    apply (Hheap (S j)); [cbn; lia|done|by rewrite Eq]. }
  unfold peeker_read. rewrite Ep. cbn [file nextRecord ordinal]. destruct vs as [|w vs].
  - rewrite Hc. destruct (Pop_spec (lt := run_less) (mkPeeker None [] i) h Gh) as (h' & E & Hp' & Hh'); [intros j Hj Hpj; apply Hedge; lia|].
    rewrite E. cbn [mbind outcome_bind obind]. eexists _, v, (<[i := []]> ss). split; [done|]. split_and!; try done; try apply Hsort.
    split; cbn [comparator nspill runs]; [done|by rewrite length_insert|done| |done].
    by rewrite Hp', Hh, Els.
  - rewrite Hc. destruct (Fix_spec (lt := run_less) (mkPeeker (Some w) vs i :: h)) as (h' & E & Hp' & Hh'); [|done|intros j Hj Hpj; by apply Hedge|].
    { constructor; [|done]. exists w. split; [done|]. by apply Forall_cons in Gs as [? _]. }
    rewrite E. cbn [mbind outcome_bind obind]. eexists _, v, (<[i := w :: vs]> ss). split; [done|]. split_and!; try done; try apply Hsort.
    split; cbn [comparator nspill runs]; [done|by rewrite length_insert|done| |done].
    rewrite Hp', Hh, Els. cbn [live app]. by rewrite Permutation_middle.
Qed.

(** A batch of the values that come next; there is none at the end. *)
Lemma spill_batch_spec n : forall used r ss, holds r ss ->
  exists vs r' ss', spill_batch to32 of32 to16 of16 n used r = Ok (vs, r') /\ holds r' ss' /\
    sort (concat ss) = vs ++ sort (concat ss') /\ (n <> 0%nat -> vs = [] -> concat ss' = []).
Proof.
  induction n as [|n IH]; intros used r ss Hh; [by exists [], r, ss|]. cbn [spill_batch].
  destruct (Read_next r ss Hh) as [(_ & -> & Hss)|(r' & v & ss' & -> & Hh' & _ & -> & _ & Hv)]; [by exists [], r, ss|].
  cbn [mbind outcome_bind obind]. destruct (appendVal_good v used (S n) Hv) as [[used' full] ->]. cbn [mbind outcome_bind obind].
  rewrite (so_raw (SortOrder := SO) v Hv). cbn [mbind outcome_bind obind]. destruct full.
  - by exists [v], r', ss'.
  - destruct (IH used' r' ss' Hh') as (vs & r2 & ss2 & -> & Hh2 & -> & _). by exists (v :: vs), r2, ss2.
Qed.

(** Reading until the end. *)
Lemma read_all_sorted fuel : forall r ss, holds r ss -> (length (concat ss) < fuel)%nat ->
  read_all to32 of32 to16 of16 fuel r = Ok (sort (concat ss)).
Proof.
  induction fuel as [|fuel IH]; intros r ss Hh Hf; [lia|]. cbn [read_all].
  destruct (Read_next r ss Hh) as [(_ & -> & ->)|(r' & v & ss' & -> & Hh' & _ & -> & Hl & _)]; [done|].
  cbn [mbind outcome_bind obind]. rewrite (IH r' ss' Hh') by lia. done.
Qed.
End proofs.
