(* ===== verification/Ops.v ===== *)
(** * Sequential operators

    The operators of [src/runtime/sam/op] that transform one stream: head, tail,
    uniq, top, sort, yield and the application of an expression.  An operator is
    pulled: it answers with a batch of values or the end of the stream, after
    which it starts over on the next stream; pulled with [done] it abandons the
    current stream.  An operator is a function of its parent's [Pull], on its
    own state next to its parent's.

    An error of the parent is returned.  The goroutine of sort hands over one
    result after the other, so its state is where the loop of [run] stands.
    Reference counts and cancellation are left out; so are the variables of a
    batch. *)

From S2P Require Import Prelude Zcode Types Context Primitive Values Compare Expr Heap Spill.
Local Open Scope Z_scope.

Section ops.
Context {E : Type} (hang : E) (to32 of32 to16 of16 : Z -> Z).

Definition batch : Type := list Value.
Definition Puller (S : Type) : Type := bool -> stm S E (option batch).

(** A loop that is still running when its fuel ends is [hang]. *)
Definition running {A} (m : outcome diverge A) : outcome E A := omap_err (fun _ => hang) m.

(** A source with the batches of its streams, one stream after the other. *)
Definition Source : Type := list (list batch).
Definition source_Pull : Puller Source := fun done s =>
  match s with
  | [] => (Ok None, [])
  | bs :: ss =>
      if done then (Ok None, ss)
      else match bs with [] => (Ok None, ss) | b :: bs => (Ok (Some b), bs :: ss) end
  end.

Section operator.
Context {P : Type} (parent : Puller P).

(** The parent's pull, next to an operator's own state. *)
Definition up {S} (done : bool) : stm (S * P) E (option batch) := fun s =>
  let '(r, p) := parent done s.2 in (r, (s.1, p)).
Definition own {S} : stm (S * P) E S := fun s => (Ok s.1, s).
Definition set_own {S} (o : S) : stm (S * P) E unit := fun s => (Ok tt, (o, s.2)).
(** ** Head

    Below the limit something is left to return, so that a batch never has to
    be skipped. *)
Definition head_Pull (limit : Z) : Puller (Z * P) := fun done =>
  count ← own;
  if limit <=? count then set_own 0;; mret None
  else if done then
    b ← up true;
    match b with Some _ => fault | None => set_own 0;; mret None end
  else
    fun s =>
      match up false s with
      | (Ok (Some vals), s) =>
          let remaining := limit - count in
          if zlen vals <? remaining then (set_own (count + zlen vals);; mret (Some vals)) s
          else (_ ← up true; set_own limit;; mret (Some (take (Z.to_nat remaining) vals))) s
      | (Ok None, s) => (set_own 0;; mret None) s
      | (Err e, s) => (set_own 0;; throw e) s
      | (Panic, s) => (Panic, s)
      end.

(** ** Tail *)

Record Tail := mkTail { batches : list batch; eos : bool }.
(** Batches the last [limit] values do not need. *)
Fixpoint drop_batches (limit n : Z) (bs : list batch) : list batch * Z :=
  match bs with
  | [] => ([], n)
  | b :: bs' => if limit <=? n - zlen b then drop_batches limit (n - zlen b) bs' else (bs, n)
  end.
Fixpoint tail_loop (fuel : nat) (limit n : Z) (bs : list batch) : stm (Tail * P) E (list batch * Z) :=
  match fuel with
  | O => throw hang
  | S fuel =>
      b ← up false;
      match b with
      | None => mret (bs, n)
      | Some b => let '(bs, n) := drop_batches limit (n + zlen b) (bs ++ [b]) in tail_loop fuel limit n bs
      end
  end.
Definition tail (fuel : nat) (limit : Z) : stm (Tail * P) E (list batch) :=
  '(bs, n) ← tail_loop fuel limit 0 [];
  if limit <? n then
    match bs with
    | [] => fault
    | b :: bs => if zlen b <? n - limit then fault else mret (drop (Z.to_nat (n - limit)) b :: bs)
    end
  else mret bs.
Definition next_batch (bs : list batch) : stm (Tail * P) E (option batch) :=
  match bs with
  | [] => fault
  | b :: bs => set_own (mkTail bs (match bs with [] => true | _ => false end));; mret (Some b)
  end.
Definition tail_Pull (fuel : nat) (limit : Z) : Puller (Tail * P) := fun done =>
  o ← own;
  if eos o then set_own (mkTail [] false);; mret None
  else if done then set_own (mkTail [] false);; up true
  else
    match batches o with
    | [] => bs ← tail fuel limit; match bs with [] => mret None | _ => next_batch bs end
    | bs => next_batch bs
    end.

(** ** Uniq *)

Record Uniq := mkUniq { cflag : bool; u_count : Z; u_last : option Value; u_zctx : Context }.
Definition val_bytes (v : Value) : outcome E bytes := running (val_bytes_ to32 to16 v).
(** A computation on the context of the operator. *)
Definition in_context {A} (m : M A) : stm (Uniq * P) E A := fun s =>
  let o := s.1 in
  match m (u_zctx o) with
  | Ok (a, c) => (Ok a, (mkUniq (cflag o) (u_count o) (u_last o) c, s.2))
  | Err _ => (Err hang, s)
  | Panic => (Panic, s)
  end.
Definition set_last (last : option Value) (count : Z) : stm (Uniq * P) E unit :=
  o ← own; set_own (mkUniq (cflag o) count last (u_zctx o)).

Definition wrap (t : Value) : stm (Uniq * P) E Value :=
  o ← own;
  if cflag o then
    b ← lift_out (val_bytes t);
    n ← lift_out (running (no_error (EncodeUint (u_count o))));
    typ ← in_context (MustLookupTypeRecord [(str "value", v_type t); (str "count", TPrim Uint64)]);
    b ← lift_out (running (no_error (Bytes_ (BAppend (BAppend NewBuilder b) n))));
    mret (NewValue typ b)
  else mret t.

Definition appendUniq (out : list Value) (t : Value) : stm (Uniq * P) E (list Value) :=
  o ← own;
  if u_count o =? 0 then set_last (Some t) 1;; mret out
  else
    b ← lift_out (val_bytes t);
    match u_last o with
    | None => fault
    | Some last =>
        c ← lift_out (val_bytes last);
        if decide (default [] b = default [] c) then set_last (Some last) (u64 (u_count o + 1));; mret out
        else w ← wrap last; set_last (Some t) 1;; mret (out ++ [w])
    end.
Fixpoint append_uniqs (out : list Value) (vals : list Value) : stm (Uniq * P) E (list Value) :=
  match vals with [] => mret out | v :: vals => out ← appendUniq out v; append_uniqs out vals end.
Fixpoint uniq_loop (fuel : nat) (done : bool) : stm (Uniq * P) E (option batch) :=
  match fuel with
  | O => throw hang
  | S fuel =>
      b ← up done;
      match b with
      | None =>
          o ← own;
          match u_last o with
          | None => mret None
          | Some last =>
              t ← wrap last;
              o ← own; set_own (mkUniq (cflag o) (u_count o) None (u_zctx o));;
              mret (Some [t])
          end
      | Some vals =>
          out ← append_uniqs [] vals;
          match out with [] => uniq_loop fuel done | _ => mret (Some out) end
      end
  end.
Definition uniq_Pull (fuel : nat) : Puller (Uniq * P) := fun done => uniq_loop fuel done.

(** ** Yield and the application of an expression

    The evaluators are given by what they return; resetting those that
    aggregate is left out. *)

Definition yield_values (exprs : list (Value -> Value)) (v : Value) : outcome E (list Value) :=
  foldr (fun e m =>
    q ← running (no_error (IsQuiet to32 to16 (e v)));
    vs ← m; Ok (if q : bool then vs else e v :: vs)) (Ok []) exprs.
Definition apply_values (e : Value -> Value) (v : Value) : outcome E (list Value) :=
  if IsError (e v) then
    q ← running (no_error (IsQuiet to32 to16 (e v)));
    m ← running (no_error (IsMissing to32 to16 (Some (e v))));
    Ok (if (q : bool) || (m : bool) then [] else [e v])
  else Ok [e v].
Fixpoint all_values (f : Value -> outcome E (list Value)) (vals : list Value) : outcome E (list Value) :=
  match vals with [] => Ok [] | v :: vals => vs ← f v; ws ← all_values f vals; Ok (vs ++ ws) end.
Fixpoint map_loop (f : Value -> outcome E (list Value)) (fuel : nat) (done : bool) : stm (unit * P) E (option batch) :=
  match fuel with
  | O => throw hang
  | S fuel =>
      b ← up done;
      match b with
      | None => mret None
      | Some vals =>
          out ← lift_out (all_values f vals);
          match out with [] => map_loop f fuel done | _ => mret (Some out) end
      end
  end.
Definition yield_Pull (exprs : list (Value -> Value)) (fuel : nat) : Puller (unit * P) := map_loop (yield_values exprs) fuel.
Definition apply_Pull (e : Value -> Value) (fuel : nat) : Puller (unit * P) := map_loop (apply_values e) fuel.

(** ** Guessing a sort key *)

(** [firstMatchingField] on the record type that a type is, if it is one. *)
Fixpoint firstMatchingField (pred : Z -> bool) (t : ty) : option (list gostring) :=
  match t with
  | TNamed _ _ t => firstMatchingField pred t
  | TRecord _ fs =>
      (fix go (fs : list field) :=
         match fs with
         | [] => None
         | f :: fs =>
             if pred (ID f.2) then Some [f.1]
             else match firstMatchingField pred f.2 with Some ff => Some (f.1 :: ff) | None => go fs end
         end) fs
  | _ => None
  end.
Definition orelse_path (a b : option (list gostring)) : option (list gostring) := match a with Some _ => a | None => b end.
Definition GuessSortKey (val : Value) : list gostring :=
  let t := v_type val in
  match TypeRecordOf t with
  | None => []
  | Some _ =>
      default [str "ts"]
        (orelse_path (firstMatchingField IsInteger t)
        (orelse_path (firstMatchingField IsFloat t)
                     (firstMatchingField (fun id => negb (id =? primitive_id Time)) t)))
  end.

(** The evaluator of [NewDottedExpr]. *)
Context (dotted : list gostring -> Value -> Value).

(** ** Top *)

(** The heap of records with its comparison ([expr.RecordSlice]). *)
Record Top := mkTop { fields : option (list (Value -> Value)); records : option (Comparator * list Value) }.
Definition record_less (k : Comparator) (v w : Value) : outcome E bool :=
  x ← running (Compare.Compare to32 of32 to16 of16 k v w); Ok (x <? 0).

Definition consume (limit : nat) (rec : Value) (o : Top) : outcome E Top :=
  let fs := match fields o with Some fs => fs | None => [dotted (GuessSortKey rec)] end in
  let '(k, h) := match records o with Some kh => kh | None => (NewCompareFn to32 to16 false fs, []) end in
  push ← (if (length h <? limit)%nat then Ok true
          else match h with [] => Panic | v :: _ => record_less k v rec end);
  h ← (if push : bool then Heap.Push (record_less k) h rec else Ok h);
  h ← (if (limit <? length h)%nat then '(_, h) ← Heap.Pop (record_less k) h; Ok h else Ok h);
  Ok (mkTop (Some fs) (Some (k, h))).
Fixpoint consume_all (limit : nat) (vals : list Value) (o : Top) : outcome E Top :=
  match vals with [] => Ok o | v :: vals => o ← consume limit v o; consume_all limit vals o end.

(** The records are popped into the result from its end. *)
Fixpoint pop_all (k : Comparator) (n : nat) (h out : list Value) : outcome E (list Value) :=
  match n with
  | O => Ok out
  | S n => '(x, h) ← Heap.Pop (record_less k) h; pop_all k n h (x :: out)
  end.
Definition sorted : stm (Top * P) E (option batch) :=
  o ← own;
  match records o with
  | None => mret None
  | Some (k, h) => out ← lift_out (pop_all k (length h) h []); set_own (mkTop (fields o) None);; mret (Some out)
  end.
Fixpoint top_loop (limit : nat) (flushEvery : bool) (fuel : nat) (done : bool) : stm (Top * P) E (option batch) :=
  match fuel with
  | O => throw hang
  | S fuel =>
      b ← up done;
      match b with
      | None => sorted
      | Some vals =>
          o ← own;
          o ← lift_out (consume_all limit vals o);
          set_own o;;
          if flushEvery then sorted else top_loop limit flushEvery fuel done
      end
  end.
Definition defaultTopLimit : nat := 100.
Definition NewTop (fs : option (list (Value -> Value))) : Top := mkTop fs None.
Definition top_Pull (limit : nat) (flushEvery : bool) (fuel : nat) : Puller (Top * P) :=
  top_loop (if (limit =? 0)%nat then defaultTopLimit else limit) flushEvery fuel.

(** ** Sort *)

(** Where the loop of [run] stands: reading its input, having sent what it
    sorted, or sending what the files hold. *)
Inductive stage := Gathering | Sent | Merging.
Record Sort := mkSort {
  sort_comparator : option Comparator; nbytes : Z; out : list Value; spiller : option MergeSort; at_ : stage }.
Definition NewSort : Sort := mkSort None 0 [] None Gathering.

Definition setComparator (fieldResolvers : option (list SortEvaluator)) (nullsFirst reverse : bool) (r : Value) : outcome E Comparator :=
  let resolvers := match fieldResolvers with Some rs => rs | None => [mkSortEvaluator (dotted (GuessSortKey r)) false] end in
  let resolvers := if reverse then map (fun k => mkSortEvaluator (Eval_ k) (negb (desc k))) resolvers else resolvers in
  match resolvers with
  | [] => Panic
  | k :: _ =>
      let nm := if desc k then nullsFirst else negb nullsFirst in
      Ok (WithMissingAsNull to32 to16 (NewComparator nm resolvers))
  end.

(** [MemMaxBytes], which can be set. *)
Context (MemMaxBytes : Z).
Context (fieldResolvers : option (list SortEvaluator)) (nullsFirst reverse : bool).

Fixpoint batch_bytes (vals : list Value) : outcome E Z :=
  match vals with [] => Ok 0 | v :: vals => b ← val_bytes v; n ← batch_bytes vals; Ok (zlen (default [] b) + n) end.
Definition spill_out (o : Sort) : outcome E Sort :=
  match sort_comparator o with
  | None => Panic
  | Some k =>
      r ← running (Spill to32 of32 to16 of16 (out o) (match spiller o with Some r => r | None => NewMergeSort k end));
      Ok (mkSort (Some k) 0 [] (Some r) (at_ o))
  end.
(** A batch is taken in; the files take over when the memory is full. *)
Definition gather (vals : list Value) (o : Sort) : outcome E Sort :=
  delta ← batch_bytes vals;
  let out := out o ++ vals in
  k ← match sort_comparator o, out with
      | None, v :: _ => k ← setComparator fieldResolvers nullsFirst reverse v; Ok (Some k)
      | k, _ => Ok k
      end;
  let o := mkSort k (nbytes o + delta) out (spiller o) (at_ o) in
  if nbytes o <? MemMaxBytes then Ok o else spill_out o.

(** [sendSpills] *)
Definition send_spills : stm (Sort * P) E (option batch) :=
  o ← own;
  match spiller o with
  | None => fault
  | Some r =>
      '(vs, r) ← lift_out (running (spill_batch to32 of32 to16 of16 Merge.PullerBatchValues 0 r));
      match vs with
      | [] => set_own (mkSort (sort_comparator o) 0 [] None Gathering);; mret None
      | _ => set_own (mkSort (sort_comparator o) (nbytes o) (out o) (Some r) Merging);; mret (Some vs)
      end
  end.
Fixpoint gather_loop (fuel : nat) : stm (Sort * P) E (option batch) :=
  match fuel with
  | O => throw hang
  | S fuel =>
      b ← up false;
      o ← own;
      match b with
      | Some vals => o ← lift_out (gather vals o); set_own o;; gather_loop fuel
      | None =>
          match spiller o with
          | None =>
              match out o, sort_comparator o with
              | [], _ => set_own (mkSort (sort_comparator o) 0 [] None Gathering);; mret None
              | _, None => fault
              | vals, Some k =>
                  vs ← lift_out (running (SortStable to32 of32 to16 of16 k vals));
                  set_own (mkSort (Some k) (nbytes o) vs None Sent);; mret (Some vs)
              end
          | Some _ =>
              o ← (match out o with [] => mret o | _ => lift_out (spill_out o) end);
              set_own (mkSort (sort_comparator o) (nbytes o) (out o) (spiller o) Merging);;
              send_spills
          end
      end
  end.
(** The next result of [run]. *)
Definition sort_result (fuel : nat) : stm (Sort * P) E (option batch) :=
  o ← own;
  match at_ o with
  | Gathering => gather_loop fuel
  | Sent => set_own (mkSort (sort_comparator o) 0 [] None Gathering);; mret None
  | Merging => send_spills
  end.
(** Pulled with [done] it passes over the results of the stream. *)
Fixpoint sort_drain (fuel more : nat) : stm (Sort * P) E (option batch) :=
  match more with
  | O => throw hang
  | S more => b ← sort_result fuel; match b with None => mret None | Some _ => sort_drain fuel more end
  end.
Definition sort_Pull (fuel : nat) : Puller (Sort * P) := fun done =>
  if done then sort_drain fuel (S (S fuel)) else sort_result fuel.
End operator.
End ops.
