(* ===== verification/OpsProofs.v ===== *)
(** * Sequential operators: what a parent delivers and what an operator makes of it

    [Pulls] is the contract of an upstream: every pull gives the next values of
    the current stream or, when there are none, its end; then the next stream
    follows.  [Dones] adds that a pull with [done] ends the stream.  Each
    operator keeps the contract, for a function of the streams of its parent. *)

From S2P Require Import Prelude Zcode Types Context Primitive Values Compare CompareProofs Expr Heap Merge Spill SpillProofs Ops.
Local Open Scope Z_scope.

(** The streams that follow, and a stream before others. *)
Definition later_t : Type := nat -> list Value.
Definition rest (l : later_t) : later_t := fun n => l (S n).

Section contract.
Context {E S : Type} (P : Puller (E := E) S) (R : S -> list Value -> later_t -> Prop).

Class Pulls : Prop := pulls s cur l : R s cur l ->
  (cur = [] /\ exists s', P false s = (Ok None, s') /\ R s' (l 0%nat) (rest l)) \/
  (exists b cur' s', cur = b ++ cur' /\ b <> [] /\ P false s = (Ok (Some b), s') /\ R s' cur' l).
Class Dones : Prop := dones s cur l : R s cur l -> exists s', P true s = (Ok None, s') /\ R s' (l 0%nat) (rest l).
End contract.

(** ** Sources *)

Fixpoint source_later (ss : Source) : later_t := fun n =>
  match ss, n with
  | [], _ => []
  | bs :: _, O => concat bs
  | _ :: ss, Datatypes.S n => source_later ss n
  end.
Lemma source_later_elem (Q : list Value -> Prop) ss n : Forall (fun bs => Q (concat bs)) ss -> Q [] -> Q (source_later ss n).
Proof. intros Hs HQ. revert n. induction Hs as [|bs ss Hb _ IH]; intros [|n]; cbn; auto. Qed.
Definition source_state (s : Source) (cur : list Value) (l : later_t) : Prop :=
  Forall (Forall (fun b : batch => b <> [])) s /\ source_later s 0%nat = cur /\ forall n, source_later s (Datatypes.S n) = l n.

#[export] Instance source_pulls {E} : Pulls (source_Pull (E := E)) source_state.
Proof.
  intros s cur l (Hne & Hc & Hl). destruct s as [|bs ss].
  - left. split; [done|]. exists []. split; [done|]. split_and!; [done|by rewrite <- Hl|intros n; unfold rest; by rewrite <- Hl].
  - apply Forall_cons in Hne as [Hb Hne]. destruct bs as [|b bs]; cbn [source_Pull].
    + left. split; [done|]. exists ss. split; [done|]. split_and!; [done|by rewrite <- Hl|intros n; unfold rest; by rewrite <- Hl].
    + right. apply Forall_cons in Hb as [Hb Hbs]. exists b, (concat bs), (bs :: ss). split_and!; [done..|].
      split_and!; [by constructor|done|done].
Qed.
#[export] Instance source_dones {E} : Dones (source_Pull (E := E)) source_state.
Proof.
  intros s cur l (Hne & Hc & Hl). destruct s as [|bs ss].
  - exists []. split; [done|]. split_and!; [done|by rewrite <- Hl|intros n; unfold rest; by rewrite <- Hl].
  - apply Forall_cons in Hne as [_ Hne]. exists ss. split; [done|]. split_and!; [done|by rewrite <- Hl|intros n; unfold rest; by rewrite <- Hl].
Qed.

Section ops.
Context {E P : Type} (hang : E) (to32 of32 to16 of16 : Z -> Z) (parent : Puller (E := E) P) (R : P -> list Value -> later_t -> Prop).

(** Equations of the operators' computations. *)
Lemma own_l {S A} (f : S -> stm (S * P) E A) s : (own ≫= f) s = f s.1 s.
Proof. reflexivity. Qed.
Lemma set_own_l {S A} o (f : unit -> stm (S * P) E A) s : (set_own o ≫= f) s = f tt (o, s.2).
Proof. reflexivity. Qed.
Lemma up_eq {S} done (o : S) p r p' : parent done p = (r, p') -> up parent done (o, p) = (r, (o, p')).
Proof. intros H. unfold up. cbn [snd fst]. by rewrite H. Qed.
Lemma up_l {S A} done (o : S) p r p' (f : option batch -> stm (S * P) E A) :
  parent done p = (Ok r, p') -> (up parent done ≫= f) (o, p) = f r (o, p').
Proof. intros H. unfold mbind, stm_bind. by rewrite (up_eq _ _ _ _ _ H). Qed.

(** ** Head *)

Section head.
Context `{HP : !Pulls parent R, HD : !Dones parent R} (limit : nat).

Definition head_state (s : Z * P) (cur : list Value) (l : later_t) : Prop :=
  exists pcur pl, R s.2 pcur pl /\ 0 <= s.1 <= Z.of_nat limit /\
  if s.1 <? Z.of_nat limit then cur = take (limit - Z.to_nat s.1) pcur /\ forall n, l n = take limit (pl n)
  else cur = [] /\ l 0%nat = take limit pcur /\ forall n, l (Datatypes.S n) = take limit (pl n).

(** The stream is over and the parent stands before the next one. *)
Lemma head_over p pcur pl l : R p pcur pl -> l 0%nat = take limit pcur -> (forall n, l (Datatypes.S n) = take limit (pl n)) ->
  head_state (0, p) (l 0%nat) (rest l).
Proof.
  intros HR H0 Hn. exists pcur, pl. cbn [fst snd]. split; [done|]. split; [lia|]. destruct (Z.ltb_spec 0 (Z.of_nat limit)).
  - split; [by rewrite Nat.sub_0_r|]. intros n. apply Hn.
  - assert (limit = O) as -> by lia. rewrite H0. split_and!; [done|by unfold rest; rewrite Hn|].
    intros n. unfold rest. by rewrite Hn.
Qed.

#[export] Instance head_pulls : Pulls (head_Pull parent (Z.of_nat limit)) head_state.
Proof.
  intros [count p] cur l (pcur & pl & HR & Hc & Hs). cbn [fst snd] in *. unfold head_Pull. rewrite own_l. cbn [fst].
  destruct (Z.ltb_spec count (Z.of_nat limit)) as [Hlt|Hge].
  - destruct Hs as [-> Hl]. rewrite (proj2 (Z.leb_gt _ _) Hlt).
    destruct (HP p pcur pl HR) as [(-> & p' & Ep & HR')|(b & pcur' & p' & -> & Hb & Ep & HR')]; rewrite (up_eq _ _ _ _ _ Ep).
    + left. rewrite take_nil. split; [done|]. exists (0, p'). split; [done|]. apply (head_over p' (pl 0%nat) (rest pl)); [done|by rewrite Hl|].
      intros n. by rewrite Hl.
    + right. destruct (Z.ltb_spec (zlen b) (Z.of_nat limit - count)) as [Hn|Hn]; unfold zlen in Hn.
      * exists b, (take (limit - Z.to_nat count - length b) pcur'), (count + zlen b, p'). unfold zlen. split_and!; [|done..|].
        { rewrite take_app. f_equal. apply take_ge. lia. }
        exists pcur', pl. cbn [fst snd]. split; [done|]. split; [lia|].
        rewrite (proj2 (Z.ltb_lt _ _)) by lia. split; [f_equal; lia|done].
      * destruct (HD p' pcur' pl HR') as (p2 & Ep2 & HR2).
        exists (take (limit - Z.to_nat count) b), [], (Z.of_nat limit, p2). rewrite app_nil_r. split_and!.
        -- rewrite take_app_le by lia. done.
        -- destruct b; [done|]. destruct (limit - Z.to_nat count)%nat eqn:E1; [lia|done].
        -- rewrite (up_l _ _ _ _ _ _ Ep2), set_own_l. cbn [snd].
           by replace (Z.to_nat (Z.of_nat limit - count)) with (limit - Z.to_nat count)%nat by lia.
        -- exists (pl 0%nat), (rest pl). cbn [fst snd]. split; [done|]. split; [lia|]. rewrite Z.ltb_irrefl.
           split_and!; [done|by rewrite Hl|intros n; by rewrite Hl].
  - destruct Hs as (-> & H0 & Hl). left. split; [done|]. rewrite (proj2 (Z.leb_le _ _) Hge). exists (0, p).
    split; [done|]. by apply (head_over p pcur pl).
Qed.
#[export] Instance head_dones : Dones (head_Pull parent (Z.of_nat limit)) head_state.
Proof.
  intros [count p] cur l (pcur & pl & HR & Hc & Hs). cbn [fst snd] in *. unfold head_Pull. rewrite own_l. cbn [fst].
  destruct (Z.ltb_spec count (Z.of_nat limit)) as [Hlt|Hge].
  - destruct Hs as [-> Hl]. rewrite (proj2 (Z.leb_gt _ _) Hlt). destruct (HD p pcur pl HR) as (p2 & Ep2 & HR2).
    rewrite (up_l _ _ _ _ _ _ Ep2). exists (0, p2). split; [done|]. apply (head_over p2 (pl 0%nat) (rest pl)); [done|by rewrite Hl|].
    intros n. by rewrite Hl.
  - destruct Hs as (-> & H0 & Hl). rewrite (proj2 (Z.leb_le _ _) Hge). exists (0, p). split; [done|]. by apply (head_over p pcur pl).
Qed.
End head.

(** Every stream satisfies a predicate. *)
Definition always (Q : list Value -> Prop) (cur : list Value) (l : later_t) : Prop := Q cur /\ forall n, Q (l n).
Lemma always_next Q cur l : always Q cur l -> always Q (l 0%nat) (rest l).
Proof. intros [_ H]. split; [done|]. intros n. apply H. Qed.
Lemma always_drop Q b cur l : (forall a c, Q (a ++ c) -> Q c) -> always Q (b ++ cur) l -> always Q cur l.
Proof. intros HQ [H1 H2]. split; [by eapply HQ|done]. Qed.

(** An operator that works on a stream as a whole stands at its start. *)
Definition mapped (f : list Value -> list Value) (pcur cur : list Value) (pl l : later_t) : Prop :=
  cur = f pcur /\ forall n, l n = f (pl n).
(** It has read the parent's stream, of which [cur] is left to give. *)
Definition behind (f : list Value -> list Value) (pcur : list Value) (pl l : later_t) : Prop :=
  l 0%nat = f pcur /\ forall n, l (Datatypes.S n) = f (pl n).
Lemma mapped_next f pcur cur pl l : mapped f pcur cur pl l -> mapped f (pl 0%nat) (l 0%nat) (rest pl) (rest l).
Proof. intros [_ H]. split; [apply H|]. intros n. apply H. Qed.
Lemma mapped_behind f pcur cur pl l : mapped f pcur cur pl l -> behind f (pl 0%nat) (rest pl) l.
Proof. intros [_ H]. split; [apply H|]. intros n. apply H. Qed.
Lemma behind_next f pcur pl l : behind f pcur pl l -> mapped f pcur (l 0%nat) pl (rest l).
Proof. intros [H0 H]. split; [done|]. intros n. apply H. Qed.

(** ** Yield and the application of an expression *)

Section map.
Context `{HP : !Pulls parent R} (f : Value -> outcome E (list Value)) (g : Value -> list Value) (good : Value -> Prop).
Context (Hf : forall v, good v -> f v = Ok (g v)) (fuel : nat).

(** Streams of good values that the loops have the fuel for. *)
Definition short (vals : list Value) : Prop := (length vals < fuel)%nat /\ Forall good vals.
Lemma short_drop a b : short (a ++ b) -> short b.
Proof. intros [H1 H2]. rewrite length_app in H1. apply Forall_app in H2 as [_ H2]. split; [lia|done]. Qed.

Definition map_state (s : unit * P) (cur : list Value) (l : later_t) : Prop :=
  exists pcur pl, R s.2 pcur pl /\ always short pcur pl /\ mapped (flat_map g) pcur cur pl l.

Lemma all_values_eq vals : Forall good vals -> all_values f vals = Ok (flat_map g vals).
Proof.
  induction 1 as [|v vals Hv _ IH]; [done|]. cbn [all_values flat_map]. rewrite (Hf v Hv). cbn [mbind outcome_bind obind].
  by rewrite IH.
Qed.

Lemma map_loop_spec n : forall p pcur pl u, R p pcur pl -> always short pcur pl -> (length pcur < n)%nat ->
  (flat_map g pcur = [] /\ exists p', map_loop hang parent f n false (u, p) = (Ok None, (u, p')) /\ R p' (pl 0%nat) (rest pl)) \/
  (exists b pcur' p', flat_map g pcur = b ++ flat_map g pcur' /\ b <> [] /\ always short pcur' pl /\
     map_loop hang parent f n false (u, p) = (Ok (Some b), (u, p')) /\ R p' pcur' pl).
Proof.
  induction n as [|n IH]; intros p pcur pl u HR Hs Hn; [lia|]. cbn [map_loop].
  destruct (HP p pcur pl HR) as [(-> & p' & Ep & HR')|(b & pcur' & p' & -> & Hb & Ep & HR')]; rewrite (up_l _ _ _ _ _ _ Ep).
  - left. split; [done|]. by exists p'.
  - pose proof (always_drop _ _ _ _ short_drop Hs) as Hs'.
    destruct Hs as [[_ Hg] _]. apply Forall_app in Hg as [Hg _]. rewrite (stm_lift_l _ _ _ (flat_map g b)) by (by apply all_values_eq).
    cbn [mbind outcome_bind obind]. rewrite flat_map_app. destruct (flat_map g b) as [|x xs] eqn:Eb.
    + cbn [app]. apply IH; [done|done|]. rewrite length_app in Hn. destruct b; [done|cbn in Hn; lia].
    + right. exists (x :: xs), pcur', p'. by split_and!.
Qed.

#[export] Instance map_pulls : Pulls (map_loop hang parent f fuel) map_state.
Proof.
  intros [u p] cur l (pcur & pl & HR & Hs & Hm). cbn [snd] in HR. pose proof Hm as [-> _].
  destruct (map_loop_spec fuel p pcur pl u HR Hs) as [(-> & p' & -> & HR')|(b & pcur' & p' & -> & Hb & Hs' & -> & HR')]; [by apply Hs| |].
  - left. split; [done|]. exists (u, p'). split; [done|]. exists (pl 0%nat), (rest pl).
    split_and!; [done|by eapply always_next|by eapply mapped_next].
  - right. exists b, (flat_map g pcur'), (u, p'). split_and!; [done..|]. exists pcur', pl. split_and!; [done..|]. by destruct Hm.
Qed.
#[export] Instance map_dones `{HD : !Dones parent R} : (0 < fuel)%nat -> Dones (map_loop hang parent f fuel) map_state.
Proof.
  intros Hfuel [u p] cur l (pcur & pl & HR & Hs & Hm). destruct fuel as [|n]; [lia|]. cbn [map_loop].
  destruct (HD p pcur pl HR) as (p' & Ep & HR'). rewrite (up_l _ _ _ _ _ _ Ep). exists (u, p'). split; [done|].
  exists (pl 0%nat), (rest pl). split_and!; [done|by eapply always_next|by eapply mapped_next].
Qed.
End map.

(** ** Tail *)

Section tail.
Context `{HP : !Pulls parent R} (limit fuel : nat).
Local Abbreviation L := (Z.of_nat limit).

Definition lastn (vals : list Value) : list Value := drop (length vals - limit) vals.
Lemma lastn_short vals : (length vals <= limit)%nat -> lastn vals = vals.
Proof. intros H. unfold lastn. by replace (length vals - limit)%nat with 0%nat by lia. Qed.
Lemma lastn_app a b : (limit <= length b)%nat -> lastn (a ++ b) = lastn b.
Proof.
  intros H. unfold lastn. rewrite length_app, drop_app. rewrite (drop_ge a) by lia. cbn [app]. f_equal. lia.
Qed.
Lemma lastn_lastn a a' b : lastn a = lastn a' -> lastn (a ++ b) = lastn (a' ++ b).
Proof.
  assert (Hl : forall x, lastn (x ++ b) = lastn (lastn x ++ b)).
  { intros x. destruct (le_lt_dec (length x) limit); [by rewrite (lastn_short x)|].
    unfold lastn at 2. rewrite <- (take_drop (length x - limit) x) at 1. rewrite <- app_assoc, lastn_app; [done|].
    rewrite length_app, length_drop. lia. }
  intros H. by rewrite (Hl a), H, <- Hl.
Qed.

Definition nonempties (bs : list batch) : Prop := Forall (fun b => b <> []) bs.
(** The batches kept hold the last values, and the first is needed. *)
Definition needed (bs : list batch) : Prop := match bs with [] => True | b :: bs => zlen (concat bs) < L end.

Lemma drop_batches_spec bs : nonempties bs -> exists bs',
  drop_batches L (zlen (concat bs)) bs = (bs', zlen (concat bs')) /\ lastn (concat bs') = lastn (concat bs) /\ nonempties bs' /\ needed bs'.
Proof.
  unfold nonempties at 1. induction 1 as [|b bs Hb Hbs IH]; [by exists []; split_and!; try constructor|]. cbn [drop_batches concat]. unfold zlen in *. rewrite length_app.
  replace (Z.of_nat (length b + length (concat bs)) - Z.of_nat (length b)) with (Z.of_nat (length (concat bs))) by lia.
  destruct (Z.leb_spec L (Z.of_nat (length (concat bs)))) as [Hl|Hl].
  - destruct IH as (bs' & E1 & E2 & H1 & H2). exists bs'. split_and!; [done| |done..]. rewrite E2. symmetry. apply lastn_app. lia.
  - exists (b :: bs). cbn [concat]. rewrite length_app. split_and!; [done..|by constructor|done].
Qed.

Lemma tail_loop_spec n : forall bs o p pcur pl, R p pcur pl -> (length pcur < n)%nat -> nonempties bs -> needed bs ->
  exists bs' p', tail_loop hang parent n L (zlen (concat bs)) bs (o, p) = (Ok (bs', zlen (concat bs')), (o, p')) /\
    R p' (pl 0%nat) (rest pl) /\ lastn (concat bs') = lastn (concat bs ++ pcur) /\ nonempties bs' /\ needed bs'.
Proof.
  induction n as [|n IH]; intros bs o p pcur pl HR Hn Hbs Hnd; [lia|]. cbn [tail_loop].
  destruct (HP p pcur pl HR) as [(-> & p' & Ep & HR')|(b & pcur' & p' & -> & Hb & Ep & HR')]; rewrite (up_l _ _ _ _ _ _ Ep).
  - exists bs, p'. by rewrite app_nil_r.
  - assert (Hbs' : nonempties (bs ++ [b])) by (apply Forall_app; split; [done|by apply Forall_singleton]).
    destruct (drop_batches_spec (bs ++ [b]) Hbs') as (bs1 & E1 & E2 & H1 & H2).
    assert (zlen (concat bs) + zlen b = zlen (concat (bs ++ [b]))) as ->.
    { unfold zlen. rewrite concat_app, length_app. cbn. rewrite app_nil_r. lia. }
    rewrite E1. destruct (IH bs1 o p' pcur' pl HR') as (bs2 & p2 & E3 & HR2 & E4 & H3); [|done..|].
    { rewrite length_app in Hn. destruct b; [done|cbn in Hn; lia]. }
    exists bs2, p2. split_and!; [done..| |by apply H3|by apply H3]. rewrite E4, (lastn_lastn _ _ pcur' E2), concat_app. cbn [concat].
    by rewrite app_nil_r, <- app_assoc.
Qed.

Lemma tail_spec o p pcur pl : R p pcur pl -> (length pcur < fuel)%nat ->
  exists bs p', tail hang parent fuel L (o, p) = (Ok bs, (o, p')) /\ R p' (pl 0%nat) (rest pl) /\
    concat bs = lastn pcur /\ nonempties bs.
Proof.
  intros HR Hn. destruct (tail_loop_spec fuel [] o p pcur pl HR Hn) as (bs & p' & E1 & HR' & E2 & Hbs & Hnd); [by constructor|done|].
  unfold tail. change (zlen (concat [])) with 0 in E1. unfold mbind, stm_bind. rewrite E1. cbn [concat app] in E2.
  destruct (Z.ltb_spec L (zlen (concat bs))) as [Hl|Hl]; unfold zlen in *.
  - destruct bs as [|b bs]; [cbn in Hl; lia|]. cbn [concat] in Hl, E2. cbn [needed] in Hnd. unfold zlen in *.
    rewrite length_app in Hl. cbn [concat]. rewrite length_app.
    destruct (Z.ltb_spec (Z.of_nat (length b)) (Z.of_nat (length b + length (concat bs)) - L)); [lia|].
    apply Forall_cons in Hbs as [Hb Hbs]. exists (drop (Z.to_nat (Z.of_nat (length b + length (concat bs)) - L)) b :: bs), p'.
    split_and!; [done..| |].
    + cbn [concat]. rewrite <- E2. unfold lastn. rewrite length_app, drop_app.
      replace (Z.to_nat (Z.of_nat (length b + length (concat bs)) - L)) with (length b + length (concat bs) - limit)%nat by lia.
      by replace (length b + length (concat bs) - limit - length b)%nat with 0%nat by lia.
    + constructor; [|done]. intros E0. apply (f_equal length) in E0. rewrite length_drop in E0. cbn in E0. lia.
  - exists bs, p'. split_and!; [done..| |done]. by rewrite <- E2, lastn_short by lia.
Qed.

Definition tail_state (s : Tail * P) (cur : list Value) (l : later_t) : Prop :=
  exists pcur pl, R s.2 pcur pl /\ always (fun vals => length vals < fuel)%nat pcur pl /\ nonempties (batches s.1) /\
  if eos s.1 then batches s.1 = [] /\ cur = [] /\ behind lastn pcur pl l
  else match batches s.1 with
       | [] => mapped lastn pcur cur pl l
       | bs => cur = concat bs /\ behind lastn pcur pl l
       end.

Lemma next_batch_spec b bs o p pcur pl l :
  R p pcur pl -> always (fun vals => length vals < fuel)%nat pcur pl -> nonempties (b :: bs) -> behind lastn pcur pl l ->
  exists s', next_batch (E := E) (P := P) (b :: bs) (o, p) = (Ok (Some b), s') /\ tail_state s' (concat bs) l.
Proof.
  intros HR Ha [_ Hbs]%Forall_cons Hl. eexists. split; [done|]. exists pcur, pl. cbn [fst snd batches eos].
  split_and!; [done..|]. destruct bs; [done|]. done.
Qed.

#[export] Instance tail_pulls : Pulls (tail_Pull hang parent fuel L) tail_state.
Proof.
  intros [[bs eo] p] cur l (pcur & pl & HR & Ha & Hne & Hs). cbn [fst snd batches eos] in *. unfold tail_Pull. rewrite own_l.
  cbn [fst batches eos]. destruct eo.
  - destruct Hs as (-> & -> & Hl). left. split; [done|]. exists (mkTail [] false, p). split; [done|].
    exists pcur, pl. cbn [fst snd batches eos]. split_and!; [done..|by apply behind_next].
  - destruct bs as [|b bs].
    + pose proof Hs as [-> _]. destruct (tail_spec (mkTail [] false) p pcur pl HR) as (bs & p' & E1 & HR' & <- & Hbs); [apply Ha|].
      unfold mbind, stm_bind. rewrite E1. destruct bs as [|b bs].
      * left. split; [done|]. exists (mkTail [] false, p'). split; [done|]. exists (pl 0%nat), (rest pl).
        split_and!; [done|by eapply always_next|done|]. by eapply mapped_next.
      * right. pose proof Hbs as [Hb _]%Forall_cons. exists b, (concat bs).
        destruct (next_batch_spec b bs (mkTail [] false) p' (pl 0%nat) (rest pl) l) as (s' & E2 & Hs');
          [done|by eapply always_next|done|by eapply mapped_behind|]. by exists s'.
    + destruct Hs as [-> Hl]. pose proof Hne as [Hb _]%Forall_cons. right.
      destruct (next_batch_spec b bs (mkTail (b :: bs) false) p pcur pl l HR Ha Hne Hl) as (s' & E2 & Hs'). by exists b, (concat bs), s'.
Qed.
End tail.

(** ** Sort *)

Section sort.
Context `{HP : !Pulls parent R} {k : Comparator} {c : Value -> Value -> Z} {good : Value -> Prop}
  `{SO : !SortOrder to32 of32 to16 of16 k c good}.
Context (dotted : list gostring -> Value -> Value) (MemMaxBytes : Z).
Context (resolvers : option (list SortEvaluator)) (nullsFirst reverse : bool) (fuel : nat).
Context (Hk : forall v, good v -> setComparator (E := E) to32 to16 dotted resolvers nullsFirst reverse v = Ok k).
Local Abbreviation sort := (stable_sort (cmp_lt c)).
Local Abbreviation gather := (gather hang to32 of32 to16 of16 dotted MemMaxBytes resolvers nullsFirst reverse).
Local Abbreviation spill_out := (spill_out hang to32 of32 to16 of16).

Lemma batch_bytes_good vals : Forall good vals -> exists n, batch_bytes hang to32 to16 vals = Ok n.
Proof.
  induction 1 as [|v vals Hv _ [n IH]]; [by exists 0|]. cbn [batch_bytes]. destruct (so_bytes v Hv) as [b Hb].
  unfold val_bytes, Expr.val_bytes_. rewrite Hb. cbn. rewrite IH. cbn. eauto.
Qed.

(** The values taken in: the chunks in the files, then those in memory. *)
Record gathered (o : Sort) (vals : list Value) : Prop := {
  g_at : at_ o = Gathering;
  g_cmp : sort_comparator o = Some k \/ sort_comparator o = None /\ vals = [];
  g_vals : match spiller o with
           | None => vals = out o
           | Some r => sort_comparator o = Some k /\
               exists chunks, vals = concat chunks ++ out o /\ holds (k := k) (c := c) (good := good) r (map sort chunks)
           end }.

Lemma spill_out_spec o vals : gathered o vals -> Forall good vals -> out o <> [] ->
  exists o' r chunks, spill_out o = Ok o' /\ o' = mkSort (Some k) 0 [] (Some r) Gathering /\ vals = concat chunks /\
    holds (k := k) (c := c) (good := good) r (map sort chunks).
Proof.
  intros [Ha Hc Hv] Hg Hne. unfold Ops.spill_out.
  assert (Ec : sort_comparator o = Some k).
  { destruct Hc as [?|[_ ->]]; [done|]. destruct (spiller o); [by destruct Hv|done]. }
  rewrite Ec, Ha.
  assert (exists r chunks, match spiller o with Some r => r | None => NewMergeSort k end = r /\ vals = concat chunks ++ out o /\
    holds (k := k) (c := c) (good := good) r (map sort chunks)) as (r & chunks & -> & -> & Hh).
  { destruct (spiller o) as [r|]; [destruct Hv as (_ & chunks & ? & ?); by exists r, chunks|].
    exists (NewMergeSort k), []. split_and!; [done|done|apply NewMergeSort_holds]. }
  apply Forall_app in Hg as [_ Hg]. destruct (Spill_spec r _ (out o) Hh Hne Hg) as (r' & -> & Hh').
  cbn [running omap_err mbind outcome_bind obind]. eexists _, r', (chunks ++ [out o]). split_and!; [done..| |by rewrite map_app].
  rewrite concat_app. cbn [concat]. by rewrite app_nil_r.
Qed.

Lemma gather_spec o vals b : gathered o vals -> b <> [] -> Forall good vals -> Forall good b ->
  exists o', gather b o = Ok o' /\ gathered o' (vals ++ b).
Proof.
  intros [Ha Hc Hv] Hb Hgv Hgb. unfold Ops.gather. destruct (batch_bytes_good b Hgb) as [n ->]. cbn [mbind outcome_bind obind].
  assert (match sort_comparator o, out o ++ b with
      | None, v :: _ => k0 ← setComparator to32 to16 dotted resolvers nullsFirst reverse v; Ok (Some k0)
      | k0, _ => Ok k0
      end = (Ok (Some k) : outcome E _)) as ->.
  { destruct Hc as [->|[Hn ->]]; [by destruct (out o ++ b)|]. rewrite Hn in *.
    assert (out o = []) as -> by (destruct (spiller o); [by destruct Hv|done]).
    destruct b as [|v b]; [done|]. apply Forall_cons in Hgb as [Hgv' _]. cbn [app]. by rewrite (Hk v Hgv'). }
  cbn [mbind outcome_bind obind nbytes].
  assert (Hg : gathered (mkSort (Some k) (nbytes o + n) (out o ++ b) (spiller o) (at_ o)) (vals ++ b)).
  { split; cbn [at_ sort_comparator spiller out]; [done|by left|]. destruct (spiller o) as [r|]; [|by rewrite Hv].
    destruct Hv as (_ & chunks & -> & Hh). split; [done|]. exists chunks. by rewrite app_assoc. }
  destruct (Z.ltb_spec (nbytes o + n) MemMaxBytes) as [_|_]; [by eexists|].
  destruct (spill_out_spec _ _ Hg) as (o' & r & chunks & -> & -> & E1 & Hh); [by apply Forall_app| |].
  { cbn [out]. intros E1. by apply app_nil in E1 as [_ ?]. }
  eexists. split; [done|]. split; cbn [at_ sort_comparator spiller out]; [done|by left|]. split; [done|]. exists chunks. by rewrite app_nil_r.
Qed.

Definition sort_state (s : Sort * P) (cur : list Value) (l : later_t) : Prop :=
  exists pcur pl, R s.2 pcur pl /\ always (short good fuel) pcur pl /\ (length cur < fuel)%nat /\
    (sort_comparator s.1 = None \/ sort_comparator s.1 = Some k) /\
    match at_ s.1 with
    | Gathering => out s.1 = [] /\ spiller s.1 = None /\ mapped sort pcur cur pl l
    | Sent => cur = [] /\ behind sort pcur pl l
    | Merging => exists r ss, sort_comparator s.1 = Some k /\ spiller s.1 = Some r /\ holds (k := k) (c := c) (good := good) r ss /\ cur = sort (concat ss) /\ behind sort pcur pl l
    end.

(** A result of the stream: its next values, or its end. *)
Definition result (m : outcome E (option batch) * (Sort * P)) (cur : list Value) (l : later_t) : Prop :=
  (cur = [] /\ exists s', m = (Ok None, s') /\ sort_state s' (l 0%nat) (rest l)) \/
  (exists b cur' s', cur = b ++ cur' /\ b <> [] /\ m = (Ok (Some b), s') /\ sort_state s' cur' l).

(** Ready for the parent's next stream. *)
Lemma sort_restart cmp p pcur pl l :
  cmp = None \/ cmp = Some k -> R p pcur pl -> always (short good fuel) pcur pl -> behind sort pcur pl l ->
  sort_state (mkSort cmp 0 [] None Gathering, p) (l 0%nat) (rest l).
Proof.
  intros Hc HR Ha Hl. exists pcur, pl. cbn [fst snd at_ out spiller sort_comparator].
  split_and!; [done..| |done|done|done|by apply behind_next]. destruct Hl as [-> _]. rewrite length_stable_sort. apply Ha.
Qed.

Lemma send_spills_spec o p r ss pcur pl l :
  spiller o = Some r -> sort_comparator o = Some k -> holds (k := k) (c := c) (good := good) r ss ->
  R p pcur pl -> always (short good fuel) pcur pl -> behind sort pcur pl l -> (length (sort (concat ss)) < fuel)%nat ->
  result (send_spills hang to32 of32 to16 of16 (o, p)) (sort (concat ss)) l.
Proof.
  intros Es Ec Hh HR Ha Hl Hf. unfold send_spills. rewrite own_l. cbn [fst]. rewrite Es.
  destruct (spill_batch_spec Merge.PullerBatchValues 0 r ss Hh) as (vs & r' & ss' & E1 & Hh' & Hvs & Hend).
  rewrite Hvs in Hf |- *. rewrite length_app in Hf. rewrite (stm_lift_l _ _ _ (vs, r')) by (by rewrite E1). destruct vs as [|v vs].
  - left. rewrite Hend by done. split; [done|]. eexists. split; [done|]. eapply sort_restart; [by right|done..].
  - right. exists (v :: vs), (sort (concat ss')). eexists. split_and!; [done..|]. exists pcur, pl.
    cbn [fst snd at_ out spiller sort_comparator]. split_and!; [done|done|lia|by right|]. by exists r', ss'.
Qed.

Lemma gather_loop_spec n : forall o p vals pcur pl l, R p pcur pl -> always (short good fuel) pcur pl -> (length pcur < n)%nat -> (length (vals ++ pcur) < fuel)%nat ->
  gathered o vals -> Forall good vals -> (forall m, l m = sort (pl m)) ->
  result (gather_loop hang to32 of32 to16 of16 parent dotted MemMaxBytes resolvers nullsFirst reverse n (o, p)) (sort (vals ++ pcur)) l.
Proof.
  induction n as [|n IH]; intros o p vals pcur pl l HR Ha Hn Hf Hg Hv Hl; [lia|]. cbn [gather_loop].
  destruct (HP p pcur pl HR) as [(-> & p' & Ep & HR')|(b & pcur' & p' & -> & Hb & Ep & HR')]; rewrite (up_l _ _ _ _ _ _ Ep), own_l; cbn [fst].
  - rewrite app_nil_r in *. pose proof (always_next _ _ _ Ha) as Ha'.
    assert (Hbeh : behind sort (pl 0%nat) (rest pl) l) by (split; [done|intros m; apply Hl]).
    assert (Hc : sort_comparator o = None \/ sort_comparator o = Some k) by (destruct Hg as [_ [?|[? _]] _]; auto).
    pose proof Hg as [_ Hcmp Hvals]. destruct (spiller o) as [r|] eqn:Es.
    + destruct Hvals as (Ek & chunks & Ev & Hh).
      assert (exists o' r' ch, match out o with [] => mret o | _ :: _ => lift_out (spill_out o) end (o, p') = (Ok o', (o, p')) /\
        spiller o' = Some r' /\ sort_comparator o' = Some k /\ holds (k := k) (c := c) (good := good) r' (map sort ch) /\ vals = concat ch)
        as (o' & r' & ch & E1 & Es' & Ec' & Hh' & ->).
      { destruct (out o) as [|v vs] eqn:Eo.
        - exists o, r, chunks. rewrite app_nil_r in Ev. by split_and!.
        - destruct (spill_out_spec o vals Hg Hv) as (o' & r' & ch & E1 & E2 & E3 & E4); [by rewrite Eo|].
          exists o', r', ch. rewrite E1. subst o'. by split_and!. }
      rewrite (stm_bind_Ok _ _ _ _ _ E1), set_own_l. cbn [snd]. rewrite <- (sort_parts c order_antisym order_trans).
      eapply send_spills_spec; [done..|]. by rewrite (sort_parts c order_antisym order_trans), length_stable_sort.
    + destruct (out o) as [|v vs] eqn:Eo; subst vals.
      * left. split; [done|]. eexists. split; [done|]. by eapply sort_restart.
      * destruct Hcmp as [Ek|[_ ?]]; [|done]. rewrite Ek. right. exists (sort (v :: vs)), []. eexists.
        rewrite app_nil_r. split_and!; [done| | |].
        -- intros E0. apply (f_equal length) in E0. by rewrite length_stable_sort in E0.
        -- rewrite (stm_lift_l _ _ _ (sort (v :: vs))) by (by rewrite (so_sort (SortOrder := SO))). done.
        -- exists (pl 0%nat), (rest pl). cbn [fst snd at_ out spiller sort_comparator]. split_and!; [done|done|cbn; destruct Ha; lia|by right|done|done].
  - pose proof (always_drop _ _ _ _ (short_drop good fuel) Ha) as Ha'. destruct Ha as [[_ Hgb] _]. apply Forall_app in Hgb as [Hgb _].
    destruct (gather_spec o vals b Hg Hb Hv Hgb) as (o' & E1 & Hg'). rewrite (stm_lift_l _ _ _ _ E1), set_own_l. cbn [snd].
    rewrite app_assoc. apply (IH _ _ _ _ pl); [done|done| |by rewrite <- app_assoc|done|by apply Forall_app|done].
    rewrite length_app in Hn. destruct b; [done|cbn in Hn; lia].
Qed.

Lemma sort_result_spec s cur l : sort_state s cur l ->
  result (sort_result hang to32 of32 to16 of16 parent dotted MemMaxBytes resolvers nullsFirst reverse fuel s) cur l.
Proof.
  destruct s as [o p]. intros (pcur & pl & HR & Ha & Hf & Hc & Hs). cbn [fst snd] in *. unfold sort_result. rewrite own_l. cbn [fst].
  destruct (at_ o) eqn:Eat.
  - destruct Hs as (Eo & Es & -> & Hl). apply (gather_loop_spec fuel o p [] pcur pl); [done|done|by apply Ha|by apply Ha| |done|done].
    split; [done| |by rewrite Es]. destruct Hc; auto.
  - destruct Hs as (-> & Hl). left. split; [done|]. eexists. split; [done|]. by eapply sort_restart.
  - destruct Hs as (r & ss & Ek & Es & Hh & -> & Hl). by eapply send_spills_spec.
Qed.

Local Abbreviation sort_Pull := (sort_Pull hang to32 of32 to16 of16 parent dotted MemMaxBytes resolvers nullsFirst reverse fuel).
#[export] Instance sort_pulls : Pulls sort_Pull sort_state.
Proof. intros s cur l Hs. by apply sort_result_spec. Qed.

Lemma sort_drain_spec n : forall s cur l, sort_state s cur l -> (length cur < n)%nat ->
  exists s', sort_drain hang to32 of32 to16 of16 parent dotted MemMaxBytes resolvers nullsFirst reverse fuel n s = (Ok None, s') /\
    sort_state s' (l 0%nat) (rest l).
Proof.
  induction n as [|n IH]; intros s cur l Hs Hn; [lia|]. cbn [sort_drain]. unfold mbind, stm_bind.
  destruct (sort_result_spec s cur l Hs) as [(-> & s' & -> & Hs')|(b & cur' & s' & -> & Hb & -> & Hs')]; [by exists s'|].
  apply (IH s' cur' l Hs'). rewrite length_app in Hn. destruct b; [done|cbn in Hn; lia].
Qed.
#[export] Instance sort_dones : Dones sort_Pull sort_state.
Proof.
  intros s cur l Hs. apply (sort_drain_spec _ s cur l Hs). destruct Hs as (? & ? & _ & _ & Hf & _). lia.
Qed.
End sort.

(** ** Top *)

Lemma sorted_impl {A} (Q Q' : A -> A -> Prop) l :
  StronglySorted Q l -> (forall v w, v ∈ l -> w ∈ l -> Q v w -> Q' v w) -> StronglySorted Q' l.
Proof.
  induction 1 as [|v l Hs IH Hl]; intros HQ; [constructor|]. constructor; [apply IH; intros; apply HQ; [by right..|done]|].
  rewrite Forall_forall in *. intros w Hw. apply HQ; [by left|by right|by apply Hl].
Qed.

Section top.
Context {k : Comparator} {c : Value -> Value -> Z} {good : Value -> Prop} `{SO : !SortOrder to32 of32 to16 of16 k c good}.
Local Abbreviation less := (record_less hang to32 of32 to16 of16 k).
Definition below (v w : Value) : Prop := c v w <= 0.

#[export] Instance record_less_spec : LessSpec less good below.
Proof.
  split.
  - intros v w Hv Hw. unfold record_less. rewrite (so_cmp (SortOrder := SO) v w) by done. cbn [running omap_err mbind outcome_bind obind].
    unfold below. pose proof (order_antisym v w). destruct (Z.ltb_spec (c v w) 0); [left|right]; (split; [done|lia]).
  - intros u v w _ _ _. apply order_trans.
Qed.

(** Popping all of a heap from the end of the result on. *)
Lemma pop_all_spec n : forall h out, length h = n -> Forall good h -> is_heap (le := below) h ->
  StronglySorted (fun v w => below w v) out -> (forall v w, v ∈ h -> w ∈ out -> below w v) ->
  exists res, pop_all hang to32 of32 to16 of16 k n h out = Ok res /\ res ≡ₚ h ++ out /\ StronglySorted (fun v w => below w v) res.
Proof.
  induction n as [|n IH]; intros h out Hn Hg Hh Hs Hle; destruct h as [|x h]; try done; [by exists out|]. cbn [pop_all].
  apply Forall_cons in Hg as [Gx Gh].
  destruct (Pop_spec (lt := less) (HL := record_less_spec) x h Gh) as (h' & -> & Hp & Hh'); [intros j Hj Hpj; apply Hh; cbn; lia|].
  cbn [mbind outcome_bind obind].
  assert (Hmin : forall y, y ∈ h -> below x y).
  { intros y Hy. apply (heap_min (lt := less) (HL := record_less_spec) (x :: h)); [by constructor|done|done|by right]. }
  destruct (IH h' (x :: out)) as (res & -> & Hres & Hsort).
  - rewrite Hp. by injection Hn.
  - by rewrite Hp.
  - done.
  - constructor; [done|]. apply Forall_forall. intros w Hw. apply Hle; [by left|done].
  - intros v w Hv Hw. rewrite Hp in Hv. apply elem_of_cons in Hw as [->|Hw]; [by apply Hmin|]. apply Hle; [by right|done].
  - exists res. split_and!; [done| |done]. rewrite Hres, Hp. symmetry. apply Permutation_middle.
Qed.

(** The heap has the largest of the values that came. *)
Record keeps (limit : nat) (fs : list (Value -> Value)) (o : Top) (vals : list Value) : Prop := {
  k_fields : fields o = Some fs;
  k_records : match records o with
              | None => vals = []
              | Some (k', h) => k' = k /\ exists d, h ++ d ≡ₚ vals /\ is_heap (le := below) h /\ length h = Nat.min limit (length vals) /\
                  forall v w, v ∈ h -> w ∈ d -> below w v
              end }.

Context (dotted : list gostring -> Value -> Value) (limit : nat) (fs : list (Value -> Value)).
Context (Hlimit : (0 < limit)%nat) (Hfs : NewCompareFn to32 to16 false fs = k).

(** A value goes into the heap unless the heap is full of no smaller ones. *)
Lemma push_or_not h d v :
  Forall good h -> good v -> is_heap (le := below) h -> (forall v w, v ∈ h -> w ∈ d -> below w v) -> ((length h < limit)%nat -> d = []) ->
  exists b, (if (length h <? limit)%nat then Ok true else match h with [] => Panic | w :: _ => less w v end) = Ok b /\
    if b : bool then forall w, w ∈ d -> below w v else (limit <= length h)%nat /\ forall w, w ∈ h -> below v w.
Proof.
  intros Gh Hv Hh Hd Hl. destruct (Nat.ltb_spec (length h) limit) as [Hlt|Hge].
  { exists true. split; [done|]. rewrite Hl by done. by intros ? Hin%not_elem_of_nil. }
  destruct h as [|w h]; [cbn in Hge; lia|]. pose proof Gh as [Gw _]%Forall_cons.
  destruct (less_total (LessSpec := record_less_spec) w v Gw Hv) as [[-> Hwv]|[-> Hle]].
  - exists true. split; [done|]. intros y Hy. apply (order_trans _ w); [|done]. apply Hd; [by left|done].
  - exists false. split; [done|]. split; [done|]. intros y Hy. apply (order_trans _ w); [done|].
    by apply (heap_min (lt := less) (HL := record_less_spec) (w :: h)).
Qed.

Lemma consume_spec o vals v : keeps limit fs o vals -> Forall good vals -> good v ->
  exists o', consume hang to32 of32 to16 of16 dotted limit v o = Ok o' /\ keeps limit fs o' (vals ++ [v]).
Proof.
  intros [Ef Hr] Hg Hv. unfold consume. rewrite Ef.
  assert (exists h d, match records o with Some kh => kh | None => (NewCompareFn to32 to16 false fs, []) end = (k, h) /\
    h ++ d ≡ₚ vals /\ is_heap (le := below) h /\ length h = Nat.min limit (length vals) /\ forall v w, v ∈ h -> w ∈ d -> below w v)
    as (h & d & -> & Hp & Hh & Hl & Hd).
  { destruct (records o) as [[k' h]|]; [destruct Hr as (-> & d & ?); by exists h, d|]. subst vals. exists [], []. rewrite Hfs.
    split_and!; [done|done|intros j Hj; cbn in Hj; lia|cbn; lia|]. intros ?? Hin%not_elem_of_nil. done. }
  assert (Hgh : Forall good h /\ Forall good d) by (apply Forall_app; by rewrite Hp).
  assert (Hlen : (length h + length d = length vals)%nat) by (rewrite <- length_app; by rewrite Hp).
  destruct Hgh as [Gh Gd].
  destruct (push_or_not h d v Gh Hv Hh Hd) as (b & -> & Hb); [intros; destruct d; [done|cbn in Hlen; lia]|].
  cbn [mbind outcome_bind obind]. destruct b.
  - destruct (Push_spec (lt := less) (HL := record_less_spec) h v Gh Hv Hh) as (h1 & -> & Hp1 & Hh1). cbn [mbind outcome_bind obind].
    pose proof (Permutation_length Hp1) as Hl1. cbn [length] in Hl1.
    assert (Gh1 : Forall good h1) by (rewrite Hp1; by constructor).
    assert (Hd1 : forall y w, y ∈ h1 -> w ∈ d -> below w y).
    { intros y w Hy Hw. rewrite Hp1 in Hy. apply elem_of_cons in Hy as [->|Hy]; [by apply Hb|by apply Hd]. }
    assert (Hall : h1 ++ d ≡ₚ vals ++ [v]) by (rewrite Hp1, <- Permutation_cons_append; cbn [app]; by rewrite Hp).
    destruct (Nat.ltb_spec limit (length h1)) as [Hlt|Hge].
    + destruct h1 as [|x h1]; [done|]. pose proof Gh1 as [Gx Gh1']%Forall_cons.
      destruct (Pop_spec (lt := less) (HL := record_less_spec) x h1 Gh1') as (h2 & -> & Hp2 & Hh2); [intros j Hj Hpj; apply Hh1; cbn in *; lia|].
      cbn [mbind outcome_bind obind]. pose proof (Permutation_length Hp2) as Hl2. cbn [length] in Hl1, Hlt. eexists. split; [done|].
      split; [done|]. cbn [records]. split; [done|]. exists (x :: d). split_and!; [|done| |].
      * rewrite <- Hall, Hp2, <- Permutation_middle. done.
      * rewrite Hl2, length_app. cbn. lia.
      * intros y w Hy Hw. rewrite Hp2 in Hy. apply elem_of_cons in Hw as [->|Hw]; [|apply Hd1; [by right|done]].
        apply (heap_min (lt := less) (HL := record_less_spec) (x :: h1)); [done|done|done|by right].
    + cbn [mbind outcome_bind obind]. eexists. split; [done|]. split; [done|]. cbn [records]. split; [done|]. exists d.
      split_and!; [done|done| |done]. rewrite length_app. cbn. lia.
  - cbn [mbind outcome_bind obind]. destruct Hb as [Hb1 Hb2]. destruct (Nat.ltb_spec limit (length h)) as [Hlt|Hge]; [lia|].
    cbn [mbind outcome_bind obind]. eexists. split; [done|]. split; [done|]. cbn [records]. split; [done|]. exists (v :: d). split_and!; [|done| |].
    + by rewrite <- Permutation_middle, <- Permutation_cons_append, Hp.
    + rewrite length_app. cbn. lia.
    + intros y w Hy Hw. apply elem_of_cons in Hw as [->|Hw]; [by apply Hb2|by apply Hd].
Qed.
Lemma consume_all_spec vals : forall o seen, keeps limit fs o seen -> Forall good seen -> Forall good vals ->
  exists o', consume_all hang to32 of32 to16 of16 dotted limit vals o = Ok o' /\ keeps limit fs o' (seen ++ vals).
Proof.
  induction vals as [|v vals IH]; intros o seen Ho Hs Hv; [exists o; by rewrite app_nil_r|].
  apply Forall_cons in Hv as [Gv Hv]. cbn [consume_all]. destruct (consume_spec o seen v Ho Hs Gv) as (o1 & -> & Ho1).
  cbn [mbind outcome_bind obind]. destruct (IH o1 (seen ++ [v]) Ho1) as (o2 & -> & Ho2); [by apply Forall_app_2; [|apply Forall_singleton]|done|].
  exists o2. by rewrite <- app_assoc in Ho2.
Qed.

(** The [limit] largest of some values, from the largest to the smallest. *)
Definition largest (vals res : list Value) : Prop :=
  length res = Nat.min limit (length vals) /\ StronglySorted (fun v w => below w v) res /\
  exists d, res ++ d ≡ₚ vals /\ forall v w, v ∈ res -> w ∈ d -> below w v.

Lemma sorted_spec o vals p : keeps limit fs o vals -> Forall good vals -> vals <> [] ->
  exists res, sorted hang to32 of32 to16 of16 (P := P) (o, p) = (Ok (Some res), (NewTop (Some fs), p)) /\ largest vals res.
Proof.
  intros [Ef Hr] Hg Hne. unfold sorted. rewrite own_l. cbn [fst]. destruct (records o) as [[k' h]|]; [|done].
  destruct Hr as (-> & d & Hp & Hh & Hl & Hd).
  assert (Gh : Forall good h) by (rewrite <- Hp in Hg; by apply Forall_app in Hg as [? _]).
  destruct (pop_all_spec (length h) h [] eq_refl Gh Hh) as (res & E1 & Hres & Hs); [constructor|by intros ? ? _ ?%not_elem_of_nil|].
  rewrite (stm_lift_l _ _ _ _ E1), Ef. exists res. split; [done|]. rewrite app_nil_r in Hres.
  split; [by rewrite Hres|]. split; [done|]. exists d. split; [by rewrite Hres|]. intros v w Hv. apply Hd. by rewrite <- Hres.
Qed.

Lemma top_loop_spec `{HP : !Pulls parent R} n : forall o p seen pcur pl, R p pcur pl -> (length pcur < n)%nat ->
  keeps limit fs o seen -> Forall good (seen ++ pcur) -> seen ++ pcur <> [] ->
  exists res p', top_loop hang to32 of32 to16 of16 parent dotted limit false n false (o, p) = (Ok (Some res), (NewTop (Some fs), p')) /\
    largest (seen ++ pcur) res /\ R p' (pl 0%nat) (rest pl).
Proof.
  induction n as [|n IH]; intros o p seen pcur pl HR Hn Ho Hg Hne; [lia|]. cbn [top_loop].
  destruct (HP p pcur pl HR) as [(-> & p' & Ep & HR')|(b & pcur' & p' & -> & Hb & Ep & HR')]; rewrite (up_l _ _ _ _ _ _ Ep).
  - rewrite app_nil_r in *. destruct (sorted_spec o seen p' Ho Hg Hne) as (res & E1 & Hres). exists res, p'. by rewrite E1.
  - rewrite own_l. cbn [fst]. pose proof Hg as [Hs [Gb _]%Forall_app]%Forall_app.
    destruct (consume_all_spec b o seen Ho Hs Gb) as (o1 & E1 & Ho1). rewrite (stm_lift_l _ _ _ _ E1), set_own_l. cbn [snd].
    rewrite app_assoc in *. apply IH; try done. rewrite length_app in Hn. destruct b; [done|cbn in Hn; lia].
Qed.
End top.

End ops.

(** ** What pulling gives *)

Section streams.
Context {E : Type} (hang : E).

(** The values of a stream, and of the streams that follow. *)
Fixpoint stream {S} (n : nat) (pull : Puller (E := E) S) : stm S E (list Value) :=
  match n with
  | O => throw hang
  | Datatypes.S n => b ← pull false; match b with None => mret [] | Some b => vs ← stream n pull; mret (b ++ vs) end
  end.
Fixpoint streams {S} (n m : nat) (pull : Puller (E := E) S) : stm S E (list (list Value)) :=
  match m with O => mret [] | Datatypes.S m => vs ← stream n pull; vss ← streams n m pull; mret (vs :: vss) end.

Lemma stream_spec {S} (pull : Puller S) R `{HP : !Pulls pull R} n : forall s cur l,
  R s cur l -> (length cur < n)%nat -> exists s', stream n pull s = (Ok cur, s') /\ R s' (l 0%nat) (rest l).
Proof.
  induction n as [|n IH]; intros s cur l HR Hn; [lia|]. cbn [stream].
  destruct (HP s cur l HR) as [(-> & s' & Ep & HR')|(b & cur' & s' & -> & Hb & Ep & HR')]; rewrite (stm_bind_Ok _ _ _ _ _ Ep); [by exists s'|].
  destruct (IH s' cur' l HR') as (s2 & E2 & HR2); [rewrite length_app in Hn; destruct b; [done|cbn in Hn; lia]|].
  exists s2. rewrite (stm_bind_Ok _ _ _ _ _ E2). done.
Qed.
Lemma streams_spec {S} (pull : Puller S) R `{HP : !Pulls pull R} n m : forall s cur l,
  R s cur l -> always (fun vals => length vals < n)%nat cur l ->
  exists s', streams n m pull s = (Ok (map (fun i => match i with O => cur | Datatypes.S i => l i end) (seq 0 m)), s').
Proof.
  induction m as [|m IH]; intros s cur l HR Ha; [by exists s|]. cbn [streams].
  destruct (stream_spec pull R n s cur l HR) as (s1 & E1 & HR1); [apply Ha|]. rewrite (stm_bind_Ok _ _ _ _ _ E1).
  destruct (IH s1 (l 0%nat) (rest l) HR1) as (s2 & E2); [by eapply always_next|]. exists s2. rewrite (stm_bind_Ok _ _ _ _ _ E2).
  change (seq 0 (Datatypes.S m)) with (0%nat :: seq 1 m). cbn [map]. rewrite <- seq_shift, map_map. unfold mret, stm_ret. do 3 f_equal.
  apply map_ext. by intros [|i].
Qed.
End streams.
