(* ===== verification/OpsProps.v ===== *)
(** * The properties of the sequential operators *)

From S2P Require Import Prelude Zcode Types Context Interning Primitive Values Compare CompareProofs CompareProps Expr Heap Merge Spill SpillProofs Ops OpsProofs.
Local Open Scope Z_scope.

(** Operators one after the other, as a query has them. *)
Inductive operator :=
  | OHead (limit : nat)
  | OTail (limit : nat)
  | OYield (exprs : list (Value -> Value))
  | OSort (resolvers : list SortEvaluator) (nullsFirst reverse : bool).

Fixpoint state (ops : list operator) (P : Type) : Type :=
  match ops with
  | [] => P
  | OHead _ :: ops => state ops (Z * P)
  | OTail _ :: ops => state ops (Tail * P)
  | OYield _ :: ops => state ops (unit * P)
  | OSort _ _ _ :: ops => state ops (Sort * P)
  end.
(** Before anything was pulled. *)
Fixpoint start (ops : list operator) {P} (p : P) : state ops P :=
  match ops with
  | [] => p
  | OHead _ :: ops => start ops (0, p)
  | OTail _ :: ops => start ops (mkTail [] false, p)
  | OYield _ :: ops => start ops (tt, p)
  | OSort _ _ _ :: ops => start ops (NewSort, p)
  end.

Section chain.
Context {E : Type} (hang : E) (to32 of32 to16 of16 : Z -> Z) (dotted : list gostring -> Value -> Value).
Context (MemMaxBytes : Z) (fuel : nat).

Fixpoint chain (ops : list operator) {P} (parent : Puller (E := E) P) : Puller (E := E) (state ops P) :=
  match ops with
  | [] => parent
  | OHead limit :: ops => chain ops (head_Pull parent (Z.of_nat limit))
  | OTail limit :: ops => chain ops (tail_Pull hang parent fuel (Z.of_nat limit))
  | OYield exprs :: ops => chain ops (yield_Pull hang to32 to16 parent exprs fuel)
  | OSort rs nullsFirst reverse :: ops =>
      chain ops (sort_Pull hang to32 of32 to16 of16 parent dotted MemMaxBytes (Some rs) nullsFirst reverse fuel)
  end.

(** ** What the operators mean, on a stream *)

Definition quiet (v : Value) : bool := match IsQuiet to32 to16 v with Ok q => q | _ => false end.
Definition sort_by (rs : list SortEvaluator) (nullsFirst reverse : bool) : Comparator :=
  match setComparator (E := E) to32 to16 dotted (Some rs) nullsFirst reverse NullValue with Ok k => k | _ => mkComparator [] false end.
Definition meaning (op : operator) (vals : list Value) : list Value :=
  match op with
  | OHead limit => take limit vals
  | OTail limit => drop (length vals - limit) vals
  | OYield exprs => flat_map (fun v => List.filter (fun w => negb (quiet w)) (map (fun e => e v) exprs)) vals
  | OSort rs nullsFirst reverse =>
      match SortStable to32 of32 to16 of16 (sort_by rs nullsFirst reverse) vals with Ok sorted => sorted | _ => [] end
  end.
Fixpoint meanings (ops : list operator) (vals : list Value) : list Value :=
  match ops with [] => vals | op :: ops => meanings ops (meaning op vals) end.

(** The values that an operator is defined on, of the types of a context. *)
Context (zctx : Context).
Definition fits (op : operator) (vals : list Value) : Prop :=
  (length vals < fuel)%nat /\
  match op with
  | OHead _ | OTail _ => True
  | OYield exprs => Forall (fun v => Forall (fun e => exists q, IsQuiet to32 to16 (e v) = Ok q) exprs) vals
  | OSort rs nullsFirst reverse =>
      let k := sort_by rs nullsFirst reverse in
      Forall (fun v => sortable_by to32 to16 (nullsMax k) zctx (exprs k) v /\ raw v) vals
  end.
Fixpoint fit (ops : list operator) (vals : list Value) : Prop :=
  match ops with [] => True | op :: ops => fits op vals /\ fit ops (meaning op vals) end.
(** Head ends its parent's stream early, which tail does not do for its own
    parent when it still has batches. *)
Fixpoint placed (dones : bool) (ops : list operator) : Prop :=
  match ops with
  | [] => True
  | OHead _ :: ops => dones = true /\ placed true ops
  | OTail _ :: ops => placed false ops
  | OYield _ :: ops => placed dones ops
  | OSort rs _ _ :: ops => rs <> [] /\ placed true ops
  end.

Lemma yield_values_eq exprs v : Forall (fun e => exists q, IsQuiet to32 to16 (e v) = Ok q) exprs ->
  yield_values hang to32 to16 exprs v = Ok (List.filter (fun w => negb (quiet w)) (map (fun e => e v) exprs)).
Proof.
  induction 1 as [|e exprs [q Hq] _ IH]; [done|]. unfold yield_values in *. cbn [foldr map List.filter]. rewrite IH.
  unfold quiet. rewrite Hq. by destruct q.
Qed.
Lemma setComparator_any rs nullsFirst reverse v : rs <> [] ->
  setComparator (E := E) to32 to16 dotted (Some rs) nullsFirst reverse v = Ok (sort_by rs nullsFirst reverse) /\
  exprs (sort_by rs nullsFirst reverse) <> [].
Proof. intros Hrs. unfold sort_by, setComparator. destruct rs as [|r rs]; [done|]. by destruct reverse. Qed.

Lemma mapped_always f (Q Q' : list Value -> Prop) cur l cur' l' :
  (forall vals, Q vals -> Q' (f vals)) -> always Q cur l -> mapped f cur cur' l l' -> always Q' cur' l'.
Proof. intros HQ [H1 H2] [-> Hl]. split; [by apply HQ|]. intros n. rewrite Hl. by apply HQ. Qed.

(** An operator keeps the contract of its parent, and [meanings] composes. *)
Lemma chain_spec (Hwf : wf zctx) (Hfuel : (0 < fuel)%nat) ops : forall P (parent : Puller P) R dones p cur l,
  Pulls parent R -> (dones = true -> Dones parent R) -> placed dones ops -> R p cur l -> always (fit ops) cur l ->
  exists R', Pulls (chain ops parent) R' /\ R' (start ops p) (meanings ops cur) (fun n => meanings ops (l n)).
Proof.
  induction ops as [|op ops IH]; intros P parent R dones p cur l HP HD Hpl HR Ha; [by exists R|].
  assert (Hfits : always (fits op) cur l) by (destruct Ha as [[H1 _] H2]; split; [done|]; intros n; apply H2).
  assert (Hfit : always (fit ops) (meaning op cur) (fun n => meaning op (l n))) by (destruct Ha as [[_ H1] H2]; split; [done|]; intros n; apply H2).
  destruct op as [limit|limit|exs|rs nullsFirst reverse]; cbn [chain start meanings].
  - destruct Hpl as [-> Hpl]. specialize (HD eq_refl).
    apply (IH _ _ (head_state R limit) true (0, p) (take limit cur) (fun n => take limit (l n))); [by apply head_pulls|by intros _; apply head_dones|done| |done].
    exists cur, l. cbn [fst snd]. split; [done|]. split; [lia|]. destruct (Z.ltb_spec 0 (Z.of_nat limit)); [by rewrite Nat.sub_0_r|].
    by assert (limit = O) as -> by lia.
  - apply (IH _ _ (tail_state R limit fuel) false (mkTail [] false, p) _ _ (tail_pulls _ _ _ _ _)); [done|done| |done].
    exists cur, l. cbn [fst snd eos batches]. split_and!; [done| |constructor|done]. destruct Hfits as [[? _] H2]. split; [done|]. intros n. apply H2.
  - set (good := fun v => Forall (fun e => exists q, IsQuiet to32 to16 (e v) = Ok q) exs).
    set (g := fun v => List.filter (fun w => negb (quiet w)) (map (fun e => e v) exs)).
    assert (Hg : forall v, good v -> yield_values hang to32 to16 exs v = Ok (g v)) by (intros v; apply yield_values_eq).
    eapply (IH _ _ (map_state R g good fuel) dones (tt, p)); [by apply map_pulls| |done| |done].
    { intros Hd. specialize (HD Hd). by apply map_dones. }
    exists cur, l. by split_and!.
  - destruct Hpl as [Hrs Hpl]. set (k := sort_by rs nullsFirst reverse).
    destruct (setComparator_any rs nullsFirst reverse NullValue Hrs) as [_ Hk].
    set (good := fun v => sortable_by to32 to16 (nullsMax k) zctx (exprs k) v /\ raw v).
    set (c := compare_keys to32 to16 (nullsMax k) (exprs k)).
    pose proof (sort_order to32 of32 to16 of16 zctx k Hwf Hk) as SO. fold c good in SO.
    assert (Hset : forall v, good v -> setComparator (E := E) to32 to16 dotted (Some rs) nullsFirst reverse v = Ok k).
    { intros v _. by apply setComparator_any. }
    assert (Hm : always (fun vals => meaning (OSort rs nullsFirst reverse) vals = stable_sort (cmp_lt c) vals) cur l).
    { assert (Hs : forall vals, fits (OSort rs nullsFirst reverse) vals -> meaning (OSort rs nullsFirst reverse) vals = stable_sort (cmp_lt c) vals).
      { intros vals [_ Hv]. cbn [meaning]. change (sort_by rs nullsFirst reverse) with k. by rewrite (so_sort (SortOrder := SO) vals Hv). }
      destruct Hfits as [H1 H2]. split; [by apply Hs|]. intros n. apply Hs, H2. }
    eapply (IH _ _ (sort_state R (k := k) (c := c) (good := good) fuel) true (NewSort, p)); [by eapply sort_pulls|by intros _; eapply sort_dones|done| |done].
    exists cur, l. cbn [fst snd at_ out spiller sort_comparator NewSort]. split_and!; [done|exact Hfits| |by left|done|done|].
    + destruct Hm as [-> _]. rewrite length_stable_sort. apply Hfits.
    + split; [apply Hm|]. intros n. apply Hm.
Qed.

Lemma fit_nil (Hwf : wf zctx) (Hfuel : (0 < fuel)%nat) ops : forall dones, placed dones ops -> fit ops [] /\ meanings ops [] = [].
Proof.
  induction ops as [|op ops IH]; intros dones Hpl; [done|]. cbn [fit meanings].
  assert (Hm : meaning op [] = []).
  { destruct op as [| | |rs nullsFirst reverse]; cbn; [by destruct limit|done|done|].
    rewrite (SortStable_eq _ _ _ _ _ zctx Hwf _ [] eq_refl) by done. done. }
  rewrite Hm. assert (exists dones', placed dones' ops) as [dones' Hpl'] by (destruct op; cbn in Hpl; naive_solver).
  split; [|by eapply IH]. split; [|by eapply IH]. split; [cbn; lia|]. by destruct op.
Qed.

Lemma source_later_nth (ss : Source) : map (source_later ss) (seq 0 (length ss)) = map (fun bs => concat bs) ss.
Proof.
  induction ss as [|bs ss IH]; [done|]. cbn [length]. change (seq 0 (Datatypes.S (length ss))) with (0%nat :: seq 1 (length ss)).
  cbn [map source_later]. by rewrite <- IH, <- seq_shift, map_map.
Qed.

(** C14: operators that are put one after the other -- head, tail, yield and
    sort, the latter in memory or through files -- give, stream by stream and
    whatever the batches are, what they mean on the list of a stream's values:
    its first or last values, what the expressions yield without quiet values,
    the stable sort. No head comes after a tail unless a sort is in between:
    by ending a stream early it would make the tail drop the next one
    (tail_done_skips_stream). A sort has expressions, and their values have no
    floats and no type values. *)
Theorem operators_refine ops (source : Source) n :
  wf zctx -> (0 < fuel)%nat -> placed true ops ->
  Forall (Forall (fun b : batch => b <> [])) source ->
  Forall (fun bs => fit ops (concat bs) /\ (length (meanings ops (concat bs)) < n)%nat) source ->
  exists s, streams hang n (length source) (chain ops source_Pull) (start ops source) =
    (Ok (map (fun bs => meanings ops (concat bs)) source), s).
Proof.
  intros Hwf Hfuel Hpl Hne [Hfit Hn]%Forall_and. destruct (fit_nil Hwf Hfuel ops true Hpl) as [Hnil Hmnil].
  destruct source as [|bs ss] eqn:Es; [by eexists|]. rewrite <- Es in *.
  assert (Hn0 : (0 < n)%nat) by (rewrite Es in Hn; apply Forall_cons in Hn as [? _]; lia).
  set (l := fun i => source_later source (Datatypes.S i)).
  assert (Hall : always (fit ops) (source_later source 0%nat) l) by (split; [|intros i]; exact (source_later_elem (fit ops) source _ Hfit Hnil)).
  destruct (chain_spec Hwf Hfuel ops _ source_Pull source_state true source (source_later source 0%nat) l) as (R' & HP & HR); try done; [apply source_pulls|intros _; apply source_dones|].
  destruct (streams_spec hang (chain ops source_Pull) R' n (length source) (start ops source) _ _ HR) as (s' & ->).
  - split; [|intros i]; (apply (source_later_elem (fun vals => length (meanings ops vals) < n)%nat); [done|by rewrite Hmnil]).
  - exists s'. do 2 f_equal. rewrite <- (map_map (fun bs => concat bs) (meanings ops)), <- source_later_nth, map_map. apply map_ext. by intros [|i].
Qed.

End chain.

(** ** Sorting through files *)

Section sorting.
Context (to32 of32 to16 of16 : Z -> Z).

Fixpoint spill_all (chunks : list (list Value)) (r : MergeSort) : outcome diverge MergeSort :=
  match chunks with [] => Ok r | vs :: chunks => r ← Spill to32 of32 to16 of16 vs r; spill_all chunks r end.

Lemma spill_all_spec k c good `{SO : !SortOrder to32 of32 to16 of16 k c good} chunks : forall r ss,
  holds (k := k) (c := c) (good := good) r ss -> Forall (fun vs => vs <> [] /\ Forall good vs) chunks ->
  exists r', spill_all chunks r = Ok r' /\ holds (k := k) (c := c) (good := good) r' (ss ++ map (stable_sort (cmp_lt c)) chunks).
Proof.
  induction chunks as [|vs chunks IH]; intros r ss Hh Hv; [exists r; by rewrite app_nil_r|].
  apply Forall_cons in Hv as [[Hne Hg] Hv]. cbn [spill_all]. destruct (Spill_spec r ss vs Hh Hne Hg) as (r1 & -> & Hh1).
  cbn [mbind outcome_bind obind]. destruct (IH r1 _ Hh1 Hv) as (r2 & -> & Hh2). exists r2. by rewrite <- app_assoc in Hh2.
Qed.

(** C20: sorting through files is sorting in memory: chunks of values that are
    spilled to a file each, and merged through the heap of the files, are read
    back as the stable sort of all of them, however they were cut into chunks
    that are not empty; for a sort with at least one expression (without any,
    nothing is read back: spill_without_keys_loses) on values for which the
    expressions give no floats and no type values. *)
Theorem external_sort (zctx : Context) (k : Comparator) (chunks : list (list Value)) :
  wf zctx -> exprs k <> [] ->
  Forall (fun vs => vs <> [] /\ Forall (fun v => sortable_by to32 to16 (nullsMax k) zctx (exprs k) v /\ raw v) vs) chunks ->
  exists sorted r,
    SortStable to32 of32 to16 of16 k (concat chunks) = Ok sorted /\
    spill_all chunks (NewMergeSort k) = Ok r /\
    read_all to32 of32 to16 of16 (Datatypes.S (length (concat chunks))) r = Ok sorted.
Proof.
  intros Hwf Hk Hv. pose proof (sort_order to32 of32 to16 of16 zctx k Hwf Hk) as SO.
  destruct (spill_all_spec k _ _ chunks (NewMergeSort k) [] NewMergeSort_holds Hv) as (r & E1 & Hh).
  eexists _, r. split_and!; [|exact E1|].
  - apply (so_sort (SortOrder := SO)). apply Forall_concat. eapply Forall_impl; [exact Hv|]. by intros vs [_ ?].
  - cbn [app] in Hh. rewrite (read_all_sorted _ _ _ Hh).
    + by rewrite (sort_parts _ order_antisym order_trans).
    + rewrite <- (length_stable_sort (cmp_lt (compare_keys to32 to16 (nullsMax k) (exprs k)))).
      rewrite (sort_parts _ order_antisym order_trans), length_stable_sort. lia.
Qed.

(** C21: top, given fields and a positive limit, and not asked to flush on
    every batch, keeps of a stream in any batches the [limit] largest values
    of its fields, nulls and missing fields counting as the smallest, and
    gives them from the largest to the smallest in one batch; on values whose
    fields are no floats and no type values. *)
Theorem top_largest {E : Type} (hang : E) (dotted : list gostring -> Value -> Value) (zctx : Context)
    (fs : list (Value -> Value)) (limit : nat) (bs : list batch) (ss : Source) :
  let k := NewCompareFn to32 to16 false fs in
  let vals := concat bs in
  wf zctx -> fs <> [] -> (0 < limit)%nat ->
  Forall (fun v => sortable_by to32 to16 false zctx (exprs k) v /\ raw v) vals ->
  Forall (Forall (fun b : batch => b <> [])) (bs :: ss) -> vals <> [] ->
  exists res s,
    top_Pull hang to32 of32 to16 of16 source_Pull dotted limit false (Datatypes.S (length vals)) false (NewTop (Some fs), bs :: ss) =
      (Ok (Some res), s) /\
    length res = Nat.min limit (length vals) /\
    let before v w := exists x, Compare.Compare to32 of32 to16 of16 k v w = Ok x /\ 0 <= x in
    StronglySorted before res /\ exists left, res ++ left ≡ₚ vals /\ forall v w, v ∈ res -> w ∈ left -> before v w.
Proof.
  intros k vals Hwf Hfs Hlimit Hv Hne Hvals.
  assert (Hk : exprs k <> []) by (subst k; by destruct fs).
  pose proof (sort_order to32 of32 to16 of16 zctx k Hwf Hk) as SO. set (c := compare_keys to32 to16 (nullsMax k) (exprs k)) in *.
  set (good := fun v => sortable_by to32 to16 (nullsMax k) zctx (exprs k) v /\ raw v) in *.
  unfold top_Pull. rewrite (proj2 (Nat.eqb_neq limit 0)) by lia.
  destruct (top_loop_spec hang to32 of32 to16 of16 source_Pull source_state (SO := SO) dotted limit fs Hlimit eq_refl (Datatypes.S (length vals))
    (NewTop (Some fs)) (bs :: ss) [] vals (source_later ss)) as (res & p' & E1 & (Hl & Hs & d & Hp & Hd) & _); [by split_and!|lia|done|exact Hv|done|].
  exists res, (NewTop (Some fs), p'). split; [done|]. split; [done|]. cbn [app] in Hp.
  set (before := fun v w => exists x, Compare.Compare to32 of32 to16 of16 k v w = Ok x /\ 0 <= x).
  assert (Hb : forall v w, v ∈ res ++ d -> w ∈ res ++ d -> below (c := c) w v -> before v w).
  { intros v w Hin Hin' Hle. rewrite Hp in Hin, Hin'. rewrite Forall_forall in Hv. exists (c v w).
    split; [by apply (so_cmp (SortOrder := SO)); apply Hv|]. unfold below in Hle. rewrite (so_antisym (SortOrder := SO) v w) in Hle. lia. }
  split.
  - apply (sorted_impl _ _ res Hs). intros v w Hin Hin'. apply Hb; apply elem_of_app; by left.
  - exists d. split; [done|]. intros v w Hin Hin'. apply Hb; [apply elem_of_app; by left|apply elem_of_app; by right|by apply Hd].
Qed.
End sorting.

(** Without expressions a spill reads nothing back, while sorting in memory
    leaves the values as they are. *)
Theorem spill_without_keys_loses :
  let k := mkComparator [] false in
  SortStable id id id id k [NewInt64 7] = Ok [NewInt64 7] /\
  (r ← spill_all id id id id [[NewInt64 7]] (NewMergeSort k); read_all id id id id 2 r) = Ok [].
Proof. split; vm_compute; reflexivity. Qed.

(** ** A pipeline at work *)

(** Values as files have them, and a source of two streams. *)
Definition num (z : Z) : Value := NewValue (TPrim Int64) (AppendInt None z).
Definition demo_source : Source := [[[num 3; num 9]; [num 1; num 4; num 7]]; [[num 2]]].
Definition this_asc : list SortEvaluator := [mkSortEvaluator (fun v => v) false].
Definition demo_ops : list operator := [OSort this_asc false false; OYield [fun v => v]; OHead 3; OTail 2].

Example demo_runs :
  let pull := chain Diverge same same same same (fun _ v => v) 2 10 demo_ops (source_Pull (E := diverge)) in
  (streams Diverge 10 2 pull (start demo_ops demo_source)).1 = Ok [[num 3; num 4]; [num 2]].
Proof. vm_compute. reflexivity. Qed.

Lemma nums_sortable k z :
  k = sort_by (E := diverge) same same (fun _ v => v) this_asc false false \/ k = NewCompareFn same same false [fun v => v] ->
  z ∈ [1; 2; 3; 4; 7; 9] -> sortable_by same same (nullsMax k) demo_ctx (exprs k) (num z) /\ raw (num z).
Proof.
  intros Hk Hz. split; [|by eexists].
  assert (H : Forall (fun z => sortable_by same same (nullsMax k) demo_ctx (exprs k) (num z)) [1; 2; 3; 4; 7; 9]); [|by rewrite Forall_forall in H; apply H].
  destruct Hk as [-> | ->]; repeat apply Forall_cons_2; try apply Forall_nil_2;
    (split; [split; [|by split]|eexists; reflexivity]); intros Hcx; try discriminate Hcx; by split.
Qed.

Lemma operators_refine_witness :
  let pull := chain Diverge same same same same (fun _ v => v) 2 10 demo_ops (source_Pull (E := diverge)) in
  exists s, streams Diverge 10 2 pull (start demo_ops demo_source) = (Ok [[num 3; num 4]; [num 2]], s).
Proof.
  destruct (operators_refine Diverge same same same same (fun _ v => v) 2 10 demo_ctx demo_ops demo_source 10) as [s Hs];
    [apply demo_ctx_wf|lia|by split| | |by exists s; refine (eq_trans Hs _); vm_compute].
  { repeat first [apply Forall_nil_2|apply Forall_cons_2|discriminate]. }
  assert (Hmem : forall zs, Forall (fun z => z ∈ [1; 2; 3; 4; 7; 9]) zs -> forall vals, vals = map num zs ->
    let k := sort_by (E := diverge) same same (fun _ v => v) this_asc false false in
    Forall (fun v => sortable_by same same (nullsMax k) demo_ctx (exprs k) v /\ raw v) vals).
  { intros zs Hz vals -> k. apply Forall_map. eapply Forall_impl; [exact Hz|]. intros z Hin. by apply nums_sortable; [left|]. }
  assert (Hq : forall zs vals, vals = map num zs ->
    Forall (fun v => Forall (fun e => exists q, IsQuiet same same (e v) = Ok q) [fun v : Value => v]) vals).
  { intros zs vals ->. apply Forall_map, Forall_true. intros z. apply Forall_singleton. by eexists. }
  repeat apply Forall_cons_2; try apply Forall_nil_2; split; [|vm_compute; lia| |vm_compute; lia].
  - split; [split; [vm_compute; lia|apply (Hmem [3; 9; 1; 4; 7]); [repeat constructor; set_solver|done]]|].
    split; [split; [vm_compute; lia|]|split; [split; [vm_compute; lia|done]|split; [split; [vm_compute; lia|done]|done]]].
    apply (Hq [1; 3; 4; 7; 9]). by vm_compute.
  - split; [split; [vm_compute; lia|apply (Hmem [2]); [repeat constructor; set_solver|done]]|].
    split; [split; [vm_compute; lia|]|split; [split; [vm_compute; lia|done]|split; [split; [vm_compute; lia|done]|done]]].
    apply (Hq [2]). by vm_compute.
Defined.

Lemma external_sort_witness :
  let k := NewCompareFn same same false [fun v => v] in
  let chunks := [[num 3; num 9]; [num 4; num 1; num 3]; [num 2]] in
  exists sorted r, spill_all same same same same chunks (NewMergeSort k) = Ok r /\
    read_all same same same same 7 r = Ok sorted /\ sorted = map num [1; 2; 3; 3; 4; 9].
Proof.
  intros k chunks. destruct (external_sort same same same same demo_ctx k chunks) as (sorted & r & H1 & H2 & H3).
  - apply demo_ctx_wf.
  - done.
  - repeat apply Forall_cons_2; try apply Forall_nil_2; (split; [done|]); repeat apply Forall_cons_2; try apply Forall_nil_2;
      (apply nums_sortable; [by right|set_solver]).
  - exists sorted, r. split; [done|]. split; [done|]. assert (H4 : Ok sorted = Ok (map num [1; 2; 3; 3; 4; 9]) :> outcome diverge _).
    { rewrite <- H1. by vm_compute. }
    by injection H4.
Defined.

Lemma top_largest_witness :
  exists res s, top_Pull Diverge same same same same (source_Pull (E := diverge)) (fun _ v => v) 2 false 6 false
    (NewTop (Some [fun v => v]), demo_source) = (Ok (Some res), s) /\ length res = 2%nat /\ res = [num 9; num 7].
Proof.
  destruct (top_largest same same same same Diverge (fun _ v => v) demo_ctx [fun v => v] 2 [[num 3; num 9]; [num 1; num 4; num 7]] [[[num 2]]])
    as (res & s & H1 & H2 & _).
  - apply demo_ctx_wf.
  - done.
  - lia.
  - repeat apply Forall_cons_2; try apply Forall_nil_2; (apply (nums_sortable (NewCompareFn same same false [fun v => v])); [by right|set_solver]).
  - repeat first [apply Forall_nil_2|apply Forall_cons_2|discriminate].
  - done.
  - exists res, s. split; [exact H1|]. split; [exact H2|].
    assert (H4 : Ok (Some res) = Ok (Some [num 9; num 7]) :> outcome diverge _).
    { refine (eq_trans (eq_sym (f_equal fst H1)) _). by vm_compute. }
    by injection H4.
Defined.

(** ** Operators that do not keep the contract of a puller *)

Local Abbreviation D := (fun (_ : list gostring) (v : Value) => v).
Definition top1 : Puller (Top * Source) := top_Pull Diverge same same same same (source_Pull (E := diverge)) D 1 false 10.
Definition uniqs : Puller (Uniq * Source) := uniq_Pull Diverge same same (source_Pull (E := diverge)) 10.
Definition new_uniq : Uniq := mkUniq false 0 None NewContext.

(** after the result of a stream top does not give its end: the next pull
    answers with the result of the parent's next stream. *)
Theorem top_joins_streams :
  exists s s', top1 false (NewTop (Some [fun v => v]), demo_source) = (Ok (Some [num 9]), s) /\ top1 false s = (Ok (Some [num 2]), s').
Proof. by eexists _, _. Qed.

(** pulled with [done], uniq answers with a batch. *)
Theorem done_answered_by_batch :
  exists s s', uniqs false (new_uniq, [[[num 1; num 2; num 3]]]) = (Ok (Some [num 1; num 2]), s) /\ uniqs true s = (Ok (Some [num 3]), s').
Proof. by eexists _, _. Qed.

(** so that head after uniq panics when it is told to stop. *)
Theorem head_of_uniq_panics :
  exists s, head_Pull uniqs 9 false (0, (new_uniq, [[[num 1; num 2; num 3]]])) = (Ok (Some [num 1; num 2]), s) /\
    (head_Pull uniqs 9 true s).1 = Panic.
Proof. by eexists. Qed.

(** uniq panics on a second stream: its count is never reset. *)
Theorem uniq_second_stream_panics :
  exists s s' , uniqs false (new_uniq, [[[num 1]]; [[num 2]]]) = (Ok (Some [num 1]), s) /\
    uniqs false s = (Panic, s').
Proof. by eexists _, _. Qed.

(** uniq takes values of different types for the same when their bytes are. *)
Theorem uniq_ignores_types :
  exists s, uniqs false (new_uniq, [[[num 1; NewValue (TPrim String) (AppendInt None 1)]]]) = (Ok (Some [num 1]), s).
Proof. by eexists. Qed.

(** tail pulled with [done] while it has batches left ends a stream of its
    parent that nothing was read from. *)
Theorem tail_done_skips_stream :
  let tail2 := tail_Pull Diverge (source_Pull (E := diverge)) 10 2 in
  exists s, tail2 false (mkTail [] false, [[[num 1]; [num 2]]; [[num 3]]]) = (Ok (Some [num 1]), s) /\
    tail2 true s = (Ok None, (mkTail [] false, [])).
Proof. by eexists. Qed.
