(* ===== verification/Agg.v ===== *)
(** * Aggregate functions

    [src/runtime/sam/expr/agg] and [src/runtime/sam/expr/agg.go]: count, any, avg, dcount, fuse, sum, min,
    max, union, collect, collect_map, and, or.  A function consumes values and
    gives a result, or a partial result that a function of the same kind
    consumes instead of the values it stands for.

    The sketch of dcount is a library's and given by its operations.  Go maps
    are kept as lists in the order of insertion and are read in the order of
    the parameter [iteration]. *)

From S2P Require Import Prelude Zcode Types Context Primitive Values Compare Expr.
Local Open Scope Z_scope.

(** ** Arithmetic: [src/pkg/anymath] *)

(** [<]: a NaN is not less and not more. *)
Definition float_lt (x y : Z) : bool :=
  negb (float_is_nan x) && negb (float_is_nan y) && (float_rank x <? float_rank y).
Inductive mathfn := FAdd | FMin | FMax.
Definition MaxFloat64 : Z := 9218868437227405311.
Definition Init_Float64 (f : mathfn) : Z := match f with FAdd => 0 | FMin => MaxFloat64 | FMax => float_neg MaxFloat64 end.
Definition Init_Int64 (f : mathfn) : Z := match f with FAdd => 0 | FMin => 2 ^ 63 - 1 | FMax => - 2 ^ 63 end.
Definition Init_Uint64 (f : mathfn) : Z := match f with FAdd => 0 | FMin => 2 ^ 64 - 1 | FMax => 0 end.
Definition fn_Int64 (f : mathfn) (a b : Z) : Z :=
  match f with FAdd => i64 (a + b) | FMin => if a <? b then a else b | FMax => if b <? a then a else b end.
Definition fn_Uint64 (f : mathfn) (a b : Z) : Z :=
  match f with FAdd => u64 (a + b) | FMin => if a <? b then a else b | FMax => if b <? a then a else b end.

Section agg.
Context (to32 of32 to16 of16 : Z -> Z) (nan : Z -> Z -> Z) (float_to_int float_to_uint : Z -> Z).
(** [strconv.ParseFloat] *)
Context (ParseFloat64 : list byte -> option Z).
Context (iteration : forall {A : Type}, list A -> list A).
(** The sketch of the library that counts distinct values. *)
Context {Sketch : Type} (newSketch : Sketch) (Insert : list byte -> Sketch -> Sketch) (Merge : Sketch -> Sketch -> Sketch)
  (Estimate : Sketch -> Z) (MarshalBinary : Sketch -> list byte) (UnmarshalBinary : list byte -> option Sketch).
(** [MaxValueSize], which can be set. *)
Context (MaxValueSize : Z).
Context (sort_entries : list (list byte * list byte) -> list (list byte * list byte)).

Local Abbreviation Under := (Under to32 to16).
Local Abbreviation Float := (Float of32 of16).
Local Abbreviation val_bytes := (val_bytes_ to32 to16).

Definition fn_Float64 (f : mathfn) (a b : Z) : Z :=
  match f with
  | FAdd => float_op (spec_op Add) nan a b
  | FMin => if float_lt a b then a else b
  | FMax => if float_lt b a then a else b
  end.

(** ** Coercion: [ToFloat] and [ToUint] of [coerce.go] *)

Definition ToFloat (v : Value) : outcome diverge (option Z) :=
  v ← Under v;
  let id := ID (v_type v) in
  if IsUnsigned id then u ← no_error (Uint v); Ok (Some (float_of_int u))
  else if IsSigned id then i ← no_error (Int v); Ok (Some (float_of_int i))
  else if IsFloat id then f ← no_error (Float v); Ok (Some f)
  else if id =? primitive_id String then b ← val_bytes v; Ok (ParseFloat64 (default [] b))
  else Ok None.
Definition ParseUint64 (s : list byte) : option Z :=
  match s with
  | [] => None
  | _ => n ← parse_digits s 0; if n <? 2 ^ 64 then Some n else None
  end.
Definition ToUint (v : Value) : outcome diverge (option Z) :=
  v ← Under v;
  let id := ID (v_type v) in
  if IsUnsigned id then u ← no_error (Uint v); Ok (Some u)
  else if IsSigned id then i ← no_error (Int v); Ok (if i <? 0 then None else Some i)
  else if IsFloat id then f ← no_error (Float v); Ok (Some (float_to_uint f))
  else if id =? primitive_id String then b ← val_bytes v; Ok (ParseUint64 (default [] b))
  else Ok None.
Local Abbreviation ToInt := (ToInt to32 of32 to16 of16 float_to_int).

(** ** Sums, minima and maxima: [math.go] *)

Inductive consumer := CFloat64 (state : Z) | CInt64 (state : Z) | CUint64 (state : Z) | CDuration (state : Z) | CTime (state : Z).
Definition typ (m : consumer) : ty :=
  TPrim (match m with CFloat64 _ => Float64 | CInt64 _ => Int64 | CUint64 _ => Uint64 | CDuration _ => Duration | CTime _ => Time end).
Definition result (m : consumer) : Value :=
  match m with
  | CFloat64 s => NewFloat64 s
  | CInt64 s => NewInt64 s
  | CUint64 s => NewUint64 s
  | CDuration s => NewDuration s
  | CTime s => NewTime s
  end.
(** [NewFloat64], [NewInt64], [NewUint64], [NewDuration], [NewTime]: from the
    state of the function so far. *)
Definition coerced (init : Z) (to : Value -> outcome diverge (option Z)) (val : Value) : outcome diverge Z :=
  if IsNull val then Ok init else r ← to val; match r with Some s => Ok s | None => Panic end.
Definition new_consumer (f : mathfn) (id : Z) (val : Value) : outcome diverge (option consumer) :=
  if (6 <=? id) && (id <=? 9) then s ← coerced (Init_Int64 f) ToInt val; Ok (Some (CInt64 s))
  else if (0 <=? id) && (id <=? 3) then s ← coerced (Init_Uint64 f) ToUint val; Ok (Some (CUint64 s))
  else if (14 <=? id) && (id <=? 16) then s ← coerced (Init_Float64 f) ToFloat val; Ok (Some (CFloat64 s))
  else if id =? primitive_id Duration then s ← coerced (Init_Int64 f) ToInt val; Ok (Some (CDuration s))
  else if id =? primitive_id Time then s ← coerced (Init_Int64 f) ToInt val; Ok (Some (CTime s))
  else Ok None.
Definition consume (f : mathfn) (m : consumer) (val : Value) : outcome diverge consumer :=
  match m with
  | CFloat64 s => v ← ToFloat val; Ok (match v with Some v => CFloat64 (fn_Float64 f s v) | None => m end)
  | CInt64 s => v ← ToInt val; Ok (match v with Some v => CInt64 (fn_Int64 f s v) | None => m end)
  | CUint64 s => v ← ToUint val; Ok (match v with Some v => CUint64 (fn_Uint64 f s v) | None => m end)
  | CDuration s => v ← ToInt val; Ok (match v with Some v => CDuration (fn_Int64 f s v) | None => m end)
  | CTime s => v ← ToInt val; Ok (match v with Some v => CTime (fn_Int64 f s v) | None => m end)
  end.

Record mathReducer := mkReducer { function : mathfn; hasval : bool; math : option consumer }.
Definition consumeVal (val : Value) (m : mathReducer) : outcome diverge mathReducer :=
  id ← match math m with
       | Some c =>
           r ← Promote to32 to16 (NewValue (typ c) None) val;
           Ok (match r with inr id => Some id | inl _ => None end)
       | None => Ok (Some (ID (v_type val)))
       end;
  match id with
  | None => Ok m
  | Some id =>
      c ← (if match math m with Some c => negb (ID (typ c) =? id) | None => true end
           then new_consumer (function m) id (match math m with Some c => result c | None => NullValue end)
           else Ok (math m));
      match c with
      | None => Ok m
      | Some c =>
          if IsNull val then Ok (mkReducer (function m) (hasval m) (Some c))
          else c ← consume (function m) c val; Ok (mkReducer (function m) true (Some c))
      end
  end.
Definition reducer_Result (m : mathReducer) : Value :=
  match math m with
  | None => NullValue
  | Some c => if hasval m then result c else NewValue (typ c) None
  end.

(** ** Schemas: [schema.go] *)

Fixpoint type_size (t : ty) : nat :=
  match t with
  | TPrim _ | TEnum _ _ => 1
  | TRecord _ fs => S (foldr (fun f n => type_size f.2 + n)%nat O fs)
  | TArray _ t | TSet _ t | TError _ t | TNamed _ _ t => S (type_size t)
  | TMap _ k v => S (type_size k + type_size v)
  | TUnion _ ts => S (foldr (fun t n => type_size t + n)%nat O ts)
  end.
Definition appendIfAbsent (types : list ty) (t : ty) : list ty := if decide (t ∈ types) then types else types ++ [t].
Fixpoint indexOfField (fields : list field) (name : gostring) : option nat :=
  match fields with
  | [] => None
  | f :: fields => if decide (f.1 = name) then Some O else i ← indexOfField fields name; Some (S i)
  end.
(** The fields of the second record, one after the other, in those of the first. *)
Fixpoint merge_fields (mrg : ty -> ty -> M ty) (fields more : list field) : M (list field) :=
  match more with
  | [] => mret fields
  | f :: more =>
      fields ← match indexOfField fields f.1 with
               | None => mret (fields ++ [f])
               | Some i =>
                   match fields !! i with
                   | Some g => if decide (g = f) then mret fields else t ← mrg g.2 f.2; mret (<[i := (g.1, t)]> fields)
                   | None => panic
                   end
               end;
      merge_fields mrg fields more
  end.
(** [mergeAllRecords]: the records among the types into the first of them. *)
Fixpoint merge_records (mrg : ty -> ty -> M ty) (types out : list ty) (recIndex : option nat) : M (list ty) :=
  match types with
  | [] => mret out
  | t :: types =>
      if IsRecordType t then
        match recIndex with
        | None => merge_records mrg types (out ++ [t]) (Some (length out))
        | Some i =>
            match out !! i with
            | Some r => r ← mrg r t; merge_records mrg types (<[i := r]> out) recIndex
            | None => panic
            end
        end
      else merge_records mrg types (out ++ [t]) recIndex
  end.
Fixpoint merge (fuel : nat) (a b : ty) : M ty :=
  match fuel with
  | O => diverges
  | S fuel =>
      if decide (TypeUnder a = TPrim Null) then mret b
      else if decide (TypeUnder b = TPrim Null) then mret a
      else
        match TypeUnder a, TypeUnder b with
        | TRecord _ fa, TRecord _ fb => fields ← merge_fields (merge fuel) fa fb; MustLookupTypeRecord fields
        | TArray _ a, TArray _ b | TArray _ a, TSet _ b | TSet _ a, TArray _ b => t ← merge fuel a b; LookupTypeArray t
        | TSet _ a, TSet _ b => t ← merge fuel a b; LookupTypeSet t
        | TMap _ ka va, TMap _ kb vb => k ← merge fuel ka kb; v ← merge fuel va vb; LookupTypeMap k v
        | TUnion _ ta, ub =>
            let types := match ub with TUnion _ tb => foldl appendIfAbsent ta tb | _ => appendIfAbsent ta b end in
            types ← merge_records (merge fuel) types [] None;
            match types with [t] => mret t | _ => LookupTypeUnion types end
        | _, TUnion _ _ => merge fuel b a
        | _, _ => LookupTypeUnion [a; b]
        end
  end.
(** The recursion goes down both types; the nodes of a union's records add up. *)
Definition Mixin (s : option ty) (t : ty) : M (option ty) :=
  match s with
  | None => mret (Some t)
  | Some u => r ← merge (4 * (type_size u + type_size t)) u t; mret (Some r)
  end.

(** ** The functions *)

(** The values seen of a type, as their bytes. *)
Definition seen : Type := list (ty * list (list byte)).
Inductive Function :=
  | Count (c : Z)
  | Any (v : option Value)
  | Avg (sum count : Z)
  | DCount (sketch : Sketch)
  | Fuse (shapes : list ty) (partials : list Value)
  | MathReducer (m : mathReducer)
  | CollectMap (entries : list (list byte * (Value * Value)))
  | Union (types : seen) (size : Z)
  | Collect (values : list Value) (size : Z)
  | And (val : option bool)
  | Or (val : option bool).

(** [NewPattern], without its errors. *)
Definition NewPattern (op : gostring) : option Function :=
  let named s := bool_decide (op = str s) in
  if named "count" then Some (Count 0)
  else if named "any" then Some (Any None)
  else if named "avg" then Some (Avg 0 0)
  else if named "dcount" then Some (DCount newSketch)
  else if named "fuse" then Some (Fuse [] [])
  else if named "sum" then Some (MathReducer (mkReducer FAdd false None))
  else if named "collect_map" then Some (CollectMap [])
  else if named "min" then Some (MathReducer (mkReducer FMin false None))
  else if named "max" then Some (MathReducer (mkReducer FMax false None))
  else if named "union" then Some (Union [] 0)
  else if named "collect" then Some (Collect [] 0)
  else if named "and" then Some (And None)
  else if named "or" then Some (Or None)
  else None.

(** *** Union: [union.go] *)

Fixpoint remove_key (key : list byte) (keys : list (list byte)) : list (list byte) :=
  match keys with [] => [] | k :: keys => if decide (k = key) then keys else k :: remove_key key keys end.
Fixpoint remove_value (t : ty) (key : list byte) (types : seen) : seen :=
  match types with
  | [] => []
  | (u, keys) :: types =>
      if decide (u = t) then match remove_key key keys with [] => types | keys => (u, keys) :: types end
      else (u, keys) :: remove_value t key types
  end.
(** The first value of the iteration of a type that has one. *)
Fixpoint first_value (types : seen) : option (ty * list byte) :=
  match types with
  | [] => None
  | (t, keys) :: types => match iteration (list byte) keys with key :: _ => Some (t, key) | [] => first_value types end
  end.
Definition deleteOne (types : seen) (size : Z) : seen * Z :=
  match first_value (iteration (ty * list (list byte)) types) with
  | Some (t, key) => (remove_value t key types, size - zlen key)
  | None => (types, size)
  end.
Fixpoint delete_loop (fuel : nat) (types : seen) (size : Z) : outcome diverge (seen * Z) :=
  if MaxValueSize <? size then
    match fuel with O => Err Diverge | S fuel => let '(types, size) := deleteOne types size in delete_loop fuel types size end
  else Ok (types, size).
(** The bytes among those of the type: whether they are new, and the table. *)
Fixpoint add_value (t : ty) (key : list byte) (types : seen) : bool * seen :=
  match types with
  | [] => (true, [(t, [key])])
  | (u, keys) :: types =>
      if decide (u = t) then if decide (key ∈ keys) then (false, (u, keys) :: types) else (true, (u, keys ++ [key]) :: types)
      else let '(new, types) := add_value t key types in (new, (u, keys) :: types)
  end.
Definition union_update (t : ty) (b : bytes) (types : seen) (size : Z) : outcome diverge Function :=
  let key := default [] b in
  let '(new, types) := add_value t key types in
  if new : bool then
    '(types, size) ← delete_loop (S (length (concat (map snd types)))) types (size + zlen key); Ok (Union types size)
  else Ok (Union types size).
Fixpoint union_updates (inner : ty) (vals : list bytes) (types : seen) (size : Z) : outcome diverge Function :=
  match vals with
  | [] => Ok (Union types size)
  | b :: vals =>
      '(t, b) ← match TypeUnder inner with TUnion id ts => no_error (Untag id ts b) | _ => Ok (inner, b) end;
      f ← union_update t b types size;
      match f with Union types size => union_updates inner vals types size | f => Ok f end
  end.
Fixpoint build_keys (tag : option Z) (keys : list (list byte)) (b : Builder) : outcome diverge Builder :=
  match keys with
  | [] => Ok b
  | key :: keys =>
      b ← match tag with Some tag => no_error (BuildUnion b tag (Some key)) | None => Ok (BAppend b (Some key)) end;
      build_keys tag keys b
  end.
Fixpoint build_types (ts : list ty) (types : seen) (b : Builder) : outcome diverge Builder :=
  match types with
  | [] => Ok b
  | (t, keys) :: types => b ← build_keys (Some (TagOf ts t)) (iteration (list byte) keys) b; build_types ts types b
  end.
Definition union_Result (types : seen) : M Value :=
  match iteration (ty * list (list byte)) types with
  | [] => mret NullValue
  | [(t, keys)] =>
      b ← lift (b ← build_keys None (iteration (list byte) keys) NewBuilder; no_error (Bytes_ b));
      s ← LookupTypeSet t; b ← lift (NormalizeSet b); mret (NewValue s b)
  | first =>
      u ← LookupTypeUnion (map fst first);
      match u with
      | TUnion _ ts =>
          b ← lift (b ← build_types ts (iteration (ty * list (list byte)) types) NewBuilder; no_error (Bytes_ b));
          s ← LookupTypeSet u; b ← lift (NormalizeSet b); mret (NewValue s b)
      | _ => panic
      end
  end.

(** *** Collect: [collect.go] *)

Fixpoint discard_loop (values : list Value) (size : Z) : outcome diverge Function :=
  if MaxValueSize <? size then
    match values with
    | [] => Panic
    | v :: values => b ← val_bytes v; discard_loop values (size - zlen (default [] b))
    end
  else Ok (Collect values size).
Definition collect_update (val : Value) (values : list Value) (size : Z) : outcome diverge Function :=
  u ← Under val;
  b ← val_bytes val;
  discard_loop (values ++ [u]) (size + zlen (default [] b)).
Fixpoint collect_updates (t : ty) (vals : list bytes) (f : Function) : outcome diverge Function :=
  match vals, f with
  | b :: vals, Collect values size => f ← collect_update (NewValue t b) values size; collect_updates t vals f
  | _, _ => Ok f
  end.
Definition innerType (vals : list Value) : M ty :=
  match UniqueTypes (map v_type vals) with [t] => mret t | types => LookupTypeUnion types end.
Fixpoint build_values (inner : ty) (vals : list Value) (b : Builder) : outcome diverge Builder :=
  match vals with
  | [] => Ok b
  | v :: vals =>
      body ← val_bytes v;
      b ← match inner with TUnion _ ts => no_error (BuildUnion b (TagOf ts (v_type v)) body) | _ => Ok (BAppend b body) end;
      build_values inner vals b
  end.
Definition collect_Result (values : list Value) : M Value :=
  match values with
  | [] => mret NullValue
  | _ =>
      inner ← innerType values;
      b ← lift (b ← build_values inner values NewBuilder; no_error (Bytes_ b));
      t ← LookupTypeArray inner;
      mret (NewValue t b)
  end.

(** *** Maps: [collectmap.go] *)

(** [valueUnder] *)
Definition valueUnder (t : ty) (b : bytes) : outcome diverge Value :=
  match TypeUnder t with TUnion _ _ => Under (NewValue t b) | _ => Ok (NewValue t b) end.
(** The entry replaces the one with the same key. *)
Fixpoint put_entry (k : list byte) (e : Value * Value) (entries : list (list byte * (Value * Value))) : list (list byte * (Value * Value)) :=
  match entries with
  | [] => [(k, e)]
  | (k', e') :: entries => if decide (k' = k) then (k, e) :: entries else (k', e') :: put_entry k e entries
  end.
Fixpoint map_entries (fuel : nat) (kt vt : ty) (it : list byte) (entries : list (list byte * (Value * Value))) :
    outcome diverge (list (list byte * (Value * Value))) :=
  if Done it then Ok entries
  else match fuel with
       | O => Err Diverge
       | S fuel =>
           '(keyTagAndBody, it) ← no_error (NextTagAndBody it);
           body ← no_error (Body (Some keyTagAndBody));
           key ← valueUnder kt body;
           '(v, it) ← no_error (Next it);
           val ← valueUnder vt v;
           map_entries fuel kt vt it (put_entry (EncodeTypeValue (v_type key) ++ keyTagAndBody) (key, val) entries)
       end.
Definition collect_map_Consume (val : Value) (entries : list (list byte * (Value * Value))) : outcome diverge Function :=
  if IsNull val then Ok (CollectMap entries)
  else
    match TypeUnder (v_type val) with
    | TMap _ kt vt =>
        b ← val_bytes val;
        es ← map_entries (length (Iter b)) kt vt (Iter b) entries; Ok (CollectMap es)
    | _ => Ok (CollectMap entries)
    end.
(** [unionOf]: the type and how many there were. *)
Definition unionOf (types : list ty) : M (ty * nat) :=
  match UniqueTypes types with
  | [t] => mret (t, 1%nat)
  | types => t ← LookupTypeUnion types; mret (t, length types)
  end.
Definition appendMapVal (b : Builder) (t : ty) (val : Value) (uniq : nat) : outcome diverge Builder :=
  body ← val_bytes val;
  if (1 <? uniq)%nat then
    match TypeUnder t with TUnion _ ts => no_error (BuildUnion b (TagOf ts (v_type val)) body) | _ => Panic end
  else Ok (BAppend b body).
Fixpoint build_entries (kt vt : ty) (ku vu : nat) (entries : list (Value * Value)) (b : Builder) : outcome diverge Builder :=
  match entries with
  | [] => Ok b
  | (k, v) :: entries => b ← appendMapVal b kt k ku; b ← appendMapVal b vt v vu; build_entries kt vt ku vu entries b
  end.
Definition collect_map_Result (entries : list (list byte * (Value * Value))) : M Value :=
  match entries with
  | [] => mret NullValue
  | _ =>
      let es := map snd (iteration (list byte * (Value * Value)) entries) in
      '(kt, ku) ← unionOf (map (fun e => v_type e.1) es);
      '(vt, vu) ← unionOf (map (fun e => v_type e.2) es);
      b ← lift (b ← build_entries kt vt ku vu es NewBuilder; no_error (Bytes_ b));
      t ← LookupTypeMap kt vt;
      b ← lift (NormalizeMap sort_entries b);
      mret (NewValue t b)
  end.

(** *** Any, avg, fuse *)

Definition any_Consume (val : Value) (a : option Value) : option Value :=
  match a with Some a => if IsNull a && negb (IsNull val) then Some val else Some a | None => Some val end.
Definition avg_Consume (val : Value) (sum count : Z) : outcome diverge Function :=
  if IsNull val then Ok (Avg sum count)
  else
    d ← ToFloat val;
    Ok (match d with Some d => Avg (fn_Float64 FAdd sum d) (u64 (count + 1)) | None => Avg sum count end).
Definition avg_Result (sum count : Z) : Value :=
  if 0 <? count then NewFloat64 (float_op (spec_op Divide) nan sum (float_of_int count)) else NewValue (TPrim Float64) None.
Definition avg_partial (sum count : Z) : M Value :=
  b ← lift (b ← no_error (Encode to32 to16 (NewFloat64 sum) None); no_error (Encode to32 to16 (NewUint64 count) b));
  t ← MustLookupTypeRecord [(str "sum", TPrim Float64); (str "count", TPrim Uint64)];
  mret (NewValue t b).
Definition partial_field (name : gostring) (t : primitive) (partial : Value) : outcome diverge Value :=
  v ← value_outcome (Deref to32 to16 (Some partial) name);
  match v with Some v => if decide (v_type v = TPrim t) then Ok v else Panic | None => Panic end.
Definition avg_ConsumeAsPartial (partial : Value) (sum count : Z) : outcome diverge Function :=
  s ← partial_field (str "sum") Float64 partial;
  c ← partial_field (str "count") Uint64 partial;
  s ← no_error (Float s); c ← no_error (Uint c);
  Ok (Avg (fn_Float64 FAdd sum s) (u64 (count + c))).
Fixpoint mixin_all (s : option ty) (types : list ty) : M (option ty) :=
  match types with [] => mret s | t :: types => s ← Mixin s t; mixin_all s types end.
Fixpoint partial_types (partials : list Value) : M (list ty) :=
  match partials with
  | [] => mret []
  | p :: partials =>
      b ← lift (val_bytes p);
      t ← LookupByValue (default [] b);
      match t with Some t => ts ← partial_types partials; mret (t :: ts) | None => panic end
  end.
Definition fuse_Result (shapes : list ty) (partials : list Value) : M Value :=
  match shapes, partials with
  | [], [] => mret (NewValue (TPrim Type_) None)
  | _, _ =>
      ts ← partial_types partials;
      s ← mixin_all None (ts ++ shapes);
      match s with
      | Some t => tv ← LookupTypeValue t; match tv with Some tv => mret (NewValue (TPrim Type_) (Some tv)) | None => Missing end
      | None => panic
      end
  end.

(** *** And, or *)

Definition bool_Consume (op : bool -> bool -> bool) (unit : bool) (val : Value) (a : option bool) : outcome diverge (option bool) :=
  if IsNull val || negb (bool_decide (TypeUnder (v_type val) = TPrim Bool)) then Ok a
  else b ← no_error (Bool_ val); Ok (Some (op (default unit a) b)).
Definition bool_Result (a : option bool) : Value :=
  match a with Some b => NewBool b | None => NewValue (TPrim Bool) None end.

(** *** Count, dcount *)

Definition count_Consume (c : Z) : Function := Count (u64 (c + 1)).
Definition count_ConsumeAsPartial (partial : Value) (c : Z) : outcome diverge Function :=
  if decide (v_type partial = TPrim Uint64) then u ← no_error (Uint partial); Ok (Count (u64 (c + u))) else Panic.
(** The id of the type goes before the bytes. *)
Definition dcount_Consume (val : Value) (sketch : Sketch) : outcome diverge Function :=
  b ← val_bytes val;
  Ok (DCount (Insert (default [] (AppendInt (Some []) (ID (v_type val))) ++ default [] b) sketch)).
Definition dcount_ConsumeAsPartial (partial : Value) (sketch : Sketch) : outcome diverge Function :=
  if decide (v_type partial = TPrim Bytes) then
    b ← val_bytes partial;
    match UnmarshalBinary (default [] b) with Some s => Ok (DCount (Merge sketch s)) | None => Panic end
  else Panic.

(** *** What each does with a value and with a partial result *)

Definition fuse_Consume (val : Value) (shapes : list ty) (partials : list Value) : Function :=
  Fuse (if decide (v_type val ∈ shapes) then shapes else shapes ++ [v_type val]) partials.
Definition fuse_ConsumeAsPartial (partial : Value) (shapes : list ty) (partials : list Value) : outcome diverge Function :=
  if decide (v_type partial = TPrim Type_) then Ok (Fuse shapes (partials ++ [partial])) else Panic.
Definition union_Consume (val : Value) (types : seen) (size : Z) : outcome diverge Function :=
  if IsNull val then Ok (Union types size) else b ← val_bytes val; union_update (v_type val) b types size.
Definition union_ConsumeAsPartial (val : Value) (types : seen) (size : Z) : outcome diverge Function :=
  if IsNull val then Ok (Union types size)
  else match v_type val with
       | TSet _ inner => b ← val_bytes val; vals ← iter_all b; union_updates inner vals types size
       | _ => Panic
       end.
Definition collect_Consume (val : Value) (values : list Value) (size : Z) : outcome diverge Function :=
  if IsNull val then Ok (Collect values size) else collect_update val values size.
Definition collect_ConsumeAsPartial (val : Value) (values : list Value) (size : Z) : outcome diverge Function :=
  b ← val_bytes val;
  if zlen (default [] b) =? 0 then Ok (Collect values size)
  else match v_type val with TArray _ t => vals ← iter_all b; collect_updates t vals (Collect values size) | _ => Panic end.
Definition logical_ConsumeAsPartial (op : bool -> bool -> bool) (unit : bool) (val : Value) (a : option bool) : outcome diverge (option bool) :=
  if decide (v_type val = TPrim Bool) then bool_Consume op unit val a else Panic.

(** ** The interface of the functions *)

Definition Consume (val : Value) (f : Function) : outcome diverge Function :=
  match f with
  | Count c => Ok (count_Consume c)
  | Any a => Ok (Any (any_Consume val a))
  | Avg sum count => avg_Consume val sum count
  | DCount sketch => dcount_Consume val sketch
  | Fuse shapes partials => Ok (fuse_Consume val shapes partials)
  | MathReducer m => m ← consumeVal val m; Ok (MathReducer m)
  | CollectMap entries => collect_map_Consume val entries
  | Union types size => union_Consume val types size
  | Collect values size => collect_Consume val values size
  | And a => a ← bool_Consume andb true val a; Ok (And a)
  | Or a => a ← bool_Consume orb false val a; Ok (Or a)
  end.
Definition ConsumeAsPartial (val : Value) (f : Function) : outcome diverge Function :=
  match f with
  | Count c => count_ConsumeAsPartial val c
  | Any _ | MathReducer _ | CollectMap _ => Consume val f
  | Avg sum count => avg_ConsumeAsPartial val sum count
  | DCount sketch => dcount_ConsumeAsPartial val sketch
  | Fuse shapes partials => fuse_ConsumeAsPartial val shapes partials
  | Union types size => union_ConsumeAsPartial val types size
  | Collect values size => collect_ConsumeAsPartial val values size
  | And a => a ← logical_ConsumeAsPartial andb true val a; Ok (And a)
  | Or a => a ← logical_ConsumeAsPartial orb false val a; Ok (Or a)
  end.
Definition Result (f : Function) : M Value :=
  match f with
  | Count c => mret (NewUint64 c)
  | Any a => mret (default NullValue a)
  | Avg sum count => mret (avg_Result sum count)
  | DCount sketch => mret (NewUint64 (Estimate sketch))
  | Fuse shapes partials => fuse_Result shapes partials
  | MathReducer m => mret (reducer_Result m)
  | CollectMap entries => collect_map_Result entries
  | Union types _ => union_Result types
  | Collect values _ => collect_Result values
  | And a | Or a => mret (bool_Result a)
  end.
Definition ResultAsPartial (f : Function) : M Value :=
  match f with
  | Avg sum count => avg_partial sum count
  | DCount sketch => mret (NewBytes (Some (MarshalBinary sketch)))
  | _ => Result f
  end.

(** ** Aggregations: [expr/agg.go] *)

(** A function with its argument and its [where] clause, as the evaluations of
    their expressions. *)
Record Aggregator := mkAggregator { pattern : Function; a_expr : Value -> M Value; a_where : option (Value -> M Value) }.
Definition NewAggregator (op : gostring) (expr : option (Value -> M Value)) (where_ : option (Value -> M Value)) : option Aggregator :=
  match NewPattern op, expr with
  | Some p, Some e => Some (mkAggregator p e where_)
  | Some (Count c), None => Some (mkAggregator (Count c) (fun _ => mret True_) where_)
  | _, _ => None
  end.
Definition Apply (EvalBool : M Value -> M (Value * bool)) (a : Aggregator) (f : Function) (this : Value) : M Function :=
  take ← match a_where a with
         | None => mret true
         | Some w => '(val, ok) ← EvalBool (w this); if ok : bool then bool_of val else mret false
         end;
  if take : bool then
    v ← a_expr a this;
    missing ← lift (no_error (IsMissing to32 to16 (Some v)));
    if missing : bool then mret f else lift (Consume v f)
  else mret f.
(** [AggregatorExpr.Eval] on its function so far. *)
Definition AggregatorExpr_Eval (EvalBool : M Value -> M (Value * bool)) (a : Aggregator) (fn : option Function) (val : Value) : M (Value * Function) :=
  f ← Apply EvalBool a (default (pattern a) fn) val; r ← Result f; mret (r, f).
End agg.
