(* ===== verification/AggSchema.v ===== *)
(** * Fused types hold the types they are made of

    [merge] of [src/runtime/sam/expr/agg/schema.go] ends and gives a type of the
    context that has room for the values of both types. *)

From S2P Require Import Prelude Zcode Types Context Interning Primitive Values Compare Expr Agg.
Local Open Scope Z_scope.

(** What a value holds, apart from how its type writes it down: the fields of a
    record by name (an absent one and a null one are the same), the elements of
    an array or a set, the entries of a map. *)
Inductive datum :=
| DNull
| DPrim (p : primitive) (b : list byte)
| DEnum (ss : list gostring) (selector : Z)
| DRecord (fs : list (gostring * datum))
| DSeq (ds : list datum)
| DMap (es : list (datum * datum))
| DError (d : datum).

(** The data that a type has room for. *)
Inductive holds : ty -> datum -> Prop :=
  | holds_null t : holds t DNull
  | holds_prim p b : p <> Null -> holds (TPrim p) (DPrim p b)
  | holds_enum i ss n : holds (TEnum i ss) (DEnum ss n)
  | holds_record i fs l : Forall (fun nd => exists u, (nd.1, u) ∈ fs /\ holds u nd.2) l -> holds (TRecord i fs) (DRecord l)
  | holds_array i t ds : Forall (holds t) ds -> holds (TArray i t) (DSeq ds)
  | holds_set i t ds : Forall (holds t) ds -> holds (TSet i t) (DSeq ds)
  | holds_map i k v es : Forall (fun e => holds k e.1 /\ holds v e.2) es -> holds (TMap i k v) (DMap es)
  | holds_union i ts t d : t ∈ ts -> holds t d -> holds (TUnion i ts) d
  | holds_error i t d : holds t d -> holds (TError i t) (DError d)
  | holds_named i n t d : holds t d -> holds (TNamed i n t) d.

(** The first type fits into the second, part by part. *)
Inductive shapes : ty -> ty -> Prop :=
  | shapes_refl t : shapes t t
  | shapes_null a t : TypeUnder a = TPrim Null -> shapes a t
  | shapes_record a t i fa j ft : TypeUnder a = TRecord i fa -> TypeUnder t = TRecord j ft ->
      (forall n u, (n, u) ∈ fa -> exists v, (n, v) ∈ ft /\ shapes u v) -> shapes a t
  | shapes_array a t i u j v : TypeUnder a = TArray i u \/ TypeUnder a = TSet i u -> TypeUnder t = TArray j v -> shapes u v -> shapes a t
  | shapes_set a t i u j v : TypeUnder a = TSet i u -> TypeUnder t = TSet j v -> shapes u v -> shapes a t
  | shapes_map a t i k u j l v : TypeUnder a = TMap i k u -> TypeUnder t = TMap j l v -> shapes k l -> shapes u v -> shapes a t
  | shapes_union_l a t i ts : TypeUnder a = TUnion i ts -> (forall u, u ∈ ts -> shapes u t) -> shapes a t
  | shapes_union_r a t j ts u : TypeUnder t = TUnion j ts -> u ∈ ts -> shapes a u -> shapes a t.

Lemma holds_under t d : holds (TypeUnder t) d <-> holds t d.
Proof.
  induction t as [| | | | | | | |i n t IH] using ty_ind; try done. cbn [TypeUnder]. rewrite IH. split; [apply holds_named|].
  intros H. inversion H; subst; [constructor|done].
Qed.
(** What the size of the fused type is bounded by. *)
Fixpoint width (t : ty) : nat :=
  match t with
  | TPrim _ | TEnum _ _ => 1
  | TRecord _ fs => S (foldr (fun f n => width f.2 + n)%nat O fs)
  | TArray _ t | TSet _ t | TError _ t => S (width t)
  | TNamed _ _ t => width t
  | TMap _ k v => S (width k + width v)
  | TUnion _ ts => Nat.max 1 (foldr (fun t n => width t + n)%nat O ts)
  end.
Definition widths (ts : list ty) : nat := foldr (fun t n => width t + n)%nat O ts.

Lemma width_under t : width (TypeUnder t) = width t.
Proof. induction t using ty_ind; done. Qed.
Lemma widths_app a b : widths (a ++ b) = (widths a + widths b)%nat.
Proof. unfold widths. induction a as [|t a IH]; cbn; lia. Qed.
Lemma widths_perm a b : a ≡ₚ b -> widths a = widths b.
Proof. unfold widths. induction 1; cbn; lia. Qed.
Lemma width_pos t : (1 <= width t)%nat.
Proof. induction t using ty_ind; cbn; lia. Qed.
Lemma length_widths ts : (length ts <= widths ts)%nat.
Proof. induction ts as [|t ts IH]; cbn; [lia|]. pose proof (width_pos t). unfold widths in *. lia. Qed.
Lemma width_record i fs : width (TRecord i fs) = S (widths (map snd fs)).
Proof. cbn. f_equal. unfold widths. induction fs as [|f fs IH]; cbn; lia. Qed.
Lemma widths_cons t ts : widths (t :: ts) = (width t + widths ts)%nat.
Proof. done. Qed.
Lemma width_union i ts : width (TUnion i ts) = Nat.max 1 (widths ts).
Proof. done. Qed.
Lemma widths_insert ts i t u : ts !! i = Some t -> (widths (<[i := u]> ts) + width t = widths ts + width u)%nat.
Proof.
  revert i. induction ts as [|x ts IH]; intros [|i] H; [done..| |].
  - injection H as ->. change (<[0%nat := u]> (t :: ts)) with (u :: ts). rewrite !widths_cons. lia.
  - change (<[S i := u]> (x :: ts)) with (x :: <[i := u]> ts). rewrite !widths_cons. specialize (IH i H). lia.
Qed.
Lemma widths_lookup ts i t : ts !! i = Some t -> (width t <= widths ts)%nat.
Proof. intros H. rewrite <- (take_drop_middle _ _ _ H), widths_app, widths_cons. lia. Qed.
Lemma width_le_size t : (width t <= type_size t)%nat.
Proof.
  induction t as [| ? fs IH | | | | ? ts IH | | | ] using ty_ind; cbn; try lia.
  - induction IH as [|f fs Hf _ IHf]; cbn in *; lia.
  - assert (foldr (fun t n => width t + n) O ts <= foldr (fun t n => type_size t + n) O ts)%nat; [|lia].
    induction IH as [|t ts Ht _ IHt]; cbn in *; lia.
Qed.
Lemma size_under t : (type_size (TypeUnder t) <= type_size t)%nat.
Proof. induction t using ty_ind; cbn; lia. Qed.
Lemma size_member ts t : t ∈ ts -> (type_size t <= foldr (fun t n => type_size t + n) O ts)%nat.
Proof. induction 1; cbn; lia. Qed.
Lemma size_field (fs : list field) n t : (n, t) ∈ fs -> (type_size t <= foldr (fun f n => type_size f.2 + n) O fs)%nat.
Proof. intros H. induction fs as [|f fs IH]; [by apply not_elem_of_nil in H|]. apply elem_of_cons in H as [<-|H]; cbn; [lia|]. specialize (IH H). lia. Qed.

Lemma shapes_of_null a b : shapes a b -> TypeUnder b = TPrim Null -> forall t, shapes a t.
Proof.
  induction 1 as [t|a t Ha|a t i fa j ft Ha Ht|a t i u j v Ha Ht|a t i u j v Ha Ht|a t i k u j l v Ha Ht|a t i ts Ha _ IH|a t j ts u Ht];
    intros Hn w; try congruence; [by apply shapes_null..|]. eapply shapes_union_l; [done|]. intros u Hu. by apply IH.
Qed.

Ltac elem_size :=
  repeat match goal with
  | H : _ \/ _ |- _ => destruct H
  | E : TypeUnder ?t = _, S : (type_size (TypeUnder ?t) <= _)%nat |- _ => rewrite E in S
  end; cbn in *.
(** A type that fits into another holds no other data. *)
Lemma shapes_holds a t : shapes a t -> forall d, holds a d -> holds t d.
Proof.
  remember (type_size a + type_size t)%nat as n eqn:En. revert a t En. induction n as [n IH] using lt_wf_ind.
  intros a t -> H d Hd. pose proof (size_under a) as Sa. pose proof (size_under t) as St.
  apply holds_under in Hd.
  destruct H as [t|a t Ha|a t i fa j ft Ha Ht Hf|a t i u j v Ha Ht Huv|a t i u j v Ha Ht Huv
    |a t i k u j l v Ha Ht Hk Huv|a t i ts Ha Hts|a t j ts u Ht Hu Hau]; [by apply holds_under|..].
  - rewrite Ha in Hd. inversion Hd; subst; [constructor|done].
  - apply holds_under. rewrite Ha in *. rewrite Ht in *. inversion Hd as [| | |? ? es Hl| | | | | |]; subst; constructor.
    eapply Forall_impl; [exact Hl|]. intros [m x] (w & Hw & Hx). destruct (Hf m w Hw) as (v & Hv & Hwv). exists v. split; [done|].
    pose proof (size_field _ _ _ Hw). pose proof (size_field _ _ _ Hv). cbn in Sa, St. refine (IH _ _ w v eq_refl Hwv x Hx). lia.
  - apply holds_under. rewrite Ht in *. assert (Hs : (type_size u + type_size v < type_size a + type_size t)%nat) by (elem_size; lia).
    destruct Ha as [Ha|Ha]; rewrite Ha in Hd; (inversion Hd; subst; constructor; eapply Forall_impl; [done|]; intros x Hx;
      exact (IH _ Hs u v eq_refl Huv x Hx)).
  - apply holds_under. rewrite Ha in *. rewrite Ht in *. cbn in Sa, St. inversion Hd; subst; constructor. eapply Forall_impl; [done|].
    intros x Hx. refine (IH _ _ u v eq_refl Huv x Hx). lia.
  - apply holds_under. rewrite Ha in *. rewrite Ht in *. cbn in Sa, St. inversion Hd as [| | | | | |? ? ? es He| | |]; subst; constructor.
    eapply Forall_impl; [exact He|]. intros e [H1 H2]. split; [refine (IH _ _ k l eq_refl Hk _ H1)|refine (IH _ _ u v eq_refl Huv _ H2)]; lia.
  - rewrite Ha in *. cbn in Sa. inversion Hd as [| | | | | | |? ? w ? Hw Hx| |]; subst; [constructor|].
    pose proof (size_member _ _ Hw). refine (IH _ _ w t eq_refl (Hts w Hw) d Hx). lia.
  - apply holds_under. rewrite Ht in *. cbn in St. eapply holds_union; [exact Hu|]. pose proof (size_member _ _ Hu).
    refine (IH _ _ a u eq_refl Hau d _); [lia|by apply holds_under].
Qed.

Lemma shapes_trans a b c : shapes a b -> shapes b c -> shapes a c.
Proof.
  remember (type_size a + type_size b + type_size c)%nat as n eqn:En. revert a b c En.
  induction n as [n IH] using lt_wf_ind. intros a b c -> H1 H2.
  pose proof (size_under a) as Sa. pose proof (size_under b) as Sb. pose proof (size_under c) as Sc.
  pose proof H1 as H1'. pose proof H2 as H2'.
  destruct H1 as [t|a t Ha|a t i fa j ft Ha Ht Hf|a t i u j v Ha Ht Huv|a t i u j v Ha Ht Huv|a t i k u j l v Ha Ht Hk Huv|a t i ts Ha Hts|a t j ts u Ht Hu Hau];
    [done|by apply shapes_null|..].
  5: { eapply shapes_union_l; [done|]. intros u Hu. pose proof (size_member _ _ Hu). rewrite Ha in Sa. cbn in Sa.
       refine (IH _ _ u t c eq_refl (Hts u Hu) H2). lia. }
  all: destruct H2 as [t|t c Ht2|t c i2 fb j2 fc Ht2 Hc2 Hf2|t c i2 u2 j2 v2 Ht2 Hc2 Huv2|t c i2 u2 j2 v2 Ht2 Hc2 Huv2|
         t c i2 k2 u2 j2 l2 v2 Ht2 Hc2 Hk2 Huv2|t c i2 ts2 Ht2 Hts2|t c j2 ts2 u2 Hc2 Hu2 Htu2]; try done;
       try (by eapply shapes_of_null; eauto);
       try (eapply shapes_union_r; [done..|]; pose proof (size_member _ _ Hu2); rewrite Hc2 in Sc; cbn in Sc;
            refine (IH _ _ _ t u2 eq_refl H1' Htu2); lia);
       try (exfalso; naive_solver congruence).
  - rewrite Ht in Ht2. injection Ht2 as <- <-. eapply shapes_record; [done..|]. intros n u Hu. destruct (Hf n u Hu) as (v & Hv & Huv).
    destruct (Hf2 n v Hv) as (w & Hw & Hvw). exists w. split; [done|].
    pose proof (size_field _ _ _ Hu). pose proof (size_field _ _ _ Hv). pose proof (size_field _ _ _ Hw).
    rewrite Ha in Sa. rewrite Ht in Sb. rewrite Hc2 in Sc. cbn in Sa, Sb, Sc. refine (IH _ _ u v w eq_refl Huv Hvw). lia.
  - assert (v = u2) as <- by (destruct Ht2; congruence). eapply shapes_array; [done..|]. elem_size; refine (IH _ _ u v v2 eq_refl Huv Huv2); lia.
  - assert (v = u2) as <- by (destruct Ht2; congruence). eapply shapes_array; [by right|done|]. elem_size; refine (IH _ _ u v v2 eq_refl Huv Huv2); lia.
  - assert (v = u2) as <- by congruence. eapply shapes_set; [done..|]. elem_size; refine (IH _ _ u v v2 eq_refl Huv Huv2); lia.
  - rewrite Ht in Ht2. injection Ht2 as <- <- <-. elem_size.
    eapply shapes_map; [done..| |]; [refine (IH _ _ k l l2 eq_refl Hk Hk2)|refine (IH _ _ u v v2 eq_refl Huv Huv2)]; lia.
  - rewrite Ht in Ht2. injection Ht2 as <- <-. pose proof (size_member _ _ Hu). rewrite Ht in Sb. cbn in Sb.
    refine (IH _ _ a u c eq_refl Hau (Hts2 u Hu)). lia.
Qed.

(** ** Merging *)

(** What the merge of two types gives, in any context that has them. *)
Definition merged (mrg : ty -> ty -> M ty) (a b : ty) : Prop :=
  forall c, wf c -> member c a -> member c b ->
  exists t c', mrg a b c = Ok (t, c') /\ wf c' /\ grows c c' /\ member c' t /\ (width t <= width a + width b)%nat /\
    shapes a t /\ shapes b t /\ (IsRecordType a = true -> IsRecordType b = true -> IsRecordType t = true).

Lemma indexOfField_None fs n : indexOfField fs n = None -> n ∉ map fst fs.
Proof.
  induction fs as [|f fs IH]; cbn; [intros _; apply not_elem_of_nil|]. case_decide as Hd; [done|].
  destruct (indexOfField fs n); [done|]. intros _. rewrite not_elem_of_cons. split; [congruence|by apply IH].
Qed.
Lemma indexOfField_Some fs n i : indexOfField fs n = Some i -> exists t, fs !! i = Some (n, t).
Proof.
  revert i. induction fs as [|[m t] fs IH]; intros i; cbn; [done|]. case_decide as Hd; [intros [= <-]; subst; by exists t|].
  destruct (indexOfField fs n) as [j|]; [|done]. intros [= <-]. by apply IH.
Qed.

(** Each field of the records is among the fields and holds what it did. *)
Definition held_in (fs out : list field) : Prop := forall n u, (n, u) ∈ fs -> exists v, (n, v) ∈ out /\ shapes u v.
Lemma held_trans a b d : held_in a b -> held_in b d -> held_in a d.
Proof. intros H1 H2 n u Hu. destruct (H1 n u Hu) as (v & Hv & Huv). destruct (H2 n v Hv) as (w & Hw & Hvw). exists w. split; [done|by eapply shapes_trans]. Qed.
Lemma held_subset (a b : list field) : a ⊆ b -> held_in a b.
Proof. intros H n u Hu. exists u. split; [by apply H|constructor]. Qed.
Lemma map_insert {A B} (f : A -> B) l i x : map f (<[i := x]> l) = <[i := f x]> (map f l).
Proof. apply (list_fmap_insert f). Qed.

Section fields.
Context (mrg : ty -> ty -> M ty) (n : nat) (Hmrg : forall a b, (width a + width b <= n)%nat -> merged mrg a b).

Lemma merge_fields_spec more : forall fields c,
  wf c -> Forall (fun f => member c f.2) (fields ++ more) -> Forall (fun f => short f.1) (fields ++ more) ->
  NoDup (map fst fields) -> (widths (map snd fields) + widths (map snd more) <= n)%nat ->
  exists out c', merge_fields mrg fields more c = Ok (out, c') /\ wf c' /\ grows c c' /\
    Forall (fun f => member c' f.2) out /\ Forall (fun f => short f.1) out /\ NoDup (map fst out) /\
    (widths (map snd out) <= widths (map snd fields) + widths (map snd more))%nat /\ held_in fields out /\ held_in more out.
Proof.
  induction more as [|[m t] more IH]; intros fields c Hc Hm Hs Hn Hw; cbn [merge_fields].
  { rewrite app_nil_r in *. exists fields, c. split_and!; try done; [cbn; lia|by apply held_subset|]. intros ?? H. by apply not_elem_of_nil in H. }
  apply Forall_app in Hm as [Hm [Ht Hm']%Forall_cons], Hs as [Hs [Hst Hs']%Forall_cons]. cbn [map snd fst] in *. rewrite widths_cons in Hw.
  assert (Hstep : exists fields' c1, (match indexOfField fields m with
     | None => mret (fields ++ [(m, t)])
     | Some i => match fields !! i with
                 | Some g => if decide (g = (m, t)) then mret fields else u ← mrg g.2 t; mret (<[i := (g.1, u)]> fields)
                 | None => panic end end) c = Ok (fields', c1) /\ wf c1 /\ grows c c1 /\ Forall (fun f => member c1 f.2) fields' /\
     Forall (fun f => short f.1) fields' /\ NoDup (map fst fields') /\ (widths (map snd fields') <= widths (map snd fields) + width t)%nat /\
     held_in fields fields' /\ held_in [(m, t)] fields').
  { destruct (indexOfField fields m) as [i|] eqn:Ei.
    - apply indexOfField_Some in Ei as [u Ei]. rewrite Ei. case_decide as Hd.
      + injection Hd as ->. exists fields, c. split_and!; try done; [lia|by apply held_subset|]. apply held_subset. intros f Hf.
        apply list_elem_of_singleton in Hf as ->. by eapply list_elem_of_lookup_2.
      + assert (Ei2 : map snd fields !! i = Some u) by (by rewrite list_lookup_fmap, Ei).
        pose proof (widths_lookup _ _ _ Ei2). rewrite Forall_forall in Hm. pose proof (list_elem_of_lookup_2 _ _ _ Ei) as Hin.
        destruct (Hmrg u t ltac:(lia) c Hc (Hm _ Hin) Ht) as (v & c1 & E & Hc1 & Hg & Hv & Hwv & Huv & Htv & _). cbn [fst snd].
        exists (<[i := (m, v)]> fields), c1. rewrite (M_bind_Ok _ _ _ _ _ E). split_and!; try done.
        * apply Forall_insert; [|done]. apply Forall_forall. intros f Hf. eapply member_grows; [done|by apply Hm].
        * apply Forall_insert; done.
        * rewrite map_insert. cbn. rewrite list_insert_id; [done|]. by rewrite list_lookup_fmap, Ei.
        * rewrite map_insert. cbn. pose proof (widths_insert _ _ _ v Ei2). lia.
        * intros k w Hk. apply list_elem_of_lookup in Hk as [j Hj]. destruct (decide (j = i)) as [->|Hji].
          -- rewrite Ei in Hj. injection Hj as <- <-. exists v. split; [|done]. apply list_elem_of_lookup. exists i.
             rewrite list_lookup_insert_eq; [done|]. by eapply lookup_lt_Some.
          -- exists w. split; [|constructor]. apply list_elem_of_lookup. exists j. by rewrite list_lookup_insert_ne.
        * intros k w Hk. apply list_elem_of_singleton in Hk. injection Hk as -> ->. exists v. split; [|done]. apply list_elem_of_lookup. exists i.
          rewrite list_lookup_insert_eq; [done|]. by eapply lookup_lt_Some.
    - apply indexOfField_None in Ei. exists (fields ++ [(m, t)]), c. split_and!; try done.
      + apply Forall_app. split; [done|]. by apply Forall_singleton.
      + apply Forall_app. split; [done|]. by apply Forall_singleton.
      + rewrite map_app. apply NoDup_app. split; [done|]. split; [|apply NoDup_singleton]. intros x Hx Hx'. apply list_elem_of_singleton in Hx' as ->. done.
      + rewrite map_app, widths_app. cbn. lia.
      + apply held_subset. set_solver.
      + apply held_subset. set_solver. }
  destruct Hstep as (fields' & c1 & E & Hc1 & Hg1 & Hm1 & Hs1 & Hn1 & Hw1 & Hh1 & Hh2). rewrite (M_bind_Ok _ _ _ _ _ E).
  destruct (IH fields' c1 Hc1) as (out & c' & E' & Hc' & Hg & Hmo & Hso & Hno & Hwo & Hho & Hhm).
  { apply Forall_app. split; [done|]. apply (Forall_impl _ _ _ Hm'). intros f. by apply member_grows. }
  { by apply Forall_app. }
  { done. }
  { lia. }
  exists out, c'. rewrite E'. split_and!; try done; [by transitivity c1|rewrite widths_cons; lia|by eapply held_trans|].
  intros k w [Hk|Hk]%elem_of_cons; [|by apply Hhm]. apply (held_trans _ _ _ Hh2 Hho). rewrite Hk. by left.
Qed.
End fields.

Section records.
Context (mrg : ty -> ty -> M ty) (n : nat).
Context (Hmrg : forall a b, IsRecordType a = true -> IsRecordType b = true -> (width a + width b <= n)%nat -> merged mrg a b).

Definition absorbed (ts out : list ty) : Prop := forall u, u ∈ ts -> exists v, v ∈ out /\ shapes u v.
Lemma absorbed_trans a b d : absorbed a b -> absorbed b d -> absorbed a d.
Proof. intros H1 H2 u Hu. destruct (H1 u Hu) as (v & Hv & Huv). destruct (H2 v Hv) as (w & Hw & Hvw). exists w. split; [done|by eapply shapes_trans]. Qed.
Lemma absorbed_subset (a b : list ty) : a ⊆ b -> absorbed a b.
Proof. intros H u Hu. exists u. split; [by apply H|constructor]. Qed.

Lemma merge_records_spec types : forall out rec c,
  wf c -> Forall (member c) (out ++ types) -> (widths out + widths types <= n)%nat ->
  (forall i, rec = Some i -> exists r, out !! i = Some r /\ IsRecordType r = true) ->
  exists out' c', merge_records mrg types out rec c = Ok (out', c') /\ wf c' /\ grows c c' /\ Forall (member c') out' /\
    (widths out' <= widths out + widths types)%nat /\ absorbed out out' /\ absorbed types out'.
Proof.
  induction types as [|t types IH]; intros out rec c Hc Hm Hw Hrec; cbn [merge_records].
  { rewrite app_nil_r in Hm. exists out, c. split_and!; try done; [lia|by apply absorbed_subset|]. intros ? H. by apply not_elem_of_nil in H. }
  assert (Hput : forall rec', (forall i, rec' = Some i -> exists r, (out ++ [t]) !! i = Some r /\ IsRecordType r = true) ->
    exists out' c', merge_records mrg types (out ++ [t]) rec' c = Ok (out', c') /\ wf c' /\ grows c c' /\ Forall (member c') out' /\
    (widths out' <= widths out + widths (t :: types))%nat /\ absorbed out out' /\ absorbed (t :: types) out').
  { intros rec' Hrec'. destruct (IH (out ++ [t]) rec' c Hc) as (out' & c' & E & Hc' & Hg & Hm' & Hw' & Ho & Ht).
    - by rewrite <- app_assoc.
    - rewrite widths_app. rewrite widths_cons in *. cbn. lia.
    - done.
    - exists out', c'. rewrite E. rewrite widths_app in Hw'. split_and!; try done.
      + rewrite widths_cons. cbn in Hw'. lia.
      + intros u Hu. apply Ho. set_solver.
      + intros u [->|Hu]%elem_of_cons; [apply Ho; set_solver|by apply Ht]. }
  destruct (IsRecordType t) eqn:Et; [|apply Hput; intros i Hi; destruct (Hrec i Hi) as (r & Hr & ?); exists r; split; [by apply lookup_app_l_Some|done]].
  destruct rec as [i|]; [|apply Hput; intros i [= <-]; exists t; split; [by apply list_lookup_middle|done]].
  destruct (Hrec i eq_refl) as (r & Hr & Hrr). rewrite Hr. pose proof (widths_lookup _ _ _ Hr). rewrite widths_cons in *.
  apply Forall_app in Hm as [Hmo [Hmt Hms]%Forall_cons]. pose proof (list_elem_of_lookup_2 _ _ _ Hr) as Hin.
  pose proof Hmo as Hmr. rewrite Forall_forall in Hmr. specialize (Hmr r Hin).
  destruct (Hmrg r t Hrr Et ltac:(lia) c Hc Hmr Hmt) as (v & c1 & E & Hc1 & Hg1 & Hv & Hwv & Hsr & Hst & Hrv). rewrite (M_bind_Ok _ _ _ _ _ E).
  pose proof (widths_insert _ _ _ v Hr) as Hwi. pose proof (lookup_lt_Some _ _ _ Hr) as Hlt.
  destruct (IH (<[i := v]> out) (Some i) c1 Hc1) as (out' & c' & E' & Hc' & Hg & Hm' & Hw' & Ho & Hts).
  { apply Forall_app. split; [|by apply (members_grow c)]. apply Forall_insert; [|done]. by apply (members_grow c). }
  { lia. }
  { intros j [= <-]. exists v. split; [by apply list_lookup_insert_eq|by apply Hrv]. }
  assert (Hvin : exists w, w ∈ out' /\ shapes v w) by (apply Ho; apply list_elem_of_lookup; exists i; by apply list_lookup_insert_eq).
  exists out', c'. rewrite E'. split_and!; try done; [by transitivity c1|lia|..].
  - refine (absorbed_trans _ _ _ _ Ho). intros u Hu. apply list_elem_of_lookup in Hu as [j Hj]. destruct (decide (j = i)) as [->|Hji].
    + rewrite Hr in Hj. injection Hj as <-. exists v. split; [|done]. apply list_elem_of_lookup. exists i. by apply list_lookup_insert_eq.
    + exists u. split; [|constructor]. apply list_elem_of_lookup. exists j. by rewrite list_lookup_insert_ne.
  - intros u [->|Hu]%elem_of_cons; [|by apply Hts]. destruct Hvin as (w & Hw2 & Hvw). exists w. split; [done|by eapply shapes_trans].
Qed.
End records.

(** ** The fused type *)

Lemma zlen_short {A} (l : list A) n : (length l <= n)%nat -> Z.of_nat n < 2 ^ 63 -> short l.
Proof. unfold short, zlen. lia. Qed.
Lemma record_type t i fs : TypeUnder t = TRecord i fs -> IsRecordType t = true.
Proof. intros H. unfold IsRecordType. by rewrite H. Qed.

Lemma appendIfAbsent_elem ts t u : u ∈ appendIfAbsent ts t <-> u ∈ ts \/ u = t.
Proof. unfold appendIfAbsent. case_decide; set_solver. Qed.
Lemma appendIfAbsent_widths ts t : (widths (appendIfAbsent ts t) <= widths ts + width t)%nat.
Proof. unfold appendIfAbsent. case_decide; [lia|]. rewrite widths_app. cbn. lia. Qed.
Lemma append_all_elem us : forall ts u, u ∈ foldl appendIfAbsent ts us <-> u ∈ ts \/ u ∈ us.
Proof. induction us as [|t us IH]; intros ts u; cbn; [set_solver|]. rewrite IH, appendIfAbsent_elem. set_solver. Qed.
Lemma append_all_widths us : forall ts, (widths (foldl appendIfAbsent ts us) <= widths ts + widths us)%nat.
Proof. induction us as [|t us IH]; intros ts; cbn [foldl]; [cbn; lia|]. pose proof (IH (appendIfAbsent ts t)). pose proof (appendIfAbsent_widths ts t). rewrite widths_cons. lia. Qed.

(** The union of types that absorb others. *)
Lemma union_of_spec c ts n : wf c -> Forall (member c) ts -> (widths ts <= n)%nat -> (1 <= n)%nat -> Z.of_nat n < 2 ^ 63 ->
  exists t c', (match ts with [t] => mret t | _ => LookupTypeUnion ts end) c = Ok (t, c') /\ wf c' /\ grows c c' /\ member c' t /\
    (width t <= n)%nat /\ forall u, u ∈ ts -> shapes u t.
Proof.
  intros Hc Hm Hw Hn Hb.
  assert (H : exists t c', LookupTypeUnion ts c = Ok (t, c') /\ wf c' /\ grows c c' /\ member c' t /\ (width t <= n)%nat /\ forall u, u ∈ ts -> shapes u t).
  { destruct (union_lookup c Hc ts) as (i & us & c' & E & Hp & Hc' & Hg & Hmu); [|done|].
    - apply (zlen_short _ n); [|done]. pose proof (length_widths ts). lia.
    - exists (TUnion i us), c'. split_and!; try done.
      + rewrite width_union, (widths_perm _ _ Hp). lia.
      + intros u Hu. rewrite <- Hp in Hu. eapply shapes_union_r; [done|exact Hu|constructor]. }
  destruct ts as [|t [|t2 ts]]; [done| |done]. apply Forall_cons in Hm as [Hm _]. rewrite widths_cons in Hw. exists t, c. split_and!; try done; [lia|].
  intros u Hu%list_elem_of_singleton. subst u. constructor.
Qed.

(** The fuel that two types need: three calls for a step down. *)
Definition need (a b : ty) : nat :=
  2 * (width a + width b) +
  match TypeUnder a, TypeUnder b with TRecord _ _, TRecord _ _ => 0 | TUnion _ _, _ => 1 | _, TUnion _ _ => 2 | _, _ => 3 end.
Lemma need_le a b : (need a b <= 2 * (width a + width b) + 3)%nat.
Proof. unfold need. repeat case_match; lia. Qed.
Lemma need_records a b : IsRecordType a = true -> IsRecordType b = true -> need a b = (2 * (width a + width b))%nat.
Proof. unfold need, IsRecordType. repeat case_match; try done; lia. Qed.

Definition mergeable (mrg : ty -> ty -> M ty) (fuel : nat) : Prop :=
  forall a b, (need a b <= fuel)%nat -> Z.of_nat (width a + width b) < 2 ^ 63 -> merged mrg a b.

Section step.
Context (fuel : nat) (IH : mergeable (merge fuel) fuel) (a b : ty) (Hfuel : (need a b <= S fuel)%nat) (Hb : Z.of_nat (width a + width b) < 2 ^ 63).
Context (c : Context) (Hc : wf c) (Ha : member c a) (Hmb : member c b).

Lemma merge_records_case i fa j fb : TypeUnder a = TRecord i fa -> TypeUnder b = TRecord j fb ->
  exists t c', (fields ← merge_fields (merge fuel) fa fb; MustLookupTypeRecord fields) c = Ok (t, c') /\ wf c' /\ grows c c' /\ member c' t /\
    (width t <= width a + width b)%nat /\ shapes a t /\ shapes b t /\ IsRecordType t = true.
Proof.
  intros Ea Eb. destruct (record_fields c Hc a i fa Ha Ea) as (Hma & Hsa & Hna), (record_fields c Hc b j fb Hmb Eb) as (Hmfb & Hsb & Hnb).
  pose proof (need_records a b (record_type _ _ _ Ea) (record_type _ _ _ Eb)) as Hneed. rewrite Hneed in Hfuel.
  pose proof (width_under a) as Wa. pose proof (width_under b) as Wb. rewrite Ea, width_record in Wa. rewrite Eb, width_record in Wb.
  destruct (merge_fields_spec (merge fuel) (widths (map snd fa) + widths (map snd fb))) with (more := fb) (fields := fa) (c := c)
    as (out & c1 & E & Hc1 & Hg1 & Hmo & Hso & Hno & Hwo & Hha & Hhb); try done.
  { intros x y Hxy. apply IH; [|lia]. pose proof (need_le x y). lia. }
  { by apply Forall_app. }
  { by apply Forall_app. }
  destruct (record_lookup c1 Hc1 out) as (k & c' & E' & Hc' & Hg & Hm); try done.
  { apply (zlen_short _ (width a + width b)); [|done]. pose proof (length_widths (map snd out)) as Hl. rewrite length_map in Hl. lia. }
  exists (TRecord k out), c'. rewrite (M_bind_Ok _ _ _ _ _ E). split_and!; try done; [by transitivity c1|rewrite width_record; lia|..].
  - by eapply shapes_record.
  - by eapply shapes_record.
Qed.

Lemma merge_elems_case x y (lk : ty -> M ty) (mk : Z -> ty -> ty) :
  (S (width x) = width a)%nat -> (S (width y) = width b)%nat -> member c x -> member c y ->
  (forall c t, wf c -> member c t -> exists i c', lk t c = Ok (mk i t, c') /\ wf c' /\ grows c c' /\ member c' (mk i t)) ->
  (forall i t, width (mk i t) = S (width t)) ->
  (forall i t, shapes x t -> shapes a (mk i t)) -> (forall i t, shapes y t -> shapes b (mk i t)) ->
  exists t c', (t ← merge fuel x y; lk t) c = Ok (t, c') /\ wf c' /\ grows c c' /\ member c' t /\
    (width t <= width a + width b)%nat /\ shapes a t /\ shapes b t.
Proof.
  intros Wx Wy Hx Hy Hlk Hwk Hsa Hsb. pose proof (need_le x y).
  assert (need x y <= fuel)%nat by (unfold need in Hfuel; lia).
  destruct (IH x y ltac:(done) ltac:(lia) c Hc Hx Hy) as (t & c1 & E & Hc1 & Hg1 & Hmt & Hwt & Hst & Hst2 & _).
  destruct (Hlk c1 t Hc1 Hmt) as (i & c' & E' & Hc' & Hg & Hm).
  exists (mk i t), c'. rewrite (M_bind_Ok _ _ _ _ _ E). split_and!; try done; [by transitivity c1|rewrite Hwk; lia|by apply Hsa|by apply Hsb].
Qed.

Lemma merge_maps_case i ka va j kb vb : TypeUnder a = TMap i ka va -> TypeUnder b = TMap j kb vb ->
  exists t c', (k ← merge fuel ka kb; v ← merge fuel va vb; LookupTypeMap k v) c = Ok (t, c') /\ wf c' /\ grows c c' /\ member c' t /\
    (width t <= width a + width b)%nat /\ shapes a t /\ shapes b t.
Proof.
  intros Ea Eb. pose proof (member_parts c Hc a _ Ha Ea) as Hma. pose proof (member_parts c Hc b _ Hmb Eb) as Hmp. cbn in Hma, Hmp.
  apply Forall_cons in Hma as [Hka [Hva _]%Forall_cons], Hmp as [Hkb [Hvb _]%Forall_cons].
  pose proof (width_under a) as Wa. pose proof (width_under b) as Wb. rewrite Ea in Wa. rewrite Eb in Wb. cbn in Wa, Wb.
  pose proof (need_le ka kb). pose proof (need_le va vb). unfold need in Hfuel. rewrite Ea, Eb in Hfuel.
  destruct (IH ka kb ltac:(lia) ltac:(lia) c Hc Hka Hkb) as (k & c1 & E1 & Hc1 & Hg1 & Hmk & Hwk & Hsk & Hsk2 & _).
  destruct (IH va vb ltac:(lia) ltac:(lia) c1 Hc1) as (v & c2 & E2 & Hc2 & Hg2 & Hmv & Hwv & Hsv & Hsv2 & _); [by eapply member_grows..|].
  destruct (map_lookup c2 Hc2 k v) as (l & c' & E' & Hc' & Hg & Hm); [by eapply member_grows|done|].
  exists (TMap l k v), c'. rewrite (M_bind_Ok _ _ _ _ _ E1), (M_bind_Ok _ _ _ _ _ E2). split_and!; try done.
  - transitivity c2; [|done]. by transitivity c1.
  - cbn. lia.
  - by eapply shapes_map.
  - by eapply shapes_map.
Qed.

Lemma merge_unions_case i ta : TypeUnder a = TUnion i ta ->
  let types := match TypeUnder b with TUnion _ tb => foldl appendIfAbsent ta tb | _ => appendIfAbsent ta b end in
  exists t c', (types ← merge_records (merge fuel) types [] None; match types with [t] => mret t | _ => LookupTypeUnion types end) c = Ok (t, c') /\
    wf c' /\ grows c c' /\ member c' t /\ (width t <= width a + width b)%nat /\ shapes a t /\ shapes b t.
Proof.
  intros Ea types. assert (Ety : types = match TypeUnder b with TUnion _ tb => foldl appendIfAbsent ta tb | _ => appendIfAbsent ta b end) by done.
  clearbody types. pose proof (member_parts c Hc a _ Ha Ea) as Hma. cbn in Hma.
  pose proof (width_under a) as Wa. rewrite Ea, width_union in Wa. pose proof (width_pos b) as Wb0.
  assert (Ht : Forall (member c) types /\ (widths types <= width a + width b)%nat /\ (forall u, u ∈ ta -> u ∈ types) /\
    forall t, (forall u, u ∈ types -> shapes u t) -> shapes b t).
  { assert (Helse : types = appendIfAbsent ta b -> Forall (member c) types /\ (widths types <= width a + width b)%nat /\ (forall u, u ∈ ta -> u ∈ types) /\
      forall t, (forall u, u ∈ types -> shapes u t) -> shapes b t).
    { intros ->. pose proof (appendIfAbsent_widths ta b). split_and!; [|lia|intros u Hu; apply appendIfAbsent_elem; by left|].
      - apply Forall_forall. intros u [Hu| ->]%appendIfAbsent_elem; [|done]. rewrite Forall_forall in Hma. by apply Hma.
      - intros t Ht. apply Ht. apply appendIfAbsent_elem. by right. }
    destruct (TypeUnder b) as [| | | | |? tb| | |] eqn:Eb; try (by apply Helse). subst types.
    pose proof (member_parts c Hc b _ Hmb Eb) as Hmp. cbn in Hmp. pose proof (append_all_widths tb ta) as Hw.
    pose proof (width_under b) as Wb. rewrite Eb, width_union in Wb. split_and!; [|lia| |].
    - apply Forall_forall. rewrite Forall_forall in Hma, Hmp. intros u [Hu|Hu]%append_all_elem; auto.
    - intros u Hu. apply append_all_elem. by left.
    - intros t H. eapply shapes_union_l; [done|]. intros u Hu. apply H, append_all_elem. by right. }
  destruct Ht as (Hmt & Hwt & Hta & Htb). unfold need in Hfuel. rewrite Ea in Hfuel.
  destruct (merge_records_spec (merge fuel) (width a + width b)) with (types := types) (out := @nil ty) (rec := @None nat) (c := c)
    as (out & c1 & E & Hc1 & Hg1 & Hm1 & Hw1 & _ & Hout); try done.
  { intros x y Hx Hy Hxy. apply IH; [|lia]. rewrite (need_records x y Hx Hy). lia. }
  pose proof (width_pos a) as Wa0. rewrite (M_bind_Ok _ _ _ _ _ E).
  destruct (union_of_spec c1 out (width a + width b) Hc1 Hm1) as (t & c' & E' & Hc' & Hg & Hm & Hw & Hs); [cbn in Hw1; lia|lia|done|].
  assert (Hall : forall u, u ∈ types -> shapes u t).
  { intros u Hu. destruct (Hout u Hu) as (v & Hv & Huv). by apply (shapes_trans _ v), Hs. }
  exists t, c'. rewrite E'. split_and!; try done; [by transitivity c1| |by apply Htb].
  eapply shapes_union_l; [done|]. intros u Hu. by apply Hall, Hta.
Qed.
End step.

Lemma union2_spec a b c : wf c -> member c a -> member c b -> Z.of_nat (width a + width b) < 2 ^ 63 ->
  exists t c', LookupTypeUnion [a; b] c = Ok (t, c') /\ wf c' /\ grows c c' /\ member c' t /\ (width t <= width a + width b)%nat /\
    shapes a t /\ shapes b t.
Proof.
  intros Hc Ha Hb Hw. pose proof (width_pos a).
  destruct (union_of_spec c [a; b] (width a + width b) Hc) as (t & c' & E & Hc' & Hg & Hm & Hwt & Hs); [apply Forall_cons; split; [done|by apply Forall_singleton]|cbn; lia|lia|done|].
  exists t, c'. split_and!; try done; apply Hs; set_solver.
Qed.

Lemma merge_spec fuel : mergeable (merge fuel) fuel.
Proof.
  induction fuel as [|fuel IH]; intros a b Hf Hb c Hc Ha Hmb.
  { unfold need in Hf. pose proof (width_pos a). lia. }
  cbn [merge]. case_decide as Hna; [exists b, c; split_and!; try done; [lia|by apply shapes_null|constructor]|].
  case_decide as Hnb; [exists a, c; split_and!; try done; [lia|constructor|by apply shapes_null]|].
  assert (Hweak : forall m : M ty, IsRecordType a && IsRecordType b = false ->
    (exists t c', m c = Ok (t, c') /\ wf c' /\ grows c c' /\ member c' t /\ (width t <= width a + width b)%nat /\ shapes a t /\ shapes b t) ->
    exists t c', m c = Ok (t, c') /\ wf c' /\ grows c c' /\ member c' t /\ (width t <= width a + width b)%nat /\ shapes a t /\ shapes b t /\
      (IsRecordType a = true -> IsRecordType b = true -> IsRecordType t = true)).
  { intros m Hrec (t & c' & E & ? & ? & ? & ? & ? & ?). exists t, c'. split_and!; try done. intros Hra Hrb. by rewrite Hra, Hrb in Hrec. }
  assert (Hun : forall u, TypeUnder a = u -> match u with TUnion _ _ => False | _ => True end -> match TypeUnder b with TUnion _ _ => True | _ => False end ->
    exists t c', merge fuel b a c = Ok (t, c') /\ wf c' /\ grows c c' /\ member c' t /\ (width t <= width a + width b)%nat /\ shapes a t /\ shapes b t).
  { intros u Eu Hu Hub. destruct (IH b a) with (c := c) as (t & c' & E & ? & ? & ? & ? & ? & ? & _); try done; [|lia|by exists t, c'; split_and!; try done; lia].
    unfold need in Hf |- *. rewrite Eu in Hf. destruct (TypeUnder b); try done. destruct u; try done; lia. }
  pose proof (width_under a) as Wa. pose proof (width_under b) as Wb.
  destruct (TypeUnder a) as [p|i fa|i x|i x|i k v|i ta|i ss|i x|i nm x] eqn:Ea; destruct (TypeUnder b) as [q|j fb|j y|j y|j l w|j tb|j tt|j y|j nn y] eqn:Eb;
    try (apply Hweak; [unfold IsRecordType; by rewrite Ea, ?Eb|]);
    try (by apply union2_spec); try (by apply (Hun _ eq_refl));
    try (pose proof (merge_unions_case fuel IH a b Hf Hb c Hc Ha Hmb i ta Ea) as Hm; rewrite Eb in Hm; exact Hm);
    try (eapply (merge_elems_case fuel IH a b Hf Hb c Hc x y); [by rewrite <- Wa|by rewrite <- Wb|
      by pose proof (member_parts c Hc a _ Ha Ea) as [? _]%Forall_cons|by pose proof (member_parts c Hc b _ Hmb Eb) as [? _]%Forall_cons|..];
      first [intros c1 u Hc1 Hu; by apply array_lookup|intros c1 u Hc1 Hu; by apply set_lookup|done|
        intros k u Hu; by eapply shapes_array; [left|..]|intros k u Hu; by eapply shapes_array; [right|..]|intros k u Hu; by eapply shapes_set]).
  - destruct (merge_records_case fuel IH a b Hf Hb c Hc Ha Hmb i fa j fb Ea Eb) as (t & c' & E & ? & ? & ? & ? & ? & ? & ?).
    exists t, c'. by split_and!.
  - by eapply merge_maps_case.
Qed.

Lemma mixin_spec types : forall s c n, wf c -> Forall (member c) types -> member c s -> (width s + widths types <= n)%nat -> Z.of_nat n < 2 ^ 63 ->
  exists t c', mixin_all (Some s) types c = Ok (Some t, c') /\ wf c' /\ grows c c' /\ member c' t /\ shapes s t /\ forall u, u ∈ types -> shapes u t.
Proof.
  induction types as [|u types IH]; intros s c n Hc Hm Hs Hw Hn.
  { exists s, c. split_and!; try done; [constructor|]. intros u Hu. by apply not_elem_of_nil in Hu. }
  apply Forall_cons in Hm as [Hu Hm]. rewrite widths_cons in Hw.
  pose proof (width_le_size s). pose proof (width_le_size u). pose proof (width_pos s). pose proof (width_pos u). pose proof (need_le s u).
  destruct (merge_spec (4 * (type_size s + type_size u)) s u ltac:(lia) ltac:(lia) c Hc Hs Hu) as (v & c1 & E & Hc1 & Hg1 & Hv & Hwv & Hsv & Huv & _).
  destruct (IH v c1 n Hc1) as (t & c' & E' & Hc' & Hg & Ht & Hvt & Hall); [by eapply members_grow|done|lia|done|].
  exists t, c'. split_and!; try done.
  - cbn [mixin_all]. unfold Mixin at 1. rewrite (M_bind_Ok _ _ c (Some v) c1); [done|]. by rewrite (M_bind_Ok _ _ _ _ _ E).
  - by transitivity c1.
  - by eapply shapes_trans.
  - intros w [->|Hw']%elem_of_cons; [by eapply shapes_trans|by apply Hall].
Qed.
