(* ===== verification/AggProofs.v ===== *)
(** * Partial results stand for the values they were made of

    [Decomposes] is what the group-by operator relies on when it spills: a
    function that consumed values gives a partial result, and a function of the
    same kind that consumes it is where it would be had it consumed the values. *)

From S2P Require Import Prelude Zcode Types Context Interning Primitive Values ValueProofs Compare Expr ExprProofs Spill Agg.
Local Open Scope Z_scope.

Section agg.
Context (to32 of32 to16 of16 : Z -> Z) (nan : Z -> Z -> Z) (float_to_int float_to_uint : Z -> Z).
Context (ParseFloat64 : list byte -> option Z) (iteration : forall {A : Type}, list A -> list A).
Context {Sketch : Type} (Insert : list byte -> Sketch -> Sketch) (Merge : Sketch -> Sketch -> Sketch)
  (Estimate : Sketch -> Z) (MarshalBinary : Sketch -> list byte) (UnmarshalBinary : list byte -> option Sketch).
Context (MaxValueSize : Z) (sort_entries : list (list byte * list byte) -> list (list byte * list byte)).
Local Abbreviation Function := (Function (Sketch := Sketch)).
Local Abbreviation Consume := (Consume to32 of32 to16 of16 nan float_to_int float_to_uint ParseFloat64 (@iteration) Insert MaxValueSize).
Local Abbreviation ConsumeAsPartial :=
  (ConsumeAsPartial to32 of32 to16 of16 nan float_to_int float_to_uint ParseFloat64 (@iteration) Insert Merge UnmarshalBinary MaxValueSize).
Local Abbreviation Result := (Result to32 to16 nan (@iteration) Estimate sort_entries).
Local Abbreviation ResultAsPartial := (ResultAsPartial to32 to16 nan (@iteration) Estimate MarshalBinary sort_entries).

(** A value as it is read back. *)
Definition raw_of (m : M Value) : M Value := v ← m; lift (reread to32 to16 v).

Class Decomposes (start : Function) := {
  stands : Function -> list Value -> Prop;
  fits : Context -> list Value -> Prop;
  fits_grows c c' vals : grows c c' -> fits c vals -> fits c' vals;
  fits_app c a b : fits c (a ++ b) -> fits c a /\ fits c b;
  d_start : stands start [];
  d_consume f vals v c : stands f vals -> fits c (vals ++ [v]) -> exists f', Consume v f = Ok f' /\ stands f' (vals ++ [v]);
  d_partial f vals c : wf c -> stands f vals -> vals <> [] -> fits c vals ->
    exists p c', raw_of (ResultAsPartial f) c = Ok (p, c') /\ wf c' /\ grows c c' /\ IsError p = false /\
      forall g seen c2, stands g seen -> fits c2 (seen ++ vals) -> exists g', ConsumeAsPartial p g = Ok g' /\ stands g' (seen ++ vals);
  d_result f g vals c : wf c -> stands f vals -> stands g vals -> fits c vals -> raw_of (Result f) c = raw_of (Result g) c }.

(** ** Count *)

Lemma Uint_raw_uint64 n : 0 <= n < 2 ^ 64 ->
  exists w, reread to32 to16 (NewUint64 n) = Ok w /\ v_type w = TPrim Uint64 /\ Uint w = Ok n /\ IsError w = false.
Proof.
  intros Hn. destruct (uint_roundtrip n Hn) as (b & Eb & Hd). exists (NewValue (TPrim Uint64) b).
  unfold reread, NewUint64, NewUint, newNativeValue. rewrite u64_id by done. cbn [Value_Bytes v_repr v_type].
  change ((0 <=? ID (TPrim Uint64)) && (ID (TPrim Uint64) <=? 3)) with true. cbn iota. rewrite Eb. split_and!; try done.
  unfold Uint. cbn. by rewrite Hd.
Qed.
Lemma Int_raw_int64 n : - 2 ^ 63 <= n < 2 ^ 63 ->
  exists b, reread to32 to16 (NewInt64 n) = Ok (NewValue (TPrim Int64) (Some b)) /\ DecodeInt (Some b) = n.
Proof.
  intros Hn. pose proof (EncodeInt_AppendInt n Hn) as Eb. destruct (int_roundtrip n Hn) as (b & Eb' & Hb & Hd).
  rewrite Eb in Eb'. injection Eb' as <-. destruct (AppendInt None n) as [b|] eqn:E; [|done]. exists b. split; [|done].
  unfold reread, NewInt64, NewInt, newNativeValue. cbn [Value_Bytes v_repr v_type].
  change ((0 <=? ID (TPrim Int64)) && (ID (TPrim Int64) <=? 3)) with false.
  change (((6 <=? ID (TPrim Int64)) && (ID (TPrim Int64) <=? 9)) || (ID (TPrim Int64) =? 12) || (ID (TPrim Int64) =? 13)) with true.
  cbn iota. rewrite i64_u64, i64_id by lia. by rewrite Eb.
Qed.

#[export] Program Instance count_decomposes : Decomposes (Count 0) :=
  {| stands f vals := f = Count (u64 (zlen vals)); fits c vals := True |}.
Next Obligation. done. Qed.
Next Obligation. done. Qed.
Next Obligation. done. Qed.
Next Obligation.
  intros f vals v c -> _. eexists. split; [done|]. unfold count_Consume. f_equal. rewrite zlen_app. unfold u64. rewrite Zplus_mod_idemp_l. done.
Qed.
Next Obligation.
  intros f vals c Hc -> _ _. destruct (Uint_raw_uint64 (u64 (zlen vals))) as (w & E & Hw & Hu & He); [unfold u64; apply Z.mod_pos_bound; lia|].
  exists w, c. split_and!; try done.
  - unfold raw_of. cbn. rewrite M_ret_l. unfold lift. rewrite E. done.
  - intros g seen c2 -> _. cbn [Agg.ConsumeAsPartial]. unfold count_ConsumeAsPartial. rewrite decide_True by done. rewrite Hu. eexists. split; [done|].
    f_equal. rewrite zlen_app. unfold u64. by rewrite <- Zplus_mod.
Qed.
Next Obligation. by intros f g vals c _ -> ->. Qed.

(** ** And, or *)

(** The boolean that a value counts as. *)
Definition bool_of_value (v : Value) : option bool :=
  if IsNull v || negb (bool_decide (TypeUnder (v_type v) = TPrim Bool)) then None
  else match Bool_ v with Ok b => Some b | _ => None end.
Definition readable_bool (v : Value) : Prop :=
  IsNull v = false -> TypeUnder (v_type v) = TPrim Bool -> exists b, Bool_ v = Ok b.
Definition bools_of (op : bool -> bool -> bool) (unit : bool) (vals : list Value) : option bool :=
  match omap bool_of_value vals with [] => None | bs => Some (foldl op unit bs) end.

Section bools.
Context (op : bool -> bool -> bool) (unit : bool).
Context (op_assoc : forall a b c, op (op a b) c = op a (op b c)) (op_unit : forall a, op a unit = a) (op_unit_l : forall a, op unit a = a).

Lemma bools_of_app a b :
  bools_of op unit (a ++ b) =
    match bools_of op unit a, bools_of op unit b with Some x, Some y => Some (op x y) | Some x, None => Some x | None, y => y end.
Proof.
  unfold bools_of. rewrite omap_app.
  assert (Hf : forall bs x, foldl op x bs = op x (foldl op unit bs)).
  { induction bs as [|y bs IH]; intros x; [by rewrite op_unit|]. cbn. rewrite (IH (op x y)), (IH (op unit y)). by rewrite op_unit_l, op_assoc. }
  destruct (omap bool_of_value a) as [|x xs]; [done|]. destruct (omap bool_of_value b) as [|y ys]; [by rewrite app_nil_r|].
  cbn [app]. f_equal. change (x :: xs ++ y :: ys) with ((x :: xs) ++ y :: ys). rewrite foldl_app. by rewrite (Hf (y :: ys)).
Qed.

Lemma bool_Consume_spec v a : readable_bool v ->
  bool_Consume op unit v a = Ok (match a, bools_of op unit [v] with Some x, Some y => Some (op x y) | Some x, None => Some x | None, y => y end).
Proof.
  intros Hv. unfold bool_Consume, bools_of, bool_of_value. cbn [omap list_omap]. destruct (IsNull v) eqn:En; cbn [orb]; [by destruct a|].
  case_bool_decide as Ht; cbn [negb]; [|by destruct a]. destruct (Hv En Ht) as [b Eb]. rewrite Eb. cbn [no_error mbind outcome_bind obind foldl].
  destruct a as [x|]; cbn [default from_option id]; [|done]. by rewrite op_unit_l.
Qed.

Lemma bool_Result_raw a : exists w, reread to32 to16 (bool_Result a) = Ok w /\ v_type w = TPrim Bool /\ IsError w = false /\
  readable_bool w /\ bools_of op unit [w] = a.
Proof.
  destruct a as [[]|]; eexists; (split; [reflexivity|]); (split; [done|]); (split; [done|]).
  - split; [intros _ _; by exists true|]. unfold bools_of. change (omap bool_of_value _) with [true]. cbn. by rewrite op_unit_l.
  - split; [intros _ _; by exists false|]. unfold bools_of. change (omap bool_of_value _) with [false]. cbn. by rewrite op_unit_l.
  - split; [|done]. intros Hn. done.
Qed.
End bools.

Section logical.
Context (mk : option bool -> Function) (op : bool -> bool -> bool) (unit : bool).
Context (op_assoc : forall a b c, op (op a b) c = op a (op b c)) (op_unit : forall a, op a unit = a) (op_unit_l : forall a, op unit a = a).
Context (mk_consume : forall v a, Consume v (mk a) = (a ← bool_Consume op unit v a; Ok (mk a))).
Context (mk_partial : forall v a, ConsumeAsPartial v (mk a) = (a ← logical_ConsumeAsPartial op unit v a; Ok (mk a))).
Context (mk_result : forall a, Result (mk a) = mret (bool_Result a) /\ ResultAsPartial (mk a) = mret (bool_Result a)).

Lemma logical_decomposes : Decomposes (mk None).
Proof.
  refine {| stands f vals := f = mk (bools_of op unit vals); fits c vals := Forall readable_bool vals |}.
  - done.
  - intros c a b H%Forall_app. done.
  - done.
  - intros f vals v c -> Hv. apply Forall_app in Hv as [_ [Hv _]%Forall_cons].
    rewrite mk_consume, (bool_Consume_spec op unit op_unit_l v _ Hv).
    cbn [mbind outcome_bind obind]. eexists. split; [done|]. by rewrite (bools_of_app op unit op_assoc op_unit op_unit_l).
  - intros f vals c Hc -> _ _. destruct (bool_Result_raw op unit op_unit_l (bools_of op unit vals)) as (w & E & Ht & He & Hr & Hb).
    exists w, c. split_and!; try done.
    + unfold raw_of. destruct (mk_result (bools_of op unit vals)) as [_ ->]. rewrite M_ret_l. unfold lift. by rewrite E.
    + intros g seen c2 -> _. unfold logical_ConsumeAsPartial in mk_partial. rewrite mk_partial, decide_True by done.
      rewrite (bool_Consume_spec op unit op_unit_l w _ Hr).
      cbn [mbind outcome_bind obind]. eexists. split; [done|]. by rewrite (bools_of_app op unit op_assoc op_unit op_unit_l), Hb.
  - by intros f g vals c _ -> ->.
Defined.
End logical.

#[export] Instance and_decomposes : Decomposes (And None).
Proof. apply (logical_decomposes And andb true); intros; repeat match goal with b : bool |- _ => destruct b end; done. Defined.
#[export] Instance or_decomposes : Decomposes (Or None).
Proof. apply (logical_decomposes Or orb false); intros; repeat match goal with b : bool |- _ => destruct b end; done. Defined.

(** ** Any *)

Definition any_fold (vals : list Value) (a : option Value) : option Value := foldl (fun a v => any_Consume v a) a vals.
(** A value and what it is read back as. *)
Definition readable (v : Value) : Prop := exists b, reread to32 to16 v = Ok (NewValue (v_type v) b) /\ (IsNull v = true <-> b = None).
Definition same (v w : Value) : Prop := reread to32 to16 v = reread to32 to16 w /\ IsNull v = IsNull w.

Lemma any_Consume_assoc u v x : any_Consume u (Some (default v (any_Consume v x))) = any_Consume (default v (any_Consume u (Some v))) x.
Proof. unfold any_Consume. destruct x as [x|]; cbn; destruct (IsNull v) eqn:Ev, (IsNull u) eqn:Eu; cbn; rewrite ?Ev, ?Eu; try destruct (IsNull x) eqn:Ex; cbn; rewrite ?Ev, ?Eu, ?Ex; done. Qed.
Lemma any_fold_one vals : vals <> [] -> exists v, v ∈ vals /\ forall x, any_fold vals x = any_Consume v x.
Proof.
  induction vals as [|u vals IH] using rev_ind; [done|]. intros _. unfold any_fold. destruct (decide (vals = [])) as [->|Hne].
  { exists u. split; [by left|done]. }
  destruct (IH Hne) as (v & Hv & Hx). exists (default v (any_Consume u (Some v))). split.
  - apply elem_of_app. unfold any_Consume. destruct (IsNull v && negb (IsNull u)); cbn; [right; by left|by left].
  - intros x. rewrite foldl_app. cbn [foldl]. change (foldl _ x vals) with (any_fold vals x). rewrite Hx, <- any_Consume_assoc.
    assert (is_Some (any_Consume v x)) as [y ->]; [|done]. unfold any_Consume. destruct x as [x|]; [destruct (IsNull x && _)|]; by eexists.
Qed.
Lemma any_Consume_same v w a b : same v w -> option_Forall2 same a b -> option_Forall2 same (any_Consume v a) (any_Consume w b).
Proof.
  intros Hv Hab. destruct Hab as [x y Hxy|]; cbn; [|by constructor]. destruct Hv as [Hv1 Hv2], Hxy as [Hx1 Hx2]. rewrite Hx2, Hv2.
  destruct (IsNull y && negb (IsNull w)); by constructor.
Qed.
Lemma readable_raw v w : readable v -> reread to32 to16 v = Ok w -> same w v /\ v_type w = v_type v.
Proof.
  intros (b & E & Hb) E'. rewrite E in E'. injection E' as <-. split; [|done]. split; [by rewrite E|].
  unfold IsNull at 1. cbn. destruct b; destruct (IsNull v); naive_solver.
Qed.

#[export] Instance any_decomposes : Decomposes (Any None).
Proof.
  refine {| stands f vals := exists a, f = Any a /\ option_Forall2 same a (any_fold vals None);
            fits c vals := Forall (fun v => readable v /\ IsError v = false) vals |}.
  - done.
  - intros c a b H%Forall_app. done.
  - exists None. split; [done|constructor].
  - intros f vals v c (a & -> & Ha) _. eexists. split; [done|]. eexists. split; [done|]. unfold any_fold. rewrite foldl_app. cbn.
    by apply any_Consume_same.
  - intros f vals c Hc (a & -> & Ha) Hne Hv. destruct (any_fold_one vals Hne) as (v & Hin & Hx). rewrite Hx in Ha. cbn in Ha.
    inversion Ha as [w ? Hwv|]; subst. rewrite Forall_forall in Hv. destruct (Hv v Hin) as [Hr He]. pose proof Hr as (b & Eb & _).
    destruct (readable_raw v _ Hr Eb) as [Hs _].
    exists (NewValue (v_type v) b), c. split_and!; try done.
    + unfold raw_of. cbn. rewrite M_ret_l. unfold lift. destruct Hwv as [-> _]. by rewrite Eb.
    + intros g seen c2 (a & -> & Ha') _. eexists. split; [done|]. eexists. split; [done|].
      unfold any_fold. rewrite foldl_app. change (foldl _ ?x vals) with (any_fold vals x). rewrite Hx. by apply any_Consume_same.
  - intros f g vals c _ (a & -> & Ha) (b & -> & Hb) _. unfold raw_of. cbn. rewrite !M_ret_l. unfold lift.
    destruct (any_fold vals None) as [v|]; inversion Ha; inversion Hb; subst; cbn [default from_option id]; [|done].
    repeat match goal with H : same _ _ |- _ => destruct H as [-> _] end. done.
Defined.

(** ** Sums, minima and maxima of signed integers *)

Definition int_of (v : Value) : option Z := if IsNull v then None else match Int v with Ok i => Some i | _ => None end.
Definition signed_int (v : Value) : Prop :=
  (exists p, v_type v = TPrim p /\ p ∈ [Int8; Int16; Int32; Int64]) /\
  (IsNull v = false -> exists i, Int v = Ok i /\ - 2 ^ 63 <= i < 2 ^ 63).
Definition ints (vals : list Value) : list Z := omap int_of vals.
Definition folded (fn : mathfn) (s : Z) (xs : list Z) : Z := foldl (fn_Int64 fn) s xs.

Lemma fn_range fn a b : - 2 ^ 63 <= a < 2 ^ 63 -> - 2 ^ 63 <= b < 2 ^ 63 -> - 2 ^ 63 <= fn_Int64 fn a b < 2 ^ 63.
Proof. intros Ha Hb. destruct fn; cbn; [apply i64_range|destruct (a <? b); lia|destruct (b <? a); lia]. Qed.
Lemma folded_range fn xs : forall s, - 2 ^ 63 <= s < 2 ^ 63 -> Forall (fun i => - 2 ^ 63 <= i < 2 ^ 63) xs -> - 2 ^ 63 <= folded fn s xs < 2 ^ 63.
Proof.
  induction xs as [|i xs IH]; intros s Hs Hi; [done|]. apply Forall_cons in Hi as [Hi Hxs]. cbn. apply IH; [by apply fn_range|done].
Qed.
Lemma Init_range fn : - 2 ^ 63 <= Init_Int64 fn < 2 ^ 63.
Proof. destruct fn; cbn; lia. Qed.
Lemma i64_add_l a b : i64 (i64 a + b) = i64 (a + b).
Proof.
  unfold i64. replace ((a + 2 ^ 63) mod 2 ^ 64 - 2 ^ 63 + b + 2 ^ 63) with ((a + 2 ^ 63) mod 2 ^ 64 + b) by lia.
  rewrite Zplus_mod_idemp_l. do 2 f_equal. lia.
Qed.
Lemma fn_assoc fn a b d : fn_Int64 fn (fn_Int64 fn a b) d = fn_Int64 fn a (fn_Int64 fn b d).
Proof.
  destruct fn; cbn.
  - rewrite i64_add_l, (Z.add_comm a (i64 _)), i64_add_l. f_equal. lia.
  - destruct (Z.ltb_spec a b), (Z.ltb_spec b d); repeat match goal with |- context [?x <? ?y] => destruct (Z.ltb_spec x y) end; lia.
  - destruct (Z.ltb_spec b a), (Z.ltb_spec d b); repeat match goal with |- context [?x <? ?y] => destruct (Z.ltb_spec x y) end; lia.
Qed.
Lemma fn_init fn a : - 2 ^ 63 <= a < 2 ^ 63 -> fn_Int64 fn a (Init_Int64 fn) = a.
Proof. intros Ha. destruct fn; cbn; [rewrite Z.add_0_r; by apply i64_id|destruct (Z.ltb_spec a (2 ^ 63 - 1)); lia|destruct (Z.ltb_spec (- 2 ^ 63) a); lia]. Qed.
Lemma folded_fn fn s xs : - 2 ^ 63 <= s < 2 ^ 63 -> folded fn s xs = fn_Int64 fn s (folded fn (Init_Int64 fn) xs).
Proof.
  assert (H : forall a, folded fn (fn_Int64 fn s a) xs = fn_Int64 fn s (folded fn a xs)).
  { unfold folded. induction xs as [|i xs IH]; intros a; [done|]. cbn [foldl]. by rewrite fn_assoc, IH. }
  intros Hs. rewrite <- H. by rewrite fn_init.
Qed.

Lemma consumeVal_signed fn hv c v : signed_int v -> match c with None | Some (CInt64 _) => True | _ => False end ->
  let s := match c with Some (CInt64 s) => s | _ => Init_Int64 fn end in
  consumeVal to32 of32 to16 of16 nan float_to_int float_to_uint ParseFloat64 v (mkReducer fn hv c) =
    Ok (match int_of v with
        | Some i => mkReducer fn true (Some (CInt64 (fn_Int64 fn s i)))
        | None => mkReducer fn hv (Some (CInt64 s))
        end).
Proof.
  intros [(p & Ht & Hp) Hv] Hc s. destruct v as [t r]. cbn in Ht. subst t.
  assert (H : consumeVal to32 of32 to16 of16 nan float_to_int float_to_uint ParseFloat64 (mkValue (TPrim p) r) (mkReducer fn hv c) =
    (if IsNull (mkValue (TPrim p) r) then Ok (mkReducer fn hv (Some (CInt64 s)))
     else i ← no_error (Int (mkValue (TPrim p) r)); Ok (mkReducer fn true (Some (CInt64 (fn_Int64 fn s i)))))).
  { destruct c as [[| s'| | |]|]; try done; subst s;
      repeat (apply elem_of_cons in Hp as [->|Hp]; [destruct r as [x|[b|]]; reflexivity|]); by apply not_elem_of_nil in Hp. }
  rewrite H. unfold int_of. destruct (IsNull _); [done|]. destruct (Hv eq_refl) as (i & -> & _). done.
Qed.

Lemma ints_range vals : Forall signed_int vals -> Forall (fun i => - 2 ^ 63 <= i < 2 ^ 63) (ints vals).
Proof.
  induction 1 as [|v vals [_ Hv] _ IH]; [constructor|]. unfold ints, int_of in *. cbn.
  destruct (IsNull v); [done|]. destruct (Hv eq_refl) as (i & -> & Hi). by constructor.
Qed.
Definition summed (fn : mathfn) (vals : list Value) : Function :=
  MathReducer (mkReducer fn (negb (bool_decide (ints vals = [])))
    (match vals with [] => None | _ => Some (CInt64 (folded fn (Init_Int64 fn) (ints vals))) end)).
Lemma summed_app fn a v : signed_int v -> Forall signed_int a ->
  Consume v (summed fn a) = Ok (summed fn (a ++ [v])).
Proof.
  intros Hv Ha. unfold summed. cbn [Agg.Consume]. rewrite consumeVal_signed; [|done|by destruct a].
  unfold ints. rewrite omap_app. cbn [omap list_omap]. cbn [mbind outcome_bind obind].
  set (xs := omap int_of a). assert (Hm : match match a with [] => None | _ => Some (CInt64 (folded fn (Init_Int64 fn) xs)) end with
    | Some (CInt64 s) => s | _ => Init_Int64 fn end = folded fn (Init_Int64 fn) xs) by (by destruct a).
  rewrite Hm. assert (Hne : forall A (x : A) y, match a ++ [v] with [] => x | _ => y end = y) by (by destruct a). rewrite Hne.
  destruct (int_of v) as [i|].
  - rewrite bool_decide_eq_false_2; [|by destruct xs]. cbn [negb]. unfold folded. rewrite foldl_app. done.
  - by rewrite app_nil_r.
Qed.

#[export] Instance signed_decomposes fn : Decomposes (MathReducer (mkReducer fn false None)).
Proof.
  refine {| stands f vals := f = summed fn vals; fits c vals := Forall signed_int vals |}.
  - done.
  - intros c a b H%Forall_app. done.
  - done.
  - intros f vals v c -> Hv. apply Forall_app in Hv as [Ha [Hv _]%Forall_cons]. eexists. split; [by apply summed_app|done].
  - intros f vals c Hc -> Hne Hv.
    pose proof (folded_range fn (ints vals) _ (Init_range fn) (ints_range vals Hv)) as Hrange.
    set (p := match ints vals with [] => NewValue (TPrim Int64) None | _ => NewInt64 (folded fn (Init_Int64 fn) (ints vals)) end).
    assert (Hp : exists w, reread to32 to16 p = Ok w /\ signed_int w /\ IsError w = false /\
      int_of w = match ints vals with [] => None | _ => Some (folded fn (Init_Int64 fn) (ints vals)) end).
    { subst p. destruct (ints vals) as [|x xs] eqn:Ex.
      - exists (NewValue (TPrim Int64) None). split; [done|]. split; [|done]. split; [exists Int64; split; [done|set_solver]|done].
      - destruct (Int_raw_int64 _ Hrange) as (b & E & Hd). exists (NewValue (TPrim Int64) (Some b)). split; [done|]. split; [split|split; [done|]].
        + exists Int64. split; [done|set_solver].
        + intros _. eexists. split; [|exact Hrange]. unfold Int. cbn [v_type v_repr NewValue]. by rewrite Hd.
        + unfold int_of, Int. cbn [v_type v_repr NewValue IsNull]. by rewrite Hd. }
    destruct Hp as (w & Ew & Hw & He & Hi). exists w, c. split_and!; try done.
    + unfold raw_of, summed. cbn [Agg.ResultAsPartial Agg.Result reducer_Result math hasval]. rewrite M_ret_l. unfold lift.
      assert (reducer_Result (mkReducer fn (negb (bool_decide (ints vals = [])))
        (match vals with [] => None | _ => Some (CInt64 (folded fn (Init_Int64 fn) (ints vals))) end)) = p) as ->; [|by rewrite Ew].
      destruct vals as [|v vals]; [done|]. unfold reducer_Result, p. cbn [math hasval]. by destruct (ints (v :: vals)).
    + intros g seen c2 -> Hv2. apply Forall_app in Hv2 as [Hv2 _].
      change (ConsumeAsPartial w (summed fn seen)) with (Consume w (summed fn seen)).
      rewrite summed_app by done. eexists. split; [done|]. unfold summed, ints in *. rewrite !omap_app. cbn [omap list_omap]. rewrite Hi.
      assert (Hne' : forall A (x : A) y (l k : list Value), k <> [] -> match l ++ k with [] => x | _ => y end = y) by (by intros ???[] []).
      rewrite !Hne' by done. destruct (omap int_of vals) as [|x xs] eqn:Ex; [done|].
      do 2 f_equal; [by destruct (omap int_of seen)|]. do 2 f_equal. unfold folded at 1. rewrite foldl_app. cbn [foldl].
      change (foldl (fn_Int64 fn) (Init_Int64 fn) (omap int_of seen)) with (folded fn (Init_Int64 fn) (omap int_of seen)).
      rewrite <- folded_fn; [|apply folded_range; [apply Init_range|by apply ints_range]]. unfold folded. by rewrite foldl_app.
  - by intros f g vals c _ -> ->.
Defined.

(** ** Collect *)

(** What a value adds to a collection: itself without unions and names. *)
Definition item (v : Value) : option (ty * bytes) :=
  if IsNull v then None
  else match Values.Under to32 to16 v with
       | Ok u => match Value_Bytes to32 to16 u with Ok b => Some (v_type u, b) | _ => None end
       | _ => None
       end.
Definition items (vals : list Value) : list (ty * bytes) := omap item vals.
(** A value that can be collected and reads back, and what it counts. *)
Definition collectable (c : Context) (v : Value) : Prop :=
  IsNull v = false ->
  exists u b b0, Values.Under to32 to16 v = Ok u /\ Value_Bytes to32 to16 v = Ok (Some b0) /\ Value_Bytes to32 to16 u = Ok (Some b) /\
    zlen b <= zlen b0 /\ plain c (v_type u, Some b) /\ TypeUnder (v_type u) = v_type u.
Definition weight (v : Value) : Z :=
  28 + match Value_Bytes to32 to16 v with Ok (Some b) => zlen b | _ => 0 end.
Definition weights (vals : list Value) : Z := foldr (fun v n => weight v + n) 0 vals.

Lemma weight_pos v : 28 <= weight v.
Proof. unfold weight. destruct (Value_Bytes to32 to16 v) as [[b|]| |]; pose proof (zlen_nonneg (default [] (None : bytes))); try pose proof (zlen_nonneg b); lia. Qed.
Lemma weights_app a b : weights (a ++ b) = weights a + weights b.
Proof. induction a as [|v a IH]; [done|]. cbn [app weights foldr] in *. fold (weights (a ++ b)) (weights a) in *. lia. Qed.
Lemma weights_nonneg vals : 0 <= weights vals.
Proof. induction vals as [|v vals IH]; [done|]. cbn. fold (weights vals). pose proof (weight_pos v). lia. Qed.
Lemma items_weights c vals : Forall (collectable c) vals -> foldr (fun x n => 28 + zlen (default [] x.2) + n) 0 (items vals) <= weights vals.
Proof.
  induction 1 as [|v vals Hv _ IH]; [done|]. cbn [weights foldr]. fold (weights vals). unfold items in *. cbn [omap list_omap]. fold (omap item vals).
  unfold item at 1. pose proof (weight_pos v). destruct (IsNull v) eqn:En; [cbn; lia|]. destruct (Hv En) as (u & b & b0 & -> & E0 & -> & Hl & _).
  cbn [foldr snd default from_option id]. unfold weight in *. rewrite E0 in *. lia.
Qed.

Lemma zlen_weights (xs : list (ty * bytes)) : zlen xs <= foldr (fun x n => 28 + zlen (default [] x.2) + n) 0 xs.
Proof. induction xs as [|x xs IH]; [done|]. cbn [foldr]. rewrite zlen_cons. pose proof (zlen_nonneg (default [] x.2)). lia. Qed.

(** The values of a function that has collected. *)
Definition collected (values : list Value) (xs : list (ty * bytes)) : Prop :=
  Forall2 (fun v x => v_type v = x.1 /\ Value_Bytes to32 to16 v = Ok x.2) values xs.
Lemma collect_update_spec v values size u b b0 :
  Values.Under to32 to16 v = Ok u -> Value_Bytes to32 to16 v = Ok b0 -> Value_Bytes to32 to16 u = Ok b ->
  size + zlen (default [] b0) <= MaxValueSize ->
  collect_update (Sketch := Sketch) to32 to16 MaxValueSize v values size = Ok (Collect (values ++ [u]) (size + zlen (default [] b0))).
Proof.
  intros Eu E0 Eb Hs. unfold collect_update, val_bytes_. rewrite Eu, E0. cbn [no_error mbind outcome_bind obind].
  destruct (values ++ [u]); cbn [discard_loop]; by rewrite (proj2 (Z.ltb_ge _ _) Hs).
Qed.
Lemma collected_snoc values xs v u b : collected values xs -> IsNull v = false ->
  Values.Under to32 to16 v = Ok u -> Value_Bytes to32 to16 u = Ok (Some b) -> collected (values ++ [u]) (xs ++ items [v]).
Proof.
  intros Hc En Eu Eb. apply Forall2_app; [done|]. unfold items, item. cbn. rewrite En, Eu, Eb. constructor; [done|constructor].
Qed.

(** Collecting the elements of an array that [collect] has built. *)
Definition plain_item (c : Context) (x : ty * bytes) : Prop := plain c x /\ TypeUnder x.1 = x.1 /\ is_Some x.2.
Lemma items_plain c vals : Forall (collectable c) vals -> Forall (plain_item c) (items vals).
Proof.
  induction 1 as [|v vals Hv _ IH]; [constructor|]. unfold items in *. cbn [omap list_omap]. fold (omap item vals).
  unfold item at 1. destruct (IsNull v) eqn:En; [done|]. destruct (Hv En) as (u & b & b0 & -> & _ & -> & _ & Hp & Ht).
  constructor; [|done]. by split_and!; try apply Hp.
Qed.
Lemma under_not_named t i n u : TypeUnder t <> TNamed i n u.
Proof. induction t using ty_ind; cbn; try done. Qed.
Lemma Under_encoded c t x e : plain_item c x -> encodes t x e -> is_Some e ->
  Values.Under to32 to16 (NewValue t e) = Ok (NewValue x.1 x.2).
Proof.
  intros ((_ & _ & Hu & _) & Ht & [b Hb]) [_ He] [e' ->]. destruct He as [_ He]. unfold deunion in He. unfold Values.Under. cbn [v_type NewValue].
  destruct t; try (injection He as <- <-; done).
  - destruct (Untag id types (Some e')) as [[t' b']| |] eqn:Eu; try done. cbn in He. injection He as -> ->.
    cbn [Value_Bytes v_repr NewValue mbind outcome_bind obind under_loop TypeUnder]. rewrite Eu.
    cbn [depth]. cbn [under_loop]. rewrite Ht. by destruct x.1.
  - injection He as E1 E2. rewrite <- E1 in Ht. by apply under_not_named in Ht.
Qed.

Lemma collect_updates_spec c t xs es : Forall2 (encodes t) xs es -> Forall (plain_item c) xs -> forall values seen size,
  collected values seen -> size + foldr (fun x n => 28 + zlen (default [] x.2) + n) 0 xs <= MaxValueSize ->
  exists values' size', collect_updates (Sketch := Sketch) to32 to16 MaxValueSize t es (Collect values size) = Ok (Collect values' size') /\
    collected values' (seen ++ xs) /\ size' <= size + foldr (fun x n => 28 + zlen (default [] x.2) + n) 0 xs.
Proof.
  assert (Hnn : forall xs : list (ty * bytes), 0 <= foldr (fun x n => 28 + zlen (default [] x.2) + n) 0 xs).
  { induction xs0 as [|x xs0 IH]; [done|]. cbn [foldr]. pose proof (zlen_nonneg (default [] x.2)). lia. }
  induction 1 as [|x e xs es He _ IH]; intros Hx values seen size Hc Hs; [exists values, size; rewrite app_nil_r; split_and!; [done..|cbn; lia]|].
  apply Forall_cons in Hx as [Hx Hxs]. cbn [collect_updates]. cbn [foldr] in Hs |- *. pose proof (Hnn xs).
  assert (Hse : is_Some e) by (destruct e; [done|]; destruct He as [_ He], Hx as (_ & _ & [? ?]); congruence).
  pose proof He as [Hl _].
  rewrite (collect_update_spec (NewValue t e) values size (NewValue x.1 x.2) x.2 e); [|by eapply Under_encoded|done|done|lia].
  cbn [mbind outcome_bind obind].
  destruct (IH Hxs (values ++ [NewValue x.1 x.2]) (seen ++ [x]) (size + zlen (default [] e))) as (values' & size' & -> & Hc' & Hs').
  - apply Forall2_app; [done|]. by constructor.
  - lia.
  - exists values', size'. rewrite <- app_assoc in Hc'. split_and!; [done..|]. lia.
Qed.

(** The result, of what was collected. *)
Definition collect_of (xs : list (ty * bytes)) : M Value :=
  match xs with
  | [] => mret NullValue
  | _ =>
      inner ← match UniqueTypes (map fst xs) with [t] => mret t | types => LookupTypeUnion types end;
      b ← lift (b ← append_all inner 2 xs NewBuilder; no_error (Bytes_ b));
      t ← LookupTypeArray inner;
      mret (NewValue t b)
  end.
Lemma collect_Result_of values xs c : collected values xs -> collect_Result to32 to16 values c = collect_of xs c.
Proof.
  intros Hc. assert (Ht : map v_type values = map fst xs) by (induction Hc as [|v x ? ? [Hv _] _ IH]; [done|]; cbn; by rewrite Hv, IH).
  assert (Hb : forall inner b, build_values to32 to16 inner values b = append_all inner 2 xs b).
  { intros inner. clear Ht. induction Hc as [|v x ? ? [Hv Hvb] _ IH]; intros b; [done|]. cbn [build_values append_all].
    unfold val_bytes_, appendNext. rewrite Hvb, Hv. cbn [no_error mbind outcome_bind obind]. change ((1 <? 2)%nat) with true. cbn iota.
    destruct inner; cbn [mbind outcome_bind obind]; try apply IH. destruct (no_error _); cbn [mbind outcome_bind obind]; [apply IH|done|done]. }
  unfold collect_Result, collect_of, innerType. rewrite Ht. destruct Hc; [done|]. unfold mbind, M_bind.
  match goal with |- (?m ≫= _) = (?m ≫= _) => destruct m as [[inner c1]| |]; [cbn [mbind outcome_bind obind]; by rewrite Hb|done|done] end.
Qed.
(** The type of the elements: the only one, or a union with all of them. *)
Lemma inner_type_spec c ts : wf c -> ts <> [] -> short ts -> Forall (member c) ts ->
  exists t c', (match UniqueTypes ts with [t] => mret t | types => LookupTypeUnion types end) c = Ok (t, c') /\
    wf c' /\ grows c c' /\ member c' t /\
    ((forall u, u ∈ ts -> u = t) \/ (1 < 2)%nat /\ exists i us, t = TUnion i us /\ forall u, u ∈ ts -> u ∈ us).
Proof.
  intros Hc Hne Hs Hts. rewrite Forall_forall in Hts. pose proof (elem_of_UniqueTypes ts) as He.
  assert (Hl : (length (UniqueTypes ts) <= length ts)%nat).
  { unfold UniqueTypes. etrans; [apply dedup_types_length|]. unfold sort_types. by rewrite length_stable_sort. }
  assert (HU : UniqueTypes ts <> []).
  { destruct ts as [|t ts]; [done|]. intros E. assert (t ∈ []) as []%not_elem_of_nil. rewrite <- E. apply He. left. }
  destruct (UniqueTypes ts) as [|t [|t2 us]] eqn:Eu; [done| |].
  - exists t, c. assert (t ∈ ts) as Ht by (apply He; left). split_and!; try done; [by apply Hts|].
    left. intros u Hu%He. by apply list_elem_of_singleton in Hu.
  - destruct (LookupTypeUnion_interns c Hc (t :: t2 :: us)) as (u & c' & E & Eu' & Hm & Hw & Hg).
    { unfold short, zlen in *. cbn [length] in *. lia. }
    { apply Forall_forall. intros u Hu%He. by apply Hts. }
    exists u, c'. split_and!; [done..|]. right. split; [lia|].
    eexists _, _. split; [exact Eu'|]. intros w Hw'%He. unfold sort_types. by rewrite stable_sort_perm.
Qed.
Lemma collect_of_spec c xs : wf c -> xs <> [] -> short xs -> Forall (plain_item c) xs ->
  exists i inner es c', collect_of xs c = Ok (NewValue (TArray i inner) (Some (body_of es)), c') /\ wf c' /\ grows c c' /\
    Forall2 (encodes inner) xs es /\ member c' (TArray i inner).
Proof.
  intros Hc Hne Hs Hx.
  assert (Hmem : Forall (member c) (map fst xs)) by (apply Forall_map, (Forall_impl _ _ _ Hx); intros x Hxx; apply Hxx).
  destruct (inner_type_spec c (map fst xs) Hc) as (inner & c1 & E & Hw & Hg & Hm & Hin); [by destruct xs|by unfold short, zlen in *; rewrite length_map|done|].
  assert (Hsu : short_union inner).
  { destruct inner; try done. apply (member_regular c1 Hw) in Hm. cbn in Hm. apply Hm. }
  assert (Hp : Forall (plain c1) xs).
  { apply (Forall_impl _ _ _ Hx). intros x [(? & ? & ? & ?) _]. split_and!; try done. by eapply member_grows. }
  assert (Ht : takes inner 2 (map fst xs)).
  { rewrite Forall_forall in Hp. destruct Hin as [Hin|(Hl & i & us & -> & Hin)]; [left|right].
    - intros u Hu. right. split; [by apply Hin|]. intros i us ->. apply list_elem_of_fmap in Hu as (x & Ex & Hu%Hp).
      destruct Hu as (_ & _ & Hu & _). by rewrite <- Ex in Hu.
    - split; [done|]. exists i, us. split; [done|]. intros u Hu. right. by apply Hin. }
  assert (Ha : Forall (appendable c1) xs) by (apply (Forall_impl _ _ _ Hp); intros x; apply plain_appendable).
  destruct (append_all_spec c1 inner 2 (map fst xs) xs NewBuilder Ha Hsu Ht) as (b & es & Eb & Hb & Hbn & Hcs & Hes); [|done|].
  { intros x Hxin. apply list_elem_of_fmap. by exists x. }
  destruct (LookupTypeArray_interns c1 Hw inner Hm) as (u & c2 & Eu & Etu & Hmu & Hw2 & Hg2).
  destruct (b_bytes b) as [bs|] eqn:Ebs; [|by destruct Hbn]. cbn in Hb. subst bs.
  exists (TypeID u), inner, es, c2. split; [|split_and!; [done|by trans c1|done|by rewrite Etu in Hmu]].
  unfold collect_of. destruct xs as [|x xs]; [done|]. rewrite (M_bind_Ok _ _ _ _ _ E), Eb. cbn [mbind outcome_bind obind].
  assert (Hbb : Bytes_ b = Ok (Some (body_of es))) by (unfold Bytes_; by rewrite Hcs, Ebs).
  rewrite (M_bind_Ok _ _ c1 (Some (body_of es)) c1) by (unfold lift; by rewrite Hbb). rewrite (M_bind_Ok _ _ _ _ _ Eu).
  by rewrite Etu at 1.
Qed.

#[export] Instance collect_decomposes (HMax : MaxValueSize < 2 ^ 62) : Decomposes (Collect [] 0).
Proof.
  refine {| stands f vals := exists values size, f = Collect values size /\ collected values (items vals) /\ size <= weights vals;
            fits c vals := Forall (collectable c) vals /\ weights vals <= MaxValueSize |}.
  - intros c c' vals Hg [Hv Hw]. split; [|done]. apply (Forall_impl _ _ _ Hv). intros v H En.
    destruct (H En) as (u & b & b0 & ? & ? & ? & ? & [? ?] & ?). exists u, b, b0.
    do 4 (split; [done|]). split; [|done]. split; [by eapply member_grows|done].
  - intros c a b [[Ha Hb]%Forall_app Hw]. rewrite weights_app in Hw. pose proof (weights_nonneg a). pose proof (weights_nonneg b).
    repeat split; try done; lia.
  - exists [], 0. split_and!; [done|constructor|done].
  - intros f vals v c (values & size & -> & Hcol & Hsize) [Hv Hw]. apply Forall_app in Hv as [_ [Hv _]%Forall_cons].
    rewrite weights_app in *. cbn [weights foldr] in *. fold (weights []) in *. cbn [Agg.Consume]. unfold collect_Consume. pose proof (weight_pos v).
    destruct (IsNull v) eqn:En.
    { eexists. split; [done|]. exists values, size. split_and!; [done| |cbn in *; lia].
      unfold items, item in *. rewrite omap_app. cbn [omap list_omap]. by rewrite En, app_nil_r. }
    destruct (Hv En) as (u & b & b0 & Eu & E0 & Eb & _). unfold weight in *. rewrite E0 in *.
    rewrite (collect_update_spec v values size u (Some b) (Some b0) Eu E0 Eb) by (cbn in *; lia).
    eexists. split; [done|]. eexists _, _. split; [done|]. split; [|cbn in *; lia].
    unfold items in *. rewrite omap_app. by apply (collected_snoc _ _ v u b).
  - intros f vals c Hc (values & size & -> & Hcol & Hsize) Hne [Hv Hw]. pose proof (items_plain c vals Hv) as Hx.
    pose proof (items_weights c vals Hv) as Hxw. cbn [Agg.ResultAsPartial Agg.Result].
    unfold raw_of. destruct (decide (items vals = [])) as [Hnil|Hnil].
    { exists NullValue, c. split; [|split_and!; try done].
      - unfold mbind, M_bind. rewrite (collect_Result_of _ _ _ Hcol), Hnil. done.
      - intros g seen c2 (values2 & size2 & -> & Hcol2 & Hs2) _. eexists. split; [done|]. exists values2, size2. split; [done|].
        rewrite weights_app. pose proof (weights_nonneg vals). split; [|lia]. unfold items in *. rewrite omap_app, Hnil. by rewrite app_nil_r. }
    destruct (collect_of_spec c (items vals) Hc Hnil) as (i & inner & es & c' & E & Hwf & Hg & Hes & _); [|done|].
    { unfold short. pose proof (zlen_weights (items vals)). lia. }
    exists (NewValue (TArray i inner) (Some (body_of es))), c'. split; [|split_and!; try done].
    + unfold mbind, M_bind. rewrite (collect_Result_of _ _ _ Hcol), E. done.
    + intros g seen c2 (values2 & size2 & -> & Hcol2 & Hs2) [Hv2 Hw2]. cbn [Agg.ConsumeAsPartial]. unfold collect_ConsumeAsPartial, val_bytes_.
      cbn [Value_Bytes v_repr NewValue no_error mbind outcome_bind obind default from_option id].
      assert (Hsm : Forall small es).
      { apply Forall_forall. intros e He. apply list_elem_of_lookup in He as [k He]. destruct (Forall2_lookup_r _ _ _ _ _ Hes He) as (x & Hxk & Hex).
        rewrite Forall_lookup in Hx. destruct (Hx k x Hxk) as [Hp _]. by apply (encodes_small c inner x); [apply plain_appendable|]. }
      assert (Hz : zlen (body_of es) =? 0 = false).
      { destruct Hes as [|x e xs es]; [done|]. unfold body_of. cbn [map concat]. rewrite zlen_app. pose proof (length_val e).
        pose proof (zlen_nonneg (concat (map val_bytes es))). unfold zlen in *. lia. }
      rewrite Hz, (iter_all_body es Hsm). cbn [v_type NewValue mbind outcome_bind obind].
      rewrite weights_app in Hw2. pose proof (weights_nonneg vals).
      destruct (collect_updates_spec c inner (items vals) es Hes Hx values2 (items seen) size2 Hcol2 ltac:(lia)) as (values' & size' & -> & Hcol' & Hs').
      eexists. split; [done|]. exists values', size'. split; [done|]. rewrite weights_app. split; [|lia]. unfold items in *. by rewrite omap_app.
  - intros f g vals c Hc (values & size & -> & Hcol & _) (values2 & size2 & -> & Hcol2 & _) _. unfold raw_of. cbn [Agg.Result].
    unfold mbind, M_bind. by rewrite (collect_Result_of _ _ _ Hcol), (collect_Result_of _ _ _ Hcol2).
Defined.

(** ** Chunks of values *)

Fixpoint consume_all (vals : list Value) (f : Function) : outcome diverge Function :=
  match vals with [] => Ok f | v :: vals => f ← Consume v f; consume_all vals f end.
(** The partial result of each chunk, as it is read back from where it was kept. *)
Fixpoint partials (start : Function) (chunks : list (list Value)) : M (list Value) :=
  match chunks with
  | [] => mret []
  | chunk :: chunks =>
      f ← lift (consume_all chunk start); p ← raw_of (ResultAsPartial f);
      ps ← partials start chunks; mret (p :: ps)
  end.
Fixpoint consume_partials (ps : list Value) (f : Function) : outcome diverge Function :=
  match ps with [] => Ok f | p :: ps => f ← ConsumeAsPartial p f; consume_partials ps f end.

(** The functions and the values that partial results combine for. *)
Inductive combines : Function -> (Context -> list Value -> Prop) -> Prop :=
  | combines_count : combines (Count 0) (fun _ _ => True)
  | combines_and : combines (And None) (fun _ => Forall (readable_bool))
  | combines_or : combines (Or None) (fun _ => Forall (readable_bool))
  | combines_any : combines (Any None) (fun _ => Forall (fun v => readable v /\ IsError v = false))
  | combines_ints fn : combines (MathReducer (mkReducer fn false None)) (fun _ => Forall signed_int)
  | combines_collect : MaxValueSize < 2 ^ 62 ->
      combines (Collect [] 0) (fun c vals => Forall (collectable c) vals /\ weights vals <= MaxValueSize).

(** A value of the context, with its bytes within a bound. *)
Definition sized (c : Context) (bound : Z) (v : Value) : Prop :=
  member c (v_type v) /\ forall b, Value_Bytes to32 to16 v = Ok b -> zlen (default [] b) <= bound.
Lemma sized_weaken c c' bound bound' v : grows c c' -> bound <= bound' -> sized c bound v -> sized c' bound' v.
Proof. intros Hg Hb [Hm H]. split; [by eapply member_grows|]. intros b Eb%H. lia. Qed.

Lemma sized_uint64 c n : 0 <= n < 2 ^ 64 -> sized c 8 (NewUint64 n).
Proof.
  intros Hn. split; [done|]. unfold NewUint64, NewUint, newNativeValue. rewrite u64_id by done. cbn [Value_Bytes v_repr v_type].
  change ((0 <=? ID (TPrim Uint64)) && (ID (TPrim Uint64) <=? 3)) with true. cbn iota. rewrite EncodeUint_AppendUint by done. intros b [= <-].
  pose proof (length_counted_bytes 8 n) as H. change (Z.of_nat (length (counted_bytes 8 n)) <= 8). lia.
Qed.
Lemma sized_int64 c n : - 2 ^ 63 <= n < 2 ^ 63 -> sized c 8 (NewInt64 n).
Proof.
  intros Hn. split; [done|]. destruct (Int_raw_int64 n Hn) as (b & E & _). unfold reread in E. intros b' Eb. rewrite Eb in E.
  pose proof (EncodeInt_AppendInt n Hn) as E2. unfold NewInt64, NewInt, newNativeValue in Eb. cbn [Value_Bytes v_repr v_type] in Eb.
  change ((0 <=? ID (TPrim Int64)) && (ID (TPrim Int64) <=? 3)) with false in Eb.
  change (((6 <=? ID (TPrim Int64)) && (ID (TPrim Int64) <=? 9)) || (ID (TPrim Int64) =? 12) || (ID (TPrim Int64) =? 13)) with true in Eb.
  cbn iota in Eb. rewrite i64_u64, i64_id, E2 in Eb by lia. injection Eb as <-. apply AppendInt_length.
Qed.
Lemma sized_bool c a : sized c 8 (bool_Result a).
Proof. split; [by destruct a|]. destruct a as [[]|]; intros b [= <-]; done. Qed.
Lemma sized_summed c fn vals : Forall signed_int vals ->
  sized c 8 (reducer_Result (mkReducer fn (negb (bool_decide (ints vals = []))) (match vals with [] => None | _ => Some (CInt64 (folded fn (Init_Int64 fn) (ints vals))) end))).
Proof.
  intros Hv. pose proof (folded_range fn (ints vals) _ (Init_range fn) (ints_range vals Hv)) as Hrange.
  destruct vals as [|v vals]; [by split; [|intros b [= <-]]|]. unfold reducer_Result. cbn [math hasval]. case_bool_decide; cbn [negb].
  - by split; [|intros b [= <-]].
  - by apply sized_int64.
Qed.
Lemma sized_any c bound vals a : Forall (sized c bound) vals -> 0 <= bound -> option_Forall2 same a (any_fold vals None) ->
  Forall (fun v => readable v /\ IsError v = false) vals -> sized c bound (default NullValue a).
Proof.
  intros Hs Hb Ha Hr. destruct (decide (vals = [])) as [->|Hne]; [inversion Ha; by split; [|intros b [= <-]]|].
  destruct (any_fold_one vals Hne) as (v & Hin & Hx). rewrite Hx in Ha. inversion Ha as [w ? Hwv|]; subst. cbn [default from_option id].
  rewrite Forall_forall in Hs, Hr. destruct (Hs v Hin) as [Hm Hl]. destruct (Hr v Hin) as [(b & Eb & _) _]. destruct Hwv as [Ew _].
  unfold reread in Eb, Ew. destruct (Value_Bytes to32 to16 v) as [bv| |] eqn:Ev; try done. destruct (Value_Bytes to32 to16 w) as [bw| |] eqn:Ew'; try done.
  cbn in Ew. injection Ew as Et Er. unfold sized. rewrite Et. split; [done|]. intros b' Eb'. rewrite Ew' in Eb'. injection Eb' as <-. rewrite Er. by apply Hl.
Qed.
Lemma body_size c t xs es : Forall2 (encodes t) xs es -> Forall (plain_item c) xs ->
  zlen (body_of es) <= 2 * foldr (fun x n => 28 + zlen (default [] x.2) + n) 0 xs.
Proof.
  induction 1 as [|x e xs es He _ IH]; intros Hx; [done|]. apply Forall_cons in Hx as [Hp Hx]. specialize (IH Hx). destruct Hp as [Hp _].
  pose proof (encodes_small c t x e (plain_appendable _ _ Hp) He) as Hsm. unfold body_of in *. cbn [map concat foldr]. rewrite zlen_app. pose proof (zlen_val_bytes e Hsm).
  destruct He as [He _]. pose proof (zlen_nonneg (default [] x.2)). lia.
Qed.
Lemma sized_collect c values vals v c' : wf c -> MaxValueSize < 2 ^ 62 -> collected values (items vals) -> Forall (collectable c) vals ->
  weights vals <= MaxValueSize -> collect_Result to32 to16 values c = Ok (v, c') -> sized c' (Z.max 8 (2 * MaxValueSize)) v.
Proof.
  intros Hc HMax Hcol Hv Hw E. rewrite (collect_Result_of _ _ _ Hcol) in E. pose proof (items_plain c vals Hv) as Hx. pose proof (items_weights c vals Hv) as Hiw.
  destruct (decide (items vals = [])) as [Hnil|Hnil].
  - rewrite Hnil in E. injection E as <- <-. by split; [|intros b [= <-]; unfold zlen; cbn; lia].
  - destruct (collect_of_spec c (items vals) Hc Hnil) as (i & inner & es & c2 & E2 & _ & _ & Hes & Hm); [|done|].
    { unfold short. pose proof (zlen_weights (items vals)). lia. }
    rewrite E in E2. injection E2 as -> ->. split; [done|]. intros b [= <-]. cbn [default from_option id].
    pose proof (body_size c inner _ _ Hes Hx). unfold id. lia.
Qed.

(** The functions that combine, with what a result is: a value of the context
    no longer than the longest of the values and what collect can have. *)
Lemma combines_laws start ok bound : combines start ok -> 8 <= bound -> 2 * MaxValueSize <= bound ->
  exists D : Decomposes start, (forall c vals, ok c vals -> fits c vals) /\ (forall f vals, stands f vals -> ResultAsPartial f = Result f) /\
    forall f vals c v c', wf c -> stands f vals -> fits c vals -> Forall (sized c bound) vals -> Result f c = Ok (v, c') -> sized c' bound v.
Proof.
  intros Hcomb Hb HMax. destruct Hcomb as [| | | |fn|HM].
  - exists count_decomposes. split_and!; [done|by intros f vals ->|]. intros f vals c v c' _ -> _ _ [= <- <-].
    eapply sized_weaken; [done| |apply (sized_uint64 c (u64 (zlen vals)))]; [lia|]. unfold u64. apply Z.mod_pos_bound. lia.
  - exists and_decomposes. split_and!; [done|by intros f vals ->|]. intros f vals c v c' _ -> _ _ [= <- <-]. by eapply sized_weaken, sized_bool.
  - exists or_decomposes. split_and!; [done|by intros f vals ->|]. intros f vals c v c' _ -> _ _ [= <- <-]. by eapply sized_weaken, sized_bool.
  - exists any_decomposes. split_and!; [done|by intros f vals (a & -> & _)|]. intros f vals c v c' _ (a & -> & Ha) Hf Hs [= <- <-].
    eapply sized_any; [exact Hs|lia|exact Ha|exact Hf].
  - exists (signed_decomposes fn). split_and!; [done|by intros f vals ->|]. intros f vals c v c' _ -> Hf _ [= <- <-]. by eapply sized_weaken, sized_summed.
  - exists (collect_decomposes HM). split_and!; [done|by intros f vals (values & size & -> & _)|].
    intros f vals c v c' Hc (values & size & -> & Hcol & _) [Hv Hw] _ E. eapply sized_weaken; [done| |eapply sized_collect; done]. lia.
Qed.
Lemma combines_decomposes start ok : combines start ok ->
  exists D : Decomposes start, (forall c vals, ok c vals -> fits c vals) /\ forall f vals, stands f vals -> ResultAsPartial f = Result f.
Proof.
  intros H. destruct (combines_laws start ok (Z.max 8 (2 * MaxValueSize)) H) as (D & Hok & Hres & _); [lia|lia|]. by exists D.
Qed.

Lemma consume_all_stands {start} {D : Decomposes start} vals : forall f seen c,
  stands f seen -> fits c (seen ++ vals) -> exists g, consume_all vals f = Ok g /\ stands g (seen ++ vals).
Proof.
  induction vals as [|v vals IH]; intros f seen c Hf Hv; [exists f; by rewrite app_nil_r|].
  replace (seen ++ v :: vals) with ((seen ++ [v]) ++ vals) in * by (by rewrite <- app_assoc). destruct (fits_app _ _ _ Hv) as [Hv1 _].
  destruct (d_consume f seen v c Hf Hv1) as (f' & E & Hf'). cbn [consume_all]. rewrite E. by apply (IH f' _ c).
Qed.

Lemma partials_spec {start} {D : Decomposes start} chunks : forall c,
  wf c -> Forall (fun chunk => chunk <> []) chunks -> fits c (concat chunks) ->
  exists ps c', partials start chunks c = Ok (ps, c') /\ wf c' /\ grows c c' /\ length ps = length chunks /\ Forall (fun p => IsError p = false) ps /\
    forall g seen c2, grows c' c2 -> stands g seen -> fits c2 (seen ++ concat chunks) ->
      exists g', consume_partials ps g = Ok g' /\ stands g' (seen ++ concat chunks).
Proof.
  induction chunks as [|chunk chunks IH]; intros c Hc Hne Hv.
  { exists [], c. split_and!; try done. intros g seen c2 _ Hg _. exists g. by rewrite app_nil_r. }
  apply Forall_cons in Hne as [Hne Hnes]. cbn [concat] in Hv. destruct (fits_app _ _ _ Hv) as [Hv1 Hv2].
  destruct (consume_all_stands chunk start [] c d_start Hv1) as (f & E & Hf).
  destruct (d_partial f chunk c Hc Hf Hne Hv1) as (p & c1 & Ep & Hc1 & Hg1 & He & Hp).
  destruct (IH c1 Hc1 Hnes (fits_grows _ _ _ Hg1 Hv2)) as (ps & c' & Eps & Hc' & Hg & Hlen & Hes & Hps).
  exists (p :: ps), c'. cbn [partials]. split; [|split_and!; try done].
  - rewrite E, M_lift_l, (M_bind_Ok _ _ _ _ _ Ep), (M_bind_Ok _ _ _ _ _ Eps). done.
  - by transitivity c1.
  - cbn. lia.
  - by constructor.
  - intros g seen c2 Hc2 Hgs Hf2. change (concat (chunk :: chunks)) with (chunk ++ concat chunks) in *. rewrite app_assoc in *. destruct (fits_app _ _ _ Hf2) as [Hf3 _].
    destruct (Hp g seen c2 Hgs Hf3) as (g1 & Eg & Hg1'). cbn [consume_partials]. rewrite Eg.
    by apply (Hps g1 _ c2).
Qed.

Lemma partials_result start ok chunks c :
  combines start ok -> wf c -> chunks <> [] -> Forall (fun chunk => chunk <> []) chunks -> ok c (concat chunks) ->
  exists f ps c' g r c'',
    consume_all (concat chunks) start = Ok f /\ partials start chunks c = Ok (ps, c') /\ length ps = length chunks /\
    Forall (fun p => IsError p = false) ps /\ consume_partials ps start = Ok g /\
    raw_of (Result f) c' = Ok (r, c'') /\ raw_of (Result g) c' = Ok (r, c'').
Proof.
  intros (D & Hok & Hres)%combines_decomposes Hc Hne Hnes Hv%Hok.
  destruct (consume_all_stands (concat chunks) start [] c d_start Hv) as (f & Ef & Hf).
  destruct (partials_spec chunks c Hc Hnes Hv) as (ps & c' & Eps & Hc' & Hg & Hlen & Hes & Hps).
  pose proof (fits_grows _ _ _ Hg Hv) as Hv'. destruct (Hps start [] c' ltac:(done) d_start Hv') as (g & Eg & Hgs).
  assert (Hcat : concat chunks <> []).
  { destruct chunks as [|chunk chunks]; [done|]. apply Forall_cons in Hnes as [H _]. destruct chunk; [done|]. by destruct chunks. }
  destruct (d_partial f _ c' Hc' Hf Hcat Hv') as (r & c'' & Er & _). rewrite (Hres f _ Hf) in Er.
  exists f, ps, c', g, r, c''. split_and!; try done. by rewrite <- (d_result f g _ c' Hc' Hf Hgs Hv').
Qed.
End agg.
