(* ===== verification/AggProps.v ===== *)
(** * The properties of aggregate functions

    Partial results combine to the result of all the values, for the functions
    and the values where they do; and where they do not. *)

From S2P Require Import Prelude Zcode Types Context Interning Primitive Values ValueProofs Compare Expr ExprProofs Spill Agg AggSchema AggProofs.
From Stdlib Require Import Strings.Byte.
Local Open Scope Z_scope.

Section agg.
Context (to32 of32 to16 of16 : Z -> Z) (nan : Z -> Z -> Z) (float_to_int float_to_uint : Z -> Z).
Context (ParseFloat64 : list byte -> option Z) (iteration : forall {A : Type}, list A -> list A).
Context {Sketch : Type} (Insert : list byte -> Sketch -> Sketch) (Merge : Sketch -> Sketch -> Sketch)
  (Estimate : Sketch -> Z) (MarshalBinary : Sketch -> list byte) (UnmarshalBinary : list byte -> option Sketch).
Context (MaxValueSize : Z) (sort_entries : list (list byte * list byte) -> list (list byte * list byte)).
Local Abbreviation Function := (Function (Sketch := Sketch)).
Local Abbreviation Result := (Result to32 to16 nan (@iteration) Estimate sort_entries).
Local Abbreviation consume_all := (consume_all to32 of32 to16 of16 nan float_to_int float_to_uint ParseFloat64 (@iteration) Insert MaxValueSize).
Local Abbreviation partials := (partials to32 of32 to16 of16 nan float_to_int float_to_uint ParseFloat64 (@iteration) Insert
  Estimate MarshalBinary MaxValueSize sort_entries).
Local Abbreviation consume_partials := (consume_partials to32 of32 to16 of16 nan float_to_int float_to_uint ParseFloat64 (@iteration)
  Insert Merge UnmarshalBinary MaxValueSize).
Local Abbreviation combines := (combines to32 to16 MaxValueSize).
Local Abbreviation raw_of := (raw_of to32 to16).

(** C22: what the group-by operator relies on when it spills. For count on any
    values; for and, and or, on values whose bytes can be read as bools where
    they are bools; for any on values that are no errors and whose bytes can
    be read; for sum, min and max on signed integers and their nulls; and for
    collect on values of the context that can be written and read, within its
    bound on the size. However such values are cut into chunks, a fresh
    function that consumes the chunks' partial results, each written and read
    back, has the result of a function that consumed the values one by one;
    neither fails, and no partial result is an error, which the operator would
    not accept (any of an error value has one: partial_error_panics). *)
Theorem partials_combine start ok chunks c :
  combines start ok -> wf c -> chunks <> [] -> Forall (fun chunk => chunk <> []) chunks -> ok c (concat chunks) ->
  exists f ps c' g r c'',
    consume_all (concat chunks) start = Ok f /\ partials start chunks c = Ok (ps, c') /\ length ps = length chunks /\
    Forall (fun p => IsError p = false) ps /\ consume_partials ps start = Ok g /\
    raw_of (Result f) c' = Ok (r, c'') /\ raw_of (Result g) c' = Ok (r, c'').
Proof. by apply partials_result. Qed.
End agg.

(** C23: the types mixed into a schema, whatever they are and in whatever
    order, give, within the fuel, a type of the context that has room for all
    they hold: whatever a value of one of the types holds, as fields by name
    (an absent field being a null one), elements or entries, a value of the
    fused type can hold too. That is about the types only: whether the shaper
    then converts the value, which it does not for maps, is not claimed. *)
Theorem schema_holds_types types c :
  wf c -> types <> [] -> Forall (member c) types -> Z.of_nat (widths types) < 2 ^ 63 ->
  exists t c', mixin_all None types c = Ok (Some t, c') /\ wf c' /\ member c' t /\
    forall u d, u ∈ types -> holds u d -> holds t d.
Proof.
  intros Hc Hne Hm Hw. destruct types as [|s types]; [done|]. apply Forall_cons in Hm as [Hs Hm]. rewrite widths_cons in Hw.
  destruct (mixin_spec types s c _ Hc Hm Hs (le_n _) Hw) as (t & c' & E & Hc' & _ & Ht & Hst & Hall). exists t, c'. split_and!; try done.
  intros u d Hu. apply shapes_holds. apply elem_of_cons in Hu as [->|Hu]; [done|by apply Hall].
Qed.

(** ** Where they do not, and the bound of collect *)

Section concrete.
(** Without floats, with Go maps read in the order of insertion. *)
Local Abbreviation id_ := (fun z : Z => z) (only parsing).
Local Abbreviation Fn := (Function (Sketch := unit)).
Definition consume_ (MaxValueSize : Z) (v : Value) (f : Fn) : outcome diverge Fn :=
  Consume id_ id_ id_ id_ (fun _ _ => 0) id_ id_ (fun _ => None) (fun _ l => l) (fun _ s => s) MaxValueSize v f.
Definition consume_partial_ (MaxValueSize : Z) (v : Value) (f : Fn) : outcome diverge Fn :=
  ConsumeAsPartial id_ id_ id_ id_ (fun _ _ => 0) id_ id_ (fun _ => None) (fun _ l => l) (fun _ s => s) (fun s _ => s)
    (fun _ => None) MaxValueSize v f.
Definition result_ (f : Fn) : M Value := Result id_ id_ (fun _ _ => 0) (fun _ l => l) (fun _ => 0) (fun es => es) f.

Definition max_ : Fn := MathReducer (mkReducer FMax false None).
Definition min_ : Fn := MathReducer (mkReducer FMin false None).
Definition uint64_null : Value := NewValue (TPrim Uint64) None.

(** The state that a null of another type leaves counts as a value: the greatest
    of a null of uint64 and of -5 is 0. *)
Theorem max_of_null_and_negative c :
  (f ← lift (consume_ 100 uint64_null max_); f ← lift (consume_ 100 (NewInt64 (-5)) f); result_ f) c = Ok (NewInt64 0, c).
Proof. vm_compute. reflexivity. Qed.

(** The least of +Inf alone is the greatest finite float. *)
Definition Inf : Z := MaxFloat64 + 1.
Theorem min_of_infinity c :
  (f ← lift (consume_ 100 (NewFloat64 Inf) min_); result_ f) c = Ok (NewFloat64 MaxFloat64, c).
Proof. vm_compute. reflexivity. Qed.

Definition int_or_string : ty := TUnion 30 [TPrim Int64; TPrim String].
(** The integer 5 of the union. *)
Definition five_bytes : bytes := Some [x01; x02; x0a].
Definition five : Value := NewValue int_or_string five_bytes.

(** A value of a union counts with its tag when it comes in and without it when
    it goes out: what is left over grows until nothing is left to discard, and the
    next value takes the first of an empty list. *)
Theorem collect_sizes_panic :
  (f ← consume_ 3 five (Collect [] 0); consume_ 3 five f) = Panic.
Proof. vm_compute. reflexivity. Qed.

(** The union of values of a union has them as they are; through a partial
    result it has them without their tags, and is of another type. *)
Theorem union_of_unions_partial :
  let direct := t ← LookupTypeUnion [TPrim Int64; TPrim String]; f ← lift (consume_ 100 (NewValue t five_bytes) (Agg.Union [] 0)); result_ f in
  let partial := p ← direct; f ← lift (consume_partial_ 100 p (Agg.Union [] 0)); result_ f in
  (v ← direct; w ← partial; mret (v_type v, v_type w)) NewContext =
    (t ← LookupTypeUnion [TPrim Int64; TPrim String]; s ← LookupTypeSet t; i ← LookupTypeSet (TPrim Int64); mret (s, i)) NewContext.
Proof. vm_compute. reflexivity. Qed.

(** Merging an array and a set of the same type makes a union of that type and
    itself of the elements. *)
Theorem merge_repeats_type :
  (a ← LookupTypeArray (TPrim Int64); s ← LookupTypeSet (TPrim Int64); mixin_all None [a; s]) NewContext =
  (LookupTypeArray (TPrim Int64) ≫= fun _ => LookupTypeSet (TPrim Int64) ≫= fun _ => u ← LookupTypeUnion [TPrim Int64; TPrim Int64];
     t ← LookupTypeArray u; mret (Some t)) NewContext.
Proof. vm_compute. reflexivity. Qed.
End concrete.

(** Sums of [1; 2], [null; -3] and a chunk of nulls, each on its own. *)
Lemma partials_combine_witness :
  let chunks := [[NewInt64 1; NewInt64 2]; [NewValue (TPrim Int8) None; NewInt64 (-3)]; [NewValue (TPrim Int64) None]] in
  let consume := consume_all (fun z => z) (fun z => z) (fun z => z) (fun z => z) (fun _ _ => 0) (fun z => z) (fun z => z)
    (fun _ => None) (fun _ l => l) (Sketch := unit) (fun _ s => s) 100 in
  exists f, consume (concat chunks) (MathReducer (mkReducer FAdd false None)) = Ok f /\ exists ps g r, length ps = 3%nat /\
    consume_partials (fun z => z) (fun z => z) (fun z => z) (fun z => z) (fun _ _ => 0) (fun z => z) (fun z => z) (fun _ => None)
      (fun _ l => l) (fun _ s => s) (fun s _ => s) (fun _ => None) 100 ps (MathReducer (mkReducer FAdd false None)) = Ok g /\
    forall h, h = f \/ h = g -> exists c c', raw_of (fun z => z) (fun z => z) (result_ h) c = Ok (r, c').
Proof.
  intros chunks consume.
  destruct (partials_combine (fun z => z) (fun z => z) (fun z => z) (fun z => z) (fun _ _ => 0) (fun z => z) (fun z => z)
    (fun _ => None) (fun _ l => l) (Sketch := unit) (fun _ s => s) (fun s _ => s) (fun _ => 0) (fun _ => []) (fun _ => None) 100 (fun es => es)
    (MathReducer (mkReducer FAdd false None)) _ chunks NewContext (combines_ints _ _ _ FAdd) NewContext_wf)
    as (f & ps & c' & g & r & c'' & Ef & _ & Hl & _ & Eg & Hf & Hg); [done| | |].
  - by repeat constructor.
  - assert (Hi : forall n, - 2 ^ 63 <= n < 2 ^ 63 -> signed_int (NewInt64 n)).
    { intros n Hn. split; [exists Int64; split; [done|set_solver]|]. intros _. exists n. split; [|done].
      unfold NewInt64, NewInt, Values.Int, newNativeValue. cbn. f_equal. rewrite i64_u64. by apply i64_id. }
    assert (Hn : forall p, p ∈ [Int8; Int16; Int32; Int64] -> signed_int (NewValue (TPrim p) None)) by (intros p Hp; by split; [exists p|]).
    repeat constructor; first [apply Hi; lia|apply Hn; set_solver].
  - exists f. split; [exact Ef|]. exists ps, g, r. split; [exact Hl|]. split; [exact Eg|]. intros h [->| ->]; by exists c', c''.
Defined.

Lemma schema_holds_types_witness :
  exists t c', mixin_all None [TPrim Int64; TPrim String; TPrim Null; TPrim Int64] NewContext = Ok (Some t, c') /\
    wf c' /\ member c' t /\ forall u d, u ∈ [TPrim Int64; TPrim String; TPrim Null; TPrim Int64] -> holds u d -> holds t d.
Proof.
  apply (schema_holds_types [TPrim Int64; TPrim String; TPrim Null; TPrim Int64] NewContext); [apply NewContext_wf|done| |done].
  apply Forall_forall. intros u Hu. repeat (apply elem_of_cons in Hu as [->|Hu]; [done|]). by apply not_elem_of_nil in Hu.
Defined.
