(* ===== verification/RecordBuilder.v ===== *)
(** * Records built from paths

    [src/recordbuilder.go]: a builder for records whose fields are given by paths, some
    of them in nested records. *)

From S2P Require Import Prelude Zcode Types Context.

(** [field.Path] *)
Abbreviation path := (list gostring).
Record fieldInfo := mkFieldInfo { fi_field : path; containerBegins : list gostring; containerEnds : nat }.
Inductive builder_error :=
  | EmptyPath
  | NotAdjacent (recname : gostring)
  | DuplicateField (name : gostring)
  | NotEnough.
Record RecordBuilder := mkRecordBuilder { rb_fields : list fieldInfo; rb_builder : Builder; curField : nat }.

(** [strings.Join] with a dot. *)
Fixpoint join (names : path) : gostring :=
  match names with
  | [] => []
  | [name] => name
  | name :: names => name ++ str "." ++ join names
  end.
(** How many parents two records share. *)
Fixpoint shared (record current : path) : nat :=
  match record, current with
  | a :: record, b :: current => if decide (a = b) then S (shared record current) else O
  | _, _ => O
  end.

(** [isIn] *)
Definition prefixes (p : path) : list path := map (fun i => take (S i) p) (seq 0 (length p)).
Definition isIn (fieldname : path) (fis : list fieldInfo) : bool :=
  existsb (fun sub => existsb (fun fi => bool_decide (sub = fi_field fi)) fis) (prefixes fieldname) ||
  existsb (fun fi => existsb (fun prefix => bool_decide (prefix = fieldname)) (prefixes (fi_field fi))) fis.

(** The records of the path that begin, from the one at [pos]. *)
Fixpoint open_records (record : path) (pos n : nat) (seen : gset gostring) : outcome builder_error (gset gostring * list gostring) :=
  match n with
  | O => Ok (seen, [])
  | S n =>
      let recname := join (take (S pos) record) in
      if decide (recname ∈ seen) then Err (NotAdjacent recname)
      else
        '(seen, begins) ← open_records record (S pos) n ({[recname]} ∪ seen);
        match record !! pos with Some name => Ok (seen, name :: begins) | None => Panic end
  end.
(** The containers that end after the last field so far. *)
Definition set_ends (n : nat) (infos : list fieldInfo) : list fieldInfo :=
  alter (fun fi => mkFieldInfo (fi_field fi) (containerBegins fi) n) (length infos - 1)%nat infos.

Fixpoint add_fields (fields : list path) (infos : list fieldInfo) (seen : gset gostring) (currentRecord : path) :
    outcome builder_error (list fieldInfo * path) :=
  match fields with
  | [] => Ok (infos, currentRecord)
  | [] :: _ => Err EmptyPath
  | field :: fields =>
      let record := removelast field in
      '(infos, seen, begins) ←
        (if decide (record = currentRecord) then Ok (infos, seen, [])
         else
           let pos := shared record currentRecord in
           '(seen, begins) ← open_records record pos (length record - pos) seen;
           Ok (set_ends (length currentRecord - pos) infos, seen, begins));
      if isIn field infos then Err (DuplicateField (join field))
      else add_fields fields (infos ++ [mkFieldInfo field begins 0]) seen record
  end.
Definition NewRecordBuilder (fields : list path) : outcome builder_error RecordBuilder :=
  '(infos, currentRecord) ← add_fields fields [] ∅ [];
  Ok (mkRecordBuilder (set_ends (length currentRecord) infos) NewBuilder 0).

Definition Reset (r : RecordBuilder) : RecordBuilder := mkRecordBuilder (rb_fields r) (Zcode.Reset (rb_builder r)) 0.
Fixpoint end_containers (n : nat) (b : Builder) : outcome Empty_set Builder :=
  match n with O => Ok b | S n => b ← EndContainer b; end_containers n b end.
Definition append_field (fi : fieldInfo) (leaf : bytes) (b : Builder) : outcome Empty_set Builder :=
  end_containers (containerEnds fi) (BAppend (foldl (fun b _ => BeginContainer b) b (containerBegins fi)) leaf).
Definition Append (r : RecordBuilder) (leaf : bytes) : outcome Empty_set RecordBuilder :=
  match rb_fields r !! curField r with
  | None => Panic
  | Some field => b ← append_field field leaf (rb_builder r); Ok (mkRecordBuilder (rb_fields r) b (S (curField r)))
  end.
Definition Encode (r : RecordBuilder) : outcome builder_error bytes :=
  if decide (curField r = length (rb_fields r)) then
    match Bytes_ (rb_builder r) with Ok b => Ok b | _ => Panic end
  else Err NotEnough.

(** [Type]: the records under construction, the innermost first. *)
Definition frame : Type := gostring * list field.
Fixpoint end_records (n : nat) (stack : list frame) : M (list frame) :=
  match n with
  | O => mret stack
  | S n =>
      match stack with
      | (name, fields) :: stack =>
          recType ← MustLookupTypeRecord fields;
          match stack with
          | (cur, fs) :: stack => end_records n ((cur, fs ++ [(name, recType)]) :: stack)
          | [] => panic
          end
      | [] => panic
      end
  end.
Definition leaf_name (p : path) : gostring := default [] (last p).
Fixpoint type_fields (infos : list fieldInfo) (types : list ty) (stack : list frame) : M (list frame) :=
  match infos with
  | [] => mret stack
  | fi :: infos =>
      let stack := foldl (fun stack name => (name, []) :: stack) stack (containerBegins fi) in
      match stack, types with
      | (name, fields) :: stack, t :: types =>
          stack ← end_records (containerEnds fi) ((name, fields ++ [(leaf_name (fi_field fi), t)]) :: stack);
          type_fields infos types stack
      | _, _ => panic
      end
  end.
Definition RecordType (r : RecordBuilder) (types : list ty) : M ty :=
  stack ← type_fields (rb_fields r) types [([], [])];
  match stack with [(_, fields)] => MustLookupTypeRecord fields | _ => panic end.
