(* ===== verification/RecordBuilderProofs.v ===== *)
(** * What a record builder builds

    The sequence of beginnings, leaves and ends that a builder goes through is
    that of a forest whose leaves are at the builder's paths, with distinct
    names in each record. *)

From S2P Require Import Prelude Zcode Types EncodingProps Context Interning Values ValueProofs Compare Expr ExprProofs RecordBuilder.
Local Open Scope nat_scope.

(** ** Forests *)

Section forest.
Context {A : Type}.

Inductive node := NLeaf (name : gostring) (a : A) | NRec (name : gostring) (es : list node).
Lemma node_ind' (P : node -> Prop) : (forall n a, P (NLeaf n a)) -> (forall n es, Forall P es -> P (NRec n es)) -> forall x, P x.
Proof.
  intros Hl Hr. fix IH 1. intros [n a|n es]; [apply Hl|]. apply Hr. induction es as [|x es IHe]; constructor; [apply IH|exact IHe].
Qed.
Definition node_name (x : node) : gostring := match x with NLeaf n _ | NRec n _ => n end.

Inductive token := TOpen (name : gostring) | TLeaf (name : gostring) (a : A) | TClose.
Fixpoint node_tokens (x : node) : list token :=
  match x with
  | NLeaf n a => [TLeaf n a]
  | NRec n es => TOpen n :: concat (map node_tokens es) ++ [TClose]
  end.
Fixpoint node_leaves (pre : path) (x : node) : list (path * A) :=
  match x with
  | NLeaf n a => [(pre ++ [n], a)]
  | NRec n es => concat (map (node_leaves (pre ++ [n])) es)
  end.
Fixpoint node_records (pre : path) (x : node) : list path :=
  match x with
  | NLeaf _ _ => []
  | NRec n es => (pre ++ [n]) :: concat (map (node_records (pre ++ [n])) es)
  end.
Fixpoint filled (x : node) : Prop :=
  match x with NLeaf _ _ => True | NRec _ es => es <> [] /\ foldr (fun x P => filled x /\ P) True es end.
Fixpoint distinct (x : node) : Prop :=
  match x with NLeaf _ _ => True | NRec _ es => NoDup (map node_name es) /\ foldr (fun x P => distinct x /\ P) True es end.
Definition tokens_of (es : list node) : list token := concat (map node_tokens es).
Definition leaves (pre : path) (es : list node) : list (path * A) := concat (map (node_leaves pre) es).
Definition records (pre : path) (es : list node) : list path := concat (map (node_records pre) es).
Definition distinct_all (es : list node) : Prop := NoDup (map node_name es) /\ Forall distinct es.

Lemma filled_rec n es : filled (NRec n es) <-> es <> [] /\ Forall filled es.
Proof. cbn. by rewrite Forall_fold_right. Qed.
Lemma distinct_rec n es : distinct (NRec n es) <-> distinct_all es.
Proof. cbn. unfold distinct_all. by rewrite Forall_fold_right. Qed.
Lemma tokens_app a b : tokens_of (a ++ b) = tokens_of a ++ tokens_of b.
Proof. unfold tokens_of. by rewrite map_app, concat_app. Qed.
Lemma leaves_app pre a b : leaves pre (a ++ b) = leaves pre a ++ leaves pre b.
Proof. unfold leaves. by rewrite map_app, concat_app. Qed.
Lemma records_app pre a b : records pre (a ++ b) = records pre a ++ records pre b.
Proof. unfold records. by rewrite map_app, concat_app. Qed.
Lemma leaves_one pre x : leaves pre [x] = node_leaves pre x.
Proof. unfold leaves. cbn. by rewrite app_nil_r. Qed.
Lemma records_one pre x : records pre [x] = node_records pre x.
Proof. unfold records. cbn. by rewrite app_nil_r. Qed.
Lemma tokens_one x : tokens_of [x] = node_tokens x.
Proof. unfold tokens_of. cbn. by rewrite app_nil_r. Qed.

(** Paths none of which leads through another. *)
Definition apart (p q : path) : Prop := ~ p `prefix_of` q /\ ~ q `prefix_of` p.
Fixpoint pfree (l : list path) : Prop := match l with [] => True | p :: l => Forall (apart p) l /\ pfree l end.
Lemma pfree_app a b : pfree (a ++ b) <-> pfree a /\ pfree b /\ forall p q, p ∈ a -> q ∈ b -> apart p q.
Proof.
  induction a as [|p a IH]; cbn; [split; [intros H; split_and!; try done; intros ? ? Hp; by apply not_elem_of_nil in Hp|by intros (_ & ? & _)]|].
  rewrite Forall_app, IH, !Forall_forall. split.
  - intros [[Ha Hb] (? & ? & Hab)]. split_and!; try done. intros x y [->|Hx]%elem_of_cons Hy; auto.
  - intros [[Ha ?] [? Hab]]. split_and!; try done; [|]; intros; apply Hab; set_solver.
Qed.

Lemma leaves_under pre es p a : (p, a) ∈ leaves pre es -> exists x, x ∈ es /\ pre ++ [node_name x] `prefix_of` p.
Proof.
  unfold leaves. intros H. apply list_elem_of_In, in_concat in H as (l & Hl & Hp). apply list_elem_of_In in Hl, Hp.
  apply list_elem_of_fmap in Hl as (x & -> & Hx). exists x. split; [done|]. clear Hx es. revert pre p a Hp.
  induction x as [n b|n es IH] using node_ind'; intros pre p a Hp; cbn in *.
  { apply list_elem_of_singleton in Hp. injection Hp as -> ->. done. }
  apply list_elem_of_In, in_concat in Hp as (l & Hl & Hp). apply list_elem_of_In in Hl, Hp.
  apply list_elem_of_fmap in Hl as (x & -> & Hx). rewrite Forall_forall in IH. destruct (IH x Hx _ _ _ Hp) as [k ->].
  exists ([node_name x] ++ k). by rewrite <- (app_assoc _ _ k).
Qed.
Lemma filled_leaf x : filled x -> forall pre, exists p a, (p, a) ∈ node_leaves pre x /\ pre ++ [node_name x] `prefix_of` p.
Proof.
  induction x as [n a|n es IH] using node_ind'; intros Hf pre; [by exists (pre ++ [n]), a; split; [left|]|].
  apply filled_rec in Hf as [Hne Hf]. destruct es as [|x es]; [done|]. apply Forall_cons in IH as [IH _], Hf as [Hx _].
  destruct (IH Hx (pre ++ [n])) as (p & a & Hp & k & ->). eexists _, a. split; [cbn; apply elem_of_app; left; exact Hp|].
  exists ([node_name x] ++ k). by rewrite <- (app_assoc _ _ k).
Qed.

(** The names are distinct where the paths of leaves are apart and those of records distinct. *)
Lemma forest_distinct_nodes es : Forall (fun x => forall pre, NoDup (node_records pre x) -> filled x -> pfree (map fst (node_leaves pre x)) -> distinct x) es ->
  forall pre, NoDup (records pre es) -> Forall filled es -> pfree (map fst (leaves pre es)) -> distinct_all es.
Proof.
  induction 1 as [|x es Hx Hes IH]; intros pre Hr Hf Hp; [split; constructor|].
  apply Forall_cons in Hf as [Hfx Hf]. change (x :: es) with ([x] ++ es) in Hr, Hp. rewrite records_app, records_one in Hr. rewrite leaves_app, leaves_one, map_app in Hp.
  apply NoDup_app in Hr as (Hr1 & Hr2 & Hr3). apply pfree_app in Hp as (Hp1 & Hp2 & Hp3).
  destruct (IH pre Hr3 Hf Hp2) as [Hn Hd]. split; [|constructor; [by eapply Hx|done]]. cbn [map]. apply NoDup_cons. split; [|done].
  intros Hin. apply list_elem_of_fmap in Hin as (y & Hxy & Hy). rewrite Forall_forall in Hf. pose proof (Hf y Hy) as Hfy.
  destruct (filled_leaf x Hfx pre) as (p & a & Hpx & Hpre). destruct (filled_leaf y Hfy pre) as (q & b & Hqy & Hqre).
  assert (Hq : q ∈ map fst (leaves pre es)).
  { apply list_elem_of_fmap. exists (q, b). split; [done|]. unfold leaves. apply list_elem_of_In, in_concat. exists (node_leaves pre y).
    split; apply list_elem_of_In; [by apply (list_elem_of_fmap_2 (node_leaves pre))|done]. }
  assert (Hpin : p ∈ map fst (node_leaves pre x)) by (apply list_elem_of_fmap; by exists (p, a)).
  destruct (Hp3 p q Hpin Hq) as [Hpq Hqp].
  destruct x as [n av|n xs], y as [m bv|m ys]; cbn in Hxy; subst m; cbn in *.
  - apply list_elem_of_singleton in Hpx. injection Hpx as -> ->. done.
  - apply list_elem_of_singleton in Hpx. injection Hpx as -> ->. done.
  - apply list_elem_of_singleton in Hqy. injection Hqy as -> ->. done.
  - apply (Hr2 (pre ++ [n])); [by left|]. unfold records. apply list_elem_of_In, in_concat. exists (node_records pre (NRec n ys)).
    split; apply list_elem_of_In; [by apply (list_elem_of_fmap_2 (node_records pre))|by left].
Qed.
Lemma node_distinct x : forall pre, NoDup (node_records pre x) -> filled x -> pfree (map fst (node_leaves pre x)) -> distinct x.
Proof.
  induction x as [n a|n es IH] using node_ind'; intros pre Hr Hf Hp; [done|]. apply filled_rec in Hf as [_ Hf]. apply distinct_rec.
  cbn in Hr. apply NoDup_cons in Hr as [_ Hr]. by apply (forest_distinct_nodes es IH (pre ++ [n])).
Qed.
Lemma forest_distinct es : NoDup (records [] es) -> Forall filled es -> pfree (map fst (leaves [] es)) -> distinct_all es.
Proof. apply forest_distinct_nodes. apply Forall_forall. intros x _. apply node_distinct. Qed.
End forest.
Arguments node : clear implicits.
Arguments token : clear implicits.

(** ** Forests under construction *)

(** What the builder goes through for its fields, with what is appended for them. *)
Definition info_tokens {A} (fi : fieldInfo) (a : A) : list (token A) :=
  map TOpen (containerBegins fi) ++ TLeaf (leaf_name (fi_field fi)) a :: replicate (containerEnds fi) TClose.
Definition tokens {A} (infos : list fieldInfo) (data : list A) : list (token A) := concat (zip_with info_tokens infos data).

Section zipper.
Context {A : Type}.
Implicit Types (fr : list (gostring * list (node A))) (root : list (node A)).

(** The open records, the innermost first, and what is at the top. *)
Fixpoint zpath fr : path := match fr with [] => [] | (n, _) :: fr => zpath fr ++ [n] end.
Fixpoint ztokens fr root : list (token A) :=
  match fr with [] => tokens_of root | (n, es) :: fr => ztokens fr root ++ TOpen n :: tokens_of es end.
Fixpoint zleaves fr root : list (path * A) :=
  match fr with [] => leaves [] root | (n, es) :: fr => zleaves fr root ++ leaves (zpath fr ++ [n]) es end.
Fixpoint zrecords fr root : list path :=
  match fr with [] => records [] root | (n, es) :: fr => zrecords fr root ++ (zpath fr ++ [n]) :: records (zpath fr ++ [n]) es end.
Fixpoint zfilled fr root : Prop :=
  match fr with [] => Forall filled root | (_, es) :: fr => Forall filled es /\ zfilled fr root end.
Definition ztop fr root : list (node A) := match fr with [] => root | (_, es) :: _ => es end.
Definition zadd (x : node A) fr root : list (gostring * list (node A)) * list (node A) :=
  match fr with [] => ([], root ++ [x]) | (n, es) :: fr => ((n, es ++ [x]) :: fr, root) end.
Fixpoint zclose (k : nat) fr root : list (gostring * list (node A)) * list (node A) :=
  match k, fr with
  | S k, (n, es) :: fr => let '(fr, root) := zadd (NRec n es) fr root in zclose k fr root
  | _, _ => (fr, root)
  end.
Definition zopen (names : list gostring) fr : list (gostring * list (node A)) := rev (map (fun n => (n, [])) names) ++ fr.

Lemma app_one_ne {B} (l : list B) x : l ++ [x] <> [].
Proof. by destruct l. Qed.
Lemma zadd_path x fr root : zpath (zadd x fr root).1 = zpath fr.
Proof. by destruct fr as [|[n es] fr]. Qed.
Lemma zadd_length x fr root : length (zadd x fr root).1 = length fr.
Proof. by destruct fr as [|[n es] fr]. Qed.
Lemma zpath_length fr : length (zpath fr) = length fr.
Proof. induction fr as [|[n es] fr IH]; cbn; [done|]. rewrite length_app, IH. cbn. lia. Qed.

Record zinv fr root (toks : list (token A)) (lvs : list (path * A)) (recs : list path) : Prop := {
  zi_tokens : ztokens fr root = toks;
  zi_leaves : zleaves fr root = lvs;
  zi_records : zrecords fr root ≡ₚ recs;
  zi_filled : zfilled fr root
}.

Lemma zadd_leaf n a fr root toks lvs recs : zinv fr root toks lvs recs ->
  let '(fr', root') := zadd (NLeaf n a) fr root in
  zinv fr' root' (toks ++ [TLeaf n a]) (lvs ++ [(zpath fr ++ [n], a)]) recs /\ zpath fr' = zpath fr /\ ztop fr' root' <> [].
Proof.
  intros [Ht Hl Hr Hf]. destruct fr as [|[m es] fr]; cbn in *; (split; [split|split; [done|apply app_one_ne]]); cbn;
    rewrite ?tokens_app, ?tokens_one, ?leaves_app, ?leaves_one, ?records_app, ?records_one; cbn; subst.
  - done.
  - done.
  - by rewrite app_nil_r.
  - apply Forall_app. split; [done|]. by apply Forall_singleton.
  - first [by rewrite <- app_assoc|apply app_assoc].
  - first [by rewrite <- app_assoc|apply app_assoc].
  - by rewrite app_nil_r.
  - split; [|apply Hf]. apply Forall_app. split; [apply Hf|]. by apply Forall_singleton.
Qed.

Lemma zclose_one n es fr root toks lvs recs : zinv ((n, es) :: fr) root toks lvs recs -> es <> [] ->
  let '(fr', root') := zadd (NRec n es) fr root in
  zinv fr' root' (toks ++ [TClose]) lvs recs /\ zpath fr' = zpath fr /\ ztop fr' root' <> [].
Proof.
  intros [Ht Hl Hr [Hf1 Hf]] Hne. assert (Hfn : filled (NRec n es)) by (by apply filled_rec).
  destruct fr as [|[m es'] fr]; cbn [zadd]; (split; [split|split; [done|apply app_one_ne]]); cbn in *;
    rewrite ?tokens_app, ?tokens_one, ?leaves_app, ?leaves_one, ?records_app, ?records_one; cbn; subst.
  - by rewrite <- !app_assoc.
  - done.
  - done.
  - apply Forall_app. split; [done|]. by apply Forall_singleton.
  - by repeat (rewrite <- app_assoc; cbn [app]).
  - first [by rewrite <- app_assoc|apply app_assoc].
  - rewrite <- Hr. by rewrite <- (app_assoc (zrecords fr root)).
  - split; [|apply Hf]. apply Forall_app. split; [apply Hf|]. by apply Forall_singleton.
Qed.

Lemma zclose_spec k : forall fr root toks lvs recs, zinv fr root toks lvs recs -> (k <= length fr)%nat -> (k = 0%nat \/ ztop fr root <> []) ->
  let '(fr', root') := zclose k fr root in
  zinv fr' root' (toks ++ replicate k TClose) lvs recs /\ zpath fr' = take (length fr - k) (zpath fr) /\ (ztop fr root <> [] -> ztop fr' root' <> []).
Proof.
  induction k as [|k IH]; intros fr root toks lvs recs Hz Hk Hne; cbn [zclose].
  { rewrite app_nil_r, Nat.sub_0_r, <- (zpath_length fr), firstn_all. by destruct fr. }
  destruct fr as [|[n es] fr]; [cbn in Hk; lia|]. destruct Hne as [|Hne]; [done|]. cbn in Hne, Hk.
  pose proof (zclose_one n es fr root toks lvs recs Hz Hne) as H1. destruct (zadd (NRec n es) fr root) as [fr1 root1] eqn:E1.
  destruct H1 as (Hz1 & Hp1 & Ht1). assert (Hl1 : length fr1 = length fr) by (rewrite <- (zpath_length fr1), Hp1; apply zpath_length).
  pose proof (IH fr1 root1 _ _ _ Hz1 ltac:(lia) (or_intror Ht1)) as H2. destruct (zclose k fr1 root1) as [fr2 root2].
  destruct H2 as (Hz2 & Hp2 & Ht2). rewrite <- app_assoc in Hz2. split; [done|]. split; [|intros _; by apply Ht2].
  rewrite Hp2, Hp1, Hl1. cbn [length zpath]. rewrite take_app_le; [f_equal; lia|]. rewrite zpath_length. lia.
Qed.

Lemma zopen_spec names : forall fr root toks lvs recs, zinv fr root toks lvs recs ->
  zinv (zopen names fr) root (toks ++ map TOpen names) lvs (recs ++ map (fun k => zpath fr ++ take (S k) names) (seq 0 (length names))) /\
  zpath (zopen names fr) = zpath fr ++ names.
Proof.
  induction names as [|n names IH]; intros fr root toks lvs recs Hz; [unfold zopen; cbn; by rewrite !app_nil_r|].
  assert (Hz1 : zinv ((n, []) :: fr) root (toks ++ [TOpen n]) lvs (recs ++ [zpath fr ++ [n]])).
  { destruct Hz as [Ht Hl Hr Hf]. split; cbn; unfold tokens_of, leaves, records; cbn; [by rewrite Ht|by rewrite app_nil_r|by rewrite Hr|by split]. }
  assert (E : zopen (n :: names) fr = zopen names ((n, []) :: fr)) by (unfold zopen; cbn; by rewrite <- app_assoc).
  rewrite E. destruct (IH _ _ _ _ _ Hz1) as [Hz2 Hp]. rewrite Hp. cbn [zpath]. split; [|by rewrite <- app_assoc].
  rewrite <- (app_assoc toks), <- (app_assoc recs) in Hz2. cbn [length seq map]. rewrite <- seq_shift, map_map. cbn [zpath app] in Hz2.
  erewrite (map_ext (fun k => zpath fr ++ take (S (S k)) (n :: names))); [exact Hz2|]. intros k. cbn. by rewrite <- app_assoc.
Qed.
End zipper.

(** ** The fields of a builder *)

Lemma prefixes_elem p q : p <> [] -> p `prefix_of` q -> p ∈ prefixes q.
Proof.
  intros Hne [k ->]. unfold prefixes. apply list_elem_of_fmap. exists (length p - 1)%nat. destruct p as [|x p]; [done|]. split.
  - replace (S (length (x :: p) - 1)) with (length (x :: p)) by (cbn; lia). by rewrite take_app_length.
  - apply elem_of_seq. rewrite length_app. cbn. lia.
Qed.
Lemma isIn_apart f infos : isIn f infos = false -> f <> [] -> Forall (fun fi => fi_field fi <> []) infos -> Forall (apart f) (map fi_field infos).
Proof.
  unfold isIn. intros [H1 H2]%orb_false_iff Hf Hne. apply Forall_map, Forall_forall. intros fi Hfi. rewrite Forall_forall in Hne. specialize (Hne fi Hfi).
  assert (Hex : forall {B} (g : B -> bool) l x, existsb g l = false -> x ∈ l -> g x = false).
  { intros B g l x He Hx. destruct (g x) eqn:E; [|done]. assert (existsb g l = true); [|congruence]. apply existsb_exists. exists x. split; [by apply list_elem_of_In|done]. }
  split; intros Hp.
  - pose proof (Hex _ _ _ _ H2 Hfi) as H3. pose proof (Hex _ _ _ _ H3 (prefixes_elem _ _ Hf Hp)) as H4. by apply bool_decide_eq_false in H4.
  - pose proof (Hex _ _ _ _ H1 (prefixes_elem _ _ Hne Hp)) as H3. pose proof (Hex _ _ _ _ H3 Hfi) as H4. by apply bool_decide_eq_false in H4.
Qed.

Lemma open_records_spec record n : forall pos seen seen' begins, (pos + n = length record)%nat -> open_records record pos n seen = Ok (seen', begins) ->
  begins = drop pos record /\ seen ⊆ seen' /\
  forall k, (pos <= k < length record)%nat -> join (take (S k) record) ∉ seen /\ join (take (S k) record) ∈ seen'.
Proof.
  induction n as [|n IH]; intros pos seen seen' begins Hn H; cbn [open_records] in H.
  { injection H as <- <-. split; [by rewrite drop_ge by lia|]. split; [done|]. intros k Hk. lia. }
  case_decide as Hd; [done|]. destruct (open_records record (S pos) n _) as [[s b]| |] eqn:E; [|done..].
  destruct (IH (S pos) _ _ _ ltac:(lia) E) as (Hb & Hs & Hk). cbn [mbind outcome_bind obind] in H.
  destruct (record !! pos) as [name|] eqn:En; [|done]. injection H as <- <-. split; [by rewrite (drop_S _ _ _ En), Hb|]. split; [set_solver|].
  intros k Hk'. destruct (decide (k = pos)) as [->|]; [split; [done|set_solver]|]. destruct (Hk k ltac:(lia)) as [H1 H2]. split; [set_solver|done].
Qed.

Lemma shared_spec r : forall c, take (shared r c) r = take (shared r c) c /\ (shared r c <= length r)%nat /\ (shared r c <= length c)%nat.
Proof.
  induction r as [|a r IH]; intros [|b c]; cbn; [done|split_and!; (done || lia)..|]. case_decide as Hd; cbn; [|split_and!; (done || lia)].
  subst b. destruct (IH c) as (-> & ? & ?). split_and!; (done || lia).
Qed.

Lemma set_ends_snoc n infos fi : set_ends n (infos ++ [fi]) = infos ++ [mkFieldInfo (fi_field fi) (containerBegins fi) n].
Proof. unfold set_ends. rewrite length_app. cbn [length]. replace (length infos + 1 - 1)%nat with (length infos + 0)%nat by lia. by rewrite alter_app_r. Qed.
Lemma tokens_snoc {A} infos fi (data : list A) a : length infos = length data -> tokens (infos ++ [fi]) (data ++ [a]) = tokens infos data ++ info_tokens fi a.
Proof. intros H. unfold tokens. rewrite zip_with_app by done. rewrite concat_app. cbn. by rewrite app_nil_r. Qed.

(** What has been built of the records when some fields have been added. *)
Record under_construction {A} (infos : list fieldInfo) (data : list A) (seen : gset gostring) (cur : path) fr root : Prop := {
  uc_zinv : zinv fr root (tokens infos data) (zip (map fi_field infos) data) (zrecords fr root);
  uc_path : zpath fr = cur;
  uc_records : NoDup (zrecords fr root);
  uc_seen : Forall (fun p => join p ∈ seen) (zrecords fr root);
  uc_ends : infos = [] /\ fr = [] \/ ztop fr root <> [] /\ exists is_ fi, infos = is_ ++ [fi] /\ containerEnds fi = 0;
  uc_free : pfree (map fi_field infos);
  uc_length : length infos = length data;
  uc_nonempty : Forall (fun fi => fi_field fi <> []) infos
}.

Lemma zinv_self {A} fr root toks lvs recs : zinv (A := A) fr root toks lvs recs -> zinv fr root toks lvs (zrecords fr root).
Proof. by intros []. Qed.

(** Ending the open records but some. *)
Lemma end_some {A} k infos (data : list A) seen cur fr root : under_construction infos data seen cur fr root -> (k <= length cur)%nat ->
  exists fr' root', zinv fr' root' (tokens (set_ends k infos) data) (zip (map fi_field infos) data) (zrecords fr' root') /\
    zrecords fr' root' ≡ₚ zrecords fr root /\ zpath fr' = take (length cur - k) cur /\ map fi_field (set_ends k infos) = map fi_field infos /\
    length (set_ends k infos) = length infos.
Proof.
  intros [Hz Hp Hr Hs He Hf Hl Hn] Hk. subst cur. rewrite zpath_length in *.
  destruct He as [[-> ->]|(Ht & is_ & fi & -> & Hfi)].
  { exists [], root. cbn in Hk. assert (k = 0%nat) as -> by lia. by split_and!. }
  pose proof (zclose_spec k fr root _ _ _ Hz Hk (or_intror Ht)) as H. destruct (zclose k fr root) as [fr' root']. destruct H as (Hz' & Hp' & _).
  exists fr', root'. rewrite set_ends_snoc, !map_app. split_and!; [| |done|done|by rewrite !length_app].
  - apply zinv_self in Hz'. destruct Hz' as [H1 H2 H3 H4]. split; [|by rewrite H2, map_app|done|done]. rewrite H1.
    destruct data as [|a data _] using rev_ind; [by rewrite length_app in Hl; cbn in Hl; lia|]. rewrite !length_app in Hl. cbn in Hl.
    rewrite !tokens_snoc by lia. unfold info_tokens. cbn. rewrite Hfi. cbn. by rewrite <- !app_assoc.
  - apply (zi_records _ _ _ _ _ Hz').
Qed.

Lemma record_leaf (f : path) : f <> [] -> removelast f ++ [leaf_name f] = f.
Proof.
  intros Hf. destruct f as [|n f _] using rev_ind; [done|]. unfold leaf_name. by rewrite removelast_last, last_snoc.
Qed.

(** The records that are open where the next field is in another record. *)
Lemma enter_record {A} infos (data : list A) seen cur fr root record seen' begins :
  let pos := shared record cur in
  under_construction infos data seen cur fr root -> open_records record pos (length record - pos) seen = Ok (seen', begins) ->
  exists fr' root', let infos' := set_ends (length cur - pos) infos in
    zinv fr' root' (tokens infos' data ++ map TOpen begins) (zip (map fi_field infos') data) (zrecords fr' root') /\ zpath fr' = record /\
    NoDup (zrecords fr' root') /\ Forall (fun p => join p ∈ seen') (zrecords fr' root') /\
    map fi_field infos' = map fi_field infos /\ length infos' = length infos.
Proof.
  intros pos Huc Ho. destruct (shared_spec record cur) as (Hpos & Hp1 & Hp2). fold pos in Hpos, Hp1, Hp2.
  destruct (end_some (length cur - pos) _ _ _ _ _ _ Huc ltac:(lia)) as (fr1 & root1 & Hz1 & Hr1 & Hpath & Hfi & Hlen).
  destruct (open_records_spec record (length record - pos) pos _ _ _ ltac:(lia) Ho) as (-> & Hsub & Hnew).
  replace (length cur - (length cur - pos)) with pos in Hpath by lia. rewrite <- Hpos in Hpath.
  destruct (zopen_spec (drop pos record) fr1 root1 _ _ _ Hz1) as [Hz2 Hp]. rewrite Hpath, take_drop in Hp.
  exists (zopen (drop pos record) fr1), root1. cbv zeta. rewrite Hfi.
  assert (Hnews : forall p, p ∈ map (fun k => zpath fr1 ++ take (S k) (drop pos record)) (seq 0 (length (drop pos record))) ->
    exists k, (pos <= k < length record)%nat /\ p = take (S k) record).
  { intros p (k & -> & Hk)%list_elem_of_fmap. apply elem_of_seq in Hk. rewrite length_drop in Hk. exists (pos + k). split; [lia|].
    rewrite Hpath, take_take_drop. f_equal. lia. }
  pose proof (zi_records _ _ _ _ _ Hz2) as Hrec. pose proof (uc_seen _ _ _ _ _ _ Huc) as Hseen. rewrite Forall_forall in Hseen.
  split; [by apply zinv_self in Hz2|]. split; [done|]. rewrite Hrec, Hr1. split_and!; [| |done|done].
  - apply NoDup_app. split; [apply (uc_records _ _ _ _ _ _ Huc)|]. split.
    + intros p Hp0 (k & Hk & ->)%Hnews. destruct (Hnew k Hk) as [Hn _]. apply Hn, Hseen, Hp0.
    + apply NoDup_fmap_2_strong; [|apply NoDup_seq]. intros x y Hx Hy E. apply elem_of_seq in Hx, Hy.
      apply (f_equal length) in E. rewrite !length_app, !length_take in E. lia.
  - apply Forall_app. split.
    + apply Forall_forall. intros p Hp0. apply Hsub, Hseen, Hp0.
    + apply Forall_forall. intros p (k & Hk & ->)%Hnews. apply (Hnew k Hk).
Qed.

Lemma add_field {A} (a : A) infos data seen fr root record begins field :
  field <> [] -> record = removelast field -> length infos = length data -> pfree (map fi_field infos) ->
  Forall (fun fi => fi_field fi <> []) infos -> isIn field infos = false ->
  zinv fr root (tokens infos data ++ map TOpen begins) (zip (map fi_field infos) data) (zrecords fr root) -> zpath fr = record ->
  NoDup (zrecords fr root) -> Forall (fun p => join p ∈ seen) (zrecords fr root) ->
  exists fr' root', under_construction (infos ++ [mkFieldInfo field begins 0]) (data ++ [a]) seen record fr' root'.
Proof.
  intros Hne -> Hlen Hfree Hn Hin Hz Hp Hr Hs. pose proof (zadd_leaf (leaf_name field) a fr root _ _ _ Hz) as H.
  destruct (zadd _ fr root) as [fr' root']. destruct H as (Hz' & Hp' & Ht). exists fr', root'.
  pose proof (zi_records _ _ _ _ _ Hz') as Hrec. rewrite Hp, (record_leaf field Hne) in Hz'. split.
  - apply zinv_self in Hz'. rewrite tokens_snoc by done. unfold info_tokens. cbn [containerBegins containerEnds fi_field replicate].
    rewrite map_app. cbn [map fi_field]. change zip with (zip_with (A := path) (B := A) pair). rewrite zip_with_app by (by rewrite length_map).
    by rewrite <- (app_assoc (tokens infos data)) in Hz'.
  - by rewrite Hp'.
  - by rewrite Hrec.
  - by rewrite Hrec.
  - right. split; [done|]. by eexists infos, _.
  - rewrite map_app. apply pfree_app. split_and!; [done|by split; [constructor|]|]. intros p q Hpin Hq. apply list_elem_of_singleton in Hq as ->.
    pose proof (isIn_apart _ _ Hin Hne Hn) as Ha. rewrite Forall_forall in Ha. destruct (Ha p Hpin). by split.
  - by rewrite !length_app, Hlen.
  - apply Forall_app. split; [done|]. by apply Forall_singleton.
Qed.

Lemma add_fields_spec {A} (fields : list path) : forall infos (data more : list A) seen cur infos' cur' fr root,
  add_fields fields infos seen cur = Ok (infos', cur') -> length more = length fields -> under_construction infos data seen cur fr root ->
  map fi_field infos' = map fi_field infos ++ fields /\
  exists seen' fr' root', under_construction infos' (data ++ more) seen' cur' fr' root'.
Proof.
  induction fields as [|field fields IH]; intros infos data more seen cur infos' cur' fr root H Hm Huc; cbn [add_fields] in H.
  { injection H as <- <-. apply nil_length_inv in Hm as ->. rewrite !app_nil_r. split; [done|]. by exists seen, fr, root. }
  destruct more as [|a more]; [done|]. injection Hm as Hm. destruct field as [|n p]; [done|]. set (field := n :: p) in *.
  assert (Hfin : forall infos1 seen1 begins fr1 root1,
    (if isIn field infos1 then Err (DuplicateField (join field)) else add_fields fields (infos1 ++ [mkFieldInfo field begins 0]) seen1 (removelast field)) = Ok (infos', cur') ->
    zinv fr1 root1 (tokens infos1 data ++ map TOpen begins) (zip (map fi_field infos1) data) (zrecords fr1 root1) -> zpath fr1 = removelast field ->
    NoDup (zrecords fr1 root1) -> Forall (fun p => join p ∈ seen1) (zrecords fr1 root1) -> map fi_field infos1 = map fi_field infos -> length infos1 = length infos ->
    map fi_field infos' = map fi_field infos ++ field :: fields /\ exists seen' fr' root', under_construction infos' (data ++ a :: more) seen' cur' fr' root').
  { intros infos1 seen1 begins fr1 root1 Hadd Hz Hp Hr Hs Hmap Hlen. destruct (isIn field infos1) eqn:Hin; [done|].
    destruct (add_field a infos1 data seen1 fr1 root1 (removelast field) begins field) as (fr2 & root2 & Huc2); try done.
    - rewrite Hlen. apply (uc_length _ _ _ _ _ _ Huc).
    - rewrite Hmap. apply (uc_free _ _ _ _ _ _ Huc).
    - apply (Forall_map fi_field (fun f => f <> [])). rewrite Hmap. apply Forall_map, (uc_nonempty _ _ _ _ _ _ Huc).
    - destruct (IH _ _ more _ _ _ _ _ _ Hadd Hm Huc2) as [E Hex]. rewrite map_app, Hmap in E. cbn [map fi_field] in E.
      rewrite <- app_assoc in E, Hex. by split. }
  destruct (decide (removelast field = cur)) as [E|E].
  - cbn [mbind outcome_bind obind] in H. destruct Huc as [Hz Hp Hr Hs He Hf Hl Hn]. eapply (Hfin infos seen [] fr root); try done; [by rewrite app_nil_r|by rewrite E].
  - destruct (open_records _ _ _ _) as [[seen1 begins]| |] eqn:Eo; [|done..]. cbn [mbind outcome_bind obind] in H.
    destruct (enter_record _ _ _ _ _ _ _ _ _ Huc Eo) as (fr1 & root1 & Hz & Hp & Hr & Hs & Hmap & Hlen). by apply (Hfin (set_ends (length cur - shared (removelast field) cur) infos) seen1 begins fr1 root1).
Qed.

(** The forest of a builder and the data for its fields. *)
Lemma builder_forest {A} fields r (data : list A) : NewRecordBuilder fields = Ok r -> length data = length fields ->
  curField r = 0 /\ rb_builder r = NewBuilder /\ map fi_field (rb_fields r) = fields /\
  exists root : list (node A), tokens (rb_fields r) data = tokens_of root /\ leaves [] root = zip fields data /\ Forall filled root /\ distinct_all root.
Proof.
  unfold NewRecordBuilder. intros H Hlen. destruct (add_fields fields [] ∅ []) as [[infos cur]| |] eqn:E; [|done..]. injection H as <-.
  assert (H0 : under_construction (A := A) [] [] ∅ [] [] []) by (split; [split; done || by apply Forall_nil_2|done|apply NoDup_nil_2|by apply Forall_nil_2|by left|done|done|by apply Forall_nil_2]).
  destruct (add_fields_spec fields [] [] data ∅ [] infos cur [] [] E Hlen H0) as (Hmap & seen & fr & root & Huc). cbn in Hmap, Huc.
  destruct (end_some (length cur) _ _ _ _ _ _ Huc (le_n _)) as (fr' & root' & Hz & Hr & Hp & Hfi & Hl).
  rewrite Nat.sub_diag in Hp. cbn [rb_fields rb_builder curField]. rewrite Hfi, Hmap. split_and!; [done..|].
  assert (fr' = []) as -> by (apply nil_length_inv; by rewrite <- zpath_length, Hp). destruct Hz as [Ht Hlv _ Hfill]. cbn in Ht, Hlv, Hfill.
  exists root'. rewrite Hmap in Hlv. split; [done|]. split; [done|]. split; [done|]. pose proof (uc_records _ _ _ _ _ _ Huc) as Hnd. rewrite <- Hr in Hnd.
  apply forest_distinct; [done|done|]. rewrite Hlv. pose proof (uc_free _ _ _ _ _ _ Huc) as Hfree. rewrite Hmap in Hfree.
  change (map fst (zip fields data)) with (fst <$> zip fields data). by rewrite fst_zip by lia.
Qed.

(** ** The bytes of the record *)

Section bytes.
Context {A : Type} (val : A -> bytes).

Fixpoint vtree_of (x : node A) : vtree :=
  match x with NLeaf _ a => VPrim (val a) | NRec _ es => VCont (map vtree_of es) end.
Definition node_val (x : node A) : bytes := tree_val (vtree_of x).
Fixpoint run_build (toks : list (token A)) (b : Builder) : outcome Empty_set Builder :=
  match toks with
  | [] => Ok b
  | TOpen _ :: toks => run_build toks (BeginContainer b)
  | TLeaf _ a :: toks => run_build toks (BAppend b (val a))
  | TClose :: toks => b ← EndContainer b; run_build toks b
  end.

Lemma run_build_app l k : forall b, run_build (l ++ k) b = (b ← run_build l b; run_build k b).
Proof.
  induction l as [|[n|n a|] l IH]; intros b; cbn [run_build app]; [done|apply IH|apply IH|].
  destruct (EndContainer b) as [b'| |]; [apply IH|done..].
Qed.
Lemma run_build_opens names : forall b, run_build (map TOpen names) b = Ok (foldl (fun b _ => BeginContainer b) b names).
Proof. induction names as [|n names IH]; intros b; [done|]. apply IH. Qed.
Lemma run_build_ends k : forall b, run_build (replicate k TClose) b = end_containers k b.
Proof. induction k as [|k IH]; intros b; [done|]. cbn. destruct (EndContainer b); [apply IH|done..]. Qed.
Lemma append_field_tokens fi a b : append_field fi (val a) b = run_build (info_tokens fi a) b.
Proof. unfold info_tokens. rewrite run_build_app, run_build_opens. cbn. by rewrite run_build_ends. Qed.

Lemma run_build_node x : forall b, run_build (node_tokens x) b = build b (vtree_of x).
Proof.
  induction x as [n a|n es IH] using node_ind'; intros b; [done|]. cbn [node_tokens run_build vtree_of build].
  rewrite run_build_app. assert (H : forall b, run_build (concat (map node_tokens es)) b =
    (fix go (b : Builder) (l : list vtree) : outcome Empty_set Builder :=
       match l with [] => Ok b | t :: l' => b ← build b t; go b l' end) b (map vtree_of es)).
  { clear b. induction IH as [|x es Hx _ IHe]; intros b; [done|]. cbn [map concat]. rewrite run_build_app, Hx.
    destruct (build b (vtree_of x)); [|done..]. cbn [mbind outcome_bind obind]. apply IHe. }
  rewrite H. destruct ((fix go (b : Builder) (l : list vtree) {struct l} := _) _ _); [|done..]. cbn. by destruct (EndContainer a).
Qed.
Lemma run_build_forest es : forall b, (zlen (body_of (map node_val es)) < 2 ^ 62)%Z ->
  run_build (tokens_of es) b = Ok (mkBuilder (match es with [] => b_bytes b | _ => Some (default [] (b_bytes b) ++ body_of (map node_val es)) end) (containers b)).
Proof.
  induction es as [|x es IH]; intros b Hs; [by destruct b|]. unfold tokens_of, body_of in *. cbn [map concat] in *. rewrite zlen_app in Hs.
  pose proof (zlen_nonneg (val_bytes (node_val x))). pose proof (zlen_nonneg (concat (map val_bytes (map node_val es)))).
  assert (Hx : tree_bytes (vtree_of x) = val_bytes (node_val x)) by apply tree_bytes_val.
  rewrite run_build_app, run_build_node, build_tree by (rewrite Hx; lia). cbn [mbind outcome_bind obind]. rewrite IH by lia. cbn [b_bytes containers default].
  rewrite Hx. f_equal. f_equal. destruct es; [by rewrite app_nil_r|]. f_equal. by rewrite app_assoc.
Qed.

(** Appending to a builder. *)
Fixpoint append_all (r : RecordBuilder) (vs : list bytes) : outcome Empty_set RecordBuilder :=
  match vs with [] => Ok r | v :: vs => r ← Append r v; append_all r vs end.
Lemma append_all_tokens infos data : forall pre b, length data = length infos ->
  append_all (mkRecordBuilder (pre ++ infos) b (length pre)) (map val data) =
  (b ← run_build (tokens infos data) b; Ok (mkRecordBuilder (pre ++ infos) b (length pre + length infos))).
Proof.
  revert data. induction infos as [|fi infos IH]; intros [|a data] pre b H; try done; [cbn; by rewrite Nat.add_0_r|].
  cbn [append_all map]. unfold Append at 1. cbn [rb_fields curField rb_builder]. rewrite list_lookup_middle by done.
  change (tokens (fi :: infos) (a :: data)) with (info_tokens fi a ++ tokens infos data). rewrite run_build_app, append_field_tokens.
  destruct (run_build (info_tokens fi a) b) as [b'| |]; [|done..]. cbn [mbind outcome_bind obind].
  pose proof (IH data (pre ++ [fi]) b' ltac:(by injection H)) as E. rewrite <- app_assoc, length_app in E. cbn [app length] in E.
  rewrite Nat.add_1_r in E. rewrite E. cbn [length]. by rewrite <- Nat.add_succ_comm.
Qed.
End bytes.

(** ** The type of the record *)

(** Names and lists as short as Go's. *)
Fixpoint fine {A} (x : node A) : Prop :=
  match x with NLeaf n _ => short n | NRec n es => short n /\ short es /\ foldr (fun x P => fine x /\ P) True es end.
Lemma fine_rec {A} n (es : list (node A)) : fine (NRec n es) <-> short n /\ short es /\ Forall fine es.
Proof. cbn. by rewrite Forall_fold_right. Qed.
Lemma fine_name {A} (x : node A) : fine x -> short (node_name x).
Proof. destruct x; [done|]. by intros [? _]. Qed.

Lemma filled_leaves {A} (x : node A) : filled x -> forall pre, (1 <= length (node_leaves pre x))%nat.
Proof. intros Hf pre. destruct (filled_leaf x Hf pre) as (p & a & Hp & _). by destruct (node_leaves pre x); [apply not_elem_of_nil in Hp|cbn; lia]. Qed.
Lemma leaves_length {A} (es : list (node A)) pre : Forall filled es -> (length es <= length (leaves pre es))%nat.
Proof.
  induction 1 as [|x es Hx _ IH]; [cbn; lia|]. unfold leaves in *. cbn [map concat length]. rewrite length_app. pose proof (filled_leaves x Hx pre). lia.
Qed.
Lemma node_fine {A} (x : node A) : forall pre, filled x -> (Z.of_nat (length (node_leaves pre x)) < 2 ^ 63)%Z ->
  Forall (fun pa => Forall short pa.1) (node_leaves pre x) -> fine x.
Proof.
  induction x as [n a|n es IH] using node_ind'; intros pre Hf Hl Hs; cbn [node_leaves] in *.
  { apply Forall_cons in Hs as [Hs _]. cbn in Hs. apply Forall_app in Hs as [_ Hs]. by apply Forall_cons in Hs as [? _]. }
  pose proof Hf as Hfx. apply filled_rec in Hf as [Hne Hf]. fold (leaves (pre ++ [n]) es) in *. apply fine_rec. pose proof (leaves_length es (pre ++ [n]) Hf) as Hlen.
  split; [|split; [unfold short, zlen; lia|]].
  - destruct (filled_leaf _ Hfx pre) as (p & a & Hp & k & ->). rewrite Forall_forall in Hs. specialize (Hs _ Hp). cbn in Hs.
    apply Forall_app in Hs as [Hs _]. apply Forall_app in Hs as [_ Hs]. by apply Forall_cons in Hs as [? _].
  - clear Hlen Hfx Hne. unfold leaves in *. induction IH as [|x es Hx _ IHe]; [constructor|]. cbn [map concat] in *. rewrite length_app in Hl.
    apply Forall_app in Hs as [Hs1 Hs2]. apply Forall_cons in Hf as [Hf1 Hf2]. constructor; [by apply (Hx (pre ++ [n]) Hf1); [lia|]|]. by apply IHe; [|lia|].
Qed.

Section types.
Context {A : Type} (typ : A -> ty).

(** The type of a node: that of its leaf, or a record of those below it. *)
Inductive typed : node A -> ty -> Prop :=
  | typed_leaf n a : typed (NLeaf n a) (typ a)
  | typed_rec n es id fs : Forall2 (fun x f => f.1 = node_name x /\ typed x f.2) es fs -> typed (NRec n es) (TRecord id fs).

Fixpoint run_type (toks : list (token A)) (stack : list frame) : M (list frame) :=
  match toks with
  | [] => mret stack
  | TOpen n :: toks => run_type toks ((n, []) :: stack)
  | TLeaf n a :: toks =>
      match stack with (name, fields) :: stack => run_type toks ((name, fields ++ [(n, typ a)]) :: stack) | [] => panic end
  | TClose :: toks => stack ← end_records 1 stack; run_type toks stack
  end.

Lemma run_type_app l k : forall stack c, run_type (l ++ k) stack c = (stack ← run_type l stack; run_type k stack) c.
Proof.
  induction l as [|[n|n a|] l IH]; intros stack c; cbn [run_type app]; [done|apply IH|destruct stack as [|[? ?] ?]; [done|apply IH]|].
  unfold mbind, M_bind in *. destruct (end_records 1 stack c) as [[st c']| |]; [apply IH|done..].
Qed.
Lemma end_records_S k stack c : end_records (S k) stack c = (stack ← end_records 1 stack; end_records k stack) c.
Proof.
  cbn [end_records]. destruct stack as [|[name fields] stack]; [done|]. unfold mbind, M_bind.
  destruct (MustLookupTypeRecord fields c) as [[t c']| |]; [|done..]. by destruct stack as [|[? ?] ?].
Qed.
Lemma run_type_opens names : forall stack c, run_type (map TOpen names) stack c = Ok (foldl (fun stack name => (name, []) :: stack) stack names, c).
Proof. induction names as [|n names IH]; intros stack c; [done|]. apply IH. Qed.
Lemma run_type_ends k : forall stack c, run_type (replicate k TClose) stack c = end_records k stack c.
Proof.
  induction k as [|k IH]; intros stack c; [done|]. rewrite end_records_S. cbn [replicate run_type]. unfold mbind, M_bind.
  destruct (end_records 1 stack c) as [[st c']| |]; [apply IH|done..].
Qed.
Lemma type_fields_tokens infos : forall data stack c, length data = length infos ->
  type_fields infos (map typ data) stack c = run_type (tokens infos data) stack c.
Proof.
  induction infos as [|fi infos IH]; intros [|a data] stack c H; try done. cbn [type_fields map].
  change (tokens (fi :: infos) (a :: data)) with (info_tokens fi a ++ tokens infos data). unfold info_tokens. rewrite <- app_assoc.
  rewrite run_type_app, (M_bind_Ok _ _ _ _ _ (run_type_opens _ stack c)). cbn [app run_type].
  match goal with |- context [foldl ?f stack ?l] => destruct (foldl f stack l) as [|[name fields] st] end; [done|]. rewrite run_type_app. unfold mbind, M_bind. rewrite run_type_ends.
  destruct (end_records _ _ c) as [[st' c']| |]; [|done..]. apply IH. by injection H.
Qed.

(** What building the types of nodes does to the innermost record. *)
Definition types_run (es : list (node A)) : Prop :=
  forall c name fields rest, wf c -> Forall (fun pa => member c (typ pa.2)) (leaves [] es) ->
  exists fs c', run_type (tokens_of es) ((name, fields) :: rest) c = Ok ((name, fields ++ fs) :: rest, c') /\
    wf c' /\ grows c c' /\ Forall (fun f => member c' f.2) fs /\ Forall2 (fun x f => f.1 = node_name x /\ typed x f.2) es fs.

Lemma leaves_members c (es : list (node A)) p q : Forall (fun pa => member c (typ pa.2)) (leaves p es) -> Forall (fun pa => member c (typ pa.2)) (leaves q es).
Proof.
  assert (H : Forall (fun x => forall p q, Forall (fun pa => member c (typ pa.2)) (node_leaves p x) -> Forall (fun pa => member c (typ pa.2)) (node_leaves q x)) es).
  { apply Forall_forall. intros x _. induction x as [n a|n xs IH] using node_ind'; intros p' q'; cbn [node_leaves].
    - intros [Hm _]%Forall_cons. by apply Forall_cons.
    - intros Hm. induction IH as [|x xs Hx _ IHxs]; [constructor|]. cbn [map concat] in *. apply Forall_app in Hm as [H1 H2].
      apply Forall_app. split; [by eapply Hx|by apply IHxs]. }
  unfold leaves. induction H as [|x es Hx _ IH]; [done|]. cbn [map concat]. rewrite !Forall_app. intros [H1 H2]. split; [by eapply Hx|by apply IH].
Qed.
Lemma types_run_cons x es : types_run [x] -> types_run es -> types_run (x :: es).
Proof.
  intros Hx He c name fields rest Hc Hm. change (x :: es) with ([x] ++ es) in *. rewrite leaves_app in Hm. apply Forall_app in Hm as [Hm1 Hm2].
  destruct (Hx c name fields rest Hc Hm1) as (fs1 & c1 & E1 & Hc1 & Hg1 & Hf1 & Ht1).
  destruct (He c1 name (fields ++ fs1) rest Hc1) as (fs2 & c2 & E2 & Hc2 & Hg2 & Hf2 & Ht2).
  { apply (Forall_impl _ _ _ Hm2). intros pa. by apply member_grows. }
  exists (fs1 ++ fs2), c2. rewrite tokens_app, run_type_app, (M_bind_Ok _ _ _ _ _ E1), E2, <- app_assoc. split_and!; [done|done|by transitivity c1| |by apply Forall2_app].
  apply Forall_app. split; [|done]. apply (Forall_impl _ _ _ Hf1). intros f. by apply member_grows.
Qed.
Lemma typed_names es fs : Forall2 (fun x f => f.1 = node_name x /\ typed x f.2) es fs -> map fst fs = map node_name es.
Proof. induction 1 as [|x f es fs [H _] _ IH]; [done|]. cbn. by rewrite H, IH. Qed.
Lemma close_record c name fields n fs rest es : wf c -> short es -> Forall fine es -> NoDup (map node_name es) -> Forall (fun f => member c f.2) fs ->
  Forall2 (fun x f => f.1 = node_name x /\ typed x f.2) es fs ->
  exists id c', end_records 1 ((n, fs) :: (name, fields) :: rest) c = Ok ((name, fields ++ [(n, TRecord id fs)]) :: rest, c') /\
    wf c' /\ grows c c' /\ member c' (TRecord id fs).
Proof.
  intros Hc Hs Hf Hn Hm Ht. pose proof (typed_names es fs Ht) as Hnames.
  destruct (record_lookup c Hc fs) as (id & c' & E & Hc' & Hg & Hmem).
  - unfold short, zlen in *. by rewrite <- (Forall2_length _ _ _ Ht).
  - apply (Forall_map fst short). rewrite Hnames. apply Forall_map. apply (Forall_impl _ _ _ Hf). apply fine_name.
  - done.
  - by rewrite Hnames.
  - exists id, c'. cbn [end_records]. by rewrite (M_bind_Ok _ _ _ _ _ E).
Qed.
Lemma types_run_node x : fine x -> distinct x -> types_run [x].
Proof.
  induction x as [n a|n es IH] using node_ind'; intros Hf Hd c name fields rest Hc Hm.
  { rewrite leaves_one in Hm. cbn in Hm. apply Forall_cons in Hm as [Hm _]. exists [(n, typ a)], c. split_and!; try done; [by apply Forall_singleton|].
    constructor; [split; [done|constructor]|constructor]. }
  apply fine_rec in Hf as (Hn & Hs & Hf). apply distinct_rec in Hd as [Hnd Hd].
  assert (Hes : types_run es).
  { clear Hm Hs Hnd. induction IH as [|x es Hx _ IHes]; [intros c0 nm fs rs Hc0 _; exists [], c0; rewrite app_nil_r; by split_and!|].
    apply Forall_cons in Hf as [? ?], Hd as [? ?]. apply types_run_cons; [by apply Hx|by apply IHes]. }
  rewrite leaves_one in Hm. cbn [node_leaves] in Hm. fold (leaves ([] ++ [n]) es) in Hm.
  destruct (Hes c n [] ((name, fields) :: rest) Hc (leaves_members c es _ [] Hm)) as (fs & c1 & E & Hc1 & Hg1 & Hm1 & Ht). cbn [app] in E.
  destruct (close_record c1 name fields n fs rest es Hc1 Hs Hf Hnd Hm1 Ht) as (id & c2 & E2 & Hc2 & Hg2 & Hm2).
  exists [(n, TRecord id fs)], c2. rewrite tokens_one. cbn [node_tokens run_type]. fold (tokens_of es). rewrite run_type_app, (M_bind_Ok _ _ _ _ _ E).
  cbn [run_type]. rewrite (M_bind_Ok _ _ _ _ _ E2). split_and!; [done|done|by transitivity c1|by apply Forall_singleton|].
  constructor; [split; [done|by constructor]|constructor].
Qed.
Lemma types_run_all es : Forall fine es -> Forall distinct es -> types_run es.
Proof.
  intros Hf Hd. induction Hf as [|x es Hx _ IH]; [intros c nm fs rs Hc _; exists [], c; rewrite app_nil_r; by split_and!|].
  apply Forall_cons in Hd as [? ?]. apply types_run_cons; [by apply types_run_node|by apply IH].
Qed.
End types.

(** ** Reading by path *)

Section read.
Context (to32 to16 : Z -> Z).
Local Abbreviation dot := (dot to32 to16).

Fixpoint dots (p : path) (v : Value) : M Value := match p with [] => mret v | n :: p => w ← dot n v; dots p w end.

Context {A : Type} (val : A -> bytes) (typ : A -> ty).

Lemma node_val_rec n es : node_val val (NRec n es) = Some (body_of (map (node_val val) es)).
Proof. unfold node_val. cbn. by rewrite tree_bytes_body, map_map. Qed.
Lemma small_body es : (zlen (body_of (map (node_val val) es)) < 2 ^ 62)%Z -> Forall small (map (node_val val) es).
Proof. intros H. rewrite <- (map_map (vtree_of val) tree_val) in *. apply small_children. by rewrite tree_bytes_body. Qed.

(** A field of a record that is built from nodes. *)
Lemma dot_node es id fs c i x t : NoDup (map node_name es) -> Forall2 (fun x f => f.1 = node_name x /\ typed typ x f.2) es fs ->
  (zlen (body_of (map (node_val val) es)) < 2 ^ 62)%Z -> es !! i = Some x -> fs !! i = Some (node_name x, t) ->
  dot (node_name x) (NewValue (TRecord id fs) (Some (body_of (map (node_val val) es)))) c = Ok (NewValue t (node_val val x), c).
Proof.
  intros Hn Ht Hs Hx Hf. pose proof (typed_names _ _ _ Ht) as Hnames. unfold Expr.dot.
  assert (Hu : Under to32 to16 (NewValue (TRecord id fs) (Some (body_of (map (node_val val) es)))) =
    Ok (NewValue (TRecord id fs) (Some (body_of (map (node_val val) es))))) by done.
  rewrite Hu, M_lift_l. cbn [v_type NewValue].
  assert (Hi : IndexOfField fs (node_name x) = Some i) by (apply IndexOfField_spec; [by rewrite Hnames|by exists t]). rewrite Hi.
  unfold val_bytes_. cbn [Value_Bytes v_repr NewValue no_error mbind outcome_bind obind].
  rewrite getNth_body by (by apply small_body). rewrite M_lift_l, Hf. cbn [snd].
  unfold pick. destruct (Z.ltb_spec (Z.of_nat i) 0); [lia|]. rewrite Nat2Z.id, list_lookup_fmap, Hx. done.
Qed.

Lemma node_small n (es : list (node A)) x : x ∈ es -> (zlen (body_of (map (node_val val) es)) < 2 ^ 62)%Z ->
  forall ys, x = NRec n ys -> (zlen (body_of (map (node_val val) ys)) < 2 ^ 62)%Z.
Proof.
  intros Hx Hs ys ->. pose proof (small_body es Hs) as H. rewrite Forall_forall in H. specialize (H (node_val val (NRec n ys))).
  rewrite node_val_rec in H. apply H. apply list_elem_of_fmap. exists (NRec n ys). by rewrite node_val_rec.
Qed.

(** Reading the paths of the leaves below a node. *)
Lemma dots_forest es : distinct_all es -> forall id fs c pre p a, Forall2 (fun x f => f.1 = node_name x /\ typed typ x f.2) es fs ->
  (zlen (body_of (map (node_val val) es)) < 2 ^ 62)%Z -> (p, a) ∈ leaves pre es ->
  exists q, p = pre ++ q /\ dots q (NewValue (TRecord id fs) (Some (body_of (map (node_val val) es)))) c = Ok (NewValue (typ a) (val a), c).
Proof.
  assert (H : forall es, Forall (fun x => forall n ys, x = NRec n ys -> distinct_all ys -> forall id fs c pre p a,
    Forall2 (fun x f => f.1 = node_name x /\ typed typ x f.2) ys fs -> (zlen (body_of (map (node_val val) ys)) < 2 ^ 62)%Z -> (p, a) ∈ leaves pre ys ->
    exists q, p = pre ++ q /\ dots q (NewValue (TRecord id fs) (Some (body_of (map (node_val val) ys)))) c = Ok (NewValue (typ a) (val a), c)) es ->
    distinct_all es -> forall id fs c pre p a, Forall2 (fun x f => f.1 = node_name x /\ typed typ x f.2) es fs ->
    (zlen (body_of (map (node_val val) es)) < 2 ^ 62)%Z -> (p, a) ∈ leaves pre es ->
    exists q, p = pre ++ q /\ dots q (NewValue (TRecord id fs) (Some (body_of (map (node_val val) es)))) c = Ok (NewValue (typ a) (val a), c)).
  { clear es. intros es IH [Hn Hd] id fs c pre p a Ht Hs Hin. unfold leaves in Hin.
    apply list_elem_of_In, in_concat in Hin as (l & Hl & Hp). apply list_elem_of_In in Hl, Hp. apply list_elem_of_fmap in Hl as (x & -> & Hx).
    pose proof Hx as Hxin. apply list_elem_of_lookup in Hx as [i Hi]. destruct (Forall2_lookup_l _ _ _ _ _ Ht Hi) as ([m t] & Hf & Hm & Htx). cbn in Hm, Htx. subst m.
    pose proof (dot_node es id fs c i x t Hn Ht Hs Hi Hf) as Hdot. rewrite Forall_forall in IH, Hd. destruct x as [n b|n ys].
    - apply list_elem_of_singleton in Hp. injection Hp as -> ->. exists [n]. split; [done|]. cbn [dots]. cbn [node_name] in Hdot.
      rewrite (M_bind_Ok _ _ _ _ _ Hdot). inversion Htx; subst. done.
    - inversion Htx as [|? ? id' fs' Ht']; subst. pose proof (Hd _ Hxin) as Hdx. apply distinct_rec in Hdx.
      destruct (IH _ Hxin n ys eq_refl Hdx id' fs' c (pre ++ [n]) p a Ht' (node_small n es _ Hxin Hs ys eq_refl) Hp) as (q & -> & Hq).
      exists (n :: q). split; [by rewrite <- app_assoc|]. cbn [dots]. cbn [node_name] in Hdot. by rewrite (M_bind_Ok _ _ _ _ _ Hdot), node_val_rec. }
  apply H. apply Forall_forall. intros x _. induction x as [n a|n ys IH] using node_ind'; intros m zs E; [done|]. injection E as <- <-. by apply H.
Qed.
End read.

Lemma eval_dotted to32 of32 to16 of16 nan f2i f2u ft lt wt se vars this p : forall e c,
  eval to32 of32 to16 of16 nan f2i f2u ft lt wt se vars this (fold_left DotExpr p e) c =
  (v ← eval to32 of32 to16 of16 nan f2i f2u ft lt wt se vars this e; dots to32 to16 p v) c.
Proof.
  induction p as [|n p IH]; intros e c; cbn [fold_left dots].
  - unfold mbind, M_bind. by destruct (eval _ _ _ _ _ _ _ _ _ _ _ _ _ e c) as [[]| |].
  - rewrite IH. cbn [eval]. unfold DotExpr_Eval, mbind, M_bind. by destruct (eval _ _ _ _ _ _ _ _ _ _ _ _ _ e c) as [[]| |].
Qed.

(** ** The size of the record *)

Section size.
Context {A : Type} (val : A -> bytes).
Definition leaf_size (k : nat) (pa : path * A) : Z := (zlen (default [] (val pa.2)) + 10 * Z.of_nat (length pa.1 - k))%Z.
Definition total (k : nat) (l : list (path * A)) : Z := foldr (fun pa n => leaf_size k pa + n)%Z 0%Z l.
Lemma total_app k a b : total k (a ++ b) = (total k a + total k b)%Z.
Proof. induction a as [|x a IH]; [done|]. cbn [total app foldr] in *. fold (total k (a ++ b)) (total k a). lia. Qed.
Lemma forest_total_nonneg k l : (0 <= total k l)%Z.
Proof. induction l as [|x l IH]; [done|]. cbn [total foldr]. fold (total k l). unfold leaf_size. pose proof (zlen_nonneg (default [] (val x.2))). lia. Qed.
Lemma total_S k l : l <> [] -> Forall (fun pa => (k < length pa.1)%nat) l -> (total (S k) l + 10 <= total k l)%Z.
Proof.
  intros Hne Hl. destruct l as [|x l]; [done|]. apply Forall_cons in Hl as [Hx Hl]. cbn [total foldr]. fold (total k l) (total (S k) l). clear Hne.
  assert (H : (total (S k) l <= total k l)%Z).
  { clear Hx. induction Hl as [|y l Hy _ IH]; [done|]. cbn [total foldr]. fold (total k l) (total (S k) l). unfold leaf_size. lia. }
  unfold leaf_size. lia.
Qed.
Lemma val_size (b : bytes) : (zlen (default [] b) < 2 ^ 62)%Z -> (zlen (val_bytes b) <= zlen (default [] b) + 10)%Z.
Proof. intros Hb. pose proof (zlen_val_bytes b Hb). lia. Qed.
Lemma leaves_deep (es : list (node A)) pre : Forall (fun pa => (length pre < length pa.1)%nat) (leaves pre es).
Proof.
  apply Forall_forall. intros [p a] H. destruct (leaves_under pre es p a H) as (x & _ & k & ->). cbn. rewrite !length_app. cbn. lia.
Qed.
Lemma node_size x : forall pre, filled x -> (total (length pre) (node_leaves pre x) < 2 ^ 62)%Z ->
  (zlen (val_bytes (node_val val x)) <= total (length pre) (node_leaves pre x))%Z.
Proof.
  induction x as [n a|n es IH] using node_ind'; intros pre Hf Hs.
  { cbn [node_leaves total foldr] in *. unfold leaf_size in *. cbn [fst snd] in *. rewrite length_app in *. cbn [length] in *.
    unfold node_val. cbn [vtree_of tree_val]. pose proof (val_size (val a)). pose proof (zlen_nonneg (default [] (val a))). lia. }
  pose proof (filled_leaves _ Hf pre) as Hlen. apply filled_rec in Hf as [_ Hf]. rewrite node_val_rec. cbn [node_leaves] in *. fold (leaves (pre ++ [n]) es) in *.
  pose proof (leaves_deep es (pre ++ [n])) as Hdeep. rewrite length_app in Hdeep. cbn [length] in Hdeep.
  assert (Hd : (total (S (length pre)) (leaves (pre ++ [n]) es) + 10 <= total (length pre) (leaves (pre ++ [n]) es))%Z).
  { apply total_S; [by destruct (leaves _ es); [cbn in Hlen; lia|]|]. apply (Forall_impl _ _ _ Hdeep). intros pa H. lia. }
  assert (Hbody : (zlen (body_of (map (node_val val) es)) <= total (S (length pre)) (leaves (pre ++ [n]) es))%Z).
  { assert (Hs' : (total (S (length pre)) (leaves (pre ++ [n]) es) < 2 ^ 62)%Z) by lia. clear Hs Hlen Hdeep Hd.
    unfold leaves in *. induction IH as [|x es Hx _ IHes]; [done|]. apply Forall_cons in Hf as [Hfx Hf]. unfold body_of in *. cbn [map concat] in *.
    rewrite zlen_app. rewrite total_app in *. pose proof (forest_total_nonneg (S (length pre)) (concat (map (node_leaves (pre ++ [n])) es))).
    pose proof (forest_total_nonneg (S (length pre)) (node_leaves (pre ++ [n]) x)).
    specialize (Hx (pre ++ [n]) Hfx). rewrite length_app, Nat.add_1_r in Hx. specialize (Hx ltac:(lia)). specialize (IHes Hf ltac:(lia)). lia. }
  pose proof (val_size (Some (body_of (map (node_val val) es)))) as Hv. cbn [default from_option id] in Hv. unfold id in Hv. lia.
Qed.
Lemma forest_size es : Forall filled es -> (total 0 (leaves [] es) < 2 ^ 62)%Z -> (zlen (body_of (map (node_val val) es)) <= total 0 (leaves [] es))%Z.
Proof.
  intros Hf Hs. induction Hf as [|x es Hx _ IH]; [done|]. unfold leaves, body_of in *. cbn [map concat] in *. rewrite zlen_app. rewrite total_app in *.
  pose proof (forest_total_nonneg 0 (concat (map (node_leaves []) es))). pose proof (forest_total_nonneg 0 (node_leaves [] x)). pose proof (node_size x [] Hx ltac:(cbn; lia)). cbn [length] in *. lia.
Qed.
End size.

(** Both ends of a record; reading it does not depend on the context. *)
Lemma record_roundtrip to32 to16 fields r (data : list (ty * bytes)) c :
  NewRecordBuilder fields = Ok r -> fields <> [] -> length data = length fields ->
  short fields -> Forall (Forall short) fields -> (total snd 0 (zip fields data) < 2 ^ 62)%Z ->
  wf c -> Forall (fun d => member c d.1) data ->
  exists r' body t c',
    append_all r (map snd data) = Ok r' /\ Encode r' = Ok (Some body) /\ Reset r' = r /\
    RecordType r (map fst data) c = Ok (t, c') /\ wf c' /\ grows c c' /\ member c' t /\ IsRecordType t = true /\
    forall i p d c2, fields !! i = Some p -> data !! i = Some d ->
      dots to32 to16 p (NewValue t (Some body)) c2 = Ok (NewValue d.1 d.2, c2).
Proof.
  intros Hr Hne Hlen Hsf Hsn Hsize Hc Hm. destruct (builder_forest fields r data Hr Hlen) as (Hcur & Hb & Hfi & root & Htok & Hlv & Hfill & Hdist).
  destruct r as [infos b cur]. cbn [curField rb_builder rb_fields] in *. subst b cur.
  assert (Hli : length data = length infos) by (by rewrite <- Hfi, length_map in Hlen).
  assert (Hroot : root <> []).
  { intros ->. assert (length (zip fields data) = 0%nat) as E by (by rewrite <- Hlv). by destruct fields, data. }
  assert (Hbody : (zlen (body_of (map (node_val snd) root)) < 2 ^ 62)%Z).
  { pose proof (forest_size snd root Hfill) as H. rewrite Hlv in H. specialize (H Hsize). lia. }
  pose proof (append_all_tokens snd infos data [] NewBuilder Hli) as Happ. cbn [app length] in Happ.
  rewrite Htok, run_build_forest in Happ by done. cbn [mbind outcome_bind obind b_bytes containers NewBuilder default] in Happ.
  destruct root as [|x root]; [done|]. set (es := x :: root) in *. cbn [from_option app] in Happ.
  assert (Hfine : Forall fine es).
  { apply Forall_forall. intros y Hy. rewrite Forall_forall in Hfill.
    assert (Hsub : forall pa, pa ∈ node_leaves [] y -> pa ∈ zip fields data).
    { intros pa Hpa. rewrite <- Hlv. unfold leaves. apply list_elem_of_In, in_concat. exists (node_leaves [] y).
      split; apply list_elem_of_In; [by apply (list_elem_of_fmap_2 (node_leaves []))|done]. }
    apply (node_fine y []); [by apply Hfill| |].
    - assert (Hle : (length (node_leaves [] y) <= length (leaves [] es))%nat).
      { apply list_elem_of_split in Hy as (a & b & ->). unfold leaves. rewrite map_app, concat_app. cbn [map concat]. rewrite !length_app. lia. }
      rewrite Hlv, length_zip in Hle. unfold short, zlen in Hsf. lia.
    - apply Forall_forall. intros [p a] Hpa%Hsub. rewrite Forall_forall in Hsn. apply Hsn. by apply elem_of_zip_l in Hpa. }
  destruct Hdist as [Hnd Hd].
  destruct (types_run_all fst es Hfine Hd c [] [] [] Hc) as (fs & c1 & E1 & Hc1 & Hg1 & Hm1 & Ht).
  { rewrite Hlv. apply Forall_forall. intros [p a] Hpa. rewrite Forall_forall in Hm. apply (Hm a). by apply elem_of_zip_r in Hpa. }
  assert (Hshort : short fs).
  { pose proof (leaves_length es [] Hfill) as Hle. rewrite Hlv, length_zip in Hle. unfold short, zlen in *. rewrite <- (Forall2_length _ _ _ Ht). lia. }
  destruct (record_lookup c1 Hc1 fs Hshort) as (id & c' & E2 & Hc' & Hg2 & Hmt); [|done|by rewrite (typed_names _ _ _ Ht)|].
  { apply (Forall_map fst short). rewrite (typed_names _ _ _ Ht). apply Forall_map. apply (Forall_impl _ _ _ Hfine). apply fine_name. }
  eexists _, _, (TRecord id fs), c'. split; [exact Happ|]. split.
  { unfold Encode. cbn [curField rb_fields rb_builder]. rewrite decide_True by done. done. }
  split; [done|]. split_and!; [|done|by transitivity c1|done|done|].
  - unfold RecordType. cbn [rb_fields]. assert (Hty : type_fields infos (map fst data) [([], [])] c = Ok ([([], fs)], c1)).
    { rewrite (type_fields_tokens fst infos data _ c Hli), Htok. by rewrite E1. }
    rewrite (M_bind_Ok _ _ _ _ _ Hty). exact E2.
  - intros i p d c2 Hp Hi.
    assert (Hin : (p, d) ∈ leaves [] es).
    { rewrite Hlv. apply list_elem_of_lookup. exists i. rewrite lookup_zip_with, Hp, Hi. done. }
    destruct (dots_forest to32 to16 snd fst es (conj Hnd Hd) id fs c2 [] p d Ht Hbody Hin) as (q & -> & Hq). done.
Qed.
