(* ===== verification/RecordBuilderProps.v ===== *)
(** * The property of record builders *)

From S2P Require Import Prelude Zcode Types EncodingProps Context Interning Values Compare Expr RecordBuilder RecordBuilderProofs.
Local Open Scope Z_scope.

Section props.
Context (to32 of32 to16 of16 : Z -> Z) (nan : Z -> Z -> Z) (float_to_int float_to_uint : Z -> Z).
Context (FormatType : ty -> gostring) (lookup_text : lookup_error -> gostring) (walk_text : @walk_error unit -> gostring).
Context (sort_entries : list (list byte * list byte) -> list (list byte * list byte)).
Local Abbreviation evaluate := (eval to32 of32 to16 of16 nan float_to_int float_to_uint FormatType lookup_text walk_text sort_entries).

(** C29: for any paths that [NewRecordBuilder] takes, nested to any depth, and
    for values of any types of the context for them, in their order: appending
    does not panic, [Encode] and [Type] give the bytes and the type of a
    record in the context, and the dotted expression of each path, evaluated
    on that record, gives back the value of the path with its type. A builder
    that was used can be reset and used again. *)
Theorem record_builder_roundtrip fields r (data : list (ty * bytes)) c :
  NewRecordBuilder fields = Ok r -> fields <> [] -> length data = length fields ->
  short fields -> Forall (Forall short) fields -> total snd 0 (zip fields data) < 2 ^ 62 ->
  wf c -> Forall (fun d => member c d.1) data ->
  exists r' body t c',
    append_all r (map snd data) = Ok r' /\ Encode r' = Ok (Some body) /\ Reset r' = r /\
    RecordType r (map fst data) c = Ok (t, c') /\ wf c' /\ grows c c' /\ member c' t /\ IsRecordType t = true /\
    forall i p d vars, fields !! i = Some p -> data !! i = Some d ->
      evaluate vars (NewValue t (Some body)) (NewDottedExpr p) c' = Ok (NewValue d.1 d.2, c').
Proof.
  intros Hr Hne Hlen Hsf Hsn Hsize Hc Hm.
  destruct (record_roundtrip to32 to16 fields r data c Hr Hne Hlen Hsf Hsn Hsize Hc Hm) as (r' & body & t & c' & ? & ? & ? & ? & ? & ? & ? & ? & Hread).
  exists r', body, t, c'. split_and!; try done. intros i p d vars Hp Hi. unfold NewDottedExpr. rewrite eval_dotted. cbn [eval]. rewrite M_ret_l.
  by apply (Hread i).
Qed.
End props.

(** A name with a dot is taken for two records: the record [a.b] and the record
    [b] of the record [a] are different, but only one of them can be there. *)
Theorem dotted_names_collide :
  NewRecordBuilder [[str "a.b"; str "x"]; [str "c"]; [str "a"; str "b"; str "y"]] = Err (NotAdjacent (str "a.b")).
Proof. reflexivity. Qed.

(** The example of the source: a, b.c, b.d, x.y.z. *)
Definition demo_fields : list path := [[str "a"]; [str "b"; str "c"]; [str "b"; str "d"]; [str "x"; str "y"; str "z"]].
Definition demo_data : list (ty * bytes) :=
  [(TPrim Int64, Some [zb 2]); (TPrim String, Some (str "s")); (TPrim Int64, None); (TPrim Bytes, Some [])].
Definition demo_builder : RecordBuilder := match NewRecordBuilder demo_fields with Ok r => r | _ => mkRecordBuilder [] NewBuilder 0 end.
Lemma record_builder_roundtrip_witness :
  let evaluate := eval (fun z => z) (fun z => z) (fun z => z) (fun z => z) (fun _ _ => 0) (fun z => z) (fun z => z)
    (fun _ => []) (fun _ => []) (fun _ => []) (fun es => es) in
  exists r' body t c', append_all demo_builder (map snd demo_data) = Ok r' /\ Encode r' = Ok (Some body) /\
    RecordType demo_builder (map fst demo_data) NewContext = Ok (t, c') /\
    evaluate [] (NewValue t (Some body)) (NewDottedExpr [str "x"; str "y"; str "z"]) c' = Ok (NewValue (TPrim Bytes) (Some []), c').
Proof.
  intros evaluate.
  destruct (record_builder_roundtrip (fun z => z) (fun z => z) (fun z => z) (fun z => z) (fun _ _ => 0) (fun z => z) (fun z => z)
    (fun _ => []) (fun _ => []) (fun _ => []) (fun es => es) demo_fields demo_builder demo_data NewContext)
    as (r' & body & t & c' & Ha & He & _ & Ht & _ & _ & _ & _ & Hall); try done.
  - by repeat constructor.
  - apply NewContext_wf.
  - repeat (apply Forall_cons; split; [done|]). apply Forall_nil_2.
  - exists r', body, t, c'. split; [exact Ha|]. split; [exact He|]. split; [exact Ht|].
    by apply (Hall 3%nat [str "x"; str "y"; str "z"] (TPrim Bytes, Some [])).
Defined.
