(* ===== verification/Groupby.v ===== *)
(** * Group-by

    [src/runtime/sam/op/groupby]: the aggregator, with its table of rows, the
    files it spills to and what it emits early when its input is sorted, and the
    operator around it.

    An evaluator is a function of the value; its [ectx] is left out.  The order of
    iteration over the table is the parameter [iteration].  What a comparator
    needs of an evaluator, a function to values, is the parameter [evaluated]. *)

From S2P Require Import Prelude Zcode Types Context Primitive Values.
From S2P Require Import Compare Expr Spill Agg RecordBuilder Ops.
Local Open Scope Z_scope.

Section groupby.
Context (to32 of32 to16 of16 : Z -> Z) (nan : Z -> Z -> Z) (float_to_int float_to_uint : Z -> Z).
Context (ParseFloat64 : list byte -> option Z) (iteration : forall {A : Type}, list A -> list A).
Context {Sketch : Type} (Insert : list byte -> Sketch -> Sketch) (Merge : Sketch -> Sketch -> Sketch)
  (Estimate : Sketch -> Z) (MarshalBinary : Sketch -> list byte) (UnmarshalBinary : list byte -> option Sketch).
Context (MaxValueSize : Z) (sort_entries : list (list byte * list byte) -> list (list byte * list byte)).
Local Abbreviation Function := (Function (Sketch := Sketch)).
Local Abbreviation Apply := (Agg.Apply to32 of32 to16 of16 nan float_to_int float_to_uint ParseFloat64 (@iteration) Insert MaxValueSize (EvalBool to32 to16)).
Local Abbreviation ConsumeAsPartial :=
  (ConsumeAsPartial to32 of32 to16 of16 nan float_to_int float_to_uint ParseFloat64 (@iteration) Insert Merge UnmarshalBinary MaxValueSize).
Local Abbreviation Result := (Agg.Result to32 to16 nan (@iteration) Estimate sort_entries).
Local Abbreviation ResultAsPartial := (ResultAsPartial to32 to16 nan (@iteration) Estimate MarshalBinary sort_entries).
Local Abbreviation val_bytes := (val_bytes_ to32 to16).
Local Abbreviation Compare := (Compare.Compare to32 of32 to16 of16).

Definition evaluator : Type := Value -> M Value.

(** ** Rows: [row.go] *)

Definition valRow : Type := list Function.
Definition newValRow (aggs : list (Aggregator (Sketch := Sketch))) : valRow := map pattern aggs.
Fixpoint apply (aggs : list (Aggregator (Sketch := Sketch))) (v : valRow) (this : Value) : M valRow :=
  match aggs, v with
  | [], v => mret v
  | a :: aggs, f :: v => f ← Apply a f this; v ← apply aggs v this; mret (f :: v)
  | _, _ => panic
  end.
Fixpoint consumeAsPartial (v : valRow) (exprs : list evaluator) (rec : Value) : M valRow :=
  match v, exprs with
  | [], _ => mret []
  | f :: v, e :: exprs =>
      val ← e rec;
      if IsError val then panic
      else f ← lift (ConsumeAsPartial val f); v ← consumeAsPartial v exprs rec; mret (f :: v)
  | _, _ => panic
  end.

(** ** The aggregator *)

Inductive groupby_error := Running | NotEnoughFields.

(** What does not change. *)
Record Config := mkConfig {
  keyRefs : list evaluator; keyExprs : list evaluator; aggRefs : list evaluator;
  aggs : list (Aggregator (Sketch := Sketch)); builder : RecordBuilder;
  limit : Z; inputDir : Z;
  valueCompare : option Comparator;             (* primary keys *)
  keyCompare : option (Comparator * bool);      (* records by their first key, reversed *)
  keysComparator : Comparator;
  partialsIn : bool; partialsOut : bool }.
Definition DefaultLimit : Z := 1000000.
Definition NewAggregator (evaluated : evaluator -> Value -> Value) (keyRefs keyExprs aggRefs : list evaluator)
    (aggs : list (Aggregator (Sketch := Sketch))) (builder : RecordBuilder) (limit inputDir : Z) (partialsIn partialsOut : bool) :
    outcome groupby_error Config :=
  let limit := if limit =? 0 then DefaultLimit else limit in
  let o := inputDir <? 0 in
  cmp ← (match keyExprs with
         | _ :: _ =>
             if inputDir =? 0 then Ok (None, None)
             else match keyRefs with
                  | r :: _ => Ok (Some (NewValueCompareFn o true), Some (NewCompareFn to32 to16 true [evaluated r], o))
                  | [] => Panic
                  end
         | [] => Ok (None, None)
         end);
  let sortExprs := map (fun e => mkSortEvaluator (evaluated e) o) keyRefs in
  Ok (mkConfig keyRefs keyExprs aggRefs aggs builder limit inputDir cmp.1 cmp.2
        (WithMissingAsNull to32 to16 (NewComparator true sortExprs)) partialsIn partialsOut).

Record Row := mkRow { keyType : nat; groupval : option Value; reducers : valRow }.
Record Table := mkTable {
  keyTypes : TypeVectorTable; outTypes : TypeVectorTable; recordTypes : gmap nat ty;
  table : list (list byte * Row);               (* in the order of insertion *)
  maxTableKey : option Value; maxSpillKey : option Value; spiller : option MergeSort }.
Definition NewTable : Table := mkTable [] [] ∅ [] None None None.

(** Computations on the aggregator and the context. *)
Abbreviation G := (stm (Table * Context) groupby_error).
Definition inM {A} (m : M A) : G A := fun s =>
  match m s.2 with Ok (a, c) => (Ok a, (s.1, c)) | Err _ => (Err Running, s) | Panic => (Panic, s) end.
Definition out {A} (m : outcome diverge A) : G A := lift_out (omap_err (fun _ => Running) m).
Definition tab : G Table := fun s => (Ok s.1, s).
Definition set_keyTypes k : G unit := modify (fun s => (mkTable k (outTypes s.1) (recordTypes s.1) (table s.1) (maxTableKey s.1) (maxSpillKey s.1) (spiller s.1), s.2)).
Definition set_types o r : G unit := modify (fun s => (mkTable (keyTypes s.1) o r (table s.1) (maxTableKey s.1) (maxSpillKey s.1) (spiller s.1), s.2)).
Definition set_table t : G unit := modify (fun s => (mkTable (keyTypes s.1) (outTypes s.1) (recordTypes s.1) t (maxTableKey s.1) (maxSpillKey s.1) (spiller s.1), s.2)).
Definition set_maxTableKey k : G unit := modify (fun s => (mkTable (keyTypes s.1) (outTypes s.1) (recordTypes s.1) (table s.1) k (maxSpillKey s.1) (spiller s.1), s.2)).
Definition set_maxSpillKey k : G unit := modify (fun s => (mkTable (keyTypes s.1) (outTypes s.1) (recordTypes s.1) (table s.1) (maxTableKey s.1) k (spiller s.1), s.2)).
Definition set_spiller r : G unit := modify (fun s => (mkTable (keyTypes s.1) (outTypes s.1) (recordTypes s.1) (table s.1) (maxTableKey s.1) (maxSpillKey s.1) r, s.2)).

(** The row of a key, and the table with another row for it. *)
Fixpoint get_row (key : list byte) (t : list (list byte * Row)) : option Row :=
  match t with [] => None | (k, r) :: t => if decide (k = key) then Some r else get_row key t end.
Fixpoint put_row (key : list byte) (row : Row) (t : list (list byte * Row)) : list (list byte * Row) :=
  match t with
  | [] => [(key, row)]
  | (k, r) :: t => if decide (k = key) then (k, row) :: t else (k, r) :: put_row key row t
  end.
Fixpoint delete_row (key : list byte) (t : list (list byte * Row)) : list (list byte * Row) :=
  match t with [] => [] | (k, r) :: t => if decide (k = key) then t else (k, r) :: delete_row key t end.

Section config.
Context (a : Config).

(** [a.valueCompare(v, *k)] *)
Definition compare_value (v : Value) (k : option Value) : G Z :=
  match valueCompare a, k with Some c, Some k => out (Compare c v k) | _, _ => fault end.

Definition updateMaxTableKey (val : Value) : G Value :=
  t ← tab;
  match maxTableKey t with
  | None => set_maxTableKey (Some val);; mret val
  | Some k =>
      x ← compare_value val (Some k);
      if 0 <? x then set_maxTableKey (Some val);; mret val else mret k
  end.
Definition updateMaxSpillKey (v : Value) : G unit :=
  t ← tab;
  match maxSpillKey t with
  | None => set_maxSpillKey (Some v)
  | Some k => x ← compare_value v (Some k); if 0 <? x then set_maxSpillKey (Some v) else mret tt
  end.

Definition lookupRecordType (types : list ty) : G ty :=
  t ← tab;
  let '(id, o) := TVLookup (outTypes t) types in
  match recordTypes t !! id with
  | Some typ => set_types o (recordTypes t);; mret typ
  | None =>
      set_types o (recordTypes t);;
      typ ← inM (RecordType (builder a) types);
      t ← tab;
      set_types (outTypes t) (<[id := typ]> (recordTypes t));; mret typ
  end.

(** The record of values in the order of the builder's fields. *)
Fixpoint append_values (r : RecordBuilder) (vals : list (ty * bytes)) : outcome Empty_set RecordBuilder :=
  match vals with [] => Ok r | (_, b) :: vals => r ← Append r b; append_values r vals end.
Definition build_record (vals : list (ty * bytes)) : G Value :=
  r ← out (no_error (append_values (Reset (builder a)) vals));
  typ ← lookupRecordType (map fst vals);
  match RecordBuilder.Encode r with
  | Ok b => mret (NewValue typ b)
  | Err _ => throw NotEnoughFields
  | Panic => fault
  end.

(** The results of a row, or its partial results. *)
Fixpoint row_results (partials : bool) (row : valRow) : G (list (ty * bytes)) :=
  match row with
  | [] => mret []
  | f :: row =>
      v ← inM (if partials then ResultAsPartial f else Result f);
      b ← out (val_bytes v);
      vs ← row_results partials row;
      mret ((v_type v, b) :: vs)
  end.

(** The next values of the iterator, one for each type. *)
Fixpoint flat_values (types : list ty) (it : list byte) : outcome Empty_set (list (ty * bytes)) :=
  match types with
  | [] => Ok []
  | t :: types => '(v, it) ← Next it; vs ← flat_values types it; Ok ((t, v) :: vs)
  end.

Fixpoint read_rows (flush partials : bool) (rows : list (list byte * Row)) : G (list Value) :=
  match rows with
  | [] => mret []
  | (key, row) :: rows =>
      skip ← (if flush then mret false
              else t ← tab;
                   match groupval row with
                   | Some v => x ← compare_value v (maxTableKey t); mret (0 <=? x)
                   | None => fault
                   end);
      if skip : bool then read_rows flush partials rows
      else
        t ← tab;
        types ← (match keyTypes t !! keyType row with Some types => mret types | None => fault end);
        keys ← out (no_error (flat_values types key));
        results ← row_results partials (reducers row);
        rec ← build_record (keys ++ results);
        t ← tab;
        set_table (delete_row key (table t));;
        recs ← read_rows flush partials rows;
        mret (rec :: recs)
  end.
Definition readTable (flush partials : bool) : G (option batch) :=
  t ← tab;
  recs ← read_rows flush partials (iteration (list byte * Row) (table t));
  mret (match recs with [] => None | _ => Some recs end).

Definition first_key (rec : Value) : G Value :=
  match keyExprs a with e :: _ => inM (e rec) | [] => fault end.

Definition spillTable (eof : bool) : G unit :=
  b ← readTable true true;
  match b with
  | None => mret tt
  | Some recs =>
      t ← tab;
      r ← out (Spill to32 of32 to16 of16 recs (match spiller t with Some r => r | None => NewMergeSort (keysComparator a) end));
      set_spiller (Some r);;
      if negb eof && negb (inputDir a =? 0) then
        match last recs with
        | Some rec => val ← first_key rec; if IsError val then mret tt else updateMaxSpillKey val
        | None => fault
        end
      else mret tt
  end.

(** What is in the files. *)
Definition remaining (r : MergeSort) : nat := foldr (fun p n => S (length (file p)) + n)%nat O (runs r).

Fixpoint merge_rows (fuel : nat) (firstRec : option Value) (row : valRow) : G (option Value * valRow) :=
  match fuel with
  | O => throw Running
  | S fuel =>
      t ← tab;
      match spiller t with
      | None => fault
      | Some r =>
          match Peek r with
          | None => mret (firstRec, row)
          | Some rec =>
              more ← (match firstRec with
                      | None => mret true
                      | Some first => x ← out (Compare (keysComparator a) first rec); mret (x =? 0)
                      end);
              if more : bool then
                row ← inM (consumeAsPartial row (aggRefs a) rec);
                '(_, r) ← out (Read to32 of32 to16 of16 r);
                set_spiller (Some r);;
                merge_rows fuel (Some (default rec firstRec)) row
              else mret (firstRec, row)
          end
      end
  end.
Fixpoint eval_refs (refs : list evaluator) (rec : Value) : G (list (ty * bytes)) :=
  match refs with
  | [] => mret []
  | e :: refs => v ← inM (e rec); b ← out (val_bytes v); vs ← eval_refs refs rec; mret ((v_type v, b) :: vs)
  end.
Definition nextResultFromSpills : G (option Value) :=
  t ← tab;
  '(firstRec, row) ← merge_rows (S (match spiller t with Some r => remaining r | None => O end)) None (newValRow (aggs a));
  match firstRec with
  | None => mret None
  | Some first =>
      keys ← eval_refs (keyRefs a) first;
      results ← row_results (partialsOut a) row;
      rec ← build_record (keys ++ results);
      mret (Some rec)
  end.

Definition BatchLen : nat := 100.
Fixpoint read_spills (n : nat) (eof : bool) : G (list Value) :=
  match n with
  | O => mret []
  | S n =>
      stop ← (if negb eof && negb (inputDir a =? 0) then
                t ← tab;
                match spiller t with
                | None => fault
                | Some r =>
                    match Peek r with
                    | None => mret true
                    | Some rec =>
                        keyVal ← first_key rec;
                        if IsError keyVal then mret false
                        else t ← tab; x ← compare_value keyVal (maxSpillKey t); mret (0 <=? x)
                    end
                end
              else mret false);
      if stop : bool then mret []
      else
        rec ← nextResultFromSpills;
        match rec with None => mret [] | Some rec => recs ← read_spills n eof; mret (rec :: recs) end
  end.
Definition readSpills (eof : bool) : G (option batch) :=
  if negb eof && (inputDir a =? 0) then mret None
  else recs ← read_spills BatchLen eof; mret (match recs with [] => None | _ => Some recs end).

Definition nextResult (eof : bool) : G (option batch) :=
  t ← tab;
  match spiller t with
  | None => readTable eof (partialsOut a)
  | Some _ => (if eof then spillTable true else mret tt);; readSpills eof
  end.

(** The keys of a value with the bytes of the row's key; none for a quiet key. *)
Fixpoint eval_keys (first : bool) (exprs : list evaluator) (this : Value) (types : list ty) (keyBytes : list byte) (prim : option Value) :
    G (option (list ty * list byte * option Value)) :=
  match exprs with
  | [] => mret (Some (types, keyBytes, prim))
  | e :: exprs =>
      key ← inM (e this);
      quiet ← out (no_error (IsQuiet to32 to16 key));
      if quiet : bool then mret None
      else
        prim ← (if first && negb (inputDir a =? 0) then k ← updateMaxTableKey key; mret (Some k) else mret prim);
        b ← out (val_bytes key);
        eval_keys false exprs this (types ++ [v_type key]) (keyBytes ++ Zcode.val_bytes b) prim
  end.
Definition Consume (this : Value) : G unit :=
  k ← eval_keys true (keyExprs a) this [] [] None;
  match k with
  | None => mret tt
  | Some (types, keyBytes, prim) =>
      t ← tab;
      let '(id, kt) := TVLookup (keyTypes t) types in
      set_keyTypes kt;;
      let key := keyBytes ++ uvarint_bytes (Z.of_nat id) in
      row ← (match get_row key (table t) with
             | Some row => mret row
             | None =>
                 (if limit a <=? zlen (table t) then spillTable false else mret tt);;
                 let row := mkRow id prim (newValRow (aggs a)) in
                 t ← tab; set_table (put_row key row (table t));; mret row
             end);
      fs ← inM (if partialsIn a then consumeAsPartial (reducers row) (aggRefs a) this else apply (aggs a) (reducers row) this);
      t ← tab;
      set_table (put_row key (mkRow (keyType row) (groupval row) fs) (table t))
  end.
Fixpoint consume_batch (vals : list Value) : G unit :=
  match vals with [] => mret tt | v :: vals => Consume v;; consume_batch vals end.
End config.

(** ** The operator *)

(** Where the loop of [run] stands: not started, before a pull of its parent,
    after one of the results that sorted input lets out early, among the results
    at the end of a stream, with an error to hand over before it returns, or
    returned. *)
Section operator.
Context {E P : Type} (hang : E) (error : groupby_error -> E) (parent : Puller (E := E) (P * Context)).
Inductive op_stage := NotStarted | Pulling | Emitting | Draining | Failing (e : E) | Closed.
Record Op := mkOp { o_agg : Table; o_stage : op_stage }.
Definition NewOp : Op := mkOp NewTable NotStarted.
Abbreviation O_ := (stm (Op * (P * Context)) E).

Definition set_stage (g : op_stage) : O_ unit := modify (fun s => (mkOp (o_agg s.1) g, s.2)).
(** [reset] *)
Definition reset : O_ unit :=
  modify (fun s => let t := o_agg s.1 in
    (mkOp (mkTable (keyTypes t) (outTypes t) (recordTypes t) [] (maxTableKey t) (maxSpillKey t) None) (o_stage s.1), s.2)).
(** The parent's pull and the aggregator's steps, with their errors. *)
Definition try_up (done : bool) : O_ (E + option batch) := fun s =>
  match up parent done s with (Ok b, s) => (Ok (inr b), s) | (Err e, s) => (Ok (inl e), s) | (Panic, s) => (Panic, s) end.
Definition on_agg {A} (m : G A) : O_ (E + A) := fun s =>
  match m (o_agg s.1, s.2.2) with
  | (Ok x, (t, c)) => (Ok (inr x), (mkOp t (o_stage s.1), (s.2.1, c)))
  | (Err Running, _) => (Err hang, s)
  | (Err e, (t, c)) => (Ok (inl (error e)), (mkOp t (o_stage s.1), (s.2.1, c)))
  | (Panic, _) => (Panic, s)
  end.

Section run.
Context (a : Config).

(** The result that the loop offers next, and where it stands once it is taken. *)
Definition offer : Type := (E + option batch) * op_stage.
(** [SortStableFunc] by the first key *)
Definition sort_early (recs : batch) : outcome E batch :=
  match keyCompare a with
  | None => Panic
  | Some (c, reversed) =>
      running hang (SliceStable (fun v w => x ← (if reversed : bool then Compare c w v else Compare c v w); Ok (x <? 0)) recs)
  end.
Definition draining : O_ offer :=
  r ← on_agg (nextResult a true);
  mret (match r with inl e => (inl e, Pulling) | inr None => (inr None, Pulling) | inr (Some b) => (inr (Some b), Draining) end).
Definition emitting (more : O_ offer) : O_ offer :=
  r ← on_agg (nextResult a false);
  match r with
  | inl e => mret (inl e, Pulling)
  | inr None => more
  | inr (Some recs) => recs ← lift_out (sort_early recs); mret (inr (Some recs), Emitting)
  end.
Fixpoint pulling (fuel : nat) : O_ offer :=
  match fuel with
  | O => throw hang
  | S fuel =>
      r ← try_up false;
      match r with
      | inl e => mret (inl e, Pulling)
      | inr None => draining
      | inr (Some vals) =>
          r ← on_agg (consume_batch a vals);
          match r with
          | inl e => mret (inl e, Closed)
          | inr _ => if inputDir a =? 0 then pulling fuel else emitting (pulling fuel)
          end
      end
  end.
Definition next_offer (fuel : nat) : O_ offer :=
  o ← own;
  match o_stage o with
  | NotStarted | Pulling => pulling fuel
  | Emitting => emitting (pulling fuel)
  | Draining => draining
  | Failing e => mret (inl e, Closed)
  | Closed => mret (inr None, Closed)
  end.

(** Pulled with [done] it waits for [sendResult], which drops the result that
    is offered; nothing takes [done] before the first pull, nor after the last. *)
Definition group_Pull (fuel : nat) : Puller (E := E) (Op * (P * Context)) := fun done =>
  if done then
    o ← own;
    match o_stage o with
    | NotStarted | Failing _ | Closed => throw hang
    | _ =>
        '(r, _) ← next_offer fuel;
        reset;;
        q ← try_up true;
        set_stage (match r, q with inl e, _ => Failing e | inr _, inl e => Failing e | inr _, inr _ => Pulling end);;
        mret None
    end
  else
    '(r, g) ← next_offer fuel;
    set_stage g;;
    match r with inl e => throw e | inr b => mret b end.
End run.
End operator.

(** ** [New] *)

Inductive new_error := InvalidLval | NotBuilt (e : builder_error).
Context (NewDottedExpr_ : path -> evaluator).
Fixpoint paths (keys : list (option path * evaluator)) : outcome new_error (list path) :=
  match keys with
  | [] => Ok []
  | (None, _) :: _ => Err InvalidLval
  | (Some p, _) :: keys => ps ← paths keys; Ok (p :: ps)
  end.
Definition New (evaluated : evaluator -> Value -> Value) (keys : list (option path * evaluator)) (aggNames : list path)
    (aggs : list (Aggregator (Sketch := Sketch))) (limit inputSortDir : Z) (partialsIn partialsOut : bool) : outcome new_error Config :=
  names ← paths keys;
  builder ← omap_err NotBuilt (NewRecordBuilder (names ++ aggNames));
  match NewAggregator evaluated (map NewDottedExpr_ names) (map snd keys) (map NewDottedExpr_ aggNames) aggs builder limit
    inputSortDir partialsIn partialsOut with
  | Ok a => Ok a
  | _ => Panic
  end.
End groupby.
