(* ===== verification/GroupbyProofs.v ===== *)
(** * Group-by: rows, keys, records *)

From S2P Require Import Prelude OpsProofs Zcode Types Context Interning Primitive Values ValueProofs Compare.
From S2P Require Import CompareProofs Expr Spill SpillProofs Agg AggProofs RecordBuilder RecordBuilderProofs Ops Groupby.
Local Open Scope Z_scope.

Lemma Forall2_impl_in {A B} (P Q : A -> B -> Prop) l k :
  Forall2 P l k -> (forall x y, x ∈ l -> y ∈ k -> P x y -> Q x y) -> Forall2 Q l k.
Proof.
  induction 1 as [|x y l k Hp _ IH]; intros H; constructor; [apply H; [left|left|done]|].
  apply IH. intros; apply H; [by right|by right|done].
Qed.

Lemma Forall2_perm_r {A B} (P : A -> B -> Prop) l k k' :
  Forall2 P l k -> k ≡ₚ k' -> exists l', l ≡ₚ l' /\ Forall2 P l' k'.
Proof. intros H Hp. destruct (Permutation_Forall2 Hp (proj2 (Forall2_flip P l k) H)) as (l' & Hl & H'). exists l'. split; [done|by apply Forall2_flip]. Qed.

Lemma filter_none {A} (P : A -> Prop) `{forall x, Decision (P x)} l : Forall (fun x => ~ P x) l -> filter P l = [].
Proof. induction 1 as [|x l Hx _ IH]; [done|]. by rewrite filter_cons, decide_False. Qed.
Lemma filter_all {A} (P : A -> Prop) `{forall x, Decision (P x)} l : Forall P l -> filter P l = l.
Proof. induction 1 as [|x l Hx _ IH]; [done|]. rewrite filter_cons, decide_True by done. by f_equal. Qed.

(** ** Type vectors *)

Lemma find_vector_spec t types : forall k,
  match find_vector t types k with Some i => exists n, i = (k + n)%nat /\ t !! n = Some types | None => types ∉ t end.
Proof.
  induction t as [|v t IH]; intros k; cbn [find_vector]; [by apply not_elem_of_nil|]. case_decide as E.
  - exists 0%nat. by rewrite E, Nat.add_0_r.
  - specialize (IH (S k)). destruct (find_vector t types (S k)) as [i|].
    + destruct IH as (n & -> & Hn). exists (S n). split; [lia|done].
    + by apply not_elem_of_cons.
Qed.
Lemma TVLookup_spec t types : NoDup t ->
  exists id t', TVLookup t types = (id, t') /\ t' !! id = Some types /\ NoDup t' /\ t `prefix_of` t' /\ (length t' <= S (length t))%nat.
Proof.
  intros Ht. unfold TVLookup. pose proof (find_vector_spec t types 0) as H. destruct (find_vector t types 0) as [i|].
  - destruct H as (n & -> & Hn). exists n, t. split_and!; [done..|lia].
  - exists (length t), (t ++ [types]). split_and!; [done|by apply list_lookup_middle|..].
    + apply NoDup_app. split_and!; [done| |apply NoDup_singleton]. by intros x Hx ->%list_elem_of_singleton.
    + by apply prefix_app_r.
    + rewrite length_app. cbn. lia.
Qed.

(** ** Keys *)

(** The values of a key with their types. *)
Definition key : Type := list (ty * bytes).
Definition key_body (k : key) : list byte := body_of (map snd k).

Lemma flat_values_body k rest : Forall small (map snd k) -> flat_values (map fst k) (key_body k ++ rest) = Ok k.
Proof.
  unfold key_body, body_of. induction k as [|[t b] k IH]; intros Hs; [done|]. apply Forall_cons in Hs as [Hb Hs].
  cbn [map concat fst snd flat_values]. rewrite <- app_assoc, Next_Append by done. cbn [mbind outcome_bind obind]. by rewrite IH.
Qed.
(** The bytes of a row's key are those of its values, then its type number. *)
Lemma key_bytes_inj k k' n n' : Forall small (map snd k) -> Forall small (map snd k') -> length k = length k' ->
  0 <= n < 2 ^ 64 -> 0 <= n' < 2 ^ 64 ->
  key_body k ++ uvarint_bytes n = key_body k' ++ uvarint_bytes n' -> map snd k = map snd k' /\ n = n'.
Proof.
  unfold key_body, body_of. intros Hk Hk' Hl Hn Hn'. revert k' Hk' Hl. induction k as [|[t b] k IH]; intros [|[t' b'] k'] Hk' Hl E; try done.
  - cbn [map concat app] in E. split; [done|]. pose proof (uvarint_append n [] Hn) as E1. pose proof (uvarint_append n' [] Hn') as E2.
    rewrite !app_nil_r in *. rewrite E in E1. by rewrite E1 in E2; injection E2.
  - cbn [map fst snd] in *. apply Forall_cons in Hk as [Hb Hk]. apply Forall_cons in Hk' as [Hb' Hk']. cbn [concat] in E. rewrite <- !app_assoc in E.
    pose proof (Next_Append b (concat (map Zcode.val_bytes (map snd k)) ++ uvarint_bytes n) Hb) as E1.
    rewrite E, Next_Append in E1 by done. injection E1 as <- E1. destruct (IH Hk k' Hk') as [-> ->]; [by injection Hl|by symmetry|done].
Qed.

Section groupby.
Context (to32 of32 to16 of16 : Z -> Z) (nan : Z -> Z -> Z) (float_to_int float_to_uint : Z -> Z).
Context (ParseFloat64 : list byte -> option Z) (iteration : forall {A : Type}, list A -> list A).
Context {Sketch : Type} (Insert : list byte -> Sketch -> Sketch) (Merge : Sketch -> Sketch -> Sketch)
  (Estimate : Sketch -> Z) (MarshalBinary : Sketch -> list byte) (UnmarshalBinary : list byte -> option Sketch).
Context (MaxValueSize : Z) (sort_entries : list (list byte * list byte) -> list (list byte * list byte)).
Local Abbreviation Function := (Function (Sketch := Sketch)).
Local Abbreviation Table := (Table (Sketch := Sketch)).
Local Abbreviation Config := (Config (Sketch := Sketch)).
Local Abbreviation G := (stm (Table * Context) groupby_error).

(** ** Computations of the aggregator *)

Lemma inM_Ok {A} (m : M A) (t : Table) c x c' : m c = Ok (x, c') -> inM m (t, c) = (Ok x, (t, c')).
Proof. intros H. unfold inM. cbn [fst snd]. by rewrite H. Qed.
Lemma inM_l {A B} (m : M A) (f : A -> G B) t c x c' : m c = Ok (x, c') -> (inM m ≫= f) (t, c) = f x (t, c').
Proof. intros H. by rewrite (stm_bind_Ok _ _ _ _ _ (inM_Ok m t c x c' H)). Qed.
Lemma out_l {A B} (m : outcome diverge A) (f : A -> G B) s x : m = Ok x -> (out m ≫= f) s = f x s.
Proof. intros ->. done. Qed.
Lemma stm_assoc {S E A B C} (m : stm S E A) (f : A -> stm S E B) (g : B -> stm S E C) s : ((m ≫= f) ≫= g) s = (m ≫= fun x => f x ≫= g) s.
Proof. unfold mbind, stm_bind. by destruct (m s) as [[]]. Qed.
Lemma tab_l {B} (f : Table -> G B) s : (tab ≫= f) s = f s.1 s.
Proof. done. Qed.

Lemma set_table_l {B} rows (f : unit -> G B) t c :
  (set_table rows ≫= f) (t, c) = f tt (mkTable (keyTypes t) (outTypes t) (recordTypes t) rows (maxTableKey t) (maxSpillKey t) (spiller t), c).
Proof. done. Qed.
Lemma set_spiller_l {B} r (f : unit -> G B) t c :
  (set_spiller r ≫= f) (t, c) = f tt (mkTable (keyTypes t) (outTypes t) (recordTypes t) (table t) (maxTableKey t) (maxSpillKey t) r, c).
Proof. done. Qed.

(** ** Records *)

Section records.
Context (fields : list path) (r : RecordBuilder).
Context (Hr : NewRecordBuilder fields = Ok r) (Hne : fields <> []) (Hshort : short fields) (Hnames : Forall (Forall short) fields).

(** The paths of a value read as the data. *)
Definition reads (paths : list path) (data : list (ty * bytes)) (v : Value) : Prop :=
  Forall2 (fun p d => forall c, dots to32 to16 p v c = Ok (NewValue d.1 d.2, c)) paths data.
Definition record_of (data : list (ty * bytes)) (v : Value) : Prop :=
  IsRecordType (v_type v) = true /\ raw v /\ reads fields data v.
(** The type of a record, as it was found once. *)
Definition type_of (c : Context) (types : list ty) (t : ty) : Prop :=
  member c t /\ exists c1 c2, wf c1 /\ Forall (member c1) types /\ RecordType r types c1 = Ok (t, c2).
Definition cached (t : Table) (c : Context) : Prop :=
  NoDup (outTypes t) /\ forall id typ, recordTypes t !! id = Some typ -> exists types, outTypes t !! id = Some types /\ type_of c types typ.

Lemma type_of_grows c c' types t : grows c c' -> type_of c types t -> type_of c' types t.
Proof. intros Hg [Hm H]. split; [by eapply member_grows|done]. Qed.
Lemma cached_grows t c c' : grows c c' -> cached t c -> cached t c'.
Proof. intros Hg [Hn H]. split; [done|]. intros id typ (types & Ht & Htyp)%H. exists types. split; [done|by eapply type_of_grows]. Qed.

Lemma append_values_all (b : RecordBuilder) vals : append_values b vals = append_all b (map snd vals).
Proof. revert b. induction vals as [|[t v] vals IH]; intros b; [done|]. cbn [append_values append_all map snd]. destruct (Append b v); [apply IH|done|done]. Qed.

Lemma record_spec c types t data : type_of c types t -> map fst data = types -> length data = length fields ->
  total snd 0 (zip fields data) < 2 ^ 62 ->
  exists r' body, append_values (Reset r) data = Ok r' /\ RecordBuilder.Encode r' = Ok (Some body) /\ record_of data (NewValue t (Some body)).
Proof.
  intros (_ & c1 & c2 & Hc1 & Hm & Et) Htypes Hlen Hsize. subst types.
  destruct (record_roundtrip to32 to16 fields r data c1 Hr Hne Hlen Hshort Hnames Hsize Hc1) as (r' & body & t' & c' & Ea & Ee & Ereset & Et' & _ & _ & _ & Hrec & Hread).
  { by rewrite Forall_map in Hm. }
  rewrite Et in Et'. injection Et' as <- <-. exists r', body. split_and!; [|done|].
  - rewrite append_values_all, <- Ereset. change (Reset (Reset r')) with (Reset r'). by rewrite Ereset.
  - split_and!; [done|by eexists|]. apply Forall2_same_length_lookup_2; [done|]. intros i p d Hp Hd c3. by apply (Hread i).
Qed.

(** What a step of the aggregator keeps when it does not touch the rows. *)
Definition same_rows (t t' : Table) : Prop := keyTypes t' = keyTypes t /\ table t' = table t /\ spiller t' = spiller t.
Lemma same_rows_trans t t' t'' : same_rows t t' -> same_rows t' t'' -> same_rows t t''.
Proof. intros (?&?&?) (?&?&?). unfold same_rows. by split_and!; congruence. Qed.

Lemma lookupRecordType_spec (a : Config) t c data :
  builder a = r -> wf c -> cached t c -> Forall (fun d => member c d.1) data -> length data = length fields ->
  total snd 0 (zip fields data) < 2 ^ 62 ->
  exists typ t' c', lookupRecordType a (map fst data) (t, c) = (Ok typ, (t', c')) /\ type_of c' (map fst data) typ /\
    wf c' /\ grows c c' /\ cached t' c' /\ same_rows t t'.
Proof.
  intros Ha Hc [Hnd Hcache] Hm Hlen Hsize. unfold lookupRecordType. rewrite tab_l. cbn [fst].
  destruct (TVLookup_spec (outTypes t) (map fst data) Hnd) as (id & o & -> & Hid & Hndo & Hpre & _).
  assert (Hkeep : forall c', grows c c' -> forall id' typ, recordTypes t !! id' = Some typ -> exists types, o !! id' = Some types /\ type_of c' types typ).
  { intros c' Hg id' typ (types & Ht & Htyp)%Hcache. exists types. split; [by eapply prefix_lookup_Some|by eapply type_of_grows]. }
  destruct (recordTypes t !! id) as [typ|] eqn:Etyp; unfold set_types; rewrite stm_modify_l; cbn [fst snd].
  - destruct (Hkeep c ltac:(done) id typ Etyp) as (types & Ht & Htyp). rewrite Hid in Ht. injection Ht as <-.
    eexists typ, _, c. split; [reflexivity|]. split_and!; [done|done|done|split; [done|]|done..]. cbn [outTypes recordTypes]. by apply Hkeep.
  - destruct (record_roundtrip to32 to16 fields r data c Hr Hne Hlen Hshort Hnames Hsize Hc Hm) as (_ & _ & typ & c' & _ & _ & _ & Et & Hc' & Hg & Hmt & _).
    rewrite Ha, (inM_l _ _ _ _ _ _ Et), tab_l. cbn [fst]. rewrite stm_modify_l. cbn [fst snd outTypes recordTypes keyTypes table spiller].
    assert (Htyp : type_of c' (map fst data) typ) by (split; [done|]; exists c, c'; by rewrite Forall_map).
    eexists typ, _, c'. split; [reflexivity|]. split_and!; [done|done|done|split; [done|]|done..].
    cbn [outTypes recordTypes]. intros id' typ' [[<- <-]|[_ H]]%lookup_insert_Some; [by exists (map fst data)|by apply Hkeep].
Qed.
Lemma build_record_spec (a : Config) t c data :
  builder a = r -> wf c -> cached t c -> Forall (fun d => member c d.1) data -> length data = length fields ->
  total snd 0 (zip fields data) < 2 ^ 62 ->
  exists v t' c', build_record a data (t, c) = (Ok v, (t', c')) /\ record_of data v /\ member c' (v_type v) /\
    wf c' /\ grows c c' /\ cached t' c' /\ same_rows t t'.
Proof.
  intros Ha Hc Hcache Hm Hlen Hsize.
  destruct (lookupRecordType_spec a t c data Ha Hc Hcache Hm Hlen Hsize) as (typ & t' & c' & E & Htyp & Hc' & Hg & Hcache' & Hs).
  destruct (record_spec c' _ typ data Htyp eq_refl Hlen Hsize) as (r' & body & Ea & Ee & Hrec).
  exists (NewValue typ (Some body)), t', c'. split; [|split_and!; try done; apply Htyp].
  unfold build_record. rewrite Ha, (out_l _ _ _ r') by (by rewrite Ea). rewrite (stm_bind_Ok _ _ _ _ _ E), Ee. done.
Qed.
End records.

(** ** Rows *)

Local Abbreviation Apply := (Agg.Apply to32 of32 to16 of16 nan float_to_int float_to_uint ParseFloat64 (@iteration) Insert MaxValueSize (EvalBool to32 to16)).
Local Abbreviation apply := (apply to32 of32 to16 of16 nan float_to_int float_to_uint ParseFloat64 (@iteration) Insert MaxValueSize).
Local Abbreviation ConsumeAsPartial :=
  (ConsumeAsPartial to32 of32 to16 of16 nan float_to_int float_to_uint ParseFloat64 (@iteration) Insert Merge UnmarshalBinary MaxValueSize).
Local Abbreviation consumeAsPartial :=
  (consumeAsPartial to32 of32 to16 of16 nan float_to_int float_to_uint ParseFloat64 (@iteration) Insert Merge UnmarshalBinary MaxValueSize).
Local Abbreviation Result := (Agg.Result to32 to16 nan (@iteration) Estimate sort_entries).
Local Abbreviation ResultAsPartial := (ResultAsPartial to32 to16 nan (@iteration) Estimate MarshalBinary sort_entries).
Local Abbreviation row_results := (row_results to32 to16 nan (@iteration) Estimate MarshalBinary sort_entries).

Context (zctx : Context) (bound : Z) (dotted : path -> evaluator) (Hdotted : forall p v c, dotted p v c = dots to32 to16 p v c).

(** What a row relies on for one of its aggregations: what its function has
    consumed, on the values that can be consumed together; a result, which
    stands for the values consumed, is a value of the context and no error, and
    consumed as a partial result it is as good as the values. *)
Record law := mkLaw {
  l_agg : Aggregator (Sketch := Sketch);
  consumed : Function -> list Value -> Prop;
  together : list Value -> Prop;
  answer : list Value -> ty * bytes -> Prop;
  l_together x y : together (x ++ y) -> together x /\ together y;
  l_start : consumed (pattern l_agg) [];
  l_apply f vs v c : wf c -> grows zctx c -> consumed f vs -> together (vs ++ [v]) ->
    exists f', Apply l_agg f v c = Ok (f', c) /\ consumed f' (vs ++ [v]);
  l_result f vs c : wf c -> grows zctx c -> vs <> [] -> consumed f vs -> together vs ->
    exists v b c', Result f c = Ok (v, c') /\ ResultAsPartial f c = Ok (v, c') /\ val_bytes_ to32 to16 v = Ok b /\ wf c' /\ grows c c' /\
      IsError v = false /\ member c' (v_type v) /\ zlen (default [] b) <= bound /\ answer vs (v_type v, b) /\
      forall g seen, consumed g seen -> together (seen ++ vs) ->
        exists g', ConsumeAsPartial (NewValue (v_type v) b) g = Ok g' /\ consumed g' (seen ++ vs) }.

Context (laws : list law).
Definition row_for (row : valRow) (vs : list Value) : Prop := Forall2 (fun l f => consumed l f vs) laws row.
Definition fit (vs : list Value) : Prop := Forall (fun l => together l vs) laws.

(** A result that stands for the values. *)
Definition stands_for (vs : list Value) (l : law) (d : ty * bytes) : Prop :=
  IsError (NewValue d.1 d.2) = false /\ zlen (default [] d.2) <= bound /\ answer l vs d /\
  forall g seen, consumed l g seen -> together l (seen ++ vs) ->
    exists g', ConsumeAsPartial (NewValue d.1 d.2) g = Ok g' /\ consumed l g' (seen ++ vs).

Lemma fit_split x y : fit (x ++ y) -> fit x /\ fit y.
Proof. intros H. split; eapply Forall_impl; [exact H| |exact H|]; intros l Hl; by destruct (l_together _ _ _ Hl). Qed.
Lemma row_start : row_for (newValRow (map l_agg laws)) [].
Proof. unfold row_for, newValRow. induction laws as [|l ls IH]; constructor; [apply l_start|done]. Qed.
Lemma apply_spec row vs v c : wf c -> grows zctx c -> row_for row vs -> fit (vs ++ [v]) ->
  exists row', apply (map l_agg laws) row v c = Ok (row', c) /\ row_for row' (vs ++ [v]).
Proof.
  intros Hc Hg Hr Hf. unfold row_for, fit in *. induction Hr as [|l f ls row Hl _ IH]; [by exists []|]. apply Forall_cons in Hf as [Hf Hfs].
  destruct (l_apply l f vs v c Hc Hg Hl Hf) as (f' & E & Hf'). destruct (IH Hfs) as (row' & E' & Hr').
  exists (f' :: row'). cbn [map Groupby.apply]. rewrite (M_bind_Ok _ _ _ _ _ E), (M_bind_Ok _ _ _ _ _ E'). split; [done|by constructor].
Qed.
Lemma row_results_spec partials row vs : row_for row vs -> fit vs -> vs <> [] -> forall t c, wf c -> grows zctx c ->
  exists ds c', row_results partials row (t, c) = (Ok ds, (t, c')) /\ wf c' /\ grows c c' /\ Forall (fun d => member c' d.1) ds /\
    Forall2 (stands_for vs) laws ds.
Proof.
  intros Hr Hf Hne. unfold row_for, fit in *. induction Hr as [|l f ls row Hl _ IH]; intros t c Hc Hg.
  { exists [], c. by split_and!. }
  apply Forall_cons in Hf as [Hf Hfs].
  destruct (l_result l f vs c Hc Hg Hne Hl Hf) as (v & b & c1 & Er & Ep & Eb & Hc1 & Hg1 & He & Hm & Hs & Ha & Hp).
  destruct (IH Hfs t c1 Hc1) as (ds & c2 & E & Hc2 & Hg2 & Hms & Hds); [by transitivity c|].
  exists ((v_type v, b) :: ds), c2. cbn [Groupby.row_results].
  rewrite (inM_l _ _ _ _ v c1) by (by destruct partials). rewrite (out_l _ _ _ b) by done. rewrite (stm_bind_Ok _ _ _ _ _ E). split; [done|].
  split_and!; [done|by transitivity c1| |].
  - constructor; [by eapply member_grows|done].
  - constructor; [|done]. split_and!; done.
Qed.
Lemma consumeAsPartial_spec paths row vs seen ds rec c :
  row_for row seen -> fit (seen ++ vs) -> Forall2 (stands_for vs) laws ds -> reads paths ds rec ->
  exists row', consumeAsPartial row (map dotted paths) rec c = Ok (row', c) /\ row_for row' (seen ++ vs).
Proof.
  unfold row_for, fit. intros Hr Hf Hds. revert paths row Hr Hf. induction Hds as [|l d ls ds Hd Hds IH]; intros paths row Hr Hf Hrd.
  { inversion Hr. by exists []. }
  inversion Hr as [|? f ? row' Hl Hr']; subst. apply Forall_cons in Hf as [Hf Hfs]. inversion Hrd as [|p ? ps ? Hp Hps]; subst.
  destruct Hd as (He & _ & _ & Hpart). destruct (Hpart f seen Hl Hf) as (f' & E & Hf'). destruct (IH ps row' Hr' Hfs Hps) as (row2 & E2 & Hr2).
  exists (f' :: row2). cbn [map Groupby.consumeAsPartial].
  assert (Ed : dotted p rec c = Ok (NewValue d.1 d.2, c)) by (by rewrite Hdotted).
  rewrite (M_bind_Ok _ _ _ _ _ Ed), He, E, M_lift_l, (M_bind_Ok _ _ _ _ _ E2). split; [done|by constructor].
Qed.

(** ** The table as a map *)

Section map.
Local Abbreviation row := (Row (Sketch := Sketch)).
Context {K : Type} `{EqDecision K} (P : K -> list byte * row -> Prop).

Lemma get_row_spec ks tbl k kb : Forall2 P ks tbl -> (forall k' e, k' ∈ ks -> P k' e -> e.1 = kb <-> k' = k) ->
  match get_row kb tbl with Some row => k ∈ ks /\ P k (kb, row) | None => k ∉ ks end.
Proof.
  induction 1 as [|k' [b rw] ks tbl He Hes IH]; intros Hk; cbn [get_row]; [by apply not_elem_of_nil|].
  pose proof (Hk k' (b, rw) ltac:(left) He) as Hb. cbn [fst] in Hb. destruct (decide (b = kb)) as [E|E].
  - destruct (proj1 Hb E). subst b. split; [left|done].
  - assert (IH' : match get_row kb tbl with Some row => k ∈ ks /\ P k (kb, row) | None => k ∉ ks end) by (apply IH; intros; apply Hk; [by right|done]).
    destruct (get_row kb tbl); [by destruct IH'; split; [right|]|]. apply not_elem_of_cons. split; [|done]. intros ->. by apply E, Hb.
Qed.
Lemma put_row_spec (P' : K -> list byte * row -> Prop) ks tbl k kb rw :
  Forall2 P ks tbl -> (forall k' e, k' ∈ ks -> P k' e -> e.1 = kb <-> k' = k) -> NoDup ks ->
  P' k (kb, rw) -> (forall k' e, k' ∈ ks -> k' <> k -> P k' e -> P' k' e) ->
  Forall2 P' (if decide (k ∈ ks) then ks else ks ++ [k]) (put_row kb rw tbl).
Proof.
  intros Hes Hk Hnd Hnew Hold. induction Hes as [|k' [b rw'] ks tbl He Hes IH]; cbn [put_row].
  { rewrite decide_False by apply not_elem_of_nil. by constructor. }
  apply NoDup_cons in Hnd as [Hk' Hnd]. pose proof (Hk k' (b, rw') ltac:(left) He) as Hb. cbn [fst] in Hb. destruct (decide (b = kb)) as [E|E].
  - destruct (proj1 Hb E). subst b. rewrite decide_True by left. constructor; [done|].
    eapply Forall2_impl_in; [exact Hes|]. intros k2 e2 H2 _. apply Hold; [by right|by intros ->].
  - assert (Hne : k' <> k) by (intros ->; by apply E, Hb).
    assert (IH' : Forall2 P' (if decide (k ∈ ks) then ks else ks ++ [k]) (put_row kb rw tbl)).
    { apply IH; [intros; apply Hk; [by right|done]|done|]. intros; apply Hold; [by right|done|done]. }
    destruct (decide (k ∈ ks)) as [H|H].
    + rewrite decide_True by (by right). constructor; [apply Hold; [left|done|done]|done].
    + rewrite decide_False by (by apply not_elem_of_cons). constructor; [apply Hold; [left|done|done]|done].
Qed.
Lemma delete_row_spec (tbl : list (list byte * row)) kb rw rest : NoDup (map fst tbl) -> tbl ≡ₚ (kb, rw) :: rest -> delete_row kb tbl ≡ₚ rest.
Proof.
  intros Hnd Hp. assert (Hin : (kb, rw) ∈ tbl) by (rewrite Hp; left).
  assert (H : tbl ≡ₚ (kb, rw) :: delete_row kb tbl).
  { clear Hp. induction tbl as [|[b rw'] tbl IH]; [by apply not_elem_of_nil in Hin|]. cbn [map fst delete_row] in *. apply NoDup_cons in Hnd as [Hb Hnd].
    case_decide as E.
    - subst b. apply elem_of_cons in Hin as [Hin|Hin]; [by rewrite Hin|]. destruct Hb. by apply (list_elem_of_fmap_2 fst) in Hin.
    - apply elem_of_cons in Hin as [Hin|Hin]; [by injection Hin as ->|]. rewrite (IH Hnd Hin) at 1. by constructor. }
  rewrite H in Hp. by apply Permutation_cons_inv in Hp.
Qed.
End map.

(** ** The aggregator, on input that is not sorted *)

Section aggregator.
Context (a : Config) (kpaths apaths : list path) (keys : Value -> key).
Record plain_config : Prop := {
  pc_builder : NewRecordBuilder (kpaths ++ apaths) = Ok (builder a);
  pc_fields : kpaths ++ apaths <> [] /\ short (kpaths ++ apaths) /\ Forall (Forall short) (kpaths ++ apaths);
  pc_keys : length (keyExprs a) = length kpaths;
  pc_refs : keyRefs a = map dotted kpaths /\ aggRefs a = map dotted apaths;
  pc_aggs : aggs a = map l_agg laws /\ length apaths = length laws;
  pc_plain : inputDir a = 0 /\ partialsIn a = false /\ partialsOut a = false;
  pc_bound : bound < 2 ^ 62;
  pc_room data : length data = length (kpaths ++ apaths) -> Forall (fun d : ty * bytes => zlen (default [] d.2) <= bound) data ->
    total snd 0 (zip (kpaths ++ apaths) data) < 2 ^ 62 }.
Context (HC : plain_config).

(** A value with its keys. *)
Definition keyed (v : Value) : Prop :=
  Forall2 (fun (e : evaluator) d => member zctx d.1 /\ zlen (default [] d.2) <= bound /\
    forall c, wf c -> grows zctx c -> exists w, e v c = Ok (w, c) /\ IsQuiet to32 to16 w = Ok false /\ v_type w = d.1 /\ val_bytes_ to32 to16 w = Ok d.2)
    (keyExprs a) (keys v).
Definition key_ok (k : key) : Prop := length k = length kpaths /\ Forall (fun d => member zctx d.1 /\ zlen (default [] d.2) <= bound) k.
Definition select (k : key) (vals : list Value) : list Value := filter (fun v => keys v = k) vals.

Lemma keyed_ok v : keyed v -> key_ok (keys v).
Proof.
  intros H. split; [by rewrite <- (Forall2_length _ _ _ H), pc_keys|]. induction H as [|e d es k (Hm & Hb & _) _ IH]; by constructor.
Qed.
Lemma key_small k : key_ok k -> Forall small (map snd k).
Proof. intros [_ H]. apply Forall_map. eapply Forall_impl; [exact H|]. intros d [_ Hd]. unfold small. pose proof (pc_bound HC). cbn. lia. Qed.

Lemma eval_keys_spec v : keyed v -> forall t c, wf c -> grows zctx c ->
  eval_keys to32 of32 to16 of16 a true (keyExprs a) v [] [] None (t, c) = (Ok (Some (map fst (keys v), key_body (keys v), None)), (t, c)).
Proof.
  intros H t c Hc Hg. assert (Hgen : forall es k first types kb, Forall2 (fun (e : evaluator) d => member zctx d.1 /\ zlen (default [] d.2) <= bound /\
    forall c, wf c -> grows zctx c -> exists w, e v c = Ok (w, c) /\ IsQuiet to32 to16 w = Ok false /\ v_type w = d.1 /\ val_bytes_ to32 to16 w = Ok d.2) es k ->
    eval_keys to32 of32 to16 of16 a first es v types kb None (t, c) = (Ok (Some (types ++ map fst k, kb ++ key_body k, None)), (t, c))).
  { induction es as [|e es IH]; intros k first types kb Hk; inversion Hk as [|? d ? k' (_ & _ & He) Hes]; subst.
    { cbn [eval_keys map]. by rewrite !app_nil_r. }
    destruct (He c Hc Hg) as (w & Ew & Hq & Ht & Hb). cbn [eval_keys]. rewrite (inM_l _ _ _ _ _ _ Ew), (out_l _ _ _ false) by (by rewrite Hq).
    replace (first && negb (inputDir a =? 0)) with false by (rewrite (proj1 (pc_plain HC)); by destruct first).
    rewrite stm_ret_l, (out_l _ _ _ d.2) by done. rewrite (IH k' false) by done. cbn [map]. unfold key_body, body_of. cbn [map concat]. by rewrite Ht, <- !app_assoc. }
  by rewrite (Hgen _ (keys v)).
Qed.

(** The table holds the rows of the values so far, one for each key. *)
Definition entry_for (types : TypeVectorTable) (vals : list Value) (k : key) (e : list byte * Row) : Prop :=
  exists id, types !! id = Some (map fst k) /\ e.1 = key_body k ++ uvarint_bytes (Z.of_nat id) /\ keyType e.2 = id /\ row_for (reducers e.2) (select k vals).
Record ready (n : nat) (t : Table) (c : Context) : Prop := {
  rd_wf : wf c; rd_grows : grows zctx c; rd_cached : cached (builder a) t c;
  rd_types : NoDup (keyTypes t); rd_count : (length (keyTypes t) <= n)%nat; rd_short : Z.of_nat n < 2 ^ 64 }.
Definition tabled (types : TypeVectorTable) (rows : list (list byte * Row)) (ks : list key) (vals : list Value) : Prop :=
  NoDup ks /\ (forall k, k ∈ ks <-> k ∈ map keys vals) /\ Forall2 (entry_for types vals) ks rows.

Lemma tabled_nil types : tabled types [] [] [].
Proof. split_and!; [constructor|done|constructor]. Qed.

Lemma entry_key n t c vals k kb id k' e : ready n t c -> key_ok k -> key_ok k' ->
  keyTypes t !! id = Some (map fst k) -> kb = key_body k ++ uvarint_bytes (Z.of_nat id) -> entry_for (keyTypes t) vals k' e -> e.1 = kb <-> k' = k.
Proof.
  intros Hr Hk Hk' Hid -> (id' & Hid' & He & _). rewrite He.
  pose proof (lookup_lt_Some _ _ _ Hid) as Hl. pose proof (lookup_lt_Some _ _ _ Hid') as Hl'. pose proof (rd_count _ _ _ Hr). pose proof (rd_short _ _ _ Hr).
  split.
  - intros E. apply key_bytes_inj in E as [Es En]; [|by apply key_small..|by rewrite (proj1 Hk), (proj1 Hk')|lia|lia].
    apply Nat2Z.inj in En. subst id'. rewrite Hid in Hid'. injection Hid' as Hf. clear -Es Hf. revert k Es Hf.
    induction k' as [|[t b] k' IH]; intros [|[t2 b2] k] Es Hf; try done. cbn in *. injection Es as -> Es. injection Hf as -> Hf. f_equal. by apply IH.
  - intros ->. rewrite (NoDup_lookup (keyTypes t) id id' (map fst k)); [done|apply Hr|done|done].
Qed.

(** *** Reading the table *)

Local Abbreviation read_rows := (read_rows to32 of32 to16 of16 nan (@iteration) Estimate MarshalBinary sort_entries a).
Local Abbreviation readTable := (readTable to32 of32 to16 of16 nan (@iteration) Estimate MarshalBinary sort_entries a).

(** The record of the values with a key. *)
Definition sums (vs : list Value) (k : key) (rec : Value) : Prop :=
  exists ds, record_of (kpaths ++ apaths) (k ++ ds) rec /\ Forall2 (stands_for vs) laws ds.
Definition summary (vals : list Value) (k : key) (rec : Value) : Prop := sums (select k vals) k rec.

Lemma room data : length data = length (kpaths ++ apaths) -> Forall (fun d : ty * bytes => zlen (default [] d.2) <= bound) data ->
  total snd 0 (zip (kpaths ++ apaths) data) < 2 ^ 62.
Proof. apply (pc_room HC). Qed.
Lemma stands_data vs ds : Forall2 (stands_for vs) laws ds -> length ds = length apaths /\ Forall (fun d : ty * bytes => zlen (default [] d.2) <= bound) ds.
Proof.
  intros H. split; [by rewrite <- (Forall2_length _ _ _ H), (proj2 (pc_aggs HC))|]. apply Forall_forall. intros d [i Hd]%list_elem_of_lookup.
  destruct (Forall2_lookup_r _ _ _ _ _ H Hd) as (l & _ & _ & Hb & _). exact Hb.
Qed.

(** The record of a key and of the results of a row. *)
Lemma build_summary n t c k ds vs : ready n t c -> key_ok k -> Forall2 (stands_for vs) laws ds -> Forall (fun d => member c d.1) ds ->
  exists v t' c', build_record a (k ++ ds) (t, c) = (Ok v, (t', c')) /\ record_of (kpaths ++ apaths) (k ++ ds) v /\ member c' (v_type v) /\
    ready n t' c' /\ grows c c' /\ same_rows t t'.
Proof.
  intros [Hc Hg Hch Hnd Hn Hs] [Hlk Hk] Hds Hm. destruct (stands_data vs ds Hds) as [Hl Hb]. destruct (pc_fields HC) as (Hne & Hsh & Hnm).
  assert (Hlen : length (k ++ ds) = length (kpaths ++ apaths)) by (rewrite !length_app; lia).
  destruct (build_record_spec (kpaths ++ apaths) (builder a) (pc_builder HC) Hne Hsh Hnm a t c (k ++ ds) eq_refl Hc Hch) as
    (v & t' & c' & E & Hrec & Hmv & Hc' & Hg' & Hch' & Hsame).
  - apply Forall_app. split; [|done]. eapply Forall_impl; [exact Hk|]. intros d [Hd _]. by eapply member_grows.
  - done.
  - apply room; [done|]. apply Forall_app. split; [|done]. eapply Forall_impl; [exact Hk|]. by intros d [_ Hd].
  - exists v, t', c'. split_and!; try done. destruct Hsame as (Ek & _). split; rewrite ?Ek; try done. by transitivity c.
Qed.

Lemma read_rows_spec partials rows : forall t c n ks vals,
  ready n t c -> Forall2 (entry_for (keyTypes t) vals) ks rows -> Forall key_ok ks ->
  Forall (fun k => fit (select k vals) /\ select k vals <> []) ks -> table t ≡ₚ rows -> NoDup (map fst rows) ->
  exists recs t' c', read_rows true partials rows (t, c) = (Ok recs, (t', c')) /\ ready n t' c' /\ grows c c' /\
    table t' = [] /\ keyTypes t' = keyTypes t /\ spiller t' = spiller t /\ Forall2 (summary vals) ks recs /\ Forall (fun v => member c' (v_type v)) recs.
Proof.
  induction rows as [|[kb row] rows IH]; intros t c n ks vals Hr Hes Hks Hfit Hp Hnd.
  { inversion Hes; subst. exists [], t, c. split_and!; try done. by apply Permutation_nil_r in Hp. }
  inversion Hes as [|k ? ks' ? He Hes']; subst. apply Forall_cons in Hks as [Hk Hks]. apply Forall_cons in Hfit as [[Hf Hne] Hfit].
  destruct He as (id & Hid & Ekb & Eid & Hrow). cbn [fst snd] in *. subst kb id. cbn [Groupby.read_rows].
  rewrite stm_ret_l, tab_l. cbn [fst]. rewrite Hid, stm_ret_l. rewrite (out_l _ _ _ k) by (rewrite flat_values_body; [done|by apply key_small]).
  destruct (row_results_spec partials (reducers row) _ Hrow Hf Hne t c (rd_wf _ _ _ Hr) (rd_grows _ _ _ Hr)) as (ds & c1 & E1 & Hc1 & Hg1 & Hm1 & Hds).
  rewrite (stm_bind_Ok _ _ _ _ _ E1).
  assert (Hr1 : ready n t c1) by (destruct Hr; split; try done; [by transitivity c|by eapply cached_grows]).
  destruct (build_summary n t c1 k ds _ Hr1 Hk Hds Hm1) as (v & t2 & c2 & E2 & Hrec & Hmv & Hr2 & Hg2 & Ek & Et & Es).
  rewrite (stm_bind_Ok _ _ _ _ _ E2), tab_l. cbn [fst]. rewrite set_table_l.
  match goal with |- context [(?x, c2)] => set (t3 := x) end.
  assert (Hr3 : ready n t3 c2) by (destruct Hr2; split; done).
  assert (Hk3 : keyTypes t3 = keyTypes t) by done. pose proof Hnd as [Hkb Hnd']%NoDup_cons.
  destruct (IH t3 c2 n ks' vals Hr3) as (recs & t4 & c4 & E4 & Hr4 & Hg4 & Ht4 & Hk4 & Hs4 & Hrecs & Hms); [by rewrite Hk3|done|done| |done|].
  { cbn [table t3]. rewrite Et. eapply delete_row_spec; [by rewrite Hp|exact Hp]. }
  rewrite (stm_bind_Ok _ _ _ _ _ E4). exists (v :: recs), t4, c4. split_and!; try done.
  - transitivity c1; [done|]. by transitivity c2.
  - by rewrite Hk4.
  - by rewrite Hs4.
  - constructor; [|done]. by exists ds.
  - constructor; [by eapply member_grows|done].
Qed.

Context (Hiteration : forall A (l : list A), iteration A l ≡ₚ l).

(** One record for each key of the values. *)
Definition grouped (vals : list Value) (ks : list key) (recs : list Value) : Prop :=
  NoDup ks /\ (forall k, k ∈ ks <-> k ∈ map keys vals) /\ Forall2 (summary vals) ks recs.

Lemma select_nil k vals : select k vals = [] <-> k ∉ map keys vals.
Proof.
  unfold select. split.
  - intros H Hin. apply list_elem_of_fmap in Hin as (v & -> & Hv). assert (Hf : v ∈ filter (fun w => keys w = keys v) vals) by (by apply list_elem_of_filter).
    rewrite H in Hf. by apply not_elem_of_nil in Hf.
  - intros H. destruct (filter _ vals) as [|v l] eqn:E; [done|]. assert (Hv : v ∈ filter (fun v => keys v = k) vals) by (rewrite E; left).
    apply list_elem_of_filter in Hv as [<- Hv]. destruct H. by apply list_elem_of_fmap_2.
Qed.
Lemma tabled_keys n t c ks vals : ready n t c -> tabled (keyTypes t) (table t) ks vals -> Forall keyed vals -> Forall key_ok ks /\ NoDup (map fst (table t)).
Proof.
  intros Hr (Hnd & Hin & Hes) Hk. assert (Hok : Forall key_ok ks).
  { apply Forall_forall. intros k (v & -> & Hv)%Hin%list_elem_of_fmap. rewrite Forall_forall in Hk. by apply keyed_ok, Hk. }
  split; [done|]. clear Hin Hk. induction Hes as [|k e ks rows He Hes IH]; [constructor|]. apply NoDup_cons in Hnd as [Hk Hnd]. apply Forall_cons in Hok as [Hok Hoks].
  cbn [map]. apply NoDup_cons. split; [|by apply IH]. intros (e' & Ee & He')%list_elem_of_fmap. apply list_elem_of_lookup in He' as [i Hi].
  destruct (Forall2_lookup_r _ _ _ _ _ Hes Hi) as (k' & Hk' & Hent). pose proof He as (id & Hid & Ekb & _).
  assert (Hkk : k' = k). { apply (entry_key n t c vals k e.1 id k' e' Hr Hok); [|done..]. rewrite Forall_lookup in Hoks. by eapply Hoks. }
  subst k'. apply Hk. by eapply list_elem_of_lookup_2.
Qed.
Lemma readTable_spec partials t c n ks vals :
  ready n t c -> tabled (keyTypes t) (table t) ks vals -> Forall keyed vals -> (forall k, fit (select k vals)) ->
  exists ks' recs t' c', readTable true partials (t, c) = (Ok (match recs with [] => None | _ => Some recs end), (t', c')) /\
    grouped vals ks' recs /\ ready n t' c' /\ grows c c' /\ table t' = [] /\ keyTypes t' = keyTypes t /\ spiller t' = spiller t /\
    Forall (fun v => member c' (v_type v)) recs.
Proof.
  intros Hr Ht Hk Hf. destruct (tabled_keys n t c ks vals Hr Ht Hk) as [Hok Hnd]. destruct Ht as (Hndk & Hin & Hes).
  pose proof (Hiteration _ (table t)) as Hp.
  destruct (Forall2_perm_r _ _ _ _ Hes (Permutation_sym Hp)) as (ks' & Hpk & Hes').
  destruct (read_rows_spec partials (iteration _ (table t)) t c n ks' vals Hr Hes') as (recs & t' & c' & E & Hr' & Hg & Ht' & Hk' & Hs' & Hrecs & Hms).
  - by rewrite <- Hpk.
  - apply Forall_forall. intros k Hkin. split; [apply Hf|]. intros Hn%select_nil. apply Hn, Hin. by rewrite Hpk.
  - done.
  - by rewrite Hp.
  - exists ks', recs, t', c'. split; [unfold Groupby.readTable; rewrite tab_l; cbn [fst]; by rewrite (stm_bind_Ok _ _ _ _ _ E)|].
    split_and!; try done. split_and!; [by rewrite <- Hpk| |done]. intros k. by rewrite <- Hpk.
Qed.

(** *** A value comes in *)

Lemma select_app k x y : select k (x ++ y) = select k x ++ select k y.
Proof. apply filter_app. Qed.
Lemma select_one k v : select k [v] = if decide (keys v = k) then [v] else [].
Proof. done. Qed.

(** The row of its key takes it. *)
Lemma add_value n t c ks cur v kb row : ready n t c -> NoDup ks -> Forall key_ok ks -> keys v ∈ ks ->
  Forall2 (entry_for (keyTypes t) cur) ks (table t) -> fit (select (keys v) (cur ++ [v])) -> entry_for (keyTypes t) cur (keys v) (kb, row) ->
  exists fs, apply (aggs a) (reducers row) v c = Ok (fs, c) /\
    Forall2 (entry_for (keyTypes t) (cur ++ [v])) ks (put_row kb (mkRow (keyType row) (groupval row) fs) (table t)).
Proof.
  intros Hr Hnd Hok Hin Hes Hf (id & Hid & Ekb & Eid & Hrow). cbn [fst snd] in *.
  rewrite select_app, select_one, decide_True in Hf by done.
  destruct (apply_spec (reducers row) _ v c (rd_wf _ _ _ Hr) (rd_grows _ _ _ Hr) Hrow Hf) as (fs & E & Hrow'). exists fs.
  rewrite (proj1 (pc_aggs HC)). split; [done|]. replace ks with (if decide (keys v ∈ ks) then ks else ks ++ [keys v]) by (by rewrite decide_True).
  apply (put_row_spec (entry_for (keyTypes t) cur)); [done| |done| |].
  - intros k' e Hk' He. rewrite Forall_forall in Hok. apply (entry_key n t c cur (keys v) kb id k' e Hr); auto.
  - exists id. cbn [fst snd keyType reducers]. split_and!; [done..|]. by rewrite select_app, select_one, decide_True.
  - intros k' e _ Hne (id' & ? & ? & ? & Hr'). exists id'. split_and!; [done..|]. by rewrite select_app, select_one, decide_False, app_nil_r by congruence.
Qed.

(** A new row for it. *)
Lemma new_row n t c ks cur k kb id : ready n t c -> tabled (keyTypes t) (table t) ks cur -> Forall key_ok ks -> key_ok k -> k ∉ map keys cur ->
  keyTypes t !! id = Some (map fst k) -> kb = key_body k ++ uvarint_bytes (Z.of_nat id) ->
  let row := mkRow id None (newValRow (aggs a)) in
  entry_for (keyTypes t) cur k (kb, row) /\ NoDup (ks ++ [k]) /\ Forall2 (entry_for (keyTypes t) cur) (ks ++ [k]) (put_row kb row (table t)).
Proof.
  intros Hr (Hnd & Hin & Hes) Hok Hk Hnew Hid Ekb row. assert (Hks : k ∉ ks) by (by rewrite Hin).
  assert (He : entry_for (keyTypes t) cur k (kb, row)).
  { exists id. cbn [fst snd keyType reducers row]. rewrite (proj1 (pc_aggs HC)). split_and!; [done..|]. rewrite (proj2 (select_nil k cur) Hnew). apply row_start. }
  split; [done|]. split.
  - apply NoDup_app. split_and!; [done|by intros x Hx ->%list_elem_of_singleton|apply NoDup_singleton].
  - replace (ks ++ [k]) with (if decide (k ∈ ks) then ks else ks ++ [k]) by (by rewrite decide_False).
    apply (put_row_spec (entry_for (keyTypes t) cur)); [done| |done|done|done].
    intros k' e Hk' He'. rewrite Forall_forall in Hok. apply (entry_key n t c cur k kb id k' e Hr); auto.
Qed.

(** *** The order of the files *)

Context (evaluated : evaluator -> Value -> Value).
Context (Hevaluated : forall e v w, (forall c, e v c = Ok (w, c)) -> evaluated e v = w).
Context (Hzctx : wf zctx).
Context (Hcomparator : keysComparator a = WithMissingAsNull to32 to16 (NewComparator true (map (fun e => mkSortEvaluator (evaluated e) false) (keyRefs a)))).
Local Abbreviation kc := (keysComparator a).

(** A value of a key as it is compared: null when it is missing. *)
Definition compared (d : ty * bytes) : Value := missingAsNull to32 to16 (fun v => v) (NewValue d.1 d.2).
Local Abbreviation sortable := (sortable to32 to16 true zctx).
Local Abbreviation vkey := (vkey to32 to16 true).
Definition key_le (k k' : key) : Z := foldr (fun de x => orelse (lex (vkey (compared de.1)) (vkey (compared de.2))) x) 0 (zip k k').
Local Abbreviation order := (compare_keys to32 to16 true (exprs kc)).
Definition good (v : Value) : Prop := sortable_by to32 to16 true zctx (exprs kc) v /\ raw v.

Lemma exprs_kc : exprs kc = map (fun p => mkSortEvaluator (missingAsNull to32 to16 (evaluated (dotted p))) false) kpaths.
Proof. rewrite Hcomparator, (proj1 (pc_refs HC)). cbn [WithMissingAsNull NewComparator exprs]. by rewrite !map_map. Qed.
Lemma nulls_kc : nullsMax kc = true.
Proof. by rewrite Hcomparator. Qed.
Lemma compared_eq p d rec : (forall c, dots to32 to16 p rec c = Ok (NewValue d.1 d.2, c)) ->
  missingAsNull to32 to16 (evaluated (dotted p)) rec = compared d.
Proof. intros H. unfold compared, missingAsNull. by rewrite (Hevaluated (dotted p) rec (NewValue d.1 d.2)) by (intros c; by rewrite Hdotted). Qed.

Lemma kc_order : kpaths <> [] -> SortOrder to32 of32 to16 of16 kc order good.
Proof.
  intros Hne.
  pose proof (sort_order to32 of32 to16 of16 zctx kc Hzctx) as H. rewrite nulls_kc in H. apply H.
  rewrite exprs_kc. by destruct kpaths.
Qed.

Lemma good_reads k rec : reads kpaths k rec -> raw rec -> Forall (fun d => sortable (compared d)) k -> good rec.
Proof.
  intros Hrd Hraw Hs. split; [|done]. unfold sortable_by. rewrite exprs_kc. clear HC. induction Hrd as [|p d ps ds Hp _ IH]; [constructor|].
  apply Forall_cons in Hs as [Hd Hs]. cbn [map]. constructor; [|by apply IH]. cbn [Eval_]. by rewrite (compared_eq p d).
Qed.
Lemma order_reads k k' rec rec' : reads kpaths k rec -> reads kpaths k' rec' -> order rec rec' = key_le k k'.
Proof.
  rewrite exprs_kc. intros H. clear HC. revert k'. induction H as [|p d ps ds Hp _ IH]; intros k' H'; inversion H' as [|? d' ? ds' Hp' H'']; subst; [done|].
  cbn [map compare_keys desc Eval_]. rewrite (compared_eq p d), (compared_eq p d') by done. unfold key_le. cbn [zip foldr fst snd]. by rewrite IH with ds'.
Qed.

(** *** What the files hold *)

Definition key_of (rec : Value) : key :=
  map (fun p => match dots to32 to16 p rec NewContext with
                | Ok (v, _) => (v_type v, match v_repr v with Raw b => b | _ => None end)
                | _ => (TPrim Null, None)
                end) kpaths.
Lemma key_of_reads k rec : reads kpaths k rec -> key_of rec = k.
Proof.
  intros H. unfold key_of. clear HC. induction H as [|p [t b] ps ds Hp _ IH]; [done|]. cbn [map]. rewrite Hp. by f_equal.
Qed.
Lemma sums_reads vs k rec : key_ok k -> sums vs k rec -> reads kpaths k rec /\ raw rec /\ exists ds, reads apaths ds rec /\ Forall2 (stands_for vs) laws ds.
Proof.
  intros [Hk _] (ds & (_ & Hraw & Hrd) & Hds). apply Forall2_app_inv in Hrd as [Hk' Ha]; [|done].
  split_and!; [done|done|by exists ds].
Qed.

(** The keys that occur compare as equal only when they are. *)
Context (occurs : key -> Prop) (Hoccurs : forall k, occurs k -> key_ok k /\ Forall (fun d => sortable (compared d)) k)
  (Hdistinct : forall k k', occurs k -> occurs k' -> key_le k k' = 0 -> k = k').

(** Records that stand for the values with a key, one after the other. *)
Inductive merged (k : key) : list Value -> list Value -> Prop :=
  | merged_nil : merged k [] []
  | merged_cons rec recs vs vals : sums vs k rec -> vs <> [] -> merged k recs vals -> merged k (rec :: recs) (vs ++ vals).
Lemma merged_snoc k recs vals rec vs : merged k recs vals -> vs <> [] -> sums vs k rec -> merged k (recs ++ [rec]) (vals ++ vs).
Proof.
  intros H Hne Hs. induction H as [|rec' recs vs' vals Hs' Hne' _ IH]; [cbn; rewrite <- (app_nil_r vs); by repeat constructor|].
  rewrite <- app_assoc. by apply merged_cons.
Qed.
Definition with_key (k : key) (recs : list Value) : list Value := filter (fun rec => key_of rec = k) recs.
Definition kept (rec : Value) : Prop := occurs (key_of rec) /\ exists vs, sums vs (key_of rec) rec.
Definition files (recs : list Value) (past : list Value) : Prop :=
  Forall kept recs /\ forall k, merged k (with_key k recs) (select k past).
Local Abbreviation holds := (holds (k := kc) (c := order) (good := good)).
Local Abbreviation sort := (stable_sort (cmp_lt order)).
Definition spilled (s : option MergeSort) (past : list Value) : Prop :=
  match s with
  | None => past = []
  | Some r => kpaths <> [] /\ exists ss, holds r ss /\ files (concat ss) past
  end.

Lemma kept_good rec : kept rec -> good rec.
Proof.
  intros [Ho [vs Hs]]. destruct (Hoccurs _ Ho) as [Hk Hsort]. destruct (sums_reads _ _ _ Hk Hs) as (Hrd & Hraw & _).
  by eapply good_reads.
Qed.
Lemma kept_order rec rec' : kept rec -> kept rec' -> order rec rec' = 0 <-> key_of rec = key_of rec'.
Proof.
  intros [Ho [vs Hs]] [Ho' [vs' Hs']]. destruct (Hoccurs _ Ho) as [Hk _]. destruct (Hoccurs _ Ho') as [Hk' _].
  destruct (sums_reads _ _ _ Hk Hs) as (Hrd & _). destruct (sums_reads _ _ _ Hk' Hs') as (Hrd' & _).
  rewrite (order_reads _ _ _ _ Hrd Hrd'). split; [by apply Hdistinct|]. intros E.
  rewrite <- (order_reads _ _ rec rec Hrd) by (by rewrite <- E). pose proof (compare_keys_antisym to32 to16 true (exprs kc) rec rec). lia.
Qed.

(** The records of a group-by have the keys one each. *)
Lemma grouped_key cur ks recs k : grouped cur ks recs -> Forall (fun v => occurs (keys v)) cur ->
  (with_key k recs = [] /\ select k cur = []) \/ (exists rec, with_key k recs = [rec] /\ sums (select k cur) k rec /\ select k cur <> []).
Proof.
  intros (Hnd & Hin & Hs) Ho.
  assert (Hoks : Forall (fun k => occurs k) ks).
  { apply Forall_forall. intros k' (v & -> & Hv)%Hin%list_elem_of_fmap. rewrite Forall_forall in Ho. by apply Ho. }
  assert (Hrec : forall k' rec, occurs k' -> summary cur k' rec -> key_of rec = k').
  { intros k' rec Ho' Hs'. destruct (sums_reads _ _ _ (proj1 (Hoccurs _ Ho')) Hs') as (Hrd & _). by apply key_of_reads. }
  assert (H : (k ∉ ks /\ with_key k recs = []) \/ (exists rec, with_key k recs = [rec] /\ summary cur k rec /\ k ∈ ks)).
  { clear Hin. induction Hs as [|k' rec ks recs Hk' Hs IH]; [left; split; [apply not_elem_of_nil|done]|].
    apply NoDup_cons in Hnd as [Hk Hnd]. apply Forall_cons in Hoks as [Ho' Hoks]. pose proof (Hrec _ _ Ho' Hk') as E.
    unfold with_key in *. rewrite filter_cons. destruct (decide (key_of rec = k)) as [Ek|Ek].
    - right. exists rec. assert (k' = k) as -> by congruence. destruct (IH Hnd Hoks) as [[_ Hf]|(rec' & _ & _ & Hin)]; [|by destruct (Hk Hin)]. rewrite Hf. split_and!; [done|done|left].
    - destruct (IH Hnd Hoks) as [[Hn Hf]|(rec' & Hf & Hs' & Hin)]; [left|right].
      + split; [apply not_elem_of_cons; split; [congruence|done]|done].
      + exists rec'. split_and!; [done..|by right]. }
  destruct H as [[Hn Hf]|(rec & Hf & Hs' & Hk)]; [left|right; exists rec].
  - split; [done|]. apply select_nil. by rewrite <- Hin.
  - split_and!; [done..|]. intros E%select_nil. by apply E, Hin.
Qed.

Lemma with_key_app k x y : with_key k (x ++ y) = with_key k x ++ with_key k y.
Proof. apply filter_app. Qed.
Lemma with_key_sort k recs rec : with_key k recs = [] \/ with_key k recs = [rec] -> with_key k (sort recs) = with_key k recs.
Proof.
  intros H. assert (Hp : with_key k (sort recs) ≡ₚ with_key k recs) by (unfold with_key; by rewrite stable_sort_perm).
  destruct H as [H|H]; rewrite H in *; [by apply Permutation_nil_r in Hp|by apply Permutation_singleton_r in Hp].
Qed.
Lemma files_more recs past ks cur more : files recs past -> grouped cur ks more -> Forall (fun v => occurs (keys v)) cur ->
  files (recs ++ sort more) (past ++ cur).
Proof.
  intros [Hk Hm] Hg Ho. split.
  - apply Forall_app. split; [done|]. rewrite stable_sort_perm. destruct Hg as (_ & Hin & Hs). apply Forall_forall. intros rec Hrec.
    apply list_elem_of_lookup in Hrec as [i Hi]. destruct (Forall2_lookup_r _ _ _ _ _ Hs Hi) as (k & Hik & Hsum).
    apply list_elem_of_lookup_2, Hin, list_elem_of_fmap in Hik as (v & -> & Hv). rewrite Forall_forall in Ho.
    destruct (sums_reads _ _ _ (proj1 (Hoccurs _ (Ho v Hv))) Hsum) as (Hrd & _). rewrite <- (key_of_reads _ _ Hrd) in Hsum. split.
    + rewrite (key_of_reads _ _ Hrd). by apply Ho.
    + by eexists.
  - intros k. rewrite with_key_app, select_app. destruct (grouped_key cur ks more k Hg Ho) as [[Hw Hs]|(rec & Hw & Hs & Hne)].
    + rewrite (with_key_sort k more NullValue) by (by left). rewrite Hw, Hs, !app_nil_r. apply Hm.
    + rewrite (with_key_sort k more rec) by (by right). rewrite Hw. by apply merged_snoc.
Qed.

Local Abbreviation spillTable := (spillTable to32 of32 to16 of16 nan (@iteration) Estimate MarshalBinary sort_entries a).
Lemma spillTable_spec eof t c n ks past cur :
  ready n t c -> tabled (keyTypes t) (table t) ks cur -> Forall keyed cur -> Forall (fun v => occurs (keys v)) cur ->
  (forall k, fit (select k cur)) -> spilled (spiller t) past -> kpaths <> [] \/ cur = [] ->
  exists t' c', spillTable eof (t, c) = (Ok tt, (t', c')) /\ ready n t' c' /\ grows c c' /\ keyTypes t' = keyTypes t /\ table t' = [] /\
    spilled (spiller t') (past ++ cur) /\ (spiller t' = None -> spiller t = None).
Proof.
  intros Hr Ht Hk Ho Hf Hsp Hne. unfold Groupby.spillTable.
  destruct (readTable_spec true t c n ks cur Hr Ht Hk Hf) as (ks' & recs & t1 & c1 & E & Hgr & Hr1 & Hg1 & Ht1 & Hk1 & Hs1 & _).
  rewrite (stm_bind_Ok _ _ _ _ _ E). destruct recs as [|rec recs].
  { assert (cur = []) as ->.
    { destruct Hgr as (_ & Hin & Hs). inversion Hs; subst. destruct cur as [|v cur]; [done|]. destruct (not_elem_of_nil (keys v)). apply Hin. left. }
    exists t1, c1. rewrite app_nil_r, Hs1. by split_and!. }
  destruct Hne as [Hne| ->]; [|by destruct Hgr as (_ & Hin & Hs); inversion Hs as [|k ? ? ?]; subst; destruct (not_elem_of_nil k); apply Hin; left].
  pose proof (kc_order Hne) as SO. rewrite tab_l. cbn [fst]. rewrite Hs1.
  assert (exists r ss, match spiller t with Some r => r | None => NewMergeSort kc end = r /\ holds r ss /\ files (concat ss) past) as (r & ss & -> & Hh & Hfs).
  { destruct (spiller t) as [r|]; [destruct Hsp as (_ & ss & Hh & Hfs); by exists r, ss|]. cbn in Hsp. subst past.
    exists (NewMergeSort kc), []. split_and!; [done|apply NewMergeSort_holds|split; [constructor|intros k; constructor]]. }
  pose proof (files_more (concat ss) past ks' cur (rec :: recs) Hfs Hgr Ho) as Hfs'.
  assert (Hgood : Forall good (rec :: recs)).
  { destruct Hfs' as [Hkept _]. apply Forall_app in Hkept as [_ Hkept]. rewrite stable_sort_perm in Hkept. eapply Forall_impl; [exact Hkept|apply kept_good]. }
  destruct (Spill_spec r ss (rec :: recs) Hh ltac:(done) Hgood) as (r' & Es & Hh').
  rewrite (out_l _ _ _ r') by done. rewrite set_spiller_l. rewrite (proj1 (pc_plain HC)), andb_false_r.
  eexists _, c1. split; [reflexivity|]. split_and!; cbn [keyTypes table spiller]; try done; [by destruct Hr1|].
  split; [done|]. eexists. split; [done|]. rewrite concat_app. cbn [concat]. by rewrite app_nil_r.
Qed.

(** *** Consuming *)

Local Abbreviation Consume := (Groupby.Consume to32 of32 to16 of16 nan float_to_int float_to_uint ParseFloat64 (@iteration) Insert Merge
  Estimate MarshalBinary UnmarshalBinary MaxValueSize sort_entries a).
Local Abbreviation consume_batch := (Groupby.consume_batch to32 of32 to16 of16 nan float_to_int float_to_uint ParseFloat64 (@iteration) Insert Merge
  Estimate MarshalBinary UnmarshalBinary MaxValueSize sort_entries a).

Definition fine (vals : list Value) : Prop := Forall (fun v => keyed v /\ occurs (keys v)) vals /\ forall k, fit (select k vals).
Lemma fine_app x y : fine (x ++ y) -> fine x /\ fine y.
Proof.
  intros [H Hf]. apply Forall_app in H as [Hx Hy]. split; (split; [done|]); intros k; specialize (Hf k); rewrite select_app in Hf;
    by apply fit_split in Hf as [? ?].
Qed.
(** The values taken in: those in the files, then those of the table. *)
Definition taken (n : nat) (t : Table) (c : Context) (seen : list Value) : Prop :=
  ready n t c /\ exists ks past cur, seen = past ++ cur /\ tabled (keyTypes t) (table t) ks cur /\ spilled (spiller t) past.

Lemma NewTable_taken : taken 0 NewTable zctx [].
Proof.
  split; [split; try done; [split; [constructor|done]|constructor]|]. exists [], [], []. split; [done|]. split; [apply tabled_nil|done].
Qed.
Lemma entries_grow types types' cur ks rows : types `prefix_of` types' -> Forall2 (entry_for types cur) ks rows -> Forall2 (entry_for types' cur) ks rows.
Proof.
  intros Hp Hes. eapply Forall2_impl; [exact Hes|]. intros k e (id & Hid & H). exists id. split; [by eapply prefix_lookup_Some|done].
Qed.

(** The last step, with the row of the key. *)
Lemma consume_row n t c ks cur v kb row : ready n t c -> NoDup ks -> Forall key_ok ks -> (forall k, k ∈ ks <-> k = keys v \/ k ∈ map keys cur) ->
  Forall2 (entry_for (keyTypes t) cur) ks (table t) -> fit (select (keys v) (cur ++ [v])) -> entry_for (keyTypes t) cur (keys v) (kb, row) ->
  exists t', (fs ← inM (if partialsIn a then consumeAsPartial (reducers row) (aggRefs a) v else apply (aggs a) (reducers row) v);
              t ← tab; set_table (put_row kb (mkRow (keyType row) (groupval row) fs) (table t))) (t, c) = (Ok tt, (t', c)) /\
    ready n t' c /\ tabled (keyTypes t') (table t') ks (cur ++ [v]) /\ keyTypes t' = keyTypes t /\ spiller t' = spiller t.
Proof.
  intros Hr Hnd Hok Hin Hes Hf He. destruct (add_value n t c ks cur v kb row Hr Hnd Hok) as (fs & E & Hes'); [apply Hin; by left|done..|].
  rewrite (proj1 (proj2 (pc_plain HC))), (inM_l _ _ _ _ _ _ E), tab_l. cbn [fst]. unfold set_table, modify. cbn [fst snd].
  eexists. split; [reflexivity|]. split_and!; cbn [keyTypes table spiller]; [by destruct Hr| |done..]. split_and!; [done| |done].
  intros k. rewrite Hin, map_app, elem_of_app. cbn [map]. rewrite list_elem_of_singleton. naive_solver.
Qed.
(** Before a row for a new key, the table may go to a file. *)
Lemma make_room n t c ks past cur v : ready n t c -> tabled (keyTypes t) (table t) ks cur -> spilled (spiller t) past ->
  fine (past ++ cur) -> keyed v -> keys v ∉ map keys cur -> fit (select (keys v) (cur ++ [v])) ->
  exists t' c' ks' past' cur', (if limit a <=? zlen (table t) then spillTable false else mret tt) (t, c) = (Ok tt, (t', c')) /\
    ready n t' c' /\ grows c c' /\ keyTypes t' = keyTypes t /\ tabled (keyTypes t') (table t') ks' cur' /\ spilled (spiller t') past' /\
    past ++ cur = past' ++ cur' /\ keys v ∉ map keys cur' /\ Forall key_ok ks' /\ fit (select (keys v) (cur' ++ [v])).
Proof.
  intros Hr Ht Hsp Hpc Hkv Hnew Hf. destruct (fine_app _ _ Hpc) as [_ Hcur].
  assert (Hkc : Forall keyed cur /\ Forall (fun v => occurs (keys v)) cur) by (by apply Forall_and, Hcur). destruct Hkc as [Hkc Hoc].
  destruct (tabled_keys _ _ _ _ _ Hr Ht Hkc) as [Hok _]. destruct (limit a <=? zlen (table t)).
  - destruct (spillTable_spec false t c n ks past cur Hr Ht Hkc Hoc) as (t2 & c2 & E & Hr2 & Hg2 & Ek2 & Et2 & Hsp2 & _); [apply Hcur|done| |].
    { destruct cur as [|w cur]; [by right|]. left. intros E. destruct (keyed_ok v Hkv) as [Hlv _]. apply Forall_cons in Hkc as [Hkw _].
      destruct (keyed_ok w Hkw) as [Hlw _]. rewrite E in Hlv, Hlw. apply nil_length_inv in Hlv, Hlw. apply Hnew. cbn. rewrite Hlv, Hlw. left. }
    exists t2, c2, [], (past ++ cur), []. rewrite app_nil_r, Et2, Ek2. split_and!; try done; [apply tabled_nil|by apply not_elem_of_nil|].
    rewrite select_app in Hf. by apply fit_split in Hf as [_ Hf].
  - exists t, c, ks, past, cur. by split_and!.
Qed.
Lemma Consume_spec n t c seen v : taken n t c seen -> fine (seen ++ [v]) -> Z.of_nat (S n) < 2 ^ 64 ->
  exists t' c', Consume v (t, c) = (Ok tt, (t', c')) /\ taken (S n) t' c' (seen ++ [v]) /\ grows c c'.
Proof.
  intros (Hr & ks & past & cur & -> & Ht & Hsp) Hfine Hn. destruct (fine_app _ _ Hfine) as [Hpc [Hv _]]. apply Forall_cons in Hv as [[Hkv Hov] _].
  rewrite <- app_assoc in Hfine. destruct (fine_app _ _ Hfine) as [_ [Hkc Hf]].
  assert (Hkcur : Forall keyed cur) by (apply Forall_app in Hkc as [Hkc _]; eapply Forall_impl; [exact Hkc|by intros w []]).
  unfold Groupby.Consume. rewrite (stm_bind_Ok _ _ _ _ _ (eval_keys_spec v Hkv t c (rd_wf _ _ _ Hr) (rd_grows _ _ _ Hr))), tab_l. cbn [fst].
  destruct (TVLookup_spec (keyTypes t) (map fst (keys v)) (rd_types _ _ _ Hr)) as (id & kt & -> & Hid & Hndk & Hpre & Hlen).
  unfold set_keyTypes. rewrite stm_modify_l. cbn [fst snd].
  set (t1 := mkTable kt _ _ _ _ _ _). set (kb := key_body (keys v) ++ uvarint_bytes (Z.of_nat id)).
  assert (Hr1 : ready (S n) t1 c) by (destruct Hr; split; try done; cbn [keyTypes t1]; lia).
  assert (Ht1 : tabled (keyTypes t1) (table t1) ks cur) by (destruct Ht as (? & ? & ?); split_and!; [done..|by eapply entries_grow]).
  destruct (tabled_keys _ _ _ _ _ Hr1 Ht1 Hkcur) as [Hok _]. pose proof (keyed_ok v Hkv) as Hokv. pose proof Ht1 as (Hnd & Hin & Hes).
  assert (Hkb : forall k' e, k' ∈ ks -> entry_for (keyTypes t1) cur k' e -> e.1 = kb <-> k' = keys v).
  { intros k' e Hk' He. rewrite Forall_forall in Hok. apply (entry_key (S n) t1 c cur (keys v) kb id k' e Hr1); auto. }
  pose proof (get_row_spec _ _ _ (keys v) kb Hes Hkb) as Hget. change (table t1) with (table t) in Hget. destruct (get_row kb (table t)) as [row|].
  - destruct Hget as [Hkin He]. rewrite stm_ret_l.
    destruct (consume_row (S n) t1 c ks cur v kb row Hr1 Hnd Hok) as (t2 & E & Hr2 & Ht2 & _ & Es2); [|done|apply Hf|done|].
    { intros k. rewrite Hin. split; [by right|]. intros [->|]; [by apply Hin|done]. }
    rewrite E. exists t2, c. split_and!; [done|split; [done|]|done]. exists ks, past, (cur ++ [v]). rewrite Es2. by rewrite <- app_assoc.
  - destruct (make_room (S n) t1 c ks past cur v Hr1 Ht1 Hsp Hpc Hkv) as
      (t2 & c2 & ks2 & past2 & cur2 & E & Hr2 & Hg2 & Ek2 & Ht2 & Hsp2 & Ecat & Hnew2 & Hok2 & Hf2); [by rewrite <- Hin|done|].
    rewrite stm_assoc, (stm_bind_Ok _ _ _ _ _ E), stm_assoc, tab_l. cbn [fst]. rewrite stm_assoc, set_table_l, stm_ret_l.
    destruct (new_row (S n) t2 c2 ks2 cur2 (keys v) kb id Hr2 Ht2 Hok2 Hokv Hnew2) as (He & Hnd3 & Hes3); [by rewrite Ek2|done|].
    set (t3 := mkTable _ _ _ _ _ _ _). assert (Hr3 : ready (S n) t3 c2) by (by destruct Hr2).
    destruct (consume_row (S n) t3 c2 (ks2 ++ [keys v]) cur2 v kb (mkRow id None (newValRow (aggs a))) Hr3 Hnd3) as (t4 & E4 & Hr4 & Ht4 & _ & Es4); [| |exact Hes3|done|exact He|].
    { apply Forall_app. by split; [|constructor]. }
    { intros k. rewrite elem_of_app, list_elem_of_singleton. destruct Ht2 as (_ & Hin2 & _). rewrite Hin2. naive_solver. }
    exists t4, c2. split_and!; [exact E4|split; [done|]|done]. exists (ks2 ++ [keys v]), past2, (cur2 ++ [v]). rewrite Es4.
    split_and!; [by rewrite app_assoc, <- Ecat|done|done].
Qed.

Lemma consume_batch_spec vals : forall n t c seen, taken n t c seen -> fine (seen ++ vals) -> Z.of_nat (n + length vals) < 2 ^ 64 ->
  exists t' c', consume_batch vals (t, c) = (Ok tt, (t', c')) /\ taken (n + length vals) t' c' (seen ++ vals) /\ grows c c'.
Proof.
  induction vals as [|v vals IH]; intros n t c seen Ht Hf Hn; [exists t, c; by rewrite app_nil_r, Nat.add_0_r|].
  replace (seen ++ v :: vals) with ((seen ++ [v]) ++ vals) in * by (by rewrite <- app_assoc). cbn [length] in *. destruct (fine_app _ _ Hf) as [Hf1 _].
  destruct (Consume_spec n t c seen v Ht Hf1) as (t1 & c1 & E1 & Ht1 & Hg1); [lia|].
  destruct (IH (S n) t1 c1 _ Ht1 Hf) as (t2 & c2 & E2 & Ht2 & Hg2); [lia|]. exists t2, c2. cbn [Groupby.consume_batch].
  rewrite (stm_bind_Ok _ _ _ _ _ E1). replace (n + S (length vals))%nat with (S n + length vals)%nat by lia. split_and!; [done|done|by transitivity c1].
Qed.

(** *** Merging the files *)

(** The records that are still to be read, in the order in which they are. *)
Definition stream_of (r : MergeSort) (recs : list Value) : Prop := exists ss, holds r ss /\ recs = sort (concat ss).
Definition without_key (k : key) (recs : list Value) : list Value := filter (fun rec => key_of rec <> k) recs.
Local Abbreviation le := (fun v w => order v w <= 0).

Lemma order_anti v w : order w v = - order v w.
Proof. apply compare_keys_antisym. Qed.
Lemma order_tr u v w : order u v <= 0 -> order v w <= 0 -> order u w <= 0.
Proof. apply compare_keys_trans. Qed.

Lemma remaining_live r ss : holds r ss -> remaining r = length (concat ss).
Proof.
  intros [_ _ _ Hp _]. unfold remaining.
  assert (Hperm : forall h h' : list peeker, h ≡ₚ h' -> foldr (fun p n => S (length (file p)) + n)%nat O h = foldr (fun p n => S (length (file p)) + n)%nat O h')
    by (induction 1; cbn [foldr] in *; lia).
  rewrite (Hperm _ _ Hp). clear Hp Hperm.
  assert (H : forall ss m, foldr (fun p n => S (length (file p)) + n)%nat O (live m ss) = length (concat ss)); [|apply H]. clear ss.
  induction ss as [|s ss IH]; intros m; [done|]. cbn [live concat]. rewrite length_app, <- (IH (S m)).
  destruct s as [|v vs]; [done|]. cbn [app foldr file length]. lia.
Qed.
Lemma stream_nil r : kpaths <> [] -> stream_of r [] -> Peek r = None.
Proof.
  intros Hne (ss & Hh & E). pose proof (kc_order Hne) as SO. destruct (Read_next r ss Hh) as [(Hr & _)|(r' & v & ss' & _ & _ & _ & E' & _)].
  - unfold Peek. by rewrite Hr.
  - by rewrite <- E in E'.
Qed.
Lemma stream_cons r v recs : kpaths <> [] -> stream_of r (v :: recs) ->
  Peek r = Some v /\ exists r', Read to32 of32 to16 of16 r = Ok (Some v, r') /\ stream_of r' recs.
Proof.
  intros Hne (ss & Hh & E). pose proof (kc_order Hne) as SO. destruct (Read_next r ss Hh) as [(_ & _ & Hc)|(r' & w & ss' & Er & Hh' & Hp & E' & _)].
  - by rewrite Hc in E.
  - rewrite <- E in E'. injection E' as -> ->. split; [done|]. exists r'. split; [done|]. by exists ss'.
Qed.
Lemma stream_sorted r recs : stream_of r recs -> StronglySorted le recs.
Proof. intros (ss & _ & ->). apply sort_sorted; [apply order_anti|apply order_tr]. Qed.

(** In a sorted list the records with the least key come first. *)
Lemma sorted_group v recs : kept v -> StronglySorted le recs -> Forall kept recs -> Forall (le v) recs ->
  recs = with_key (key_of v) recs ++ without_key (key_of v) recs.
Proof.
  intros Hv Hs. induction Hs as [|w recs Hs IH Hw]; intros Hk Hle; [done|]. apply Forall_cons in Hk as [Hkw Hk]. apply Forall_cons in Hle as [Hvw Hle].
  unfold with_key, without_key in *. rewrite !filter_cons. destruct (decide (key_of w = key_of v)) as [E|E].
  - rewrite decide_False by tauto. cbn [app]. f_equal. by apply IH.
  - rewrite decide_True by done. assert (Hno : Forall (fun w' => key_of w' <> key_of v) recs).
    { rewrite Forall_forall in *. intros w' Hw' E'. specialize (Hw w' Hw'). apply E, eq_sym, (kept_order v w Hv Hkw).
      pose proof (proj2 (kept_order v w' Hv (Hk w' Hw')) (eq_sym E')) as E0. pose proof (order_anti v w') as Ha. pose proof (order_anti w v) as Hb.
      pose proof (order_tr w w' v Hw ltac:(lia)). lia. }
    replace (filter (fun rec => key_of rec = key_of v) recs) with (@nil Value).
    + cbn [app]. f_equal. symmetry. by apply filter_all.
    + symmetry. apply filter_none. exact Hno.
Qed.

Local Abbreviation merge_rows := (merge_rows to32 of32 to16 of16 nan float_to_int float_to_uint ParseFloat64 (@iteration) Insert Merge
  UnmarshalBinary MaxValueSize a).
Local Abbreviation nextResultFromSpills := (nextResultFromSpills to32 of32 to16 of16 nan float_to_int float_to_uint ParseFloat64 (@iteration) Insert
  Merge Estimate MarshalBinary UnmarshalBinary MaxValueSize sort_entries a).
Definition with_spiller (t : Table) (r : MergeSort) : Table :=
  mkTable (keyTypes t) (outTypes t) (recordTypes t) (table t) (maxTableKey t) (maxSpillKey t) (Some r).

Lemma eval_refs_spec k rec t c : reads kpaths k rec -> eval_refs (Sketch := Sketch) to32 to16 (keyRefs a) rec (t, c) = (Ok k, (t, c)).
Proof.
  rewrite (proj1 (pc_refs HC)). intros H. clear HC Hdistinct Hoccurs. induction H as [|p [ty b] ps ds Hp _ IH]; [done|]. cbn [map eval_refs].
  rewrite (inM_l _ _ _ _ (NewValue ty b) c) by (by rewrite Hdotted). rewrite (out_l _ _ _ b) by done. by rewrite (stm_bind_Ok _ _ _ _ _ IH).
Qed.

(** One record is consumed. *)
Lemma merge_one {B} (f : _ -> G B) t c r v recs k vs row seen :
  kpaths <> [] -> spiller t = Some r -> stream_of r (v :: recs) -> key_ok k -> sums vs k v -> row_for row seen -> fit (seen ++ vs) ->
  exists r' row', (row ← inM (consumeAsPartial row (aggRefs a) v); '(_, r) ← out (Read to32 of32 to16 of16 r); set_spiller (Some r);; f row) (t, c) =
      f row' (with_spiller t r', c) /\ stream_of r' recs /\ row_for row' (seen ++ vs).
Proof.
  intros Hne Hs Hst Hk Hsum Hrow Hf. destruct (stream_cons r v recs Hne Hst) as (_ & r' & Er & Hst').
  destruct (sums_reads _ _ _ Hk Hsum) as (_ & _ & ds & Hrd & Hds).
  destruct (consumeAsPartial_spec apaths row vs seen ds v c Hrow Hf Hds Hrd) as (row' & E & Hrow'). exists r', row'.
  rewrite (proj2 (pc_refs HC)), (inM_l _ _ _ _ _ _ E), (out_l _ _ _ _ Er), set_spiller_l. by split_and!.
Qed.

Lemma merge_rows_spec k first : kpaths <> [] -> kept first -> key_of first = k -> forall recs vs, merged k recs vs -> forall fuel B t c r row seen,
  spiller t = Some r -> stream_of r (recs ++ B) -> Forall kept (recs ++ B) -> Forall (fun rec => key_of rec = k) recs ->
  match B with [] => True | v :: _ => key_of v <> k end -> row_for row seen -> fit (seen ++ vs) -> (length recs < fuel)%nat ->
  exists r' row', merge_rows fuel (Some first) row (t, c) = (Ok (Some first, row'), (with_spiller t r', c)) /\ stream_of r' B /\ row_for row' (seen ++ vs).
Proof.
  intros Hne Hfirst Hkey. pose proof (kc_order Hne) as SO. destruct (Hoccurs k) as [Hk _]; [by rewrite <- Hkey; apply Hfirst|].
  assert (Hcmp : forall v, kept v -> Compare.Compare to32 of32 to16 of16 kc first v = Ok (order first v)).
  { intros v Hv. apply (so_cmp (SortOrder := SO)); by apply kept_good. }
  intros recs vs Hm. induction Hm as [|rec recs vs vals Hs Hnv _ IH]; intros fuel B t c r row seen Es Hst Hkept Hks HB Hrow Hf Hfuel.
  - destruct fuel as [|fuel]; [lia|]. cbn [Groupby.merge_rows app] in *. rewrite tab_l. cbn [fst]. rewrite Es, app_nil_r in *. exists r, row.
    assert (Et : with_spiller t r = t) by (destruct t; cbn in *; by subst). rewrite Et. destruct B as [|v B].
    + rewrite (stream_nil r Hne Hst). by split_and!.
    + destruct (stream_cons r v B Hne Hst) as (-> & _). apply Forall_cons in Hkept as [Hv _]. rewrite stm_assoc, (out_l _ _ _ _ (Hcmp v Hv)), stm_ret_l.
      destruct (Z.eqb_spec (order first v) 0) as [E|E]; [|by split_and!]. apply (kept_order first v Hfirst Hv) in E. congruence.
  - destruct fuel as [|fuel]; [cbn in Hfuel; lia|]. cbn [Groupby.merge_rows app] in *. rewrite tab_l. cbn [fst]. rewrite Es.
    destruct (stream_cons r rec _ Hne Hst) as (-> & _). apply Forall_cons in Hkept as [Hv Hkept]. apply Forall_cons in Hks as [Hkrec Hks].
    rewrite stm_assoc, (out_l _ _ _ _ (Hcmp rec Hv)), stm_ret_l.
    assert (E0 : order first rec = 0) by (apply (kept_order first rec Hfirst Hv); congruence). rewrite E0. cbn [Z.eqb].
    rewrite app_assoc in Hf. destruct (fit_split _ _ Hf) as [Hf1 _].
    destruct (merge_one (fun row => merge_rows fuel (Some (default rec (Some first))) row) t c r rec _ k vs row seen Hne Es Hst Hk Hs Hrow Hf1) as (r1 & row1 & E1 & Hst1 & Hrow1).
    rewrite E1. cbn [default from_option id]. destruct (IH fuel B (with_spiller t r1) c r1 row1 (seen ++ vs)) as (r2 & row2 & E2 & Hst2 & Hrow2); try done; [cbn in Hfuel; lia|].
    exists r2, row2. rewrite app_assoc. by split_and!.
Qed.

(** The records to come, with all those of a key or none. *)
Definition to_come (vals recs : list Value) : Prop :=
  Forall kept recs /\ forall k, with_key k recs = [] \/ merged k (with_key k recs) (select k vals).

Lemma stream_length r recs : stream_of r recs -> remaining r = length recs.
Proof. intros (ss & Hh & ->). rewrite (remaining_live r ss Hh). by rewrite length_stable_sort. Qed.
Lemma without_head k recs : match without_key k recs with [] => True | v :: _ => key_of v <> k end.
Proof.
  destruct (without_key k recs) as [|v l] eqn:E; [done|]. assert (Hv : v ∈ without_key k recs) by (rewrite E; left).
  by apply list_elem_of_filter in Hv as [? _].
Qed.
Lemma with_key_all k recs : Forall (fun rec => key_of rec = k) (with_key k recs).
Proof. apply Forall_forall. by intros rec [? _]%list_elem_of_filter. Qed.
Lemma to_come_without vals k recs : to_come vals recs -> to_come vals (without_key k recs).
Proof.
  intros [Hk Hm]. split.
  - apply Forall_forall. intros rec [_ H]%list_elem_of_filter. rewrite Forall_forall in Hk. by apply Hk.
  - intros k'. unfold with_key, without_key. destruct (decide (k' = k)) as [->|Hne].
    + left. apply filter_none, Forall_forall. by intros rec [? _]%list_elem_of_filter.
    + rewrite list_filter_filter. rewrite (list_filter_iff _ (fun rec => key_of rec = k')); [apply Hm|]. naive_solver congruence.
Qed.

(** The rows of the least key are merged. *)
Lemma merge_least t c r v recs vals : kpaths <> [] -> spiller t = Some r -> stream_of r (v :: recs) -> to_come vals (v :: recs) ->
  (forall k, fit (select k vals)) ->
  exists r' row, merge_rows (S (remaining r)) None (newValRow (aggs a)) (t, c) = (Ok (Some v, row), (with_spiller t r', c)) /\
    stream_of r' (without_key (key_of v) recs) /\ row_for row (select (key_of v) vals) /\ select (key_of v) vals <> [] /\ reads kpaths (key_of v) v.
Proof.
  intros Hne Es Hst [Hkept Hm] Hf. set (k := key_of v). specialize (Hm k). specialize (Hf k). unfold with_key in Hm.
  rewrite filter_cons, decide_True in Hm by done. fold (with_key k recs) in Hm. destruct Hm as [|Hm]; [done|].
  inversion Hm as [|? ? vs vals' Hs Hnv Hm' E1 E2]; subst. rewrite <- E2 in *. apply Forall_cons in Hkept as [Hv Hkept].
  pose proof (proj1 Hv) as Hok. apply Hoccurs in Hok as [Hok _]. fold k in Hok. destruct (fit_split _ _ Hf) as [Hf1 _].
  pose proof (stream_sorted r _ Hst) as Hsort. apply StronglySorted_inv in Hsort as [Hsort Hle].
  pose proof (sorted_group v recs Hv Hsort Hkept Hle) as Hsplit. fold k in Hsplit.
  destruct (merge_one (fun row => merge_rows (remaining r) (Some (default v None)) row) t c r v recs k vs (newValRow (map l_agg laws)) []
    Hne Es Hst Hok Hs row_start Hf1) as (r1 & row1 & E3 & Hst1 & Hrow1).
  rewrite Hsplit in Hst1, Hkept.
  destruct (merge_rows_spec k v Hne Hv eq_refl _ _ Hm' (remaining r) (without_key k recs) (with_spiller t r1) c r1 row1 vs eq_refl Hst1 Hkept
    (with_key_all k recs) (without_head k recs) Hrow1 Hf) as (r2 & row2 & E4 & Hst2 & Hrow2).
  { rewrite (stream_length r _ Hst). cbn [length]. pose proof (f_equal length Hsplit) as Hl. rewrite length_app in Hl. lia. }
  exists r2, row2. cbn [Groupby.merge_rows]. rewrite tab_l. cbn [fst]. rewrite Es. destruct (stream_cons r v recs Hne Hst) as (-> & _).
  rewrite stm_ret_l, (proj1 (pc_aggs HC)), E3. cbn [default from_option] in *. rewrite E4. split_and!; try done; [|by eapply sums_reads].
  destruct vs; done.
Qed.
Lemma next_from_spills n t c r recs vals : kpaths <> [] -> ready n t c -> spiller t = Some r -> stream_of r recs -> to_come vals recs ->
  (forall k, fit (select k vals)) ->
  match recs with
  | [] => nextResultFromSpills (t, c) = (Ok None, (t, c))
  | v :: _ => exists rec t' c' r', nextResultFromSpills (t, c) = (Ok (Some rec), (t', c')) /\ summary vals (key_of v) rec /\ member c' (v_type rec) /\
      ready n t' c' /\ grows c c' /\ table t' = table t /\ keyTypes t' = keyTypes t /\ spiller t' = Some r' /\ stream_of r' (without_key (key_of v) recs)
  end.
Proof.
  intros Hne Hr Es Hst Hcome Hf. unfold Groupby.nextResultFromSpills. rewrite tab_l. cbn [fst]. rewrite Es. destruct recs as [|v recs].
  { cbn [Groupby.merge_rows]. unfold mbind, stm_bind, tab, mret, stm_ret. cbn [fst snd]. by rewrite Es, (stream_nil r Hne Hst). }
  destruct (merge_least t c r v recs vals Hne Es Hst Hcome Hf) as (r1 & row & E1 & Hst1 & Hrow & Hnv & Hrd).
  rewrite (stm_bind_Ok _ _ _ _ _ E1). rewrite (stm_bind_Ok _ _ _ _ _ (eval_refs_spec (key_of v) v _ c Hrd)).
  rewrite (proj2 (proj2 (pc_plain HC))).
  destruct (row_results_spec false row _ Hrow (Hf _) Hnv (with_spiller t r1) c (rd_wf _ _ _ Hr) (rd_grows _ _ _ Hr)) as (ds & c1 & E2 & Hc1 & Hg1 & Hm1 & Hds).
  rewrite (stm_bind_Ok _ _ _ _ _ E2).
  assert (Hr1 : ready n (with_spiller t r1) c1) by (destruct Hr; split; try done; [by transitivity c|by eapply cached_grows]).
  destruct Hcome as [[[Ho _] _]%Forall_cons _]. destruct (Hoccurs _ Ho) as [Hok _].
  destruct (build_summary n _ c1 (key_of v) ds _ Hr1 Hok Hds Hm1) as (rec & t2 & c2 & E3 & Hrec & Hmr & Hr2 & Hg2 & Ek & Et & Esp).
  rewrite (stm_bind_Ok _ _ _ _ _ E3). exists rec, t2, c2, r1. split_and!; try done; [by exists ds|by transitivity c1|].
  unfold without_key. rewrite filter_cons, decide_False by tauto. exact Hst1.
Qed.

(** *** Draining *)

Local Abbreviation read_spills := (read_spills to32 of32 to16 of16 nan float_to_int float_to_uint ParseFloat64 (@iteration) Insert
  Merge Estimate MarshalBinary UnmarshalBinary MaxValueSize sort_entries a).
Local Abbreviation nextResult := (nextResult to32 of32 to16 of16 nan float_to_int float_to_uint ParseFloat64 (@iteration) Insert
  Merge Estimate MarshalBinary UnmarshalBinary MaxValueSize sort_entries a).

(** The table is empty, and what is left in the files is the keys that have not
    been sent. *)
Definition left (n : nat) (t : Table) (c : Context) (vals : list Value) (sent : list key) : Prop :=
  ready n t c /\ table t = [] /\
  match spiller t with
  | None => forall k, k ∈ map keys vals -> k ∈ sent
  | Some r => kpaths <> [] /\ exists recs, stream_of r recs /\ to_come vals recs /\
      forall k, (k ∈ map keys vals <-> k ∈ sent \/ k ∈ map key_of recs) /\ (k ∈ sent -> k ∉ map key_of recs)
  end.
(** Records for keys that had not been sent. *)
Definition sends (vals : list Value) (sent ks : list key) (out : list Value) : Prop :=
  Forall2 (summary vals) ks out /\ NoDup ks /\ forall k, k ∈ ks -> k ∈ map keys vals /\ k ∉ sent.

Lemma with_key_nil k recs : with_key k recs = [] <-> k ∉ map key_of recs.
Proof.
  unfold with_key. split.
  - intros H Hin. apply list_elem_of_fmap in Hin as (v & -> & Hv). assert (Hf : v ∈ filter (fun w => key_of w = key_of v) recs) by (by apply list_elem_of_filter).
    rewrite H in Hf. by apply not_elem_of_nil in Hf.
  - intros H. apply filter_none, Forall_forall. intros v Hv <-. apply H. by apply list_elem_of_fmap_2.
Qed.
Lemma files_to_come recs past : files recs past -> to_come past (sort recs) /\ forall k, k ∈ map keys past <-> k ∈ map key_of (sort recs).
Proof.
  intros [Hk Hm]. assert (Hsk : forall k, with_key k (sort recs) = with_key k recs).
  { intros k. destruct (with_key k recs) as [|v l] eqn:E; [unfold with_key; by apply Permutation_nil_r; rewrite stable_sort_perm; unfold with_key in E; rewrite E|].
    assert (Hv : v ∈ with_key k recs) by (rewrite E; left). rewrite <- E. apply list_elem_of_filter in Hv as [Hkey Hv]. rewrite Forall_forall in Hk.
    assert (Hz : forall l, Forall kept l -> with_key k l = List.filter (fun w => order v w =? 0) l).
    { induction 1 as [|w l' Hw _ IH]; [done|]. unfold with_key in *. rewrite filter_cons. cbn [List.filter]. rewrite IH. pose proof (kept_order v w (Hk v Hv) Hw) as Hvw.
      destruct (Z.eqb_spec (order v w) 0) as [E0|E0]; [rewrite decide_True by (rewrite <- Hkey; symmetry; by apply Hvw); done|].
      rewrite decide_False; [done|]. intros Ew. apply E0, Hvw. congruence. }
    rewrite !Hz by (rewrite ?stable_sort_perm; by apply Forall_forall). apply stable_sort_stable; [apply order_anti|apply order_tr]. }
  split; [split; [by rewrite stable_sort_perm|]|].
  - intros k. rewrite Hsk. by right.
  - intros k. pose proof (Hm k) as H. rewrite <- Hsk in H. destruct (with_key k (sort recs)) as [|v l] eqn:E; inversion H as [|? ? vs vals' _ Hne _ E1 E2]; subst.
    + apply with_key_nil in E. symmetry in H0. apply select_nil in H0. tauto.
    + split; intros _.
      * destruct (decide (k ∈ map key_of (sort recs))) as [?|Hn]; [done|]. apply with_key_nil in Hn. by rewrite Hn in E.
      * destruct (decide (k ∈ map keys past)) as [?|Hn]; [done|]. apply select_nil in Hn. rewrite Hn in E2. by destruct vs.
Qed.

Lemma read_empty partials t c : table t = [] -> readTable true partials (t, c) = (Ok None, (t, c)).
Proof.
  intros Ht. unfold Groupby.readTable. rewrite tab_l. cbn [fst]. rewrite Ht.
  pose proof (Hiteration _ (@nil (list byte * Row (Sketch := Sketch)))) as Hp. apply Permutation_nil_r in Hp. by rewrite Hp.
Qed.
Lemma spill_empty eof t c : table t = [] -> spillTable eof (t, c) = (Ok tt, (t, c)).
Proof. intros Ht. unfold Groupby.spillTable. by rewrite (stm_bind_Ok _ _ _ _ _ (read_empty true t c Ht)). Qed.

Lemma sends_nil vals sent : sends vals sent [] [].
Proof. split_and!; [constructor|constructor|by intros k ?%not_elem_of_nil]. Qed.
Lemma left_next n t c vals sent v recs r : kpaths <> [] ->
  ready n t c -> table t = [] -> spiller t = Some r -> stream_of r (without_key (key_of v) (v :: recs)) -> to_come vals (v :: recs) ->
  (forall k, (k ∈ map keys vals <-> k ∈ sent \/ k ∈ map key_of (v :: recs)) /\ (k ∈ sent -> k ∉ map key_of (v :: recs))) ->
  left n t c vals (sent ++ [key_of v]).
Proof.
  intros Hne Hr Et Es Hst Hcome Hkeys. split; [done|]. split; [done|].
  rewrite Es. split; [done|]. exists (without_key (key_of v) (v :: recs)). split_and!; [done|by apply to_come_without|].
  assert (Hin : forall k, k ∈ map key_of (without_key (key_of v) (v :: recs)) <-> k <> key_of v /\ k ∈ map key_of (v :: recs)).
  { intros k. unfold without_key. split.
    - intros (w & -> & [Hw Hin]%list_elem_of_filter)%list_elem_of_fmap. split; [done|by apply list_elem_of_fmap_2].
    - intros [Hk (w & -> & Hw)%list_elem_of_fmap]. apply list_elem_of_fmap_2. by apply list_elem_of_filter. }
  intros k. destruct (Hkeys k) as [Hk1 Hk2]. rewrite Hin, elem_of_app, list_elem_of_singleton, Hk1. split; [|tauto].
  split; [|intros [[?| ->]|[? ?]]; [by left|right; left|by right]]. intros [?|?]; [tauto|]. destruct (decide (k = key_of v)); tauto.
Qed.

Lemma read_spills_spec m : forall n t c vals sent, left n t c vals sent -> is_Some (spiller t) -> (forall k, fit (select k vals)) ->
  exists ks out t' c', read_spills m true (t, c) = (Ok out, (t', c')) /\ sends vals sent ks out /\ left n t' c' vals (sent ++ ks) /\
    grows c c' /\ Forall (fun v => member c' (v_type v)) out /\ (m <> 0%nat -> out = [] -> forall k, k ∈ map keys vals -> k ∈ sent).
Proof.
  induction m as [|m IH]; intros n t c vals sent Hl [r Es] Hf.
  { exists [], [], t, c. rewrite app_nil_r. split; [done|]. split; [apply sends_nil|]. by split_and!. }
  pose proof Hl as (Hr & Ht & Hs). rewrite Es in Hs. destruct Hs as (Hne & recs & Hst & Hcome & Hkeys).
  cbn [Groupby.read_spills negb andb]. rewrite stm_ret_l. cbn iota. pose proof (next_from_spills n t c r recs vals Hne Hr Es Hst Hcome Hf) as Hnext. destruct recs as [|v recs].
  - rewrite (stm_bind_Ok _ _ _ _ _ Hnext). exists [], [], t, c. rewrite app_nil_r. split; [done|]. split; [apply sends_nil|]. split_and!; try done.
    intros _ _ k Hk. apply (proj1 (Hkeys k)) in Hk as [?|?%not_elem_of_nil]; done.
  - destruct Hnext as (rec & t1 & c1 & r1 & E1 & Hsum & Hm & Hr1 & Hg1 & Et1 & _ & Es1 & Hst1). rewrite (stm_bind_Ok _ _ _ _ _ E1).
    assert (Hl1 : left n t1 c1 vals (sent ++ [key_of v])).
    { apply (left_next n t1 c1 vals sent v recs r1); try done. by rewrite Et1. }
    destruct (IH n t1 c1 vals _ Hl1) as (ks & out & t2 & c2 & E2 & (Hsums & Hnd & Hks) & Hl2 & Hg2 & Hms & _); [by rewrite Es1|done|].
    rewrite (stm_bind_Ok _ _ _ _ _ E2). exists (key_of v :: ks), (rec :: out), t2, c2. rewrite <- app_assoc in Hl2. split_and!; try done.
    + split_and!; [by constructor| |].
      * apply NoDup_cons. split; [|done]. intros Hin. apply Hks in Hin as [_ Hn]. apply Hn, elem_of_app. right. by apply list_elem_of_singleton.
      * intros k [->|Hin]%elem_of_cons; [|by apply Hks in Hin as [? Hn]; rewrite elem_of_app in Hn; tauto].
        destruct (Hkeys (key_of v)) as [H1 H2]. assert (key_of v ∈ map key_of (v :: recs)) by left. split; [by apply H1; right|by intros ?%H2].
    + by transitivity c1.
    + constructor; [by eapply member_grows|done].
Qed.

(** The results at the end of the input, one batch after the other. *)
Definition drains (n : nat) (t : Table) (c : Context) (vals : list Value) (sent : list key) : Prop :=
  taken n t c vals /\ sent = [] \/ left n t c vals sent.
Lemma nextResult_left n t c vals sent : left n t c vals sent -> (forall k, fit (select k vals)) ->
  exists ks out t' c', nextResult true (t, c) = (Ok (match out with [] => None | _ => Some out end), (t', c')) /\ sends vals sent ks out /\
    left n t' c' vals (sent ++ ks) /\ grows c c' /\ Forall (fun v => member c' (v_type v)) out /\ (out = [] -> forall k, k ∈ map keys vals -> k ∈ sent).
Proof.
  intros Hl Hf. unfold Groupby.nextResult. rewrite tab_l. cbn [fst]. pose proof Hl as (Hr & Ht & Hs). rewrite (proj2 (proj2 (pc_plain HC))).
  destruct (spiller t) as [r|] eqn:Es.
  - rewrite (stm_bind_Ok _ _ _ _ _ (spill_empty true t c Ht)). unfold readSpills. cbn [negb andb].
    destruct (read_spills_spec BatchLen n t c vals sent Hl) as (ks & out & t1 & c1 & E & Hout & Hl1 & Hg & Hm & Hend); [by rewrite Es|done|].
    rewrite (stm_bind_Ok _ _ _ _ _ E). exists ks, out, t1, c1. split_and!; try done. by apply Hend.
  - exists [], [], t, c. rewrite app_nil_r. split; [by apply read_empty|]. split; [apply sends_nil|]. by split_and!.
Qed.
Lemma nextResult_spec n t c vals sent : drains n t c vals sent -> fine vals ->
  exists ks out t' c', nextResult true (t, c) = (Ok (match out with [] => None | _ => Some out end), (t', c')) /\ sends vals sent ks out /\
    left n t' c' vals (sent ++ ks) /\ grows c c' /\ Forall (fun v => member c' (v_type v)) out /\ (out = [] -> forall k, k ∈ map keys vals -> k ∈ sent).
Proof.
  intros [[(Hr & ks & past & cur & -> & Ht & Hsp) ->]|Hl] Hfine; [|by apply nextResult_left; [|apply Hfine]].
  destruct (fine_app _ _ Hfine) as [_ [Hkc Hfc]]. apply Forall_and in Hkc as [Hkc Hoc].
  unfold Groupby.nextResult. rewrite tab_l. cbn [fst]. rewrite (proj2 (proj2 (pc_plain HC))). destruct (spiller t) as [r|] eqn:Es.
  - pose proof Hsp as [Hne _]. rewrite <- Es in Hsp.
    destruct (spillTable_spec true t c n ks past cur Hr Ht Hkc Hoc Hfc) as (t1 & c1 & E1 & Hr1 & Hg1 & _ & Ht1 & Hsp1 & Hn1); [done|by left|].
    rewrite (stm_bind_Ok _ _ _ _ _ E1). destruct (spiller t1) as [r1|] eqn:Es1; [|by rewrite Hn1 in Es]. destruct Hsp1 as (_ & ss & Hh & Hfs).
    destruct (files_to_come _ _ Hfs) as [Hcome Hkeys].
    assert (Hl : left n t1 c1 (past ++ cur) []).
    { split; [done|]. split; [done|]. rewrite Es1. split; [done|]. exists (sort (concat ss)). split_and!; [by exists ss|done|].
      intros k. rewrite Hkeys. pose proof (not_elem_of_nil k). tauto. }
    unfold readSpills. cbn [negb andb].
    destruct (read_spills_spec BatchLen n t1 c1 (past ++ cur) [] Hl) as (ks1 & out & t2 & c2 & E2 & Hout & Hl2 & Hg2 & Hm2 & Hend); [by rewrite Es1|apply Hfine|].
    rewrite (stm_bind_Ok _ _ _ _ _ E2). exists ks1, out, t2, c2. split_and!; try done; [by transitivity c1|by apply Hend].
  - cbn [spilled] in Hsp. subst past. cbn [app] in *.
    destruct (readTable_spec false t c n ks cur Hr Ht Hkc Hfc) as (ks1 & out & t1 & c1 & E1 & (Hnd & Hin & Hsum) & Hr1 & Hg1 & Ht1 & _ & Hs1 & Hm1).
    exists ks1, out, t1, c1. split_and!; try done.
    + split_and!; [done..|]. intros k Hk. split; [by apply Hin|apply not_elem_of_nil].
    + split; [done|]. split; [done|]. rewrite Hs1, Es. intros k Hk. by apply Hin.
    + intros ->. inversion Hsum; subst. intros k Hk. by apply Hin.
Qed.

(** *** The operator *)

Section operator.
Context {E P : Type} (hang : E) (error : groupby_error -> E) (parent : Puller (E := E) P) (R : P -> list Value -> later_t -> Prop) `{HP : !Pulls parent R}.

(** A parent that does without the context. *)
Definition apart : Puller (E := E) (P * Context) := fun done s => let '(b, p) := parent done s.1 in (b, (p, s.2)).
Local Abbreviation Op := (Op (Sketch := Sketch) (E := E)).
Local Abbreviation pulling := (pulling to32 of32 to16 of16 nan float_to_int float_to_uint ParseFloat64 (@iteration) Insert
  Merge Estimate MarshalBinary UnmarshalBinary MaxValueSize sort_entries hang error apart a).
Local Abbreviation draining := (draining to32 of32 to16 of16 nan float_to_int float_to_uint ParseFloat64 (@iteration) Insert
  Merge Estimate MarshalBinary UnmarshalBinary MaxValueSize sort_entries (P := P) hang error a).
Local Abbreviation group_Pull := (group_Pull to32 of32 to16 of16 nan float_to_int float_to_uint ParseFloat64 (@iteration) Insert
  Merge Estimate MarshalBinary UnmarshalBinary MaxValueSize sort_entries hang error apart a).

Lemma try_up_l {A} (f : _ -> stm (Op * (P * Context)) E A) (op : Op) p c r p' : parent false p = (Ok r, p') ->
  (try_up apart false ≫= f) (op, (p, c)) = f (inr r) (op, (p', c)).
Proof. intros H. unfold mbind, stm_bind, try_up, up, apart. cbn [fst snd]. by rewrite H. Qed.
Lemma on_agg_l {A B} (m : G A) (f : _ -> stm (Op * (P * Context)) E B) (op : Op) p c x t' c' : m (o_agg op, c) = (Ok x, (t', c')) ->
  (on_agg hang error m ≫= f) (op, (p, c)) = f (inr x) (mkOp t' (o_stage op), (p, c')).
Proof. intros H. unfold mbind, stm_bind, on_agg. cbn [fst snd]. by rewrite H. Qed.

(** A result at the end of the input. *)
Definition offers (n : nat) (vals : list Value) (sent : list key) (c : Context) (m : outcome E (@offer E) * (Op * (P * Context))) (p : P) : Prop :=
  exists ks out op' c', m = (Ok (inr (match out with [] => None | _ => Some out end), match out with [] => Pulling | _ => Draining end), (op', (p, c'))) /\
    sends vals sent ks out /\ left n (o_agg op') c' vals (sent ++ ks) /\ grows c c' /\ Forall (fun v => member c' (v_type v)) out /\
    (out = [] -> forall k, k ∈ map keys vals -> k ∈ sent).
Lemma draining_spec n op p c vals sent : drains n (o_agg op) c vals sent -> fine vals -> offers n vals sent c (draining (op, (p, c))) p.
Proof.
  intros Hd Hf. destruct (nextResult_spec n _ c vals sent Hd Hf) as (ks & out & t' & c' & E1 & Hs & Hl & Hg & Hm & Hend).
  unfold Groupby.draining. rewrite (on_agg_l _ _ _ _ _ _ _ _ E1). exists ks, out, (mkOp t' (o_stage op)), c'. split; [by destruct out|]. by split_and!.
Qed.
Lemma offers_grows n vals sent c c' m p : grows c c' -> offers n vals sent c' m p -> offers n vals sent c m p.
Proof. intros Hg (ks & out & op' & c2 & -> & Hs & Hl & Hg2 & H). exists ks, out, op', c2. split_and!; try done; [by transitivity c'|apply H..]. Qed.

Lemma pulling_spec fuel : forall n op p c seen cur l, R p cur l -> taken n (o_agg op) c seen -> fine (seen ++ cur) -> (length cur < fuel)%nat ->
  Z.of_nat (n + length cur) < 2 ^ 64 ->
  exists p', offers (n + length cur) (seen ++ cur) [] c (pulling fuel (op, (p, c))) p' /\ R p' (l 0%nat) (rest l).
Proof.
  induction fuel as [|fuel IH]; intros n op p c seen cur l HR Ht Hf Hn Hz; [lia|]. cbn [Groupby.pulling].
  destruct (HP p cur l HR) as [(-> & p' & Ep & HR')|(b & cur' & p' & -> & Hb & Ep & HR')]; rewrite (try_up_l _ _ _ _ _ _ Ep).
  - exists p'. split; [|done]. rewrite Nat.add_0_r, app_nil_r in *. apply draining_spec; [by left|done].
  - rewrite app_assoc, length_app in *. destruct (fine_app _ _ Hf) as [Hf1 _].
    destruct (consume_batch_spec b n (o_agg op) c seen Ht Hf1) as (t' & c' & E1 & Ht' & Hg); [lia|].
    rewrite (on_agg_l _ _ _ _ _ _ _ _ E1), (proj1 (pc_plain HC)). cbn [Z.eqb].
    destruct (IH (n + length b)%nat (mkOp t' (o_stage op)) p' c' (seen ++ b) cur' l HR' Ht' Hf) as (p2 & Ho & HR2); [destruct b; [done|cbn in Hn; lia]|lia|].
    exists p2. split; [|done]. rewrite Nat.add_assoc. by eapply offers_grows.
Qed.

Lemma sends_app vals sent ks out ks' out' : sends vals sent ks out -> sends vals (sent ++ ks) ks' out' -> sends vals sent (ks ++ ks') (out ++ out').
Proof.
  intros (Hs & Hnd & Hk) (Hs' & Hnd' & Hk'). split_and!.
  - by apply Forall2_app.
  - apply NoDup_app. split_and!; [done| |done]. intros k Hin Hin'. apply Hk' in Hin' as [_ Hn]. apply Hn, elem_of_app. by right.
  - intros k [Hin|Hin]%elem_of_app; [by apply Hk|]. apply Hk' in Hin as [? Hn]. rewrite elem_of_app in Hn. tauto.
Qed.
(** Nothing is left, and the next stream can come. *)
Lemma left_again n t c vals sent : left n t c vals sent -> (forall k, k ∈ map keys vals -> k ∈ sent) -> taken n t c [].
Proof.
  intros (Hr & Ht & Hs) Hall. split; [done|]. exists [], [], []. rewrite Ht. split; [done|]. split; [apply tabled_nil|].
  destruct (spiller t) as [r|]; [|done]. destruct Hs as (Hne & recs & (ss & Hh & ->) & _ & Hkeys). split; [done|]. exists ss. split; [done|].
  assert (concat ss = []) as ->.
  { destruct (concat ss) as [|v l]; [done|]. destruct (Hkeys (key_of v)) as [H1 H2].
    assert (Hin : key_of v ∈ map key_of (sort (v :: l))) by (apply list_elem_of_fmap_2; rewrite stable_sort_perm; left).
    exfalso. apply H2; [|done]. apply Hall, H1. by right. }
  split; [constructor|]. intros k. constructor.
Qed.

Section pulls.
Context (fuel : nat).
Local Abbreviation next_offer := (next_offer to32 of32 to16 of16 nan float_to_int float_to_uint ParseFloat64 (@iteration) Insert
  Merge Estimate MarshalBinary UnmarshalBinary MaxValueSize sort_entries hang error apart a fuel).

Lemma pull_offer n vals sent c op p p' : offers n vals sent c (next_offer (op, (p, c))) p' ->
  exists ks out op' c', group_Pull fuel false (op, (p, c)) = (Ok (match out with [] => None | _ => Some out end), (op', (p', c'))) /\
    o_stage op' = (match out with [] => Pulling | _ => Draining end) /\ sends vals sent ks out /\ left n (o_agg op') c' vals (sent ++ ks) /\ grows c c' /\
    Forall (fun v => member c' (v_type v)) out /\ (out = [] -> forall k, k ∈ map keys vals -> k ∈ sent).
Proof.
  intros (ks & out & op' & c' & E1 & Hs & Hl & Hg & Hm & Hend). exists ks, out, (mkOp (o_agg op') (match out with [] => Pulling | _ => Draining end)), c'.
  unfold Groupby.group_Pull. rewrite (stm_bind_Ok _ _ _ _ _ E1). by split_and!.
Qed.
(** The rest of a stream, once its first result is out. *)
Lemma stream_rest m : forall n op p c vals sent, o_stage op = Draining -> left n (o_agg op) c vals sent -> fine vals -> NoDup sent ->
  (forall k, k ∈ sent -> k ∈ map keys vals) -> (length vals < length sent + m)%nat ->
  exists ks out op' c', stream hang m (group_Pull fuel) (op, (p, c)) = (Ok out, (op', (p, c'))) /\ o_stage op' = Pulling /\
    sends vals sent ks out /\ (forall k, k ∈ map keys vals -> k ∈ sent ++ ks) /\ taken n (o_agg op') c' [] /\ grows c c' /\
    Forall (fun v => member c' (v_type v)) out.
Proof.
  induction m as [|m IH]; intros n op p c vals sent Hst Hl Hf Hnd Hsub Hm.
  { pose proof (submseteq_length _ _ (NoDup_submseteq _ _ Hnd Hsub)) as Hlen. rewrite length_map in Hlen. lia. }
  destruct (pull_offer n vals sent c op p p) as (ks & out & op1 & c1 & E1 & Est & Hs & Hl1 & Hg1 & Hm1 & Hend).
  { unfold Groupby.next_offer. rewrite own_l. cbn [fst]. rewrite Hst. by apply draining_spec; [right|]. }
  cbn [stream]. rewrite (stm_bind_Ok _ _ _ _ _ E1). destruct out as [|v out].
  - destruct Hs as (Hs & _). inversion Hs; subst. rewrite app_nil_r in *. exists [], [], op1, c1. rewrite app_nil_r. split; [done|].
    split; [done|]. split; [apply sends_nil|]. split_and!; try done; [by apply Hend|]. by eapply left_again; [|apply Hend].
  - assert (Hlk : (0 < length ks)%nat) by (destruct Hs as (Hs & _); rewrite (Forall2_length _ _ _ Hs); cbn; lia).
    destruct (IH n op1 p c1 vals (sent ++ ks)) as (ks2 & out2 & op2 & c2 & E2 & Est2 & Hs2 & Hall & Hl2 & Hg2 & Hm2); try done.
    + destruct Hs as (_ & Hndk & Hk). apply NoDup_app. split_and!; [done| |done]. intros k Hin Hin'. by apply Hk in Hin' as [_ ?].
    + intros k [Hin|Hin]%elem_of_app; [by apply Hsub|]. destruct Hs as (_ & _ & Hk). by apply Hk.
    + rewrite length_app. lia.
    + rewrite (stm_bind_Ok _ _ _ _ _ E2). exists (ks ++ ks2), ((v :: out) ++ out2), op2, c2. split; [done|]. split; [done|]. split; [by apply sends_app|].
      split_and!; [by rewrite app_assoc|done|by transitivity c1|]. apply Forall_app. split; [|done].
      eapply Forall_impl; [exact Hm1|]. intros w Hw. by eapply member_grows.
Qed.
Lemma stream_start m n op p c cur l : R p cur l -> o_stage op = NotStarted \/ o_stage op = Pulling -> taken n (o_agg op) c [] -> fine cur ->
  (length cur < fuel)%nat -> (length cur < m)%nat -> Z.of_nat (n + length cur) < 2 ^ 64 ->
  exists ks out op' p' c', stream hang m (group_Pull fuel) (op, (p, c)) = (Ok out, (op', (p', c'))) /\ o_stage op' = Pulling /\ grouped cur ks out /\
    taken (n + length cur) (o_agg op') c' [] /\ R p' (l 0%nat) (rest l) /\ grows c c' /\ Forall (fun v => member c' (v_type v)) out.
Proof.
  intros HR Hst Ht Hf Hfuel Hm Hz. destruct (pulling_spec fuel n op p c [] cur l HR Ht Hf Hfuel Hz) as (p' & Ho & HR').
  destruct (pull_offer (n + length cur) cur [] c op p p') as (ks & out & op1 & c1 & E1 & Est & Hs & Hl1 & Hg1 & Hm1 & Hend).
  { unfold Groupby.next_offer. rewrite own_l. cbn [fst]. destruct Hst as [-> | ->]; exact Ho. }
  destruct m as [|m]; [lia|]. cbn [stream]. rewrite (stm_bind_Ok _ _ _ _ _ E1). pose proof Hs as (Hsum & Hnd & Hk). destruct out as [|v out].
  - inversion Hsum; subst. exists [], [], op1, p', c1. cbn [app] in *. split_and!; try done; [|by eapply left_again; [|apply Hend]].
    split_and!; [constructor| |constructor]. intros k. split; [by intros ?%not_elem_of_nil|by apply Hend].
  - assert (Hlk : (0 < length ks)%nat) by (rewrite (Forall2_length _ _ _ Hsum); cbn; lia).
    destruct (stream_rest m _ op1 p' c1 cur ks Est Hl1 Hf Hnd) as (ks2 & out2 & op2 & c2 & E2 & Est2 & Hs2 & Hall & Hl2 & Hg2 & Hm2); [intros k Hin; by apply Hk|lia|].
    rewrite (stm_bind_Ok _ _ _ _ _ E2). exists (ks ++ ks2), ((v :: out) ++ out2), op2, p', c2. split; [done|]. split; [done|].
    destruct (sends_app cur [] ks _ ks2 out2 Hs Hs2) as (Hsum3 & Hnd3 & Hk3). split_and!; try done; [|by transitivity c1|].
    + split_and!; [done| |done]. intros k. split; [|by apply Hall]. intros Hi. by apply Hk3.
    + apply Forall_app. split; [|done]. eapply Forall_impl; [exact Hm1|]. intros w Hw. by eapply member_grows.
Qed.

(** The streams of a parent, the current one first. *)
Definition stream_at (cur : list Value) (l : later_t) (i : nat) : list Value := match i with O => cur | S i => l i end.
Lemma streams_grouped m count : forall n op p c cur l, R p cur l -> o_stage op = NotStarted \/ o_stage op = Pulling -> taken n (o_agg op) c [] ->
  always (fun vals => fine vals /\ (length vals < fuel)%nat /\ (length vals < m)%nat) cur l ->
  Z.of_nat (n + length (concat (map (stream_at cur l) (seq 0 count)))) < 2 ^ 64 ->
  exists outs op' p' c', streams hang m count (group_Pull fuel) (op, (p, c)) = (Ok outs, (op', (p', c'))) /\ wf c' /\ grows c c' /\
    Forall2 (fun vals out => (exists ks, grouped vals ks out) /\ Forall (fun v => member c' (v_type v)) out) (map (stream_at cur l) (seq 0 count)) outs.
Proof.
  induction count as [|count IH]; intros n op p c cur l HR Hst Ht Ha Hz.
  { exists [], op, p, c. split_and!; [done|apply Ht|done|constructor]. }
  change (seq 0 (S count)) with (0%nat :: seq 1 count) in *. cbn [map concat stream_at] in *. rewrite length_app in Hz.
  assert (Eseq : map (stream_at cur l) (seq 1 count) = map (stream_at (l 0%nat) (rest l)) (seq 0 count)).
  { rewrite <- seq_shift, map_map. apply map_ext. by intros [|i]. }
  rewrite Eseq in *. destruct Ha as [(Hf & Hfu & Hm) Ha].
  destruct (stream_start m n op p c cur l HR Hst Ht Hf Hfu Hm) as (ks & out & op1 & p1 & c1 & E1 & Est1 & Hgr & Ht1 & HR1 & Hg1 & Hm1); [lia|].
  destruct (IH (n + length cur)%nat op1 p1 c1 (l 0%nat) (rest l) HR1) as (outs & op2 & p2 & c2 & E2 & Hc2 & Hg2 & Houts); [by right|exact Ht1| |lia|].
  { split; [apply Ha|]. intros i. apply Ha. }
  exists (out :: outs), op2, p2, c2. cbn [streams]. rewrite (stm_bind_Ok _ _ _ _ _ E1), (stm_bind_Ok _ _ _ _ _ E2).
  split_and!; [done|done|by transitivity c1|]. constructor; [|done]. split; [by exists ks|].
  eapply Forall_impl; [exact Hm1|]. intros w Hw. by eapply member_grows.
Qed.
End pulls.
End operator.
End aggregator.
End groupby.

#[global] Arguments l_agg {to32 of32 to16 of16 nan float_to_int float_to_uint ParseFloat64 iteration Sketch Insert Merge Estimate MarshalBinary UnmarshalBinary MaxValueSize sort_entries zctx bound} _.
#[global] Arguments together {to32 of32 to16 of16 nan float_to_int float_to_uint ParseFloat64 iteration Sketch Insert Merge Estimate MarshalBinary UnmarshalBinary MaxValueSize sort_entries zctx bound} _ _.
#[global] Arguments answer {to32 of32 to16 of16 nan float_to_int float_to_uint ParseFloat64 iteration Sketch Insert Merge Estimate MarshalBinary UnmarshalBinary MaxValueSize sort_entries zctx bound} _ _ _.
