(* ===== verification/GroupbyLaws.v ===== *)
(** * Group-by: the aggregate functions that it can combine *)

From S2P Require Import Prelude Zcode Types Context Interning Primitive Values Compare.
From S2P Require Import Expr Spill Agg AggProofs RecordBuilder Groupby GroupbyProofs.
Local Open Scope Z_scope.

Section laws.
Context (to32 of32 to16 of16 : Z -> Z) (nan : Z -> Z -> Z) (float_to_int float_to_uint : Z -> Z).
Context (ParseFloat64 : list byte -> option Z) (iteration : forall {A : Type}, list A -> list A).
Context {Sketch : Type} (Insert : list byte -> Sketch -> Sketch) (Merge : Sketch -> Sketch -> Sketch)
  (Estimate : Sketch -> Z) (MarshalBinary : Sketch -> list byte) (UnmarshalBinary : list byte -> option Sketch).
Context (MaxValueSize : Z) (sort_entries : list (list byte * list byte) -> list (list byte * list byte)).
Context (zctx : Context) (bound : Z).
Local Abbreviation Aggregator := (Aggregator (Sketch := Sketch)).
Local Abbreviation Apply := (Agg.Apply to32 of32 to16 of16 nan float_to_int float_to_uint ParseFloat64 (@iteration) Insert MaxValueSize (EvalBool to32 to16)).
Local Abbreviation Consume := (Agg.Consume to32 of32 to16 of16 nan float_to_int float_to_uint ParseFloat64 (@iteration) Insert MaxValueSize).
Local Abbreviation consume_all := (AggProofs.consume_all to32 of32 to16 of16 nan float_to_int float_to_uint ParseFloat64 (@iteration) Insert MaxValueSize).
Local Abbreviation Result := (Agg.Result to32 to16 nan (@iteration) Estimate sort_entries).
Local Abbreviation combines := (combines to32 to16 MaxValueSize).
Local Abbreviation law := (law to32 of32 to16 of16 nan float_to_int float_to_uint ParseFloat64 (@iteration) Insert Merge Estimate MarshalBinary
  UnmarshalBinary MaxValueSize sort_entries zctx bound).

Local Abbreviation stands := (AggProofs.stands to32 of32 to16 of16 nan float_to_int float_to_uint ParseFloat64 (@iteration) Insert Merge Estimate
  MarshalBinary UnmarshalBinary MaxValueSize sort_entries).
Local Abbreviation fits := (AggProofs.fits to32 of32 to16 of16 nan float_to_int float_to_uint ParseFloat64 (@iteration) Insert Merge Estimate
  MarshalBinary UnmarshalBinary MaxValueSize sort_entries).

Local Abbreviation fits_grows := (AggProofs.fits_grows to32 of32 to16 of16 nan float_to_int float_to_uint ParseFloat64 (@iteration) Insert Merge Estimate
  MarshalBinary UnmarshalBinary MaxValueSize sort_entries).
Local Abbreviation d_consume := (AggProofs.d_consume to32 of32 to16 of16 nan float_to_int float_to_uint ParseFloat64 (@iteration) Insert Merge Estimate
  MarshalBinary UnmarshalBinary MaxValueSize sort_entries).
Local Abbreviation d_partial := (AggProofs.d_partial to32 of32 to16 of16 nan float_to_int float_to_uint ParseFloat64 (@iteration) Insert Merge Estimate
  MarshalBinary UnmarshalBinary MaxValueSize sort_entries).
Local Abbreviation d_result := (AggProofs.d_result to32 of32 to16 of16 nan float_to_int float_to_uint ParseFloat64 (@iteration) Insert Merge Estimate
  MarshalBinary UnmarshalBinary MaxValueSize sort_entries).
Local Abbreviation consume_all_stands := (AggProofs.consume_all_stands to32 of32 to16 of16 nan float_to_int float_to_uint ParseFloat64 (@iteration) Insert Merge Estimate
  MarshalBinary UnmarshalBinary MaxValueSize sort_entries).
Local Abbreviation d_start := (AggProofs.d_start to32 of32 to16 of16 nan float_to_int float_to_uint ParseFloat64 (@iteration) Insert Merge Estimate
  MarshalBinary UnmarshalBinary MaxValueSize sort_entries).

(** What the aggregation consumes of a value: its argument, which is there. *)
Definition has_argument (g : Aggregator) (arg : Value -> Value) (v : Value) : Prop :=
  sized to32 to16 zctx bound (arg v) /\
  forall f c, wf c -> grows zctx c -> Apply g f v c = (f ← lift (Consume (arg v) f); mret f) c.
(** What a fresh function that consumed the arguments one by one answers with. *)
Definition answers (g : Aggregator) (arg : Value -> Value) (vs : list Value) (d : ty * bytes) : Prop :=
  exists f c c', consume_all (map arg vs) (pattern g) = Ok f /\ wf c /\ grows zctx c /\ raw_of to32 to16 (Result f) c = Ok (NewValue d.1 d.2, c').

Lemma raw_of_inv m c p c' : raw_of to32 to16 m c = Ok (p, c') ->
  exists v b, m c = Ok (v, c') /\ val_bytes_ to32 to16 v = Ok b /\ p = NewValue (v_type v) b.
Proof.
  unfold raw_of, mbind, M_bind. destruct (m c) as [[v c1]| |]; try done. cbn [mbind outcome_bind obind]. unfold lift, reread, val_bytes_.
  destruct (no_error (Value_Bytes to32 to16 v)) as [b| |] eqn:Eb; try done. cbn [mbind outcome_bind obind]. intros [= <- <-]. exists v, b. by rewrite Eb.
Qed.

Lemma law_of (g : Aggregator) arg ok : combines (pattern g) ok -> 8 <= bound -> 2 * MaxValueSize <= bound ->
  exists l : law, l_agg l = g /\ (forall vs, Forall (has_argument g arg) vs -> ok zctx (map arg vs) -> together l vs) /\
    forall vs d, answer l vs d -> answers g arg vs d.
Proof.
  intros Hcomb Hb HMax. destruct (combines_laws to32 of32 to16 of16 nan float_to_int float_to_uint ParseFloat64 (@iteration) Insert Merge Estimate
    MarshalBinary UnmarshalBinary MaxValueSize sort_entries _ ok bound Hcomb Hb HMax) as (D & Hok & Hres & Hsize).
  unshelve eexists.
  { refine {| l_agg := g; consumed f vs := stands f (map arg vs); together vs := Forall (has_argument g arg) vs /\ fits zctx (map arg vs);
              answer := answers g arg |}.
    - intros x y [[Hx Hy]%Forall_app Hf]. rewrite map_app in Hf. apply fits_app in Hf as [? ?]. done.
    - apply d_start.
    - intros f vs v c Hc Hg Hf [[_ [Hv _]%Forall_cons]%Forall_app Hfit]. rewrite map_app in *. destruct (d_consume f _ (arg v) zctx Hf Hfit) as (f' & E & Hf').
      exists f'. destruct Hv as [_ Hv]. rewrite Hv by done. unfold lift. rewrite E. done.
    - intros f vs c Hc Hg Hne Hf [Ha Hfit]. pose proof (fits_grows _ _ _ Hg Hfit) as Hfc.
      destruct (d_partial f _ c Hc Hf) as (p & c' & Ep & Hc' & Hg' & He & Hpart); [by destruct vs|done|].
      destruct (raw_of_inv _ _ _ _ Ep) as (v & b & Ev & Eb & ->). rewrite (Hres f _ Hf) in Ev, Ep. exists v, b, c'.
      assert (Hs : sized to32 to16 c' bound v).
      { apply (Hsize f (map arg vs) c); try done. apply Forall_map. eapply Forall_impl; [exact Ha|]. intros w [Hw _]. eapply sized_weaken; [exact Hg|apply Z.le_refl|exact Hw]. }
      assert (Eb' : Value_Bytes to32 to16 v = Ok b) by (unfold val_bytes_ in Eb; destruct (Value_Bytes to32 to16 v) as [x|[]|]; [cbn in Eb; congruence|done]).
      split_and!; try done; [by rewrite (Hres f _ Hf)|apply Hs|by apply Hs| |].
      + destruct (consume_all_stands (map arg vs) (pattern g) [] zctx d_start Hfit) as (f' & Ef' & Hf').
        exists f', c, c'. split_and!; try done. by rewrite (d_result f' f (map arg vs) c Hc Hf' Hf Hfc).
      + intros h seen Hh [_ Hfs]. rewrite map_app in *. by apply (Hpart h (map arg seen) zctx). }
  split_and!; [done| |done]. intros vs Ha Hvs. split; [done|by apply Hok].
Qed.
End laws.
