(* ===== verification/GroupbyProps.v ===== *)
(** * The property of group-by, and where it fails to be one *)

From Stdlib Require Import Strings.Byte.
From S2P Require Import Prelude OpsProofs Zcode Types Context Interning Primitive Values Compare CompareProofs.
From S2P Require Import Expr Spill Agg AggProofs RecordBuilder RecordBuilderProofs Ops Groupby GroupbyProofs GroupbyLaws.
Local Open Scope Z_scope.

Section groupby.
Context (to32 of32 to16 of16 : Z -> Z) (nan : Z -> Z -> Z) (float_to_int float_to_uint : Z -> Z).
Context (ParseFloat64 : list byte -> option Z) (iteration : forall {A : Type}, list A -> list A).
Context {Sketch : Type} (Insert : list byte -> Sketch -> Sketch) (Merge : Sketch -> Sketch -> Sketch)
  (Estimate : Sketch -> Z) (MarshalBinary : Sketch -> list byte) (UnmarshalBinary : list byte -> option Sketch).
Context (MaxValueSize : Z) (sort_entries : list (list byte * list byte) -> list (list byte * list byte)).
Context (FormatType : ty -> gostring) (lookup_text : lookup_error -> gostring) (walk_text : @walk_error unit -> gostring).
Local Abbreviation Aggregator := (Aggregator (Sketch := Sketch)).
Local Abbreviation evaluate := (eval to32 of32 to16 of16 nan float_to_int float_to_uint FormatType lookup_text walk_text sort_entries).
Local Abbreviation answers := (answers to32 of32 to16 of16 nan float_to_int float_to_uint ParseFloat64 (@iteration) Insert Estimate
  MaxValueSize sort_entries).
Local Abbreviation has_argument := (has_argument to32 of32 to16 of16 nan float_to_int float_to_uint ParseFloat64 (@iteration) Insert MaxValueSize).
Local Abbreviation group_Pull := (group_Pull to32 of32 to16 of16 nan float_to_int float_to_uint ParseFloat64 (@iteration) Insert
  Merge Estimate MarshalBinary UnmarshalBinary MaxValueSize sort_entries).

(** The evaluator of a path. *)
Definition dotted (p : path) : evaluator := fun v => evaluate [] v (NewDottedExpr p).
Definition reads_as (p : path) (rec : Value) (d : ty * bytes) : Prop := forall c, dotted p rec c = Ok (NewValue d.1 d.2, c).

(** An aggregation of a query: the path of its result, its function with its
    expression, and what that function takes of a value. *)
Record aggregation := mkAggregation {
  g_name : path; g_agg : Aggregator; g_arg : Value -> Value; g_ok : Context -> list Value -> Prop }.

Section query.
Context (keyed_by : list (path * evaluator)) (gs : list aggregation) (zctx : Context) (bound : Z) (keys : Value -> key).
Definition paths_of : list path := map fst keyed_by ++ map g_name gs.

(** Paths of fields that a record can have, and values for them that fit. *)
Record query_ok : Prop := {
  q_wf : wf zctx;
  q_fields : paths_of <> [] /\ short paths_of /\ Forall (Forall short) paths_of;
  q_room : foldr (fun p n => bound + 10 * zlen p + n) 0 paths_of < 2 ^ 62;
  q_bound : 8 <= bound < 2 ^ 62 /\ 2 * MaxValueSize <= bound;
  q_aggs : Forall (fun g => combines to32 to16 MaxValueSize (pattern (g_agg g)) (g_ok g)) gs }.

(** A value whose key expressions give its keys, none of them quiet, and which
    every aggregation has its argument of. *)
Definition key_value (e : evaluator) (v : Value) (d : ty * bytes) : Prop :=
  member zctx d.1 /\ zlen (default [] d.2) <= bound /\ sortable to32 to16 true zctx (compared to32 to16 d) /\
  forall c, wf c -> grows zctx c ->
    exists w, e v c = Ok (w, c) /\ IsQuiet to32 to16 w = Ok false /\ v_type w = d.1 /\ val_bytes_ to32 to16 w = Ok d.2.
Definition input_ok (v : Value) : Prop :=
  Forall2 (fun ke d => key_value ke.2 v d) keyed_by (keys v) /\ Forall (fun g => has_argument zctx bound (g_agg g) (g_arg g) v) gs.
(** The comparator takes two keys for the same, a missing one for null. *)
Definition same_order (k k' : key) : Prop :=
  Forall2 (fun d d' => compareValues to32 of32 to16 of16 true (compared to32 to16 d) (compared to32 to16 d') = Ok 0) k k'.

Definition with_keys (k : key) (vals : list Value) : list Value := filter (fun v => keys v = k) vals.
(** One record for each key of the values, with the key at the paths of the keys
    and, at that of each aggregation, what a fresh function answers when it has
    consumed the arguments of the values with the key. *)
Definition one_per_key (vals out : list Value) : Prop :=
  exists ks, NoDup ks /\ (forall k, k ∈ ks <-> k ∈ map keys vals) /\
    Forall2 (fun k rec => IsRecordType (v_type rec) = true /\
      Forall2 (fun ke d => reads_as ke.1 rec d) keyed_by k /\
      Forall (fun g => exists d, reads_as (g_name g) rec d /\ answers zctx (g_agg g) (g_arg g) (with_keys k vals) d) gs) ks out.

Local Abbreviation plain_config := (plain_config to32 of32 to16 of16 nan float_to_int float_to_uint ParseFloat64 (@iteration) Insert Merge Estimate
  MarshalBinary UnmarshalBinary MaxValueSize sort_entries zctx bound dotted).
Local Abbreviation law := (law to32 of32 to16 of16 nan float_to_int float_to_uint ParseFloat64 (@iteration) Insert Merge Estimate MarshalBinary
  UnmarshalBinary MaxValueSize sort_entries zctx bound).
Definition law_for (g : aggregation) (l : law) : Prop :=
  l_agg l = g_agg g /\ (forall vs, Forall (has_argument zctx bound (g_agg g) (g_arg g)) vs -> g_ok g zctx (map (g_arg g) vs) -> together l vs) /\
  forall vs d, answer l vs d -> answers zctx (g_agg g) (g_arg g) vs d.

Lemma laws_exist : query_ok -> exists laws, Forall2 law_for gs laws.
Proof.
  intros [_ _ _ [Hb HM] Hg]. induction Hg as [|g gs Hg _ [laws IH]]; [by exists []|].
  destruct (law_of to32 of32 to16 of16 nan float_to_int float_to_uint ParseFloat64 (@iteration) Insert Merge Estimate
    MarshalBinary UnmarshalBinary MaxValueSize sort_entries zctx bound (g_agg g) (g_arg g) (g_ok g) Hg) as (l & Hl); [lia|done|].
  exists (l :: laws). by constructor.
Qed.
Lemma data_room fields (data : list (ty * bytes)) : foldr (fun p n => bound + 10 * zlen p + n) 0 fields < 2 ^ 62 -> length data = length fields ->
  Forall (fun d : ty * bytes => zlen (default [] d.2) <= bound) data -> total snd 0 (zip fields data) < 2 ^ 62.
Proof.
  intros Hr Hl Hd. enough (total snd 0 (zip fields data) <= foldr (fun p n => bound + 10 * zlen p + n) 0 fields) by lia. clear Hr.
  revert data Hl Hd. induction fields as [|p fields IH]; intros [|d data] Hl Hd; try done. apply Forall_cons in Hd as [Hd Hds].
  specialize (IH data ltac:(by injection Hl) Hds). cbn [zip zip_with total foldr]. fold (total (A := ty * bytes) snd 0 (zip fields data)). unfold leaf_size.
  rewrite Nat.sub_0_r. cbn [fst snd]. unfold zlen in *. lia.
Qed.
Lemma paths_some (ks : list (path * evaluator)) : paths (map (fun ke => (Some ke.1, ke.2)) ks) = Ok (map fst ks).
Proof. induction ks as [|[p e] ks IH]; [done|]. cbn [map paths fst snd]. by rewrite IH. Qed.
Lemma New_plain evaluated limit a laws : query_ok -> Forall2 law_for gs laws ->
  New to32 to16 dotted evaluated (map (fun ke => (Some ke.1, ke.2)) keyed_by) (map g_name gs) (map g_agg gs) limit 0 false false = Ok a ->
  plain_config laws a (map fst keyed_by) (map g_name gs) /\ keyExprs a = map snd keyed_by /\
  keysComparator a = WithMissingAsNull to32 to16 (NewComparator true (map (fun e => mkSortEvaluator (evaluated e) false) (keyRefs a))).
Proof.
  intros [Hwf Hf Hroom [Hb HM] Hg] Hlaws. unfold New. rewrite paths_some. cbn [mbind outcome_bind obind].
  destruct (NewRecordBuilder _) as [b| |] eqn:Eb; try done. cbn [mbind outcome_bind obind omap_err].
  assert (E : forall refs es arefs aggs, NewAggregator (Sketch := Sketch) to32 to16 evaluated refs es arefs aggs b limit 0 false false =
    Ok (mkConfig refs es arefs aggs b (if limit =? 0 then DefaultLimit else limit) 0 None None
      (WithMissingAsNull to32 to16 (NewComparator true (map (fun e => mkSortEvaluator (evaluated e) false) refs))) false false)).
  { intros refs es arefs aggs. unfold NewAggregator. by destruct es. }
  rewrite E. intros [= <-]. split; [|split; [cbn [keyExprs]; by rewrite map_map|done]].
  split; cbn [builder keyExprs keyRefs aggRefs aggs inputDir partialsIn partialsOut]; try done.
  - by rewrite !length_map.
  - split; [|by rewrite length_map, (Forall2_length _ _ _ Hlaws)]. clear -Hlaws. induction Hlaws as [|g l gs laws (Hl & _) _ IH]; [done|]. cbn [map]. by rewrite Hl, IH.
  - lia.
  - intros data. by apply data_room.
Qed.

Lemma input_keyed (a : Config (Sketch := Sketch)) v : keyExprs a = map snd keyed_by -> input_ok v -> keyed to32 to16 zctx bound a keys v.
Proof.
  intros E [H _]. unfold keyed. rewrite E. clear E. induction H as [|ke d ks ds (Hm & Hb & _ & He) _ IH]; [constructor|]. cbn [map]. by constructor.
Qed.
Lemma input_key v : input_ok v ->
  key_ok zctx bound (map fst keyed_by) (keys v) /\ Forall (fun d => sortable to32 to16 true zctx (compared to32 to16 d)) (keys v).
Proof.
  intros [H _]. split; [split; [by rewrite length_map, <- (Forall2_length _ _ _ H)|]|];
    induction H as [|ke d ks ds (Hm & Hb & Hs & _) _ IH]; by constructor.
Qed.
Lemma same_order_le k k' : wf zctx -> length k = length k' -> Forall (fun d => sortable to32 to16 true zctx (compared to32 to16 d)) k ->
  Forall (fun d => sortable to32 to16 true zctx (compared to32 to16 d)) k' -> key_le to32 to16 k k' = 0 -> same_order k k'.
Proof.
  intros Hz Hl Hk. revert k' Hl. induction Hk as [|d k Hd _ IH]; intros [|d' k'] Hl Hk' E; try done; [constructor|].
  apply Forall_cons in Hk' as [Hd' Hk']. unfold key_le in E. cbn [zip zip_with foldr fst snd] in E. unfold orelse at 1 in E.
  destruct (Z.eqb_spec (lex (vkey to32 to16 true (compared to32 to16 d)) (vkey to32 to16 true (compared to32 to16 d'))) 0) as [E0|E0]; [|done].
  constructor; [|apply IH; [by injection Hl|done|done]]. by rewrite (compareValues_sortable _ _ _ _ _ zctx Hz) by done; rewrite E0.
Qed.
Lemma laws_fit laws vals k : Forall2 law_for gs laws -> Forall input_ok vals -> Forall (fun g => g_ok g zctx (map (g_arg g) (with_keys k vals))) gs ->
  Forall (fun l => together l (with_keys k vals)) laws.
Proof.
  intros Hl Hi Hok. assert (Hargs : Forall (fun v => Forall (fun g => has_argument zctx bound (g_agg g) (g_arg g) v) gs) (with_keys k vals)).
  { apply Forall_forall. intros v [_ Hv]%list_elem_of_filter. rewrite Forall_forall in Hi. by apply Hi. }
  clear Hi. induction Hl as [|g l gs laws (_ & Ht & _) _ IH]; [constructor|]. apply Forall_cons in Hok as [Hg Hok]. constructor.
  - apply Ht; [|done]. eapply Forall_impl; [exact Hargs|]. by intros v [Hv _]%Forall_cons.
  - apply IH; [done|]. eapply Forall_impl; [exact Hargs|]. by intros v [_ Hv]%Forall_cons.
Qed.
(** A record of a row reads as the key and as what the aggregations answer. *)
Lemma summary_reads laws vals k rec : Forall2 law_for gs laws -> length k = length keyed_by ->
  summary to32 of32 to16 of16 nan float_to_int float_to_uint ParseFloat64 (@iteration) Insert Merge Estimate MarshalBinary UnmarshalBinary MaxValueSize
    sort_entries zctx bound laws (map fst keyed_by) (map g_name gs) keys vals k rec ->
  IsRecordType (v_type rec) = true /\ Forall2 (fun ke d => reads_as ke.1 rec d) keyed_by k /\
    Forall (fun g => exists d, reads_as (g_name g) rec d /\ answers zctx (g_agg g) (g_arg g) (with_keys k vals) d) gs.
Proof.
  intros Hl Hk (ds & (Hrt & _ & Hrd) & Hds).
  assert (Hdot : forall q d, (forall c, dots to32 to16 q rec c = Ok (NewValue d.1 d.2, c)) -> reads_as q rec d).
  { intros q d H c. unfold dotted, NewDottedExpr. rewrite eval_dotted. cbn [eval]. by rewrite M_ret_l. }
  apply Forall2_app_inv in Hrd as [Hkd Had]; [|by rewrite length_map]. split; [done|]. split.
  - apply Forall2_fmap_l in Hkd. eapply Forall2_impl; [exact Hkd|]. intros ke d H. by apply Hdot.
  - apply Forall2_fmap_l in Had. clear Hkd Hk Hrt. revert ds Hds Had. induction Hl as [|g l gs laws (_ & _ & Ha) _ IH]; intros ds Hds Had; [constructor|].
    inversion Hds as [|? d ? ds' (_ & _ & Hans & _) Hds']; subst. inversion Had as [|? ? ? ? Hd Hds2]; subst. constructor; [|by apply (IH ds')].
    exists d. split; [by apply Hdot|by apply Ha].
Qed.

Lemma always_impl (Q Q' : list Value -> Prop) cur l : (forall vals, Q vals -> Q' vals) -> always Q cur l -> always Q' cur l.
Proof. intros H [H0 Hn]. split; [by apply H|]. intros i. by apply H. Qed.

(** C15: group-by answers one record for each distinct key of a stream, and
    reads back as the key and, for every aggregation, as what a function that
    consumed the values with that key one by one answers. It does so however
    the values come in batches, with any limit on the rows it holds, so
    whether the groups are in memory or in the files that it spilled to and
    merged, and again for every stream that follows. The query and the values
    are: aggregations whose partial results combine, on the arguments on which
    they do (count; and, or; any of values that are no errors; collect; sum,
    min and max of signed integers); every value gives each key expression a
    key that is not quiet, has no floats and no type values, and gives each
    aggregation its argument; keys that the comparator takes for the same are
    the same; the input is not sorted by the key, and neither input nor output
    is partial results. *)
Theorem group_by_one_per_key evaluated limit a {E P : Type} (hang : E) error (parent : Puller (E := E) P) R `{HP : !Pulls parent R}
    fuel n count p cur l (input : Value -> Prop) :
  query_ok ->
  New to32 to16 dotted evaluated (map (fun ke => (Some ke.1, ke.2)) keyed_by) (map g_name gs) (map g_agg gs) limit 0 false false = Ok a ->
  (forall e v w, (forall c, e v c = Ok (w, c)) -> evaluated e v = w) -> (forall A (l : list A), iteration A l ≡ₚ l) ->
  (forall v, input v -> input_ok v) -> (forall v w, input v -> input w -> same_order (keys v) (keys w) -> keys v = keys w) ->
  R p cur l ->
  always (fun vals => (length vals < fuel)%nat /\ (length vals < n)%nat /\ Forall input vals /\
    forall k, Forall (fun g => g_ok g zctx (map (g_arg g) (with_keys k vals))) gs) cur l ->
  Z.of_nat (length (concat (map (stream_at cur l) (seq 0 count)))) < 2 ^ 64 ->
  exists outs op' p' c', streams hang n count (group_Pull hang error (apart parent) a fuel) (NewOp, (p, zctx)) = (Ok outs, (op', (p', c'))) /\
    wf c' /\ grows zctx c' /\
    Forall2 (fun vals out => one_per_key vals out /\ Forall (fun v => member c' (v_type v)) out) (map (stream_at cur l) (seq 0 count)) outs.
Proof.
  intros Hq HNew Hev Hit Hin Hdist HR Ha Hz. destruct (laws_exist Hq) as [laws Hlaws].
  destruct (New_plain evaluated limit a laws Hq Hlaws HNew) as (HC & Hke & Hcmp).
  assert (Hdot : forall p v c, dotted p v c = dots to32 to16 p v c).
  { intros q v c. unfold dotted, NewDottedExpr. rewrite eval_dotted. cbn [eval]. by rewrite M_ret_l. }
  destruct (streams_grouped to32 of32 to16 of16 nan float_to_int float_to_uint ParseFloat64 (@iteration) Insert Merge Estimate
    MarshalBinary UnmarshalBinary MaxValueSize sort_entries zctx bound dotted Hdot laws a (map fst keyed_by) (map g_name gs) keys HC Hit evaluated Hev
    (q_wf Hq) Hcmp (fun k => exists v, input v /\ keys v = k)) with (hang := hang) (error := error) (parent := parent) (R := R) (fuel := fuel) (m := n)
    (count := count) (n := 0%nat) (op := NewOp (Sketch := Sketch) (E := E)) (p := p) (c := zctx) (cur := cur) (l := l)
    as (outs & op' & p' & c' & E1 & Hc' & Hg' & Houts); try done.
  - intros k (v & Hv%Hin & <-). by apply input_key.
  - intros k k' (v & Hv & <-) (w & Hw & <-) E0. destruct (input_key v (Hin v Hv)) as [[Hlv _] Hsv]. destruct (input_key w (Hin w Hw)) as [[Hlw _] Hsw].
    apply Hdist; try done. apply same_order_le; try done; [apply Hq|by rewrite Hlv].
  - by left.
  - apply NewTable_taken, Hq.
  - eapply always_impl; [|exact Ha]. intros vals (Hf & Hn & Hv & Hok). split; [split|by split].
    + eapply Forall_impl; [exact Hv|]. intros v Hiv. split; [by apply input_keyed; [|apply Hin]|by exists v].
    + intros k. apply laws_fit; [done|eapply Forall_impl; [exact Hv|done]|apply Hok].
  - exists outs, op', p', c'. split_and!; [done..|]. eapply Forall2_impl_in; [exact Houts|]. intros vals out Hvals _ [[ks (Hnd & Hks & Hsum)] Hm].
    split; [|done]. exists ks. split_and!; [done..|]. eapply Forall2_impl_in; [exact Hsum|]. intros k rec Hk _ Hs.
    apply (summary_reads laws); [done| |done]. apply Hks, list_elem_of_fmap in Hk as (v & -> & Hv). apply list_elem_of_fmap in Hvals as (i & -> & _).
    assert (Hiv : input v) by (destruct Ha as [(_ & _ & H0 & _) Hn]; rewrite Forall_forall in H0; destruct i as [|i]; [by apply H0|];
      destruct (Hn i) as (_ & _ & Hi & _); rewrite Forall_forall in Hi; by apply Hi).
    destruct (Hin v Hiv) as [H _]. by rewrite (Forall2_length _ _ _ H).
Qed.
End query.
End groupby.

(** ** Group-by at work *)

Section concrete.
(** Without floats, with Go maps read in the order of insertion, and evaluators
    as they are in a new context. *)
Local Abbreviation id_ := (fun z : Z => z) (only parsing).
Definition at_path (p : path) : evaluator :=
  dotted id_ id_ id_ id_ (fun _ _ => 0) id_ id_ (fun es => es) (fun _ => []) (fun _ => []) (fun _ => []) p.
Definition evaluated_ (e : evaluator) (v : Value) : Value := match e v NewContext with Ok (w, _) => w | _ => NullValue end.
Local Abbreviation Agg_ := (Aggregator (Sketch := unit)).
Definition New_ (keys : list (path * evaluator)) (gs : list (path * Agg_)) (limit dir : Z) (partialsIn partialsOut : bool) : outcome new_error (Config (Sketch := unit)) :=
  New id_ id_ at_path evaluated_ (map (fun ke => (Some ke.1, ke.2)) keys) (map fst gs) (map snd gs) limit dir partialsIn partialsOut.
Definition Pull_ (a : Config (Sketch := unit)) : Puller (E := groupby_error) (Op (E := groupby_error) * (Source * Context)) :=
  group_Pull id_ id_ id_ id_ (fun _ _ => 0) id_ id_ (fun _ => None) (fun _ l => l) (fun _ s => s) (fun s _ => s) (fun _ => 0) (fun _ => [])
    (fun _ => None) 100 (fun es => es) Running (fun e => e) (apart source_Pull) a 10.
(** What pulls give, with [done] or not: the values of the paths in each record. *)
Definition value_at (p : path) (rec : Value) : bytes := match Value_Bytes id_ id_ (evaluated_ (at_path p) rec) with Ok b => b | _ => None end.
Definition pulled (a : outcome new_error (Config (Sketch := unit))) (s : Source) (pulls : list bool) (ps : list path) :
    list (outcome groupby_error (option (list (list bytes)))) :=
  match a with
  | Ok a =>
      (fix go (pulls : list bool) (st : Op (E := groupby_error) * (Source * Context)) :=
         match pulls with
         | [] => []
         | done :: pulls =>
             let '(r, st) := Pull_ a done st in
             (b ← r; Ok (option_map (map (fun rec => map (fun p => value_at p rec) ps)) b)) :: go pulls st
         end) pulls (NewOp, (s, NewContext))
  | _ => []
  end.

(** Records of a string and a number, either of which may be missing. *)
Definition rec_ (k : string) (x : Z) : Value :=
  NewValue (TRecord 30 [(str "k", TPrim String); (str "x", TPrim Int64)])
    (Some (Zcode.val_bytes (Some (str k)) ++ Zcode.val_bytes (AppendInt None x))).
Definition rec_k (k : string) : Value := NewValue (TRecord 31 [(str "k", TPrim String)]) (Some (Zcode.val_bytes (Some (str k)))).
Definition rec_x (t : primitive) (b : bytes) : Value := NewValue (TRecord 32 [(str "x", TPrim t)]) (Some (Zcode.val_bytes b)).
Definition count_ : path * Agg_ := ([str "count"], mkAggregator (Count 0) (fun _ => mret True_) None).
Definition sum_x : path * Agg_ := ([str "sum"], mkAggregator (MathReducer (mkReducer FAdd false None)) (at_path [str "x"]) None).
Definition by_k : path * evaluator := ([str "k"], at_path [str "k"]).
Definition by_x (name : string) : path * evaluator := ([str name], at_path [str "x"]).
Definition uint (n : Z) : bytes := AppendUint None n.
Definition int (n : Z) : bytes := AppendInt None n.

(** With room for one row the groups come from the files, and the next stream
    starts over. *)
Example group_by_spills :
  pulled (New_ [by_k] [count_; sum_x] 1 0 false false) [[[rec_ "a" 1; rec_ "b" 2]; [rec_ "a" 3]]; [[rec_ "c" 4]]]
    [false; false; false; false] [[str "k"]; [str "count"]; [str "sum"]] =
  [Ok (Some [[Some (str "a"); uint 2; int 4]; [Some (str "b"); uint 1; int 2]]); Ok None; Ok (Some [[Some (str "c"); uint 1; int 4]]); Ok None].
Proof. vm_compute. reflexivity. Qed.

(** Pulled with [done] after the end of its parent's stream it ends another
    stream of its parent, which is lost. *)
Theorem group_done_drops_stream :
  pulled (New_ [by_k] [count_] 0 0 false false) [[[rec_ "a" 1]]; [[rec_ "b" 2]]; [[rec_ "c" 3]]] [false; true; false] [[str "k"]] =
  [Ok (Some [[Some (str "a")]]); Ok None; Ok (Some [[Some (str "c")]])].
Proof. vm_compute. reflexivity. Qed.
(** Pulled with [done] before any other pull it waits for a loop that has not
    started. *)
Theorem group_done_first_hangs :
  pulled (New_ [by_k] [count_] 0 0 false false) [[[rec_ "a" 1]]] [true] [[str "k"]] = [Err Running].
Proof. vm_compute. reflexivity. Qed.

(** The first key expression is evaluated on records that have its result under
    another name: on sorted input a group that is not complete goes out, and
    again at the end. *)
Theorem renamed_key_splits_group :
  let input := [[[rec_ "a" 1; rec_ "b" 1]; [rec_ "a" 1]]] in let ps k := [[str k]; [str "k"]; [str "count"]] in
  let a1 := [int 1; Some (str "a"); uint 1] in let b1 := [int 1; Some (str "b"); uint 1] in
  pulled (New_ [by_x "y"; by_k] [count_] 1 1 false false) input [false; false; false; false] (ps "y") =
    [Ok (Some [a1]); Ok (Some [b1]); Ok (Some [a1]); Ok None] /\
  pulled (New_ [by_x "x"; by_k] [count_] 1 1 false false) input [false; false] (ps "x") =
    [Ok (Some [[int 1; Some (str "a"); uint 2]; b1]); Ok None].
Proof. vm_compute. done. Qed.
(** So it does when the key of the last record that was spilled in an earlier
    stream is greater. *)
Theorem spill_key_kept_between_streams :
  pulled (New_ [by_x "x"; by_k] [count_] 1 1 false false) [[[rec_ "a" 5; rec_ "b" 5]]; [[rec_ "a" 1; rec_ "b" 1]; [rec_ "a" 1]]]
    [false; false; false; false; false] [[str "x"]; [str "k"]; [str "count"]] =
  [Ok (Some [[int 5; Some (str "a"); uint 1]; [int 5; Some (str "b"); uint 1]]); Ok None;
   Ok (Some [[int 1; Some (str "a"); uint 1]]); Ok (Some [[int 1; Some (str "b"); uint 1]]); Ok (Some [[int 1; Some (str "a"); uint 1]])].
Proof. vm_compute. reflexivity. Qed.
(** When the last record spilled has no first key there is no greatest key, and
    the next record that has one is compared to it. *)
Theorem missing_key_panics :
  pulled (New_ [by_x "x"; by_k] [count_] 2 1 false false) [[[rec_ "a" 1; rec_k "b"; rec_k "c"]]] [false] [] = [Panic].
Proof. vm_compute. reflexivity. Qed.

(** Keys of different types are different groups, until they are spilled. *)
Theorem spilled_types_merge :
  let input := [[[rec_x Int64 (int 1); rec_x Uint8 (uint 1)]]] in let ps := [[str "x"]; [str "count"]] in
  pulled (New_ [by_x "x"] [count_] 0 0 false false) input [false] ps = [Ok (Some [[int 1; uint 1]; [uint 1; uint 1]])] /\
  pulled (New_ [by_x "x"] [count_] 1 0 false false) input [false] ps = [Ok (Some [[int 1; uint 2]])].
Proof. vm_compute. done. Qed.
(** A partial result that is an error value, which any can have, is not taken back. *)
Theorem partial_error_panics :
  let any_ := ([str "any"], mkAggregator (Any None) (at_path [str "z"]) None) : path * Agg_ in
  let z v := NewValue (TRecord 33 [(str "k", TPrim String); (str "z", TError 34 (TPrim String))]) (Some (Zcode.val_bytes (Some (str v)) ++ Zcode.val_bytes (Some (str "bad")))) in
  pulled (New_ [by_k] [any_] 0 0 false false) [[[z "a"; z "b"]]] [false] [[str "any"]] = [Ok (Some [[Some (str "bad")]; [Some (str "bad")]])] /\
  pulled (New_ [by_k] [any_] 1 0 false false) [[[z "a"; z "b"]]] [false] [] = [Panic].
Proof. vm_compute. done. Qed.

(** Count and sum by k, with room for one row, over two streams. *)
Definition demo_values : list Value := [rec_ "a" 1; rec_ "b" 2; rec_ "a" 3; rec_ "c" 4].
Definition demo_rows : Source := [[[rec_ "a" 1; rec_ "b" 2]; [rec_ "a" 3]]; [[rec_ "c" 4]]].
Definition demo_key (v : Value) : key := [(TPrim String, value_at [str "k"] v)].
Definition demo_gs : list (aggregation (Sketch := unit)) :=
  [mkAggregation [str "count"] count_.2 (fun _ => True_) (fun _ _ => True);
   mkAggregation [str "sum"] sum_x.2 (evaluated_ (at_path [str "x"])) (fun _ => Forall signed_int)].
Definition demo_config : outcome new_error (Config (Sketch := unit)) := New_ [by_k] [count_; sum_x] 1 0 false false.
Local Abbreviation one_per_key_ := (one_per_key id_ id_ id_ id_ (fun _ _ => 0) id_ id_ (fun _ => None) (fun _ l => l) (Sketch := unit) (fun _ s => s)
  (fun _ => 0) 100 (fun es => es) (fun _ => []) (fun _ => []) (fun _ => []) [by_k] demo_gs NewContext demo_key).
Local Abbreviation input_ok_ := (input_ok id_ id_ id_ id_ (fun _ _ => 0) id_ id_ (fun _ => None) (fun _ l => l) (Sketch := unit) (fun _ s => s) 100
  [by_k] demo_gs NewContext 1000 demo_key).

Local Abbreviation has_argument_ := (has_argument id_ id_ id_ id_ (fun _ _ => 0) id_ id_ (fun _ => None) (fun _ l => l) (Sketch := unit) (fun _ s => s) 100 NewContext 1000).
Lemma demo_argument (g : Agg_) arg v : a_where g = None -> (forall c, a_expr g v c = Ok (arg v, c)) ->
  IsMissing id_ id_ (Some (arg v)) = Ok false -> sized id_ id_ NewContext 1000 (arg v) -> has_argument_ g arg v.
Proof.
  intros Hw He Hm Hs. split; [done|]. intros f c _ _. unfold Agg.Apply. rewrite Hw, M_ret_l, (M_bind_Ok _ _ _ _ _ (He c)). rewrite Hm. cbn [no_error].
  rewrite M_lift_l. unfold lift, mbind, M_bind. by destruct (Agg.Consume _ _ _ _ _ _ _ _ _ _ _ (arg v) f).
Qed.
Lemma demo_sized v t b : v_type v = TPrim t -> Value_Bytes id_ id_ v = Ok b -> zlen (default [] b) <= 1000 -> sized id_ id_ NewContext 1000 v.
Proof. intros E Eb Hb. split; [by rewrite E|]. rewrite Eb. by intros ? [= <-]. Qed.
Lemma demo_keyed v b : (forall c, by_k.2 v c = Ok (NewValue (TPrim String) b, c)) -> demo_key v = [(TPrim String, b)] -> zlen (default [] b) <= 1000 ->
  Forall2 (fun ke d => key_value id_ id_ NewContext 1000 ke.2 v d) [by_k] (demo_key v).
Proof.
  intros He Hk Hb. rewrite Hk. constructor; [|constructor]. split; [done|]. split; [done|]. split.
  { destruct b; (split; [split; [intros H; discriminate H|by split]|eexists; reflexivity]). }
  intros c _ _. eexists. split; [apply He|]. by destruct b.
Qed.
Lemma demo_input v : v ∈ demo_values -> input_ok_ v /\ signed_int (evaluated_ (at_path [str "x"]) v).
Proof.
  revert v. rewrite <- Forall_forall. repeat apply Forall_cons_2; try apply Forall_nil_2.
  all: split; [split; [eapply demo_keyed; [reflexivity..|by vm_compute]|]|].
  all: try (constructor; [|constructor; [|constructor]]; (apply demo_argument; [reflexivity..|eapply demo_sized; [reflexivity..|by vm_compute]])).
  all: split; [exists Int64; split; [reflexivity|set_solver]|intros _; eexists; split; [reflexivity|by vm_compute]].
Qed.

Lemma demo_distinct v w : v ∈ demo_values -> w ∈ demo_values -> same_order id_ id_ id_ id_ (demo_key v) (demo_key w) -> demo_key v = demo_key w.
Proof.
  intros Hv Hw Hs. unfold demo_key in *. do 2 f_equal. inversion Hs as [|? ? ? ? H _]; subst. clear Hs. revert v Hv w Hw H.
  enough (E : forallb (fun v => forallb (fun w => match compareValues id_ id_ id_ id_ true (compared id_ id_ (TPrim String, value_at [str "k"] v))
    (compared id_ id_ (TPrim String, value_at [str "k"] w)) with Ok 0 => bool_decide (value_at [str "k"] v = value_at [str "k"] w) | _ => true end)
    demo_values) demo_values = true).
  { intros v Hv w Hw H. rewrite forallb_forall in E. specialize (E v (proj1 (list_elem_of_In _ _) Hv)). rewrite forallb_forall in E.
    specialize (E w (proj1 (list_elem_of_In _ _) Hw)). rewrite H in E. by apply bool_decide_eq_true in E. }
  vm_compute. reflexivity.
Qed.

Lemma demo_signed k vals : Forall (fun v => v ∈ demo_values) vals ->
  Forall (fun g => g_ok g NewContext (map (g_arg g) (with_keys demo_key k vals))) demo_gs.
Proof.
  intros Hv. constructor; [done|]. constructor; [|constructor]. apply Forall_fmap, Forall_forall. intros v [_ Hin]%list_elem_of_filter.
  rewrite Forall_forall in Hv. by apply demo_input, Hv.
Qed.

Lemma group_by_one_per_key_witness : exists a outs s,
  demo_config = Ok a /\ streams Running 10 2 (Pull_ a) (NewOp, (demo_rows, NewContext)) = (Ok outs, s) /\
  Forall2 one_per_key_ [[rec_ "a" 1; rec_ "b" 2; rec_ "a" 3]; [rec_ "c" 4]] outs.
Proof.
  assert (Hok : match demo_config with Ok _ => true | _ => false end = true) by (vm_compute; reflexivity).
  destruct demo_config as [a| |] eqn:Ha; [clear Hok|discriminate Hok..].
  destruct (group_by_one_per_key id_ id_ id_ id_ (fun _ _ => 0) id_ id_ (fun _ => None) (fun _ l => l) (Sketch := unit) (fun _ s => s) (fun s _ => s)
    (fun _ => 0) (fun _ => []) (fun _ => None) 100 (fun es => es) (fun _ => []) (fun _ => []) (fun _ => []) [by_k] demo_gs NewContext 1000 demo_key
    evaluated_ 1 a Running (fun e => e) source_Pull source_state 10 10 2 demo_rows [rec_ "a" 1; rec_ "b" 2; rec_ "a" 3]
    (fun n => source_later demo_rows (S n)) (fun v => v ∈ demo_values)) as (outs & op & p & c & E1 & _ & _ & Houts).
  - split.
    + apply NewContext_wf.
    + split; [done|]. split; [by vm_compute|]. repeat constructor; by vm_compute.
    + by vm_compute.
    + by vm_compute.
    + repeat constructor.
  - exact Ha.
  - intros e v w He. unfold evaluated_. by rewrite He.
  - done.
  - intros v Hv. by apply demo_input.
  - apply demo_distinct.
  - repeat constructor; discriminate.
  - assert (Hall : forall i, (length (source_later demo_rows i) < 10)%nat /\ Forall (fun v => v ∈ demo_values) (source_later demo_rows i)).
    { intros i. apply (source_later_elem (fun vals => (length vals < 10)%nat /\ Forall (fun v => v ∈ demo_values) vals)); [|split; [cbn; lia|constructor]].
      repeat constructor; cbn; (lia || set_solver). }
    assert (Hfit : forall i, let vals := source_later demo_rows i in (length vals < 10)%nat /\ (length vals < 10)%nat /\ Forall (fun v => v ∈ demo_values) vals /\
      forall k, Forall (fun g => g_ok g NewContext (map (g_arg g) (with_keys demo_key k vals))) demo_gs).
    { intros i. destruct (Hall i) as [Hl Hv]. split; [done|]. split; [done|]. split; [done|]. intros k. by apply demo_signed. }
    split; [exact (Hfit 0%nat)|]. intros i. apply Hfit.
  - cbn. lia.
  - exists a, outs, (op, (p, c)). split; [done|]. split; [exact E1|]. eapply Forall2_impl; [exact Houts|]. by intros vals out [H _].
Defined.
End concrete.
