(* ===== verification/Vng.v ===== *)
(** * The VNG format

    [src/vng]: values are written to trees of column encoders, one tree for each
    type, which are then encoded to segments of a data section with a tree of
    metadata over it; a reader makes builders from the metadata.

    The compression of a block is LZ4's.  The ZNG value that the metadata is
    marshaled to is given by its encoding.  A column encoder is a tree, so what
    writes to one and what builds from one takes as fuel how deep it is; the
    goroutines that encode columns are independent and run one after the other.
    An error ends a read, so what a builder has changed by then is left out. *)

From S2P Require Import Prelude Zcode Types Context Primitive Values Compare.
Local Open Scope Z_scope.

Definition u32 (n : Z) : Z := n mod 2 ^ 32.

(** [lz4.Compressor.CompressBlock] to a buffer of a size, [None] when the block
    does not fit or is not worth it, and [lz4.UncompressBlock]. *)
Class LZ4Block := {
  CompressBlock : list byte -> Z -> option (list byte);
  UncompressBlock : list byte -> Z -> option (list byte) }.
Class LZ4BlockLaws `{!LZ4Block} : Prop := {
  block_roundtrip b n z : CompressBlock b n = Some z -> UncompressBlock z (zlen b) = Some b;
  block_fits b n z : CompressBlock b n = Some z -> zlen z <= n }.

(** ** Metadata and segments ([metadata.go], [segment.go], [header.go]) *)

Inductive vng_error := EOF | ErrUncompress | ErrFormat | ErrBadTag | ErrSelector | ErrHeader | ErrVersion | ErrMetaSize | ErrMetadata | ErrUnknown | Diverges.

Record Segment := mkSegment { Offset : Z; Length_ : Z; MemLength : Z; CompressionFormat : Z }.
Record DictEntry := mkDictEntry { d_Value : Value; d_Count : Z }.
Unset Elimination Schemes.
Inductive Metadata :=
| MRecord (len : Z) (fields : list (gostring * Metadata))
| MArray (len : Z) (lengths : Segment) (values : Metadata)
| MSet (len : Z) (lengths : Segment) (values : Metadata)
| MMap (len : Z) (lengths : Segment) (keys values : Metadata)
| MUnion (len : Z) (tags : Segment) (values : list Metadata)
| MNamed (name : gostring) (values : Metadata)
| MError (values : Metadata)
| MPrimitive (typ : ty) (loc : Segment) (dict : list DictEntry) (min max : option Value) (count : Z)
| MNulls (runs : Segment) (values : Metadata) (count : Z)
| MConst (value : Value) (count : Z)
| MDynamic (tags : Segment) (values : list Metadata) (len : Z).
Set Elimination Schemes.

(** [Type] in a context; the type of a primitive is the one in the metadata. *)
Definition M_each {A B} (f : A -> M B) : list A -> M (list B) :=
  fix go (l : list A) := match l with [] => mret [] | x :: l => y ← f x; ys ← go l; mret (y :: ys) end.
Fixpoint meta_Type (m : Metadata) : M ty :=
  match m with
  | MRecord _ fields => fs ← M_each (fun f : gostring * Metadata => t ← meta_Type f.2; mret (f.1, t)) fields; MustLookupTypeRecord fs
  | MArray _ _ m => t ← meta_Type m; LookupTypeArray t
  | MSet _ _ m => t ← meta_Type m; LookupTypeSet t
  | MMap _ _ k v => k ← meta_Type k; v ← meta_Type v; LookupTypeMap k v
  | MUnion _ _ ms => ts ← M_each meta_Type ms; LookupTypeUnion ts
  | MNamed n m => t ← meta_Type m; r ← LookupTypeNamed n t; match r with inr t => mret t | inl _ => panic end
  | MError m => t ← meta_Type m; LookupTypeError t
  | MPrimitive t _ _ _ _ _ => mret t
  | MNulls _ m _ => meta_Type m
  | MConst v _ => mret (v_type v)
  | MDynamic _ _ _ => panic
  end.
Fixpoint Len (m : Metadata) : Z :=
  match m with
  | MRecord n _ | MArray n _ _ | MSet n _ _ | MMap n _ _ _ | MUnion n _ _ => n
  | MNamed _ m | MError m => Len m
  | MPrimitive _ _ _ _ _ n | MConst _ n | MDynamic _ _ n => n
  | MNulls _ m n => u32 (n + Len m)
  end.

Definition Version : Z := 4.
Definition HeaderSize : Z := 24.
Definition MaxMetaSize : Z := 100 * 1024 * 1024.
Definition MaxDataSize : Z := 2 * 1024 * 1024 * 1024.
Record Header := mkHeader { h_Version : Z; MetaSize : Z; DataSize : Z }.
Definition Serialize (h : Header) : list byte :=
  str "VNG" ++ [zb 0] ++ le_bytes 4 (h_Version h) ++ le_bytes 8 (MetaSize h) ++ le_bytes 8 (DataSize h).
Definition Deserialize (b : list byte) : outcome vng_error Header :=
  if negb (zlen b =? HeaderSize) || negb (bool_decide (take 4 b = str "VNG" ++ [zb 0])) then Err ErrHeader
  else
    let h := mkHeader (le_value (take 4 (drop 4 b))) (le_value (take 8 (drop 8 b))) (le_value (take 8 (drop 16 b))) in
    if negb (h_Version h =? Version) then Err ErrVersion
    else if MaxMetaSize <? MetaSize h then Err ErrMetaSize
    else if MaxDataSize <? MetaSize h then Err ErrMetaSize
    else Ok h.

Section vng.
Context `{LZ : !LZ4Block} (to32 of32 to16 of16 : Z -> Z).
(** The order of iteration over a dictionary, when it is encoded and when its
    metadata is made. *)
Context (iteration iteration' : forall {A : Type}, list A -> list A).
Local Abbreviation Res := (outcome vng_error).

Definition no_err {A} (m : outcome Empty_set A) : Res A := match m with Ok a => Ok a | _ => Panic end.
Definition diverge_err {A} (m : outcome diverge A) : Res A := omap_err (fun _ => Diverges) m.

(** [ReadAt] of a section. *)
Definition ReadAt (r : list byte) (off n : Z) : Res (list byte) :=
  if (off <? 0) || (zlen r <=? off) || (zlen r <? off + n) then Err EOF
  else Ok (take (Z.to_nat n) (drop (Z.to_nat off) r)).
Definition CompressionFormatNone : Z := 0.
Definition CompressionFormatLZ4 : Z := 1.
(** [Read] into a buffer of the length in memory. *)
Definition segment_Read (s : Segment) (r : list byte) : Res (list byte) :=
  if CompressionFormat s =? CompressionFormatNone then ReadAt r (i64 (Offset s)) (MemLength s)
  else if CompressionFormat s =? CompressionFormatLZ4 then
    z ← ReadAt r (i64 (Offset s)) (Length_ s);
    match UncompressBlock z (MemLength s) with
    | Some b => if zlen b =? MemLength s then Ok b else Err ErrUncompress
    | None => Err ErrUncompress
    end
  else Err ErrFormat.
Definition compressBuffer (b : list byte) : Z * list byte :=
  if zlen b =? 0 then (CompressionFormatNone, [])
  else match CompressBlock b (zlen b - 1) with
       | Some z => if 0 <? zlen z then (CompressionFormatLZ4, z) else (CompressionFormatNone, b)
       | None => (CompressionFormatNone, b)
       end.

(** ** Primitive columns ([primitive.go], [int.go]) *)

Definition MaxDictSize : Z := 256.
(** The dictionary counts bodies, in the order they came. *)
Record PrimitiveEncoder := mkPrimitive {
  p_typ : ty; p_bytes : bytes; p_bytesLen : Z; p_format : Z; p_out : list byte;
  p_dict : option (list (list byte * Z)); p_min : option Value; p_max : option Value; p_count : Z }.
Definition NewPrimitiveEncoder (t : ty) (useDict : bool) : PrimitiveEncoder :=
  let dict := if useDict && negb (existsb (Z.eqb (ID t)) [primitive_id Uint8; primitive_id Int8; primitive_id Bool]) then Some [] else None in
  mkPrimitive t None 0 0 [] dict None None 0.
Definition vcmp (v w : Value) : Res Z := diverge_err (Compare.Compare to32 of32 to16 of16 (NewValueCompareFn false false) v w).

Fixpoint dict_add (b : list byte) (d : list (list byte * Z)) : list (list byte * Z) :=
  match d with
  | [] => [(b, 1)]
  | (k, n) :: d => if decide (k = b) then (k, u32 (n + 1)) :: d else (k, n) :: dict_add b d
  end.
Definition update (p : PrimitiveEncoder) (body : bytes) : Res PrimitiveEncoder :=
  match body with
  | None => Panic
  | Some b =>
      let val := NewValue (p_typ p) body in
      min ← (match p_min p with None => Ok val | Some m => c ← vcmp val m; Ok (if c <? 0 then val else m) end);
      max ← (match p_max p with None => Ok val | Some m => c ← vcmp val m; Ok (if 0 <? c then val else m) end);
      let dict := match p_dict p with
                  | None => None
                  | Some d => let d := dict_add b d in if MaxDictSize <? zlen d then None else Some d
                  end in
      Ok (mkPrimitive (p_typ p) (p_bytes p) (p_bytesLen p) (p_format p) (p_out p) dict (Some min) (Some max) (u32 (p_count p + 1)))
  end.
Definition prim_Write (p : PrimitiveEncoder) (body : bytes) : Res PrimitiveEncoder :=
  p ← update p body;
  Ok (mkPrimitive (p_typ p) (Append (p_bytes p) body) (p_bytesLen p) (p_format p) (p_out p) (p_dict p) (p_min p) (p_max p) (p_count p)).

(** [sort.Slice] is not stable, which the order of iteration accounts for. *)
Definition makeDict (order : forall {A : Type}, list A -> list A) (t : ty) (d : list (list byte * Z)) : Res (list DictEntry) :=
  diverge_err (SliceStable (fun x y => c ← Compare.Compare to32 of32 to16 of16 (NewValueCompareFn false false) (d_Value x) (d_Value y); Ok (c <? 0))
    (map (fun kn => mkDictEntry (NewValue t (Some kn.1)) kn.2) (order d))).
(** [pos]: the last entry of a body. *)
Fixpoint dict_pos (off : Z) (dict : list DictEntry) (pos : gmap (list byte) Z) : Res (gmap (list byte) Z) :=
  match dict with
  | [] => Ok pos
  | e :: dict =>
      b ← no_err (Value_Bytes to32 to16 (d_Value e));
      dict_pos (off + 1) dict (match b with Some b => <[b := off mod 256]> pos | None => pos end)
  end.
Fixpoint selectors_of (pos : gmap (list byte) Z) (vals : list bytes) : Res (list byte) :=
  match vals with
  | [] => Ok []
  | None :: vals => out ← selectors_of pos vals; Ok (zb 0 :: out)
  | Some b :: vals => match pos !! b with Some off => out ← selectors_of pos vals; Ok (zb off :: out) | None => Panic end
  end.
Definition makeDictVector (p : PrimitiveEncoder) (d : list (list byte * Z)) : Res (list byte) :=
  dict ← makeDict (@iteration) (p_typ p) d;
  pos ← dict_pos 0 dict ∅;
  vals ← diverge_err (iter_all (p_bytes p));
  selectors_of pos vals.
Definition prim_Encode (p : PrimitiveEncoder) : Res PrimitiveEncoder :=
  b ← (match p_dict p with Some d => makeDictVector p d | None => Ok (default [] (p_bytes p)) end);
  let '(format, out) := compressBuffer b in
  Ok (mkPrimitive (p_typ p) None (zlen b) format out (p_dict p) (p_min p) (p_max p) (p_count p)).
Definition Const (p : PrimitiveEncoder) : Res Metadata :=
  match p_dict p with Some [(b, _)] => Ok (MConst (NewValue (p_typ p) (Some b)) (p_count p)) | _ => Panic end.
Definition prim_location (p : PrimitiveEncoder) (off : Z) : Segment := mkSegment off (zlen (p_out p)) (p_bytesLen p) (p_format p).
Definition prim_next (p : PrimitiveEncoder) (off : Z) : Z := u64 (off + zlen (p_out p)).
Definition prim_Metadata (p : PrimitiveEncoder) (off : Z) : Res (Z * Metadata * PrimitiveEncoder) :=
  match p_dict p with
  | Some [_] =>
      m ← Const p;
      Ok (off, m, mkPrimitive (p_typ p) (p_bytes p) (p_bytesLen p) (p_format p) [] (p_dict p) (p_min p) (p_max p) (p_count p))
  | d =>
      dict ← (match d with Some ((_ :: _) as d) => makeDict (@iteration') (p_typ p) d | _ => Ok [] end);
      Ok (prim_next p off, MPrimitive (p_typ p) (prim_location p off) dict (p_min p) (p_max p) (p_count p), p)
  end.

Definition NewInt64Encoder : PrimitiveEncoder := NewPrimitiveEncoder (TPrim Int64) false.
Definition int_Write (p : PrimitiveEncoder) (v : Z) : Res PrimitiveEncoder := b ← no_err (EncodeInt v); prim_Write p b.
(** [Metadata], of which the callers take the location. *)
Definition int_Metadata (p : PrimitiveEncoder) (off : Z) : Res (Z * Segment * PrimitiveEncoder) :=
  '(off, m, p) ← prim_Metadata p off;
  match m with MPrimitive _ loc _ _ _ _ => Ok (off, loc, p) | _ => Panic end.

(** ** Encoders ([encoder.go], [nulls.go], [record.go], [field.go], [array.go], [map.go], [union.go]) *)

Unset Elimination Schemes.
Inductive Encoder :=
| ENamed (e : Encoder) (name : gostring)
| EError (e : Encoder)
| ENulls (values : Encoder) (runs : PrimitiveEncoder) (run : Z) (null : bool) (count : Z)
| ERecord (fields : list (gostring * Encoder)) (count : Z)
| EArray (typ : ty) (values : Encoder) (lengths : PrimitiveEncoder) (count : Z)
| ESet (typ : ty) (values : Encoder) (lengths : PrimitiveEncoder) (count : Z)
| EMap (keys values : Encoder) (lengths : PrimitiveEncoder) (count : Z)
| EUnion (id : Z) (types : list ty) (values : list Encoder) (tags : PrimitiveEncoder) (count : Z)
| EPrimitive (p : PrimitiveEncoder).
Set Elimination Schemes.

Definition NewNullsEncoder (values : Encoder) : Encoder := ENulls values NewInt64Encoder 0 false 0.
Fixpoint NewEncoder (t : ty) : Encoder :=
  match t with
  | TNamed _ n t => ENamed (NewEncoder t) n
  | TError _ t => EError (NewEncoder t)
  | TRecord _ fs =>
      NewNullsEncoder (ERecord ((fix go (fs : list field) : list (gostring * Encoder) :=
        match fs with [] => [] | f :: fs => (f.1, NewEncoder f.2) :: go fs end) fs) 0)
  | TArray _ t => NewNullsEncoder (EArray t (NewEncoder t) NewInt64Encoder 0)
  | TSet _ t => NewNullsEncoder (ESet t (NewEncoder t) NewInt64Encoder 0)
  | TMap _ k v => NewNullsEncoder (EMap (NewEncoder k) (NewEncoder v) NewInt64Encoder 0)
  | TUnion id ts => NewNullsEncoder (EUnion id ts (map NewEncoder ts) NewInt64Encoder 0)
  | TPrim _ | TEnum _ _ => NewNullsEncoder (EPrimitive (NewPrimitiveEncoder t true))
  end.

(** [touchValue] and [touchNull]: the runs, the current run and its kind. *)
Definition touch (isnull : bool) (runs : PrimitiveEncoder) (run : Z) (null : bool) : Res (PrimitiveEncoder * Z * bool) :=
  if Bool.eqb null isnull then Ok (runs, i64 (run + 1), null)
  else runs ← int_Write runs run; Ok (runs, 1, isnull).

(** Writing the values of a container. *)
Fixpoint write_each (write : Encoder -> bytes -> Res Encoder) (e : Encoder) (vals : list bytes) : Res Encoder :=
  match vals with [] => Ok e | v :: vals => e ← write e v; write_each write e vals end.
Fixpoint write_pairs (write : Encoder -> bytes -> Res Encoder) (k v : Encoder) (kvs : list (bytes * bytes)) : Res (Encoder * Encoder) :=
  match kvs with
  | [] => Ok (k, v)
  | (kb, vb) :: kvs => k ← write k kb; v ← write v vb; write_pairs write k v kvs
  end.
Fixpoint write_fields (write : Encoder -> bytes -> Res Encoder) (fields : list (gostring * Encoder)) (it : list byte) :
    Res (list (gostring * Encoder)) :=
  match fields with
  | [] => Ok []
  | (n, e) :: fields => '(b, it) ← no_err (Next it); e ← write e b; es ← write_fields write fields it; Ok ((n, e) :: es)
  end.
Fixpoint Write (fuel : nat) (e : Encoder) (body : bytes) : Res Encoder :=
  match fuel with
  | O => Err Diverges
  | S fuel =>
      match e with
      | ENamed e n => e ← Write fuel e body; Ok (ENamed e n)
      | EError e => e ← Write fuel e body; Ok (EError e)
      | ENulls values runs run null count =>
          match body with
          | Some _ =>
              '(runs, run, null) ← touch false runs run null;
              values ← Write fuel values body; Ok (ENulls values runs run null count)
          | None =>
              '(runs, run, null) ← touch true runs run null;
              Ok (ENulls values runs run null (u32 (count + 1)))
          end
      | ERecord fields count =>
          fields ← write_fields (Write fuel) fields (Iter body); Ok (ERecord fields (u32 (count + 1)))
      | EArray t values lengths count =>
          vals ← diverge_err (iter_all body);
          values ← write_each (Write fuel) values vals;
          lengths ← int_Write lengths (zlen vals); Ok (EArray t values lengths (u32 (count + 1)))
      | ESet t values lengths count =>
          vals ← diverge_err (iter_all body);
          values ← write_each (Write fuel) values vals;
          lengths ← int_Write lengths (zlen vals); Ok (ESet t values lengths (u32 (count + 1)))
      | EMap keys values lengths count =>
          kvs ← diverge_err (iter_loop NextTwo (length (Iter body)) (Iter body));
          '(keys, values) ← write_pairs (Write fuel) keys values kvs;
          lengths ← int_Write lengths (zlen kvs); Ok (EMap keys values lengths (u32 (count + 1)))
      | EUnion id ts values tags count =>
          '(t, zv) ← no_err (Untag id ts body);
          let tag := TagOf ts t in
          tags ← int_Write tags tag;
          match values !! Z.to_nat tag with
          | Some v => if tag <? 0 then Panic else v ← Write fuel v zv; Ok (EUnion id ts (<[Z.to_nat tag := v]> values) tags (u32 (count + 1)))
          | None => Panic
          end
      | EPrimitive p => p ← prim_Write p body; Ok (EPrimitive p)
      end
  end.

(** Encoding the columns of a tree. *)
Definition each {A B} (f : A -> Res B) : list A -> Res (list B) :=
  fix go (l : list A) := match l with [] => Ok [] | x :: l => y ← f x; ys ← go l; Ok (y :: ys) end.
Fixpoint Encode (e : Encoder) : Res Encoder :=
  match e with
  | ENamed e n => e ← Encode e; Ok (ENamed e n)
  | EError e => e ← Encode e; Ok (EError e)
  | ENulls values runs run null count =>
      values ← Encode values;
      runs ← (if count =? 0 then Ok runs
              else runs ← (if 0 <? run then int_Write runs run else Ok runs); prim_Encode runs);
      Ok (ENulls values runs run null count)
  | ERecord fields count => fields ← each (fun f => e ← Encode f.2; Ok (f.1, e)) fields; Ok (ERecord fields count)
  | EArray t values lengths count => lengths ← prim_Encode lengths; values ← Encode values; Ok (EArray t values lengths count)
  | ESet t values lengths count => lengths ← prim_Encode lengths; values ← Encode values; Ok (ESet t values lengths count)
  | EMap keys values lengths count =>
      lengths ← prim_Encode lengths; keys ← Encode keys; values ← Encode values; Ok (EMap keys values lengths count)
  | EUnion id ts values tags count => tags ← prim_Encode tags; values ← each Encode values; Ok (EUnion id ts values tags count)
  | EPrimitive p => p ← prim_Encode p; Ok (EPrimitive p)
  end.
(** The metadata of a tree whose data starts at an offset, and where it ends. *)
Definition each_at {A B C} (f : A -> Z -> Res (Z * B * C)) : list A -> Z -> Res (Z * list B * list C) :=
  fix go (l : list A) (off : Z) :=
    match l with
    | [] => Ok (off, [], [])
    | x :: l => '(off, y, z) ← f x off; '(off, ys, zs) ← go l off; Ok (off, y :: ys, z :: zs)
    end.
Fixpoint Metadata_ (e : Encoder) (off : Z) : Res (Z * Metadata * Encoder) :=
  match e with
  | ENamed e n => '(off, m, e) ← Metadata_ e off; Ok (off, MNamed n m, ENamed e n)
  | EError e => '(off, m, e) ← Metadata_ e off; Ok (off, MError m, EError e)
  | ENulls values runs run null count =>
      '(off, m, values) ← Metadata_ values off;
      if count =? 0 then Ok (off, m, ENulls values runs run null count)
      else '(off, loc, runs) ← int_Metadata runs off; Ok (off, MNulls loc m count, ENulls values runs run null count)
  | ERecord fields count =>
      '(off, ms, fields) ← each_at (fun f off => '(off, m, e) ← Metadata_ f.2 off; Ok (off, (f.1, m), (f.1, e))) fields off;
      Ok (off, MRecord count ms, ERecord fields count)
  | EArray t values lengths count =>
      '(off, loc, lengths) ← int_Metadata lengths off;
      '(off, m, values) ← Metadata_ values off; Ok (off, MArray count loc m, EArray t values lengths count)
  | ESet t values lengths count =>
      '(off, loc, lengths) ← int_Metadata lengths off;
      '(off, m, values) ← Metadata_ values off; Ok (off, MSet count loc m, ESet t values lengths count)
  | EMap keys values lengths count =>
      '(off, loc, lengths) ← int_Metadata lengths off;
      '(off, k, keys) ← Metadata_ keys off;
      '(off, v, values) ← Metadata_ values off; Ok (off, MMap count loc k v, EMap keys values lengths count)
  | EUnion id ts values tags count =>
      '(off, loc, tags) ← int_Metadata tags off;
      '(off, ms, values) ← each_at Metadata_ values off; Ok (off, MUnion count loc ms, EUnion id ts values tags count)
  | EPrimitive p => '(off, m, p) ← prim_Metadata p off; Ok (off, m, EPrimitive p)
  end.
Fixpoint Emit (e : Encoder) : list byte :=
  match e with
  | ENamed e _ | EError e => Emit e
  | ENulls values runs _ _ count => Emit values ++ (if count =? 0 then [] else p_out runs)
  | ERecord fields _ => concat (map (fun f => Emit f.2) fields)
  | EArray _ values lengths _ | ESet _ values lengths _ => p_out lengths ++ Emit values
  | EMap keys values lengths _ => p_out lengths ++ Emit keys ++ Emit values
  | EUnion _ _ values tags _ => p_out tags ++ concat (map Emit values)
  | EPrimitive p => p_out p
  end.

(** ** The dynamic encoder and the writer ([dynamic.go], [writer.go]) *)

(** How deep the encoder of a type is. *)
Fixpoint type_depth (t : ty) : nat :=
  match t with
  | TPrim _ | TEnum _ _ => 2
  | TNamed _ _ t | TError _ t => S (type_depth t)
  | TRecord _ fs => S (S (foldr (fun f n => Nat.max (type_depth f.2) n) O fs))
  | TArray _ t | TSet _ t => S (S (type_depth t))
  | TMap _ k v => S (S (Nat.max (type_depth k) (type_depth v)))
  | TUnion _ ts => S (S (foldr (fun t n => Nat.max (type_depth t) n) O ts))
  end.

(** [which] is keyed by types, which are pointers into a context. *)
Record DynamicEncoder := mkDynamic { dy_tags : PrimitiveEncoder; dy_values : list Encoder; dy_which : list (ty * nat); dy_len : Z }.
Definition NewDynamicEncoder : DynamicEncoder := mkDynamic NewInt64Encoder [] [] 0.
Fixpoint which_of (t : ty) (which : list (ty * nat)) : option nat :=
  match which with [] => None | (u, tag) :: which => if decide (u = t) then Some tag else which_of t which end.
Definition dynamic_Write (d : DynamicEncoder) (val : Value) : Res DynamicEncoder :=
  let typ := v_type val in
  let '(tag, d) := match which_of typ (dy_which d) with
                   | Some tag => (tag, d)
                   | None =>
                       let tag := length (dy_values d) in
                       (tag, mkDynamic (dy_tags d) (dy_values d ++ [NewEncoder typ]) (dy_which d ++ [(typ, tag)]) (dy_len d))
                   end in
  tags ← int_Write (dy_tags d) (Z.of_nat tag);
  b ← no_err (Value_Bytes to32 to16 val);
  match dy_values d !! tag with
  | Some e => e ← Write (type_depth typ) e b; Ok (mkDynamic tags (<[tag := e]> (dy_values d)) (dy_which d) (u32 (dy_len d + 1)))
  | None => Panic
  end.
Definition dynamic_Encode (d : DynamicEncoder) : Res (Metadata * Z * DynamicEncoder) :=
  tags ← (if 1 <? zlen (dy_values d) then prim_Encode (dy_tags d) else Ok (dy_tags d));
  values ← each Encode (dy_values d);
  match values with
  | [e] => '(off, m, e) ← Metadata_ e 0; Ok (m, off, mkDynamic tags [e] (dy_which d) (dy_len d))
  | _ =>
      '(off, loc, tags) ← int_Metadata tags 0;
      '(off, ms, values) ← each_at Metadata_ values off;
      Ok (MDynamic loc ms (dy_len d), off, mkDynamic tags values (dy_which d) (dy_len d))
  end.
Definition dynamic_Emit (d : DynamicEncoder) : list byte :=
  (if 1 <? zlen (dy_values d) then p_out (dy_tags d) else []) ++ concat (map Emit (dy_values d)).

(** The ZNG stream of the metadata. *)
Context (marshal : Metadata -> list byte) (unmarshal : list byte -> option Metadata).
Definition finalize (d : DynamicEncoder) : Res (list byte) :=
  '(m, dataSize, d) ← dynamic_Encode d;
  Ok (Serialize (mkHeader Version (zlen (marshal m)) dataSize) ++ marshal m ++ dynamic_Emit d).

(** ** Builders ([builder.go] and the files of the encoders) *)

(** What was read of a segment and is not used up, [None] before it is read. *)
Record PrimitiveBuilder := mkPBuilder { pb_loc : Segment; pb_it : option (list byte) }.
Unset Elimination Schemes.
Inductive Builder :=
| BNulls (values : Builder) (runs : PrimitiveBuilder) (null : bool) (run : Z)
| BRecord (values : list Builder)
| BArray (elems : Builder) (lengths : PrimitiveBuilder)
| BMap (keys values : Builder) (lengths : PrimitiveBuilder)
| BUnion (builders : list Builder) (tags : PrimitiveBuilder)
| BPrimitive (p : PrimitiveBuilder)
| BDict (loc : Segment) (dict : list DictEntry) (selectors : option (list byte)) (off : nat)
| BConst (b : bytes) (cnt : Z).
Set Elimination Schemes.

Fixpoint NewBuilder (m : Metadata) : Res Builder :=
  match m with
  | MNulls runs m _ => b ← NewBuilder m; Ok (BNulls b (mkPBuilder runs None) true 0)
  | MNamed _ m | MError m => NewBuilder m
  | MRecord _ fields => bs ← each (fun f => NewBuilder f.2) fields; Ok (BRecord bs)
  | MArray _ lengths m | MSet _ lengths m => b ← NewBuilder m; Ok (BArray b (mkPBuilder lengths None))
  | MMap _ lengths k v => k ← NewBuilder k; v ← NewBuilder v; Ok (BMap k v (mkPBuilder lengths None))
  | MUnion _ tags ms => bs ← each NewBuilder ms; Ok (BUnion bs (mkPBuilder tags None))
  | MPrimitive _ loc dict _ _ _ => Ok (match dict with [] => BPrimitive (mkPBuilder loc None) | _ => BDict loc dict None 0 end)
  | MConst v n => b ← no_err (Value_Bytes to32 to16 v); Ok (BConst b n)
  | MDynamic _ _ _ => Err ErrUnknown
  end.

Section reader.
Context (r : list byte).

Definition ReadBytes (p : PrimitiveBuilder) : Res (bytes * PrimitiveBuilder) :=
  it ← (match pb_it p with Some it => Ok it | None => segment_Read (pb_loc p) r end);
  if Done it then Err EOF
  else '(b, it) ← no_err (Next it); Ok (b, mkPBuilder (pb_loc p) (Some it)).
Definition int_Next (p : PrimitiveBuilder) : Res (Z * PrimitiveBuilder) := '(b, p) ← ReadBytes p; Ok (DecodeInt b, p).

(** The loop of [NullsBuilder.Build]: the next run that is not empty. *)
Fixpoint next_run (fuel : nat) (runs : PrimitiveBuilder) (null : bool) (run : Z) : Res (PrimitiveBuilder * bool * Z) :=
  if negb (run =? 0) then Ok (runs, null, run)
  else match fuel with
       | O => Err Diverges
       | S fuel => '(v, runs) ← int_Next runs; next_run fuel runs (negb null) v
       end.
(** The bytes that are left are more than the runs that are. *)
Definition runs_left (runs : PrimitiveBuilder) : nat := S (Z.to_nat (match pb_it runs with Some it => zlen it | None => MemLength (pb_loc runs) end)).

Fixpoint build_n (build : Builder -> Zcode.Builder -> Res (Builder * Zcode.Builder)) (n : nat) (b : Builder) (z : Zcode.Builder) :
    Res (Builder * Zcode.Builder) :=
  match n with O => Ok (b, z) | S n => '(b, z) ← build b z; build_n build n b z end.
Fixpoint build_pairs (build : Builder -> Zcode.Builder -> Res (Builder * Zcode.Builder)) (n : nat) (k v : Builder) (z : Zcode.Builder) :
    Res (Builder * Builder * Zcode.Builder) :=
  match n with
  | O => Ok (k, v, z)
  | S n => '(k, z) ← build k z; '(v, z) ← build v z; build_pairs build n k v z
  end.
Fixpoint build_all (build : Builder -> Zcode.Builder -> Res (Builder * Zcode.Builder)) (bs : list Builder) (z : Zcode.Builder) :
    Res (list Builder * Zcode.Builder) :=
  match bs with [] => Ok ([], z) | b :: bs => '(b, z) ← build b z; '(bs, z) ← build_all build bs z; Ok (b :: bs, z) end.
Fixpoint Build (fuel : nat) (b : Builder) (z : Zcode.Builder) : Res (Builder * Zcode.Builder) :=
  match fuel with
  | O => Err Diverges
  | S fuel =>
      match b with
      | BNulls values runs null run =>
          '(runs, null, run) ← next_run (runs_left runs) runs null run;
          if null : bool then Ok (BNulls values runs null (run - 1), BAppend z None)
          else '(values, z) ← Build fuel values z; Ok (BNulls values runs null (run - 1), z)
      | BRecord bs => '(bs, z) ← build_all (Build fuel) bs (BeginContainer z); z ← no_err (EndContainer z); Ok (BRecord bs, z)
      | BArray elems lengths =>
          '(len, lengths) ← int_Next lengths;
          '(elems, z) ← build_n (Build fuel) (Z.to_nat len) elems (BeginContainer z);
          z ← no_err (EndContainer z); Ok (BArray elems lengths, z)
      | BMap keys values lengths =>
          '(len, lengths) ← int_Next lengths;
          '(keys, values, z) ← build_pairs (Build fuel) (Z.to_nat len) keys values (BeginContainer z);
          z ← no_err (EndContainer z); Ok (BMap keys values lengths, z)
      | BUnion bs tags =>
          '(tag, tags) ← int_Next tags;
          match bs !! Z.to_nat tag with
          | Some b =>
              if tag <? 0 then Err ErrBadTag
              else
                t ← no_err (EncodeInt tag);
                '(b, z) ← Build fuel b (BAppend (BeginContainer z) t);
                z ← no_err (EndContainer z); Ok (BUnion (<[Z.to_nat tag := b]> bs) tags, z)
          | None => Err ErrBadTag
          end
      | BPrimitive p => '(b, p) ← ReadBytes p; Ok (BPrimitive p, BAppend z b)
      | BDict loc dict sels off =>
          sels ← (match sels with Some s => Ok s | None => segment_Read loc r end);
          match sels !! off with
          | None => Err EOF
          | Some s =>
              match dict !! Z.to_nat (bz s) with
              | None => Err ErrSelector
              | Some e => b ← no_err (Value_Bytes to32 to16 (d_Value e)); Ok (BDict loc dict (Some sels) (S off), BAppend z b)
              end
          end
      | BConst b cnt => if cnt =? 0 then Err EOF else Ok (BConst b (cnt - 1), BAppend z b)
      end
  end.
End reader.

(** How deep the builder of metadata is. *)
Fixpoint meta_depth (m : Metadata) : nat :=
  match m with
  | MNamed _ m | MError m => meta_depth m
  | MNulls _ m _ | MArray _ _ m | MSet _ _ m => S (meta_depth m)
  | MRecord _ fields => S (foldr (fun f n => Nat.max (meta_depth f.2) n) O fields)
  | MMap _ _ k v => S (Nat.max (meta_depth k) (meta_depth v))
  | MUnion _ _ ms | MDynamic _ ms _ => S (foldr (fun m n => Nat.max (meta_depth m) n) O ms)
  | MPrimitive _ _ _ _ _ _ | MConst _ _ => 1
  end.

(** ** Objects and their readers ([object.go], [dynamic.go]) *)

Record Object := mkObject { o_data : list byte; o_header : Header; o_meta : Metadata }.
Definition ReadHeader (f : list byte) : Res Header :=
  if zlen f =? 0 then Err EOF else if zlen f <? HeaderSize then Err ErrHeader else Deserialize (take (Z.to_nat HeaderSize) f).
Definition NewObject (f : list byte) : Res Object :=
  h ← ReadHeader f;
  let rest := drop (Z.to_nat HeaderSize) f in
  match unmarshal (take (Z.to_nat (MetaSize h)) rest) with
  | None => Err ErrMetadata
  | Some m => Ok (mkObject (take (Z.to_nat (i64 (DataSize h))) (drop (Z.to_nat (MetaSize h)) rest)) h m)
  end.

Inductive Reader :=
| RDynamic (types : list ty) (tags : PrimitiveBuilder) (values : list Builder) (builder : Zcode.Builder)
| RVector (typ : ty) (values : Builder) (builder : Zcode.Builder) (count : Z).
(** The builders and the types of metadata, in a context. *)
Definition in_context {A} (m : M A) (c : Context) : Res (A * Context) := omap_err (fun _ => Diverges) (m c).
Fixpoint new_builders (ms : list Metadata) (c : Context) : Res (list Builder * list ty * Context) :=
  match ms with
  | [] => Ok ([], [], c)
  | m :: ms =>
      b ← NewBuilder m; '(t, c) ← in_context (meta_Type m) c;
      '(bs, ts, c) ← new_builders ms c; Ok (b :: bs, t :: ts, c)
  end.
Definition NewZedReader (m : Metadata) (c : Context) : Res (Reader * Context) :=
  match m with
  | MDynamic tags ms _ => '(bs, ts, c) ← new_builders ms c; Ok (RDynamic ts (mkPBuilder tags None) bs Zcode.NewBuilder, c)
  | _ => b ← NewBuilder m; '(t, c) ← in_context (meta_Type m) c; Ok (RVector t b Zcode.NewBuilder (Len m), c)
  end.

Definition built (t : ty) (z : Zcode.Builder) : Res Value := b ← no_err (Bytes_ z); b ← no_err (Body b); Ok (NewValue t b).
Definition Read (data : list byte) (fuel : nat) (r : Reader) : Res (option Value * Reader) :=
  match r with
  | RVector t values z count =>
      if count =? 0 then Ok (None, r)
      else
        '(values, z) ← Build data fuel values (Truncate z);
        v ← built t z; Ok (Some v, RVector t values z (count - 1))
  | RDynamic ts tags values z =>
      match int_Next data tags with
      | Err EOF => Ok (None, r)
      | Ok (tag, tags) =>
          if zlen ts <=? tag then Err ErrBadTag
          else if tag <? 0 then Panic
          else match values !! Z.to_nat tag, ts !! Z.to_nat tag with
               | Some b, Some t =>
                   '(b, z) ← Build data fuel b (Truncate z);
                   v ← built t z; Ok (Some v, RDynamic ts tags (<[Z.to_nat tag := b]> values) z)
               | _, _ => Panic
               end
      | Err e => Err e
      | Panic => Panic
      end
  end.
End vng.
