(* ===== verification/VngProofs.v ===== *)
(** * VNG: what is written is read

    A column of primitives, with or without a dictionary, then runs of nulls,
    then the columns of a type by induction on it: [holds] says what an encoder
    of a type has taken in, [yields] what a builder gives. *)

From S2P Require Import Prelude Zcode Types Context Interning Primitive Values.
From S2P Require Import Decode EncodingProps ValueProofs Compare CompareProofs Vng.
Local Open Scope Z_scope.

Lemma u32_id n : 0 <= n < 2 ^ 32 -> u32 n = n.
Proof. intros H. unfold u32. by rewrite Z.mod_small. Qed.
Lemma u32_succ n : u32 (u32 n + 1) = u32 (n + 1).
Proof. unfold u32. by rewrite Zplus_mod_idemp_l. Qed.
Lemma zlen_map {A B} (f : A -> B) l : zlen (map f l) = zlen l.
Proof. unfold zlen. by rewrite length_map. Qed.
Lemma body_of_app a b : body_of (a ++ b) = body_of a ++ body_of b.
Proof. unfold body_of. by rewrite map_app, concat_app. Qed.
Lemma body_of_snoc a v : body_of (a ++ [v]) = body_of a ++ val_bytes v.
Proof. rewrite body_of_app. unfold body_of at 2. cbn. by rewrite app_nil_r. Qed.
Lemma body_length vs : (length vs <= length (body_of vs))%nat.
Proof.
  induction vs as [|v vs IH]; [done|]. unfold body_of in *. cbn [map concat length]. rewrite length_app. pose proof (length_val v). lia.
Qed.
Lemma BAppend_val z v : BAppend z v = Zcode.mkBuilder (Some (default [] (b_bytes z) ++ val_bytes v)) (containers z).
Proof. unfold BAppend. by rewrite Append_val. Qed.
Lemma BAppend_all z vs : foldl BAppend (BeginContainer z) vs =
  Zcode.mkBuilder (Some (default [] (b_bytes z) ++ Byte.x00 :: body_of vs)) (containers z ++ [zlen (default [] (b_bytes z)) + 1]).
Proof.
  induction vs as [|v vs IH] using rev_ind.
  - cbn [foldl]. unfold BeginContainer. by rewrite zlen_app.
  - rewrite foldl_app, IH. cbn [foldl]. rewrite BAppend_val, body_of_snoc. cbn [b_bytes containers default from_option id].
    by rewrite <- app_assoc.
Qed.
Lemma keys_unique {A B} (d : list (A * B)) x n m : NoDup (map fst d) -> (x, n) ∈ d -> (x, m) ∈ d -> n = m.
Proof.
  intros Hn Hx Hy. induction d as [|[k o] d IH]; [by apply elem_of_nil in Hx|]. cbn [map fst] in Hn. apply NoDup_cons in Hn as [Hk Hn].
  assert (Hin : forall v, (x, v) ∈ d -> x ∈ map fst d) by (intros v Hv; apply list_elem_of_fmap; by exists (x, v)).
  apply elem_of_cons in Hx as [[= -> ->]|Hx]; apply elem_of_cons in Hy as [Hy|Hy].
  - by injection Hy.
  - by apply Hin in Hy.
  - injection Hy as -> ->. by apply Hin in Hx.
  - by apply IH.
Qed.
(** A container built of values is the value of their bytes. *)
Lemma container_built z vs : zlen (body_of vs) < 2 ^ 62 -> EndContainer (foldl BAppend (BeginContainer z) vs) = Ok (BAppend z (Some (body_of vs))).
Proof. intros H. rewrite BAppend_all, EndContainer_body by done. by rewrite BAppend_val. Qed.

Section vng.
Context `{LZ : !LZ4Block, LZL : !LZ4BlockLaws} (to32 of32 to16 of16 : Z -> Z).
Context (iteration iteration' : forall {A : Type}, list A -> list A).
Context (Hit : forall A (l : list A), iteration A l ≡ₚ l) (Hit' : forall A (l : list A), iteration' A l ≡ₚ l).
Local Abbreviation sort_ok t := (fun x : list byte => sortable to32 to16 false NewContext (NewValue t (Some x))).
Local Abbreviation key t := (fun x : list byte => vkey to32 to16 false (NewValue t (Some x))).
Local Abbreviation prim_Write := (prim_Write to32 of32 to16 of16).
Local Abbreviation int_Write := (int_Write to32 of32 to16 of16).
Local Abbreviation prim_Encode := (prim_Encode to32 of32 to16 of16 (@iteration)).
Local Abbreviation prim_Metadata := (prim_Metadata to32 of32 to16 of16 (@iteration')).
Local Abbreviation Build := (Build to32 to16).
Local Abbreviation NewBuilder := (NewBuilder to32 to16).
Local Abbreviation makeDict := (makeDict to32 of32 to16 of16).

Lemma Compare_key t x y : sort_ok t x -> sort_ok t y ->
  Compare.Compare to32 of32 to16 of16 (NewValueCompareFn false false) (NewValue t (Some x)) (NewValue t (Some y)) = Ok (lex (key t x) (key t y)).
Proof.
  intros Hx Hy. unfold Compare.Compare. cbn [Compare_loop NewValueCompareFn NewComparator Compare.exprs Compare.nullsMax Eval_ desc].
  rewrite (compareValues_sortable _ _ _ _ _ NewContext NewContext_wf) by done. cbn [mbind outcome_bind obind].
  by destruct (Z.eqb_spec (lex (key t x) (key t y)) 0) as [->|].
Qed.
Lemma vcmp_key t x y : sort_ok t x -> sort_ok t y ->
  vcmp to32 of32 to16 of16 (NewValue t (Some x)) (NewValue t (Some y)) = Ok (lex (key t x) (key t y)).
Proof. intros Hx Hy. unfold vcmp. by rewrite Compare_key. Qed.

(** ** Columns of primitives *)

Record dict_ok (d : list (list byte * Z)) (xs : list (list byte)) : Prop := {
  do_nodup : NoDup (map fst d); do_all x : x ∈ map fst d <-> x ∈ xs; do_length : (length d <= 256)%nat }.
(** What a column has taken in. *)
Record pcol (t : ty) (xs : list (list byte)) (p : PrimitiveEncoder) : Prop := {
  pc_typ : p_typ p = t;
  pc_bytes : default [] (p_bytes p) = body_of (map Some xs);
  pc_count : p_count p = u32 (zlen xs);
  pc_min m : p_min p = Some m -> exists x, x ∈ xs /\ m = NewValue t (Some x);
  pc_max m : p_max p = Some m -> exists x, x ∈ xs /\ m = NewValue t (Some x);
  pc_dict d : p_dict p = Some d -> dict_ok d xs }.

Lemma pcol_new t u : pcol t [] (NewPrimitiveEncoder t u).
Proof.
  split; try done. intros d. unfold NewPrimitiveEncoder. cbn [p_dict]. destruct (u && _); [intros [= <-]|done].
  split; [constructor|done|cbn; lia].
Qed.
Lemma dict_add_elem b d x : x ∈ map fst (dict_add b d) <-> x = b \/ x ∈ map fst d.
Proof.
  induction d as [|[k n] d IH]; cbn [dict_add map fst]; [by rewrite list_elem_of_singleton, elem_of_nil; tauto|].
  case_decide as E; cbn [map fst]; rewrite !elem_of_cons, ?IH; [subst|]; tauto.
Qed.
Lemma dict_add_nodup b d : NoDup (map fst d) -> NoDup (map fst (dict_add b d)).
Proof.
  induction d as [|[k n] d IH]; cbn [dict_add map fst]; [intros _; apply NoDup_singleton|].
  intros [Hk Hd]%NoDup_cons. case_decide as E; cbn [map fst]; apply NoDup_cons; [done|]. split; [|by apply IH].
  rewrite dict_add_elem. intros [->|?]; done.
Qed.
Lemma best_ok t (xs : list (list byte)) x (m : option Value) (pick : Z -> bool) :
  Forall (sort_ok t) (xs ++ [x]) -> (forall v, m = Some v -> exists y, y ∈ xs /\ v = NewValue t (Some y)) ->
  exists y, y ∈ xs ++ [x] /\
    (match m with None => Ok (NewValue t (Some x)) | Some v => c ← vcmp to32 of32 to16 of16 (NewValue t (Some x)) v; Ok (if pick c then NewValue t (Some x) else v) end) =
    (Ok (NewValue t (Some y)) : outcome vng_error Value).
Proof.
  intros Hs Hm. destruct m as [v|]; [|exists x; by split; [set_solver|]]. destruct (Hm v eq_refl) as (y & Hy & ->).
  rewrite Forall_forall in Hs. rewrite vcmp_key by (apply Hs; set_solver). cbn [mbind outcome_bind obind].
  destruct (pick _); [exists x|exists y]; (split; [set_solver|done]).
Qed.
Lemma pcol_Write t xs x p : pcol t xs p -> Forall (sort_ok t) (xs ++ [x]) ->
  exists p', prim_Write p (Some x) = Ok p' /\ pcol t (xs ++ [x]) p' /\ (p_dict p = None -> p_dict p' = None).
Proof.
  intros [Ht Hb Hc Hmin Hmax Hd] Hs. unfold Vng.prim_Write, update. rewrite Ht.
  destruct (best_ok t xs x (p_min p) (fun c => c <? 0) Hs Hmin) as (lo & Hlo & ->).
  destruct (best_ok t xs x (p_max p) (fun c => 0 <? c) Hs Hmax) as (hi & Hhi & ->).
  cbn [mbind outcome_bind obind p_typ p_bytes p_bytesLen p_format p_out p_dict p_min p_max p_count].
  eexists. split; [done|]. split; [|by intros ->]. split; cbn [p_typ p_bytes p_dict p_min p_max p_count]; [done|..].
  - rewrite Append_val, Hb, map_app. cbn [map default from_option id]. by rewrite body_of_snoc.
  - rewrite Hc, u32_succ. by rewrite zlen_app.
  - intros m [= <-]. by exists lo.
  - intros m [= <-]. by exists hi.
  - intros d. destruct (p_dict p) as [d0|]; [|done]. destruct (Z.ltb_spec MaxDictSize (zlen (dict_add x d0))) as [|Hl]; [done|]. intros [= <-].
    destruct (Hd d0 eq_refl) as [Hn Ha Hl0]. split; [by apply dict_add_nodup|intros y; rewrite dict_add_elem, Ha, elem_of_app, list_elem_of_singleton; tauto|].
    unfold MaxDictSize, zlen in Hl. lia.
Qed.

(** ** Dictionaries *)

Definition distinct_keys (t : ty) (xs : list (list byte)) : Prop :=
  Forall (sort_ok t) xs /\ forall x y, x ∈ xs -> y ∈ xs -> key t x = key t y -> x = y.
Definition entries (t : ty) (d : list (list byte * Z)) : list DictEntry := map (fun kn => mkDictEntry (NewValue t (Some kn.1)) kn.2) d.
Definition ecmp (x y : DictEntry) : Z := lex (vkey to32 to16 false (d_Value x)) (vkey to32 to16 false (d_Value y)).

Lemma makeDict_sorted (order : forall A, list A -> list A) t d xs : (forall A (l : list A), order A l ≡ₚ l) ->
  dict_ok d xs -> distinct_keys t xs -> makeDict order t d = Ok (stable_sort (cmp_lt ecmp) (entries t d)).
Proof.
  intros Ho [Hn Ha _] [Hs Hk]. set (P := fun e => e ∈ entries t d).
  assert (HP : forall e, P e -> exists x n, (x, n) ∈ d /\ x ∈ xs /\ e = mkDictEntry (NewValue t (Some x)) n).
  { intros e ((x, n) & -> & Hin)%list_elem_of_fmap. exists x, n. split; [done|]. split; [|done]. apply Ha, list_elem_of_fmap. by exists (x, n). }
  assert (Hp : entries t (order _ d) ≡ₚ entries t d) by (unfold entries; by rewrite Ho).
  assert (Hall : Forall P (entries t (order _ d))) by (rewrite Hp; apply Forall_forall; done).
  unfold Vng.makeDict. rewrite (SliceStable_sort _ (cmp_lt ecmp) P) by (try done; intros a b (x & n & _ & Hx & ->)%HP (y & m & _ & Hy & ->)%HP;
    rewrite Forall_forall in Hs; cbn [d_Value]; by rewrite Compare_key by auto).
  unfold diverge_err. cbn [omap_err]. f_equal. apply (stable_sort_perm_eq ecmp P); [intros a b; apply (gc_antisym (cmp := lex))|intros a b c _ _ _; apply (gc_trans (cmp := lex))| |done|done].
  intros a b (x & n & Hin & Hx & ->)%HP (y & m & Hin' & Hy & ->)%HP E%(gc_eq (cmp := lex)). cbn [d_Value] in E. apply Hk in E; [|done..]. subst y.
  f_equal. by apply (keys_unique d x).
Qed.
(** Selectors of the entries that have the values. *)
Definition selects (t : ty) (dict : list DictEntry) (sels : list byte) (xs : list (list byte)) : Prop :=
  Forall2 (fun s x => exists e, dict !! Z.to_nat (bz s) = Some e /\ d_Value e = NewValue t (Some x)) sels xs.

Lemma dict_pos_spec t dict : forall off pos0, Forall (fun e => exists x, d_Value e = NewValue t (Some x)) dict ->
  exists pos, dict_pos to32 to16 off dict pos0 = Ok pos /\
    (forall x v, pos !! x = Some v -> pos0 !! x = Some v \/
      exists i e, dict !! i = Some e /\ d_Value e = NewValue t (Some x) /\ v = (off + Z.of_nat i) mod 256) /\
    forall x, is_Some (pos0 !! x) \/ (exists e, e ∈ dict /\ d_Value e = NewValue t (Some x)) -> is_Some (pos !! x).
Proof.
  induction dict as [|e dict IH]; intros off pos0 Hd; [exists pos0; split; [done|]; split; [by left|]; intros x [H|(e & He & _)]; [done|by apply elem_of_nil in He]|].
  apply Forall_cons in Hd as [[y Hy] Hd]. cbn [dict_pos]. rewrite Hy. cbn [Value_Bytes NewValue v_repr no_err mbind outcome_bind obind].
  destruct (IH (off + 1) (<[y := off mod 256]> pos0) Hd) as (pos & -> & Hpos & Hall). exists pos. split; [done|]. split.
  - intros x v Hx. destruct (Hpos x v Hx) as [H|(i & e' & Hi & He' & ->)].
    + apply lookup_insert_Some in H as [[<- <-]|[_ H]]; [right; exists 0%nat, e; split; [done|]; split; [done|f_equal; lia]|by left].
    + right. exists (S i), e'. split; [done|]. split; [done|]. f_equal. lia.
  - intros x Hx. apply Hall. destruct (decide (y = x)) as [->|Hne]; [left; rewrite lookup_insert_eq; by eexists|].
    destruct Hx as [H|(e' & [->|He']%elem_of_cons & E)]; [left; by rewrite lookup_insert_ne|rewrite Hy in E; by injection E|right; by exists e'].
Qed.
Lemma selectors_spec t dict pos xs : (length dict <= 256)%nat ->
  (forall x v, pos !! x = Some v -> exists i e, dict !! i = Some e /\ d_Value e = NewValue t (Some x) /\ v = (0 + Z.of_nat i) mod 256) ->
  (forall x, x ∈ xs -> is_Some (pos !! x)) -> exists sels, selectors_of pos (map Some xs) = Ok sels /\ selects t dict sels xs.
Proof.
  intros Hl Hpos. induction xs as [|x xs IH]; intros Hall; [exists []; split; [done|constructor]|]. cbn [map selectors_of].
  destruct (Hall x) as [v Hv]; [set_solver|]. rewrite Hv. destruct IH as (sels & -> & Hs); [intros y Hy; apply Hall; set_solver|].
  exists (zb v :: sels). split; [done|]. constructor; [|done]. destruct (Hpos x v Hv) as (i & e & Hi & He & ->). exists e. split; [|done].
  pose proof (lookup_lt_Some _ _ _ Hi). rewrite Z.mod_small, Z.add_0_l, bz_zb, Z.mod_small by lia. by rewrite Nat2Z.id.
Qed.

(** ** Encoded columns *)

(** An encoded column over the bytes it has in memory. *)
Record encoded (t : ty) (xs : list (list byte)) (mem : list byte) (p : PrimitiveEncoder) : Prop := {
  en_typ : p_typ p = t;
  en_count : p_count p = u32 (zlen xs);
  en_out : compressBuffer mem = (p_format p, p_out p);
  en_len : p_bytesLen p = zlen mem;
  en_mem : match p_dict p with
           | None => mem = body_of (map Some xs)
           | Some d => dict_ok d xs /\ selects t (stable_sort (cmp_lt ecmp) (entries t d)) mem xs
           end }.

Lemma entries_values t d e : e ∈ stable_sort (cmp_lt ecmp) (entries t d) <-> e ∈ entries t d.
Proof. by rewrite (stable_sort_perm (cmp_lt ecmp)). Qed.
Lemma prim_Encode_spec t xs p : pcol t xs p -> Forall small (map Some xs) -> (p_dict p <> None -> distinct_keys t xs) ->
  exists mem p', prim_Encode p = Ok p' /\ encoded t xs mem p' /\ (p_dict p = None -> p_dict p' = None).
Proof.
  intros Hp Hs Hk. pose proof Hp as [Ht Hb Hc _ _ Hd]. unfold Vng.prim_Encode. destruct (p_dict p) as [d|] eqn:Ed.
  - specialize (Hd d eq_refl). set (dict := stable_sort (cmp_lt ecmp) (entries t d)).
    assert (Hvals : Forall (fun e => exists x, d_Value e = NewValue t (Some x)) dict).
    { apply Forall_forall. intros e ((x & n) & -> & _)%entries_values%list_elem_of_fmap. by exists x. }
    destruct (dict_pos_spec t dict 0 ∅ Hvals) as (pos & Epos & Hpos & Hall).
    destruct (selectors_spec t dict pos xs) as (sels & Esels & Hsel).
    { unfold dict. rewrite length_stable_sort. unfold entries. rewrite length_map. apply Hd. }
    { intros x v Hx. destruct (Hpos x v Hx) as [H|H]; [by rewrite lookup_empty in H|done]. }
    { intros x Hx. apply Hall. right. apply (do_all _ _ Hd), list_elem_of_fmap in Hx as ((y & n) & -> & Hin).
      exists (mkDictEntry (NewValue t (Some y)) n). split; [|done]. apply entries_values, list_elem_of_fmap. by exists (y, n). }
    unfold makeDictVector. rewrite Ht, (makeDict_sorted _ t d xs Hit Hd) by by apply Hk. cbn [mbind outcome_bind obind]. fold dict. rewrite Epos.
    cbn [mbind outcome_bind obind]. unfold iter_all, Iter. rewrite Hb. pose proof (iter_all_body _ Hs) as Ei. unfold iter_all, Iter in Ei.
    cbn [default from_option id] in Ei. rewrite Ei. cbn [diverge_err omap_err mbind outcome_bind obind]. rewrite Esels.
    cbn [mbind outcome_bind obind]. destruct (compressBuffer sels) as [format out] eqn:Eo. exists sels. eexists. split; [done|]. split; [|done].
    by split.
  - cbn [mbind outcome_bind obind]. rewrite Hb. destruct (compressBuffer _) as [format out] eqn:Eo. exists (body_of (map Some xs)). eexists.
    split; [done|]. split; [|done]. by split.
Qed.

(** ** Reading segments *)

(** The segment of bytes at an offset of the data. *)
Lemma segment_Read_spec pre post mem format out r : compressBuffer mem = (format, out) -> r = pre ++ out ++ post -> zlen r < 2 ^ 63 ->
  mem <> [] -> segment_Read (mkSegment (zlen pre) (zlen out) (zlen mem) format) r = Ok mem.
Proof.
  intros Eo -> Hr Hne. pose proof (zlen_nonneg pre). pose proof (zlen_nonneg post). pose proof (zlen_nonneg out). rewrite !zlen_app in Hr.
  assert (Hread : forall b, out = b -> b <> [] -> ReadAt (pre ++ out ++ post) (i64 (zlen pre)) (zlen b) = Ok b).
  { intros b <- Hb. unfold ReadAt. rewrite i64_id by lia. assert (0 < zlen out) by (destruct out; [done|rewrite zlen_cons; pose proof (zlen_nonneg out); lia]).
    rewrite !zlen_app. destruct (Z.ltb_spec (zlen pre) 0), (Z.leb_spec (zlen pre + (zlen out + zlen post)) (zlen pre)),
      (Z.ltb_spec (zlen pre + (zlen out + zlen post)) (zlen pre + zlen out)); try lia. cbn [orb].
    unfold zlen. rewrite !Nat2Z.id. rewrite drop_app_length, take_app_length. done. }
  unfold compressBuffer in Eo. destruct (Z.eqb_spec (zlen mem) 0) as [E0|_]; [by destruct mem|].
  destruct (CompressBlock mem (zlen mem - 1)) as [z|] eqn:Ez; [destruct (Z.ltb_spec 0 (zlen z)) as [Hz|Hz]|]; injection Eo as <- <-;
    unfold segment_Read; cbn [CompressionFormat Offset Length_ MemLength]; unfold CompressionFormatNone, CompressionFormatLZ4; cbn [Z.eqb].
  2,3: by rewrite Hread.
  change (Z.pos 1 =? 0) with false. change (Z.pos 1 =? 1) with true. cbn iota. rewrite Hread by (destruct z; done). cbn [mbind outcome_bind obind].
  rewrite (block_roundtrip _ _ _ Ez). by rewrite Z.eqb_refl.
Qed.
Lemma segment_Read_empty off r : segment_Read (mkSegment off 0 0 0) r = Ok [] \/ segment_Read (mkSegment off 0 0 0) r = Err EOF.
Proof.
  unfold segment_Read, ReadAt. cbn [CompressionFormat Offset MemLength]. unfold CompressionFormatNone. cbn [Z.eqb]. destruct (_ || _); [by right|by left].
Qed.
Section reader.
Context (r : list byte).

(** The values a builder of a segment still has. *)
Definition reads (p : PrimitiveBuilder) (vs : list bytes) : Prop :=
  Forall small vs /\
  match pb_it p with
  | Some it => it = body_of vs
  | None => MemLength (pb_loc p) = zlen (body_of vs) /\
      (segment_Read (pb_loc p) r = Ok (body_of vs) \/ vs = [] /\ segment_Read (pb_loc p) r = Err EOF)
  end.
Lemma reads_nil p : reads p [] -> ReadBytes r p = Err EOF.
Proof.
  intros [_ H]. unfold ReadBytes. destruct (pb_it p) as [it|]; [by subst it|]. destruct H as [_ [->|[_ ->]]]; done.
Qed.
Lemma reads_cons p v vs : reads p (v :: vs) -> exists p', ReadBytes r p = Ok (v, p') /\ reads p' vs.
Proof.
  intros [[Hv Hvs]%Forall_cons H]. unfold ReadBytes.
  assert (E : (match pb_it p with Some it => Ok it | None => segment_Read (pb_loc p) r end) = (Ok (body_of (v :: vs)) : outcome vng_error (list byte))).
  { destruct (pb_it p); [by subst|]. by destruct H as [_ [H|[? _]]]. }
  rewrite E. change (body_of (v :: vs)) with (val_bytes v ++ body_of vs). cbn [mbind outcome_bind obind]. rewrite Done_val, Next_Append by done.
  cbn [no_err mbind outcome_bind obind]. eexists. split; [done|]. by split.
Qed.
Lemma reads_left p vs : reads p vs -> (length vs < runs_left p)%nat.
Proof.
  intros [_ H]. unfold runs_left. pose proof (body_length vs). assert (Z.of_nat (length vs) <= zlen (body_of vs)) by (unfold zlen; lia).
  destruct (pb_it p); [subst|destruct H as [-> _]]; lia.
Qed.
(** An encoded column of bytes, at its place in the data. *)
Lemma reads_encoded t xs mem p pre post : encoded t xs mem p -> p_dict p = None -> Forall small (map Some xs) ->
  r = pre ++ p_out p ++ post -> zlen r < 2 ^ 63 -> reads (mkPBuilder (prim_location p (zlen pre)) None) (map Some xs).
Proof.
  intros [_ _ Ho Hl Hm] Hd Hs Hr Hz. rewrite Hd in Hm. subst mem. split; [done|]. cbn [pb_it pb_loc]. unfold prim_location. cbn [MemLength]. rewrite Hl.
  split; [done|]. destruct xs as [|x xs].
  - cbn in Ho. injection Ho as Ef Eo. rewrite <- Eo, <- Ef. destruct (segment_Read_empty (zlen pre) r) as [E|E]; [by left|right; by split].
  - left. apply (segment_Read_spec pre post _ _ _ r Ho Hr Hz). intros E. pose proof (body_length (map Some (x :: xs))) as Hb. rewrite E in Hb. cbn in Hb. lia.
Qed.

(** Columns of integers. *)
Definition int64 (i : Z) : Prop := - 2 ^ 63 <= i < 2 ^ 63.
Definition ints (l : list Z) : list (list byte) := map (fun i => default [] (AppendInt None i)) l.
Definition int_reads (p : PrimitiveBuilder) (l : list Z) : Prop := Forall int64 l /\ reads p (map Some (ints l)).
Lemma int_Next_spec p i l : int_reads p (i :: l) -> exists p', int_Next r p = Ok (i, p') /\ int_reads p' l.
Proof.
  intros [[Hi Hl]%Forall_cons H]. destruct (reads_cons _ _ _ H) as (p' & E & H'). unfold int_Next. rewrite E. cbn [mbind outcome_bind obind].
  destruct (int_roundtrip i Hi) as (b & _ & -> & Hd). change (Some (default [] (AppendInt None i))) with (AppendInt None i). rewrite Hd. by exists p'.
Qed.
Lemma int_Next_nil p : int_reads p [] -> int_Next r p = Err EOF.
Proof. intros [_ H]. unfold int_Next. by rewrite (reads_nil p H). Qed.
Lemma int_reads_left p l : int_reads p l -> (length l < runs_left p)%nat.
Proof. intros [_ H%reads_left]. unfold ints in H. by rewrite !length_map in H. Qed.

(** ** What a builder gives *)

(** The values a builder gives, one by one. *)
Fixpoint yields (n : nat) (b : Builder) (bs : list bytes) : Prop :=
  match bs with
  | [] => True
  | x :: bs => exists b', (forall z, Build r n b z = Ok (b', BAppend z x)) /\ yields n b' bs
  end.

Lemma yields_primitive n p vs : reads p vs -> yields (S n) (BPrimitive p) vs.
Proof.
  revert p. induction vs as [|v vs IH]; intros p H; [done|]. destruct (reads_cons _ _ _ H) as (p' & E & H').
  exists (BPrimitive p'). split; [intros z; cbn [Vng.Build]; by rewrite E|by apply IH].
Qed.
Lemma yields_const n x k : k < 2 ^ 32 -> forall xs : list (list byte), zlen xs = k -> Forall (eq x) xs -> yields (S n) (BConst (Some x) k) (map Some xs).
Proof.
  intros Hk xs. revert k Hk. induction xs as [|y xs IH]; intros k Hk Hl Hx; [done|]. apply Forall_cons in Hx as [<- Hx]. rewrite zlen_cons in Hl.
  pose proof (zlen_nonneg xs). exists (BConst (Some x) (k - 1)). split; [|apply IH; [lia..|done]].
  intros z. cbn [Vng.Build]. by destruct (Z.eqb_spec k 0) as [|_]; [lia|].
Qed.
Lemma yields_dict n loc t dict sels : forall done_ xs, selects t dict sels xs ->
  yields (S n) (BDict loc dict (Some (done_ ++ sels)) (length done_)) (map Some xs).
Proof.
  intros done_ xs H. revert done_. induction H as [|s x sels xs (e & He & Ee) _ IH]; intros done_; [done|].
  exists (BDict loc dict (Some (done_ ++ s :: sels)) (S (length done_))). split.
  - intros z. cbn [Vng.Build mbind outcome_bind obind]. rewrite list_lookup_middle by done. rewrite He. by rewrite Ee.
  - specialize (IH (done_ ++ [s])). rewrite <- app_assoc, length_app, Nat.add_comm in IH. exact IH.
Qed.
Lemma yields_dict_unread n loc t dict sels xs : selects t dict sels xs -> segment_Read loc r = Ok sels \/ xs = [] ->
  yields (S n) (BDict loc dict None 0) (map Some xs).
Proof.
  intros H E. pose proof (yields_dict n loc t dict sels [] xs H) as Hy. destruct xs as [|x xs]; [done|]. destruct E as [E|]; [|done].
  destruct Hy as (b' & Hb & Hy). exists b'. split; [|done]. intros z. specialize (Hb z). cbn [Vng.Build] in *. by rewrite E.
Qed.

(** Containers of what the parts yield. *)
Lemma build_n_spec n b vs rest : yields n b (vs ++ rest) -> exists b', yields n b' rest /\
  forall z, build_n (Build r n) (length vs) b z = Ok (b', foldl BAppend z vs).
Proof.
  revert b. induction vs as [|v vs IH]; intros b H; [by exists b|]. destruct H as (b1 & E & H). destruct (IH b1 H) as (b' & H' & Hb).
  exists b'. split; [done|]. intros z. cbn [length build_n foldl]. rewrite E. cbn [mbind outcome_bind obind]. by rewrite Hb.
Qed.
Lemma build_pairs_spec n k v kvs krest vrest : yields n k (map fst kvs ++ krest) -> yields n v (map snd kvs ++ vrest) ->
  exists k' v', yields n k' krest /\ yields n v' vrest /\
    forall z, build_pairs (Build r n) (length kvs) k v z = Ok (k', v', foldl BAppend z (concat (map (fun kv => [kv.1; kv.2]) kvs))).
Proof.
  revert k v. induction kvs as [|[kb vb] kvs IH]; intros k v Hk Hv; [by exists k, v|]. destruct Hk as (k1 & Ek & Hk). destruct Hv as (v1 & Ev & Hv).
  destruct (IH k1 v1 Hk Hv) as (k' & v' & Hk' & Hv' & Hb). exists k', v'. split; [done|]. split; [done|]. intros z.
  cbn [length build_pairs map concat fst snd app foldl]. rewrite Ek. cbn [mbind outcome_bind obind]. rewrite Ev. cbn [mbind outcome_bind obind]. by rewrite Hb.
Qed.
Lemma build_all_spec n bs cols : Forall2 (yields n) bs (map (fun c => c.1 :: c.2) cols) ->
  exists bs', Forall2 (yields n) bs' (map snd cols) /\ forall z, build_all (Build r n) bs z = Ok (bs', foldl BAppend z (map fst cols)).
Proof.
  intros H. remember (map _ cols) as l eqn:E. revert cols E. induction H as [|b l' bs ls Hb _ IH]; intros [|[x xs] cols] E; try done.
  { exists []. by split; [constructor|]. }
  cbn [map fst snd] in E. injection E as -> ->. destruct Hb as (b1 & Eb & Hb). destruct (IH cols eq_refl) as (bs' & Hbs & Hall).
  exists (b1 :: bs'). split; [by constructor|]. intros z. cbn [build_all map fst foldl]. rewrite Eb. cbn [mbind outcome_bind obind]. by rewrite Hall.
Qed.
(** Bodies short enough for [EndContainer]. *)
Definition bodies (rows : list (list bytes)) : Prop := Forall (fun row => zlen (body_of row) < 2 ^ 62) rows.
Lemma yields_array n elems lengths rows : yields n elems (concat rows) -> int_reads lengths (map zlen rows) -> bodies rows ->
  yields (S n) (BArray elems lengths) (map (fun row => Some (body_of row)) rows).
Proof.
  revert elems lengths. induction rows as [|row rows IH]; intros elems lengths He Hl Hs; [done|]. apply Forall_cons in Hs as [Hs Hss].
  destruct (int_Next_spec _ _ _ Hl) as (lengths' & El & Hl'). destruct (build_n_spec n elems row _ He) as (elems' & He' & Eb).
  exists (BArray elems' lengths'). split; [|by apply IH]. intros z. cbn [Vng.Build]. rewrite El. cbn [mbind outcome_bind obind].
  unfold zlen. rewrite Nat2Z.id, Eb. cbn [mbind outcome_bind obind]. by rewrite container_built.
Qed.
Definition flat (kvs : list (bytes * bytes)) : list bytes := concat (map (fun kv => [kv.1; kv.2]) kvs).
Lemma yields_map n k v lengths rows : yields n k (map fst (concat rows)) -> yields n v (map snd (concat rows)) ->
  int_reads lengths (map zlen rows) -> bodies (map flat rows) -> yields (S n) (BMap k v lengths) (map (fun row => Some (body_of (flat row))) rows).
Proof.
  revert k v lengths. induction rows as [|row rows IH]; intros k v lengths Hk Hv Hl Hs; [done|]. cbn [map] in Hs. apply Forall_cons in Hs as [Hs Hss].
  destruct (int_Next_spec _ _ _ Hl) as (lengths' & El & Hl'). cbn [concat] in Hk, Hv. rewrite map_app in Hk, Hv.
  destruct (build_pairs_spec n k v row _ _ Hk Hv) as (k' & v' & Hk' & Hv' & Eb).
  exists (BMap k' v' lengths'). split; [|by apply IH]. intros z. cbn [Vng.Build]. rewrite El. cbn [mbind outcome_bind obind].
  unfold zlen. rewrite Nat2Z.id, Eb. cbn [mbind outcome_bind obind]. by rewrite container_built.
Qed.
(** The columns of rows of a width. *)
Fixpoint columns (w : nat) (rows : list (list bytes)) : list (list bytes) :=
  match w with O => [] | S w => map (hd None) rows :: columns w (map (@tl _) rows) end.
Lemma columns_cons w row rows : length row = w -> columns w (row :: rows) = map (fun c => c.1 :: c.2) (zip row (columns w rows)).
Proof. revert row rows. induction w as [|w IH]; intros [|x row] rows H; try done. cbn [columns map hd tl zip zip_with fst snd]. f_equal. apply IH. by injection H. Qed.
Lemma length_columns w rows : length (columns w rows) = w.
Proof. revert rows. induction w as [|w IH]; intros rows; [done|]. cbn. by rewrite IH. Qed.
Lemma yields_record n w rows : forall bs, Forall2 (yields n) bs (columns w rows) -> Forall (fun row => length row = w) rows -> bodies rows ->
  yields (S n) (BRecord bs) (map (fun row => Some (body_of row)) rows).
Proof.
  induction rows as [|row rows IH]; intros bs H Hw Hs; [done|]. apply Forall_cons in Hw as [Hw Hws]. apply Forall_cons in Hs as [Hs Hss].
  rewrite columns_cons in H by done. destruct (build_all_spec n bs _ H) as (bs' & H' & Eb).
  assert (Hz : length row = length (columns w rows)) by (by rewrite length_columns).
  assert (E2 : map snd (zip row (columns w rows)) = columns w rows) by (apply snd_zip; lia). rewrite E2 in H'.
  assert (E1 : map fst (zip row (columns w rows)) = row) by (apply fst_zip; lia). rewrite E1 in Eb. exists (BRecord bs'). split; [|by apply IH]. intros z. cbn [Vng.Build].
  rewrite Eb. cbn [mbind outcome_bind obind]. by rewrite container_built.
Qed.
(** The column of a tag. *)
Definition tagged (i : nat) (rows : list (nat * bytes)) : list bytes := omap (fun iv => if decide (iv.1 = i) then Some iv.2 else None) rows.
Definition union_body (iv : nat * bytes) : list bytes := [AppendInt None (Z.of_nat iv.1); iv.2].
Lemma yields_union n rows : forall bs tags, (forall i b, bs !! i = Some b -> yields n b (tagged i rows)) ->
  Forall (fun iv => (iv.1 < length bs)%nat) rows -> int_reads tags (map (fun iv => Z.of_nat iv.1) rows) -> bodies (map union_body rows) ->
  yields (S n) (BUnion bs tags) (map (fun iv => Some (body_of (union_body iv))) rows).
Proof.
  induction rows as [|[i v] rows IH]; intros bs tags H Hi Ht Hs; [done|]. apply Forall_cons in Hi as [Hi His]. cbn [map] in Hs.
  apply Forall_cons in Hs as [Hs Hss]. cbn [map fst] in *. destruct (int_Next_spec _ _ _ Ht) as (tags' & Et & Ht').
  destruct (lookup_lt_is_Some_2 bs i Hi) as [b Hb]. pose proof (H i b Hb) as Hy. unfold tagged in Hy. cbn [omap list_omap fst snd] in Hy.
  destruct (decide (i = i)) as [_|]; [|done]. destruct Hy as (b' & Eb & Hy). exists (BUnion (<[i := b']> bs) tags'). split.
  - intros z. cbn [Vng.Build]. rewrite Et. cbn [mbind outcome_bind obind]. rewrite Nat2Z.id, Hb. destruct (Z.ltb_spec (Z.of_nat i) 0); [lia|].
    rewrite EncodeInt_AppendInt by (destruct Ht as [[? _]%Forall_cons _]; done). cbn [no_err mbind outcome_bind obind]. rewrite Eb.
    cbn [mbind outcome_bind obind]. change (BAppend (BAppend (BeginContainer z) (AppendInt None (Z.of_nat i))) v) with (foldl BAppend (BeginContainer z) (union_body (i, v))).
    rewrite container_built by done. done.
  - apply IH; [|by rewrite length_insert|done|done]. intros j c Hc. destruct (decide (j = i)) as [->|Hne].
    + rewrite list_lookup_insert_eq in Hc by done. injection Hc as <-. exact Hy.
    + rewrite list_lookup_insert_ne in Hc by done. pose proof (H j c Hc) as Hj. unfold tagged in Hj. cbn [omap list_omap fst snd] in Hj.
      destruct (decide (i = j)); [by subst|]. exact Hj.
Qed.

(** ** Runs of nulls *)

Fixpoint expand (null : bool) (runs : list Z) : list bool :=
  match runs with [] => [] | n :: runs => replicate (Z.to_nat n) null ++ expand (negb null) runs end.
Definition is_null (b : bytes) : bool := match b with None => true | Some _ => false end.
Definition somes (bs : list bytes) : list (list byte) := omap id bs.
Lemma next_run_spec rest : forall fuel runs null run x nl, int_reads runs rest -> (length rest < fuel)%nat -> 0 <= run -> Forall (fun n => 0 <= n) rest ->
  replicate (Z.to_nat run) null ++ expand (negb null) rest = x :: nl ->
  exists runs' run' rest', next_run r fuel runs null run = Ok (runs', x, run') /\ 0 < run' /\ int_reads runs' rest' /\ Forall (fun n => 0 <= n) rest' /\
    nl = replicate (Z.to_nat (run' - 1)) x ++ expand (negb x) rest'.
Proof.
  induction rest as [|n rest IH]; intros fuel runs null run x nl Hr Hf Hrun Hrest E.
  - cbn [expand] in E. rewrite app_nil_r in E. destruct (Z.to_nat run) as [|k] eqn:Ek; [done|]. injection E as -> <-.
    exists runs, run, []. unfold next_run. destruct fuel; (destruct (Z.eqb_spec run 0); [lia|]); cbn [negb]; split; try done;
      (split; [lia|]; split; [done|]; split; [done|]; cbn [expand]; rewrite app_nil_r; f_equal; lia).
  - destruct (Z.to_nat run) as [|k] eqn:Ek.
    + assert (run = 0) as -> by lia. destruct fuel as [|fuel]; [cbn in Hf; lia|]. cbn [next_run]. change (negb (0 =? 0)) with false. cbn iota.
      destruct (int_Next_spec _ _ _ Hr) as (runs' & -> & Hr'). cbn [mbind outcome_bind obind]. apply Forall_cons in Hrest as [Hn Hrest].
      apply IH; try done. cbn in Hf. lia.
    + cbn [replicate app] in E. injection E as -> <-. exists runs, run, (n :: rest).
      assert (En : next_run r fuel runs x run = Ok (runs, x, run)) by (destruct fuel; cbn [next_run]; (destruct (Z.eqb_spec run 0); [lia|done])).
      split; [exact En|]. split; [lia|]. split; [done|]. split; [done|]. do 2 f_equal. lia.
Qed.
Lemma yields_nulls n bs : forall values runs null run rest, yields n values (map Some (somes bs)) -> int_reads runs rest -> 0 <= run ->
  Forall (fun n => 0 <= n) rest -> replicate (Z.to_nat run) null ++ expand (negb null) rest = map is_null bs ->
  yields (S n) (BNulls values runs null run) bs.
Proof.
  induction bs as [|x bs IH]; intros values runs null run rest Hv Hr Hrun Hrest E; [done|].
  destruct (next_run_spec rest (runs_left runs) runs null run _ _ Hr (int_reads_left _ _ Hr) Hrun Hrest E) as (runs' & run' & rest' & En & Hrun' & Hr' & Hrest' & E').
  destruct x as [x|]; cbn [is_null] in *.
  - destruct Hv as (values' & Ev & Hv). exists (BNulls values' runs' false (run' - 1)). split; [|apply (IH _ _ _ _ rest'); try done; lia].
    intros z. cbn [Vng.Build]. rewrite En. cbn [mbind outcome_bind obind]. by rewrite Ev.
  - exists (BNulls values runs' true (run' - 1)). split; [|apply (IH _ _ _ _ rest'); try done; lia].
    intros z. cbn [Vng.Build]. by rewrite En.
Qed.
End reader.

(** ** Columns of integers *)

Definition icol (l : list Z) (p : PrimitiveEncoder) : Prop := pcol (TPrim Int64) (ints l) p /\ p_dict p = None /\ Forall int64 l.
Definition iencoded (l : list Z) (p : PrimitiveEncoder) : Prop :=
  (exists mem, encoded (TPrim Int64) (ints l) mem p) /\ p_dict p = None /\ Forall int64 l.

Lemma sort_ok_int i : sort_ok (TPrim Int64) (default [] (AppendInt None i)).
Proof. split; [split; [intros H; discriminate H|by split]|eexists; reflexivity]. Qed.
Lemma counted_bytes_length n u : (length (counted_bytes n u) <= n)%nat.
Proof. revert u. induction n as [|n IH]; intros u; [done|]. cbn [counted_bytes]. destruct (u =? 0); cbn; [lia|]. pose proof (IH (Z.shiftr u 8)). lia. Qed.
Lemma small_ints l : Forall small (map Some (ints l)).
Proof.
  apply Forall_forall. intros b (x & -> & (i & -> & _)%list_elem_of_fmap)%list_elem_of_fmap. unfold small. cbn [default from_option id].
  unfold AppendInt, AppendCountedVarint, AppendCountedUvarint. cbn [default from_option id app].
  pose proof (counted_bytes_length 8 (counted_zigzag i)). unfold zlen. lia.
Qed.
Lemma icol_new : icol [] NewInt64Encoder.
Proof. split; [apply pcol_new|]. by split. Qed.
Lemma icol_Write l i p : icol l p -> int64 i -> exists p', int_Write p i = Ok p' /\ icol (l ++ [i]) p'.
Proof.
  intros (Hp & Hd & Hl) Hi. unfold Vng.int_Write. rewrite EncodeInt_AppendInt by done. cbn [no_err mbind outcome_bind obind].
  change (AppendInt None i) with (Some (default [] (AppendInt None i))). set (x := default [] (AppendInt None i)).
  destruct (pcol_Write (TPrim Int64) (ints l) x p Hp) as (p' & E & Hp' & Hd').
  - apply Forall_forall. intros y [(j & -> & _)%list_elem_of_fmap| ->%list_elem_of_singleton]%elem_of_app; apply sort_ok_int.
  - exists p'. split; [done|]. split; [unfold ints in *; by rewrite map_app|]. split; [by apply Hd'|]. apply Forall_app. split; [done|by constructor].
Qed.
Lemma icol_Encode l p : icol l p -> exists p', prim_Encode p = Ok p' /\ iencoded l p'.
Proof.
  intros (Hp & Hd & Hl). destruct (prim_Encode_spec _ _ _ Hp (small_ints l)) as (mem & p' & E & He & Hd'); [by rewrite Hd|].
  exists p'. split; [done|]. split; [by exists mem|]. split; [by apply Hd'|done].
Qed.
Lemma int_Metadata_spec l p off : iencoded l p -> int_Metadata to32 of32 to16 of16 (@iteration') p off = Ok (prim_next p off, prim_location p off, p).
Proof. intros (_ & Hd & _). unfold int_Metadata, Vng.prim_Metadata. by rewrite Hd. Qed.
Lemma iencoded_reads l p pre post r : iencoded l p -> r = pre ++ p_out p ++ post -> zlen r < 2 ^ 63 ->
  int_reads r (mkPBuilder (prim_location p (zlen pre)) None) l.
Proof. intros ([mem He] & Hd & Hl) Hr Hz. split; [done|]. apply (reads_encoded r _ _ mem p pre post He Hd (small_ints l) Hr Hz). Qed.

(** ** Runs of nulls, written *)

Record nulled (nl : list bool) (runs : PrimitiveEncoder) (run : Z) (null : bool) (count : Z) : Prop := {
  nu_count : count = u32 (zlen (List.filter id nl));
  nu_run : 0 <= run <= zlen nl;
  nu_runs : exists rs, icol rs runs /\ Forall (fun n => 0 <= n) rs /\ null = Nat.odd (length rs) /\
    expand false rs ++ replicate (Z.to_nat run) null = nl }.

Lemma expand_snoc b rs n : expand b (rs ++ [n]) = expand b rs ++ replicate (Z.to_nat n) (xorb b (Nat.odd (length rs))).
Proof.
  revert b. induction rs as [|m rs IH]; intros b; cbn [app expand length].
  - by rewrite xorb_false_r, app_nil_r.
  - rewrite IH, <- app_assoc, Nat.odd_succ, <- Nat.negb_odd. do 3 f_equal. by destruct b, (Nat.odd _).
Qed.
Lemma touch_spec isnull nl runs run null count : nulled nl runs run null count -> zlen nl < 2 ^ 32 ->
  exists runs' run' null', touch to32 of32 to16 of16 isnull runs run null = Ok (runs', run', null') /\
    nulled (nl ++ [isnull]) runs' run' null' (if isnull then u32 (count + 1) else count).
Proof.
  intros [Hc Hr (rs & Hi & Hrs & Hn & E)] Hl. unfold touch.
  assert (Hcount : (if isnull then u32 (count + 1) else count) = u32 (zlen (List.filter id (nl ++ [isnull])))).
  { rewrite List.filter_app, zlen_app, Hc. destruct isnull; cbn [List.filter id]; [by rewrite u32_succ|by rewrite Z.add_0_r]. }
  destruct (Bool.eqb null isnull) eqn:Eb.
  - apply eqb_prop in Eb as <-. exists runs, (i64 (run + 1)), null. split; [done|]. rewrite i64_id by lia. split; [done|rewrite zlen_app; change (zlen [null]) with 1; lia|].
    exists rs. split; [done|]. split; [done|]. split; [done|]. rewrite <- E, <- app_assoc. f_equal. rewrite Z2Nat.inj_add, replicate_add by lia. done.
  - destruct (icol_Write rs run runs Hi) as (runs' & Ew & Hi'); [unfold int64; lia|]. rewrite Ew. cbn [mbind outcome_bind obind]. exists runs', 1, isnull. split; [done|].
    pose proof (zlen_nonneg nl). split; [done|rewrite zlen_app; change (zlen [isnull]) with 1; lia|]. exists (rs ++ [run]). split; [done|].
    split; [apply Forall_app; split; [done|by constructor; [lia|]]|]. rewrite length_app, Nat.add_1_r, Nat.odd_succ, <- Nat.negb_odd, <- Hn.
    split; [by destruct null, isnull|]. rewrite expand_snoc, <- Hn, xorb_false_l, E. done.
Qed.
(** The runs that are encoded, when there are nulls. *)
Lemma nulled_Encode nl runs run null count : nulled nl runs run null count -> zlen nl < 2 ^ 32 ->
  exists runs' rs, (runs ← (if 0 <? run then int_Write runs run else Ok runs); prim_Encode runs) = Ok runs' /\ iencoded rs runs' /\
    Forall (fun n => 0 <= n) rs /\ expand false rs = nl.
Proof.
  intros [_ Hr (rs & Hi & Hrs & Hn & E)] Hl. destruct (Z.ltb_spec 0 run) as [H0|H0].
  - destruct (icol_Write rs run runs Hi) as (runs1 & -> & Hi1); [unfold int64; lia|]. cbn [mbind outcome_bind obind].
    destruct (icol_Encode _ _ Hi1) as (runs' & Ee & He). exists runs', (rs ++ [run]). split; [done|]. split; [done|].
    split; [apply Forall_app; split; [done|by constructor; [lia|]]|]. by rewrite expand_snoc, <- Hn, xorb_false_l.
  - cbn [mbind outcome_bind obind]. destruct (icol_Encode _ _ Hi) as (runs' & Ee & He). exists runs', rs. split; [done|]. split; [done|]. split; [done|].
    assert (run = 0) as -> by lia. by rewrite app_nil_r in E.
Qed.
Lemma nulled_new : nulled [] NewInt64Encoder 0 false 0.
Proof. split; [done|done|]. exists []. split; [apply icol_new|]. by split. Qed.

(** ** The columns of a type *)

(** Which bytes of a primitive type compare, and compare equal only to
    themselves. *)
Context (good : primitive -> list byte -> Prop).
Context (Hsort : forall p x, good p x -> sort_ok (TPrim p) x).
Context (Hdist : forall p x y, good p x -> good p y -> key (TPrim p) x = key (TPrim p) y -> x = y).

Definition all2 {A B} (P : A -> B -> Prop) : list A -> list B -> Prop :=
  fix go (l : list A) (k : list B) := match l, k with [], [] => True | x :: l, y :: k => P x y /\ go l k | _, _ => False end.
Definition all3 {A B C} (P : A -> B -> C -> Prop) : list A -> list B -> list C -> Prop :=
  fix go (l : list A) (k : list B) (j : list C) :=
    match l, k, j with [], [], [] => True | x :: l, y :: k, z :: j => P x y z /\ go l k j | _, _, _ => False end.
Lemma all2_Forall2 {A B} (P : A -> B -> Prop) l k : all2 P l k <-> Forall2 P l k.
Proof.
  split; [|by induction 1]. revert k. induction l as [|x l IH]; intros [|y k]; try done.
  intros [H Hl]. constructor; [done|by apply IH].
Qed.
Lemma all3_Forall3 {A B C} (P : A -> B -> C -> Prop) l k j : all3 P l k j <-> Forall3 P l k j.
Proof.
  split; [|by induction 1]. revert k j. induction l as [|x l IH]; intros [|y k] [|z j]; try done; [intros _; constructor|].
  intros [H Hl]. constructor; [done|by apply IH].
Qed.

(** The bytes of a type as they are encoded, tags in their shortest form. *)
Fixpoint storable (t : ty) (b : bytes) : Prop :=
  match b with
  | None => True
  | Some x =>
      match t with
      | TPrim p => good p x
      | TEnum _ _ => False
      | TNamed _ _ t | TError _ t => storable t b
      | TRecord _ fs => exists row, x = body_of row /\ all2 (fun f v => storable f.2 v) fs row
      | TArray _ t | TSet _ t => exists vs, x = body_of vs /\ Forall (storable t) vs
      | TMap _ k v => exists kvs, x = body_of (flat kvs) /\ Forall (fun kv => storable k kv.1 /\ storable v kv.2) kvs
      | TUnion _ ts => exists i v, x = body_of (union_body (i, v)) /\ NoDup ts /\
          (fix go (ts : list ty) (n : nat) := match ts, n with [], _ => False | t :: _, O => storable t v | _ :: ts, S n => go ts n end) ts i
      end
  end.
Lemma storable_null t : storable t None.
Proof. by destruct t. Qed.
Lemma storable_union (ts : list ty) v : forall i, (fix go (ts : list ty) (n : nat) := match ts, n with [], _ => False | t :: _, O => storable t v | _ :: ts, S n => go ts n end) ts i ->
  exists t, ts !! i = Some t /\ storable t v.
Proof. induction ts as [|t ts IH]; intros [|i] H; try done; [by exists t|]. by destruct (IH i H) as (u & ? & ?); exists u. Qed.

(** A column of values that can be null. *)
Definition nullable (Q : Encoder -> Prop) (bs : list bytes) (e : Encoder) : Prop :=
  match e with ENulls values runs run null count => nulled (map is_null bs) runs run null count /\ Q values | _ => False end.
Definition rows_of (bs : list bytes) {A} (f : A -> list bytes) (rows : list A) : Prop := somes bs = map (fun row => body_of (f row)) rows.
Definition counts (n : Z) (bs : list bytes) : Prop := n = u32 (zlen (somes bs)).
Definition tagged_columns (w : nat) (rows : list (nat * bytes)) : list (list bytes) := map (fun i => tagged i rows) (seq 0 w).

Definition prim_holds (p : primitive) (bs : list bytes) (e : Encoder) : Prop :=
  match e with EPrimitive pe => pcol (TPrim p) (somes bs) pe /\ Forall (good p) (somes bs) | _ => False end.
Definition record_holds (w : nat) (H : list (gostring * Encoder) -> list (list bytes) -> Prop) (bs : list bytes) (e : Encoder) : Prop :=
  match e with
  | ERecord es n => counts n bs /\ exists rows, rows_of bs (fun row => row) rows /\ Forall (fun row => length row = w) rows /\ H es (columns w rows)
  | _ => False
  end.
Definition list_holds (H : list bytes -> Encoder -> Prop) (set : bool) (bs : list bytes) (e : Encoder) : Prop :=
  match e with
  | EArray _ v l n | ESet _ v l n => set = (match e with ESet _ _ _ _ => true | _ => false end) /\
      counts n bs /\ exists rows, rows_of bs (fun row => row) rows /\ H (concat rows) v /\ icol (map zlen rows) l
  | _ => False
  end.
Definition map_holds (H H' : list bytes -> Encoder -> Prop) (bs : list bytes) (e : Encoder) : Prop :=
  match e with
  | EMap ke ve l n => counts n bs /\ exists rows, rows_of bs flat rows /\ H (map fst (concat rows)) ke /\ H' (map snd (concat rows)) ve /\ icol (map zlen rows) l
  | _ => False
  end.
Definition union_holds (ts : list ty) (H : list (list bytes) -> list Encoder -> Prop) (bs : list bytes) (e : Encoder) : Prop :=
  match e with
  | EUnion _ us es tags n => us = ts /\ counts n bs /\ exists rows, rows_of bs union_body rows /\ Forall (fun iv => (iv.1 < length ts)%nat) rows /\
      H (tagged_columns (length ts) rows) es /\ icol (map (fun iv => Z.of_nat iv.1) rows) tags
  | _ => False
  end.
(** What an encoder of a type has taken in. *)
Fixpoint holds (t : ty) (bs : list bytes) (e : Encoder) : Prop :=
  match t with
  | TNamed _ n u => match e with ENamed e n' => n' = n /\ holds u bs e | _ => False end
  | TError _ u => match e with EError e => holds u bs e | _ => False end
  | TPrim p => nullable (prim_holds p bs) bs e
  | TEnum _ _ => False
  | TRecord _ fs => nullable (record_holds (length fs) (all3 (fun f ne col => ne.1 = f.1 /\ holds f.2 col ne.2) fs) bs) bs e
  | TArray _ u => nullable (list_holds (holds u) false bs) bs e
  | TSet _ u => nullable (list_holds (holds u) true bs) bs e
  | TMap _ k v => nullable (map_holds (holds k) (holds v) bs) bs e
  | TUnion _ ts => nullable (union_holds ts (all3 holds ts) bs) bs e
  end.

(** ** Weights: every value counts with its bytes *)

Definition weight (bs : list bytes) : Z := foldr (fun b n => 1 + zlen (default [] b) + n) 0 bs.
Lemma weight_app a b : weight (a ++ b) = weight a + weight b.
Proof. induction a as [|x a IH]; [done|]. unfold weight in *. cbn [app foldr]. lia. Qed.
Lemma weight_of_nonneg a : zlen a <= weight a.
Proof. induction a as [|x a IH]; [done|]. unfold weight in *. cbn [foldr]. rewrite zlen_cons. pose proof (zlen_nonneg (default [] x)). lia. Qed.
Lemma weight_elem bs b : b ∈ bs -> zlen (default [] b) < weight bs.
Proof.
  induction bs as [|x bs IH]; [by intros ?%elem_of_nil|]. pose proof (weight_of_nonneg bs). pose proof (zlen_nonneg bs). pose proof (zlen_nonneg (default [] x)).
  unfold weight in *. cbn [foldr]. intros [->|Hb]%elem_of_cons; [lia|]. specialize (IH Hb). lia.
Qed.
Lemma weight_body vs : weight vs <= zlen (body_of vs).
Proof.
  induction vs as [|v vs IH]; [done|]. unfold weight, body_of in *. cbn [foldr map concat]. rewrite zlen_app.
  enough (1 + zlen (default [] v) <= zlen (val_bytes v)) by lia. destruct v as [v|]; cbn [val_bytes default from_option id].
  - rewrite zlen_app. pose proof (uvarint_bytes_pos (toTag (zlen v))). lia.
  - pose proof (uvarint_bytes_pos 0). change (zlen []) with 0. lia.
Qed.
Lemma weight_somes bs : weight (map Some (somes bs)) <= weight bs.
Proof. induction bs as [|[x|] bs IH]; [done|..]; unfold weight, somes in *; cbn [omap list_omap id map foldr]; [|pose proof (zlen_nonneg (default [] (None : bytes)))]; lia. Qed.
(** The rows of a column weigh no more than it. *)
Lemma weight_rows bs {A} (f : A -> list bytes) rows : rows_of bs f rows ->
  weight (concat (map f rows)) + zlen rows <= weight bs /\ bodies (map f rows) \/ 2 ^ 62 <= weight bs.
Proof.
  intros E. destruct (Z.lt_ge_cases (weight bs) (2 ^ 62)) as [Hl|]; [left|by right]. pose proof (weight_somes bs) as Hw. rewrite E in Hw. split.
  - enough (weight (concat (map f rows)) + zlen rows <= weight (map Some (map (fun row => body_of (f row)) rows))) by lia. clear.
    induction rows as [|row rows IH]; [done|]. cbn [map concat]. rewrite weight_app, zlen_cons. unfold weight at 3. cbn [foldr default from_option id].
    fold (weight (map Some (map (fun row => body_of (f row)) rows))). pose proof (weight_body (f row)). lia.
  - apply Forall_forall. intros body (row & -> & Hin)%list_elem_of_fmap.
    assert (Hb : Some (body_of (f row)) ∈ map Some (map (fun row => body_of (f row)) rows)).
    { apply list_elem_of_fmap. eexists. split; [done|]. apply list_elem_of_fmap. by exists row. }
    apply weight_elem in Hb. cbn [default from_option id] in Hb. lia.
Qed.
Lemma weight_column w rows : Forall (fun row => length row = w) rows -> Forall (fun col => weight col <= weight (concat rows)) (columns w rows).
Proof.
  revert rows. induction w as [|w IH]; intros rows Hr; [constructor|]. cbn [columns].
  assert (H : weight (map (hd None) rows) + weight (concat (map (@tl _) rows)) = weight (concat rows)).
  { clear IH. induction Hr as [|row rows Hr _ IH]; [done|]. cbn [map concat]. rewrite !weight_app. destruct row as [|b row]; [done|].
    unfold weight in *. cbn [hd tl foldr]. lia. }
  pose proof (weight_of_nonneg (map (hd None) rows)). pose proof (weight_of_nonneg (concat (map (@tl _) rows))).
  pose proof (zlen_nonneg (map (hd None) rows)). pose proof (zlen_nonneg (concat (map (@tl _) rows))). constructor; [lia|].
  eapply Forall_impl; [apply IH|].
  - apply Forall_forall. intros row' (row & -> & Hin)%list_elem_of_fmap. rewrite Forall_forall in Hr. specialize (Hr row Hin). destruct row; [done|by injection Hr].
  - intros col Hc. cbn beta in Hc. lia.
Qed.
Lemma weight_tagged i rows : weight (tagged i rows) <= weight (concat (map union_body rows)).
Proof.
  induction rows as [|[j v] rows IH]; [done|]. cbn [map concat]. rewrite weight_app. unfold tagged in *. cbn [omap list_omap fst snd].
  pose proof (weight_of_nonneg (union_body (j, v))). pose proof (zlen_nonneg (union_body (j, v))). destruct (decide (j = i)); [|lia].
  unfold weight, union_body in *. cbn [foldr fst snd] in *. pose proof (zlen_nonneg (default [] (AppendInt None (Z.of_nat j)))). lia.
Qed.
Lemma weight_pairs (kvs : list (bytes * bytes)) : weight (map fst kvs) <= weight (flat kvs) /\ weight (map snd kvs) <= weight (flat kvs).
Proof.
  induction kvs as [|[k v] kvs [IH1 IH2]]; [done|]. unfold weight, flat in *. cbn [map concat fst snd app foldr].
  pose proof (zlen_nonneg (default [] k)). pose proof (zlen_nonneg (default [] v)). lia.
Qed.
Lemma flat_concat rows : concat (map flat rows) = flat (concat rows).
Proof. induction rows as [|row rows IH]; [done|]. cbn [map concat]. rewrite IH. unfold flat. by rewrite map_app, concat_app. Qed.

(** ** Writing *)

Definition ordinary : ty -> Prop := hereditary (fun t => match t with TEnum _ _ => False | TUnion _ ts => short ts | _ => True end).
Lemma ordinary_parts t : ordinary t -> match t with
  | TPrim _ => True | TEnum _ _ => False
  | TNamed _ _ u | TError _ u | TArray _ u | TSet _ u => ordinary u
  | TMap _ k v => ordinary k /\ ordinary v
  | TRecord _ fs => Forall (fun f => ordinary f.2) fs
  | TUnion _ ts => short ts /\ Forall ordinary ts end.
Proof.
  intros [H Hc]%hereditary_components. destruct t; cbn [components] in Hc; try done; try (apply Forall_inv in Hc; exact Hc).
  - rewrite Forall_map in Hc. exact Hc.
  - split; [by apply Forall_inv in Hc|by apply Forall_inv_tail, Forall_inv in Hc].
Qed.
Lemma somes_app a b : somes (a ++ b) = somes a ++ somes b.
Proof. apply omap_app. Qed.
Lemma somes_none a : somes (a ++ [None]) = somes a.
Proof. rewrite somes_app. apply app_nil_r. Qed.
Lemma rows_snoc bs {A} (f : A -> list bytes) rows row : rows_of bs f rows -> rows_of (bs ++ [Some (body_of (f row))]) f (rows ++ [row]).
Proof. unfold rows_of. intros E. by rewrite somes_app, map_app, E. Qed.
Lemma counts_snoc n bs x : counts n bs -> counts (u32 (n + 1)) (bs ++ [Some x]).
Proof. unfold counts. intros ->. by rewrite u32_succ, somes_app, zlen_app. Qed.
Lemma columns_nil w : columns w [] = replicate w [].
Proof. induction w as [|w IH]; [done|]. cbn [columns map replicate]. by rewrite IH. Qed.
Lemma columns_snoc w row rows : length row = w -> columns w (rows ++ [row]) = zip_with (fun col v => col ++ [v]) (columns w rows) row.
Proof.
  revert row rows. induction w as [|w IH]; intros [|v row] rows H; try done. cbn [columns zip_with]. rewrite map_app. f_equal.
  rewrite map_app. apply IH. by injection H.
Qed.
Lemma tagged_snoc w rows i v : tagged_columns w (rows ++ [(i, v)]) = alter (fun col => col ++ [v]) i (tagged_columns w rows).
Proof.
  apply list_eq. intros j. unfold tagged_columns. destruct (decide (j = i)) as [->|Hne].
  - rewrite list_lookup_alter_eq, !list_lookup_fmap. destruct (seq 0 w !! i) as [k|] eqn:E; [|done]. apply lookup_seq in E as [-> _]. cbn [fmap option_fmap option_map].
    unfold tagged. rewrite omap_app. cbn [omap list_omap fst snd plus]. by destruct (decide (i = i)).
  - rewrite list_lookup_alter_ne, !list_lookup_fmap by done. destruct (seq 0 w !! j) as [k|] eqn:E; [|done]. apply lookup_seq in E as [-> _].
    cbn [fmap option_fmap option_map plus]. unfold tagged. rewrite omap_app. cbn [omap list_omap fst snd]. destruct (decide (i = j)); [by subst|]. by rewrite app_nil_r.
Qed.

Lemma holds_new t : ordinary t -> holds t [] (NewEncoder t).
Proof.
  induction t as [p|i fs IH|i t IH|i t IH|i k v IHk IHv|i ts IH|i ss|i t IH|i n t IH] using ty_ind; intros Ho%ordinary_parts; cbn [holds NewEncoder NewNullsEncoder];
    try (split; [apply nulled_new|]); try done.
  - split; [apply pcol_new|constructor].
  - split; [done|]. exists []. split; [done|]. split; [constructor|]. rewrite columns_nil. apply all3_Forall3.
    induction fs as [|f fs IHfs]; [constructor|]. apply Forall_cons in IH as [Hf IH]. apply Forall_cons in Ho as [Hof Ho]. constructor; [split; [done|by apply Hf]|by apply IHfs].
  - split; [done|]. split; [done|]. exists []. split; [done|]. split; [by apply IH|apply icol_new].
  - split; [done|]. split; [done|]. exists []. split; [done|]. split; [by apply IH|apply icol_new].
  - destruct Ho as [Hk Hv]. split; [done|]. exists []. split; [done|]. split; [by apply IHk|]. split; [by apply IHv|apply icol_new].
  - destruct Ho as [_ Ho]. split; [done|]. split; [done|]. exists []. split; [done|]. split; [constructor|]. split; [|apply icol_new]. unfold tagged_columns.
    apply all3_Forall3. generalize 0%nat. induction ts as [|t ts IHts]; intros k; [constructor|]. apply Forall_cons in IH as [Ht IH]. apply Forall_cons in Ho as [Hot Ho].
    cbn [length seq map]. constructor; [by apply Ht|by apply IHts].
  - by apply IH.
  - split; [done|]. by apply IH.
Qed.

Local Abbreviation Write := (Write to32 of32 to16 of16).
(** An encoder of a type takes in another value. *)
Definition writes (n : nat) (t : ty) : Prop := forall bs e b, holds t bs e -> storable t b -> weight (bs ++ [b]) < 2 ^ 32 ->
  exists e', Write n e b = Ok e' /\ holds t (bs ++ [b]) e'.

Lemma nullable_Write (Q : list bytes -> Encoder -> Prop) n bs e b : nullable (Q bs) bs e -> weight (bs ++ [b]) < 2 ^ 32 ->
  (forall values, Q bs values -> match b with
     | None => Q (bs ++ [None]) values
     | Some x => exists values', Write n values b = Ok values' /\ Q (bs ++ [b]) values' end) ->
  exists e', Write (S n) e b = Ok e' /\ nullable (Q (bs ++ [b])) (bs ++ [b]) e'.
Proof.
  intros He Hw HQ. destruct e as [| |values runs run null count| | | | | |]; try done. destruct He as [Hn Hv]. specialize (HQ values Hv).
  pose proof (weight_of_nonneg (bs ++ [b])) as Hl. rewrite zlen_app in Hl. change (zlen [b]) with 1 in Hl.
  assert (Hl' : zlen (map is_null bs) < 2 ^ 32) by (rewrite zlen_map; lia).
  destruct (touch_spec (is_null b) _ _ _ _ _ Hn Hl') as (runs' & run' & null' & Et & Hn').
  cbn [Vng.Write]. destruct b as [x|]; cbn [is_null] in *; rewrite Et; cbn [mbind outcome_bind obind].
  - destruct HQ as (values' & -> & HQ). cbn [mbind outcome_bind obind]. eexists. split; [done|]. split; [by rewrite map_app|done].
  - eexists. split; [done|]. split; [by rewrite map_app|done].
Qed.
Lemma write_each_holds n u vs : writes n u -> forall bs e, holds u bs e -> Forall (storable u) vs -> weight (bs ++ vs) < 2 ^ 32 ->
  exists e', write_each (Write n) e vs = Ok e' /\ holds u (bs ++ vs) e'.
Proof.
  intros Hn. induction vs as [|v vs IH]; intros bs e He Hs Hw; [exists e; by rewrite app_nil_r|]. apply Forall_cons in Hs as [Hs Hss].
  rewrite cons_middle, app_assoc in Hw |- *.
  pose proof (weight_app (bs ++ [v]) vs). pose proof (weight_of_nonneg vs). pose proof (zlen_nonneg vs).
  destruct (Hn bs e v He Hs) as (e1 & E & He1); [lia|]. cbn [app write_each]. rewrite E. cbn [mbind outcome_bind obind]. by apply IH.
Qed.
Lemma write_pairs_holds n k v kvs : writes n k -> writes n v -> forall ks vs ke ve, holds k ks ke -> holds v vs ve ->
  Forall (fun kv => storable k kv.1 /\ storable v kv.2) kvs -> weight (ks ++ map fst kvs) < 2 ^ 32 -> weight (vs ++ map snd kvs) < 2 ^ 32 ->
  exists ke' ve', write_pairs (Write n) ke ve kvs = Ok (ke', ve') /\ holds k (ks ++ map fst kvs) ke' /\ holds v (vs ++ map snd kvs) ve'.
Proof.
  intros Hk Hv. induction kvs as [|[kb vb] kvs IH]; intros ks vs ke ve He He' Hs Hw Hw'; [exists ke, ve; cbn [map]; by rewrite !app_nil_r|].
  apply Forall_cons in Hs as [[Hs Hs'] Hss]. cbn [map fst snd] in *. rewrite (cons_middle kb), app_assoc in Hw |- *. rewrite (cons_middle vb), app_assoc in Hw' |- *.
  pose proof (weight_app (ks ++ [kb]) (map fst kvs)). pose proof (weight_app (vs ++ [vb]) (map snd kvs)).
  pose proof (weight_of_nonneg (map fst kvs)). pose proof (zlen_nonneg (map fst kvs)). pose proof (weight_of_nonneg (map snd kvs)). pose proof (zlen_nonneg (map snd kvs)).
  destruct (Hk ks ke kb He Hs) as (ke1 & E & He1); [lia|]. destruct (Hv vs ve vb He' Hs') as (ve1 & E' & He1'); [lia|].
  cbn [write_pairs]. rewrite E. cbn [mbind outcome_bind obind]. rewrite E'. cbn [mbind outcome_bind obind]. by apply IH.
Qed.
Lemma weight_small bs b : b ∈ bs -> weight bs < 2 ^ 32 -> small b.
Proof. intros Hb%weight_elem Hw. unfold small. lia. Qed.
Lemma write_fields_holds n fs es cols : Forall3 (fun f ne col => ne.1 = f.1 /\ holds f.2 col ne.2) fs es cols -> Forall (fun f => writes n f.2) fs ->
  forall row, Forall2 (fun f v => storable f.2 v) fs row -> Forall2 (fun col v => weight (col ++ [v]) < 2 ^ 32) cols row ->
  exists es', write_fields (Write n) es (body_of row) = Ok es' /\
    Forall3 (fun f ne col => ne.1 = f.1 /\ holds f.2 col ne.2) fs es' (zip_with (fun col v => col ++ [v]) cols row).
Proof.
  induction 1 as [|f [nm e] col fs es cols [Hnm He] _ IH]; intros Hn row Hs Hw; [exists []; split; [done|]; inversion Hs; constructor|].
  apply Forall_cons in Hn as [Hn Hns]. destruct row as [|v row]; [by inversion Hs|]. apply Forall2_cons in Hs as [Hs Hss]. apply Forall2_cons in Hw as [Hw Hws].
  destruct (Hn _ _ v He Hs Hw) as (e' & E & He'). destruct (IH Hns row Hss Hws) as (es' & E' & Hes').
  exists ((nm, e') :: es'). split; [|by constructor]. cbn [write_fields]. change (body_of (v :: row)) with (val_bytes v ++ body_of row).
  rewrite Next_Append by (by apply (weight_small (col ++ [v])); [set_solver|]). cbn [no_err mbind outcome_bind obind]. cbn [snd] in *. rewrite E. cbn [mbind outcome_bind obind]. by rewrite E'.
Qed.

Lemma rows_weight bs {A} (f : A -> list bytes) rows row : rows_of bs f rows -> weight (bs ++ [Some (body_of (f row))]) < 2 ^ 32 ->
  weight (concat (map f rows) ++ f row) < 2 ^ 32 /\ zlen rows < 2 ^ 32.
Proof.
  intros Hr%(rows_snoc bs f rows row) Hw. destruct (weight_rows _ _ _ Hr) as [[H _]|]; [|lia]. rewrite map_app, concat_app in H. cbn [map concat] in H.
  rewrite app_nil_r in H. rewrite zlen_app in H. pose proof (zlen_nonneg rows). change (zlen [row]) with 1 in H.
  pose proof (weight_of_nonneg (concat (map f rows) ++ f row)). pose proof (zlen_nonneg (concat (map f rows) ++ f row)). lia.
Qed.
Lemma iter_pairs kvs : Forall (fun kv => small kv.1 /\ small kv.2) kvs -> forall fuel, (length kvs <= fuel)%nat ->
  iter_loop NextTwo fuel (body_of (flat kvs)) = Ok kvs.
Proof.
  induction 1 as [|[k v] kvs [Hk Hv] _ IH]; intros fuel Hf; [by destruct fuel|]. cbn [fst snd] in *. cbn [length] in Hf. destruct fuel as [|fuel]; [lia|].
  change (body_of (flat ((k, v) :: kvs))) with (val_bytes k ++ val_bytes v ++ body_of (flat kvs)). cbn [iter_loop]. rewrite Done_val. unfold NextTwo at 1.
  rewrite Next_Append by done. cbn [mbind outcome_bind obind]. rewrite Next_Append by done. cbn [mbind outcome_bind obind]. rewrite IH by lia. done.
Qed.
Lemma length_flat kvs : (length kvs <= length (flat kvs))%nat.
Proof. induction kvs as [|kv kvs IH]; [done|]. unfold flat in *. cbn [map concat app length]. lia. Qed.
Lemma flat_elem k v kvs : (k, v) ∈ kvs -> k ∈ flat kvs /\ v ∈ flat kvs.
Proof.
  induction kvs as [|[k' v'] kvs IH]; [by intros ?%elem_of_nil|]. change (flat ((k', v') :: kvs)) with (k' :: v' :: flat kvs).
  intros [[= -> ->]|H%IH]%elem_of_cons; rewrite !elem_of_cons; tauto.
Qed.
Lemma Forall3_update {A B C} (P : A -> B -> C -> Prop) l k j i f y : Forall3 P l k j -> (forall x c, l !! i = Some x -> k !! i = Some c -> P x (f c) y) ->
  Forall3 P l (alter f i k) (<[i := y]> j).
Proof.
  intros H. revert i. induction H as [|x c z l k j Hp H IH]; intros i Hy; [constructor|]. destruct i as [|i]; cbn.
  - constructor; [by apply Hy|done].
  - constructor; [done|]. apply IH. intros x' c'. apply (Hy x' c').
Qed.
Lemma TagOf_unique ts i t : NoDup ts -> ts !! i = Some t -> TagOf ts t = Z.of_nat i.
Proof.
  intros Hn Hi. unfold TagOf. destruct (union_lut_from_spec ts t 0 (-1)) as [_ H]. destruct H as (j & -> & Hj); [by eapply list_elem_of_lookup_2|].
  rewrite Z.add_0_l. f_equal. by apply (NoDup_lookup ts j i t).
Qed.
Lemma Untag_body uid ts i t v : short ts -> ts !! i = Some t -> small v -> Untag uid ts (Some (body_of (union_body (i, v)))) = Ok (t, v).
Proof.
  intros Hl Hi Hv. pose proof (lookup_lt_Some _ _ _ Hi) as Hlt. unfold short, zlen in Hl. assert (Hr : - 2 ^ 63 <= Z.of_nat i < 2 ^ 63) by lia.
  destruct (int_roundtrip _ Hr) as (b & _ & -> & Hd). unfold Untag, Iter, union_body, body_of. cbn [default from_option id fst snd map concat].
  pose proof (small_ints [Z.of_nat i]) as Hs%Forall_inv. change (Some (default [] (AppendInt None (Z.of_nat i)))) with (AppendInt None (Z.of_nat i)) in Hs.
  rewrite Next_Append by done. cbn [mbind outcome_bind obind]. rewrite Hd, i64_id by lia. unfold UnionType.
  rewrite (proj2 (Z.ltb_ge _ _)) by lia. unfold zlen. rewrite (proj2 (Z.leb_gt _ _)) by lia. cbn [orb]. rewrite Nat2Z.id, Hi.
  rewrite Next_Append by done. done.
Qed.

Lemma foldr_max_elem {A} (f : A -> nat) l x : x ∈ l -> (f x <= foldr (fun y n => Nat.max (f y) n) O l)%nat.
Proof. induction l as [|y l IH]; [by intros ?%elem_of_nil|]. cbn [foldr]. intros [->|H]%elem_of_cons; [lia|]. specialize (IH H). lia. Qed.
Lemma Forall_zipped {A B C} (P : C -> Prop) (f : A -> B -> C) l k : length l = length k -> Forall P (zip_with f l k) -> Forall2 (fun x y => P (f x y)) l k.
Proof.
  revert k. induction l as [|x l IH]; intros [|y k] H HP; try done. cbn [zip_with] in HP. apply Forall_cons in HP as [Hx HP]. constructor; [done|].
  apply IH; [by injection H|done].
Qed.
(** Each kind of column takes in another value that is not null. *)
Ltac unchanged H := unfold prim_holds, record_holds, list_holds, map_holds, union_holds, counts, rows_of in H |- *; by rewrite somes_none.
Lemma primitive_Write n p bs x e : good p x -> prim_holds p bs e -> exists e', Write (S n) e (Some x) = Ok e' /\ prim_holds p (bs ++ [Some x]) e'.
Proof.
  intros Hx. destruct e as [| | | | | | | |pe]; try done. intros [Hp Hg]. unfold prim_holds. rewrite somes_app. change (somes [Some x]) with [x].
  assert (Hg' : Forall (good p) (somes bs ++ [x])) by (apply Forall_app; split; [done|by constructor]).
  destruct (pcol_Write (TPrim p) _ x pe Hp) as (p' & E & Hp' & _); [eapply Forall_impl; [exact Hg'|apply Hsort]|].
  exists (EPrimitive p'). cbn [Vng.Write]. by rewrite E.
Qed.
Local Abbreviation fields_hold fs := (all3 (fun f ne col => ne.1 = f.1 /\ holds f.2 col ne.2) fs).
Lemma record_Write n fs bs row e : Forall (fun f => writes n f.2) fs -> Forall2 (fun f v => storable f.2 v) fs row ->
  weight (bs ++ [Some (body_of row)]) < 2 ^ 32 -> record_holds (length fs) (fields_hold fs) bs e ->
  exists e', Write (S n) e (Some (body_of row)) = Ok e' /\ record_holds (length fs) (fields_hold fs) (bs ++ [Some (body_of row)]) e'.
Proof.
  intros Hn Hs Hw He. destruct e as [| | |es m| | | | |]; try done. destruct He as (Hm & rows & Hr & Hl & Ha%all3_Forall3). pose proof (Forall2_length _ _ _ Hs) as Hlen.
  destruct (rows_weight bs _ rows row Hr Hw) as [Hw' _]. rewrite map_id in Hw'.
  assert (Hl' : Forall (fun row => length row = length fs) (rows ++ [row])) by (apply Forall_app; split; [done|by constructor]).
  destruct (write_fields_holds n fs es _ Ha Hn row Hs) as (es' & E & Ha').
  - pose proof (weight_column (length fs) (rows ++ [row]) Hl') as Hc. rewrite concat_app in Hc. cbn [concat] in Hc. rewrite app_nil_r in Hc.
    rewrite columns_snoc in Hc by done. apply Forall_zipped in Hc; [|by rewrite length_columns].
    eapply Forall2_impl; [exact Hc|]. intros col v H. cbn beta in H. lia.
  - exists (ERecord es' (u32 (m + 1))). cbn [Vng.Write]. unfold Iter. cbn [default from_option id]. rewrite E. split; [done|].
    split; [by apply counts_snoc|]. exists (rows ++ [row]). split; [by apply (rows_snoc bs (fun row => row))|]. split; [done|]. apply all3_Forall3. by rewrite columns_snoc by done.
Qed.
Lemma zlen_int64 {A} (l : list A) n : zlen l <= n -> n < 2 ^ 32 -> int64 (zlen l).
Proof. intros. pose proof (zlen_nonneg l). unfold int64. lia. Qed.
Lemma elements_Write n u bs vs : writes n u -> Forall (storable u) vs -> weight (bs ++ [Some (body_of vs)]) < 2 ^ 32 ->
  forall v l rows, rows_of bs (fun row => row) rows -> holds u (concat rows) v -> icol (map zlen rows) l ->
  exists v' l', iter_all (Some (body_of vs)) = Ok vs /\ write_each (Write n) v vs = Ok v' /\ int_Write l (zlen vs) = Ok l' /\
    holds u (concat (rows ++ [vs])) v' /\ icol (map zlen (rows ++ [vs])) l'.
Proof.
  intros Hn Hs Hw v l rows Hr Hv Hl. destruct (rows_weight bs _ rows vs Hr Hw) as [Hw' _]. rewrite map_id in Hw'.
  destruct (write_each_holds n u vs Hn _ v Hv Hs Hw') as (v' & E & Hv').
  rewrite weight_app in Hw'. pose proof (weight_of_nonneg vs). pose proof (weight_of_nonneg (concat rows)). pose proof (zlen_nonneg (concat rows)).
  destruct (icol_Write _ (zlen vs) l Hl) as (l' & E' & Hl'); [by apply (zlen_int64 vs (weight vs)); lia|].
  exists v', l'. split; [apply iter_all_body, Forall_forall; intros b Hb; apply (weight_small vs); [done|lia]|].
  split; [done|]. split; [done|]. rewrite concat_app, map_app. cbn [concat map]. by rewrite app_nil_r.
Qed.
Lemma list_Write n u set bs vs e : writes n u -> Forall (storable u) vs -> weight (bs ++ [Some (body_of vs)]) < 2 ^ 32 -> list_holds (holds u) set bs e ->
  exists e', Write (S n) e (Some (body_of vs)) = Ok e' /\ list_holds (holds u) set (bs ++ [Some (body_of vs)]) e'.
Proof.
  intros Hn Hs Hw He. destruct e as [| | | |t v l m|t v l m| | |]; try done; destruct He as (-> & Hm & rows & Hr & Hv & Hl);
    destruct (elements_Write n u bs vs Hn Hs Hw v l rows Hr Hv Hl) as (v' & l' & Ei & E & E' & Hv' & Hl');
    [exists (EArray t v' l' (u32 (m + 1)))|exists (ESet t v' l' (u32 (m + 1)))]; cbn [Vng.Write]; rewrite Ei; cbn [diverge_err omap_err mbind outcome_bind obind];
    rewrite E; cbn [mbind outcome_bind obind]; rewrite E'; (split; [done|]); (split; [done|]); (split; [by apply counts_snoc|]); exists (rows ++ [vs]);
    (split; [by apply (rows_snoc bs (fun row => row))|done]).
Qed.
Lemma map_Write n k v bs kvs e : writes n k -> writes n v -> Forall (fun kv => storable k kv.1 /\ storable v kv.2) kvs ->
  weight (bs ++ [Some (body_of (flat kvs))]) < 2 ^ 32 -> map_holds (holds k) (holds v) bs e ->
  exists e', Write (S n) e (Some (body_of (flat kvs))) = Ok e' /\ map_holds (holds k) (holds v) (bs ++ [Some (body_of (flat kvs))]) e'.
Proof.
  intros Hn Hn' Hs Hw He. destruct e as [| | | | | |ke ve l m| |]; try done. destruct He as (Hm & rows & Hr & Hk & Hv & Hl).
  destruct (rows_weight bs flat rows kvs Hr Hw) as [Hw' _]. rewrite weight_app, flat_concat in Hw'.
  pose proof (weight_pairs kvs) as [? ?]. pose proof (weight_pairs (concat rows)) as [? ?].
  pose proof (weight_of_nonneg (flat kvs)). pose proof (weight_of_nonneg (flat (concat rows))). pose proof (zlen_nonneg (flat kvs)). pose proof (zlen_nonneg (flat (concat rows))).
  destruct (write_pairs_holds n k v kvs Hn Hn' _ _ ke ve Hk Hv Hs) as (ke' & ve' & E & Hk' & Hv'); [rewrite weight_app; lia..|].
  pose proof (length_flat kvs). destruct (icol_Write _ (zlen kvs) l Hl) as (l' & E' & Hl'); [apply (zlen_int64 kvs (zlen (flat kvs))); unfold zlen in *; lia|].
  exists (EMap ke' ve' l' (u32 (m + 1))). split.
  - cbn [Vng.Write]. unfold Iter. cbn [default from_option id]. rewrite iter_pairs.
    + cbn [diverge_err omap_err mbind outcome_bind obind]. rewrite E. cbn [mbind outcome_bind obind]. by rewrite E'.
    + apply Forall_forall. intros [kb vb] Hin. pose proof (flat_elem _ _ _ Hin) as [? ?]. split; apply (weight_small (flat kvs)); (done || lia).
    + pose proof (body_length (flat kvs)). lia.
  - split; [by apply counts_snoc|]. exists (rows ++ [kvs]). split; [by apply (rows_snoc bs flat)|]. rewrite concat_app, !map_app. cbn [concat]. by rewrite app_nil_r.
Qed.
Lemma union_Write n ts bs i v t e : writes n t -> short ts -> NoDup ts -> ts !! i = Some t -> storable t v ->
  weight (bs ++ [Some (body_of (union_body (i, v)))]) < 2 ^ 32 -> union_holds ts (all3 holds ts) bs e ->
  exists e', Write (S n) e (Some (body_of (union_body (i, v)))) = Ok e' /\ union_holds ts (all3 holds ts) (bs ++ [Some (body_of (union_body (i, v)))]) e'.
Proof.
  intros Hn Hl Hnd Hi Hs Hw He. destruct e as [| | | | | | |uid us es tags m|]; try done. destruct He as (-> & Hm & rows & Hr & Hrs & Ha%all3_Forall3 & Ht).
  destruct (rows_weight bs union_body rows (i, v) Hr Hw) as [Hw' _].
  rewrite weight_app in Hw'. pose proof (weight_of_nonneg (concat (map union_body rows))). pose proof (zlen_nonneg (concat (map union_body rows))).
  assert (Hv : small v) by (apply (weight_small (union_body (i, v))); [unfold union_body; rewrite elem_of_cons, list_elem_of_singleton; by right|lia]).
  pose proof (lookup_lt_Some _ _ _ Hi) as Hlt. assert (Hr63 : int64 (Z.of_nat i)) by (unfold short, zlen in Hl; unfold int64; lia).
  destruct (icol_Write _ _ tags Ht Hr63) as (tags' & E & Ht'). cbn [Vng.Write]. rewrite (Untag_body uid ts i t v Hl Hi Hv). cbn [no_err mbind outcome_bind obind].
  rewrite (TagOf_unique ts i t Hnd Hi), E. cbn [mbind outcome_bind obind]. rewrite Nat2Z.id.
  assert (Hc : tagged_columns (length ts) rows !! i = Some (tagged i rows)) by (unfold tagged_columns; rewrite list_lookup_fmap, lookup_seq_lt by done; done).
  destruct (Forall3_lookup_m _ _ _ _ _ _ Ha Hc) as (t' & e & Hi' & He & Hh). rewrite Hi in Hi'. injection Hi' as <-. rewrite He.
  destruct (Z.ltb_spec (Z.of_nat i) 0) as [|_]; [lia|].
  assert (Et : tagged i (rows ++ [(i, v)]) = tagged i rows ++ [v]).
  { unfold tagged. rewrite omap_app. cbn [omap list_omap fst snd]. by destruct (decide (i = i)). }
  pose proof (weight_tagged i (rows ++ [(i, v)])) as Hwt. rewrite Et, map_app, concat_app, (weight_app (concat _)) in Hwt. cbn [map concat] in Hwt. rewrite app_nil_r in Hwt.
  destruct (Hn _ e v Hh Hs) as (e' & -> & Hh'); [lia|]. cbn [mbind outcome_bind obind]. eexists. split; [done|].
  split; [done|]. split; [by apply counts_snoc|]. exists (rows ++ [(i, v)]). split; [by apply (rows_snoc bs union_body)|].
  split; [apply Forall_app; split; [done|by constructor]|]. split; [|by rewrite map_app]. apply all3_Forall3. rewrite tagged_snoc.
  apply Forall3_update; [done|]. intros u c Hu Hc'. rewrite Hi in Hu. rewrite Hc in Hc'. injection Hu as <-. injection Hc' as <-. exact Hh'.
Qed.
Lemma Write_holds t : ordinary t -> forall n, (type_depth t <= n)%nat -> writes n t.
Proof.
  induction t as [p|i fs IH|i t IH|i t IH|i k v IHk IHv|i ts IH|i ss|i t IH|i nm t IH] using ty_ind; intros Ho%ordinary_parts n Hn bs e b He Hs Hw; cbn [type_depth] in Hn; try done.
  all: try (destruct n as [|[|n]]; [lia..|]; cbn [holds] in He |- *).
  - apply nullable_Write; [done..|]. intros values Hv. destruct b as [x|]; [|unchanged Hv]. by apply primitive_Write.
  - apply (nullable_Write (record_holds _ (fields_hold fs))); [done..|]. intros values Hv. destruct b as [x|]; [|unchanged Hv].
    destruct Hs as (row & -> & Hs%all2_Forall2). apply record_Write; try done. apply Forall_forall. intros f Hf. rewrite Forall_forall in IH, Ho.
    apply IH; [done|by apply Ho|]. pose proof (foldr_max_elem (fun f : field => type_depth f.2) fs f Hf). lia.
  - apply (nullable_Write (list_holds (holds t) false)); [done..|]. intros values Hv. destruct b as [x|]; [|unchanged Hv].
    destruct Hs as (vs & -> & Hs). apply list_Write; try done. apply IH; [done|lia].
  - apply (nullable_Write (list_holds (holds t) true)); [done..|]. intros values Hv. destruct b as [x|]; [|unchanged Hv].
    destruct Hs as (vs & -> & Hs). apply list_Write; try done. apply IH; [done|lia].
  - apply (nullable_Write (map_holds (holds k) (holds v))); [done..|]. intros values Hv. destruct b as [x|]; [|unchanged Hv].
    destruct Hs as (kvs & -> & Hs). destruct Ho as [Hk Hv']. apply map_Write; try done; [apply IHk|apply IHv]; (done || lia).
  - apply (nullable_Write (union_holds ts (all3 holds ts))); [done..|]. intros values Hv. destruct b as [x|]; [|unchanged Hv].
    destruct Hs as (j & v & -> & Hnd & Hs). apply storable_union in Hs as (t & Ht & Hs). destruct Ho as [Hsh Ho]. rewrite Forall_forall in IH, Ho.
    assert (Hin : t ∈ ts) by by eapply list_elem_of_lookup_2. apply (union_Write n ts bs j v t); try done. apply IH; [done|by apply Ho|].
    pose proof (foldr_max_elem type_depth ts t Hin). lia.
  - destruct n as [|n]; [lia|]. destruct e as [|e| | | | | | |]; try done. destruct (IH Ho n) with (bs := bs) (e := e) (b := b) as (e' & E & He'); [lia|done|destruct b; [done|apply storable_null]|done|].
    exists (EError e'). cbn [Vng.Write]. by rewrite E.
  - destruct n as [|n]; [lia|]. destruct e as [e nm'| | | | | | | |]; try done. destruct He as [-> He].
    destruct (IH Ho n) with (bs := bs) (e := e) (b := b) as (e' & E & He'); [lia|done|destruct b; [done|apply storable_null]|done|]. exists (ENamed e' nm). cbn [Vng.Write]. by rewrite E.
Qed.

(** ** Encoding, and reading what was encoded *)

Local Abbreviation Encode := (Encode to32 of32 to16 of16 (@iteration)).
Local Abbreviation Metadata_ := (Metadata_ to32 of32 to16 of16 (@iteration')).
Definition core (m : Metadata) : Metadata := match m with MNulls _ m _ => m | m => m end.
(** Metadata of a type. *)
Fixpoint describes (t : ty) (m : Metadata) : Prop :=
  match t with
  | TNamed _ n u => match m with MNamed n' m => n' = n /\ describes u m | _ => False end
  | TError _ u => match m with MError m => describes u m | _ => False end
  | TPrim p => match core m with MPrimitive t _ _ _ _ _ => t = TPrim p | MConst v _ => v_type v = TPrim p | _ => False end
  | TEnum _ _ => False
  | TRecord _ fs => match core m with MRecord _ ms => all2 (fun f nm => nm.1 = f.1 /\ describes f.2 nm.2) fs ms | _ => False end
  | TArray _ u => match core m with MArray _ _ m => describes u m | _ => False end
  | TSet _ u => match core m with MSet _ _ m => describes u m | _ => False end
  | TMap _ k v => match core m with MMap _ _ mk mv => describes k mk /\ describes v mv | _ => False end
  | TUnion _ ts => match core m with MUnion _ _ ms => all2 describes ts ms | _ => False end
  end.
(** Bytes that are at an offset of the data give a column by their metadata. *)
Definition placed (out : list byte) (m : Metadata) (off off' : Z) (bs : list bytes) : Prop := forall r pre post,
  r = pre ++ out ++ post -> zlen pre = off -> zlen r < 2 ^ 63 ->
  off' = off + zlen out /\ exists b, NewBuilder m = Ok b /\ forall n, (meta_depth m <= n)%nat -> yields r n b bs.
Definition emits (D : Metadata -> Prop) (bs : list bytes) (e : Encoder) : Prop := forall off, exists off' m e',
  Metadata_ e off = Ok (off', m, e') /\ D m /\ Len m = u32 (zlen bs) /\ placed (Emit e') m off off' bs.
Definition encodes (D : Metadata -> Prop) (bs : list bytes) (e : Encoder) : Prop := exists e', Encode e = Ok e' /\ emits D bs e'.
(** What a column has inside, nulls apart. *)
Definition inner (t : ty) (m : Metadata) : Prop := core m = m /\ describes t m.

Lemma prim_next_spec p off pre post r : r = pre ++ p_out p ++ post -> zlen pre = off -> zlen r < 2 ^ 63 -> prim_next p off = off + zlen (p_out p).
Proof.
  intros -> <- Hr. rewrite !zlen_app in Hr. pose proof (zlen_nonneg pre). pose proof (zlen_nonneg (p_out p)). pose proof (zlen_nonneg post).
  unfold prim_next. rewrite u64_id by lia. done.
Qed.
Lemma prim_emits pr xs mem p : encoded (TPrim pr) xs mem p -> (p_dict p <> None -> distinct_keys (TPrim pr) xs) -> Forall small (map Some xs) -> zlen xs < 2 ^ 32 ->
  emits (inner (TPrim pr)) (map Some xs) (EPrimitive p).
Proof.
  intros He Hk Hs Hl off. pose proof He as [Ht Hc Ho Hlen Hm]. cbn [Vng.Metadata_]. unfold Vng.prim_Metadata. pose proof (zlen_nonneg xs).
  destruct (p_dict p) as [[|[x n] [|kn d]]|] eqn:Ed; cbn [mbind outcome_bind obind].
  - destruct Hm as [[_ Ha _] _]. assert (xs = []) as -> by (destruct xs as [|x xs]; [done|]; destruct (Ha x) as [_ H']; exfalso; apply (elem_of_nil x), H'; by left).
    eexists _, _, _. split; [done|]. split; [by split|]. split; [done|]. intros r pre post Hr Hp Hz. split; [by apply (prim_next_spec p off pre post r)|]. by eexists.
  - destruct Hm as [[_ Ha _] _]. unfold Const. rewrite Ed. cbn [mbind outcome_bind obind]. eexists _, _, _. split; [done|]. split; [by rewrite Ht|]. split; [by rewrite zlen_map|].
    intros r pre post Hr Hp Hz. split; [cbn [Emit p_out]; change (zlen []) with 0; lia|]. eexists. split; [done|]. intros [|n'] Hn; [by cbn in Hn; lia|].
    apply yields_const; [rewrite Hc, u32_id; lia|by rewrite Hc, u32_id|]. apply Forall_forall. intros y Hy%Ha. by apply list_elem_of_singleton in Hy.
  - destruct Hm as [Hd Hsel]. set (d' := (x, n) :: kn :: d) in *. rewrite Ht, (makeDict_sorted _ (TPrim pr) d' xs Hit' Hd) by by apply Hk.
    cbn [mbind outcome_bind obind]. set (dict := stable_sort (cmp_lt ecmp) (entries (TPrim pr) d')) in *.
    eexists _, _, _. split; [done|]. split; [done|]. split; [by rewrite zlen_map|]. intros r pre post Hr Hp Hz. split; [by apply (prim_next_spec p off pre post r)|].
    cbn [Vng.NewBuilder]. assert (Hne : length dict = S (S (length d))) by (unfold dict, entries; by rewrite length_stable_sort, length_map).
    destruct dict as [|en dict0] eqn:Edict; [done|]. eexists. split; [done|]. intros [|n'] Hn; [by cbn in Hn; lia|].
    apply (yields_dict_unread r n' _ (TPrim pr) _ mem xs Hsel). destruct xs as [|y xs]; [by right|left]. unfold prim_location. rewrite Hlen, <- Hp.
    apply (segment_Read_spec pre post _ _ _ r Ho Hr Hz). by destruct mem; [inversion Hsel|].
  - rewrite Ht. eexists _, _, _. split; [done|]. split; [done|]. split; [by rewrite zlen_map|]. intros r pre post Hr Hp Hz. split; [by apply (prim_next_spec p off pre post r)|].
    eexists. split; [done|]. intros [|n'] Hn; [by cbn in Hn; lia|]. apply yields_primitive. rewrite <- Hp. by apply (reads_encoded r (TPrim pr) xs mem p pre post).
Qed.
Lemma describes_nulls t loc m n : match t with TNamed _ _ _ | TError _ _ => False | _ => True end -> inner t m -> describes t (MNulls loc m n).
Proof. intros Ht [Hc Hd]. by destruct t; cbn [describes core] in *; rewrite ?Hc in Hd. Qed.
Lemma nulls_count bs : zlen (List.filter id (map is_null bs)) + zlen (somes bs) = zlen bs.
Proof. induction bs as [|[x|] bs IH]; [done|..]; unfold somes in *; cbn [map is_null List.filter id omap list_omap]; rewrite !zlen_cons; lia. Qed.
Lemma no_nulls bs : zlen (List.filter id (map is_null bs)) = 0 -> bs = map Some (somes bs).
Proof.
  induction bs as [|[x|] bs IH]; [done|..]; unfold somes in *; cbn [map is_null List.filter id omap list_omap]; [intros H; by rewrite <- IH|].
  rewrite zlen_cons. pose proof (zlen_nonneg (List.filter (fun x => x) (map is_null bs))). unfold id. lia.
Qed.
Lemma nullable_encodes t (Q : Encoder -> Prop) bs e : match t with TNamed _ _ _ | TError _ _ => False | _ => True end -> zlen bs < 2 ^ 32 -> nullable Q bs e ->
  (forall values, Q values -> encodes (inner t) (map Some (somes bs)) values) -> encodes (describes t) bs e.
Proof.
  intros Ht Hl He HQ. destruct e as [| |values runs run null count| | | | | |]; try done. destruct He as [Hn Hv]. destruct (HQ values Hv) as (values1 & E & Hem).
  pose proof (nulls_count bs) as Hb. pose proof (zlen_nonneg (List.filter id (map is_null bs))). pose proof (zlen_nonneg (somes bs)).
  pose proof (nu_count _ _ _ _ _ Hn) as Hc. rewrite u32_id in Hc by lia. unfold encodes. cbn [Vng.Encode]. rewrite E. cbn [mbind outcome_bind obind].
  destruct (Z.eqb_spec count 0) as [Hz0|Hz0].
  - cbn [mbind outcome_bind obind]. eexists. split; [done|]. intros off. destruct (Hem off) as (off' & m & values2 & Em & [Hcore Hd] & Hlen & Hp). cbn [Vng.Metadata_].
    rewrite Em. cbn [mbind outcome_bind obind]. rewrite (proj2 (Z.eqb_eq count 0) Hz0). eexists _, _, _. split; [done|]. split; [done|].
    rewrite <- no_nulls in Hlen, Hp by lia. split; [done|]. cbn [Emit]. rewrite (proj2 (Z.eqb_eq count 0) Hz0), app_nil_r. exact Hp.
  - destruct (nulled_Encode _ _ _ _ _ Hn) as (runs1 & rs & -> & Hi & Hrs & Hex); [by rewrite zlen_map|]. cbn [mbind outcome_bind obind]. eexists. split; [done|].
    intros off. destruct (Hem off) as (off' & m & values2 & Em & Hin & Hlen & Hp). cbn [Vng.Metadata_]. rewrite Em. cbn [mbind outcome_bind obind].
    rewrite (proj2 (Z.eqb_neq count 0) Hz0), (int_Metadata_spec rs) by done. cbn [mbind outcome_bind obind]. eexists _, _, _. split; [done|].
    split; [by apply describes_nulls|]. split.
    { cbn [Len]. rewrite Hlen, zlen_map, Hc. unfold u32. rewrite Zplus_mod_idemp_r. f_equal. lia. }
    intros r pre post Hr <- Hz. cbn [Emit] in *. rewrite (proj2 (Z.eqb_neq count 0) Hz0) in *. rewrite <- app_assoc in Hr.
    destruct (Hp r pre (p_out runs1 ++ post) Hr eq_refl Hz) as (Hoff & b & Eb & Hy).
    assert (Hr' : r = (pre ++ Emit values2) ++ p_out runs1 ++ post) by (by rewrite <- app_assoc).
    split; [rewrite (prim_next_spec runs1 off' (pre ++ Emit values2) post r), zlen_app; [lia|done|by rewrite zlen_app|done]|].
    exists (BNulls b (mkPBuilder (prim_location runs1 off') None) true 0). cbn [Vng.NewBuilder]. rewrite Eb. split; [done|]. intros [|n] Hdep; [by cbn in Hdep; lia|].
    apply (yields_nulls r n bs _ _ _ _ rs); [apply Hy; cbn in Hdep; lia| |done|done|done]. rewrite Hoff, <- zlen_app. by apply (iencoded_reads rs runs1 _ post).
Qed.
Definition encodable (t : ty) : Prop := forall bs e, holds t bs e -> weight bs < 2 ^ 32 -> encodes (describes t) bs e.
Lemma somes_small bs : weight bs < 2 ^ 32 -> Forall small (map Some (somes bs)) /\ zlen (somes bs) < 2 ^ 32.
Proof.
  intros Hw. pose proof (weight_somes bs). pose proof (weight_of_nonneg (map Some (somes bs))) as Hn. rewrite zlen_map in Hn. split; [|lia].
  apply Forall_forall. intros b Hb. apply (weight_small _ _ Hb). lia.
Qed.
Lemma prim_encodes p bs e : prim_holds p bs e -> weight bs < 2 ^ 32 -> encodes (inner (TPrim p)) (map Some (somes bs)) e.
Proof.
  intros He Hw. destruct e as [| | | | | | | |pe]; try done. destruct He as [Hp Hg]. destruct (somes_small bs Hw) as [Hs Hl].
  assert (Hk : distinct_keys (TPrim p) (somes bs)).
  { split; [eapply Forall_impl; [exact Hg|apply Hsort]|]. rewrite Forall_forall in Hg. intros x y Hx Hy. by apply Hdist; apply Hg. }
  destruct (prim_Encode_spec _ _ pe Hp Hs (fun _ => Hk)) as (mem & p' & E & He & _). exists (EPrimitive p'). cbn [Vng.Encode]. rewrite E.
  split; [done|]. by apply (prim_emits p _ mem).
Qed.
Lemma each_spec {A B} (f : A -> outcome vng_error B) (P : A -> B -> Prop) l : Forall (fun x => exists y, f x = Ok y /\ P x y) l ->
  exists ys, each f l = Ok ys /\ Forall2 P l ys.
Proof.
  induction 1 as [|x l (y & E & Hp) _ (ys & Es & Hps)]; [exists []; by split; [|constructor]|]. exists (y :: ys). cbn [each]. rewrite E.
  cbn [mbind outcome_bind obind]. rewrite Es. by split; [|constructor].
Qed.
(** Columns one after the other. *)
Lemma each_at_spec {T A B C} (f : A -> Z -> outcome vng_error (Z * B * C)) (mb : B -> Metadata) (ec : C -> Encoder) (P : T -> B -> Prop) ts l cols :
  Forall3 (fun t x col => forall off, exists off' y z, f x off = Ok (off', y, z) /\ P t y /\ placed (Emit (ec z)) (mb y) off off' col) ts l cols ->
  forall off, exists off' ys zs, each_at f l off = Ok (off', ys, zs) /\ Forall2 P ts ys /\ forall r pre post,
    r = pre ++ concat (map (fun z => Emit (ec z)) zs) ++ post -> zlen pre = off -> zlen r < 2 ^ 63 ->
    off' = off + zlen (concat (map (fun z => Emit (ec z)) zs)) /\ exists bs, each (fun y => NewBuilder (mb y)) ys = Ok bs /\
      forall n, (foldr (fun y n => Nat.max (meta_depth (mb y)) n) O ys <= n)%nat -> Forall2 (yields r n) bs cols.
Proof.
  induction 1 as [|t x col ts l cols Hx _ IH]; intros off.
  { exists off, [], []. split; [done|]. split; [constructor|]. intros r pre post _ _ _. split; [cbn [map concat]; change (zlen []) with 0; lia|]. exists []. split; [done|]. constructor. }
  destruct (Hx off) as (off1 & y & z & E & Hp & Hpl). destruct (IH off1) as (off' & ys & zs & Es & Hps & Hpls).
  exists off', (y :: ys), (z :: zs). cbn [each_at]. rewrite E. cbn [mbind outcome_bind obind]. rewrite Es. split; [done|]. split; [by constructor|].
  intros r pre post Hr Ho Hz. cbn [map concat] in Hr |- *. rewrite <- app_assoc in Hr. destruct (Hpl r pre _ Hr Ho Hz) as (Ho1 & b & Eb & Hy).
  destruct (Hpls r (pre ++ Emit (ec z)) post) as (Ho' & bs & Ebs & Hys); [by rewrite <- app_assoc|rewrite zlen_app; lia|done|].
  split; [rewrite zlen_app; lia|]. exists (b :: bs). cbn [each]. rewrite Eb. cbn [mbind outcome_bind obind]. rewrite Ebs. split; [done|].
  intros n Hn. cbn [foldr] in Hn. constructor; [apply Hy; lia|apply Hys; lia].
Qed.
Lemma rows_values bs {A} (f : A -> list bytes) rows : rows_of bs f rows -> map Some (somes bs) = map (fun row => Some (body_of (f row))) rows.
Proof. intros ->. by rewrite map_map. Qed.
Lemma counts_len n bs : counts n bs -> n = u32 (zlen (map Some (somes bs))).
Proof. unfold counts. by rewrite zlen_map. Qed.
Lemma record_encodes i fs bs e : record_holds (length fs) (fields_hold fs) bs e -> weight bs < 2 ^ 32 -> Forall (fun f => encodable f.2) fs ->
  encodes (inner (TRecord i fs)) (map Some (somes bs)) e.
Proof.
  intros He Hw Hfs. destruct e as [| | |es m| | | | |]; try done. destruct He as (Hm & rows & Hr & Hl & Ha%all3_Forall3).
  destruct (weight_rows bs (fun row => row) rows Hr) as [[Hwr Hb]|]; [|lia]. rewrite map_id in Hwr, Hb. pose proof (zlen_nonneg rows).
  pose proof (weight_column _ _ Hl) as Hwc. set (cols := columns (length fs) rows) in *.
  assert (He : exists es1, each (fun f => e ← Encode f.2; Ok (f.1, e)) es = Ok es1 /\
    Forall3 (fun f ne col => ne.1 = f.1 /\ emits (describes f.2) col ne.2) fs es1 cols).
  { clearbody cols. clear - Ha Hfs Hwc Hwr Hw H. induction Ha as [|f [nm e] col fs es cols [Hnm Hh] Ha IH]; [exists []; by split; [|constructor]|].
    apply Forall_cons in Hfs as [Hf Hfs]. apply Forall_cons in Hwc as [Hc Hwc]. destruct (Hf col e Hh) as (e' & E & Hem); [lia|].
    destruct (IH Hfs Hwc) as (es1 & E1 & H1). exists ((nm, e') :: es1). cbn [each fst snd]. rewrite E. cbn [mbind outcome_bind obind]. rewrite E1. by split; [|constructor]. }
  destruct He as (es1 & E1 & H1). unfold encodes. cbn [Vng.Encode]. rewrite E1. cbn [mbind outcome_bind obind]. eexists. split; [done|]. intros off. cbn [Vng.Metadata_].
  destruct (each_at_spec (fun f off => '(off, m, e) ← Metadata_ f.2 off; Ok (off, (f.1, m), (f.1, e))) snd snd
    (fun (f : field) nm => nm.1 = f.1 /\ describes f.2 nm.2) fs es1 cols) with (off := off) as (off' & ms & es2 & E2 & H2 & Hp).
  { eapply Forall3_impl; [exact H1|]. intros f [nm e] col [Hnm Hem] off0. destruct (Hem off0) as (off1 & m1 & e2 & E & Hd & _ & Hpl).
    cbn [fst snd] in *. rewrite E. cbn [mbind outcome_bind obind]. eexists _, _, _. split; [done|]. by split. }
  rewrite E2. cbn [mbind outcome_bind obind]. eexists _, _, _. split; [done|]. split; [split; [done|]; cbn [describes core]; by apply all2_Forall2|].
  split; [by apply counts_len|]. intros r pre post Hr' Ho Hz. cbn [Emit] in *. destruct (Hp r pre post Hr' Ho Hz) as (Ho' & builders & Eb & Hy).
  split; [done|]. exists (BRecord builders). cbn [Vng.NewBuilder]. rewrite Eb. split; [done|]. intros [|n] Hn; [by cbn in Hn; lia|].
  rewrite (rows_values bs _ rows Hr). apply (yields_record r n (length fs)); [apply Hy; cbn [meta_depth] in Hn; lia|done|done].
Qed.
(** The lengths of containers go before their elements. *)
Lemma lengths_placed lengths ls off off' out m bs : iencoded ls lengths -> prim_next lengths off = off' ->
  forall off'', placed out m off' off'' bs -> forall r pre post, r = pre ++ (p_out lengths ++ out) ++ post -> zlen pre = off -> zlen r < 2 ^ 63 ->
  off'' = off + zlen (p_out lengths ++ out) /\ int_reads r (mkPBuilder (prim_location lengths off) None) ls /\
  exists b, NewBuilder m = Ok b /\ forall n, (meta_depth m <= n)%nat -> yields r n b bs.
Proof.
  intros Hi <- off'' Hp r pre post Hr <- Hz. rewrite <- app_assoc in Hr. pose proof (prim_next_spec lengths _ pre (out ++ post) r Hr eq_refl Hz) as En.
  destruct (Hp r (pre ++ p_out lengths) post) as (-> & Hb); [by rewrite <- app_assoc|by rewrite zlen_app|done|].
  split; [rewrite En, zlen_app; lia|]. split; [by apply (iencoded_reads ls lengths pre (out ++ post))|done].
Qed.
Lemma list_encodes i u bs t v l n set : list_holds (holds u) set bs (if set : bool then ESet t v l n else EArray t v l n) -> weight bs < 2 ^ 32 -> encodable u ->
  encodes (inner (if set then TSet i u else TArray i u)) (map Some (somes bs)) (if set then ESet t v l n else EArray t v l n).
Proof.
  intros He Hw Hu. assert (H : counts n bs /\ exists rows, rows_of bs (fun row => row) rows /\ holds u (concat rows) v /\ icol (map zlen rows) l) by by destruct set, He.
  clear He. destruct H as (Hm & rows & Hr & Hv & Hl). destruct (weight_rows bs (fun row => row) rows Hr) as [[Hwr Hb]|]; [|lia]. rewrite map_id in Hwr, Hb.
  pose proof (zlen_nonneg rows). destruct (icol_Encode _ _ Hl) as (l1 & El & Hi). destruct (Hu _ v Hv) as (v1 & Ev & Hem); [lia|].
  exists (if set then ESet t v1 l1 n else EArray t v1 l1 n). split.
  { destruct set; cbn [Vng.Encode]; rewrite El; cbn [mbind outcome_bind obind]; by rewrite Ev. }
  intros off. destruct (Hem (prim_next l1 off)) as (off' & m & v2 & Em & Hd & _ & Hp).
  exists off', (if set then MSet n (prim_location l1 off) m else MArray n (prim_location l1 off) m), (if set then ESet t v2 l1 n else EArray t v2 l1 n). split.
  { destruct set; cbn [Vng.Metadata_]; rewrite (int_Metadata_spec _ _ _ Hi); cbn [mbind outcome_bind obind]; by rewrite Em. }
  split; [by destruct set|]. split; [destruct set; by apply counts_len|]. intros r pre post Hr' Ho Hz.
  assert (Hemit : Emit (if set then ESet t v2 l1 n else EArray t v2 l1 n) = p_out l1 ++ Emit v2) by by destruct set. rewrite Hemit in *.
  destruct (lengths_placed _ _ off _ _ _ _ Hi eq_refl off' Hp r pre post Hr' Ho Hz) as (Ho' & Hread & b & Eb & Hy). split; [done|].
  exists (BArray b (mkPBuilder (prim_location l1 off) None)). split; [destruct set; cbn [Vng.NewBuilder]; by rewrite Eb|].
  intros [|k] Hn; [by destruct set; cbn in Hn; lia|]. rewrite (rows_values bs _ rows Hr). apply (yields_array r k _ _ rows); [apply Hy; destruct set; cbn in Hn; lia|done..].
Qed.
Lemma map_encodes i k v bs e : map_holds (holds k) (holds v) bs e -> weight bs < 2 ^ 32 -> encodable k -> encodable v ->
  encodes (inner (TMap i k v)) (map Some (somes bs)) e.
Proof.
  intros He Hw Hk Hv. destruct e as [| | | | | |ke ve l n| |]; try done. destruct He as (Hm & rows & Hr & Hke & Hve & Hl).
  destruct (weight_rows bs flat rows Hr) as [[Hwr Hb]|]; [|lia]. rewrite flat_concat in Hwr. pose proof (weight_pairs (concat rows)) as [? ?].
  pose proof (zlen_nonneg rows). destruct (icol_Encode _ _ Hl) as (l1 & El & Hi). destruct (Hk _ ke Hke) as (ke1 & Ek & Hem); [lia|]. destruct (Hv _ ve Hve) as (ve1 & Ev & Hem'); [lia|].
  exists (EMap ke1 ve1 l1 n). split; [cbn [Vng.Encode]; rewrite El; cbn [mbind outcome_bind obind]; rewrite Ek; cbn [mbind outcome_bind obind]; by rewrite Ev|].
  intros off. destruct (Hem (prim_next l1 off)) as (off1 & mk & ke2 & Em & Hd & _ & Hp). destruct (Hem' off1) as (off' & mv & ve2 & Em' & Hd' & _ & Hp').
  exists off', (MMap n (prim_location l1 off) mk mv), (EMap ke2 ve2 l1 n). split.
  { cbn [Vng.Metadata_]. rewrite (int_Metadata_spec _ _ _ Hi). cbn [mbind outcome_bind obind]. rewrite Em. cbn [mbind outcome_bind obind]. by rewrite Em'. }
  split; [by split|]. split; [by apply counts_len|]. intros r pre post Hr' Ho Hz. cbn [Emit] in *.
  assert (Hrk : r = pre ++ (p_out l1 ++ Emit ke2) ++ (Emit ve2 ++ post)) by (by rewrite Hr', <- !app_assoc).
  destruct (lengths_placed _ _ off _ _ _ _ Hi eq_refl off1 Hp r pre _ Hrk Ho Hz) as (Ho1 & Hread & b & Eb & Hy).
  destruct (Hp' r (pre ++ p_out l1 ++ Emit ke2) post) as (Ho' & b' & Eb' & Hy'); [by rewrite Hr', <- !app_assoc|rewrite zlen_app; lia|done|].
  split; [rewrite !zlen_app in *; lia|]. exists (BMap b b' (mkPBuilder (prim_location l1 off) None)). cbn [Vng.NewBuilder]. rewrite Eb. cbn [mbind outcome_bind obind].
  rewrite Eb'. split; [done|]. intros [|d] Hn; [by cbn in Hn; lia|]. cbn [meta_depth] in Hn. rewrite (rows_values bs _ rows Hr).
  apply (yields_map r d _ _ _ rows); [apply Hy; lia|apply Hy'; lia|done..].
Qed.
Lemma union_encodes i ts bs e : union_holds ts (all3 holds ts) bs e -> weight bs < 2 ^ 32 -> Forall encodable ts ->
  encodes (inner (TUnion i ts)) (map Some (somes bs)) e.
Proof.
  intros He Hw Hts. destruct e as [| | | | | | |uid us es l n|]; try done. destruct He as (-> & Hm & rows & Hr & Hrs & Ha%all3_Forall3 & Hl).
  destruct (weight_rows bs union_body rows Hr) as [[Hwr Hb]|]; [|lia]. pose proof (zlen_nonneg rows).
  destruct (icol_Encode _ _ Hl) as (l1 & El & Hi). set (cols := tagged_columns (length ts) rows) in *.
  assert (Hwc : Forall (fun col => weight col < 2 ^ 32) cols).
  { apply Forall_forall. intros col (j & -> & _)%list_elem_of_fmap. pose proof (weight_tagged j rows). lia. }
  assert (He : exists es1, each Encode es = Ok es1 /\ Forall3 (fun t col e => emits (describes t) col e) ts cols es1).
  { clearbody cols. clear - Ha Hts Hwc. induction Ha as [|t col e ts cols es Hh Ha IH]; [exists []; by split; [|constructor]|].
    apply Forall_cons in Hts as [Ht Hts]. apply Forall_cons in Hwc as [Hc Hwc]. destruct (Ht col e Hh Hc) as (e' & E & Hem).
    destruct (IH Hts Hwc) as (es1 & E1 & H1). exists (e' :: es1). cbn [each]. rewrite E. cbn [mbind outcome_bind obind]. rewrite E1. by split; [|constructor]. }
  destruct He as (es1 & E1 & H1). exists (EUnion uid ts es1 l1 n). split; [cbn [Vng.Encode]; rewrite El; cbn [mbind outcome_bind obind]; by rewrite E1|]. intros off.
  destruct (each_at_spec Metadata_ (fun m => m) (fun e => e) describes ts es1 cols) with (off := prim_next l1 off) as (off' & ms & es2 & E2 & H2 & Hp).
  { clear - H1. induction H1 as [|t col e ts cols es Hem _ IH]; [constructor|]. constructor; [|done]. intros off0.
    destruct (Hem off0) as (off1 & m1 & e2 & E & Hd & _ & Hpl). by eexists _, _, _. }
  exists off', (MUnion n (prim_location l1 off) ms), (EUnion uid ts es2 l1 n). cbn [Vng.Metadata_]. rewrite (int_Metadata_spec _ _ _ Hi). cbn [mbind outcome_bind obind].
  rewrite E2. split; [done|]. split; [split; [done|]; cbn [describes core]; by apply all2_Forall2|]. split; [by apply counts_len|].
  intros r pre post Hr' <- Hz. cbn [Emit] in *. rewrite <- app_assoc in Hr'. pose proof (prim_next_spec l1 _ pre _ r Hr' eq_refl Hz) as En.
  destruct (Hp r (pre ++ p_out l1) post) as (Ho' & builders & Eb & Hy); [by rewrite <- app_assoc|by rewrite zlen_app|done|].
  change (map (fun z => Emit z) es2) with (map Emit es2) in *. split; [rewrite zlen_app; lia|].
  exists (BUnion builders (mkPBuilder (prim_location l1 (zlen pre)) None)). cbn [Vng.NewBuilder]. change (each (fun y => NewBuilder y) ms) with (each NewBuilder ms) in Eb.
  rewrite Eb. split; [done|]. intros [|d] Hn; [by cbn in Hn; lia|]. cbn [meta_depth] in Hn. specialize (Hy d ltac:(lia)).
  assert (Hlen : length builders = length ts) by (rewrite (Forall2_length _ _ _ Hy); unfold cols, tagged_columns; by rewrite length_map, length_seq).
  rewrite (rows_values bs _ rows Hr). apply yields_union; [|by rewrite Hlen|by apply (iencoded_reads _ l1 pre (concat (map Emit es2) ++ post))|done].
  intros j b Hj. destruct (Forall2_lookup_l _ _ _ _ _ Hy Hj) as (col & Hcol & Hyc). unfold cols, tagged_columns in Hcol. rewrite list_lookup_fmap in Hcol.
  pose proof (lookup_lt_Some _ _ _ Hj). rewrite lookup_seq_lt in Hcol by lia. cbn in Hcol. by injection Hcol as <-.
Qed.
(** A column of any type is read as it was written. *)
Lemma column_encodes t : ordinary t -> encodable t.
Proof.
  induction t as [p|i fs IH|i t IH|i t IH|i k v IHk IHv|i ts IH|i ss|i t IH|i nm t IH] using ty_ind; intros Ho%ordinary_parts bs e He Hw; try done;
    pose proof (weight_of_nonneg bs); try (eapply nullable_encodes; [done|lia|exact He|]; intros values Hv; cbn beta in Hv).
  - by apply prim_encodes.
  - apply record_encodes; [done..|]. apply Forall_forall. intros f Hf. rewrite Forall_forall in IH, Ho. by apply IH, Ho.
  - destruct values as [| | | |t0 v l n|t0 v l n| | |]; try done; [|by destruct Hv]. by apply (list_encodes i t bs t0 v l n false Hv Hw), IH.
  - destruct values as [| | | |t0 v l n|t0 v l n| | |]; try done; [by destruct Hv|]. by apply (list_encodes i t bs t0 v l n true Hv Hw), IH.
  - destruct Ho as [Hk Hv']. apply map_encodes; [done..|by apply IHk|by apply IHv].
  - destruct Ho as [_ Ho]. apply union_encodes; [done..|]. apply Forall_forall. intros t Ht. rewrite Forall_forall in IH, Ho. by apply IH, Ho.
  - destruct e as [|e| | | | | | |]; try done. destruct (IH Ho bs e He Hw) as (e1 & E & Hem). exists (EError e1). cbn [Vng.Encode]. rewrite E. split; [done|].
    intros off. destruct (Hem off) as (off' & m & e2 & Em & Hd & Hl & Hp). exists off', (MError m), (EError e2). cbn [Vng.Metadata_]. by rewrite Em.
  - destruct e as [e nm'| | | | | | | |]; try done. destruct He as [-> He]. destruct (IH Ho bs e He Hw) as (e1 & E & Hem). exists (ENamed e1 nm). cbn [Vng.Encode]. rewrite E.
    split; [done|]. intros off. destruct (Hem off) as (off' & m & e2 & Em & Hd & Hl & Hp). exists off', (MNamed nm m), (ENamed e2 nm). cbn [Vng.Metadata_]. by rewrite Em.
Qed.

(** ** The types of metadata *)

Definition typed (t : ty) (m : Metadata) : Prop := forall sh, wf sh ->
  exists t' sh', meta_Type m sh = Ok (t', sh') /\ wf sh' /\ grows sh sh' /\ member sh' t' /\ erase t' = erase t.
Lemma M_each_spec {T A B} (f : A -> M B) (R : Context -> T -> B -> Prop) ts l : (forall c c' t y, grows c c' -> R c t y -> R c' t y) ->
  Forall2 (fun t x => forall sh, wf sh -> exists y sh', f x sh = Ok (y, sh') /\ wf sh' /\ grows sh sh' /\ R sh' t y) ts l ->
  forall sh, wf sh -> exists ys sh', M_each f l sh = Ok (ys, sh') /\ wf sh' /\ grows sh sh' /\ Forall2 (R sh') ts ys.
Proof.
  intros Hmono. induction 1 as [|t x ts l Hx _ IH]; intros sh Hw; [exists [], sh; by split|].
  destruct (Hx sh Hw) as (y & sh1 & E & Hw1 & Hg1 & Hr). destruct (IH sh1 Hw1) as (ys & sh2 & Es & Hw2 & Hg2 & Hrs).
  exists (y :: ys), sh2. cbn [M_each]. rewrite (M_bind_Ok _ _ _ _ _ E). rewrite (M_bind_Ok _ _ _ _ _ Es). split; [done|]. split; [done|].
  split; [by etrans|]. constructor; [by eapply Hmono|done].
Qed.
Lemma meta_Type_core m : meta_Type m = meta_Type (core m).
Proof. by destruct m. Qed.
Lemma typed_interned (t0 : ty -> ty) (mk : ty -> M ty) t u m m' : typed u m -> (forall sh u', wf sh -> member sh u' -> exists r sh', mk u' sh = Ok (r, sh') /\ interns sh (t0 u') r sh') ->
  (forall u', erase u' = erase u -> erase (t0 u') = erase t) -> (forall sh, meta_Type m' sh = (u' ← meta_Type m; mk u') sh) -> typed t m'.
Proof.
  intros Hm Hmk He E sh Hw. destruct (Hm sh Hw) as (u' & sh1 & Eu & Hw1 & Hg1 & Hm1 & Hu). destruct (Hmk sh1 u' Hw1 Hm1) as (r & sh2 & Er & Hr & Hm2 & Hw2 & Hg2).
  exists r, sh2. rewrite E, (M_bind_Ok _ _ _ _ _ Eu), Er. split; [done|]. split; [done|]. split; [by etrans|]. split; [done|]. rewrite Hr, erase_reid. by apply He.
Qed.
Section types.
Context (c : Context) (Hc : wf c).

Lemma describes_typed t : forall m, describes t m -> member c t -> typed t m.
Proof.
  induction t as [p|i fs IH|i t IH|i t IH|i k v IHk IHv|i ts IH|i ss|i t IH|i nm t IH] using ty_ind; intros m Hd Hmem; cbn [describes] in Hd;
    pose proof (member_components c Hc _ Hmem) as Hcs; pose proof (member_regular c Hc _ Hmem) as Hreg; pose proof (member_lawful c Hc _ Hmem) as Hlaw;
    cbn [components regular lawful] in Hcs, Hreg, Hlaw; try done.
  - intros sh Hw. rewrite meta_Type_core. exists (TPrim p), sh. split; [|split; [done|split; [done|split; [apply member_prim|done]]]].
    destruct (core m) as [| | | | | | | | |w n|]; try done; cbn [meta_Type]; [by rewrite Hd|by rewrite Hd].
  - intros sh Hw. rewrite meta_Type_core. destruct (core m) as [n ms| | | | | | | | | |]; try done. apply all2_Forall2 in Hd. rewrite Forall_map in Hcs.
    destruct (M_each_spec (fun f : gostring * Metadata => t ← meta_Type f.2; mret (f.1, t)) (fun sh (f g : field) => g.1 = f.1 /\ member sh g.2 /\ erase g.2 = erase f.2) fs ms) with (sh := sh)
      as (gs & sh1 & E & Hw1 & Hg1 & Hgs); [intros c1 c2 f g Hg (? & ? & ?); split; [done|]; split; [by eapply member_grows|done]| |done|].
    { clear Hreg Hlaw Hmem. induction Hd as [|f [n' m'] fs ms [Hn Hd] _ IHd]; [constructor|]. apply Forall_cons in IH as [Hf IH]. apply Forall_cons in Hcs as [Hmf Hcs].
      constructor; [|by apply IHd]. intros sh1 Hw1. destruct (Hf m' Hd Hmf sh1 Hw1) as (t' & sh2 & E & Hw2 & Hg2 & Hm2 & He2). cbn [fst snd] in *.
      exists (n', t'), sh2. by rewrite (M_bind_Ok _ _ _ _ _ E). }
    cbn [meta_Type]. rewrite (M_bind_Ok _ _ _ _ _ E). destruct Hreg as [Hs Hns].
    assert (Hnames : map fst gs = map fst fs) by (clear - Hgs; induction Hgs as [|f g fs gs (Hn & _) _ IH]; [done|]; cbn [map]; by rewrite Hn, IH).
    assert (Hlen : length gs = length fs) by (apply (f_equal length) in Hnames; by rewrite !length_map in Hnames).
    destruct (record_lookup sh1 Hw1 gs) as (j & sh2 & E2 & Hw2 & Hg2 & Hm2); [by unfold short, zlen in *; rewrite Hlen|..].
    { rewrite <- (Forall_map fst short) in Hns |- *. by rewrite Hnames. }
    { eapply Forall2_Forall_r; [exact Hgs|]. apply Forall_forall. intros f _ g (_ & ? & _). done. }
    { rewrite Hnames. by apply duplicateField_None. }
    exists (TRecord j gs), sh2. split; [done|]. split; [done|]. split; [by etrans|]. split; [done|]. cbn [erase]. f_equal.
    clear - Hgs. induction Hgs as [|f g fs gs (Hn & _ & He) _ IH]; [done|]. cbn [map]. by rewrite Hn, He, IH.
  - apply Forall_inv in Hcs. assert (H : exists n l m', core m = MArray n l m' /\ describes t m') by (destruct (core m); try done; by eexists _, _, _).
    destruct H as (n & l & m' & Ec & Hd'). apply (typed_interned (TArray 0) LookupTypeArray _ t m'); [by apply IH| |intros u' E; cbn [erase]; by rewrite E|by rewrite meta_Type_core, Ec].
    intros sh u' Hw Hm. by apply LookupTypeArray_interns.
  - apply Forall_inv in Hcs. assert (H : exists n l m', core m = MSet n l m' /\ describes t m') by (destruct (core m); try done; by eexists _, _, _).
    destruct H as (n & l & m' & Ec & Hd'). apply (typed_interned (TSet 0) LookupTypeSet _ t m'); [by apply IH| |intros u' E; cbn [erase]; by rewrite E|by rewrite meta_Type_core, Ec].
    intros sh u' Hw Hm. by apply LookupTypeSet_interns.
  - pose proof (Forall_inv Hcs) as Hmk. apply Forall_inv_tail, Forall_inv in Hcs. intros sh Hw. rewrite meta_Type_core.
    destruct (core m) as [| | |n l mk mv| | | | | | |]; try done. destruct Hd as [Hdk Hdv].
    destruct (IHk mk Hdk Hmk sh Hw) as (k' & sh1 & Ek & Hw1 & Hg1 & Hm1 & He1). destruct (IHv mv Hdv Hcs sh1 Hw1) as (v' & sh2 & Ev & Hw2 & Hg2 & Hm2 & He2).
    destruct (map_lookup sh2 Hw2 k' v') as (j & sh3 & E & Hw3 & Hg3 & Hm3); [by eapply member_grows|done|]. exists (TMap j k' v'), sh3. cbn [meta_Type].
    rewrite (M_bind_Ok _ _ _ _ _ Ek), (M_bind_Ok _ _ _ _ _ Ev), E. split; [done|]. split; [done|]. split; [by do 2 (etrans; [done|])|]. split; [done|]. cbn [erase]. by rewrite He1, He2.
  - intros sh Hw. rewrite meta_Type_core. destruct (core m) as [| | | |n l ms| | | | | |]; try done. apply all2_Forall2 in Hd.
    destruct (M_each_spec meta_Type (fun sh t u => member sh u /\ erase u = erase t) ts ms) with (sh := sh) as (us & sh1 & E & Hw1 & Hg1 & Hus);
      [intros c1 c2 a b Hg (? & ?); split; [by eapply member_grows|done]| |done|].
    { clear Hreg Hlaw Hmem. induction Hd as [|t m' ts ms Hd _ IHd]; [constructor|]. apply Forall_cons in IH as [Hf IH]. apply Forall_cons in Hcs as [Hmf Hcs].
      constructor; [by apply Hf|by apply IHd]. }
    destruct Hreg as [Hs Hsts]. pose proof (member_universe c Hc). pose proof (member_universe sh1 Hw1).
    assert (Hsts' : sort_types us = us).
    { apply (sort_types_same (member c) (member sh1) ts us); [|done]. clear - Hus Hcs. induction Hus as [|a b ts us [Hb He] _ IH]; [constructor|].
      apply Forall_cons in Hcs as [Ha Hcs]. constructor; [by split_and!|by apply IH]. }
    pose proof (Forall2_length _ _ _ Hus) as Hlen. destruct (LookupTypeUnion_interns sh1 Hw1 us) as (u & sh2 & E2 & Hr & Hm2 & Hw2 & Hg2).
    { unfold short, zlen in *. by rewrite <- Hlen. }
    { eapply Forall2_Forall_r; [exact Hus|]. apply Forall_forall. by intros a _ b []. }
    rewrite Hsts' in Hr. exists u, sh2. cbn [meta_Type]. rewrite (M_bind_Ok _ _ _ _ _ E), E2. split; [done|]. split; [done|]. split; [by etrans|]. split; [done|].
    rewrite Hr, erase_reid. cbn [erase]. f_equal. clear - Hus. induction Hus as [|a b ts us [_ He] _ IH]; [done|]. cbn [map]. by rewrite He, IH.
  - apply Forall_inv in Hcs. destruct m as [| | | | | |m| | | |]; try done. apply (typed_interned (TError 0) LookupTypeError _ t m); [by apply IH| |intros u' E; cbn [erase]; by rewrite E|done].
    intros sh u' Hw Hm. by apply LookupTypeError_interns.
  - apply Forall_inv in Hcs. destruct m as [| | | | |n' m| | | | |]; try done. destruct Hd as [-> Hd]. destruct Hlaw as [Hv Hp].
    apply (typed_interned (TNamed 0 nm) (fun t => r ← LookupTypeNamed nm t; match r with inr t => mret t | inl _ => panic end) _ t m); [by apply IH| |intros u' E; cbn [erase]; by rewrite E|done].
    intros sh u' Hw Hm. destruct (LookupTypeNamed_interns sh Hw nm u' Hreg Hm) as [_ H]. destruct (H Hv Hp) as (r & sh' & E & Hi & _).
    exists r, sh'. by rewrite (M_bind_Ok _ _ _ _ _ E).
Qed.
End types.

(** ** The dynamic encoder *)

Local Abbreviation dynamic_Write := (dynamic_Write to32 of32 to16 of16).
Fixpoint write_all (d : DynamicEncoder) (vals : list Value) : outcome vng_error DynamicEncoder :=
  match vals with [] => Ok d | v :: vals => d ← dynamic_Write d v; write_all d vals end.
(** The types it has seen, and of each value its type and bytes. *)
Record dholds (ts : list ty) (rows : list (nat * bytes)) (d : DynamicEncoder) : Prop := {
  dh_nodup : NoDup ts;
  dh_which : dy_which d = zip ts (seq 0 (length ts));
  dh_values : Forall3 holds ts (tagged_columns (length ts) rows) (dy_values d);
  dh_tags : icol (map (fun iv => Z.of_nat iv.1) rows) (dy_tags d);
  dh_rows : Forall (fun iv => (iv.1 < length ts)%nat) rows }.

Lemma write_all_app d a b : write_all d (a ++ b) = d ← write_all d a; write_all d b.
Proof. revert d. induction a as [|v a IH]; intros d; [done|]. cbn [app write_all]. destruct (dynamic_Write d v); [apply IH|done|done]. Qed.
Lemma which_of_zip t ts k : NoDup ts -> match which_of t (zip ts (seq k (length ts))) with
  | Some j => exists i, ts !! i = Some t /\ j = (k + i)%nat | None => t ∉ ts end.
Proof.
  revert k. induction ts as [|u ts IH]; intros k Hn; cbn [length seq zip zip_with which_of]; [apply not_elem_of_nil|]. apply NoDup_cons in Hn as [_ Hn].
  destruct (decide (u = t)) as [->|Hne]; [exists 0%nat; split; [done|lia]|]. specialize (IH (S k) Hn). destruct (which_of _ _) as [j|].
  - destruct IH as (i & Hi & ->). exists (S i). split; [done|lia].
  - by apply not_elem_of_cons.
Qed.
Lemma dholds_new : dholds [] [] NewDynamicEncoder.
Proof. split; [constructor|done|constructor|apply icol_new|constructor]. Qed.
Lemma dholds_type ts rows d t : dholds ts rows d -> t ∉ ts -> ordinary t ->
  dholds (ts ++ [t]) rows (mkDynamic (dy_tags d) (dy_values d ++ [NewEncoder t]) (dy_which d ++ [(t, length (dy_values d))]) (dy_len d)).
Proof.
  intros [Hn Hw Hv Ht Hr] Hnt Ho. pose proof (Forall3_length_lr _ _ _ _ Hv) as Hl. split; cbn [dy_which dy_values dy_tags]; try done.
  - apply NoDup_app. split; [done|]. split; [|apply NoDup_singleton]. by intros u Hu ->%list_elem_of_singleton.
  - rewrite length_app, Nat.add_1_r, seq_S, Hw, <- Hl. rewrite zip_with_app by (by rewrite length_seq). done.
  - rewrite length_app, Nat.add_1_r. unfold tagged_columns. rewrite seq_S, map_app. apply Forall3_app; [done|]. cbn [map]. constructor; [|constructor].
    assert (E : tagged (0 + length ts) rows = []); [|rewrite E; by apply holds_new]. clear - Hr. induction Hr as [|[i v] rows Hi _ IH]; [done|].
    unfold tagged in *. cbn [omap list_omap fst snd] in *. destruct (decide (i = (0 + length ts)%nat)); [lia|done].
  - eapply Forall_impl; [exact Hr|]. intros iv H. cbn beta in H. rewrite length_app. lia.
Qed.
Lemma weight_tagged_rows i rows : weight (tagged i rows) <= weight (map snd rows).
Proof.
  induction rows as [|[j v] rows IH]; [done|]. unfold tagged, weight in *. cbn [omap list_omap map fst snd foldr]. pose proof (zlen_nonneg (default [] v)).
  destruct (decide (j = i)); cbn [foldr]; lia.
Qed.
Lemma tagged_last i v rows : tagged i (rows ++ [(i, v)]) = tagged i rows ++ [v].
Proof. unfold tagged. rewrite omap_app. cbn [omap list_omap fst snd]. by destruct (decide (i = i)). Qed.
Lemma dynamic_writes ts rows d i t b : dholds ts rows d -> ts !! i = Some t -> ordinary t -> storable t b -> weight (map snd (rows ++ [(i, b)])) < 2 ^ 32 ->
  zlen ts < 2 ^ 63 -> exists tags e e', int_Write (dy_tags d) (Z.of_nat i) = Ok tags /\ dy_values d !! i = Some e /\ Write (type_depth t) e b = Ok e' /\
    forall n, dholds ts (rows ++ [(i, b)]) (mkDynamic tags (<[i := e']> (dy_values d)) (dy_which d) n).
Proof.
  intros [Hn Hw Hv Ht Hr] Hi Ho Hs Hwt Hl. pose proof (lookup_lt_Some _ _ _ Hi) as Hlt. unfold zlen in Hl.
  destruct (icol_Write _ (Z.of_nat i) _ Ht) as (tags & Et & Ht'); [unfold int64; lia|].
  assert (Hc : tagged_columns (length ts) rows !! i = Some (tagged i rows)) by (unfold tagged_columns; rewrite list_lookup_fmap, lookup_seq_lt by done; done).
  destruct (Forall3_lookup_m _ _ _ _ _ _ Hv Hc) as (t' & e & Hi' & He & Hh). rewrite Hi in Hi'. injection Hi' as <-.
  pose proof (weight_tagged_rows i (rows ++ [(i, b)])) as Hwi. rewrite tagged_last in Hwi.
  destruct (Write_holds t Ho (type_depth t) ltac:(lia) _ e b Hh Hs) as (e' & Ew & He'); [lia|]. exists tags, e, e'. do 3 (split; [done|]). intros n.
  split; cbn [dy_which dy_values dy_tags]; try done.
  - rewrite tagged_snoc. apply Forall3_update; [done|]. intros u col Hu Hc'. rewrite Hi in Hu. rewrite Hc in Hc'. injection Hu as <-. injection Hc' as <-. exact He'.
  - by rewrite map_app.
  - apply Forall_app. split; [done|by constructor].
Qed.
(** A value that can be written: its type, and its bytes. *)
Record writable (v : Value) (b : bytes) : Prop := {
  wr_bytes : Value_Bytes to32 to16 v = Ok b; wr_ordinary : ordinary (v_type v); wr_storable : storable (v_type v) b }.
Definition typed_row (ts : list ty) (v : Value) (iv : nat * bytes) : Prop := ts !! iv.1 = Some (v_type v) /\ writable v iv.2.
Lemma dynamic_Write_spec ts rows d v b : dholds ts rows d -> writable v b -> weight (map snd rows ++ [b]) < 2 ^ 32 -> (length ts <= length rows)%nat ->
  exists ts' i d', dynamic_Write d v = Ok d' /\ (ts' = ts \/ ts' = ts ++ [v_type v]) /\ typed_row ts' v (i, b) /\ dholds ts' (rows ++ [(i, b)]) d'.
Proof.
  intros Hd [Hb Ho Hs] Hwt Hl. pose proof (weight_of_nonneg (map snd rows ++ [b])) as Hwn. rewrite zlen_app, zlen_map in Hwn. change (zlen [b]) with 1 in Hwn.
  pose proof (which_of_zip (v_type v) ts 0 (dh_nodup _ _ _ Hd)) as Hwh. unfold Vng.dynamic_Write. rewrite (dh_which _ _ _ Hd).
  assert (Hwt' : forall i, weight (map snd (rows ++ [(i, b)])) < 2 ^ 32) by (intros i; by rewrite map_app).
  destruct (which_of _ _) as [i|].
  - destruct Hwh as (j & Hi & ->). destruct (dynamic_writes ts rows d j _ b Hd Hi Ho Hs (Hwt' j)) as (tags & e & e' & E1 & E2 & E3 & H); [unfold zlen in *; lia|].
    exists ts, j. eexists. cbn [plus]. rewrite E1. cbn [mbind outcome_bind obind]. rewrite Hb. cbn [no_err mbind outcome_bind obind plus]. rewrite E2, E3.
    cbn [mbind outcome_bind obind]. split; [done|]. split; [by left|]. split; [by split|]. apply H.
  - pose proof (dholds_type ts rows d _ Hd Hwh Ho) as Hd'. pose proof (Forall3_length_lr _ _ _ _ (dh_values _ _ _ Hd)) as Hlen. rewrite <- Hlen in Hd' |- *.
    assert (Hi : (ts ++ [v_type v]) !! length ts = Some (v_type v)) by (by rewrite list_lookup_middle).
    destruct (dynamic_writes _ _ _ _ _ b Hd' Hi Ho Hs (Hwt' _)) as (tags & e & e' & E1 & E2 & E3 & H); [rewrite zlen_app; unfold zlen in *; cbn; lia|].
    cbn [dy_tags dy_values dy_which dy_len] in *. rewrite (dh_which _ _ _ Hd) in *.
    eexists _, (length ts), _. rewrite E1. cbn [mbind outcome_bind obind]. rewrite Hb. cbn [no_err mbind outcome_bind obind]. rewrite E2, E3.
    cbn [mbind outcome_bind obind]. split; [done|]. split; [by right|]. split; [by split|]. apply H.
Qed.
Lemma write_all_spec vals : forall bs, Forall2 writable vals bs -> weight bs < 2 ^ 32 ->
  exists ts rows d, write_all NewDynamicEncoder vals = Ok d /\ dholds ts rows d /\ map snd rows = bs /\ Forall2 (typed_row ts) vals rows /\
    (length ts <= length rows)%nat /\ Forall (fun t => exists v, v ∈ vals /\ t = v_type v) ts.
Proof.
  induction vals as [|v vals IH] using rev_ind; intros bs Hb Hw.
  { inversion Hb. exists [], [], NewDynamicEncoder. split; [done|]. split; [apply dholds_new|]. split; [done|]. split; [constructor|]. split; [done|constructor]. }
  apply Forall2_app_inv_l in Hb as (bs1 & b1 & Hb & Hb1 & ->). inversion Hb1 as [|? b ? ? Hbv H0]; subst. inversion H0; subst. clear Hb1 H0.
  pose proof (weight_app bs1 [b]). pose proof (weight_of_nonneg [b]). change (zlen [b]) with 1 in *.
  destruct (IH bs1 Hb) as (ts & rows & d & E & Hd & Hrows & Ht & Hl & Hin); [lia|]. rewrite <- Hrows in Hw.
  destruct (dynamic_Write_spec ts rows d v b Hd Hbv Hw Hl) as (ts' & i & d' & E' & Hts & Hrow & Hd').
  exists ts', (rows ++ [(i, b)]), d'. rewrite write_all_app, E. cbn [mbind outcome_bind obind write_all]. rewrite E'. split; [done|]. split; [done|].
  split; [by rewrite map_app, Hrows|]. split.
  { apply Forall2_app; [|by constructor]. eapply Forall2_impl; [exact Ht|]. intros w jw [Hj Hwr]. split; [|done]. destruct Hts as [->| ->]; [done|by apply lookup_app_l_Some]. }
  split; [rewrite length_app; destruct Hts as [->| ->]; rewrite ?length_app; cbn; lia|].
  assert (Hold : Forall (fun t => exists w, w ∈ vals ++ [v] /\ t = v_type w) ts) by (eapply Forall_impl; [exact Hin|]; intros t (w & Hw' & ->); exists w; split; [apply elem_of_app; by left|done]).
  destruct Hts as [->| ->]; [done|]. apply Forall_app. split; [done|]. constructor; [|done]. exists v. split; [apply elem_of_app; right; by left|done].
Qed.

Lemma encodes_each ts cols es : Forall3 holds ts cols es -> Forall ordinary ts -> Forall (fun col => weight col < 2 ^ 32) cols ->
  exists es', each Encode es = Ok es' /\ Forall3 (fun t col e => emits (describes t) col e) ts cols es'.
Proof.
  induction 1 as [|t col e ts cols es Hh _ IH]; intros Ho Hw; [exists []; by split; [|constructor]|].
  apply Forall_cons in Ho as [Ho Hos]. apply Forall_cons in Hw as [Hw Hws]. destruct (column_encodes t Ho col e Hh Hw) as (e' & E & Hem).
  destruct (IH Hos Hws) as (es' & Es & Hems). exists (e' :: es'). cbn [each]. rewrite E. cbn [mbind outcome_bind obind]. rewrite Es. by split; [|constructor].
Qed.
Lemma emits_each ts cols es off : Forall3 (fun t col e => emits (describes t) col e) ts cols es ->
  exists off' ms es', each_at Metadata_ es off = Ok (off', ms, es') /\ Forall2 describes ts ms /\ forall r pre post,
    r = pre ++ concat (map Emit es') ++ post -> zlen pre = off -> zlen r < 2 ^ 63 ->
    off' = off + zlen (concat (map Emit es')) /\ exists bs, each NewBuilder ms = Ok bs /\
      forall n, (foldr (fun m n => Nat.max (meta_depth m) n) O ms <= n)%nat -> Forall2 (yields r n) bs cols.
Proof.
  intros H. destruct (each_at_spec Metadata_ (fun m => m) (fun e => e) describes ts es cols) with (off := off) as (off' & ms & es2 & E2 & H2 & Hp).
  - induction H as [|t col e ts cols es Hem _ IH]; [constructor|]. constructor; [|done]. intros off0.
    destruct (Hem off0) as (off1 & m1 & e2 & E & Hd & _ & Hpl). by eexists _, _, _.
  - by exists off', ms, es2.
Qed.
Local Abbreviation dynamic_Encode := (dynamic_Encode to32 of32 to16 of16 (@iteration) (@iteration')).
Definition indices (rows : list (nat * bytes)) : list Z := map (fun iv => Z.of_nat iv.1) rows.
(** One column, or the columns of several types and the types of the values. *)
Definition dynamic_encoded (ts : list ty) (rows : list (nat * bytes)) (m : Metadata) (size : Z) (r : list byte) : Prop :=
  (exists t, ts = [t] /\ describes t m /\ Len m = u32 (zlen rows) /\
    (zlen r < 2 ^ 63 -> size = zlen r /\ exists b, NewBuilder m = Ok b /\ forall n, (meta_depth m <= n)%nat -> yields r n b (map snd rows))) \/
  (exists loc ms n, m = MDynamic loc ms n /\ Forall2 describes ts ms /\ (zlen r < 2 ^ 63 -> size = zlen r /\ int_reads r (mkPBuilder loc None) (indices rows) /\
    exists bs, each NewBuilder ms = Ok bs /\ forall n, (meta_depth m <= n)%nat -> forall i col b, tagged_columns (length ts) rows !! i = Some col -> bs !! i = Some b ->
      yields r n b col)).
Lemma single_tagged rows : Forall (fun iv => (iv.1 < 1)%nat) rows -> tagged 0 rows = map snd rows.
Proof.
  induction 1 as [|[i v] rows Hi _ IH]; [done|]. unfold tagged in *. cbn [omap list_omap map fst snd] in *. destruct (decide (i = O)); [by rewrite IH|lia].
Qed.
Lemma dynamic_Encode_spec ts rows d : dholds ts rows d -> ts <> [] -> Forall ordinary ts -> weight (map snd rows) < 2 ^ 32 ->
  exists m size d', dynamic_Encode d = Ok (m, size, d') /\ dynamic_encoded ts rows m size (dynamic_Emit d').
Proof.
  intros [Hn _ Hv Ht Hr] Hne Ho Hw. assert (Hwc : Forall (fun col => weight col < 2 ^ 32) (tagged_columns (length ts) rows)).
  { apply Forall_forall. intros col (j & -> & _)%list_elem_of_fmap. pose proof (weight_tagged_rows j rows). lia. }
  destruct (encodes_each _ _ _ Hv Ho Hwc) as (es & E & He). pose proof (Forall3_length_lr _ _ _ _ Hv) as Hlv. pose proof (Forall3_length_lr _ _ _ _ He) as Hle.
  unfold Vng.dynamic_Encode. destruct (Z.ltb_spec 1 (zlen (dy_values d))) as [H1|H1].
  - destruct (icol_Encode _ _ Ht) as (tags & Et & Hi). rewrite Et. cbn [mbind outcome_bind obind]. rewrite E. cbn [mbind outcome_bind obind].
    destruct (emits_each _ _ _ (prim_next tags 0) He) as (size & ms & es2 & E2 & Hd & Hp).
    assert (Hlm : length es2 = length es).
    { clear - E2. revert E2. generalize (prim_next tags 0). intros off. revert off size ms es2. induction es as [|e es IH]; intros off size ms es2 E2; [by injection E2 as _ _ <-|].
      cbn [each_at] in E2. destruct (Metadata_ e off) as [[[off1 m1] e1]| |]; try done. cbn [mbind outcome_bind obind] in E2.
      destruct (each_at Metadata_ es off1) as [[[off2 ms2] es3]| |] eqn:E3; try done. injection E2 as _ _ <-. cbn [length]. f_equal. by eapply IH. }
    exists (MDynamic (prim_location tags 0) ms (dy_len d)), size, (mkDynamic tags es2 (dy_which d) (dy_len d)). split.
    { destruct es as [|e1 [|e2 es]]; [by unfold zlen in *; cbn in *; lia..|]. rewrite (int_Metadata_spec _ _ _ Hi). cbn [mbind outcome_bind obind]. by rewrite E2. }
    right. exists (prim_location tags 0), ms, (dy_len d). split; [done|]. split; [done|]. unfold dynamic_Emit. cbn [dy_values dy_tags].
    destruct (Z.ltb_spec 1 (zlen es2)) as [_|]; [|unfold zlen in *; lia]. intros Hz. set (r := p_out tags ++ concat (map Emit es2)) in *.
    assert (Er : r = [] ++ p_out tags ++ concat (map Emit es2)) by done. pose proof (prim_next_spec tags 0 [] _ r Er eq_refl Hz) as En.
    destruct (Hp r (p_out tags) []) as (-> & bs & Eb & Hy); [by rewrite app_nil_r|lia|done|]. split; [unfold r; rewrite zlen_app; lia|].
    split; [by apply (iencoded_reads _ tags [] (concat (map Emit es2)))|]. exists bs. split; [done|]. intros n Hdep i col b Hcol Hb.
    cbn [meta_depth] in Hdep. specialize (Hy n ltac:(lia)). by apply (Forall2_lookup_lr _ _ _ _ _ _ Hy Hb Hcol).
  - destruct ts as [|t [|u ts]]; [done| |unfold zlen in H1; cbn in Hlv; lia]. destruct es as [|e [|? ?]]; [done| |done].
    cbn [mbind outcome_bind obind]. rewrite E. cbn [mbind outcome_bind obind]. inversion He as [|? ? ? ? ? ? Hem _]; subst.
    destruct (Hem 0) as (size & m & e2 & Em & Hd & Hl & Hp). rewrite Em. cbn [mbind outcome_bind obind]. eexists _, _, _. split; [done|].
    cbn in Hr. rewrite single_tagged in Hl, Hp by done. left. exists t. split; [done|]. split; [done|]. split; [by rewrite zlen_map in Hl|].
    unfold dynamic_Emit. cbn [dy_values dy_tags]. change (1 <? zlen [e2]) with false. cbn [map concat app]. rewrite app_nil_r. intros Hz.
    destruct (Hp (Emit e2) [] []) as (-> & Hy); [by rewrite app_nil_r|done|done|]. by split; [lia|].
Qed.

(** ** Files *)

Lemma le_roundtrip n x : 0 <= x < 2 ^ (8 * Z.of_nat n) -> le_value (le_bytes n x) = x.
Proof. intros H. rewrite le_value_bytes. by apply Z.mod_small. Qed.
Lemma zlen_Serialize h : zlen (Serialize h) = HeaderSize.
Proof. unfold Serialize. rewrite !zlen_app. unfold zlen. rewrite !length_le_bytes. done. Qed.
Lemma header_roundtrip h : h_Version h = Version -> 0 <= MetaSize h <= MaxMetaSize -> 0 <= DataSize h < 2 ^ 64 -> Deserialize (Serialize h) = Ok h.
Proof.
  destruct h as [v ms ds]. cbn [h_Version MetaSize DataSize]. intros -> Hm Hd. unfold Deserialize. rewrite zlen_Serialize. cbn [Z.eqb negb orb].
  assert (E : forall a b, length a = 4%nat -> length b = 8%nat -> forall c, let f := (str "VNG" ++ [zb 0]) ++ a ++ b ++ c in
    take 4 f = str "VNG" ++ [zb 0] /\ take 4 (drop 4 f) = a /\ take 8 (drop 8 f) = b /\ drop 16 f = c).
  { intros a b Ha Hb c. set (magic := str "VNG" ++ [zb 0]). assert (Hmg : length magic = 4%nat) by done. cbv zeta.
    split; [by rewrite take_app_length'|]. rewrite drop_app_length' by done. split; [by rewrite take_app_length'|].
    rewrite (drop_app_ge _ _ 8), Hmg by lia. rewrite (drop_app_length' a) by (rewrite Ha; done). split; [by rewrite take_app_length'|].
    rewrite (drop_app_ge _ _ 16), Hmg by lia. rewrite (drop_app_ge a) by lia. rewrite Ha. rewrite drop_app_length' by (rewrite Hb; done). done. }
  destruct (E (le_bytes 4 Version) (le_bytes 8 ms) (length_le_bytes _ _) (length_le_bytes _ _) (le_bytes 8 ds)) as (E1 & E2 & E3 & E4).
  assert (Es : Serialize (mkHeader Version ms ds) = (str "VNG" ++ [zb 0]) ++ le_bytes 4 Version ++ le_bytes 8 ms ++ le_bytes 8 ds) by (unfold Serialize; by rewrite <- app_assoc).
  rewrite Es, E1, E2, E3, E4. rewrite bool_decide_true by done. cbn [negb orb]. rewrite (take_ge (le_bytes 8 ds)) by (by rewrite length_le_bytes).
  unfold MaxMetaSize in Hm. rewrite !le_roundtrip by (unfold Version; cbn; lia). cbn [h_Version MetaSize]. change (negb (Version =? Version)) with false. cbn iota.
  destruct (Z.ltb_spec MaxMetaSize ms); [unfold MaxMetaSize in *; lia|]. destruct (Z.ltb_spec MaxDataSize ms); [unfold MaxDataSize in *; lia|]. done.
Qed.
Context (marshal : Metadata -> list byte) (unmarshal : list byte -> option Metadata).
Lemma NewObject_spec m size data : unmarshal (marshal m) = Some m -> zlen (marshal m) <= MaxMetaSize -> size = zlen data -> zlen data < 2 ^ 63 ->
  let h := mkHeader Version (zlen (marshal m)) size in
  NewObject unmarshal (Serialize h ++ marshal m ++ data) = Ok (mkObject data h m).
Proof.
  intros Hu Hm -> Hd h. pose proof (zlen_nonneg (marshal m)). pose proof (zlen_nonneg data). pose proof (zlen_Serialize h) as Hz.
  assert (Hl : length (Serialize h) = Z.to_nat HeaderSize) by (unfold zlen in Hz; lia).
  assert (HeaderSize = 24) by done. unfold NewObject, ReadHeader. rewrite !zlen_app, Hz.
  destruct (Z.eqb_spec (HeaderSize + (zlen (marshal m) + zlen data)) 0); [lia|]. destruct (Z.ltb_spec (HeaderSize + (zlen (marshal m) + zlen data)) HeaderSize); [lia|].
  rewrite take_app_length' by done. rewrite header_roundtrip by (cbn [h_Version MetaSize DataSize h]; (done || lia)). cbn [mbind outcome_bind obind].
  rewrite drop_app_length' by done. cbn [MetaSize DataSize h]. rewrite i64_id by lia. unfold zlen. rewrite !Nat2Z.id.
  rewrite take_app_length, drop_app_length, Hu. by rewrite take_ge.
Qed.

(** ** Readers *)

Local Abbreviation Read := (Read to32 to16).
(** A reader gives the values, then the end. *)
Fixpoint gives (data : list byte) (n : nat) (r : Reader) (vals : list Value) : Prop :=
  match vals with
  | [] => Read data n r = Ok (None, r)
  | v :: vals => exists r', Read data n r = Ok (Some v, r') /\ gives data n r' vals
  end.
Lemma built_spec t z b : small b -> built t (BAppend (Truncate z) b) = Ok (NewValue t b).
Proof.
  intros Hb. unfold built. rewrite BAppend_val. cbn [Truncate b_bytes containers]. assert (E : default [] (match b_bytes z with Some _ => Some [] | None => None end) = [] :> list byte) by by destruct (b_bytes z).
  rewrite E. cbn [app]. unfold Bytes_. cbn [containers b_bytes]. change (0 <? zlen []) with false. cbn [no_err mbind outcome_bind obind]. unfold Body, Iter. cbn [default from_option].
  rewrite <- (app_nil_r (val_bytes b)). change (id (val_bytes b ++ [])) with (val_bytes b ++ []). rewrite Next_Append by done. done.
Qed.
Lemma vector_gives data n t bs : forall b z, yields data n b bs -> Forall small bs -> gives data n (RVector t b z (zlen bs)) (map (NewValue t) bs).
Proof.
  induction bs as [|x bs IH]; intros b z Hy Hs; [done|]. destruct Hy as (b' & Eb & Hy). apply Forall_cons in Hs as [Hx Hs]. pose proof (zlen_nonneg bs).
  exists (RVector t b' (BAppend (Truncate z) x) (zlen bs)). split; [|by apply IH]. cbn [Vng.Read]. rewrite zlen_cons.
  destruct (Z.eqb_spec (zlen bs + 1) 0); [lia|]. rewrite Eb. cbn [mbind outcome_bind obind]. rewrite built_spec by done. cbn [mbind outcome_bind obind]. by rewrite Z.add_simpl_r.
Qed.
Lemma dynamic_gives data n us rows : forall tags bs z, int_reads data tags (indices rows) -> Forall small (map snd rows) ->
  (forall i b, bs !! i = Some b -> yields data n b (tagged i rows)) -> length bs = length us -> Forall (fun iv => (iv.1 < length us)%nat) rows ->
  gives data n (RDynamic us tags bs z) (map (fun iv => NewValue (default (TPrim Null) (us !! iv.1)) iv.2) rows).
Proof.
  induction rows as [|[i x] rows IH]; intros tags bs z Ht Hs Hy Hl Hr.
  { cbn [map gives Vng.Read]. by rewrite int_Next_nil. }
  cbn [map indices fst snd] in *. apply Forall_cons in Hs as [Hx Hs]. apply Forall_cons in Hr as [Hi Hr]. cbn [fst] in Hi.
  destruct (int_Next_spec _ _ _ _ Ht) as (tags' & Et & Ht'). destruct (lookup_lt_is_Some_2 us i Hi) as [u Hu]. rewrite <- Hl in Hi.
  destruct (lookup_lt_is_Some_2 bs i Hi) as [b Hb]. pose proof (Hy i b Hb) as Hyi. unfold tagged in Hyi. cbn [omap list_omap fst snd] in Hyi.
  destruct (decide (i = i)) as [_|]; [|done]. destruct Hyi as (b' & Eb & Hyi). rewrite Hu. cbn [default from_option].
  exists (RDynamic us tags' (<[i := b']> bs) (BAppend (Truncate z) x)). split.
  - cbn [Vng.Read]. rewrite Et. destruct (Z.leb_spec (zlen us) (Z.of_nat i)); [unfold zlen in *; lia|]. destruct (Z.ltb_spec (Z.of_nat i) 0); [lia|].
    rewrite Nat2Z.id, Hb, Hu, Eb. cbn [mbind outcome_bind obind]. by rewrite built_spec.
  - apply IH; [done|done| |by rewrite length_insert|done]. intros j d Hd. destruct (decide (j = i)) as [->|Hne].
    + rewrite list_lookup_insert_eq in Hd by done. injection Hd as <-. exact Hyi.
    + rewrite list_lookup_insert_ne in Hd by done. pose proof (Hy j d Hd) as Hj. unfold tagged in Hj. cbn [omap list_omap fst snd] in Hj.
      destruct (decide (i = j)); [by subst|]. exact Hj.
Qed.
Local Abbreviation NewZedReader := (NewZedReader to32 to16).
Local Abbreviation new_builders := (new_builders to32 to16).
Lemma describes_static t m : describes t m -> forall loc ms n, m <> MDynamic loc ms n.
Proof. intros H loc ms n ->. by destruct t. Qed.
Definition retyped (sh : Context) (t u : ty) : Prop := member sh u /\ erase u = erase t.
Lemma new_builders_spec c ts ms : wf c -> Forall2 describes ts ms -> Forall (member c) ts -> forall bs sh, each NewBuilder ms = Ok bs -> wf sh ->
  exists us sh', new_builders ms sh = Ok (bs, us, sh') /\ wf sh' /\ grows sh sh' /\ Forall2 (retyped sh') ts us.
Proof.
  intros Hc. induction 1 as [|t m ts ms Hd _ IH]; intros Hm bs sh Eb Hw; [injection Eb as <-; exists [], sh; by split|].
  apply Forall_cons in Hm as [Hm Hms]. cbn [each] in Eb. destruct (NewBuilder m) as [b| |] eqn:E; try done. cbn [mbind outcome_bind obind] in Eb.
  destruct (each NewBuilder ms) as [bs'| |]; try done. injection Eb as <-. destruct (describes_typed c Hc t m Hd Hm sh Hw) as (u & sh1 & Eu & Hw1 & Hg1 & Hu).
  destruct (IH Hms bs' sh1 eq_refl Hw1) as (us & sh2 & Es & Hw2 & Hg2 & Hus). exists (u :: us), sh2. cbn [Vng.new_builders]. rewrite E. cbn [mbind outcome_bind obind].
  unfold in_context. rewrite Eu. cbn [omap_err mbind outcome_bind obind]. rewrite Es. split; [done|]. split; [done|]. split; [by etrans|]. constructor; [|done].
  destruct Hu as [Hu He]. split; [by eapply member_grows|done].
Qed.
Lemma dynamic_Encode_empty : exists m size d', dynamic_Encode NewDynamicEncoder = Ok (m, size, d') /\ dynamic_encoded [] [] m size (dynamic_Emit d').
Proof.
  eexists _, _, _. split; [reflexivity|]. right. eexists _, _, _. split; [done|]. split; [constructor|]. intros _. split; [done|]. split.
  - split; [done|]. split; [done|]. cbn [pb_it pb_loc]. split; [done|]. right. by split.
  - exists []. split; [done|]. intros n _ i col b Hcol. done.
Qed.
(** What the reader of an object gives has the bytes that were written, under
    types of the same structure. *)
Definition same_value (sh : Context) (v w : Value) : Prop := retyped sh (v_type v) (v_type w) /\ Value_Bytes to32 to16 w = Value_Bytes to32 to16 v.
Lemma encoded_read c ts vals rows m size data : wf c -> Forall (member c) ts -> Forall2 (typed_row ts) vals rows -> weight (map snd rows) < 2 ^ 32 ->
  Forall (fun iv => (iv.1 < length ts)%nat) rows -> dynamic_encoded ts rows m size data -> zlen data < 2 ^ 63 -> size = zlen data /\
  forall sh, wf sh -> exists r sh', NewZedReader m sh = Ok (r, sh') /\ wf sh' /\ forall n, (meta_depth m <= n)%nat ->
    exists vals', gives data n r vals' /\ Forall2 (same_value sh') vals vals'.
Proof.
  intros Hc Hm Hv Hw Hr Hd Hz. assert (Hs : Forall small (map snd rows)) by (apply Forall_forall; intros b Hb; by apply (weight_small _ _ Hb)).
  destruct Hd as [(t & -> & Hd & Hl & H)|(loc & ms & k & -> & Hd & H)].
  - destruct (H Hz) as (-> & b & Eb & Hy). split; [done|]. intros sh Hsh. apply Forall_inv in Hm.
    destruct (describes_typed c Hc t m Hd Hm sh Hsh) as (u & sh' & Eu & Hw' & _ & Hu).
    exists (RVector u b Zcode.NewBuilder (Len m)), sh'. split.
    { pose proof (describes_static t m Hd) as Hst. unfold Vng.NewZedReader. destruct m; try (by exfalso; eapply Hst); rewrite Eb; cbn [mbind outcome_bind obind]; unfold in_context; by rewrite Eu. }
    split; [done|]. intros n Hn. exists (map (NewValue u) (map snd rows)). pose proof (weight_of_nonneg (map snd rows)) as Hwn. rewrite zlen_map in Hwn. pose proof (zlen_nonneg rows).
    rewrite Hl, u32_id, <- (zlen_map snd rows) by lia. split; [apply vector_gives; [by apply Hy|done]|]. clear - Hv Hu Hr.
    induction Hv as [|v [i x] vals rows [Ht Hwr] _ IH]; [constructor|]. apply Forall_cons in Hr as [Hi Hr]. constructor; [|by apply IH].
    cbn [fst snd length] in *. assert (i = O) as -> by lia. injection Ht as ->. split; [done|]. by rewrite (wr_bytes _ _ Hwr).
  - destruct (H Hz) as (-> & Ht & bs & Eb & Hy). split; [done|]. intros sh Hsh. destruct (new_builders_spec c ts ms Hc Hd Hm bs sh Eb Hsh) as (us & sh' & E & Hw' & _ & Hus).
    exists (RDynamic us (mkPBuilder loc None) bs Zcode.NewBuilder), sh'. split; [unfold Vng.NewZedReader; by rewrite E|]. split; [done|]. intros n Hn.
    pose proof (Forall2_length _ _ _ Hus) as Hlu. assert (Hlb : length bs = length ms).
    { clear - Eb. revert bs Eb. induction ms as [|m ms IH]; intros bs Eb; [by injection Eb as <-|]. cbn [each] in Eb. destruct (NewBuilder m); try done. cbn [mbind outcome_bind obind] in Eb.
      destruct (each NewBuilder ms) as [bs'| |] eqn:E; try done. injection Eb as <-. cbn [length]. f_equal. by apply IH. }
    pose proof (Forall2_length _ _ _ Hd) as Hlm. eexists. split.
    + apply (dynamic_gives data n us rows); [done|done| |lia|by rewrite <- Hlu]. intros i b Hb. pose proof (lookup_lt_Some _ _ _ Hb).
      assert (Hcol : tagged_columns (length ts) rows !! i = Some (tagged i rows)) by (unfold tagged_columns; rewrite list_lookup_fmap, lookup_seq_lt by lia; done).
      by apply (Hy n Hn i _ b Hcol Hb).
    + clear - Hv Hus. induction Hv as [|v [i x] vals rows [Ht Hwr] _ IH]; [constructor|]. constructor; [|exact IH]. cbn [fst snd] in *.
      destruct (Forall2_lookup_l _ _ _ _ _ Hus Ht) as (u & Hu & Hrt). rewrite Hu. cbn [default from_option]. split; [exact Hrt|]. by rewrite (wr_bytes _ _ Hwr).
Qed.
Local Abbreviation finalize := (finalize to32 of32 to16 of16 (@iteration) (@iteration') marshal).
(** What is written to a file is read from it in any other context. *)
Lemma file_read c vals bs : wf c -> Forall2 writable vals bs -> Forall (fun v => member c (v_type v)) vals -> weight bs < 2 ^ 32 ->
  exists d m size d', write_all NewDynamicEncoder vals = Ok d /\ dynamic_Encode d = Ok (m, size, d') /\
    (unmarshal (marshal m) = Some m -> zlen (marshal m) <= MaxMetaSize -> zlen (dynamic_Emit d') < 2 ^ 63 ->
     exists f, finalize d = Ok f /\ exists o, NewObject unmarshal f = Ok o /\
       forall sh, wf sh -> exists r sh', NewZedReader (o_meta o) sh = Ok (r, sh') /\ wf sh' /\ forall n, (meta_depth (o_meta o) <= n)%nat ->
         exists vals', gives (o_data o) n r vals' /\ Forall2 (same_value sh') vals vals').
Proof.
  intros Hc Hv Hm Hw. destruct (write_all_spec vals bs Hv Hw) as (ts & rows & d & E & Hd & <- & Ht & _ & Hin).
  assert (Henc : exists m size d', dynamic_Encode d = Ok (m, size, d') /\ dynamic_encoded ts rows m size (dynamic_Emit d')).
  { destruct ts as [|t ts].
    - assert (rows = []) as -> by (destruct rows as [|iv rows]; [done|]; destruct (dh_rows _ _ _ Hd); cbn in *; lia || done). inversion Ht; subst. injection E as <-. apply dynamic_Encode_empty.
    - apply dynamic_Encode_spec; [done..| |done]. eapply Forall_impl; [exact Hin|]. intros u (v & Hvin & ->).
      apply list_elem_of_lookup_1 in Hvin as (i & Hi). destruct (Forall2_lookup_l _ _ _ _ _ Ht Hi) as (iv & _ & _ & Hwr). apply (wr_ordinary _ _ Hwr). }
  destruct Henc as (m & size & d' & Ee & He). exists d, m, size, d'. split; [done|]. split; [done|]. intros Hun Hms Hz.
  assert (Hmem : Forall (member c) ts).
  { eapply Forall_impl; [exact Hin|]. intros u (v & Hvin & ->). rewrite Forall_forall in Hm. by apply Hm. }
  destruct (encoded_read c ts vals rows m size _ Hc Hmem Ht Hw (dh_rows _ _ _ Hd) He Hz) as [-> Hread].
  eexists. split; [unfold Vng.finalize; rewrite Ee; done|]. eexists. split; [by apply NewObject_spec|]. exact Hread.
Qed.
End vng.
