(* ===== verification/VngProps.v ===== *)
(** * The properties of VNG files *)

From S2P Require Import Prelude Zcode Types Context Interning Primitive Values.
From S2P Require Import ZngProps.
From S2P Require Import Decode EncodingProps ValueProofs Compare CompareProofs Vng VngProofs.
Local Open Scope Z_scope.

(** ** Bytes of primitives

    Numbers in their shortest form, so that values that compare equal have the
    same bytes.  Floats are left out: the zeros compare equal and have different
    bytes, which a dictionary mixes up ([zeros_swapped]); so are type values. *)
Definition shortest (p : primitive) (x : list byte) : Prop :=
  match p with
  | Uint8 | Uint16 | Uint32 | Uint64 => exists u, 0 <= u < 2 ^ 64 /\ x = default [] (AppendUint None u)
  | Int8 | Int16 | Int32 | Int64 | Duration | Time => exists i, int64 i /\ x = default [] (AppendInt None i)
  | Bool => x = [zb 0] \/ x = [zb 1]
  | IP => exists a, DecodeIP (Some x) = Ok a /\ AsSlice a = x
  | Bytes | String | Net | Null => True
  | Float16 | Float32 | Float64 | Type_ => False
  end.

Section props.
Context (to32 of32 to16 of16 : Z -> Z).
Local Abbreviation sort_ok p x := (sortable to32 to16 false NewContext (NewValue (TPrim p) (Some x))).
Local Abbreviation key p x := (vkey to32 to16 false (NewValue (TPrim p) (Some x))).

Lemma uint_decoded u : 0 <= u < 2 ^ 64 -> DecodeUint (Some (default [] (AppendUint None u))) = u.
Proof. intros H. destruct (uint_roundtrip u H) as (b & E & Hd). rewrite EncodeUint_AppendUint in E by done. by injection E as <-. Qed.
Lemma int_decoded i : int64 i -> DecodeInt (Some (default [] (AppendInt None i))) = i.
Proof. intros H. destruct (int_roundtrip i H) as (b & E & -> & Hd). exact Hd. Qed.
Lemma shortest_uint_key p u : 0 <= primitive_id p <= 3 -> 0 <= u < 2 ^ 64 -> value_key to32 to16 false (NewValue (TPrim p) (Some (default [] (AppendUint None u)))) = Some [1; -1; u].
Proof.
  intros Hp Hu. unfold value_key, key_with, int_value. cbn [IsNull NewValue v_repr v_type]. change (ID (TPrim p)) with (primitive_id p).
  assert (Hs : IsSigned (primitive_id p) = false) by (by destruct p; cbn in *; try lia). unfold is_int. rewrite Hs. cbn [orb].
  rewrite (proj2 (Z.leb_le 0 _)), (proj2 (Z.leb_le _ 3)) by lia. cbn [andb]. unfold Uint. cbn [v_type NewValue v_repr]. change (ID (TPrim p)) with (primitive_id p).
  rewrite (proj2 (Z.ltb_ge 3 _)) by lia. cbn [got mbind option_bind]. rewrite uint_decoded by done.
  by rewrite (proj2 (Z.leb_le 0 _)), (proj2 (Z.ltb_lt _ (2 ^ 64))) by lia.
Qed.
Lemma shortest_int_key p i : IsSigned (primitive_id p) = true -> int64 i -> value_key to32 to16 false (NewValue (TPrim p) (Some (default [] (AppendInt None i)))) = Some [1; -1; i].
Proof.
  intros Hp Hi. unfold value_key, key_with, int_value. cbn [IsNull NewValue v_repr v_type]. change (ID (TPrim p)) with (primitive_id p). unfold is_int. rewrite Hp. cbn [orb].
  unfold Int. cbn [v_type NewValue v_repr]. change (ID (TPrim p)) with (primitive_id p). rewrite Hp. cbn [negb got mbind option_bind]. by rewrite int_decoded.
Qed.
Lemma shortest_sorts p x : shortest p x -> sort_ok p x.
Proof.
  intros H. split; [split; [intros E; discriminate E|by split]|]. destruct p; cbn [shortest] in H; try done;
    try (destruct H as (u & Hu & ->); rewrite shortest_uint_key by (cbn; lia || done); by eexists);
    try (destruct H as (i & Hi & ->); rewrite shortest_int_key by done; by eexists);
    try (by eexists).
  - destruct H as [->| ->]; by eexists.
  - destruct H as (a & E & _). unfold value_key, key_with. cbn -[DecodeIP]. rewrite E. by eexists.
Qed.
Lemma name_keys (p : primitive) x y : default [] (Some (1 :: [0; primitive_id p] ++ name_key x)) = default [] (Some (1 :: [0; primitive_id p] ++ name_key y)) -> x = y.
Proof. intros [= E]. rewrite <- (app_nil_r (name_key x)), <- (app_nil_r (name_key y)) in E. by apply name_key_inj in E as [-> _]. Qed.
Lemma shortest_distinct p x y : shortest p x -> shortest p y -> key p x = key p y -> x = y.
Proof.
  intros Hx Hy E. unfold vkey in E. destruct p; cbn [shortest] in Hx, Hy; try done;
    try (destruct Hx as (u & Hu & ->), Hy as (v & Hv & ->); rewrite !shortest_uint_key in E by (cbn; lia || done); by injection E as ->);
    try (destruct Hx as (i & Hi & ->), Hy as (j & Hj & ->); rewrite !shortest_int_key in E by done; by injection E as ->).
  - destruct Hx as [->| ->], Hy as [->| ->]; [done|vm_compute in E; discriminate E|vm_compute in E; discriminate E|done].
  - by apply (name_keys Bytes).
  - by apply (name_keys String).
  - destruct Hx as (a & Ea & <-), Hy as (b & Eb & <-). unfold value_key, key_with in E. cbn -[DecodeIP name_key] in E. rewrite Ea, Eb in E.
    cbn -[name_key] in E. injection E as _ E. by apply name_key_inj in E as [E _].
  - by apply (name_keys Net).
  - by apply (name_keys Null).
Qed.

Context `{LZ : !LZ4Block, LZL : !LZ4BlockLaws} (iteration iteration' : forall {A : Type}, list A -> list A).
Context (Hit : forall A (l : list A), iteration A l ≡ₚ l) (Hit' : forall A (l : list A), iteration' A l ≡ₚ l).
Context (marshal : Metadata -> list byte) (unmarshal : list byte -> option Metadata).

(** C33: VNG files round trip. Values of any types of a context, in any order,
    are written without an error, and a reader of that file, in any other
    well-formed context, gives back the values in their order and then the
    end: every value has the bytes that were written, under a type of the same
    structure. The types are records, arrays, sets, maps, unions (of distinct
    types), errors and named types nested to any depth, over the unsigned and
    signed integers, durations, times, booleans, bytes, strings, addresses and
    networks, with nulls anywhere; integers are in their shortest form. Left
    out are floats, whose zeros a dictionary may swap ([zeros_swapped]), type
    values and enums. All values together, with one byte more for each, have
    less than 2^32 bytes. Neither the order in which Go iterates over a
    dictionary nor which blocks the compressor takes matters. That the
    metadata survives its marshaling to ZNG by reflection is assumed of the
    metadata at hand, and that a reader accepts its size (MaxMetaSize). *)
Theorem vng_roundtrip c vals bs :
  wf c -> Forall2 (writable to32 to16 shortest) vals bs -> Forall (fun v => member c (v_type v)) vals -> weight bs < 2 ^ 32 ->
  exists d m size d', write_all to32 of32 to16 of16 NewDynamicEncoder vals = Ok d /\
    dynamic_Encode to32 of32 to16 of16 (@iteration) (@iteration') d = Ok (m, size, d') /\
    (unmarshal (marshal m) = Some m -> zlen (marshal m) <= MaxMetaSize -> zlen (dynamic_Emit d') < 2 ^ 63 ->
     exists f, finalize to32 of32 to16 of16 (@iteration) (@iteration') marshal d = Ok f /\ exists o, NewObject unmarshal f = Ok o /\
       forall sh, wf sh -> exists r sh', NewZedReader to32 to16 (o_meta o) sh = Ok (r, sh') /\ wf sh' /\ forall n, (meta_depth (o_meta o) <= n)%nat ->
         exists vals', gives to32 to16 (o_data o) n r vals' /\ Forall2 (same_value to32 to16 sh') vals vals').
Proof.
  apply (file_read to32 of32 to16 of16 (@iteration) (@iteration') Hit Hit' shortest shortest_sorts shortest_distinct marshal unmarshal).
Qed.
End props.

(** ** A marshaling of metadata

    The parts of metadata one after the other, numbers and bytes as values. *)
Definition put (z : Z) : list byte := val_bytes (AppendInt None z).
Definition put_all {A} (f : A -> list byte) (l : list A) : list byte := put (zlen l) ++ concat (map f l).
Definition put_segment (s : Segment) : list byte := put (Offset s) ++ put (Length_ s) ++ put (MemLength s) ++ put (CompressionFormat s).
Definition put_value (v : Value) : list byte := put (ID (v_type v)) ++ val_bytes (match v_repr v with Raw b => b | Native _ => None end).
Definition put_option {A} (f : A -> list byte) (o : option A) : list byte := match o with Some x => put 1 ++ f x | None => put 0 end.
Fixpoint demo_marshal (m : Metadata) : list byte :=
  match m with
  | MRecord n fields => put 0 ++ put n ++ put_all (fun f => val_bytes (Some f.1) ++ demo_marshal f.2) fields
  | MArray n s m => put 1 ++ put n ++ put_segment s ++ demo_marshal m
  | MSet n s m => put 2 ++ put n ++ put_segment s ++ demo_marshal m
  | MMap n s k v => put 3 ++ put n ++ put_segment s ++ demo_marshal k ++ demo_marshal v
  | MUnion n s ms => put 4 ++ put n ++ put_segment s ++ put_all demo_marshal ms
  | MNamed n m => put 5 ++ val_bytes (Some n) ++ demo_marshal m
  | MError m => put 6 ++ demo_marshal m
  | MPrimitive t s dict mn mx n =>
      put 7 ++ put (ID t) ++ put_segment s ++ put_all (fun e => put_value (d_Value e) ++ put (d_Count e)) dict ++ put_option put_value mn ++ put_option put_value mx ++ put n
  | MNulls s m n => put 8 ++ put_segment s ++ demo_marshal m ++ put n
  | MConst v n => put 9 ++ put_value v ++ put n
  | MDynamic s ms n => put 10 ++ put_segment s ++ put_all demo_marshal ms ++ put n
  end.
Definition parser (A : Type) : Type := list byte -> option (A * list byte).
Definition get_bytes : parser bytes := fun l => match Next l with Ok r => Some r | _ => None end.
Definition get : parser Z := fun l => '(b, l) ← get_bytes l; Some (DecodeInt b, l).
Fixpoint get_n {A} (f : parser A) (n : nat) : parser (list A) := fun l =>
  match n with O => Some ([], l) | S n => '(x, l) ← f l; '(xs, l) ← get_n f n l; Some (x :: xs, l) end.
Definition get_all {A} (f : parser A) : parser (list A) := fun l => '(n, l) ← get l; get_n f (Z.to_nat n) l.
Definition get_segment : parser Segment := fun l =>
  '(off, l) ← get l; '(len, l) ← get l; '(mem, l) ← get l; '(format, l) ← get l; Some (mkSegment off len mem format, l).
Definition get_type : parser ty := fun l => '(i, l) ← get l; match LookupPrimitiveByID i with Ok p => Some (TPrim p, l) | _ => None end.
Definition get_value : parser Value := fun l => '(t, l) ← get_type l; '(b, l) ← get_bytes l; Some (NewValue t b, l).
Definition get_option {A} (f : parser A) : parser (option A) := fun l => '(o, l) ← get l; if o =? 0 then Some (None, l) else '(x, l) ← f l; Some (Some x, l).
Definition get_entry : parser DictEntry := fun l => '(v, l) ← get_value l; '(n, l) ← get l; Some (mkDictEntry v n, l).
Fixpoint get_metadata (fuel : nat) : parser Metadata := fun l =>
  match fuel with
  | O => None
  | S fuel =>
      '(tag, l) ← get l;
      if tag =? 0 then '(n, l) ← get l; '(fs, l) ← get_all (fun l => '(b, l) ← get_bytes l; '(m, l) ← get_metadata fuel l; Some ((default [] b, m), l)) l; Some (MRecord n fs, l)
      else if tag =? 1 then '(n, l) ← get l; '(s, l) ← get_segment l; '(m, l) ← get_metadata fuel l; Some (MArray n s m, l)
      else if tag =? 2 then '(n, l) ← get l; '(s, l) ← get_segment l; '(m, l) ← get_metadata fuel l; Some (MSet n s m, l)
      else if tag =? 3 then '(n, l) ← get l; '(s, l) ← get_segment l; '(k, l) ← get_metadata fuel l; '(v, l) ← get_metadata fuel l; Some (MMap n s k v, l)
      else if tag =? 4 then '(n, l) ← get l; '(s, l) ← get_segment l; '(ms, l) ← get_all (get_metadata fuel) l; Some (MUnion n s ms, l)
      else if tag =? 5 then '(b, l) ← get_bytes l; '(m, l) ← get_metadata fuel l; Some (MNamed (default [] b) m, l)
      else if tag =? 6 then '(m, l) ← get_metadata fuel l; Some (MError m, l)
      else if tag =? 7 then
        '(t, l) ← get_type l; '(s, l) ← get_segment l; '(dict, l) ← get_all get_entry l; '(mn, l) ← get_option get_value l; '(mx, l) ← get_option get_value l;
        '(n, l) ← get l; Some (MPrimitive t s dict mn mx n, l)
      else if tag =? 8 then '(s, l) ← get_segment l; '(m, l) ← get_metadata fuel l; '(n, l) ← get l; Some (MNulls s m n, l)
      else if tag =? 9 then '(v, l) ← get_value l; '(n, l) ← get l; Some (MConst v n, l)
      else '(s, l) ← get_segment l; '(ms, l) ← get_all (get_metadata fuel) l; '(n, l) ← get l; Some (MDynamic s ms n, l)
  end.
Definition demo_unmarshal (b : list byte) : option Metadata := match get_metadata (length b) b with Some (m, []) => Some m | _ => None end.

(** Blocks of one repeated byte are compressed to that byte. *)
Definition vng_runs : LZ4Block := {|
  CompressBlock b n := z ← runs_compress b; if zlen z <=? n then Some z else None;
  UncompressBlock := runs_uncompress |}.
Lemma vng_runs_laws : @LZ4BlockLaws vng_runs.
Proof.
  assert (H : forall b n z, @CompressBlock vng_runs b n = Some z -> runs_compress b = Some z /\ zlen z <= n).
  { intros b n z E. cbn in E. destruct (runs_compress b) as [y|]; [|done]. cbn in E. destruct (Z.leb_spec (zlen y) n); [|done]. by injection E as ->. }
  split; intros b n z E%H; [|by destruct E]. destruct E as [E _]. unfold runs_compress in E. destruct b as [|x l]; [done|].
  destruct (forallb _ l) eqn:Ef; [|done]. injection E as <-. cbn. apply forallb_replicate in Ef. unfold zlen. rewrite Nat2Z.id. cbn [length replicate]. by rewrite <- Ef.
Qed.

(** Records of a number and an array of strings, and numbers. *)
Definition demo_context : Context :=
  match (a ← LookupTypeArray (TPrim String); MustLookupTypeRecord [(str "n", TPrim Int64); (str "s", a)]) NewContext with Ok (_, c) => c | _ => NewContext end.
Definition demo_record : ty := TRecord 31 [(str "n", TPrim Int64); (str "s", TArray 30 (TPrim String))].
Definition demo_row (n : bytes) (s : option (list bytes)) : bytes := Some (body_of [n; option_map body_of s]).
Definition demo_values : list Value :=
  [NewValue demo_record (demo_row (Some [zb 2]) (Some [Some (str "x"); Some (str "y")])); NewValue demo_record None; NewInt64 7;
   NewValue demo_record (demo_row (Some [zb 4]) (Some [Some (str "x"); None])); NewValue demo_record (demo_row None None);
   NewValue demo_record (demo_row (Some [zb 2]) (Some []))].
Definition demo_bytes : list bytes :=
  [demo_row (Some [zb 2]) (Some [Some (str "x"); Some (str "y")]); None; Some [zb 14]; demo_row (Some [zb 4]) (Some [Some (str "x"); None]);
   demo_row None None; demo_row (Some [zb 2]) (Some [])].
Lemma demo_vng_context_wf : wf demo_context /\ member demo_context demo_record.
Proof.
  split; [|by intros _]. destruct (array_lookup NewContext NewContext_wf (TPrim String) (member_prim _ _)) as (i & c & E & Hw & _ & Hm).
  destruct (record_lookup c Hw [(str "n", TPrim Int64); (str "s", TArray i (TPrim String))]) as (j & c' & E' & Hw' & _).
  - done.
  - by repeat constructor.
  - apply Forall_cons. split; [apply member_prim|]. apply Forall_cons. by split; [exact Hm|].
  - apply duplicateField_None. reflexivity.
  - unfold demo_context. rewrite (M_bind_Ok _ _ _ _ _ E), E'. exact Hw'.
Qed.
Local Abbreviation same := (fun z : Z => z).
Lemma demo_vng_writable : Forall2 (writable same same shortest) demo_values demo_bytes.
Proof.
  assert (Ho : ordinary demo_record) by (apply hereditary_components; split; [done|]; cbn; repeat constructor).
  assert (Hn : forall i, int64 i -> storable shortest (TPrim Int64) (AppendInt None i)) by (intros i Hi; cbn; by exists i).
  assert (Hi : storable shortest (TPrim Int64) (Some [zb 2]) /\ storable shortest (TPrim Int64) (Some [zb 4]) /\ storable shortest (TPrim Int64) (Some [zb 14])).
  { split; [apply (Hn 1)|split; [apply (Hn 2)|apply (Hn 7)]]; unfold int64; lia. }
  destruct Hi as (H1 & H2 & H7).
  assert (Hs : forall n vs, storable shortest (TPrim Int64) n -> storable shortest demo_record (demo_row n vs)).
  { intros n vs Hn'. cbn. exists [n; option_map body_of vs]. split; [done|]. split; [exact Hn'|]. split; [|done]. destruct vs as [vs|]; [|done]. cbn. exists vs.
    split; [done|]. apply Forall_forall. intros [x|] _; done. }
  repeat constructor; cbn [v_type NewValue]; try (apply Hs); try done.
Qed.
Lemma vng_roundtrip_witness :
  let ids A (l : list A) := l in let backwards A (l : list A) := reverse l in
  exists d f o r sh' vals',
    write_all same same same same NewDynamicEncoder demo_values = Ok d /\
    finalize (LZ := vng_runs) same same same same ids backwards demo_marshal d = Ok f /\ NewObject demo_unmarshal f = Ok o /\
    NewZedReader same same (o_meta o) NewContext = Ok (r, sh') /\ gives (LZ := vng_runs) same same (o_data o) (meta_depth (o_meta o)) r vals' /\
    Forall2 (same_value same same sh') demo_values vals'.
Proof.
  intros ids backwards. destruct demo_vng_context_wf as [Hc Hm].
  destruct (@vng_roundtrip same same same same vng_runs vng_runs_laws ids backwards (fun _ _ => Permutation_refl _) (fun _ => reverse_Permutation) demo_marshal demo_unmarshal
    demo_context demo_values demo_bytes Hc demo_vng_writable) as (d & m & size & d' & Ed & Ee & H).
  { unfold demo_values. repeat (apply Forall_cons; split; [first [exact Hm|apply member_prim]|]). apply Forall_nil_2. }
  { reflexivity. }
  assert (Hx : exists x, demo_unmarshal (demo_marshal m) = Some m /\ zlen (demo_marshal m) <= MaxMetaSize /\ zlen (dynamic_Emit d') < 2 ^ 63 /\ x = tt).
  { exists tt. vm_compute in Ed. injection Ed as <-. vm_compute in Ee. injection Ee as <- _ <-. split; [by vm_compute|]. split; [by vm_compute|]. split; [by vm_compute|done]. }
  destruct Hx as (_ & Hu & Hms & Hz & _). destruct (H Hu Hms Hz) as (f & Ef & o & Eo & Hread). destruct (Hread NewContext NewContext_wf) as (r & sh' & Er & _ & Hg).
  destruct (Hg _ (le_n _)) as (vals' & Hv & Hs). exists d, f, o, r, sh', vals'.
  split; [exact Ed|]. split; [exact Ef|]. split; [exact Eo|]. split; [exact Er|]. split; [exact Hv|exact Hs].
Defined.

(** A dictionary of both zeros of [float64] is sorted twice, each time from
    another order of iteration, and they compare equal: what is written as zero
    is read as minus zero. *)
Definition zero : bytes := Some (replicate 8 (zb 0)).
Definition minus_zero : bytes := Some (replicate 7 (zb 0) ++ [zb 128]).
Definition first_read (vals : list Value) : outcome vng_error (option Value) :=
  d ← write_all same same same same NewDynamicEncoder vals;
  f ← finalize (LZ := vng_runs) same same same same (fun _ l => l) (fun _ l => reverse l) demo_marshal d;
  o ← NewObject demo_unmarshal f;
  '(r, _) ← NewZedReader same same (o_meta o) NewContext;
  '(v, _) ← Read (LZ := vng_runs) same same (o_data o) (meta_depth (o_meta o)) r;
  Ok v.
Theorem zeros_swapped :
  first_read [NewValue (TPrim Float64) zero; NewValue (TPrim Float64) minus_zero] = Ok (Some (NewValue (TPrim Float64) minus_zero)).
Proof. by vm_compute. Qed.

(** A data section over the limit is accepted: the size of the metadata is
    compared with the limit instead. *)
Theorem data_limit_ignored n :
  0 <= n < 2 ^ 64 -> Deserialize (Serialize (mkHeader Version 0 n)) = Ok (mkHeader Version 0 n).
Proof. intros H. by apply header_roundtrip. Qed.
